(* ===== verification/_CoqProject ===== *)
-Q . S2P
Prelude.v
MachineInt.v
BitUtil.v
FixedPoint.v
Effects.v
TableOfTables.v
TranslationCache.v
TranslationCacheProps.v
CacheProtocol.v
GuestMapShadow.v
RiscvInsn.v
RiscvDecoder.v
RiscvAssembler.v
RiscvDecoderProps.v
RiscvAssemblerProps.v
RiscvRoundTrip.v
RiscvLabels.v
RiscvCompressed.v
GuestState.v
Intrinsics.v
SemanticsPlayer.v
Interpreter.v
InterpreterProps.v
ReferenceHost.v
InterpreterSpec.v
AssembledCode.v
ReservationMachine.v
Translator.v
ExecutableCode.v
MachineIR.v
Lifetime.v
LifetimeAnalysis.v
RegAlloc.v
RegAllocProps.v
RegAllocTermination.v
LifetimeAnalysisProps.v
AllocRegsProps.v
RegAllocExamples.v
Liveness.v
MachineIRCheck.v
MachineSem.v
DeadCode.v
BlockOrder.v
ControlFlow.v
Forwarders.v
RenameCopyUses.v
RenameVRegs.v
RenameVRegsProps.v
RenameVRegsConnect.v
RenameVRegsSim.v
RenameVRegsLive.v
RenameVRegsCorrect.v
OptimizerPipeline.v
OptimizerExamples.v
GuestContext.v
GuestContextProps.v
LocalContext.v
LocalContextProps.v
ContextPipeline.v
GuestContextExamples.v
LoopAnalysis.v
LoopAnalysisProps.v
LoopExamples.v
