(* ===== verification/Prelude.v ===== *)
(** * Verification of the Berberis binary translator

    Berberis runs programs of one instruction set (the guest, here RISC-V 64) on
    a host of another one.  Guest code is decoded, and either interpreted or
    translated to host code; translations are kept in a cache that all threads
    share and are thrown away when the guest changes or unmaps its code.  This
    library models the parts of that path that are written out in the
    repository, and proves what makes them correct.  Names are those of the
    sources; paths below are relative to src/.

    ** The parts, and where they are modelled

    Integers and helpers
    - MachineInt: the C++ integer types, conversions ([cast]) and promotions.  A
      value of an integer type is the integer it denotes, and every wrap-around
      is written out.  C++ operations with undefined results are [option]s.
    - BitUtil: base/include/berberis/base/bit_util.h.
    - FixedPoint: intrinsics/include/berberis/intrinsics/
      intrinsics_fixed_point_impl.h and intrinsics_bitmanip_impl.h.
    - Intrinsics: intrinsics/riscv64_to_arm64/include/berberis/intrinsics/
      intrinsics.h, intrinsics_atomics_impl.h and interpreter/riscv64/regs.h.

    Decoding and assembling
    - RiscvInsn: the opcode enumerations and argument structures of
      decoder/include/berberis/decoder/riscv64/decoder.h; an instruction is the
      call [InsnCall] the decoder makes to its consumer.
    - RiscvDecoder: all decoding functions of that file.  [Decode] takes 16-bit
      parcels and returns the calls and the size.
    - RiscvAssembler: assembler/include/berberis/assembler/riscv.h, riscv64.h,
      common.h and machine_code.h, with the opcode tables of
      assembler/instructions/insn_def_riscv.json and insn_def_riscv64.json.

    Executing
    - GuestState: guest_state/riscv64/include/berberis/guest_state/
      guest_state_arch.h, the recoverable memory accesses, and
      runtime_primitives/memory_region_reservation.h and .cc for one thread.
      Memory is a map of bytes, each with the permission to write it; loads fault
      on bytes that are not mapped, stores also on those that are not writable.
    - SemanticsPlayer: decoder/include/berberis/decoder/riscv64/
      semantics_player.h, over a listener that is a type class.
    - Interpreter: interpreter/riscv64/interpreter.h and interpreter-main.cc, an
      instance of that class.  The hooks the build generates, floating point, the
      kernel and vector operations are the class [Host]; ReferenceHost is an
      instance to evaluate programs with.
    - ReservationMachine: the reservations again, access by access, for any number
      of CPUs, while others store to memory and change its mapping; an access of
      the reservations to memory that refuses it is a host fault.

    Translating
    - Effects: the monad of the run-time components (a state, and failure for a
      failed CHECK or the use of a freed object), and traces of steps.
    - TableOfTables: runtime_primitives/table_of_tables.h, as functions and as a
      step relation for its double-checked lock.  The class [AddressMapOk] is what
      it promises to the cache.
    - TranslationCache: runtime_primitives/translation_cache.h and .cc.  Entries
      live in a heap with addresses, as the code hands out pointers to them.
    - TranslationCacheProps, CacheProtocol: the invariant of the cache, and the
      operations of all threads as a sequence of actions.
    - GuestMapShadow: guest_os_primitives/guest_map_shadow.h and .cc, and the
      memory calls of kernel_api/sys_mman_emulation.cc.
    - Translator: runtime/riscv64/translator_x86_64.cc and translator.cc,
      lite_translator/riscv64_to_x86_64/lite_translate_region.cc and
      heavy_optimizer/riscv64/heavy_optimize_region.cc.  A translation is a
      program over the calls it makes; the code generators are the class
      [InsnTranslator].
    - ExecutableCode: translations, memory calls on any range, invalidations and
      forks of all threads, interleaved call by call.  The pages that an unaligned
      call or a fork leaves without their invalidation are recorded beside the
      state.

    Generating code (backend/, the back end of the heavy optimizer)
    - MachineIR: common/machine_ir.h, x86_64/machine_ir.h and the pseudo
      instructions of x86_64/code.cc.  Blocks and edges are objects in maps, so
      that blocks share edges as they do through pointers.
    - MachineIRCheck: x86_64/machine_ir_check.cc.
    - Liveness: x86_64/vreg_bit_set.h, liveness_analyzer.h and .cc.
    - Lifetime, LifetimeAnalysis: common/lifetime.h, lifetime_analysis.h and .cc;
      lifetimes live in a store, as the move hints and the lists of the allocator
      are pointers to them.
    - RegAlloc: common/reg_alloc.cc, from the collection of lifetimes to the
      rewriting of instructions.  RegAllocProps, RegAllocTermination,
      LifetimeAnalysisProps and AllocRegsProps hold its theorems, RegAllocExamples
      runs of it.
    - MachineSem: what a graph of blocks computes, over a machine that is the class
      [MachineSem], with what the optimizer relies on in [MachineSemOk].
    - DeadCode, ControlFlow, Forwarders: RemoveDeadCode, RemoveCriticalEdges and
      RemoveForwarderBlocks of x86_64/machine_ir_opt.cc.  What a vector gives
      access to after clear() is the class [VectorClear].
    - BlockOrder: RemoveNopPseudoCopy and MoveColdBlocksToEnd of
      common/machine_ir_opt.cc.
    - RenameCopyUses: x86_64/rename_copy_uses.h and .cc.
    - RenameVRegs: x86_64/rename_vregs.h and .cc.  RenameVRegsProps (the map of
      the names), RenameVRegsConnect (the copies on the edges), RenameVRegsSim
      (the simulation), RenameVRegsLive (the live-out sets) and
      RenameVRegsCorrect hold its theorems.
    - OptimizerPipeline: the passes in the order of x86_64/code_gen.cc;
      OptimizerExamples: a machine, checkers for the conditions of the theorems
      and graphs to apply them to.
    - GuestContext: the accesses to CPUState of x86_64/machine_ir.h,
      x86_64/context_liveness_analyzer.h and .cc, and RemoveRedundantPut.
      LocalContext: x86_64/local_guest_context_optimizer.cc.  GuestContextProps
      and LocalContextProps hold their theorems, ContextPipeline composes the two
      passes, GuestContextExamples has a machine with a context and graphs.  The
      layout of CPUState is the class [ContextLayout]; what gets and puts do is in
      [ContextSem] and [LocalSem].
    - LoopAnalysis: x86_64/machine_ir_analysis.h and .cc, and
      ReorderBasicBlocksInReversePostOrder of x86_64/machine_ir_opt.cc; the orders
      std::sort gives are the class [LoopSort].  LoopAnalysisProps holds its
      theorems, LoopExamples a graph with nested loops.

    ** What is proved

    - Decoder (RiscvDecoderProps, RiscvCompressed): decoding is total, its
      arguments are in range, and a compressed instruction makes the call of its
      expansion in the manual, but for two listed sets: legal encodings that the
      decoder does not know and reserved ones that it accepts.
    - Assembler (RiscvAssemblerProps, RiscvRoundTrip, RiscvLabels): what it emits
      decodes to what was meant, for every entry of the tables; immediates are
      accepted exactly when they fit; labels are resolved to their distance, or
      rejected.
    - Interpreter (InterpreterProps, InterpreterSpec): the guest state stays well
      formed, exceptions are precise, only the destination changes among the
      integer, floating-point and control registers, and the process ends only in
      the cases listed by [may_abort]; integer operations, loads and stores,
      control flow and control registers compute what the manual says, or what
      their generated intrinsic gives.
    - Assembler, decoder and interpreter together (AssembledCode): the code for a
      constant loads it, with the exception [Li_overflow] describes.
    - Reservations (ReservationMachine): a store-conditional succeeds only if its
      region was not written since the load, under all interleavings; the
      one-thread functions refine the machine, operation by operation; an
      operation ends within three steps, in a host fault when its region is not
      mapped or not writable.
    - Run time (TableOfTables, CacheProtocol, GuestMapShadow, Translator,
      ExecutableCode): pointers into the table stay valid; no thread ever fails a
      check of the cache; executed code is fresh and comes from executable
      memory, but for the bytes that an unaligned ClearExecutable or a fork during
      one misses; memory calls with page-aligned addresses invalidate what they
      must; the loops end.
    - Back end: the checker accepts exactly the well-linked graphs; the liveness
      analysis ends and is exact; the lifetime analysis records every operand
      once, at its ticks; the loop of the allocator ends; allocated lifetimes that share a
      register do not overlap when they were taken in order of their begins, no
      virtual register is left, and two runs show how the order is lost
      ([two_spills_conflict], [overwritten_live_in_conflict]).
    - Optimizer: each pass ends, passes its checks and leaves the graph
      computing the same, in the exits, the world and the registers that are not
      virtual; critical edges and forwarders are gone, the graph stays one the
      checker accepts, and the live-out sets solve the equations of liveness, so
      that the passes compose ([passes_compose]).  The conditions on the graph
      that the passes do not check are part of the statements: that no register
      that lives into a recovery block is written at or after the instruction it
      belongs to ([recovery_clean]), and that the cleared set of RemoveDeadCode
      stays within reach ([keeps_storage], without which the pass fails,
      [RemoveDeadCode_standard]).
    - Guest context: the optimizers of its accesses keep the context that the
      executions leave, when the accesses at an offset have one width, nothing
      else accesses the context, and instructions that may leave a block in its
      middle are as the frontends place them ([access_graph], [putting]); with
      two widths bytes are lost ([narrow_put_loses_bytes]).
    - Loops: the reverse post order has exactly the reachable blocks, each once;
      the loops found are exactly the natural loops of the heads that dominate
      their back edges from every block without predecessors; the tree holds each
      of them once, nested.
    - Integers: exactness of saturating and wrapping arithmetic, rounding,
      division and bit operations at all widths.

    ** Bounds and fuel

    Recursion that is not structural has fuel, and theorems state that it is
    enough: [page_fuel], the pages of a range and one more; [region_fuel], one
    more than the bytes of a region, as every instruction has at least two; for
    the 64-bit [Li] seven, as a turn clears the low twelve bits or shifts them
    away; [work_bound] and [run_bound], the bits that can be set and the blocks
    queued for each; [critical_fuel], the blocks and the edges a block can be put on; for the
    analysis of loops [num_bb], as every call and every turn has a new block.  The
    loop of the register allocator takes any fuel; [Allocate_ends] shows that enough fuel
    exists when the register classes are nested.  The page size is 2^k with k a
    parameter up to 16.  Theorems about interleavings are by induction on the
    execution, for any number of threads and steps; accesses to memory are
    sequentially consistent.

    ** Not modelled

    The arm64 guest (its decoder, interpreter and translators), the x86_64 and
    loongarch64 assemblers and everything that emits host code through them (the
    code generators of the lite translator and the heavy optimizer, the emission
    of the backend, trampolines), as the host's instruction set is generated from
    tables and is not written out; the passes of the backend that look into the
    instructions of the host (flags, folding) and the optimizer of accesses to the
    guest context in loops; vector and floating-point operations of the
    interpreter, which use generated or host intrinsics; threads, signals, system
    calls other than memory calls, ELF loading, the native bridge and JNI, which are host I/O and glue.

    This file: notations, hint databases, tactics and lemmas on lists, options
    and integers that the other files share. *)
From Stdlib Require Export ZArith Lia Bool.
From stdpp Require Export base list gmap.
From stdpp Require Import sorting.

#[global] Open Scope Z_scope.

(** ** Notation

    The notations of the development live in a scope of their own. *)
Declare Scope berberis_scope.
Delimit Scope berberis_scope with berberis.

(** The [len] bits of [x] that start at bit [lo], as a natural number. *)
Definition bits (x lo len : Z) : Z := (x / 2 ^ lo) mod 2 ^ len.

Notation "x .[ lo , len ]" := (bits x lo len)
  (at level 1, left associativity, format "x .[ lo ,  len ]") : berberis_scope.

#[global] Open Scope berberis_scope.

(** ** Hint and rewrite databases *)

(** Bit extraction through the integer operators. *)
Create Rewrite HintDb zbits.

(** Ranges of machine integers, register numbers and bit fields. *)
Create HintDb zrange discriminated.

(** ** Tactics *)

(** Reflects boolean comparisons on [Z] that occur anywhere into facts. *)
Ltac zreflect :=
  repeat match goal with
  | H : context [Z.eqb ?a ?b] |- _ => destruct (Z.eqb_spec a b)
  | H : context [Z.ltb ?a ?b] |- _ => destruct (Z.ltb_spec a b)
  | H : context [Z.leb ?a ?b] |- _ => destruct (Z.leb_spec a b)
  | |- context [Z.eqb ?a ?b] => destruct (Z.eqb_spec a b)
  | |- context [Z.ltb ?a ?b] => destruct (Z.ltb_spec a b)
  | |- context [Z.leb ?a ?b] => destruct (Z.leb_spec a b)
  end.

(** Splits on the scrutinee of the outermost [if] or [match] of the goal. *)
Ltac case_goal :=
  match goal with
  | |- context [match ?x with _ => _ end] => destruct x eqn:?
  end.

(** The same in a hypothesis. *)
Ltac case_hyp H :=
  match type of H with
  | context [match ?x with _ => _ end] => destruct x eqn:?
  end.

(** Linear arithmetic with division and remainder by numerals. *)
Ltac zdivmod := Z.to_euclidean_division_equations; lia.

(** Evaluates the bitwise operators whose operands are numerals. *)
Ltac zground :=
  repeat match goal with
  | |- context [Z.land ?a ?b] => let c := eval vm_compute in (Z.land a b) in
      lazymatch c with Z0 => idtac | Zpos _ => idtac | Zneg _ => idtac end;
      change (Z.land a b) with c
  | |- context [Z.lor ?a ?b] => let c := eval vm_compute in (Z.lor a b) in
      lazymatch c with Z0 => idtac | Zpos _ => idtac | Zneg _ => idtac end;
      change (Z.lor a b) with c
  end.

(** ** Powers of two *)

Lemma pow2_pos (n : Z) : 0 <= n -> 0 < 2 ^ n.
Proof. intros; apply Z.pow_pos_nonneg; lia. Qed.

Lemma pow2_double (n : Z) : 0 < n -> 2 ^ n = 2 * 2 ^ (n - 1).
Proof. intros; rewrite <- Z.pow_succ_r by lia; f_equal; lia. Qed.

Lemma pow2_le_mono (a b : Z) : a <= b -> 2 ^ a <= 2 ^ b.
Proof. intros; apply Z.pow_le_mono_r; lia. Qed.

Lemma pow2_split (a b : Z) : 0 <= a <= b -> 2 ^ b = 2 ^ a * 2 ^ (b - a).
Proof. intros; rewrite <- Z.pow_add_r by lia; f_equal; lia. Qed.

#[export] Hint Resolve pow2_pos : zrange.

(** ** Bits of an integer *)

Lemma testbit_mod_pow2 (x n i : Z) :
  0 <= n -> Z.testbit (x mod 2 ^ n) i = (i <? n) && Z.testbit x i.
Proof.
  intros; destruct (Z.ltb_spec i n).
  - destruct (decide (0 <= i)).
    + by rewrite Z.mod_pow2_bits_low by lia.
    + by rewrite !Z.testbit_neg_r by lia.
  - by rewrite Z.mod_pow2_bits_high by lia.
Qed.

Lemma testbit_shiftl (x n i : Z) :
  Z.testbit (Z.shiftl x n) i = (0 <=? i) && Z.testbit x (i - n).
Proof.
  destruct (Z.leb_spec 0 i).
  - by rewrite Z.shiftl_spec by lia.
  - by rewrite Z.testbit_neg_r by lia.
Qed.

Lemma testbit_shiftr (x n i : Z) :
  Z.testbit (Z.shiftr x n) i = (0 <=? i) && Z.testbit x (i + n).
Proof.
  destruct (Z.leb_spec 0 i).
  - by rewrite Z.shiftr_spec by lia.
  - by rewrite Z.testbit_neg_r by lia.
Qed.

Lemma testbit_lnot (x i : Z) :
  Z.testbit (Z.lnot x) i = (0 <=? i) && negb (Z.testbit x i).
Proof.
  destruct (Z.leb_spec 0 i).
  - by rewrite Z.lnot_spec by lia.
  - by rewrite Z.testbit_neg_r by lia.
Qed.

Lemma testbit_ones (n i : Z) :
  0 <= n -> Z.testbit (Z.ones n) i = (0 <=? i) && (i <? n).
Proof. intros; by rewrite Z.testbit_ones. Qed.

Lemma testbit_bits (x lo len i : Z) :
  0 <= lo -> 0 <= len ->
  Z.testbit (bits x lo len) i = (0 <=? i) && (i <? len) && Z.testbit x (i + lo).
Proof.
  intros; unfold bits; rewrite testbit_mod_pow2 by lia.
  rewrite <- Z.shiftr_div_pow2 by lia; rewrite testbit_shiftr.
  by destruct (0 <=? i), (i <? len).
Qed.

(** An unsigned [n]-bit value has no bit at or above [n]. *)
Lemma testbit_bounded (x n i : Z) :
  0 <= x < 2 ^ n -> n <= i -> Z.testbit x i = false.
Proof.
  intros Hx Hi; destruct (decide (x = 0)) as [-> | Hnz]; [apply Z.bits_0 |].
  apply Z.bits_above_log2; [lia |].
  apply Z.lt_le_trans with n; [| lia]; apply Z.log2_lt_pow2; lia.
Qed.

(** A value whose bits at and above [n] are clear fits [n] bits. *)
Lemma bounded_of_testbit (x n : Z) :
  0 <= n -> (forall i, n <= i -> Z.testbit x i = false) -> 0 <= x < 2 ^ n.
Proof.
  intros Hn Hb.
  assert (x = x mod 2 ^ n) as ->; [| apply Z.mod_pos_bound; auto using pow2_pos].
  apply Z.bits_inj'; intros i Hi; rewrite testbit_mod_pow2 by lia.
  destruct (Z.ltb_spec i n); [done | by apply Hb].
Qed.

#[export] Hint Rewrite Z.land_spec Z.lor_spec Z.lxor_spec testbit_shiftl
  testbit_shiftr testbit_lnot Z.bits_0 : zbits.
#[export] Hint Rewrite testbit_mod_pow2 testbit_ones testbit_bits using lia : zbits.

(** Proves an equality of integers bit by bit. *)
Ltac zbitwise :=
  apply Z.bits_inj'; intros ?i ?Hi; autorewrite with zbits; zreflect; cbn [andb orb negb];
  rewrite ?andb_false_r, ?orb_false_r, ?andb_true_r.

(** ** Bit slices *)



Section BitSlices.
Implicit Types x y lo n k : Z.

Lemma bits_range x lo n : 0 <= n -> 0 <= bits x lo n < 2 ^ n.
Proof. intros; apply Z.mod_pos_bound, pow2_pos; lia. Qed.

Lemma bits_lor x y lo n :
  0 <= lo -> 0 <= n -> bits (Z.lor x y) lo n = Z.lor (bits x lo n) (bits y lo n).
Proof.
  intros; apply Z.bits_inj'; intros i Hi; autorewrite with zbits.
  by destruct (0 <=? i), (i <? n), (Z.testbit x (i + lo)).
Qed.

Lemma bits_land x y lo n :
  0 <= lo -> 0 <= n -> bits (Z.land x y) lo n = Z.land (bits x lo n) (bits y lo n).
Proof.
  intros; apply Z.bits_inj'; intros i Hi; autorewrite with zbits.
  by destruct (0 <=? i), (i <? n), (Z.testbit x (i + lo)).
Qed.

Lemma bits_shiftl_above x k lo n :
  0 <= k <= lo -> 0 <= n -> bits (Z.shiftl x k) lo n = bits x (lo - k) n.
Proof.
  intros; apply Z.bits_inj'; intros i Hi; autorewrite with zbits.
  zreflect; cbn [andb]; try done; try lia; f_equal; lia.
Qed.

Lemma bits_shiftl_below x k lo n : 0 <= lo -> 0 <= n -> lo + n <= k -> bits (Z.shiftl x k) lo n = 0.
Proof.
  intros; apply Z.bits_inj'; intros i Hi; autorewrite with zbits.
  zreflect; cbn [andb]; try done; try lia; apply Z.testbit_neg_r; lia.
Qed.

Lemma bits_shiftr x k lo n :
  0 <= k -> 0 <= lo -> 0 <= n -> bits (Z.shiftr x k) lo n = bits x (lo + k) n.
Proof.
  intros; apply Z.bits_inj'; intros i Hi; autorewrite with zbits.
  zreflect; cbn [andb]; try done; try lia; f_equal; lia.
Qed.

Lemma bits_small x n : 0 <= x < 2 ^ n -> bits x 0 n = x.
Proof. intros; unfold bits; rewrite Z.div_1_r; by apply Z.mod_small. Qed.

Lemma bits_above x m lo n : 0 <= x < 2 ^ m -> 0 <= m <= lo -> 0 <= n -> bits x lo n = 0.
Proof.
  intros Hx Hm Hn; unfold bits; rewrite Z.div_small; [apply Z.mod_0_l |].
  - pose proof (pow2_pos n); lia.
  - pose proof (pow2_le_mono m lo); lia.
Qed.

Lemma bits_bits x lo m lo' n :
  0 <= lo -> 0 <= lo' -> 0 <= n -> lo' + n <= m ->
  bits (bits x lo m) lo' n = bits x (lo + lo') n.
Proof.
  intros; apply Z.bits_inj'; intros i Hi; autorewrite with zbits.
  zreflect; cbn [andb]; try done; try lia; f_equal; lia.
Qed.

(** Adjacent slices concatenate. *)
Lemma bits_concat x lo m n :
  0 <= lo -> 0 <= m -> 0 <= n ->
  Z.lor (bits x lo m) (Z.shiftl (bits x (lo + m) n) m) = bits x lo (m + n).
Proof.
  intros; apply Z.bits_inj'; intros i Hi; autorewrite with zbits.
  zreflect; cbn [andb orb]; rewrite ?orb_false_r; try done; try lia; f_equal; lia.
Qed.

Lemma bits_concat_at x lo m hi n len :
  0 <= lo -> 0 <= m -> 0 <= n -> hi = lo + m -> len = m + n ->
  Z.lor (bits x lo m) (Z.shiftl (bits x hi n) m) = bits x lo len.
Proof. intros ? ? ? -> ->; by apply bits_concat. Qed.
End BitSlices.

#[export] Hint Resolve bits_range : zrange.

(** ** Exhaustive checks

    [forall_bits n lo P] tests [P] on the [2^n] integers from [lo], halving the
    interval so that evaluation needs no unary numbers. *)
Fixpoint forall_bits (n : nat) (lo : Z) (P : Z -> bool) : bool :=
  match n with
  | O => P lo
  | S n => forall_bits n lo P && forall_bits n (lo + 2 ^ Z.of_nat n) P
  end.

Lemma forall_bits_spec (n : nat) (lo : Z) (P : Z -> bool) :
  forall_bits n lo P = true -> forall x, lo <= x < lo + 2 ^ Z.of_nat n -> P x = true.
Proof.
  revert lo; induction n as [| n IH]; intros lo; cbn [forall_bits].
  - intros HP x Hx; replace x with lo by (cbn in Hx; lia); done.
  - rewrite andb_true_iff; intros [H1 H2] x Hx.
    rewrite Nat2Z.inj_succ, Z.pow_succ_r in Hx by lia.
    destruct (decide (x < lo + 2 ^ Z.of_nat n)); [apply (IH lo) | apply (IH (lo + 2 ^ Z.of_nat n))];
      (done || lia).
Qed.

(** ** Little-endian bytes *)

Fixpoint le_split (n : nat) (v : Z) : list Z :=
  match n with
  | O => []
  | S n => v mod 2 ^ 8 :: le_split n (v / 2 ^ 8)
  end.

Fixpoint le_combine (l : list Z) : Z :=
  match l with
  | [] => 0
  | b :: l => b + 2 ^ 8 * le_combine l
  end.

Lemma length_le_split n v : length (le_split n v) = n.
Proof. revert v; induction n as [| n IH]; intros v; cbn; [done | by rewrite IH]. Qed.

Lemma le_combine_split n v : le_combine (le_split n v) = v mod 2 ^ (8 * Z.of_nat n).
Proof.
  revert v; induction n as [| n IH]; intros v; cbn [le_split le_combine].
  - by rewrite Z.mul_0_r, Z.mod_1_r.
  - rewrite IH; replace (8 * Z.of_nat (S n)) with (8 + 8 * Z.of_nat n) by lia.
    rewrite Z.pow_add_r by lia; rewrite Z.rem_mul_r by (try apply Z.pow_nonzero; lia); lia.
Qed.

Lemma le_split_range n v b : b ∈ le_split n v -> 0 <= b < 2 ^ 8.
Proof.
  revert v; induction n as [| n IH]; intros v; cbn [le_split].
  - by intros Hb%not_elem_of_nil.
  - intros [-> | Hb]%elem_of_cons; [apply Z.mod_pos_bound; lia | eauto].
Qed.

(** ** Lists *)

Lemma elem_of_middle {A : Type} (x : A) l l' : x ∈ l ++ x :: l'.
Proof. apply elem_of_app; right; apply elem_of_cons; by left. Qed.

Lemma lookup_snoc_cases {A : Type} (l : list A) x n y : (l ++ [x]) !! n = Some y -> l !! n = Some y \/ n = length l /\ y = x.
Proof. intros [? | [? Hs]]%lookup_app_Some; [by left | right]; apply list_lookup_singleton_Some in Hs as [? ->]; split; [lia | done]. Qed.

Lemma merge_sort_lookup {A : Type} (R : relation A) `{!RelDecision R} `{!Transitive R} `{!Total R} l i j x y :
  merge_sort R l !! i = Some x -> merge_sort R l !! j = Some y -> (i < j)%nat -> R x y.
Proof.
  assert (Hs : StronglySorted R (merge_sort R l)) by apply (StronglySorted_merge_sort R l); revert i j Hs; generalize (merge_sort R l) as m; clear l.
  intros m i j Hs; revert i j; induction Hs as [| z m Hs IH Hall]; intros i j Hx Hy Hlt; [done |]; destruct j as [| j]; [lia |]; destruct i as [| i]; cbn in *; [| by apply (IH i j); [| | lia]].
  injection Hx as <-; rewrite Forall_forall in Hall; by apply (Hall y), list_elem_of_lookup_2 with j.
Qed.
