(* ===== verification/MachineInt.v ===== *)
(** * Machine integers

    The C++ integer types the sources compute with.  A value of type
    [uintN_t] or [intN_t] is the integer it denotes; a conversion
    ([static_cast<T>]) is [cast], reduction modulo [2^N] into the range of the
    type (two's complement for the signed types).  [promote] and
    [common_type] are the integer promotions and the usual arithmetic
    conversions, which decide at which width a mixed expression is computed. *)
From S2P Require Import Prelude.

Record IntType := mkIntType { width : Z; is_signed : bool }.

#[export] Instance IntType_eq_dec : EqDecision IntType.
Proof. solve_decision. Defined.

Definition u8 := mkIntType 8 false.
Definition i8 := mkIntType 8 true.
Definition u16 := mkIntType 16 false.
Definition i16 := mkIntType 16 true.
Definition u32 := mkIntType 32 false.
Definition i32 := mkIntType 32 true.
Definition u64 := mkIntType 64 false.
Definition i64 := mkIntType 64 true.
Definition u128 := mkIntType 128 false.
Definition i128 := mkIntType 128 true.

(** [std::make_signed_t] and [std::make_unsigned_t]. *)
Definition make_signed (t : IntType) : IntType := mkIntType (width t) true.
Definition make_unsigned (t : IntType) : IntType := mkIntType (width t) false.

(** [std::numeric_limits<T>::min()] and [max()]. *)
Definition int_min (t : IntType) : Z := if is_signed t then - 2 ^ (width t - 1) else 0.
Definition int_max (t : IntType) : Z :=
  if is_signed t then 2 ^ (width t - 1) - 1 else 2 ^ width t - 1.

(** [static_cast<T>(x)]. *)
Definition cast (t : IntType) (x : Z) : Z :=
  if is_signed t then (x + 2 ^ (width t - 1)) mod 2 ^ width t - 2 ^ (width t - 1)
  else x mod 2 ^ width t.

Definition in_range (t : IntType) (x : Z) : Prop := int_min t <= x <= int_max t.
Definition in_rangeb (t : IntType) (x : Z) : bool :=
  (int_min t <=? x) && (x <=? int_max t).

#[export] Instance in_range_dec t x : Decision (in_range t x).
Proof. unfold in_range; apply _. Defined.

Arguments in_range : simpl never.
Arguments cast : simpl never.

(** The integer promotions: a type narrower than [int] becomes [int]. *)
Definition promote (t : IntType) : IntType := if width t <? 32 then i32 else t.

(** The usual arithmetic conversions. *)
Definition common_type (t1 t2 : IntType) : IntType :=
  let t1 := promote t1 in
  let t2 := promote t2 in
  if width t1 <? width t2 then t2
  else if width t2 <? width t1 then t1
  else if is_signed t1 then t2 else t1.

(** ** Laws *)

Class IntTypeOk (t : IntType) : Prop := width_pos : 0 < width t.

#[export] Hint Extern 0 (IntTypeOk _) => (unfold IntTypeOk; cbn; lia) : typeclass_instances.

Section Cast.
Context (t : IntType) `{!IntTypeOk t}.

Lemma half_range : 2 ^ width t = 2 * 2 ^ (width t - 1).
Proof using IntTypeOk0. apply pow2_double, width_pos. Qed.

Lemma half_pos : 0 < 2 ^ (width t - 1).
Proof using IntTypeOk0. pose proof (width_pos (t := t)); apply pow2_pos; lia. Qed.

Lemma range_pos : 0 < 2 ^ width t.
Proof using IntTypeOk0. pose proof (width_pos (t := t)); apply pow2_pos; lia. Qed.

Lemma in_rangeb_spec (x : Z) : in_rangeb t x = true <-> in_range t x.
Proof. unfold in_rangeb, in_range; rewrite andb_true_iff, !Z.leb_le; done. Qed.

Lemma in_rangeb_false (x : Z) : in_rangeb t x = false <-> ~ in_range t x.
Proof. rewrite <- in_rangeb_spec; by destruct (in_rangeb t x). Qed.

(** A conversion always lands in the range of its type. *)
Lemma cast_in_range (x : Z) : in_range t (cast t x).
Proof using IntTypeOk0.
  unfold in_range, int_min, int_max, cast.
  pose proof half_range; pose proof half_pos; pose proof range_pos.
  destruct (is_signed t).
  - pose proof (Z.mod_pos_bound (x + 2 ^ (width t - 1)) (2 ^ width t) ltac:(lia)); lia.
  - pose proof (Z.mod_pos_bound x (2 ^ width t) ltac:(lia)); lia.
Qed.

(** A conversion keeps a value its type can represent. *)
Lemma cast_id (x : Z) : in_range t x -> cast t x = x.
Proof using IntTypeOk0.
  unfold in_range, int_min, int_max, cast.
  pose proof half_range; pose proof half_pos.
  destruct (is_signed t); intros; rewrite Z.mod_small by lia; lia.
Qed.

Lemma cast_idemp (x : Z) : cast t (cast t x) = cast t x.
Proof using IntTypeOk0. apply cast_id, cast_in_range. Qed.

(** A conversion is reduction modulo [2^width]. *)
Lemma cast_mod (x : Z) : cast t x mod 2 ^ width t = x mod 2 ^ width t.
Proof using IntTypeOk0.
  pose proof range_pos; unfold cast; destruct (is_signed t).
  - rewrite Zminus_mod_idemp_l; f_equal; lia.
  - by rewrite Z.mod_mod by lia.
Qed.

Lemma cast_congr (x y : Z) : x mod 2 ^ width t = y mod 2 ^ width t -> cast t x = cast t y.
Proof using IntTypeOk0.
  intros H; unfold cast; destruct (is_signed t); [| done].
  by rewrite <- (Zplus_mod_idemp_l x), <- (Zplus_mod_idemp_l y), H.
Qed.

(** The result is determined by its range and its residue. *)
Lemma cast_unique (x y : Z) :
  in_range t y -> y mod 2 ^ width t = x mod 2 ^ width t -> cast t x = y.
Proof using IntTypeOk0. intros Hr Hm; rewrite <- (cast_id y Hr); by apply cast_congr. Qed.

Lemma in_range_unsigned (x : Z) :
  is_signed t = false -> in_range t x <-> 0 <= x < 2 ^ width t.
Proof. unfold in_range, int_min, int_max; intros ->; lia. Qed.

Lemma in_range_signed (x : Z) :
  is_signed t = true -> in_range t x <-> - 2 ^ (width t - 1) <= x < 2 ^ (width t - 1).
Proof. unfold in_range, int_min, int_max; intros ->; lia. Qed.
End Cast.

#[export] Hint Resolve cast_in_range : zrange.

(** Conversions at the same or a narrower width absorb an inner one. *)
Lemma cast_cast (t t' : IntType) (x : Z) :
  0 < width t <= width t' -> cast t (cast t' x) = cast t x.
Proof.
  intros Hw; assert (IntTypeOk t) by (unfold IntTypeOk; lia).
  assert (IntTypeOk t') by (unfold IntTypeOk; lia).
  apply cast_congr; [done |].
  assert (Hd : (2 ^ width t | 2 ^ width t')).
  { rewrite (pow2_split (width t) (width t')) by lia; apply Z.divide_factor_l. }
  rewrite <- (Z.mod_mod_divide (cast t' x) (2 ^ width t') (2 ^ width t)) by done.
  rewrite <- (Z.mod_mod_divide x (2 ^ width t') (2 ^ width t)) by done.
  by rewrite cast_mod.
Qed.

(** The low bits survive a conversion. *)
Lemma cast_mod_pow2 (t : IntType) (x k : Z) :
  0 < width t -> 0 <= k <= width t -> cast t x mod 2 ^ k = x mod 2 ^ k.
Proof.
  intros Hw Hk; assert (IntTypeOk t) by done.
  assert (Hd : (2 ^ k | 2 ^ width t)).
  { rewrite (pow2_split k (width t)) by lia; apply Z.divide_factor_l. }
  rewrite <- (Z.mod_mod_divide (cast t x) (2 ^ width t) (2 ^ k)) by done.
  rewrite <- (Z.mod_mod_divide x (2 ^ width t) (2 ^ k)) by done.
  by rewrite cast_mod.
Qed.

(** Arithmetic modulo the width may convert its operands first. *)
Lemma cast_add_l t `{!IntTypeOk t} (x y : Z) : cast t (cast t x + y) = cast t (x + y).
Proof. apply cast_congr; [done |]. by rewrite <- Zplus_mod_idemp_l, cast_mod, Zplus_mod_idemp_l. Qed.

Lemma cast_add_r t `{!IntTypeOk t} (x y : Z) : cast t (x + cast t y) = cast t (x + y).
Proof. rewrite !(Z.add_comm x); by apply cast_add_l. Qed.

Lemma cast_sub_l t `{!IntTypeOk t} (x y : Z) : cast t (cast t x - y) = cast t (x - y).
Proof. apply cast_congr; [done |]. by rewrite <- Zminus_mod_idemp_l, cast_mod, Zminus_mod_idemp_l. Qed.

Lemma cast_sub_r t `{!IntTypeOk t} (x y : Z) : cast t (x - cast t y) = cast t (x - y).
Proof. apply cast_congr; [done |]. by rewrite <- Zminus_mod_idemp_r, cast_mod, Zminus_mod_idemp_r. Qed.

Lemma cast_mul_l t `{!IntTypeOk t} (x y : Z) : cast t (cast t x * y) = cast t (x * y).
Proof. apply cast_congr; [done |]. by rewrite <- Zmult_mod_idemp_l, cast_mod, Zmult_mod_idemp_l. Qed.

Lemma cast_mul_r t `{!IntTypeOk t} (x y : Z) : cast t (x * cast t y) = cast t (x * y).
Proof. rewrite !(Z.mul_comm x); by apply cast_mul_l. Qed.

(** Bits below the width survive a conversion. *)
Lemma testbit_cast_low t (x i : Z) : 0 <= i < width t -> Z.testbit (cast t x) i = Z.testbit x i.
Proof.
  intros Hi; assert (IntTypeOk t) by (unfold IntTypeOk; lia).
  pose proof (f_equal (fun z => Z.testbit z i) (cast_mod t x)) as H'; cbn in H'.
  rewrite !testbit_mod_pow2 in H' by lia.
  by destruct (Z.ltb_spec i (width t)); [| lia].
Qed.

(** The sign bit fills a signed value from its place up. *)
Lemma testbit_signed_high t (x i : Z) :
  is_signed t = true -> 0 < width t -> in_range t x -> width t - 1 <= i ->
  Z.testbit x i = Z.testbit x (width t - 1).
Proof.
  intros Hs Hw Hx Hi; rewrite in_range_signed in Hx by done.
  assert (forall j, width t - 1 <= j -> Z.testbit x j = (x <? 0)) as Hj; [| by rewrite !Hj by lia].
  intros j Hj; pose proof (pow2_le_mono (width t - 1) j Hj).
  rewrite <- (Z.add_0_l j), <- Z.shiftr_spec, Z.shiftr_div_pow2 by lia.
  destruct (Z.ltb_spec x 0).
  - rewrite <- (Z.div_unique_pos x (2 ^ j) (-1) (x + 2 ^ j)) by lia; done.
  - rewrite Z.div_small by lia; done.
Qed.

Lemma testbit_cast_signed w (x i : Z) :
  0 < w -> 0 <= i -> Z.testbit (cast (mkIntType w true) x) i = Z.testbit x (Z.min i (w - 1)).
Proof.
  intros Hw Hi; destruct (decide (i < w)).
  - rewrite Z.min_l by lia; apply testbit_cast_low; cbn; lia.
  - rewrite Z.min_r by lia.
    rewrite (testbit_signed_high (mkIntType w true) _ i);
      [apply testbit_cast_low; cbn; lia | done | done | | cbn; lia].
    by apply cast_in_range.
Qed.

(** A slice below the width survives a conversion. *)
Lemma bits_cast t (x lo n : Z) :
  0 <= lo -> 0 <= n -> lo + n <= width t -> bits (cast t x) lo n = bits x lo n.
Proof.
  intros; apply Z.bits_inj'; intros i Hi; autorewrite with zbits.
  zreflect; cbn [andb]; try done; apply testbit_cast_low; lia.
Qed.

(** ** Bitwise operators stay in the range of their operands *)

(** A signed value is in range when everything from its sign bit up agrees. *)
Lemma in_range_signed_shiftr t x :
  is_signed t = true -> 0 < width t ->
  in_range t x <-> Z.shiftr x (width t - 1) = 0 \/ Z.shiftr x (width t - 1) = -1.
Proof.
  intros Hs Hw; rewrite in_range_signed, Z.shiftr_div_pow2 by (done || lia).
  pose proof (pow2_pos (width t - 1) ltac:(lia)) as Hp; split.
  - intros [H1 H2]; destruct (decide (0 <= x)).
    + left; apply Z.div_small; lia.
    + right; symmetry; apply (Z.div_unique_pos _ _ _ (x + 2 ^ (width t - 1))); lia.
  - pose proof (Z.div_mod x (2 ^ (width t - 1)) ltac:(lia)).
    pose proof (Z.mod_pos_bound x (2 ^ (width t - 1)) ltac:(lia)).
    intros [E | E]; rewrite E in *; lia.
Qed.

Lemma in_range_unsigned_shiftr t x :
  is_signed t = false -> 0 < width t -> in_range t x <-> Z.shiftr x (width t) = 0.
Proof.
  intros Hs Hw; rewrite in_range_unsigned, Z.shiftr_div_pow2 by (done || lia).
  pose proof (pow2_pos (width t) ltac:(lia)) as Hp; rewrite Z.div_small_iff by lia; lia.
Qed.

Lemma land_in_range t x y :
  0 < width t -> in_range t x -> in_range t y -> in_range t (Z.land x y).
Proof.
  intros Hw; destruct (is_signed t) eqn:Hs.
  - rewrite !in_range_signed_shiftr, Z.shiftr_land by done.
    intros [-> | ->] [-> | ->]; cbn; auto.
  - rewrite !in_range_unsigned_shiftr, Z.shiftr_land by done; by intros -> ->.
Qed.

Lemma lxor_in_range t x y :
  0 < width t -> in_range t x -> in_range t y -> in_range t (Z.lxor x y).
Proof.
  intros Hw; destruct (is_signed t) eqn:Hs.
  - rewrite !in_range_signed_shiftr, Z.shiftr_lxor by done.
    intros [-> | ->] [-> | ->]; cbn; auto.
  - rewrite !in_range_unsigned_shiftr, Z.shiftr_lxor by done; by intros -> ->.
Qed.

Lemma lor_in_range t x y :
  0 < width t -> in_range t x -> in_range t y -> in_range t (Z.lor x y).
Proof.
  intros Hw; destruct (is_signed t) eqn:Hs.
  - rewrite !in_range_signed_shiftr, Z.shiftr_lor by done.
    intros [-> | ->] [-> | ->]; cbn; auto.
  - rewrite !in_range_unsigned_shiftr, Z.shiftr_lor by done; by intros -> ->.
Qed.

(** Conversion of an operand before a bitwise operator does not matter. *)
Lemma cast_land_r t `{!IntTypeOk t} x y : cast t (Z.land x (cast t y)) = cast t (Z.land x y).
Proof.
  pose proof (width_pos (t := t)); apply cast_congr; [done |].
  apply Z.bits_inj'; intros i Hi; rewrite !testbit_mod_pow2, !Z.land_spec by lia.
  destruct (Z.ltb_spec i (width t)); [| done]; by rewrite testbit_cast_low by lia.
Qed.

Lemma cast_land_l t `{!IntTypeOk t} x y : cast t (Z.land (cast t x) y) = cast t (Z.land x y).
Proof. rewrite !(Z.land_comm _ y); by apply cast_land_r. Qed.

Lemma shiftr_in_range t x n :
  0 < width t -> 0 <= n -> in_range t x -> in_range t (Z.shiftr x n).
Proof.
  intros Hw Hn; destruct (is_signed t) eqn:Hs.
  - rewrite !in_range_signed_shiftr by done.
    rewrite Z.shiftr_shiftr, Z.add_comm, <- Z.shiftr_shiftr by lia.
    intros [-> | ->]; [left; by apply Z.shiftr_0_l | right].
    rewrite Z.shiftr_div_pow2 by lia; pose proof (pow2_pos n Hn).
    symmetry; apply (Z.div_unique_pos _ _ _ (2 ^ n - 1)); lia.
  - rewrite !in_range_unsigned_shiftr by done.
    rewrite Z.shiftr_shiftr, Z.add_comm, <- Z.shiftr_shiftr by lia.
    intros ->; by apply Z.shiftr_0_l.
Qed.

Lemma cast_unsigned (w x : Z) : cast (mkIntType w false) x = x mod 2 ^ w.
Proof. done. Qed.

(** Converts [in_range] facts about the concrete types to inequalities. *)
Ltac unfold_range :=
  repeat match goal with
  | H : in_range _ _ |- _ => unfold in_range, int_min, int_max in H; cbn in H
  | |- in_range _ _ => unfold in_range, int_min, int_max; cbn
  end.
