(* ===== verification/BitUtil.v ===== *)
(** * base/include/berberis/base/bit_util.h

    Alignment and bit-counting helpers, and the [Raw], [Saturating] and
    [Wrapping] integer classes.  The template parameter [T] of the C++ code is
    an [IntType] argument; a class instance is its [value] field.  A C++
    operation whose behaviour is undefined on some operand (division by zero,
    counting the zeros of zero) returns [option]. *)
From S2P Require Import Prelude MachineInt.

(** ** Free functions *)

(** [IsPowerOf2(x)]; the debug check excludes [x = 0]. *)
Definition IsPowerOf2 (t : IntType) (x : Z) : bool :=
  Z.land x (cast (promote t) (x - 1)) =? 0.

(** [AlignDown(x, align)], [align] a [size_t]: the mask is computed as a
    [size_t], the conjunction at the common type, the result converted back. *)
Definition AlignDown (t : IntType) (x align : Z) : Z :=
  let c := common_type t u64 in
  cast t (Z.land (cast c x) (cast c (cast u64 (Z.lnot (cast u64 (align - 1)))))).

(** [AlignUp(x, align)]: the sum has the common type of [T] and [size_t]. *)
Definition AlignUp (t : IntType) (x align : Z) : Z :=
  let c := common_type t u64 in
  cast t (AlignDown c (cast c (cast c (cast c x + align) - 1)) align).

Definition IsAligned (t : IntType) (x align : Z) : bool := AlignDown t x align =? x.

(** Lowest set bit among the low [n] bits ([__builtin_ctz] and [ctzll], not
    defined on zero). *)
Fixpoint ctz_from (n : nat) (i x : Z) : option Z :=
  match n with
  | O => None
  | S n => if Z.testbit x i then Some i else ctz_from n (i + 1) x
  end.
Definition builtin_ctz (x : Z) : option Z := ctz_from 32 0 (cast u32 x).
Definition builtin_ctzll (x : Z) : option Z := ctz_from 64 0 (cast u64 x).

(** Number of set bits among the low [n] bits ([__builtin_popcount],
    [popcountll]). *)
Fixpoint popcount_below (n : nat) (x : Z) : Z :=
  match n with
  | O => 0
  | S n => popcount_below n x + Z.b2z (Z.testbit x (Z.of_nat n))
  end.
Definition builtin_popcount (x : Z) : Z := popcount_below 32 (cast u32 x).
Definition builtin_popcountll (x : Z) : Z := popcount_below 64 (cast u64 x).

(** [BitUtilLog2(x)]: [CHECK(IsPowerOf2(x))], then a 32-bit count. *)
Definition BitUtilLog2 (t : IntType) (x : Z) : option Z :=
  if IsPowerOf2 t x then builtin_ctz x else None.

(** [SignExtend<size>(val)]: a signed bit-field of [size] bits. *)
Definition SignExtend (size : Z) (t : IntType) (val : Z) : Z :=
  cast (make_signed t) (cast (mkIntType size true) (cast (make_signed t) val)).

(** [IsInRange<ResultType>(x)]: the comparison is at the common type. *)
Definition IsInRange (result_t arg_t : IntType) (x : Z) : bool :=
  let c := common_type result_t arg_t in
  cast c (cast result_t x) =? cast c x.

Definition CountRZero (t : IntType) (x : Z) : option Z :=
  if width t =? 128 then
    if cast u64 x =? 0 then c ← builtin_ctzll (Z.shiftr x 64); Some (c + 64)
    else builtin_ctzll x
  else if width t =? 64 then builtin_ctzll x
  else builtin_ctz x.

Definition Popcount (t : IntType) (x : Z) : Z :=
  if width t =? 128 then builtin_popcountll x + builtin_popcountll (Z.shiftr x 64)
  else if width t =? 64 then builtin_popcountll x
  else builtin_popcount x.

(** [__builtin_add_overflow] and its relatives: the wrapped result and whether
    the exact one does not fit. *)
Definition builtin_overflow (t : IntType) (exact : Z) : Z * bool :=
  (cast t exact, negb (in_rangeb t exact)).

(** ** Saturating integers *)
Module Saturating.

Definition Add (t : IntType) (lhs rhs : Z) : Z * bool :=
  let '(result, overflow) := builtin_overflow t (lhs + rhs) in
  if overflow then
    ((if is_signed t then if result <? 0 then int_max t else int_min t else int_max t), overflow)
  else (result, overflow).

Definition Neg (t : IntType) (lhs : Z) : Z * bool :=
  if is_signed t then
    if lhs =? int_min t then (int_max t, true) else (- lhs, false)
  else (0, negb (lhs =? 0)).

Definition Sub (t : IntType) (lhs rhs : Z) : Z * bool :=
  let '(result, overflow) := builtin_overflow t (lhs - rhs) in
  if overflow then
    ((if is_signed t then if result <? 0 then int_max t else int_min t else 0), overflow)
  else (result, overflow).

Definition Mul (t : IntType) (lhs rhs : Z) : Z * bool :=
  let '(result, overflow) := builtin_overflow t (lhs * rhs) in
  if overflow then
    ((if is_signed t then
        if negb (Bool.eqb (lhs <? 0) (rhs <? 0)) then int_min t else int_max t
      else int_max t), overflow)
  else (result, overflow).

Definition Div (t : IntType) (lhs rhs : Z) : option (Z * bool) :=
  if is_signed t && (lhs =? int_min t) && (rhs =? -1) then Some (int_max t, true)
  else if rhs =? 0 then None
  else Some (cast t (Z.quot lhs rhs), false).

Definition Rem (t : IntType) (lhs rhs : Z) : option (Z * bool) :=
  if is_signed t && (lhs =? int_min t) && (rhs =? -1) then Some (1, true)
  else if rhs =? 0 then None
  else Some (cast t (Z.rem lhs rhs), false).

(** The operators are the first components. *)
Definition sat_add (t : IntType) (lhs rhs : Z) : Z := (Add t lhs rhs).1.
Definition sat_neg (t : IntType) (lhs : Z) : Z := (Neg t lhs).1.
Definition sat_sub (t : IntType) (lhs rhs : Z) : Z := (Sub t lhs rhs).1.
Definition sat_mul (t : IntType) (lhs rhs : Z) : Z := (Mul t lhs rhs).1.
Definition sat_div (t : IntType) (lhs rhs : Z) : option Z := fst <$> Div t lhs rhs.
Definition sat_rem (t : IntType) (lhs rhs : Z) : option Z := fst <$> Rem t lhs rhs.

(** [Narrow(Saturating<BaseType>)], [narrow_t] the half-width type. *)
Definition sat_Narrow (t narrow_t : IntType) (source : Z) : Z :=
  if is_signed t && (source <? int_min narrow_t) then int_min narrow_t
  else if int_max narrow_t <? source then int_max narrow_t
  else cast narrow_t source.

(** Specification: the nearest value the type can represent. *)
Definition clamp (t : IntType) (x : Z) : Z := Z.max (int_min t) (Z.min x (int_max t)).

End Saturating.

(** ** Wrapping integers *)
Module Wrapping.

Definition add (t : IntType) (lhs rhs : Z) : Z := (builtin_overflow t (lhs + rhs)).1.
Definition neg (t : IntType) (lhs : Z) : Z := (builtin_overflow t (0 - lhs)).1.
Definition sub (t : IntType) (lhs rhs : Z) : Z := (builtin_overflow t (lhs - rhs)).1.
Definition mul (t : IntType) (lhs rhs : Z) : Z := (builtin_overflow t (lhs * rhs)).1.

Definition div (t : IntType) (lhs rhs : Z) : option Z :=
  if is_signed t && (lhs =? int_min t) && (rhs =? -1) then Some (int_min t)
  else if rhs =? 0 then None
  else Some (cast t (Z.quot lhs rhs)).

Definition rem (t : IntType) (lhs rhs : Z) : option Z :=
  if is_signed t && (lhs =? int_min t) && (rhs =? -1) then Some 0
  else if rhs =? 0 then None
  else Some (cast t (Z.rem lhs rhs)).

(** The shift count is masked to the width of the shifted type. *)
Definition shl (t : IntType) (lhs rhs : Z) : Z :=
  cast t (Z.shiftl lhs (Z.land rhs (width t - 1))).
Definition shr (t : IntType) (lhs rhs : Z) : Z :=
  cast t (Z.shiftr lhs (Z.land rhs (width t - 1))).

Definition and (t : IntType) (lhs rhs : Z) : Z := cast t (Z.land lhs rhs).
Definition or (t : IntType) (lhs rhs : Z) : Z := cast t (Z.lor lhs rhs).
Definition xor (t : IntType) (lhs rhs : Z) : Z := cast t (Z.lxor lhs rhs).
Definition not (t : IntType) (lhs : Z) : Z := cast t (Z.lnot lhs).

(** [Widen], [Narrow] and [NarrowTopHalf]. *)
Definition wrap_Widen (wide_t : IntType) (source : Z) : Z := cast wide_t source.
Definition wrap_Narrow (narrow_t : IntType) (source : Z) : Z := cast narrow_t source.
Definition NarrowTopHalf (narrow_t : IntType) (source : Z) : Z :=
  cast narrow_t (Z.shiftr source (width narrow_t)).

End Wrapping.

(** [BitCastToSigned], [BitCastToUnsigned], [TruncateTo]. *)
Definition BitCastToSigned (t : IntType) (src : Z) : Z := cast (make_signed t) src.
Definition BitCastToUnsigned (t : IntType) (src : Z) : Z := cast (make_unsigned t) src.
Definition TruncateTo (result_t : IntType) (src : Z) : Z := cast result_t src.

(** ** Saturating arithmetic is exact arithmetic clamped to the type *)
Section SaturatingLaws.
Context (t : IntType) `{!IntTypeOk t}.
Implicit Types l r x : Z.

Lemma clamp_in_range x : in_range t x -> Saturating.clamp t x = x.
Proof. unfold in_range, Saturating.clamp; lia. Qed.

(** A sum that overflows a signed type wraps to the other sign. *)
Lemma cast_signed_above x :
  is_signed t = true -> int_max t < x <= 2 ^ width t + int_max t -> cast t x = x - 2 ^ width t.
Proof using IntTypeOk0.
  intros Hs; pose proof (half_range t); pose proof (half_pos t).
  unfold int_min, int_max in *; rewrite Hs; intros.
  apply cast_unique; [done | rewrite in_range_signed by done; lia |].
  rewrite <- (Z_mod_plus_full (x - 2 ^ width t) 1); f_equal; lia.
Qed.

Lemma cast_signed_below x :
  is_signed t = true -> int_min t - 2 ^ width t <= x < int_min t -> cast t x = x + 2 ^ width t.
Proof using IntTypeOk0.
  intros Hs; pose proof (half_range t); pose proof (half_pos t).
  unfold int_min, int_max in *; rewrite Hs; intros.
  apply cast_unique; [done | rewrite in_range_signed by done; lia |].
  by rewrite <- (Z_mod_plus_full x 1), Z.mul_1_l.
Qed.

(** The sign of a wrapped sum or difference tells which bound was passed. *)
Lemma signed_overflow_clamp x :
  is_signed t = true -> ~ in_range t x ->
  int_min t + int_min t <= x <= int_max t - int_min t ->
  (if cast t x <? 0 then int_max t else int_min t) = Saturating.clamp t x.
Proof using IntTypeOk0.
  intros Hs Hn Hb; pose proof (half_range t) as Hh; pose proof (half_pos t) as Hp.
  assert (Hmin : int_min t = - 2 ^ (width t - 1)) by (unfold int_min; by rewrite Hs).
  assert (Hmax : int_max t = 2 ^ (width t - 1) - 1) by (unfold int_max; by rewrite Hs).
  unfold Saturating.clamp; unfold in_range in Hn.
  destruct (decide (int_max t < x)).
  - rewrite (cast_signed_above x Hs) by lia; zreflect; lia.
  - rewrite (cast_signed_below x Hs) by lia; zreflect; lia.
Qed.

Lemma unsigned_bounds : is_signed t = false -> int_min t = 0 /\ 0 < int_max t.
Proof using IntTypeOk0.
  unfold int_min, int_max; intros ->; pose proof (half_range t); pose proof (half_pos t); lia.
Qed.

Lemma signed_bounds : is_signed t = true -> int_min t = - int_max t - 1 /\ 0 <= int_max t.
Proof using IntTypeOk0.
  unfold int_min, int_max; intros ->; pose proof (half_pos t); lia.
Qed.

Lemma Add_clamp l r :
  in_range t l -> in_range t r ->
  Saturating.Add t l r = (Saturating.clamp t (l + r), negb (in_rangeb t (l + r))).
Proof using IntTypeOk0.
  intros Hl Hr; unfold Saturating.Add, builtin_overflow.
  destruct (in_rangeb t (l + r)) eqn:E; cbn.
  - apply in_rangeb_spec in E; by rewrite cast_id, clamp_in_range.
  - apply in_rangeb_false in E; f_equal; destruct (is_signed t) eqn:Hs.
    + pose proof (signed_bounds Hs); apply signed_overflow_clamp; unfold in_range in *; auto; lia.
    + pose proof (unsigned_bounds Hs); unfold in_range, Saturating.clamp in *; lia.
Qed.

Lemma Sub_clamp l r :
  in_range t l -> in_range t r ->
  Saturating.Sub t l r = (Saturating.clamp t (l - r), negb (in_rangeb t (l - r))).
Proof using IntTypeOk0.
  intros Hl Hr; unfold Saturating.Sub, builtin_overflow.
  destruct (in_rangeb t (l - r)) eqn:E; cbn.
  - apply in_rangeb_spec in E; by rewrite cast_id, clamp_in_range.
  - apply in_rangeb_false in E; f_equal; destruct (is_signed t) eqn:Hs.
    + pose proof (signed_bounds Hs); apply signed_overflow_clamp; unfold in_range in *; auto; lia.
    + pose proof (unsigned_bounds Hs); unfold in_range, Saturating.clamp in *; lia.
Qed.

Lemma Mul_clamp l r :
  in_range t l -> in_range t r ->
  Saturating.Mul t l r = (Saturating.clamp t (l * r), negb (in_rangeb t (l * r))).
Proof using IntTypeOk0.
  intros Hl Hr; unfold Saturating.Mul, builtin_overflow.
  destruct (in_rangeb t (l * r)) eqn:E; cbn.
  - apply in_rangeb_spec in E; by rewrite cast_id, clamp_in_range.
  - apply in_rangeb_false in E; f_equal; destruct (is_signed t) eqn:Hs.
    + pose proof (signed_bounds Hs); unfold in_range, Saturating.clamp in *.
      zreflect; cbn; nia.
    + pose proof (unsigned_bounds Hs); unfold in_range, Saturating.clamp in *; nia.
Qed.

Lemma Neg_clamp l :
  in_range t l ->
  Saturating.Neg t l = (Saturating.clamp t (- l), negb (in_rangeb t (- l))).
Proof using IntTypeOk0.
  intros Hl; unfold Saturating.Neg, Saturating.clamp, in_rangeb, in_range in *.
  destruct (is_signed t) eqn:Hs.
  - pose proof (signed_bounds Hs); zreflect; cbn; f_equal; lia.
  - pose proof (unsigned_bounds Hs); zreflect; cbn; f_equal; lia.
Qed.

(** A quotient leaves the type only as [min / -1]. *)
Lemma quot_in_range l r :
  in_range t l -> in_range t r -> r <> 0 ->
  ~ (is_signed t = true /\ l = int_min t /\ r = -1) -> in_range t (Z.quot l r).
Proof using IntTypeOk0.
  intros Hl Hr Hr0 Hn; pose proof (Z.quot_rem' l r); unfold in_range in *.
  destruct (is_signed t) eqn:Hs.
  - pose proof (signed_bounds Hs).
    pose proof (Z.quot_abs l r Hr0).
    assert (Z.abs l ÷ Z.abs r <= Z.abs l) by (apply Z.quot_le_upper_bound; nia).
    destruct (decide (r = -1)) as [-> |].
    + change (-1) with (- (1)); rewrite Z.quot_opp_r, Z.quot_1_r by lia; intuition lia.
    + destruct (decide (r = 1)) as [-> |]; [rewrite Z.quot_1_r; lia |].
      assert (Z.abs l ÷ Z.abs r * 2 <= Z.abs l).
      { assert (0 <= Z.abs l ÷ Z.abs r) by (apply Z.quot_pos; lia).
        pose proof (Z.quot_rem' (Z.abs l) (Z.abs r)).
        pose proof (Z.rem_nonneg (Z.abs l) (Z.abs r)); nia. }
      lia.
  - pose proof (unsigned_bounds Hs).
    assert (0 <= l ÷ r) by (apply Z.quot_pos; lia).
    assert (l ÷ r <= l) by (apply Z.quot_le_upper_bound; nia).
    lia.
Qed.

Lemma rem_in_range l r :
  in_range t l -> in_range t r -> r <> 0 -> in_range t (Z.rem l r).
Proof using IntTypeOk0.
  intros Hl Hr Hr0; unfold in_range in *.
  pose proof (Z.rem_bound_abs l r Hr0).
  destruct (is_signed t) eqn:Hs.
  - pose proof (signed_bounds Hs); lia.
  - pose proof (unsigned_bounds Hs).
    pose proof (Z.rem_nonneg l r Hr0 ltac:(lia)); lia.
Qed.

Lemma Div_clamp l r :
  in_range t l -> in_range t r -> r <> 0 ->
  Saturating.Div t l r
  = Some (Saturating.clamp t (Z.quot l r), negb (in_rangeb t (Z.quot l r))).
Proof using IntTypeOk0.
  intros Hl Hr Hr0; unfold Saturating.Div.
  destruct (is_signed t && (l =? int_min t) && (r =? -1)) eqn:E.
  - rewrite !andb_true_iff, !Z.eqb_eq in E; destruct E as [[Hs ->] ->].
    pose proof (signed_bounds Hs); change (-1) with (- (1)).
    rewrite Z.quot_opp_r, Z.quot_1_r by lia.
    unfold Saturating.clamp, in_rangeb; zreflect; cbn; repeat f_equal; lia.
  - rewrite (proj2 (Z.eqb_neq r 0)) by done.
    assert (in_range t (Z.quot l r)) as Hq.
    { apply quot_in_range; auto; intros (Hs & -> & ->).
      by rewrite Hs, !Z.eqb_refl in E. }
    rewrite cast_id, clamp_in_range by done; by rewrite (proj2 (in_rangeb_spec t _) Hq).
Qed.
End SaturatingLaws.

(** ** Alignment *)

Lemma common_type_u64 t : width t <= 64 -> common_type t u64 = u64.
Proof.
  intros Hw; unfold common_type, promote; cbn.
  destruct t as [w []]; cbn in *; zreflect; cbn in *; zreflect; try done; try lia.
  f_equal; lia.
Qed.

Lemma ones_pow2 k : 0 <= k -> 2 ^ k - 1 = Z.ones k.
Proof. intros; rewrite Z.ones_equiv; lia. Qed.

Lemma sub_mod_pow2 x k : 0 <= k -> x - x mod 2 ^ k = Z.shiftl (Z.shiftr x k) k.
Proof.
  intros; rewrite Z.shiftl_mul_pow2, Z.shiftr_div_pow2 by lia.
  pose proof (Z.div_mod x (2 ^ k) ltac:(pose proof (pow2_pos k); lia)); lia.
Qed.

(** The mask [~(align - 1)] clears the low bits. *)
Lemma land_align_mask x k :
  0 <= k < 64 -> in_range u64 x ->
  Z.land x (cast u64 (Z.lnot (cast u64 (2 ^ k - 1)))) = x - x mod 2 ^ k.
Proof.
  intros Hk Hx; rewrite in_range_unsigned in Hx by done; cbn in Hx.
  rewrite sub_mod_pow2, ones_pow2 by lia; unfold cast; cbn [is_signed u64 width].
  apply Z.bits_inj'; intros i Hi; autorewrite with zbits.
  destruct (Z.ltb_spec i 64).
  - zreflect; cbn; rewrite ?andb_false_r, ?andb_true_r; try lia; rewrite ?Z.sub_add;
      try done; by rewrite Z.testbit_neg_r by lia.
  - rewrite (testbit_bounded x 64 i) by lia; cbn.
    symmetry; rewrite !andb_false_iff; right; right.
    apply (testbit_bounded x 64); lia.
Qed.

Lemma AlignDown_floor t x k :
  is_signed t = false -> 0 < width t <= 64 -> 0 <= k < 64 -> in_range t x ->
  AlignDown t x (2 ^ k) = x - x mod 2 ^ k.
Proof.
  intros Hs Hw Hk Hx; assert (IntTypeOk t) by (unfold IntTypeOk; lia).
  assert (Hx64 : in_range u64 x).
  { rewrite in_range_unsigned in * by done; cbn.
    pose proof (pow2_le_mono (width t) 64); lia. }
  unfold AlignDown; rewrite common_type_u64 by lia.
  rewrite (cast_id u64 x Hx64), cast_idemp, land_align_mask by (done || lia).
  apply cast_id; [done |]; rewrite in_range_unsigned in * by done.
  pose proof (Z.mod_pos_bound x (2 ^ k) (pow2_pos k ltac:(lia))).
  pose proof (Z.mod_le x (2 ^ k) ltac:(lia) (pow2_pos k ltac:(lia))); lia.
Qed.

Lemma IsAligned_divide t x k :
  is_signed t = false -> 0 < width t <= 64 -> 0 <= k < 64 -> in_range t x ->
  IsAligned t x (2 ^ k) = true <-> (2 ^ k | x).
Proof.
  intros; unfold IsAligned; rewrite AlignDown_floor, Z.eqb_eq by done.
  pose proof (pow2_pos k ltac:(lia)); rewrite <- Z.mod_divide by lia; lia.
Qed.

Lemma AlignUp_ceil x k :
  0 <= k < 64 -> in_range u64 x ->
  AlignUp u64 x (2 ^ k)
  = if x + 2 ^ k - 1 <? 2 ^ 64 then (x + 2 ^ k - 1) - (x + 2 ^ k - 1) mod 2 ^ k else 0.
Proof.
  intros Hk Hx; unfold AlignUp; rewrite common_type_u64 by (cbn; lia).
  rewrite (cast_id u64 x Hx), cast_sub_l by done.
  pose proof (cast_in_range u64 (x + 2 ^ k - 1)) as Hc.
  rewrite AlignDown_floor by (cbn; (done || lia)).
  rewrite in_range_unsigned in Hx, Hc by done; cbn [u64 width] in Hx, Hc.
  pose proof (pow2_pos k ltac:(lia)).
  assert (2 ^ k <= 2 ^ 63) by (apply pow2_le_mono; lia).
  destruct (Z.ltb_spec (x + 2 ^ k - 1) (2 ^ 64)).
  - rewrite (cast_id u64 (x + 2 ^ k - 1)) by (rewrite ?in_range_unsigned; (done || cbn; lia)).
    apply cast_id; [done |]; rewrite in_range_unsigned by done; cbn [u64 width].
    pose proof (Z.mod_pos_bound (x + 2 ^ k - 1) (2 ^ k) ltac:(lia)).
    pose proof (Z.mod_le (x + 2 ^ k - 1) (2 ^ k) ltac:(lia) ltac:(lia)); lia.
  - assert (cast u64 (x + 2 ^ k - 1) = x + 2 ^ k - 1 - 2 ^ 64) as ->.
    { apply cast_unique; [done | rewrite in_range_unsigned by done; cbn in *; lia |].
      rewrite <- (Z_mod_plus_full (x + 2 ^ k - 1 - 2 ^ 64) 1); f_equal; cbn; lia. }
    rewrite (Z.mod_small (x + 2 ^ k - 1 - 2 ^ 64)) by lia.
    by rewrite Z.sub_diag.
Qed.

(** [x & (x - 1)] is zero exactly on powers of two. *)
Lemma land_pred_zero x : 0 < x -> Z.land x (x - 1) = 0 <-> exists k, 0 <= k /\ x = 2 ^ k.
Proof.
  intros Hx; split.
  - intros H0; exists (Z.log2 x); split; [apply Z.log2_nonneg |].
    pose proof (Z.log2_spec x Hx) as [Hlo Hhi].
    destruct (decide (x = 2 ^ Z.log2 x)) as [| Hne]; [done | exfalso].
    assert (Z.log2 (x - 1) = Z.log2 x) as Hl.
    { apply Z.log2_unique; [apply Z.log2_nonneg | lia]. }
    pose proof (f_equal (fun z => Z.testbit z (Z.log2 x)) H0) as Hb; cbn in Hb.
    rewrite Z.land_spec, Z.bits_0, Z.bit_log2 in Hb by lia.
    rewrite <- Hl, Z.bit_log2 in Hb; [done |].
    pose proof (pow2_pos (Z.log2 x) (Z.log2_nonneg x)); lia.
  - intros (k & Hk & ->); rewrite ones_pow2 by lia; apply Z.bits_inj'; intros i Hi.
    autorewrite with zbits; rewrite Z.pow2_bits_eqb by lia; zreflect; cbn; (done || lia).
Qed.

Lemma IsPowerOf2_spec x :
  in_range u64 x -> x <> 0 -> IsPowerOf2 u64 x = true <-> exists k, 0 <= k /\ x = 2 ^ k.
Proof.
  intros Hr Hx; unfold IsPowerOf2; change (promote u64) with u64.
  rewrite in_range_unsigned in Hr by done; cbn in Hr.
  rewrite (cast_id u64 (x - 1)) by (rewrite ?in_range_unsigned; (done || cbn; lia)).
  rewrite Z.eqb_eq; apply land_pred_zero; lia.
Qed.

(** ** Counting bits *)

Lemma popcount_below_ext n x y :
  (forall i, 0 <= i < Z.of_nat n -> Z.testbit x i = Z.testbit y i) ->
  popcount_below n x = popcount_below n y.
Proof.
  induction n as [| n IH]; intros H; cbn [popcount_below]; [done |].
  rewrite IH by (intros; apply H; lia); by rewrite H by lia.
Qed.

Lemma popcount_below_add m n x :
  popcount_below (m + n) x = popcount_below n x + popcount_below m (Z.shiftr x (Z.of_nat n)).
Proof.
  induction m as [| m IH]; cbn [popcount_below Nat.add]; [lia |].
  rewrite IH, testbit_shiftr, (proj2 (Z.leb_le 0 (Z.of_nat m))) by lia.
  rewrite Nat2Z.inj_add; cbn; lia.
Qed.

Lemma popcount_below_cast n t x :
  Z.of_nat n <= width t -> popcount_below n (cast t x) = popcount_below n x.
Proof. intros; apply popcount_below_ext; intros; apply testbit_cast_low; lia. Qed.

(** The position found is the lowest set bit of the interval searched. *)
Lemma ctz_from_spec n i x :
  match ctz_from n i x with
  | Some c => i <= c < i + Z.of_nat n /\ Z.testbit x c = true
              /\ forall j, i <= j < c -> Z.testbit x j = false
  | None => forall j, i <= j < i + Z.of_nat n -> Z.testbit x j = false
  end.
Proof.
  revert i; induction n as [| n IH]; intros i; cbn [ctz_from]; [intros; lia |].
  destruct (Z.testbit x i) eqn:E; [split_and!; [lia | lia | done | intros; lia] |].
  specialize (IH (i + 1)); destruct (ctz_from n (i + 1) x).
  - destruct IH as (H1 & H2 & H3); split_and!; [lia | lia | done |].
    intros j Hj; destruct (decide (j = i)) as [-> |]; [done | apply H3; lia].
  - intros j Hj; destruct (decide (j = i)) as [-> |]; [done | apply IH; lia].
Qed.

(** [c] is the position of the lowest set bit of [x]. *)
Definition lowest_bit (x c : Z) : Prop :=
  0 <= c /\ Z.testbit x c = true /\ forall j, 0 <= j < c -> Z.testbit x j = false.

Lemma zero_of_low_bits t x :
  is_signed t = false -> 0 < width t -> in_range t x ->
  (forall j, 0 <= j < width t -> Z.testbit x j = false) -> x = 0.
Proof.
  intros Hs Hw Hx Hb; rewrite in_range_unsigned in Hx by done.
  apply Z.bits_inj'; intros i Hi; rewrite Z.bits_0.
  destruct (decide (i < width t)); [apply Hb; lia |].
  apply (testbit_bounded x (width t)); [done | lia].
Qed.

Lemma builtin_ctzll_spec x :
  cast u64 x <> 0 -> exists c, builtin_ctzll x = Some c /\ lowest_bit x c /\ c < 64.
Proof.
  intros Hx; unfold builtin_ctzll.
  pose proof (ctz_from_spec 64 0 (cast u64 x)) as Hs.
  destruct (ctz_from 64 0 (cast u64 x)) as [c |].
  - destruct Hs as (Hc & Hb & Hl); exists c; split; [done |].
    rewrite testbit_cast_low in Hb by (cbn; lia).
    split; [split_and!; [lia | done |] | lia].
    intros j Hj; rewrite <- (Hl j), testbit_cast_low; (done || cbn; lia).
  - exfalso; apply Hx, (zero_of_low_bits u64); try done; by apply cast_in_range.
Qed.

Lemma builtin_ctz_spec x :
  cast u32 x <> 0 -> exists c, builtin_ctz x = Some c /\ lowest_bit x c /\ c < 32.
Proof.
  intros Hx; unfold builtin_ctz.
  pose proof (ctz_from_spec 32 0 (cast u32 x)) as Hs.
  destruct (ctz_from 32 0 (cast u32 x)) as [c |].
  - destruct Hs as (Hc & Hb & Hl); exists c; split; [done |].
    rewrite testbit_cast_low in Hb by (cbn; lia).
    split; [split_and!; [lia | done |] | lia].
    intros j Hj; rewrite <- (Hl j), testbit_cast_low; (done || cbn; lia).
  - exfalso; apply Hx, (zero_of_low_bits u32); try done; by apply cast_in_range.
Qed.

Lemma high_half_nonzero x :
  0 <= x < 2 ^ 128 -> x <> 0 -> cast u64 x = 0 -> cast u64 (Z.shiftr x 64) <> 0.
Proof.
  unfold cast; cbn [u64 is_signed width]; rewrite Z.shiftr_div_pow2 by lia; intros Hx Hnz H0.
  rewrite Z.mod_small.
  - pose proof (Z.div_mod x (2 ^ 64) ltac:(lia)); lia.
  - split; [apply Z.div_pos | apply Z.div_lt_upper_bound]; lia.
Qed.

Lemma CountRZero_128_eq x :
  CountRZero u128 x
  = if cast u64 x =? 0 then c ← builtin_ctzll (Z.shiftr x 64); Some (c + 64)
    else builtin_ctzll x.
Proof. unfold CountRZero; by replace (width u128 =? 128) with true. Qed.

Lemma CountRZero_128 x :
  in_range u128 x -> x <> 0 -> exists c, CountRZero u128 x = Some c /\ lowest_bit x c /\ c < 128.
Proof.
  intros Hr Hx; rewrite CountRZero_128_eq.
  rewrite in_range_unsigned in Hr by done; cbn [u128 width] in Hr.
  destruct (Z.eqb_spec (cast u64 x) 0) as [H0 | H0].
  2:{ destruct (builtin_ctzll_spec x H0) as (c & -> & Hl & ?); exists c; split_and!; (done || lia). }
  assert (Hlow : forall j, 0 <= j < 64 -> Z.testbit x j = false).
  { intros j Hj; rewrite <- (testbit_cast_low u64 x j) by (cbn; lia); by rewrite H0, Z.bits_0. }
  destruct (builtin_ctzll_spec (Z.shiftr x 64)) as (c & -> & (Hc & Hb & Hl) & ?).
  { by apply high_half_nonzero. }
  exists (c + 64); split; [done |]; split; [| lia].
  rewrite testbit_shiftr in Hb; split_and!; [lia | by destruct (0 <=? c) |].
  intros j Hj; destruct (decide (j < 64)); [apply Hlow; lia |].
  rewrite <- (Hl (j - 64)) by lia; rewrite testbit_shiftr, Z.sub_add.
  by rewrite (proj2 (Z.leb_le 0 _)) by lia.
Qed.

(** ** Wrapping division *)

Lemma wrapping_div_rem_exact t l r :
  0 < width t -> in_range t l -> in_range t r -> r <> 0 ->
  ~ (is_signed t = true /\ l = int_min t /\ r = -1) ->
  Wrapping.div t l r = Some (Z.quot l r) /\ Wrapping.rem t l r = Some (Z.rem l r).
Proof.
  intros Hw Hl Hr Hr0 Hn; assert (IntTypeOk t) by done.
  unfold Wrapping.div, Wrapping.rem.
  replace (is_signed t && (l =? int_min t) && (r =? -1)) with false.
  - rewrite (proj2 (Z.eqb_neq r 0)) by done.
    rewrite !cast_id by (done || by apply quot_in_range || by apply rem_in_range); done.
  - symmetry; apply not_true_iff_false; rewrite !andb_true_iff, !Z.eqb_eq; tauto.
Qed.

(** ** Main properties *)

(** On every integer type of the sources (any positive width, signed or
    not) the saturating operations return the value of the type nearest to the
    exact result, and their flag says whether the exact result did not fit. *)
Theorem saturating_exact (t : IntType) (l r : Z) :
  0 < width t -> in_range t l -> in_range t r ->
  Saturating.Add t l r = (Saturating.clamp t (l + r), negb (in_rangeb t (l + r)))
  /\ Saturating.Sub t l r = (Saturating.clamp t (l - r), negb (in_rangeb t (l - r)))
  /\ Saturating.Mul t l r = (Saturating.clamp t (l * r), negb (in_rangeb t (l * r)))
  /\ Saturating.Neg t l = (Saturating.clamp t (- l), negb (in_rangeb t (- l)))
  /\ (r <> 0 ->
      Saturating.Div t l r
      = Some (Saturating.clamp t (Z.quot l r), negb (in_rangeb t (Z.quot l r)))).
Proof.
  intros; assert (IntTypeOk t) by done.
  split_and!; [by apply Add_clamp | by apply Sub_clamp | by apply Mul_clamp
              | by apply Neg_clamp | intros; by apply Div_clamp].
Qed.

Lemma saturating_exact_witness :
  Saturating.Add i8 100 100 = (127, true) /\ Saturating.Mul i8 (-16) 16 = (-128, true)
  /\ Saturating.Add i8 100 100 = (Saturating.clamp i8 200, negb (in_rangeb i8 200)).
Proof.
  split; [reflexivity | split; [reflexivity |]].
  apply (saturating_exact i8 100 100); [reflexivity | split; vm_compute; discriminate
                                       | split; vm_compute; discriminate].
Defined.

(** Saturating remainder of the smallest value by [-1] reports an overflow
    and the value 1, although the exact remainder is 0 and fits every type. *)
Theorem saturating_rem_min (t : IntType) :
  1 < width t -> is_signed t = true ->
  Saturating.Rem t (int_min t) (-1) = Some (1, true)
  /\ Z.rem (int_min t) (-1) = 0 /\ in_range t 0.
Proof.
  intros Hw Hs; assert (IntTypeOk t) by (unfold IntTypeOk; lia).
  unfold Saturating.Rem; rewrite Hs, Z.eqb_refl; split_and!; [done | |].
  - change (-1) with (- (1)); rewrite Z.rem_opp_r, Z.rem_1_r by lia; done.
  - pose proof (signed_bounds t Hs); unfold in_range; lia.
Qed.

Lemma saturating_rem_min_witness :
  Saturating.Rem i32 (-2147483648) (-1) = Some (1, true) /\ Z.rem (int_min i32) (-1) = 0.
Proof.
  split; [reflexivity |]; apply (saturating_rem_min i32); reflexivity.
Defined.

(** Wrapping division never overflows: for a nonzero divisor quotient and
    remainder are defined, lie in the type, the remainder is smaller than the
    divisor, and together they give the dividend back modulo [2^width],
    including for the smallest value divided by [-1]. *)
Theorem wrapping_div_rem (t : IntType) (l r : Z) :
  0 < width t -> in_range t l -> in_range t r -> r <> 0 ->
  exists q m, Wrapping.div t l r = Some q /\ Wrapping.rem t l r = Some m
    /\ in_range t q /\ in_range t m /\ Z.abs m < Z.abs r
    /\ Wrapping.add t (Wrapping.mul t q r) m = l.
Proof.
  intros Hw Hl Hr Hr0; assert (IntTypeOk t) by done.
  unfold Wrapping.add, Wrapping.mul, builtin_overflow; cbn [fst].
  destruct (decide (is_signed t = true /\ l = int_min t /\ r = -1)) as [(Hs & -> & ->) | Hn].
  - exists (int_min t), 0; unfold Wrapping.div, Wrapping.rem; rewrite Hs, !Z.eqb_refl; cbn.
    pose proof (signed_bounds t Hs) as [Hm Hp].
    split_and!; try done; [unfold in_range; lia |].
    rewrite Z.add_0_r, cast_idemp by done; apply cast_unique; [done | done |].
    pose proof (half_range t); unfold int_min in *; rewrite Hs in *.
    rewrite <- (Z_mod_plus_full (- 2 ^ (width t - 1)) 1).
    apply (f_equal (fun z => z mod _)); lia.
  - destruct (wrapping_div_rem_exact t l r) as [-> ->]; try done.
    exists (Z.quot l r), (Z.rem l r); split_and!; try done.
    + by apply quot_in_range.
    + by apply rem_in_range.
    + by apply Z.rem_bound_abs.
    + rewrite cast_add_l, Z.mul_comm, <- Z.quot_rem' by done; by apply cast_id.
Qed.

Lemma wrapping_div_rem_witness :
  Wrapping.div i32 (-2147483648) (-1) = Some (-2147483648)
  /\ exists q m, Wrapping.div i32 7 (-2) = Some q /\ Wrapping.rem i32 7 (-2) = Some m
     /\ in_range i32 q /\ in_range i32 m /\ Z.abs m < Z.abs (-2)
     /\ Wrapping.add i32 (Wrapping.mul i32 q (-2)) m = 7.
Proof.
  split; [reflexivity |].
  apply (wrapping_div_rem i32 7 (-2)); [reflexivity | split; vm_compute; discriminate
    | split; vm_compute; discriminate | discriminate].
Defined.

(** For a power-of-two alignment of a 64-bit address, [AlignDown] is the
    greatest multiple not above it, [IsAligned] decides divisibility, and
    [AlignUp] is the least multiple not below it when that fits 64 bits and 0
    when it does not. *)
Theorem alignment_laws (x k : Z) :
  0 <= k < 64 -> in_range u64 x ->
  let a := 2 ^ k in
  ((a | AlignDown u64 x a) /\ AlignDown u64 x a <= x < AlignDown u64 x a + a)
  /\ (IsAligned u64 x a = true <-> (a | x))
  /\ (x + a - 1 < 2 ^ 64 ->
      (a | AlignUp u64 x a) /\ x <= AlignUp u64 x a < x + a)
  /\ (2 ^ 64 <= x + a - 1 -> AlignUp u64 x a = 0).
Proof.
  intros Hk Hx a; pose proof (pow2_pos k ltac:(lia)).
  assert (Hdiv : forall y, (a | y - y mod a)).
  { intros y; exists (y / a); pose proof (Z.div_mod y a ltac:(lia)); lia. }
  subst a; rewrite AlignUp_ceil, AlignDown_floor by (done || cbn; lia).
  rewrite IsAligned_divide by (done || cbn; lia).
  pose proof (Z.mod_pos_bound x (2 ^ k) ltac:(lia)).
  pose proof (Z.mod_pos_bound (x + 2 ^ k - 1) (2 ^ k) ltac:(lia)).
  split_and!; [auto | lia | lia | done | |].
  - intros Hlt; rewrite (proj2 (Z.ltb_lt _ _) Hlt); split; [auto | lia].
  - intros Hge; by rewrite (proj2 (Z.ltb_ge _ _) Hge).
Qed.

Lemma alignment_laws_witness :
  AlignUp u64 0x12345 0x1000 = 0x13000
  /\ ((2 ^ 12 | AlignDown u64 0x12345 (2 ^ 12))
      /\ AlignDown u64 0x12345 (2 ^ 12) <= 0x12345 < AlignDown u64 0x12345 (2 ^ 12) + 2 ^ 12).
Proof.
  split; [reflexivity |].
  refine (proj1 (alignment_laws 0x12345 12 _ _)); split; vm_compute; congruence.
Defined.

(** The bit counters: [Popcount] of a 128-bit value counts the set bits of
    both halves, [CountRZero] of a nonzero value is the position of its lowest
    set bit at widths 32, 64 and 128, and [IsPowerOf2] holds exactly of the
    powers of two. *)
Theorem bit_counting (x : Z) :
  (in_range u128 x -> Popcount u128 x = popcount_below 128 x)
  /\ (forall t, t = u32 \/ t = u64 \/ t = u128 -> in_range t x -> x <> 0 ->
      exists c, CountRZero t x = Some c /\ lowest_bit x c /\ c < width t)
  /\ (in_range u64 x -> x <> 0 ->
      IsPowerOf2 u64 x = true <-> exists k, 0 <= k /\ x = 2 ^ k).
Proof.
  split_and!.
  - intros _; unfold Popcount, builtin_popcountll.
    replace (width u128 =? 128) with true by done.
    rewrite !popcount_below_cast by (cbn; lia).
    symmetry; apply (popcount_below_add 64 64).
  - intros t [-> | [-> | ->]] Hr Hx; [| | by apply CountRZero_128].
    + apply builtin_ctz_spec; by rewrite cast_id.
    + apply builtin_ctzll_spec; by rewrite cast_id.
  - apply IsPowerOf2_spec.
Qed.

Lemma bit_counting_witness :
  CountRZero u128 (2 ^ 100) = Some 100
  /\ exists c, CountRZero u64 48 = Some c /\ lowest_bit 48 c /\ c < 64.
Proof.
  split; [vm_compute; reflexivity |].
  apply (proj1 (proj2 (bit_counting 48)) u64); [right; left; reflexivity
    | split; vm_compute; discriminate | discriminate].
Defined.
