(* ===== verification/FixedPoint.v ===== *)
(** * Fixed-point and bit-manipulation intrinsics

    - intrinsics/include/berberis/intrinsics/intrinsics_fixed_point_impl.h:
      [Aadd], [Asub] (averaging add and subtract by bit tricks) and
      [Roundoff];
    - intrinsics/include/berberis/intrinsics/intrinsics_bitmanip_impl.h:
      [Brev8].

    The rounding modes are those of the vector extension.  [round_off] is the
    mathematical definition of rounding the fixed-point value [v / 2^d]; the
    theorems show that the bit tricks compute it without a wider type. *)
From S2P Require Import Prelude MachineInt BitUtil.

(** [VXRMFlags] *)
Inductive VXRMFlags := RNU | RNE | RDN | ROD.

Definition VXRMFlags_of (vxrm : Z) : option VXRMFlags :=
  if vxrm =? 0 then Some RNU
  else if vxrm =? 1 then Some RNE
  else if vxrm =? 2 then Some RDN
  else if vxrm =? 3 then Some ROD
  else None.

Section Intrinsics.
Import Wrapping.

Definition Aadd (t : IntType) (vxrm x y : Z) : Z :=
  let same_bits := and t x y in
  let different_bits := xor t x y in
  let different_bits_average := shr t different_bits 1 in
  let result := add t same_bits different_bits_average in
  match VXRMFlags_of vxrm with
  | Some RNU => add t result (and t different_bits 1)
  | Some RNE => add t result (and t (and t result different_bits) 1)
  | Some RDN => result
  | Some ROD => or t result (and t different_bits 1)
  | None => result
  end.

Definition Asub (t : IntType) (vxrm x y : Z) : Z :=
  let same_bits := and t x (not t y) in
  let different_bits := xor t x y in
  let different_bits_average := shr t different_bits 1 in
  let result := sub t same_bits different_bits_average in
  match VXRMFlags_of vxrm with
  | Some RNU => result
  | Some RNE => sub t result (and t (and t result different_bits) 1)
  | Some RDN => sub t result (and t different_bits 1)
  | Some ROD => sub t result (and t (and t (not t result) different_bits) 1)
  | None => result
  end.

(** [Roundoff]; [None] is the fatal error on an invalid rounding mode.
    [fraction_digits] is a [uint8_t] wrapping integer. *)
Definition Roundoff (t : IntType) (vxrm v premasked_d : Z) : option Z :=
  log2 ← BitUtilLog2 u64 (width t);
  let fraction_digits := cast u8 (Z.land premasked_d (Z.shiftl 1 log2 - 1)) in
  let result := shr t v fraction_digits in
  if fraction_digits =? 0 then Some result
  else
    let digits_minus_1 := sub u8 fraction_digits 1 in
    match VXRMFlags_of vxrm with
    | Some RNU => Some (add t result (and t (shr t v digits_minus_1) 1))
    | Some RNE =>
        let low := and t v (sub t (shl t 1 digits_minus_1) 1) in
        Some (add t result
                (and t (and t (shr t v digits_minus_1) 1)
                       (or t (Z.b2z (negb (low =? 0))) (and t (shr t v fraction_digits) 1))))
    | Some RDN => Some result
    | Some ROD =>
        let low := and t v (sub t (shl t 1 fraction_digits) 1) in
        Some (or t result (Z.b2z (negb (low =? 0))))
    | None => None
    end.
End Intrinsics.

(** [Brev8], for an element of base type [t]: the masks are [unsigned long],
    so each step is computed in 64 bits and assigned back to the base type. *)
Definition Brev8_step (t : IntType) (ls rs n tmp_arg : Z) : Z :=
  let a := cast u64 tmp_arg in
  cast t (Z.lor (cast u64 (Z.shiftl (Z.land a ls) n)) (Z.shiftr (Z.land a rs) n)).

Definition Brev8 (t : IntType) (arg : Z) : Z :=
  let tmp_arg := Brev8_step t 0x5555555555555555 0xaaaaaaaaaaaaaaaa 1 arg in
  let tmp_arg := Brev8_step t 0x3333333333333333 0xcccccccccccccccc 2 tmp_arg in
  Brev8_step t 0x0f0f0f0f0f0f0f0f 0xf0f0f0f0f0f0f0f0 4 tmp_arg.

(** [Cpop<int32_t>] and [Cpop<int64_t>]. *)
Definition Cpop (t : IntType) (src : Z) : Z :=
  if width t =? 32 then builtin_popcount src else builtin_popcountll src.

(** ** Specification: the value of [v / 2^d] rounded to an integer *)
Definition round_off (m : VXRMFlags) (v d : Z) : Z :=
  let q := v / 2 ^ d in
  let r := v mod 2 ^ d in
  if d =? 0 then v
  else match m with
  | RNU => (v + 2 ^ (d - 1)) / 2 ^ d
  | RNE => if (2 ^ (d - 1) <? r) || ((r =? 2 ^ (d - 1)) && Z.odd q) then q + 1 else q
  | RDN => q
  | ROD => if (r =? 0) || Z.odd q then q else q + 1
  end.

(** ** Bitwise operators on values of a machine type *)

(** The element types of the vector code: 8 to 128 bits. *)
Definition is_element_type (t : IntType) : Prop :=
  width t = 8 \/ width t = 16 \/ width t = 32 \/ width t = 64 \/ width t = 128.

Lemma element_type_ok t : is_element_type t -> IntTypeOk t.
Proof. unfold is_element_type, IntTypeOk; lia. Qed.
#[export] Hint Resolve element_type_ok : zrange.

Lemma small_in_range t x : 1 < width t -> 0 <= x <= 1 -> in_range t x.
Proof.
  intros Hw Hx; unfold in_range, int_min, int_max.
  assert (2 ^ 1 <= 2 ^ (width t - 1) \/ width t = 2) by
    (destruct (decide (width t = 2)); [auto | left; apply pow2_le_mono; lia]).
  assert (2 ^ 2 <= 2 ^ width t) by (apply pow2_le_mono; lia).
  pose proof (pow2_pos (width t - 1)).
  destruct (is_signed t); [| lia].
  destruct H as [| ->]; cbn; lia.
Qed.

(** ** Rounding *)

Lemma pow2_land_mask t d :
  is_element_type t -> 0 <= d < width t -> Z.land d (width t - 1) = d.
Proof.
  intros Ht Hd.
  assert (exists k, 0 <= k /\ width t = 2 ^ k) as (k & Hk & Hw).
  { destruct Ht as [-> | [-> | [-> | [-> | ->]]]];
      [exists 3 | exists 4 | exists 5 | exists 6 | exists 7]; split; reflexivity || lia. }
  rewrite Hw in *; rewrite ones_pow2, Z.land_ones by lia; apply Z.mod_small; lia.
Qed.

Lemma shr_exact t v n :
  is_element_type t -> in_range t v -> 0 <= n < width t -> Wrapping.shr t v n = v / 2 ^ n.
Proof.
  intros Ht Hv Hn; assert (IntTypeOk t) by auto with zrange.
  unfold Wrapping.shr; rewrite pow2_land_mask by done.
  rewrite cast_id, Z.shiftr_div_pow2 by (done || lia || (apply shiftr_in_range; (done || lia))).
  done.
Qed.

Lemma land_1 x : Z.land x 1 = x mod 2.
Proof. change 1 with (Z.ones 1); by rewrite Z.land_ones. Qed.

Lemma and_one t x : 1 < width t -> Wrapping.and t x 1 = x mod 2.
Proof.
  intros Hw; assert (IntTypeOk t) by (unfold IntTypeOk; lia).
  unfold Wrapping.and; rewrite land_1; apply cast_id; [done |].
  apply small_in_range; [done |]; pose proof (Z.mod_pos_bound x 2); lia.
Qed.

(** The mask [(1 << d) - 1] selects the fraction, for every [d] below the
    width, the sign bit included. *)
Lemma and_low_mask t v d :
  is_element_type t -> in_range t v -> 0 <= d < width t ->
  Wrapping.and t v (Wrapping.sub t (Wrapping.shl t 1 d) 1) = v mod 2 ^ d.
Proof.
  intros Ht Hv Hd; assert (IntTypeOk t) by auto with zrange.
  unfold Wrapping.and, Wrapping.sub, Wrapping.shl, builtin_overflow; cbn [fst].
  rewrite pow2_land_mask, cast_sub_l, cast_land_r by done.
  rewrite Z.shiftl_1_l, ones_pow2, Z.land_ones by lia.
  apply cast_id; [done |].
  pose proof (Z.mod_pos_bound v (2 ^ d) (pow2_pos d ltac:(lia))).
  pose proof (pow2_le_mono d (width t - 1) ltac:(lia)); pose proof (half_range t).
  pose proof (half_pos t); unfold in_range, int_min, int_max; destruct (is_signed t); lia.
Qed.

(** Quotient, half bit and rest of a fixed-point value. *)
Lemma fraction_split v d :
  0 < d -> exists q h l,
    v = 2 ^ d * q + 2 ^ (d - 1) * h + l /\ 0 <= h <= 1 /\ 0 <= l < 2 ^ (d - 1)
    /\ v / 2 ^ d = q /\ v mod 2 ^ d = 2 ^ (d - 1) * h + l
    /\ (v / 2 ^ (d - 1)) mod 2 = h /\ v mod 2 ^ (d - 1) = l.
Proof.
  intros Hd; pose proof (pow2_pos (d - 1) ltac:(lia)); pose proof (pow2_double d Hd) as Hdbl.
  pose proof (Z.div_mod v (2 ^ (d - 1)) ltac:(lia)) as H1.
  pose proof (Z.mod_pos_bound v (2 ^ (d - 1)) ltac:(lia)).
  set (l := v mod 2 ^ (d - 1)) in *; set (p := v / 2 ^ (d - 1)) in *.
  pose proof (Z.div_mod p 2 ltac:(lia)); pose proof (Z.mod_pos_bound p 2 ltac:(lia)).
  assert (v = 2 ^ d * (p / 2) + (2 ^ (d - 1) * (p mod 2) + l)) as Hv by nia.
  exists (p / 2), (p mod 2), l; split_and!; try lia.
  - symmetry; apply (Z.div_unique_pos _ _ _ (2 ^ (d - 1) * (p mod 2) + l)); nia.
  - symmetry; apply (Z.mod_unique_pos _ _ (p / 2)); nia.
Qed.

(** The increment each mode adds to the truncated quotient. *)
Lemma round_off_increment m v d :
  0 < d ->
  let q := v / 2 ^ d in
  let h := (v / 2 ^ (d - 1)) mod 2 in
  let l := v mod 2 ^ (d - 1) in
  round_off m v d
  = q + match m with
        | RNU => h
        | RNE => Z.land h (Z.lor (Z.b2z (negb (l =? 0))) (q mod 2))
        | RDN => 0
        | ROD => if (v mod 2 ^ d =? 0) || Z.odd q then 0 else 1
        end.
Proof.
  intros Hd; pose proof (pow2_pos (d - 1) ltac:(lia)); pose proof (pow2_double d Hd).
  destruct (fraction_split v d Hd) as (q & h & l & Hv & Hh & Hl & Eq & Er & Eh & El).
  cbv zeta; unfold round_off; rewrite (proj2 (Z.eqb_neq d 0)), Eq, Er, Eh, El by lia.
  destruct m.
  - symmetry; apply (Z.div_unique_pos _ _ _ (if h =? 0 then 2 ^ (d - 1) + l else l)).
    + zreflect; lia.
    + zreflect; nia.
  - rewrite (Zmod_odd q).
    assert (h = 0 \/ h = 1) as [-> | ->] by lia; destruct (Z.odd q);
      zreflect; cbn -[Z.pow Z.mul Z.add Z.sub]; zground; nia.
  - lia.
  - destruct (Z.odd q); zreflect; cbn -[Z.pow Z.mul Z.add Z.sub]; lia.
Qed.

Lemma round_off_in_range t m v d :
  is_element_type t -> in_range t v -> 0 <= d < width t -> in_range t (round_off m v d).
Proof.
  intros Ht Hv Hd; destruct (decide (d = 0)) as [-> | Hd0]; [done |].
  assert (Hb : v / 2 ^ d <= round_off m v d <= v / 2 ^ d + 1).
  { rewrite round_off_increment by lia; destruct m; [| | lia | destruct (_ || _); lia].
    - pose proof (Z.mod_pos_bound (v / 2 ^ (d - 1)) 2); lia.
    - pose proof (Z.mod_pos_bound (v / 2 ^ (d - 1)) 2 ltac:(lia)).
      pose proof (Z.mod_pos_bound (v / 2 ^ d) 2 ltac:(lia)).
      assert ((v / 2 ^ (d - 1)) mod 2 = 0 \/ (v / 2 ^ (d - 1)) mod 2 = 1) as [-> | ->] by lia;
      assert ((v / 2 ^ d) mod 2 = 0 \/ (v / 2 ^ d) mod 2 = 1) as [-> | ->] by lia;
      destruct (_ =? 0); cbn [negb Z.b2z]; zground; lia. }
  pose proof (pow2_le_mono 1 d ltac:(lia)).
  pose proof (pow2_le_mono 7 (width t - 1) ltac:(unfold is_element_type in Ht; lia)).
  assert (IntTypeOk t) by auto with zrange; pose proof (half_range t).
  pose proof (Z.div_mod v (2 ^ d) ltac:(lia)); pose proof (Z.mod_pos_bound v (2 ^ d) ltac:(lia)).
  unfold in_range, int_min, int_max in *; destruct (is_signed t); nia.
Qed.

Lemma BitUtilLog2_element t :
  is_element_type t -> exists k, BitUtilLog2 u64 (width t) = Some k /\ Z.shiftl 1 k = width t.
Proof.
  unfold BitUtilLog2; intros [-> | [-> | [-> | [-> | ->]]]];
    [exists 3 | exists 4 | exists 5 | exists 6 | exists 7]; split; vm_compute; reflexivity.
Qed.

(** [premasked_d] selects [d] fraction digits at the width of [t]. *)
Definition fraction_digits_of (t : IntType) (premasked_d : Z) : Z :=
  cast u8 (Z.land premasked_d (width t - 1)).

Lemma fraction_digits_range t p :
  is_element_type t -> 0 <= fraction_digits_of t p < width t.
Proof.
  unfold fraction_digits_of, cast; cbn [u8 is_signed width].
  intros [-> | [-> | [-> | [-> | ->]]]]; cbn [Z.sub Z.opp Z.add Z.pos_sub Pos.pred_double];
    [change (8 - 1) with (Z.ones 3) | change (16 - 1) with (Z.ones 4)
    | change (32 - 1) with (Z.ones 5) | change (64 - 1) with (Z.ones 6)
    | change (128 - 1) with (Z.ones 7)]; rewrite Z.land_ones by lia.
  all: match goal with |- context [?a mod ?m mod _] =>
         pose proof (Z.mod_pos_bound a m ltac:(reflexivity)) end.
  all: rewrite Z.mod_small; lia.
Qed.

Lemma lor_even_1 p : Z.lor (2 * p) 1 = 2 * p + 1.
Proof.
  assert (Z.land (2 * p) 1 = 0) as H by (rewrite land_1, Z.mul_comm; apply Z_mod_mult).
  by rewrite Z.add_nocarry_lxor, Z.lxor_lor.
Qed.

Lemma lor_bit q (b : bool) :
  Z.lor q (Z.b2z b) = q + (if negb b || Z.odd q then 0 else 1).
Proof.
  destruct b; cbn [negb Z.b2z orb]; [| rewrite Z.lor_0_r; lia].
  pose proof (Z.div_mod q 2 ltac:(lia)) as Hq; rewrite Zmod_odd in Hq.
  destruct (Z.odd q); rewrite Hq.
  - by rewrite <- lor_even_1, <- Z.lor_assoc, Z.lor_diag, Z.add_0_r.
  - by rewrite !Z.add_0_r, lor_even_1.
Qed.

(** [Roundoff] is mathematical rounding, at every element type. *)
Lemma Roundoff_round t vxrm m v p :
  is_element_type t -> in_range t v -> VXRMFlags_of vxrm = Some m ->
  Roundoff t vxrm v p = Some (round_off m v (fraction_digits_of t p)).
Proof.
  intros Ht Hv Hm; assert (Ok : IntTypeOk t) by auto with zrange.
  pose proof (fraction_digits_range t p Ht) as Hd.
  pose proof (round_off_in_range t m v _ Ht Hv Hd) as Hr.
  destruct (BitUtilLog2_element t Ht) as (k & Hk & Hsh).
  assert (Hw : 1 < width t <= 128) by (unfold is_element_type in Ht; lia).
  unfold Roundoff; rewrite Hk; cbn [mbind option_bind]; rewrite Hsh.
  fold (fraction_digits_of t p); set (d := fraction_digits_of t p) in *.
  destruct (Z.eqb_spec d 0) as [Hd0 | Hd0].
  - rewrite Hd0 in *; rewrite shr_exact, Z.div_1_r by (done || lia); done.
  - assert (Wrapping.sub u8 d 1 = d - 1) as ->.
    { unfold Wrapping.sub, builtin_overflow; cbn [fst]; apply cast_id; [done |].
      split; cbn; lia. }
    rewrite Hm, (shr_exact t v d), (shr_exact t v (d - 1)) by (done || lia).
    rewrite !and_low_mask, !and_one by (done || lia).
    rewrite round_off_increment in * by lia.
    destruct m; f_equal; unfold Wrapping.add, Wrapping.or, Wrapping.and, builtin_overflow; cbn [fst].
    + by apply cast_id.
    + rewrite (cast_id t (Z.lor _ _)), cast_add_r; [by apply cast_id | done |].
      apply lor_in_range; [lia | |]; apply small_in_range; try lia.
      * destruct (_ =? 0); cbn; lia.
      * pose proof (Z.mod_pos_bound (v / 2 ^ d) 2); lia.
    + by rewrite Z.add_0_r.
    + rewrite lor_bit, negb_involutive; by apply cast_id.
Qed.

(** ** Averaging add and subtract *)

(** Halving: what each mode adds to the floor of half a value. *)
Lemma round_off_half m v :
  round_off m v 1
  = v / 2 + match m with
            | RNU => v mod 2
            | RNE => (v mod 2) * ((v / 2) mod 2)
            | RDN => 0
            | ROD => (v mod 2) * (1 - (v / 2) mod 2)
            end.
Proof.
  rewrite round_off_increment by lia; cbn [Z.sub Z.opp Z.add Z.pos_sub Pos.pred_double].
  change (2 ^ 1) with 2; change (2 ^ (1 - 1)) with 1; rewrite Z.div_1_r, Z.mod_1_r.
  pose proof (Z.mod_pos_bound v 2 ltac:(lia)); rewrite (Zmod_odd (v / 2)).
  assert (v mod 2 = 0 \/ v mod 2 = 1) as [-> | ->] by lia;
    destruct m, (Z.odd (v / 2)); cbn [Z.b2z negb orb Z.eqb Pos.eqb]; zground; lia.
Qed.

(** The exact sum and difference, from the shared and the differing bits. *)
Lemma add_shared_bits x y : x + y = 2 * Z.land x y + Z.lxor x y.
Proof. pose proof (Z.add_lxor_2land x y); lia. Qed.

Lemma sub_shared_bits x y : x - y = 2 * Z.land x (Z.lnot y) - Z.lxor x y.
Proof.
  pose proof (Z.add_lxor_2land x (Z.lnot y)) as H.
  rewrite <- Z.lnot_lxor_r in H; unfold Z.lnot in *; lia.
Qed.

(** Parity survives a conversion. *)
Lemma cast_parity t x : 0 < width t -> cast t x mod 2 = x mod 2.
Proof.
  intros Hw; rewrite <- !land_1; apply Z.bits_inj'; intros i Hi; rewrite !Z.land_spec.
  destruct (decide (i = 0)) as [-> |]; [by rewrite testbit_cast_low by lia |].
  replace (Z.testbit 1 i) with false; [by rewrite !andb_false_r |].
  symmetry; apply (testbit_bounded 1 1); lia.
Qed.

Lemma and_and_one t a b :
  1 < width t -> Wrapping.and t (Wrapping.and t a b) 1 = (a mod 2) * (b mod 2).
Proof.
  intros Hw; rewrite and_one by done; unfold Wrapping.and; rewrite cast_parity by lia.
  rewrite <- land_1, <- Z.land_assoc, land_1.
  pose proof (Z.mod_pos_bound b 2 ltac:(lia)); rewrite (Zmod_odd a).
  assert (b mod 2 = 0 \/ b mod 2 = 1) as [-> | ->] by lia;
    [by rewrite Z.land_0_r, Z.mul_0_r | rewrite land_1, Zmod_odd; lia].
Qed.

Lemma Aadd_floor t x y :
  is_element_type t -> in_range t x -> in_range t y ->
  Wrapping.add t (Wrapping.and t x y) (Wrapping.shr t (Wrapping.xor t x y) 1)
  = cast t ((x + y) / 2).
Proof.
  intros Ht Hx Hy; assert (IntTypeOk t) by auto with zrange.
  assert (Hw : 1 < width t) by (unfold is_element_type in Ht; lia).
  unfold Wrapping.add, Wrapping.and, Wrapping.xor, builtin_overflow; cbn [fst].
  rewrite (cast_id t (Z.lxor x y)) by (apply lxor_in_range; (done || lia)).
  rewrite shr_exact by (done || (apply lxor_in_range; (done || lia)) || lia).
  rewrite cast_add_l by done; f_equal; change (2 ^ 1) with 2.
  rewrite (add_shared_bits x y), Z.mul_comm, Z.div_add_l by lia; done.
Qed.

Lemma Asub_ceil t x y :
  is_element_type t -> in_range t x -> in_range t y ->
  Wrapping.sub t (Wrapping.and t x (Wrapping.not t y)) (Wrapping.shr t (Wrapping.xor t x y) 1)
  = cast t ((x - y) / 2 + (x - y) mod 2).
Proof.
  intros Ht Hx Hy; assert (IntTypeOk t) by auto with zrange.
  assert (Hw : 1 < width t) by (unfold is_element_type in Ht; lia).
  unfold Wrapping.sub, Wrapping.and, Wrapping.xor, Wrapping.not, builtin_overflow; cbn [fst].
  rewrite (cast_id t (Z.lxor x y)) by (apply lxor_in_range; (done || lia)).
  rewrite shr_exact by (done || (apply lxor_in_range; (done || lia)) || lia).
  rewrite cast_land_r, cast_sub_l by done.
  f_equal; change (2 ^ 1) with 2; rewrite (sub_shared_bits x y).
  generalize (Z.land x (Z.lnot y)) (Z.lxor x y); intros a b; zdivmod.
Qed.

Lemma lxor_parity_add x y : Z.lxor x y mod 2 = (x + y) mod 2.
Proof.
  rewrite (add_shared_bits x y), Z.add_comm, Z.mul_comm, Z_mod_plus_full; done.
Qed.

Lemma lxor_parity_sub x y : Z.lxor x y mod 2 = (x - y) mod 2.
Proof. rewrite lxor_parity_add, <- (Z_mod_plus_full (x - y) y); f_equal; lia. Qed.

Lemma Aadd_round t vxrm m x y :
  is_element_type t -> in_range t x -> in_range t y -> VXRMFlags_of vxrm = Some m ->
  Aadd t vxrm x y = cast t (round_off m (x + y) 1).
Proof.
  intros Ht Hx Hy Hm; assert (IntTypeOk t) by auto with zrange.
  assert (Hw : 1 < width t) by (unfold is_element_type in Ht; lia).
  unfold Aadd; rewrite Hm, round_off_half, Aadd_floor by done.
  assert (Wrapping.xor t x y mod 2 = (x + y) mod 2) as Hp.
  { unfold Wrapping.xor; rewrite cast_parity, lxor_parity_add by lia; done. }
  destruct m; rewrite ?and_and_one, ?and_one, ?Hp, ?cast_parity by lia.
  - by apply cast_add_l.
  - unfold Wrapping.add, builtin_overflow; cbn [fst]; rewrite cast_add_l by done; f_equal; lia.
  - by rewrite Z.add_0_r.
  - unfold Wrapping.or; rewrite (Zmod_odd (x + y)), (Zmod_odd (_ / 2)).
    set (q := (x + y) / 2).
    replace (if Z.odd (x + y) then 1 else 0) with (Z.b2z (Z.odd (x + y)))
      by (by destruct (Z.odd (x + y))).
    rewrite lor_bit, cast_add_l by done; f_equal.
    replace (Z.odd (cast t q)) with (Z.odd q).
    + by destruct (Z.odd (x + y)), (Z.odd q).
    + rewrite <- !Z.bit0_odd; symmetry; apply testbit_cast_low; lia.
Qed.

Lemma Asub_round t vxrm m x y :
  is_element_type t -> in_range t x -> in_range t y -> VXRMFlags_of vxrm = Some m ->
  Asub t vxrm x y = cast t (round_off m (x - y) 1).
Proof.
  intros Ht Hx Hy Hm; assert (IntTypeOk t) by auto with zrange.
  assert (Hw : 1 < width t) by (unfold is_element_type in Ht; lia).
  unfold Asub; rewrite Hm, round_off_half, Asub_ceil by done.
  assert (Wrapping.xor t x y mod 2 = (x - y) mod 2) as Hp.
  { unfold Wrapping.xor; rewrite cast_parity, lxor_parity_sub by lia; done. }
  destruct m; rewrite ?and_and_one, ?and_one, ?Hp, ?cast_parity by lia; [done | ..];
    unfold Wrapping.sub, Wrapping.not, builtin_overflow; cbn [fst];
    rewrite ?cast_parity, ?cast_sub_l by (done || lia); f_equal.
  all: set (q := (x - y) / 2).
  all: pose proof (Z.mod_pos_bound (x - y) 2 ltac:(lia)).
  - assert ((x - y) mod 2 = 0 \/ (x - y) mod 2 = 1) as [-> | ->] by lia; [lia |].
    clearbody q; zdivmod.
  - lia.
  - unfold Z.lnot; assert (Z.pred (- cast t (q + (x - y) mod 2)) mod 2
                           = (1 - (q + (x - y) mod 2) mod 2)) as ->.
    { rewrite <- (cast_parity t (q + (x - y) mod 2)) by lia.
      generalize (cast t (q + (x - y) mod 2)); intros c; zdivmod. }
    assert ((x - y) mod 2 = 0 \/ (x - y) mod 2 = 1) as [-> | ->] by lia; [lia |].
    clearbody q; zdivmod.
Qed.

(** ** Bit reversal in bytes *)

Lemma Brev8_step_bit t ls rs n x i :
  0 < width t <= 64 -> 0 <= n -> 0 <= i < width t ->
  Z.testbit (Brev8_step t ls rs n x) i
  = (n <=? i) && Z.testbit ls (i - n) && Z.testbit x (i - n)
    || (i + n <? 64) && Z.testbit rs (i + n) && Z.testbit x (i + n).
Proof.
  intros Hw Hn Hi; unfold Brev8_step; rewrite testbit_cast_low by lia.
  rewrite Z.lor_spec, testbit_cast_low by (cbn; lia).
  autorewrite with zbits; rewrite (proj2 (Z.leb_le 0 i)) by lia; cbn [andb].
  f_equal.
  - destruct (Z.leb_spec n i).
    + rewrite testbit_cast_low by (cbn; lia); by destruct (Z.testbit ls (i - n)), (Z.testbit x (i - n)).
    + by rewrite Z.testbit_neg_r by lia.
  - destruct (Z.ltb_spec (i + n) 64).
    + rewrite testbit_cast_low by (cbn; lia); by destruct (Z.testbit rs (i + n)), (Z.testbit x (i + n)).
    + rewrite (testbit_bounded (cast u64 x) 64); [done | | lia].
      apply (in_range_unsigned u64); [done | by apply cast_in_range].
Qed.

(** One step at a concrete bit, with its masks evaluated. *)
Ltac brev8_step :=
  rewrite Brev8_step_bit by lia;
  repeat match goal with
  | |- context [?a <=? ?b] => let c := eval vm_compute in (a <=? b) in change (a <=? b) with c
  | |- context [?a <? ?b] => let c := eval vm_compute in (a <? b) in change (a <? b) with c
  | |- context [?a - ?b] => let c := eval vm_compute in (a - b) in change (a - b) with c
  | |- context [?a + ?b] => let c := eval vm_compute in (a + b) in change (a + b) with c
  | |- context [Z.testbit (Zpos ?p) ?b] =>
      let c := eval vm_compute in (Z.testbit (Zpos p) b) in change (Z.testbit (Zpos p) b) with c
  end; cbn [andb orb]; rewrite ?orb_false_r.

Lemma Brev8_bit t x i :
  0 < width t <= 64 -> width t mod 8 = 0 -> 0 <= i < width t ->
  Z.testbit (Brev8 t x) i = Z.testbit x (8 * (i / 8) + (7 - i mod 8)).
Proof.
  intros Hw H8 Hi; unfold Brev8.
  assert (Hb : 8 * (i / 8) + 8 <= width t) by zdivmod.
  assert (Hin : In i (map Z.of_nat (seq 0 64))).
  { apply in_map_iff; exists (Z.to_nat i); split; [lia | apply in_seq; lia]. }
  cbn in Hin.
  repeat (destruct Hin as [<- | Hin];
    [match goal with |- _ = Z.testbit x ?e => let c := eval vm_compute in e in change e with c end;
     match type of Hb with ?l <= _ => let c := eval vm_compute in l in change l with c in Hb end;
     do 3 brev8_step; reflexivity |]).
  destruct Hin.
Qed.

(** ** Averaging through the widened type *)

(** Widening keeps the value. *)
Lemma widen_in_range t wide_t :
  width wide_t = 2 * width t -> is_signed wide_t = is_signed t -> forall x,
  IntTypeOk t -> in_range t x -> Wrapping.wrap_Widen wide_t x = x /\ in_range wide_t x.
Proof.
  intros Hw Hs x Ok Hx; assert (IntTypeOk wide_t) by (unfold IntTypeOk in *; lia).
  assert (in_range wide_t x); [| by split; [apply cast_id |]].
  pose proof (pow2_le_mono (width t) (width wide_t) ltac:(unfold IntTypeOk in *; lia)).
  pose proof (pow2_le_mono (width t - 1) (width wide_t - 1) ltac:(unfold IntTypeOk in *; lia)).
  unfold in_range, int_min, int_max in *; rewrite Hs; destruct (is_signed t); lia.
Qed.

(** Halving commutes with adding a multiple of four. *)
Lemma round_off_half_shift m v c : round_off m (v + c * 4) 1 = round_off m v 1 + c * 2.
Proof.
  rewrite !round_off_half; assert ((v + c * 4) mod 2 = v mod 2) as -> by zdivmod.
  assert ((v + c * 4) / 2 = v / 2 + c * 2) as -> by zdivmod.
  rewrite Z_mod_plus_full; lia.
Qed.

(** Rounding half of any integer at the widened type and narrowing the result
    gives the half modulo the narrow type, whether or not the integer fitted. *)
Lemma narrow_round_half t wide_t vxrm m v :
  is_element_type t -> is_element_type wide_t -> width wide_t = 2 * width t ->
  VXRMFlags_of vxrm = Some m ->
  Wrapping.wrap_Narrow t <$> Roundoff wide_t vxrm (cast wide_t v) 1
  = Some (cast t (round_off m v 1)).
Proof.
  intros Ht Hwt Hw Hm.
  assert (IntTypeOk t) by auto with zrange; assert (IntTypeOk wide_t) by auto with zrange.
  assert (fraction_digits_of wide_t 1 = 1) as Hd.
  { unfold fraction_digits_of; rewrite pow2_land_mask; [done | done |].
    unfold is_element_type in Hwt; lia. }
  rewrite (Roundoff_round wide_t vxrm m), Hd by auto with zrange.
  cbn [fmap option_fmap option_map]; unfold Wrapping.wrap_Narrow; f_equal.
  assert (Hwp : 8 <= width t) by (unfold is_element_type in Ht; lia).
  assert (exists k, cast wide_t v = v + (k * 2 ^ (width wide_t - 2)) * 4) as [k ->].
  { pose proof (cast_mod wide_t v) as E; pose proof (range_pos wide_t).
    pose proof (Z.div_mod (cast wide_t v) (2 ^ width wide_t) ltac:(lia)).
    pose proof (Z.div_mod v (2 ^ width wide_t) ltac:(lia)).
    exists (cast wide_t v / 2 ^ width wide_t - v / 2 ^ width wide_t).
    assert (2 ^ (width wide_t - 2) * 4 = 2 ^ width wide_t) as E4.
    { change 4 with (2 ^ 2); rewrite <- Z.pow_add_r by lia; f_equal; lia. }
    rewrite <- (Z.mul_assoc _ _ 4), E4; lia. }
  rewrite round_off_half_shift; apply cast_congr; [done |].
  rewrite (pow2_split (width t) (width wide_t - 2)) by lia.
  replace (k * (2 ^ width t * 2 ^ (width wide_t - 2 - width t)) * 2)
    with ((k * 2 ^ (width wide_t - 2 - width t) * 2) * 2 ^ width t) by ring.
  apply Z_mod_plus_full.
Qed.

(** ** Main properties *)

(** [Roundoff] computes, at every element type and for every number of
    fraction digits, the mathematically rounded value of [v / 2^d] in each of
    the four rounding modes, with no overflow, and rejects any other mode
    (unless there is nothing to round). *)
Theorem Roundoff_correct (t : IntType) (vxrm v p : Z) :
  is_element_type t -> in_range t v ->
  let d := fraction_digits_of t p in
  0 <= d < width t
  /\ (forall m, VXRMFlags_of vxrm = Some m ->
      Roundoff t vxrm v p = Some (round_off m v d) /\ in_range t (round_off m v d))
  /\ (VXRMFlags_of vxrm = None -> Roundoff t vxrm v p = if d =? 0 then Some v else None).
Proof.
  intros Ht Hv d; subst d; pose proof (fraction_digits_range t p Ht) as Hd.
  split_and!; [lia | lia | |].
  - intros m Hm; split; [by apply Roundoff_round | by apply round_off_in_range].
  - intros Hm; destruct (BitUtilLog2_element t Ht) as (k & Hk & Hsh).
    unfold Roundoff; rewrite Hk; cbn [mbind option_bind]; rewrite Hsh, Hm.
    fold (fraction_digits_of t p); destruct (Z.eqb_spec (fraction_digits_of t p) 0) as [E |]; [| done].
    rewrite E, shr_exact, Z.div_1_r by (done || lia); done.
Qed.

Lemma Roundoff_correct_witness :
  Roundoff i8 1 (-3) 1 = Some (-2)
  /\ let d := fraction_digits_of i8 1 in
     0 <= d < 8
     /\ (forall m, VXRMFlags_of 1 = Some m ->
         Roundoff i8 1 (-3) 1 = Some (round_off m (-3) d) /\ in_range i8 (round_off m (-3) d))
     /\ (VXRMFlags_of 1 = None -> Roundoff i8 1 (-3) 1 = if d =? 0 then Some (-3) else None).
Proof.
  split; [reflexivity |].
  apply (Roundoff_correct i8 1 (-3) 1); [left; reflexivity | split; vm_compute; discriminate].
Defined.

(** The averaging add and subtract, which avoid a wider type by working on
    the shared and the differing bits, are equivalent to the definition their
    comment gives, [Narrow(Roundoff(Widen(x) +- Widen(y), 1))] with the widened
    type [wide_t], in all four rounding modes. *)
Theorem averaging_equiv_widening (t wide_t : IntType) (vxrm x y : Z) :
  is_element_type t -> is_element_type wide_t ->
  width wide_t = 2 * width t -> is_signed wide_t = is_signed t ->
  in_range t x -> in_range t y -> 0 <= vxrm <= 3 ->
  Wrapping.wrap_Narrow t <$>
    Roundoff wide_t vxrm
      (Wrapping.add wide_t (Wrapping.wrap_Widen wide_t x) (Wrapping.wrap_Widen wide_t y)) 1
  = Some (Aadd t vxrm x y)
  /\ Wrapping.wrap_Narrow t <$>
    Roundoff wide_t vxrm
      (Wrapping.sub wide_t (Wrapping.wrap_Widen wide_t x) (Wrapping.wrap_Widen wide_t y)) 1
  = Some (Asub t vxrm x y).
Proof.
  intros Ht Hwt Hw Hs Hx Hy Hv.
  assert (exists m, VXRMFlags_of vxrm = Some m) as [m Hm].
  { unfold VXRMFlags_of; zreflect; eauto; lia. }
  rewrite (Aadd_round t vxrm m), (Asub_round t vxrm m) by done.
  destruct (widen_in_range t wide_t Hw Hs x) as [-> Wx]; [auto with zrange | done |].
  destruct (widen_in_range t wide_t Hw Hs y) as [-> Wy]; [auto with zrange | done |].
  split; by apply narrow_round_half.
Qed.

Lemma averaging_equiv_widening_witness :
  Asub i8 0 127 (-128) = -128
  /\ Wrapping.wrap_Narrow i8 <$>
       Roundoff i16 0 (Wrapping.add i16 (Wrapping.wrap_Widen i16 127) (Wrapping.wrap_Widen i16 (-128))) 1
     = Some (Aadd i8 0 127 (-128)).
Proof.
  split; [reflexivity |].
  apply (averaging_equiv_widening i8 i16 0 127 (-128));
    [left; reflexivity | right; left; reflexivity | reflexivity | reflexivity
    | split; vm_compute; discriminate | split; vm_compute; discriminate
    | split; vm_compute; discriminate].
Defined.

(** [Brev8] reverses the bits of every byte of an element, at the element
    widths 8, 16, 32 and 64. *)
Theorem Brev8_reverses_bytes (t : IntType) (x i : Z) :
  width t = 8 \/ width t = 16 \/ width t = 32 \/ width t = 64 -> 0 <= i < width t ->
  Z.testbit (Brev8 t x) i = Z.testbit x (8 * (i / 8) + (7 - i mod 8)).
Proof. intros Hw Hi; apply Brev8_bit; [lia | zdivmod | done]. Qed.

Lemma Brev8_reverses_bytes_witness :
  Brev8 u16 0x0180 = 0x8001 /\ Z.testbit (Brev8 u16 0x0180) 15 = true.
Proof.
  split; [reflexivity |].
  rewrite (Brev8_reverses_bytes u16 0x0180 15); [reflexivity | right; left; reflexivity |].
  split; vm_compute; congruence.
Defined.
