(* ===== verification/Effects.v ===== *)
(** * State and failure

    The effect of the run-time components: a computation takes a state and
    either returns a value and the new state, or is stuck.  Being stuck stands
    for everything that ends the process: a failed [CHECK] and the use of a
    pointer to an object that was freed. *)
From stdpp Require Import gmap sorting.
From S2P Require Import Prelude.
#[local] Open Scope Z_scope.

Definition SM (S A : Type) : Type := S -> option (A * S).
#[export] Instance SM_ret {S} : MRet (SM S) := fun A a s => Some (a, s).
#[export] Instance SM_bind {S} : MBind (SM S) := fun A B k m s =>
  match m s with Some (a, s') => k a s' | None => None end.

Section Operations.
Context {S : Type}.
Definition get_st {A} (f : S -> A) : SM S A := fun s => Some (f s, s).
Definition upd_st (f : S -> S) : SM S unit := fun s => Some (tt, f s).
Definition check (b : bool) : SM S unit := fun s => if b then Some (tt, s) else None.
(** A lookup that must succeed. *)
Definition must {A} (f : S -> option A) : SM S A := fun s =>
  match f s with Some a => Some (a, s) | None => None end.
End Operations.

(** ** What a computation guarantees *)

(** [m] is not stuck from [s], and its result and final state satisfy [Q]. *)
Definition ends {S A} (m : SM S A) (s : S) (Q : A -> S -> Prop) : Prop :=
  exists a s', m s = Some (a, s') /\ Q a s'.

Section Ends.
Context {S : Type}.
Implicit Types s : S.

Lemma ends_ret {A} (a : A) s Q : Q a s -> ends (mret a : SM S A) s Q.
Proof. intros; by exists a, s. Qed.

Lemma ends_bind {A B} (m : SM S A) (k : A -> SM S B) s Q :
  ends m s (fun a s' => ends (k a) s' Q) -> ends (m ≫= k) s Q.
Proof. intros (a & s' & Hm & Hk); unfold ends, mbind, SM_bind; by rewrite Hm. Qed.

Lemma ends_mono {A} (m : SM S A) s (Q Q' : A -> S -> Prop) :
  ends m s Q -> (forall a s', Q a s' -> Q' a s') -> ends m s Q'.
Proof. intros (a & s' & Hm & HQ) HQQ; exists a, s'; auto. Qed.

Lemma ends_get {A} (f : S -> A) s Q : Q (f s) s -> ends (get_st f) s Q.
Proof. intros; by exists (f s), s. Qed.

Lemma ends_upd (f : S -> S) s Q : Q tt (f s) -> ends (upd_st f) s Q.
Proof. intros; by exists tt, (f s). Qed.

Lemma ends_check b s (Q : unit -> S -> Prop) : b = true -> Q tt s -> ends (check b) s Q.
Proof. intros -> ?; by exists tt, s. Qed.

Lemma ends_must {A} (f : S -> option A) a s (Q : A -> S -> Prop) :
  f s = Some a -> Q a s -> ends (must f) s Q.
Proof. intros Hf ?; exists a, s; unfold must; by rewrite Hf. Qed.
End Ends.

(** ** Executions *)

(** The states that are reached from [s] by steps, with the events they made. *)
Inductive reached {S E} (step : S -> list E -> S -> Prop) (s : S) : list E -> S -> Prop :=
  | reached_start : reached step s [] s
  | reached_step tr s1 evs s2 : reached step s tr s1 -> step s1 evs s2 -> reached step s (tr ++ evs) s2.

Lemma reached_app {S E} (step : S -> list E -> S -> Prop) s tr1 s1 tr2 s2 :
  reached step s tr1 s1 -> reached step s1 tr2 s2 -> reached step s (tr1 ++ tr2) s2.
Proof.
  intros Hr1; induction 1; [by rewrite app_nil_r |]; rewrite app_assoc; by eapply reached_step.
Qed.
Lemma reached_one {S E} (step : S -> list E -> S -> Prop) s evs s' : step s evs s' -> reached step s evs s'.
Proof. intros Hs; exact (reached_step step s [] s evs s' (reached_start step s) Hs). Qed.

(** ** Ordered maps *)

(** The keys of a [std::map] in the order an iterator visits them. *)
Definition keys {V} (m : gmap Z V) : list Z := merge_sort Z.le (elements (dom m)).

Section Keys.
Context {V : Type}.
Implicit Types m : gmap Z V.

Lemma elem_of_keys m k : k ∈ keys m <-> is_Some (m !! k).
Proof. unfold keys; by rewrite merge_sort_Permutation, elem_of_elements, elem_of_dom. Qed.

Lemma keys_sorted m : StronglySorted Z.le (keys m).
Proof. apply (StronglySorted_merge_sort Z.le). Qed.

Lemma sorted_filter (f : Z -> Prop) `{forall x, Decision (f x)} l :
  StronglySorted Z.le l -> StronglySorted Z.le (filter f l).
Proof.
  induction 1 as [| x l _ IH Hx]; [constructor |]; rewrite filter_cons; case_decide; [| done].
  constructor; [done |]; rewrite Forall_forall in *; intros y [_ Hy]%list_elem_of_filter; auto.
Qed.

Lemma keys_NoDup m : NoDup (keys m).
Proof. unfold keys; rewrite merge_sort_Permutation; apply NoDup_elements. Qed.
End Keys.
