(* ===== verification/TableOfTables.v ===== *)
(** * The table of host code addresses

    runtime_primitives/table_of_tables.h: a two-level table from guest addresses
    to host code addresses, whose second level is allocated on demand.  The
    pointers it hands out are used by generated code and by the translation
    cache, so they must stay the home of their key for ever; allocation is
    double-checked, so that several threads may ask for a pointer at once.

    What the translation cache relies on is the class [AddressMapOk]; the table
    is shown to be an instance. *)
From stdpp Require Import gmap.
From S2P Require Import Prelude MachineInt Effects.
#[local] Open Scope Z_scope.

(** ** The interface *)

(** A map with cells that are reached through pointers. *)
Class AddressMap (A P : Type) := {
  am_GetPointer : Z -> A -> P * A;
  am_load : P -> A -> Z;
  am_store : P -> Z -> A -> A
}.

(** Every key has a cell; [am_cell a k] is its value and [am_points a p k] says
    that [p] is a pointer to it.  Keys below 2^48 have cells of their own. *)
Class AddressMapOk (A P : Type) `{AddressMap A P} := {
  am_ok : A -> Prop;
  am_cell : A -> Z -> Z;
  am_points : A -> P -> Z -> Prop;
  am_GetPointer_ok a k : am_ok a -> am_ok (am_GetPointer k a).2;
  am_GetPointer_points a k : am_ok a -> am_points (am_GetPointer k a).2 (am_GetPointer k a).1 k;
  am_GetPointer_keeps a k p j : am_ok a -> am_points a p j -> am_points (am_GetPointer k a).2 p j;
  am_GetPointer_cell a k j : am_ok a -> am_cell (am_GetPointer k a).2 j = am_cell a j;
  am_load_cell a p k : am_ok a -> am_points a p k -> am_load p a = am_cell a k;
  am_store_ok a p k v : am_ok a -> am_points a p k -> am_ok (am_store p v a);
  am_store_same a p k v : am_ok a -> am_points a p k -> am_cell (am_store p v a) k = v;
  am_store_other a p k j v :
    am_ok a -> am_points a p k -> 0 <= k < 2 ^ 48 -> 0 <= j < 2 ^ 48 -> j <> k ->
    am_cell (am_store p v a) j = am_cell a j;
  am_store_keeps a p k v q j :
    am_ok a -> am_points a p k -> am_points a q j -> am_points (am_store p v a) q j
}.

(** ** The table *)

Definition kTableBits : Z := 24.
Definition kTableSize : Z := 2 ^ kTableBits.

(** [SplitKey]: the index in the second-level table and in the main table. *)
Definition key_low (key : Z) : Z := Z.land key (kTableSize - 1).
Definition key_high (key : Z) : Z := Z.land (Z.shiftr key kTableBits) (kTableSize - 1).

(** Second-level tables are known by a number.  An index of the main table that
    is not in the map holds the default table, which is read-only; a cell of a
    second-level table that is not in its map still has the default value. *)
Record TableOfTables := mkTableOfTables {
  default_value_ : Z;
  main_table_ : gmap Z nat;
  child_tables : gmap nat (gmap Z Z)
}.

(** A pointer to a cell of a second-level table. *)
Definition CellPtr : Type := nat * Z.

Definition new_table (t : TableOfTables) : nat := fresh (dom (child_tables t)).
Definition create_child (id : nat) (t : TableOfTables) : TableOfTables :=
  mkTableOfTables (default_value_ t) (main_table_ t) (<[id := ∅]> (child_tables t)).
Definition set_main (high : Z) (id : nat) (t : TableOfTables) : TableOfTables :=
  mkTableOfTables (default_value_ t) (<[high := id]> (main_table_ t)) (child_tables t).

Definition AllocateIfNecessary (high : Z) (t : TableOfTables) : TableOfTables :=
  match main_table_ t !! high with
  | Some _ => t
  | None => set_main high (new_table t) (create_child (new_table t) t)
  end.

Definition read_cell (p : CellPtr) (t : TableOfTables) : Z :=
  default (default_value_ t) (child_tables t !! p.1 ≫= fun c => c !! p.2).
Definition write_cell (p : CellPtr) (v : Z) (t : TableOfTables) : TableOfTables :=
  mkTableOfTables (default_value_ t) (main_table_ t)
    (alter (fun c => <[p.2 := v]> c) p.1 (child_tables t)).

Definition Get (key : Z) (t : TableOfTables) : Z :=
  match main_table_ t !! key_high key with
  | Some id => read_cell (id, key_low key) t
  | None => default_value_ t
  end.

Definition GetPointer (key : Z) (t : TableOfTables) : CellPtr * TableOfTables :=
  let t := AllocateIfNecessary (key_high key) t in
  ((default O (main_table_ t !! key_high key), key_low key), t).

Definition Put (key v : Z) (t : TableOfTables) : CellPtr * TableOfTables :=
  let '(p, t) := GetPointer key t in (p, write_cell p v t).

(** The constructor, for a default value that passes its check (it is not zero). *)
Definition new_TableOfTables (default_value : Z) : TableOfTables :=
  mkTableOfTables default_value ∅ ∅.

#[export] Instance TableOfTables_map : AddressMap TableOfTables CellPtr := {|
  am_GetPointer := GetPointer;
  am_load := read_cell;
  am_store := write_cell
|}.

(** ** Correctness for one thread *)

(** Distinct indices of the main table have distinct second-level tables, and
    these exist. *)
Definition table_ok (t : TableOfTables) : Prop :=
  (forall h id, main_table_ t !! h = Some id -> is_Some (child_tables t !! id))
  /\ (forall h h' id, main_table_ t !! h = Some id -> main_table_ t !! h' = Some id -> h = h').

(** [p] is the home of [key]. *)
Definition points (t : TableOfTables) (p : CellPtr) (key : Z) : Prop :=
  main_table_ t !! key_high key = Some p.1 /\ p.2 = key_low key.

Lemma key_low_eq key : key_low key = key mod kTableSize.
Proof. unfold key_low, kTableSize; rewrite Z.sub_1_r, <- Z.ones_equiv; by apply Z.land_ones. Qed.
Lemma key_high_eq key : key_high key = key / kTableSize mod kTableSize.
Proof.
  unfold key_high, kTableSize; rewrite Z.sub_1_r, <- Z.ones_equiv, Z.land_ones by done.
  by rewrite Z.shiftr_div_pow2 by done.
Qed.

(** The two indices determine the low 48 bits of the key. *)
Lemma split_key_inj k k' :
  key_low k = key_low k' -> key_high k = key_high k' -> k mod 2 ^ 48 = k' mod 2 ^ 48.
Proof.
  rewrite !key_low_eq, !key_high_eq; change (2 ^ 48) with (kTableSize * kTableSize).
  intros Hl Hh; rewrite !Z.rem_mul_r by done; congruence.
Qed.

Lemma new_table_fresh t : child_tables t !! new_table t = None.
Proof. apply not_elem_of_dom; exact (is_fresh (dom (child_tables t))). Qed.

Lemma allocate_ok h t : table_ok t -> table_ok (AllocateIfNecessary h t).
Proof.
  intros [He Hi]; unfold AllocateIfNecessary; destruct (main_table_ t !! h) eqn:E; [done |].
  pose proof (new_table_fresh t) as Hf; split; cbn.
  - intros h1 id; rewrite lookup_insert_Some, lookup_insert_is_Some; intros [[_ <-] | [_ H1]]; [by left |].
    destruct (decide (new_table t = id)); [by left | right; eauto].
  - intros h1 h2 id; rewrite !lookup_insert_Some; intros [[<- <-] | [? H1]] [[<- H2] | [? H2]]; try done.
    + apply He in H2 as [??]; congruence.
    + subst; apply He in H1 as [??]; congruence.
    + by eapply Hi.
Qed.

Lemma allocate_main h t h' id :
  main_table_ t !! h' = Some id -> main_table_ (AllocateIfNecessary h t) !! h' = Some id.
Proof.
  intros; unfold AllocateIfNecessary; destruct (main_table_ t !! h) eqn:E; [done |]; cbn.
  rewrite lookup_insert_ne; [done | congruence].
Qed.

Lemma allocate_allocates h t : is_Some (main_table_ (AllocateIfNecessary h t) !! h).
Proof.
  unfold AllocateIfNecessary; destruct (main_table_ t !! h) eqn:E; cbn; rewrite ?E, ?lookup_insert_eq; eauto.
Qed.

Lemma GetPointer_points t k : points (GetPointer k t).2 (GetPointer k t).1 k.
Proof.
  unfold points, GetPointer; cbn; split; [| done].
  by destruct (allocate_allocates (key_high k) t) as [id ->].
Qed.

Lemma GetPointer_keeps t k p j : points t p j -> points (GetPointer k t).2 p j.
Proof. intros [? ?]; split; [by apply allocate_main | done]. Qed.

Lemma Get_GetPointer t k j : table_ok t -> Get j (GetPointer k t).2 = Get j t.
Proof.
  intros [He _]; unfold Get, GetPointer, AllocateIfNecessary; cbn.
  destruct (main_table_ t !! key_high k) eqn:E; [done |]; cbn.
  pose proof (new_table_fresh t) as Hf; unfold read_cell; cbn.
  destruct (decide (key_high k = key_high j)) as [Hk | Hk].
  - by rewrite <- Hk, E, lookup_insert_eq, lookup_insert_eq.
  - rewrite lookup_insert_ne by done; destruct (main_table_ t !! key_high j) eqn:Ej; [| done].
    apply He in Ej as [??]; rewrite lookup_insert_ne; [done | congruence].
Qed.

Lemma write_ok t p v : table_ok t -> table_ok (write_cell p v t).
Proof.
  intros [He Hi]; split; cbn; [| exact Hi].
  intros h id Hh; rewrite lookup_alter_is_Some; eauto.
Qed.

Lemma Get_write_same t p k v : table_ok t -> points t p k -> Get k (write_cell p v t) = v.
Proof.
  intros [He _] [Hp Hl]; unfold Get, read_cell; cbn; rewrite Hp; cbn.
  destruct (He _ _ Hp) as [c Hc].
  by rewrite lookup_alter_eq, Hc; cbn; rewrite <- Hl, lookup_insert_eq.
Qed.

Lemma Get_write_other t p k j v :
  table_ok t -> points t p k -> k mod 2 ^ 48 <> j mod 2 ^ 48 -> Get j (write_cell p v t) = Get j t.
Proof.
  intros [He Hi] [Hp Hl] Hne; unfold Get, read_cell; cbn.
  destruct (main_table_ t !! key_high j) as [id |] eqn:Ej; cbn; [| done].
  destruct (decide (p.1 = id)) as [<- | Hd]; [| by rewrite lookup_alter_ne].
  destruct (He _ _ Hp) as [c Hc]; rewrite lookup_alter_eq, Hc; cbn.
  rewrite lookup_insert_ne; [done |]; rewrite Hl; intros Hlow.
  by apply Hne, split_key_inj; [| eapply Hi].
Qed.

(** The low 48 bits determine the indices. *)
Lemma split_key_congr k k' :
  k mod 2 ^ 48 = k' mod 2 ^ 48 -> key_low k = key_low k' /\ key_high k = key_high k'.
Proof.
  rewrite !key_low_eq, !key_high_eq; change (2 ^ 48) with (kTableSize * kTableSize).
  rewrite !Z.rem_mul_r by done; unfold kTableSize, kTableBits; cbn; zdivmod.
Qed.

Lemma points_agree t p q k j :
  table_ok t -> points t p k -> points t q j -> p = q <-> k mod 2 ^ 48 = j mod 2 ^ 48.
Proof.
  intros [_ Hi] [Hp Hl] [Hq Hl']; split; [intros -> | intros [E1 E2]%split_key_congr].
  - apply split_key_inj; [congruence | by eapply Hi].
  - apply injective_projections; congruence.
Qed.

#[export] Program Instance TableOfTables_map_ok : AddressMapOk TableOfTables CellPtr := {|
  am_ok := table_ok;
  am_cell := fun t k => Get k t;
  am_points := points
|}.
Next Obligation. intros; by apply allocate_ok. Qed.
Next Obligation. intros; apply GetPointer_points. Qed.
Next Obligation. intros; by apply GetPointer_keeps. Qed.
Next Obligation. intros; by apply Get_GetPointer. Qed.
Next Obligation. intros t p k _ [Hp Hl]; unfold Get; rewrite Hp, <- Hl; by destruct p. Qed.
Next Obligation. intros; by apply write_ok. Qed.
Next Obligation. intros; by apply Get_write_same. Qed.
Next Obligation.
  intros t p k j v ? ? ? ? ?; eapply Get_write_other; [done | done |].
  by rewrite !Z.mod_small by done.
Qed.
Next Obligation. intros t p k v q j _ _ [? ?]; split; done. Qed.

(** ** Several threads

    [GetPointer] as the steps of a thread: the check without the lock, the lock,
    the second check under it, the creation of the new table, its publication,
    and the final look at the main table.  Cells are written through pointers
    that were returned, at any time. *)
Module TableMachine.
Inductive Position :=
  | Idle
  | Checking (key : Z)
  | WaitingForLock (key : Z)
  | Locked (key : Z)
  | Publishing (key : Z) (tmp : nat)
  | Returning (key : Z).

(** [returned] records the pointers handed out; [None] stands for a pointer into
    the read-only default table. *)
Record Machine := mkMachine {
  tables : TableOfTables;
  mutex_ : option nat;
  threads : nat -> Position;
  returned : list (Z * option CellPtr)
}.

Definition goto (i : nat) (p : Position) (m : Machine) : Machine :=
  mkMachine (tables m) (mutex_ m) (fun j => if decide (i = j) then p else threads m j) (returned m).
Definition set_tables (t : TableOfTables) (m : Machine) : Machine :=
  mkMachine t (mutex_ m) (threads m) (returned m).
Definition set_mutex (o : option nat) (m : Machine) : Machine :=
  mkMachine (tables m) o (threads m) (returned m).
Definition hand_out (key : Z) (p : option CellPtr) (m : Machine) : Machine :=
  mkMachine (tables m) (mutex_ m) (threads m) ((key, p) :: returned m).

Definition allocated (m : Machine) (key : Z) : Prop := is_Some (main_table_ (tables m) !! key_high key).

Inductive step (m : Machine) : Machine -> Prop :=
  | call i key : threads m i = Idle -> step m (goto i (Checking key) m)
  | check_hit i key :
      threads m i = Checking key -> allocated m key -> step m (goto i (Returning key) m)
  | check_miss i key :
      threads m i = Checking key -> ~ allocated m key -> step m (goto i (WaitingForLock key) m)
  | lock i key :
      threads m i = WaitingForLock key -> mutex_ m = None ->
      step m (set_mutex (Some i) (goto i (Locked key) m))
  | recheck_hit i key :
      threads m i = Locked key -> allocated m key ->
      step m (set_mutex None (goto i (Returning key) m))
  | create i key tmp :
      threads m i = Locked key -> ~ allocated m key -> child_tables (tables m) !! tmp = None ->
      step m (set_tables (create_child tmp (tables m)) (goto i (Publishing key tmp) m))
  | publish i key tmp :
      threads m i = Publishing key tmp ->
      step m (set_mutex None (set_tables (set_main (key_high key) tmp (tables m)) (goto i (Returning key) m)))
  | return_pointer i key :
      threads m i = Returning key ->
      step m (hand_out key ((fun id => (id, key_low key)) <$> main_table_ (tables m) !! key_high key)
                (goto i Idle m))
  | write key p v :
      (key, Some p) ∈ returned m -> step m (set_tables (write_cell p v (tables m)) m).

Inductive reachable : Machine -> Prop :=
  | reach_initial default_value :
      reachable (mkMachine (new_TableOfTables default_value) None (fun _ => Idle) [])
  | reach_step m m' : reachable m -> step m m' -> reachable m'.

(** What holds of a thread at its position. *)
Definition thread_ok (m : Machine) (i : nat) : Prop :=
  match threads m i with
  | Locked _ => mutex_ m = Some i
  | Publishing key tmp =>
      mutex_ m = Some i /\ ~ allocated m key /\ is_Some (child_tables (tables m) !! tmp)
      /\ forall h, main_table_ (tables m) !! h <> Some tmp
  | Returning key => allocated m key
  | _ => True
  end.
Definition handed_ok (t : TableOfTables) (r : Z * option CellPtr) : Prop :=
  exists p, r.2 = Some p /\ points t p r.1.
Definition invariant (m : Machine) : Prop :=
  table_ok (tables m) /\ (forall i, thread_ok m i) /\ Forall (handed_ok (tables m)) (returned m).

(** Publishing keeps what is in the main table. *)
Lemma set_main_keeps t h id h' id' :
  main_table_ t !! h = None -> main_table_ t !! h' = Some id' ->
  main_table_ (set_main h id t) !! h' = Some id'.
Proof. intros; cbn; rewrite lookup_insert_ne; [done | congruence]. Qed.

Lemma create_child_ok t tmp : table_ok t -> table_ok (create_child tmp t).
Proof.
  intros [He Hi]; split; cbn; [| done].
  intros h id Hh; rewrite lookup_insert_is_Some; destruct (decide (tmp = id)); eauto.
Qed.

Lemma set_main_ok t h tmp :
  table_ok t -> is_Some (child_tables t !! tmp) -> (forall h, main_table_ t !! h <> Some tmp) ->
  table_ok (set_main h tmp t).
Proof.
  intros [He Hi] Htmp Hn; split; cbn.
  - intros h1 id; rewrite lookup_insert_Some; intros [[_ <-] | [_ H1]]; eauto.
  - intros h1 h2 id; rewrite !lookup_insert_Some; intros [[<- <-] | [? H1]] [[<- H2] | [? H2]];
      naive_solver.
Qed.

(** A step of thread [i] that leaves the tables as they are, or adds to them,
    keeps what holds of the other threads. *)
Lemma others_ok m m' i :
  (forall j, thread_ok m j) -> thread_ok m' i ->
  (forall j, j <> i -> threads m' j = threads m j) ->
  (forall j, j <> i -> mutex_ m = Some j -> mutex_ m' = Some j /\ tables m' = tables m) ->
  (forall key, allocated m key -> allocated m' key) ->
  forall j, thread_ok m' j.
Proof.
  intros Hp Hi Hsame Hlock Halloc j; destruct (decide (j = i)) as [-> | Hj]; [done |].
  specialize (Hp j); specialize (Hlock j Hj); unfold thread_ok in *; rewrite Hsame by done.
  destruct (threads m j); try done; [by apply Hlock | | auto].
  destruct Hp as (Hm & ? & ? & ?), (Hlock Hm) as [? Et]; unfold allocated in *; by rewrite Et.
Qed.

Lemma handed_keeps t t' r :
  (forall h id, main_table_ t !! h = Some id -> main_table_ t' !! h = Some id) ->
  Forall (handed_ok t) r -> Forall (handed_ok t') r.
Proof.
  intros Hk Hr; eapply Forall_impl; [exact Hr |]; intros [k o] (p & Ho & [Hm Hl]); exists p; split; [done |].
  split; [by apply Hk | done].
Qed.

Ltac other_thread i :=
  match goal with Hp : forall i, thread_ok ?m i |- _ => apply (others_ok m _ i Hp) end; cbn;
  [unfold thread_ok; cbn; rewrite decide_True by done; try done
  | intros; by rewrite decide_False | intros; try (split; congruence) | intros; try done].

Lemma table_step_invariant m m' : invariant m -> step m m' -> invariant m'.
Proof.
  intros (Ht & Hp & Hr) Hs; destruct Hs as
    [i key Hi | i key Hi Ha | i key Hi Ha | i key Hi Hm | i key Hi Ha | i key tmp Hi Ha Hf
    | i key tmp Hi | i key Hi | key p v Hin].
  all: try (pose proof (Hp i) as Hti; unfold thread_ok in Hti; rewrite Hi in Hti).
  - split_and!; [done | other_thread i | done].
  - split_and!; [done | other_thread i | done].
  - split_and!; [done | other_thread i | done].
  - split_and!; [done | other_thread i | done].
  - split_and!; [done | other_thread i | done].
  - split_and!; [by apply create_child_ok | other_thread i | done].
    repeat (split; [done || (cbn; rewrite lookup_insert_eq; eauto) |]); intros h Hh.
    destruct Ht as [He _]; apply He in Hh as [??]; congruence.
  - destruct Hti as (Hm & Ha & Htmp & Hn).
    assert (main_table_ (tables m) !! key_high key = None) as Hk
      by (apply eq_None_not_Some, Ha).
    split_and!; [by apply set_main_ok | other_thread i |].
    + unfold allocated; cbn; rewrite lookup_insert_eq; eauto.
    + unfold allocated in *; cbn; rewrite lookup_insert_is_Some.
      destruct (decide (key_high key = key_high key0)); eauto.
    + eapply handed_keeps; [| done]; intros; by apply set_main_keeps.
  - split_and!; [done | other_thread i |].
    constructor; [| done]; destruct Hti as [id E]; exists (id, key_low key); cbn; by rewrite E.
  - split_and!; [by apply write_ok | | done].
    intros j; specialize (Hp j); unfold thread_ok, allocated in *; cbn.
    destruct (threads m j); try done; by rewrite lookup_alter_is_Some.
Qed.

Lemma table_reachable_invariant m : reachable m -> invariant m.
Proof.
  induction 1 as [v | m m' _ IH Hs]; [| by eapply table_step_invariant].
  split_and!; [split; cbn; intros *; by rewrite lookup_empty | done | constructor].
Qed.
End TableMachine.

(** C31: the pointers the table hands out, for any number of threads that ask for
    them at once.  No thread is ever given a pointer into the read-only default
    table; two pointers are equal exactly when their keys agree in the low 48
    bits; a pointer stays the home of its key, so that a write through it is what
    any later look-up of the key reads and changes no key with other low bits. *)
Theorem table_pointers m k o :
  TableMachine.reachable m -> (k, o) ∈ TableMachine.returned m ->
  exists p, o = Some p
  /\ (forall k' p', (k', Some p') ∈ TableMachine.returned m -> p = p' <-> k mod 2 ^ 48 = k' mod 2 ^ 48)
  /\ Get k (TableMachine.tables m) = read_cell p (TableMachine.tables m)
  /\ forall v, Get k (write_cell p v (TableMachine.tables m)) = v
     /\ forall j, k mod 2 ^ 48 <> j mod 2 ^ 48 ->
        Get j (write_cell p v (TableMachine.tables m)) = Get j (TableMachine.tables m).
Proof.
  intros (Ht & _ & Hr)%TableMachine.table_reachable_invariant Hk; rewrite Forall_forall in Hr.
  destruct (Hr _ Hk) as (p & Ho & Hp); cbn in *; exists p; split_and!; [done | | |].
  - intros k' p' Hk'; destruct (Hr _ Hk') as (q & [= <-] & Hq); by apply points_agree with (t := TableMachine.tables m).
  - destruct Hp as [Hm Hl]; unfold Get; rewrite Hm, <- Hl; by destruct p.
  - intros v; split; [by apply Get_write_same | intros; by eapply Get_write_other].
Qed.

(** One thread asks for the pointer of key 5. *)
Definition example_tables : TableMachine.Machine :=
  let m0 := TableMachine.mkMachine (new_TableOfTables 1) None (fun _ => TableMachine.Idle) [] in
  let m1 := TableMachine.goto 0 (TableMachine.WaitingForLock 5) (TableMachine.goto 0 (TableMachine.Checking 5) m0) in
  let m2 := TableMachine.set_mutex (Some 0%nat) (TableMachine.goto 0 (TableMachine.Locked 5) m1) in
  let m3 := TableMachine.set_tables (create_child 0 (TableMachine.tables m2))
              (TableMachine.goto 0 (TableMachine.Publishing 5 0) m2) in
  let m4 := TableMachine.set_mutex None (TableMachine.set_tables (set_main 0 0 (TableMachine.tables m3))
              (TableMachine.goto 0 (TableMachine.Returning 5) m3)) in
  TableMachine.hand_out 5 (Some (0%nat, 5)) (TableMachine.goto 0 TableMachine.Idle m4).

Lemma example_tables_reachable : TableMachine.reachable example_tables.
Proof.
  pose proof (TableMachine.reach_initial 1) as R.
  eapply TableMachine.reach_step in R; [| apply (TableMachine.call _ 0 5); reflexivity].
  eapply TableMachine.reach_step in R; [| apply (TableMachine.check_miss _ 0 5); [reflexivity | by intros [? ?]]].
  eapply TableMachine.reach_step in R; [| apply (TableMachine.lock _ 0 5); reflexivity].
  eapply TableMachine.reach_step in R;
    [| apply (TableMachine.create _ 0 5 0); [reflexivity | by intros [? ?] | reflexivity]].
  eapply TableMachine.reach_step in R; [| apply (TableMachine.publish _ 0 5 0); reflexivity].
  eapply TableMachine.reach_step in R; [| apply (TableMachine.return_pointer _ 0 5); reflexivity].
  exact R.
Qed.

Lemma table_pointers_witness :
  Get 5 (write_cell (0%nat, 5) 7 (TableMachine.tables example_tables)) = 7.
Proof.
  destruct (table_pointers example_tables 5 (Some (0%nat, 5)) example_tables_reachable)
    as (p & [= <-] & _ & _ & Hw); [left | apply Hw].
Defined.
