(* ===== verification/TranslationCache.v ===== *)
(** * The translation cache

    runtime_primitives/translation_cache.h and .cc: which guest code has been
    translated, by whom it is being translated, and what is executed for it.
    The threads coordinate through a mutex that every operation takes, so an
    operation is one step; the cells of the address map are also read, and by
    [SetStop] written, without it.

    - [guest_entries_] is a [std::map]: its nodes have addresses, which the
      functions hand out, keep in [translating_] and use later.  The model keeps
      the nodes in a heap of their own, so that the use of a pointer to an entry
      that was erased is visible: it is stuck.
    - The address map is the interface [AddressMap].
    - The special entries ([kEntryStop], ...) are installed at run time: they are
      a parameter, the class [HostEntries]. *)
From stdpp Require Import gmap.
From S2P Require Import Prelude MachineInt Effects TableOfTables.
#[local] Open Scope Z_scope.

(** ** Data *)

Module Kind.
Inductive t :=
  | kInterpreted
  | kLiteTranslated
  | kHeavyOptimized
  | kGuestWrapped
  | kHostWrapped
  | kUnderProcessing
  | kSpecialHandler.
#[global] Instance eq_dec : EqDecision t.
Proof. solve_decision. Defined.
End Kind.

(** Host code addresses of the special entries. *)
Class HostEntries := {
  kEntryInterpret : Z;
  kEntryExitGeneratedCode : Z;
  kEntryStop : Z;
  kEntryNoExec : Z;
  kEntryNotTranslated : Z;
  kEntryTranslating : Z;
  kEntryInvalidating : Z;
  kEntryWrapping : Z
}.
(** They are trampolines of their own. *)
Class HostEntriesOk `{HostEntries} : Prop :=
  special_entries_NoDup :
    NoDup [kEntryInterpret; kEntryExitGeneratedCode; kEntryStop; kEntryNoExec; kEntryNotTranslated;
           kEntryTranslating; kEntryInvalidating; kEntryWrapping].

Record HostCodePiece := mkHostCodePiece { code : Z; size : Z }.

Definition kGearSwitchThreshold : Z := 1000.
Definition kNullGuestAddr : Z := 0.

Module TranslationCache.
(** The address of a node of [guest_entries_]. *)
Abbreviation EntryPtr := nat (only parsing).

Section Cache.
Context {A P : Type} `{AddressMap A P} `{HostEntries}.

Record GuestCodeEntry := mkGuestCodeEntry {
  host_code : P;
  host_size : Z;
  guest_size : Z;
  kind : Kind.t;
  invocation_counter : Z
}.


Record Cache := mkCache {
  translating_ : gset EntryPtr;
  guest_entries_ : gmap Z EntryPtr;
  nodes : gmap EntryPtr (Z * GuestCodeEntry);
  address_map_ : A;
  max_guest_size_ : Z
}.

Definition set_translating (s : gset EntryPtr) (c : Cache) : Cache :=
  mkCache s (guest_entries_ c) (nodes c) (address_map_ c) (max_guest_size_ c).
Definition set_entries (m : gmap Z EntryPtr) (n : gmap EntryPtr (Z * GuestCodeEntry)) (c : Cache) : Cache :=
  mkCache (translating_ c) m n (address_map_ c) (max_guest_size_ c).
Definition set_address_map (a : A) (c : Cache) : Cache :=
  mkCache (translating_ c) (guest_entries_ c) (nodes c) a (max_guest_size_ c).
Definition set_max_guest_size (n : Z) (c : Cache) : Cache :=
  mkCache (translating_ c) (guest_entries_ c) (nodes c) (address_map_ c) n.

Definition set_kind (k : Kind.t) (e : GuestCodeEntry) : GuestCodeEntry :=
  mkGuestCodeEntry (host_code e) (host_size e) (guest_size e) k (invocation_counter e).
Definition set_counter (n : Z) (e : GuestCodeEntry) : GuestCodeEntry :=
  mkGuestCodeEntry (host_code e) (host_size e) (guest_size e) (kind e) n.
Definition set_host_size (n : Z) (e : GuestCodeEntry) : GuestCodeEntry :=
  mkGuestCodeEntry (host_code e) n (guest_size e) (kind e) (invocation_counter e).
Definition set_guest_size (n : Z) (e : GuestCodeEntry) : GuestCodeEntry :=
  mkGuestCodeEntry (host_code e) (host_size e) n (kind e) (invocation_counter e).

(** An empty cache, with an address map whose cells hold [kEntryNotTranslated]. *)
Definition new_cache (a : A) : Cache := mkCache ∅ ∅ ∅ a 1.

(** ** Access to entries and cells *)
Definition CM : Type -> Type := SM Cache.

Definition deref (p : EntryPtr) : CM GuestCodeEntry := must (fun c => snd <$> nodes c !! p).
Definition write_entry (p : EntryPtr) (f : GuestCodeEntry -> GuestCodeEntry) : CM unit :=
  upd_st (fun c => set_entries (guest_entries_ c) (alter (prod_map id f) p (nodes c)) c).
Definition load_cell (q : P) : CM Z := get_st (fun c => am_load q (address_map_ c)).
Definition store_cell (q : P) (v : Z) : CM unit :=
  upd_st (fun c => set_address_map (am_store q v (address_map_ c)) c).
Definition GetHostCodePtrWritable (pc : Z) : CM P := fun c =>
  let '(q, a) := am_GetPointer pc (address_map_ c) in Some (q, set_address_map a c).
(** [guest_entries_.erase(pc)] *)
Definition erase (pc : Z) : CM unit :=
  upd_st (fun c =>
    match guest_entries_ c !! pc with
    | Some p => set_entries (delete pc (guest_entries_ c)) (delete p (nodes c)) c
    | None => c
    end).
Definition LookupGuestCodeEntryUnsafe (pc : Z) : CM (option EntryPtr) :=
  get_st (fun c => guest_entries_ c !! pc).

Definition AddUnsafe (pc : Z) (host_code_ptr : P) (piece : HostCodePiece) (gsize : Z) (k : Kind.t)
    : CM (EntryPtr * bool) :=
  found ← LookupGuestCodeEntryUnsafe pc;
  match found with
  | Some p => mret (p, false)
  | None =>
      p ← get_st (fun c => fresh (dom (nodes c)));
      _ ← upd_st (fun c =>
        set_entries (<[pc := p]> (guest_entries_ c))
          (<[p := (pc, mkGuestCodeEntry host_code_ptr (size piece) gsize k 0)]> (nodes c)) c);
      _ ← store_cell host_code_ptr (code piece);
      mret (p, true)
  end.

(** ** Translation *)
Definition LockForTranslationUnsafe (p : EntryPtr) : CM unit :=
  e ← deref p;
  _ ← store_cell (host_code e) kEntryTranslating;
  _ ← write_entry p (set_kind Kind.kUnderProcessing);
  inserted ← get_st (fun c => bool_decide (p ∉ translating_ c));
  _ ← upd_st (fun c => set_translating ({[p]} ∪ translating_ c) c);
  check inserted.

Definition AddAndLockForTranslation (pc counter_threshold : Z) : CM (option EntryPtr) :=
  host_code_ptr ← GetHostCodePtrWritable pc;
  '(p, _) ← AddUnsafe pc host_code_ptr (mkHostCodePiece kEntryNotTranslated 0) 1 Kind.kInterpreted;
  e ← deref p;
  current ← load_cell (host_code e);
  if negb (current =? kEntryNotTranslated) then mret None
  else if invocation_counter e <? counter_threshold then
    _ ← write_entry p (set_counter (cast u32 (invocation_counter e + 1)));
    mret None
  else
    _ ← LockForTranslationUnsafe p;
    mret (Some p).

Definition LockForGearUpTranslation (pc : Z) : CM (option EntryPtr) :=
  found ← LookupGuestCodeEntryUnsafe pc;
  match found with
  | None => mret None
  | Some p =>
      e ← deref p;
      if decide (kind e <> Kind.kLiteTranslated) then mret None
      else _ ← LockForTranslationUnsafe p; mret (Some p)
  end.

Definition SetTranslatedAndUnlock (pc : Z) (p : EntryPtr) (gsize : Z) (k : Kind.t)
    (piece : HostCodePiece) : CM unit :=
  _ ← check (bool_decide (k <> Kind.kUnderProcessing));
  _ ← check (bool_decide (k <> Kind.kGuestWrapped));
  _ ← check (bool_decide (k <> Kind.kHostWrapped));
  e ← deref p;
  current ← load_cell (host_code e);
  if current =? kEntryInvalidating then
    _ ← store_cell (host_code e) kEntryNotTranslated;
    erase pc
  else
    _ ← check (current =? kEntryTranslating);
    _ ← check (bool_decide (kind e = Kind.kUnderProcessing));
    _ ← store_cell (host_code e) (code piece);
    _ ← check (0 <? gsize);
    _ ← write_entry p (fun e => set_kind k (set_guest_size gsize (set_host_size (size piece) e)));
    erased ← get_st (fun c => bool_decide (p ∈ translating_ c));
    _ ← upd_st (fun c => set_translating (translating_ c ∖ {[p]}) c);
    _ ← check erased;
    upd_st (fun c => if max_guest_size_ c <? gsize then set_max_guest_size gsize c else c).

(** ** Wrapping *)
Definition AddAndLockForWrapping (pc : Z) : CM (option EntryPtr) :=
  host_code_ptr ← GetHostCodePtrWritable pc;
  '(p, locked) ← AddUnsafe pc host_code_ptr (mkHostCodePiece kEntryWrapping 0) 1 Kind.kUnderProcessing;
  mret (if locked : bool then Some p else None).

Definition SetWrappedAndUnlock (pc : Z) (p : EntryPtr) (is_host_func : bool) (piece : HostCodePiece)
    : CM unit :=
  e ← deref p;
  current ← load_cell (host_code e);
  if current =? kEntryInvalidating then
    _ ← store_cell (host_code e) kEntryNotTranslated;
    erase pc
  else
    _ ← check (current =? kEntryWrapping);
    _ ← check (bool_decide (kind e = Kind.kUnderProcessing));
    _ ← store_cell (host_code e) (code piece);
    _ ← write_entry p (fun e =>
          set_kind (if is_host_func then Kind.kHostWrapped else Kind.kGuestWrapped)
            (set_host_size (size piece) e));
    check (guest_size e =? 1).

(** ** Queries *)
Definition IsHostFunctionWrapped (pc : Z) : CM bool :=
  found ← LookupGuestCodeEntryUnsafe pc;
  match found with
  | Some p => e ← deref p; mret (bool_decide (kind e = Kind.kHostWrapped))
  | None => mret false
  end.
Definition GetInvocationCounter (pc : Z) : CM Z :=
  found ← LookupGuestCodeEntryUnsafe pc;
  match found with
  | Some p => e ← deref p; mret (invocation_counter e)
  | None => mret 0
  end.

(** The loop of [SlowLookupGuestCodeEntryPCByHostPC] over the entries in the
    order of their keys. *)
Fixpoint slow_lookup (pc_addr : Z) (pcs : list Z) : CM Z :=
  match pcs with
  | [] => mret 0
  | pc :: pcs =>
      p ← must (fun c => guest_entries_ c !! pc);
      e ← deref p;
      host ← load_cell (host_code e);
      if (host <=? pc_addr) && (pc_addr <? cast u32 (host + host_size e)) then mret pc
      else slow_lookup pc_addr pcs
  end.
Definition SlowLookupGuestCodeEntryPCByHostPC (pc_addr : Z) : CM Z :=
  pcs ← get_st (fun c => keys (guest_entries_ c)); slow_lookup pc_addr pcs.

(** ** Invalidation *)
Fixpoint invalidate_translating (ps : list EntryPtr) : CM unit :=
  match ps with
  | [] => mret tt
  | p :: ps =>
      e ← deref p;
      _ ← check (bool_decide (kind e = Kind.kUnderProcessing));
      current ← load_cell (host_code e);
      _ ← check (current =? kEntryTranslating);
      _ ← store_cell (host_code e) kEntryInvalidating;
      _ ← write_entry p (set_host_size 0);
      invalidate_translating ps
  end.
Definition InvalidateEntriesBeingTranslatedUnsafe : CM unit :=
  ps ← get_st (fun c => elements (translating_ c));
  _ ← invalidate_translating ps;
  upd_st (set_translating ∅).

(** The loop over the entries from [first] on. *)
Fixpoint invalidate_loop (start end_ : Z) (pcs : list Z) (invalidated_executable : bool) : CM bool :=
  match pcs with
  | [] => mret invalidated_executable
  | pc :: pcs =>
      p ← must (fun c => guest_entries_ c !! pc);
      e ← deref p;
      _ ← check (0 <? guest_size e);
      if cast u64 (pc + guest_size e) <=? start then invalidate_loop start end_ pcs invalidated_executable
      else if end_ <=? pc then mret invalidated_executable
      else
        current ← load_cell (host_code e);
        if current =? kEntryInvalidating then invalidate_loop start end_ pcs invalidated_executable
        else if current =? kEntryWrapping then
          _ ← store_cell (host_code e) kEntryInvalidating;
          invalidate_loop start end_ pcs true
        else
          _ ← store_cell (host_code e) kEntryNotTranslated;
          _ ← erase pc;
          invalidate_loop start end_ pcs true
  end.
Definition InvalidateGuestRange (start end_ : Z) : CM bool :=
  _ ← InvalidateEntriesBeingTranslatedUnsafe;
  pcs ← get_st (fun c =>
    let all := keys (guest_entries_ c) in
    if start <=? max_guest_size_ c then all
    else filter (fun pc => start - max_guest_size_ c < pc) all);
  invalidate_loop start end_ pcs false.

(** ** Gear shift *)
Fixpoint gear_shift_loop (target range : Z) (pcs : list Z) : CM unit :=
  match pcs with
  | [] => mret tt
  | pc :: pcs =>
      p ← must (fun c => guest_entries_ c !! pc);
      e ← deref p;
      _ ← check (0 <? guest_size e);
      if (target <? pc) && (range <? pc - target) then mret tt
      else
        _ ← (if decide (kind e = Kind.kLiteTranslated)
             then write_entry p (set_counter kGearSwitchThreshold) else mret tt);
        gear_shift_loop target range pcs
  end.
Definition TriggerGearShift (target range : Z) : CM unit :=
  let start := if range <? target then target - range else kNullGuestAddr in
  pcs ← get_st (fun c => filter (fun pc => start <= pc) (keys (guest_entries_ c)));
  gear_shift_loop target range pcs.

(** ** Outside the mutex *)

(** [*params.counter_location = 0]: the lite translator resets the counter of the
    entry it was given, through a pointer into the entry. *)
Definition reset_counter (p : EntryPtr) : CM unit :=
  _ ← deref p; write_entry p (set_counter 0).

Definition SetStop (pc : Z) : CM bool :=
  q ← GetHostCodePtrWritable pc;
  current ← load_cell q;
  if current =? kEntryNotTranslated then _ ← store_cell q kEntryStop; mret true
  else mret (current =? kEntryStop).

(** ** Fork *)
Fixpoint drop_unfinished (pcs : list Z) : CM unit :=
  match pcs with
  | [] => mret tt
  | pc :: pcs =>
      p ← must (fun c => guest_entries_ c !! pc);
      e ← deref p;
      _ ← (if decide (kind e = Kind.kUnderProcessing) then
             _ ← store_cell (host_code e) kEntryNotTranslated; erase pc
           else mret tt);
      drop_unfinished pcs
  end.
Definition FinishFork (is_child : bool) : CM unit :=
  if is_child then
    _ ← upd_st (set_translating ∅);
    pcs ← get_st (fun c => keys (guest_entries_ c));
    drop_unfinished pcs
  else mret tt.
End Cache.

Arguments GuestCodeEntry P : clear implicits.
Arguments Cache A P : clear implicits.
End TranslationCache.
