(* ===== verification/TranslationCacheProps.v ===== *)
(** * Correctness of the translation cache

    Any number of threads use the cache at once: they lock guest code for
    translation or wrapping, publish what they made, invalidate ranges and fork.
    Here is the invariant that ties the entries, their cells, the set of entries
    being translated and the holders of entries to the events that led there; that
    every operation ends without a failed check and keeps it; and what invalidation
    and gear shift do to every entry.  The file CacheProtocol puts the operations
    of the threads together. *)
From stdpp Require Import gmap sorting.
From S2P Require Import Prelude MachineInt Effects TableOfTables TranslationCache.
Import TranslationCache.
#[local] Open Scope Z_scope.

Inductive Task := Translate | Wrap.

(** What happened, in the order it did. *)
Inductive Event :=
  | Locked (i : nat) (pc : Z)
  | Published (i : nat) (pc gsize code : Z)
  | Invalidated (start end_ : Z)
  | Other.

Definition valid_pc (pc : Z) : Prop := 0 <= pc < 2 ^ 48.

(** The event is not an invalidation. *)
Definition no_invalidation (ev : Event) : Prop :=
  match ev with Invalidated _ _ => False | _ => True end.
(** The event does not invalidate any byte of the range. *)
Definition spares (pc n : Z) (ev : Event) : Prop :=
  match ev with Invalidated start end_ => pc + n <= start \/ end_ <= pc | _ => True end.

(** Thread [i] has locked [pc], and nothing was invalidated since. *)
Definition lock_open (tr : list Event) (i : nat) (pc : Z) : Prop :=
  exists tr1 tr2, tr = tr1 ++ Locked i pc :: tr2 /\ Forall no_invalidation tr2.
(** A thread has published [v] as the code of the [n] bytes at [pc]; nothing was
    invalidated while it was made, and none of these bytes since. *)
Definition fresh_code (tr : list Event) (pc n v : Z) : Prop :=
  exists tr1 i tr2 tr3,
    tr = tr1 ++ Locked i pc :: tr2 ++ Published i pc n v :: tr3
    /\ Forall no_invalidation tr2 /\ Forall (spares pc n) tr3.

Lemma lock_open_snoc tr i pc ev :
  lock_open tr i pc -> no_invalidation ev -> lock_open (tr ++ [ev]) i pc.
Proof.
  intros (tr1 & tr2 & -> & Hq) Hev; exists tr1, (tr2 ++ [ev]); split; [by rewrite <- app_assoc |].
  by apply Forall_app; split; [| constructor].
Qed.

Lemma fresh_code_snoc tr pc n v ev :
  fresh_code tr pc n v -> spares pc n ev -> fresh_code (tr ++ [ev]) pc n v.
Proof.
  intros (tr1 & i & tr2 & tr3 & -> & Hq & Hs) Hev; exists tr1, i, tr2, (tr3 ++ [ev]); split_and!; [| done |].
  - rewrite <- !app_assoc; cbn; by rewrite <- app_assoc.
  - by apply Forall_app; split; [| constructor].
Qed.

Lemma lock_open_publish tr i pc n v :
  lock_open tr i pc -> fresh_code (tr ++ [Published i pc n v]) pc n v.
Proof.
  intros (tr1 & tr2 & -> & Hq); exists tr1, i, tr2, []; split_and!; [| done | constructor].
  by rewrite <- app_assoc.
Qed.

(** Who holds which entry, and what for. *)
Abbreviation Held := (gmap EntryPtr (nat * Z * Task)) (only parsing).

Section Correctness.
Context {A P : Type} `{AddressMapOk A P} `{HostEntriesOk}.
Implicit Types (c : Cache A P) (e : GuestCodeEntry P) (tr : list Event) (p q : EntryPtr).

(** ** Invariant *)

(** Host code that may be published: not one of the entries that stand for a
    state of the cache. *)
Definition publishable (v : Z) : Prop :=
  v ∉ [kEntryNotTranslated; kEntryTranslating; kEntryInvalidating; kEntryWrapping; kEntryStop].
Definition wrapped (k : Kind.t) : Prop := k = Kind.kGuestWrapped \/ k = Kind.kHostWrapped.

Implicit Types (held : Held) (T : gset EntryPtr).

(** The states of an entry: [o] is its holder, [t] says that it is being
    translated and [v] is the value of its cell. *)
Definition status tr (o : option (nat * Z * Task)) (t : Prop) (v pc : Z) e : Prop :=
  match o with
  | Some (i, pc', Translate) =>
      pc' = pc /\ kind e = Kind.kUnderProcessing
      /\ (v = kEntryTranslating /\ t /\ lock_open tr i pc \/ v = kEntryInvalidating /\ ~ t)
  | Some (i, pc', Wrap) =>
      pc' = pc /\ kind e = Kind.kUnderProcessing
      /\ (v = kEntryWrapping \/ v = kEntryInvalidating) /\ ~ t /\ guest_size e = 1
  | None =>
      kind e <> Kind.kUnderProcessing /\ ~ t
      /\ (v = kEntryNotTranslated \/ v = kEntryStop \/ publishable v /\ wrapped (kind e)
          \/ publishable v /\ fresh_code tr pc (guest_size e) v)
  end.

Record node_ok (a : A) tr (o : option (nat * Z * Task)) (t : Prop) (m pc : Z) e : Prop := {
  node_pc : valid_pc pc;
  node_points : am_points a (host_code e) pc;
  node_size : 0 < guest_size e <= m;
  node_status : status tr o t (am_cell a pc) pc e
}.

(** [T] is the set of entries being translated. *)
Record inv T c held tr : Prop := {
  inv_map : am_ok (address_map_ c);
  inv_index pc p : guest_entries_ c !! pc = Some p <-> exists e, nodes c !! p = Some (pc, e);
  inv_node p pc e :
    nodes c !! p = Some (pc, e) ->
    node_ok (address_map_ c) tr (held !! p) (p ∈ T) (max_guest_size_ c) pc e;
  inv_held p : is_Some (held !! p) -> is_Some (nodes c !! p);
  inv_translating p : p ∈ T -> is_Some (nodes c !! p);
  inv_absent pc :
    valid_pc pc -> guest_entries_ c !! pc = None ->
    am_cell (address_map_ c) pc = kEntryNotTranslated \/ am_cell (address_map_ c) pc = kEntryStop;
  inv_max : 1 <= max_guest_size_ c < 2 ^ 32
}.

(** ** The special entries *)
Lemma special_distinct :
  kEntryTranslating <> kEntryInvalidating /\ kEntryTranslating <> kEntryWrapping
  /\ kEntryTranslating <> kEntryNotTranslated /\ kEntryTranslating <> kEntryStop
  /\ kEntryInvalidating <> kEntryWrapping /\ kEntryInvalidating <> kEntryNotTranslated
  /\ kEntryInvalidating <> kEntryStop /\ kEntryWrapping <> kEntryNotTranslated
  /\ kEntryWrapping <> kEntryStop /\ kEntryNotTranslated <> kEntryStop.
Proof.
  pose proof special_entries_NoDup as Hn.
  repeat (apply NoDup_cons in Hn as [? Hn]); set_unfold; split_and!; intros E; tauto || (symmetry in E; tauto).
Qed.

Lemma publishable_spec v :
  publishable v <-> v <> kEntryNotTranslated /\ v <> kEntryTranslating /\ v <> kEntryInvalidating
                    /\ v <> kEntryWrapping /\ v <> kEntryStop.
Proof. unfold publishable; set_unfold; tauto. Qed.

Lemma publishable_special : publishable kEntryInterpret /\ publishable kEntryNoExec.
Proof.
  pose proof special_entries_NoDup as Hn; rewrite !publishable_spec.
  repeat (apply NoDup_cons in Hn as [? Hn]); set_unfold; split_and!; intros E; tauto || (symmetry in E; tauto).
Qed.

(** ** Updates that keep the invariant *)

(** A write to the cell of another address does not matter to an entry. *)
Lemma node_ok_store a tr o t m pc e k (x : P) v :
  am_ok a -> am_points a x k -> valid_pc k -> pc <> k ->
  node_ok a tr o t m pc e -> node_ok (am_store x v a) tr o t m pc e.
Proof.
  intros Ha Hq Hk Hne [Hpc Hp Hs Hst]; split; [done | by eapply am_store_keeps | done |].
  by rewrite (am_store_other a x k pc v).
Qed.

Lemma node_ok_change a tr (o o' : option (nat * Z * Task)) (t t' : Prop) m m' pc e :
  node_ok a tr o t m pc e -> o' = o -> (t' <-> t) -> m <= m' -> node_ok a tr o' t' m' pc e.
Proof.
  intros [Hpc Hp Hs Hst] -> Ht Hm; split; [done | done | lia |].
  destruct o as [[[i pc'] []] |]; cbn in *; rewrite Ht; done.
Qed.

Lemma index_inj T c held tr p pc e pc' e' q :
  inv T c held tr -> nodes c !! p = Some (pc, e) -> nodes c !! q = Some (pc', e') -> q <> p -> pc' <> pc.
Proof.
  intros Hi Hp Hq Hne ->; apply Hne.
  assert (guest_entries_ c !! pc = Some p) as E1 by (apply (inv_index _ _ _ _ Hi); eauto).
  assert (guest_entries_ c !! pc = Some q) as E2 by (apply (inv_index _ _ _ _ Hi); eauto).
  congruence.
Qed.

(** Entry [p] changes, and its cell gets the value [v]. *)
Lemma inv_update T c held tr p pc e f v T' held' t' m' :
  inv T c held tr -> nodes c !! p = Some (pc, e) -> host_code (f e) = host_code e ->
  max_guest_size_ c <= m' < 2 ^ 32 ->
  (forall q, q <> p -> held' !! q = held !! q) -> (forall q, q <> p -> q ∈ T' <-> q ∈ T) ->
  0 < guest_size (f e) <= m' -> status tr (held' !! p) (p ∈ T') v pc (f e) ->
  inv T' (mkCache t' (guest_entries_ c) (alter (prod_map id f) p (nodes c))
            (am_store (host_code e) v (address_map_ c)) m') held' tr.
Proof.
  intros Hi Hp Hf Hm Hh HT Hs Hst; pose proof (inv_node _ _ _ _ Hi _ _ _ Hp) as [Hpc Hpt _ _].
  pose proof (inv_map _ _ _ _ Hi) as Ha.
  assert (forall q, is_Some (alter (prod_map id f) p (nodes c) !! q) <-> is_Some (nodes c !! q)) as Hdom
    by (intros q; apply lookup_alter_is_Some).
  split; cbn.
  - by eapply am_store_ok.
  - intros pc' q; rewrite (inv_index _ _ _ _ Hi); destruct (decide (p = q)) as [<- | Hq].
    + rewrite lookup_alter_eq, Hp; cbn; split; intros [e' [= <- <-]]; eauto.
    + by rewrite lookup_alter_ne.
  - intros q pc' e'; destruct (decide (p = q)) as [<- | Hq].
    + rewrite lookup_alter_eq, Hp; cbn; intros [= <- <-]; split; [done | rewrite Hf; by eapply am_store_keeps | done |].
      by rewrite (am_store_same _ _ _ _ Ha Hpt).
    + rewrite lookup_alter_ne by done; intros Hq'.
      apply (node_ok_store _ _ _ _ _ _ _ pc); [done.. | by eapply (index_inj _ _ _ _ p) |].
      eapply node_ok_change; [by apply (inv_node _ _ _ _ Hi) | by apply Hh | by apply HT | lia].
  - intros q Hq; apply Hdom; destruct (decide (q = p)) as [-> | Hne]; [eauto |].
    apply (inv_held _ _ _ _ Hi); by rewrite <- Hh.
  - intros q Hq; apply Hdom; destruct (decide (q = p)) as [-> | Hne]; [eauto |].
    by apply (inv_translating _ _ _ _ Hi), HT.
  - intros pc' Hv Hn; rewrite (am_store_other _ _ pc) by (done || (intros ->;
      assert (guest_entries_ c !! pc = Some p) by (apply (inv_index _ _ _ _ Hi); eauto); congruence)).
    by apply (inv_absent _ _ _ _ Hi).
  - pose proof (inv_max _ _ _ _ Hi); lia.
Qed.

(** Entry [p] is erased, and its cell gets the default value. *)
Lemma inv_erase T c held tr p pc e T' held' t' :
  inv T c held tr -> nodes c !! p = Some (pc, e) ->
  (forall q, q <> p -> held' !! q = held !! q) -> (forall q, q <> p -> q ∈ T' <-> q ∈ T) ->
  held' !! p = None -> p ∉ T' ->
  inv T' (mkCache t' (delete pc (guest_entries_ c)) (delete p (nodes c))
            (am_store (host_code e) kEntryNotTranslated (address_map_ c)) (max_guest_size_ c)) held' tr.
Proof.
  intros Hi Hp Hh HT Hhp HTp; pose proof (inv_node _ _ _ _ Hi _ _ _ Hp) as [Hpc Hpt _ _].
  pose proof (inv_map _ _ _ _ Hi) as Ha.
  assert (guest_entries_ c !! pc = Some p) as Hpc' by (apply (inv_index _ _ _ _ Hi); eauto).
  split; cbn.
  - by eapply am_store_ok.
  - intros pc' q; rewrite lookup_delete_Some, (inv_index _ _ _ _ Hi); split.
    + intros [Hne [e' He]]; exists e'; rewrite lookup_delete_ne; [done |]; intros <-; congruence.
    + intros [e' [Hne He]%lookup_delete_Some]; split; [| eauto].
      intros ->; by eapply (index_inj _ _ _ _ p _ _ _ _ q) in Hp.
  - intros q pc' e' [Hne Hq']%lookup_delete_Some.
    apply (node_ok_store _ _ _ _ _ _ _ pc); [done.. | by eapply (index_inj _ _ _ _ p) |].
    eapply node_ok_change; [by apply (inv_node _ _ _ _ Hi) | by apply Hh | by apply HT | lia].
  - intros q Hq; assert (q <> p) by (intros ->; rewrite Hhp in Hq; by destruct Hq).
    rewrite lookup_delete_ne by done; apply (inv_held _ _ _ _ Hi); by rewrite <- Hh.
  - intros q Hq; assert (q <> p) by (by intros ->).
    rewrite lookup_delete_ne by done; by apply (inv_translating _ _ _ _ Hi), HT.
  - intros pc' Hv; destruct (decide (pc' = pc)) as [-> | Hne].
    + intros _; left; by rewrite (am_store_same _ _ _ _ Ha Hpt).
    + rewrite lookup_delete_ne, (am_store_other _ _ pc) by done; by apply (inv_absent _ _ _ _ Hi).
  - apply (inv_max _ _ _ _ Hi).
Qed.

(** A new entry is added, with the value [v] in its cell. *)
Lemma inv_insert T c held tr p pc e v T' held' t' :
  inv T c held tr -> guest_entries_ c !! pc = None -> nodes c !! p = None ->
  valid_pc pc -> am_points (address_map_ c) (host_code e) pc -> 0 < guest_size e <= max_guest_size_ c ->
  (forall q, q <> p -> held' !! q = held !! q) -> (forall q, q <> p -> q ∈ T' <-> q ∈ T) ->
  status tr (held' !! p) (p ∈ T') v pc e ->
  inv T' (mkCache t' (<[pc := p]> (guest_entries_ c)) (<[p := (pc, e)]> (nodes c))
            (am_store (host_code e) v (address_map_ c)) (max_guest_size_ c)) held' tr.
Proof.
  intros Hi Hn Hp Hpc Hpt Hs Hh HT Hst; pose proof (inv_map _ _ _ _ Hi) as Ha.
  assert (forall q, is_Some (<[p := (pc, e)]> (nodes c) !! q) <-> q = p \/ is_Some (nodes c !! q)) as Hdom
    by (intros q; rewrite lookup_insert_is_Some; destruct (decide (p = q)) as [-> |]; intuition congruence).
  assert (forall q pc' e', nodes c !! q = Some (pc', e') -> q <> p /\ pc' <> pc) as Hother.
  { intros q pc' e' Hq; split; [congruence |]; intros ->.
    assert (guest_entries_ c !! pc = Some q) by (apply (inv_index _ _ _ _ Hi); eauto); congruence. }
  split; cbn.
  - by eapply am_store_ok.
  - intros pc' q; rewrite lookup_insert_Some, (inv_index _ _ _ _ Hi); split.
    + intros [[<- <-] | [Hne [e' He]]]; [rewrite lookup_insert_eq; eauto |].
      exists e'; rewrite lookup_insert_ne; [done |]; intros <-; by apply Hother in He as [? _].
    + intros [e' [[<- [= <- <-]] | [Hne He]]%lookup_insert_Some]; [by left | right].
      split; [by apply Hother in He as [_ ?] | eauto].
  - intros q pc' e' [[<- [= <- <-]] | [Hne He]]%lookup_insert_Some.
    + split; [done | by eapply am_store_keeps | done | by rewrite (am_store_same _ _ _ _ Ha Hpt)].
    + apply (node_ok_store _ _ _ _ _ _ _ pc); [done.. | by apply Hother in He as [_ ?] |].
      eapply node_ok_change; [by apply (inv_node _ _ _ _ Hi) | by apply Hh | by apply HT | lia].
  - intros q Hq; apply Hdom; destruct (decide (q = p)) as [-> | Hne]; [by left | right].
    apply (inv_held _ _ _ _ Hi); by rewrite <- Hh.
  - intros q Hq; apply Hdom; destruct (decide (q = p)) as [-> | Hne]; [by left | right].
    by apply (inv_translating _ _ _ _ Hi), HT.
  - intros pc' Hv Hnone%lookup_insert_None; destruct Hnone as [Hnone Hne].
    rewrite (am_store_other _ _ pc) by (done || congruence); by apply (inv_absent _ _ _ _ Hi).
  - apply (inv_max _ _ _ _ Hi).
Qed.

(** An event that invalidates nothing. *)
Lemma inv_event T c held tr ev : inv T c held tr -> no_invalidation ev -> inv T c held (tr ++ [ev]).
Proof.
  intros [Ha Hx Hn Hh Ht Hab Hm] Hev; split; try done.
  intros p pc e Hp; destruct (Hn p pc e Hp) as [? ? ? Hst]; split; [done.. |].
  destruct (held !! p) as [[[i pc'] []] |]; cbn in *; [| done |].
  - destruct Hst as (? & ? & [(? & ? & Ho) | ?]); split_and!; try done; [| by right].
    left; split_and!; [done | done | by apply lock_open_snoc].
  - destruct Hst as (? & ? & [? | [? | [? | [? Hf]]]]); split_and!; try done; [by left | by right; left | by do 2 right; left |].
    do 3 right; split; [done |]; apply fresh_code_snoc; [done | by destruct ev].
Qed.

(** A new pointer into the address map. *)
Lemma inv_pointer T c held tr pc :
  inv T c held tr -> inv T (set_address_map (am_GetPointer pc (address_map_ c)).2 c) held tr.
Proof.
  intros [Ha Hx Hn Hh Ht Hab Hm]; split; cbn; try done.
  - by apply am_GetPointer_ok.
  - intros p pc' e Hp; destruct (Hn p pc' e Hp) as [? ? ? Hst]; split; [done | by apply am_GetPointer_keeps | done |].
    by rewrite am_GetPointer_cell.
  - intros pc' ? ?; rewrite am_GetPointer_cell by done; auto.
Qed.

(** Fields the invariant does not speak of are written. *)
Lemma inv_write T c held tr p f :
  inv T c held tr ->
  (forall e, host_code (f e) = host_code e /\ guest_size (f e) = guest_size e /\ kind (f e) = kind e) ->
  inv T (set_entries (guest_entries_ c) (alter (prod_map id f) p (nodes c)) c) held tr.
Proof.
  intros [Ha Hx Hn Hh Ht Hab Hm] Hf; split; cbn; try done.
  - intros pc q; rewrite Hx; destruct (decide (p = q)) as [<- | Hq]; [| by rewrite lookup_alter_ne].
    rewrite lookup_alter_eq; split.
    + intros [e ->]; by exists (f e).
    + destruct (nodes c !! p) as [[pc' e] |]; cbn; [| by intros [? ?]]; intros [e' [= -> <-]]; eauto.
  - intros q pc e; destruct (decide (p = q)) as [<- | Hq]; [| rewrite lookup_alter_ne by done; apply Hn].
    rewrite lookup_alter_eq; destruct (nodes c !! p) as [[pc' e'] |] eqn:E; cbn; [| done].
    intros [= -> <-]; destruct (Hn _ _ _ E) as [? ? ? Hst], (Hf e') as (E1 & E2 & E3).
    split; rewrite ?E1, ?E2; [done.. |].
    destruct (held !! p) as [[[j pc'] []] |]; cbn in *; by rewrite ?E2, E3.
  - intros q Hq; rewrite lookup_alter_is_Some; auto.
  - intros q Hq; rewrite lookup_alter_is_Some; auto.
Qed.

(** ** Operations *)

Definition good c held tr : Prop := inv (translating_ c) c held tr.

(** The invariant when only [translating_] differs. *)
Lemma inv_set_translating T c held tr t : inv T c held tr -> inv T (set_translating t c) held tr.
Proof. intros [? ? ? ? ? ? ?]; by split. Qed.

Lemma lookup_entry T c held tr pc p :
  inv T c held tr -> guest_entries_ c !! pc = Some p -> exists e, nodes c !! p = Some (pc, e).
Proof. intros Hi Hp; by apply (inv_index _ _ _ _ Hi). Qed.

Lemma cell_loaded T c held tr p pc e :
  inv T c held tr -> nodes c !! p = Some (pc, e) ->
  am_load (host_code e) (address_map_ c) = am_cell (address_map_ c) pc.
Proof.
  intros Hi Hp; destruct (inv_node _ _ _ _ Hi _ _ _ Hp); apply am_load_cell; [apply (inv_map _ _ _ _ Hi) | done].
Qed.

Lemma ends_deref c p pc e Q : nodes c !! p = Some (pc, e) -> Q e c -> ends (deref p) c Q.
Proof. intros Hp ?; eapply ends_must; [by rewrite Hp | done]. Qed.

Lemma ends_Lock c held tr i p pc e :
  good c held tr -> nodes c !! p = Some (pc, e) -> held !! p = None ->
  ends (LockForTranslationUnsafe p) c (fun _ c' =>
    good c' (<[p := (i, pc, Translate)]> held) (tr ++ [Locked i pc])).
Proof.
  intros Hg Hp Hh; destruct (inv_node _ _ _ _ Hg _ _ _ Hp) as [_ _ Hs Hst].
  rewrite Hh in Hst; destruct Hst as (_ & Ht & _).
  unfold LockForTranslationUnsafe; apply ends_bind; eapply ends_deref; [done |].
  apply ends_bind, ends_upd, ends_bind, ends_upd, ends_bind, ends_get, ends_bind, ends_upd, ends_check;
    [by rewrite bool_decide_true |].
  apply (inv_update (translating_ c) c held _ p pc e (set_kind Kind.kUnderProcessing) kEntryTranslating);
    try done.
  - by apply inv_event.
  - pose proof (inv_max _ _ _ _ Hg); cbn; lia.
  - intros q Hq; by rewrite lookup_insert_ne.
  - intros q Hq; clear -Hq; set_solver.
  - rewrite lookup_insert_eq; cbn; split_and!; [done | done |]; left; split_and!; [done | clear; set_solver |].
    by exists tr, [].
Qed.

(** [AddUnsafe] finds the entry of [pc] or adds one.  [o] is the holder a new
    entry gets. *)
Lemma ends_AddUnsafe c held tr pc x v n k (o : option (nat * Z * Task)) :
  good c held tr -> valid_pc pc -> am_points (address_map_ c) x pc ->
  0 < n <= max_guest_size_ c ->
  (forall t : Prop, ~ t -> status tr o t v pc (mkGuestCodeEntry x 0 n k 0)) ->
  ends (AddUnsafe pc x (mkHostCodePiece v 0) n k) c (fun r c' =>
    exists p e, r.1 = p /\ nodes c' !! p = Some (pc, e) /\ guest_entries_ c' !! pc = Some p
    /\ if r.2 : bool then held !! p = None /\ good c' (partial_alter (fun _ => o) p held) tr else c' = c).
Proof.
  intros Hg Hpc Hx Hn Hst; unfold AddUnsafe; apply ends_bind, ends_get.
  destruct (guest_entries_ c !! pc) as [p |] eqn:Ep.
  { destruct (lookup_entry _ _ _ _ _ _ Hg Ep) as [e He]; apply ends_ret; by exists p, e. }
  apply ends_bind, ends_get; set (p := fresh (dom (nodes c))).
  assert (nodes c !! p = None) as Hp by (apply not_elem_of_dom; exact (is_fresh (dom (nodes c)))).
  assert (p ∉ translating_ c) as Ht
    by (intros Hin; destruct (inv_translating _ _ _ _ Hg _ Hin); congruence).
  assert (held !! p = None) as Hh
    by (apply eq_None_not_Some; intros Hin; destruct (inv_held _ _ _ _ Hg _ Hin); congruence).
  apply ends_bind, ends_upd, ends_bind, ends_upd, ends_ret.
  exists p, (mkGuestCodeEntry x 0 n k 0); cbn; split_and!; [done | by rewrite lookup_insert_eq.. | done |].
  apply (inv_insert (translating_ c) c held tr p pc (mkGuestCodeEntry x 0 n k 0) v); try done.
  - intros q Hq; by rewrite lookup_partial_alter_ne.
  - rewrite lookup_partial_alter_eq; by apply Hst.
Qed.

Lemma partial_alter_None (m : Held) p : m !! p = None -> partial_alter (fun _ => None) p m = m.
Proof.
  intros Hp; apply map_eq; intros q; destruct (decide (p = q)) as [<- | Hq].
  - by rewrite lookup_partial_alter_eq.
  - by rewrite lookup_partial_alter_ne.
Qed.

Lemma ends_pointer c held tr pc (Q : P -> Cache A P -> Prop) :
  good c held tr ->
  (forall x a, good (set_address_map a c) held tr -> am_points a x pc ->
     (forall j, am_cell a j = am_cell (address_map_ c) j) -> Q x (set_address_map a c)) ->
  ends (GetHostCodePtrWritable pc) c Q.
Proof.
  intros Hg HQ; unfold GetHostCodePtrWritable, ends.
  pose proof (inv_pointer _ _ _ _ pc Hg) as Hg'.
  pose proof (am_GetPointer_points _ pc (inv_map _ _ _ _ Hg)) as Hp.
  pose proof (fun j => am_GetPointer_cell _ pc j (inv_map _ _ _ _ Hg)) as Hc.
  destruct (am_GetPointer pc (address_map_ c)) as [x a]; eexists _, _; split; [done |]; by apply HQ.
Qed.

(** The first time a thread asks, and every time until the threshold is
    reached, it gets nothing; when it gets the entry, nobody else holds it. *)
Lemma ends_AddAndLock c held tr i pc threshold :
  good c held tr -> valid_pc pc -> 0 <= threshold < 2 ^ 32 ->
  ends (AddAndLockForTranslation pc threshold) c (fun r c' =>
    match r with
    | Some p => held !! p = None /\ good c' (<[p := (i, pc, Translate)]> held) (tr ++ [Locked i pc])
    | None => good c' held tr
    end).
Proof.
  intros Hg Hpc Hth; unfold AddAndLockForTranslation; apply ends_bind, (ends_pointer _ _ _ _ _ Hg).
  intros x a Hg' Hx _; apply ends_bind.
  assert (1 <= max_guest_size_ c) by apply (inv_max _ _ _ _ Hg).
  eapply ends_mono; [apply (ends_AddUnsafe _ _ _ _ _ _ _ _ None Hg'); [done | done | cbn; lia |] |].
  { intros t Ht; cbn; split_and!; [done | done | by left]. }
  intros [q added] c1 (p & e & E & Hp & _ & Hcase); cbn in E, Hcase; subst q.
  assert (good c1 held tr) as Hg1.
  { destruct added; [destruct Hcase as [Hn Hgc]; by rewrite partial_alter_None in Hgc | by subst c1]. }
  clear Hcase; apply ends_bind; eapply ends_deref; [done |]; apply ends_bind, ends_get.
  rewrite (cell_loaded _ _ _ _ _ _ _ Hg1 Hp).
  destruct (Z.eqb_spec (am_cell (address_map_ c1) pc) kEntryNotTranslated) as [Ec | Ec]; [| by apply ends_ret].
  cbn; destruct (inv_node _ _ _ _ Hg1 _ _ _ Hp) as [_ _ Hs Hst]; rewrite Ec in Hst.
  assert (held !! p = None) as Hh.
  { destruct special_distinct as (? & ? & ? & ? & ? & ? & ? & ? & ? & ?).
    destruct (held !! p) as [[[j pc'] []] |]; [| | done]; cbn in Hst; intuition congruence. }
  destruct (Z.ltb_spec (invocation_counter e) threshold).
  - apply ends_bind, ends_upd, ends_ret; by apply inv_write.
  - apply ends_bind; eapply ends_mono; [by apply (ends_Lock c1 held tr i p pc e) |].
    intros [] c2 Hg2; by apply ends_ret.
Qed.

Lemma held_kind T c held tr p pc e :
  inv T c held tr -> nodes c !! p = Some (pc, e) ->
  held !! p = None <-> kind e <> Kind.kUnderProcessing.
Proof.
  intros Hi Hp; destruct (inv_node _ _ _ _ Hi _ _ _ Hp) as [_ _ _ Hst].
  destruct (held !! p) as [[[j pc'] []] |]; cbn in Hst; intuition congruence.
Qed.

Lemma ends_GearUp c held tr i pc :
  good c held tr ->
  ends (LockForGearUpTranslation pc) c (fun r c' =>
    match r with
    | Some p => held !! p = None /\ good c' (<[p := (i, pc, Translate)]> held) (tr ++ [Locked i pc])
    | None => good c' held tr
    end).
Proof.
  intros Hg; unfold LockForGearUpTranslation; apply ends_bind, ends_get.
  destruct (guest_entries_ c !! pc) as [p |] eqn:Ep; [| by apply ends_ret].
  destruct (lookup_entry _ _ _ _ _ _ Hg Ep) as [e He].
  apply ends_bind; eapply ends_deref; [done |]; case_decide as Hk; [by apply ends_ret |].
  assert (held !! p = None) as Hh.
  { apply (held_kind _ _ _ _ _ _ _ Hg He); congruence. }
  apply ends_bind; eapply ends_mono; [by apply (ends_Lock c held tr i p pc e) |].
  intros [] c2 Hg2; by apply ends_ret.
Qed.

(** What a translator may publish. *)
Definition finished_kind (k : Kind.t) : Prop :=
  k <> Kind.kUnderProcessing /\ k <> Kind.kGuestWrapped /\ k <> Kind.kHostWrapped.

(** An invalidated entry is given up by whoever holds it. *)
Lemma inv_give_up c held tr p pc e :
  good c held tr -> nodes c !! p = Some (pc, e) -> p ∉ translating_ c ->
  good (mkCache (translating_ c) (delete pc (guest_entries_ c)) (delete p (nodes c))
          (am_store (host_code e) kEntryNotTranslated (address_map_ c)) (max_guest_size_ c))
       (delete p held) tr.
Proof.
  intros Hg Hp Ht; eapply inv_erase; [done | done | | done | by rewrite lookup_delete_eq | done].
  intros q Hq; by rewrite lookup_delete_ne.
Qed.

Lemma run_erase c pc p :
  guest_entries_ c !! pc = Some p ->
  forall Q : unit -> Cache A P -> Prop,
    Q tt (set_entries (delete pc (guest_entries_ c)) (delete p (nodes c)) c) -> ends (erase pc) c Q.
Proof. intros Hp Q HQ; apply ends_upd; by rewrite Hp. Qed.

Lemma ends_SetTranslated c held tr i p pc gsize k piece :
  good c held tr -> held !! p = Some (i, pc, Translate) ->
  0 < gsize < 2 ^ 32 -> finished_kind k -> publishable (code piece) ->
  ends (SetTranslatedAndUnlock pc p gsize k piece) c (fun _ c' =>
    good c' (delete p held) (tr ++ [Published i pc gsize (code piece)])).
Proof.
  intros Hg Hh Hs (K1 & K2 & K3) Hcode; destruct (inv_held _ _ _ _ Hg p) as [[pc' e] Hp]; [eauto |].
  destruct (inv_node _ _ _ _ Hg _ _ _ Hp) as [Hpc Hpt Hsz Hst]; rewrite Hh in Hst; cbn in Hst.
  destruct Hst as (<- & Hk & Hst); unfold SetTranslatedAndUnlock.
  do 3 (apply ends_bind, ends_check; [by rewrite bool_decide_true |]).
  apply ends_bind; eapply ends_deref; [done |]; apply ends_bind, ends_get.
  rewrite (cell_loaded _ _ _ _ _ _ _ Hg Hp).
  assert (guest_entries_ c !! pc = Some p) as Hpc' by (apply (inv_index _ _ _ _ Hg); eauto).
  destruct special_distinct as (D1 & _); pose proof (inv_max _ _ _ _ Hg) as Hm.
  destruct Hst as [(Ev & Ht & Hopen) | [Ev Ht]]; rewrite Ev.
  - rewrite (proj2 (Z.eqb_neq _ _) D1).
    apply ends_bind, ends_check; [apply Z.eqb_refl |].
    apply ends_bind, ends_check; [by apply bool_decide_true |].
    apply ends_bind, ends_upd, ends_bind, ends_check; [apply Z.ltb_lt; lia |].
    apply ends_bind, ends_upd, ends_bind, ends_get, ends_bind, ends_upd, ends_bind, ends_check;
      [by apply bool_decide_true |].
    apply ends_upd.
    set (f := fun e : GuestCodeEntry P => set_kind k (set_guest_size gsize (set_host_size (size piece) e))).
    assert (good (mkCache (translating_ c ∖ {[p]}) (guest_entries_ c) (alter (prod_map id f) p (nodes c))
                (am_store (host_code e) (code piece) (address_map_ c)) (Z.max (max_guest_size_ c) gsize))
              (delete p held) (tr ++ [Published i pc gsize (code piece)])) as Hgood.
    { apply (inv_update (translating_ c) c held _ p pc e); try done.
      - by apply inv_event.
      - lia.
      - intros q Hq; by rewrite lookup_delete_ne.
      - intros q Hq; clear -Hq; set_solver.
      - cbn; lia.
      - rewrite lookup_delete_eq; cbn; split_and!; [done | clear; set_solver |].
        do 3 right; split; [done | by apply lock_open_publish]. }
    cbn; destruct (Z.ltb_spec (max_guest_size_ c) gsize).
    + by rewrite Z.max_r in Hgood by lia.
    + by rewrite Z.max_l in Hgood by lia.
  - rewrite Z.eqb_refl; apply ends_bind, ends_upd; eapply run_erase; [done |].
    eapply inv_event; [exact (inv_give_up c held tr p pc e Hg Hp Ht) | done].
Qed.

(** ** Wrapping *)
Lemma ends_LockWrap c held tr i pc :
  good c held tr -> valid_pc pc ->
  ends (AddAndLockForWrapping pc) c (fun r c' =>
    match r with
    | Some p => held !! p = None /\ good c' (<[p := (i, pc, Wrap)]> held) tr
    | None => good c' held tr
    end).
Proof.
  intros Hg Hpc; unfold AddAndLockForWrapping; apply ends_bind, (ends_pointer _ _ _ _ _ Hg).
  intros x a Hg' Hx _; apply ends_bind.
  assert (1 <= max_guest_size_ c) by apply (inv_max _ _ _ _ Hg).
  eapply ends_mono; [apply (ends_AddUnsafe _ _ _ _ _ _ _ _ (Some (i, pc, Wrap)) Hg'); [done | done | cbn; lia |] |].
  { intros t Ht; cbn; split_and!; [done | done | by left | done | done]. }
  intros [q []] c1 (p & e & E & Hp & _ & Hcase); cbn in E, Hcase; subst q; apply ends_ret.
  - done.
  - by subst c1.
Qed.

Lemma ends_SetWrapped c held tr i p pc is_host piece :
  good c held tr -> held !! p = Some (i, pc, Wrap) -> publishable (code piece) ->
  ends (SetWrappedAndUnlock pc p is_host piece) c (fun _ c' => good c' (delete p held) tr).
Proof.
  intros Hg Hh Hcode; destruct (inv_held _ _ _ _ Hg p) as [[pc' e] Hp]; [eauto |].
  destruct (inv_node _ _ _ _ Hg _ _ _ Hp) as [Hpc Hpt Hsz Hst]; rewrite Hh in Hst; cbn in Hst.
  destruct Hst as (<- & Hk & Hst & Ht & H1s); unfold SetWrappedAndUnlock.
  apply ends_bind; eapply ends_deref; [done |]; apply ends_bind, ends_get.
  rewrite (cell_loaded _ _ _ _ _ _ _ Hg Hp).
  assert (guest_entries_ c !! pc = Some p) as Hpc' by (apply (inv_index _ _ _ _ Hg); eauto).
  destruct special_distinct as (_ & _ & _ & _ & D & _); pose proof (inv_max _ _ _ _ Hg) as Hm.
  destruct Hst as [Ev | Ev]; rewrite Ev.
  - rewrite (proj2 (Z.eqb_neq _ _) (not_eq_sym D)).
    apply ends_bind, ends_check; [apply Z.eqb_refl |].
    apply ends_bind, ends_check; [by apply bool_decide_true |].
    apply ends_bind, ends_upd, ends_bind, ends_upd, ends_check; [by apply Z.eqb_eq |].
    apply (inv_update (translating_ c) c held tr p pc e); try done.
    + cbn; lia.
    + intros q Hq; by rewrite lookup_delete_ne.
    + rewrite lookup_delete_eq; cbn; split_and!; [by destruct is_host | done |].
      do 2 right; left; split; [done |]; destruct is_host; [by right | by left].
  - rewrite Z.eqb_refl; apply ends_bind, ends_upd; eapply run_erase; [done |].
    exact (inv_give_up c held tr p pc e Hg Hp Ht).
Qed.

(** ** What an operation does to the entries *)

Definition cell c (pc : Z) : Z := am_cell (address_map_ c) pc.

(** [g pc n v] is the new value of the cell of an entry at [pc] with [n] bytes and
    value [v], or [None] when the entry is erased. *)
Definition acts (g : Z -> Z -> Z -> option Z) c c' : Prop :=
  (forall pc p e, nodes c !! p = Some (pc, e) ->
     match g pc (guest_size e) (cell c pc) with
     | Some v => (exists e', nodes c' !! p = Some (pc, e') /\ guest_size e' = guest_size e /\ kind e' = kind e)
                 /\ cell c' pc = v
     | None => guest_entries_ c' !! pc = None /\ cell c' pc = kEntryNotTranslated
     end)
  /\ (forall pc, valid_pc pc -> guest_entries_ c !! pc = None ->
       guest_entries_ c' !! pc = None /\ cell c' pc = cell c pc)
  /\ max_guest_size_ c' = max_guest_size_ c.

Lemma acts_refl c : acts (fun _ _ v => Some v) c c.
Proof. split_and!; [| done | done]; intros pc p e Hp; eauto. Qed.

Lemma acts_trans T c held tr g1 g2 g c1 c2 :
  inv T c held tr -> acts g1 c c1 -> acts g2 c1 c2 ->
  (forall pc p e, nodes c !! p = Some (pc, e) ->
     g pc (guest_size e) (cell c pc) = g1 pc (guest_size e) (cell c pc) ≫= g2 pc (guest_size e)) ->
  acts g c c2.
Proof.
  intros Hi (A1 & B1 & M1) (A2 & B2 & M2) Hg; split_and!; [| | congruence].
  - intros pc p e Hp; specialize (A1 _ _ _ Hp); rewrite (Hg _ _ _ Hp).
    pose proof (node_pc _ _ _ _ _ _ _ (inv_node _ _ _ _ Hi _ _ _ Hp)) as Hpc.
    destruct (g1 _ _ _) as [v |]; cbn.
    + destruct A1 as [(e1 & H1n & E1 & K1) Hv]; specialize (A2 _ _ _ H1n); rewrite E1, Hv in A2.
      destruct (g2 _ _ _); [| done].
      destruct A2 as [(e2 & ? & ? & ?) ?]; split; [| done]; exists e2; split_and!; congruence.
    + destruct A1 as [Hn Hv], (B2 _ Hpc Hn); split; congruence.
  - intros pc Hpc Hn; destruct (B1 _ Hpc Hn) as [Hn1 Hc1], (B2 _ Hpc Hn1); split; congruence.
Qed.

(** The cell of one entry gets a new value. *)
Lemma acts_update T c held tr p pc e f v t' :
  inv T c held tr -> nodes c !! p = Some (pc, e) ->
  guest_size (f e) = guest_size e -> kind (f e) = kind e ->
  acts (fun pc' _ v' => Some (if decide (pc' = pc) then v else v')) c
    (mkCache t' (guest_entries_ c) (alter (prod_map id f) p (nodes c))
       (am_store (host_code e) v (address_map_ c)) (max_guest_size_ c)).
Proof.
  intros Hi Hp Hs Hk; destruct (inv_node _ _ _ _ Hi _ _ _ Hp) as [Hpc Hpt _ _].
  pose proof (inv_map _ _ _ _ Hi) as Ha.
  assert (guest_entries_ c !! pc = Some p) as Hpc' by (apply (inv_index _ _ _ _ Hi); eauto).
  split_and!; [| | done]; unfold cell; cbn.
  - intros pc1 q e1 Hq; destruct (decide (pc1 = pc)) as [-> | Hne].
    + assert (guest_entries_ c !! pc = Some q) by (apply (inv_index _ _ _ _ Hi); eauto).
      replace q with p in * by congruence; replace e1 with e in * by congruence.
      split; [| by apply am_store_same]; exists (f e); rewrite lookup_alter_eq, Hp; done.
    + split; [| by rewrite (am_store_other _ _ pc) by (done || apply (inv_node _ _ _ _ Hi _ _ _ Hq))].
      exists e1; rewrite lookup_alter_ne; [done | congruence].
  - intros pc1 Hpc1 Hn; split; [done | rewrite (am_store_other _ _ pc); congruence || done].
Qed.

(** One entry is erased. *)
Lemma acts_erase T c held tr p pc e t' :
  inv T c held tr -> nodes c !! p = Some (pc, e) ->
  acts (fun pc' _ v' => if decide (pc' = pc) then None else Some v') c
    (mkCache t' (delete pc (guest_entries_ c)) (delete p (nodes c))
       (am_store (host_code e) kEntryNotTranslated (address_map_ c)) (max_guest_size_ c)).
Proof.
  intros Hi Hp; destruct (inv_node _ _ _ _ Hi _ _ _ Hp) as [Hpc Hpt _ _].
  pose proof (inv_map _ _ _ _ Hi) as Ha.
  split_and!; [| | done]; unfold cell; cbn.
  - intros pc1 q e1 Hq; destruct (decide (pc1 = pc)) as [-> | Hne].
    + split; [by rewrite lookup_delete_eq | by apply am_store_same].
    + split; [| by rewrite (am_store_other _ _ pc) by (done || apply (inv_node _ _ _ _ Hi _ _ _ Hq))].
      exists e1; rewrite lookup_delete_ne; [done | congruence].
  - intros pc1 Hpc1 Hn; destruct (decide (pc1 = pc)) as [-> | Hne].
    + assert (guest_entries_ c !! pc = Some p) by (apply (inv_index _ _ _ _ Hi); eauto); congruence.
    + by rewrite lookup_delete_ne, (am_store_other _ _ pc) by done.
Qed.

Lemma alter_same (m : gmap EntryPtr (Z * GuestCodeEntry P)) p : alter (prod_map id id) p m = m.
Proof.
  apply map_eq; intros q; rewrite lookup_alter; case_decide as E; [subst | done].
  by destruct (m !! q) as [[? ?] |].
Qed.

(** ** Invalidation *)

Definition overlaps (start end_ pc n : Z) : bool := (start <? pc + n) && (pc <? end_).

(** What becomes of an entry: one that is being translated is invalidated
    whatever the range. *)
Definition stop_translating (v : Z) : Z := if v =? kEntryTranslating then kEntryInvalidating else v.
Definition invalidate_one (start end_ pc n v : Z) : option Z :=
  if negb (overlaps start end_ pc n) || (v =? kEntryInvalidating) then Some v
  else if v =? kEntryWrapping then Some kEntryInvalidating
  else None.

Lemma ends_invalidate_translating ps c held tr T :
  inv T c held tr -> NoDup ps -> (forall p, p ∈ ps <-> p ∈ T) ->
  ends (invalidate_translating ps) c (fun _ c' =>
    inv ∅ c' held tr /\ acts (fun _ _ v => Some (stop_translating v)) c c').
Proof.
  revert c T; induction ps as [| p ps IH]; intros c T Hi Hnd HT; cbn [invalidate_translating].
  - apply ends_ret; assert (T = ∅) as -> by (apply set_eq; intros q; rewrite <- HT; set_solver).
    split; [done |]; eapply (acts_trans _ _ _ _ _ _ _ _ _ Hi); [apply acts_refl | apply acts_refl |].
    intros pc q e Hq; cbn; destruct (inv_node _ _ _ _ Hi _ _ _ Hq) as [_ _ _ Hst].
    unfold stop_translating; destruct (Z.eqb_spec (cell c pc) kEntryTranslating) as [E | E]; [| done].
    exfalso; unfold cell in E; rewrite E in Hst; destruct special_distinct as (? & ? & ? & ? & _).
    destruct (held !! q) as [[[j pc'] []] |]; cbn in Hst; [set_solver | intuition congruence |].
    rewrite !publishable_spec in Hst; intuition congruence.
  - assert (p ∈ T) as HpT by (apply HT; left).
    destruct (inv_translating _ _ _ _ Hi _ HpT) as [[pc e] Hp].
    destruct (inv_node _ _ _ _ Hi _ _ _ Hp) as [Hpc Hpt Hsz Hst].
    destruct (held !! p) as [[[j pc'] []] |] eqn:Eh; cbn in Hst; [| tauto | tauto].
    destruct Hst as (<- & Hk & [(Ev & _ & _) | [_ ?]]); [| done].
    apply ends_bind; eapply ends_deref; [done |].
    apply ends_bind, ends_check; [by apply bool_decide_true |]; apply ends_bind, ends_get.
    rewrite (cell_loaded _ _ _ _ _ _ _ Hi Hp), Ev.
    apply ends_bind, ends_check; [apply Z.eqb_refl |].
    apply ends_bind, ends_upd, ends_bind, ends_upd.
    set (c1 := set_entries _ _ _).
    assert (inv (T ∖ {[p]}) c1 held tr) as Hi1.
    { apply (inv_update T c held tr p pc' e (set_host_size 0) kEntryInvalidating); try done.
      - pose proof (inv_max _ _ _ _ Hi); cbn; lia.
      - intros q Hq; clear -Hq; set_solver.
      - rewrite Eh; cbn; split_and!; [done | done |]; right; split; [done | clear; set_solver]. }
    apply NoDup_cons in Hnd as [Hnin Hnd].
    eapply ends_mono; [apply (IH c1 (T ∖ {[p]}) Hi1 Hnd) |].
    { intros q; rewrite elem_of_difference, <- HT, elem_of_cons, elem_of_singleton.
      clear -Hnin; split; [intros ?; split; [by right | by intros ->] | tauto]. }
    intros _ c2 [Hi2 Ha2]; split; [done |].
    eapply (acts_trans _ _ _ _ _ _ _ _ _ Hi); [by apply (acts_update T c held tr p pc' e (set_host_size 0)) | exact Ha2 |].
    intros pc1 q e1 Hq; cbn; case_decide as Hd; [| done]; subst pc1.
    unfold cell, stop_translating; rewrite Ev, Z.eqb_refl.
    destruct special_distinct as (D & _); by rewrite (proj2 (Z.eqb_neq _ _) (not_eq_sym D)).
Qed.

(** The holder of an entry that nobody translates, by the value of its cell. *)
Lemma idle_holder c held tr p pc e :
  inv ∅ c held tr -> nodes c !! p = Some (pc, e) -> cell c pc <> kEntryInvalidating ->
  if cell c pc =? kEntryWrapping
  then exists i, held !! p = Some (i, pc, Wrap) /\ kind e = Kind.kUnderProcessing /\ guest_size e = 1
  else held !! p = None.
Proof.
  intros Hi Hp Hv; destruct (inv_node _ _ _ _ Hi _ _ _ Hp) as [_ _ _ Hst].
  fold (cell c pc) in Hst; destruct special_distinct as (? & ? & ? & ? & ? & ? & ? & ? & ? & ?).
  destruct (held !! p) as [[[j pc'] []] |] eqn:Eh; cbn in Hst.
  - destruct Hst as (_ & _ & [(_ & Ht & _) | [? _]]); [by apply elem_of_empty in Ht | done].
  - destruct Hst as (-> & Hk & [Ew | ?] & _ & H1s); [| done]; rewrite Ew, Z.eqb_refl; eauto.
  - rewrite !publishable_spec in Hst; destruct (Z.eqb_spec (cell c pc) kEntryWrapping); [| done].
    exfalso; intuition congruence.
Qed.

(** The effect of the loop on the entries of a list of addresses. *)
Definition invalidate_listed (start end_ : Z) (pcs : list Z) (pc n v : Z) : option Z :=
  if decide (pc ∈ pcs) then invalidate_one start end_ pc n v else Some v.
(** The flag: some entry of the list was erased, or its wrapping was stopped. *)
Definition hits c (start end_ : Z) (pcs : list Z) : Prop :=
  exists pc p e, pc ∈ pcs /\ nodes c !! p = Some (pc, e)
  /\ overlaps start end_ pc (guest_size e) = true /\ cell c pc <> kEntryInvalidating.

Definition loop_post (start end_ : Z) (pcs : list Z) c (held : Held) tr (flag r : bool) c' : Prop :=
  inv ∅ c' held tr /\ translating_ c' = translating_ c
  /\ acts (invalidate_listed start end_ pcs) c c' /\ (r = true <-> flag = true \/ hits c start end_ pcs).

(** Every entry afterwards was one before. *)
Lemma acts_inverse T T1 c c1 held held1 tr tr1 g q pc e1 :
  inv T c held tr -> inv T1 c1 held1 tr1 -> acts g c c1 -> nodes c1 !! q = Some (pc, e1) ->
  exists e, nodes c !! q = Some (pc, e) /\ g pc (guest_size e) (cell c pc) = Some (cell c1 pc)
  /\ guest_size e1 = guest_size e /\ kind e1 = kind e.
Proof.
  intros Hi Hi1 (Ha & Hb & _) Hq.
  assert (guest_entries_ c1 !! pc = Some q) as Hq1 by (apply (inv_index _ _ _ _ Hi1); eauto).
  destruct (inv_node _ _ _ _ Hi1 _ _ _ Hq) as [Hpc _ _ _].
  destruct (guest_entries_ c !! pc) as [p |] eqn:Ep; [| destruct (Hb _ Hpc Ep); congruence].
  destruct (lookup_entry _ _ _ _ _ _ Hi Ep) as [e Hp]; specialize (Ha _ _ _ Hp).
  destruct (g _ _ _) as [v |] eqn:Eg; [| destruct Ha; congruence].
  destruct Ha as [(e2 & Hp1 & Hs & Hk) Hv].
  assert (guest_entries_ c1 !! pc = Some p) by (apply (inv_index _ _ _ _ Hi1); eauto).
  replace q with p in * by congruence; exists e; rewrite Eg; split_and!; congruence.
Qed.

(** The entry at the head of the list is dealt with by [c1]. *)
Lemma loop_post_cons start end_ pc pcs c c1 held tr flag flag1 r c' p e g :
  inv ∅ c held tr -> nodes c !! p = Some (pc, e) -> pc ∉ pcs ->
  acts g c c1 -> inv ∅ c1 held tr -> translating_ c1 = translating_ c ->
  (forall pc' n v, pc' <> pc -> g pc' n v = Some v) ->
  g pc (guest_size e) (cell c pc) = invalidate_one start end_ pc (guest_size e) (cell c pc) ->
  (flag1 = true <-> flag = true \/ overlaps start end_ pc (guest_size e) = true /\ cell c pc <> kEntryInvalidating) ->
  loop_post start end_ pcs c1 held tr flag1 r c' -> loop_post start end_ (pc :: pcs) c held tr flag r c'.
Proof.
  intros Hi Hp Hnin Ha Hi1 Ht1 Hg Hgp Hf (Hi' & Ht & Ha' & Hr).
  assert (forall q e', nodes c !! q = Some (pc, e') -> e' = e) as Hu.
  { intros q e' Hq; assert (guest_entries_ c !! pc = Some q) by (apply (inv_index _ _ _ _ Hi); eauto).
    assert (guest_entries_ c !! pc = Some p) by (apply (inv_index _ _ _ _ Hi); eauto); congruence. }
  split_and!; [done | congruence | |].
  - eapply (acts_trans _ _ _ _ _ _ _ _ _ Hi Ha Ha'); intros pc' q e' Hq; unfold invalidate_listed.
    destruct (decide (pc' = pc)) as [-> | Hne].
    + rewrite decide_True by left; rewrite (Hu _ _ Hq), Hgp.
      destruct (invalidate_one _ _ _ _ _); cbn; [by rewrite decide_False | done].
    + rewrite Hg by done; cbn; destruct (decide (pc' ∈ pcs)); [by rewrite decide_True by (by right) |].
      by rewrite decide_False by (intros [-> |]%elem_of_cons; done).
  - rewrite Hr, Hf; split.
    + intros [[? | [Ho Hv]] | (pc' & q & e1 & Hin & Hq & Ho & Hv)]; [by left | right; exists pc, p, e | right].
      * split_and!; [left | done..].
      * destruct (acts_inverse _ _ _ _ _ _ _ _ _ _ _ _ Hi Hi1 Ha Hq) as (e' & Hq' & Eg & Es & _).
        rewrite Hg in Eg by (by intros ->); injection Eg as Eg; rewrite <- Eg, Es in *.
        exists pc', q, e'; split_and!; [by right | done..].
    + intros [? | (pc' & q & e' & Hin & Hq & Ho & Hv)]; [by left; left |].
      apply elem_of_cons in Hin as [-> | Hin]; [rewrite (Hu _ _ Hq) in Ho; by left; right | right].
      assert (pc' <> pc) as Hne by (by intros ->).
      destruct Ha as [Ha _]; specialize (Ha _ _ _ Hq); rewrite Hg in Ha by done.
      destruct Ha as [(e1 & Hq1 & Es & _) Hv1]; exists pc', q, e1; rewrite Es, Hv1; done.
Qed.

Lemma no_wrap T c held tr p pc e :
  inv T c held tr -> nodes c !! p = Some (pc, e) -> cast u64 (pc + guest_size e) = pc + guest_size e.
Proof.
  intros Hi Hp; destruct (inv_node _ _ _ _ Hi _ _ _ Hp) as [[? ?] _ Hs _]; pose proof (inv_max _ _ _ _ Hi).
  apply cast_id; [done |]; rewrite in_range_unsigned by done; change (width u64) with 64; lia.
Qed.

(** Past the end of the range nothing overlaps. *)
Lemma loop_post_break start end_ pc pcs c held tr flag :
  inv ∅ c held tr -> StronglySorted Z.le (pc :: pcs) -> end_ <= pc ->
  loop_post start end_ (pc :: pcs) c held tr flag flag c.
Proof.
  intros Hi Hs He; assert (forall pc', pc' ∈ pc :: pcs -> end_ <= pc') as Hall.
  { apply StronglySorted_inv in Hs as [_ Hs]; rewrite Forall_forall in Hs.
    intros pc' [-> | Hin]%elem_of_cons; [done | specialize (Hs _ Hin); lia]. }
  assert (forall pc' n, pc' ∈ pc :: pcs -> overlaps start end_ pc' n = false) as Hno.
  { intros pc' n Hin%Hall; unfold overlaps; by rewrite (proj2 (Z.ltb_ge pc' end_)), andb_false_r. }
  split_and!; [done | done | |].
  - eapply (acts_trans _ _ _ _ _ _ _ _ _ Hi (acts_refl c) (acts_refl c)); intros pc' q e Hq; cbn.
    unfold invalidate_listed, invalidate_one; case_decide as Hin; [by rewrite Hno | done].
  - split; [by left | intros [? | (pc' & q & e & Hin & _ & Ho & _)]; [done | by rewrite Hno in Ho]].
Qed.

Lemma inv_store_cell c held tr p pc e v :
  inv ∅ c held tr -> nodes c !! p = Some (pc, e) -> status tr (held !! p) (p ∈ (∅ : gset EntryPtr)) v pc e ->
  inv ∅ (set_address_map (am_store (host_code e) v (address_map_ c)) c) held tr
  /\ acts (fun pc' _ v' => Some (if decide (pc' = pc) then v else v')) c
       (set_address_map (am_store (host_code e) v (address_map_ c)) c).
Proof.
  intros Hi Hp Hst; destruct (inv_node _ _ _ _ Hi _ _ _ Hp) as [_ _ Hs _].
  pose proof (inv_max _ _ _ _ Hi) as Hm; unfold set_address_map.
  rewrite <- (alter_same (nodes c) p); split.
  - rewrite (alter_same (nodes c) p) at 1.
    pose proof (inv_update ∅ c held tr p pc e id v ∅ held (translating_ c) (max_guest_size_ c)) as Hu.
    rewrite alter_same in *; apply Hu; done || lia.
  - rewrite (alter_same (nodes c) p).
    pose proof (acts_update ∅ c held tr p pc e id v (translating_ c)) as Hu.
    rewrite alter_same in Hu; by apply Hu.
Qed.

Lemma ends_invalidate_loop start end_ pcs c held tr flag :
  inv ∅ c held tr -> NoDup pcs -> StronglySorted Z.le pcs ->
  (forall pc, pc ∈ pcs -> is_Some (guest_entries_ c !! pc)) ->
  ends (invalidate_loop start end_ pcs flag) c (loop_post start end_ pcs c held tr flag).
Proof.
  revert c flag; induction pcs as [| pc pcs IH]; intros c flag Hi Hnd Hs Hdom; cbn [invalidate_loop].
  { apply ends_ret; split_and!; [done | done | |].
    - eapply (acts_trans _ _ _ _ _ _ _ _ _ Hi (acts_refl c) (acts_refl c)); intros pc' q e Hq; cbn.
      unfold invalidate_listed; by rewrite decide_False by apply not_elem_of_nil.
    - split; [by left | intros [? | (pc' & q & e & Hin & _)]; [done | by apply elem_of_nil in Hin]]. }
  destruct (Hdom pc) as [p Ep]; [left |]; destruct (lookup_entry _ _ _ _ _ _ Hi Ep) as [e Hp].
  destruct (inv_node _ _ _ _ Hi _ _ _ Hp) as [Hpc Hpt Hsz Hst].
  apply ends_bind; eapply ends_must; [exact Ep |]; apply ends_bind; eapply ends_deref; [done |].
  apply ends_bind, ends_check; [apply Z.ltb_lt; lia |]; rewrite (no_wrap _ _ _ _ _ _ _ Hi Hp).
  apply NoDup_cons in Hnd as [Hnin Hnd]; pose proof (StronglySorted_inv Hs) as [Hs' _].
  assert (forall pc', pc' ∈ pcs -> is_Some (guest_entries_ c !! pc')) as Hdom' by (intros; apply Hdom; by right).
  destruct (Z.leb_spec (pc + guest_size e) start) as [Hle | Hgt].
  { assert (overlaps start end_ pc (guest_size e) = false) as Ho
      by (unfold overlaps; by rewrite (proj2 (Z.ltb_ge _ _) Hle)).
    eapply ends_mono; [by apply (IH c flag) |]; intros r c' Hpost.
    apply (loop_post_cons start end_ pc pcs c c held tr flag flag r c' p e (fun _ _ v => Some v));
      try done; [apply acts_refl | | rewrite Ho; intuition congruence].
    unfold invalidate_one; by rewrite Ho. }
  destruct (Z.leb_spec end_ pc) as [Hle | Hlt]; [apply ends_ret; by apply loop_post_break |].
  assert (overlaps start end_ pc (guest_size e) = true) as Ho
    by (unfold overlaps; rewrite (proj2 (Z.ltb_lt _ _) Hgt), (proj2 (Z.ltb_lt _ _) Hlt); done).
  apply ends_bind, ends_get; rewrite (cell_loaded _ _ _ _ _ _ _ Hi Hp); fold (cell c pc).
  destruct (Z.eqb_spec (cell c pc) kEntryInvalidating) as [Ev | Ev].
  { eapply ends_mono; [by apply (IH c flag) |]; intros r c' Hpost.
    apply (loop_post_cons start end_ pc pcs c c held tr flag flag r c' p e (fun _ _ v => Some v));
      try done; [apply acts_refl | | intuition congruence].
    unfold invalidate_one; by rewrite Ev, Z.eqb_refl, orb_true_r. }
  pose proof (idle_holder _ _ _ _ _ _ Hi Hp Ev) as Hholder.
  destruct (Z.eqb_spec (cell c pc) kEntryWrapping) as [Ew | Ew].
  - destruct Hholder as (i & Eh & Hk & H1s); apply ends_bind, ends_upd.
    destruct (inv_store_cell c held tr p pc e kEntryInvalidating Hi Hp) as [Hi1 Ha1].
    { rewrite Eh; cbn; split_and!; [done | done | by right | apply not_elem_of_empty | done]. }
    eapply ends_mono; [by eapply (IH _ true Hi1) |]; intros r c' Hpost.
    eapply (loop_post_cons start end_ pc pcs c _ held tr flag true r c' p e _ Hi Hp Hnin Ha1 Hi1);
      [done | intros; by rewrite decide_False | | intuition congruence | exact Hpost].
    unfold invalidate_one; by rewrite decide_True, Ho, (proj2 (Z.eqb_neq _ _) Ev), Ew, Z.eqb_refl.
  - apply ends_bind, ends_upd, ends_bind; eapply run_erase; [done |].
    assert (inv ∅ (mkCache (translating_ c) (delete pc (guest_entries_ c)) (delete p (nodes c))
      (am_store (host_code e) kEntryNotTranslated (address_map_ c)) (max_guest_size_ c)) held tr) as Hi1
      by (eapply inv_erase; try done; by rewrite lookup_delete_eq).
    pose proof (acts_erase ∅ c held tr p pc e (translating_ c) Hi Hp) as Ha1.
    eapply ends_mono; [eapply (IH _ true Hi1 Hnd Hs') |].
    { intros pc' Hin; cbn; rewrite lookup_delete_ne by (intros ->; done); by apply Hdom'. }
    intros r c' Hpost.
    eapply (loop_post_cons start end_ pc pcs c _ held tr flag true r c' p e _ Hi Hp Hnin Ha1 Hi1);
      [done | intros; by rewrite decide_False | | intuition congruence | exact Hpost].
    unfold invalidate_one; rewrite decide_True, Ho, (proj2 (Z.eqb_neq _ _) Ev) by done; cbn.
    by rewrite (proj2 (Z.eqb_neq _ _) Ew).
Qed.

(** What becomes of every entry. *)
Definition invalidated (start end_ pc n v : Z) : option Z :=
  invalidate_one start end_ pc n (stop_translating v).

(** The invariant after the invalidation has happened. *)
Lemma inv_invalidated c held tr start end_ :
  inv ∅ c held tr ->
  (forall pc p e, nodes c !! p = Some (pc, e) -> held !! p = None ->
     overlaps start end_ pc (guest_size e) = false) ->
  inv ∅ c held (tr ++ [Invalidated start end_]).
Proof.
  intros [Ha Hx Hn Hh Ht Hab Hm] Hov; split; try done.
  intros p pc e Hp; destruct (Hn p pc e Hp) as [? ? ? Hst]; split; [done.. |].
  specialize (Hov _ _ _ Hp); destruct (held !! p) as [[[i pc'] []] |]; cbn in *; [| done |].
  - destruct Hst as (? & ? & [(_ & Hin & _) | ?]); [by apply elem_of_empty in Hin | auto].
  - destruct Hst as (? & ? & [? | [? | [? | [? Hf]]]]); split_and!; auto; do 3 right; split; [done |].
    apply fresh_code_snoc; [done |]; specialize (Hov eq_refl); unfold overlaps in Hov; cbn; lia.
Qed.

(** The entries the loop visits: all that overlap the range. *)
Definition visited c (start : Z) : list Z :=
  if start <=? max_guest_size_ c then keys (guest_entries_ c)
  else filter (fun pc => start - max_guest_size_ c < pc) (keys (guest_entries_ c)).

Lemma visited_spec T c held tr start :
  inv T c held tr ->
  NoDup (visited c start) /\ StronglySorted Z.le (visited c start)
  /\ (forall pc, pc ∈ visited c start -> is_Some (guest_entries_ c !! pc))
  /\ (forall pc p e end_, nodes c !! p = Some (pc, e) ->
       overlaps start end_ pc (guest_size e) = true -> pc ∈ visited c start).
Proof.
  intros Hi; unfold visited.
  assert (forall pc p e, nodes c !! p = Some (pc, e) -> pc ∈ keys (guest_entries_ c)) as Hk.
  { intros pc p e Hp; apply elem_of_keys; exists p; apply (inv_index _ _ _ _ Hi); eauto. }
  destruct (start <=? max_guest_size_ c).
  - split_and!; [apply keys_NoDup | apply keys_sorted | intros; by apply elem_of_keys | eauto].
  - split_and!; [apply NoDup_filter, keys_NoDup | apply sorted_filter, keys_sorted | |].
    + intros pc [_ Hpc]%list_elem_of_filter; by apply elem_of_keys.
    + intros pc p e end_ Hp Ho; apply list_elem_of_filter; split; [| eauto].
      destruct (inv_node _ _ _ _ Hi _ _ _ Hp) as [_ _ Hs _]; unfold overlaps in Ho; lia.
Qed.

(** Nobody holds an entry that holds neither a mark of a lock nor of an
    invalidation. *)
Lemma unheld_cell T c held tr p pc e :
  inv T c held tr -> nodes c !! p = Some (pc, e) -> held !! p = None ->
  cell c pc <> kEntryInvalidating /\ cell c pc <> kEntryWrapping /\ cell c pc <> kEntryTranslating.
Proof.
  intros Hi Hp Hh; destruct (inv_node _ _ _ _ Hi _ _ _ Hp) as [_ _ _ Hst]; rewrite Hh in Hst.
  cbn in Hst; fold (cell c pc) in Hst; rewrite !publishable_spec in Hst.
  destruct special_distinct as (? & ? & ? & ? & ? & ? & ? & ? & ? & ?); intuition congruence.
Qed.

Lemma stop_translating_Invalidating v :
  stop_translating v <> kEntryInvalidating <-> v <> kEntryTranslating /\ v <> kEntryInvalidating.
Proof. unfold stop_translating; destruct (Z.eqb_spec v kEntryTranslating); intuition congruence. Qed.

Lemma ends_Invalidate c held tr start end_ :
  good c held tr ->
  ends (InvalidateGuestRange start end_) c (fun r c' =>
    good c' held (tr ++ [Invalidated start end_]) /\ acts (invalidated start end_) c c'
    /\ (r = true <-> exists pc p e, nodes c !! p = Some (pc, e)
         /\ overlaps start end_ pc (guest_size e) = true
         /\ cell c pc <> kEntryTranslating /\ cell c pc <> kEntryInvalidating)).
Proof.
  intros Hg; unfold InvalidateGuestRange; apply ends_bind, ends_bind, ends_get, ends_bind.
  eapply ends_mono.
  { apply (ends_invalidate_translating _ _ _ _ _ Hg); [apply NoDup_elements | intros p; apply elem_of_elements]. }
  intros [] c1 [Hi1 Ha1]; apply ends_upd, ends_bind, ends_get.
  set (c2 := set_translating ∅ c1); assert (inv ∅ c2 held tr) as Hi2 by (by apply inv_set_translating).
  assert (acts (fun _ _ v => Some (stop_translating v)) c c2) as Ha2 by exact Ha1.
  destruct (visited_spec _ _ _ _ start Hi2) as (Hnd & Hs & Hdom & Hvis).
  eapply ends_mono; [by apply (ends_invalidate_loop start end_ (visited c2 start) c2 held tr false Hi2) |].
  intros r c3 (Hi3 & Ht3 & Ha3 & Hr); assert (translating_ c3 = ∅) as Ht by (by rewrite Ht3); split_and!.
  - unfold good; rewrite Ht; apply inv_invalidated; [done |]; intros pc p e Hp Hh.
    destruct (acts_inverse _ _ _ _ _ _ _ _ _ _ _ _ Hi2 Hi3 Ha3 Hp) as (e2 & Hp2 & Eg & -> & _).
    destruct (overlaps start end_ pc (guest_size e2)) eqn:Ho; [exfalso | done].
    destruct (unheld_cell _ _ _ _ _ _ _ Hi2 Hp2 Hh) as (E1 & E2 & _).
    unfold invalidate_listed, invalidate_one in Eg; rewrite decide_True in Eg by eauto.
    by rewrite Ho, (proj2 (Z.eqb_neq _ _) E1), (proj2 (Z.eqb_neq _ _) E2) in Eg.
  - eapply (acts_trans _ _ _ _ _ _ _ _ _ Hg Ha2 Ha3); intros pc p e Hp; cbn.
    unfold invalidated, invalidate_listed; case_decide as Hin; [done |].
    unfold invalidate_one; destruct (overlaps start end_ pc (guest_size e)) eqn:Ho; [exfalso | done].
    destruct Ha2 as [Ha2 _]; destruct (Ha2 _ _ _ Hp) as [(e2 & Hp2 & Es & _) _]; rewrite <- Es in Ho; eauto.
  - rewrite Hr; split.
    + intros [? | (pc & p & e2 & Hin & Hp & Ho & Hv)]; [done |].
      destruct (acts_inverse _ _ _ _ _ _ _ _ _ _ _ _ Hg Hi2 Ha2 Hp) as (e & Hp1 & [= Eg] & Es & _).
      rewrite <- Eg, stop_translating_Invalidating in Hv; exists pc, p, e; rewrite <- Es; tauto.
    + intros (pc & p & e & Hp & Ho & Hv); right.
      destruct Ha2 as [Ha2 _]; destruct (Ha2 _ _ _ Hp) as [(e2 & Hp2 & Es & _) Hc].
      exists pc, p, e2; rewrite Es, Hc, stop_translating_Invalidating; split_and!; try tauto.
      by eapply Hvis; [| rewrite Es].
Qed.

(** *** What invalidation does not touch *)

(** A run of a computation ends with the run of its last part. *)
Lemma bind_inv {S B C} (m : SM S B) (k : B -> SM S C) s r s' :
  (m ≫= k) s = Some (r, s') -> exists b s1, m s = Some (b, s1) /\ k b s1 = Some (r, s').
Proof. unfold mbind, SM_bind; destruct (m s) as [[b s1] |]; [by eauto | done]. Qed.
Lemma check_inv {S} b (s : S) u s' : check b s = Some (u, s') -> s' = s.
Proof. unfold check; destruct b; [by intros [= _ <-] | done]. Qed.
Lemma must_inv {S B} (f : S -> option B) s b s' : must f s = Some (b, s') -> s' = s /\ f s = Some b.
Proof. unfold must; destruct (f s) eqn:E; [by intros [= <- <-] | done]. Qed.

Ltac run_inv H :=
  repeat match type of H with
  | (_ ≫= _) _ = Some _ =>
      let b := fresh "b" in let s := fresh "s" in let E := fresh "E" in
      apply bind_inv in H as (b & s & E & H);
      first [ unfold deref in E; apply must_inv in E as [-> E]
            | apply check_inv in E as ->
            | unfold load_cell, get_st in E; injection E as <- <-
            | unfold store_cell, write_entry, erase, upd_st in E; injection E as _ <-
            | apply must_inv in E as [-> E] ]
  end.

Lemma translating_nodes ps c r c' :
  invalidate_translating ps c = Some (r, c') ->
  max_guest_size_ c' = max_guest_size_ c
  /\ forall p, nodes c' !! p = (fun n => (n.1, if decide (p ∈ ps) then set_host_size 0 n.2 else n.2)) <$> nodes c !! p.
Proof.
  revert c; induction ps as [| q ps IH]; intros c; cbn [invalidate_translating].
  - intros [= _ <-]; split; [done |]; intros p; destruct (nodes c !! p) as [[pc e] |]; [| done]; cbn.
    by rewrite decide_False by apply not_elem_of_nil.
  - intros Hrun; run_inv Hrun; apply IH in Hrun as [Hm Hn]; split; [done |]; intros p; rewrite Hn; cbn.
    destruct (decide (q = p)) as [-> | Hne].
    + rewrite lookup_alter_eq; destruct (nodes c !! p) as [[pc e] |]; [| done]; cbn.
      rewrite (decide_True (P := p ∈ p :: ps)) by left; by case_decide.
    + rewrite lookup_alter_ne by done; destruct (nodes c !! p); [cbn | done]; do 2 f_equal.
      destruct (decide (p ∈ ps)); [rewrite decide_True by (by right) | rewrite decide_False]; try done.
      by intros [| ]%elem_of_cons.
Qed.

Lemma invalidate_loop_nodes start end_ pcs flag c r c' :
  invalidate_loop start end_ pcs flag c = Some (r, c') ->
  max_guest_size_ c' = max_guest_size_ c /\ translating_ c' = translating_ c /\ nodes c' ⊆ nodes c.
Proof.
  revert c flag; induction pcs as [| pc pcs IH]; intros c flag; cbn [invalidate_loop]; [by intros [= _ <-] |].
  intros Hrun; run_inv Hrun; destruct (_ <=? start); [by eapply IH |].
  destruct (end_ <=? pc); [by injection Hrun as _ <- |]; run_inv Hrun.
  destruct (_ =? kEntryInvalidating); [by eapply IH |].
  destruct (_ =? kEntryWrapping); run_inv Hrun; apply IH in Hrun as (Hm & Ht & Hn); [done |].
  cbn in Hm, Ht, Hn; destruct (guest_entries_ c !! pc); cbn in Hm, Ht, Hn; split_and!; try done.
  etransitivity; [exact Hn |]; apply delete_subseteq.
Qed.

(** The entries that are left are as they were, but for the host size of those
    that were being translated. *)
Lemma Invalidate_nodes start end_ c r c' :
  InvalidateGuestRange start end_ c = Some (r, c') ->
  max_guest_size_ c' = max_guest_size_ c /\ translating_ c' = ∅
  /\ forall p pc e', nodes c' !! p = Some (pc, e') -> exists e, nodes c !! p = Some (pc, e)
     /\ e' = if decide (p ∈ translating_ c) then set_host_size 0 e else e.
Proof.
  unfold InvalidateGuestRange, InvalidateEntriesBeingTranslatedUnsafe; intros Hrun.
  apply bind_inv in Hrun as (? & c1 & E1 & Hrun); apply bind_inv in E1 as (ps & s1 & [= <- <-] & E1).
  apply bind_inv in E1 as (? & c0 & E0 & [= _ <-]); apply translating_nodes in E0 as [Hm0 Hn0].
  apply bind_inv in Hrun as (pcs & s2 & [= _ <-] & Hrun); apply invalidate_loop_nodes in Hrun as (Hm & Ht & Hn).
  split_and!; [by rewrite Hm | done |]; intros p pc e' Hp; eapply lookup_weaken in Hp; [| exact Hn]; cbn in Hp.
  rewrite Hn0 in Hp; destruct (nodes c !! p) as [[pc0 e] |]; [| done]; cbn in Hp; injection Hp as <- <-.
  exists e; split; [done |]; destruct (decide (p ∈ translating_ c)) as [Hin | Hout];
    [rewrite decide_True | rewrite decide_False]; try done; by rewrite elem_of_elements.
Qed.

(** ** Gear shift, stop addresses and fork *)

(** The entries at most [range] bytes above [target]; the loop starts [range]
    bytes below it. *)
Definition gear_shift_entry (target range : Z) (pcs : list Z) (pc : Z) e : GuestCodeEntry P :=
  if decide (pc ∈ pcs /\ pc <= target + range /\ kind e = Kind.kLiteTranslated)
  then set_counter kGearSwitchThreshold e else e.

Lemma ends_gear_shift_loop target range pcs c held tr :
  good c held tr -> NoDup pcs -> StronglySorted Z.le pcs -> 0 <= range ->
  (forall pc, pc ∈ pcs -> is_Some (guest_entries_ c !! pc)) ->
  ends (gear_shift_loop target range pcs) c (fun _ c' => good c' held tr
    /\ (forall p pc e, nodes c !! p = Some (pc, e) ->
         nodes c' !! p = Some (pc, gear_shift_entry target range pcs pc e))
    /\ address_map_ c' = address_map_ c).
Proof.
  revert c; induction pcs as [| pc pcs IH]; intros c Hg Hnd Hs Hr Hdom; cbn [gear_shift_loop].
  { apply ends_ret; split_and!; [done | | done]; intros p pc e Hp; unfold gear_shift_entry.
    by rewrite decide_False by (intros [[]%elem_of_nil _]). }
  destruct (Hdom pc) as [p Ep]; [left |]; destruct (lookup_entry _ _ _ _ _ _ Hg Ep) as [e Hp].
  destruct (inv_node _ _ _ _ Hg _ _ _ Hp) as [Hpc Hpt Hsz _].
  apply ends_bind; eapply ends_must; [exact Ep |]; apply ends_bind; eapply ends_deref; [done |].
  apply ends_bind, ends_check; [apply Z.ltb_lt; lia |].
  apply NoDup_cons in Hnd as [Hnin Hnd]; pose proof (StronglySorted_inv Hs) as [Hs' Hle].
  destruct ((target <? pc) && (range <? pc - target)) eqn:Eb.
  { apply ends_ret; split_and!; [done | | done]; intros q pc' e' Hq; unfold gear_shift_entry.
    rewrite decide_False; [done |]; rewrite Forall_forall in Hle.
    intros ([-> | Hin]%elem_of_cons & Hn & _); [lia | specialize (Hle _ Hin); lia]. }
  set (c1 := if decide (kind e = Kind.kLiteTranslated)
             then set_entries (guest_entries_ c) (alter (prod_map id (set_counter kGearSwitchThreshold)) p (nodes c)) c
             else c).
  apply ends_bind, (ends_mono _ _ (fun _ c' => c' = c1)).
  { unfold c1; case_decide; [by apply ends_upd | by apply ends_ret]. }
  assert (good c1 held tr /\ guest_entries_ c1 = guest_entries_ c /\ address_map_ c1 = address_map_ c) as (Hg1 & Hx1 & Hm1)
    by (unfold c1; case_decide; split_and!; try done; by apply inv_write).
  intros _ c' ->; eapply ends_mono; [apply (IH c1); try done; rewrite Hx1; intros; apply Hdom; by right |].
  intros _ c' (Hg' & Hn' & Hm'); split_and!; [done | | congruence].
  intros q pc' e' Hq; unfold gear_shift_entry in *; destruct (decide (q = p)) as [-> | Hne].
  - rewrite Hp in Hq; injection Hq as <- <-; unfold c1 in Hn'.
    destruct (decide (kind e = Kind.kLiteTranslated)) as [Hk | Hk].
    + rewrite (decide_True (P := _ /\ _)) by (split_and!; [left | lia | done]).
      rewrite (Hn' p pc (set_counter kGearSwitchThreshold e)) by (cbn; rewrite lookup_alter_eq, Hp; done).
      by rewrite decide_False by (by intros [? _]).
    + rewrite (Hn' p pc e Hp); by rewrite !decide_False by tauto.
  - assert (pc' <> pc) as Hpc' by (by eapply (index_inj _ _ _ _ p); [exact Hg | ..]).
    rewrite (Hn' q pc' e').
    + do 2 f_equal; apply decide_ext; rewrite elem_of_cons; tauto.
    + unfold c1; case_decide; [cbn; by rewrite lookup_alter_ne | done].
Qed.

(** An address that is not translated becomes a stop address. *)
Lemma inv_stop T c held tr (x : P) pc :
  inv T c held tr -> valid_pc pc -> am_points (address_map_ c) x pc -> cell c pc = kEntryNotTranslated ->
  inv T (set_address_map (am_store x kEntryStop (address_map_ c)) c) held tr.
Proof.
  intros [Ha Hx Hn Hh Ht Hab Hm] Hpc Hpt Hc; unfold cell in Hc; split; cbn; try done.
  - by eapply am_store_ok.
  - intros p pc' e Hp; destruct (decide (pc' = pc)) as [-> | Hne]; [| by eapply node_ok_store; eauto].
    destruct (Hn p pc e Hp) as [? Hpt' ? Hst]; split; [done | by eapply am_store_keeps | done |].
    rewrite (am_store_same _ _ _ _ Ha Hpt); rewrite Hc in Hst.
    destruct special_distinct as (? & ? & ? & ? & ? & ? & ? & ? & ? & ?).
    destruct (held !! p) as [[[j pc'] []] |]; cbn in Hst |- *; [intuition congruence.. |].
    split_and!; [tauto | tauto | by right; left].
  - intros pc' Hv Hnone; destruct (decide (pc' = pc)) as [-> | Hne].
    + right; by apply am_store_same.
    + rewrite (am_store_other _ _ pc) by done; auto.
Qed.

Lemma ends_SetStop c held tr pc :
  good c held tr -> valid_pc pc -> ends (SetStop pc) c (fun _ c' => good c' held tr).
Proof.
  intros Hg Hpc; unfold SetStop; apply ends_bind, (ends_pointer _ _ _ _ _ Hg).
  intros x a Hg' Hx Hcell; apply ends_bind, ends_get; cbn.
  rewrite (am_load_cell a x pc) by (done || apply (inv_map _ _ _ _ Hg')).
  destruct (Z.eqb_spec (am_cell a pc) kEntryNotTranslated) as [E | E]; [| by apply ends_ret].
  apply ends_bind, ends_upd, ends_ret.
  exact (inv_stop _ (set_address_map a c) held tr x pc Hg' Hpc Hx E).
Qed.

(** Only finished entries are left by the loop, and nobody holds them. *)
Lemma ends_drop_unfinished pcs c held tr T :
  inv T c held tr -> NoDup pcs -> (forall pc, pc ∈ pcs -> is_Some (guest_entries_ c !! pc)) ->
  ends (drop_unfinished pcs) c (fun _ c' => exists T' (held' : Held),
    inv T' c' held' tr /\ translating_ c' = translating_ c
    /\ (forall p pc e, nodes c' !! p = Some (pc, e) -> nodes c !! p = Some (pc, e))
    /\ (forall p pc e, nodes c' !! p = Some (pc, e) -> is_Some (held' !! p) -> pc ∉ pcs)).
Proof.
  revert c held T; induction pcs as [| pc pcs IH]; intros c held T Hi Hnd Hdom; cbn [drop_unfinished].
  { apply ends_ret; exists T, held; split_and!; try done; intros; apply not_elem_of_nil. }
  destruct (Hdom pc) as [p Ep]; [left |]; destruct (lookup_entry _ _ _ _ _ _ Hi Ep) as [e Hp].
  apply ends_bind; eapply ends_must; [exact Ep |]; apply ends_bind; eapply ends_deref; [done |].
  apply NoDup_cons in Hnd as [Hnin Hnd]; apply ends_bind; case_decide as Hk.
  - apply ends_bind, ends_upd; eapply run_erase; [done |].
    assert (inv (T ∖ {[p]}) (mkCache (translating_ c) (delete pc (guest_entries_ c)) (delete p (nodes c))
      (am_store (host_code e) kEntryNotTranslated (address_map_ c)) (max_guest_size_ c)) (delete p held) tr) as Hi1.
    { eapply inv_erase; [done | done | | | by rewrite lookup_delete_eq | clear; set_solver].
      - intros q Hq; by rewrite lookup_delete_ne.
      - intros q Hq; clear -Hq; set_solver. }
    eapply ends_mono; [eapply (IH _ _ _ Hi1 Hnd) |].
    { intros pc' Hin; cbn; rewrite lookup_delete_ne by (intros ->; done); apply Hdom; by right. }
    intros _ c' (T' & held' & Hi' & Ht' & Hsub & Hleft); exists T', held'; split_and!; [done | done | |].
    + intros q pc' e' Hq; apply Hsub in Hq; cbn in Hq; by apply lookup_delete_Some in Hq as [_ ?].
    + intros q pc' e' Hq Hh [-> | Hin]%elem_of_cons; [| by eapply Hleft].
      apply Hsub in Hq; cbn in Hq; apply lookup_delete_Some in Hq as [Hne Hq]; by eapply (index_inj _ _ _ _ p _ _ _ _ q) in Hp.
  - apply ends_ret; eapply ends_mono; [apply (IH c held T Hi Hnd); intros; apply Hdom; by right |].
    intros _ c' (T' & held' & Hi' & Ht' & Hsub & Hleft); exists T', held'; split_and!; [done.. |].
    intros q pc' e' Hq Hh [-> | Hin]%elem_of_cons; [| by eapply Hleft].
    assert (e' = e) as ->.
    { apply Hsub in Hq; assert (guest_entries_ c !! pc = Some q) by (apply (inv_index _ _ _ _ Hi); eauto).
      congruence. }
    apply (held_kind _ _ _ _ _ _ _ Hi' Hq) in Hk; rewrite Hk in Hh; by destruct Hh.
Qed.

Lemma ends_FinishFork c held tr :
  good c held tr -> ends (FinishFork true) c (fun _ c' => good c' ∅ tr
    /\ forall p pc e, nodes c' !! p = Some (pc, e) -> nodes c !! p = Some (pc, e)).
Proof.
  intros Hg; unfold FinishFork; apply ends_bind, ends_upd, ends_bind, ends_get.
  set (c1 := set_translating ∅ c).
  assert (inv (translating_ c) c1 held tr) as Hi1 by (by apply inv_set_translating).
  eapply ends_mono; [apply (ends_drop_unfinished (keys (guest_entries_ c1)) c1 held tr _ Hi1 (keys_NoDup _)) |].
  { intros pc Hin; by apply elem_of_keys. }
  intros _ c' (T' & held' & Hi' & Ht' & Hsub & Hleft); split; [| exact Hsub].
  assert (held' = ∅) as ->.
  { apply map_empty; intros p; apply eq_None_not_Some; intros Hh.
    destruct (inv_held _ _ _ _ Hi' _ Hh) as [[pc e] Hp]; apply (Hleft _ _ _ Hp Hh), elem_of_keys.
    exists p; apply (inv_index _ _ _ _ Hi1); eauto. }
  assert (T' = ∅) as ->.
  { apply set_eq; intros p; split; [| by intros []%elem_of_empty]; intros Hin.
    destruct (inv_translating _ _ _ _ Hi' _ Hin) as [[pc e] Hp].
    destruct (inv_node _ _ _ _ Hi' _ _ _ Hp) as [_ _ _ Hst]; rewrite lookup_empty in Hst; cbn in Hst; tauto. }
  unfold good; by rewrite Ht'.
Qed.
End Correctness.
