(* ===== verification/CacheProtocol.v ===== *)
(** * The translation cache in use

    The threads of the guest and of the translator, interleaved: every action is
    one operation of [TranslationCache] by one thread.  [allowed] is how the
    callers use the operations: guest addresses have 48 bits; who was given an
    entry publishes it, once, with host code of its own; a forking thread holds
    nothing.  [exec] runs the operation and keeps track of who holds what. *)
From stdpp Require Import gmap.
From S2P Require Import Prelude MachineInt Effects TableOfTables TranslationCache TranslationCacheProps.
Import TranslationCache.
#[local] Open Scope Z_scope.

Inductive Action :=
  | TryTranslate (i : nat) (pc threshold : Z)
  | TryGearUp (i : nat) (pc : Z)
  | FinishTranslation (i : nat) (p : EntryPtr) (pc gsize : Z) (k : Kind.t) (piece : HostCodePiece)
  | ResetCounter (i : nat) (p : EntryPtr) (pc : Z)
  | TryWrap (i : nat) (pc : Z)
  | FinishWrapping (i : nat) (p : EntryPtr) (pc : Z) (is_host_func : bool) (piece : HostCodePiece)
  | Invalidate (start end_ : Z)
  | GearShift (target range : Z)
  | Stop (pc : Z)
  | ForkChild.

Section Protocol.
Context {A P : Type} `{AddressMapOk A P} `{HostEntriesOk}.

Record System := mkSystem { cache : Cache A P; held : Held }.

Definition allowed (s : System) (act : Action) : Prop :=
  match act with
  | TryTranslate i pc threshold => valid_pc pc /\ 0 <= threshold < 2 ^ 32
  | TryGearUp i pc => True
  | FinishTranslation i p pc gsize k piece =>
      held s !! p = Some (i, pc, Translate) /\ 0 < gsize < 2 ^ 32 /\ finished_kind k
      /\ publishable (code piece)
  | ResetCounter i p pc => held s !! p = Some (i, pc, Translate)
  | TryWrap i pc => valid_pc pc
  | FinishWrapping i p pc is_host_func piece =>
      held s !! p = Some (i, pc, Wrap) /\ publishable (code piece)
  | Invalidate start end_ => True
  | GearShift target range => 0 <= range
  | Stop pc => valid_pc pc
  | ForkChild => True
  end.

(** An operation that may give its thread an entry. *)
Definition take (op : CM (option EntryPtr)) (i : nat) (pc : Z) (task : Task) (ev : Event) (s : System)
    : option (Event * System) :=
  match op (cache s) with
  | Some (Some p, c) => Some (ev, mkSystem c (<[p := (i, pc, task)]> (held s)))
  | Some (None, c) => Some (Other, mkSystem c (held s))
  | None => None
  end.
(** An operation after which the threads hold what [h] says. *)
Definition perform {R} (op : CM R) (h : Held) (ev : Event) (s : System) : option (Event * System) :=
  match op (cache s) with Some (_, c) => Some (ev, mkSystem c h) | None => None end.

Definition exec (act : Action) (s : System) : option (Event * System) :=
  match act with
  | TryTranslate i pc threshold =>
      take (AddAndLockForTranslation pc threshold) i pc Translate (Locked i pc) s
  | TryGearUp i pc => take (LockForGearUpTranslation pc) i pc Translate (Locked i pc) s
  | FinishTranslation i p pc gsize k piece =>
      perform (SetTranslatedAndUnlock pc p gsize k piece) (delete p (held s))
        (Published i pc gsize (code piece)) s
  | ResetCounter i p pc => perform (reset_counter p) (held s) Other s
  | TryWrap i pc => take (AddAndLockForWrapping pc) i pc Wrap Other s
  | FinishWrapping i p pc is_host_func piece =>
      perform (SetWrappedAndUnlock pc p is_host_func piece) (delete p (held s)) Other s
  | Invalidate start end_ => perform (InvalidateGuestRange start end_) (held s) (Invalidated start end_) s
  | GearShift target range => perform (TriggerGearShift target range) (held s) Other s
  | Stop pc => perform (SetStop pc) (held s) Other s
  | ForkChild => perform (FinishFork true) ∅ Other s
  end.

Inductive reachable : list Event -> System -> Prop :=
  | reach_initial a :
      am_ok a -> (forall pc, valid_pc pc -> am_cell a pc = kEntryNotTranslated) ->
      reachable [] (mkSystem (new_cache a) ∅)
  | reach_step tr s act ev s' :
      reachable tr s -> allowed s act -> exec act s = Some (ev, s') -> reachable (tr ++ [ev]) s'.

(** ** The invariant holds for ever *)

Definition sound_state (s : System) (tr : list Event) : Prop := good (cache s) (held s) tr.

Lemma take_sound op i pc task ev s tr :
  ends op (cache s) (fun r c' =>
    match r with
    | Some p => held s !! p = None /\ good c' (<[p := (i, pc, task)]> (held s)) (tr ++ [ev])
    | None => good c' (held s) tr
    end) ->
  exists ev' s', take op i pc task ev s = Some (ev', s') /\ sound_state s' (tr ++ [ev']).
Proof.
  intros ([p |] & c' & E & Hpost); unfold take; rewrite E; eexists _, _; (split; [done |]).
  - apply Hpost.
  - by apply inv_event.
Qed.

Lemma perform_sound {R} (op : CM R) h ev s tr (Q : R -> Cache A P -> Prop) :
  ends op (cache s) Q -> (forall r c', Q r c' -> good c' h (tr ++ [ev])) ->
  exists ev' s', perform op h ev s = Some (ev', s') /\ sound_state s' (tr ++ [ev']).
Proof.
  intros (r & c' & E & Hpost) HQ; unfold perform; rewrite E; eexists _, _; (split; [done |]); by eapply HQ.
Qed.

Lemma gear_shift_spec c (h : Held) tr target range :
  good c h tr -> 0 <= range -> ends (TriggerGearShift target range) c (fun _ c' => good c' h tr).
Proof.
  intros Hg Hr; unfold TriggerGearShift; apply ends_bind, ends_get.
  eapply ends_mono; [apply ends_gear_shift_loop; [done | apply NoDup_filter, keys_NoDup
    | apply sorted_filter, keys_sorted | done |] | by intros ? ? (? & _)].
  intros pc [_ Hin]%list_elem_of_filter; by apply elem_of_keys.
Qed.

Lemma ends_reset_counter c (h : Held) tr p :
  good c h tr -> is_Some (h !! p) -> ends (reset_counter p) c (fun _ c' => good c' h tr).
Proof.
  intros Hg Hp; destruct (inv_held _ _ _ _ Hg p Hp) as [[pc e] He].
  apply ends_bind; eapply ends_deref; [done |]; apply ends_upd; by apply inv_write.
Qed.

Lemma exec_sound s tr act :
  sound_state s tr -> allowed s act ->
  exists ev s', exec act s = Some (ev, s') /\ sound_state s' (tr ++ [ev]).
Proof.
  intros Hs Ha; destruct act as [i pc th | i pc | i p pc n k piece | i p pc | i pc | i p pc b piece | start end_
    | target range | pc |]; cbn in Ha |- *.
  - destruct Ha; apply take_sound; by eapply ends_AddAndLock.
  - apply take_sound; by eapply ends_GearUp.
  - destruct Ha as (? & ? & ? & ?); eapply perform_sound; [by eapply ends_SetTranslated | done].
  - eapply perform_sound; [by eapply (ends_reset_counter _ _ tr p) | intros; by apply inv_event].
  - apply take_sound; eapply ends_mono; [by eapply (ends_LockWrap _ _ tr i) |].
    intros [p |] c'; [intros [? ?]; split; [done | by apply inv_event] | done].
  - destruct Ha as (? & ?); eapply perform_sound; [by eapply ends_SetWrapped | intros; by apply inv_event].
  - eapply perform_sound; [by eapply ends_Invalidate | by intros ? ? (? & _)].
  - eapply perform_sound; [by eapply gear_shift_spec | intros; by apply inv_event].
  - eapply perform_sound; [by eapply ends_SetStop | intros; by apply inv_event].
  - eapply perform_sound; [by eapply ends_FinishFork | intros ? ? (? & _); by apply inv_event].
Qed.

Lemma reachable_sound tr s : reachable tr s -> sound_state s tr.
Proof.
  induction 1 as [a Ha Hd | tr s act ev s' _ IH Hal Hex].
  - split; cbn; try done; try (intros *; rewrite lookup_empty).
    + split; [done | by intros [e He]].
    + by intros [].
    + intros Hpc _; left; by apply Hd.
  - destruct (exec_sound s tr act IH Hal) as (ev1 & s1 & E & Hs); congruence.
Qed.

(** C3: no thread is ever stuck.  Whatever the other threads have done, an action
    the protocol allows runs to its end: no check fails and no pointer to an
    erased entry is used.  A thread that was given an entry still has the entry
    of its address, and nobody else has one of the same address. *)
Theorem cache_never_stuck tr s :
  reachable tr s ->
  (forall act, allowed s act -> is_Some (exec act s))
  /\ (forall p i pc task, held s !! p = Some (i, pc, task) ->
       guest_entries_ (cache s) !! pc = Some p
       /\ forall q j task', held s !! q = Some (j, pc, task') -> q = p /\ j = i).
Proof.
  intros Hs%reachable_sound; split.
  - intros act Ha; destruct (exec_sound s tr act Hs Ha) as (ev & s' & -> & _); eauto.
  - assert (forall p i pc task, held s !! p = Some (i, pc, task) -> guest_entries_ (cache s) !! pc = Some p) as Hown.
    { intros p i pc task Hp; destruct (inv_held _ _ _ _ Hs p) as [[pc' e] He]; [eauto |].
      destruct (inv_node _ _ _ _ Hs _ _ _ He) as [_ _ _ Hst]; rewrite Hp in Hst.
      apply (inv_index _ _ _ _ Hs); exists e; destruct task; destruct Hst as (<- & _); done. }
    intros p i pc task Hp; split; [by eapply Hown |]; intros q j task' Hq.
    pose proof (Hown _ _ _ _ Hp); pose proof (Hown _ _ _ _ Hq); assert (q = p) as -> by congruence.
    split; congruence.
Qed.

(** A cell that holds host code. *)
Lemma sound_cell s tr pc :
  sound_state s tr -> valid_pc pc -> publishable (cell (cache s) pc) ->
  exists p e, guest_entries_ (cache s) !! pc = Some p /\ nodes (cache s) !! p = Some (pc, e)
  /\ (wrapped (kind e) \/ fresh_code tr pc (guest_size e) (cell (cache s) pc)).
Proof.
  intros Hs Hpc Hv; pose proof (proj1 (publishable_spec _) Hv) as Hv'.
  destruct (guest_entries_ (cache s) !! pc) as [p |] eqn:Ep.
  - destruct (lookup_entry _ _ _ _ _ _ Hs Ep) as [e He]; exists p, e; split_and!; [done | done |].
    destruct (inv_node _ _ _ _ Hs _ _ _ He) as [_ _ _ Hst]; fold (cell (cache s) pc) in Hst.
    destruct (held s !! p) as [[[i pc'] []] |]; cbn in Hst; [exfalso; intuition congruence.. | intuition congruence].
  - exfalso; destruct (inv_absent _ _ _ _ Hs pc Hpc Ep) as [E | E]; unfold cell in *; intuition congruence.
Qed.

(** C2: the code that is executed is never stale.  When the cell of a guest
    address holds host code, the address is wrapped, or a thread has published
    that code for it: the thread locked the address, nothing at all was
    invalidated until it published, and since then no byte of the guest code it
    covers was. *)
Theorem translated_code_fresh tr s pc :
  reachable tr s -> valid_pc pc -> publishable (cell (cache s) pc) ->
  exists p e, guest_entries_ (cache s) !! pc = Some p /\ nodes (cache s) !! p = Some (pc, e)
  /\ (wrapped (kind e) \/ fresh_code tr pc (guest_size e) (cell (cache s) pc)).
Proof. intros Hs%reachable_sound; by apply sound_cell. Qed.

End Protocol.
Arguments System A P : clear implicits.

(** ** An execution, on the two-level table *)

#[local] Instance example_entries : HostEntries := {|
  kEntryInterpret := 1;
  kEntryExitGeneratedCode := 2;
  kEntryStop := 3;
  kEntryNoExec := 4;
  kEntryNotTranslated := 5;
  kEntryTranslating := 6;
  kEntryInvalidating := 7;
  kEntryWrapping := 8
|}.
#[local] Instance example_entries_ok : HostEntriesOk.
Proof. unfold HostEntriesOk; apply (bool_decide_unpack _); vm_compute; exact I. Qed.

Definition run_actions (acts : list Action) (s : System TableOfTables CellPtr)
    : option (list Event * System TableOfTables CellPtr) :=
  foldl (fun r act =>
    '(tr, s) ← r; '(ev, s') ← exec act s; Some (tr ++ [ev], s')) (Some ([], s)) acts.

(** The address 4096 is locked, translated and published; then the address 8192
    is locked. *)
Definition example_start : System TableOfTables CellPtr := mkSystem (new_cache (new_TableOfTables 5)) ∅.
Definition after_action (act : Action) (s : System TableOfTables CellPtr) : System TableOfTables CellPtr :=
  match exec act s with Some (_, s') => s' | None => s end.
Definition example_locked : System TableOfTables CellPtr :=
  Eval vm_compute in after_action (TryTranslate 0 4096 0) example_start.
Definition publish_example : Action :=
  FinishTranslation 0 0 4096 16 Kind.kLiteTranslated (mkHostCodePiece 1000 64).
Definition example_published : System TableOfTables CellPtr :=
  Eval vm_compute in after_action publish_example example_locked.
Definition example_state : System TableOfTables CellPtr :=
  Eval vm_compute in after_action (TryTranslate 1 8192 0) example_published.
Definition example_trace : list Event := [Locked 0 4096; Published 0 4096 16 1000; Locked 1 8192].

Lemma example_initial_reachable : reachable [] example_start.
Proof.
  apply reach_initial; [split; intros *; cbn; by rewrite lookup_empty |].
  intros pc Hpc; cbn; unfold Get; cbn; by rewrite lookup_empty.
Qed.

Lemma publishable_1000 : publishable 1000.
Proof. rewrite publishable_spec; cbn; lia. Qed.

Lemma example_reachable : reachable example_trace example_state.
Proof.
  assert (reachable [Locked 0 4096] example_locked) as R1.
  { apply (reach_step [] example_start (TryTranslate 0 4096 0)); [apply example_initial_reachable | |].
    - split; [split |]; lia.
    - vm_compute; reflexivity. }
  assert (reachable [Locked 0 4096; Published 0 4096 16 1000] example_published) as R2.
  { apply (reach_step [Locked 0 4096] example_locked publish_example); [exact R1 | |].
    - split; [reflexivity | split; [lia | split; [done | apply publishable_1000]]].
    - vm_compute; reflexivity. }
  apply (reach_step [Locked 0 4096; Published 0 4096 16 1000] example_published (TryTranslate 1 8192 0));
    [exact R2 | split; [split |]; lia | vm_compute; reflexivity].
Qed.

Lemma example_cell : cell (cache example_state) 4096 = 1000.
Proof. vm_compute; reflexivity. Qed.

Lemma cache_never_stuck_witness :
  is_Some (exec (FinishTranslation 1 1 8192 4 Kind.kHeavyOptimized (mkHostCodePiece 1000 8)) example_state).
Proof.
  apply (cache_never_stuck example_trace example_state example_reachable); split; [reflexivity |].
  split; [lia |]; split; [split; [discriminate | split; discriminate] | apply publishable_1000].
Defined.

Lemma translated_code_fresh_witness :
  exists p e, nodes (cache example_state) !! p = Some (4096, e)
  /\ (wrapped (kind e) \/ fresh_code example_trace 4096 (guest_size e) 1000).
Proof.
  destruct (translated_code_fresh example_trace example_state 4096 example_reachable) as (p & e & _ & Hp & Hf);
    [split; lia | rewrite example_cell; apply publishable_1000 |].
  exists p, e; rewrite example_cell in Hf; split; [exact Hp | exact Hf].
Defined.


(** ** Two limits of the protocol *)

(** Guest addresses with tags in their high bits share a cell with the untagged
    address, but not its entry: while one thread translates an address, another
    is given an entry for the same address with a tag, and the first of them to
    publish makes the second one fail its check. *)
Lemma tagged_addresses_collide :
  run_actions [TryTranslate 0 4096 0; TryTranslate 1 (4096 + 2 ^ 48) 0;
               FinishTranslation 0 0 4096 16 Kind.kLiteTranslated (mkHostCodePiece 1000 64)] example_start
  <> None
  /\ run_actions [TryTranslate 0 4096 0; TryTranslate 1 (4096 + 2 ^ 48) 0;
               FinishTranslation 0 0 4096 16 Kind.kLiteTranslated (mkHostCodePiece 1000 64);
               FinishTranslation 1 1 (4096 + 2 ^ 48) 16 Kind.kLiteTranslated (mkHostCodePiece 2000 64)]
       example_start = None.
Proof. split; [vm_compute; discriminate | vm_compute; reflexivity]. Qed.

(** An entry that only counts interpretations is reported like translated code:
    nothing was ever translated or wrapped here, and the result is [true]. *)
Lemma invalidation_reports_untranslated :
  exists tr s c', run_actions [TryTranslate 0 4096 1] example_start = Some (tr, s) /\ tr = [Other]
  /\ InvalidateGuestRange 4096 4100 (cache s) = Some (true, c').
Proof. eexists _, _, _; split; [vm_compute; reflexivity | split; [| vm_compute]; reflexivity]. Qed.
