(* ===== verification/GuestMapShadow.v ===== *)
(** * Executable guest memory

    guest_os_primitives/guest_map_shadow.h and .cc: which pages of the guest
    address space are executable, one bit for each page; and the memory calls
    of kernel_api/sys_mman_emulation.cc that keep it up to date.

    The page size is a configuration constant: its logarithm is a parameter.  The calls of
    [InvalidateGuestRange], which go to the translation cache, are recorded in
    the state in the order they are made. *)
From stdpp Require Import gmap.
From S2P Require Import Prelude MachineInt BitUtil Effects.
#[local] Open Scope Z_scope.

Inductive BitValue := kBitUnset | kBitSet | kBitMixed.

Record GuestMapShadow := mkGuestMapShadow {
  shadow_ : gmap Z Z;
  protected_maps_ : list (Z * Z);
  invalidations : list (Z * Z)
}.

(** A 64-bit guest has 48-bit addresses. *)
Definition kMaxGuestAddress : Z := 0xffffffffffff.

Definition new_shadow : GuestMapShadow := mkGuestMapShadow ∅ [] [].
(** A byte of the map that was never written is zero. *)
Definition shadow_byte (s : GuestMapShadow) (i : Z) : Z := default 0 (shadow_ s !! i).
Definition set_shadow_byte (i v : Z) (s : GuestMapShadow) : GuestMapShadow :=
  mkGuestMapShadow (<[i := v]> (shadow_ s)) (protected_maps_ s) (invalidations s).

Definition DoIntervalsIntersect (start end_ other_start other_end : Z) : bool :=
  negb ((other_end <=? start) || (end_ <=? other_start)).

Definition ShadowM : Type -> Type := SM GuestMapShadow.

Definition InvalidateGuestRange (start end_ : Z) : ShadowM unit :=
  upd_st (fun s => mkGuestMapShadow (shadow_ s) (protected_maps_ s) (invalidations s ++ [(start, end_)])).

Section Shadow.
Context (kGuestPageSizeLog2 : Z).
Definition kGuestPageSize : Z := 2 ^ kGuestPageSizeLog2.

Definition AlignDownGuestPageSize (addr : Z) : Z := AlignDown u64 addr kGuestPageSize.
Definition AlignUpGuestPageSize (addr : Z) : Z := AlignUp u64 addr kGuestPageSize.

(** ** One page *)
Definition IsExecAddr (addr : Z) (s : GuestMapShadow) : bool :=
  if kMaxGuestAddress <? addr then false
  else
    let page := Z.shiftr addr kGuestPageSizeLog2 in
    negb (Z.land (shadow_byte s (Z.shiftr page 3)) (Z.shiftl 1 (Z.land page 7)) =? 0).

Definition SetExecAddr (addr : Z) (set : bool) : ShadowM bool :=
  if kMaxGuestAddress <? addr then mret false
  else
    let page := Z.shiftr addr kGuestPageSizeLog2 in
    let mask := cast u8 (Z.shiftl 1 (Z.land page 7)) in
    byte ← get_st (fun s => shadow_byte s (Z.shiftr page 3));
    let old := Z.land byte mask in
    if set then
      _ ← upd_st (set_shadow_byte (Z.shiftr page 3) (Z.lor byte mask));
      mret (old =? 0)
    else
      _ ← upd_st (set_shadow_byte (Z.shiftr page 3) (Z.land byte (cast u8 (Z.lnot mask))));
      mret (negb (old =? 0)).

(** ** Loops over pages

    The fuel is the number of pages between the two addresses and one more. *)
Definition page_fuel (pc end_ : Z) : nat := Z.to_nat ((end_ - pc) / kGuestPageSize + 1).

(** The loop of [SetExecutable] and [ClearExecutable]: whether a page changed. *)
Fixpoint exec_loop (fuel : nat) (pc end_ : Z) (set changed : bool) : ShadowM bool :=
  if pc <? end_ then
    match fuel with
    | O => fun _ => None
    | S fuel =>
        c ← SetExecAddr pc set;
        exec_loop fuel (cast u64 (pc + kGuestPageSize)) end_ set (changed || c)
    end
  else mret changed.

Definition SetExecutable (start size : Z) : ShadowM unit :=
  let end_ := AlignUpGuestPageSize (cast u64 (start + size)) in
  let pc := AlignDownGuestPageSize start in
  _ ← exec_loop (page_fuel pc end_) pc end_ true false; mret tt.

Definition ClearExecutable (start size : Z) : ShadowM unit :=
  let end_ := AlignUpGuestPageSize (cast u64 (start + size)) in
  let pc := AlignDownGuestPageSize start in
  changed ← exec_loop (page_fuel pc end_) pc end_ false false;
  if changed : bool then InvalidateGuestRange start end_ else mret tt.

(** The first page at or after [pc] that differs, or [scan_end_pc]. *)
Fixpoint scan_loop (fuel : nat) (is_exec : bool) (pc scan_end_pc : Z) (s : GuestMapShadow) : option Z :=
  if pc <? scan_end_pc then
    match fuel with
    | O => None
    | S fuel =>
        if negb (eqb is_exec (IsExecAddr pc s)) then Some pc
        else scan_loop fuel is_exec (cast u64 (pc + kGuestPageSize)) scan_end_pc s
    end
  else Some pc.

Definition GetExecutableRegionSize (start scan_size : Z) : ShadowM (bool * Z) := fun s =>
  let pc := AlignDownGuestPageSize start in
  let scan_end_pc := AlignUpGuestPageSize (cast u64 (start + scan_size)) in
  let is_exec := IsExecAddr pc s in
  match scan_loop (page_fuel pc scan_end_pc) is_exec (cast u64 (pc + kGuestPageSize)) scan_end_pc s with
  | Some pc => Some ((is_exec, cast u64 (pc - start)), s)
  | None => None
  end.

Definition GetExecutable (start scan_size : Z) : ShadowM BitValue :=
  '(is_exec, region_size) ← GetExecutableRegionSize start scan_size;
  mret (if region_size <? scan_size then kBitMixed else if is_exec : bool then kBitSet else kBitUnset).

Definition IsExecutable (start size : Z) : ShadowM bool :=
  v ← GetExecutable start size; mret (match v with kBitSet => true | _ => false end).

(** ** Moving mappings *)
Definition CopyExecutable (from from_size to to_size : Z) : ShadowM unit :=
  _ ← check (from =? AlignDownGuestPageSize from);
  _ ← check (to =? AlignDownGuestPageSize to);
  _ ← check ((cast u64 (from + from_size) <=? to) || (cast u64 (to + to_size) <=? from));
  b ← IsExecutable from from_size;
  if b : bool then SetExecutable to to_size else ClearExecutable to to_size.

Definition RemapExecutable (old_start old_size new_start new_size : Z) : ShadowM unit :=
  _ ← check (old_start =? AlignDownGuestPageSize old_start);
  _ ← check (new_start =? AlignDownGuestPageSize new_start);
  let old_end_page := AlignUpGuestPageSize (cast u64 (old_start + old_size)) in
  let new_end_page := AlignUpGuestPageSize (cast u64 (new_start + new_size)) in
  if old_start =? new_start then
    if new_end_page <=? old_end_page
    then ClearExecutable new_end_page (cast u64 (old_end_page - new_end_page))
    else CopyExecutable old_start old_size old_end_page (cast u64 (new_end_page - old_end_page))
  else
    _ ← check ((cast u64 (old_start + old_size) <=? new_start) || (cast u64 (new_start + new_size) <=? old_start));
    _ ← CopyExecutable old_start (if old_size <? new_size then old_size else new_size) new_start new_size;
    ClearExecutable old_start old_size.

(** ** Protected mappings *)
Definition AddProtectedMapping (start end_ : Z) : ShadowM unit :=
  upd_st (fun s => mkGuestMapShadow (shadow_ s) (protected_maps_ s ++ [(start, end_)]) (invalidations s)).
Definition IntersectsWithProtectedMapping (start end_ : Z) : ShadowM bool :=
  get_st (fun s => existsb (fun r => DoIntervalsIntersect r.1 r.2 start end_) (protected_maps_ s)).

(** ** Memory calls of the guest

    The host's own calls are parameters: the result of [mprotect] and [munmap],
    and the address [mmap] or [mremap] returned, [None] for a failure. *)
Definition PROT_EXEC : Z := 4.
Definition PROT_READ : Z := 1.
Definition MREMAP_FIXED : Z := 2.

Definition ToHostProt (guest_prot : Z) : Z :=
  if negb (Z.land guest_prot PROT_EXEC =? 0)
  then Z.lor (Z.land guest_prot (Z.lnot PROT_EXEC)) PROT_READ else guest_prot.

Definition UpdateGuestProt (guest_prot addr length : Z) : ShadowM unit :=
  if negb (Z.land guest_prot PROT_EXEC =? 0) then SetExecutable addr length else ClearExecutable addr length.

Definition MmapForGuest (mmap64 : Z -> option Z) (length prot : Z) : ShadowM (option Z) :=
  match mmap64 (ToHostProt prot) with
  | Some result => _ ← UpdateGuestProt prot result length; mret (Some result)
  | None => mret None
  end.
Definition MunmapForGuest (munmap : Z) (addr length : Z) : ShadowM Z :=
  _ ← ClearExecutable addr length; mret munmap.
Definition MprotectForGuest (mprotect : Z -> Z) (addr length prot : Z) : ShadowM Z :=
  b ← IntersectsWithProtectedMapping addr (cast u64 (addr + length));
  if b : bool then mret (-1) else _ ← UpdateGuestProt prot addr length; mret (mprotect (ToHostProt prot)).
Definition MremapForGuest (mremap : option Z) (old_addr old_size new_size flags : Z) : ShadowM (option Z) :=
  refused ← (if new_size <=? old_size then
               if negb (Z.land flags MREMAP_FIXED =? 0) then
                 v ← GetExecutable old_addr new_size; mret (match v with kBitMixed => true | _ => false end)
               else mret false
             else v ← GetExecutable old_addr old_size; mret (match v with kBitMixed => true | _ => false end));
  if refused : bool then mret None
  else
    match mremap with
    | Some result => _ ← RemapExecutable old_addr old_size result new_size; mret (Some result)
    | None => mret None
    end.
End Shadow.

(** ** Correctness *)
Section Correctness.
Context (k : Z) (Hk : 0 <= k <= 16).
Implicit Types (s : GuestMapShadow) (a addr : Z).
#[local] Abbreviation size_of_page := (kGuestPageSize k).
#[local] Abbreviation exec := (IsExecAddr k).

Lemma page_pos : 0 < size_of_page <= 2 ^ 16.
Proof using Hk. unfold kGuestPageSize; split; [apply pow2_pos; lia | apply Z.pow_le_mono_r; lia]. Qed.

(** A single bit of a byte. *)
Lemma test_mask b i : 0 <= i -> negb (Z.land b (Z.shiftl 1 i) =? 0) = Z.testbit b i.
Proof.
  intros Hi; rewrite Z.shiftl_1_l; destruct (Z.testbit b i) eqn:E.
  - destruct (Z.eqb_spec (Z.land b (2 ^ i)) 0) as [E0 | ?]; [exfalso | done].
    assert (Z.testbit (Z.land b (2 ^ i)) i = true) as Ht
      by (by rewrite Z.land_spec, E, Z.pow2_bits_true).
    by rewrite E0, Z.bits_0 in Ht.
  - rewrite (proj2 (Z.eqb_eq (Z.land b (2 ^ i)) 0)); [done |]; apply Z.bits_inj_0; intros j.
    rewrite Z.land_spec, Z.pow2_bits_eqb by done; destruct (Z.eqb_spec i j) as [-> |]; [by rewrite E | apply andb_false_r].
Qed.

Lemma mask_u8 i : 0 <= i < 8 -> cast u8 (Z.shiftl 1 i) = Z.shiftl 1 i.
Proof.
  intros Hi; rewrite Z.shiftl_1_l; apply cast_id; [done |]; rewrite in_range_unsigned by done.
  split; [apply Z.pow_nonneg; lia | apply Z.pow_lt_mono_r; cbn; lia].
Qed.

Lemma not_mask_testbit i j :
  0 <= i < 8 -> 0 <= j < 8 -> Z.testbit (cast u8 (Z.lnot (Z.shiftl 1 i))) j = negb (i =? j).
Proof.
  intros Hi Hj; rewrite testbit_cast_low by (cbn; lia).
  rewrite Z.lnot_spec, Z.shiftl_1_l, Z.pow2_bits_eqb by lia; done.
Qed.

(** The page of an address, its byte and its bit. *)
Definition page_of addr : Z := addr / size_of_page.
Lemma shiftr_page addr : Z.shiftr addr k = page_of addr.
Proof using Hk. apply Z.shiftr_div_pow2; lia. Qed.
Lemma page_byte_bit p : Z.shiftr p 3 = p / 8 /\ Z.land p 7 = p mod 8.
Proof. split; [by rewrite Z.shiftr_div_pow2 | exact (Z.land_ones p 3 ltac:(lia))]. Qed.

Lemma exec_testbit addr s :
  0 <= addr <= kMaxGuestAddress ->
  exec addr s = Z.testbit (shadow_byte s (page_of addr / 8)) (page_of addr mod 8).
Proof using Hk.
  intros Ha; unfold IsExecAddr; rewrite (proj2 (Z.ltb_ge _ _)) by lia.
  cbn zeta; rewrite shiftr_page; destruct (page_byte_bit (page_of addr)) as [-> ->].
  apply test_mask; apply Z.mod_pos_bound; lia.
Qed.

Lemma exec_out_of_range addr s : kMaxGuestAddress < addr -> exec addr s = false.
Proof. intros; unfold IsExecAddr; by rewrite (proj2 (Z.ltb_lt _ _)). Qed.

(** Two addresses that differ in their page differ in byte or bit. *)
Lemma page_split p q : p / 8 = q / 8 -> p mod 8 = q mod 8 -> p = q.
Proof. intros; zdivmod. Qed.

Definition same_page addr a : bool := page_of addr =? page_of a.

(** [SetExecAddr] sets the bit of one page and tells whether it changed. *)
Lemma ends_SetExecAddr addr set s :
  0 <= addr -> ends (SetExecAddr k addr set) s (fun changed s' =>
    (forall a, 0 <= a -> exec a s' = if same_page addr a && (addr <=? kMaxGuestAddress) && (a <=? kMaxGuestAddress)
                                     then set else exec a s)
    /\ changed = (addr <=? kMaxGuestAddress) && xorb set (exec addr s)
    /\ protected_maps_ s' = protected_maps_ s /\ invalidations s' = invalidations s).
Proof using Hk.
  intros Ha; unfold SetExecAddr; destruct (Z.ltb_spec kMaxGuestAddress addr) as [Hgt | Hle].
  { apply ends_ret; rewrite (proj2 (Z.leb_gt addr _)) by done; split_and!; try done.
    intros a _; by rewrite andb_false_r. }
  cbn zeta; rewrite shiftr_page; destruct (page_byte_bit (page_of addr)) as [-> ->].
  pose proof (Z.mod_pos_bound (page_of addr) 8 ltac:(lia)) as Hi.
  rewrite (mask_u8 _ Hi); apply ends_bind, ends_get.
  set (i := page_of addr mod 8) in *; set (b := shadow_byte s (page_of addr / 8)).
  rewrite (proj2 (Z.leb_le addr _) Hle).
  assert (forall v, (forall j, 0 <= j < 8 -> Z.testbit v j = if i =? j then set else Z.testbit b j) ->
    forall a, 0 <= a -> exec a (set_shadow_byte (page_of addr / 8) v s)
      = if same_page addr a && (a <=? kMaxGuestAddress) then set else exec a s) as Hset.
  { intros v Hv a Ha0; destruct (Z.leb_spec a kMaxGuestAddress) as [Hal | Hag].
    2:{ rewrite andb_false_r, !exec_out_of_range by done; done. }
    rewrite andb_true_r, !exec_testbit by lia; unfold shadow_byte, set_shadow_byte, same_page; cbn.
    pose proof (Z.mod_pos_bound (page_of a) 8 ltac:(lia)).
    destruct (decide (page_of addr / 8 = page_of a / 8)) as [E | E].
    - rewrite E, lookup_insert_eq; cbn; rewrite Hv by done.
      destruct (Z.eqb_spec i (page_of a mod 8)) as [Ei | Ei].
      + by rewrite (proj2 (Z.eqb_eq _ _) (page_split _ _ E Ei)).
      + rewrite (proj2 (Z.eqb_neq (page_of addr) (page_of a))) by (intros Ep; apply Ei; unfold i; by rewrite Ep).
        unfold b, shadow_byte; by rewrite E.
    - rewrite lookup_insert_ne by done.
      by rewrite (proj2 (Z.eqb_neq (page_of addr) (page_of a))) by (intros Ep; apply E; by rewrite Ep). }
  assert (exec addr s = negb (Z.land b (Z.shiftl 1 i) =? 0)) as Hold.
  { rewrite exec_testbit by lia; symmetry; apply test_mask; lia. }
  destruct set; apply ends_bind, ends_upd, ends_ret; split_and!; try done.
  - intros a Ha0; rewrite (Hset (Z.lor b (Z.shiftl 1 i))); [by rewrite andb_true_r | | done].
    intros j Hj; rewrite Z.lor_spec, Z.shiftl_1_l, Z.pow2_bits_eqb by lia.
    destruct (i =? j); [apply orb_true_r | apply orb_false_r].
  - rewrite Hold; by rewrite negb_involutive.
  - intros a Ha0; rewrite (Hset (Z.land b (cast u8 (Z.lnot (Z.shiftl 1 i))))); [by rewrite andb_true_r | | done].
    intros j Hj; rewrite Z.land_spec, not_mask_testbit by lia.
    destruct (i =? j); [apply andb_false_r | apply andb_true_r].
Qed.

(** ** Ranges of pages *)

Definition aligned a : Prop := a mod size_of_page = 0.

Lemma aligned_max : aligned (kMaxGuestAddress + 1).
Proof using Hk.
  unfold aligned, kGuestPageSize; change (kMaxGuestAddress + 1) with (2 ^ 48).
  replace 48 with (48 - k + k) by lia; rewrite Z.pow_add_r by lia; apply Z.mod_mul, Z.pow_nonzero; lia.
Qed.

Lemma aligned_next pc : aligned pc -> aligned (pc + size_of_page).
Proof using Hk.
  unfold aligned; pose proof page_pos; intros Hp.
  by rewrite <- Zplus_mod_idemp_r, Z.mod_same, Z.add_0_r by lia.
Qed.

(** An aligned address starts its page. *)
Lemma same_page_range pc a :
  aligned pc -> same_page pc a = true <-> pc <= a < pc + size_of_page.
Proof using Hk.
  unfold aligned, same_page, page_of; pose proof page_pos; intros Hp; rewrite Z.eqb_eq.
  pose proof (Z.div_mod pc size_of_page ltac:(lia)); pose proof (Z.div_mod a size_of_page ltac:(lia)).
  pose proof (Z.mod_pos_bound a size_of_page ltac:(lia)).
  split; intros E; [rewrite E in *; lia |].
  apply (Z.div_unique a size_of_page (pc / size_of_page) (a - pc)); lia.
Qed.

Lemma aligned_lt pc end_ : aligned pc -> aligned end_ -> pc < end_ -> pc + size_of_page <= end_.
Proof using Hk.
  unfold aligned; pose proof page_pos; intros Hp He Hlt.
  pose proof (Z.div_mod pc size_of_page ltac:(lia)); pose proof (Z.div_mod end_ size_of_page ltac:(lia)).
  assert (pc / size_of_page < end_ / size_of_page) by (apply (Z.mul_lt_mono_pos_l size_of_page); lia).
  assert (size_of_page * (pc / size_of_page + 1) <= size_of_page * (end_ / size_of_page))
    by (apply Z.mul_le_mono_nonneg_l; lia).
  lia.
Qed.

Lemma page_fuel_step pc end_ :
  aligned pc -> aligned end_ -> pc < end_ ->
  page_fuel k pc end_ = S (page_fuel k (pc + size_of_page) end_).
Proof using Hk.
  intros Hp He Hlt; pose proof page_pos; pose proof (aligned_lt _ _ Hp He Hlt); unfold page_fuel.
  replace (end_ - pc) with (end_ - (pc + size_of_page) + 1 * size_of_page) by lia.
  rewrite Z.div_add by lia; pose proof (Z.div_pos (end_ - (pc + size_of_page)) size_of_page ltac:(lia) ltac:(lia)).
  lia.
Qed.

Lemma aligned_le a b : aligned a -> aligned b -> a < b + size_of_page -> a <= b.
Proof using Hk.
  intros Ha Hb Hlt; destruct (Z.le_gt_cases a b) as [? | Hgt]; [done |].
  pose proof (aligned_lt b a Hb Ha Hgt); lia.
Qed.

Lemma next_no_wrap pc end_ :
  aligned pc -> aligned end_ -> 0 <= pc < end_ -> end_ < 2 ^ 64 ->
  cast u64 (pc + size_of_page) = pc + size_of_page.
Proof using Hk.
  intros Hp He Hlt Hm; pose proof (aligned_lt _ _ Hp He ltac:(lia)); pose proof page_pos.
  apply cast_id; [done |]; rewrite in_range_unsigned by done; change (width u64) with 64; lia.
Qed.

Definition in_pages pc end_ a : bool := (pc <=? a) && (a <? end_) && (a <=? kMaxGuestAddress).

Lemma exec_same_page pc a s :
  0 <= pc <= kMaxGuestAddress -> 0 <= a <= kMaxGuestAddress -> same_page pc a = true -> exec pc s = exec a s.
Proof using Hk. intros ? ? E%Z.eqb_eq; rewrite !exec_testbit by done; by rewrite E. Qed.

(** The loop sets the pages of the range, and tells whether one changed. *)
Lemma ends_exec_loop fuel pc end_ set changed s :
  aligned pc -> aligned end_ -> 0 <= pc -> end_ < 2 ^ 64 -> fuel = page_fuel k pc end_ ->
  ends (exec_loop k fuel pc end_ set changed) s (fun changed' s' =>
    (forall a, 0 <= a -> exec a s' = if in_pages pc end_ a then set else exec a s)
    /\ (changed' = true <-> changed = true \/ exists a, in_pages pc end_ a = true /\ exec a s <> set)
    /\ protected_maps_ s' = protected_maps_ s /\ invalidations s' = invalidations s).
Proof using Hk.
  revert pc changed s; induction fuel as [| fuel IH]; intros pc changed s Hp He Hpc Hend Hfuel; cbn [exec_loop].
  all: destruct (Z.ltb_spec pc end_) as [Hlt | Hge].
  1: rewrite page_fuel_step in Hfuel by done; discriminate.
  2: rewrite page_fuel_step in Hfuel by done; injection Hfuel as Hfuel.
  1, 3: apply ends_ret; split_and!; try done;
    [intros a _; unfold in_pages | split; [by left | intros [? | (a & Ha & _)]; [done | unfold in_pages in Ha; lia]]];
    destruct (Z.leb_spec pc a), (Z.ltb_spec a end_); try done; lia.
  apply ends_bind; eapply ends_mono; [by apply ends_SetExecAddr |].
  intros c s1 (Hset & -> & Hprot & Hinv); rewrite (next_no_wrap pc end_) by (done || lia).
  eapply ends_mono; [apply IH; [by apply aligned_next | done | pose proof page_pos; lia | done | done] |].
  pose proof (aligned_lt _ _ Hp He Hlt) as Hnext; pose proof page_pos as Hpp.
  intros c' s' (Hset' & Hc' & Hprot' & Hinv'); split_and!; [| | congruence | congruence].
  - intros a Ha; rewrite Hset', Hset by done; pose proof (same_page_range pc a Hp) as Hsp.
    destruct (same_page pc a), (in_pages (pc + size_of_page) end_ a) eqn:E1, (in_pages pc end_ a) eqn:E2;
      unfold in_pages in E1, E2; try done; try (exfalso; lia).
    + by rewrite (proj2 (Z.leb_le pc _)), (proj2 (Z.leb_le a _)) by lia.
    + cbn; destruct (Z.leb_spec pc kMaxGuestAddress), (Z.leb_spec a kMaxGuestAddress); try done; lia.
  - rewrite Hc'; split.
    + intros [[? | Hx]%orb_true_iff | (a & Ha & Hne)]; [by left | right; exists pc | right; exists a].
      * apply andb_true_iff in Hx as [Hx1 Hx2]; unfold in_pages; split; [lia |].
        intros E; by rewrite E, xorb_nilpotent in Hx2.
      * unfold in_pages in *; split; [lia |]; rewrite Hset in Hne by lia.
        pose proof (same_page_range pc a Hp); destruct (same_page pc a); [exfalso; lia | done].
    + intros [-> | (a & Ha & Hne)]; [by left |]; unfold in_pages in Ha.
      destruct (Z.le_gt_cases (pc + size_of_page) a) as [Hn | Hn].
      * right; exists a; unfold in_pages; split; [lia |]; rewrite Hset by lia.
        pose proof (same_page_range pc a Hp); destruct (same_page pc a); [exfalso; lia | done].
      * left; rewrite (exec_same_page pc a) by (done || lia || (apply same_page_range; [done | lia])).
        rewrite (proj2 (Z.leb_le pc _)) by lia; destruct set, (exec a s), changed; done.
Qed.

(** All addresses of a page agree. *)
Lemma exec_page pc a s : aligned pc -> 0 <= pc -> pc <= a < pc + size_of_page -> exec a s = exec pc s.
Proof using Hk.
  intros Hp Hpc Ha; pose proof page_pos; destruct (Z.le_gt_cases pc kMaxGuestAddress) as [Hle | Hgt].
  - assert (a <= kMaxGuestAddress).
    { pose proof (aligned_le pc kMaxGuestAddress) as Hal.
      pose proof (aligned_lt pc (kMaxGuestAddress + 1) Hp aligned_max ltac:(lia)); lia. }
    symmetry; apply exec_same_page; [lia | lia | by apply same_page_range].
  - by rewrite !exec_out_of_range by lia.
Qed.

(** The scan stops at the first page that differs, or at the end. *)
Lemma scan_loop_spec fuel b pc end_ s :
  aligned pc -> aligned end_ -> 0 <= pc -> end_ < 2 ^ 64 -> (page_fuel k pc end_ <= fuel)%nat ->
  exists r, scan_loop k fuel b pc end_ s = Some r /\ aligned r /\ pc <= r <= Z.max pc end_
  /\ (forall a, pc <= a < r -> exec a s = b) /\ (r < end_ -> exec r s <> b).
Proof using Hk.
  revert pc; induction fuel as [| fuel IH]; intros pc Hp He Hpc Hend Hfuel; cbn [scan_loop].
  all: destruct (Z.ltb_spec pc end_) as [Hlt | Hge].
  1: rewrite page_fuel_step in Hfuel by done; lia.
  1, 3: exists pc; split_and!; try done; lia.
  rewrite page_fuel_step in Hfuel by done.
  destruct (eqb b (exec pc s)) eqn:E; cbn [negb].
  - rewrite (next_no_wrap pc end_) by (done || lia); apply eqb_prop in E.
    pose proof (aligned_lt _ _ Hp He Hlt); pose proof page_pos.
    destruct (IH (pc + size_of_page)) as (r & Hr & Har & Hrr & Hall & Hdiff);
      [by apply aligned_next | done | lia | done | lia |].
    exists r; split_and!; try done; try lia.
    intros a Ha; destruct (Z.le_gt_cases (pc + size_of_page) a); [apply Hall; lia |].
    rewrite (exec_page pc a) by (done || lia); done.
  - exists pc; split_and!; try done; try lia; intros _ E'; by rewrite E', eqb_reflx in E.
Qed.

(** ** Rounding *)
Definition page_floor a : Z := AlignDownGuestPageSize k a.
Definition page_ceil a : Z := AlignUpGuestPageSize k a.

Lemma page_floor_spec a :
  0 <= a < 2 ^ 64 -> aligned (page_floor a) /\ 0 <= page_floor a <= a /\ a < page_floor a + size_of_page.
Proof using Hk.
  intros Ha; unfold page_floor, AlignDownGuestPageSize, aligned, kGuestPageSize.
  rewrite AlignDown_floor by (done || lia || (rewrite in_range_unsigned by done; cbn; lia)).
  pose proof page_pos as Hpp; unfold kGuestPageSize in Hpp.
  pose proof (Z.mod_pos_bound a (2 ^ k) ltac:(lia)); pose proof (Z.mod_le a (2 ^ k) ltac:(lia) ltac:(lia)).
  split_and!; [| lia | lia | lia].
  rewrite Zminus_mod_idemp_r, Z.sub_diag; done.
Qed.

Lemma page_ceil_spec a :
  0 <= a -> a + size_of_page <= 2 ^ 64 -> aligned (page_ceil a) /\ a <= page_ceil a < a + size_of_page.
Proof using Hk.
  intros Ha Hlt; unfold page_ceil, AlignUpGuestPageSize, aligned, kGuestPageSize in *.
  pose proof page_pos as Hpp; unfold kGuestPageSize in Hpp.
  rewrite AlignUp_ceil by (lia || (rewrite in_range_unsigned by done; cbn; lia)).
  rewrite (proj2 (Z.ltb_lt _ _)) by lia.
  pose proof (Z.mod_pos_bound (a + 2 ^ k - 1) (2 ^ k) ltac:(lia)).
  split; [| lia]; rewrite Zminus_mod_idemp_r, Z.sub_diag; done.
Qed.

(** A range whose end and the page after it are representable. *)
Definition fits_range start size : Prop := 0 <= start /\ 0 <= size /\ start + size + size_of_page < 2 ^ 64.

Lemma fits_end start size : fits_range start size -> cast u64 (start + size) = start + size.
Proof using Hk.
  intros (? & ? & ?); pose proof page_pos; apply cast_id; [done |]; rewrite in_range_unsigned by done.
  change (width u64) with 64; lia.
Qed.

(** The pages that hold a byte of the range, the page of [start] included. *)
Definition in_range_pages start size : Z -> bool := in_pages (page_floor start) (page_ceil (start + size)).

Lemma ends_pages start size set s :
  fits_range start size ->
  let pc := AlignDownGuestPageSize k start in
  let end_ := AlignUpGuestPageSize k (cast u64 (start + size)) in
  ends (exec_loop k (page_fuel k pc end_) pc end_ set false) s (fun changed s' =>
    (forall a, 0 <= a -> exec a s' = if in_range_pages start size a then set else exec a s)
    /\ (changed = true <-> exists a, in_range_pages start size a = true /\ exec a s <> set)
    /\ protected_maps_ s' = protected_maps_ s /\ invalidations s' = invalidations s).
Proof using Hk.
  intros Hf; cbn zeta; rewrite (fits_end _ _ Hf); destruct Hf as (? & ? & ?); pose proof page_pos.
  destruct (page_floor_spec start) as (? & ? & ?); [lia |].
  destruct (page_ceil_spec (start + size)) as (? & ? & ?); [lia | lia |].
  eapply ends_mono; [apply ends_exec_loop; unfold page_floor, page_ceil in *; (done || lia) |].
  intros c s' (He & Hc & Hp & Hi); split_and!; try done.
  rewrite Hc; split; [intros [? | ?]; done | by right].
Qed.

Lemma ends_SetExecutable start size s :
  fits_range start size ->
  ends (SetExecutable k start size) s (fun _ s' =>
    (forall a, 0 <= a -> exec a s' = in_range_pages start size a || exec a s)
    /\ protected_maps_ s' = protected_maps_ s /\ invalidations s' = invalidations s).
Proof using Hk.
  intros Hf; apply ends_bind; eapply ends_mono; [by apply ends_pages |].
  intros c s' (He & _ & Hp & Hi); apply ends_ret; split_and!; try done.
Qed.

Lemma ends_ClearExecutable start size s :
  fits_range start size ->
  ends (ClearExecutable k start size) s (fun _ s' =>
    (forall a, 0 <= a -> exec a s' = negb (in_range_pages start size a) && exec a s)
    /\ protected_maps_ s' = protected_maps_ s
    /\ exists changed : bool,
         invalidations s' = invalidations s ++ (if changed then [(start, page_ceil (start + size))] else [])
         /\ (changed = true <-> exists a, in_range_pages start size a = true /\ exec a s = true)).
Proof using Hk.
  intros Hf; apply ends_bind; eapply ends_mono; [by apply ends_pages |].
  intros c s' (He & Hc & Hp & Hi).
  assert (forall s'', shadow_ s'' = shadow_ s' -> forall a, 0 <= a ->
    exec a s'' = negb (in_range_pages start size a) && exec a s) as He'.
  { intros s'' Es a Ha; transitivity (exec a s'); [unfold IsExecAddr, shadow_byte; by rewrite Es |].
    rewrite He by done; by destruct (in_range_pages start size a). }
  assert (c = true <-> exists a, in_range_pages start size a = true /\ exec a s = true) as Hc'.
  { rewrite Hc; split; intros (a & ? & Hne); exists a; split; try done;
      [by destruct (exec a s) | by rewrite Hne]. }
  destruct c; [apply ends_upd; rewrite (fits_end _ _ Hf) | apply ends_ret]; split_and!; try (apply He'; done); try done.
  - exists true; cbn; by rewrite Hi.
  - exists false; by rewrite app_nil_r.
Qed.

(** The executability of a range, as [GetExecutable] reports it. *)
Definition range_value start size s (v : BitValue) : Prop :=
  match v with
  | kBitSet => exec start s = true /\ forall a, start <= a < start + size -> exec a s = true
  | kBitUnset => exec start s = false /\ forall a, start <= a < start + size -> exec a s = false
  | kBitMixed => exists a b, start <= a < start + size /\ start <= b < start + size
                             /\ exec a s = true /\ exec b s = false
  end.

(** The region of [start]: the bytes up to the end of a page that agree with it,
    at least to the end of its own page and at most to the end of the range. *)
Lemma ends_RegionSize start size s :
  fits_range start size ->
  ends (GetExecutableRegionSize k start size) s (fun r s' => s' = s
    /\ r.1 = exec start s /\ 0 < r.2 <= size + size_of_page /\ aligned (start + r.2)
    /\ (forall a, start <= a < start + r.2 -> exec a s = exec start s)
    /\ (r.2 < size -> exec (start + r.2) s <> exec start s)).
Proof using Hk.
  intros Hf; unfold GetExecutableRegionSize.
  rewrite (fits_end _ _ Hf); destruct Hf as (? & ? & ?); pose proof page_pos.
  destruct (page_floor_spec start) as (Hal & ? & ?); [lia |].
  destruct (page_ceil_spec (start + size)) as (Hac & ? & ?); [lia | lia |].
  unfold page_floor, page_ceil in *.
  set (pc := AlignDownGuestPageSize k start) in *; set (end_ := AlignUpGuestPageSize k (start + size)) in *.
  assert (cast u64 (pc + size_of_page) = pc + size_of_page) as ->
    by (apply cast_id; [done |]; rewrite in_range_unsigned by done; change (width u64) with 64; lia).
  assert (page_fuel k (pc + size_of_page) end_ <= page_fuel k pc end_)%nat.
  { unfold page_fuel; pose proof (Z.div_le_mono (end_ - (pc + size_of_page)) (end_ - pc) size_of_page); lia. }
  destruct (scan_loop_spec (page_fuel k pc end_) (exec pc s) (pc + size_of_page) end_ s)
    as (r & Hr & Har & Hrr & Hall & Hdiff); [by apply aligned_next | done | lia | lia | done |].
  cbn zeta; unfold ends; rewrite Hr; do 2 eexists; split; [done |]; cbn.
  assert (exec pc s = exec start s) as Hpc by (symmetry; apply exec_page; (done || lia)).
  assert (cast u64 (r - start) = r - start) as ->
    by (apply cast_id; [done |]; rewrite in_range_unsigned by done; change (width u64) with 64; lia).
  replace (start + (r - start)) with r by lia; rewrite Hpc in *; split_and!; try done; try lia.
  - intros a Ha; destruct (Z.le_gt_cases (pc + size_of_page) a); [apply Hall; lia |].
    rewrite (exec_page pc a) by (done || lia); done.
  - intros Hlt; apply Hdiff; lia.
Qed.

Lemma ends_GetExecutable start size s :
  fits_range start size ->
  ends (GetExecutable k start size) s (fun v s' => s' = s /\ range_value start size s v).
Proof using Hk.
  intros Hf; apply ends_bind; eapply ends_mono; [by apply ends_RegionSize |].
  intros [b n] s' Hpost; cbn in Hpost; destruct Hpost as (-> & -> & Hn & _ & Hall & Hdiff).
  apply ends_ret; split; [done |].
  destruct Hf as (? & ? & ?); destruct (Z.ltb_spec n size).
  - pose proof (Hdiff ltac:(done)) as Hne; cbn; destruct (exec start s) eqn:E.
    + exists start, (start + n); split_and!; try lia; try done; by destruct (exec (start + n) s).
    + exists (start + n), start; split_and!; try lia; try done; by destruct (exec (start + n) s).
  - assert (forall a, start <= a < start + size -> exec a s = exec start s) as Hsame by (intros; apply Hall; lia).
    destruct (exec start s) eqn:E; cbn; split; done.
Qed.

(** ** Losing executability *)

(** Every address that stopped being executable lies in a range that was
    invalidated on the way. *)
Definition covered s s' : Prop :=
  exists l, invalidations s' = invalidations s ++ l
  /\ forall a, 0 <= a -> exec a s = true -> exec a s' = false -> exists r, r ∈ l /\ r.1 <= a < r.2.

#[local] Instance covered_refl : Reflexive covered.
Proof. intros s; exists []; split; [by rewrite app_nil_r | intros a _ H1 H2; congruence]. Qed.
#[local] Instance covered_trans : Transitive covered.
Proof.
  intros s1 s2 s3 (l1 & H1 & Hc1) (l2 & H2 & Hc2); exists (l1 ++ l2); split; [by rewrite H2, H1, app_assoc |].
  intros a Ha Ht Hf; destruct (exec a s2) eqn:E.
  - destruct (Hc2 a Ha E Hf) as (r & ? & ?); exists r; split; [apply elem_of_app; by right | done].
  - destruct (Hc1 a Ha Ht E) as (r & ? & ?); exists r; split; [apply elem_of_app; by left | done].
Qed.

(** A computation after which everything lost is covered. *)
Definition covers {A} (m : ShadowM A) s : Prop := ends m s (fun _ s' => covered s s').

Lemma covers_ret {A} (x : A) s : covers (mret x) s.
Proof. by apply ends_ret. Qed.
Lemma covers_then {A B} (m : ShadowM A) (f : A -> ShadowM B) s :
  covers m s -> (forall x s', covers (f x) s') -> covers (m ≫= f) s.
Proof.
  intros Hm Hf; apply ends_bind; eapply ends_mono; [exact Hm |]; intros a s' Hs.
  eapply ends_mono; [apply Hf |]; intros b s'' Hs'; by transitivity s'.
Qed.
Lemma covers_check {B} b (f : unit -> ShadowM B) s : b = true -> covers (f tt) s -> covers (check b ≫= f) s.
Proof. intros -> Hf; by apply ends_bind, ends_check. Qed.

Lemma covers_SetExecutable start size s : fits_range start size -> covers (SetExecutable k start size) s.
Proof using Hk.
  intros Hf; eapply ends_mono; [by apply ends_SetExecutable |]; intros _ s' (He & _ & Hi).
  exists []; split; [by rewrite app_nil_r |]; intros a Ha Ht Hn; rewrite He, Ht, orb_true_r in Hn; done.
Qed.

Lemma aligned_floor start : aligned start -> 0 <= start < 2 ^ 64 -> page_floor start = start.
Proof using Hk.
  intros Ha Hs; destruct (page_floor_spec start Hs) as (Hf & ? & ?).
  apply Z.le_antisymm; [lia |]; apply aligned_le; done || lia.
Qed.
Lemma aligned_ceil a : aligned a -> 0 <= a -> a + size_of_page <= 2 ^ 64 -> page_ceil a = a.
Proof using Hk.
  intros Ha ? ?; destruct (page_ceil_spec a) as (Hc & ? & ?); [lia | lia |].
  apply Z.le_antisymm; [apply aligned_le; done || lia | lia].
Qed.

Lemma covers_ClearExecutable start size s :
  aligned start -> fits_range start size -> covers (ClearExecutable k start size) s.
Proof using Hk.
  intros Hal Hf; eapply ends_mono; [by apply ends_ClearExecutable |].
  intros _ s' (He & _ & changed & Hi & Hc); eexists; split; [exact Hi |].
  intros a Ha Ht Hn; rewrite He, Ht, andb_true_r in Hn by done; apply negb_false_iff in Hn as Hin.
  rewrite (proj2 Hc) by (by exists a); eexists; split; [by apply list_elem_of_singleton |]; cbn.
  destruct Hf as (? & ? & ?); pose proof page_pos.
  unfold in_range_pages, in_pages in Hin; rewrite (aligned_floor start) in Hin by (done || lia); lia.
Qed.
Lemma covers_GetExecutable {B} start size (f : BitValue -> ShadowM B) s :
  fits_range start size -> (forall v, covers (f v) s) -> covers (GetExecutable k start size ≫= f) s.
Proof using Hk.
  intros Hr Hf; apply ends_bind; eapply ends_mono; [by apply ends_GetExecutable |]; intros v ? [-> _]; apply Hf.
Qed.

Lemma covers_CopyExecutable from from_size to to_size s :
  aligned from -> aligned to -> fits_range from from_size -> fits_range to to_size ->
  from + from_size <= to \/ to + to_size <= from -> covers (CopyExecutable k from from_size to to_size) s.
Proof using Hk.
  intros Haf Hat Hf Ht Hd; pose proof Hf as (? & ? & ?); pose proof Ht as (? & ? & ?); pose proof page_pos.
  unfold CopyExecutable; rewrite !fits_end by done.
  apply covers_check; [apply Z.eqb_eq; symmetry; apply aligned_floor; done || lia |].
  apply covers_check; [apply Z.eqb_eq; symmetry; apply aligned_floor; done || lia |].
  apply covers_check; [lia |].
  unfold IsExecutable; apply ends_bind, ends_bind; eapply ends_mono; [by apply ends_GetExecutable |].
  intros v ? [-> _]; apply ends_ret.
  destruct v; by (apply covers_ClearExecutable || apply covers_SetExecutable).
Qed.

(** Page-aligned, within the guest's addresses. *)
Definition guest_range start size : Prop := aligned start /\ 0 <= start /\ 0 <= size /\ start + size <= kMaxGuestAddress + 1.
Lemma guest_fits start size : guest_range start size -> fits_range start size.
Proof using Hk.
  intros (? & ? & ? & Hm); pose proof page_pos; unfold kMaxGuestAddress in Hm; unfold fits_range; lia.
Qed.
Lemma guest_ceil start size :
  guest_range start size ->
  aligned (page_ceil (start + size)) /\ start + size <= page_ceil (start + size) <= kMaxGuestAddress + 1.
Proof using Hk.
  intros (? & ? & ? & Hm); pose proof page_pos; pose proof aligned_max.
  destruct (page_ceil_spec (start + size)) as (? & ? & ?); [lia | unfold kMaxGuestAddress in Hm; lia |].
  split; [done | split; [done |]]; apply aligned_le; done || lia.
Qed.

Lemma covers_RemapExecutable old_start old_size new_start new_size s :
  guest_range old_start old_size -> guest_range new_start new_size ->
  old_start = new_start \/ old_start + old_size <= new_start \/ new_start + new_size <= old_start ->
  covers (RemapExecutable k old_start old_size new_start new_size) s.
Proof using Hk.
  intros Ho Hn Hd; pose proof (guest_fits _ _ Ho) as Hfo; pose proof (guest_fits _ _ Hn) as Hfn.
  destruct (guest_ceil _ _ Ho) as (Hoc & Hor), (guest_ceil _ _ Hn) as (Hnc & Hnr).
  destruct Ho as (Hoa & Ho0 & Hos & Ho1), Hn as (Hna & Hn0 & Hns & Hn1); unfold kMaxGuestAddress in *.
  pose proof page_pos.
  assert (forall a b, 0 <= b <= a -> a <= 2 ^ 48 -> cast u64 (a - b) = a - b) as Hsub.
  { intros a b ? ?; apply cast_id; [done |]; rewrite in_range_unsigned by done; change (width u64) with 64; lia. }
  unfold RemapExecutable; rewrite !fits_end by done.
  apply covers_check; [apply Z.eqb_eq; symmetry; apply aligned_floor; done || lia |].
  apply covers_check; [apply Z.eqb_eq; symmetry; apply aligned_floor; done || lia |].
  cbn zeta; unfold page_ceil in *; destruct (Z.eqb_spec old_start new_start) as [<- | Hne].
  - destruct (Z.leb_spec (AlignUpGuestPageSize k (old_start + new_size)) (AlignUpGuestPageSize k (old_start + old_size))).
    + rewrite Hsub by lia; apply covers_ClearExecutable; [done | unfold fits_range; lia].
    + rewrite Hsub by lia; apply covers_CopyExecutable; try done; [unfold fits_range; lia | lia].
  - apply covers_check; [lia |]; apply covers_then; [| intros _ s'; by apply covers_ClearExecutable].
    destruct (Z.ltb_spec old_size new_size); apply covers_CopyExecutable; try done; unfold fits_range in *; lia.
Qed.
End Correctness.

(** ** The properties *)

(** C36: the operations on ranges, for a page size of up to 64 KiB and a range
    whose last page is representable.  [SetExecutable] makes exactly the pages
    that hold a byte of the range executable, [ClearExecutable] makes exactly
    those pages non-executable.  [ClearExecutable] invalidates the translations
    from [start] to the end of the last of these pages, once, if and only if one
    of the pages was executable.  [GetExecutable] changes nothing and answers
    kBitSet or kBitUnset only if all bytes of the range agree, kBitMixed only if
    two of them differ.  None of them touches the protected maps or fails, and
    their loops end within the number of pages. *)
Theorem executable_ranges k start size s :
  0 <= k <= 16 -> fits_range k start size ->
  ends (SetExecutable k start size) s (fun _ s' =>
    (forall a, 0 <= a -> IsExecAddr k a s' = in_range_pages k start size a || IsExecAddr k a s)
    /\ protected_maps_ s' = protected_maps_ s)
  /\ ends (ClearExecutable k start size) s (fun _ s' =>
    (forall a, 0 <= a -> IsExecAddr k a s' = negb (in_range_pages k start size a) && IsExecAddr k a s)
    /\ protected_maps_ s' = protected_maps_ s
    /\ exists changed : bool,
         invalidations s' = invalidations s ++ (if changed then [(start, page_ceil k (start + size))] else [])
         /\ (changed = true <-> exists a, in_range_pages k start size a = true /\ IsExecAddr k a s = true))
  /\ ends (GetExecutable k start size) s (fun v s' => s' = s /\ range_value k start size s v).
Proof.
  intros Hk Hf; split_and!; [| by apply ends_ClearExecutable | by apply ends_GetExecutable].
  destruct (ends_SetExecutable k Hk start size s Hf) as (r & s' & E & ? & ? & _); by exists r, s'.
Qed.

(** [SetExecutable] invalidates nothing, unlike what the comment on the memory
    calls says. *)
Theorem SetExecutable_keeps_translations k start size s :
  0 <= k <= 16 -> fits_range k start size ->
  ends (SetExecutable k start size) s (fun _ s' => invalidations s' = invalidations s).
Proof. intros Hk Hf; destruct (ends_SetExecutable k Hk start size s Hf) as (r & s' & E & _ & _ & ?); by exists r, s'. Qed.

Lemma executable_ranges_witness :
  ends (GetExecutable 12 0x1800 0x1000) (mkGuestMapShadow {[ 0 := 2 ]} [] [])
    (fun v _ => v = kBitMixed).
Proof.
  pose proof (executable_ranges 12 0x1800 0x1000 (mkGuestMapShadow {[ 0 := 2 ]} [] [])
    ltac:(lia) ltac:(split_and!; done)) as (_ & _ & v & s' & Hv & -> & Hr).
  exists v, (mkGuestMapShadow {[ 0 := 2 ]} [] []); split; [exact Hv |].
  destruct v; cbn in Hr; [destruct Hr; discriminate | | done].
  destruct Hr as [_ Hr]; specialize (Hr 0x2000 ltac:(lia)); discriminate.
Defined.

(** C30: no memory call of the guest takes executability away silently.  With
    page-aligned addresses of the guest (which the kernel returns and demands),
    and with [mremap] leaving a mapping where it is or moving it to a disjoint
    place, every call of the guest ends without a failed check, and every
    address that was executable before it and is not after it lies in a range
    whose translations were invalidated during it. *)
Theorem memory_calls_invalidate k s :
  0 <= k <= 16 ->
  (forall mmap64 length prot,
     (forall p r, mmap64 p = Some r -> guest_range k r length) -> covers k (MmapForGuest k mmap64 length prot) s)
  /\ (forall munmap addr length, guest_range k addr length -> covers k (MunmapForGuest k munmap addr length) s)
  /\ (forall mprotect addr length prot,
        guest_range k addr length -> covers k (MprotectForGuest k mprotect addr length prot) s)
  /\ (forall mremap old_addr old_size new_size flags,
        guest_range k old_addr old_size -> 0 <= new_size ->
        (forall r, mremap = Some r -> guest_range k r new_size
           /\ (old_addr = r \/ old_addr + old_size <= r \/ r + new_size <= old_addr)) ->
        covers k (MremapForGuest k mremap old_addr old_size new_size flags) s).
Proof.
  intros Hk.
  assert (forall prot addr length s, guest_range k addr length -> covers k (UpdateGuestProt k prot addr length) s) as Hup.
  { intros prot addr length s' Hr; pose proof (guest_fits _ Hk _ _ Hr); unfold UpdateGuestProt; destruct Hr as [? _].
    case_match; [by apply covers_SetExecutable | by apply covers_ClearExecutable]. }
  split_and!.
  - intros mmap64 length prot Hm; unfold MmapForGuest; destruct (mmap64 _) as [r |] eqn:E; [| apply covers_ret].
    apply covers_then; [by eapply Hup, Hm | intros; apply covers_ret].
  - intros munmap addr length Hr; apply covers_then; [| intros; apply covers_ret].
    apply covers_ClearExecutable; [done | apply Hr | by apply guest_fits].
  - intros mprotect addr length prot Hr; apply ends_bind, ends_get.
    destruct (existsb _ _); [apply covers_ret | apply covers_then; [by apply Hup | intros; apply covers_ret]].
  - intros mremap old_addr old_size new_size flags Ho Hn Hm; pose proof (guest_fits _ Hk _ _ Ho) as Hf.
    assert (forall b, covers k (if b : bool then mret None else
      match mremap with
      | Some result => _ ← RemapExecutable k old_addr old_size result new_size; mret (Some result)
      | None => mret None
      end) s) as Htail.
    { intros [|]; [apply covers_ret |]; destruct mremap as [r |]; [| apply covers_ret].
      destruct (Hm r eq_refl); apply covers_then; [by apply covers_RemapExecutable | intros; apply covers_ret]. }
    assert (forall size, 0 <= size <= old_size ->
      ends (v ← GetExecutable k old_addr size; mret (match v with kBitMixed => true | _ => false end)) s
        (fun _ s' => s' = s)) as Hget.
    { intros size ?; apply ends_bind; eapply ends_mono; [apply ends_GetExecutable; [done |] |].
      - unfold fits_range in *; lia.
      - intros v s' [-> _]; by apply ends_ret. }
    unfold MremapForGuest; apply ends_bind; eapply ends_mono with (Q := fun _ s' => s' = s).
    { destruct (Z.leb_spec new_size old_size); [destruct (negb _); [apply Hget; lia | by apply ends_ret] |].
      apply Hget; unfold fits_range in Hf; lia. }
    intros b s' ->; apply Htail.
Qed.

Lemma memory_calls_invalidate_witness :
  covers 12 (MremapForGuest 12 (Some 0x4000) 0x1000 0x1000 0x800 0) (mkGuestMapShadow {[ 0 := 2 ]} [] []).
Proof.
  destruct (memory_calls_invalidate 12 (mkGuestMapShadow {[ 0 := 2 ]} [] []) ltac:(lia)) as (_ & _ & _ & H).
  apply H; [split_and!; done | lia |].
  intros r [= <-]; split; [split_and!; done | lia].
Defined.

(** Alignment matters: at an unaligned start the whole page loses its bit, but
    only the part from [start] on is invalidated. *)
Lemma unaligned_clear_not_covered :
  ~ covers 12 (ClearExecutable 12 0x1800 0x800) (mkGuestMapShadow {[ 0 := 2 ]} [] []).
Proof.
  intros ([] & s' & E & l & Hl & Hc); vm_compute in E; injection E as <-.
  cbn in Hl; subst l; destruct (Hc 0x1000) as (r & ->%list_elem_of_singleton & Hr); [lia | done | done |].
  cbn in Hr; lia.
Qed.
