(* ===== verification/RiscvInsn.v ===== *)
(** * Instruction set of the RISC-V 64 decoder

    decoder/include/berberis/decoder/riscv64/decoder.h, the declarations of
    [class Decoder]: the opcode and operand-type enumerations, the argument
    structures handed to the instruction consumer, and the consumer's
    methods.

    An enumeration with a fixed underlying type holds any value of that type,
    whether or not it names an enumerator ("the values of the enumeration are
    the values of the underlying type").  The structures below therefore keep
    opcode and operand-type fields as integers; [enum_of] is what a [switch]
    over the enumerators sees. *)
From S2P Require Import Prelude MachineInt.

(** An enumeration: its enumerators and their values. *)
Class CEnum (A : Type) := {
  enum_type : IntType;
  enum_bits : A -> Z;
  enum_all : list A;
  enum_complete : forall a, a ∈ enum_all;
  enum_nodup : NoDup (enum_bits <$> enum_all)
}.

(** The enumerator with a given value, if there is one. *)
Definition enum_of {A} `{CEnum A} (z : Z) : option A :=
  List.find (fun a => enum_bits a =? z) enum_all.

Ltac cenum_complete :=
  let a := fresh in
  intros a; apply list_elem_of_In; destruct a; repeat first [left; reflexivity | right].
Ltac cenum_nodup := apply (bool_decide_unpack _); vm_compute; exact I.

Section CEnumLaws.
Context {A : Type} `{!CEnum A}.

Lemma enum_bits_inj (a b : A) : enum_bits a = enum_bits b -> a = b.
Proof.
  intros E; pose proof enum_nodup as Hn.
  destruct (proj1 (list_elem_of_lookup _ _) (enum_complete a)) as [i Ha].
  destruct (proj1 (list_elem_of_lookup _ _) (enum_complete b)) as [j Hb].
  assert (i = j) as ->; [| congruence].
  eapply (proj1 (NoDup_alt _) Hn i j (enum_bits a)).
  - by rewrite list_lookup_fmap, Ha.
  - by rewrite list_lookup_fmap, Hb, E.
Qed.

(** A [switch] selects the case of the enumerator with that value. *)
Lemma enum_of_Some (z : Z) (a : A) : enum_of z = Some a <-> enum_bits a = z.
Proof.
  unfold enum_of; split.
  - intros [_ H]%List.find_some; by apply Z.eqb_eq.
  - intros <-; destruct (List.find _ _) as [b |] eqn:E.
    + apply List.find_some in E as [_ E%Z.eqb_eq]; f_equal; by apply enum_bits_inj.
    + pose proof (List.find_none _ _ E a) as Hn; cbn in Hn; rewrite Z.eqb_refl in Hn.
      discriminate Hn; apply list_elem_of_In, enum_complete.
Qed.

Lemma enum_of_bits (a : A) : enum_of (enum_bits a) = Some a.
Proof. by apply enum_of_Some. Qed.

#[export] Instance cenum_eq_dec : EqDecision A.
Proof.
  intros a b; destruct (decide (enum_bits a = enum_bits b)) as [E | E].
  - left; by apply enum_bits_inj.
  - right; congruence.
Defined.
End CEnumLaws.

(** [AmoOpcode], underlying type [uint8_t]. *)
Module AmoOpcode.
Inductive t :=
  | kLr | kSc | kAmoswap | kAmoadd | kAmoxor | kAmoand | kAmoor | kAmomin | kAmomax | kAmominu
  | kAmomaxu.
Definition to_bits (o : t) : Z :=
  match o with
  | kLr => 0x2
  | kSc => 0x3
  | kAmoswap => 0x1
  | kAmoadd => 0x0
  | kAmoxor => 0x4
  | kAmoand => 0xc
  | kAmoor => 0x8
  | kAmomin => 0x10
  | kAmomax => 0x14
  | kAmominu => 0x18
  | kAmomaxu => 0x1c
  end.
#[global] Instance enum : CEnum t :=
  {| enum_type := u8; enum_bits := to_bits;
     enum_all := [kLr; kSc; kAmoswap; kAmoadd; kAmoxor; kAmoand; kAmoor; kAmomin; kAmomax;
       kAmominu; kAmomaxu];
     enum_complete := ltac:(cenum_complete); enum_nodup := ltac:(cenum_nodup) |}.
End AmoOpcode.

(** [BranchOpcode], underlying type [uint8_t]. *)
Module BranchOpcode.
Inductive t :=
  | kBeq | kBne | kBlt | kBge | kBltu | kBgeu.
Definition to_bits (o : t) : Z :=
  match o with
  | kBeq => 0x0
  | kBne => 0x1
  | kBlt => 0x4
  | kBge => 0x5
  | kBltu => 0x6
  | kBgeu => 0x7
  end.
#[global] Instance enum : CEnum t :=
  {| enum_type := u8; enum_bits := to_bits;
     enum_all := [kBeq; kBne; kBlt; kBge; kBltu; kBgeu];
     enum_complete := ltac:(cenum_complete); enum_nodup := ltac:(cenum_nodup) |}.
End BranchOpcode.

(** [CsrOpcode], underlying type [uint8_t]. *)
Module CsrOpcode.
Inductive t :=
  | kCsrrw | kCsrrs | kCsrrc.
Definition to_bits (o : t) : Z :=
  match o with
  | kCsrrw => 0x1
  | kCsrrs => 0x2
  | kCsrrc => 0x3
  end.
#[global] Instance enum : CEnum t :=
  {| enum_type := u8; enum_bits := to_bits;
     enum_all := [kCsrrw; kCsrrs; kCsrrc];
     enum_complete := ltac:(cenum_complete); enum_nodup := ltac:(cenum_nodup) |}.
End CsrOpcode.

(** [CsrImmOpcode], underlying type [uint8_t]. *)
Module CsrImmOpcode.
Inductive t :=
  | kCsrrwi | kCsrrsi | kCsrrci.
Definition to_bits (o : t) : Z :=
  match o with
  | kCsrrwi => 0x1
  | kCsrrsi => 0x2
  | kCsrrci => 0x3
  end.
#[global] Instance enum : CEnum t :=
  {| enum_type := u8; enum_bits := to_bits;
     enum_all := [kCsrrwi; kCsrrsi; kCsrrci];
     enum_complete := ltac:(cenum_complete); enum_nodup := ltac:(cenum_nodup) |}.
End CsrImmOpcode.

(** [FmaOpcode], underlying type [uint8_t]. *)
Module FmaOpcode.
Inductive t :=
  | kFmadd | kFmsub | kFnmsub | kFnmadd.
Definition to_bits (o : t) : Z :=
  match o with
  | kFmadd => 0x0
  | kFmsub => 0x1
  | kFnmsub => 0x2
  | kFnmadd => 0x3
  end.
#[global] Instance enum : CEnum t :=
  {| enum_type := u8; enum_bits := to_bits;
     enum_all := [kFmadd; kFmsub; kFnmsub; kFnmadd];
     enum_complete := ltac:(cenum_complete); enum_nodup := ltac:(cenum_nodup) |}.
End FmaOpcode.

(** [FenceOpcode], underlying type [uint8_t]. *)
Module FenceOpcode.
Inductive t :=
  | kFence | kFenceTso.
Definition to_bits (o : t) : Z :=
  match o with
  | kFence => 0x0
  | kFenceTso => 0x8
  end.
#[global] Instance enum : CEnum t :=
  {| enum_type := u8; enum_bits := to_bits;
     enum_all := [kFence; kFenceTso];
     enum_complete := ltac:(cenum_complete); enum_nodup := ltac:(cenum_nodup) |}.
End FenceOpcode.

(** [OpOpcode], underlying type [uint16_t]. *)
Module OpOpcode.
Inductive t :=
  | kAdd | kSub | kSll | kSlt | kSltu | kXor | kSrl | kSra | kOr | kAnd | kMul | kMulh
  | kMulhsu | kMulhu | kDiv | kDivu | kRem | kRemu | kAndn | kOrn | kXnor | kMax | kMaxu
  | kMin | kMinu | kRol | kRor | kSh1add | kSh2add | kSh3add | kBclr | kBext | kBinv | kBset.
Definition to_bits (o : t) : Z :=
  match o with
  | kAdd => 0x0
  | kSub => 0x100
  | kSll => 0x1
  | kSlt => 0x2
  | kSltu => 0x3
  | kXor => 0x4
  | kSrl => 0x5
  | kSra => 0x105
  | kOr => 0x6
  | kAnd => 0x7
  | kMul => 0x8
  | kMulh => 0x9
  | kMulhsu => 0xa
  | kMulhu => 0xb
  | kDiv => 0xc
  | kDivu => 0xd
  | kRem => 0xe
  | kRemu => 0xf
  | kAndn => 0x107
  | kOrn => 0x106
  | kXnor => 0x104
  | kMax => 0x2e
  | kMaxu => 0x2f
  | kMin => 0x2c
  | kMinu => 0x2d
  | kRol => 0x181
  | kRor => 0x185
  | kSh1add => 0x82
  | kSh2add => 0x84
  | kSh3add => 0x86
  | kBclr => 0x121
  | kBext => 0x125
  | kBinv => 0x1a1
  | kBset => 0xa1
  end.
#[global] Instance enum : CEnum t :=
  {| enum_type := u16; enum_bits := to_bits;
     enum_all := [kAdd; kSub; kSll; kSlt; kSltu; kXor; kSrl; kSra; kOr; kAnd; kMul; kMulh;
       kMulhsu; kMulhu; kDiv; kDivu; kRem; kRemu; kAndn; kOrn; kXnor; kMax; kMaxu; kMin;
       kMinu; kRol; kRor; kSh1add; kSh2add; kSh3add; kBclr; kBext; kBinv; kBset];
     enum_complete := ltac:(cenum_complete); enum_nodup := ltac:(cenum_nodup) |}.
End OpOpcode.

(** [Op32Opcode], underlying type [uint16_t]. *)
Module Op32Opcode.
Inductive t :=
  | kAddw | kAdduw | kSubw | kSllw | kSrlw | kSraw | kMulw | kDivw | kDivuw | kRemw | kRemuw
  | kRolw | kRorw | kSh1adduw | kSh2adduw | kSh3adduw.
Definition to_bits (o : t) : Z :=
  match o with
  | kAddw => 0x0
  | kAdduw => 0x20
  | kSubw => 0x100
  | kSllw => 0x1
  | kSrlw => 0x5
  | kSraw => 0x105
  | kMulw => 0x8
  | kDivw => 0xc
  | kDivuw => 0xd
  | kRemw => 0xe
  | kRemuw => 0xf
  | kRolw => 0x181
  | kRorw => 0x185
  | kSh1adduw => 0x82
  | kSh2adduw => 0x84
  | kSh3adduw => 0x86
  end.
#[global] Instance enum : CEnum t :=
  {| enum_type := u16; enum_bits := to_bits;
     enum_all := [kAddw; kAdduw; kSubw; kSllw; kSrlw; kSraw; kMulw; kDivw; kDivuw; kRemw;
       kRemuw; kRolw; kRorw; kSh1adduw; kSh2adduw; kSh3adduw];
     enum_complete := ltac:(cenum_complete); enum_nodup := ltac:(cenum_nodup) |}.
End Op32Opcode.

(** [OpSingleInputOpcode], underlying type [uint16_t]. *)
Module OpSingleInputOpcode.
Inductive t :=
  | kZexth | kZextb | kZextw | kSextb | kSexth.
Definition to_bits (o : t) : Z :=
  match o with
  | kZexth => 0x24
  | kZextb => 0x25
  | kZextw => 0x26
  | kSextb => 0x27
  | kSexth => 0x28
  end.
#[global] Instance enum : CEnum t :=
  {| enum_type := u16; enum_bits := to_bits;
     enum_all := [kZexth; kZextb; kZextw; kSextb; kSexth];
     enum_complete := ltac:(cenum_complete); enum_nodup := ltac:(cenum_nodup) |}.
End OpSingleInputOpcode.

(** [OpFpGpRegisterTargetNoRoundingOpcode], underlying type [uint8_t]. *)
Module OpFpGpRegisterTargetNoRoundingOpcode.
Inductive t :=
  | kFle | kFlt | kFeq.
Definition to_bits (o : t) : Z :=
  match o with
  | kFle => 0x0
  | kFlt => 0x1
  | kFeq => 0x2
  end.
#[global] Instance enum : CEnum t :=
  {| enum_type := u8; enum_bits := to_bits;
     enum_all := [kFle; kFlt; kFeq];
     enum_complete := ltac:(cenum_complete); enum_nodup := ltac:(cenum_nodup) |}.
End OpFpGpRegisterTargetNoRoundingOpcode.

(** [OpFpGpRegisterTargetSingleInputNoRoundingOpcode], underlying type [uint16_t]. *)
Module OpFpGpRegisterTargetSingleInputNoRoundingOpcode.
Inductive t :=
  | kFclass.
Definition to_bits (o : t) : Z :=
  match o with
  | kFclass => 0x1
  end.
#[global] Instance enum : CEnum t :=
  {| enum_type := u16; enum_bits := to_bits;
     enum_all := [kFclass];
     enum_complete := ltac:(cenum_complete); enum_nodup := ltac:(cenum_nodup) |}.
End OpFpGpRegisterTargetSingleInputNoRoundingOpcode.

(** [OpFpNoRoundingOpcode], underlying type [uint8_t]. *)
Module OpFpNoRoundingOpcode.
Inductive t :=
  | kFSgnj | kFSgnjn | kFSgnjx | kFMin | kFMax.
Definition to_bits (o : t) : Z :=
  match o with
  | kFSgnj => 0x0
  | kFSgnjn => 0x1
  | kFSgnjx => 0x2
  | kFMin => 0x8
  | kFMax => 0x9
  end.
#[global] Instance enum : CEnum t :=
  {| enum_type := u8; enum_bits := to_bits;
     enum_all := [kFSgnj; kFSgnjn; kFSgnjx; kFMin; kFMax];
     enum_complete := ltac:(cenum_complete); enum_nodup := ltac:(cenum_nodup) |}.
End OpFpNoRoundingOpcode.

(** [OpFpOpcode], underlying type [uint8_t]. *)
Module OpFpOpcode.
Inductive t :=
  | kFAdd | kFSub | kFMul | kFDiv.
Definition to_bits (o : t) : Z :=
  match o with
  | kFAdd => 0x0
  | kFSub => 0x1
  | kFMul => 0x2
  | kFDiv => 0x3
  end.
#[global] Instance enum : CEnum t :=
  {| enum_type := u8; enum_bits := to_bits;
     enum_all := [kFAdd; kFSub; kFMul; kFDiv];
     enum_complete := ltac:(cenum_complete); enum_nodup := ltac:(cenum_nodup) |}.
End OpFpOpcode.

(** [OpFpSingleInputOpcode], underlying type [uint8_t]. *)
Module OpFpSingleInputOpcode.
Inductive t :=
  | kFSqrt.
Definition to_bits (o : t) : Z :=
  match o with
  | kFSqrt => 0x60
  end.
#[global] Instance enum : CEnum t :=
  {| enum_type := u8; enum_bits := to_bits;
     enum_all := [kFSqrt];
     enum_complete := ltac:(cenum_complete); enum_nodup := ltac:(cenum_nodup) |}.
End OpFpSingleInputOpcode.

(** [OpFpSingleInputNoRoundingOpcode], underlying type [uint8_t]. *)
Module OpFpSingleInputNoRoundingOpcode.
Inductive t :=
  | kFmv.
Definition to_bits (o : t) : Z :=
  match o with
  | kFmv => 0x0
  end.
#[global] Instance enum : CEnum t :=
  {| enum_type := u8; enum_bits := to_bits;
     enum_all := [kFmv];
     enum_complete := ltac:(cenum_complete); enum_nodup := ltac:(cenum_nodup) |}.
End OpFpSingleInputNoRoundingOpcode.

(** [OpImmOpcode], underlying type [uint8_t]. *)
Module OpImmOpcode.
Inductive t :=
  | kAddi | kSlti | kSltiu | kXori | kOri | kAndi.
Definition to_bits (o : t) : Z :=
  match o with
  | kAddi => 0x0
  | kSlti => 0x2
  | kSltiu => 0x3
  | kXori => 0x4
  | kOri => 0x6
  | kAndi => 0x7
  end.
#[global] Instance enum : CEnum t :=
  {| enum_type := u8; enum_bits := to_bits;
     enum_all := [kAddi; kSlti; kSltiu; kXori; kOri; kAndi];
     enum_complete := ltac:(cenum_complete); enum_nodup := ltac:(cenum_nodup) |}.
End OpImmOpcode.

(** [OpImm32Opcode], underlying type [uint8_t]. *)
Module OpImm32Opcode.
Inductive t :=
  | kAddiw.
Definition to_bits (o : t) : Z :=
  match o with
  | kAddiw => 0x0
  end.
#[global] Instance enum : CEnum t :=
  {| enum_type := u8; enum_bits := to_bits;
     enum_all := [kAddiw];
     enum_complete := ltac:(cenum_complete); enum_nodup := ltac:(cenum_nodup) |}.
End OpImm32Opcode.

(** [ShiftImmOpcode], underlying type [uint8_t]. *)
Module ShiftImmOpcode.
Inductive t :=
  | kSlli | kSrli | kSrai.
Definition to_bits (o : t) : Z :=
  match o with
  | kSlli => 0x1
  | kSrli => 0x5
  | kSrai => 0x85
  end.
#[global] Instance enum : CEnum t :=
  {| enum_type := u8; enum_bits := to_bits;
     enum_all := [kSlli; kSrli; kSrai];
     enum_complete := ltac:(cenum_complete); enum_nodup := ltac:(cenum_nodup) |}.
End ShiftImmOpcode.

(** [ShiftImm32Opcode], underlying type [uint16_t]. *)
Module ShiftImm32Opcode.
Inductive t :=
  | kSlliw | kSrliw | kSraiw.
Definition to_bits (o : t) : Z :=
  match o with
  | kSlliw => 0x1
  | kSrliw => 0x5
  | kSraiw => 0x105
  end.
#[global] Instance enum : CEnum t :=
  {| enum_type := u16; enum_bits := to_bits;
     enum_all := [kSlliw; kSrliw; kSraiw];
     enum_complete := ltac:(cenum_complete); enum_nodup := ltac:(cenum_nodup) |}.
End ShiftImm32Opcode.

(** [BitmanipImmOpcode], underlying type [uint16_t]. *)
Module BitmanipImmOpcode.
Inductive t :=
  | kClz | kCpop | kCtz | kSextb | kSexth | kOrcb | kRev8 | kRori | kBclri | kBexti | kBinvi
  | kBseti.
Definition to_bits (o : t) : Z :=
  match o with
  | kClz => 0x3001
  | kCpop => 0x3011
  | kCtz => 0x3009
  | kSextb => 0x3021
  | kSexth => 0x3029
  | kOrcb => 0x143d
  | kRev8 => 0x35c5
  | kRori => 0xc5
  | kBclri => 0x91
  | kBexti => 0x95
  | kBinvi => 0xd1
  | kBseti => 0x51
  end.
#[global] Instance enum : CEnum t :=
  {| enum_type := u16; enum_bits := to_bits;
     enum_all := [kClz; kCpop; kCtz; kSextb; kSexth; kOrcb; kRev8; kRori; kBclri; kBexti;
       kBinvi; kBseti];
     enum_complete := ltac:(cenum_complete); enum_nodup := ltac:(cenum_nodup) |}.
End BitmanipImmOpcode.

(** [BitmanipImm32Opcode], underlying type [uint16_t]. *)
Module BitmanipImm32Opcode.
Inductive t :=
  | kClzw | kCpopw | kCtzw | kRoriw | kSlliuw.
Definition to_bits (o : t) : Z :=
  match o with
  | kClzw => 0x3001
  | kCpopw => 0x3011
  | kCtzw => 0x3009
  | kRoriw => 0x185
  | kSlliuw => 0x21
  end.
#[global] Instance enum : CEnum t :=
  {| enum_type := u16; enum_bits := to_bits;
     enum_all := [kClzw; kCpopw; kCtzw; kRoriw; kSlliuw];
     enum_complete := ltac:(cenum_complete); enum_nodup := ltac:(cenum_nodup) |}.
End BitmanipImm32Opcode.

(** [SystemOpcode], underlying type [uint32_t]. *)
Module SystemOpcode.
Inductive t :=
  | kEcall | kEbreak.
Definition to_bits (o : t) : Z :=
  match o with
  | kEcall => 0x0
  | kEbreak => 0x2000
  end.
#[global] Instance enum : CEnum t :=
  {| enum_type := u32; enum_bits := to_bits;
     enum_all := [kEcall; kEbreak];
     enum_complete := ltac:(cenum_complete); enum_nodup := ltac:(cenum_nodup) |}.
End SystemOpcode.

(** [VLUmOpOpcode], underlying type [uint8_t]. *)
Module VLUmOpOpcode.
Inductive t :=
  | kVleXX | kVlXreXX | kVleXXff | kVlm.
Definition to_bits (o : t) : Z :=
  match o with
  | kVleXX => 0x0
  | kVlXreXX => 0x8
  | kVleXXff => 0x10
  | kVlm => 0xb
  end.
#[global] Instance enum : CEnum t :=
  {| enum_type := u8; enum_bits := to_bits;
     enum_all := [kVleXX; kVlXreXX; kVleXXff; kVlm];
     enum_complete := ltac:(cenum_complete); enum_nodup := ltac:(cenum_nodup) |}.
End VLUmOpOpcode.

(** [VOpFVfOpcode], underlying type [uint8_t]. *)
Module VOpFVfOpcode.
Inductive t :=
  | kVfaddvf | kVfsubvf | kVfminvf | kVfmaxvf | kVfsgnjvf | kVfsgnjnvf | kVfsgnjxvf
  | kVfslide1upvf | kVfslide1downvf | kVfmvsf | kVfmergevf | kVmfeqvf | kVmflevf | kVmfltvf
  | kVmfnevf | kVmfgtvf | kVmfgevf | kVfdivvf | kVfrdivvf | kVfmulvf | kVfrsubvf | kVfmaddvf
  | kVfnmaddvf | kVfmsubvf | kVfnmsubvf | kVfmaccvf | kVfnmaccvf | kVfmsacvf | kVfnmsacvf
  | kVfwaddvf | kVfwsubvf | kVfwaddwf | kVfwsubwf | kVfwmulvf | kVfwmaccvf | kVfwnmaccvf
  | kVfwmsacvf | kVfwnmsacvf.
Definition to_bits (o : t) : Z :=
  match o with
  | kVfaddvf => 0x0
  | kVfsubvf => 0x2
  | kVfminvf => 0x4
  | kVfmaxvf => 0x6
  | kVfsgnjvf => 0x8
  | kVfsgnjnvf => 0x9
  | kVfsgnjxvf => 0xa
  | kVfslide1upvf => 0xe
  | kVfslide1downvf => 0xf
  | kVfmvsf => 0x10
  | kVfmergevf => 0x17
  | kVmfeqvf => 0x18
  | kVmflevf => 0x19
  | kVmfltvf => 0x1b
  | kVmfnevf => 0x1c
  | kVmfgtvf => 0x1d
  | kVmfgevf => 0x1f
  | kVfdivvf => 0x20
  | kVfrdivvf => 0x21
  | kVfmulvf => 0x24
  | kVfrsubvf => 0x27
  | kVfmaddvf => 0x28
  | kVfnmaddvf => 0x29
  | kVfmsubvf => 0x2a
  | kVfnmsubvf => 0x2b
  | kVfmaccvf => 0x2c
  | kVfnmaccvf => 0x2d
  | kVfmsacvf => 0x2e
  | kVfnmsacvf => 0x2f
  | kVfwaddvf => 0x30
  | kVfwsubvf => 0x32
  | kVfwaddwf => 0x34
  | kVfwsubwf => 0x36
  | kVfwmulvf => 0x38
  | kVfwmaccvf => 0x3c
  | kVfwnmaccvf => 0x3d
  | kVfwmsacvf => 0x3e
  | kVfwnmsacvf => 0x3f
  end.
#[global] Instance enum : CEnum t :=
  {| enum_type := u8; enum_bits := to_bits;
     enum_all := [kVfaddvf; kVfsubvf; kVfminvf; kVfmaxvf; kVfsgnjvf; kVfsgnjnvf; kVfsgnjxvf;
       kVfslide1upvf; kVfslide1downvf; kVfmvsf; kVfmergevf; kVmfeqvf; kVmflevf; kVmfltvf;
       kVmfnevf; kVmfgtvf; kVmfgevf; kVfdivvf; kVfrdivvf; kVfmulvf; kVfrsubvf; kVfmaddvf;
       kVfnmaddvf; kVfmsubvf; kVfnmsubvf; kVfmaccvf; kVfnmaccvf; kVfmsacvf; kVfnmsacvf;
       kVfwaddvf; kVfwsubvf; kVfwaddwf; kVfwsubwf; kVfwmulvf; kVfwmaccvf; kVfwnmaccvf;
       kVfwmsacvf; kVfwnmsacvf];
     enum_complete := ltac:(cenum_complete); enum_nodup := ltac:(cenum_nodup) |}.
End VOpFVfOpcode.

(** [VOpFVvOpcode], underlying type [uint8_t]. *)
Module VOpFVvOpcode.
Inductive t :=
  | kVfaddvv | kVfredusumvs | kVfsubvv | kVfredosumvs | kVfminvv | kVfredminvs | kVfmaxvv
  | kVfredmaxvs | kVfsgnjvv | kVfsgnjnvv | kVfsgnjxvv | kVfmvfs | kVFUnary0 | kVFUnary1
  | kVmfeqvv | kVmflevv | kVmfltvv | kVmfnevv | kVfdivvv | kVfmulvv | kVfmaddvv | kVfnmaddvv
  | kVfmsubvv | kVfnmsubvv | kVfmaccvv | kVfnmaccvv | kVfmsacvv | kVfnmsacvv | kVfwaddvv
  | kVfwredusumvs | kVfwsubvv | kVfwredosumvs | kVfwaddwv | kVfwsubwv | kVfwmulvv | kVfwmaccvv
  | kVfwnmaccvv | kVfwmsacvv | kVfwnmsacvv.
Definition to_bits (o : t) : Z :=
  match o with
  | kVfaddvv => 0x0
  | kVfredusumvs => 0x1
  | kVfsubvv => 0x2
  | kVfredosumvs => 0x3
  | kVfminvv => 0x4
  | kVfredminvs => 0x5
  | kVfmaxvv => 0x6
  | kVfredmaxvs => 0x7
  | kVfsgnjvv => 0x8
  | kVfsgnjnvv => 0x9
  | kVfsgnjxvv => 0xa
  | kVfmvfs => 0x10
  | kVFUnary0 => 0x12
  | kVFUnary1 => 0x13
  | kVmfeqvv => 0x18
  | kVmflevv => 0x19
  | kVmfltvv => 0x1b
  | kVmfnevv => 0x1c
  | kVfdivvv => 0x20
  | kVfmulvv => 0x24
  | kVfmaddvv => 0x28
  | kVfnmaddvv => 0x29
  | kVfmsubvv => 0x2a
  | kVfnmsubvv => 0x2b
  | kVfmaccvv => 0x2c
  | kVfnmaccvv => 0x2d
  | kVfmsacvv => 0x2e
  | kVfnmsacvv => 0x2f
  | kVfwaddvv => 0x30
  | kVfwredusumvs => 0x31
  | kVfwsubvv => 0x32
  | kVfwredosumvs => 0x33
  | kVfwaddwv => 0x34
  | kVfwsubwv => 0x36
  | kVfwmulvv => 0x38
  | kVfwmaccvv => 0x3c
  | kVfwnmaccvv => 0x3d
  | kVfwmsacvv => 0x3e
  | kVfwnmsacvv => 0x3f
  end.
#[global] Instance enum : CEnum t :=
  {| enum_type := u8; enum_bits := to_bits;
     enum_all := [kVfaddvv; kVfredusumvs; kVfsubvv; kVfredosumvs; kVfminvv; kVfredminvs;
       kVfmaxvv; kVfredmaxvs; kVfsgnjvv; kVfsgnjnvv; kVfsgnjxvv; kVfmvfs; kVFUnary0;
       kVFUnary1; kVmfeqvv; kVmflevv; kVmfltvv; kVmfnevv; kVfdivvv; kVfmulvv; kVfmaddvv;
       kVfnmaddvv; kVfmsubvv; kVfnmsubvv; kVfmaccvv; kVfnmaccvv; kVfmsacvv; kVfnmsacvv;
       kVfwaddvv; kVfwredusumvs; kVfwsubvv; kVfwredosumvs; kVfwaddwv; kVfwsubwv; kVfwmulvv;
       kVfwmaccvv; kVfwnmaccvv; kVfwmsacvv; kVfwnmsacvv];
     enum_complete := ltac:(cenum_complete); enum_nodup := ltac:(cenum_nodup) |}.
End VOpFVvOpcode.

(** [VOpIViOpcode], underlying type [uint8_t]. *)
Module VOpIViOpcode.
Inductive t :=
  | kVaddvi | kVrsubvi | kVandvi | kVorvi | kVxorvi | kVrgathervi | kVslideupvi
  | kVslidedownvi | kVadcvi | kVmadcvi | kVmergevi | kVmseqvi | kVmsnevi | kVmsleuvi
  | kVmslevi | kVmsgtuvi | kVmsgtvi | kVsadduvi | kVsaddvi | kVsllvi | kVmvXrv | kVsrlvi
  | kVsravi | kVssrlvi | kVssravi | kVnsrlwi | kVnsrawi | kVnclipuwi | kVnclipwi.
Definition to_bits (o : t) : Z :=
  match o with
  | kVaddvi => 0x0
  | kVrsubvi => 0x3
  | kVandvi => 0x9
  | kVorvi => 0xa
  | kVxorvi => 0xb
  | kVrgathervi => 0xc
  | kVslideupvi => 0xe
  | kVslidedownvi => 0xf
  | kVadcvi => 0x10
  | kVmadcvi => 0x11
  | kVmergevi => 0x17
  | kVmseqvi => 0x18
  | kVmsnevi => 0x19
  | kVmsleuvi => 0x1c
  | kVmslevi => 0x1d
  | kVmsgtuvi => 0x1e
  | kVmsgtvi => 0x1f
  | kVsadduvi => 0x20
  | kVsaddvi => 0x21
  | kVsllvi => 0x25
  | kVmvXrv => 0x27
  | kVsrlvi => 0x28
  | kVsravi => 0x29
  | kVssrlvi => 0x2a
  | kVssravi => 0x2b
  | kVnsrlwi => 0x2c
  | kVnsrawi => 0x2d
  | kVnclipuwi => 0x2e
  | kVnclipwi => 0x2f
  end.
#[global] Instance enum : CEnum t :=
  {| enum_type := u8; enum_bits := to_bits;
     enum_all := [kVaddvi; kVrsubvi; kVandvi; kVorvi; kVxorvi; kVrgathervi; kVslideupvi;
       kVslidedownvi; kVadcvi; kVmadcvi; kVmergevi; kVmseqvi; kVmsnevi; kVmsleuvi; kVmslevi;
       kVmsgtuvi; kVmsgtvi; kVsadduvi; kVsaddvi; kVsllvi; kVmvXrv; kVsrlvi; kVsravi; kVssrlvi;
       kVssravi; kVnsrlwi; kVnsrawi; kVnclipuwi; kVnclipwi];
     enum_complete := ltac:(cenum_complete); enum_nodup := ltac:(cenum_nodup) |}.
End VOpIViOpcode.

(** [VOpIVvOpcode], underlying type [uint8_t]. *)
Module VOpIVvOpcode.
Inductive t :=
  | kVaddvv | kVsubvv | kVminuvv | kVminvv | kVmaxuvv | kVmaxvv | kVandvv | kVorvv | kVxorvv
  | kVrgathervv | kVrgatherei16vv | kVadcvv | kVmadcvv | kVsbcvv | kVmsbcvv | kVmergevv
  | kVmseqvv | kVmsnevv | kVmsltuvv | kVmsltvv | kVmsleuvv | kVmslevv | kVsadduvv | kVsaddvv
  | kVssubuvv | kVssubvv | kVsllvv | kVsmulvv | kVsrlvv | kVsravv | kVssrlvv | kVssravv
  | kVnsrlwv | kVnsrawv | kVnclipuwv | kVnclipwv | kVwredsumuvs | kVwredsumvs.
Definition to_bits (o : t) : Z :=
  match o with
  | kVaddvv => 0x0
  | kVsubvv => 0x2
  | kVminuvv => 0x4
  | kVminvv => 0x5
  | kVmaxuvv => 0x6
  | kVmaxvv => 0x7
  | kVandvv => 0x9
  | kVorvv => 0xa
  | kVxorvv => 0xb
  | kVrgathervv => 0xc
  | kVrgatherei16vv => 0xe
  | kVadcvv => 0x10
  | kVmadcvv => 0x11
  | kVsbcvv => 0x12
  | kVmsbcvv => 0x13
  | kVmergevv => 0x17
  | kVmseqvv => 0x18
  | kVmsnevv => 0x19
  | kVmsltuvv => 0x1a
  | kVmsltvv => 0x1b
  | kVmsleuvv => 0x1c
  | kVmslevv => 0x1d
  | kVsadduvv => 0x20
  | kVsaddvv => 0x21
  | kVssubuvv => 0x22
  | kVssubvv => 0x23
  | kVsllvv => 0x25
  | kVsmulvv => 0x27
  | kVsrlvv => 0x28
  | kVsravv => 0x29
  | kVssrlvv => 0x2a
  | kVssravv => 0x2b
  | kVnsrlwv => 0x2c
  | kVnsrawv => 0x2d
  | kVnclipuwv => 0x2e
  | kVnclipwv => 0x2f
  | kVwredsumuvs => 0x30
  | kVwredsumvs => 0x31
  end.
#[global] Instance enum : CEnum t :=
  {| enum_type := u8; enum_bits := to_bits;
     enum_all := [kVaddvv; kVsubvv; kVminuvv; kVminvv; kVmaxuvv; kVmaxvv; kVandvv; kVorvv;
       kVxorvv; kVrgathervv; kVrgatherei16vv; kVadcvv; kVmadcvv; kVsbcvv; kVmsbcvv; kVmergevv;
       kVmseqvv; kVmsnevv; kVmsltuvv; kVmsltvv; kVmsleuvv; kVmslevv; kVsadduvv; kVsaddvv;
       kVssubuvv; kVssubvv; kVsllvv; kVsmulvv; kVsrlvv; kVsravv; kVssrlvv; kVssravv; kVnsrlwv;
       kVnsrawv; kVnclipuwv; kVnclipwv; kVwredsumuvs; kVwredsumvs];
     enum_complete := ltac:(cenum_complete); enum_nodup := ltac:(cenum_nodup) |}.
End VOpIVvOpcode.

(** [VOpIVxOpcode], underlying type [uint8_t]. *)
Module VOpIVxOpcode.
Inductive t :=
  | kVaddvx | kVsubvx | kVrsubvx | kVminuvx | kVminvx | kVmaxuvx | kVmaxvx | kVandvx | kVorvx
  | kVxorvx | kVrgathervx | kVslideupvx | kVslidedownvx | kVadcvx | kVmadcvx | kVsbcvx
  | kVmsbcvx | kVmergevx | kVmseqvx | kVmsnevx | kVmsltuvx | kVmsltvx | kVmsleuvx | kVmslevx
  | kVmsgtuvx | kVmsgtvx | kVsadduvx | kVsaddvx | kVssubuvx | kVssubvx | kVsllvx | kVsmulvx
  | kVsrlvx | kVsravx | kVssrlvx | kVssravx | kVnsrlwx | kVnsrawx | kVnclipuwx | kVnclipwx.
Definition to_bits (o : t) : Z :=
  match o with
  | kVaddvx => 0x0
  | kVsubvx => 0x2
  | kVrsubvx => 0x3
  | kVminuvx => 0x4
  | kVminvx => 0x5
  | kVmaxuvx => 0x6
  | kVmaxvx => 0x7
  | kVandvx => 0x9
  | kVorvx => 0xa
  | kVxorvx => 0xb
  | kVrgathervx => 0xc
  | kVslideupvx => 0xe
  | kVslidedownvx => 0xf
  | kVadcvx => 0x10
  | kVmadcvx => 0x11
  | kVsbcvx => 0x12
  | kVmsbcvx => 0x13
  | kVmergevx => 0x17
  | kVmseqvx => 0x18
  | kVmsnevx => 0x19
  | kVmsltuvx => 0x1a
  | kVmsltvx => 0x1b
  | kVmsleuvx => 0x1c
  | kVmslevx => 0x1d
  | kVmsgtuvx => 0x1e
  | kVmsgtvx => 0x1f
  | kVsadduvx => 0x20
  | kVsaddvx => 0x21
  | kVssubuvx => 0x22
  | kVssubvx => 0x23
  | kVsllvx => 0x25
  | kVsmulvx => 0x27
  | kVsrlvx => 0x28
  | kVsravx => 0x29
  | kVssrlvx => 0x2a
  | kVssravx => 0x2b
  | kVnsrlwx => 0x2c
  | kVnsrawx => 0x2d
  | kVnclipuwx => 0x2e
  | kVnclipwx => 0x2f
  end.
#[global] Instance enum : CEnum t :=
  {| enum_type := u8; enum_bits := to_bits;
     enum_all := [kVaddvx; kVsubvx; kVrsubvx; kVminuvx; kVminvx; kVmaxuvx; kVmaxvx; kVandvx;
       kVorvx; kVxorvx; kVrgathervx; kVslideupvx; kVslidedownvx; kVadcvx; kVmadcvx; kVsbcvx;
       kVmsbcvx; kVmergevx; kVmseqvx; kVmsnevx; kVmsltuvx; kVmsltvx; kVmsleuvx; kVmslevx;
       kVmsgtuvx; kVmsgtvx; kVsadduvx; kVsaddvx; kVssubuvx; kVssubvx; kVsllvx; kVsmulvx;
       kVsrlvx; kVsravx; kVssrlvx; kVssravx; kVnsrlwx; kVnsrawx; kVnclipuwx; kVnclipwx];
     enum_complete := ltac:(cenum_complete); enum_nodup := ltac:(cenum_nodup) |}.
End VOpIVxOpcode.

(** [VOpMVvOpcode], underlying type [uint8_t]. *)
Module VOpMVvOpcode.
Inductive t :=
  | kVredsumvs | kVredandvs | kVredorvs | kVredxorvs | kVredminuvs | kVredminvs | kVredmaxuvs
  | kVredmaxvs | kVaadduvv | kVaaddvv | kVasubuvv | kVasubvv | kVWXUnary0 | kVFUnary0
  | kVMUnary0 | kVmandnmm | kVmandmm | kVmormm | kVmxormm | kVmornmm | kVmnandmm | kVmnormm
  | kVmxnormm | kVdivuvv | kVdivvv | kVremuvv | kVremvv | kVmulhuvv | kVmulvv | kVmulhsuvv
  | kVmulhvv | kVmaddvv | kVnmsubvv | kVmaccvv | kVnmsacvv | kVwadduvv | kVwaddvv | kVwsubuvv
  | kVwsubvv | kVwadduwv | kVwaddwv | kVwsubuwv | kVwsubwv | kVwmuluvv | kVwmulsuvv | kVwmulvv
  | kVwmaccuvv | kVwmaccvv | kVwmaccsuvv.
Definition to_bits (o : t) : Z :=
  match o with
  | kVredsumvs => 0x0
  | kVredandvs => 0x1
  | kVredorvs => 0x2
  | kVredxorvs => 0x3
  | kVredminuvs => 0x4
  | kVredminvs => 0x5
  | kVredmaxuvs => 0x6
  | kVredmaxvs => 0x7
  | kVaadduvv => 0x8
  | kVaaddvv => 0x9
  | kVasubuvv => 0xa
  | kVasubvv => 0xb
  | kVWXUnary0 => 0x10
  | kVFUnary0 => 0x12
  | kVMUnary0 => 0x14
  | kVmandnmm => 0x18
  | kVmandmm => 0x19
  | kVmormm => 0x1a
  | kVmxormm => 0x1b
  | kVmornmm => 0x1c
  | kVmnandmm => 0x1d
  | kVmnormm => 0x1e
  | kVmxnormm => 0x1f
  | kVdivuvv => 0x20
  | kVdivvv => 0x21
  | kVremuvv => 0x22
  | kVremvv => 0x23
  | kVmulhuvv => 0x24
  | kVmulvv => 0x25
  | kVmulhsuvv => 0x26
  | kVmulhvv => 0x27
  | kVmaddvv => 0x29
  | kVnmsubvv => 0x2b
  | kVmaccvv => 0x2d
  | kVnmsacvv => 0x2f
  | kVwadduvv => 0x30
  | kVwaddvv => 0x31
  | kVwsubuvv => 0x32
  | kVwsubvv => 0x33
  | kVwadduwv => 0x34
  | kVwaddwv => 0x35
  | kVwsubuwv => 0x36
  | kVwsubwv => 0x37
  | kVwmuluvv => 0x38
  | kVwmulsuvv => 0x3a
  | kVwmulvv => 0x3b
  | kVwmaccuvv => 0x3c
  | kVwmaccvv => 0x3d
  | kVwmaccsuvv => 0x3f
  end.
#[global] Instance enum : CEnum t :=
  {| enum_type := u8; enum_bits := to_bits;
     enum_all := [kVredsumvs; kVredandvs; kVredorvs; kVredxorvs; kVredminuvs; kVredminvs;
       kVredmaxuvs; kVredmaxvs; kVaadduvv; kVaaddvv; kVasubuvv; kVasubvv; kVWXUnary0;
       kVFUnary0; kVMUnary0; kVmandnmm; kVmandmm; kVmormm; kVmxormm; kVmornmm; kVmnandmm;
       kVmnormm; kVmxnormm; kVdivuvv; kVdivvv; kVremuvv; kVremvv; kVmulhuvv; kVmulvv;
       kVmulhsuvv; kVmulhvv; kVmaddvv; kVnmsubvv; kVmaccvv; kVnmsacvv; kVwadduvv; kVwaddvv;
       kVwsubuvv; kVwsubvv; kVwadduwv; kVwaddwv; kVwsubuwv; kVwsubwv; kVwmuluvv; kVwmulsuvv;
       kVwmulvv; kVwmaccuvv; kVwmaccvv; kVwmaccsuvv];
     enum_complete := ltac:(cenum_complete); enum_nodup := ltac:(cenum_nodup) |}.
End VOpMVvOpcode.

(** [VOpMVxOpcode], underlying type [uint8_t]. *)
Module VOpMVxOpcode.
Inductive t :=
  | kVaadduvx | kVaaddvx | kVasubuvx | kVasubvx | kVslide1upvx | kVslide1downvx | kVRXUnary0
  | kVdivuvx | kVdivvx | kVremuvx | kVremvx | kVmulhuvx | kVmulvx | kVmulhsuvx | kVmulhvx
  | kVmaddvx | kVnmsubvx | kVmaccvx | kVnmsacvx | kVwadduvx | kVwaddvx | kVwsubuvx | kVwsubvx
  | kVwadduwx | kVwaddwx | kVwsubuwx | kVwsubwx | kVwmuluvx | kVwmulsuvx | kVwmulvx
  | kVwmaccuvx | kVwmaccvx | kVwmaccusvx | kVwmaccsuvx.
Definition to_bits (o : t) : Z :=
  match o with
  | kVaadduvx => 0x8
  | kVaaddvx => 0x9
  | kVasubuvx => 0xa
  | kVasubvx => 0xb
  | kVslide1upvx => 0xe
  | kVslide1downvx => 0xf
  | kVRXUnary0 => 0x10
  | kVdivuvx => 0x20
  | kVdivvx => 0x21
  | kVremuvx => 0x22
  | kVremvx => 0x23
  | kVmulhuvx => 0x24
  | kVmulvx => 0x25
  | kVmulhsuvx => 0x26
  | kVmulhvx => 0x27
  | kVmaddvx => 0x29
  | kVnmsubvx => 0x2b
  | kVmaccvx => 0x2d
  | kVnmsacvx => 0x2f
  | kVwadduvx => 0x30
  | kVwaddvx => 0x31
  | kVwsubuvx => 0x32
  | kVwsubvx => 0x33
  | kVwadduwx => 0x34
  | kVwaddwx => 0x35
  | kVwsubuwx => 0x36
  | kVwsubwx => 0x37
  | kVwmuluvx => 0x38
  | kVwmulsuvx => 0x3a
  | kVwmulvx => 0x3b
  | kVwmaccuvx => 0x3c
  | kVwmaccvx => 0x3d
  | kVwmaccusvx => 0x3e
  | kVwmaccsuvx => 0x3f
  end.
#[global] Instance enum : CEnum t :=
  {| enum_type := u8; enum_bits := to_bits;
     enum_all := [kVaadduvx; kVaaddvx; kVasubuvx; kVasubvx; kVslide1upvx; kVslide1downvx;
       kVRXUnary0; kVdivuvx; kVdivvx; kVremuvx; kVremvx; kVmulhuvx; kVmulvx; kVmulhsuvx;
       kVmulhvx; kVmaddvx; kVnmsubvx; kVmaccvx; kVnmsacvx; kVwadduvx; kVwaddvx; kVwsubuvx;
       kVwsubvx; kVwadduwx; kVwaddwx; kVwsubuwx; kVwsubwx; kVwmuluvx; kVwmulsuvx; kVwmulvx;
       kVwmaccuvx; kVwmaccvx; kVwmaccusvx; kVwmaccsuvx];
     enum_complete := ltac:(cenum_complete); enum_nodup := ltac:(cenum_nodup) |}.
End VOpMVxOpcode.

(** [VSUmOpOpcode], underlying type [uint8_t]. *)
Module VSUmOpOpcode.
Inductive t :=
  | kVseXX | kVsX | kVsm.
Definition to_bits (o : t) : Z :=
  match o with
  | kVseXX => 0x0
  | kVsX => 0x8
  | kVsm => 0xb
  end.
#[global] Instance enum : CEnum t :=
  {| enum_type := u8; enum_bits := to_bits;
     enum_all := [kVseXX; kVsX; kVsm];
     enum_complete := ltac:(cenum_complete); enum_nodup := ltac:(cenum_nodup) |}.
End VSUmOpOpcode.

(** [VFUnary0Opcode], underlying type [uint8_t]. *)
Module VFUnary0Opcode.
Inductive t :=
  | kVfcvtxufv | kVfcvtxfv | kVfcvtfxuv | kVfcvtfxv | kVfcvtrtzxufv | kVfcvtrtzxfv
  | kVfwcvtxufv | kVfwcvtxfv | kVfwcvtfxuv | kVfwcvtfxv | kVfwcvtffv | kVfwcvtrtzxufv
  | kVfwcvtrtzxfv | kVfncvtxufw | kVfncvtxfw | kVfncvtfxuw | kVfncvtfxw | kVfncvtffw
  | kVfncvtrodffw | kVfncvtrtzxufw | kVfncvtrtzxfw.
Definition to_bits (o : t) : Z :=
  match o with
  | kVfcvtxufv => 0x0
  | kVfcvtxfv => 0x1
  | kVfcvtfxuv => 0x2
  | kVfcvtfxv => 0x3
  | kVfcvtrtzxufv => 0x6
  | kVfcvtrtzxfv => 0x7
  | kVfwcvtxufv => 0x8
  | kVfwcvtxfv => 0x9
  | kVfwcvtfxuv => 0xa
  | kVfwcvtfxv => 0xb
  | kVfwcvtffv => 0xc
  | kVfwcvtrtzxufv => 0xe
  | kVfwcvtrtzxfv => 0xf
  | kVfncvtxufw => 0x10
  | kVfncvtxfw => 0x11
  | kVfncvtfxuw => 0x12
  | kVfncvtfxw => 0x13
  | kVfncvtffw => 0x14
  | kVfncvtrodffw => 0x15
  | kVfncvtrtzxufw => 0x16
  | kVfncvtrtzxfw => 0x17
  end.
#[global] Instance enum : CEnum t :=
  {| enum_type := u8; enum_bits := to_bits;
     enum_all := [kVfcvtxufv; kVfcvtxfv; kVfcvtfxuv; kVfcvtfxv; kVfcvtrtzxufv; kVfcvtrtzxfv;
       kVfwcvtxufv; kVfwcvtxfv; kVfwcvtfxuv; kVfwcvtfxv; kVfwcvtffv; kVfwcvtrtzxufv;
       kVfwcvtrtzxfv; kVfncvtxufw; kVfncvtxfw; kVfncvtfxuw; kVfncvtfxw; kVfncvtffw;
       kVfncvtrodffw; kVfncvtrtzxufw; kVfncvtrtzxfw];
     enum_complete := ltac:(cenum_complete); enum_nodup := ltac:(cenum_nodup) |}.
End VFUnary0Opcode.

(** [VFUnary1Opcode], underlying type [uint8_t]. *)
Module VFUnary1Opcode.
Inductive t :=
  | kVfsqrtv | kVfrsqrt7v | kVfclassv.
Definition to_bits (o : t) : Z :=
  match o with
  | kVfsqrtv => 0x0
  | kVfrsqrt7v => 0x4
  | kVfclassv => 0x10
  end.
#[global] Instance enum : CEnum t :=
  {| enum_type := u8; enum_bits := to_bits;
     enum_all := [kVfsqrtv; kVfrsqrt7v; kVfclassv];
     enum_complete := ltac:(cenum_complete); enum_nodup := ltac:(cenum_nodup) |}.
End VFUnary1Opcode.

(** [VRXUnary0Opcode], underlying type [uint8_t]. *)
Module VRXUnary0Opcode.
Inductive t :=
  | kVmvsx.
Definition to_bits (o : t) : Z :=
  match o with
  | kVmvsx => 0x0
  end.
#[global] Instance enum : CEnum t :=
  {| enum_type := u8; enum_bits := to_bits;
     enum_all := [kVmvsx];
     enum_complete := ltac:(cenum_complete); enum_nodup := ltac:(cenum_nodup) |}.
End VRXUnary0Opcode.

(** [VWXUnary0Opcode], underlying type [uint8_t]. *)
Module VWXUnary0Opcode.
Inductive t :=
  | kVmvxs | kVcpopm | kVfirstm.
Definition to_bits (o : t) : Z :=
  match o with
  | kVmvxs => 0x0
  | kVcpopm => 0x10
  | kVfirstm => 0x11
  end.
#[global] Instance enum : CEnum t :=
  {| enum_type := u8; enum_bits := to_bits;
     enum_all := [kVmvxs; kVcpopm; kVfirstm];
     enum_complete := ltac:(cenum_complete); enum_nodup := ltac:(cenum_nodup) |}.
End VWXUnary0Opcode.

(** [VMUnary0Opcode], underlying type [uint8_t]. *)
Module VMUnary0Opcode.
Inductive t :=
  | kVmsbfm | kVmsofm | kVmsifm | kViotam | kVidv.
Definition to_bits (o : t) : Z :=
  match o with
  | kVmsbfm => 0x1
  | kVmsofm => 0x2
  | kVmsifm => 0x3
  | kViotam => 0x10
  | kVidv => 0x11
  end.
#[global] Instance enum : CEnum t :=
  {| enum_type := u8; enum_bits := to_bits;
     enum_all := [kVmsbfm; kVmsofm; kVmsifm; kViotam; kVidv];
     enum_complete := ltac:(cenum_complete); enum_nodup := ltac:(cenum_nodup) |}.
End VMUnary0Opcode.

(** [VXUnary0Opcode], underlying type [uint8_t]. *)
Module VXUnary0Opcode.
Inductive t :=
  | kVzextvf8m | kVsextvf8m | kVzextvf4m | kVsextvf4m | kVzextvf2m | kVsextvf2m | kVbrev8v.
Definition to_bits (o : t) : Z :=
  match o with
  | kVzextvf8m => 0x2
  | kVsextvf8m => 0x3
  | kVzextvf4m => 0x4
  | kVsextvf4m => 0x5
  | kVzextvf2m => 0x6
  | kVsextvf2m => 0x7
  | kVbrev8v => 0x8
  end.
#[global] Instance enum : CEnum t :=
  {| enum_type := u8; enum_bits := to_bits;
     enum_all := [kVzextvf8m; kVsextvf8m; kVzextvf4m; kVsextvf4m; kVzextvf2m; kVsextvf2m;
       kVbrev8v];
     enum_complete := ltac:(cenum_complete); enum_nodup := ltac:(cenum_nodup) |}.
End VXUnary0Opcode.

(** [FcvtOperandType], underlying type [uint8_t]. *)
Module FcvtOperandType.
Inductive t :=
  | k32bitSigned | k32bitUnsigned | k64bitSigned | k64bitUnsigned.
Definition to_bits (o : t) : Z :=
  match o with
  | k32bitSigned => 0x0
  | k32bitUnsigned => 0x1
  | k64bitSigned => 0x2
  | k64bitUnsigned => 0x3
  end.
#[global] Instance enum : CEnum t :=
  {| enum_type := u8; enum_bits := to_bits;
     enum_all := [k32bitSigned; k32bitUnsigned; k64bitSigned; k64bitUnsigned];
     enum_complete := ltac:(cenum_complete); enum_nodup := ltac:(cenum_nodup) |}.
End FcvtOperandType.

(** [FloatOperandType], underlying type [uint8_t]. *)
Module FloatOperandType.
Inductive t :=
  | kFloat | kDouble | kHalf | kQuad.
Definition to_bits (o : t) : Z :=
  match o with
  | kFloat => 0x0
  | kDouble => 0x1
  | kHalf => 0x2
  | kQuad => 0x3
  end.
#[global] Instance enum : CEnum t :=
  {| enum_type := u8; enum_bits := to_bits;
     enum_all := [kFloat; kDouble; kHalf; kQuad];
     enum_complete := ltac:(cenum_complete); enum_nodup := ltac:(cenum_nodup) |}.
End FloatOperandType.

(** [MemoryDataOperandType], underlying type [uint8_t]. *)
Module MemoryDataOperandType.
Inductive t :=
  | k8bit | k16bit | k32bit | k64bit.
Definition to_bits (o : t) : Z :=
  match o with
  | k8bit => 0x0
  | k16bit => 0x1
  | k32bit => 0x2
  | k64bit => 0x3
  end.
#[global] Instance enum : CEnum t :=
  {| enum_type := u8; enum_bits := to_bits;
     enum_all := [k8bit; k16bit; k32bit; k64bit];
     enum_complete := ltac:(cenum_complete); enum_nodup := ltac:(cenum_nodup) |}.
End MemoryDataOperandType.

(** [LoadOperandType], underlying type [uint8_t]. *)
Module LoadOperandType.
Inductive t :=
  | k8bitSigned | k16bitSigned | k32bitSigned | k64bit | k8bitUnsigned | k16bitUnsigned
  | k32bitUnsigned.
Definition to_bits (o : t) : Z :=
  match o with
  | k8bitSigned => 0x0
  | k16bitSigned => 0x1
  | k32bitSigned => 0x2
  | k64bit => 0x3
  | k8bitUnsigned => 0x4
  | k16bitUnsigned => 0x5
  | k32bitUnsigned => 0x6
  end.
#[global] Instance enum : CEnum t :=
  {| enum_type := u8; enum_bits := to_bits;
     enum_all := [k8bitSigned; k16bitSigned; k32bitSigned; k64bit; k8bitUnsigned;
       k16bitUnsigned; k32bitUnsigned];
     enum_complete := ltac:(cenum_complete); enum_nodup := ltac:(cenum_nodup) |}.
End LoadOperandType.

(** [BaseOpcode]. *)
Module BaseOpcode.
Inductive t :=
  | kLoad | kLoadFp | kCustom0 | kMiscMem | kOpImm | kAuipc | kOpImm32 | kStore | kStoreFp
  | kCustom1 | kAmo | kOp | kLui | kOp32 | kMAdd | kMSub | kNmSub | kNmAdd | kOpFp | vOpV
  | kCustom2 | kBranch | kJalr | kJal | kSystem | kCustom3.
Definition to_bits (o : t) : Z :=
  match o with
  | kLoad => 0x0
  | kLoadFp => 0x1
  | kCustom0 => 0x2
  | kMiscMem => 0x3
  | kOpImm => 0x4
  | kAuipc => 0x5
  | kOpImm32 => 0x6
  | kStore => 0x8
  | kStoreFp => 0x9
  | kCustom1 => 0xa
  | kAmo => 0xb
  | kOp => 0xc
  | kLui => 0xd
  | kOp32 => 0xe
  | kMAdd => 0x10
  | kMSub => 0x11
  | kNmSub => 0x12
  | kNmAdd => 0x13
  | kOpFp => 0x14
  | vOpV => 0x15
  | kCustom2 => 0x16
  | kBranch => 0x18
  | kJalr => 0x19
  | kJal => 0x1b
  | kSystem => 0x1c
  | kCustom3 => 0x1e
  end.
#[global] Instance enum : CEnum t :=
  {| enum_type := i32; enum_bits := to_bits;
     enum_all := [kLoad; kLoadFp; kCustom0; kMiscMem; kOpImm; kAuipc; kOpImm32; kStore;
       kStoreFp; kCustom1; kAmo; kOp; kLui; kOp32; kMAdd; kMSub; kNmSub; kNmAdd; kOpFp; vOpV;
       kCustom2; kBranch; kJalr; kJal; kSystem; kCustom3];
     enum_complete := ltac:(cenum_complete); enum_nodup := ltac:(cenum_nodup) |}.
End BaseOpcode.

(** [CompressedOpcode]. *)
Module CompressedOpcode.
Inductive t :=
  | kAddi4spn | kFld | kLw | kLd | kFsd | kSw | kSd | kAddi | kAddiw | kLi | kLui_Addi16sp
  | kMisc_Alu | kJ | kBeqz | kBnez | kSlli | kFldsp | kLwsp | kLdsp | kJr_Jalr_Mv_Add | kFsdsp
  | kSwsp | kSdsp.
Definition to_bits (o : t) : Z :=
  match o with
  | kAddi4spn => 0x0
  | kFld => 0x4
  | kLw => 0x8
  | kLd => 0xc
  | kFsd => 0x14
  | kSw => 0x18
  | kSd => 0x1c
  | kAddi => 0x1
  | kAddiw => 0x5
  | kLi => 0x9
  | kLui_Addi16sp => 0xd
  | kMisc_Alu => 0x11
  | kJ => 0x15
  | kBeqz => 0x19
  | kBnez => 0x1d
  | kSlli => 0x2
  | kFldsp => 0x6
  | kLwsp => 0xa
  | kLdsp => 0xe
  | kJr_Jalr_Mv_Add => 0x12
  | kFsdsp => 0x16
  | kSwsp => 0x1a
  | kSdsp => 0x1e
  end.
#[global] Instance enum : CEnum t :=
  {| enum_type := i32; enum_bits := to_bits;
     enum_all := [kAddi4spn; kFld; kLw; kLd; kFsd; kSw; kSd; kAddi; kAddiw; kLi;
       kLui_Addi16sp; kMisc_Alu; kJ; kBeqz; kBnez; kSlli; kFldsp; kLwsp; kLdsp;
       kJr_Jalr_Mv_Add; kFsdsp; kSwsp; kSdsp];
     enum_complete := ltac:(cenum_complete); enum_nodup := ltac:(cenum_nodup) |}.
End CompressedOpcode.

(** [AmoArgs] *)
Module AmoArgs.
Record t := mk {
  opcode : Z;
  operand_type : Z;
  dst : Z;
  src1 : Z;
  src2 : Z;
  rl : bool;
  aq : bool
}.
End AmoArgs.

(** [BranchArgs] *)
Module BranchArgs.
Record t := mk {
  opcode : Z;
  src1 : Z;
  src2 : Z;
  offset : Z
}.
End BranchArgs.

(** [CsrArgs] *)
Module CsrArgs.
Record t := mk {
  opcode : Z;
  dst : Z;
  src : Z;
  csr : Z
}.
End CsrArgs.

(** [CsrImmArgs] *)
Module CsrImmArgs.
Record t := mk {
  opcode : Z;
  dst : Z;
  imm : Z;
  csr : Z
}.
End CsrImmArgs.

(** [FcvtFloatToFloatArgs] *)
Module FcvtFloatToFloatArgs.
Record t := mk {
  dst_type : Z;
  src_type : Z;
  dst : Z;
  src : Z;
  rm : Z
}.
End FcvtFloatToFloatArgs.

(** [FcvtFloatToIntegerArgs] *)
Module FcvtFloatToIntegerArgs.
Record t := mk {
  dst_type : Z;
  src_type : Z;
  dst : Z;
  src : Z;
  rm : Z
}.
End FcvtFloatToIntegerArgs.

(** [FcvtIntegerToFloatArgs] *)
Module FcvtIntegerToFloatArgs.
Record t := mk {
  dst_type : Z;
  src_type : Z;
  dst : Z;
  src : Z;
  rm : Z
}.
End FcvtIntegerToFloatArgs.

(** [FenceArgs] *)
Module FenceArgs.
Record t := mk {
  opcode : Z;
  dst : Z;
  src : Z;
  sw : bool;
  sr : bool;
  so : bool;
  si : bool;
  pw : bool;
  pr : bool;
  po : bool;
  pi : bool
}.
End FenceArgs.

(** [FenceIArgs] *)
Module FenceIArgs.
Record t := mk {
  dst : Z;
  src : Z;
  imm : Z
}.
End FenceIArgs.

(** [FmaArgs] *)
Module FmaArgs.
Record t := mk {
  opcode : Z;
  operand_type : Z;
  dst : Z;
  src1 : Z;
  src2 : Z;
  src3 : Z;
  rm : Z
}.
End FmaArgs.

(** [JumpAndLinkArgs] *)
Module JumpAndLinkArgs.
Record t := mk {
  dst : Z;
  offset : Z;
  insn_len : Z
}.
End JumpAndLinkArgs.

(** [JumpAndLinkRegisterArgs] *)
Module JumpAndLinkRegisterArgs.
Record t := mk {
  dst : Z;
  base : Z;
  offset : Z;
  insn_len : Z
}.
End JumpAndLinkRegisterArgs.

(** [OpArgsTemplate] *)
Module OpArgsTemplate.
Record t := mk {
  opcode : Z;
  dst : Z;
  src1 : Z;
  src2 : Z
}.
End OpArgsTemplate.

(** [OpSingleInputArgs] *)
Module OpSingleInputArgs.
Record t := mk {
  opcode : Z;
  dst : Z;
  src : Z
}.
End OpSingleInputArgs.

(** [OpFpArgs] *)
Module OpFpArgs.
Record t := mk {
  opcode : Z;
  operand_type : Z;
  dst : Z;
  src1 : Z;
  src2 : Z;
  rm : Z
}.
End OpFpArgs.

(** [OpFpGpRegisterTargetNoRoundingArgs] *)
Module OpFpGpRegisterTargetNoRoundingArgs.
Record t := mk {
  opcode : Z;
  operand_type : Z;
  dst : Z;
  src1 : Z;
  src2 : Z
}.
End OpFpGpRegisterTargetNoRoundingArgs.

(** [OpFpGpRegisterTargetSingleInputNoRoundingArgs] *)
Module OpFpGpRegisterTargetSingleInputNoRoundingArgs.
Record t := mk {
  opcode : Z;
  operand_type : Z;
  dst : Z;
  src : Z
}.
End OpFpGpRegisterTargetSingleInputNoRoundingArgs.

(** [FmvFloatToIntegerArgs] *)
Module FmvFloatToIntegerArgs.
Record t := mk {
  operand_type : Z;
  dst : Z;
  src : Z
}.
End FmvFloatToIntegerArgs.

(** [FmvIntegerToFloatArgs] *)
Module FmvIntegerToFloatArgs.
Record t := mk {
  operand_type : Z;
  dst : Z;
  src : Z
}.
End FmvIntegerToFloatArgs.

(** [OpFpNoRoundingArgs] *)
Module OpFpNoRoundingArgs.
Record t := mk {
  opcode : Z;
  operand_type : Z;
  dst : Z;
  src1 : Z;
  src2 : Z
}.
End OpFpNoRoundingArgs.

(** [OpFpSingleInputArgs] *)
Module OpFpSingleInputArgs.
Record t := mk {
  opcode : Z;
  operand_type : Z;
  dst : Z;
  src : Z;
  rm : Z
}.
End OpFpSingleInputArgs.

(** [OpFpSingleInputNoRoundingArgs] *)
Module OpFpSingleInputNoRoundingArgs.
Record t := mk {
  opcode : Z;
  operand_type : Z;
  dst : Z;
  src : Z
}.
End OpFpSingleInputNoRoundingArgs.

(** [OpImmArgsTemplate] *)
Module OpImmArgsTemplate.
Record t := mk {
  opcode : Z;
  dst : Z;
  src : Z;
  imm : Z
}.
End OpImmArgsTemplate.

(** [VLoadIndexedArgs] *)
Module VLoadIndexedArgs.
Record t := mk {
  width : Z;
  vm : bool;
  ordered : bool;
  nf : Z;
  dst : Z;
  src : Z;
  idx : Z
}.
End VLoadIndexedArgs.

(** [VLoadStrideArgs] *)
Module VLoadStrideArgs.
Record t := mk {
  width : Z;
  vm : bool;
  ordered : bool;
  nf : Z;
  dst : Z;
  src : Z;
  std : Z
}.
End VLoadStrideArgs.

(** [VLoadUnitStrideArgs] *)
Module VLoadUnitStrideArgs.
Record t := mk {
  opcode : Z;
  width : Z;
  vm : bool;
  nf : Z;
  dst : Z;
  src : Z
}.
End VLoadUnitStrideArgs.

(** [VOpFVfArgs] *)
Module VOpFVfArgs.
Record t := mk {
  opcode : Z;
  vm : bool;
  dst : Z;
  src1 : Z;
  src2 : Z
}.
End VOpFVfArgs.

(** [VOpFVvArgs] *)
Module VOpFVvArgs.
Record t := mk {
  opcode : Z;
  vm : bool;
  dst : Z;
  src1 : Z;
  src2 : Z
}.
End VOpFVvArgs.

(** [VOpIViArgs] *)
Module VOpIViArgs.
Record t := mk {
  opcode : Z;
  vm : bool;
  dst : Z;
  src : Z;
  uimm : Z
}.
End VOpIViArgs.

(** [VOpIVvArgs] *)
Module VOpIVvArgs.
Record t := mk {
  opcode : Z;
  vm : bool;
  dst : Z;
  src1 : Z;
  src2 : Z
}.
End VOpIVvArgs.

(** [VOpIVxArgs] *)
Module VOpIVxArgs.
Record t := mk {
  opcode : Z;
  vm : bool;
  dst : Z;
  src1 : Z;
  src2 : Z
}.
End VOpIVxArgs.

(** [VOpMVvArgs] *)
Module VOpMVvArgs.
Record t := mk {
  opcode : Z;
  vm : bool;
  dst : Z;
  src1 : Z;
  src2 : Z
}.
End VOpMVvArgs.

(** [VOpMVxArgs] *)
Module VOpMVxArgs.
Record t := mk {
  opcode : Z;
  vm : bool;
  dst : Z;
  src1 : Z;
  src2 : Z
}.
End VOpMVxArgs.

(** [VsetivliArgs] *)
Module VsetivliArgs.
Record t := mk {
  dst : Z;
  avl : Z;
  vtype : Z
}.
End VsetivliArgs.

(** [VsetvliArgs] *)
Module VsetvliArgs.
Record t := mk {
  dst : Z;
  src : Z;
  vtype : Z
}.
End VsetvliArgs.

(** [VsetvlArgs] *)
Module VsetvlArgs.
Record t := mk {
  dst : Z;
  src1 : Z;
  src2 : Z
}.
End VsetvlArgs.

(** [VStoreIndexedArgs] *)
Module VStoreIndexedArgs.
Record t := mk {
  width : Z;
  vm : bool;
  ordered : bool;
  nf : Z;
  src : Z;
  idx : Z;
  data : Z
}.
End VStoreIndexedArgs.

(** [VStoreStrideArgs] *)
Module VStoreStrideArgs.
Record t := mk {
  width : Z;
  vm : bool;
  ordered : bool;
  nf : Z;
  src : Z;
  std : Z;
  data : Z
}.
End VStoreStrideArgs.

(** [VStoreUnitStrideArgs] *)
Module VStoreUnitStrideArgs.
Record t := mk {
  opcode : Z;
  width : Z;
  vm : bool;
  nf : Z;
  src : Z;
  data : Z
}.
End VStoreUnitStrideArgs.

(** [LoadArgsTemplate] *)
Module LoadArgsTemplate.
Record t := mk {
  operand_type : Z;
  dst : Z;
  src : Z;
  offset : Z
}.
End LoadArgsTemplate.

(** [ShiftImmArgsTemplate] *)
Module ShiftImmArgsTemplate.
Record t := mk {
  opcode : Z;
  dst : Z;
  src : Z;
  imm : Z
}.
End ShiftImmArgsTemplate.

(** [BitmanipImmArgsTemplate] *)
Module BitmanipImmArgsTemplate.
Record t := mk {
  opcode : Z;
  dst : Z;
  src : Z;
  shamt : Z
}.
End BitmanipImmArgsTemplate.

(** [StoreArgsTemplate] *)
Module StoreArgsTemplate.
Record t := mk {
  operand_type : Z;
  src : Z;
  offset : Z;
  data : Z
}.
End StoreArgsTemplate.

(** [SystemArgs] *)
Module SystemArgs.
Record t := mk {
  opcode : Z
}.
End SystemArgs.

(** [UpperImmArgs] *)
Module UpperImmArgs.
Record t := mk {
  dst : Z;
  imm : Z
}.
End UpperImmArgs.
(** ** The methods of the instruction consumer

    One constructor per method and argument type the decoder calls; the
    overloads of [Csr], [Fcvt], [Load], [Store], [Op], [OpImm] and [OpVector]
    have a constructor each. *)
Inductive InsnCall :=
  | Amo (args : AmoArgs.t)
  | Auipc (args : UpperImmArgs.t)
  | CompareAndBranch (args : BranchArgs.t)
  | Csr (args : CsrArgs.t)
  | CsrImm (args : CsrImmArgs.t)
  | FcvtFloatToFloat (args : FcvtFloatToFloatArgs.t)
  | FcvtFloatToInteger (args : FcvtFloatToIntegerArgs.t)
  | FcvtIntegerToFloat (args : FcvtIntegerToFloatArgs.t)
  | Fence (args : FenceArgs.t)
  | FenceI (args : FenceIArgs.t)
  | Fma (args : FmaArgs.t)
  | FmvFloatToInteger (args : FmvFloatToIntegerArgs.t)
  | FmvIntegerToFloat (args : FmvIntegerToFloatArgs.t)
  | JumpAndLink (args : JumpAndLinkArgs.t)
  | JumpAndLinkRegister (args : JumpAndLinkRegisterArgs.t)
  | Load (args : LoadArgsTemplate.t)
  | LoadFp (args : LoadArgsTemplate.t)
  | Lui (args : UpperImmArgs.t)
  | Nop
  | Op (args : OpArgsTemplate.t)
  | Op32 (args : OpArgsTemplate.t)
  | OpFp (args : OpFpArgs.t)
  | OpFpGpRegisterTargetNoRounding (args : OpFpGpRegisterTargetNoRoundingArgs.t)
  | OpFpGpRegisterTargetSingleInputNoRounding
      (args : OpFpGpRegisterTargetSingleInputNoRoundingArgs.t)
  | OpFpNoRounding (args : OpFpNoRoundingArgs.t)
  | OpFpSingleInput (args : OpFpSingleInputArgs.t)
  | OpFpSingleInputNoRounding (args : OpFpSingleInputNoRoundingArgs.t)
  | OpImm (args : OpImmArgsTemplate.t)
  | OpImm32 (args : OpImmArgsTemplate.t)
  | OpImmShift (args : ShiftImmArgsTemplate.t)
  | OpImmShift32 (args : ShiftImmArgsTemplate.t)
  | OpImmBitmanip (args : BitmanipImmArgsTemplate.t)
  | OpImmBitmanip32 (args : BitmanipImmArgsTemplate.t)
  | OpSingleInput (args : OpSingleInputArgs.t)
  | OpVectorLoadIndexed (args : VLoadIndexedArgs.t)
  | OpVectorLoadStride (args : VLoadStrideArgs.t)
  | OpVectorLoadUnitStride (args : VLoadUnitStrideArgs.t)
  | OpVectorFVf (args : VOpFVfArgs.t)
  | OpVectorFVv (args : VOpFVvArgs.t)
  | OpVectorIVi (args : VOpIViArgs.t)
  | OpVectorIVv (args : VOpIVvArgs.t)
  | OpVectorIVx (args : VOpIVxArgs.t)
  | OpVectorMVv (args : VOpMVvArgs.t)
  | OpVectorMVx (args : VOpMVxArgs.t)
  | OpVectorStoreIndexed (args : VStoreIndexedArgs.t)
  | OpVectorStoreStride (args : VStoreStrideArgs.t)
  | OpVectorStoreUnitStride (args : VStoreUnitStrideArgs.t)
  | Store (args : StoreArgsTemplate.t)
  | StoreFp (args : StoreArgsTemplate.t)
  | System (args : SystemArgs.t)
  | Undefined
  | Vsetivli (args : VsetivliArgs.t)
  | Vsetvl (args : VsetvlArgs.t)
  | Vsetvli (args : VsetvliArgs.t).
