(* ===== verification/RiscvDecoder.v ===== *)
(** * The RISC-V 64 instruction decoder

    decoder/include/berberis/decoder/riscv64/decoder.h, the methods of
    [class Decoder].  The decoder reads an instruction and calls one method of
    its instruction consumer; a decoding function here returns the list of
    those calls in order ([DecodeCompressedAddi] makes two).  [code] is the
    member [code_], a 32-bit word. *)
From S2P Require Import Prelude MachineInt RiscvInsn.

(** ** Reading fields *)

(** The unsigned type [GetBits] returns; a single bit is a [bool], read here
    as 0 or 1. *)
Definition GetBits_type (size : Z) : IntType :=
  if size <=? 8 then u8 else if size <=? 16 then u16 else u32.

(** [GetBits<start, size>()] *)
Definition GetBits (code start size : Z) : Z :=
  let shifted_val := cast u32 (Z.shiftl code (32 - start - size)) in
  cast (GetBits_type size) (Z.shiftr shifted_val (32 - size)).

(** A one-bit field used as a [bool]. *)
Definition GetBit (code start : Z) : bool := negb (GetBits code start 1 =? 0).

(** [SignExtend<size>(val)]: the value of a signed bit-field of [size] bits. *)
Definition SignExtend (size val : Z) : Z := cast (mkIntType size true) val.

(** Element [i] of a constant table. *)
Definition table (l : list Z) (i : Z) : Z := nth (Z.to_nat i) l 0.
Arguments table : simpl never.

(** ** Compressed instructions *)

Definition DecodeCompressedLi (code : Z) : list InsnCall :=
  let low_imm := GetBits code 2 5 in
  let high_imm := GetBits code 12 1 in
  let rd := GetBits code 7 5 in
  let imm := cast i8 (SignExtend 6 (Z.shiftl high_imm 5 + low_imm)) in
  [OpImm {| OpImmArgsTemplate.opcode := enum_bits OpImmOpcode.kAddi;
            OpImmArgsTemplate.dst := rd;
            OpImmArgsTemplate.src := 0;
            OpImmArgsTemplate.imm := imm |}].

(** The Zcb single-register operations. *)
Definition MiscAlu_si_opcode (zc_opcode : Z) : option OpSingleInputOpcode.t :=
  if zc_opcode =? 0xfa then Some OpSingleInputOpcode.kZexth
  else if zc_opcode =? 0xf8 then Some OpSingleInputOpcode.kZextb
  else if zc_opcode =? 0xfc then Some OpSingleInputOpcode.kZextw
  else if zc_opcode =? 0xf9 then Some OpSingleInputOpcode.kSextb
  else if zc_opcode =? 0xfb then Some OpSingleInputOpcode.kSexth
  else None.

Definition DecodeCompressedMiscAlu (code : Z) : list InsnCall :=
  let r := cast u8 (GetBits code 7 3 + 8) in
  let low_imm := GetBits code 2 5 in
  let high_imm := GetBits code 12 1 in
  let imm := cast u8 (Z.shiftl high_imm 5 + low_imm) in
  let zc_high_opcode_bits := GetBits code 10 3 in
  let zc_opcode := cast u16 (Z.lor low_imm (Z.shiftl zc_high_opcode_bits 5)) in
  let shift op := [OpImmShift {| ShiftImmArgsTemplate.opcode := enum_bits op;
                                 ShiftImmArgsTemplate.dst := r;
                                 ShiftImmArgsTemplate.src := r;
                                 ShiftImmArgsTemplate.imm := imm |}] in
  match MiscAlu_si_opcode zc_opcode with
  | Some si_opcode =>
      [OpSingleInput {| OpSingleInputArgs.opcode := enum_bits si_opcode;
                        OpSingleInputArgs.dst := r;
                        OpSingleInputArgs.src := r |}]
  | None =>
      let kind := GetBits code 10 2 in
      if kind =? 0 then shift ShiftImmOpcode.kSrli
      else if kind =? 1 then shift ShiftImmOpcode.kSrai
      else if kind =? 2 then
        [OpImm {| OpImmArgsTemplate.opcode := enum_bits OpImmOpcode.kAndi;
                  OpImmArgsTemplate.dst := r;
                  OpImmArgsTemplate.src := r;
                  OpImmArgsTemplate.imm := SignExtend 6 imm |}]
      else
        let rs2 := cast u8 (GetBits code 2 3 + 8) in
        let args opcode := {| OpArgsTemplate.opcode := opcode;
                              OpArgsTemplate.dst := r;
                              OpArgsTemplate.src1 := r;
                              OpArgsTemplate.src2 := rs2 |} in
        let sel := GetBits code 5 2 in
        if GetBits code 12 1 =? 0 then
          [Op (args (enum_bits (if sel =? 0 then OpOpcode.kSub
                                else if sel =? 1 then OpOpcode.kXor
                                else if sel =? 2 then OpOpcode.kOr
                                else OpOpcode.kAnd)))]
        else if sel =? 0 then [Op32 (args (enum_bits Op32Opcode.kSubw))]
        else if sel =? 1 then [Op32 (args (enum_bits Op32Opcode.kAddw))]
        else [Undefined]
  end.

(** The templates over [kOperandType] take its value and whether its type is
    [FloatOperandType], which selects the overload of the consumer. *)
Definition Storesp_k32bit : list Z :=
  [0x00; 0x10; 0x20; 0x30; 0x01; 0x11; 0x21; 0x31; 0x02; 0x12; 0x22; 0x32; 0x03;
   0x13; 0x23; 0x33; 0x04; 0x14; 0x24; 0x34; 0x05; 0x15; 0x25; 0x35; 0x06; 0x16;
   0x26; 0x36; 0x07; 0x17; 0x27; 0x37; 0x08; 0x18; 0x28; 0x38; 0x09; 0x19; 0x29;
   0x39; 0x0a; 0x1a; 0x2a; 0x3a; 0x0b; 0x1b; 0x2b; 0x3b; 0x0c; 0x1c; 0x2c; 0x3c;
   0x0d; 0x1d; 0x2d; 0x3d; 0x0e; 0x1e; 0x2e; 0x3e; 0x0f; 0x1f; 0x2f; 0x3f].
Definition Storesp_k64bit : list Z :=
  [0x00; 0x10; 0x20; 0x30; 0x40; 0x50; 0x60; 0x70; 0x02; 0x12; 0x22; 0x32; 0x42;
   0x52; 0x62; 0x72; 0x04; 0x14; 0x24; 0x34; 0x44; 0x54; 0x64; 0x74; 0x06; 0x16;
   0x26; 0x36; 0x46; 0x56; 0x66; 0x76; 0x08; 0x18; 0x28; 0x38; 0x48; 0x58; 0x68;
   0x78; 0x0a; 0x1a; 0x2a; 0x3a; 0x4a; 0x5a; 0x6a; 0x7a; 0x0c; 0x1c; 0x2c; 0x3c;
   0x4c; 0x5c; 0x6c; 0x7c; 0x0e; 0x1e; 0x2e; 0x3e; 0x4e; 0x5e; 0x6e; 0x7e].

Definition DecodeCompressedStoresp (is_float : bool) (kOperandType code : Z) : list InsnCall :=
  let raw_imm := GetBits code 7 6 in
  let rs2 := GetBits code 2 5 in
  let imm := cast i16 (Z.shiftl
    (table (if Z.land kOperandType 1 =? 0 then Storesp_k32bit else Storesp_k64bit) raw_imm) 2) in
  let args := {| StoreArgsTemplate.operand_type := kOperandType;
                 StoreArgsTemplate.src := 2;
                 StoreArgsTemplate.offset := imm;
                 StoreArgsTemplate.data := rs2 |} in
  [if is_float then StoreFp args else Store args].

Definition kAddi16spLow : list Z :=
  [0x00; 0x08; 0x20; 0x28; 0x40; 0x48; 0x60; 0x68;
   0x10; 0x18; 0x30; 0x38; 0x50; 0x58; 0x70; 0x78;
   0x04; 0x0c; 0x24; 0x2c; 0x44; 0x4c; 0x64; 0x6c;
   0x14; 0x1c; 0x34; 0x3c; 0x54; 0x5c; 0x74; 0x7c].

Definition DecodeCompressedLuiAddi16sp (code : Z) : list InsnCall :=
  let low_imm := GetBits code 2 5 in
  let high_imm := GetBits code 12 1 in
  let rd := GetBits code 7 5 in
  if negb (rd =? 2) then
    [Lui {| UpperImmArgs.dst := rd;
            UpperImmArgs.imm := SignExtend 18 (Z.shiftl high_imm 17 + Z.shiftl low_imm 12) |}]
  else
    [OpImm {| OpImmArgsTemplate.opcode := enum_bits OpImmOpcode.kAddi;
              OpImmArgsTemplate.dst := 2;
              OpImmArgsTemplate.src := 2;
              OpImmArgsTemplate.imm :=
                cast i16 (SignExtend 10 (Z.shiftl high_imm 9
                                         + Z.shiftl (table kAddi16spLow low_imm) 2)) |}].

Inductive LoadStore := kLoad | kStore.

Definition kLwLow : list Z := [0x0; 0x40; 0x04; 0x44].

Definition DecodeCompressedLoadStore (kLoadStore : LoadStore) (is_float : bool)
    (kOperandType code : Z) : list InsnCall :=
  let low_imm := GetBits code 5 2 in
  let high_imm := GetBits code 10 3 in
  let imm := if Z.land kOperandType 1 =? 0
             then cast u8 (Z.lor (table kLwLow low_imm) (Z.shiftl high_imm 3))
             else cast u8 (Z.lor (Z.shiftl low_imm 6) (Z.shiftl high_imm 3)) in
  let rd := GetBits code 2 3 in
  let rs := GetBits code 7 3 in
  match kLoadStore with
  | kStore =>
      let args := {| StoreArgsTemplate.operand_type := kOperandType;
                     StoreArgsTemplate.src := cast u8 (8 + rs);
                     StoreArgsTemplate.offset := imm;
                     StoreArgsTemplate.data := cast u8 (8 + rd) |} in
      [if is_float then StoreFp args else Store args]
  | kLoad =>
      let args := {| LoadArgsTemplate.operand_type := kOperandType;
                     LoadArgsTemplate.dst := cast u8 (8 + rd);
                     LoadArgsTemplate.src := cast u8 (8 + rs);
                     LoadArgsTemplate.offset := imm |} in
      [if is_float then LoadFp args else Load args]
  end.

Definition Loadsp_k32bitLow : list Z :=
  [0x00; 0x10; 0x20; 0x30; 0x01; 0x11; 0x21; 0x31;
   0x02; 0x12; 0x22; 0x32; 0x03; 0x13; 0x23; 0x33;
   0x04; 0x14; 0x24; 0x34; 0x05; 0x15; 0x25; 0x35;
   0x06; 0x16; 0x26; 0x36; 0x07; 0x17; 0x27; 0x37].
Definition Loadsp_k64bitLow : list Z :=
  [0x00; 0x10; 0x20; 0x30; 0x40; 0x50; 0x60; 0x70;
   0x02; 0x12; 0x22; 0x32; 0x42; 0x52; 0x62; 0x72;
   0x04; 0x14; 0x24; 0x34; 0x44; 0x54; 0x64; 0x74;
   0x06; 0x16; 0x26; 0x36; 0x46; 0x56; 0x66; 0x76].

Definition DecodeCompressedLoadsp (is_float : bool) (kOperandType code : Z) : list InsnCall :=
  let low_imm := GetBits code 2 5 in
  let high_imm := GetBits code 12 1 in
  let rd := GetBits code 7 5 in
  let imm := cast i16 (Z.shiftl high_imm 5 + Z.shiftl
    (table (if Z.land kOperandType 1 =? 0 then Loadsp_k32bitLow else Loadsp_k64bitLow) low_imm) 2) in
  let args := {| LoadArgsTemplate.operand_type := kOperandType;
                 LoadArgsTemplate.dst := rd;
                 LoadArgsTemplate.src := 2;
                 LoadArgsTemplate.offset := imm |} in
  [if is_float then LoadFp args else Load args].

(** [Nop] does not end the decoding: the [OpImm] call follows in any case. *)
Definition DecodeCompressedAddi (code : Z) : list InsnCall :=
  let low_imm := GetBits code 2 5 in
  let high_imm := GetBits code 12 1 in
  let imm := cast i8 (SignExtend 6 (Z.lor (Z.shiftl high_imm 5) low_imm)) in
  let r := GetBits code 7 5 in
  (if (r =? 0) || (imm =? 0) then [Nop] else [])
  ++ [OpImm {| OpImmArgsTemplate.opcode := enum_bits OpImmOpcode.kAddi;
               OpImmArgsTemplate.dst := r;
               OpImmArgsTemplate.src := r;
               OpImmArgsTemplate.imm := imm |}].

Definition DecodeCompressedAddiw (code : Z) : list InsnCall :=
  let low_imm := GetBits code 2 5 in
  let high_imm := GetBits code 12 1 in
  let imm := cast i8 (SignExtend 6 (Z.lor (Z.shiftl high_imm 5) low_imm)) in
  let r := GetBits code 7 5 in
  [OpImm32 {| OpImmArgsTemplate.opcode := enum_bits OpImm32Opcode.kAddiw;
              OpImmArgsTemplate.dst := r;
              OpImmArgsTemplate.src := r;
              OpImmArgsTemplate.imm := imm |}].

Definition kBHigh : list Z := [0x0; 0x8; 0x10; 0x18; 0x100; 0x108; 0x110; 0x118].
Definition kBLow : list Z :=
  [0x00; 0x20; 0x02; 0x22; 0x04; 0x24; 0x06; 0x26; 0x40; 0x60; 0x42;
   0x62; 0x44; 0x64; 0x46; 0x66; 0x80; 0xa0; 0x82; 0xa2; 0x84; 0xa4;
   0x86; 0xa6; 0xc0; 0xe0; 0xc2; 0xe2; 0xc4; 0xe4; 0xc6; 0xe6].

Definition DecodeCompressedBeqzBnez (code : Z) : list InsnCall :=
  let low_imm := GetBits code 2 5 in
  let high_imm := GetBits code 10 3 in
  let rs := GetBits code 7 3 in
  [CompareAndBranch
     {| BranchArgs.opcode := GetBits code 13 1;
        BranchArgs.src1 := cast u8 (8 + rs);
        BranchArgs.src2 := 0;
        BranchArgs.offset :=
          cast i16 (SignExtend 9 (table kBHigh high_imm + table kBLow low_imm)) |}].

Definition kJHigh : list Z :=
  [0x0;    0x400;  0x100;  0x500;  0x200;  0x600;  0x300;  0x700;  0x10;   0x410;  0x110;
   0x510;  0x210;  0x610;  0x310;  0x710;  0xf800; 0xfc00; 0xf900; 0xfd00; 0xfa00; 0xfe00;
   0xfb00; 0xff00; 0xf810; 0xfc10; 0xf910; 0xfd10; 0xfa10; 0xfe10; 0xfb10; 0xff10].
Definition kJLow : list Z :=
  [0x0;  0x20; 0x2;  0x22; 0x4;  0x24; 0x6;  0x26; 0x8;  0x28; 0xa;  0x2a; 0xc;
   0x2c; 0xe;  0x2e; 0x80; 0xa0; 0x82; 0xa2; 0x84; 0xa4; 0x86; 0xa6; 0x88; 0xa8;
   0x8a; 0xaa; 0x8c; 0xac; 0x8e; 0xae; 0x40; 0x60; 0x42; 0x62; 0x44; 0x64; 0x46;
   0x66; 0x48; 0x68; 0x4a; 0x6a; 0x4c; 0x6c; 0x4e; 0x6e; 0xc0; 0xe0; 0xc2; 0xe2;
   0xc4; 0xe4; 0xc6; 0xe6; 0xc8; 0xe8; 0xca; 0xea; 0xcc; 0xec; 0xce; 0xee].

Definition DecodeCompressedJ (code : Z) : list InsnCall :=
  [JumpAndLink
     {| JumpAndLinkArgs.dst := 0;
        JumpAndLinkArgs.offset :=
          Z.lor (cast i16 (table kJHigh (GetBits code 8 5))) (table kJLow (GetBits code 2 6));
        JumpAndLinkArgs.insn_len := 2 |}].

Definition kAddi4spnHigh : list Z :=
  [0x0; 0x40; 0x80; 0xc0; 0x4; 0x44; 0x84; 0xc4; 0x8; 0x48; 0x88; 0xc8; 0xc; 0x4c; 0x8c; 0xcc].
Definition kAddi4spnLow : list Z :=
  [0x0; 0x2; 0x1; 0x3; 0x10; 0x12; 0x11; 0x13; 0x20; 0x22; 0x21; 0x23; 0x30; 0x32; 0x31; 0x33].

Definition DecodeCompressedAddi4spn (code : Z) : list InsnCall :=
  let imm := cast i16 (Z.shiftl (Z.lor (table kAddi4spnHigh (GetBits code 9 4))
                                       (table kAddi4spnLow (GetBits code 5 4))) 2) in
  if imm =? 0 then [Undefined]
  else [OpImm {| OpImmArgsTemplate.opcode := enum_bits OpImmOpcode.kAddi;
                 OpImmArgsTemplate.dst := cast u8 (8 + GetBits code 2 3);
                 OpImmArgsTemplate.src := 2;
                 OpImmArgsTemplate.imm := imm |}].

Definition DecodeCompressedJr_Jalr_Mv_Add (code : Z) : list InsnCall :=
  let r := GetBits code 7 5 in
  let rs2 := GetBits code 2 5 in
  let jump dst := [JumpAndLinkRegister {| JumpAndLinkRegisterArgs.dst := dst;
                                          JumpAndLinkRegisterArgs.base := r;
                                          JumpAndLinkRegisterArgs.offset := 0;
                                          JumpAndLinkRegisterArgs.insn_len := 2 |}] in
  let add src1 := [Op {| OpArgsTemplate.opcode := enum_bits OpOpcode.kAdd;
                         OpArgsTemplate.dst := r;
                         OpArgsTemplate.src1 := src1;
                         OpArgsTemplate.src2 := rs2 |}] in
  if GetBit code 12 then
    if (r =? 0) && (rs2 =? 0) then
      [System {| SystemArgs.opcode := enum_bits SystemOpcode.kEbreak |}]
    else if rs2 =? 0 then jump 1
    else add r
  else if rs2 =? 0 then jump 0
  else add 0.

Definition DecodeCompressedSlli (code : Z) : list InsnCall :=
  let r := GetBits code 7 5 in
  let low_imm := GetBits code 2 5 in
  let high_imm := GetBits code 12 1 in
  let imm := cast u8 (Z.shiftl high_imm 5 + low_imm) in
  [OpImmShift {| ShiftImmArgsTemplate.opcode := enum_bits ShiftImmOpcode.kSlli;
                 ShiftImmArgsTemplate.dst := r;
                 ShiftImmArgsTemplate.src := r;
                 ShiftImmArgsTemplate.imm := imm |}].

Definition DecodeCompressedInstruction (code : Z) : list InsnCall * Z :=
  let opcode_bits := Z.lor (Z.shiftl (GetBits code 13 3) 2) (GetBits code 0 2) in
  (match enum_of opcode_bits with
   | Some CompressedOpcode.kAddi4spn => DecodeCompressedAddi4spn code
   | Some CompressedOpcode.kFld =>
       DecodeCompressedLoadStore kLoad true (enum_bits FloatOperandType.kDouble) code
   | Some CompressedOpcode.kLw =>
       DecodeCompressedLoadStore kLoad false (enum_bits LoadOperandType.k32bitSigned) code
   | Some CompressedOpcode.kLd =>
       DecodeCompressedLoadStore kLoad false (enum_bits LoadOperandType.k64bit) code
   | Some CompressedOpcode.kFsd =>
       DecodeCompressedLoadStore kStore true (enum_bits FloatOperandType.kDouble) code
   | Some CompressedOpcode.kSw =>
       DecodeCompressedLoadStore kStore false (enum_bits MemoryDataOperandType.k32bit) code
   | Some CompressedOpcode.kSd =>
       DecodeCompressedLoadStore kStore false (enum_bits MemoryDataOperandType.k64bit) code
   | Some CompressedOpcode.kAddi => DecodeCompressedAddi code
   | Some CompressedOpcode.kAddiw => DecodeCompressedAddiw code
   | Some CompressedOpcode.kLi => DecodeCompressedLi code
   | Some CompressedOpcode.kLui_Addi16sp => DecodeCompressedLuiAddi16sp code
   | Some CompressedOpcode.kMisc_Alu => DecodeCompressedMiscAlu code
   | Some CompressedOpcode.kJ => DecodeCompressedJ code
   | Some CompressedOpcode.kBeqz | Some CompressedOpcode.kBnez => DecodeCompressedBeqzBnez code
   | Some CompressedOpcode.kSlli => DecodeCompressedSlli code
   | Some CompressedOpcode.kFldsp =>
       DecodeCompressedLoadsp true (enum_bits FloatOperandType.kDouble) code
   | Some CompressedOpcode.kLwsp =>
       DecodeCompressedLoadsp false (enum_bits LoadOperandType.k32bitSigned) code
   | Some CompressedOpcode.kLdsp =>
       DecodeCompressedLoadsp false (enum_bits LoadOperandType.k64bit) code
   | Some CompressedOpcode.kJr_Jalr_Mv_Add => DecodeCompressedJr_Jalr_Mv_Add code
   | Some CompressedOpcode.kFsdsp =>
       DecodeCompressedStoresp true (enum_bits FloatOperandType.kDouble) code
   | Some CompressedOpcode.kSwsp =>
       DecodeCompressedStoresp false (enum_bits MemoryDataOperandType.k32bit) code
   | Some CompressedOpcode.kSdsp =>
       DecodeCompressedStoresp false (enum_bits MemoryDataOperandType.k64bit) code
   | None => [Undefined]
   end, 2).

(** ** Base instructions *)

Definition DecodeMiscMem (code : Z) : list InsnCall :=
  let low_opcode := GetBits code 12 3 in
  if low_opcode =? 0 then
    let high_opcode := GetBits code 28 4 in
    [Fence {| FenceArgs.opcode := high_opcode;
              FenceArgs.dst := GetBits code 7 5;
              FenceArgs.src := GetBits code 15 5;
              FenceArgs.sw := GetBit code 20;
              FenceArgs.sr := GetBit code 21;
              FenceArgs.so := GetBit code 22;
              FenceArgs.si := GetBit code 23;
              FenceArgs.pw := GetBit code 24;
              FenceArgs.pr := GetBit code 25;
              FenceArgs.po := GetBit code 26;
              FenceArgs.pi := GetBit code 27 |}]
  else if low_opcode =? 1 then
    let imm := GetBits code 20 12 in
    [FenceI {| FenceIArgs.dst := GetBits code 7 5;
               FenceIArgs.src := GetBits code 15 5;
               FenceIArgs.imm := SignExtend 12 imm |}]
  else [Undefined].

Definition DecodeSingleInputOp (code opcode : Z) : list InsnCall :=
  let src1 := GetBits code 15 5 in
  let src2 := GetBits code 20 5 in
  if negb (src2 =? 0) then [Undefined]
  else [OpSingleInput {| OpSingleInputArgs.opcode := opcode;
                         OpSingleInputArgs.dst := GetBits code 7 5;
                         OpSingleInputArgs.src := src1 |}].

(** [DecodeOp<OpOpcode>] and [DecodeOp<Op32Opcode>]; [mk] is the overload of
    [Op]. *)
Definition DecodeOp (mk : OpArgsTemplate.t -> InsnCall) (code : Z) : list InsnCall :=
  let low_opcode := GetBits code 12 3 in
  let high_opcode := GetBits code 25 7 in
  let opcode_bits := cast u16 (cast i16 (Z.lor low_opcode (Z.shiftl high_opcode 3))) in
  match enum_of opcode_bits with
  | Some OpSingleInputOpcode.kZexth => DecodeSingleInputOp code opcode_bits
  | _ => [mk {| OpArgsTemplate.opcode := opcode_bits;
                OpArgsTemplate.dst := GetBits code 7 5;
                OpArgsTemplate.src1 := GetBits code 15 5;
                OpArgsTemplate.src2 := GetBits code 20 5 |}]
  end.

Definition DecodeAmo (code : Z) : list InsnCall :=
  let low_opcode := GetBits code 12 3 in
  let high_opcode := GetBits code 27 5 in
  if (high_opcode =? 2) && negb (GetBits code 20 5 =? 0) then [Undefined]
  else [Amo {| AmoArgs.opcode := high_opcode;
               AmoArgs.operand_type := low_opcode;
               AmoArgs.dst := GetBits code 7 5;
               AmoArgs.src1 := GetBits code 15 5;
               AmoArgs.src2 := GetBits code 20 5;
               AmoArgs.rl := GetBit code 25;
               AmoArgs.aq := GetBit code 26 |}].

Definition DecodeFma (code : Z) : list InsnCall :=
  let operand_type := GetBits code 25 2 in
  let opcode_bits := GetBits code 2 2 in
  [Fma {| FmaArgs.opcode := opcode_bits;
          FmaArgs.operand_type := operand_type;
          FmaArgs.dst := GetBits code 7 5;
          FmaArgs.src1 := GetBits code 15 5;
          FmaArgs.src2 := GetBits code 20 5;
          FmaArgs.src3 := GetBits code 27 5;
          FmaArgs.rm := GetBits code 12 3 |}].

Definition DecodeLui (code : Z) : list InsnCall :=
  let imm := cast i32 (GetBits code 12 20) in
  [Lui {| UpperImmArgs.dst := GetBits code 7 5;
          UpperImmArgs.imm := cast i32 (Z.shiftl imm 12) |}].

Definition DecodeAuipc (code : Z) : list InsnCall :=
  let imm := cast i32 (GetBits code 12 20) in
  [Auipc {| UpperImmArgs.dst := GetBits code 7 5;
            UpperImmArgs.imm := cast i32 (Z.shiftl imm 12) |}].

(** [kLoadStoreWidthToOperandType]: [inl] is a vector element width,
    [inr] a floating-point operand type. *)
Definition kLoadStoreWidthToOperandType : list (MemoryDataOperandType.t + FloatOperandType.t) :=
  [inl MemoryDataOperandType.k8bit;
   inr FloatOperandType.kHalf;
   inr FloatOperandType.kFloat;
   inr FloatOperandType.kDouble;
   inr FloatOperandType.kQuad;
   inl MemoryDataOperandType.k16bit;
   inl MemoryDataOperandType.k32bit;
   inl MemoryDataOperandType.k64bit].
Definition LoadStoreWidth (i : Z) : MemoryDataOperandType.t + FloatOperandType.t :=
  nth (Z.to_nat i) kLoadStoreWidthToOperandType (inl MemoryDataOperandType.k8bit).

(** The part [DecodeLoad<LoadOperandType>] and [DecodeLoad<FloatOperandType>]
    share: the scalar load. *)
Definition DecodeLoad_scalar (mk : LoadArgsTemplate.t -> InsnCall) (operand_type code : Z)
    : list InsnCall :=
  [mk {| LoadArgsTemplate.operand_type := operand_type;
         LoadArgsTemplate.dst := GetBits code 7 5;
         LoadArgsTemplate.src := GetBits code 15 5;
         LoadArgsTemplate.offset := SignExtend 12 (GetBits code 20 12) |}].

Definition DecodeLoad (code : Z) : list InsnCall :=
  DecodeLoad_scalar Load (GetBits code 12 3) code.

Definition DecodeLoadFp (code : Z) : list InsnCall :=
  match LoadStoreWidth (GetBits code 12 3) with
  | inl eew =>
      if GetBits code 28 1 =? 1 then [Undefined]
      else
        let mop := GetBits code 26 2 in
        if mop =? 0 then
          [OpVectorLoadUnitStride
             {| VLoadUnitStrideArgs.opcode := GetBits code 20 5;
                VLoadUnitStrideArgs.width := enum_bits eew;
                VLoadUnitStrideArgs.vm := GetBit code 25;
                VLoadUnitStrideArgs.nf := GetBits code 29 3;
                VLoadUnitStrideArgs.dst := GetBits code 7 5;
                VLoadUnitStrideArgs.src := GetBits code 15 5 |}]
        else if (mop =? 1) || (mop =? 3) then
          [OpVectorLoadIndexed
             {| VLoadIndexedArgs.width := enum_bits eew;
                VLoadIndexedArgs.vm := GetBit code 25;
                VLoadIndexedArgs.ordered := GetBit code 27;
                VLoadIndexedArgs.nf := GetBits code 29 3;
                VLoadIndexedArgs.dst := GetBits code 7 5;
                VLoadIndexedArgs.src := GetBits code 15 5;
                VLoadIndexedArgs.idx := GetBits code 20 5 |}]
        else if mop =? 2 then
          [OpVectorLoadStride
             {| VLoadStrideArgs.width := enum_bits eew;
                VLoadStrideArgs.vm := GetBit code 25;
                VLoadStrideArgs.ordered := GetBit code 27;
                VLoadStrideArgs.nf := GetBits code 29 3;
                VLoadStrideArgs.dst := GetBits code 7 5;
                VLoadStrideArgs.src := GetBits code 15 5;
                VLoadStrideArgs.std := GetBits code 20 5 |}]
        else [Undefined]
  | inr size => DecodeLoad_scalar LoadFp (enum_bits size) code
  end.

Definition DecodeStore_scalar (mk : StoreArgsTemplate.t -> InsnCall) (operand_type code : Z)
    : list InsnCall :=
  let low_imm := GetBits code 7 5 in
  let high_imm := GetBits code 25 7 in
  [mk {| StoreArgsTemplate.operand_type := operand_type;
         StoreArgsTemplate.src := GetBits code 15 5;
         StoreArgsTemplate.offset :=
           SignExtend 12 (cast i16 (Z.lor low_imm (Z.shiftl high_imm 5)));
         StoreArgsTemplate.data := GetBits code 20 5 |}].

Definition DecodeStore (code : Z) : list InsnCall :=
  DecodeStore_scalar Store (GetBits code 12 3) code.

Definition DecodeStoreFp (code : Z) : list InsnCall :=
  match LoadStoreWidth (GetBits code 12 3) with
  | inl eew =>
      if GetBits code 28 1 =? 1 then [Undefined]
      else
        let mop := GetBits code 26 2 in
        if mop =? 0 then
          [OpVectorStoreUnitStride
             {| VStoreUnitStrideArgs.opcode := GetBits code 20 5;
                VStoreUnitStrideArgs.width := enum_bits eew;
                VStoreUnitStrideArgs.vm := GetBit code 25;
                VStoreUnitStrideArgs.nf := GetBits code 29 3;
                VStoreUnitStrideArgs.src := GetBits code 15 5;
                VStoreUnitStrideArgs.data := GetBits code 7 5 |}]
        else if (mop =? 1) || (mop =? 3) then
          [OpVectorStoreIndexed
             {| VStoreIndexedArgs.width := enum_bits eew;
                VStoreIndexedArgs.vm := GetBit code 25;
                VStoreIndexedArgs.ordered := GetBit code 27;
                VStoreIndexedArgs.nf := GetBits code 29 3;
                VStoreIndexedArgs.src := GetBits code 15 5;
                VStoreIndexedArgs.idx := GetBits code 20 5;
                VStoreIndexedArgs.data := GetBits code 7 5 |}]
        else if mop =? 2 then
          [OpVectorStoreStride
             {| VStoreStrideArgs.width := enum_bits eew;
                VStoreStrideArgs.vm := GetBit code 25;
                VStoreStrideArgs.ordered := GetBit code 27;
                VStoreStrideArgs.nf := GetBits code 29 3;
                VStoreStrideArgs.src := GetBits code 15 5;
                VStoreStrideArgs.std := GetBits code 20 5;
                VStoreStrideArgs.data := GetBits code 7 5 |}]
        else [Undefined]
  | inr size => DecodeStore_scalar StoreFp (enum_bits size) code
  end.

(** [switch ((BitmanipImmOpcode)opcode)] and the one over
    [BitmanipImm32Opcode]: the opcodes that carry a shift amount. *)
Definition Bitmanip_has_shamt (opcode : Z) : bool :=
  match enum_of opcode with
  | Some BitmanipImmOpcode.kRori | Some BitmanipImmOpcode.kBclri
  | Some BitmanipImmOpcode.kBexti | Some BitmanipImmOpcode.kBinvi
  | Some BitmanipImmOpcode.kBseti => true
  | _ => false
  end
  || match enum_of opcode with
     | Some BitmanipImm32Opcode.kRoriw | Some BitmanipImm32Opcode.kSlliuw => true
     | _ => false
     end.

(** [DecodeOp<OpOpcodeType, ShiftOpcodeType, BitmanipOpcodeType,
    kShiftFieldSize>]; the three constructors are the overloads of [OpImm],
    [shift_type] the underlying type of [ShiftOpcodeType]. *)
Definition DecodeOpImm (op : OpImmArgsTemplate.t -> InsnCall)
    (shift : ShiftImmArgsTemplate.t -> InsnCall) (shift_type : IntType)
    (bitmanip : BitmanipImmArgsTemplate.t -> InsnCall) (kShiftFieldSize code : Z)
    : list InsnCall :=
  let low_opcode := GetBits code 12 3 in
  if negb (low_opcode =? 1) && negb (low_opcode =? 5) then
    let imm := GetBits code 20 12 in
    [op {| OpImmArgsTemplate.opcode := low_opcode;
           OpImmArgsTemplate.dst := GetBits code 7 5;
           OpImmArgsTemplate.src := GetBits code 15 5;
           OpImmArgsTemplate.imm := SignExtend 12 imm |}]
  else if GetBits code 31 1 + GetBits code (20 + kShiftFieldSize) (10 - kShiftFieldSize) =? 0 then
    let high_opcode := GetBits code (20 + kShiftFieldSize) (12 - kShiftFieldSize) in
    [shift {| ShiftImmArgsTemplate.opcode :=
                cast shift_type (Z.lor low_opcode (Z.shiftl high_opcode 3));
              ShiftImmArgsTemplate.dst := GetBits code 7 5;
              ShiftImmArgsTemplate.src := GetBits code 15 5;
              ShiftImmArgsTemplate.imm := GetBits code 20 kShiftFieldSize |}]
  else
    let shamt := GetBits code 20 kShiftFieldSize in
    let high_opcode := GetBits code (20 + kShiftFieldSize) (12 - kShiftFieldSize) in
    let opcode := cast u16 (Z.lor low_opcode (Z.shiftl high_opcode 3)) in
    let '(opcode, shamt) :=
      if Bitmanip_has_shamt opcode then (opcode, shamt)
      else (cast u16 (Z.lor low_opcode (Z.shiftl (GetBits code 20 12) 3)), 0) in
    [bitmanip {| BitmanipImmArgsTemplate.opcode := opcode;
                 BitmanipImmArgsTemplate.dst := GetBits code 7 5;
                 BitmanipImmArgsTemplate.src := GetBits code 15 5;
                 BitmanipImmArgsTemplate.shamt := shamt |}].

Definition DecodeBranch (code : Z) : list InsnCall :=
  let low_imm := GetBits code 8 4 in
  let mid_imm := GetBits code 25 6 in
  let bit11_imm := GetBits code 7 1 in
  let bit12_imm := GetBits code 31 1 in
  let offset := cast i16 (Z.lor (Z.lor (Z.lor low_imm (Z.shiftl mid_imm 4))
                                       (Z.shiftl bit11_imm 10)) (Z.shiftl bit12_imm 11)) in
  [CompareAndBranch {| BranchArgs.opcode := GetBits code 12 3;
                       BranchArgs.src1 := GetBits code 15 5;
                       BranchArgs.src2 := GetBits code 20 5;
                       BranchArgs.offset := SignExtend 13 (cast i16 (offset * 2)) |}].

Definition DecodeJumpAndLink (code : Z) : list InsnCall :=
  let low_imm := GetBits code 21 10 in
  let mid_imm := GetBits code 12 8 in
  let bit11_imm := GetBits code 20 1 in
  let bit20_imm := GetBits code 31 1 in
  let offset := cast i32 (Z.lor (Z.lor (Z.lor low_imm (Z.shiftl bit11_imm 10))
                                       (Z.shiftl mid_imm 11)) (Z.shiftl bit20_imm 19)) in
  [JumpAndLink {| JumpAndLinkArgs.dst := GetBits code 7 5;
                  JumpAndLinkArgs.offset := SignExtend 21 (offset * 2);
                  JumpAndLinkArgs.insn_len := 4 |}].

Definition DecodeOpFp (code : Z) : list InsnCall :=
  let operand_type := GetBits code 25 2 in
  let opcode_bits := GetBits code 27 2 in
  let rd := GetBits code 7 5 in
  let rs1 := GetBits code 15 5 in
  let rs2 := GetBits code 20 5 in
  let rm := GetBits code 12 3 in
  let sel := GetBits code 29 3 in
  if sel =? 0 then
    [OpFp {| OpFpArgs.opcode := opcode_bits;
             OpFpArgs.operand_type := operand_type;
             OpFpArgs.dst := rd;
             OpFpArgs.src1 := rs1;
             OpFpArgs.src2 := rs2;
             OpFpArgs.rm := rm |}]
  else if sel =? 1 then
    let no_rounding_opcode := cast u8 (Z.shiftl opcode_bits 3 + rm) in
    if (no_rounding_opcode =? enum_bits OpFpNoRoundingOpcode.kFSgnj) && (rs1 =? rs2) then
      [OpFpSingleInputNoRounding
         {| OpFpSingleInputNoRoundingArgs.opcode := enum_bits OpFpSingleInputNoRoundingOpcode.kFmv;
            OpFpSingleInputNoRoundingArgs.operand_type := operand_type;
            OpFpSingleInputNoRoundingArgs.dst := rd;
            OpFpSingleInputNoRoundingArgs.src := rs1 |}]
    else
      [OpFpNoRounding {| OpFpNoRoundingArgs.opcode := no_rounding_opcode;
                         OpFpNoRoundingArgs.operand_type := operand_type;
                         OpFpNoRoundingArgs.dst := rd;
                         OpFpNoRoundingArgs.src1 := rs1;
                         OpFpNoRoundingArgs.src2 := rs2 |}]
  else if sel =? 2 then
    if opcode_bits =? 0 then
      if operand_type =? rs2 then [Undefined]
      else if 3 <? rs2 then [Undefined]
      else [FcvtFloatToFloat {| FcvtFloatToFloatArgs.dst_type := operand_type;
                                FcvtFloatToFloatArgs.src_type := rs2;
                                FcvtFloatToFloatArgs.dst := rd;
                                FcvtFloatToFloatArgs.src := rs1;
                                FcvtFloatToFloatArgs.rm := rm |}]
    else
      [OpFpSingleInput {| OpFpSingleInputArgs.opcode := cast u8 (Z.shiftl opcode_bits 5 + rs2);
                          OpFpSingleInputArgs.operand_type := operand_type;
                          OpFpSingleInputArgs.dst := rd;
                          OpFpSingleInputArgs.src := rs1;
                          OpFpSingleInputArgs.rm := rm |}]
  else if sel =? 5 then
    [OpFpGpRegisterTargetNoRounding
       {| OpFpGpRegisterTargetNoRoundingArgs.opcode := cast u8 (Z.shiftl opcode_bits 3 + rm);
          OpFpGpRegisterTargetNoRoundingArgs.operand_type := operand_type;
          OpFpGpRegisterTargetNoRoundingArgs.dst := rd;
          OpFpGpRegisterTargetNoRoundingArgs.src1 := rs1;
          OpFpGpRegisterTargetNoRoundingArgs.src2 := rs2 |}]
  else if sel =? 6 then
    if opcode_bits =? 0 then
      [FcvtFloatToInteger {| FcvtFloatToIntegerArgs.dst_type := rs2;
                             FcvtFloatToIntegerArgs.src_type := operand_type;
                             FcvtFloatToIntegerArgs.dst := rd;
                             FcvtFloatToIntegerArgs.src := rs1;
                             FcvtFloatToIntegerArgs.rm := rm |}]
    else if opcode_bits =? 2 then
      [FcvtIntegerToFloat {| FcvtIntegerToFloatArgs.dst_type := operand_type;
                             FcvtIntegerToFloatArgs.src_type := rs2;
                             FcvtIntegerToFloatArgs.dst := rd;
                             FcvtIntegerToFloatArgs.src := rs1;
                             FcvtIntegerToFloatArgs.rm := rm |}]
    else [Undefined]
  else if sel =? 7 then
    if rm =? 1 then
      [OpFpGpRegisterTargetSingleInputNoRounding
         {| OpFpGpRegisterTargetSingleInputNoRoundingArgs.opcode :=
              cast u16 (Z.shiftl opcode_bits 8 + Z.shiftl rs2 3 + rm);
            OpFpGpRegisterTargetSingleInputNoRoundingArgs.operand_type := operand_type;
            OpFpGpRegisterTargetSingleInputNoRoundingArgs.dst := rd;
            OpFpGpRegisterTargetSingleInputNoRoundingArgs.src := rs1 |}]
    else if rm =? 0 then
      if opcode_bits =? 0 then
        [FmvFloatToInteger {| FmvFloatToIntegerArgs.operand_type := operand_type;
                              FmvFloatToIntegerArgs.dst := rd;
                              FmvFloatToIntegerArgs.src := rs1 |}]
      else if opcode_bits =? 2 then
        [FmvIntegerToFloat {| FmvIntegerToFloatArgs.operand_type := operand_type;
                              FmvIntegerToFloatArgs.dst := rd;
                              FmvIntegerToFloatArgs.src := rs1 |}]
      else [Undefined]
    else [Undefined]
  else [Undefined].

(** In the last case ([vset*]) an encoding that matches none of the three
    forms falls out of the [switch]: no method is called. *)
Definition DecodeOpV (code : Z) : list InsnCall :=
  let low_opcode := GetBits code 12 3 in
  let vm := GetBit code 25 in
  let opcode := GetBits code 26 6 in
  let dst := GetBits code 7 5 in
  let src1 := GetBits code 20 5 in
  let src2 := GetBits code 15 5 in
  if low_opcode =? 0 then [OpVectorIVv (VOpIVvArgs.mk opcode vm dst src1 src2)]
  else if low_opcode =? 1 then [OpVectorFVv (VOpFVvArgs.mk opcode vm dst src1 src2)]
  else if low_opcode =? 2 then [OpVectorMVv (VOpMVvArgs.mk opcode vm dst src1 src2)]
  else if low_opcode =? 3 then
    [OpVectorIVi {| VOpIViArgs.opcode := opcode;
                    VOpIViArgs.vm := vm;
                    VOpIViArgs.dst := dst;
                    VOpIViArgs.src := src1;
                    VOpIViArgs.uimm := src2 |}]
  else if low_opcode =? 4 then [OpVectorIVx (VOpIVxArgs.mk opcode vm dst src1 src2)]
  else if low_opcode =? 5 then [OpVectorFVf (VOpFVfArgs.mk opcode vm dst src1 src2)]
  else if low_opcode =? 6 then [OpVectorMVx (VOpMVxArgs.mk opcode vm dst src1 src2)]
  else if low_opcode =? 7 then
    if GetBits code 31 1 =? 0 then
      [Vsetvli {| VsetvliArgs.dst := GetBits code 7 5;
                  VsetvliArgs.src := GetBits code 15 5;
                  VsetvliArgs.vtype := GetBits code 20 11 |}]
    else if GetBits code 30 1 =? 1 then
      [Vsetivli {| VsetivliArgs.dst := GetBits code 7 5;
                   VsetivliArgs.avl := GetBits code 15 5;
                   VsetivliArgs.vtype := GetBits code 20 10 |}]
    else if GetBits code 25 6 =? 0 then
      [Vsetvl {| VsetvlArgs.dst := GetBits code 7 5;
                 VsetvlArgs.src1 := GetBits code 15 5;
                 VsetvlArgs.src2 := GetBits code 20 5 |}]
    else []
  else [].

Definition DecodeSystem (code : Z) : list InsnCall :=
  let low_opcode := GetBits code 12 2 in
  if low_opcode =? 0 then [System {| SystemArgs.opcode := GetBits code 7 25 |}]
  else if GetBit code 14 then
    [CsrImm {| CsrImmArgs.opcode := low_opcode;
               CsrImmArgs.dst := GetBits code 7 5;
               CsrImmArgs.imm := GetBits code 15 5;
               CsrImmArgs.csr := GetBits code 20 12 |}]
  else
    [Csr {| CsrArgs.opcode := low_opcode;
            CsrArgs.dst := GetBits code 7 5;
            CsrArgs.src := GetBits code 15 5;
            CsrArgs.csr := GetBits code 20 12 |}].

Definition DecodeJumpAndLinkRegister (code : Z) : list InsnCall :=
  if negb (GetBits code 12 3 =? 0) then [Undefined]
  else
    let offset := cast i16 (GetBits code 20 12) in
    let offset := Z.shiftr (cast i16 (Z.shiftl offset 4)) 4 in
    [JumpAndLinkRegister {| JumpAndLinkRegisterArgs.dst := GetBits code 7 5;
                            JumpAndLinkRegisterArgs.base := GetBits code 15 5;
                            JumpAndLinkRegisterArgs.offset := offset;
                            JumpAndLinkRegisterArgs.insn_len := 4 |}].

Definition DecodeBaseInstruction (code : Z) : list InsnCall * Z :=
  (match enum_of (GetBits code 2 5) with
   | Some BaseOpcode.kLoad => DecodeLoad code
   | Some BaseOpcode.kLoadFp => DecodeLoadFp code
   | Some BaseOpcode.kMiscMem => DecodeMiscMem code
   | Some BaseOpcode.kOpImm => DecodeOpImm OpImm OpImmShift u8 OpImmBitmanip 6 code
   | Some BaseOpcode.kAuipc => DecodeAuipc code
   | Some BaseOpcode.kOpImm32 => DecodeOpImm OpImm32 OpImmShift32 u16 OpImmBitmanip32 5 code
   | Some BaseOpcode.kStore => DecodeStore code
   | Some BaseOpcode.kStoreFp => DecodeStoreFp code
   | Some BaseOpcode.kAmo => DecodeAmo code
   | Some BaseOpcode.kOp => DecodeOp Op code
   | Some BaseOpcode.kLui => DecodeLui code
   | Some BaseOpcode.kOp32 => DecodeOp Op32 code
   | Some BaseOpcode.kMAdd | Some BaseOpcode.kMSub
   | Some BaseOpcode.kNmSub | Some BaseOpcode.kNmAdd => DecodeFma code
   | Some BaseOpcode.kOpFp => DecodeOpFp code
   | Some BaseOpcode.vOpV => DecodeOpV code
   | Some BaseOpcode.kBranch => DecodeBranch code
   | Some BaseOpcode.kJalr => DecodeJumpAndLinkRegister code
   | Some BaseOpcode.kJal => DecodeJumpAndLink code
   | Some BaseOpcode.kSystem => DecodeSystem code
   | _ => [Undefined]
   end, 4).

(** [GetInsnSize], of the first parcel. *)
Definition GetInsnSize (parcel : Z) : Z :=
  if negb (Z.land parcel 3 =? 3) then 2 else 4.

(** [Decode(code)]: [code] points at 16-bit parcels.  [None] when the
    instruction extends past the readable parcels. *)
Definition Decode (code : list Z) : option (list InsnCall * Z) :=
  match code with
  | [] => None
  | parcel :: rest =>
      if GetInsnSize parcel =? 2 then Some (DecodeCompressedInstruction parcel)
      else
        match rest with
        | [] => None
        | parcel1 :: _ => Some (DecodeBaseInstruction (Z.lor parcel (Z.shiftl parcel1 16)))
        end
  end.
