(* ===== verification/RiscvAssembler.v ===== *)
(** * The RISC-V assembler

    - assembler/include/berberis/assembler/riscv.h: the immediate classes
      (which values they accept, how they are placed in an instruction word and
      read back), the instruction formats, branches, jumps, [Li] and the
      resolution of labels;
    - assembler/include/berberis/assembler/riscv64.h: the 64-bit [Li];
    - assembler/include/berberis/assembler/common.h and machine_code.h: the
      growing code buffer, labels and the list of unresolved jumps;
    - the instruction opcodes of
      assembler/instructions/insn_def_riscv.json and insn_def_riscv64.json,
      from which the assembler's instruction methods are generated.

    An immediate object is its [value_], a 32-bit signed integer already in
    its place in the instruction word. *)
From stdpp Require Import strings.
From S2P Require Import Prelude MachineInt BitUtil.
#[local] Open Scope Z_scope.

(** ** Immediates *)

(** The acceptance test the immediate classes share: no bit of the mask set,
    or, for a signed input, all of them but the [low] ones. *)
Definition AccetableByMask (kUnsigned64bitInputMask low : Z) (t : IntType) (value : Z) : bool :=
  let mask := cast t kUnsigned64bitInputMask in
  let masked := cast t (Z.land value mask) in
  if negb (is_signed t) then masked =? 0
  else (masked =? 0) || (masked =? Z.land mask (Z.lnot low)).

Definition BImmediate_AccetableValue := AccetableByMask 0xfffffffffffff001 1.
Definition Immediate_AccetableValue := AccetableByMask 0xfffffffffffff800 0.
Definition JImmediate_AccetableValue := AccetableByMask 0xfffffffffff00001 1.
Definition PImmediate_AccetableValue := AccetableByMask 0xfffffffffffff81f 0x1f.
Definition SImmediate_AccetableValue := Immediate_AccetableValue.
Definition UImmediate_AccetableValue := AccetableByMask 0xffffffff80000fff 0xfff.

Definition CsrImmediate_AccetableValue (t : IntType) (value : Z) : bool :=
  cast (make_unsigned t) value <? 32.
Definition Shift32Immediate_AccetableValue (t : IntType) (value : Z) : bool :=
  cast (make_unsigned t) value <? 32.
Definition Shift64Immediate_AccetableValue (t : IntType) (value : Z) : bool :=
  cast (make_unsigned t) value <? 64.

(** 32-bit signed shift, masked. *)
Definition shl32 (x n : Z) : Z := cast i32 (Z.shiftl x n).

Definition BImmediate_MakeRaw (value : Z) : Z :=
  let v := cast i32 value in
  Z.lor (Z.lor (Z.lor (Z.land v (cast i32 0x80000000))
                      (Z.shiftr (Z.land v 0x800) 4))
               (shl32 (Z.land v 0x1f) 7))
        (shl32 (Z.land v 0x7e0) 20).
Definition CsrImmediate_MakeRaw (value : Z) : Z := shl32 (cast i32 value) 15.
Definition Immediate_MakeRaw (value : Z) : Z := shl32 (cast i32 value) 20.
Definition JImmediate_MakeRaw (value : Z) : Z :=
  let v := cast i32 value in
  Z.lor (Z.lor (Z.land v (cast i32 0x800ff000))
               (shl32 (Z.land v 0x800) 9))
        (shl32 (Z.land v 0x7fe) 20).
Definition PImmediate_MakeRaw (value : Z) : Z := shl32 (cast i32 value) 20.
Definition Shift32Immediate_MakeRaw (value : Z) : Z := shl32 (cast i32 value) 20.
Definition Shift64Immediate_MakeRaw (value : Z) : Z := shl32 (cast i32 value) 20.
Definition SImmediate_MakeRaw (value : Z) : Z :=
  let v := cast i32 value in
  Z.lor (shl32 (Z.land v (cast i32 0xffffffe0)) 20)
        (shl32 (Z.land v 0x1f) 7).
Definition UImmediate_MakeRaw (value : Z) : Z := cast i32 value.

(** [MakeImmediate(value)]: [std::nullopt] for a value that does not fit.  The
    checked constructors are the same with a fatal error. *)
Definition MakeImmediate (accept : IntType -> Z -> bool) (make : Z -> Z) (t : IntType) (value : Z)
    : option Z :=
  if negb (accept t value) then None else Some (make value).

Definition MakeBImmediate := MakeImmediate BImmediate_AccetableValue BImmediate_MakeRaw.
Definition MakeCsrImmediate := MakeImmediate CsrImmediate_AccetableValue CsrImmediate_MakeRaw.
Definition MakeIImmediate := MakeImmediate Immediate_AccetableValue Immediate_MakeRaw.
Definition MakeJImmediate := MakeImmediate JImmediate_AccetableValue JImmediate_MakeRaw.
Definition MakePImmediate := MakeImmediate PImmediate_AccetableValue PImmediate_MakeRaw.
Definition MakeShift32Immediate :=
  MakeImmediate Shift32Immediate_AccetableValue Shift32Immediate_MakeRaw.
Definition MakeShift64Immediate :=
  MakeImmediate Shift64Immediate_AccetableValue Shift64Immediate_MakeRaw.
Definition MakeSImmediate := MakeImmediate SImmediate_AccetableValue SImmediate_MakeRaw.
Definition MakeUImmediate := MakeImmediate UImmediate_AccetableValue UImmediate_MakeRaw.

(** [operator int64_t()]: the value an immediate stands for. *)
Definition BImmediate_int64 (v : Z) : Z :=
  cast i64 (Z.lor (Z.lor (Z.land (Z.shiftr v 7) 0x1e)
                         (Z.land (cast u64 (Z.shiftr v 20)) 0xfffffffffffff7e0))
                  (Z.land (shl32 v 4) 0x800)).
Definition CsrImmediate_int64 (v : Z) : Z := Z.shiftr v 15.
Definition IImmediate_int64 (v : Z) : Z := Z.shiftr v 20.
Definition JImmediate_int64 (v : Z) : Z :=
  cast i64 (Z.lor (Z.lor (Z.land (cast u64 (Z.shiftr v 20)) 0xfffffffffff007fe)
                         (Z.land (Z.shiftr v 9) 0x800))
                  (Z.land v 0xff000)).
Definition PImmediate_int64 (v : Z) : Z := Z.shiftr v 20.
Definition ShiftImmediate_int64 (v : Z) : Z := Z.shiftr v 20.
Definition SImmediate_int64 (v : Z) : Z := Z.lor (Z.land (Z.shiftr v 7) 0x1f) (Z.shiftr v 20).
Definition UImmediate_int64 (v : Z) : Z := v.

(** Conversions between the two 12-bit layouts; the mask [0xfe000000] is
    unsigned, so the result is converted back to [int32_t]. *)
Definition IImmediate_of_S (s : Z) : Z :=
  cast i32 (Z.lor (Z.land (cast u32 s) 0xfe000000) (cast u32 (shl32 (Z.land s 0xf80) 13))).
Definition SImmediate_of_I (imm : Z) : Z :=
  cast i32 (Z.lor (Z.land (cast u32 imm) 0xfe000000) (Z.shiftr (Z.land imm 0x1f00000) 13)).

(** ** Instruction words *)

(** [RegisterOperand::EncodeImmediate] and relatives: the operand at the
    offset its [OperandInfo] gives. *)
Definition Rd (r : Z) : Z := shl32 r 7.
Definition Cond (cc : Z) : Z := shl32 cc 12.
Definition Rm (rm : Z) : Z := shl32 rm 12.
Definition Rs1 (r : Z) : Z := shl32 r 15.
Definition Rs2 (r : Z) : Z := shl32 r 20.
Definition Rs3 (r : Z) : Z := shl32 r 27.

(** [EmitInstruction<kOpcode, kOpcodeMask>(arguments...)]: the union of the
    opcode, an [uint32_t], with the encoded operands, as the word emitted. *)
Definition EmitInstruction (kOpcode : Z) (arguments : list Z) : Z :=
  fold_left (fun w a => Z.lor w (cast u32 a)) arguments kOpcode.

Definition EmitBTypeInstruction (kOpcode rs1 rs2 immediate : Z) : Z :=
  EmitInstruction kOpcode [Rs1 rs1; Rs2 rs2; immediate].
(** The memory-operand and the immediate form place operands the same way. *)
Definition EmitITypeInstruction (kOpcode rd rs1 immediate : Z) : Z :=
  EmitInstruction kOpcode [Rd rd; Rs1 rs1; immediate].
Definition EmitITypeCsrInstruction (kOpcode rd csr rs1 : Z) : Z :=
  EmitInstruction kOpcode [Rd rd; shl32 csr 20; Rs1 rs1].
Definition EmitITypeCsrImmInstruction (kOpcode rd csr immediate : Z) : Z :=
  EmitInstruction kOpcode [Rd rd; shl32 csr 20; immediate].
Definition EmitJTypeInstruction (kOpcode rd immediate : Z) : Z :=
  EmitInstruction kOpcode [Rd rd; immediate].
Definition EmitPTypeInstruction (kOpcode base disp : Z) : Z :=
  EmitInstruction kOpcode [Rs1 base; disp].
Definition EmitRType2Instruction (kOpcode rd rs1 : Z) : Z :=
  EmitInstruction kOpcode [Rd rd; Rs1 rs1].
Definition EmitRTypeRmInstruction (kOpcode rd rs1 rm : Z) : Z :=
  EmitInstruction kOpcode [Rd rd; Rs1 rs1; Rm rm].
Definition EmitRTypeInstruction (kOpcode rd rs1 rs2 : Z) : Z :=
  EmitInstruction kOpcode [Rd rd; Rs1 rs1; Rs2 rs2].
Definition EmitSTypeInstruction (kOpcode data base disp : Z) : Z :=
  EmitInstruction kOpcode [Rs2 data; Rs1 base; disp].
Definition EmitUTypeInstruction (kOpcode rd immediate : Z) : Z :=
  EmitInstruction kOpcode [Rd rd; immediate].

(** ** The code buffer, labels and jumps *)

(** [AssemblerBase::Jump]; a label is identified by a number. *)
Record Jump := mkJump { jump_label : nat; jump_pc : Z; is_recovery : bool }.

(** The assembler: the bytes of [MachineCode::code_], the recovery relocations
    (pc and label position), [jumps_], and the positions of the bound
    labels. *)
Record Assembler := mkAssembler {
  code_ : list Z;
  relocations_ : list (Z * Z);
  jumps_ : list Jump;
  labels : gmap nat Z
}.

Definition kInvalid : Z := 0xffffffff.

(** [pc()] *)
Definition pc (a : Assembler) : Z := cast u32 (Z.of_nat (length (code_ a))).

(** [Emit32(v)] *)
Definition Emit32 (v : Z) (a : Assembler) : Assembler :=
  mkAssembler (code_ a ++ le_split 4 (cast i32 v)) (relocations_ a) (jumps_ a) (labels a).

Definition position (a : Assembler) (label : nat) : Z := default kInvalid (labels a !! label).

(** [IsBound()] *)
Definition IsBound (a : Assembler) (label : nat) : bool := negb (position a label =? kInvalid).

(** [Bind(label)]; [None] is the failed check that the label is not bound. *)
Definition Bind (label : nat) (a : Assembler) : option Assembler :=
  if IsBound a label then None
  else Some (mkAssembler (code_ a) (relocations_ a) (jumps_ a) (<[label := pc a]> (labels a))).

Definition push_jump (label : nat) (recovery : bool) (a : Assembler) : Assembler :=
  mkAssembler (code_ a) (relocations_ a) (jumps_ a ++ [mkJump label (pc a) recovery]) (labels a).

(** [SetRecoveryPoint(recovery_label)] *)
Definition SetRecoveryPoint (label : nat) (a : Assembler) : Assembler := push_jump label true a.

(** Reading and writing [*AddrAs<int32_t>(offset)]. *)
Definition read32 (code : list Z) (offset : Z) : option Z :=
  let b := take 4 (drop (Z.to_nat offset) code) in
  if (length b =? 4)%nat then Some (cast i32 (le_combine b)) else None.
Definition write32 (code : list Z) (offset v : Z) : list Z :=
  take (Z.to_nat offset) code ++ le_split 4 v ++ drop (Z.to_nat offset + 4) code.

(** [*AddrAs<int32_t>(offset) |= v] *)
Definition or32 (v offset : Z) (code : list Z) : option (list Z) :=
  w ← read32 code offset; Some (write32 code offset (Z.lor w v)).

(** [Condition]; the aliases [kCarry], [kNotCarry], [kZero] and [kNotZero] are
    the same values. *)
Module Condition.
Inductive t :=
  | kInvalidCondition | kEqual | kNotEqual | kLess | kGreaterEqual | kBelow | kAboveEqual
  | kAlways | kNever.
Definition to_bits (c : t) : Z :=
  match c with
  | kInvalidCondition => -1
  | kEqual => 0
  | kNotEqual => 1
  | kLess => 4
  | kGreaterEqual => 5
  | kBelow => 6
  | kAboveEqual => 7
  | kAlways => 8
  | kNever => 9
  end.
End Condition.

(** ** Instructions that refer to labels

    Each pushes a jump at the current pc and emits the instruction with a zero
    immediate, which [ResolveJumps] fills in. *)
Definition Jal_label (rd : Z) (label : nat) (a : Assembler) : Assembler :=
  Emit32 (EmitInstruction 0x6f [Rd rd]) (push_jump label false a).

(** [Beq], [Bge], [Bgeu], [Blt], [Bltu] and [Bne] with a label. *)
Definition Branch_label (kOpcode rs1 rs2 : Z) (label : nat) (a : Assembler) : Assembler :=
  Emit32 (EmitBTypeInstruction kOpcode rs1 rs2 0) (push_jump label false a).

(** [CHECK_EQ(0, static_cast<uint8_t>(cc) & 0xf8)] *)
Definition Bcc_check (cc : Condition.t) : bool :=
  Z.land (cast u8 (Condition.to_bits cc)) 0xf8 =? 0.

Definition Bcc_label (cc : Condition.t) (rs1 rs2 : Z) (label : nat) (a : Assembler)
    : option Assembler :=
  match cc with
  | Condition.kAlways => Some (Jal_label 0 label a)
  | Condition.kNever => Some a
  | _ =>
      if Bcc_check cc then
        Some (Emit32 (EmitInstruction 0x63 [Cond (Condition.to_bits cc); Rs1 rs1; Rs2 rs2])
                     (push_jump label false a))
      else None
  end.

(** The conversion of a branch immediate to a jump immediate in [Bcc]. *)
Definition Bcc_jimmediate (encoded_immediate_value : Z) : Z :=
  Z.lor (Z.lor (Z.land (Z.shiftr encoded_immediate_value 19) 0x000ff000)
               (Z.land (shl32 encoded_immediate_value 13) 0x01f00000))
        (Z.land encoded_immediate_value (cast i32 0xfe000000)).

Definition Bcc_imm (cc : Condition.t) (rs1 rs2 immediate : Z) (a : Assembler) : option Assembler :=
  match cc with
  | Condition.kAlways =>
      Some (Emit32 (EmitJTypeInstruction 0x6f 0 (Bcc_jimmediate immediate)) a)
  | Condition.kNever => Some a
  | _ =>
      if Bcc_check cc then
        Some (Emit32 (EmitInstruction 0x63
                        [Cond (Condition.to_bits cc); Rs1 rs1; Rs2 rs2; immediate]) a)
      else None
  end.

(** The loads and [La] with a label: [auipc arg0, 0] followed by an I-type
    instruction on [arg0]; [None] is the failed check that [arg0] is not [x0]. *)
Definition Load_label (kOpcode rd : Z) (label : nat) (a : Assembler) : option Assembler :=
  if rd =? 0 then None
  else Some (Emit32 (EmitITypeInstruction kOpcode rd rd 0)
               (Emit32 (EmitUTypeInstruction 0x17 rd 0) (push_jump label false a))).
Definition La (rd : Z) (label : nat) (a : Assembler) : option Assembler :=
  Load_label 0x13 rd label a.

(** Floating-point loads and all stores take a scratch register [arg2]. *)
Definition LoadFp_label (kOpcode rd : Z) (label : nat) (arg2 : Z) (a : Assembler)
    : option Assembler :=
  if arg2 =? 0 then None
  else Some (Emit32 (EmitITypeInstruction kOpcode rd arg2 0)
               (Emit32 (EmitUTypeInstruction 0x17 arg2 0) (push_jump label false a))).
Definition Store_label (kOpcode data : Z) (label : nat) (arg2 : Z) (a : Assembler)
    : option Assembler :=
  if arg2 =? 0 then None
  else Some (Emit32 (EmitSTypeInstruction kOpcode data arg2 0)
               (Emit32 (EmitUTypeInstruction 0x17 arg2 0) (push_jump label false a))).

(** The 64-bit [Ld], [Lwu] and [Sd] with a label do not check their register. *)
Definition Ld_label (rd : Z) (label : nat) (a : Assembler) : Assembler :=
  Emit32 (EmitITypeInstruction 0x3003 rd rd 0)
    (Emit32 (EmitUTypeInstruction 0x17 rd 0) (push_jump label false a)).
Definition Lwu_label (rd : Z) (label : nat) (a : Assembler) : Assembler :=
  Emit32 (EmitITypeInstruction 0x6003 rd rd 0)
    (Emit32 (EmitUTypeInstruction 0x17 rd 0) (push_jump label false a)).
Definition Sd_label (data : Z) (label : nat) (arg2 : Z) (a : Assembler) : Assembler :=
  Emit32 (EmitSTypeInstruction 0x3023 data arg2 0)
    (Emit32 (EmitUTypeInstruction 0x17 arg2 0) (push_jump label false a)).

(** [Call] and [Tail]: [auipc x6] and [jalr] through it. *)
Definition Call (label : nat) (a : Assembler) : Assembler :=
  Emit32 (EmitITypeInstruction 0x67 1 6 0)
    (Emit32 (EmitUTypeInstruction 0x17 6 0) (push_jump label false a)).
Definition Tail (label : nat) (a : Assembler) : Assembler :=
  Emit32 (EmitITypeInstruction 0x67 0 6 0)
    (Emit32 (EmitUTypeInstruction 0x17 6 0) (push_jump label false a)).

(** Branches on zero and with the operands the other way round. *)
Definition Bgt (arg0 arg1 : Z) := Branch_label 0x4063 arg1 arg0.
Definition Bgtu (arg0 arg1 : Z) := Branch_label 0x6063 arg1 arg0.
Definition Ble (arg0 arg1 : Z) := Branch_label 0x5063 arg1 arg0.
Definition Bleu (arg0 arg1 : Z) := Branch_label 0x7063 arg1 arg0.
Definition Beqz (arg0 : Z) := Branch_label 0x63 arg0 0.
Definition Bnez (arg0 : Z) := Branch_label 0x1063 arg0 0.
Definition Blez (arg0 : Z) := Ble arg0 0.
Definition Bgez (arg0 : Z) := Branch_label 0x5063 arg0 0.
Definition Bltz (arg0 : Z) := Branch_label 0x4063 arg0 0.
Definition Bgtz (arg0 : Z) := Bgt arg0 0.

(** Other pseudo-instructions, as the word they emit. *)
Definition Mv (dest src : Z) := EmitITypeInstruction 0x13 dest src (Immediate_MakeRaw 0).
Definition Ret := EmitITypeInstruction 0x67 0 1 (Immediate_MakeRaw 0).
Definition Seqz (arg0 arg1 : Z) := EmitITypeInstruction 0x3013 arg0 arg1 (Immediate_MakeRaw 1).
Definition Snez (arg0 arg1 : Z) := EmitRTypeInstruction 0x3033 arg0 0 arg1.
Definition Sltz (arg0 arg1 : Z) := EmitRTypeInstruction 0x2033 arg0 arg1 0.
Definition Sgtz (arg0 arg1 : Z) := EmitRTypeInstruction 0x2033 arg0 0 arg1.
Definition J (arg0 : Z) := EmitJTypeInstruction 0x6f 0 arg0.
Definition Jal_ra (arg0 : Z) := EmitJTypeInstruction 0x6f 1 arg0.
Definition Jr (arg0 : Z) := EmitITypeInstruction 0x67 0 arg0 (Immediate_MakeRaw 0).
Definition Jalr_ra (arg0 : Z) := EmitITypeInstruction 0x67 1 arg0 (Immediate_MakeRaw 0).
Definition Not (arg0 arg1 : Z) := EmitITypeInstruction 0x4013 arg0 arg1 (Immediate_MakeRaw (-1)).
Definition Neg (arg0 arg1 : Z) := EmitRTypeInstruction 0x40000033 arg0 0 arg1.
Definition SextW (arg0 arg1 : Z) := EmitITypeInstruction 0x1b arg0 arg1 (Immediate_MakeRaw 0).
Definition ZextW (arg0 arg1 : Z) := EmitRTypeInstruction 0x800003b arg0 arg1 0.
Definition Negw (arg0 arg1 : Z) := EmitRTypeInstruction 0x4000003b arg0 0 arg1.

(** [ToReverseCond(cond)] on the condition's bits; [None] is the failed check. *)
Definition ToReverseCond (cond : Z) : option Z :=
  if cond =? -1 then None else Some (Z.lxor cond 1).

(** ** Resolving labels *)

(** The split of a 32-bit offset into the [auipc] part and the signed low
    12 bits. *)
Definition offset_top (offset : Z) : Z :=
  cast i32 (Z.land (cast u32 (cast u32 offset + cast u32 (Z.land (cast u32 offset) (2 ^ 11) * 2)))
                   0xfffff000).
Definition offset_bottom (offset : Z) : Z := cast (mkIntType 12 true) offset.

(** [ProcessLabel] for a jump or branch immediate. *)
Definition ProcessLabel (make : IntType -> Z -> option Z) (pc offset : Z) (code : list Z)
    : option (list Z) :=
  imm ← make i32 offset; or32 imm pc code.

(** [ProcessLabel] for [auipc], which accepts any offset by patching the next
    instruction too. *)
Definition ProcessLabel_auipc (pc offset : Z) (code : list Z) : option (list Z) :=
  match MakeUImmediate i32 offset with
  | Some imm => or32 imm pc code
  | None =>
      top ← MakeUImmediate i32 (offset_top offset);
      code ← or32 top pc code;
      next ← read32 code (cast u32 (pc + 4));
      bottom ← (if Z.land next 96 =? 32 then MakeSImmediate i32 (offset_bottom offset)
                else MakeIImmediate i32 (offset_bottom offset));
      or32 bottom (cast u32 (pc + 4)) code
  end.

(** One iteration of [ResolveJumps]; [None] is a failed check (unbound label or
    offset out of range). *)
Definition ResolveJump (a : Assembler) (jump : Jump) : option Assembler :=
  if negb (IsBound a (jump_label jump)) then None
  else
    let pos := position a (jump_label jump) in
    let pc := jump_pc jump in
    if is_recovery jump then
      Some (mkAssembler (code_ a) (relocations_ a ++ [(pc, pos)]) (jumps_ a) (labels a))
    else
      let offset := cast i32 (cast u32 (pos - pc)) in
      word ← read32 (code_ a) pc;
      code ← (if negb (Z.land word 16 =? 0) then ProcessLabel_auipc pc offset (code_ a)
              else if negb (Z.land word 4 =? 0) then ProcessLabel MakeJImmediate pc offset (code_ a)
              else ProcessLabel MakeBImmediate pc offset (code_ a));
      Some (mkAssembler code (relocations_ a) (jumps_ a) (labels a)).

Definition ResolveJumps (a : Assembler) : option Assembler :=
  foldl (fun acc j => a ← acc; ResolveJump a j) (Some a) (jumps_ a).

(** ** Loading constants *)

(** The instruction words [Li(dest, imm32)] emits. *)
Definition Li32 (dest imm32 : Z) : option (list Z) :=
  if (-2048 <=? imm32) && (imm32 <=? 2047) then
    imm ← MakeIImmediate i32 imm32; Some [EmitITypeInstruction 0x13 dest 0 imm]
  else
    let uimm := cast u32 imm32 in
    let top := cast i32 (Z.land (cast u32 (uimm + cast u32 (Z.shiftl (Z.land uimm (2 ^ 11)) 1)))
                                0xfffff000) in
    let bottom := cast (mkIntType 12 true) imm32 in
    utop ← MakeUImmediate i32 top;
    if negb (bottom =? 0) then
      imm ← MakeIImmediate i32 bottom;
      Some [EmitUTypeInstruction 0x37 dest utop; EmitITypeInstruction 0x13 dest dest imm]
    else Some [EmitUTypeInstruction 0x37 dest utop].

(** [riscv64::Assembler::Li(dest, imm64)].  Each recursive call on the shift
    branch drops at least 12 bits, so little fuel is enough. *)
Fixpoint Li64 (fuel : nat) (dest imm64 : Z) : option (list Z) :=
  match fuel with
  | O => None
  | S fuel =>
      let imm32 := cast i32 imm64 in
      if imm32 =? imm64 then Li32 dest imm32
      else
        let uimm := cast u64 imm64 in
        if negb (Z.land imm64 0xfff =? 0) then
          let top := cast i64 (Z.land (cast u64 (uimm + cast u64 (Z.shiftl (Z.land uimm (2 ^ 11)) 1)))
                                      0xfffffffffffff000) in
          let bottom := cast (mkIntType 12 true) imm64 in
          l ← Li64 fuel dest top;
          imm ← MakeIImmediate i64 bottom;
          Some (l ++ [EmitITypeInstruction 0x13 dest dest imm])
        else
          let zeros := default 64 (builtin_ctzll uimm) in
          l ← Li64 fuel dest (Z.shiftr imm64 zeros);
          imm ← MakeShift64Immediate u8 zeros;
          Some (l ++ [EmitITypeInstruction 0x1013 dest dest imm])
  end.

(** ** The opcode tables

    The entries of insn_def_riscv.json and insn_def_riscv64.json that name an
    opcode, grouped by the operands they take. *)
Definition RType_insns : list (string * Z) :=
  [("add", 0x33); ("and", 0x7033); ("div", 0x2004033); ("divu", 0x2005033);
   ("mul", 0x2000033); ("mulh", 0x2001033); ("mulhsu", 0x2002033); ("mulhu", 0x2003033);
   ("or", 0x6033); ("rem", 0x2006033); ("remu", 0x2007033); ("ror", 0x60005033);
   ("sh3add", 0x20006033); ("sll", 0x1033); ("slt", 0x2033); ("sltu", 0x3033);
   ("sra", 0x40005033); ("sraw", 0x4000503b); ("srl", 0x5033); ("srlw", 0x503b);
   ("sub", 0x40000033); ("xor", 0x4033); ("AddUW", 0x800003b); ("addw", 0x3b);
   ("divuw", 0x200503b); ("divw", 0x200403b); ("mulw", 0x200003b); ("remuw", 0x200703b);
   ("remw", 0x200603b); ("rorw", 0x6000503b); ("sllw", 0x103b); ("subw", 0x4000003b)].
Definition RType2_insns : list (string * Z) :=
  [("sext.b", 0x60401013); ("sext.h", 0x60501013)].
Definition RTypeRm_insns : list (string * Z) :=
  [("fcvt.d.s", 0x42000053); ("fcvt.s.d", 0x40100053); ("fsqrt.d", 0x5a000053);
   ("fsqrt.s", 0x58000053); ("fcvt.d.w", 0xd2000053); ("fcvt.d.wu", 0xd2100053);
   ("fcvt.s.w", 0xd0000053); ("fcvt.s.wu", 0xd0100053); ("fcvt.w.d", 0xc2000053);
   ("fcvt.w.s", 0xc0000053); ("fcvt.wu.d", 0xc2100053); ("fcvt.wu.s", 0xc0100053);
   ("fcvt.d.l", 0xd2200053); ("fcvt.d.lu", 0xd2300053); ("fcvt.s.l", 0xd0200053);
   ("fcvt.s.lu", 0xd0300053); ("fcvt.l.d", 0xc2200053); ("fcvt.l.s", 0xc0200053);
   ("fcvt.lu.d", 0xc2300053); ("fcvt.lu.s", 0xc0300053)].
Definition IType_insns : list (string * Z) :=
  [("addi", 0x13); ("andi", 0x7013); ("jalr", 0x67); ("ori", 0x6013); ("slti", 0x2013);
   ("sltiu", 0x3013); ("xori", 0x4013); ("addiw", 0x1b)].
Definition Shift64_insns : list (string * Z) :=
  [("bexti", 0x48005013); ("rori", 0x60005013); ("slli", 0x1013); ("srai", 0x40005013);
   ("srli", 0x5013)].
Definition Shift32_insns : list (string * Z) :=
  [("roriw", 0x6000501b); ("slliw", 0x101b); ("sraiw", 0x4000501b); ("srliw", 0x501b)].
Definition Load_insns : list (string * Z) :=
  [("jalr", 0x67); ("lb", 0x3); ("lbu", 0x4003); ("lh", 0x1003); ("lhu", 0x5003);
   ("lw", 0x2003); ("ld", 0x3003); ("lwu", 0x6003)].
Definition LoadFp_insns : list (string * Z) :=
  [("fld", 0x3007); ("flw", 0x2007)].
Definition Store_insns : list (string * Z) :=
  [("sb", 0x23); ("sh", 0x1023); ("sw", 0x2023); ("sd", 0x3023)].
Definition StoreFp_insns : list (string * Z) :=
  [("fsd", 0x3027); ("fsw", 0x2027)].
Definition BType_insns : list (string * Z) :=
  [("beq", 0x63); ("bge", 0x5063); ("bgeu", 0x7063); ("blt", 0x4063); ("bltu", 0x6063);
   ("bne", 0x1063)].
Definition UType_insns : list (string * Z) :=
  [("auipc", 0x17); ("lui", 0x37)].
Definition JType_insns : list (string * Z) :=
  [("jal", 0x6f)].
Definition Csr_insns : list (string * Z) :=
  [("csrrc", 0x3073); ("csrrs", 0x2073); ("csrrw", 0x1073)].
Definition CsrImm_insns : list (string * Z) :=
  [("csrrc", 0x7073); ("csrrci", 0x7073); ("csrrs", 0x6073); ("csrrsi", 0x6073);
   ("csrrw", 0x5073); ("csrrwi", 0x5073)].
Definition PType_insns : list (string * Z) :=
  [("prefetch.i", 0x6013); ("prefetch.r", 0x106013); ("prefetch.w", 0x306013)].
