(* ===== verification/RiscvDecoderProps.v ===== *)
(** * Properties of the RISC-V 64 decoder

    - the field reader is a bit slice, and every argument the decoder hands to
      the consumer lies in the range of its field;
    - how many consumer calls a decoded instruction makes. *)
From S2P Require Import Prelude MachineInt RiscvInsn RiscvDecoder.

(** ** Fields *)

Definition fits (n x : Z) : Prop := 0 <= x < 2 ^ n.
Definition sfits (n x : Z) : Prop := - 2 ^ (n - 1) <= x < 2 ^ (n - 1).

(** Shifting a field to the top and back down extracts it. *)
Lemma GetBits_bits code start size :
  0 <= start -> 0 < size -> start + size <= 32 ->
  GetBits code start size = bits code start size.
Proof.
  intros Hs Hn Hsum; unfold GetBits.
  assert (Z.shiftr (cast u32 (Z.shiftl code (32 - start - size))) (32 - size)
          = bits code start size) as ->.
  { unfold cast; cbn [u32 is_signed width]; apply Z.bits_inj'; intros i Hi.
    autorewrite with zbits; zreflect; cbn [andb]; try lia; try done; f_equal; lia. }
  apply cast_id.
  - unfold IntTypeOk, GetBits_type; zreflect; cbn; lia.
  - assert (0 <= bits code start size < 2 ^ size) by (apply Z.mod_pos_bound, pow2_pos; lia).
    assert (2 ^ size <= 2 ^ width (GetBits_type size)).
    { apply pow2_le_mono; unfold GetBits_type; zreflect; cbn; lia. }
    apply in_range_unsigned; [unfold GetBits_type; by zreflect | lia].
Qed.

Lemma GetBits_fits code start size :
  0 <= start -> 0 < size -> start + size <= 32 -> fits size (GetBits code start size).
Proof.
  intros; rewrite GetBits_bits by lia; apply Z.mod_pos_bound, pow2_pos; lia.
Qed.

Lemma fits_mono m n x : m <= n -> fits m x -> fits n x.
Proof. intros Hm Hx; pose proof (pow2_le_mono m n Hm); unfold fits in *; lia. Qed.

Lemma SignExtend_sfits n x : 0 < n -> sfits n (SignExtend n x).
Proof.
  intros Hn; unfold sfits, SignExtend.
  apply (in_range_signed (mkIntType n true)); [done | by apply cast_in_range].
Qed.

Lemma sfits_mono m n x : 0 < m <= n -> sfits m x -> sfits n x.
Proof. intros Hm Hx; pose proof (pow2_le_mono (m - 1) (n - 1)); unfold sfits in *; lia. Qed.

Lemma cast_signed_sfits n m x :
  0 < m <= n -> sfits m x -> cast (mkIntType n true) x = x.
Proof.
  intros Hm Hx; assert (IntTypeOk (mkIntType n true)) by (unfold IntTypeOk; cbn; lia).
  apply cast_id; [done |]; apply in_range_signed; [done |]; by apply (sfits_mono m).
Qed.

Lemma cast_u8_reg x : fits 3 x -> fits 5 (cast u8 (8 + x)).
Proof.
  unfold fits; intros Hx; rewrite cast_id; [cbn in *; lia | done |].
  apply in_range_unsigned; [done |]; cbn in *; lia.
Qed.

(** ** Well-formed consumer calls

    Register numbers have 5 bits, shift amounts and immediates the size of
    their field; opcode fields hold the bits read, which may name no
    enumerator. *)
#[export] Instance fits_dec n x : Decision (fits n x).
Proof. unfold fits; apply _. Defined.
#[export] Instance sfits_dec n x : Decision (sfits n x).
Proof. unfold sfits; apply _. Defined.

Abbreviation reg := (fits 5) (only parsing).

Definition wf_call (c : InsnCall) : Prop :=
  match c with
  | Amo a => fits 5 (AmoArgs.opcode a) /\ fits 3 (AmoArgs.operand_type a)
      /\ reg (AmoArgs.dst a) /\ reg (AmoArgs.src1 a) /\ reg (AmoArgs.src2 a)
  | Auipc a | Lui a => reg (UpperImmArgs.dst a) /\ sfits 32 (UpperImmArgs.imm a)
      /\ UpperImmArgs.imm a mod 2 ^ 12 = 0
  | CompareAndBranch a => fits 3 (BranchArgs.opcode a) /\ reg (BranchArgs.src1 a)
      /\ reg (BranchArgs.src2 a) /\ sfits 13 (BranchArgs.offset a)
      /\ BranchArgs.offset a mod 2 = 0
  | Csr a => fits 2 (CsrArgs.opcode a) /\ reg (CsrArgs.dst a) /\ reg (CsrArgs.src a)
      /\ fits 12 (CsrArgs.csr a)
  | CsrImm a => fits 2 (CsrImmArgs.opcode a) /\ reg (CsrImmArgs.dst a)
      /\ fits 5 (CsrImmArgs.imm a) /\ fits 12 (CsrImmArgs.csr a)
  | FcvtFloatToFloat a => fits 2 (FcvtFloatToFloatArgs.dst_type a)
      /\ fits 2 (FcvtFloatToFloatArgs.src_type a) /\ reg (FcvtFloatToFloatArgs.dst a)
      /\ reg (FcvtFloatToFloatArgs.src a) /\ fits 3 (FcvtFloatToFloatArgs.rm a)
  | FcvtFloatToInteger a => fits 5 (FcvtFloatToIntegerArgs.dst_type a)
      /\ fits 2 (FcvtFloatToIntegerArgs.src_type a) /\ reg (FcvtFloatToIntegerArgs.dst a)
      /\ reg (FcvtFloatToIntegerArgs.src a) /\ fits 3 (FcvtFloatToIntegerArgs.rm a)
  | FcvtIntegerToFloat a => fits 2 (FcvtIntegerToFloatArgs.dst_type a)
      /\ fits 5 (FcvtIntegerToFloatArgs.src_type a) /\ reg (FcvtIntegerToFloatArgs.dst a)
      /\ reg (FcvtIntegerToFloatArgs.src a) /\ fits 3 (FcvtIntegerToFloatArgs.rm a)
  | Fence a => fits 4 (FenceArgs.opcode a) /\ reg (FenceArgs.dst a) /\ reg (FenceArgs.src a)
  | FenceI a => reg (FenceIArgs.dst a) /\ reg (FenceIArgs.src a) /\ sfits 12 (FenceIArgs.imm a)
  | Fma a => fits 2 (FmaArgs.opcode a) /\ fits 2 (FmaArgs.operand_type a)
      /\ reg (FmaArgs.dst a) /\ reg (FmaArgs.src1 a) /\ reg (FmaArgs.src2 a)
      /\ reg (FmaArgs.src3 a) /\ fits 3 (FmaArgs.rm a)
  | FmvFloatToInteger a => fits 2 (FmvFloatToIntegerArgs.operand_type a)
      /\ reg (FmvFloatToIntegerArgs.dst a) /\ reg (FmvFloatToIntegerArgs.src a)
  | FmvIntegerToFloat a => fits 2 (FmvIntegerToFloatArgs.operand_type a)
      /\ reg (FmvIntegerToFloatArgs.dst a) /\ reg (FmvIntegerToFloatArgs.src a)
  | JumpAndLink a => reg (JumpAndLinkArgs.dst a) /\ sfits 21 (JumpAndLinkArgs.offset a)
      /\ JumpAndLinkArgs.offset a mod 2 = 0
  | JumpAndLinkRegister a => reg (JumpAndLinkRegisterArgs.dst a)
      /\ reg (JumpAndLinkRegisterArgs.base a) /\ sfits 12 (JumpAndLinkRegisterArgs.offset a)
  | Load a | LoadFp a => fits 3 (LoadArgsTemplate.operand_type a)
      /\ reg (LoadArgsTemplate.dst a) /\ reg (LoadArgsTemplate.src a)
      /\ sfits 12 (LoadArgsTemplate.offset a)
  | Store a | StoreFp a => fits 3 (StoreArgsTemplate.operand_type a)
      /\ reg (StoreArgsTemplate.src a) /\ sfits 12 (StoreArgsTemplate.offset a)
      /\ reg (StoreArgsTemplate.data a)
  | Nop | Undefined => True
  | Op a | Op32 a => fits 10 (OpArgsTemplate.opcode a) /\ reg (OpArgsTemplate.dst a)
      /\ reg (OpArgsTemplate.src1 a) /\ reg (OpArgsTemplate.src2 a)
  | OpFp a => fits 2 (OpFpArgs.opcode a) /\ fits 2 (OpFpArgs.operand_type a)
      /\ reg (OpFpArgs.dst a) /\ reg (OpFpArgs.src1 a) /\ reg (OpFpArgs.src2 a)
      /\ fits 3 (OpFpArgs.rm a)
  | OpFpGpRegisterTargetNoRounding a => fits 5 (OpFpGpRegisterTargetNoRoundingArgs.opcode a)
      /\ fits 2 (OpFpGpRegisterTargetNoRoundingArgs.operand_type a)
      /\ reg (OpFpGpRegisterTargetNoRoundingArgs.dst a)
      /\ reg (OpFpGpRegisterTargetNoRoundingArgs.src1 a)
      /\ reg (OpFpGpRegisterTargetNoRoundingArgs.src2 a)
  | OpFpGpRegisterTargetSingleInputNoRounding a =>
      fits 10 (OpFpGpRegisterTargetSingleInputNoRoundingArgs.opcode a)
      /\ fits 2 (OpFpGpRegisterTargetSingleInputNoRoundingArgs.operand_type a)
      /\ reg (OpFpGpRegisterTargetSingleInputNoRoundingArgs.dst a)
      /\ reg (OpFpGpRegisterTargetSingleInputNoRoundingArgs.src a)
  | OpFpNoRounding a => fits 5 (OpFpNoRoundingArgs.opcode a)
      /\ fits 2 (OpFpNoRoundingArgs.operand_type a) /\ reg (OpFpNoRoundingArgs.dst a)
      /\ reg (OpFpNoRoundingArgs.src1 a) /\ reg (OpFpNoRoundingArgs.src2 a)
  | OpFpSingleInput a => fits 7 (OpFpSingleInputArgs.opcode a)
      /\ fits 2 (OpFpSingleInputArgs.operand_type a) /\ reg (OpFpSingleInputArgs.dst a)
      /\ reg (OpFpSingleInputArgs.src a) /\ fits 3 (OpFpSingleInputArgs.rm a)
  | OpFpSingleInputNoRounding a => OpFpSingleInputNoRoundingArgs.opcode a = 0
      /\ fits 2 (OpFpSingleInputNoRoundingArgs.operand_type a)
      /\ reg (OpFpSingleInputNoRoundingArgs.dst a) /\ reg (OpFpSingleInputNoRoundingArgs.src a)
  | OpImm a | OpImm32 a => fits 3 (OpImmArgsTemplate.opcode a) /\ reg (OpImmArgsTemplate.dst a)
      /\ reg (OpImmArgsTemplate.src a) /\ sfits 12 (OpImmArgsTemplate.imm a)
  | OpImmShift a => fits 8 (ShiftImmArgsTemplate.opcode a) /\ reg (ShiftImmArgsTemplate.dst a)
      /\ reg (ShiftImmArgsTemplate.src a) /\ fits 6 (ShiftImmArgsTemplate.imm a)
  | OpImmShift32 a => fits 10 (ShiftImmArgsTemplate.opcode a) /\ reg (ShiftImmArgsTemplate.dst a)
      /\ reg (ShiftImmArgsTemplate.src a) /\ fits 5 (ShiftImmArgsTemplate.imm a)
  | OpImmBitmanip a => fits 15 (BitmanipImmArgsTemplate.opcode a)
      /\ reg (BitmanipImmArgsTemplate.dst a) /\ reg (BitmanipImmArgsTemplate.src a)
      /\ fits 6 (BitmanipImmArgsTemplate.shamt a)
  | OpImmBitmanip32 a => fits 15 (BitmanipImmArgsTemplate.opcode a)
      /\ reg (BitmanipImmArgsTemplate.dst a) /\ reg (BitmanipImmArgsTemplate.src a)
      /\ fits 5 (BitmanipImmArgsTemplate.shamt a)
  | OpSingleInput a => fits 10 (OpSingleInputArgs.opcode a) /\ reg (OpSingleInputArgs.dst a)
      /\ reg (OpSingleInputArgs.src a)
  | OpVectorLoadIndexed a => fits 3 (VLoadIndexedArgs.width a) /\ fits 3 (VLoadIndexedArgs.nf a)
      /\ reg (VLoadIndexedArgs.dst a) /\ reg (VLoadIndexedArgs.src a)
      /\ reg (VLoadIndexedArgs.idx a)
  | OpVectorLoadStride a => fits 3 (VLoadStrideArgs.width a) /\ fits 3 (VLoadStrideArgs.nf a)
      /\ reg (VLoadStrideArgs.dst a) /\ reg (VLoadStrideArgs.src a) /\ reg (VLoadStrideArgs.std a)
  | OpVectorLoadUnitStride a => fits 5 (VLoadUnitStrideArgs.opcode a)
      /\ fits 3 (VLoadUnitStrideArgs.width a) /\ fits 3 (VLoadUnitStrideArgs.nf a)
      /\ reg (VLoadUnitStrideArgs.dst a) /\ reg (VLoadUnitStrideArgs.src a)
  | OpVectorStoreIndexed a => fits 3 (VStoreIndexedArgs.width a) /\ fits 3 (VStoreIndexedArgs.nf a)
      /\ reg (VStoreIndexedArgs.src a) /\ reg (VStoreIndexedArgs.idx a)
      /\ reg (VStoreIndexedArgs.data a)
  | OpVectorStoreStride a => fits 3 (VStoreStrideArgs.width a) /\ fits 3 (VStoreStrideArgs.nf a)
      /\ reg (VStoreStrideArgs.src a) /\ reg (VStoreStrideArgs.std a)
      /\ reg (VStoreStrideArgs.data a)
  | OpVectorStoreUnitStride a => fits 5 (VStoreUnitStrideArgs.opcode a)
      /\ fits 3 (VStoreUnitStrideArgs.width a) /\ fits 3 (VStoreUnitStrideArgs.nf a)
      /\ reg (VStoreUnitStrideArgs.src a) /\ reg (VStoreUnitStrideArgs.data a)
  | OpVectorFVf a => fits 6 (VOpFVfArgs.opcode a) /\ reg (VOpFVfArgs.dst a)
      /\ reg (VOpFVfArgs.src1 a) /\ reg (VOpFVfArgs.src2 a)
  | OpVectorFVv a => fits 6 (VOpFVvArgs.opcode a) /\ reg (VOpFVvArgs.dst a)
      /\ reg (VOpFVvArgs.src1 a) /\ reg (VOpFVvArgs.src2 a)
  | OpVectorIVi a => fits 6 (VOpIViArgs.opcode a) /\ reg (VOpIViArgs.dst a)
      /\ reg (VOpIViArgs.src a) /\ fits 5 (VOpIViArgs.uimm a)
  | OpVectorIVv a => fits 6 (VOpIVvArgs.opcode a) /\ reg (VOpIVvArgs.dst a)
      /\ reg (VOpIVvArgs.src1 a) /\ reg (VOpIVvArgs.src2 a)
  | OpVectorIVx a => fits 6 (VOpIVxArgs.opcode a) /\ reg (VOpIVxArgs.dst a)
      /\ reg (VOpIVxArgs.src1 a) /\ reg (VOpIVxArgs.src2 a)
  | OpVectorMVv a => fits 6 (VOpMVvArgs.opcode a) /\ reg (VOpMVvArgs.dst a)
      /\ reg (VOpMVvArgs.src1 a) /\ reg (VOpMVvArgs.src2 a)
  | OpVectorMVx a => fits 6 (VOpMVxArgs.opcode a) /\ reg (VOpMVxArgs.dst a)
      /\ reg (VOpMVxArgs.src1 a) /\ reg (VOpMVxArgs.src2 a)
  | System a => fits 25 (SystemArgs.opcode a)
  | Vsetivli a => reg (VsetivliArgs.dst a) /\ fits 5 (VsetivliArgs.avl a)
      /\ fits 10 (VsetivliArgs.vtype a)
  | Vsetvl a => reg (VsetvlArgs.dst a) /\ reg (VsetvlArgs.src1 a) /\ reg (VsetvlArgs.src2 a)
  | Vsetvli a => reg (VsetvliArgs.dst a) /\ reg (VsetvliArgs.src a)
      /\ fits 11 (VsetvliArgs.vtype a)
  end.

#[export] Instance wf_call_dec c : Decision (wf_call c).
Proof. destruct c; cbn; apply _. Defined.

(** *** Arithmetic on fields *)

Lemma fits_cast n t x : fits n x -> n < width t -> 0 < width t -> cast t x = x.
Proof.
  intros Hx Hn Hw; assert (IntTypeOk t) by done; apply cast_id; [done |].
  pose proof (pow2_le_mono n (width t - 1) ltac:(lia)); pose proof (half_range t).
  unfold fits, in_range, int_min, int_max in *; destruct (is_signed t); lia.
Qed.

Lemma fits_lor n x y : 0 <= n -> fits n x -> fits n y -> fits n (Z.lor x y).
Proof.
  intros Hn Hx Hy; apply bounded_of_testbit; [done |]; intros i Hi; rewrite Z.lor_spec.
  by rewrite (testbit_bounded x n), (testbit_bounded y n).
Qed.

Lemma fits_shiftl n k x : 0 <= k -> fits n x -> 0 <= n -> fits (n + k) (Z.shiftl x k).
Proof.
  intros Hk Hx Hn; rewrite Z.shiftl_mul_pow2 by done; unfold fits in *.
  rewrite Z.pow_add_r by lia; pose proof (pow2_pos k Hk); nia.
Qed.

Lemma fits_lor_shiftl n k x y :
  0 <= k -> 0 <= n -> fits k x -> fits n y -> fits (n + k) (Z.lor x (Z.shiftl y k)).
Proof.
  intros; apply fits_lor; [lia | apply (fits_mono k); (done || lia) | by apply fits_shiftl].
Qed.

Lemma fits_shiftl_add n k x y :
  0 <= k -> 0 <= n -> fits k x -> fits n y -> fits (n + k) (Z.shiftl y k + x).
Proof.
  intros Hk Hn Hx Hy; rewrite Z.shiftl_mul_pow2 by done; unfold fits in *.
  rewrite Z.pow_add_r by lia; pose proof (pow2_pos k Hk); nia.
Qed.

Lemma cast_u8_fits x : fits 8 (cast u8 x).
Proof. apply (in_range_unsigned u8); [done | by apply cast_in_range]. Qed.

(** Decides that a field of a decoded call has the right size. *)
Ltac fits_solve :=
  lazymatch goal with
  | |- True => exact I
  | |- fits _ (GetBits _ _ _) =>
      eapply fits_mono; [| apply GetBits_fits; lia]; lia
  | |- sfits _ (SignExtend _ _) =>
      eapply sfits_mono; [| apply SignExtend_sfits; lia]; lia
  | |- fits 8 (cast u8 _) => apply cast_u8_fits
  | |- fits 5 (cast u8 (8 + _)) => apply cast_u8_reg; fits_solve
  | |- fits 5 (cast u8 (_ + 8)) => rewrite Z.add_comm; apply cast_u8_reg; fits_solve
  | |- fits ?n (cast ?t ?x) => rewrite (fits_cast n t x); [fits_solve | fits_solve | cbn; lia ..]
  | |- fits ?n (Z.lor ?x (Z.shiftl ?y ?k)) =>
      apply (fits_lor_shiftl (n - k) k); [lia | lia | fits_solve | fits_solve]
  | |- fits ?n (Z.shiftl ?y ?k + ?x) =>
      apply (fits_shiftl_add (n - k) k); [lia | lia | fits_solve | fits_solve]
  | |- fits _ (if _ then _ else _) => case_goal; fits_solve
  | |- _ => try done; unfold fits, sfits; cbn; lia
  end.

(** Unfolds a decoding function to its branches and checks every call. *)
Ltac wf_branches :=
  cbv zeta; repeat case_goal;
  first [apply Forall_nil; exact I
        | apply List.Forall_cons; [cbn [wf_call] | apply List.Forall_nil]];
  cbn; split_and?; try fits_solve;
  try match goal with
  | H : (if _ then (_, _) else (_, _)) = (_, _) |- _ => case_hyp H; simplify_eq; fits_solve
  end.

Lemma enum_bits_fits3 (w : MemoryDataOperandType.t) : fits 3 (enum_bits w).
Proof. destruct w; vm_compute; split; congruence. Qed.

Lemma float_bits_fits3 (f : FloatOperandType.t) : fits 3 (enum_bits f).
Proof. destruct f; vm_compute; split; congruence. Qed.

Lemma load_bits_fits3 (l : LoadOperandType.t) : fits 3 (enum_bits l).
Proof. destruct l; vm_compute; split; congruence. Qed.

#[export] Hint Resolve enum_bits_fits3 float_bits_fits3 load_bits_fits3 : zrange.

Lemma DecodeMiscMem_wf code : Forall wf_call (DecodeMiscMem code).
Proof. unfold DecodeMiscMem; wf_branches. Qed.

Lemma DecodeOp_wf mk code : (mk = Op \/ mk = Op32) -> Forall wf_call (DecodeOp mk code).
Proof.
  intros [-> | ->]; unfold DecodeOp, DecodeSingleInputOp; wf_branches.
Qed.

Lemma DecodeAmo_wf code : Forall wf_call (DecodeAmo code).
Proof. unfold DecodeAmo; wf_branches. Qed.

Lemma DecodeFma_wf code : Forall wf_call (DecodeFma code).
Proof. unfold DecodeFma; wf_branches. Qed.

Lemma upper_imm_wf x :
  sfits 32 (cast i32 (Z.shiftl x 12)) /\ cast i32 (Z.shiftl x 12) mod 2 ^ 12 = 0.
Proof.
  split.
  - apply (in_range_signed i32); [done | by apply cast_in_range].
  - rewrite cast_mod_pow2, Z.shiftl_mul_pow2 by (cbn; lia); apply Z_mod_mult.
Qed.

Lemma DecodeLui_wf code : Forall wf_call (DecodeLui code).
Proof.
  unfold DecodeLui; wf_branches; apply upper_imm_wf.
Qed.

Lemma DecodeAuipc_wf code : Forall wf_call (DecodeAuipc code).
Proof. unfold DecodeAuipc; wf_branches; apply upper_imm_wf. Qed.

Lemma DecodeLoad_wf code : Forall wf_call (DecodeLoad code).
Proof. unfold DecodeLoad, DecodeLoad_scalar; wf_branches. Qed.

Lemma DecodeStore_wf code : Forall wf_call (DecodeStore code).
Proof. unfold DecodeStore, DecodeStore_scalar; wf_branches. Qed.

Lemma DecodeLoadFp_wf code : Forall wf_call (DecodeLoadFp code).
Proof. unfold DecodeLoadFp, DecodeLoad_scalar; wf_branches; auto with zrange. Qed.

Lemma DecodeStoreFp_wf code : Forall wf_call (DecodeStoreFp code).
Proof. unfold DecodeStoreFp, DecodeStore_scalar; wf_branches; auto with zrange. Qed.

Lemma DecodeOpImm_wf code :
  Forall wf_call (DecodeOpImm OpImm OpImmShift u8 OpImmBitmanip 6 code).
Proof. unfold DecodeOpImm; wf_branches. Qed.

Lemma DecodeOpImm32_wf code :
  Forall wf_call (DecodeOpImm OpImm32 OpImmShift32 u16 OpImmBitmanip32 5 code).
Proof. unfold DecodeOpImm; wf_branches. Qed.

Lemma SignExtend_even n x : 1 < n -> x mod 2 = 0 -> SignExtend n x mod 2 = 0.
Proof.
  intros Hn Hx; unfold SignExtend; change 2 with (2 ^ 1).
  rewrite cast_mod_pow2 by (cbn; lia); done.
Qed.

Lemma DecodeBranch_wf code : Forall wf_call (DecodeBranch code).
Proof.
  unfold DecodeBranch; wf_branches.
  apply SignExtend_even; [lia |]; change 2 with (2 ^ 1) at 2.
  rewrite cast_mod_pow2 by (cbn; lia); apply Z_mod_mult.
Qed.

Lemma DecodeJumpAndLink_wf code : Forall wf_call (DecodeJumpAndLink code).
Proof.
  unfold DecodeJumpAndLink; wf_branches.
  apply SignExtend_even; [lia |]; apply Z_mod_mult.
Qed.

Lemma DecodeOpFp_wf code : Forall wf_call (DecodeOpFp code).
Proof.
  unfold DecodeOpFp; wf_branches.
  - match goal with H : (3 <? GetBits code 20 5) = false |- _ => apply Z.ltb_ge in H end.
    pose proof (GetBits_fits code 20 5); unfold fits in *; lia.
  - rewrite <- Z.add_assoc; fits_solve.
Qed.

Lemma DecodeOpV_wf code : Forall wf_call (DecodeOpV code).
Proof. unfold DecodeOpV; wf_branches. Qed.

Lemma DecodeSystem_wf code : Forall wf_call (DecodeSystem code).
Proof. unfold DecodeSystem; wf_branches. Qed.

Lemma DecodeJumpAndLinkRegister_wf code : Forall wf_call (DecodeJumpAndLinkRegister code).
Proof.
  unfold DecodeJumpAndLinkRegister; wf_branches.
  unfold sfits; rewrite Z.shiftr_div_pow2 by lia.
  pose proof (cast_in_range i16 (Z.shiftl (cast i16 (GetBits code 20 12)) 4)) as Hr.
  rewrite in_range_signed in Hr by done; cbn in Hr; zdivmod.
Qed.

Create HintDb decode_wf discriminated.
#[export] Hint Constants Opaque : decode_wf.
#[export] Hint Resolve DecodeLoad_wf DecodeLoadFp_wf DecodeMiscMem_wf DecodeOpImm_wf
  DecodeAuipc_wf DecodeOpImm32_wf DecodeStore_wf DecodeStoreFp_wf DecodeAmo_wf DecodeOp_wf
  DecodeLui_wf DecodeFma_wf DecodeOpFp_wf DecodeOpV_wf DecodeBranch_wf
  DecodeJumpAndLinkRegister_wf DecodeJumpAndLink_wf DecodeSystem_wf : decode_wf.

Lemma DecodeBaseInstruction_wf code : Forall wf_call (DecodeBaseInstruction code).1.
Proof.
  unfold DecodeBaseInstruction; cbn [fst].
  destruct (enum_of (GetBits code 2 5)) as [[] |]; auto with decode_wf;
    repeat constructor.
Qed.

(** *** Compressed instructions *)

Lemma table_fits n l i : 0 <= n -> forallb (fun x => bool_decide (fits n x)) l = true ->
  fits n (table l i).
Proof.
  intros Hn H; unfold table.
  destruct (nth_in_or_default (Z.to_nat i) l 0) as [Hin | ->].
  - rewrite forallb_forall in H; by apply (bool_decide_eq_true_1 _), H.
  - pose proof (pow2_pos n Hn); unfold fits; lia.
Qed.

Ltac table_solve := apply table_fits; [lia | vm_compute; reflexivity].

Lemma sfits_cast_i8 x : sfits 12 (cast i8 x).
Proof.
  apply (sfits_mono 8); [lia |]; apply (in_range_signed i8); [done | by apply cast_in_range].
Qed.

Lemma fits_sfits n x : n < 12 -> fits n x -> sfits 12 x.
Proof.
  intros Hn Hx; pose proof (pow2_le_mono n 11); unfold fits, sfits in *; lia.
Qed.

Lemma cast_i16_sfits n x : 0 < n <= 12 -> fits (n - 1) x -> sfits 12 (cast i16 x).
Proof.
  intros Hn Hx; rewrite (fits_cast (n - 1)) by (done || cbn; lia).
  by apply (fits_sfits (n - 1)); [lia |].
Qed.

Lemma DecodeCompressedLi_wf code : Forall wf_call (DecodeCompressedLi code).
Proof. unfold DecodeCompressedLi; wf_branches; apply sfits_cast_i8. Qed.

Lemma DecodeCompressedAddi_wf code : Forall wf_call (DecodeCompressedAddi code).
Proof.
  unfold DecodeCompressedAddi; cbv zeta; apply Forall_app; split.
  - destruct (_ || _); repeat constructor.
  - wf_branches; apply sfits_cast_i8.
Qed.

Lemma DecodeCompressedAddiw_wf code : Forall wf_call (DecodeCompressedAddiw code).
Proof. unfold DecodeCompressedAddiw; wf_branches; apply sfits_cast_i8. Qed.

Lemma DecodeCompressedSlli_wf code : Forall wf_call (DecodeCompressedSlli code).
Proof. unfold DecodeCompressedSlli; wf_branches. Qed.

Lemma DecodeCompressedJr_wf code : Forall wf_call (DecodeCompressedJr_Jalr_Mv_Add code).
Proof. unfold DecodeCompressedJr_Jalr_Mv_Add; wf_branches. Qed.

Lemma DecodeCompressedMiscAlu_wf code : Forall wf_call (DecodeCompressedMiscAlu code).
Proof.
  unfold DecodeCompressedMiscAlu; wf_branches.
  destruct (MiscAlu_si_opcode _) as [[] |]; simplify_eq; unfold fits; cbn; lia.
Qed.

Lemma DecodeCompressedStoresp_wf is_float ty code :
  fits 3 ty -> Forall wf_call (DecodeCompressedStoresp is_float ty code).
Proof.
  intros Hty; unfold DecodeCompressedStoresp; wf_branches; try done;
    (apply (cast_i16_sfits 10); [lia |]; apply (fits_shiftl 7 2); [lia | | lia]);
    table_solve.
Qed.

Lemma DecodeCompressedLoadsp_wf is_float ty code :
  fits 3 ty -> Forall wf_call (DecodeCompressedLoadsp is_float ty code).
Proof.
  intros Hty; unfold DecodeCompressedLoadsp; wf_branches; try done;
    apply (cast_i16_sfits 11); try lia; unfold fits;
    match goal with |- context [table ?l ?i] =>
      assert (Ht : fits 7 (table l i)) by table_solve; revert Ht; generalize (table l i) end;
    pose proof (GetBits_fits code 12 1); intros t Ht; rewrite !Z.shiftl_mul_pow2 by lia;
    unfold fits in *; cbn in *; lia.
Qed.

Lemma DecodeCompressedLoadStore_wf ls is_float ty code :
  fits 3 ty -> Forall wf_call (DecodeCompressedLoadStore ls is_float ty code).
Proof.
  intros Hty; unfold DecodeCompressedLoadStore; wf_branches; try done;
    apply (fits_sfits 8); (lia || apply cast_u8_fits).
Qed.

Lemma shiftl_even x k : 0 < k -> Z.shiftl x k mod 2 = 0.
Proof.
  intros; rewrite Z.shiftl_mul_pow2, (pow2_double k), (Z.mul_comm 2), Z.mul_assoc by lia.
  apply Z_mod_mult.
Qed.

Lemma DecodeCompressedLuiAddi16sp_wf code : Forall wf_call (DecodeCompressedLuiAddi16sp code).
Proof.
  unfold DecodeCompressedLuiAddi16sp; wf_branches.
  - unfold SignExtend; rewrite cast_mod_pow2, !Z.shiftl_mul_pow2 by (cbn; lia).
    change (2 ^ 17) with (2 ^ 5 * 2 ^ 12); rewrite Z.mul_assoc, <- Z.mul_add_distr_r.
    apply Z_mod_mult.
  - change i16 with (mkIntType 16 true); rewrite (cast_signed_sfits 16 10); [| lia |];
      [apply (sfits_mono 10); [lia |] |]; apply SignExtend_sfits; lia.
Qed.

(** The table entries of a branch or jump offset are even. *)
Lemma table_even l i : forallb (fun x => x mod 2 =? 0) l = true -> table l i mod 2 = 0.
Proof.
  intros H; unfold table; destruct (nth_in_or_default (Z.to_nat i) l 0) as [Hin | ->]; [| done].
  rewrite forallb_forall in H; by apply Z.eqb_eq, H.
Qed.

Lemma DecodeCompressedBeqzBnez_wf code : Forall wf_call (DecodeCompressedBeqzBnez code).
Proof.
  unfold DecodeCompressedBeqzBnez; wf_branches;
    change i16 with (mkIntType 16 true);
    rewrite (cast_signed_sfits 16 9) by (lia || apply SignExtend_sfits; lia).
  - fits_solve.
  - apply SignExtend_even; [lia |].
    rewrite Z.add_mod, !table_even by (lia || (vm_compute; reflexivity)); done.
Qed.

Lemma DecodeCompressedAddi4spn_wf code : Forall wf_call (DecodeCompressedAddi4spn code).
Proof.
  unfold DecodeCompressedAddi4spn; wf_branches.
  apply (cast_i16_sfits 11); [lia |]; apply (fits_shiftl 8 2); [lia | | lia].
  apply fits_lor; [lia | table_solve ..].
Qed.

Lemma lor_even x y : x mod 2 = 0 -> y mod 2 = 0 -> Z.lor x y mod 2 = 0.
Proof.
  rewrite !Zmod_even, <- !Z.negb_odd, <- !Z.bit0_odd, Z.lor_spec.
  by destruct (Z.testbit x 0), (Z.testbit y 0).
Qed.

Lemma kJHigh_sfits i : sfits 12 (cast i16 (table kJHigh i)) /\ cast i16 (table kJHigh i) mod 2 = 0.
Proof.
  assert (H : forallb (fun x => bool_decide (sfits 12 (cast i16 x)) && (cast i16 x mod 2 =? 0))
                (0 :: kJHigh) = true) by (vm_compute; reflexivity).
  rewrite forallb_forall in H; unfold table.
  destruct (andb_prop _ _ (H (nth (Z.to_nat i) kJHigh 0)
     ltac:(destruct (nth_in_or_default (Z.to_nat i) kJHigh 0) as [? | ->]; [by right | by left])))
    as [H1 H2%Z.eqb_eq].
  split; [by apply (bool_decide_eq_true_1 _) | done].
Qed.

Lemma DecodeCompressedJ_wf code : Forall wf_call (DecodeCompressedJ code).
Proof.
  unfold DecodeCompressedJ; wf_branches; destruct (kJHigh_sfits (GetBits code 8 5)) as [Hs He].
  - apply (sfits_mono 12); [lia |].
    apply (in_range_signed (mkIntType 12 true)); [done |]; apply lor_in_range; [done | |];
      apply in_range_signed; try done.
    apply (fits_sfits 8); [lia | table_solve].
  - apply lor_even; [done | apply table_even; vm_compute; reflexivity].
Qed.

#[export] Hint Resolve DecodeCompressedLi_wf DecodeCompressedAddi_wf DecodeCompressedAddiw_wf
  DecodeCompressedSlli_wf DecodeCompressedJr_wf DecodeCompressedMiscAlu_wf
  DecodeCompressedStoresp_wf DecodeCompressedLoadsp_wf DecodeCompressedLoadStore_wf
  DecodeCompressedLuiAddi16sp_wf DecodeCompressedBeqzBnez_wf DecodeCompressedAddi4spn_wf
  DecodeCompressedJ_wf : decode_wf.

Lemma DecodeCompressedInstruction_wf code : Forall wf_call (DecodeCompressedInstruction code).1.
Proof.
  unfold DecodeCompressedInstruction; cbn [fst].
  destruct (enum_of _) as [[] |]; try solve [auto with decode_wf zrange];
    repeat constructor.
Qed.

(** ** What the decoder promises its consumer *)

Lemma Decode_calls_wf code calls size :
  Decode code = Some (calls, size) -> Forall wf_call calls.
Proof.
  unfold Decode; destruct code as [| p rest]; [done |].
  destruct (GetInsnSize p =? 2); intros E.
  - apply (inj Some) in E; apply (f_equal fst) in E; cbn [fst] in E; subst calls.
    apply DecodeCompressedInstruction_wf.
  - destruct rest as [| q ?]; [done |].
    apply (inj Some) in E; apply (f_equal fst) in E; cbn [fst] in E; subst calls.
    apply DecodeBaseInstruction_wf.
Qed.

(** C37: every consumer call the decoder makes has its fields in range: register
    numbers have 5 bits, immediates and offsets the signed size of their
    instruction field, branch and jump offsets are even, upper immediates have
    twelve zero bits, shift amounts are below the operand width. *)
Theorem Decode_well_formed code calls size :
  Decode code = Some (calls, size) -> Forall wf_call calls.
Proof. apply Decode_calls_wf. Qed.

(** [c.lui x7, 31] *)
Lemma Decode_well_formed_witness :
  Forall wf_call [Lui (UpperImmArgs.mk 7 (-2 ^ 12))].
Proof. apply (Decode_well_formed [0x73fd] _ 2); vm_compute; reflexivity. Defined.

(** The one family of base encodings for which the consumer is not called. *)
Definition vset_gap (code : Z) : bool :=
  (bits code 2 5 =? 0x15) && (bits code 12 3 =? 7) && (bits code 30 2 =? 2)
  && negb (bits code 25 6 =? 0).

Ltac one_call := cbv zeta; repeat case_goal; reflexivity.

Lemma DecodeOpV_calls code :
  length (DecodeOpV code) =
  if (bits code 12 3 =? 7) && (bits code 30 2 =? 2) && negb (bits code 25 6 =? 0) then 0%nat else 1%nat.
Proof.
  unfold DecodeOpV; cbv zeta; rewrite !(GetBits_bits _ 12 3), !(GetBits_bits _ 31 1),
    !(GetBits_bits _ 30 1), !(GetBits_bits _ 25 6) by lia.
  pose proof (bits_range code 12 3 ltac:(lia)) as H3; pose proof (bits_range code 31 1 ltac:(lia)) as H31.
  pose proof (bits_range code 30 1 ltac:(lia)) as H30.
  assert (bits code 30 2 = bits code 30 1 + 2 * bits code 31 1) as ->.
  { unfold bits; change (2 ^ 31) with (2 ^ 30 * 2); rewrite <- Z.div_div by lia; zdivmod. }
  generalize dependent (bits code 12 3); generalize dependent (bits code 31 1).
  generalize dependent (bits code 30 1); intros b30 H30 b31 H31 low H3.
  assert (low = 0 \/ low = 1 \/ low = 2 \/ low = 3 \/ low = 4 \/ low = 5 \/ low = 6 \/ low = 7)
    as Hlow by (cbn in H3; lia).
  assert ((b30 = 0 \/ b30 = 1) /\ (b31 = 0 \/ b31 = 1)) as [Hb30 Hb31] by (cbn in H30, H31; lia).
  clear H3 H30 H31; destruct_or!; subst; try reflexivity.
  by destruct (bits code 25 6 =? 0).
Qed.

Lemma DecodeLoadFp_calls code : length (DecodeLoadFp code) = 1%nat.
Proof. unfold DecodeLoadFp; one_call. Qed.
Lemma DecodeStoreFp_calls code : length (DecodeStoreFp code) = 1%nat.
Proof. unfold DecodeStoreFp; one_call. Qed.
Lemma DecodeMiscMem_calls code : length (DecodeMiscMem code) = 1%nat.
Proof. unfold DecodeMiscMem; one_call. Qed.
Lemma DecodeAmo_calls code : length (DecodeAmo code) = 1%nat.
Proof. unfold DecodeAmo; one_call. Qed.
Lemma DecodeOp_calls mk code : length (DecodeOp mk code) = 1%nat.
Proof. unfold DecodeOp, DecodeSingleInputOp; one_call. Qed.
Lemma DecodeSystem_calls code : length (DecodeSystem code) = 1%nat.
Proof. unfold DecodeSystem; one_call. Qed.
Lemma DecodeJumpAndLinkRegister_calls code : length (DecodeJumpAndLinkRegister code) = 1%nat.
Proof. unfold DecodeJumpAndLinkRegister; one_call. Qed.
Lemma DecodeOpFp_calls code : length (DecodeOpFp code) = 1%nat.
Proof. unfold DecodeOpFp; one_call. Qed.

Lemma DecodeOpImm_calls op sh st bm k code : length (DecodeOpImm op sh st bm k code) = 1%nat.
Proof. unfold DecodeOpImm; one_call. Qed.

Lemma DecodeBase_calls code :
  length (DecodeBaseInstruction code).1 = if vset_gap code then 0%nat else 1%nat.
Proof.
  unfold DecodeBaseInstruction, vset_gap; cbn [fst]; rewrite GetBits_bits by lia.
  destruct (Z.eqb_spec (bits code 2 5) 0x15) as [E | E].
  - rewrite E; apply DecodeOpV_calls.
  - cbn [andb]; destruct (enum_of (bits code 2 5)) as [o |] eqn:Eo; [| reflexivity].
    apply enum_of_Some in Eo; rewrite <- Eo in E; clear Eo; destruct o;
      lazymatch goal with
      | |- length (DecodeMiscMem _) = _ => apply DecodeMiscMem_calls
      | |- length (DecodeAmo _) = _ => apply DecodeAmo_calls
      | |- length (DecodeOp _ _) = _ => apply DecodeOp_calls
      | |- length (DecodeSystem _) = _ => apply DecodeSystem_calls
      | |- length (DecodeJumpAndLinkRegister _) = _ => apply DecodeJumpAndLinkRegister_calls
      | |- length (DecodeLoadFp _) = _ => apply DecodeLoadFp_calls
      | |- length (DecodeStoreFp _) = _ => apply DecodeStoreFp_calls
      | |- length (DecodeOpFp _) = _ => apply DecodeOpFp_calls
      | |- length (DecodeOpImm _ _ _ _ _ _) = _ => apply DecodeOpImm_calls
      | |- length (DecodeOpV _) = _ => exfalso; apply E; reflexivity
      | |- _ => reflexivity
      end.
Qed.

(** [Nop] announcements of [c.addi] apart, a compressed instruction is one call. *)
Lemma DecodeCompressed_calls code :
  exists c, (DecodeCompressedInstruction code).1 = [c] \/ (DecodeCompressedInstruction code).1 = [Nop; c].
Proof.
  assert (forall l c, l = [c] -> exists c, l = [c] \/ l = [Nop; c]) as H1 by eauto.
  unfold DecodeCompressedInstruction; cbn [fst].
  destruct (enum_of _) as [[] |]; try (eapply H1; reflexivity).
  all: unfold DecodeCompressedAddi4spn, DecodeCompressedLoadStore, DecodeCompressedAddi,
    DecodeCompressedLuiAddi16sp, DecodeCompressedMiscAlu, DecodeCompressedJr_Jalr_Mv_Add,
    DecodeCompressedLoadsp, DecodeCompressedStoresp.
  all: cbv zeta; repeat case_goal; cbn [app]; first [eapply H1; reflexivity | eauto].
Qed.

(** C38: decoding is total and deterministic: it fails exactly when the parcels
    end inside the instruction; the size returned is that of the first parcel's
    low two bits; and the consumer gets exactly one call, except a [Nop]
    announced before the call of some compressed additions, and no call at all
    for the reserved encodings of the vector configuration instructions. *)
Theorem Decode_total parcel rest :
  match Decode (parcel :: rest) with
  | None => GetInsnSize parcel = 4 /\ rest = []
  | Some (calls, size) =>
      size = GetInsnSize parcel
      /\ (size = 2 -> exists c, calls = [c] \/ calls = [Nop; c])
      /\ (size = 4 -> exists parcel1 tail, rest = parcel1 :: tail
          /\ length calls = if vset_gap (Z.lor parcel (Z.shiftl parcel1 16)) then 0%nat else 1%nat)
  end.
Proof.
  unfold Decode; assert (GetInsnSize parcel = 2 \/ GetInsnSize parcel = 4) as Hsz.
  { unfold GetInsnSize; destruct (negb _); auto. }
  destruct Hsz as [Hsz | Hsz]; rewrite Hsz; cbn [Z.eqb Pos.eqb].
  - pose proof (DecodeCompressed_calls parcel) as Hc; unfold DecodeCompressedInstruction in *.
    cbn [fst] in Hc; split_and!; [done | by intros _ | done].
  - destruct rest as [| q rest]; [done |].
    pose proof (DecodeBase_calls (Z.lor parcel (Z.shiftl q 16))) as Hc; unfold DecodeBaseInstruction in *.
    cbn [fst] in Hc; split_and!; [done | done |]; intros _; by exists q, rest.
Qed.
