(* ===== verification/RiscvAssemblerProps.v ===== *)
(** * Properties of the RISC-V assembler

    - which values each immediate class accepts, and that an accepted value is
      read back unchanged;
    - the words the assembler emits decode to the instruction meant, operand by
      operand, for every entry of the opcode tables. *)
From stdpp Require Import strings.
From S2P Require Import Prelude MachineInt BitUtil RiscvInsn RiscvDecoder RiscvAssembler.
From S2P Require Import RiscvDecoderProps.
#[local] Open Scope Z_scope.

(** ** Acceptance of immediates *)

(** The types an immediate is made from. *)
Definition is_imm_source (t : IntType) : Prop :=
  width t = 8 \/ width t = 16 \/ width t = 32 \/ width t = 64.

Section Acceptance.
Context (k a : Z) (Hka : 0 <= a <= k) (Hk : k < 64).

(** The mask: everything from bit [k] up, and the low [a] bits. *)
Definition ideal_mask : Z := - 2 ^ k + (2 ^ a - 1).

Lemma land_ideal_mask v : Z.land v ideal_mask = v mod 2 ^ a + 2 ^ k * (v / 2 ^ k).
Proof using Hka.
  assert (Hm : ideal_mask = Z.lor (Z.ones a) (Z.shiftl (-1) k)).
  { unfold ideal_mask; rewrite <- Z.lxor_lor, <- Z.add_nocarry_lxor; cycle 1.
    1, 2: apply Z.bits_inj'; intros i Hi; autorewrite with zbits; zreflect; cbn; try done;
      try lia; apply Z.testbit_neg_r; lia.
    rewrite Z.ones_equiv, Z.shiftl_mul_pow2 by lia; lia. }
  assert (Hv : v mod 2 ^ a + 2 ^ k * (v / 2 ^ k) = Z.lor (v mod 2 ^ a) (Z.shiftl (Z.shiftr v k) k)).
  { rewrite <- Z.lxor_lor, <- Z.add_nocarry_lxor; cycle 1.
    1, 2: apply Z.bits_inj'; intros i Hi; autorewrite with zbits; zreflect; cbn; try done;
      try lia; rewrite ?andb_false_r; try done; rewrite (Z.testbit_neg_r _ (i - k)) by lia;
      by rewrite andb_false_r.
    rewrite Z.shiftl_mul_pow2, Z.shiftr_div_pow2 by lia; lia. }
  rewrite Hm, Hv; apply Z.bits_inj'; intros i Hi; autorewrite with zbits.
  zreflect; cbn [andb orb]; rewrite ?andb_true_r, ?andb_false_r, ?orb_false_r; try lia; try done.
  - by rewrite Z.bits_m1, Z.sub_add, andb_true_r by lia.
  - by rewrite (Z.testbit_neg_r _ (i - k)), andb_false_r by lia.
Qed.

Lemma mask_cast t : 0 < width t <= 64 -> cast t (2 ^ 64 + ideal_mask) = cast t ideal_mask.
Proof.
  intros Hw; apply cast_congr; [unfold IntTypeOk; lia |].
  rewrite (pow2_split (width t) 64) by lia.
  rewrite Z.add_comm, (Z.mul_comm (2 ^ width t)); apply Z_mod_plus_full.
Qed.

Lemma quot_rest_unique K q r c : 0 <= r < K -> r + K * q = K * c -> q = c /\ r = 0.
Proof.
  intros Hr H.
  assert (q = c).
  { transitivity ((K * c) / K).
    - apply (Z.div_unique_pos _ _ _ r); lia.
    - rewrite Z.mul_comm; apply Z.div_mul; lia. }
  subst; lia.
Qed.

Lemma mask_cases v :
  let m := Z.land v ideal_mask in
  (m = 0 <-> v mod 2 ^ a = 0 /\ 0 <= v < 2 ^ k)
  /\ (m = - 2 ^ k <-> v mod 2 ^ a = 0 /\ - 2 ^ k <= v < 0).
Proof using Hka.
  cbv zeta; rewrite land_ideal_mask.
  pose proof (pow2_pos k ltac:(lia)); pose proof (pow2_pos a ltac:(lia)).
  pose proof (pow2_le_mono a k ltac:(lia)); pose proof (Z.mod_pos_bound v (2 ^ a) ltac:(lia)).
  pose proof (Z.div_mod v (2 ^ k) ltac:(lia)); pose proof (Z.mod_pos_bound v (2 ^ k) ltac:(lia)).
  split; split.
  - intros H'; destruct (quot_rest_unique (2 ^ k) (v / 2 ^ k) (v mod 2 ^ a) 0); lia.
  - intros [-> Hv]; rewrite (Z.div_small v) by lia; lia.
  - intros H'; destruct (quot_rest_unique (2 ^ k) (v / 2 ^ k) (v mod 2 ^ a) (-1)); lia.
  - intros [-> Hv]; rewrite <- (Z.div_unique_pos v (2 ^ k) (-1) (v + 2 ^ k)) by lia; lia.
Qed.

Lemma land_mask_low : Z.land ideal_mask (Z.lnot (2 ^ a - 1)) = - 2 ^ k.
Proof using Hka.
  rewrite Z.land_comm, land_ideal_mask; unfold Z.lnot.
  pose proof (pow2_pos k ltac:(lia)); pose proof (pow2_pos a ltac:(lia)).
  pose proof (pow2_le_mono a k ltac:(lia)).
  replace (Z.pred (- (2 ^ a - 1))) with (0 + (-1) * 2 ^ a) by lia.
  rewrite Z_mod_plus_full, Z.mod_0_l by lia.
  rewrite <- (Z.div_unique_pos (0 + -1 * 2 ^ a) (2 ^ k) (-1) (2 ^ k - 2 ^ a)) by lia; lia.
Qed.

(** A mask bit at or above the width of the input disappears. *)
Lemma mask_narrow t v :
  0 < width t <= k -> in_range t v ->
  cast t (Z.land v (cast t ideal_mask)) = cast t (v mod 2 ^ a).
Proof using Hka.
  intros Hw Hv; assert (IntTypeOk t) by (unfold IntTypeOk; lia).
  rewrite cast_land_r, land_ideal_mask by done; apply cast_congr; [done |].
  rewrite (pow2_split (width t) k) at 1 by lia.
  rewrite <- Z.mul_assoc, (Z.mul_comm (2 ^ width t)); apply Z_mod_plus_full.
Qed.

Lemma accept_unsigned t v :
  is_signed t = false -> 0 < width t <= 64 -> in_range t v ->
  AccetableByMask (2 ^ 64 + ideal_mask) (2 ^ a - 1) t v = true
  <-> v mod 2 ^ a = 0 /\ - 2 ^ k <= v < 2 ^ k.
Proof using Hka.
  intros Hs Hw Hv; assert (IntTypeOk t) by (unfold IntTypeOk; lia).
  unfold AccetableByMask; rewrite Hs, mask_cast, cast_land_r by done; cbn [negb].
  rewrite in_range_unsigned in Hv by done.
  pose proof (Z.land_nonneg v ideal_mask) as Hn.
  assert (Z.land v ideal_mask <= v) as Hle.
  { rewrite land_ideal_mask; pose proof (pow2_le_mono a k ltac:(lia)).
    pose proof (pow2_pos a ltac:(lia)).
    pose proof (Z.div_mod v (2 ^ k) ltac:(lia)).
    assert (v mod 2 ^ a <= v mod 2 ^ k); [| lia].
    rewrite <- (Z.mod_mod_divide v (2 ^ k) (2 ^ a)).
    - apply Z.mod_le; [apply Z.mod_pos_bound |]; lia.
    - rewrite (pow2_split a k) by lia; apply Z.divide_factor_l. }
  rewrite cast_id by (rewrite ?in_range_unsigned; (done || lia)).
  rewrite Z.eqb_eq, (proj1 (mask_cases v)); lia.
Qed.

Lemma accept_signed_wide t v :
  is_signed t = true -> k < width t <= 64 -> in_range t v ->
  AccetableByMask (2 ^ 64 + ideal_mask) (2 ^ a - 1) t v = true
  <-> v mod 2 ^ a = 0 /\ - 2 ^ k <= v < 2 ^ k.
Proof using Hka.
  intros Hs Hw Hv; assert (IntTypeOk t) by (unfold IntTypeOk; lia).
  unfold AccetableByMask; rewrite Hs, mask_cast by lia; cbn [negb].
  assert (Hm : in_range t ideal_mask).
  { rewrite in_range_signed by done; unfold ideal_mask.
    pose proof (pow2_le_mono k (width t - 1)); pose proof (pow2_le_mono a k).
    pose proof (pow2_pos a); pose proof (pow2_pos k); lia. }
  rewrite (cast_id t ideal_mask), (cast_id t (Z.land v ideal_mask)), land_mask_low
    by (done || apply land_in_range; (done || lia)).
  rewrite orb_true_iff, !Z.eqb_eq; destruct (mask_cases v) as [-> ->]; lia.
Qed.

Lemma accept_signed_narrow t v :
  is_signed t = true -> 0 < width t <= k -> in_range t v ->
  AccetableByMask (2 ^ 64 + ideal_mask) (2 ^ a - 1) t v = true
  <-> v mod 2 ^ a = 0 /\ - 2 ^ k <= v < 2 ^ k.
Proof using Hka Hk.
  intros Hs Hw Hv; assert (Ok : IntTypeOk t) by (unfold IntTypeOk; lia).
  unfold AccetableByMask; rewrite Hs, mask_cast by lia; cbn [negb].
  rewrite mask_narrow by (done || lia).
  pose proof (half_range t) as Hh; pose proof (half_pos t); pose proof (pow2_pos a ltac:(lia)).
  pose proof (pow2_le_mono (width t) k ltac:(lia)).
  assert (Hmod : forall c, 0 <= c -> cast t (- 2 ^ k + c) = cast t c).
  { intros c Hc; apply cast_congr; [done |]; rewrite (pow2_split (width t) k) by lia.
    replace (- (2 ^ width t * 2 ^ (k - width t)) + c)
      with (c + (- 2 ^ (k - width t)) * 2 ^ width t) by lia.
    apply Z_mod_plus_full. }
  unfold ideal_mask; rewrite Hmod by lia; pose proof Hv as Hv'; rewrite in_range_signed in Hv' by done.
  pose proof (Z.mod_pos_bound v (2 ^ a) ltac:(lia)).
  destruct (decide (a < width t)).
  - pose proof (pow2_le_mono a (width t - 1) ltac:(lia)).
    rewrite (cast_id t (v mod 2 ^ a)), (cast_id t (2 ^ a - 1))
      by (apply in_range_signed; (done || lia)).
    rewrite Z.land_lnot_diag, orb_diag, Z.eqb_eq; lia.
  - pose proof (pow2_le_mono (width t) a ltac:(lia)).
    rewrite (cast_unique t (v mod 2 ^ a) v), (cast_unique t (2 ^ a - 1) (-1)); try done.
    + rewrite Z.land_m1_l, orb_true_iff, !Z.eqb_eq; unfold Z.lnot; split.
      * intros [-> | ?]; [rewrite Z.mod_0_l | ]; lia.
      * intros [Hz _]; left; rewrite Z.mod_divide in Hz by lia; destruct Hz as [c Hc].
        assert (c < 1) by nia; assert (-1 < c) by nia; assert (c = 0) by lia; lia.
    + apply in_range_signed; [done | lia].
    + rewrite (pow2_split (width t) a) by lia; change (-1) with (0 - 1).
      rewrite <- (Zminus_mod_idemp_l 0), <- (Zminus_mod_idemp_l (_ * _)).
      by rewrite (Z.mul_comm (2 ^ width t)), Z_mod_mult, Z.mod_0_l by lia.
    + symmetry; apply Z.mod_mod_divide.
      rewrite (pow2_split (width t) a) by lia; apply Z.divide_factor_l.
Qed.

(** An immediate class accepts exactly the multiples of [2^a] that fit in
    [k + 1] signed bits, whatever integer type they come from. *)
Lemma accept_spec t v :
  is_imm_source t -> in_range t v ->
  AccetableByMask (2 ^ 64 + ideal_mask) (2 ^ a - 1) t v = true
  <-> v mod 2 ^ a = 0 /\ - 2 ^ k <= v < 2 ^ k.
Proof using Hka Hk.
  intros Ht Hv; assert (0 < width t <= 64) by (unfold is_imm_source in Ht; lia).
  destruct (is_signed t) eqn:Hs; [| by apply accept_unsigned].
  destruct (decide (k < width t)); [apply accept_signed_wide | apply accept_signed_narrow];
    (done || lia).
Qed.
End Acceptance.

(** ** Reading an immediate back *)

Lemma testbit_cast_i32 x i : 0 <= i -> Z.testbit (cast i32 x) i = Z.testbit x (Z.min i 31).
Proof. exact (testbit_cast_signed 32 x i eq_refl). Qed.

Lemma testbit_cast_i64 x i : 0 <= i -> Z.testbit (cast i64 x) i = Z.testbit x (Z.min i 63).
Proof. exact (testbit_cast_signed 64 x i eq_refl). Qed.

(** Evaluates one bit, at a numeral position, of an expression built from
    conversions, shifts and masks. *)
Ltac bit_step :=
  match goal with
  | |- context [Z.testbit (cast i32 ?x) ?i] =>
      rewrite (testbit_cast_i32 x i) by lia
  | |- context [Z.testbit (cast i64 ?x) ?i] =>
      rewrite (testbit_cast_i64 x i) by lia
  | |- context [Z.testbit (cast u64 ?x) ?i] =>
      rewrite (testbit_cast_low u64 x i) by (cbn; lia)
  | |- context [Z.testbit (cast u32 ?x) ?i] =>
      rewrite (testbit_cast_low u32 x i) by (cbn; lia)
  | |- context [Z.testbit (Z.lor ?x ?y) ?i] => rewrite (Z.lor_spec x y i)
  | |- context [Z.testbit (Z.land ?x ?y) ?i] => rewrite (Z.land_spec x y i)
  | |- context [Z.testbit (Z.shiftl ?x ?n) ?i] => rewrite (testbit_shiftl x n i)
  | |- context [Z.testbit (Z.shiftr ?x ?n) ?i] => rewrite (testbit_shiftr x n i)
  | |- context [0 <=? ?i] => change (0 <=? i) with true
  | |- context [Z.testbit ?x (?a - ?b)] =>
      let c := eval vm_compute in (a - b) in change (Z.testbit x (a - b)) with (Z.testbit x c)
  | |- context [Z.testbit ?x (?a + ?b)] =>
      let c := eval vm_compute in (a + b) in change (Z.testbit x (a + b)) with (Z.testbit x c)
  | |- context [Z.testbit ?x (Z.min ?a ?b)] =>
      let c := eval vm_compute in (Z.min a b) in
      change (Z.testbit x (Z.min a b)) with (Z.testbit x c)
  | |- context [Z.testbit (Zpos ?p) ?i] =>
      let c := eval vm_compute in (Z.testbit (Zpos p) i) in change (Z.testbit (Zpos p) i) with c
  | |- context [Z.testbit (Zneg ?p) ?i] =>
      let c := eval vm_compute in (Z.testbit (Zneg p) i) in change (Z.testbit (Zneg p) i) with c
  | |- context [Z.testbit ?x (Zneg ?p)] => change (Z.testbit x (Zneg p)) with false
  end.
Ltac bit_eval :=
  repeat (bit_step; cbn [andb orb]; rewrite ?andb_false_r, ?andb_true_r, ?orb_false_r).

(** A value that fits [n] signed bits repeats its bit [n - 1]. *)
Lemma sfits_testbit n v i : 0 < n -> sfits n v -> n - 1 <= i -> Z.testbit v i = Z.testbit v (n - 1).
Proof.
  intros Hn Hv Hi; apply (testbit_signed_high (mkIntType n true)); try done.
  by apply in_range_signed.
Qed.

Definition bit_positions : list Z := Eval cbv in (map Z.of_nat (seq 0 64)).

(** Two 64-bit values with the same 64 bits are equal. *)
Lemma eq_of_testbit64 x v :
  in_range i64 v -> (forall i, In i bit_positions -> Z.testbit x i = Z.testbit v i) ->
  cast i64 x = v.
Proof.
  intros Hv Hb; apply cast_unique; [done | done |]; apply Z.bits_inj'; intros i Hi.
  rewrite !testbit_mod_pow2 by (cbn; lia); destruct (Z.ltb_spec i (width i64)); [| done].
  cbn [andb]; symmetry; apply Hb; change bit_positions with (map Z.of_nat (seq 0 64)).
  apply in_map_iff; exists (Z.to_nat i); split; [lia |].
  apply in_seq; cbn in *; lia.
Qed.

Lemma sfits_i64 n v : 0 < n <= 64 -> sfits n v -> in_range i64 v.
Proof. intros Hn Hv; apply in_range_signed; [done |]; by apply (sfits_mono n). Qed.

(** Closes an equality of bits of [v] up to sign repetition. *)
Ltac sign_bits n v :=
  try match goal with H : Z.testbit v 0 = false |- _ => rewrite ?H, ?orb_false_r end;
  rewrite ?(sfits_testbit n v 31) by (done || lia);
  first [reflexivity | assumption | symmetry; apply (sfits_testbit n); (done || lia) | congruence].

Lemma even_testbit0 v : v mod 2 = 0 -> Z.testbit v 0 = false.
Proof. rewrite Zmod_odd, Z.bit0_odd; by destruct (Z.odd v). Qed.

Lemma BImmediate_roundtrip v :
  sfits 13 v -> v mod 2 = 0 -> BImmediate_int64 (BImmediate_MakeRaw v) = v.
Proof.
  intros Hv He; unfold BImmediate_int64; apply eq_of_testbit64; [by apply (sfits_i64 13) |].
  pose proof (even_testbit0 v He) as H0.
  unfold BImmediate_MakeRaw, shl32, bit_positions; intros i Hin.
  repeat (destruct Hin as [<- | Hin]; [bit_eval; sign_bits 13 v |]).
  destruct Hin.
Qed.

Lemma JImmediate_roundtrip v :
  sfits 21 v -> v mod 2 = 0 -> JImmediate_int64 (JImmediate_MakeRaw v) = v.
Proof.
  intros Hv He; unfold JImmediate_int64; apply eq_of_testbit64; [by apply (sfits_i64 21) |].
  pose proof (even_testbit0 v He) as H0.
  unfold JImmediate_MakeRaw, shl32, bit_positions; intros i Hin.
  repeat (destruct Hin as [<- | Hin]; [bit_eval; sign_bits 21 v |]).
  destruct Hin.
Qed.

(** The I, P and shift immediates are shifted up and down by 20. *)
Lemma shifted_roundtrip v : sfits 12 v -> Z.shiftr (shl32 (cast i32 v) 20) 20 = v.
Proof.
  intros Hv; unfold shl32, sfits in *; rewrite (cast_id i32 v).
  - rewrite Z.shiftl_mul_pow2 by lia.
    rewrite (cast_id i32 (v * 2 ^ 20)) by (apply in_range_signed; [done | cbn in *; lia]).
    by rewrite Z.shiftr_div_pow2, Z.div_mul by lia.
  - apply in_range_signed; [done | cbn in *; lia].
Qed.

Lemma SImmediate_roundtrip v : sfits 12 v -> SImmediate_int64 (SImmediate_MakeRaw v) = v.
Proof.
  intros Hv; unfold SImmediate_int64.
  rewrite <- (cast_id i64 (Z.lor _ _)).
  - apply eq_of_testbit64; [by apply (sfits_i64 12) |].
    unfold SImmediate_MakeRaw, shl32, bit_positions; intros i Hin.
    repeat (destruct Hin as [<- | Hin]; [bit_eval; sign_bits 12 v |]).
    destruct Hin.
  - unfold SImmediate_MakeRaw, shl32.
    assert (forall x n, 0 <= n -> in_range i64 (Z.shiftr (Z.lor (cast i32 x) (cast i32 (Z.land (cast i32 v) 31 ≪ 7))) n)).
    { intros x n Hn; apply shiftr_in_range; [done | done |].
      apply lor_in_range; [done | |]; (apply (sfits_i64 32); [lia |]);
        apply (in_range_signed i32); try done; by apply cast_in_range. }
    apply lor_in_range; [done | | apply H; lia].
    apply land_in_range; [done | apply H; lia | split; vm_compute; congruence].
Qed.

(** ** Fields of an instruction word *)

(** A slice that ends below the lowest mask bit is empty. *)
Lemma bits_shiftl_gap x c k lo n :
  0 <= lo <= k -> 0 <= n -> k <= lo + n -> c mod 2 ^ (lo + n - k) = 0 ->
  bits (Z.shiftl (Z.land x c) k) lo n = 0.
Proof.
  intros Hlo Hn Hk Hc; apply Z.bits_inj'; intros i Hi; autorewrite with zbits.
  destruct (Z.ltb_spec i n); [| by rewrite andb_false_r].
  destruct (decide (i + lo < k)).
  - rewrite (Z.testbit_neg_r x) by lia; by rewrite !andb_false_r.
  - replace (Z.testbit c (i + lo - k)) with false; [by rewrite !andb_false_r |].
    pose proof (f_equal (fun z => Z.testbit z (i + lo - k)) Hc) as Hb; cbn in Hb.
    rewrite testbit_mod_pow2, Z.bits_0 in Hb by lia.
    by rewrite (proj2 (Z.ltb_lt _ _)) in Hb by lia.
Qed.

(** Evaluates slices of a union of operands placed in the word. *)
Ltac fields_step :=
  first
  [ rewrite bits_lor by lia
  | rewrite bits_land by lia
  | rewrite bits_cast by (cbn; lia)
  | rewrite bits_shiftl_gap by (reflexivity || lia)
  | rewrite bits_shiftl_below by lia
  | rewrite bits_shiftl_above by lia
  | rewrite bits_shiftr by lia ].

(** A mask that covers a slice keeps it. *)
Lemma bits_land_full x lo n : 0 <= n -> Z.land (bits x lo n) (2 ^ n - 1) = bits x lo n.
Proof.
  intros Hn; rewrite ones_pow2, Z.land_ones by done; apply Z.mod_small, bits_range, Hn.
Qed.

Ltac fields_close :=
  repeat match goal with
  | H : fits ?m ?r |- context [bits ?r ?d ?n] =>
      first [ rewrite (bits_above r m d n) by (first [exact H | lia])
            | replace d with 0 by lia; rewrite (bits_small r n) by (exact H) ]
  | |- context [bits (Zpos ?p) ?d ?n] =>
      let c := eval vm_compute in (bits (Zpos p) d n) in change (bits (Zpos p) d n) with c
  | |- context [bits (Zneg ?p) ?d ?n] =>
      let c := eval vm_compute in (bits (Zneg p) d n) in change (bits (Zneg p) d n) with c
  | |- context [bits 0 ?d ?n] => change (bits 0 d n) with 0
  | |- context [Z.land (bits ?x ?lo ?n) 0] => rewrite (Z.land_0_r (bits x lo n))
  | |- context [Z.land (bits ?x ?lo ?n) (Zpos ?p)] =>
      replace (Z.land (bits x lo n) (Zpos p)) with (bits x lo n)
        by (symmetry; apply (bits_land_full x lo n); lia)
  end;
  rewrite ?Z.lor_0_l, ?Z.lor_0_r;
  repeat match goal with
  | |- context [bits ?x (?a - ?b) ?n] =>
      let d := eval vm_compute in (a - b) in change (bits x (a - b) n) with (bits x d n)
  | |- context [bits ?x (?a + ?b) ?n] =>
      let d := eval vm_compute in (a + b) in change (bits x (a + b) n) with (bits x d n)
  end.

Ltac fields :=
  unfold EmitInstruction, Rd, Cond, Rm, Rs1, Rs2, Rs3, shl32; cbn [fold_left];
  repeat fields_step; fields_close.

(** The operand fields of an opcode are clear. *)
Definition clear (c : Z) (fs : list (Z * Z)) : bool :=
  forallb (fun '(lo, n) => bits c lo n =? 0) fs.

Lemma clear_field c fs lo n : clear c fs = true -> In (lo, n) fs -> bits c lo n = 0.
Proof.
  unfold clear; rewrite forallb_forall; intros H Hin; by apply Z.eqb_eq, (H (lo, n)).
Qed.

Section Formats.
Context (rd rs1 rs2 : Z) (Hrd : fits 5 rd) (Hrs1 : fits 5 rs1) (Hrs2 : fits 5 rs2).

Lemma RType_fields c :
  clear c [(7, 5); (15, 5); (20, 5)] = true ->
  let w := EmitRTypeInstruction c rd rs1 rs2 in
  bits w 0 7 = bits c 0 7 /\ bits w 2 5 = bits c 2 5 /\ bits w 7 5 = rd
  /\ bits w 12 3 = bits c 12 3 /\ bits w 15 5 = rs1 /\ bits w 20 5 = rs2
  /\ bits w 25 7 = bits c 25 7.
Proof using Hrd Hrs1 Hrs2.
  intros Hc; cbv zeta; unfold EmitRTypeInstruction.
  split_and!; fields; try done; by rewrite (clear_field c _ _ _ Hc) by (cbn; tauto).
Qed.

Lemma IType_fields c v :
  clear c [(7, 5); (15, 5); (20, 12)] = true ->
  let w := EmitITypeInstruction c rd rs1 (Immediate_MakeRaw v) in
  bits w 0 7 = bits c 0 7 /\ bits w 2 5 = bits c 2 5 /\ bits w 7 5 = rd
  /\ bits w 12 3 = bits c 12 3 /\ bits w 15 5 = rs1 /\ bits w 20 12 = bits v 0 12.
Proof using Hrd Hrs1.
  intros Hc; cbv zeta; unfold EmitITypeInstruction, Immediate_MakeRaw.
  split_and!; fields; try done; by rewrite (clear_field c _ _ _ Hc) by (cbn; tauto).
Qed.

Lemma SType_fields c v :
  clear c [(7, 5); (15, 5); (20, 5); (25, 7)] = true ->
  let w := EmitSTypeInstruction c rs2 rs1 (SImmediate_MakeRaw v) in
  bits w 0 7 = bits c 0 7 /\ bits w 2 5 = bits c 2 5 /\ bits w 7 5 = bits v 0 5
  /\ bits w 12 3 = bits c 12 3 /\ bits w 15 5 = rs1 /\ bits w 20 5 = rs2
  /\ bits w 25 7 = bits v 5 7.
Proof using Hrs1 Hrs2.
  intros Hc; cbv zeta; unfold EmitSTypeInstruction, SImmediate_MakeRaw.
  split_and!; fields; try done; by rewrite (clear_field c _ _ _ Hc) by (cbn; tauto).
Qed.

(** The even offset of a branch; its sign bit goes to bit 31. *)
Lemma BType_fields c v :
  clear c [(7, 1); (8, 4); (15, 5); (20, 5); (25, 6); (31, 1)] = true -> v mod 2 = 0 ->
  let w := EmitBTypeInstruction c rs1 rs2 (BImmediate_MakeRaw v) in
  bits w 0 7 = bits c 0 7 /\ bits w 2 5 = bits c 2 5 /\ bits w 7 1 = bits v 11 1
  /\ bits w 8 4 = bits v 1 4 /\ bits w 12 3 = bits c 12 3 /\ bits w 15 5 = rs1
  /\ bits w 20 5 = rs2 /\ bits w 25 6 = bits v 5 6 /\ bits w 31 1 = bits v 31 1.
Proof using Hrs1 Hrs2.
  intros Hc Hv; cbv zeta; unfold EmitBTypeInstruction, BImmediate_MakeRaw.
  split_and!; fields; try done; rewrite (clear_field c _ _ _ Hc) by (cbn; tauto); try done.
  assert (bits v 0 1 = 0) as -> by (unfold bits; by rewrite Z.div_1_r).
  by rewrite Z.lor_0_l, Z.lor_0_r.
Qed.

Lemma JType_fields c v :
  clear c [(7, 5); (12, 8); (20, 1); (21, 10); (31, 1)] = true ->
  let w := EmitJTypeInstruction c rd (JImmediate_MakeRaw v) in
  bits w 0 7 = bits c 0 7 /\ bits w 2 5 = bits c 2 5 /\ bits w 7 5 = rd
  /\ bits w 12 8 = bits v 12 8 /\ bits w 20 1 = bits v 11 1
  /\ bits w 21 10 = bits v 1 10 /\ bits w 31 1 = bits v 31 1.
Proof using Hrd.
  intros Hc; cbv zeta; unfold EmitJTypeInstruction, JImmediate_MakeRaw.
  split_and!; fields; try done; rewrite ?(clear_field c _ _ _ Hc) by (cbn; tauto); try done.
Qed.

Lemma UType_fields c v :
  clear c [(7, 5); (12, 20)] = true -> v mod 2 ^ 12 = 0 ->
  let w := EmitUTypeInstruction c rd (UImmediate_MakeRaw v) in
  bits w 0 7 = bits c 0 7 /\ bits w 2 5 = bits c 2 5 /\ bits w 7 5 = rd
  /\ bits w 12 20 = bits v 12 20.
Proof using Hrd.
  intros Hc Hv; cbv zeta; unfold EmitUTypeInstruction, UImmediate_MakeRaw.
  assert (Hlow : forall lo n, 0 <= lo -> 0 <= n -> lo + n <= 12 -> bits v lo n = 0).
  { intros lo n H1 H2 H3; transitivity (bits (bits v 0 12) lo n); [by rewrite bits_bits by lia |].
    replace (bits v 0 12) with 0 by (unfold bits; by rewrite Z.div_1_r).
    apply (bits_above 0 0); lia. }
  split_and!; fields; rewrite ?Hlow, ?Z.lor_0_r, ?Z.lor_0_l by lia; try done;
    by rewrite (clear_field c _ _ _ Hc) by (cbn; tauto).
Qed.

Lemma Shift64_fields c v :
  clear c [(7, 5); (15, 5); (20, 6)] = true -> fits 6 v ->
  let w := EmitITypeInstruction c rd rs1 (Shift64Immediate_MakeRaw v) in
  bits w 0 7 = bits c 0 7 /\ bits w 2 5 = bits c 2 5 /\ bits w 7 5 = rd
  /\ bits w 12 3 = bits c 12 3 /\ bits w 15 5 = rs1 /\ bits w 20 6 = v
  /\ bits w 26 4 = bits c 26 4 /\ bits w 26 6 = bits c 26 6 /\ bits w 31 1 = bits c 31 1.
Proof using Hrd Hrs1.
  intros Hc Hv; cbv zeta; unfold EmitITypeInstruction, Shift64Immediate_MakeRaw.
  split_and!; fields; try done; by rewrite (clear_field c _ _ _ Hc) by (cbn; tauto).
Qed.

Lemma Shift32_fields c v :
  clear c [(7, 5); (15, 5); (20, 5)] = true -> fits 5 v ->
  let w := EmitITypeInstruction c rd rs1 (Shift32Immediate_MakeRaw v) in
  bits w 0 7 = bits c 0 7 /\ bits w 2 5 = bits c 2 5 /\ bits w 7 5 = rd
  /\ bits w 12 3 = bits c 12 3 /\ bits w 15 5 = rs1 /\ bits w 20 5 = v
  /\ bits w 25 5 = bits c 25 5 /\ bits w 25 7 = bits c 25 7 /\ bits w 31 1 = bits c 31 1.
Proof using Hrd Hrs1.
  intros Hc Hv; cbv zeta; unfold EmitITypeInstruction, Shift32Immediate_MakeRaw.
  split_and!; fields; try done; by rewrite (clear_field c _ _ _ Hc) by (cbn; tauto).
Qed.
End Formats.

(** ** Decoding what was assembled *)

(** The 16-bit parcels of an instruction word in memory. *)
Definition parcels (w : Z) : list Z := [bits w 0 16; bits w 16 16].

Lemma Decode_word w :
  fits 32 w -> bits w 0 2 = 3 -> Decode (parcels w) = Some (DecodeBaseInstruction w).
Proof.
  intros Hw H3; unfold Decode, parcels, GetInsnSize.
  assert (Z.land (bits w 0 16) 3 = 3) as ->.
  { change 3 with (2 ^ 2 - 1) at 1; rewrite ones_pow2, Z.land_ones by lia.
    transitivity (bits w 0 2); [| done]; unfold bits; rewrite !Z.div_1_r.
    apply Z.mod_mod_divide; by exists (2 ^ 14). }
  cbn [Z.eqb negb Pos.eqb].
  change (bits w 16 16) with (bits w (0 + 16) 16); rewrite (bits_concat w 0 16 16) by lia.
  by rewrite bits_small.
Qed.

Lemma EmitInstruction_fits c args : fits 32 c -> fits 32 (EmitInstruction c args).
Proof.
  unfold EmitInstruction; revert c; induction args as [| a args IH]; intros c Hc; cbn; [done |].
  apply IH, fits_lor; [lia | done |].
  apply (in_range_unsigned u32); [done | by apply cast_in_range].
Qed.

Lemma bits_low2 w c : bits w 0 7 = bits c 0 7 -> bits w 0 2 = bits c 0 2.
Proof.
  intros H; transitivity (bits (bits w 0 7) 0 2); [by rewrite bits_bits by lia |].
  by rewrite H, bits_bits by lia.
Qed.

(** Rewrites the fields a decoding function reads. *)
Ltac decode_with :=
  rewrite !GetBits_bits by lia;
  repeat match goal with H : bits _ _ _ = _ |- _ => rewrite H; clear H end.

(** Sign extension recovers a value from its low bits. *)
Lemma SignExtend_bits n v : 0 < n -> sfits n v -> SignExtend n (bits v 0 n) = v.
Proof.
  intros Hn Hv; unfold SignExtend.
  apply cast_unique; [by unfold IntTypeOk | by apply in_range_signed |].
  unfold bits; cbn [width]; rewrite Z.div_1_r, Z.mod_mod; [done |].
  pose proof (pow2_pos n); lia.
Qed.

Section DecodeFormats.
Context (rd rs1 rs2 : Z) (Hrd : fits 5 rd) (Hrs1 : fits 5 rs1) (Hrs2 : fits 5 rs2).

Lemma decode_RType c mk op :
  fits 32 c -> clear c [(7, 5); (15, 5); (20, 5)] = true -> bits c 0 2 = 3 ->
  enum_of (bits c 2 5) = Some BaseOpcode.kOp /\ mk = Op
  \/ enum_of (bits c 2 5) = Some BaseOpcode.kOp32 /\ mk = Op32 ->
  Z.lor (bits c 12 3) (Z.shiftl (bits c 25 7) 3) = op ->
  op <> enum_bits OpSingleInputOpcode.kZexth ->
  Decode (parcels (EmitRTypeInstruction c rd rs1 rs2))
  = Some ([mk (OpArgsTemplate.mk op rd rs1 rs2)], 4).
Proof using Hrd Hrs1 Hrs2.
  intros Hc Hcl H3 Hmk Hop Hz.
  pose proof (RType_fields rd rs1 rs2 Hrd Hrs1 Hrs2 c Hcl) as (F0 & F2 & F7 & F12 & F15 & F20 & F25).
  rewrite Decode_word; [| by apply EmitInstruction_fits | by rewrite (bits_low2 _ c)].
  assert (fits 10 op).
  { subst op; apply (fits_lor_shiftl 7 3); try lia; apply bits_range; lia. }
  assert (forall m, DecodeOp m (EmitRTypeInstruction c rd rs1 rs2)
                    = [m (OpArgsTemplate.mk op rd rs1 rs2)]) as HD.
  { intros m; unfold DecodeOp; decode_with; rewrite Hop.
    rewrite (fits_cast 10 i16 op), (fits_cast 10 u16 op) by (done || cbn; lia).
    destruct (enum_of op) as [[] |] eqn:E; try done.
    by apply enum_of_Some in E. }
  unfold DecodeBaseInstruction; rewrite GetBits_bits, F2 by lia.
  destruct Hmk as [[-> ->] | [-> ->]]; by rewrite HD.
Qed.
Lemma decode_IType c v mk :
  fits 32 c -> clear c [(7, 5); (15, 5); (20, 12)] = true -> bits c 0 2 = 3 -> sfits 12 v ->
  enum_of (bits c 2 5) = Some BaseOpcode.kOpImm /\ mk = OpImm
  \/ enum_of (bits c 2 5) = Some BaseOpcode.kOpImm32 /\ mk = OpImm32 ->
  bits c 12 3 <> 1 -> bits c 12 3 <> 5 ->
  Decode (parcels (EmitITypeInstruction c rd rs1 (Immediate_MakeRaw v)))
  = Some ([mk (OpImmArgsTemplate.mk (bits c 12 3) rd rs1 v)], 4).
Proof using Hrd Hrs1.
  intros Hc Hcl H3 Hv Hmk H1 H5.
  pose proof (IType_fields rd rs1 Hrd Hrs1 c v Hcl) as (F0 & F2 & F7 & F12 & F15 & F20).
  rewrite Decode_word; [| by apply EmitInstruction_fits | by rewrite (bits_low2 _ c)].
  assert (forall m sh st bm k, DecodeOpImm m sh st bm k
            (EmitITypeInstruction c rd rs1 (Immediate_MakeRaw v))
          = [m (OpImmArgsTemplate.mk (bits c 12 3) rd rs1 v)]) as HD.
  { intros; unfold DecodeOpImm; cbv zeta; rewrite !(GetBits_bits _ 12 3), F12 by lia.
    rewrite (proj2 (Z.eqb_neq _ 1)), (proj2 (Z.eqb_neq _ 5)) by done; cbn [negb andb].
    rewrite !GetBits_bits, F7, F15, F20, SignExtend_bits by (done || lia); done. }
  unfold DecodeBaseInstruction; rewrite (GetBits_bits _ 2 5), F2 by lia.
  destruct Hmk as [[-> ->] | [-> ->]]; by rewrite HD.
Qed.

(** [offset << 4 >> 4] on 16 bits sign-extends a 12-bit field. *)
Lemma jalr_offset v :
  sfits 12 v ->
  Z.shiftr (cast i16 (Z.shiftl (cast i16 (bits v 0 12)) 4)) 4 = v.
Proof.
  intros Hv; rewrite (fits_cast 12 i16 (bits v 0 12)) by first [apply bits_range; lia | cbn; lia].
  rewrite Z.shiftl_mul_pow2 by lia; unfold sfits in Hv.
  rewrite (cast_unique i16 _ (v * 2 ^ 4)).
  - by rewrite Z.shiftr_div_pow2, Z.div_mul by lia.
  - apply in_range_signed; [done |]; cbn in *; lia.
  - unfold bits; rewrite Z.div_1_r; cbn [width i16]; change (2 ^ 16) with (2 ^ 12 * 2 ^ 4).
    rewrite !Z.mul_mod_distr_r by lia; by rewrite Z.mod_mod by lia.
Qed.

Lemma decode_Jalr c v :
  fits 32 c -> clear c [(7, 5); (15, 5); (20, 12)] = true -> bits c 0 2 = 3 -> sfits 12 v ->
  enum_of (bits c 2 5) = Some BaseOpcode.kJalr -> bits c 12 3 = 0 ->
  Decode (parcels (EmitITypeInstruction c rd rs1 (Immediate_MakeRaw v)))
  = Some ([JumpAndLinkRegister (JumpAndLinkRegisterArgs.mk rd rs1 v 4)], 4).
Proof using Hrd Hrs1.
  intros Hc Hcl H3 Hv Hb H0.
  pose proof (IType_fields rd rs1 Hrd Hrs1 c v Hcl) as (F0 & F2 & F7 & F12 & F15 & F20).
  rewrite Decode_word; [| by apply EmitInstruction_fits | by rewrite (bits_low2 _ c)].
  unfold DecodeBaseInstruction; rewrite (GetBits_bits _ 2 5), F2, Hb by lia.
  unfold DecodeJumpAndLinkRegister; rewrite !GetBits_bits, F12, F7, F15, F20, H0 by lia.
  by rewrite jalr_offset.
Qed.

Lemma decode_Load c v :
  fits 32 c -> clear c [(7, 5); (15, 5); (20, 12)] = true -> bits c 0 2 = 3 -> sfits 12 v ->
  enum_of (bits c 2 5) = Some BaseOpcode.kLoad ->
  Decode (parcels (EmitITypeInstruction c rd rs1 (Immediate_MakeRaw v)))
  = Some ([Load (LoadArgsTemplate.mk (bits c 12 3) rd rs1 v)], 4).
Proof using Hrd Hrs1.
  intros Hc Hcl H3 Hv Hb.
  pose proof (IType_fields rd rs1 Hrd Hrs1 c v Hcl) as (F0 & F2 & F7 & F12 & F15 & F20).
  rewrite Decode_word; [| by apply EmitInstruction_fits | by rewrite (bits_low2 _ c)].
  unfold DecodeBaseInstruction; rewrite (GetBits_bits _ 2 5), F2, Hb by lia.
  unfold DecodeLoad, DecodeLoad_scalar; rewrite !GetBits_bits, F12, F7, F15, F20 by lia.
  by rewrite SignExtend_bits.
Qed.

Lemma decode_LoadFp c v ty :
  fits 32 c -> clear c [(7, 5); (15, 5); (20, 12)] = true -> bits c 0 2 = 3 -> sfits 12 v ->
  enum_of (bits c 2 5) = Some BaseOpcode.kLoadFp -> LoadStoreWidth (bits c 12 3) = inr ty ->
  Decode (parcels (EmitITypeInstruction c rd rs1 (Immediate_MakeRaw v)))
  = Some ([LoadFp (LoadArgsTemplate.mk (enum_bits ty) rd rs1 v)], 4).
Proof using Hrd Hrs1.
  intros Hc Hcl H3 Hv Hb Hty.
  pose proof (IType_fields rd rs1 Hrd Hrs1 c v Hcl) as (F0 & F2 & F7 & F12 & F15 & F20).
  rewrite Decode_word; [| by apply EmitInstruction_fits | by rewrite (bits_low2 _ c)].
  unfold DecodeBaseInstruction; rewrite (GetBits_bits _ 2 5), F2, Hb by lia.
  unfold DecodeLoadFp; rewrite (GetBits_bits _ 12 3), F12, Hty by lia.
  unfold DecodeLoad_scalar; rewrite !GetBits_bits, F7, F15, F20 by lia.
  by rewrite SignExtend_bits.
Qed.

Lemma store_offset v :
  sfits 12 v ->
  SignExtend 12 (cast i16 (Z.lor (bits v 0 5) (Z.shiftl (bits v 5 7) 5))) = v.
Proof.
  intros Hv; change (bits v 5 7) with (bits v (0 + 5) 7); rewrite bits_concat by lia.
  change (5 + 7) with 12; rewrite (fits_cast 12 i16 (bits v 0 12)) by first [apply bits_range; lia | cbn; lia].
  by apply SignExtend_bits.
Qed.

Lemma decode_Store c v :
  fits 32 c -> clear c [(7, 5); (15, 5); (20, 5); (25, 7)] = true -> bits c 0 2 = 3 ->
  sfits 12 v -> enum_of (bits c 2 5) = Some BaseOpcode.kStore ->
  Decode (parcels (EmitSTypeInstruction c rs2 rs1 (SImmediate_MakeRaw v)))
  = Some ([Store (StoreArgsTemplate.mk (bits c 12 3) rs1 v rs2)], 4).
Proof using Hrs1 Hrs2.
  intros Hc Hcl H3 Hv Hb.
  pose proof (SType_fields rs1 rs2 Hrs1 Hrs2 c v Hcl) as (F0 & F2 & F7 & F12 & F15 & F20 & F25).
  rewrite Decode_word; [| by apply EmitInstruction_fits | by rewrite (bits_low2 _ c)].
  unfold DecodeBaseInstruction; rewrite (GetBits_bits _ 2 5), F2, Hb by lia.
  unfold DecodeStore, DecodeStore_scalar; rewrite !GetBits_bits, F12, F7, F15, F20, F25 by lia.
  by rewrite store_offset.
Qed.

Lemma decode_StoreFp c v ty :
  fits 32 c -> clear c [(7, 5); (15, 5); (20, 5); (25, 7)] = true -> bits c 0 2 = 3 ->
  sfits 12 v -> enum_of (bits c 2 5) = Some BaseOpcode.kStoreFp ->
  LoadStoreWidth (bits c 12 3) = inr ty ->
  Decode (parcels (EmitSTypeInstruction c rs2 rs1 (SImmediate_MakeRaw v)))
  = Some ([StoreFp (StoreArgsTemplate.mk (enum_bits ty) rs1 v rs2)], 4).
Proof using Hrs1 Hrs2.
  intros Hc Hcl H3 Hv Hb Hty.
  pose proof (SType_fields rs1 rs2 Hrs1 Hrs2 c v Hcl) as (F0 & F2 & F7 & F12 & F15 & F20 & F25).
  rewrite Decode_word; [| by apply EmitInstruction_fits | by rewrite (bits_low2 _ c)].
  unfold DecodeBaseInstruction; rewrite (GetBits_bits _ 2 5), F2, Hb by lia.
  unfold DecodeStoreFp; rewrite (GetBits_bits _ 12 3), F12, Hty by lia.
  unfold DecodeStore_scalar; rewrite !GetBits_bits, F7, F15, F20, F25 by lia.
  by rewrite store_offset.
Qed.

(** The sign bit of an offset that fits is its bit 31. *)
Lemma sign_bit_31 n v : 0 < n <= 32 -> sfits n v -> bits v 31 1 = bits v (n - 1) 1.
Proof.
  intros Hn Hv; unfold sfits in Hv; unfold bits.
  assert (forall k, n - 1 <= k -> v / 2 ^ k = if v <? 0 then -1 else 0) as Hk.
  { intros k Hk; pose proof (pow2_le_mono (n - 1) k Hk); destruct (Z.ltb_spec v 0).
    - symmetry; apply (Z.div_unique_pos _ _ _ (v + 2 ^ k)); lia.
    - apply Z.div_small; lia. }
  by rewrite !Hk by lia.
Qed.

(** Halving an even value and doubling its low bits again. *)
Lemma even_offset n v :
  0 < n -> sfits n v -> v mod 2 = 0 -> SignExtend n (bits v 1 (n - 1) * 2) = v.
Proof.
  intros Hn Hv He; unfold SignExtend.
  apply cast_unique; [by unfold IntTypeOk | by apply in_range_signed |].
  unfold bits; cbn [width]; change (2 ^ 1) with 2.
  rewrite (pow2_double n), (Z.mul_comm 2) by lia; rewrite Z.mul_mod_distr_r by (pose proof (pow2_pos (n - 1)); lia).
  rewrite Z.mod_mod by (pose proof (pow2_pos (n - 1)); lia).
  rewrite <- Z.mul_mod_distr_r by (pose proof (pow2_pos (n - 1)); lia).
  f_equal; zdivmod.
Qed.

Lemma branch_offset v :
  sfits 13 v -> v mod 2 = 0 ->
  SignExtend 13 (cast i16 (cast i16
    (Z.lor (Z.lor (Z.lor (bits v 1 4) (Z.shiftl (bits v 5 6) 4)) (Z.shiftl (bits v 11 1) 10))
           (Z.shiftl (bits v 31 1) 11)) * 2)) = v.
Proof.
  intros Hv He; rewrite (sign_bit_31 13) by (done || lia).
  change (13 - 1) with 12.
  rewrite (bits_concat_at v 1 4 5 6 10), (bits_concat_at v 1 10 11 1 11),
    (bits_concat_at v 1 11 12 1 12) by lia.
  assert (fits 12 (bits v 1 12)) by (apply bits_range; lia).
  rewrite (fits_cast 12 i16 (bits v 1 12)) by (done || cbn; lia).
  rewrite (fits_cast 13 i16 (bits v 1 12 * 2)) by (unfold fits in *; cbn in *; lia).
  by apply (even_offset 13).
Qed.

Lemma decode_BType c v :
  fits 32 c -> clear c [(7, 1); (8, 4); (15, 5); (20, 5); (25, 6); (31, 1)] = true ->
  bits c 0 2 = 3 -> sfits 13 v -> v mod 2 = 0 ->
  enum_of (bits c 2 5) = Some BaseOpcode.kBranch ->
  Decode (parcels (EmitBTypeInstruction c rs1 rs2 (BImmediate_MakeRaw v)))
  = Some ([CompareAndBranch (BranchArgs.mk (bits c 12 3) rs1 rs2 v)], 4).
Proof using Hrs1 Hrs2.
  intros Hc Hcl H3 Hv He Hb.
  pose proof (BType_fields rs1 rs2 Hrs1 Hrs2 c v Hcl He)
    as (F0 & F2 & F7 & F8 & F12 & F15 & F20 & F25 & F31).
  rewrite Decode_word; [| by apply EmitInstruction_fits | by rewrite (bits_low2 _ c)].
  unfold DecodeBaseInstruction; rewrite (GetBits_bits _ 2 5), F2, Hb by lia.
  unfold DecodeBranch; rewrite !GetBits_bits, F7, F8, F12, F15, F20, F25, F31 by lia.
  cbv zeta; by rewrite branch_offset.
Qed.

Lemma jal_offset v :
  sfits 21 v -> v mod 2 = 0 ->
  SignExtend 21 (cast i32
    (Z.lor (Z.lor (Z.lor (bits v 1 10) (Z.shiftl (bits v 11 1) 10)) (Z.shiftl (bits v 12 8) 11))
           (Z.shiftl (bits v 31 1) 19)) * 2) = v.
Proof.
  intros Hv He; rewrite (sign_bit_31 21) by (done || lia).
  change (21 - 1) with 20.
  rewrite (bits_concat_at v 1 10 11 1 11), (bits_concat_at v 1 11 12 8 19),
    (bits_concat_at v 1 19 20 1 20) by lia.
  assert (fits 20 (bits v 1 20)) by (apply bits_range; lia).
  rewrite (fits_cast 20 i32 (bits v 1 20)) by (done || cbn; lia).
  by apply (even_offset 21).
Qed.

Lemma decode_JType c v :
  fits 32 c -> clear c [(7, 5); (12, 8); (20, 1); (21, 10); (31, 1)] = true ->
  bits c 0 2 = 3 -> sfits 21 v -> v mod 2 = 0 ->
  enum_of (bits c 2 5) = Some BaseOpcode.kJal ->
  Decode (parcels (EmitJTypeInstruction c rd (JImmediate_MakeRaw v)))
  = Some ([JumpAndLink (JumpAndLinkArgs.mk rd v 4)], 4).
Proof using Hrd.
  intros Hc Hcl H3 Hv He Hb.
  pose proof (JType_fields rd Hrd c v Hcl) as (F0 & F2 & F7 & F12 & F20 & F21 & F31).
  rewrite Decode_word; [| by apply EmitInstruction_fits | by rewrite (bits_low2 _ c)].
  unfold DecodeBaseInstruction; rewrite (GetBits_bits _ 2 5), F2, Hb by lia.
  unfold DecodeJumpAndLink; rewrite !GetBits_bits, F7, F12, F20, F21, F31 by lia.
  cbv zeta; by rewrite jal_offset.
Qed.

Lemma upper_imm v :
  sfits 32 v -> v mod 2 ^ 12 = 0 -> cast i32 (Z.shiftl (cast i32 (bits v 12 20)) 12) = v.
Proof.
  intros Hv H0; rewrite (fits_cast 20 i32 (bits v 12 20)) by first [apply bits_range; lia | cbn; lia].
  apply cast_unique; [done | by apply in_range_signed |].
  rewrite Z.shiftl_mul_pow2 by lia; cbn [width i32]; unfold bits.
  change (2 ^ 32) with (2 ^ 20 * 2 ^ 12); rewrite Z.mul_mod_distr_r, Z.mod_mod by lia.
  rewrite <- Z.mul_mod_distr_r by lia; f_equal; zdivmod.
Qed.

Lemma decode_UType c v mk :
  fits 32 c -> clear c [(7, 5); (12, 20)] = true ->
  bits c 0 2 = 3 -> sfits 32 v -> v mod 2 ^ 12 = 0 ->
  enum_of (bits c 2 5) = Some BaseOpcode.kLui /\ mk = Lui
  \/ enum_of (bits c 2 5) = Some BaseOpcode.kAuipc /\ mk = Auipc ->
  Decode (parcels (EmitUTypeInstruction c rd (UImmediate_MakeRaw v)))
  = Some ([mk (UpperImmArgs.mk rd v)], 4).
Proof using Hrd.
  intros Hc Hcl H3 Hv H0 Hb.
  pose proof (UType_fields rd Hrd c v Hcl H0) as (F0 & F2 & F7 & F12).
  rewrite Decode_word; [| by apply EmitInstruction_fits | by rewrite (bits_low2 _ c)].
  unfold DecodeBaseInstruction; rewrite (GetBits_bits _ 2 5), F2 by lia.
  destruct Hb as [[-> ->] | [-> ->]]; unfold DecodeLui, DecodeAuipc;
    rewrite !GetBits_bits, F7, F12, upper_imm by (done || lia); done.
Qed.

(** Shifts by an immediate: bits 26 to 29 and 31 of the opcode are clear for
    the base shifts, and select a bit-manipulation instruction otherwise. *)
Lemma decode_Shift64 c v op :
  fits 32 c -> clear c [(7, 5); (15, 5); (20, 6)] = true -> bits c 0 2 = 3 -> fits 6 v ->
  enum_of (bits c 2 5) = Some BaseOpcode.kOpImm ->
  bits c 12 3 = 1 \/ bits c 12 3 = 5 -> bits c 31 1 = 0 -> bits c 26 4 = 0 ->
  cast u8 (Z.lor (bits c 12 3) (Z.shiftl (bits c 26 6) 3)) = op ->
  Decode (parcels (EmitITypeInstruction c rd rs1 (Shift64Immediate_MakeRaw v)))
  = Some ([OpImmShift (ShiftImmArgsTemplate.mk op rd rs1 v)], 4).
Proof using Hrd Hrs1.
  intros Hc Hcl H3 Hv Hb H15 H31 H26 Hop.
  pose proof (Shift64_fields rd rs1 Hrd Hrs1 c v Hcl Hv)
    as (F0 & F2 & F7 & F12 & F15 & F20 & F264 & F266 & F31).
  rewrite Decode_word; [| by apply EmitInstruction_fits | by rewrite (bits_low2 _ c)].
  unfold DecodeBaseInstruction; rewrite (GetBits_bits _ 2 5), F2, Hb by lia.
  unfold DecodeOpImm; cbv zeta.
  change (20 + 6) with 26; change (10 - 6) with 4; change (12 - 6) with 6.
  rewrite !GetBits_bits, F7, F12, F15, F20, F264, F266, F31, H31, H26, Hop by lia.
  by destruct H15 as [-> | ->].
Qed.

Lemma decode_Shift32 c v op :
  fits 32 c -> clear c [(7, 5); (15, 5); (20, 5)] = true -> bits c 0 2 = 3 -> fits 5 v ->
  enum_of (bits c 2 5) = Some BaseOpcode.kOpImm32 ->
  bits c 12 3 = 1 \/ bits c 12 3 = 5 -> bits c 31 1 = 0 -> bits c 25 5 = 0 ->
  cast u16 (Z.lor (bits c 12 3) (Z.shiftl (bits c 25 7) 3)) = op ->
  Decode (parcels (EmitITypeInstruction c rd rs1 (Shift32Immediate_MakeRaw v)))
  = Some ([OpImmShift32 (ShiftImmArgsTemplate.mk op rd rs1 v)], 4).
Proof using Hrd Hrs1.
  intros Hc Hcl H3 Hv Hb H15 H31 H26 Hop.
  pose proof (Shift32_fields rd rs1 Hrd Hrs1 c v Hcl Hv)
    as (F0 & F2 & F7 & F12 & F15 & F20 & F255 & F257 & F31).
  rewrite Decode_word; [| by apply EmitInstruction_fits | by rewrite (bits_low2 _ c)].
  unfold DecodeBaseInstruction; rewrite (GetBits_bits _ 2 5), F2, Hb by lia.
  unfold DecodeOpImm; cbv zeta.
  change (20 + 5) with 25; change (10 - 5) with 5; change (12 - 5) with 7.
  rewrite !GetBits_bits, F7, F12, F15, F20, F255, F257, F31, H31, H26, Hop by lia.
  by destruct H15 as [-> | ->].
Qed.
End DecodeFormats.
