(* ===== verification/RiscvRoundTrip.v ===== *)
(** * The assembler and the decoder agree

    For every entry of the opcode tables with register and immediate operands,
    the word the assembler emits decodes to the instruction of that name with
    the operands given; the immediates are exactly the values the assembler
    accepts. *)
From stdpp Require Import strings.
From S2P Require Import Prelude MachineInt BitUtil RiscvInsn RiscvDecoder RiscvAssembler.
From S2P Require Import RiscvDecoderProps RiscvAssemblerProps.
#[local] Open Scope Z_scope.

(** Goes through two parallel tables entry by entry; the side conditions are
    facts about the numeric opcode. *)
Ltac table_side :=
  first [ assumption | reflexivity | split; vm_compute; congruence
        | left; split; reflexivity | right; split; reflexivity
        | left; reflexivity | right; reflexivity
        | vm_compute; reflexivity | vm_compute; congruence ].
Ltac agree tac :=
  repeat (apply List.Forall2_cons; [split; [reflexivity |]; intros; tac |]); apply List.Forall2_nil.

(** Decodes by the lemma of a format, then compares the calls. *)
Ltac by_format tac := etransitivity; [tac; table_side | reflexivity].

Definition RType_meaning : list (string * (OpArgsTemplate.t -> InsnCall) * Z) :=
  [("add", Op, enum_bits OpOpcode.kAdd); ("and", Op, enum_bits OpOpcode.kAnd);
   ("div", Op, enum_bits OpOpcode.kDiv); ("divu", Op, enum_bits OpOpcode.kDivu);
   ("mul", Op, enum_bits OpOpcode.kMul); ("mulh", Op, enum_bits OpOpcode.kMulh);
   ("mulhsu", Op, enum_bits OpOpcode.kMulhsu); ("mulhu", Op, enum_bits OpOpcode.kMulhu);
   ("or", Op, enum_bits OpOpcode.kOr); ("rem", Op, enum_bits OpOpcode.kRem);
   ("remu", Op, enum_bits OpOpcode.kRemu); ("ror", Op, enum_bits OpOpcode.kRor);
   ("sh3add", Op, enum_bits OpOpcode.kSh3add); ("sll", Op, enum_bits OpOpcode.kSll);
   ("slt", Op, enum_bits OpOpcode.kSlt); ("sltu", Op, enum_bits OpOpcode.kSltu);
   ("sra", Op, enum_bits OpOpcode.kSra); ("sraw", Op32, enum_bits Op32Opcode.kSraw);
   ("srl", Op, enum_bits OpOpcode.kSrl); ("srlw", Op32, enum_bits Op32Opcode.kSrlw);
   ("sub", Op, enum_bits OpOpcode.kSub); ("xor", Op, enum_bits OpOpcode.kXor);
   ("AddUW", Op32, enum_bits Op32Opcode.kAdduw); ("addw", Op32, enum_bits Op32Opcode.kAddw);
   ("divuw", Op32, enum_bits Op32Opcode.kDivuw); ("divw", Op32, enum_bits Op32Opcode.kDivw);
   ("mulw", Op32, enum_bits Op32Opcode.kMulw); ("remuw", Op32, enum_bits Op32Opcode.kRemuw);
   ("remw", Op32, enum_bits Op32Opcode.kRemw); ("rorw", Op32, enum_bits Op32Opcode.kRorw);
   ("sllw", Op32, enum_bits Op32Opcode.kSllw); ("subw", Op32, enum_bits Op32Opcode.kSubw)].

Lemma RType_agrees :
  Forall2 (fun '(name, c) '(name', mk, op) => name = name'
    /\ forall rd rs1 rs2, fits 5 rd -> fits 5 rs1 -> fits 5 rs2 ->
       Decode (parcels (EmitRTypeInstruction c rd rs1 rs2))
       = Some ([mk (OpArgsTemplate.mk op rd rs1 rs2)], 4))
    RType_insns RType_meaning.
Proof.
  unfold RType_insns, RType_meaning; agree ltac:(apply decode_RType; table_side).
Qed.

(** What each mnemonic with an immediate operand means, as a function of its
    three operands. *)
Definition op_imm (o : OpImmOpcode.t) (rd rs1 v : Z) : InsnCall :=
  OpImm (OpImmArgsTemplate.mk (enum_bits o) rd rs1 v).
Definition op_shift (o : ShiftImmOpcode.t) (rd rs1 v : Z) : InsnCall :=
  OpImmShift (ShiftImmArgsTemplate.mk (enum_bits o) rd rs1 v).
Definition op_bitmanip (o : BitmanipImmOpcode.t) (rd rs1 v : Z) : InsnCall :=
  OpImmBitmanip (BitmanipImmArgsTemplate.mk (enum_bits o) rd rs1 v).
Definition op_shift32 (o : ShiftImm32Opcode.t) (rd rs1 v : Z) : InsnCall :=
  OpImmShift32 (ShiftImmArgsTemplate.mk (enum_bits o) rd rs1 v).
Definition op_bitmanip32 (o : BitmanipImm32Opcode.t) (rd rs1 v : Z) : InsnCall :=
  OpImmBitmanip32 (BitmanipImmArgsTemplate.mk (enum_bits o) rd rs1 v).
Definition jump_reg (rd rs1 v : Z) : InsnCall :=
  JumpAndLinkRegister (JumpAndLinkRegisterArgs.mk rd rs1 v 4).
Definition load (o : LoadOperandType.t) (rd rs1 v : Z) : InsnCall :=
  Load (LoadArgsTemplate.mk (enum_bits o) rd rs1 v).
Definition load_fp (o : FloatOperandType.t) (rd rs1 v : Z) : InsnCall :=
  LoadFp (LoadArgsTemplate.mk (enum_bits o) rd rs1 v).
Definition store (o : MemoryDataOperandType.t) (rs2 rs1 v : Z) : InsnCall :=
  Store (StoreArgsTemplate.mk (enum_bits o) rs1 v rs2).
Definition store_fp (o : FloatOperandType.t) (rs2 rs1 v : Z) : InsnCall :=
  StoreFp (StoreArgsTemplate.mk (enum_bits o) rs1 v rs2).
Definition branch (o : BranchOpcode.t) (rs1 rs2 v : Z) : InsnCall :=
  CompareAndBranch (BranchArgs.mk (enum_bits o) rs1 rs2 v).

Definition meaning_table := list (string * (Z -> Z -> Z -> InsnCall)).

Definition IType_meaning : meaning_table :=
  [("addi", op_imm OpImmOpcode.kAddi); ("andi", op_imm OpImmOpcode.kAndi); ("jalr", jump_reg);
   ("ori", op_imm OpImmOpcode.kOri); ("slti", op_imm OpImmOpcode.kSlti);
   ("sltiu", op_imm OpImmOpcode.kSltiu); ("xori", op_imm OpImmOpcode.kXori);
   ("addiw", fun rd rs1 v =>
      OpImm32 (OpImmArgsTemplate.mk (enum_bits OpImm32Opcode.kAddiw) rd rs1 v))].
Definition Load_meaning : meaning_table :=
  [("jalr", jump_reg); ("lb", load LoadOperandType.k8bitSigned);
   ("lbu", load LoadOperandType.k8bitUnsigned); ("lh", load LoadOperandType.k16bitSigned);
   ("lhu", load LoadOperandType.k16bitUnsigned); ("lw", load LoadOperandType.k32bitSigned);
   ("ld", load LoadOperandType.k64bit); ("lwu", load LoadOperandType.k32bitUnsigned)].
Definition LoadFp_meaning : meaning_table :=
  [("fld", load_fp FloatOperandType.kDouble); ("flw", load_fp FloatOperandType.kFloat)].
Definition Store_meaning : meaning_table :=
  [("sb", store MemoryDataOperandType.k8bit); ("sh", store MemoryDataOperandType.k16bit);
   ("sw", store MemoryDataOperandType.k32bit); ("sd", store MemoryDataOperandType.k64bit)].
Definition StoreFp_meaning : meaning_table :=
  [("fsd", store_fp FloatOperandType.kDouble); ("fsw", store_fp FloatOperandType.kFloat)].
Definition BType_meaning : meaning_table :=
  [("beq", branch BranchOpcode.kBeq); ("bge", branch BranchOpcode.kBge);
   ("bgeu", branch BranchOpcode.kBgeu); ("blt", branch BranchOpcode.kBlt);
   ("bltu", branch BranchOpcode.kBltu); ("bne", branch BranchOpcode.kBne)].
Definition Shift64_meaning : meaning_table :=
  [("bexti", op_bitmanip BitmanipImmOpcode.kBexti); ("rori", op_bitmanip BitmanipImmOpcode.kRori);
   ("slli", op_shift ShiftImmOpcode.kSlli); ("srai", op_shift ShiftImmOpcode.kSrai);
   ("srli", op_shift ShiftImmOpcode.kSrli)].
Definition Shift32_meaning : meaning_table :=
  [("roriw", op_bitmanip32 BitmanipImm32Opcode.kRoriw);
   ("slliw", op_shift32 ShiftImm32Opcode.kSlliw); ("sraiw", op_shift32 ShiftImm32Opcode.kSraiw);
   ("srliw", op_shift32 ShiftImm32Opcode.kSrliw)].

(** [insns] are assembled by [emit] from two registers and a value that
    satisfies [ok], and decode to the call [meaning] gives. *)
Definition table_agrees (emit : Z -> Z -> Z -> Z -> Z) (ok : Z -> Prop)
    (insns : list (string * Z)) (meaning : meaning_table) : Prop :=
  Forall2 (fun '(name, c) '(name', call) => name = name'
    /\ forall r1 r2 v, fits 5 r1 -> fits 5 r2 -> ok v ->
       Decode (parcels (emit c r1 r2 v)) = Some ([call r1 r2 v], 4)) insns meaning.

Lemma decode_Bitmanip64 rd rs1 c v op :
  fits 5 rd -> fits 5 rs1 ->
  fits 32 c -> clear c [(7, 5); (15, 5); (20, 6)] = true -> bits c 0 2 = 3 -> fits 6 v ->
  enum_of (bits c 2 5) = Some BaseOpcode.kOpImm ->
  bits c 12 3 = 1 \/ bits c 12 3 = 5 -> (bits c 31 1 + bits c 26 4 =? 0) = false ->
  cast u16 (Z.lor (bits c 12 3) (Z.shiftl (bits c 26 6) 3)) = op -> Bitmanip_has_shamt op = true ->
  Decode (parcels (EmitITypeInstruction c rd rs1 (Shift64Immediate_MakeRaw v)))
  = Some ([OpImmBitmanip (BitmanipImmArgsTemplate.mk op rd rs1 v)], 4).
Proof.
  intros Hrd Hrs1 Hc Hcl H3 Hv Hb H15 Hsel Hop Hsh.
  pose proof (Shift64_fields rd rs1 Hrd Hrs1 c v Hcl Hv)
    as (F0 & F2 & F7 & F12 & F15 & F20 & F264 & F266 & F31).
  rewrite Decode_word; [| by apply EmitInstruction_fits | by rewrite (bits_low2 _ c)].
  unfold DecodeBaseInstruction; rewrite (GetBits_bits _ 2 5), F2, Hb by lia.
  unfold DecodeOpImm; cbv zeta.
  change (20 + 6) with 26; change (10 - 6) with 4; change (12 - 6) with 6.
  rewrite !GetBits_bits, F7, F12, F15, F20, F264, F266, F31, Hsel, Hop, Hsh by lia.
  by destruct H15 as [-> | ->].
Qed.

Lemma decode_Bitmanip32 rd rs1 c v op :
  fits 5 rd -> fits 5 rs1 ->
  fits 32 c -> clear c [(7, 5); (15, 5); (20, 5)] = true -> bits c 0 2 = 3 -> fits 5 v ->
  enum_of (bits c 2 5) = Some BaseOpcode.kOpImm32 ->
  bits c 12 3 = 1 \/ bits c 12 3 = 5 -> (bits c 31 1 + bits c 25 5 =? 0) = false ->
  cast u16 (Z.lor (bits c 12 3) (Z.shiftl (bits c 25 7) 3)) = op -> Bitmanip_has_shamt op = true ->
  Decode (parcels (EmitITypeInstruction c rd rs1 (Shift32Immediate_MakeRaw v)))
  = Some ([OpImmBitmanip32 (BitmanipImmArgsTemplate.mk op rd rs1 v)], 4).
Proof.
  intros Hrd Hrs1 Hc Hcl H3 Hv Hb H15 Hsel Hop Hsh.
  pose proof (Shift32_fields rd rs1 Hrd Hrs1 c v Hcl Hv)
    as (F0 & F2 & F7 & F12 & F15 & F20 & F255 & F257 & F31).
  rewrite Decode_word; [| by apply EmitInstruction_fits | by rewrite (bits_low2 _ c)].
  unfold DecodeBaseInstruction; rewrite (GetBits_bits _ 2 5), F2, Hb by lia.
  unfold DecodeOpImm; cbv zeta.
  change (20 + 5) with 25; change (10 - 5) with 5; change (12 - 5) with 7.
  rewrite !GetBits_bits, F7, F12, F15, F20, F255, F257, F31, Hsel, Hop, Hsh by lia.
  by destruct H15 as [-> | ->].
Qed.

Lemma IType_agrees :
  table_agrees (fun c rd rs1 v => EmitITypeInstruction c rd rs1 (Immediate_MakeRaw v))
    (sfits 12) IType_insns IType_meaning.
Proof.
  unfold table_agrees, IType_insns, IType_meaning, op_imm, jump_reg.
  agree ltac:(first [by_format ltac:(apply decode_Jalr)
                    | by_format ltac:(apply decode_IType with (mk := OpImm))
                    | by_format ltac:(apply decode_IType with (mk := OpImm32))]).
Qed.

Lemma Load_agrees :
  table_agrees (fun c rd rs1 v => EmitITypeInstruction c rd rs1 (Immediate_MakeRaw v))
    (sfits 12) Load_insns Load_meaning.
Proof.
  unfold table_agrees, Load_insns, Load_meaning, load, jump_reg.
  agree ltac:(first [by_format ltac:(apply decode_Jalr) | by_format ltac:(apply decode_Load)]).
Qed.

Lemma LoadFp_agrees :
  table_agrees (fun c rd rs1 v => EmitITypeInstruction c rd rs1 (Immediate_MakeRaw v))
    (sfits 12) LoadFp_insns LoadFp_meaning.
Proof.
  unfold table_agrees, LoadFp_insns, LoadFp_meaning, load_fp.
  agree ltac:(first [by_format ltac:(apply decode_LoadFp with (ty := FloatOperandType.kDouble))
                    | by_format ltac:(apply decode_LoadFp with (ty := FloatOperandType.kFloat))]).
Qed.

Lemma Store_agrees :
  table_agrees (fun c rs2 rs1 v => EmitSTypeInstruction c rs2 rs1 (SImmediate_MakeRaw v))
    (sfits 12) Store_insns Store_meaning.
Proof.
  unfold table_agrees, Store_insns, Store_meaning, store.
  agree ltac:(by_format ltac:(apply decode_Store)).
Qed.

Lemma StoreFp_agrees :
  table_agrees (fun c rs2 rs1 v => EmitSTypeInstruction c rs2 rs1 (SImmediate_MakeRaw v))
    (sfits 12) StoreFp_insns StoreFp_meaning.
Proof.
  unfold table_agrees, StoreFp_insns, StoreFp_meaning, store_fp.
  agree ltac:(first [by_format ltac:(apply decode_StoreFp with (ty := FloatOperandType.kDouble))
                    | by_format ltac:(apply decode_StoreFp with (ty := FloatOperandType.kFloat))]).
Qed.

Lemma BType_agrees :
  table_agrees (fun c rs1 rs2 v => EmitBTypeInstruction c rs1 rs2 (BImmediate_MakeRaw v))
    (fun v => sfits 13 v /\ v mod 2 = 0) BType_insns BType_meaning.
Proof.
  unfold table_agrees, BType_insns, BType_meaning, branch.
  agree ltac:(match goal with H : _ /\ _ |- _ => destruct H end;
              by_format ltac:(apply decode_BType)).
Qed.

Lemma Shift64_agrees :
  table_agrees (fun c rd rs1 v => EmitITypeInstruction c rd rs1 (Shift64Immediate_MakeRaw v))
    (fits 6) Shift64_insns Shift64_meaning.
Proof.
  unfold table_agrees, Shift64_insns, Shift64_meaning, op_shift, op_bitmanip.
  agree ltac:(first [by_format ltac:(eapply decode_Shift64) | by_format ltac:(eapply decode_Bitmanip64)]).
Qed.

Lemma Shift32_agrees :
  table_agrees (fun c rd rs1 v => EmitITypeInstruction c rd rs1 (Shift32Immediate_MakeRaw v))
    (fits 5) Shift32_insns Shift32_meaning.
Proof.
  unfold table_agrees, Shift32_insns, Shift32_meaning, op_shift32, op_bitmanip32.
  agree ltac:(first [by_format ltac:(eapply decode_Shift32) | by_format ltac:(eapply decode_Bitmanip32)]).
Qed.

Definition UType_meaning : list (string * (UpperImmArgs.t -> InsnCall)) :=
  [("auipc", Auipc); ("lui", Lui)].

Lemma UType_agrees :
  Forall2 (fun '(name, c) '(name', mk) => name = name'
    /\ forall rd v, fits 5 rd -> sfits 32 v -> v mod 2 ^ 12 = 0 ->
       Decode (parcels (EmitUTypeInstruction c rd (UImmediate_MakeRaw v)))
       = Some ([mk (UpperImmArgs.mk rd v)], 4))
    UType_insns UType_meaning.
Proof. unfold UType_insns, UType_meaning; agree ltac:(apply decode_UType; table_side). Qed.

(** ** Single operands, conversions, control registers and prefetches *)

Lemma decode_RType2 rd rs1 c op :
  fits 5 rd -> fits 5 rs1 ->
  fits 32 c -> clear c [(7, 5); (15, 5)] = true -> bits c 0 2 = 3 -> enum_of (bits c 2 5) = Some BaseOpcode.kOpImm ->
  bits c 12 3 = 1 \/ bits c 12 3 = 5 -> (bits c 31 1 + bits c 26 4 =? 0) = false ->
  Bitmanip_has_shamt (cast u16 (Z.lor (bits c 12 3) (Z.shiftl (bits c 26 6) 3))) = false ->
  cast u16 (Z.lor (bits c 12 3) (Z.shiftl (bits c 20 12) 3)) = op ->
  Decode (parcels (EmitRType2Instruction c rd rs1)) = Some ([OpImmBitmanip (BitmanipImmArgsTemplate.mk op rd rs1 0)], 4).
Proof.
  intros Hrd Hrs1 Hc Hcl H3 Hb H15 Hsel Hsh Hop; set (w := EmitRType2Instruction c rd rs1).
  assert (bits w 0 7 = bits c 0 7 /\ bits w 2 5 = bits c 2 5 /\ bits w 7 5 = rd /\ bits w 12 3 = bits c 12 3
    /\ bits w 15 5 = rs1 /\ bits w 20 6 = bits c 20 6 /\ bits w 20 12 = bits c 20 12 /\ bits w 26 4 = bits c 26 4
    /\ bits w 26 6 = bits c 26 6 /\ bits w 31 1 = bits c 31 1)
    as (F0 & F2 & F7 & F12 & F15 & F206 & F20 & F264 & F266 & F31).
  { unfold w, EmitRType2Instruction; split_and!; fields; try done; by rewrite (clear_field c _ _ _ Hcl) by (cbn; tauto). }
  rewrite Decode_word; [| by apply EmitInstruction_fits | by rewrite (bits_low2 _ c)].
  unfold DecodeBaseInstruction; rewrite (GetBits_bits _ 2 5), F2, Hb by lia.
  unfold DecodeOpImm; cbv zeta.
  change (20 + 6) with 26; change (10 - 6) with 4; change (12 - 6) with 6.
  rewrite !GetBits_bits, F7, F12, F15, F20, F264, F266, F31, Hsel, Hsh, Hop by lia.
  by destruct H15 as [-> | ->].
Qed.

Lemma decode_RTypeRm rd rs1 rm c call :
  fits 5 rd -> fits 5 rs1 -> fits 3 rm ->
  fits 32 c -> clear c [(7, 5); (12, 3); (15, 5)] = true -> bits c 0 2 = 3 -> enum_of (bits c 2 5) = Some BaseOpcode.kOpFp ->
  (forall w, bits w 7 5 = rd -> bits w 12 3 = rm -> bits w 15 5 = rs1 -> bits w 20 5 = bits c 20 5 ->
     bits w 25 2 = bits c 25 2 -> bits w 27 2 = bits c 27 2 -> bits w 29 3 = bits c 29 3 -> DecodeOpFp w = [call]) ->
  Decode (parcels (EmitRTypeRmInstruction c rd rs1 rm)) = Some ([call], 4).
Proof.
  intros Hrd Hrs1 Hrm Hc Hcl H3 Hb Hcall; set (w := EmitRTypeRmInstruction c rd rs1 rm).
  assert (bits w 0 7 = bits c 0 7 /\ bits w 2 5 = bits c 2 5 /\ bits w 7 5 = rd /\ bits w 12 3 = rm /\ bits w 15 5 = rs1
    /\ bits w 20 5 = bits c 20 5 /\ bits w 25 2 = bits c 25 2 /\ bits w 27 2 = bits c 27 2 /\ bits w 29 3 = bits c 29 3)
    as (F0 & F2 & F7 & F12 & F15 & F20 & F25 & F27 & F29).
  { unfold w, EmitRTypeRmInstruction; split_and!; fields; try done; by rewrite (clear_field c _ _ _ Hcl) by (cbn; tauto). }
  rewrite Decode_word; [| by apply EmitInstruction_fits | by rewrite (bits_low2 _ c)].
  unfold DecodeBaseInstruction; rewrite (GetBits_bits _ 2 5), F2, Hb by lia; by rewrite Hcall.
Qed.

Lemma decode_Csr rd rs1 csr c op :
  fits 5 rd -> fits 5 rs1 -> fits 12 csr ->
  fits 32 c -> clear c [(7, 5); (15, 5); (20, 12)] = true -> bits c 0 2 = 3 -> enum_of (bits c 2 5) = Some BaseOpcode.kSystem ->
  bits c 12 2 = op -> op <> 0 -> bits c 14 1 = 0 ->
  Decode (parcels (EmitITypeCsrInstruction c rd csr rs1)) = Some ([Csr (CsrArgs.mk op rd rs1 csr)], 4).
Proof.
  intros Hrd Hrs1 Hcsr Hc Hcl H3 Hb Hop H0 H14; set (w := EmitITypeCsrInstruction c rd csr rs1).
  assert (bits w 0 7 = bits c 0 7 /\ bits w 2 5 = bits c 2 5 /\ bits w 7 5 = rd /\ bits w 12 2 = bits c 12 2
    /\ bits w 14 1 = bits c 14 1 /\ bits w 15 5 = rs1 /\ bits w 20 12 = csr) as (F0 & F2 & F7 & F12 & F14 & F15 & F20).
  { unfold w, EmitITypeCsrInstruction; split_and!; fields; try done; by rewrite (clear_field c _ _ _ Hcl) by (cbn; tauto). }
  rewrite Decode_word; [| by apply EmitInstruction_fits | by rewrite (bits_low2 _ c)].
  unfold DecodeBaseInstruction; rewrite (GetBits_bits _ 2 5), F2, Hb by lia.
  unfold DecodeSystem, GetBit; rewrite !GetBits_bits, F7, F12, F14, F15, F20, Hop, H14 by lia.
  by rewrite (proj2 (Z.eqb_neq op 0)).
Qed.

Lemma decode_CsrImm rd v csr c op :
  fits 5 rd -> fits 5 v -> fits 12 csr ->
  fits 32 c -> clear c [(7, 5); (15, 5); (20, 12)] = true -> bits c 0 2 = 3 -> enum_of (bits c 2 5) = Some BaseOpcode.kSystem ->
  bits c 12 2 = op -> op <> 0 -> bits c 14 1 = 1 ->
  Decode (parcels (EmitITypeCsrImmInstruction c rd csr (CsrImmediate_MakeRaw v))) = Some ([CsrImm (CsrImmArgs.mk op rd v csr)], 4).
Proof.
  intros Hrd Hv Hcsr Hc Hcl H3 Hb Hop H0 H14; set (w := EmitITypeCsrImmInstruction c rd csr (CsrImmediate_MakeRaw v)).
  assert (bits w 0 7 = bits c 0 7 /\ bits w 2 5 = bits c 2 5 /\ bits w 7 5 = rd /\ bits w 12 2 = bits c 12 2
    /\ bits w 14 1 = bits c 14 1 /\ bits w 15 5 = v /\ bits w 20 12 = csr) as (F0 & F2 & F7 & F12 & F14 & F15 & F20).
  { unfold w, EmitITypeCsrImmInstruction, CsrImmediate_MakeRaw; split_and!; fields; try done;
      by rewrite (clear_field c _ _ _ Hcl) by (cbn; tauto). }
  rewrite Decode_word; [| by apply EmitInstruction_fits | by rewrite (bits_low2 _ c)].
  unfold DecodeBaseInstruction; rewrite (GetBits_bits _ 2 5), F2, Hb by lia.
  unfold DecodeSystem, GetBit; rewrite !GetBits_bits, F7, F12, F14, F15, F20, Hop, H14 by lia.
  by rewrite (proj2 (Z.eqb_neq op 0)).
Qed.

(** A prefetch is an [ori] to register 0 whose immediate has the kind of
    prefetch in its low five bits. *)
Lemma decode_PType base v c :
  fits 5 base -> sfits 12 v -> v mod 2 ^ 5 = 0 ->
  fits 32 c -> clear c [(7, 5); (15, 5); (25, 7)] = true -> bits c 0 2 = 3 -> enum_of (bits c 2 5) = Some BaseOpcode.kOpImm ->
  bits c 12 3 = enum_bits OpImmOpcode.kOri ->
  Decode (parcels (EmitPTypeInstruction c base (PImmediate_MakeRaw v)))
  = Some ([OpImm (OpImmArgsTemplate.mk (enum_bits OpImmOpcode.kOri) 0 base (v + bits c 20 5))], 4).
Proof.
  intros Hb Hv Hv0 Hc Hcl H3 He Hop; set (w := EmitPTypeInstruction c base (PImmediate_MakeRaw v)).
  assert (bits w 0 7 = bits c 0 7 /\ bits w 2 5 = bits c 2 5 /\ bits w 7 5 = bits c 7 5 /\ bits w 12 3 = bits c 12 3
    /\ bits w 15 5 = base /\ bits w 20 12 = Z.lor (bits c 20 12) (bits v 0 12)) as (F0 & F2 & F7 & F12 & F15 & F20).
  { unfold w, EmitPTypeInstruction, PImmediate_MakeRaw; split_and!; fields; try done;
      by rewrite (clear_field c _ _ _ Hcl) by (cbn; tauto). }
  rewrite Decode_word; [| by apply EmitInstruction_fits | by rewrite (bits_low2 _ c)].
  unfold DecodeBaseInstruction; rewrite (GetBits_bits _ 2 5), F2, He by lia.
  unfold DecodeOpImm; cbv zeta; rewrite !GetBits_bits, F7, F12, F15, F20, Hop by lia.
  rewrite (clear_field c _ 7 5 Hcl) by (cbn; tauto); cbn [enum_bits OpImmOpcode.enum OpImmOpcode.to_bits Z.eqb Pos.eqb negb andb].
  assert (bits c 20 12 = bits c 20 5) as E.
  { change 12 with (5 + 7) at 1; rewrite <- bits_concat by lia; change (20 + 5) with 25.
    by rewrite (clear_field c _ 25 7 Hcl), Z.shiftl_0_l, Z.lor_0_r by (cbn; tauto). }
  rewrite E; pose proof (bits_range c 20 5 ltac:(lia)) as Hr; generalize dependent (bits c 20 5); intros k _ Hr.
  replace (SignExtend 12 (Z.lor k (bits v 0 12))) with (v + k); [done |].
  assert (sfits 12 (v + k)) as Hs by (unfold sfits in *; cbn in *; zdivmod).
  rewrite <- (SignExtend_bits 12 (v + k)) at 1 by (done || lia); f_equal.
  change 12 with (5 + 7) at 1; rewrite <- (bits_concat (v + k) 0 5 7) by lia; f_equal; rewrite ?Z.shiftl_mul_pow2 by lia; unfold bits; cbn in *; zdivmod.
Qed.

(** What the mnemonics of these tables mean. *)
Definition RType2_meaning : list (string * (Z -> Z -> InsnCall)) :=
  [("sext.b", fun rd rs1 => op_bitmanip BitmanipImmOpcode.kSextb rd rs1 0);
   ("sext.h", fun rd rs1 => op_bitmanip BitmanipImmOpcode.kSexth rd rs1 0)].

Definition fcvt_ff (d s : FloatOperandType.t) (rd rs1 rm : Z) : InsnCall :=
  FcvtFloatToFloat (FcvtFloatToFloatArgs.mk (enum_bits d) (enum_bits s) rd rs1 rm).
Definition fcvt_if (d : FloatOperandType.t) (s : FcvtOperandType.t) (rd rs1 rm : Z) : InsnCall :=
  FcvtIntegerToFloat (FcvtIntegerToFloatArgs.mk (enum_bits d) (enum_bits s) rd rs1 rm).
Definition fcvt_fi (d : FcvtOperandType.t) (s : FloatOperandType.t) (rd rs1 rm : Z) : InsnCall :=
  FcvtFloatToInteger (FcvtFloatToIntegerArgs.mk (enum_bits d) (enum_bits s) rd rs1 rm).
Definition fsqrt (o : FloatOperandType.t) (rd rs1 rm : Z) : InsnCall :=
  OpFpSingleInput (OpFpSingleInputArgs.mk (enum_bits OpFpSingleInputOpcode.kFSqrt) (enum_bits o) rd rs1 rm).

Definition RTypeRm_meaning : meaning_table :=
  [("fcvt.d.s", fcvt_ff FloatOperandType.kDouble FloatOperandType.kFloat);
   ("fcvt.s.d", fcvt_ff FloatOperandType.kFloat FloatOperandType.kDouble);
   ("fsqrt.d", fsqrt FloatOperandType.kDouble); ("fsqrt.s", fsqrt FloatOperandType.kFloat);
   ("fcvt.d.w", fcvt_if FloatOperandType.kDouble FcvtOperandType.k32bitSigned);
   ("fcvt.d.wu", fcvt_if FloatOperandType.kDouble FcvtOperandType.k32bitUnsigned);
   ("fcvt.s.w", fcvt_if FloatOperandType.kFloat FcvtOperandType.k32bitSigned);
   ("fcvt.s.wu", fcvt_if FloatOperandType.kFloat FcvtOperandType.k32bitUnsigned);
   ("fcvt.w.d", fcvt_fi FcvtOperandType.k32bitSigned FloatOperandType.kDouble);
   ("fcvt.w.s", fcvt_fi FcvtOperandType.k32bitSigned FloatOperandType.kFloat);
   ("fcvt.wu.d", fcvt_fi FcvtOperandType.k32bitUnsigned FloatOperandType.kDouble);
   ("fcvt.wu.s", fcvt_fi FcvtOperandType.k32bitUnsigned FloatOperandType.kFloat);
   ("fcvt.d.l", fcvt_if FloatOperandType.kDouble FcvtOperandType.k64bitSigned);
   ("fcvt.d.lu", fcvt_if FloatOperandType.kDouble FcvtOperandType.k64bitUnsigned);
   ("fcvt.s.l", fcvt_if FloatOperandType.kFloat FcvtOperandType.k64bitSigned);
   ("fcvt.s.lu", fcvt_if FloatOperandType.kFloat FcvtOperandType.k64bitUnsigned);
   ("fcvt.l.d", fcvt_fi FcvtOperandType.k64bitSigned FloatOperandType.kDouble);
   ("fcvt.l.s", fcvt_fi FcvtOperandType.k64bitSigned FloatOperandType.kFloat);
   ("fcvt.lu.d", fcvt_fi FcvtOperandType.k64bitUnsigned FloatOperandType.kDouble);
   ("fcvt.lu.s", fcvt_fi FcvtOperandType.k64bitUnsigned FloatOperandType.kFloat)].

Definition csr_op (o : CsrOpcode.t) (rd rs1 csr : Z) : InsnCall := Csr (CsrArgs.mk (enum_bits o) rd rs1 csr).
Definition csr_imm_op (o : CsrImmOpcode.t) (rd v csr : Z) : InsnCall := CsrImm (CsrImmArgs.mk (enum_bits o) rd v csr).
Definition Csr_meaning : meaning_table :=
  [("csrrc", csr_op CsrOpcode.kCsrrc); ("csrrs", csr_op CsrOpcode.kCsrrs); ("csrrw", csr_op CsrOpcode.kCsrrw)].
Definition CsrImm_meaning : meaning_table :=
  [("csrrc", csr_imm_op CsrImmOpcode.kCsrrci); ("csrrci", csr_imm_op CsrImmOpcode.kCsrrci);
   ("csrrs", csr_imm_op CsrImmOpcode.kCsrrsi); ("csrrsi", csr_imm_op CsrImmOpcode.kCsrrsi);
   ("csrrw", csr_imm_op CsrImmOpcode.kCsrrwi); ("csrrwi", csr_imm_op CsrImmOpcode.kCsrrwi)].
(** The low bits of the immediate of the hint. *)
Definition PType_meaning : list (string * Z) := [("prefetch.i", 0); ("prefetch.r", 1); ("prefetch.w", 3)].

Definition RType2_agree : Prop :=
  Forall2 (fun '(name, c) '(name', call) => name = name'
    /\ forall rd rs1, fits 5 rd -> fits 5 rs1 -> Decode (parcels (EmitRType2Instruction c rd rs1)) = Some ([call rd rs1], 4))
    RType2_insns RType2_meaning.
Lemma RType2_agrees : RType2_agree.
Proof.
  unfold RType2_agree, RType2_insns, RType2_meaning, op_bitmanip; agree ltac:(eapply decode_RType2; table_side).
Qed.

Definition PType_agree : Prop :=
  Forall2 (fun '(name, c) '(name', k) => name = name'
    /\ forall base v, fits 5 base -> sfits 12 v -> v mod 2 ^ 5 = 0 ->
       Decode (parcels (EmitPTypeInstruction c base (PImmediate_MakeRaw v)))
       = Some ([op_imm OpImmOpcode.kOri 0 base (v + k)], 4)) PType_insns PType_meaning.
Lemma PType_agrees : PType_agree.
Proof.
  unfold PType_agree, PType_insns, PType_meaning, op_imm; agree ltac:(apply decode_PType; table_side).
Qed.

Lemma Csr_agrees : table_agrees (fun c rd rs1 csr => EmitITypeCsrInstruction c rd csr rs1) (fits 12) Csr_insns Csr_meaning.
Proof.
  unfold table_agrees, Csr_insns, Csr_meaning, csr_op; agree ltac:(apply decode_Csr; table_side).
Qed.
Lemma CsrImm_agrees :
  table_agrees (fun c rd v csr => EmitITypeCsrImmInstruction c rd csr (CsrImmediate_MakeRaw v)) (fits 12) CsrImm_insns CsrImm_meaning.
Proof.
  unfold table_agrees, CsrImm_insns, CsrImm_meaning, csr_imm_op; agree ltac:(apply decode_CsrImm; table_side).
Qed.
Lemma RTypeRm_agrees : table_agrees EmitRTypeRmInstruction (fits 3) RTypeRm_insns RTypeRm_meaning.
Proof.
  unfold table_agrees, RTypeRm_insns, RTypeRm_meaning, fcvt_ff, fcvt_if, fcvt_fi, fsqrt.
  agree ltac:(apply decode_RTypeRm; [table_side .. |];
    let w := fresh in intros w <- <- <- F20 F25 F27 F29; unfold DecodeOpFp;
    rewrite !GetBits_bits, F20, F25, F27, F29 by lia; reflexivity).
Qed.

(** ** What the immediate classes accept *)

(** The bounds of the masks, as numerals. *)
Lemma accept_B t v :
  is_imm_source t -> in_range t v ->
  BImmediate_AccetableValue t v = true <-> v mod 2 = 0 /\ sfits 13 v.
Proof. exact (accept_spec 12 1 ltac:(lia) ltac:(lia) t v). Qed.

Lemma accept_J t v :
  is_imm_source t -> in_range t v ->
  JImmediate_AccetableValue t v = true <-> v mod 2 = 0 /\ sfits 21 v.
Proof. exact (accept_spec 20 1 ltac:(lia) ltac:(lia) t v). Qed.

Lemma accept_I t v :
  is_imm_source t -> in_range t v -> Immediate_AccetableValue t v = true <-> sfits 12 v.
Proof.
  intros Ht Hv; pose proof (accept_spec 11 0 ltac:(lia) ltac:(lia) t v Ht Hv) as [H1 H2].
  split; [intros H; apply H1, H | intros H; apply H2; split; [apply Z.mod_1_r | exact H]].
Qed.

Lemma accept_U t v :
  is_imm_source t -> in_range t v ->
  UImmediate_AccetableValue t v = true <-> v mod 2 ^ 12 = 0 /\ sfits 32 v.
Proof. exact (accept_spec 31 12 ltac:(lia) ltac:(lia) t v). Qed.

Lemma accept_P t v :
  is_imm_source t -> in_range t v ->
  PImmediate_AccetableValue t v = true <-> v mod 2 ^ 5 = 0 /\ sfits 12 v.
Proof. exact (accept_spec 11 5 ltac:(lia) ltac:(lia) t v). Qed.

Lemma accept_unsigned_below n t v :
  is_imm_source t -> in_range t v -> 0 < n <= 2 ^ 6 ->
  (cast (make_unsigned t) v <? n) = true <-> 0 <= v < n.
Proof.
  intros Ht Hv Hn; rewrite Z.ltb_lt.
  unfold is_imm_source in Ht; unfold in_range, int_min, int_max in Hv; unfold cast; cbn [is_signed width make_unsigned].
  destruct t as [w []]; cbn in *; destruct Ht as [-> | [-> | [-> | ->]]]; zdivmod.
Qed.

(** [MakeImmediate] in terms of the acceptance test. *)
Lemma MakeImmediate_spec accept make t v imm (P : Prop) :
  (accept t v = true <-> P) -> MakeImmediate accept make t v = Some imm <-> P /\ imm = make v.
Proof.
  intros HP; unfold MakeImmediate; destruct (accept t v); cbn [negb]; rewrite <- HP;
    split; [intros [= <-] | intros [_ ->] | |]; intuition congruence.
Qed.

(** An immediate class is exact for [P]: it makes an immediate of just the
    values in [P], and the immediate reads back as the value. *)
Definition exact_for (P : Z -> Prop) (Make : IntType -> Z -> option Z) (read : Z -> Z) : Prop :=
  forall t v, is_imm_source t -> in_range t v ->
  (P v /\ exists imm, Make t v = Some imm /\ read imm = v) \/ (~ P v /\ Make t v = None).

Lemma exact_intro (P : Z -> Prop) accept make read :
  (forall t v, is_imm_source t -> in_range t v -> accept t v = true <-> P v) ->
  (forall v, P v -> read (make v) = v) -> exact_for P (MakeImmediate accept make) read.
Proof.
  intros Ha Hr t v Ht Hv; unfold MakeImmediate; specialize (Ha t v Ht Hv).
  destruct (accept t v); cbn [negb]; [left | right].
  - split; [by apply Ha |]; eexists; split; [done | by apply Hr, Ha].
  - split; [| done]; intros HP; by apply Ha in HP.
Qed.

Lemma small_shifted v n : 0 <= v < 2 ^ n -> 0 <= n <= 11 -> Z.shiftr (shl32 (cast i32 v) 20) 20 = v.
Proof.
  intros Hv Hn; apply shifted_roundtrip; unfold sfits; cbn.
  pose proof (pow2_le_mono n 11 ltac:(lia)); cbn in *; lia.
Qed.

Lemma csr_roundtrip v : 0 <= v < 32 -> CsrImmediate_int64 (CsrImmediate_MakeRaw v) = v.
Proof.
  intros Hv; unfold CsrImmediate_int64, CsrImmediate_MakeRaw, shl32.
  rewrite (cast_id i32 v), Z.shiftl_mul_pow2 by first [lia | apply in_range_signed; cbn; lia].
  rewrite (cast_id i32 (v * 2 ^ 15)) by (apply in_range_signed; cbn; lia).
  by rewrite Z.shiftr_div_pow2, Z.div_mul by lia.
Qed.

(** Every immediate class of the assembler accepts, from any 8-, 16-, 32-
    or 64-bit signed or unsigned input, exactly the values its instruction
    format can hold (even 13- and 21-bit branch and jump offsets, 12-bit I and S
    immediates, 32-bit upper immediates with twelve zero bits, multiples of 32
    for prefetch, and the unsigned shift and CSR ranges); the immediate made
    reads back as the value, and any other value is rejected. *)
Theorem immediates_exact :
  exact_for (fun v => v mod 2 = 0 /\ sfits 13 v) MakeBImmediate BImmediate_int64
  /\ exact_for (fun v => v mod 2 = 0 /\ sfits 21 v) MakeJImmediate JImmediate_int64
  /\ exact_for (sfits 12) MakeIImmediate IImmediate_int64
  /\ exact_for (sfits 12) MakeSImmediate SImmediate_int64
  /\ exact_for (fun v => v mod 2 ^ 12 = 0 /\ sfits 32 v) MakeUImmediate UImmediate_int64
  /\ exact_for (fun v => v mod 2 ^ 5 = 0 /\ sfits 12 v) MakePImmediate PImmediate_int64
  /\ exact_for (fun v => 0 <= v < 32) MakeCsrImmediate CsrImmediate_int64
  /\ exact_for (fun v => 0 <= v < 32) MakeShift32Immediate ShiftImmediate_int64
  /\ exact_for (fun v => 0 <= v < 64) MakeShift64Immediate ShiftImmediate_int64.
Proof.
  split_and!; apply exact_intro;
    try (intros; first [ by apply accept_B | by apply accept_J | by apply accept_I | by apply accept_U
                       | by apply accept_P | apply accept_unsigned_below; (done || lia) ]).
  - intros v []; by apply BImmediate_roundtrip.
  - intros v []; by apply JImmediate_roundtrip.
  - exact shifted_roundtrip.
  - exact SImmediate_roundtrip.
  - intros v []; by apply (cast_id i32 v), in_range_signed.
  - intros v []; by apply shifted_roundtrip.
  - exact csr_roundtrip.
  - intros v Hv; apply (small_shifted v 5); lia.
  - intros v Hv; apply (small_shifted v 6); lia.
Qed.

(** C26: for every entry of the opcode tables (register, immediate, shift, load,
    store, branch, upper immediate, jump, single-operand, floating-point
    conversion, control register and prefetch instructions), and every choice of
    register operands and of an immediate, rounding mode or control register
    number the assembler accepts, the 32-bit word the assembler emits is decoded
    by the guest decoder to exactly the instruction of that name with those
    operands, and to nothing else; the prefetches, which are hints, decode to the
    [ori] to register 0 that they are encoded as. *)
Theorem assembler_decoder_agree :
  Forall2 (fun '(name, c) '(name', mk, op) => name = name'
    /\ forall rd rs1 rs2, fits 5 rd -> fits 5 rs1 -> fits 5 rs2 ->
       Decode (parcels (EmitRTypeInstruction c rd rs1 rs2))
       = Some ([mk (OpArgsTemplate.mk op rd rs1 rs2)], 4)) RType_insns RType_meaning
  /\ table_agrees (fun c rd rs1 v => EmitITypeInstruction c rd rs1 (Immediate_MakeRaw v))
       (sfits 12) (IType_insns ++ Load_insns ++ LoadFp_insns)
       (IType_meaning ++ Load_meaning ++ LoadFp_meaning)
  /\ table_agrees (fun c rs2 rs1 v => EmitSTypeInstruction c rs2 rs1 (SImmediate_MakeRaw v))
       (sfits 12) (Store_insns ++ StoreFp_insns) (Store_meaning ++ StoreFp_meaning)
  /\ table_agrees (fun c rs1 rs2 v => EmitBTypeInstruction c rs1 rs2 (BImmediate_MakeRaw v))
       (fun v => sfits 13 v /\ v mod 2 = 0) BType_insns BType_meaning
  /\ table_agrees (fun c rd rs1 v => EmitITypeInstruction c rd rs1 (Shift64Immediate_MakeRaw v))
       (fits 6) Shift64_insns Shift64_meaning
  /\ table_agrees (fun c rd rs1 v => EmitITypeInstruction c rd rs1 (Shift32Immediate_MakeRaw v))
       (fits 5) Shift32_insns Shift32_meaning
  /\ Forall2 (fun '(name, c) '(name', mk) => name = name'
       /\ forall rd v, fits 5 rd -> sfits 32 v -> v mod 2 ^ 12 = 0 ->
          Decode (parcels (EmitUTypeInstruction c rd (UImmediate_MakeRaw v)))
          = Some ([mk (UpperImmArgs.mk rd v)], 4)) UType_insns UType_meaning
  /\ (forall rd v, fits 5 rd -> sfits 21 v -> v mod 2 = 0 ->
      JType_insns = [("jal", 0x6f)]
      /\ Decode (parcels (EmitJTypeInstruction 0x6f rd (JImmediate_MakeRaw v)))
         = Some ([JumpAndLink (JumpAndLinkArgs.mk rd v 4)], 4))
  /\ RType2_agree
  /\ table_agrees EmitRTypeRmInstruction (fits 3) RTypeRm_insns RTypeRm_meaning
  /\ table_agrees (fun c rd rs1 csr => EmitITypeCsrInstruction c rd csr rs1) (fits 12) Csr_insns Csr_meaning
  /\ table_agrees (fun c rd v csr => EmitITypeCsrImmInstruction c rd csr (CsrImmediate_MakeRaw v))
       (fits 12) CsrImm_insns CsrImm_meaning
  /\ PType_agree.
Proof.
  split_and!; auto using RType_agrees, BType_agrees, Shift64_agrees, Shift32_agrees, UType_agrees, RType2_agrees,
    RTypeRm_agrees, Csr_agrees, CsrImm_agrees, PType_agrees.
  - apply Forall2_app, Forall2_app; [exact IType_agrees | exact Load_agrees | exact LoadFp_agrees].
  - apply Forall2_app; [exact Store_agrees | exact StoreFp_agrees].
  - intros rd v Hrd Hv He; split; [done |]; by apply decode_JType.
Qed.

(** Two 32-bit values with the same bits are equal. *)
Lemma eq_of_testbit32 x y :
  in_range i32 x -> in_range i32 y ->
  (forall i, In i bit_positions -> Z.testbit x i = Z.testbit y i) -> x = y.
Proof.
  intros Hx Hy Hb; assert (forall z, in_range i32 z -> in_range i64 z) as Hw.
  { intros z Hz; apply (sfits_i64 32); [lia |]; by apply in_range_signed in Hz. }
  rewrite <- (cast_id i64 x) by auto; by apply eq_of_testbit64; auto.
Qed.

Lemma shl32_range x n : in_range i32 (shl32 x n).
Proof. by apply cast_in_range. Qed.

(** Values built by masking, shifting and merging 32-bit values stay 32-bit. *)
Ltac range32 :=
  repeat match goal with
         | |- in_range i32 (Z.lor _ _) => apply (lor_in_range i32); [done | |]
         | |- in_range i32 (Z.land _ _) => apply (land_in_range i32); [done | |]
         | |- in_range i32 (Z.shiftr _ _) => apply (shiftr_in_range i32); [done | lia |]
         | |- in_range i32 (shl32 _ _) => apply shl32_range
         | |- in_range i32 (cast i32 _) => by apply (cast_in_range i32)
         | |- in_range i32 (Zpos _) => split; vm_compute; congruence
         end.
Ltac bits32 n v :=
  let i := fresh "i" in let Hin := fresh "Hin" in
  unfold shl32, bit_positions; intros i Hin;
  repeat (destruct Hin as [<- | Hin]; [bit_eval; sign_bits n v |]); destruct Hin.

(** The immediate conversions keep the value: an I immediate made from an S
    immediate and back, and the jump immediate [Bcc] builds for [kAlways] out of
    a branch immediate, stand for the offset given. *)
Theorem immediate_conversions v :
  (sfits 12 v -> IImmediate_of_S (SImmediate_MakeRaw v) = Immediate_MakeRaw v
                 /\ SImmediate_of_I (Immediate_MakeRaw v) = SImmediate_MakeRaw v)
  /\ (sfits 13 v -> v mod 2 = 0 -> Bcc_jimmediate (BImmediate_MakeRaw v) = JImmediate_MakeRaw v).
Proof.
  split; [intros Hv; split | intros Hv He; pose proof (even_testbit0 v He) as H0];
    apply eq_of_testbit32.
  all: unfold IImmediate_of_S, SImmediate_of_I, Bcc_jimmediate, SImmediate_MakeRaw,
    Immediate_MakeRaw, BImmediate_MakeRaw, JImmediate_MakeRaw; cbv zeta.
  1, 2, 4, 5, 7, 8: range32.
  - bits32 12 v.
  - bits32 12 v.
  - bits32 13 v.
Qed.

Lemma immediate_conversions_witness :
  Bcc_jimmediate (BImmediate_MakeRaw (-4)) = JImmediate_MakeRaw (-4)
  /\ SImmediate_of_I (Immediate_MakeRaw (-4)) = SImmediate_MakeRaw (-4).
Proof.
  split; [apply (immediate_conversions (-4)) | apply (immediate_conversions (-4))];
    (split; vm_compute; congruence) || reflexivity.
Defined.

(** The pseudo-instructions decode to the base instruction that computes
    what their name says: move, return, the comparisons with zero, negation,
    complement, and the 32-bit extensions. *)
Theorem pseudo_instructions a b :
  fits 5 a -> fits 5 b ->
  let decodes w c := Decode (parcels w) = Some ([c], 4) in
  decodes (Mv a b) (op_imm OpImmOpcode.kAddi a b 0)
  /\ decodes Ret (jump_reg 0 1 0)
  /\ decodes (Seqz a b) (op_imm OpImmOpcode.kSltiu a b 1)
  /\ decodes (Snez a b) (Op (OpArgsTemplate.mk (enum_bits OpOpcode.kSltu) a 0 b))
  /\ decodes (Sltz a b) (Op (OpArgsTemplate.mk (enum_bits OpOpcode.kSlt) a b 0))
  /\ decodes (Sgtz a b) (Op (OpArgsTemplate.mk (enum_bits OpOpcode.kSlt) a 0 b))
  /\ decodes (Jr a) (jump_reg 0 a 0)
  /\ decodes (Jalr_ra a) (jump_reg 1 a 0)
  /\ decodes (Not a b) (op_imm OpImmOpcode.kXori a b (-1))
  /\ decodes (Neg a b) (Op (OpArgsTemplate.mk (enum_bits OpOpcode.kSub) a 0 b))
  /\ decodes (SextW a b) (OpImm32 (OpImmArgsTemplate.mk (enum_bits OpImm32Opcode.kAddiw) a b 0))
  /\ decodes (ZextW a b) (Op32 (OpArgsTemplate.mk (enum_bits Op32Opcode.kAdduw) a b 0))
  /\ decodes (Negw a b) (Op32 (OpArgsTemplate.mk (enum_bits Op32Opcode.kSubw) a 0 b)).
Proof.
  intros Ha Hb; cbv zeta.
  assert (fits 5 0 /\ fits 5 1) as [H0 H1] by (unfold fits; cbn; lia).
  assert (forall v, v = 0 \/ v = 1 \/ v = -1 -> sfits 12 v) as Hv
    by (intros v Hv; unfold sfits; cbn; lia).
  split_and!.
  all: unfold Mv, Ret, Seqz, Snez, Sltz, Sgtz, Jr, Jalr_ra, Not, Neg, SextW, ZextW, Negw.
  all: lazymatch goal with
       | |- context [EmitRTypeInstruction] => apply decode_RType; table_side
       | |- context [jump_reg] => by_format ltac:(apply decode_Jalr; [.. | by auto | |])
       | |- context [op_imm] =>
           by_format ltac:(apply decode_IType with (mk := OpImm); [.. | by auto | | |])
       | |- _ => by_format ltac:(apply decode_IType with (mk := OpImm32); [.. | by auto | | |])
       end.
Qed.

Lemma pseudo_instructions_witness :
  Decode (parcels (Not 5 6)) = Some ([op_imm OpImmOpcode.kXori 5 6 (-1)], 4).
Proof. apply (pseudo_instructions 5 6); split; vm_compute; congruence. Defined.
