(* ===== verification/RiscvLabels.v ===== *)
(** * Labels of the RISC-V assembler

    The instructions that name a label leave a slot in the code buffer, which
    [ResolveJumps] fills in.  An invariant ties every recorded jump to the slot
    its instruction left; every operation of the assembler keeps it, and from
    it follows that [ResolveJumps] succeeds when the labels are bound and in
    reach, and puts the distance to the label in every slot without touching any
    other word. *)
From stdpp Require Import strings sorting.
From S2P Require Import Prelude MachineInt BitUtil RiscvInsn RiscvDecoder RiscvAssembler.
From S2P Require Import RiscvDecoderProps RiscvAssemblerProps RiscvRoundTrip.
#[local] Open Scope Z_scope.

(** ** The code buffer *)

Section Buffer.
Implicit Types (code : list Z) (off v : Z).

Lemma length_write32 code off v :
  0 <= off -> off + 4 <= Z.of_nat (length code) -> length (write32 code off v) = length code.
Proof.
  intros H0 H; unfold write32; rewrite !length_app, length_take, length_drop, length_le_split; lia.
Qed.

Lemma read32_write32_same code off v :
  0 <= off -> off + 4 <= Z.of_nat (length code) ->
  read32 (write32 code off v) off = Some (cast i32 v).
Proof.
  intros H0 H; unfold read32, write32.
  rewrite drop_app_length' by (rewrite length_take; lia).
  rewrite take_app_length' by (by rewrite length_le_split).
  rewrite length_le_split; cbn [Nat.eqb]; rewrite le_combine_split; f_equal.
  apply cast_congr; [done |]; cbn [width i32]; by rewrite Z.mod_mod.
Qed.

(** A write does not disturb the words beside it. *)
Lemma read32_write32_other code off off' v :
  0 <= off -> 0 <= off' -> off + 4 <= Z.of_nat (length code) -> off' + 4 <= off \/ off + 4 <= off' ->
  read32 (write32 code off v) off' = read32 code off'.
Proof.
  intros H0 H0' H Hd; unfold read32.
  enough (take 4 (drop (Z.to_nat off') (write32 code off v)) = take 4 (drop (Z.to_nat off') code))
    as -> by done.
  unfold write32; destruct Hd.
  - rewrite drop_app_le by (rewrite length_take; lia).
    rewrite take_app_le by (rewrite length_drop, length_take; lia).
    by rewrite skipn_firstn_comm, take_take, Nat.min_l by lia.
  - rewrite drop_app_ge by (rewrite length_take; lia); rewrite length_take.
    rewrite drop_app_ge by (rewrite length_le_split; lia); rewrite length_le_split, drop_drop.
    do 2 f_equal; lia.
Qed.

Lemma read32_Some code off w : read32 code off = Some w -> (Z.to_nat off + 4 <= length code)%nat.
Proof.
  unfold read32; destruct (Nat.eqb_spec (length (take 4 (drop (Z.to_nat off) code))) 4); [| done].
  rewrite length_take, length_drop in *; lia.
Qed.

Lemma or32_spec code code' off v :
  0 <= off -> or32 v off code = Some code' ->
  exists w, read32 code off = Some w /\ read32 code' off = Some (cast i32 (Z.lor w v))
    /\ length code' = length code
    /\ forall off', 0 <= off' -> off' + 4 <= off \/ off + 4 <= off' ->
       read32 code' off' = read32 code off'.
Proof.
  intros H0; unfold or32; destruct (read32 code off) as [w |] eqn:E; cbn; [| done].
  intros [= <-]; exists w; pose proof (read32_Some _ _ _ E).
  split_and!; [done | apply read32_write32_same; lia | apply length_write32; lia |].
  intros; apply read32_write32_other; lia.
Qed.

Lemma or32_defined code off w v :
  0 <= off -> read32 code off = Some w -> exists code', or32 v off code = Some code'.
Proof. intros H0 E; unfold or32; rewrite E; cbn; eauto. Qed.
End Buffer.

(** ** Slots *)

(** What an instruction that names a label leaves in the buffer: [jal], a
    conditional branch, [auipc] followed by an I-type or an S-type instruction,
    or nothing for a recovery point. *)
Inductive slot :=
  | JalSlot (rd : Z)
  | BranchSlot (kOpcode rs1 rs2 : Z)
  | PairISlot (kOpcode rd rt : Z)
  | PairSSlot (kOpcode data rt : Z)
  | RecoverySlot.

(** The words of a slot for an offset. *)
Definition slot_words (s : slot) (offset : Z) : list Z :=
  match s with
  | JalSlot rd => [EmitJTypeInstruction 0x6f rd (JImmediate_MakeRaw offset)]
  | BranchSlot c rs1 rs2 => [EmitBTypeInstruction c rs1 rs2 (BImmediate_MakeRaw offset)]
  | PairISlot c rd rt =>
      [EmitUTypeInstruction 0x17 rt (UImmediate_MakeRaw (offset_top offset));
       EmitITypeInstruction c rd rt (Immediate_MakeRaw (offset_bottom offset))]
  | PairSSlot c data rt =>
      [EmitUTypeInstruction 0x17 rt (UImmediate_MakeRaw (offset_top offset));
       EmitSTypeInstruction c data rt (SImmediate_MakeRaw (offset_bottom offset))]
  | RecoverySlot => []
  end.

Definition slot_size (s : slot) : Z := 4 * Z.of_nat (length (slot_words s 0)).

(** The opcodes and registers a slot may have. *)
Definition slot_ok (s : slot) : Prop :=
  match s with
  | JalSlot rd => fits 5 rd
  | BranchSlot c rs1 rs2 => c ∈ BType_insns.*2 /\ fits 5 rs1 /\ fits 5 rs2
  | PairISlot c rd rt =>
      c ∈ (IType_insns ++ Load_insns ++ LoadFp_insns).*2 /\ fits 5 rd /\ fits 5 rt
  | PairSSlot c data rt => c ∈ (Store_insns ++ StoreFp_insns).*2 /\ fits 5 data /\ fits 5 rt
  | RecoverySlot => True
  end.

(** The offsets a slot can hold. *)
Definition slot_reach (s : slot) (offset : Z) : Prop :=
  match s with
  | JalSlot _ => sfits 21 offset /\ offset mod 2 = 0
  | BranchSlot _ _ _ => sfits 13 offset /\ offset mod 2 = 0
  | PairISlot _ _ _ | PairSSlot _ _ _ => sfits 32 offset
  | RecoverySlot => True
  end.

(** The words at an address of the buffer. *)
Definition words_at (code : list Z) (off : Z) (ws : list Z) : Prop :=
  forall i w, ws !! i = Some w -> read32 code (off + 4 * Z.of_nat i) = Some (cast i32 w).

(** ** Filling a slot *)

Lemma cast_lor_congr t x x' y y' :
  0 < width t -> cast t x = cast t x' -> cast t y = cast t y' ->
  cast t (Z.lor x y) = cast t (Z.lor x' y').
Proof.
  intros Hw Hx Hy; apply cast_congr; [done |]; apply Z.bits_inj'; intros i Hi.
  rewrite !testbit_mod_pow2 by lia; destruct (Z.ltb_spec i (width t)); [| done]; cbn [andb].
  rewrite !Z.lor_spec; f_equal.
  - by rewrite <- (testbit_cast_low t x), <- (testbit_cast_low t x'), Hx by lia.
  - by rewrite <- (testbit_cast_low t y), <- (testbit_cast_low t y'), Hy by lia.
Qed.

Lemma cast_i32_u32 x : cast i32 (cast u32 x) = cast i32 x.
Proof. by apply cast_cast. Qed.

Lemma EmitInstruction_snoc c args a :
  EmitInstruction c (args ++ [a]) = Z.lor (EmitInstruction c args) (cast u32 a).
Proof. unfold EmitInstruction; by rewrite fold_left_app. Qed.

(** Merging an immediate into an instruction emitted with none. *)
Lemma merge_immediate w c args imm :
  w = EmitInstruction c (args ++ [0]) ->
  cast i32 (Z.lor (cast i32 w) imm) = cast i32 (EmitInstruction c (args ++ [imm])).
Proof.
  intros ->; rewrite !EmitInstruction_snoc; change (cast u32 0) with 0; rewrite Z.lor_0_r.
  apply cast_lor_congr; [done | by rewrite cast_idemp | by rewrite cast_i32_u32].
Qed.

(** The opcode bits decide which kind of slot is filled. *)
Lemma land_opcode w c m :
  0 <= m < 128 -> bits w 0 7 = bits c 0 7 -> Z.land (cast i32 w) m = Z.land c m.
Proof.
  intros Hm H; apply Z.bits_inj'; intros i Hi; rewrite !Z.land_spec.
  destruct (Z.ltb_spec i 7) as [Hlt | Hge].
  - rewrite testbit_cast_low by (cbn; lia); f_equal.
    assert (forall x, Z.testbit x i = Z.testbit (bits x 0 7) i) as Hx.
    { intros x; rewrite testbit_bits by lia; rewrite Z.add_0_r.
      by rewrite (proj2 (Z.ltb_lt _ _) Hlt), (proj2 (Z.leb_le _ _) Hi). }
    by rewrite (Hx w), (Hx c), H.
  - rewrite (testbit_bounded m 7 i) by (cbn; lia); by rewrite !andb_false_r.
Qed.

(** The two parts of a 32-bit offset. *)
Lemma offset_bottom_range o : sfits 12 (offset_bottom o).
Proof. by apply (SignExtend_sfits 12). Qed.

Lemma land_high20 u : 0 <= u < 2 ^ 32 -> Z.land u 0xfffff000 = 2 ^ 12 * (u / 2 ^ 12).
Proof.
  intros Hu; change 0xfffff000 with (Z.land (Z.ones 32) (ideal_mask 12 0)).
  rewrite Z.land_assoc, Z.land_ones, Z.mod_small, land_ideal_mask by lia.
  by rewrite Z.mod_1_r.
Qed.

Lemma land_bit11 u : Z.land u (2 ^ 11) = 2 ^ 11 * bits u 11 1.
Proof.
  apply Z.bits_inj'; intros i Hi; rewrite Z.mul_comm, <- Z.shiftl_mul_pow2, Z.land_spec by lia.
  autorewrite with zbits; rewrite Z.pow2_bits_eqb by lia.
  zreflect; cbn [andb]; rewrite ?andb_false_r, ?andb_true_r; try done; try lia.
  all: by replace (i - 11 + 11) with i by lia.
Qed.

(** [offset_top] is the offset less its signed low twelve bits. *)
Lemma offset_top_spec o : offset_top o = cast i32 (o - offset_bottom o).
Proof.
  unfold offset_top; rewrite land_high20 by (apply (in_range_unsigned u32); [done | by apply cast_in_range]).
  rewrite land_bit11; apply cast_congr; [done |].
  unfold offset_bottom, bits, cast; cbn [is_signed width u32 i32].
  zdivmod.
Qed.

Lemma offset_top_range o : sfits 32 (offset_top o) /\ offset_top o mod 2 ^ 12 = 0.
Proof.
  rewrite offset_top_spec; split.
  - apply (in_range_signed i32); [done | by apply cast_in_range].
  - unfold offset_bottom, cast; cbn [is_signed width i32]; zdivmod.
Qed.

(** The parts add up, but for the offsets whose upper part does not fit. *)
Lemma offset_parts o : sfits 32 o -> o < 2 ^ 31 - 2 ^ 11 -> offset_top o + offset_bottom o = o.
Proof.
  intros Ho Hlt; rewrite offset_top_spec; pose proof (offset_bottom_range o) as Hb.
  assert (o - offset_bottom o >= - 2 ^ 31) as Hlo.
  { unfold sfits in Ho; unfold offset_bottom, cast; cbn [is_signed width]; cbn in *; zdivmod. }
  rewrite cast_id; [lia | done |]; apply in_range_signed; [done |].
  unfold sfits in Ho, Hb; cbn in *; lia.
Qed.

(** When the low twelve bits are zero one [auipc] is enough. *)
Lemma offset_aligned o :
  sfits 32 o -> o mod 2 ^ 12 = 0 -> offset_top o = o /\ offset_bottom o = 0.
Proof.
  intros Ho H0; assert (offset_bottom o = 0) as Hb.
  { unfold offset_bottom, cast; cbn [is_signed width]; zdivmod. }
  split; [| done]; rewrite offset_top_spec, Hb, Z.sub_0_r.
  apply cast_id; [done | by apply in_range_signed].
Qed.

(** Nothing but [n] bytes at [off] changed. *)
Definition framed (code code' : list Z) (off n : Z) : Prop :=
  length code' = length code
  /\ forall off', 0 <= off' -> off' + 4 <= off \/ off + n <= off' -> read32 code' off' = read32 code off'.

Lemma framed_trans c1 c2 c3 off n :
  framed c1 c2 off n -> framed c2 c3 off n -> framed c1 c3 off n.
Proof. intros [L1 F1] [L2 F2]; split; [congruence |]; intros; rewrite F2, F1; auto. Qed.

Lemma framed_mono c1 c2 off n off' n' :
  framed c1 c2 off n -> off' <= off -> off + n <= off' + n' -> framed c1 c2 off' n'.
Proof. intros [L F] ? ?; split; [done |]; intros; apply F; lia. Qed.

Lemma framed_refl c off n : framed c c off n.
Proof. by split. Qed.

(** Filling one instruction that was emitted with a zero immediate. *)
Lemma or32_fill code off c args imm :
  0 <= off -> read32 code off = Some (cast i32 (EmitInstruction c (args ++ [0]))) ->
  exists code', or32 imm off code = Some code'
    /\ read32 code' off = Some (cast i32 (EmitInstruction c (args ++ [imm])))
    /\ framed code code' off 4.
Proof.
  intros H0 H; destruct (or32_defined code off _ imm H0 H) as [code' E]; exists code'.
  destruct (or32_spec code code' off imm H0 E) as (w & Hw & Hr & HL & HF).
  split_and!; [done | | split; [done | by apply HF]].
  rewrite Hr; rewrite H in Hw; injection Hw as <-; f_equal; by apply merge_immediate.
Qed.

(** Facts about the opcodes of a table, by going through it. *)
Lemma table_forall (P : Z -> bool) (l : list (string * Z)) c :
  forallb (fun e => P e.2) l = true -> c ∈ l.*2 -> P c = true.
Proof.
  intros H Hin; apply list_elem_of_fmap in Hin as (e & -> & He).
  rewrite forallb_forall in H; by apply H, list_elem_of_In.
Qed.

(** The branch opcodes leave the operand fields clear. *)
Lemma BType_opcode c :
  c ∈ BType_insns.*2 ->
  clear c [(7, 1); (8, 4); (15, 5); (20, 5); (25, 6); (31, 1)] = true
  /\ Z.land c 16 = 0 /\ Z.land c 4 = 0 /\ fits 32 c /\ bits c 0 7 = 0x63.
Proof.
  intros Hc; pose proof (table_forall (fun c =>
    clear c [(7, 1); (8, 4); (15, 5); (20, 5); (25, 6); (31, 1)]
    && (Z.land c 16 =? 0) && (Z.land c 4 =? 0) && bool_decide (fits 32 c) && (bits c 0 7 =? 0x63))
    BType_insns c eq_refl Hc) as H.
  do 4 (apply andb_prop in H as [H ?]); rewrite ?Z.eqb_eq in *.
  split_and!; try done; by eapply bool_decide_eq_true.
Qed.

(** What [ResolveJump] does to the code for a jump that is not a recovery
    point. *)
Definition patch (pc offset : Z) (code : list Z) : option (list Z) :=
  word ← read32 code pc;
  if negb (Z.land word 16 =? 0) then ProcessLabel_auipc pc offset code
  else if negb (Z.land word 4 =? 0) then ProcessLabel MakeJImmediate pc offset code
  else ProcessLabel MakeBImmediate pc offset code.

Lemma source_i32 : is_imm_source i32.
Proof. unfold is_imm_source; cbn; lia. Qed.

Section Fill.
Context (code : list Z) (pc offset : Z) (Hpc : 0 <= pc) (Hpc' : pc + 4 < 2 ^ 32).

Lemma fill_jal rd :
  slot_ok (JalSlot rd) -> slot_reach (JalSlot rd) offset ->
  words_at code pc (slot_words (JalSlot rd) 0) ->
  exists code', patch pc offset code = Some code'
    /\ words_at code' pc (slot_words (JalSlot rd) offset) /\ framed code code' pc 4.
Proof using Hpc.
  intros Hrd [Ho He] Hw; specialize (Hw 0%nat _ eq_refl); rewrite Z.add_0_r in Hw.
  pose proof (JType_fields rd Hrd 0x6f 0 eq_refl) as (F0 & _).
  destruct (or32_fill code pc 0x6f [Rd rd] (JImmediate_MakeRaw offset) Hpc Hw)
    as (code' & E & Hr & HF).
  exists code'; split_and!; [| | done].
  - unfold patch; rewrite Hw; cbn [mbind option_bind].
    rewrite !(land_opcode _ 0x6f) by (done || lia); cbn [Z.land Z.eqb negb Pos.land].
    unfold ProcessLabel, MakeJImmediate, MakeImmediate.
    rewrite (proj2 (accept_J i32 offset source_i32
      ltac:(apply in_range_signed; [done | by apply (sfits_mono 21)]))) by done; exact E.
  - intros [| i] w Hi; [| done]; injection Hi as <-; by rewrite Z.add_0_r.
Qed.

Lemma fill_branch c rs1 rs2 :
  slot_ok (BranchSlot c rs1 rs2) -> slot_reach (BranchSlot c rs1 rs2) offset ->
  words_at code pc (slot_words (BranchSlot c rs1 rs2) 0) ->
  exists code', patch pc offset code = Some code'
    /\ words_at code' pc (slot_words (BranchSlot c rs1 rs2) offset) /\ framed code code' pc 4.
Proof using Hpc.
  intros (Hc & H1 & H2) [Ho He] Hw; specialize (Hw 0%nat _ eq_refl); rewrite Z.add_0_r in Hw.
  destruct (BType_opcode c Hc) as (Hcl & H16 & H4 & _).
  pose proof (BType_fields rs1 rs2 H1 H2 c 0 Hcl eq_refl) as (F0 & _).
  destruct (or32_fill code pc c [Rs1 rs1; Rs2 rs2] (BImmediate_MakeRaw offset) Hpc Hw)
    as (code' & E & Hr & HF).
  exists code'; split_and!; [| | done].
  - unfold patch; rewrite Hw; cbn [mbind option_bind].
    rewrite !(land_opcode _ c), H16, H4 by (done || lia); cbn [Z.eqb negb].
    unfold ProcessLabel, MakeBImmediate, MakeImmediate.
    rewrite (proj2 (accept_B i32 offset source_i32
      ltac:(apply in_range_signed; [done | by apply (sfits_mono 13)]))) by done; exact E.
  - intros [| i] w Hi; [| done]; injection Hi as <-; by rewrite Z.add_0_r.
Qed.

(** [auipc] and the instruction after it, with [bottom] the immediate for the
    low part. *)
Lemma fill_pair rt c args (bottom : Z) (is_store : bool) :
  fits 5 rt -> sfits 32 offset ->
  bits (EmitInstruction c (args ++ [0])) 0 7 = bits c 0 7 ->
  (Z.land c 96 =? 32) = is_store ->
  (if is_store then MakeSImmediate i32 (offset_bottom offset)
   else MakeIImmediate i32 (offset_bottom offset)) = Some bottom ->
  (offset_bottom offset = 0 -> bottom = 0) ->
  read32 code pc = Some (cast i32 (EmitUTypeInstruction 0x17 rt 0)) ->
  read32 code (pc + 4) = Some (cast i32 (EmitInstruction c (args ++ [0]))) ->
  exists code', patch pc offset code = Some code'
    /\ words_at code' pc
         [EmitUTypeInstruction 0x17 rt (UImmediate_MakeRaw (offset_top offset));
          EmitInstruction c (args ++ [bottom])]
    /\ framed code code' pc 8.
Proof using Hpc Hpc'.
  intros Hrt Ho F0 Hs Hb Hb0 Hw1 Hw2.
  pose proof (UType_fields rt Hrt 0x17 0 eq_refl eq_refl) as (U0 & _).
  assert (cast u32 (pc + 4) = pc + 4) as Hpc4.
  { apply cast_id; [done |]; apply in_range_unsigned; [done |]; cbn in *; lia. }
  unfold patch; rewrite Hw1; cbn [mbind option_bind].
  rewrite !(land_opcode _ 0x17) by (done || lia); cbn [Z.land Z.eqb negb Pos.land].
  unfold ProcessLabel_auipc, MakeUImmediate at 1, MakeImmediate at 1.
  destruct (offset_top_range offset) as [Ht Ht0].
  pose proof (accept_U i32 offset source_i32 ltac:(by apply in_range_signed)) as HU.
  destruct (UImmediate_AccetableValue i32 offset); cbn [negb].
  - destruct (offset_aligned offset Ho) as [-> HB]; [by apply HU |].
    destruct (or32_fill code pc 0x17 [Rd rt] (UImmediate_MakeRaw offset) Hpc Hw1)
      as (code' & E & Hr & HF); exists code'; split_and!; [done | |].
    + intros [| [| i]] w Hi; [| | done]; injection Hi as <-; [by rewrite Z.add_0_r |].
      change (4 * Z.of_nat 1) with 4; rewrite (proj2 HF), Hw2, (Hb0 HB) by lia; done.
    + apply (framed_mono _ _ pc 4); (done || lia).
  - unfold MakeUImmediate, MakeImmediate.
    rewrite (proj2 (accept_U i32 (offset_top offset) source_i32
      ltac:(by apply in_range_signed))) by done; cbn [negb mbind option_bind].
    destruct (or32_fill code pc 0x17 [Rd rt] (UImmediate_MakeRaw (offset_top offset)) Hpc Hw1)
      as (code1 & -> & Hr & HF); cbn [mbind option_bind].
    rewrite Hpc4, (proj2 HF), Hw2 by lia; cbn [mbind option_bind].
    rewrite (land_opcode _ c), Hs, Hb by (done || lia); cbn [mbind option_bind].
    rewrite <- (proj2 HF) in Hw2 by lia.
    destruct (or32_fill code1 (pc + 4) c args bottom ltac:(lia) Hw2) as (code2 & -> & Hr2 & HF2).
    exists code2; split_and!; [done | |].
    + intros [| [| i]] w Hi; [| | done]; injection Hi as <-; [| done].
      rewrite Z.add_0_r, (proj2 HF2), Hr by lia; done.
    + apply (framed_trans _ code1); eapply framed_mono; (done || lia).
Qed.

Definition IPair_insns := IType_insns ++ Load_insns ++ LoadFp_insns.
Definition SPair_insns := Store_insns ++ StoreFp_insns.

Lemma fill_slot s :
  s <> RecoverySlot -> slot_ok s -> slot_reach s offset -> words_at code pc (slot_words s 0) ->
  exists code', patch pc offset code = Some code'
    /\ words_at code' pc (slot_words s offset) /\ framed code code' pc (slot_size s).
Proof using Hpc Hpc'.
  intros Hns Hok Hr Hw; pose proof (offset_bottom_range offset) as Hb.
  assert (in_range i32 (offset_bottom offset)) as Hb32
    by (apply in_range_signed; [done | by apply (sfits_mono 12)]).
  destruct s as [rd | c rs1 rs2 | c rd rt | c data rt |]; [| | | | done].
  - by apply fill_jal.
  - by apply fill_branch.
  - destruct Hok as (Hc & H1 & H2).
    pose proof (Hw 0%nat _ eq_refl) as W0; pose proof (Hw 1%nat _ eq_refl) as W1; rewrite Z.add_0_r in W0.
    pose proof (table_forall (fun c => clear c [(7, 5); (15, 5); (20, 12)]
      && negb (Z.land c 96 =? 32)) IPair_insns c eq_refl Hc) as [Hcl H96]%andb_prop.
    pose proof (IType_fields rd rt H1 H2 c 0 Hcl) as (F0 & _).
    apply (fill_pair rt c [Rd rd; Rs1 rt] (Immediate_MakeRaw (offset_bottom offset)) false); try done.
    + by apply negb_true_iff.
    + unfold MakeIImmediate, MakeImmediate.
      by rewrite (proj2 (accept_I i32 (offset_bottom offset) source_i32 Hb32)) by done.
    + by intros ->.
  - destruct Hok as (Hc & H1 & H2).
    pose proof (Hw 0%nat _ eq_refl) as W0; pose proof (Hw 1%nat _ eq_refl) as W1; rewrite Z.add_0_r in W0.
    pose proof (table_forall (fun c => clear c [(7, 5); (15, 5); (20, 5); (25, 7)]
      && (Z.land c 96 =? 32)) SPair_insns c eq_refl Hc) as [Hcl H96]%andb_prop.
    pose proof (SType_fields rt data H2 H1 c 0 Hcl) as (F0 & _).
    apply (fill_pair rt c [Rs2 data; Rs1 rt] (SImmediate_MakeRaw (offset_bottom offset)) true); try done.
    + unfold MakeSImmediate, SImmediate_AccetableValue, MakeImmediate.
      by rewrite (proj2 (accept_I i32 (offset_bottom offset) source_i32 Hb32)) by done.
    + by intros ->.
Qed.
End Fill.

(** ** Resolving all the jumps *)

(** The offset from a jump to its label. *)
Definition jump_offset (a : Assembler) (j : Jump) : Z := position a (jump_label j) - jump_pc j.

(** A jump with its slot: not yet filled, in the buffer [code]. *)
Definition pending (code : list Z) '((j, s) : Jump * slot) : Prop :=
  slot_ok s /\ (is_recovery j = true <-> s = RecoverySlot) /\ 0 <= jump_pc j
  /\ jump_pc j + slot_size s <= Z.of_nat (length code)
  /\ words_at code (jump_pc j) (slot_words s 0).

(** Slots are laid out one after the other. *)
Definition slot_before '((j1, s1) : Jump * slot) '((j2, s2) : Jump * slot) : Prop :=
  jump_pc j1 + slot_size s1 <= jump_pc j2.

(** The assembler's invariant, with the slots its jumps left. *)
Record asm_inv (a : Assembler) (slots : list slot) : Prop := {
  inv_length : length slots = length (jumps_ a);
  inv_pending : Forall (pending (code_ a)) (zip (jumps_ a) slots);
  inv_sorted : StronglySorted slot_before (zip (jumps_ a) slots);
  inv_size : Z.of_nat (length (code_ a)) < 2 ^ 31;
  inv_labels : map_Forall (fun _ p => 0 <= p <= Z.of_nat (length (code_ a))) (labels a)
}.

(** A jump can be resolved: its label is bound, in reach of the slot. *)
Definition resolvable (a : Assembler) '((j, s) : Jump * slot) : Prop :=
  is_Some (labels a !! jump_label j) /\ slot_reach s (jump_offset a j).

Definition resolved (a : Assembler) (code : list Z) '((j, s) : Jump * slot) : Prop :=
  words_at code (jump_pc j) (slot_words s (jump_offset a j)).

(** The relocations the recovery points among [l] add. *)
Definition recovery_relocations (a : Assembler) (js : list Jump) : list (Z * Z) :=
  (fun j => (jump_pc j, position a (jump_label j))) <$> filter (fun j => is_recovery j = true) js.

Definition small_labels (a : Assembler) : Prop :=
  Z.of_nat (length (code_ a)) < 2 ^ 31
  /\ map_Forall (fun _ p => 0 <= p <= Z.of_nat (length (code_ a))) (labels a).

Lemma ResolveJump_ok a j s :
  small_labels a -> pending (code_ a) (j, s) -> resolvable a (j, s) ->
  exists a', ResolveJump a j = Some a' /\ labels a' = labels a /\ jumps_ a' = jumps_ a
    /\ relocations_ a' = relocations_ a ++ recovery_relocations a [j]
    /\ resolved a (code_ a') (j, s) /\ framed (code_ a) (code_ a') (jump_pc j) (slot_size s).
Proof.
  intros [Hlen Hlab] (Hok & Hrec & Hpc & Hin & Hw) [[p Hp] Hr]; unfold ResolveJump, IsBound, position, resolved.
  assert (0 <= p <= Z.of_nat (length (code_ a))) by (eapply map_Forall_lookup_1 in Hlab; [| done]; done).
  assert (jump_offset a j = p - jump_pc j) as Ho by (unfold jump_offset, position; by rewrite Hp).
  rewrite Hp; cbn [default from_option]; unfold kInvalid, id.
  rewrite (proj2 (Z.eqb_neq _ _)) by (cbn in *; lia); cbn [negb].
  unfold recovery_relocations, position; rewrite filter_cons, filter_nil.
  assert (0 <= slot_size s) by (unfold slot_size; lia).
  destruct (is_recovery j) eqn:Hj.
  - rewrite (proj1 Hrec eq_refl) in *; eexists; split; [done |].
    rewrite decide_True by done; cbn; rewrite Hp; by split_and!.
  - assert (s <> RecoverySlot) as Hns by (intros ->; discriminate (proj2 Hrec eq_refl)).
    assert (4 <= slot_size s) by (destruct s; by cbn).
    rewrite Ho in Hr; rewrite (cast_cast i32 u32), (cast_id i32 (p - jump_pc j))
      by first [done | apply in_range_signed; [done | cbn in *; lia]].
    destruct (fill_slot (code_ a) (jump_pc j) (p - jump_pc j) Hpc ltac:(cbn in *; lia) s)
      as (code' & E & Hw' & HF); try done.
    unfold patch in E; destruct (read32 (code_ a) (jump_pc j)) as [word |]; cbn in E |- *; [| done].
    rewrite E; cbn; eexists; split; [done |].
    rewrite decide_False by done; cbn; rewrite Ho, app_nil_r; done.
Qed.

(** Words outside every slot of [l]. *)
Definition clear_of (l : list (Jump * slot)) (off : Z) : Prop :=
  Forall (fun '(j, s) => off + 4 <= jump_pc j \/ jump_pc j + slot_size s <= off) l.

Lemma slot_size_words s off : 4 * Z.of_nat (length (slot_words s off)) = slot_size s.
Proof. by destruct s. Qed.

(** Words of a region survive a change elsewhere. *)
Lemma words_at_framed code code' off n base ws :
  framed code code' off n -> 0 <= base ->
  base + 4 * Z.of_nat (length ws) <= off \/ off + n <= base ->
  words_at code base ws -> words_at code' base ws.
Proof.
  intros [_ F] Hb Hd Hw i w Hi; rewrite F; [by apply Hw | lia |].
  apply lookup_lt_Some in Hi; lia.
Qed.

Lemma pending_framed code code' j s j' s' :
  framed code code' (jump_pc j) (slot_size s) -> slot_before (j, s) (j', s') ->
  pending code (j', s') -> pending code' (j', s').
Proof.
  intros HF Hb (Hok & Hrec & Hpc & Hin & Hw); split_and!; try done.
  - by rewrite (proj1 HF).
  - eapply words_at_framed; [done | done | | done]; cbn in Hb; lia.
Qed.

Lemma ResolveJumps_list l a :
  small_labels a -> Forall (pending (code_ a)) l -> StronglySorted slot_before l ->
  Forall (resolvable a) l ->
  exists a', foldl (fun acc j => a ← acc; ResolveJump a j) (Some a) l.*1 = Some a'
    /\ labels a' = labels a /\ jumps_ a' = jumps_ a
    /\ relocations_ a' = relocations_ a ++ recovery_relocations a l.*1
    /\ Forall (resolved a (code_ a')) l
    /\ length (code_ a') = length (code_ a)
    /\ forall off, 0 <= off -> clear_of l off -> read32 (code_ a') off = read32 (code_ a) off.
Proof.
  revert a; induction l as [| [j s] l IH]; intros a Hs Hp Ho Hr; cbn.
  { exists a; rewrite app_nil_r; by split_and!. }
  inversion Hp as [| ? ? Hp1 Hp2]; inversion Ho as [| ? ? Ho2 Ho1]; inversion Hr as [| ? ? Hr1 Hr2]; subst.
  destruct (ResolveJump_ok a j s Hs Hp1 Hr1) as (a1 & -> & EL & EJ & ER & Hres & HF).
  assert (forall j, position a1 j = position a j) as EP by (intros; unfold position; by rewrite EL).
  destruct (IH a1) as (a2 & E & EL2 & EJ2 & ER2 & Hres2 & HL2 & HF2).
  - unfold small_labels; by rewrite EL, (proj1 HF).
  - rewrite Forall_forall in *; intros [j' s'] Hin.
    apply (pending_framed (code_ a) _ j s); auto.
  - done.
  - eapply Forall_impl; [done |]; intros [j' s']; unfold resolvable, jump_offset; by rewrite EL, EP.
  - exists a2; rewrite EL2, EJ2, EL, EJ; split_and!; try done.
    + rewrite ER2, ER, <- app_assoc; f_equal; unfold recovery_relocations.
      rewrite !filter_cons, filter_nil; destruct (decide _); cbn; [f_equal |];
        apply list_fmap_ext; intros; by rewrite EP.
    + constructor.
      * intros i w Hi; rewrite HF2; [by apply Hres | destruct Hp1 as (_ & _ & ? & _); lia |].
        unfold clear_of; rewrite Forall_forall in Ho1 |- *; intros [j' s'] Hin; specialize (Ho1 _ Hin); cbn in Ho1.
        apply lookup_lt_Some in Hi; pose proof (slot_size_words s (jump_offset a j)); lia.
      * eapply Forall_impl; [done |]; intros [j' s']; unfold resolved, jump_offset; by rewrite EP.
    + by rewrite HL2, (proj1 HF).
    + intros off Hoff [Hc1 Hc2]%Forall_cons; by rewrite HF2, (proj2 HF) by done.
Qed.

(** ** What a filled slot means

    A jump or a branch to the offset, as the decoder reads it; or an [auipc] of
    [hi] followed by the instruction of the slot with the immediate [lo], the two
    adding up to the offset: modulo 2^32, and exactly for offsets below
    2^31 - 2^11 (the upper part of a larger one does not fit). *)
Definition adds_up (hi lo offset : Z) : Prop :=
  (hi + lo) mod 2 ^ 32 = offset mod 2 ^ 32 /\ (offset < 2 ^ 31 - 2 ^ 11 -> hi + lo = offset).

Definition slot_targets (s : slot) (offset : Z) (ws : list Z) : Prop :=
  match s with
  | JalSlot rd =>
      exists w, ws = [w] /\ Decode (parcels w) = Some ([JumpAndLink (JumpAndLinkArgs.mk rd offset 4)], 4)
  | BranchSlot c rs1 rs2 =>
      exists w, ws = [w]
      /\ Decode (parcels w) = Some ([CompareAndBranch (BranchArgs.mk (bits c 12 3) rs1 rs2 offset)], 4)
  | PairISlot c rd rt =>
      exists w1 w2 hi, ws = [w1; w2] /\ Decode (parcels w1) = Some ([Auipc (UpperImmArgs.mk rt hi)], 4)
      /\ bits w2 0 7 = bits c 0 7 /\ bits w2 7 5 = rd /\ bits w2 12 3 = bits c 12 3 /\ bits w2 15 5 = rt
      /\ adds_up hi (SignExtend 12 (bits w2 20 12)) offset
  | PairSSlot c data rt =>
      exists w1 w2 hi, ws = [w1; w2] /\ Decode (parcels w1) = Some ([Auipc (UpperImmArgs.mk rt hi)], 4)
      /\ bits w2 0 7 = bits c 0 7 /\ bits w2 12 3 = bits c 12 3 /\ bits w2 15 5 = rt /\ bits w2 20 5 = data
      /\ adds_up hi (SignExtend 12 (Z.lor (bits w2 7 5) (Z.shiftl (bits w2 25 7) 5))) offset
  | RecoverySlot => ws = []
  end.

Lemma offset_adds_up o : sfits 32 o -> adds_up (offset_top o) (offset_bottom o) o.
Proof.
  intros Ho; split; [| by apply offset_parts]; rewrite offset_top_spec.
  change (2 ^ 32) with (2 ^ width i32); rewrite Zplus_mod, cast_mod by done; rewrite <- Zplus_mod; f_equal; lia.
Qed.

Lemma slot_words_target s off :
  slot_ok s -> slot_reach s off -> slot_targets s off (slot_words s off).
Proof.
  intros Hok Hr; pose proof (offset_bottom_range off) as Hb; pose proof (offset_top_range off) as [? ?].
  destruct s as [rd | c rs1 rs2 | c rd rt | c data rt |]; cbn [slot_targets slot_words]; [| | | | done].
  - eexists; split; [done |]; destruct Hr; by apply decode_JType.
  - eexists; split; [done |]; destruct Hr, Hok as (Hc & ? & ?).
    destruct (BType_opcode c Hc) as (Hcl & _ & _ & H32 & H7).
    apply decode_BType; try done.
    + by rewrite (bits_low2 c 0x63).
    + change (bits c 2 5) with (bits c (0 + 2) 5); rewrite <- (bits_bits c 0 7 2 5), H7 by lia; done.
  - destruct Hok as (Hc & Hrd & Hrt); eexists _, _, (offset_top off); split; [done |].
    pose proof (table_forall (fun c => clear c [(7, 5); (15, 5); (20, 12)]) IPair_insns c eq_refl Hc) as Hcl.
    pose proof (IType_fields rd rt Hrd Hrt c (offset_bottom off) Hcl) as (F0 & _ & F1 & F2 & F3 & F4).
    split_and!; try done; [apply decode_UType; try done; by right |].
    rewrite F4, SignExtend_bits by done; by apply offset_adds_up.
  - destruct Hok as (Hc & Hrs & Hrt); eexists _, _, (offset_top off); split; [done |].
    pose proof (table_forall (fun c => clear c [(7, 5); (15, 5); (20, 5); (25, 7)]) SPair_insns c eq_refl Hc) as Hcl.
    pose proof (SType_fields rt data Hrt Hrs c (offset_bottom off) Hcl) as (F0 & _ & F1 & F2 & F3 & F4 & F5).
    split_and!; try done; [apply decode_UType; try done; by right |].
    rewrite F1, F5; change (bits (offset_bottom off) 5 7) with (bits (offset_bottom off) (0 + 5) 7).
    rewrite bits_concat, SignExtend_bits by (done || lia); by apply offset_adds_up.
Qed.

(** C23: resolving labels.  From an assembler whose invariant holds, with every
    label bound and in reach of the instruction that names it, [ResolveJumps]
    succeeds; every slot then holds an instruction that the decoder reads as a
    jump or branch by the distance to its label, or a pair of instructions whose
    two immediates add up to that distance (exactly when it is below
    2^31 - 2^11, modulo 2^32 otherwise); every word outside the slots is
    unchanged, and the recovery points become relocations from their pc to their
    label. *)
Theorem ResolveJumps_correct a slots :
  asm_inv a slots -> Forall (resolvable a) (zip (jumps_ a) slots) ->
  exists a', ResolveJumps a = Some a'
    /\ labels a' = labels a
    /\ relocations_ a' = relocations_ a ++ recovery_relocations a (jumps_ a)
    /\ Forall (fun '(j, s) => exists ws, words_at (code_ a') (jump_pc j) ws
         /\ slot_targets s (position a (jump_label j) - jump_pc j) ws) (zip (jumps_ a) slots)
    /\ length (code_ a') = length (code_ a)
    /\ forall off, 0 <= off -> clear_of (zip (jumps_ a) slots) off ->
       read32 (code_ a') off = read32 (code_ a) off.
Proof.
  intros [HL Hp Hs Hsz Hlab] Hr; unfold ResolveJumps.
  destruct (ResolveJumps_list (zip (jumps_ a) slots) a) as (a' & E & EL & EJ & ER & Hw & H); try done.
  rewrite fst_zip in E, ER by lia; exists a'; split_and!; try done; try apply H.
  rewrite Forall_forall in *; intros [j s] Hin; exists (slot_words s (jump_offset a j)).
  split; [exact (Hw _ Hin) |]; apply slot_words_target; [apply (Hp _ Hin) | apply (Hr _ Hin)].
Qed.

(** ** Every program keeps the invariant *)

Lemma read32_app_l code x off w :
  0 <= off -> read32 code off = Some w -> read32 (code ++ x) off = Some w.
Proof.
  intros Hoff H; pose proof (read32_Some _ _ _ H); rewrite <- H; unfold read32.
  rewrite drop_app_le by lia; rewrite take_app_le by (rewrite length_drop; lia); done.
Qed.

Lemma read32_app_r code w x :
  read32 (code ++ le_split 4 (cast i32 w) ++ x) (Z.of_nat (length code)) = Some (cast i32 w).
Proof.
  unfold read32; rewrite Nat2Z.id, drop_app_length, take_app_length' by (by rewrite length_le_split).
  rewrite length_le_split; cbn [Nat.eqb]; rewrite le_combine_split; f_equal.
  apply cast_congr; [done |]; cbn [width i32]; change (8 * Z.of_nat 4) with 32.
  rewrite Z.mod_mod by lia; by apply (cast_mod i32).
Qed.

(** Emitting several words. *)
Definition Emit32s (ws : list Z) (a : Assembler) : Assembler := foldl (fun a w => Emit32 w a) a ws.

Lemma Emit32s_spec ws a :
  exists x, code_ (Emit32s ws a) = code_ a ++ x
    /\ Z.of_nat (length x) = 4 * Z.of_nat (length ws)
    /\ relocations_ (Emit32s ws a) = relocations_ a /\ jumps_ (Emit32s ws a) = jumps_ a
    /\ labels (Emit32s ws a) = labels a
    /\ words_at (code_ (Emit32s ws a)) (Z.of_nat (length (code_ a))) ws.
Proof.
  revert a; induction ws as [| w ws IH]; intros a; unfold Emit32s; cbn.
  { exists []; by rewrite app_nil_r. }
  destruct (IH (Emit32 w a)) as (x & E & EL & ER & EJ & ELab & HW); cbn [Emit32 code_] in E, HW.
  exists (le_split 4 (cast i32 w) ++ x); fold (Emit32s ws (Emit32 w a)) in *.
  rewrite E, ER, EJ, ELab, <- app_assoc, length_app, length_le_split; cbn; split_and!; try done; [lia |].
  intros [| i] w' Hi; cbn in Hi.
  - injection Hi as <-; rewrite Z.add_0_r; apply read32_app_r.
  - specialize (HW i w' Hi); rewrite E, <- app_assoc, length_app, length_le_split in HW.
    rewrite <- HW; f_equal; lia.
Qed.

Lemma pending_app code x p : pending code p -> pending (code ++ x) p.
Proof.
  destruct p as [j s]; intros (Hok & Hrec & Hpc & Hin & Hw); split_and!; try done.
  - rewrite length_app; lia.
  - intros i w Hi; apply read32_app_l; [lia | by apply Hw].
Qed.

Lemma pc_length a : Z.of_nat (length (code_ a)) < 2 ^ 32 -> pc a = Z.of_nat (length (code_ a)).
Proof. intros H; apply cast_id; [done |]; apply in_range_unsigned; [done |]; cbn in *; lia. Qed.

(** Emitting words beside the slots. *)
Lemma asm_inv_emit a slots ws :
  asm_inv a slots -> Z.of_nat (length (code_ (Emit32s ws a))) < 2 ^ 31 ->
  asm_inv (Emit32s ws a) slots.
Proof.
  intros [HL Hp Hs Hsz Hlab] Hlen; destruct (Emit32s_spec ws a) as (x & E & EL & ER & EJ & ELab & HW).
  split; rewrite ?EJ, ?ELab; try done.
  - eapply Forall_impl; [done |]; intros p; rewrite E; by apply pending_app.
  - intros l p Hl; specialize (Hlab l p Hl); rewrite E, length_app; cbn in *; lia.
Qed.

(** Recording a jump and emitting its slot. *)
Lemma asm_inv_slot a slots label recovery s :
  asm_inv a slots -> slot_ok s -> (recovery = true <-> s = RecoverySlot) ->
  let a' := Emit32s (slot_words s 0) (push_jump label recovery a) in
  Z.of_nat (length (code_ a')) < 2 ^ 31 -> asm_inv a' (slots ++ [s]).
Proof.
  intros [HL Hp Hs Hsz Hlab] Hok Hrec a' Hlen.
  destruct (Emit32s_spec (slot_words s 0) (push_jump label recovery a))
    as (x & E & EL & ER & EJ & ELab & HW); fold a' in E, ER, EJ, ELab, HW.
  cbn in E, EJ, ELab, HW; rewrite pc_length in EJ by (cbn in *; lia).
  set (j := mkJump label (Z.of_nat (length (code_ a))) recovery) in EJ.
  assert (zip (jumps_ a') (slots ++ [s]) = zip (jumps_ a) slots ++ [(j, s)]) as EZ.
  { rewrite EJ, zip_with_app by (symmetry; exact HL); done. }
  split; rewrite ?EZ, ?ELab; try done.
  - rewrite EJ, !length_app, HL; done.
  - apply Forall_app; split; [| apply Forall_singleton].
    + eapply Forall_impl; [done |]; intros p; rewrite E; by apply pending_app.
    + split_and!; cbn; try done; [lia |]; rewrite E, length_app; unfold slot_size; lia.
  - apply StronglySorted_app_2; [| done | repeat constructor].
    intros [j1 s1] [j2 s2] H1 H2; apply list_elem_of_singleton in H2 as [= -> ->].
    rewrite Forall_forall in Hp; destruct (Hp _ H1) as (_ & _ & _ & Hin & _); cbn; lia.
  - intros l p Hl; specialize (Hlab l p Hl); rewrite E, length_app; cbn in *; lia.
Qed.

(** The operations of the assembler, as a program. *)
Inductive asm_op :=
  | OpEmit (w : Z)
  | OpBind (label : nat)
  | OpRecovery (label : nat)
  | OpJal (rd : Z) (label : nat)
  | OpBranch (kOpcode rs1 rs2 : Z) (label : nat)
  | OpBcc (cc : Condition.t) (rs1 rs2 : Z) (label : nat)
  | OpLoad (kOpcode rd : Z) (label : nat)
  | OpLd (rd : Z) (label : nat)
  | OpLwu (rd : Z) (label : nat)
  | OpSd (data : Z) (label : nat) (arg2 : Z)
  | OpLoadFp (kOpcode rd : Z) (label : nat) (arg2 : Z)
  | OpStore (kOpcode data : Z) (label : nat) (arg2 : Z)
  | OpLa (rd : Z) (label : nat)
  | OpCall (label : nat)
  | OpTail (label : nat).

Definition run_op (o : asm_op) (a : Assembler) : option Assembler :=
  match o with
  | OpEmit w => Some (Emit32 w a)
  | OpBind label => Bind label a
  | OpRecovery label => Some (SetRecoveryPoint label a)
  | OpJal rd label => Some (Jal_label rd label a)
  | OpBranch c rs1 rs2 label => Some (Branch_label c rs1 rs2 label a)
  | OpBcc cc rs1 rs2 label => Bcc_label cc rs1 rs2 label a
  | OpLoad c rd label => Load_label c rd label a
  | OpLd rd label => Some (Ld_label rd label a)
  | OpLwu rd label => Some (Lwu_label rd label a)
  | OpSd data label arg2 => Some (Sd_label data label arg2 a)
  | OpLoadFp c rd label arg2 => LoadFp_label c rd label arg2 a
  | OpStore c data label arg2 => Store_label c data label arg2 a
  | OpLa rd label => La rd label a
  | OpCall label => Some (Call label a)
  | OpTail label => Some (Tail label a)
  end.

Definition empty_assembler : Assembler := mkAssembler [] [] [] ∅.
Definition run_ops (ops : list asm_op) : option Assembler :=
  foldl (fun acc o => a ← acc; run_op o a) (Some empty_assembler) ops.

(** The slot an operation leaves, if any. *)
Definition op_slot (o : asm_op) : option slot :=
  match o with
  | OpEmit _ | OpBind _ => None
  | OpRecovery _ => Some RecoverySlot
  | OpJal rd _ => Some (JalSlot rd)
  | OpBranch c rs1 rs2 _ => Some (BranchSlot c rs1 rs2)
  | OpBcc Condition.kNever _ _ _ => None
  | OpBcc Condition.kAlways _ _ _ => Some (JalSlot 0)
  | OpBcc cc rs1 rs2 _ => Some (BranchSlot (Z.lor 0x63 (cast u32 (Cond (Condition.to_bits cc)))) rs1 rs2)
  | OpLoad c rd _ => Some (PairISlot c rd rd)
  | OpLd rd _ => Some (PairISlot 0x3003 rd rd)
  | OpLwu rd _ => Some (PairISlot 0x6003 rd rd)
  | OpSd data _ rt => Some (PairSSlot 0x3023 data rt)
  | OpLoadFp c rd _ rt => Some (PairISlot c rd rt)
  | OpStore c data _ rt => Some (PairSSlot c data rt)
  | OpLa rd _ => Some (PairISlot 0x13 rd rd)
  | OpCall _ => Some (PairISlot 0x67 1 6)
  | OpTail _ => Some (PairISlot 0x67 0 6)
  end.

(** Operands come from the register files and the opcode tables. *)
Definition op_ok (o : asm_op) : Prop :=
  match o with
  | OpEmit _ | OpBind _ | OpRecovery _ | OpCall _ | OpTail _ => True
  | OpJal rd _ | OpLa rd _ | OpLd rd _ | OpLwu rd _ => fits 5 rd
  | OpSd data _ rt => fits 5 data /\ fits 5 rt
  | OpBranch c rs1 rs2 _ => c ∈ BType_insns.*2 /\ fits 5 rs1 /\ fits 5 rs2
  | OpBcc _ rs1 rs2 _ => fits 5 rs1 /\ fits 5 rs2
  | OpLoad c rd _ => c ∈ Load_insns.*2 /\ fits 5 rd
  | OpLoadFp c rd _ rt => c ∈ LoadFp_insns.*2 /\ fits 5 rd /\ fits 5 rt
  | OpStore c data _ rt => c ∈ (Store_insns ++ StoreFp_insns).*2 /\ fits 5 data /\ fits 5 rt
  end.

Definition op_label (o : asm_op) : nat :=
  match o with
  | OpEmit _ => 0
  | OpBind l | OpRecovery l | OpJal _ l | OpBranch _ _ _ l | OpBcc _ _ _ l | OpLoad _ _ l
  | OpLd _ l | OpLwu _ l | OpSd _ l _
  | OpLoadFp _ _ l _ | OpStore _ _ l _ | OpLa _ l | OpCall l | OpTail l => l
  end%nat.
Definition op_recovery (o : asm_op) : bool := if o is OpRecovery _ then true else false.

(** An operation with a slot records a jump and emits the slot unfilled. *)
Lemma run_op_slot o a a' s :
  run_op o a = Some a' -> op_slot o = Some s ->
  a' = Emit32s (slot_words s 0) (push_jump (op_label o) (op_recovery o) a).
Proof.
  destruct o; cbn [run_op op_slot op_label op_recovery];
    unfold Load_label, LoadFp_label, Store_label, La, Load_label, Bcc_label, Ld_label, Lwu_label, Sd_label;
    repeat case_match; intros; simplify_eq; try done.
  all: unfold Jal_label, SetRecoveryPoint, Emit32s; cbn [slot_words foldl]; try done.
  all: unfold EmitJTypeInstruction, EmitBTypeInstruction, EmitInstruction; cbn [fold_left];
    change (JImmediate_MakeRaw 0) with 0; change (BImmediate_MakeRaw 0) with 0;
    change (cast u32 0) with 0; by rewrite ?Z.lor_0_r.
Qed.

Lemma op_slot_ok o a a' s :
  op_ok o -> run_op o a = Some a' -> op_slot o = Some s ->
  slot_ok s /\ (op_recovery o = true <-> s = RecoverySlot).
Proof.
  assert (forall z, z ∈ Load_insns.*2 -> z ∈ (IType_insns ++ Load_insns ++ LoadFp_insns).*2) as Hmid.
  { intros z Hz; rewrite !fmap_app, !elem_of_app; auto. }
  assert (forall z, z ∈ LoadFp_insns.*2 -> z ∈ (IType_insns ++ Load_insns ++ LoadFp_insns).*2) as Hend.
  { intros z Hz; rewrite !fmap_app, !elem_of_app; auto. }
  assert (Forall (fun z => z ∈ (IType_insns ++ Load_insns ++ LoadFp_insns).*2) [0x13; 0x67; 0x3003; 0x6003]
          /\ 0x3023 ∈ (Store_insns ++ StoreFp_insns).*2) as [HI HS].
  { split; [repeat constructor; apply list_elem_of_In; cbn; tauto | apply list_elem_of_In; cbn; tauto]. }
  rewrite !Forall_cons in HI; destruct HI as (H13 & H67 & Hld & Hlwu & _).
  assert (fits 5 0 /\ fits 5 1 /\ fits 5 6) as (? & ? & ?) by (unfold fits; cbn; lia).
  intros Hok Hrun Hs; split; [| destruct o; cbn in Hs; repeat case_match; by simplify_eq].
  destruct o as [| | | | | cc | | | | | | | | |]; cbn in Hok, Hs; simplify_eq; cbn; try (by destruct_and?; auto).
  cbn in Hrun; destruct cc; cbn in Hs, Hrun; simplify_eq; try done;
    (split; [apply list_elem_of_In; vm_compute; tauto | done]).
Qed.

Lemma run_op_inv o a a' slots :
  op_ok o -> run_op o a = Some a' -> asm_inv a slots -> Z.of_nat (length (code_ a')) < 2 ^ 31 ->
  asm_inv a' (slots ++ option_list (op_slot o)).
Proof.
  intros Hok Hrun Hinv Hlen; destruct (op_slot o) as [s |] eqn:Hs.
  - destruct (op_slot_ok o a a' s Hok Hrun Hs) as [Hs1 Hs2]; cbn [option_list].
    pose proof (run_op_slot o a a' s Hrun Hs) as ->; by apply asm_inv_slot.
  - cbn [option_list]; rewrite app_nil_r; destruct o as [w | l | | | | cc | | | | | | | | |]; cbn in Hs, Hrun; try done.
    + injection Hrun as <-; by apply (asm_inv_emit a slots [w]).
    + unfold Bind in Hrun; case_match; [done |]; injection Hrun as <-.
      destruct Hinv as [HL Hp Hsrt Hsz Hlab]; split; try done; cbn.
      intros l' p; rewrite lookup_insert_Some; intros [[<- <-] | [_ Hl]]; [| by apply (Hlab l')].
      rewrite pc_length by (cbn in *; lia); lia.
    + by destruct cc; cbn in Hs, Hrun; simplify_eq.
Qed.

Lemma run_op_grows o a a' : run_op o a = Some a' -> (length (code_ a) <= length (code_ a'))%nat.
Proof.
  intros Hrun; destruct (op_slot o) as [s |] eqn:Hs.
  - rewrite (run_op_slot o a a' s Hrun Hs).
    destruct (Emit32s_spec (slot_words s 0) (push_jump (op_label o) (op_recovery o) a)) as (x & -> & _).
    rewrite length_app; cbn; lia.
  - destruct o as [w | l | | | | cc | | | | | | | | |]; cbn in Hs, Hrun; try done.
    + injection Hrun as <-; cbn; rewrite length_app; lia.
    + unfold Bind in Hrun; case_match; by simplify_eq.
    + destruct cc; cbn in Hs, Hrun; by simplify_eq.
Qed.

Lemma run_ops_inv ops a :
  Forall op_ok ops -> run_ops ops = Some a -> Z.of_nat (length (code_ a)) < 2 ^ 31 ->
  asm_inv a (omap op_slot ops).
Proof.
  revert a; induction ops as [| o ops IH] using rev_ind; intros a Hok Hrun Hlen.
  { injection Hrun as <-; split;
      [done | apply Forall_nil_2 | apply SSorted_nil | done | apply map_Forall_empty]. }
  unfold run_ops in Hrun; rewrite foldl_app in Hrun; cbn in Hrun; fold (run_ops ops) in Hrun.
  destruct (run_ops ops) as [a0 |]; [| done]; cbn in Hrun.
  apply Forall_app in Hok as [Hok Ho]; rewrite Forall_singleton in Ho.
  pose proof (run_op_grows o a0 a Hrun).
  rewrite omap_app; cbn [omap list_omap].
  replace (match op_slot o with Some y => [y] | None => [] end) with (option_list (op_slot o))
    by by destruct (op_slot o).
  apply (run_op_inv o a0 a); auto with lia.
Qed.

(** C32: the label invariant is an invariant of the whole assembler: after any
    program of its operations (plain instructions, [Bind], recovery points,
    jumps, branches, [Bcc], loads and stores of labels, [La], [Call], [Tail])
    that passes the assembler's own checks and stays below 2 GB, every recorded
    jump points at the unfilled instruction it was recorded for, inside the
    buffer, the slots do not overlap, and labels are positions of the buffer. *)
Theorem assembler_invariant ops a :
  Forall op_ok ops -> run_ops ops = Some a -> Z.of_nat (length (code_ a)) < 2 ^ 31 ->
  asm_inv a (omap op_slot ops).
Proof. apply run_ops_inv. Qed.

(** A loop with a forward and a backward branch, a call and a recovery point. *)
Definition sample_program : list asm_op :=
  [OpBind 0; OpEmit 0x13; OpBranch 0x63 5 6 1; OpRecovery 1; OpBcc Condition.kAboveEqual 7 8 0;
   OpCall 1; OpStore 0x3023 10 0 5; OpJal 0 0; OpBind 1].
Definition sample_assembler : Assembler :=
  Eval vm_compute in (default empty_assembler (run_ops sample_program)).

Lemma sample_ok : Forall op_ok sample_program.
Proof.
  repeat constructor; cbn; unfold fits; try lia; cbn; try lia.
Qed.

Lemma assembler_invariant_witness :
  (length sample_program = 9)%nat /\ asm_inv sample_assembler (omap op_slot sample_program).
Proof.
  split; [reflexivity |].
  apply (assembler_invariant sample_program); [exact sample_ok | vm_compute; reflexivity | vm_compute; reflexivity].
Defined.

Lemma sample_resolvable :
  Forall (resolvable sample_assembler) (zip (jumps_ sample_assembler) (omap op_slot sample_program)).
Proof.
  cbn; repeat constructor; unfold jump_offset, position; vm_compute; try congruence; eauto.
Qed.

Lemma ResolveJumps_correct_witness :
  exists a', ResolveJumps sample_assembler = Some a' /\ labels a' = labels sample_assembler
    /\ length (code_ a') = length (code_ sample_assembler).
Proof.
  destruct (ResolveJumps_correct sample_assembler (omap op_slot sample_program))
    as (a' & H1 & H2 & _ & _ & H3 & _).
  - apply run_ops_inv; [exact sample_ok | vm_compute; reflexivity | vm_compute; reflexivity].
  - exact sample_resolvable.
  - exists a'; auto.
Defined.

(** [ResolveJumps] never fills a slot wrongly: a jump whose label is not
    bound, or is bound out of reach of its instruction (too far, or at an odd
    distance), is a failed check. *)
Theorem ResolveJump_rejects a slots j s :
  asm_inv a slots -> (j, s) ∈ zip (jumps_ a) slots -> ~ resolvable a (j, s) -> is_recovery j = false ->
  ResolveJump a j = None.
Proof.
  intros [_ Hp _ Hlen Hlab] Hin Hnr Hrec; rewrite Forall_forall in Hp; destruct (Hp _ Hin) as (Hok & Hj & Hpc & Hi & Hw).
  unfold ResolveJump, IsBound, position; destruct (labels a !! jump_label j) as [p |] eqn:Ep; [| done].
  assert (0 <= p <= Z.of_nat (length (code_ a))) by (eapply map_Forall_lookup_1 in Hlab; [| done]; done).
  assert (jump_offset a j = p - jump_pc j) as Ho by (unfold jump_offset, position; by rewrite Ep).
  cbn [default from_option]; unfold kInvalid, id; rewrite Hrec.
  rewrite (proj2 (Z.eqb_neq _ _)) by (cbn in *; lia); cbn [negb].
  assert (0 <= slot_size s) by (unfold slot_size; lia).
  assert (sfits 32 (p - jump_pc j)) as Hs32 by (unfold sfits; cbn in *; lia).
  rewrite (cast_cast i32 u32), (cast_id i32 (p - jump_pc j))
    by first [done | by apply in_range_signed].
  assert (~ slot_reach s (p - jump_pc j)) as Hnr' by (intros Hr; apply Hnr; split; [by eexists | by rewrite Ho]).
  destruct s as [rd | c rs1 rs2 | | |]; try done.
  - pose proof (Hw 0%nat _ eq_refl) as W0; rewrite Z.add_0_r in W0; rewrite W0; cbn [mbind option_bind].
    pose proof (JType_fields rd Hok 0x6f 0 eq_refl) as (F0 & _).
    rewrite !(land_opcode _ 0x6f) by (done || lia); cbn [Z.land Z.eqb negb Pos.land].
    unfold ProcessLabel, MakeJImmediate, MakeImmediate.
    destruct (JImmediate_AccetableValue i32 (p - jump_pc j)) eqn:E; [| done].
    exfalso; apply Hnr'; apply accept_J in E; [| exact source_i32 | by apply in_range_signed]; by destruct E.
  - pose proof (Hw 0%nat _ eq_refl) as W0; rewrite Z.add_0_r in W0; rewrite W0; cbn [mbind option_bind].
    destruct Hok as (Hc & H1 & H2).
    destruct (BType_opcode c Hc) as (Hcl & H16 & H4 & _).
    pose proof (BType_fields rs1 rs2 H1 H2 c 0 Hcl eq_refl) as (F0 & _).
    rewrite !(land_opcode _ c), H16, H4 by (done || lia); cbn [Z.eqb negb].
    unfold ProcessLabel, MakeBImmediate, MakeImmediate.
    destruct (BImmediate_AccetableValue i32 (p - jump_pc j)) eqn:E; [| done].
    exfalso; apply Hnr'; apply accept_B in E; [| exact source_i32 | by apply in_range_signed]; by destruct E.
Qed.

(** A branch to a label that is never bound. *)
Definition unbound_program : list asm_op := [OpBranch 0x63 5 6 7].
Definition unbound_assembler : Assembler :=
  Eval vm_compute in (default empty_assembler (run_ops unbound_program)).

Lemma ResolveJump_rejects_witness :
  run_ops unbound_program = Some unbound_assembler
  /\ ResolveJump unbound_assembler (mkJump 7 0 false) = None.
Proof.
  split; [vm_compute; reflexivity |].
  apply (ResolveJump_rejects unbound_assembler [BranchSlot 0x63 5 6] _ (BranchSlot 0x63 5 6)).
  - apply (run_ops_inv unbound_program); [| vm_compute; reflexivity | vm_compute; reflexivity].
    repeat constructor; cbn; unfold fits; cbn; lia.
  - left.
  - intros [[p Hp] _]; discriminate Hp.
  - reflexivity.
Defined.
