(* ===== verification/RiscvCompressed.v ===== *)
(** * Compressed instructions and their expansions

    A 16-bit instruction of the C extension stands for one 32-bit instruction.
    The decoder does not expand it: it reads the scattered immediates with
    small tables and calls its consumer directly.  Here the expansion is
    written down, bit permutation by bit permutation, as the instruction word
    the assembler emits; the decoder makes the same calls for a compressed
    instruction as for its expansion. *)
From stdpp Require Import strings.
From S2P Require Import Prelude MachineInt BitUtil RiscvInsn RiscvDecoder RiscvAssembler.
From S2P Require Import RiscvDecoderProps RiscvAssemblerProps RiscvRoundTrip.
#[local] Open Scope Z_scope.

(** ** The immediates of the compressed formats *)

(** [imm_bits code l]: bit [src] of [code] goes to bit [dst], for the pairs of
    [l]. *)
Definition imm_bits (code : Z) (l : list (Z * Z)) : Z :=
  foldr (fun '(src, dst) acc => Z.lor (Z.shiftl (bits code src 1) dst) acc) 0 l.

Definition ci_imm := [(12, 5); (6, 4); (5, 3); (4, 2); (3, 1); (2, 0)].
Definition addi4spn_imm := [(12, 5); (11, 4); (10, 9); (9, 8); (8, 7); (7, 6); (6, 2); (5, 3)].
Definition addi16sp_imm := [(12, 9); (6, 4); (5, 6); (4, 8); (3, 7); (2, 5)].
Definition lw_imm := [(12, 5); (11, 4); (10, 3); (6, 2); (5, 6)].
Definition ld_imm := [(12, 5); (11, 4); (10, 3); (6, 7); (5, 6)].
Definition lwsp_imm := [(12, 5); (6, 4); (5, 3); (4, 2); (3, 7); (2, 6)].
Definition ldsp_imm := [(12, 5); (6, 4); (5, 3); (4, 8); (3, 7); (2, 6)].
Definition swsp_imm := [(12, 5); (11, 4); (10, 3); (9, 2); (8, 7); (7, 6)].
Definition sdsp_imm := [(12, 5); (11, 4); (10, 3); (9, 8); (8, 7); (7, 6)].
Definition branch_imm := [(12, 8); (11, 4); (10, 3); (6, 7); (5, 6); (4, 2); (3, 1); (2, 5)].
Definition jump_imm :=
  [(12, 11); (11, 4); (10, 9); (9, 8); (8, 10); (7, 6); (6, 7); (5, 3); (4, 2); (3, 1); (2, 5)].

(** A bit of the code is a bit of the field it lies in. *)
Lemma bit_of_field code lo n src :
  0 <= lo -> lo <= src -> src + 1 <= lo + n ->
  bits code src 1 = bits (bits code lo n) (src - lo) 1.
Proof. intros; rewrite bits_bits by lia; f_equal; lia. Qed.

(** Compares a table-driven immediate with its bit permutation on every value
    of the two fields it is made of. *)
Lemma two_fields (n1 n2 : nat) (f g : Z -> Z -> Z) code lo1 lo2 :
  forall_bits n1 0 (fun x => forall_bits n2 0 (fun y => f x y =? g x y)) = true ->
  f (bits code lo1 (Z.of_nat n1)) (bits code lo2 (Z.of_nat n2))
  = g (bits code lo1 (Z.of_nat n1)) (bits code lo2 (Z.of_nat n2)).
Proof.
  intros H; apply Z.eqb_eq.
  assert (forall lo n, 0 <= bits code lo (Z.of_nat n) < 0 + 2 ^ Z.of_nat n) as Hr
    by (intros lo n; rewrite Z.add_0_l; apply bits_range; lia).
  exact (forall_bits_spec n2 0 _ (forall_bits_spec n1 0 _ H _ (Hr lo1 n1)) _ (Hr lo2 n2)).
Qed.

Ltac field_bit code lo n s :=
  lazymatch n with
  | 1 => fail
  | _ => rewrite (bit_of_field code lo n s) by lia
  end.
Ltac by_fields code lo1 n1 lo2 n2 :=
  rewrite !GetBits_bits by lia; cbn [imm_bits foldr];
  repeat match goal with
         | |- context [bits code ?s 1] =>
             first [field_bit code lo1 n1 s | field_bit code lo2 n2 s]
         end;
  let m1 := eval vm_compute in (Z.to_nat n1) in let m2 := eval vm_compute in (Z.to_nat n2) in
  match goal with
  | |- ?l = ?r =>
      let f := eval pattern (bits code lo1 n1), (bits code lo2 n2) in l in
      let g := eval pattern (bits code lo1 n1), (bits code lo2 n2) in r in
      match f with ?f' _ _ => match g with ?g' _ _ =>
        apply (two_fields m1 m2 f' g' code lo1 lo2); vm_compute; reflexivity end end
  end.

Section Immediates.
Context (code : Z).

Lemma ci_imm_lor :
  cast i8 (SignExtend 6 (Z.lor (Z.shiftl (GetBits code 12 1) 5) (GetBits code 2 5)))
  = SignExtend 6 (imm_bits code ci_imm).
Proof. unfold ci_imm; by_fields code 12 1 2 5. Qed.

Lemma ci_imm_add :
  cast i8 (SignExtend 6 (Z.shiftl (GetBits code 12 1) 5 + GetBits code 2 5))
  = SignExtend 6 (imm_bits code ci_imm).
Proof. unfold ci_imm; by_fields code 12 1 2 5. Qed.

Lemma ci_shamt :
  cast u8 (Z.shiftl (GetBits code 12 1) 5 + GetBits code 2 5) = imm_bits code ci_imm.
Proof. unfold ci_imm; by_fields code 12 1 2 5. Qed.

Lemma jump_imm_tables :
  Z.lor (cast i16 (table kJHigh (GetBits code 8 5))) (table kJLow (GetBits code 2 6))
  = SignExtend 12 (imm_bits code jump_imm).
Proof. unfold jump_imm; by_fields code 8 5 2 6. Qed.

Lemma branch_imm_tables :
  cast i16 (SignExtend 9 (table kBHigh (GetBits code 10 3) + table kBLow (GetBits code 2 5)))
  = SignExtend 9 (imm_bits code branch_imm).
Proof. unfold branch_imm; by_fields code 10 3 2 5. Qed.

Lemma addi4spn_imm_tables :
  cast i16 (Z.shiftl (Z.lor (table kAddi4spnHigh (GetBits code 9 4))
                            (table kAddi4spnLow (GetBits code 5 4))) 2)
  = imm_bits code addi4spn_imm.
Proof. unfold addi4spn_imm; by_fields code 9 4 5 4. Qed.

Lemma addi16sp_imm_tables :
  cast i16 (SignExtend 10 (Z.shiftl (GetBits code 12 1) 9
                           + Z.shiftl (table kAddi16spLow (GetBits code 2 5)) 2))
  = SignExtend 10 (imm_bits code addi16sp_imm).
Proof. unfold addi16sp_imm; by_fields code 12 1 2 5. Qed.

Lemma lui_imm_bits :
  SignExtend 18 (Z.shiftl (GetBits code 12 1) 17 + Z.shiftl (GetBits code 2 5) 12)
  = SignExtend 6 (imm_bits code ci_imm) * 2 ^ 12.
Proof. unfold ci_imm; by_fields code 12 1 2 5. Qed.

Lemma lw_imm_table :
  cast u8 (Z.lor (table kLwLow (GetBits code 5 2)) (Z.shiftl (GetBits code 10 3) 3))
  = imm_bits code lw_imm.
Proof. unfold lw_imm; by_fields code 5 2 10 3. Qed.

Lemma ld_imm_bits :
  cast u8 (Z.lor (Z.shiftl (GetBits code 5 2) 6) (Z.shiftl (GetBits code 10 3) 3))
  = imm_bits code ld_imm.
Proof. unfold ld_imm; by_fields code 5 2 10 3. Qed.

Lemma lwsp_imm_table :
  cast i16 (Z.shiftl (GetBits code 12 1) 5 + Z.shiftl (table Loadsp_k32bitLow (GetBits code 2 5)) 2)
  = imm_bits code lwsp_imm.
Proof. unfold lwsp_imm; by_fields code 12 1 2 5. Qed.

Lemma ldsp_imm_table :
  cast i16 (Z.shiftl (GetBits code 12 1) 5 + Z.shiftl (table Loadsp_k64bitLow (GetBits code 2 5)) 2)
  = imm_bits code ldsp_imm.
Proof. unfold ldsp_imm; by_fields code 12 1 2 5. Qed.

Lemma swsp_imm_table :
  cast i16 (Z.shiftl (table Storesp_k32bit (GetBits code 7 6)) 2) = imm_bits code swsp_imm.
Proof. unfold swsp_imm; by_fields code 7 6 7 6. Qed.

Lemma sdsp_imm_table :
  cast i16 (Z.shiftl (table Storesp_k64bit (GetBits code 7 6)) 2) = imm_bits code sdsp_imm.
Proof. unfold sdsp_imm; by_fields code 7 6 7 6. Qed.
End Immediates.

(** ** Expansions *)

(** A register of the compressed formats with three bits. *)
Definition creg (code lo : Z) : Z := 8 + bits code lo 3.

(** What a 16-bit instruction stands for: a 32-bit instruction, one of the
    single-register operations of the Zcb extension, or nothing. *)
Inductive expansion := Word (w : Z) | ZcbOp (op : OpSingleInputOpcode.t) (r : Z) | Illegal.

Definition i_type c rd rs1 imm := Word (EmitITypeInstruction c rd rs1 (Immediate_MakeRaw imm)).
Definition s_type c data base imm := Word (EmitSTypeInstruction c data base (SImmediate_MakeRaw imm)).
Definition r_type c rd rs1 rs2 := Word (EmitRTypeInstruction c rd rs1 rs2).
Definition shift_type c rd rs1 imm :=
  Word (EmitITypeInstruction c rd rs1 (Shift64Immediate_MakeRaw imm)).

(** *** The extension

    The expansions of the C extension for a 64-bit register file and of the
    Zcb extension, from their instruction listings, the reserved encodings marked
    as such; encodings that are hints expand like the instruction they are. *)

(** [c.lbu], [c.lhu], [c.lh], [c.sb], [c.sh]. *)
Definition zcb_byte_imm := [(6, 0); (5, 1)].
Definition zcb_half_imm := [(5, 1)].
Definition zcb_load_store (p : Z) : expansion :=
  let r := creg p 2 in
  let base := creg p 7 in
  match bits p 10 3, bits p 6 1 with
  | 0, _ => i_type 0x4003 r base (imm_bits p zcb_byte_imm)
  | 1, 0 => i_type 0x5003 r base (imm_bits p zcb_half_imm)
  | 1, _ => i_type 0x1003 r base (imm_bits p zcb_half_imm)
  | 2, _ => s_type 0x23 r base (imm_bits p zcb_byte_imm)
  | 3, 0 => s_type 0x1023 r base (imm_bits p zcb_half_imm)
  | _, _ => Illegal
  end.

Definition c_arithmetic (p : Z) : expansion :=
  let r := creg p 7 in
  let rs2 := creg p 2 in
  match bits p 10 2, bits p 12 1, bits p 5 2 with
  | 0, _, _ => shift_type 0x5013 r r (imm_bits p ci_imm)               (* c.srli *)
  | 1, _, _ => shift_type 0x40005013 r r (imm_bits p ci_imm)           (* c.srai *)
  | 2, _, _ => i_type 0x7013 r r (SignExtend 6 (imm_bits p ci_imm))    (* c.andi *)
  | _, 0, 0 => r_type 0x40000033 r r rs2                               (* c.sub *)
  | _, 0, 1 => r_type 0x4033 r r rs2                                   (* c.xor *)
  | _, 0, 2 => r_type 0x6033 r r rs2                                   (* c.or *)
  | _, 0, _ => r_type 0x7033 r r rs2                                   (* c.and *)
  | _, _, 0 => r_type 0x4000003b r r rs2                               (* c.subw *)
  | _, _, 1 => r_type 0x3b r r rs2                                     (* c.addw *)
  | _, _, 2 => r_type 0x2000033 r r rs2                                (* c.mul *)
  | _, _, _ =>
      match bits p 2 3 with
      | 0 => ZcbOp OpSingleInputOpcode.kZextb r
      | 1 => ZcbOp OpSingleInputOpcode.kSextb r
      | 2 => ZcbOp OpSingleInputOpcode.kZexth r
      | 3 => ZcbOp OpSingleInputOpcode.kSexth r
      | 4 => ZcbOp OpSingleInputOpcode.kZextw r
      | 5 => i_type 0x4013 r r (-1)                                    (* c.not *)
      | _ => Illegal
      end
  end.

Definition c_jump_move_add (p : Z) : expansion :=
  match bits p 12 1, bits p 7 5, bits p 2 5 with
  | 0, 0, 0 => Illegal
  | 0, r, 0 => i_type 0x67 0 r 0                                       (* c.jr *)
  | 0, r, rs2 => r_type 0x33 r 0 rs2                                   (* c.mv *)
  | _, 0, 0 => Word 0x100073                                           (* c.ebreak *)
  | _, r, 0 => i_type 0x67 1 r 0                                       (* c.jalr *)
  | _, r, rs2 => r_type 0x33 r r rs2                                   (* c.add *)
  end.

Definition expand (p : Z) : expansion :=
  let rd := bits p 7 5 in
  let rs2 := bits p 2 5 in
  let rd' := creg p 2 in
  let rs1' := creg p 7 in
  let imm6 := SignExtend 6 (imm_bits p ci_imm) in
  match bits p 0 2, bits p 13 3 with
  | 0, 0 => let imm := imm_bits p addi4spn_imm in
            if imm =? 0 then Illegal else i_type 0x13 rd' 2 imm        (* c.addi4spn *)
  | 0, 1 => i_type 0x3007 rd' rs1' (imm_bits p ld_imm)                 (* c.fld *)
  | 0, 2 => i_type 0x2003 rd' rs1' (imm_bits p lw_imm)                 (* c.lw *)
  | 0, 3 => i_type 0x3003 rd' rs1' (imm_bits p ld_imm)                 (* c.ld *)
  | 0, 4 => zcb_load_store p
  | 0, 5 => s_type 0x3027 rd' rs1' (imm_bits p ld_imm)                 (* c.fsd *)
  | 0, 6 => s_type 0x2023 rd' rs1' (imm_bits p lw_imm)                 (* c.sw *)
  | 0, 7 => s_type 0x3023 rd' rs1' (imm_bits p ld_imm)                 (* c.sd *)
  | 1, 0 => i_type 0x13 rd rd imm6                                     (* c.addi *)
  | 1, 1 => if rd =? 0 then Illegal else i_type 0x1b rd rd imm6        (* c.addiw *)
  | 1, 2 => i_type 0x13 rd 0 imm6                                      (* c.li *)
  | 1, 3 => if imm6 =? 0 then Illegal
            else if rd =? 2 then i_type 0x13 2 2 (SignExtend 10 (imm_bits p addi16sp_imm))  (* c.addi16sp *)
            else Word (EmitUTypeInstruction 0x37 rd (UImmediate_MakeRaw (imm6 * 2 ^ 12)))   (* c.lui *)
  | 1, 4 => c_arithmetic p
  | 1, 5 => Word (EmitJTypeInstruction 0x6f 0 (JImmediate_MakeRaw (SignExtend 12 (imm_bits p jump_imm))))  (* c.j *)
  | 1, 6 => Word (EmitBTypeInstruction 0x63 rs1' 0
                    (BImmediate_MakeRaw (SignExtend 9 (imm_bits p branch_imm))))  (* c.beqz *)
  | 1, 7 => Word (EmitBTypeInstruction 0x1063 rs1' 0
                    (BImmediate_MakeRaw (SignExtend 9 (imm_bits p branch_imm))))  (* c.bnez *)
  | 2, 0 => shift_type 0x1013 rd rd (imm_bits p ci_imm)                (* c.slli *)
  | 2, 1 => i_type 0x3007 rd 2 (imm_bits p ldsp_imm)                   (* c.fldsp *)
  | 2, 2 => if rd =? 0 then Illegal else i_type 0x2003 rd 2 (imm_bits p lwsp_imm)  (* c.lwsp *)
  | 2, 3 => if rd =? 0 then Illegal else i_type 0x3003 rd 2 (imm_bits p ldsp_imm)  (* c.ldsp *)
  | 2, 4 => c_jump_move_add p
  | 2, 5 => s_type 0x3027 rs2 2 (imm_bits p sdsp_imm)                  (* c.fsdsp *)
  | 2, 6 => s_type 0x2023 rs2 2 (imm_bits p swsp_imm)                  (* c.swsp *)
  | 2, 7 => s_type 0x3023 rs2 2 (imm_bits p sdsp_imm)                  (* c.sdsp *)
  | _, _ => Illegal
  end.

(** *** Where the decoder differs

    The encodings of Zcb it does not know: [c.lbu], [c.lhu], [c.lh], [c.sb],
    [c.sh], [c.mul] and [c.not]. *)
Definition unknown_zcb (p : Z) : bool :=
  match bits p 0 2, bits p 13 3 with
  | 0, 4 => (bits p 10 3 <? 3) || ((bits p 10 3 =? 3) && (bits p 6 1 =? 0))
  | 1, 4 => (bits p 10 2 =? 3) && (bits p 12 1 =? 1)
            && ((bits p 5 2 =? 2) || ((bits p 5 2 =? 3) && (bits p 2 3 =? 5)))
  | _, _ => false
  end.
(** The reserved encodings it accepts: [c.addiw], [c.lwsp] and [c.ldsp] with
    register 0, [c.addi16sp] and [c.lui] with immediate 0, [c.jr] with register 0. *)
Definition accepted_reserved (p : Z) : bool :=
  match bits p 0 2, bits p 13 3 with
  | 1, 1 | 2, 2 | 2, 3 => bits p 7 5 =? 0
  | 1, 3 => SignExtend 6 (imm_bits p ci_imm) =? 0
  | 2, 4 => (bits p 12 1 =? 0) && (bits p 7 5 =? 0) && (bits p 2 5 =? 0)
  | _, _ => false
  end.

(** *** The decoder *)

Definition read_misc_alu (p : Z) : expansion :=
  let r := creg p 7 in
  let rs2 := creg p 2 in
  let kind := bits p 10 2 in
  if kind =? 0 then shift_type 0x5013 r r (imm_bits p ci_imm)
  else if kind =? 1 then shift_type 0x40005013 r r (imm_bits p ci_imm)
  else if kind =? 2 then i_type 0x7013 r r (SignExtend 6 (imm_bits p ci_imm))
  else if bits p 12 1 =? 0 then
    let sel := bits p 5 2 in
    r_type (if sel =? 0 then 0x40000033 else if sel =? 1 then 0x4033
            else if sel =? 2 then 0x6033 else 0x7033) r r rs2
  else
    let sel := bits p 5 2 in
    if sel =? 0 then r_type 0x4000003b r r rs2
    else if sel =? 1 then r_type 0x3b r r rs2
    else if sel =? 3 then
      let z := bits p 2 3 in
      if z =? 0 then ZcbOp OpSingleInputOpcode.kZextb r
      else if z =? 1 then ZcbOp OpSingleInputOpcode.kSextb r
      else if z =? 2 then ZcbOp OpSingleInputOpcode.kZexth r
      else if z =? 3 then ZcbOp OpSingleInputOpcode.kSexth r
      else if z =? 4 then ZcbOp OpSingleInputOpcode.kZextw r
      else Illegal
    else Illegal.

Definition read_jr_mv_add (p : Z) : expansion :=
  let r := bits p 7 5 in
  let rs2 := bits p 2 5 in
  if bits p 12 1 =? 0 then
    if rs2 =? 0 then i_type 0x67 0 r 0 else r_type 0x33 r 0 rs2
  else if (r =? 0) && (rs2 =? 0) then Word 0x100073
  else if rs2 =? 0 then i_type 0x67 1 r 0 else r_type 0x33 r r rs2.

(** What the decoder makes of an encoding, as an expansion. *)
Definition reading (p : Z) : expansion :=
  let rd := bits p 7 5 in
  let rs2 := bits p 2 5 in
  let rd' := creg p 2 in
  let rs1' := creg p 7 in
  let imm6 := SignExtend 6 (imm_bits p ci_imm) in
  match bits p 0 2, bits p 13 3 with
  | 0, 0 => let imm := imm_bits p addi4spn_imm in
            if imm =? 0 then Illegal else i_type 0x13 rd' 2 imm
  | 0, 1 => i_type 0x3007 rd' rs1' (imm_bits p ld_imm)
  | 0, 2 => i_type 0x2003 rd' rs1' (imm_bits p lw_imm)
  | 0, 3 => i_type 0x3003 rd' rs1' (imm_bits p ld_imm)
  | 0, 5 => s_type 0x3027 rd' rs1' (imm_bits p ld_imm)
  | 0, 6 => s_type 0x2023 rd' rs1' (imm_bits p lw_imm)
  | 0, 7 => s_type 0x3023 rd' rs1' (imm_bits p ld_imm)
  | 1, 0 => i_type 0x13 rd rd imm6
  | 1, 1 => i_type 0x1b rd rd imm6
  | 1, 2 => i_type 0x13 rd 0 imm6
  | 1, 3 => if rd =? 2 then i_type 0x13 2 2 (SignExtend 10 (imm_bits p addi16sp_imm))
            else Word (EmitUTypeInstruction 0x37 rd (UImmediate_MakeRaw (imm6 * 2 ^ 12)))
  | 1, 4 => read_misc_alu p
  | 1, 5 => Word (EmitJTypeInstruction 0x6f 0 (JImmediate_MakeRaw (SignExtend 12 (imm_bits p jump_imm))))
  | 1, 6 => Word (EmitBTypeInstruction 0x63 rs1' 0
                    (BImmediate_MakeRaw (SignExtend 9 (imm_bits p branch_imm))))
  | 1, 7 => Word (EmitBTypeInstruction 0x1063 rs1' 0
                    (BImmediate_MakeRaw (SignExtend 9 (imm_bits p branch_imm))))
  | 2, 0 => shift_type 0x1013 rd rd (imm_bits p ci_imm)
  | 2, 1 => i_type 0x3007 rd 2 (imm_bits p ldsp_imm)
  | 2, 2 => i_type 0x2003 rd 2 (imm_bits p lwsp_imm)
  | 2, 3 => i_type 0x3003 rd 2 (imm_bits p ldsp_imm)
  | 2, 4 => read_jr_mv_add p
  | 2, 5 => s_type 0x3027 rs2 2 (imm_bits p sdsp_imm)
  | 2, 6 => s_type 0x2023 rs2 2 (imm_bits p swsp_imm)
  | 2, 7 => s_type 0x3023 rs2 2 (imm_bits p sdsp_imm)
  | _, _ => Illegal
  end.

(** The length of the instruction, which jumps pass on for the link register. *)
Definition set_insn_len (n : Z) (c : InsnCall) : InsnCall :=
  match c with
  | JumpAndLink a => JumpAndLink (JumpAndLinkArgs.mk (JumpAndLinkArgs.dst a) (JumpAndLinkArgs.offset a) n)
  | JumpAndLinkRegister a =>
      JumpAndLinkRegister (JumpAndLinkRegisterArgs.mk (JumpAndLinkRegisterArgs.dst a)
        (JumpAndLinkRegisterArgs.base a) (JumpAndLinkRegisterArgs.offset a) n)
  | c => c
  end.

Definition is_nop (c : InsnCall) : bool := if c is Nop then true else false.

(** The calls of a compressed instruction, announcements apart. *)
Definition compressed_calls (p : Z) : list InsnCall :=
  List.filter (fun c => negb (is_nop c)) (DecodeCompressedInstruction p).1.

(** The calls [calls] are those of the expansion. *)
Definition stands_for (e : expansion) (calls : list InsnCall) : Prop :=
  match e with
  | Word w => exists c, Decode (parcels w) = Some ([c], 4) /\ calls = [set_insn_len 2 c]
  | ZcbOp op r => calls = [OpSingleInput (OpSingleInputArgs.mk (enum_bits op) r r)]
  | Illegal => calls = [Undefined]
  end.

(** ** Operands of the expansions *)

Lemma imm_bits_fits k code l : 0 <= k -> forallb (fun e => (0 <=? e.2) && (e.2 <? k)) l = true -> fits k (imm_bits code l).
Proof.
  intros Hk; induction l as [| [src dst] l IH]; cbn [forallb imm_bits foldr snd].
  - unfold fits; pose proof (pow2_pos k); lia.
  - intros [[H1%Z.leb_le H2%Z.ltb_lt]%andb_prop H]%andb_prop; apply fits_lor; [done | | by apply IH].
    apply (fits_mono (1 + dst)); [lia |]; apply fits_shiftl; [lia | apply bits_range; lia | lia].
Qed.

Lemma imm_sfits12 code l : forallb (fun e => (0 <=? e.2) && (e.2 <? 11)) l = true -> sfits 12 (imm_bits code l).
Proof. intros H; pose proof (imm_bits_fits 11 code l ltac:(lia) H); unfold fits, sfits in *; cbn in *; lia. Qed.

Lemma imm_bits_even code l :
  forallb (fun e => 0 <? e.2) l = true -> imm_bits code l mod 2 = 0.
Proof.
  induction l as [| [src dst] l IH]; cbn [forallb imm_bits foldr snd]; [done |].
  intros [H1%Z.ltb_lt H]%andb_prop; apply lor_even; [by apply shiftl_even | by apply IH].
Qed.

Lemma creg_fits p lo : fits 5 (creg p lo).
Proof. unfold creg, fits; pose proof (bits_range p lo 3 ltac:(lia)); cbn in *; lia. Qed.

Lemma creg_cast p lo : 0 <= lo <= 29 -> cast u8 (8 + GetBits p lo 3) = creg p lo.
Proof.
  intros; rewrite GetBits_bits by lia; apply cast_id; [done |].
  apply in_range_unsigned; [done |]; pose proof (creg_fits p lo); unfold fits, creg in *; cbn in *; lia.
Qed.

Lemma reg_fits p lo : fits 5 (bits p lo 5).
Proof. apply bits_range; lia. Qed.
Lemma reg_small r : 0 <= r < 32 -> fits 5 r.
Proof. done. Qed.
Lemma imm6_sfits p : sfits 12 (SignExtend 6 (imm_bits p ci_imm)).
Proof. eapply sfits_mono; [| apply SignExtend_sfits]; lia. Qed.

Create HintDb compressed.
#[local] Hint Resolve creg_fits reg_fits imm6_sfits : compressed.
#[local] Hint Extern 1 (fits 5 _) => apply reg_small; lia : compressed.
#[local] Hint Extern 1 (sfits 12 (imm_bits _ _)) => apply imm_sfits12; reflexivity : compressed.
#[local] Hint Extern 1 (fits 6 (imm_bits _ _)) => apply imm_bits_fits; [lia | reflexivity] : compressed.
#[local] Hint Extern 1 (sfits 12 (SignExtend _ _)) =>
  eapply sfits_mono; [| apply SignExtend_sfits]; lia : compressed.

(** Decodes the expansion by the lemma of its format. *)
Ltac operand :=
  lazymatch goal with
  | |- fits 5 _ => solve [auto with compressed]
  | |- sfits 12 0 => table_side
  | |- sfits 12 _ => solve [auto with compressed]
  | |- fits 6 _ => solve [auto with compressed]
  | |- _ => table_side
  end.
Ltac expands_by lem := eexists; split; [lem; operand | reflexivity].

(** Looks up the compressed opcode and shows the branch the decoder takes. *)
Ltac dispatch p Hq Hf :=
  unfold compressed_calls, DecodeCompressedInstruction, reading; cbn [fst];
  rewrite !(GetBits_bits p 13 3), !(GetBits_bits p 0 2), Hq, Hf by lia;
  match goal with
  | |- context [enum_of (Z.lor ?a ?b)] =>
      let v := eval vm_compute in (enum_of (A := CompressedOpcode.t) (Z.lor a b)) in
      change (enum_of (Z.lor a b)) with v
  end; cbv beta iota.

Section Expansions.
Context (p : Z).

Lemma reading_quadrant0 f :
  bits p 0 2 = 0 -> bits p 13 3 = f -> 0 <= f < 8 -> stands_for (reading p) (compressed_calls p).
Proof.
  intros Hq Hf Hr.
  assert (f = 0 \/ f = 1 \/ f = 2 \/ f = 3 \/ f = 4 \/ f = 5 \/ f = 6 \/ f = 7) as Hc by lia.
  destruct Hc as [-> | [-> | [-> | [-> | [-> | [-> | [-> | ->]]]]]]]; dispatch p Hq Hf.
  all: unfold DecodeCompressedAddi4spn, DecodeCompressedLoadStore; cbv zeta;
    rewrite ?addi4spn_imm_tables, ?lw_imm_table, ?ld_imm_bits, ?creg_cast by lia.
  - destruct (imm_bits p addi4spn_imm =? 0); [done |].
    expands_by ltac:(apply decode_IType with (mk := OpImm)).
  - expands_by ltac:(apply decode_LoadFp with (ty := FloatOperandType.kDouble)).
  - expands_by ltac:(apply decode_Load).
  - expands_by ltac:(apply decode_Load).
  - done.
  - expands_by ltac:(apply decode_StoreFp with (ty := FloatOperandType.kDouble)).
  - expands_by ltac:(apply decode_Store).
  - expands_by ltac:(apply decode_Store).
Qed.

Lemma reading_jr :
  stands_for (read_jr_mv_add p)
    (List.filter (fun c => negb (is_nop c)) (DecodeCompressedJr_Jalr_Mv_Add p)).
Proof.
  unfold read_jr_mv_add, DecodeCompressedJr_Jalr_Mv_Add, GetBit; cbv zeta.
  rewrite !(GetBits_bits p 12 1), !(GetBits_bits p 7 5), !(GetBits_bits p 2 5) by lia.
  destruct (bits p 12 1 =? 0); cbn [negb]; [| destruct (bits p 7 5 =? 0), (bits p 2 5 =? 0); cbn [andb]];
    [destruct (bits p 2 5 =? 0) | ..].
  - expands_by ltac:(apply decode_Jalr).
  - expands_by ltac:(apply decode_RType with (op := enum_bits OpOpcode.kAdd)).
  - eexists; split; [vm_compute; reflexivity | reflexivity].
  - expands_by ltac:(apply decode_RType with (op := enum_bits OpOpcode.kAdd)).
  - expands_by ltac:(apply decode_Jalr).
  - expands_by ltac:(apply decode_RType with (op := enum_bits OpOpcode.kAdd)).
Qed.

(** The Zcb operations are recognised by eleven fixed bits. *)
Definition zcb_op (z : Z) : option OpSingleInputOpcode.t :=
  if z =? 0 then Some OpSingleInputOpcode.kZextb
  else if z =? 1 then Some OpSingleInputOpcode.kSextb
  else if z =? 2 then Some OpSingleInputOpcode.kZexth
  else if z =? 3 then Some OpSingleInputOpcode.kSexth
  else if z =? 4 then Some OpSingleInputOpcode.kZextw
  else None.

#[local] Instance si_opcode_eq_dec : EqDecision OpSingleInputOpcode.t.
Proof. solve_decision. Defined.

Lemma zcb_recognised :
  MiscAlu_si_opcode (cast u16 (Z.lor (GetBits p 2 5) (Z.shiftl (GetBits p 10 3) 5)))
  = if (bits p 10 2 =? 3) && (bits p 12 1 =? 1) && (bits p 5 2 =? 3) then zcb_op (bits p 2 3) else None.
Proof.
  rewrite !GetBits_bits by lia.
  change 12 with (10 + 2); change 5 with (2 + 3) at 3; change (bits p 2 3) with (bits p (2 + 0) 3).
  rewrite <- (bits_bits p 10 3 2 1), <- (bits_bits p 2 5 3 2), <- (bits_bits p 2 5 0 3) by lia.
  change (bits p 10 2) with (bits p (10 + 0) 2); rewrite <- (bits_bits p 10 3 0 2) by lia.
  assert (forall_bits 3 0 (fun h => forall_bits 5 0 (fun l => bool_decide (
    MiscAlu_si_opcode (cast u16 (Z.lor l (Z.shiftl h 5)))
    = if (bits h 0 2 =? 3) && (bits h 2 1 =? 1) && (bits l 3 2 =? 3) then zcb_op (bits l 0 3) else None)))
    = true) as H by (vm_compute; reflexivity).
  assert (forall lo n, 0 <= bits p lo (Z.of_nat n) < 0 + 2 ^ Z.of_nat n) as Hr
    by (intros lo n; rewrite Z.add_0_l; apply bits_range; lia).
  pose proof (forall_bits_spec 5 0 _ (forall_bits_spec 3 0 _ H _ (Hr 10 3%nat)) _ (Hr 2 5%nat)) as H'.
  by apply bool_decide_eq_true in H'.
Qed.

Lemma reading_quadrant2 f :
  bits p 0 2 = 2 -> bits p 13 3 = f -> 0 <= f < 8 -> stands_for (reading p) (compressed_calls p).
Proof.
  intros Hq Hf Hr.
  assert (f = 0 \/ f = 1 \/ f = 2 \/ f = 3 \/ f = 4 \/ f = 5 \/ f = 6 \/ f = 7) as Hc by lia.
  destruct Hc as [-> | [-> | [-> | [-> | [-> | [-> | [-> | ->]]]]]]]; dispatch p Hq Hf.
  all: unfold DecodeCompressedSlli, DecodeCompressedLoadsp, DecodeCompressedStoresp; cbv zeta;
    cbn [enum_bits FloatOperandType.enum LoadOperandType.enum MemoryDataOperandType.enum
      FloatOperandType.to_bits LoadOperandType.to_bits MemoryDataOperandType.to_bits
      Z.land Z.eqb Pos.land];
    rewrite ?ci_shamt, ?lwsp_imm_table, ?ldsp_imm_table, ?swsp_imm_table, ?sdsp_imm_table,
      ?(GetBits_bits p 7 5), ?(GetBits_bits p 2 5) by lia.
  - expands_by ltac:(eapply decode_Shift64).
  - expands_by ltac:(apply decode_LoadFp with (ty := FloatOperandType.kDouble)).
  - expands_by ltac:(apply decode_Load).
  - expands_by ltac:(apply decode_Load).
  - apply reading_jr.
  - expands_by ltac:(apply decode_StoreFp with (ty := FloatOperandType.kDouble)).
  - expands_by ltac:(apply decode_Store).
  - expands_by ltac:(apply decode_Store).
Qed.

Lemma ci_andi_imm :
  SignExtend 6 (cast u8 (Z.shiftl (GetBits p 12 1) 5 + GetBits p 2 5)) = SignExtend 6 (imm_bits p ci_imm).
Proof. by rewrite ci_shamt. Qed.

Lemma reading_misc :
  stands_for (read_misc_alu p)
    (List.filter (fun c => negb (is_nop c)) (DecodeCompressedMiscAlu p)).
Proof.
  unfold read_misc_alu, DecodeCompressedMiscAlu; cbv zeta.
  rewrite zcb_recognised, ci_shamt, !(Z.add_comm _ 8), !creg_cast by lia.
  rewrite !(GetBits_bits p 10 2), !(GetBits_bits p 12 1), !(GetBits_bits p 5 2) by lia.
  pose proof (bits_range p 10 2 ltac:(lia)) as Hk; pose proof (bits_range p 12 1 ltac:(lia)) as Hb.
  pose proof (bits_range p 5 2 ltac:(lia)) as Hs.
  generalize dependent (bits p 10 2); generalize dependent (bits p 12 1).
  generalize dependent (bits p 5 2); intros sel Hs b Hb kind Hk; cbn in Hs, Hb, Hk.
  assert (kind = 0 \/ kind = 1 \/ kind = 2 \/ kind = 3) as Hkind by lia.
  assert (sel = 0 \/ sel = 1 \/ sel = 2 \/ sel = 3) as Hsel by lia.
  assert (b = 0 \/ b = 1) as Hbit by lia; clear Hk Hb Hs.
  destruct Hkind as [-> | [-> | [-> | ->]]]; cbn [Z.eqb Pos.eqb andb];
    [| | | destruct Hbit as [-> | ->]; destruct Hsel as [-> | [-> | [-> | ->]]];
           cbn [Z.eqb Pos.eqb andb]].
  - expands_by ltac:(eapply decode_Shift64).
  - expands_by ltac:(eapply decode_Shift64).
  - expands_by ltac:(apply decode_IType with (mk := OpImm)).
  - expands_by ltac:(apply decode_RType with (op := enum_bits OpOpcode.kSub)).
  - expands_by ltac:(apply decode_RType with (op := enum_bits OpOpcode.kXor)).
  - expands_by ltac:(apply decode_RType with (op := enum_bits OpOpcode.kOr)).
  - expands_by ltac:(apply decode_RType with (op := enum_bits OpOpcode.kAnd)).
  - expands_by ltac:(apply decode_RType with (op := enum_bits Op32Opcode.kSubw)).
  - expands_by ltac:(apply decode_RType with (op := enum_bits Op32Opcode.kAddw)).
  - reflexivity.
  - unfold zcb_op; repeat case_goal; reflexivity.
Qed.

Lemma lui_imm_range : let v := SignExtend 6 (imm_bits p ci_imm) * 2 ^ 12 in sfits 32 v /\ v mod 2 ^ 12 = 0.
Proof.
  cbv zeta; split; [| apply Z.mod_mul; lia].
  pose proof (SignExtend_sfits 6 (imm_bits p ci_imm) ltac:(lia)); unfold sfits in *; cbn in *; lia.
Qed.

Lemma even_imm_range n l :
  1 < n <= 13 -> forallb (fun e => 0 <? e.2) l = true ->
  sfits 13 (SignExtend n (imm_bits p l)) /\ sfits 21 (SignExtend n (imm_bits p l))
  /\ SignExtend n (imm_bits p l) mod 2 = 0.
Proof.
  intros Hn Hl; pose proof (SignExtend_sfits n (imm_bits p l) ltac:(lia)).
  split_and!; [apply (sfits_mono n); [lia | done] | apply (sfits_mono n); [lia | done] |].
  apply SignExtend_even; [lia | by apply imm_bits_even].
Qed.

Lemma reading_quadrant1 f :
  bits p 0 2 = 1 -> bits p 13 3 = f -> 0 <= f < 8 -> stands_for (reading p) (compressed_calls p).
Proof.
  intros Hq Hf Hr; pose proof lui_imm_range as [Hl1 Hl2].
  pose proof (even_imm_range 12 jump_imm ltac:(lia) eq_refl) as (_ & HJ & HJ0).
  pose proof (even_imm_range 9 branch_imm ltac:(lia) eq_refl) as (HB & _ & HB0).
  assert (f = 0 \/ f = 1 \/ f = 2 \/ f = 3 \/ f = 4 \/ f = 5 \/ f = 6 \/ f = 7) as Hc by lia.
  destruct Hc as [-> | [-> | [-> | [-> | [-> | [-> | [-> | ->]]]]]]]; dispatch p Hq Hf.
  all: unfold DecodeCompressedAddi, DecodeCompressedAddiw, DecodeCompressedLi,
    DecodeCompressedLuiAddi16sp, DecodeCompressedJ, DecodeCompressedBeqzBnez; cbv zeta;
    rewrite ?ci_imm_lor, ?ci_imm_add, ?addi16sp_imm_tables, ?lui_imm_bits, ?jump_imm_tables,
      ?branch_imm_tables, ?creg_cast, ?(GetBits_bits p 7 5) by lia.
  - assert (forall b : bool, List.filter (fun c => negb (is_nop c)) (if b then [Nop] else []) = [])
      as Hn by (by intros []).
    rewrite List.filter_app, Hn; expands_by ltac:(apply decode_IType with (mk := OpImm)).
  - expands_by ltac:(apply decode_IType with (mk := OpImm32)).
  - expands_by ltac:(apply decode_IType with (mk := OpImm)).
  - destruct (bits p 7 5 =? 2); cbn [negb].
    + expands_by ltac:(apply decode_IType with (mk := OpImm)).
    + expands_by ltac:(apply decode_UType with (mk := Lui)).
  - apply reading_misc.
  - expands_by ltac:(apply decode_JType).
  - rewrite GetBits_bits by lia.
    replace (bits p 13 1) with 0 by (change 13 with (13 + 0); rewrite <- (bits_bits p 13 3 0 1), Hf by lia; done).
    expands_by ltac:(apply decode_BType).
  - rewrite GetBits_bits by lia.
    replace (bits p 13 1) with 1 by (change 13 with (13 + 0); rewrite <- (bits_bits p 13 3 0 1), Hf by lia; done).
    expands_by ltac:(apply decode_BType).
Qed.
End Expansions.

Lemma reading_calls p : GetInsnSize p = 2 -> stands_for (reading p) (compressed_calls p) /\ 0 <= bits p 0 2 < 3.
Proof.
  intros Hsz.
  assert (bits p 0 2 <> 3) as H3.
  { unfold GetInsnSize in Hsz; intros H; change 3 with (Z.ones 2) in Hsz at 1.
    rewrite Z.land_ones in Hsz by lia; unfold bits in H; rewrite Z.div_1_r in H; by rewrite H in Hsz. }
  pose proof (bits_range p 0 2 ltac:(lia)) as H2; pose proof (bits_range p 13 3 ltac:(lia)) as Hf.
  split; [| cbn in H2; lia].
  assert (bits p 0 2 = 0 \/ bits p 0 2 = 1 \/ bits p 0 2 = 2) as Hq by (cbn in H2; lia).
  destruct Hq as [Hq | [Hq | Hq]].
  - by apply (reading_quadrant0 p (bits p 13 3)).
  - by apply (reading_quadrant1 p (bits p 13 3)).
  - by apply (reading_quadrant2 p (bits p 13 3)).
Qed.

Lemma reading_misc_alu p :
  (bits p 10 2 =? 3) && (bits p 12 1 =? 1) && ((bits p 5 2 =? 2) || ((bits p 5 2 =? 3) && (bits p 2 3 =? 5))) = false ->
  c_arithmetic p = read_misc_alu p.
Proof.
  unfold c_arithmetic, read_misc_alu; cbv zeta; generalize (creg p 7) (creg p 2) (imm_bits p ci_imm); intros r rs2 imm.
  pose proof (bits_range p 10 2 ltac:(lia)) as R1; pose proof (bits_range p 12 1 ltac:(lia)) as R2.
  pose proof (bits_range p 5 2 ltac:(lia)) as R3; pose proof (bits_range p 2 3 ltac:(lia)) as R4.
  generalize dependent (bits p 10 2); intros k Rk; generalize dependent (bits p 12 1); intros b Rb.
  generalize dependent (bits p 5 2); intros sel Rs; generalize dependent (bits p 2 3); intros z Rz.
  cbn in Rk, Rb, Rs, Rz; assert (k = 0 \/ k = 1 \/ k = 2 \/ k = 3) as Hk by lia; assert (b = 0 \/ b = 1) as Hb by lia.
  assert (sel = 0 \/ sel = 1 \/ sel = 2 \/ sel = 3) as Hs by lia.
  assert (z = 0 \/ z = 1 \/ z = 2 \/ z = 3 \/ z = 4 \/ z = 5 \/ z = 6 \/ z = 7) as Hz by lia.
  destruct_or! Hk; destruct_or! Hb; destruct_or! Hs; subst; try done; destruct_or! Hz; by subst.
Qed.

Lemma reading_jump p :
  (bits p 12 1 =? 0) && (bits p 7 5 =? 0) && (bits p 2 5 =? 0) = false -> c_jump_move_add p = read_jr_mv_add p.
Proof.
  unfold c_jump_move_add, read_jr_mv_add; cbv zeta; intros E.
  pose proof (bits_range p 12 1 ltac:(lia)) as R1; pose proof (bits_range p 7 5 ltac:(lia)) as R2.
  pose proof (bits_range p 2 5 ltac:(lia)) as R3.
  generalize dependent (bits p 12 1); intros b; generalize dependent (bits p 7 5); intros r.
  generalize dependent (bits p 2 5); intros s R3 R2 E R1; cbn in R1, R2, R3.
  destruct (Z.eqb_spec b 0) as [-> | Hb]; [| assert (b = 1) as -> by lia];
    destruct (Z.eqb_spec r 0) as [-> | Hr]; destruct (Z.eqb_spec s 0) as [-> | Hs]; try done;
    try (destruct r; try lia); try (destruct s; try lia); done.
Qed.

(** The decoder's reading is the extension's, but for the listed encodings. *)
Lemma expand_reading p :
  0 <= bits p 0 2 < 3 -> unknown_zcb p = false -> accepted_reserved p = false -> expand p = reading p.
Proof.
  unfold expand, reading, unknown_zcb, accepted_reserved; cbv zeta; intros Hq Hu Ha.
  pose proof (bits_range p 13 3 ltac:(lia)) as Hf; cbn in Hf.
  assert (bits p 0 2 = 0 \/ bits p 0 2 = 1 \/ bits p 0 2 = 2) as Hq' by lia.
  assert (bits p 13 3 = 0 \/ bits p 13 3 = 1 \/ bits p 13 3 = 2 \/ bits p 13 3 = 3 \/ bits p 13 3 = 4
    \/ bits p 13 3 = 5 \/ bits p 13 3 = 6 \/ bits p 13 3 = 7) as Hf' by lia.
  destruct_or! Hq'; destruct_or! Hf'; rewrite Hq', Hf' in *; rewrite ?Ha; try done.
  - unfold zcb_load_store; apply orb_false_iff in Hu as [Hu1 Hu2]; pose proof (bits_range p 10 3 ltac:(lia)) as R1.
    pose proof (bits_range p 6 1 ltac:(lia)) as R2; cbn in R1, R2.
    generalize dependent (bits p 10 3); intros k; generalize dependent (bits p 6 1); intros b; intros.
    assert (k = 3 \/ k = 4 \/ k = 5 \/ k = 6 \/ k = 7) as Hk by lia; assert (b = 0 \/ b = 1) as Hb by lia.
    destruct_or! Hk; destruct_or! Hb; by subst.
  - by apply reading_misc_alu.
  - by apply reading_jump.
Qed.

(** What the decoder does with the encodings that differ. *)
Lemma unknown_rejected p :
  unknown_zcb p = true -> stands_for (reading p) (compressed_calls p) ->
  expand p <> Illegal /\ compressed_calls p = [Undefined].
Proof.
  unfold unknown_zcb, expand, reading; cbv zeta.
  destruct (bits p 0 2) as [| [q | q | ] | q] eqn:Eq; try done; destruct (bits p 13 3) as [| [[f | f |] | [f | [f | f |] |] |] | f] eqn:Ef; try done.
  - intros Hu Hr; split; [| exact Hr]; clear Hr; unfold zcb_load_store, i_type, s_type.
    pose proof (bits_range p 10 3 ltac:(lia)) as R1; pose proof (bits_range p 6 1 ltac:(lia)) as R2; cbn in R1, R2.
    generalize dependent (bits p 10 3); intros k; generalize dependent (bits p 6 1); intros b; intros.
    assert (k = 0 \/ k = 1 \/ k = 2 \/ k = 3) as Hk by lia; assert (b = 0 \/ b = 1) as Hb by lia.
    destruct_or! Hk; destruct_or! Hb; by subst.
  - intros Hu; unfold c_arithmetic, read_misc_alu, i_type, r_type; cbv zeta.
    apply andb_true_iff in Hu as [[->%Z.eqb_eq ->%Z.eqb_eq]%andb_true_iff Hu].
    apply orb_true_iff in Hu as [->%Z.eqb_eq | [->%Z.eqb_eq ->%Z.eqb_eq]%andb_true_iff]; done.
Qed.

Lemma reserved_accepted p :
  accepted_reserved p = true -> expand p = Illegal /\ compressed_calls p <> [Undefined].
Proof.
  unfold accepted_reserved, expand; cbv zeta; intros Ha; split.
  - destruct (bits p 0 2) as [| [q | [q | q |] |] | q]; try done;
      destruct (bits p 13 3) as [| [[f | f |] | [f | [f | f |] |] |] | f]; try done; try (by rewrite Ha).
    apply andb_true_iff in Ha as [[E1%Z.eqb_eq E2%Z.eqb_eq]%andb_true_iff E3%Z.eqb_eq].
    unfold c_jump_move_add; by rewrite E1, E2, E3.
  - destruct (bits p 0 2) as [| [q | [q | q |] |] | q] eqn:Hq; try done;
      destruct (bits p 13 3) as [| [[f | f |] | [f | [f | f |] |] |] | f] eqn:Hf; try done;
      unfold compressed_calls, DecodeCompressedInstruction; cbn [fst];
      rewrite !(GetBits_bits p 13 3), !(GetBits_bits p 0 2), Hq, Hf by lia;
      match goal with |- context [enum_of (Z.lor ?a ?b)] =>
        let v := eval vm_compute in (enum_of (A := CompressedOpcode.t) (Z.lor a b)) in change (enum_of (Z.lor a b)) with v
      end; cbv beta iota.
    all: unfold DecodeCompressedLuiAddi16sp, DecodeCompressedAddiw, DecodeCompressedLoadsp,
      DecodeCompressedJr_Jalr_Mv_Add; cbv zeta; try done.
    + unfold GetBit; rewrite !GetBits_bits by lia.
      apply andb_true_iff in Ha as [[E1%Z.eqb_eq E2%Z.eqb_eq]%andb_true_iff E3%Z.eqb_eq]; by rewrite E1, E2, E3.
    + destruct (negb _); done.
Qed.

(** C25: compressed instructions mean their expansions.  For every 16-bit
    instruction outside two listed sets, the call the decoder makes (the [Nop]
    announcement of [c.addi] apart) is the call it makes for the 32-bit
    instruction the C and Zcb extensions expand it to, with an instruction length
    of 2; the extension instructions of Zcb become the single-input operation of
    the same name, and a reserved encoding becomes [Undefined].  In the first of
    the sets are legal encodings of Zcb, which the decoder rejects; in the second
    reserved encodings, which it accepts. *)
Theorem compressed_expansion p :
  GetInsnSize p = 2 ->
  (unknown_zcb p = false -> accepted_reserved p = false -> stands_for (expand p) (compressed_calls p))
  /\ (unknown_zcb p = true -> expand p <> Illegal /\ compressed_calls p = [Undefined])
  /\ (accepted_reserved p = true -> expand p = Illegal /\ compressed_calls p <> [Undefined]).
Proof.
  intros [Hr Hq]%reading_calls; split_and!.
  - intros Hu Ha; by rewrite expand_reading.
  - intros Hu; by apply unknown_rejected.
  - intros Ha; by apply reserved_accepted.
Qed.

(** [c.j] back by 2 is [jal x0, -2]; [c.not] is not known; [c.jr x0] is accepted. *)
Lemma compressed_expansion_witness :
  expand 0xbffd = Word (EmitJTypeInstruction 0x6f 0 (JImmediate_MakeRaw (-2)))
  /\ stands_for (expand 0xbffd) (compressed_calls 0xbffd)
  /\ compressed_calls 0x9c75 = [Undefined] /\ expand 0x8002 = Illegal.
Proof.
  split; [vm_compute; reflexivity |].
  split; [apply (compressed_expansion 0xbffd); reflexivity |].
  split; [apply (compressed_expansion 0x9c75); reflexivity | apply (compressed_expansion 0x8002); reflexivity].
Defined.
