(* ===== verification/GuestState.v ===== *)
(** * The guest state and the memory it runs in

    - guest_state/riscv64/include/berberis/guest_state/guest_state_arch.h: the
      names and write masks of the control and status registers, which of them
      are implemented and which are writable;
    - the fields of [CPUState] the interpreter uses (the structure itself is
      declared outside the repository);
    - interpreter/riscv64/faulty_memory_accesses_x86_64.cc: loads and stores
      that report a fault instead of crashing;
    - runtime_primitives/memory_region_reservation.h and .cc: load-reserved and
      store-conditional, as one thread sees them.

    Guest addresses are host addresses ([ToHostAddr]); memory is a finite map
    from addresses to bytes with the protection of their pages: an access to an
    address that is not in the map faults, and so does a store to a byte that is
    not writable. *)
From stdpp Require Import gmap.
From S2P Require Import Prelude MachineInt BitUtil RiscvInsn.
#[local] Open Scope Z_scope.

(** ** Control and status registers *)

Module CsrName.
Inductive t :=
  | kFFlags | kFrm | kFCsr | kVstart | kVxsat | kVxrm | kVcsr | kCycle | kVl | kVtype | kVlenb.
Definition to_bits (c : t) : Z :=
  match c with
  | kFFlags => 0x001
  | kFrm => 0x002
  | kFCsr => 0x003
  | kVstart => 0x008
  | kVxsat => 0x009
  | kVxrm => 0x00a
  | kVcsr => 0x00f
  | kCycle => 0xc00
  | kVl => 0xc20
  | kVtype => 0xc21
  | kVlenb => 0xc22
  end.
#[global] Instance enum : CEnum t :=
  {| enum_type := i32; enum_bits := to_bits;
     enum_all := [kFFlags; kFrm; kFCsr; kVstart; kVxsat; kVxrm; kVcsr; kCycle; kVl; kVtype; kVlenb];
     enum_complete := ltac:(cenum_complete); enum_nodup := ltac:(cenum_nodup) |}.
#[global] Instance eq_dec : EqDecision t.
Proof. solve_decision. Defined.
End CsrName.

(** [ProcessCsrNameAsTemplateParameter]: the enumerator for a register number,
    or [None] when no supported register has it. *)
Definition ProcessCsrName (csr : Z) : option CsrName.t := enum_of csr.

(** [CsrWritable(name)] *)
Definition CsrWritable (name : Z) : bool := negb (Z.land name 0xc00 =? 0xc00).

(** [kCsrMask<kName>], for the registers with storage. *)
Definition kCsrMask (name : CsrName.t) : Z :=
  match name with
  | CsrName.kFrm => 0x7
  | CsrName.kVstart => 0x7f
  | CsrName.kVcsr => 0x7
  | CsrName.kVl => 0xff
  | CsrName.kVtype => 0x80000000000000ff
  | _ => 0
  end.

(** ** The processor state *)

Record CPUState := mkCPUState {
  x : list Z;
  f : list Z;
  insn_addr : Z;
  frm : Z;
  vstart : Z;
  vcsr : Z;
  vl : Z;
  vtype : Z;
  reservation_address : Z;
  reservation_value : Z
}.

Definition kNumGuestRegs : nat := 32.
Definition kNumGuestFpRegs : nat := 32.

Definition set_x (v : list Z) (c : CPUState) : CPUState :=
  mkCPUState v (f c) (insn_addr c) (frm c) (vstart c) (vcsr c) (vl c) (vtype c)
    (reservation_address c) (reservation_value c).
Definition set_f (v : list Z) (c : CPUState) : CPUState :=
  mkCPUState (x c) v (insn_addr c) (frm c) (vstart c) (vcsr c) (vl c) (vtype c)
    (reservation_address c) (reservation_value c).
Definition set_insn_addr (v : Z) (c : CPUState) : CPUState :=
  mkCPUState (x c) (f c) v (frm c) (vstart c) (vcsr c) (vl c) (vtype c)
    (reservation_address c) (reservation_value c).
Definition set_reservation (addr value : Z) (c : CPUState) : CPUState :=
  mkCPUState (x c) (f c) (insn_addr c) (frm c) (vstart c) (vcsr c) (vl c) (vtype c) addr value.

(** [state.*CsrFieldAddr<kName>], for the registers with storage. *)
Definition csr_field (name : CsrName.t) (c : CPUState) : Z :=
  match name with
  | CsrName.kFrm => frm c
  | CsrName.kVstart => vstart c
  | CsrName.kVcsr => vcsr c
  | CsrName.kVl => vl c
  | CsrName.kVtype => vtype c
  | _ => 0
  end.
Definition set_csr_field (name : CsrName.t) (v : Z) (c : CPUState) : CPUState :=
  mkCPUState (x c) (f c) (insn_addr c)
    (if name is CsrName.kFrm then v else frm c)
    (if name is CsrName.kVstart then v else vstart c)
    (if name is CsrName.kVcsr then v else vcsr c)
    (if name is CsrName.kVl then v else vl c)
    (if name is CsrName.kVtype then v else vtype c)
    (reservation_address c) (reservation_value c).

(** ** Memory *)

(** A byte of memory, and whether its page can be written. *)
Record Cell := mkCell { cell_byte : Z; cell_writable : bool }.

Abbreviation Memory := (gmap Z Cell) (only parsing).

(** [FaultyLoad(addr, data_bytes)]: the zero-extended little-endian value, or
    [None] for a fault. *)
Fixpoint load_bytes (m : Memory) (addr : Z) (n : nat) : option (list Z) :=
  match n with
  | O => Some []
  | S n => c ← m !! addr; bs ← load_bytes m (addr + 1) n; Some (cell_byte c :: bs)
  end.
Definition FaultyLoad (m : Memory) (addr : Z) (data_bytes : nat) : option Z :=
  le_combine <$> load_bytes m addr data_bytes.

(** All bytes of a range are in pages that can be written. *)
Fixpoint writable (m : Memory) (addr : Z) (n : nat) : bool :=
  match n with
  | O => true
  | S n => match m !! addr with Some c => cell_writable c && writable m (addr + 1) n | None => false end
  end.

(** [FaultyStore(addr, data_bytes, value)]: the new memory, or [None] for a
    fault, which leaves the memory as it was. *)
Fixpoint store_bytes (m : Memory) (addr : Z) (bs : list Z) : Memory :=
  match bs with
  | [] => m
  | b :: bs => <[addr := mkCell b true]> (store_bytes m (addr + 1) bs)
  end.
Definition FaultyStore (m : Memory) (addr : Z) (data_bytes : nat) (value : Z) : option Memory :=
  if writable m addr data_bytes then Some (store_bytes m addr (le_split data_bytes value)) else None.

(** ** Memory reservations

    A CPU is identified by a number.  The table of owners is the array
    [g_owners], indexed by [GetEntry]. *)
Inductive Owner := NoOwner | OwnedBy (cpu : nat) | kLockedOwner.

#[export] Instance Owner_eq_dec : EqDecision Owner.
Proof. solve_decision. Defined.

Definition kHashSize : Z := 4096.
Definition sizeof_Reservation : Z := 8.
Definition GetEntry (addr : Z) : Z := (addr / sizeof_Reservation) mod kHashSize.

Definition owner_of (owners : gmap Z Owner) (addr : Z) : Owner :=
  default NoOwner (owners !! GetEntry addr).

(** [SetOwner(aligned_addr, cpu)] *)
Definition SetOwner (aligned_addr : Z) (cpu : nat) (owners : gmap Z Owner) : gmap Z Owner :=
  if decide (owner_of owners aligned_addr = kLockedOwner) then owners
  else <[GetEntry aligned_addr := OwnedBy cpu]> owners.

(** [TryLock(aligned_addr, cpu)] *)
Definition TryLock (aligned_addr : Z) (cpu : nat) (owners : gmap Z Owner)
    : option (gmap Z Owner) :=
  if decide (owner_of owners aligned_addr = OwnedBy cpu)
  then Some (<[GetEntry aligned_addr := kLockedOwner]> owners) else None.

(** [Unlock(entry)] *)
Definition Unlock (aligned_addr : Z) (owners : gmap Z Owner) : gmap Z Owner :=
  <[GetEntry aligned_addr := NoOwner]> owners.

Definition AlignedReservation (addr : Z) : Z := addr - addr mod sizeof_Reservation.

(** The bytes of [value] put into the region value at offset [off]. *)
Definition embed (region off : Z) (n : nat) (value : Z) : Z :=
  let b := le_split 8 region in
  le_combine (take (Z.to_nat off) b ++ le_split n value ++ drop (Z.to_nat off + n) b).

(** [MemoryRegionReservation::Load<Type>(cpu, addr)]: [None] is a host fault
    (the load is a plain access). *)
Definition Reservation_Load (t : IntType) (cpu : nat) (addr : Z) (c : CPUState)
    (owners : gmap Z Owner) (m : Memory) : option (Z * CPUState * gmap Z Owner) :=
  let aligned_addr := AlignedReservation addr in
  let owners := SetOwner aligned_addr cpu owners in
  v ← FaultyLoad m aligned_addr 8;
  Some (cast t (Z.shiftr v ((addr - aligned_addr) * 8)), set_reservation aligned_addr v c, owners).

(** [std::atomic_compare_exchange_strong] on 8 bytes: whether the value was
    written.  On x86_64 it is a locked instruction that needs write access also
    when the values differ; [None] is a host fault. *)
Definition compare_exchange (m : Memory) (addr expected value : Z) : option (bool * Memory) :=
  v ← FaultyLoad m addr 8;
  m' ← FaultyStore m addr 8 (if v =? expected then value else v);
  Some (if v =? expected then (true, m') else (false, m)).

(** [ReservationExchange]: whether the value was written. *)
Definition ReservationExchange (cpu : nat) (aligned_addr expected value : Z)
    (owners : gmap Z Owner) (m : Memory) : option (bool * gmap Z Owner * Memory) :=
  match TryLock aligned_addr cpu owners with
  | None => Some (false, owners, m)
  | Some owners =>
      '(written, m) ← compare_exchange m aligned_addr expected value;
      Some (written, Unlock aligned_addr owners, m)
  end.

(** [MemoryRegionReservation::Store<Type>(cpu, addr, value)]: 0 on success, 1
    otherwise. *)
Definition Reservation_Store (n : nat) (cpu : nat) (addr value : Z) (c : CPUState)
    (owners : gmap Z Owner) (m : Memory)
    : option (Z * CPUState * gmap Z Owner * Memory) :=
  let reserved := reservation_address c in
  let c := set_reservation 0 (reservation_value c) c in
  let aligned_addr := AlignedReservation addr in
  if negb (aligned_addr =? reserved) then Some (1, c, owners, m)
  else
    let cur_value := reservation_value c in
    let new_value := embed cur_value (addr - aligned_addr) n value in
    '(written, owners, m) ← ReservationExchange cpu aligned_addr cur_value new_value owners m;
    Some ((if written : bool then 0 else 1), c, owners, m).

(** ** Loads after stores *)

Section MemoryLemmas.
Implicit Types (m : Memory) (addr v : Z) (n : nat).

Lemma store_bytes_lookup m addr bs a :
  store_bytes m addr bs !! a =
  if decide (addr <= a < addr + Z.of_nat (length bs))
  then (fun b => mkCell b true) <$> bs !! Z.to_nat (a - addr) else m !! a.
Proof.
  revert addr; induction bs as [| b bs IH]; intros addr; cbn [store_bytes length].
  { rewrite decide_False by lia; done. }
  rewrite lookup_insert; case_decide as Ha; subst.
  - rewrite decide_True by lia; by rewrite Z.sub_diag.
  - rewrite IH; destruct (decide (addr + 1 <= a < addr + 1 + Z.of_nat (length bs))).
    + rewrite decide_True by lia; replace (Z.to_nat (a - addr)) with (S (Z.to_nat (a - (addr + 1)))) by lia.
      done.
    + rewrite decide_False by lia; done.
Qed.

(** A load depends on the bytes of its range only. *)
Lemma load_bytes_ext m m' addr n :
  (forall a, addr <= a < addr + Z.of_nat n -> m' !! a = m !! a) ->
  load_bytes m' addr n = load_bytes m addr n.
Proof.
  revert addr; induction n as [| n IH]; intros addr H; cbn; [done |].
  rewrite (H addr) by lia; rewrite (IH (addr + 1)); [done |]; intros; apply H; lia.
Qed.

Lemma writable_ext m m' addr n :
  (forall a, addr <= a < addr + Z.of_nat n -> m' !! a = m !! a) -> writable m' addr n = writable m addr n.
Proof.
  revert addr; induction n as [| n IH]; intros addr H; cbn; [done |].
  rewrite (H addr) by lia; rewrite (IH (addr + 1)); [done |]; intros; apply H; lia.
Qed.

Lemma load_bytes_store_same m addr bs :
  load_bytes (store_bytes m addr bs) addr (length bs) = Some bs.
Proof.
  revert addr; induction bs as [| b bs IH]; intros addr; cbn [load_bytes length store_bytes]; [done |].
  rewrite lookup_insert_eq; cbn [mbind option_bind].
  rewrite (load_bytes_ext (store_bytes m (addr + 1) bs)); [by rewrite IH |].
  intros a Ha; by rewrite lookup_insert_ne by lia.
Qed.

Lemma load_bytes_length m addr n bs : load_bytes m addr n = Some bs -> length bs = n.
Proof.
  revert addr bs; induction n as [| n IH]; intros addr bs; cbn; [by intros [= <-] |].
  destruct (m !! addr); cbn; [| done]; destruct (load_bytes m (addr + 1) n) eqn:E; cbn; [| done].
  intros [= <-]; cbn; f_equal; eauto.
Qed.

(** The pages keep their protection. *)
Lemma store_bytes_writable m addr bs a :
  writable m addr (length bs) = true -> cell_writable <$> store_bytes m addr bs !! a = cell_writable <$> m !! a.
Proof.
  revert addr; induction bs as [| b bs IH]; intros addr; cbn [writable length store_bytes]; [done |].
  destruct (m !! addr) as [c |] eqn:Ec; [| done]; intros [Hc Hw]%andb_true_iff.
  rewrite lookup_insert; case_decide; [| by apply IH]; subst; rewrite Ec; cbn; by rewrite Hc.
Qed.

Lemma writable_loads m addr n : writable m addr n = true -> is_Some (load_bytes m addr n).
Proof.
  revert addr; induction n as [| n IH]; intros addr; cbn; [by eexists |].
  destruct (m !! addr); [| done]; intros [_ Hw]%andb_true_iff; cbn; destruct (IH _ Hw) as [bs ->]; by eexists.
Qed.

(** A range is writable exactly when each of its bytes is mapped and writable. *)
Lemma writable_spec m addr n :
  writable m addr n = true <-> forall a, addr <= a < addr + Z.of_nat n -> exists b, m !! a = Some (mkCell b true).
Proof.
  revert addr; induction n as [| n IH]; intros addr; cbn [writable]; [split; [intros _ a ?; lia | done] |]; split.
  - destruct (m !! addr) as [[b w] |] eqn:E; [| done]; intros [Hc Hw]%andb_true_iff a Ha; cbn in Hc; subst w.
    destruct (decide (a = addr)) as [-> | Hne]; [by exists b | apply (proj1 (IH (addr + 1)) Hw); lia].
  - intros Hall; destruct (Hall addr) as [b ->]; [lia |]; cbn; apply IH; intros a Ha; apply Hall; lia.
Qed.

Lemma FaultyStore_spec m addr n v m' :
  FaultyStore m addr n v = Some m' ->
  FaultyLoad m' addr n = Some (v mod 2 ^ (8 * Z.of_nat n))
  /\ forall addr' n', addr' + Z.of_nat n' <= addr \/ addr + Z.of_nat n <= addr' ->
     FaultyLoad m' addr' n' = FaultyLoad m addr' n'.
Proof.
  unfold FaultyStore, FaultyLoad; destruct (writable m addr n); [| done]; intros [= <-]; split.
  - rewrite <- (length_le_split n v) at 2; rewrite load_bytes_store_same; cbn.
    by rewrite le_combine_split.
  - intros addr' n' Hd; f_equal; apply load_bytes_ext; intros a Ha.
    rewrite store_bytes_lookup, length_le_split, decide_False by lia; done.
Qed.

(** A store faults exactly when a byte of its range is not mapped or not
    writable; then a load of the range does not fault unless one is not mapped. *)
Lemma FaultyStore_defined m addr n v : is_Some (FaultyStore m addr n v) <-> writable m addr n = true.
Proof. unfold FaultyStore; destruct (writable m addr n); split; try done; by intros [? ?]. Qed.

Lemma writable_FaultyLoad m addr n : writable m addr n = true -> is_Some (FaultyLoad m addr n).
Proof. intros [bs E]%writable_loads; unfold FaultyLoad; rewrite E; by eexists. Qed.

(** A store changes the bytes of its range, and no protection. *)
Lemma FaultyStore_cells m addr n v m' a :
  FaultyStore m addr n v = Some m' ->
  cell_writable <$> m' !! a = cell_writable <$> m !! a /\ (~ (addr <= a < addr + Z.of_nat n) -> m' !! a = m !! a).
Proof.
  unfold FaultyStore; destruct (writable m addr n) eqn:E; [| done]; intros [= <-]; split.
  - apply store_bytes_writable; by rewrite length_le_split.
  - intros Ha; rewrite store_bytes_lookup, length_le_split, decide_False; done.
Qed.
End MemoryLemmas.
