(* ===== verification/Intrinsics.v ===== *)
(** * Integer and atomic intrinsics

    - intrinsics/riscv64_to_arm64/include/berberis/intrinsics/intrinsics.h: the
      integer intrinsics written in C++;
    - intrinsics/include/berberis/intrinsics/intrinsics_atomics_impl.h: the
      atomic memory operations, on the memory of one thread;
    - interpreter/riscv64/regs.h: how results go back to a 64-bit register.

    A register holds an unsigned 64-bit value. *)
From stdpp Require Import gmap.
From S2P Require Import Prelude MachineInt BitUtil GuestState.
#[local] Open Scope Z_scope.

(** [GPRRegToInteger<T>(arg)] *)
Definition GPRRegToInteger (t : IntType) (arg : Z) : Z := cast t arg.

(** [IntegerToGPRReg<T>(arg)]: results of at most 32 bits are sign-extended. *)
Definition IntegerToGPRReg (t : IntType) (arg : Z) : Z :=
  if width t <=? 32 then cast u64 (cast i32 arg) else cast u64 arg.

(** ** Integer intrinsics *)

Definition ShiftedOne (shift_amount : Z) : Z := cast u64 (Z.shiftl 1 (shift_amount mod 64)).
Definition Bclr (in1 in2 : Z) : Z := Z.land in1 (cast u64 (Z.lnot (ShiftedOne in2))).
Definition Bext (in1 in2 : Z) : Z := if negb (Z.land in1 (ShiftedOne in2) =? 0) then 1 else 0.
Definition Binv (in1 in2 : Z) : Z := Z.lxor in1 (ShiftedOne in2).
Definition Bset (in1 in2 : Z) : Z := Z.lor in1 (ShiftedOne in2).

Definition Max (in1 in2 : Z) : Z := Z.max in1 in2.
Definition Min (in1 in2 : Z) : Z := Z.min in1 in2.

Definition DivRiscV (t : IntType) (in1 in2 : Z) : Z :=
  if in2 =? 0 then cast t (Z.lnot 0)
  else if is_signed t && (in2 =? -1) && (in1 =? int_min t) then int_min t
  else Z.quot in1 in2.
Definition RemRiscV (t : IntType) (in1 in2 : Z) : Z :=
  if in2 =? 0 then in1
  else if is_signed t && (in2 =? -1) && (in1 =? int_min t) then 0
  else Z.rem in1 in2.

(** [__builtin_bswap64] *)
Definition Rev8 (in1 : Z) : Z := le_combine (rev (le_split 8 in1)).

(** A shift of a [w]-bit value is defined for amounts from 0 to [w - 1]. *)
Definition shift_defined (w n : Z) : bool := (0 <=? n) && (n <? w).

(** [Rol<T>(in1, in2)] and [Ror<T>(in1, in2)], [in2] an [int8_t]; [None] where
    one of the two shifts is not defined. *)
Definition rotate (left : bool) (w in1 in2 : Z) : option Z :=
  let n := Z.rem in2 w in
  let m := w - n in
  if shift_defined w n && shift_defined w m then
    let u := cast (mkIntType w false) in1 in
    let up k := cast (mkIntType w false) (Z.shiftl u k) in
    Some (cast (mkIntType w true)
            (if left then Z.lor (up n) (Z.shiftr u m) else Z.lor (Z.shiftr u n) (up m)))
  else None.
Definition Rol (t : IntType) (in1 in2 : Z) : option Z := rotate true (width t) in1 in2.
Definition Ror (t : IntType) (in1 in2 : Z) : option Z := rotate false (width t) in1 in2.

Definition Sext (t : IntType) (in1 : Z) : Z := cast i64 in1.
Definition Zext (t : IntType) (in1 : Z) : Z := cast u64 in1.

Definition Sh1add (in1 in2 : Z) : Z := cast u64 (in1 * 2 + in2).
Definition Sh2add (in1 in2 : Z) : Z := cast u64 (in1 * 4 + in2).
Definition Sh3add (in1 in2 : Z) : Z := cast u64 (in1 * 8 + in2).
Definition Sh1adduw (in1 in2 : Z) : Z := Sh1add (cast u64 (cast u32 in1)) in2.
Definition Sh2adduw (in1 in2 : Z) : Z := Sh2add (cast u64 (cast u32 in1)) in2.
Definition Sh3adduw (in1 in2 : Z) : Z := Sh3add (cast u64 (cast u32 in1)) in2.

(** ** Atomic memory operations

    Each reads a value, writes a new one computed from it and returns the old
    one; [None] is a host fault. *)
Definition fetch_op (op : Z -> Z -> Z) (t : IntType) (arg1 arg2 : Z) (m : Memory)
    : option (Z * Memory) :=
  let n := Z.to_nat (width t / 8) in
  raw ← FaultyLoad m arg1 n;
  let old := cast t raw in
  m' ← FaultyStore m arg1 n (cast t (op old arg2));
  Some (old, m').
Definition AmoAdd := fetch_op Z.add.
Definition AmoAnd := fetch_op Z.land.
Definition AmoMax := fetch_op Z.max.
Definition AmoMin := fetch_op Z.min.
Definition AmoOr := fetch_op Z.lor.
Definition AmoSwap := fetch_op (fun _ v => v).
Definition AmoXor := fetch_op Z.lxor.

(** ** Division *)

(** The RISC-V rules: rounding toward zero, all ones for a division by zero,
    the dividend for a remainder by zero, and the wrapped quotient in the one
    case of overflow. *)
Definition riscv_div (t : IntType) (a b q r : Z) : Prop :=
  in_range t q /\ in_range t r
  /\ (b = 0 -> q = cast t (-1) /\ r = a)
  /\ (b <> 0 -> in_range t (Z.quot a b) -> q = Z.quot a b /\ r = Z.rem a b /\ a = b * q + r)
  /\ (b <> 0 -> ~ in_range t (Z.quot a b) -> q = a /\ r = 0 /\ b = -1 /\ a = int_min t).

Lemma quot_bound a b : b <> 0 -> Z.abs (Z.quot a b) <= Z.abs a.
Proof.
  intros Hb; rewrite <- Z.quot_abs, Z.quot_div_nonneg by lia; apply Z.div_le_upper_bound; nia.
Qed.

Lemma quot_shrinks a b : b <> 0 -> b <> 1 -> b <> -1 -> a <> 0 -> 2 * Z.abs (Z.quot a b) <= Z.abs a.
Proof.
  intros ? ? ? ?; rewrite <- Z.quot_abs by done.
  rewrite Z.quot_div_nonneg by lia; pose proof (Z.mul_div_le (Z.abs a) (Z.abs b)).
  pose proof (Z.div_pos (Z.abs a) (Z.abs b)); nia.
Qed.

Lemma quot_m1 a : Z.quot a (-1) = - a.
Proof. change (-1) with (Z.opp 1); by rewrite Z.quot_opp_r, Z.quot_1_r by lia. Qed.

(** The only quotient of two values of a type that leaves the type. *)
Lemma quot_overflow t a b :
  0 < width t -> in_range t a -> in_range t b -> b <> 0 -> ~ in_range t (Z.quot a b) ->
  is_signed t = true /\ b = -1 /\ a = int_min t.
Proof.
  intros Hw Ha Hb Hb0 Hn; pose proof (quot_bound a b Hb0) as Hq.
  destruct (is_signed t) eqn:Hs; [split; [done |] | exfalso].
  - rewrite in_range_signed in Ha, Hn by done.
    destruct (decide (b = -1)) as [-> |].
    + split; [done |]; unfold int_min; rewrite Hs.
      rewrite quot_m1 in Hn; lia.
    + exfalso; apply Hn; destruct (decide (b = 1)) as [-> |]; [rewrite Z.quot_1_r; lia |].
      destruct (decide (a = 0)) as [-> |]; [rewrite Z.quot_0_l by done; lia |].
      pose proof (quot_shrinks a b); pose proof (pow2_pos (width t - 1)); lia.
  - rewrite in_range_unsigned in Ha, Hb, Hn by done; apply Hn.
    pose proof (Z.quot_pos a b); lia.
Qed.

Lemma Rem_in_range t a b :
  0 < width t -> in_range t a -> in_range t b -> b <> 0 -> in_range t (Z.rem a b).
Proof.
  intros Hw Ha Hb Hb0; pose proof (Z.rem_bound_abs a b Hb0); pose proof (Z.rem_sign_nz a b Hb0).
  destruct (is_signed t) eqn:Hs; [rewrite in_range_signed in * by done | rewrite in_range_unsigned in * by done].
  - pose proof (pow2_pos (width t - 1)); lia.
  - pose proof (Z.rem_bound_pos a b); lia.
Qed.

(** C40: [DivRiscV] and [RemRiscV] implement RISC-V division and remainder at
    every width and signedness: they always return a value of the type, follow
    the rules for a zero divisor, give the exact truncated quotient and
    remainder otherwise, and in the single overflowing case (the minimum by -1)
    return the dividend and zero. *)
Theorem DivRem_riscv t a b :
  0 < width t -> in_range t a -> in_range t b -> riscv_div t a b (DivRiscV t a b) (RemRiscV t a b).
Proof.
  intros Hw Ha Hb; assert (IntTypeOk t) as Ok by done.
  unfold riscv_div, DivRiscV, RemRiscV; destruct (Z.eqb_spec b 0) as [-> | Hb0].
  { split_and!; try done; by apply cast_in_range. }
  pose proof (Rem_in_range t a b Hw Ha Hb Hb0) as Hr.
  destruct (is_signed t && (b =? -1) && (a =? int_min t)) eqn:E.
  - apply andb_prop in E as [[Hs ->%Z.eqb_eq]%andb_prop ->%Z.eqb_eq].
    assert (~ in_range t (Z.quot (int_min t) (-1))) as Hn.
    { rewrite quot_m1, in_range_signed by done.
      unfold int_min; rewrite Hs; pose proof (pow2_pos (width t - 1)); lia. }
    split_and!; try done; unfold in_range, int_min, int_max; destruct (is_signed t); try done;
      pose proof (pow2_pos (width t - 1)); lia.
  - assert (in_range t (Z.quot a b)) as Hq.
    { destruct (in_rangeb t (Z.quot a b)) eqn:Eq; [by apply in_rangeb_spec |].
      apply in_rangeb_false in Eq.
      destruct (quot_overflow t a b) as (Hs & -> & ->); try done.
      by rewrite Hs, !Z.eqb_refl in E. }
    split_and!; try done; intros _ _; split_and!; [done | done | apply Z.quot_rem'].
Qed.

Lemma DivRem_riscv_witness :
  riscv_div i32 (-7) 2 (DivRiscV i32 (-7) 2) (RemRiscV i32 (-7) 2)
  /\ DivRiscV i32 (-7) 2 = -3 /\ RemRiscV i32 (-7) 2 = -1.
Proof.
  split; [| split; reflexivity].
  apply (DivRem_riscv i32 (-7) 2); [reflexivity | split; vm_compute; congruence ..].
Defined.

(** ** Bits and rotations *)

(** The single-bit intrinsics act on the bit whose number is the low six bits
    of the second operand and on no other: [Bset] sets it, [Bclr] clears it,
    [Binv] inverts it and [Bext] reads it. *)
Theorem single_bit_intrinsics a n i :
  in_range u64 a -> 0 <= i < 64 ->
  Z.testbit (Bset a n) i = Z.testbit a i || (i =? n mod 64)
  /\ Z.testbit (Bclr a n) i = Z.testbit a i && negb (i =? n mod 64)
  /\ Z.testbit (Binv a n) i = xorb (Z.testbit a i) (i =? n mod 64)
  /\ Bext a n = Z.b2z (Z.testbit a (n mod 64)).
Proof.
  intros Ha Hi; pose proof (Z.mod_pos_bound n 64 ltac:(lia)) as Hn.
  assert (ShiftedOne n = 2 ^ (n mod 64)) as E.
  { unfold ShiftedOne; rewrite Z.shiftl_1_l; apply cast_id; [done |].
    apply in_range_unsigned; [done |]; cbn [width u64].
    pose proof (pow2_pos (n mod 64)); split; [lia | apply Z.pow_lt_mono_r; lia]. }
  assert (Z.testbit (2 ^ (n mod 64)) i = (i =? n mod 64)) as Eb
    by (rewrite Z.pow2_bits_eqb by lia; by rewrite Z.eqb_sym).
  unfold Bset, Bclr, Binv, Bext; rewrite E, Z.lor_spec, Z.land_spec, Z.lxor_spec, Eb.
  rewrite testbit_cast_low, Z.lnot_spec, Eb by (cbn; lia); split_and!; try done.
  assert (Z.land a (2 ^ (n mod 64)) = if Z.testbit a (n mod 64) then 2 ^ (n mod 64) else 0) as ->.
  { apply Z.bits_inj'; intros j Hj; rewrite Z.land_spec, Z.pow2_bits_eqb by lia.
    destruct (Z.eqb_spec (n mod 64) j) as [<- | Hne]; destruct (Z.testbit a (n mod 64)) eqn:Et;
      rewrite ?Z.bits_0, ?Z.pow2_bits_eqb, ?Z.eqb_refl by lia; try done.
    - by rewrite andb_false_r, (proj2 (Z.eqb_neq _ _)).
    - by rewrite andb_false_r. }
  destruct (Z.testbit a (n mod 64)); [| done].
  pose proof (pow2_pos (n mod 64)); by rewrite (proj2 (Z.eqb_neq _ _)) by lia.
Qed.

Lemma single_bit_intrinsics_witness :
  in_range u64 10 /\ Bext 10 67 = Z.b2z (Z.testbit 10 (67 mod 64)).
Proof.
  assert (H : in_range u64 10) by (split; vm_compute; congruence); split; [exact H |].
  apply (single_bit_intrinsics 10 67 0 H); lia.
Defined.

(** Bit [p] of a value rotated left by [k]. *)
Lemma rotated_bit w a k p :
  0 < k < w -> 0 <= p < w ->
  let u := cast (mkIntType w false) a in
  Z.testbit (Z.lor (cast (mkIntType w false) (Z.shiftl u k)) (Z.shiftr u (w - k))) p
  = Z.testbit a (if p <? k then p - k + w else p - k).
Proof.
  intros Hk Hp u.
  assert (forall j, 0 <= j -> Z.testbit u j = (j <? w) && Z.testbit a j) as Hu.
  { intros j Hj; unfold u; by rewrite cast_unsigned, testbit_mod_pow2 by lia. }
  rewrite Z.lor_spec, testbit_cast_low, testbit_shiftr, testbit_shiftl by (cbn; lia).
  rewrite (proj2 (Z.leb_le 0 p)) by lia; cbn [andb].
  destruct (Z.ltb_spec p k).
  - rewrite (Z.testbit_neg_r _ (p - k)) by lia; cbn [orb].
    rewrite Hu, (proj2 (Z.ltb_lt _ _)) by lia; cbn [andb]; f_equal; lia.
  - rewrite !Hu by lia; rewrite (proj2 (Z.ltb_lt (p - k) w)), (proj2 (Z.ltb_ge (p + (w - k)) w)) by lia.
    cbn [andb]; by rewrite orb_false_r.
Qed.

(** A rotation by an amount that is not a multiple of the width moves bit
    [i] to bit [i + n] (left) or [i - n] (right) modulo the width; the C++ code
    has no defined result when the amount is negative or a multiple of the
    width, where one of its two shifts is by the whole width. *)
Theorem rotations (left : bool) w a n :
  w = 32 \/ w = 64 -> in_range i8 n ->
  match rotate left w a n with
  | Some r => in_range (mkIntType w true) r
      /\ forall i, 0 <= i < w ->
         Z.testbit r (if left then (i + n) mod w else (i - n) mod w) = Z.testbit a i
  | None => n < 0 \/ n mod w = 0
  end.
Proof.
  intros Hw Hn; assert (0 < w) by lia; unfold rotate, shift_defined; cbv zeta.
  destruct ((0 <=? Z.rem n w) && (Z.rem n w <? w) && ((0 <=? w - Z.rem n w) && (w - Z.rem n w <? w))) eqn:E.
  - split; [by apply cast_in_range |]; intros i Hi.
    assert (0 < Z.rem n w < w) as Hr by lia.
    assert (0 <= n) as Hn0 by (destruct (decide (0 <= n)); [done |]; pose proof (Z.rem_nonpos n w); lia).
    rewrite Z.rem_mod_nonneg in * by lia.
    pose proof (Z.div_mod n w ltac:(lia)) as Hdm.
    assert (forall k p, 0 < k < w -> 0 <= p < w -> (p - k) mod w = i ->
      (if p <? k then p - k + w else p - k) = i) as Hpos.
    { intros k p Hk Hp <-; destruct (Z.ltb_spec p k).
      - rewrite <- (Z_mod_plus_full (p - k) 1), Z.mod_small by lia; lia.
      - by rewrite Z.mod_small by lia. }
    assert (forall p, 0 <= p < w -> forall z, Z.testbit (cast (mkIntType w true) z) p = Z.testbit z p)
      as Hcast by (intros; by apply testbit_cast_low).
    destruct left.
    + pose proof (Z.mod_pos_bound (i + n) w ltac:(lia)); rewrite Hcast, rotated_bit, Hpos by first
        [done | rewrite Zminus_mod_idemp_l, Zminus_mod_idemp_r; rewrite Z.mod_small; lia]; done.
    + pose proof (Z.mod_pos_bound (i - n) w ltac:(lia)); rewrite Hcast, Z.lor_comm by done.
      replace (n mod w) with (w - (w - n mod w)) at 2 by lia.
      rewrite rotated_bit, Hpos by first [done | lia |
        rewrite Zminus_mod_idemp_l; replace (i - n - (w - n mod w)) with (i + (- (n / w + 1)) * w) by lia;
        rewrite Z_mod_plus_full; by apply Z.mod_small]; done.
  - destruct (decide (n < 0)); [by left | right].
    rewrite Z.rem_mod_nonneg in E by lia; pose proof (Z.mod_pos_bound n w ltac:(lia)); lia.
Qed.

Lemma rotations_witness :
  match rotate true 32 1 5 with
  | Some r => in_range (mkIntType 32 true) r
      /\ forall i, 0 <= i < 32 -> Z.testbit r ((i + 5) mod 32) = Z.testbit 1 i
  | None => 5 < 0 \/ 5 mod 32 = 0
  end.
Proof. apply (rotations true 32 1 5); [lia | split; vm_compute; congruence]. Defined.

(** An atomic memory operation returns the old value of its location, of its
    type, leaves the value computed from it there, and changes no other
    location; it fails, changing nothing, exactly when its location is not mapped
    and writable. *)
Theorem atomic_operations op t arg1 arg2 m :
  width t = 32 \/ width t = 64 ->
  let n := Z.to_nat (width t / 8) in
  match fetch_op op t arg1 arg2 m with
  | Some (old, m') =>
      (exists raw, FaultyLoad m arg1 n = Some raw /\ old = cast t raw)
      /\ (exists raw', FaultyLoad m' arg1 n = Some raw' /\ cast t raw' = cast t (op old arg2))
      /\ forall addr k, addr + Z.of_nat k <= arg1 \/ arg1 + Z.of_nat n <= addr ->
         FaultyLoad m' addr k = FaultyLoad m addr k
  | None => writable m arg1 n = false
  end.
Proof.
  intros Hw n; unfold fetch_op; fold n; destruct (writable m arg1 n) eqn:Ew.
  2: { destruct (FaultyLoad m arg1 n); cbn; [| done]; unfold FaultyStore; by rewrite Ew. }
  destruct (writable_FaultyLoad m arg1 n Ew) as [raw El]; rewrite El; cbn.
  destruct (proj2 (FaultyStore_defined m arg1 n (cast t (op (cast t raw) arg2))) Ew) as [m' Em].
  rewrite Em; cbn; apply FaultyStore_spec in Em as [Hs Hf]; split_and!; [by eexists | | done].
  eexists; split; [done |]; assert (IntTypeOk t) by (unfold IntTypeOk; lia).
  assert (8 * Z.of_nat n = width t) as -> by (unfold n; destruct Hw as [-> | ->]; done).
  rewrite cast_mod_pow2 by lia; apply cast_congr; [done |]; by rewrite Z.mod_mod by (pose proof (range_pos t); lia).
Qed.

Definition sample_memory : Memory := store_bytes ∅ 0x1000 (le_split 8 0x1122334455667788).

Lemma atomic_operations_witness :
  match AmoAdd i32 0x1000 5 sample_memory with
  | Some (old, m') =>
      (exists raw, FaultyLoad sample_memory 0x1000 4 = Some raw /\ old = cast i32 raw)
      /\ (exists raw', FaultyLoad m' 0x1000 4 = Some raw' /\ cast i32 raw' = cast i32 (old + 5))
      /\ forall addr k, addr + Z.of_nat k <= 0x1000 \/ 0x1000 + Z.of_nat 4 <= addr ->
         FaultyLoad m' addr k = FaultyLoad sample_memory addr k
  | None => writable sample_memory 0x1000 4 = false
  end.
Proof. apply (atomic_operations Z.add i32 0x1000 5 sample_memory); left; reflexivity. Defined.
