(* ===== verification/SemanticsPlayer.v ===== *)
(** * The semantics player

    decoder/include/berberis/decoder/riscv64/semantics_player.h: the
    instruction consumer that plays every instruction as a sequence of calls to
    a semantics listener (the interpreter and the translators are listeners).

    The listener is a class: its methods are the operations the player uses,
    over an effect [M], registers [R] and floating-point registers [F]; the
    intrinsics hooks, which differ only in their name and type, are grouped by
    the shape of their arguments. *)
From stdpp Require Import base list.
From S2P Require Import Prelude MachineInt RiscvInsn GuestState.
#[local] Open Scope Z_scope.

Inductive FloatType := Float32 | Float64.

(** ** Names of the intrinsics hooks *)
Module Hook.
(** Two registers to a register. *)
Inductive binary :=
  | DivRiscV (t : IntType) | RemRiscV (t : IntType) | Max (t : IntType) | Min (t : IntType)
  | Rol (t : IntType) | Ror (t : IntType) | Sh1add | Sh2add | Sh3add
  | Sh1adduw | Sh2adduw | Sh3adduw | Bclr | Bext | Binv | Bset | Adduw.
(** One register to a register. *)
Inductive unary :=
  | Zext (t : IntType) | Sext (t : IntType) | Clz (t : IntType) | Cpop (t : IntType)
  | Ctz (t : IntType) | Orcb | Rev8.
(** A register and an immediate. *)
Inductive shift :=
  | Slli | Srli | Srai | Rori | Roriw | Slliuw | Bclri | Bexti | Binvi | Bseti.
(** Atomic memory operations. *)
Inductive amo := AmoSwap | AmoAdd | AmoXor | AmoAnd | AmoOr | AmoMin | AmoMax.
(** Floating point, with rounding: two and three operands. *)
Inductive fp_round := FAdd | FSub | FMul | FDiv.
Inductive fp_fma := FMAdd | FMSub | FNMAdd | FNMSub.
(** Floating point without rounding. *)
Inductive fp_plain := FSgnj | FSgnjn | FSgnjx | FMin | FMax.
Inductive fp_compare := Fle | Flt | Feq.
End Hook.

(** ** The listener *)
Class SemanticsListener (M : Type -> Type) (R F : Type) := {
  no_register : R;
  no_fp_register : F;
  l_GetReg : Z -> M R;
  l_SetReg : Z -> R -> M unit;
  l_GetFpReg : Z -> M F;
  l_GetFRegAndUnboxNan : FloatType -> Z -> M F;
  l_NanBoxAndSetFpReg : FloatType -> Z -> F -> M unit;
  l_CanonicalizeNan : FloatType -> F -> M F;
  l_GetCsr : CsrName.t -> M R;
  l_SetCsr : CsrName.t -> R -> M unit;
  l_SetCsrImm : CsrName.t -> Z -> M unit;
  l_UpdateCsr : Z -> R -> R -> M R;
  l_UpdateCsrImm : Z -> Z -> R -> M R;
  l_GetImm : Z -> M R;
  l_Copy : R -> M R;
  l_GetInsnAddr : M Z;
  l_Nop : M unit;
  l_Undefined : M unit;
  l_Lr : IntType -> bool -> bool -> R -> M R;
  l_Sc : IntType -> bool -> bool -> R -> R -> M R;
  l_Amo : Hook.amo -> IntType -> bool -> bool -> R -> R -> M R;
  l_Auipc : Z -> M R;
  l_Lui : Z -> M R;
  l_CompareAndBranch : Z -> R -> R -> Z -> M unit;
  l_Branch : Z -> M unit;
  l_BranchRegister : R -> Z -> M unit;
  l_Fence : FenceArgs.t -> M unit;
  l_Load : Z -> R -> Z -> M R;
  l_LoadFp : FloatType -> R -> Z -> M F;
  l_Store : Z -> R -> Z -> R -> M unit;
  l_StoreFp : FloatType -> R -> Z -> F -> M unit;
  l_Op : Z -> R -> R -> M R;
  l_Op32 : Z -> R -> R -> M R;
  l_OpImm : Z -> R -> Z -> M R;
  l_OpImm32 : Z -> R -> Z -> M R;
  l_ShiftImm32 : Z -> R -> Z -> M R;
  l_binary : Hook.binary -> R -> R -> M R;
  l_unary : Hook.unary -> R -> M R;
  l_shift : Hook.shift -> R -> Z -> M R;
  l_Ecall : list R -> M R;
  l_FCvtFloatToFloat : FloatType -> FloatType -> Z -> R -> F -> M F;
  l_FCvtFloatToInteger : IntType -> FloatType -> Z -> R -> F -> M R;
  l_FCvtIntegerToFloat : FloatType -> IntType -> Z -> R -> R -> M F;
  l_fp_round : Hook.fp_round -> FloatType -> Z -> R -> F -> F -> M F;
  l_fp_fma : Hook.fp_fma -> FloatType -> Z -> R -> F -> F -> F -> M F;
  l_fp_plain : Hook.fp_plain -> FloatType -> F -> F -> M F;
  l_fp_compare : Hook.fp_compare -> FloatType -> F -> F -> M R;
  l_FClass : FloatType -> F -> M R;
  l_FSqrt : FloatType -> Z -> R -> F -> M F;
  l_Fmv : F -> M F;
  l_FmvFloatToInteger : IntType -> FloatType -> F -> M R;
  l_FmvIntegerToFloat : FloatType -> IntType -> R -> M F;
  l_OpVector : InsnCall -> list R -> list F -> M unit;
  l_Vtestvli : R -> R -> Z -> M (R * R)%type;
  l_Vtestvl : R -> R -> R -> M (R * R)%type;
  l_Vsetvlimax : Z -> M (R * R)%type;
  l_Vsetvlmax : R -> M (R * R)%type;
  l_Vsetivli : Z -> Z -> M (R * R)%type;
  l_Vsetvl : R -> R -> M (R * R)%type;
  l_Vsetvli : R -> Z -> M (R * R)%type
}.

(** ** The player *)
Module SemanticsPlayer.
Section Player.
Context {M : Type -> Type} `{MRet M, MBind M} {R F : Type} `{!SemanticsListener M R F}.

Definition GetRegOrZero (reg : Z) : M R := if reg =? 0 then l_GetImm 0 else l_GetReg reg.
Definition SetRegOrIgnore (reg : Z) (value : R) : M unit :=
  if negb (reg =? 0) then l_SetReg reg value else mret tt.
Definition Undefined : M unit := l_Undefined.

(** [GetCsr(csr)]: whether the register is supported, and its value. *)
Definition GetCsr (csr : Z) : M (bool * R)%type :=
  match ProcessCsrName csr with
  | Some name => v ← l_GetCsr name; mret (true, v)
  | None => mret (false, no_register)
  end.

(** [SetCsr(csr, imm)] and [SetCsr(csr, reg)]: whether the write was allowed. *)
Definition SetCsr_with (set : CsrName.t -> M unit) (csr : Z) : M bool :=
  if negb (CsrWritable csr) then mret false
  else
    match ProcessCsrName csr with
    | Some name => _ ← (if CsrWritable (enum_bits name) then set name else mret tt); mret true
    | None => mret false
    end.
Definition SetCsr_imm (csr imm : Z) : M bool := SetCsr_with (fun n => l_SetCsrImm n imm) csr.
Definition SetCsr (csr : Z) (reg : R) : M bool := SetCsr_with (fun n => l_SetCsr n reg) csr.

Definition GetVlAndVtypeCsr : M (R * R)%type :=
  vl_orig ← l_GetCsr CsrName.kVl;
  vtype_orig ← l_GetCsr CsrName.kVtype;
  mret (vl_orig, vtype_orig).
Definition SetVlAndVtypeCsr (vl vtype : R) : M unit :=
  _ ← l_SetCsr CsrName.kVtype vtype; l_SetCsr CsrName.kVl vl.

(** *** Atomic operations *)
Definition Amo_typed (t : IntType) (opcode : Z) (arg1 arg2 : R) (aq rl : bool) : M R :=
  match enum_of opcode with
  | Some AmoOpcode.kLr => l_Lr t aq rl arg1
  | Some AmoOpcode.kSc => l_Sc t aq rl arg1 arg2
  | Some AmoOpcode.kAmoswap => l_Amo Hook.AmoSwap t aq rl arg1 arg2
  | Some AmoOpcode.kAmoadd => l_Amo Hook.AmoAdd t aq rl arg1 arg2
  | Some AmoOpcode.kAmoxor => l_Amo Hook.AmoXor t aq rl arg1 arg2
  | Some AmoOpcode.kAmoand => l_Amo Hook.AmoAnd t aq rl arg1 arg2
  | Some AmoOpcode.kAmoor => l_Amo Hook.AmoOr t aq rl arg1 arg2
  | Some AmoOpcode.kAmomin => l_Amo Hook.AmoMin (make_signed t) aq rl arg1 arg2
  | Some AmoOpcode.kAmomax => l_Amo Hook.AmoMax (make_signed t) aq rl arg1 arg2
  | Some AmoOpcode.kAmominu => l_Amo Hook.AmoMin (make_unsigned t) aq rl arg1 arg2
  | Some AmoOpcode.kAmomaxu => l_Amo Hook.AmoMax (make_unsigned t) aq rl arg1 arg2
  | None => _ ← Undefined; mret no_register
  end.

Definition Amo (args : AmoArgs.t) : M unit :=
  arg1 ← GetRegOrZero (AmoArgs.src1 args);
  arg2 ← GetRegOrZero (AmoArgs.src2 args);
  let play t :=
    result ← Amo_typed t (AmoArgs.opcode args) arg1 arg2 (AmoArgs.aq args) (AmoArgs.rl args);
    SetRegOrIgnore (AmoArgs.dst args) result in
  match enum_of (AmoArgs.operand_type args) with
  | Some MemoryDataOperandType.k32bit => play i32
  | Some MemoryDataOperandType.k64bit => play i64
  | _ => Undefined
  end.

Definition Auipc (args : UpperImmArgs.t) : M unit :=
  result ← l_Auipc (UpperImmArgs.imm args); SetRegOrIgnore (UpperImmArgs.dst args) result.

Definition CompareAndBranch (args : BranchArgs.t) : M unit :=
  arg1 ← GetRegOrZero (BranchArgs.src1 args);
  arg2 ← GetRegOrZero (BranchArgs.src2 args);
  l_CompareAndBranch (BranchArgs.opcode args) arg1 arg2 (BranchArgs.offset args).

(** *** Control and status registers *)
Definition Csr (args : CsrArgs.t) : M unit :=
  let csr_name := CsrArgs.csr args in
  if CsrArgs.opcode args =? enum_bits CsrOpcode.kCsrrw then
    if negb (CsrArgs.dst args =? 0) then
      '(csr_supported, csr) ← GetCsr csr_name;
      if negb csr_supported then Undefined
      else
        arg ← l_GetReg (CsrArgs.src args);
        _ ← SetCsr csr_name arg;
        l_SetReg (CsrArgs.dst args) csr
    else
      arg ← l_GetReg (CsrArgs.src args);
      ok ← SetCsr csr_name arg;
      if negb ok then Undefined else mret tt
  else
    '(csr_supported, csr) ← GetCsr csr_name;
    if negb csr_supported then Undefined
    else
      ok ← (if negb (CsrArgs.src args =? 0) then
              arg ← l_GetReg (CsrArgs.src args);
              new ← l_UpdateCsr (CsrArgs.opcode args) arg csr;
              SetCsr csr_name new
            else mret true);
      if negb ok then Undefined else SetRegOrIgnore (CsrArgs.dst args) csr.

Definition CsrImm (args : CsrImmArgs.t) : M unit :=
  let csr_name := CsrImmArgs.csr args in
  if CsrImmArgs.opcode args =? enum_bits CsrImmOpcode.kCsrrwi then
    if negb (CsrImmArgs.dst args =? 0) then
      '(csr_supported, csr) ← GetCsr csr_name;
      if negb csr_supported then Undefined
      else
        ok ← SetCsr csr_name csr;
        if negb ok then Undefined
        else
          _ ← l_SetReg (CsrImmArgs.dst args) csr;
          _ ← SetCsr_imm csr_name (CsrImmArgs.imm args);
          mret tt
    else _ ← SetCsr_imm csr_name (CsrImmArgs.imm args); mret tt
  else
    '(csr_supported, csr) ← GetCsr csr_name;
    if negb csr_supported then Undefined
    else
      ok ← (if negb (CsrImmArgs.imm args =? 0) then
              new ← l_UpdateCsrImm (CsrImmArgs.opcode args) (CsrImmArgs.imm args) csr;
              SetCsr csr_name new
            else mret true);
      if negb ok then Undefined else SetRegOrIgnore (CsrImmArgs.dst args) csr.

(** *** Floating-point conversions *)
Definition Fcvt_FloatToFloat (args : FcvtFloatToFloatArgs.t) : M unit :=
  let convert dst_type src_type :=
    arg ← l_GetFRegAndUnboxNan src_type (FcvtFloatToFloatArgs.src args);
    frm ← l_GetCsr CsrName.kFrm;
    result ← l_FCvtFloatToFloat dst_type src_type (FcvtFloatToFloatArgs.rm args) frm arg;
    l_NanBoxAndSetFpReg dst_type (FcvtFloatToFloatArgs.dst args) result in
  match enum_of (FcvtFloatToFloatArgs.dst_type args), enum_of (FcvtFloatToFloatArgs.src_type args) with
  | Some FloatOperandType.kFloat, Some FloatOperandType.kDouble => convert Float32 Float64
  | Some FloatOperandType.kDouble, Some FloatOperandType.kFloat => convert Float64 Float32
  | _, _ => Undefined
  end.

(** The integer type a conversion operand names. *)
Definition FcvtIntType (operand : Z) : option IntType :=
  match enum_of operand with
  | Some FcvtOperandType.k32bitSigned => Some i32
  | Some FcvtOperandType.k32bitUnsigned => Some u32
  | Some FcvtOperandType.k64bitSigned => Some i64
  | Some FcvtOperandType.k64bitUnsigned => Some u64
  | None => None
  end.

Definition FcvtloatToInteger (ft : FloatType) (dst_type rm dst src : Z) : M unit :=
  arg ← l_GetFRegAndUnboxNan ft src;
  frm ← l_GetCsr CsrName.kFrm;
  match FcvtIntType dst_type with
  | Some t => result ← l_FCvtFloatToInteger t ft rm frm arg; SetRegOrIgnore dst result
  | None => Undefined
  end.

Definition FcvtIntegerToFloat (ft : FloatType) (src_type rm dst src : Z) : M unit :=
  arg ← GetRegOrZero src;
  frm ← l_GetCsr CsrName.kFrm;
  match FcvtIntType src_type with
  | Some t => result ← l_FCvtIntegerToFloat ft t rm frm arg; l_NanBoxAndSetFpReg ft dst result
  | None => Undefined
  end.

(** The [switch] over the operand type that selects [Float32] or [Float64]. *)
Definition by_float_type (operand_type : Z) (play : FloatType -> M unit) : M unit :=
  match enum_of operand_type with
  | Some FloatOperandType.kFloat => play Float32
  | Some FloatOperandType.kDouble => play Float64
  | _ => Undefined
  end.

Definition Fcvt_FloatToInteger (args : FcvtFloatToIntegerArgs.t) : M unit :=
  by_float_type (FcvtFloatToIntegerArgs.src_type args) (fun ft =>
    FcvtloatToInteger ft (FcvtFloatToIntegerArgs.dst_type args) (FcvtFloatToIntegerArgs.rm args)
      (FcvtFloatToIntegerArgs.dst args) (FcvtFloatToIntegerArgs.src args)).
Definition Fcvt_IntegerToFloat (args : FcvtIntegerToFloatArgs.t) : M unit :=
  by_float_type (FcvtIntegerToFloatArgs.dst_type args) (fun ft =>
    FcvtIntegerToFloat ft (FcvtIntegerToFloatArgs.src_type args) (FcvtIntegerToFloatArgs.rm args)
      (FcvtIntegerToFloatArgs.dst args) (FcvtIntegerToFloatArgs.src args)).

(** *** Fused multiply-add; the names of the two negated forms are swapped. *)
Definition Fma_typed (ft : FloatType) (args : FmaArgs.t) : M unit :=
  arg1 ← l_GetFRegAndUnboxNan ft (FmaArgs.src1 args);
  arg2 ← l_GetFRegAndUnboxNan ft (FmaArgs.src2 args);
  arg3 ← l_GetFRegAndUnboxNan ft (FmaArgs.src3 args);
  frm ← l_GetCsr CsrName.kFrm;
  let finish op :=
    result ← l_fp_fma op ft (FmaArgs.rm args) frm arg1 arg2 arg3;
    result ← l_CanonicalizeNan ft result;
    l_NanBoxAndSetFpReg ft (FmaArgs.dst args) result in
  match enum_of (FmaArgs.opcode args) with
  | Some FmaOpcode.kFmadd => finish Hook.FMAdd
  | Some FmaOpcode.kFmsub => finish Hook.FMSub
  | Some FmaOpcode.kFnmsub => finish Hook.FNMAdd
  | Some FmaOpcode.kFnmadd => finish Hook.FNMSub
  | None => Undefined
  end.
Definition Fma (args : FmaArgs.t) : M unit :=
  by_float_type (FmaArgs.operand_type args) (fun ft => Fma_typed ft args).

Definition Fence (args : FenceArgs.t) : M unit := l_Fence args.
Definition FenceI (args : FenceIArgs.t) : M unit := Undefined.

(** *** Jumps *)
Definition JumpAndLink (args : JumpAndLinkArgs.t) : M unit :=
  pc ← l_GetInsnAddr;
  result ← l_GetImm (cast u64 (pc + JumpAndLinkArgs.insn_len args));
  _ ← SetRegOrIgnore (JumpAndLinkArgs.dst args) result;
  l_Branch (JumpAndLinkArgs.offset args).

Definition JumpAndLinkRegister (args : JumpAndLinkRegisterArgs.t) : M unit :=
  base ← GetRegOrZero (JumpAndLinkRegisterArgs.base args);
  base ← (if JumpAndLinkRegisterArgs.base args =? JumpAndLinkRegisterArgs.dst args
          then l_Copy base else mret base);
  pc ← l_GetInsnAddr;
  next_insn_addr ← l_GetImm (cast u64 (pc + JumpAndLinkRegisterArgs.insn_len args));
  _ ← SetRegOrIgnore (JumpAndLinkRegisterArgs.dst args) next_insn_addr;
  l_BranchRegister base (JumpAndLinkRegisterArgs.offset args).

(** *** Memory *)
Definition Load (args : LoadArgsTemplate.t) : M unit :=
  arg ← GetRegOrZero (LoadArgsTemplate.src args);
  result ← l_Load (LoadArgsTemplate.operand_type args) arg (LoadArgsTemplate.offset args);
  SetRegOrIgnore (LoadArgsTemplate.dst args) result.
Definition LoadFp (args : LoadArgsTemplate.t) : M unit :=
  by_float_type (LoadArgsTemplate.operand_type args) (fun ft =>
    arg ← GetRegOrZero (LoadArgsTemplate.src args);
    result ← l_LoadFp ft arg (LoadArgsTemplate.offset args);
    l_NanBoxAndSetFpReg ft (LoadArgsTemplate.dst args) result).

Definition Store (args : StoreArgsTemplate.t) : M unit :=
  arg ← GetRegOrZero (StoreArgsTemplate.src args);
  data ← GetRegOrZero (StoreArgsTemplate.data args);
  l_Store (StoreArgsTemplate.operand_type args) arg (StoreArgsTemplate.offset args) data.
Definition StoreFp (args : StoreArgsTemplate.t) : M unit :=
  arg ← GetRegOrZero (StoreArgsTemplate.src args);
  data ← l_GetFpReg (StoreArgsTemplate.data args);
  by_float_type (StoreArgsTemplate.operand_type args) (fun ft =>
    l_StoreFp ft arg (StoreArgsTemplate.offset args) data).

Definition Lui (args : UpperImmArgs.t) : M unit :=
  result ← l_Lui (UpperImmArgs.imm args); SetRegOrIgnore (UpperImmArgs.dst args) result.
Definition Nop : M unit := l_Nop.

(** *** Integer operations *)
Definition Op_hook (opcode : Z) : option Hook.binary :=
  match enum_of opcode with
  | Some OpOpcode.kDiv => Some (Hook.DivRiscV i64)
  | Some OpOpcode.kDivu => Some (Hook.DivRiscV u64)
  | Some OpOpcode.kRem => Some (Hook.RemRiscV i64)
  | Some OpOpcode.kRemu => Some (Hook.RemRiscV u64)
  | Some OpOpcode.kMax => Some (Hook.Max i64)
  | Some OpOpcode.kMaxu => Some (Hook.Max u64)
  | Some OpOpcode.kMin => Some (Hook.Min i64)
  | Some OpOpcode.kMinu => Some (Hook.Min u64)
  | Some OpOpcode.kRol => Some (Hook.Rol i64)
  | Some OpOpcode.kRor => Some (Hook.Ror i64)
  | Some OpOpcode.kSh1add => Some Hook.Sh1add
  | Some OpOpcode.kSh2add => Some Hook.Sh2add
  | Some OpOpcode.kSh3add => Some Hook.Sh3add
  | Some OpOpcode.kBclr => Some Hook.Bclr
  | Some OpOpcode.kBext => Some Hook.Bext
  | Some OpOpcode.kBinv => Some Hook.Binv
  | Some OpOpcode.kBset => Some Hook.Bset
  | _ => None
  end.
Definition Op32_hook (opcode : Z) : option Hook.binary :=
  match enum_of opcode with
  | Some Op32Opcode.kAdduw => Some Hook.Adduw
  | Some Op32Opcode.kDivw => Some (Hook.DivRiscV i32)
  | Some Op32Opcode.kDivuw => Some (Hook.DivRiscV u32)
  | Some Op32Opcode.kRemw => Some (Hook.RemRiscV i32)
  | Some Op32Opcode.kRemuw => Some (Hook.RemRiscV u32)
  | Some Op32Opcode.kRolw => Some (Hook.Rol i32)
  | Some Op32Opcode.kRorw => Some (Hook.Ror i32)
  | Some Op32Opcode.kSh1adduw => Some Hook.Sh1adduw
  | Some Op32Opcode.kSh2adduw => Some Hook.Sh2adduw
  | Some Op32Opcode.kSh3adduw => Some Hook.Sh3adduw
  | _ => None
  end.

(** The two overloads of [Op] differ in the hooks and in the listener's method
    for the other opcodes. *)
Definition Op_with (hook : Z -> option Hook.binary) (other : Z -> R -> R -> M R)
    (args : OpArgsTemplate.t) : M unit :=
  arg1 ← GetRegOrZero (OpArgsTemplate.src1 args);
  arg2 ← GetRegOrZero (OpArgsTemplate.src2 args);
  result ← match hook (OpArgsTemplate.opcode args) with
           | Some h => l_binary h arg1 arg2
           | None => other (OpArgsTemplate.opcode args) arg1 arg2
           end;
  SetRegOrIgnore (OpArgsTemplate.dst args) result.
Definition Op : OpArgsTemplate.t -> M unit := Op_with Op_hook l_Op.
Definition Op32 : OpArgsTemplate.t -> M unit := Op_with Op32_hook l_Op32.

Definition OpSingleInput (args : OpSingleInputArgs.t) : M unit :=
  arg ← GetRegOrZero (OpSingleInputArgs.src args);
  let finish h := result ← l_unary h arg; SetRegOrIgnore (OpSingleInputArgs.dst args) result in
  match enum_of (OpSingleInputArgs.opcode args) with
  | Some OpSingleInputOpcode.kZextb => finish (Hook.Zext u8)
  | Some OpSingleInputOpcode.kZexth => finish (Hook.Zext u16)
  | Some OpSingleInputOpcode.kZextw => finish (Hook.Zext u32)
  | Some OpSingleInputOpcode.kSextb => finish (Hook.Sext i8)
  | Some OpSingleInputOpcode.kSexth => finish (Hook.Sext i16)
  | None => Undefined
  end.

(** The overloads of [OpImm]: [compute] is the one for the argument type. *)
Definition OpImm_with (src dst : Z) (compute : R -> M R) : M unit :=
  arg ← GetRegOrZero src; result ← compute arg; SetRegOrIgnore dst result.
Definition undefined_register : M R := _ ← Undefined; mret no_register.

Definition OpImm (args : OpImmArgsTemplate.t) : M unit :=
  OpImm_with (OpImmArgsTemplate.src args) (OpImmArgsTemplate.dst args) (fun arg =>
    l_OpImm (OpImmArgsTemplate.opcode args) arg (OpImmArgsTemplate.imm args)).
Definition OpImm32 (args : OpImmArgsTemplate.t) : M unit :=
  OpImm_with (OpImmArgsTemplate.src args) (OpImmArgsTemplate.dst args) (fun arg =>
    l_OpImm32 (OpImmArgsTemplate.opcode args) arg (OpImmArgsTemplate.imm args)).
Definition OpImmShift (args : ShiftImmArgsTemplate.t) : M unit :=
  OpImm_with (ShiftImmArgsTemplate.src args) (ShiftImmArgsTemplate.dst args) (fun arg =>
    match enum_of (ShiftImmArgsTemplate.opcode args) with
    | Some ShiftImmOpcode.kSlli => l_shift Hook.Slli arg (ShiftImmArgsTemplate.imm args)
    | Some ShiftImmOpcode.kSrli => l_shift Hook.Srli arg (ShiftImmArgsTemplate.imm args)
    | Some ShiftImmOpcode.kSrai => l_shift Hook.Srai arg (ShiftImmArgsTemplate.imm args)
    | None => undefined_register
    end).
Definition OpImmShift32 (args : ShiftImmArgsTemplate.t) : M unit :=
  OpImm_with (ShiftImmArgsTemplate.src args) (ShiftImmArgsTemplate.dst args) (fun arg =>
    l_ShiftImm32 (ShiftImmArgsTemplate.opcode args) arg (ShiftImmArgsTemplate.imm args)).
Definition OpImmBitmanip (args : BitmanipImmArgsTemplate.t) : M unit :=
  let shamt := BitmanipImmArgsTemplate.shamt args in
  OpImm_with (BitmanipImmArgsTemplate.src args) (BitmanipImmArgsTemplate.dst args) (fun arg =>
    match enum_of (BitmanipImmArgsTemplate.opcode args) with
    | Some BitmanipImmOpcode.kClz => l_unary (Hook.Clz i64) arg
    | Some BitmanipImmOpcode.kCpop => l_unary (Hook.Cpop i64) arg
    | Some BitmanipImmOpcode.kCtz => l_unary (Hook.Ctz i64) arg
    | Some BitmanipImmOpcode.kSextb => l_unary (Hook.Sext i8) arg
    | Some BitmanipImmOpcode.kSexth => l_unary (Hook.Sext i16) arg
    | Some BitmanipImmOpcode.kOrcb => l_unary Hook.Orcb arg
    | Some BitmanipImmOpcode.kRev8 => l_unary Hook.Rev8 arg
    | Some BitmanipImmOpcode.kRori => l_shift Hook.Rori arg shamt
    | Some BitmanipImmOpcode.kBclri => l_shift Hook.Bclri arg shamt
    | Some BitmanipImmOpcode.kBexti => l_shift Hook.Bexti arg shamt
    | Some BitmanipImmOpcode.kBinvi => l_shift Hook.Binvi arg shamt
    | Some BitmanipImmOpcode.kBseti => l_shift Hook.Bseti arg shamt
    | None => undefined_register
    end).
Definition OpImmBitmanip32 (args : BitmanipImmArgsTemplate.t) : M unit :=
  let shamt := BitmanipImmArgsTemplate.shamt args in
  OpImm_with (BitmanipImmArgsTemplate.src args) (BitmanipImmArgsTemplate.dst args) (fun arg =>
    match enum_of (BitmanipImmArgsTemplate.opcode args) with
    | Some BitmanipImm32Opcode.kClzw => l_unary (Hook.Clz i32) arg
    | Some BitmanipImm32Opcode.kCpopw => l_unary (Hook.Cpop i32) arg
    | Some BitmanipImm32Opcode.kCtzw => l_unary (Hook.Ctz i32) arg
    | Some BitmanipImm32Opcode.kRoriw => l_shift Hook.Roriw arg shamt
    | Some BitmanipImm32Opcode.kSlliuw => l_shift Hook.Slliuw arg shamt
    | None => undefined_register
    end).

(** *** Floating-point operations *)
Definition OpFp_typed (ft : FloatType) (args : OpFpArgs.t) : M unit :=
  arg1 ← l_GetFRegAndUnboxNan ft (OpFpArgs.src1 args);
  arg2 ← l_GetFRegAndUnboxNan ft (OpFpArgs.src2 args);
  frm ← l_GetCsr CsrName.kFrm;
  let finish op :=
    result ← l_fp_round op ft (OpFpArgs.rm args) frm arg1 arg2;
    result ← l_CanonicalizeNan ft result;
    l_NanBoxAndSetFpReg ft (OpFpArgs.dst args) result in
  match enum_of (OpFpArgs.opcode args) with
  | Some OpFpOpcode.kFAdd => finish Hook.FAdd
  | Some OpFpOpcode.kFSub => finish Hook.FSub
  | Some OpFpOpcode.kFMul => finish Hook.FMul
  | Some OpFpOpcode.kFDiv => finish Hook.FDiv
  | None => Undefined
  end.
Definition OpFp (args : OpFpArgs.t) : M unit :=
  by_float_type (OpFpArgs.operand_type args) (fun ft => OpFp_typed ft args).

Definition OpFpGpRegisterTargetNoRounding (args : OpFpGpRegisterTargetNoRoundingArgs.t) : M unit :=
  by_float_type (OpFpGpRegisterTargetNoRoundingArgs.operand_type args) (fun ft =>
    arg1 ← l_GetFRegAndUnboxNan ft (OpFpGpRegisterTargetNoRoundingArgs.src1 args);
    arg2 ← l_GetFRegAndUnboxNan ft (OpFpGpRegisterTargetNoRoundingArgs.src2 args);
    let finish op :=
      result ← l_fp_compare op ft arg1 arg2;
      SetRegOrIgnore (OpFpGpRegisterTargetNoRoundingArgs.dst args) result in
    match enum_of (OpFpGpRegisterTargetNoRoundingArgs.opcode args) with
    | Some OpFpGpRegisterTargetNoRoundingOpcode.kFle => finish Hook.Fle
    | Some OpFpGpRegisterTargetNoRoundingOpcode.kFlt => finish Hook.Flt
    | Some OpFpGpRegisterTargetNoRoundingOpcode.kFeq => finish Hook.Feq
    | None => Undefined
    end).

Definition OpFpGpRegisterTargetSingleInputNoRounding
    (args : OpFpGpRegisterTargetSingleInputNoRoundingArgs.t) : M unit :=
  by_float_type (OpFpGpRegisterTargetSingleInputNoRoundingArgs.operand_type args) (fun ft =>
    arg ← l_GetFRegAndUnboxNan ft (OpFpGpRegisterTargetSingleInputNoRoundingArgs.src args);
    match enum_of (OpFpGpRegisterTargetSingleInputNoRoundingArgs.opcode args) with
    | Some OpFpGpRegisterTargetSingleInputNoRoundingOpcode.kFclass =>
        result ← l_FClass ft arg;
        SetRegOrIgnore (OpFpGpRegisterTargetSingleInputNoRoundingArgs.dst args) result
    | None => Undefined
    end).

(** Sign injection reads the registers as they are and keeps the bits of NaNs. *)
Definition OpFpNoRounding (args : OpFpNoRoundingArgs.t) : M unit :=
  let src1 := OpFpNoRoundingArgs.src1 args in
  let src2 := OpFpNoRoundingArgs.src2 args in
  let dst := OpFpNoRoundingArgs.dst args in
  by_float_type (OpFpNoRoundingArgs.operand_type args) (fun ft =>
    let raw op :=
      arg1 ← l_GetFpReg src1; arg2 ← l_GetFpReg src2;
      result ← l_fp_plain op ft arg1 arg2;
      l_NanBoxAndSetFpReg ft dst result in
    let canonical op :=
      arg1 ← l_GetFRegAndUnboxNan ft src1; arg2 ← l_GetFRegAndUnboxNan ft src2;
      result ← l_fp_plain op ft arg1 arg2;
      result ← l_CanonicalizeNan ft result;
      l_NanBoxAndSetFpReg ft dst result in
    match enum_of (OpFpNoRoundingArgs.opcode args) with
    | Some OpFpNoRoundingOpcode.kFSgnj => raw Hook.FSgnj
    | Some OpFpNoRoundingOpcode.kFSgnjn => raw Hook.FSgnjn
    | Some OpFpNoRoundingOpcode.kFSgnjx => raw Hook.FSgnjx
    | Some OpFpNoRoundingOpcode.kFMin => canonical Hook.FMin
    | Some OpFpNoRoundingOpcode.kFMax => canonical Hook.FMax
    | None => _ ← l_GetFRegAndUnboxNan ft src1; _ ← l_GetFRegAndUnboxNan ft src2; Undefined
    end).

Definition FmvFloatToInteger (args : FmvFloatToIntegerArgs.t) : M unit :=
  arg ← l_GetFpReg (FmvFloatToIntegerArgs.src args);
  let finish t ft :=
    result ← l_FmvFloatToInteger t ft arg; SetRegOrIgnore (FmvFloatToIntegerArgs.dst args) result in
  match enum_of (FmvFloatToIntegerArgs.operand_type args) with
  | Some FloatOperandType.kFloat => finish i32 Float32
  | Some FloatOperandType.kDouble => finish i64 Float64
  | _ => Undefined
  end.
Definition FmvIntegerToFloat (args : FmvIntegerToFloatArgs.t) : M unit :=
  arg ← GetRegOrZero (FmvIntegerToFloatArgs.src args);
  let finish ft t :=
    result ← l_FmvIntegerToFloat ft t arg;
    l_NanBoxAndSetFpReg ft (FmvIntegerToFloatArgs.dst args) result in
  match enum_of (FmvIntegerToFloatArgs.operand_type args) with
  | Some FloatOperandType.kFloat => finish Float32 i32
  | Some FloatOperandType.kDouble => finish Float64 i64
  | _ => Undefined
  end.

Definition OpFpSingleInput (args : OpFpSingleInputArgs.t) : M unit :=
  by_float_type (OpFpSingleInputArgs.operand_type args) (fun ft =>
    arg ← l_GetFRegAndUnboxNan ft (OpFpSingleInputArgs.src args);
    frm ← l_GetCsr CsrName.kFrm;
    match enum_of (OpFpSingleInputArgs.opcode args) with
    | Some OpFpSingleInputOpcode.kFSqrt =>
        result ← l_FSqrt ft (OpFpSingleInputArgs.rm args) frm arg;
        result ← l_CanonicalizeNan ft result;
        l_NanBoxAndSetFpReg ft (OpFpSingleInputArgs.dst args) result
    | None => Undefined
    end).
Definition OpFpSingleInputNoRounding (args : OpFpSingleInputNoRoundingArgs.t) : M unit :=
  by_float_type (OpFpSingleInputNoRoundingArgs.operand_type args) (fun ft =>
    arg ← l_GetFRegAndUnboxNan ft (OpFpSingleInputNoRoundingArgs.src args);
    match enum_of (OpFpSingleInputNoRoundingArgs.opcode args) with
    | Some OpFpSingleInputNoRoundingOpcode.kFmv =>
        result ← l_Fmv arg;
        result ← l_CanonicalizeNan ft result;
        l_NanBoxAndSetFpReg ft (OpFpSingleInputNoRoundingArgs.dst args) result
    | None => Undefined
    end).

(** *** Vector instructions: the scalar operands are read here. *)
Definition OpVector (call : InsnCall) : M unit :=
  match call with
  | RiscvInsn.OpVectorLoadIndexed a => arg2 ← GetRegOrZero (VLoadIndexedArgs.src a); l_OpVector call [arg2] []
  | RiscvInsn.OpVectorLoadStride a =>
      arg2 ← GetRegOrZero (VLoadStrideArgs.src a); arg3 ← GetRegOrZero (VLoadStrideArgs.std a);
      l_OpVector call [arg2; arg3] []
  | RiscvInsn.OpVectorLoadUnitStride a => arg2 ← GetRegOrZero (VLoadUnitStrideArgs.src a); l_OpVector call [arg2] []
  | RiscvInsn.OpVectorFVf a => arg2 ← l_GetFpReg (VOpFVfArgs.src2 a); l_OpVector call [] [arg2]
  | RiscvInsn.OpVectorIVx a => arg2 ← GetRegOrZero (VOpIVxArgs.src2 a); l_OpVector call [arg2] []
  | RiscvInsn.OpVectorMVx a => arg2 ← GetRegOrZero (VOpMVxArgs.src2 a); l_OpVector call [arg2] []
  | RiscvInsn.OpVectorStoreIndexed a => arg2 ← GetRegOrZero (VStoreIndexedArgs.src a); l_OpVector call [arg2] []
  | RiscvInsn.OpVectorStoreStride a =>
      arg2 ← GetRegOrZero (VStoreStrideArgs.src a); arg3 ← GetRegOrZero (VStoreStrideArgs.std a);
      l_OpVector call [arg2; arg3] []
  | RiscvInsn.OpVectorStoreUnitStride a => arg2 ← GetRegOrZero (VStoreUnitStrideArgs.src a); l_OpVector call [arg2] []
  | _ => l_OpVector call [] []
  end.

(** The two tests [Vsetivli] and [Vsetvli] share: [x0] as the length keeps it,
    or asks for the largest one. *)
Definition Vset_zero_imm (dst vtype : Z) : M unit :=
  if dst =? 0 then
    '(vl_orig, vtype_orig) ← GetVlAndVtypeCsr;
    '(vl, vtype) ← l_Vtestvli vl_orig vtype_orig vtype;
    SetVlAndVtypeCsr vl vtype
  else
    '(vl, vtype) ← l_Vsetvlimax vtype;
    _ ← SetVlAndVtypeCsr vl vtype;
    l_SetReg dst vl.
Definition Vsetivli (args : VsetivliArgs.t) : M unit :=
  if VsetivliArgs.avl args =? 0 then Vset_zero_imm (VsetivliArgs.dst args) (VsetivliArgs.vtype args)
  else
    '(vl, vtype) ← l_Vsetivli (VsetivliArgs.avl args) (VsetivliArgs.vtype args);
    _ ← SetVlAndVtypeCsr vl vtype;
    SetRegOrIgnore (VsetivliArgs.dst args) vl.
Definition Vsetvl (args : VsetvlArgs.t) : M unit :=
  vtype_new ← l_GetReg (VsetvlArgs.src2 args);
  if VsetvlArgs.src1 args =? 0 then
    if VsetvlArgs.dst args =? 0 then
      '(vl_orig, vtype_orig) ← GetVlAndVtypeCsr;
      '(vl, vtype) ← l_Vtestvl vl_orig vtype_orig vtype_new;
      SetVlAndVtypeCsr vl vtype
    else
      '(vl, vtype) ← l_Vsetvlmax vtype_new;
      _ ← SetVlAndVtypeCsr vl vtype;
      l_SetReg (VsetvlArgs.dst args) vl
  else
    avl ← l_GetReg (VsetvlArgs.src1 args);
    '(vl, vtype) ← l_Vsetvl avl vtype_new;
    _ ← SetVlAndVtypeCsr vl vtype;
    SetRegOrIgnore (VsetvlArgs.dst args) vl.
Definition Vsetvli (args : VsetvliArgs.t) : M unit :=
  if VsetvliArgs.src args =? 0 then Vset_zero_imm (VsetvliArgs.dst args) (VsetvliArgs.vtype args)
  else
    avl ← l_GetReg (VsetvliArgs.src args);
    '(vl, vtype) ← l_Vsetvli avl (VsetvliArgs.vtype args);
    _ ← SetVlAndVtypeCsr vl vtype;
    SetRegOrIgnore (VsetvliArgs.dst args) vl.

Definition System (args : SystemArgs.t) : M unit :=
  if negb (SystemArgs.opcode args =? enum_bits SystemOpcode.kEcall) then Undefined
  else
    syscall_nr ← GetRegOrZero 17;
    arg0 ← GetRegOrZero 10;
    arg1 ← GetRegOrZero 11;
    arg2 ← GetRegOrZero 12;
    arg3 ← GetRegOrZero 13;
    arg4 ← GetRegOrZero 14;
    arg5 ← GetRegOrZero 15;
    result ← l_Ecall [syscall_nr; arg0; arg1; arg2; arg3; arg4; arg5];
    SetRegOrIgnore 10 result.

(** A call of the decoder, played. *)
Definition consume (call : InsnCall) : M unit :=
  match call with
  | RiscvInsn.Amo a => Amo a
  | RiscvInsn.Auipc a => Auipc a
  | RiscvInsn.CompareAndBranch a => CompareAndBranch a
  | RiscvInsn.Csr a => Csr a
  | RiscvInsn.CsrImm a => CsrImm a
  | RiscvInsn.FcvtFloatToFloat a => Fcvt_FloatToFloat a
  | RiscvInsn.FcvtFloatToInteger a => Fcvt_FloatToInteger a
  | RiscvInsn.FcvtIntegerToFloat a => Fcvt_IntegerToFloat a
  | RiscvInsn.Fence a => Fence a
  | RiscvInsn.FenceI a => FenceI a
  | RiscvInsn.Fma a => Fma a
  | RiscvInsn.FmvFloatToInteger a => FmvFloatToInteger a
  | RiscvInsn.FmvIntegerToFloat a => FmvIntegerToFloat a
  | RiscvInsn.JumpAndLink a => JumpAndLink a
  | RiscvInsn.JumpAndLinkRegister a => JumpAndLinkRegister a
  | RiscvInsn.Load a => Load a
  | RiscvInsn.LoadFp a => LoadFp a
  | RiscvInsn.Lui a => Lui a
  | RiscvInsn.Nop => Nop
  | RiscvInsn.Op a => Op a
  | RiscvInsn.Op32 a => Op32 a
  | RiscvInsn.OpFp a => OpFp a
  | RiscvInsn.OpFpGpRegisterTargetNoRounding a => OpFpGpRegisterTargetNoRounding a
  | RiscvInsn.OpFpGpRegisterTargetSingleInputNoRounding a => OpFpGpRegisterTargetSingleInputNoRounding a
  | RiscvInsn.OpFpNoRounding a => OpFpNoRounding a
  | RiscvInsn.OpFpSingleInput a => OpFpSingleInput a
  | RiscvInsn.OpFpSingleInputNoRounding a => OpFpSingleInputNoRounding a
  | RiscvInsn.OpImm a => OpImm a
  | RiscvInsn.OpImm32 a => OpImm32 a
  | RiscvInsn.OpImmShift a => OpImmShift a
  | RiscvInsn.OpImmShift32 a => OpImmShift32 a
  | RiscvInsn.OpImmBitmanip a => OpImmBitmanip a
  | RiscvInsn.OpImmBitmanip32 a => OpImmBitmanip32 a
  | RiscvInsn.OpSingleInput a => OpSingleInput a
  | RiscvInsn.Store a => Store a
  | RiscvInsn.StoreFp a => StoreFp a
  | RiscvInsn.System a => System a
  | RiscvInsn.Undefined => Undefined
  | RiscvInsn.Vsetivli a => Vsetivli a
  | RiscvInsn.Vsetvl a => Vsetvl a
  | RiscvInsn.Vsetvli a => Vsetvli a
  | call => OpVector call
  end.

(** The calls of one instruction, in order. *)
Fixpoint consume_all (calls : list InsnCall) : M unit :=
  match calls with
  | [] => mret tt
  | c :: calls => _ ← consume c; consume_all calls
  end.
End Player.
End SemanticsPlayer.
