(* ===== verification/Interpreter.v ===== *)
(** * The RISC-V interpreter

    interpreter/riscv64/interpreter.h and interpreter-main.cc: the semantics
    listener that executes every operation the player asks for on the guest
    state, for a host that is not arm64 (the branches without
    [__aarch64__]).

    The effect is a state monad with failure: [None] stands for everything that
    ends the process (a failed [CHECK], a host fault outside the recoverable
    accesses) and for C++ operations with undefined behaviour (a signed overflow, a
    shift by the width of the operand).

    Code that is generated by the build or runs outside this code is a
    parameter, the class [Host]: the intrinsics hooks, the floating-point
    environment, the cycle counter and the kernel.  The vector instructions are
    a parameter too. *)
From stdpp Require Import gmap.
From S2P Require Import Prelude MachineInt BitUtil RiscvInsn RiscvDecoder GuestState Intrinsics SemanticsPlayer.
#[local] Open Scope Z_scope.

(** ** Calls that go to the host *)

Inductive FpCall :=
  | FpCvtFloatToFloat (dst_t src_t : FloatType) (rm frm arg : Z)
  | FpCvtFloatToInteger (t : IntType) (src_t : FloatType) (rm frm arg : Z)
  | FpCvtIntegerToFloat (dst_t : FloatType) (t : IntType) (rm frm arg : Z)
  | FpRound (op : Hook.fp_round) (ft : FloatType) (rm frm arg1 arg2 : Z)
  | FpFma (op : Hook.fp_fma) (ft : FloatType) (rm frm arg1 arg2 arg3 : Z)
  | FpPlain (op : Hook.fp_plain) (ft : FloatType) (arg1 arg2 : Z)
  | FpCompare (op : Hook.fp_compare) (ft : FloatType) (arg1 arg2 : Z)
  | FpClass (ft : FloatType) (arg : Z)
  | FpSqrt (ft : FloatType) (rm frm arg : Z)
  | FpMvFloatToInteger (t : IntType) (ft : FloatType) (arg : Z)
  | FpMvIntegerToFloat (ft : FloatType) (t : IntType) (arg : Z)
  | FpCanonicalizeNan (ft : FloatType) (arg : Z)
  | FpUnboxNan (arg : Z)
  | FpNanBox (arg : Z).

Inductive VsetCall :=
  | HVtestvli (vl_orig vtype_orig vtype : Z)
  | HVtestvl (vl_orig vtype_orig vtype : Z)
  | HVsetvlimax (vtype : Z)
  | HVsetvlmax (vtype : Z)
  | HVsetivli (avl vtype : Z)
  | HVsetvl (avl vtype : Z)
  | HVsetvli (avl vtype : Z).

(** The part of the thread state the kernel and the vector code work on. *)
Record GuestContext (E : Type) := mkGuestContext {
  ctx_cpu : CPUState;
  ctx_mem : Memory;
  ctx_env : E
}.
Arguments mkGuestContext {E}.
Arguments ctx_cpu {E}.
Arguments ctx_mem {E}.
Arguments ctx_env {E}.

(** The hooks return the register they would write; a floating-point call can
    change the environment (its exception flags). *)
Class Host := {
  host_env : Type;
  FeGetExceptions : host_env -> Z;
  FeSetExceptions : Z -> host_env -> host_env;
  FeSetRound : Z -> host_env -> host_env;
  CPUClockCount : host_env -> Z;
  host_binary : Hook.binary -> Z -> Z -> Z;
  host_unary : Hook.unary -> Z -> Z;
  host_shift : Hook.shift -> Z -> Z -> Z;
  host_fp : FpCall -> host_env -> Z * host_env;
  host_vset : VsetCall -> Z * Z;
  RunGuestSyscall : GuestContext host_env -> GuestContext host_env;
  host_vector : InsnCall -> list Z -> list Z -> GuestContext host_env ->
    option (GuestContext host_env * bool)
}.

(** ** State *)

(** [state_], [branch_taken_] and [exception_raised_], with the shared memory
    and owner table, and the addresses for which [UndefinedInsn] was called. *)
Record IState `{Host} := mkIState {
  cpu_id : nat;
  cpu : CPUState;
  mem : Memory;
  owners : gmap Z Owner;
  env : host_env;
  undefined_insns : list Z;
  branch_taken_ : bool;
  exception_raised_ : bool
}.

Section Setters.
Context `{Host}.
Definition set_cpu (c : CPUState) (s : IState) : IState :=
  mkIState _ (cpu_id s) c (mem s) (owners s) (env s) (undefined_insns s) (branch_taken_ s)
    (exception_raised_ s).
Definition set_mem (m : Memory) (s : IState) : IState :=
  mkIState _ (cpu_id s) (cpu s) m (owners s) (env s) (undefined_insns s) (branch_taken_ s)
    (exception_raised_ s).
Definition set_owners (o : gmap Z Owner) (s : IState) : IState :=
  mkIState _ (cpu_id s) (cpu s) (mem s) o (env s) (undefined_insns s) (branch_taken_ s)
    (exception_raised_ s).
Definition set_env (e : host_env) (s : IState) : IState :=
  mkIState _ (cpu_id s) (cpu s) (mem s) (owners s) e (undefined_insns s) (branch_taken_ s)
    (exception_raised_ s).
Definition set_undefined_insns (l : list Z) (s : IState) : IState :=
  mkIState _ (cpu_id s) (cpu s) (mem s) (owners s) (env s) l (branch_taken_ s)
    (exception_raised_ s).
Definition set_branch_taken (b : bool) (s : IState) : IState :=
  mkIState _ (cpu_id s) (cpu s) (mem s) (owners s) (env s) (undefined_insns s) b
    (exception_raised_ s).
Definition set_exception_raised (b : bool) (s : IState) : IState :=
  mkIState _ (cpu_id s) (cpu s) (mem s) (owners s) (env s) (undefined_insns s) (branch_taken_ s) b.
Definition context (s : IState) : GuestContext host_env := mkGuestContext (cpu s) (mem s) (env s).
Definition set_context (c : GuestContext host_env) (s : IState) : IState :=
  set_env (ctx_env c) (set_mem (ctx_mem c) (set_cpu (ctx_cpu c) s)).
End Setters.

(** ** The effect *)

Definition IM `{Host} (A : Type) : Type := IState -> option (A * IState).
#[export] Instance IM_ret `{Host} : MRet IM := fun A a s => Some (a, s).
#[export] Instance IM_bind `{Host} : MBind IM := fun A B k m s =>
  match m s with Some (a, s') => k a s' | None => None end.

Section Effect.
Context `{Host}.
Definition gets {A} (f : IState -> A) : IM A := fun s => Some (f s, s).
Definition modify (f : IState -> IState) : IM unit := fun s => Some (tt, f s).
Definition fail {A} : IM A := fun _ => None.
(** A failed [CHECK] aborts. *)
Definition CHECK (b : bool) : IM unit := if b then mret tt else fail.
(** A computation that may be undefined. *)
Definition defined (v : option Z) : IM Z := match v with Some v => mret v | None => fail end.
Definition check_no_exception : IM unit := e ← gets exception_raised_; CHECK (negb e).
End Effect.

(** ** Operations *)
Module Interpreter.
Section Operations.
Context `{Host}.

Definition GetInsnAddr : IM Z := gets (fun s => insn_addr (cpu s)).
Definition Nop : IM unit := mret tt.
Definition Undefined : IM unit :=
  modify (fun s => set_exception_raised true
                     (set_undefined_insns (undefined_insns s ++ [insn_addr (cpu s)]) s)).
(** [Undefined(); return {};] *)
Definition undefined_result : IM Z := _ ← Undefined; mret 0.

(** *** Registers *)
Definition CheckRegIsValid (reg : Z) : IM unit :=
  _ ← CHECK (0 <? reg); CHECK (reg <=? Z.of_nat kNumGuestRegs).
Definition CheckFpRegIsValid (reg : Z) : IM unit := CHECK (reg <? Z.of_nat kNumGuestFpRegs).

(** An index past the end of the array is undefined. *)
Definition GetReg (reg : Z) : IM Z :=
  _ ← CheckRegIsValid reg; v ← gets (fun s => x (cpu s) !! Z.to_nat reg); defined v.
Definition SetReg (reg value : Z) : IM unit :=
  e ← gets exception_raised_;
  if e : bool then mret tt
  else
    _ ← CheckRegIsValid reg;
    n ← gets (fun s => length (x (cpu s)));
    _ ← CHECK (Z.to_nat reg <? n)%nat;
    modify (fun s => set_cpu (set_x (<[Z.to_nat reg := value]> (x (cpu s))) (cpu s)) s).

(** A call of a floating-point hook. *)
Definition call_fp (c : FpCall) : IM Z := fun s =>
  let '(v, e) := host_fp c (env s) in Some (v, set_env e s).

Definition GetFpReg (reg : Z) : IM Z :=
  _ ← CheckFpRegIsValid reg; v ← gets (fun s => f (cpu s) !! Z.to_nat reg); defined v.
Definition GetFRegAndUnboxNan (ft : FloatType) (reg : Z) : IM Z :=
  value ← GetFpReg reg;
  match ft with Float32 => call_fp (FpUnboxNan value) | Float64 => mret value end.
Definition NanBoxAndSetFpReg (ft : FloatType) (reg value : Z) : IM unit :=
  e ← gets exception_raised_;
  if e : bool then mret tt
  else
    _ ← CheckFpRegIsValid reg;
    value ← match ft with Float32 => call_fp (FpNanBox value) | Float64 => mret value end;
    modify (fun s => set_cpu (set_f (<[Z.to_nat reg := value]> (f (cpu s))) (cpu s)) s).

(** *** Control and status registers *)
Definition GetCsr (name : CsrName.t) : IM Z :=
  gets (fun s =>
    match name with
    | CsrName.kCycle => CPUClockCount (env s)
    | CsrName.kFCsr => Z.lor (FeGetExceptions (env s)) (Z.shiftl (frm (cpu s)) 5)
    | CsrName.kFFlags => FeGetExceptions (env s)
    | CsrName.kVlenb => 16
    | CsrName.kVxrm => Z.land (vcsr (cpu s)) 3
    | CsrName.kVxsat => Z.shiftr (vcsr (cpu s)) 2
    | name => csr_field name (cpu s)
    end).

Definition set_frm (arg : Z) : IM unit :=
  modify (fun s => set_env (FeSetRound arg (env s))
                     (set_cpu (set_csr_field CsrName.kFrm arg (cpu s)) s)).
Definition set_vcsr (value : Z -> Z) : IM unit :=
  modify (fun s => set_cpu (set_csr_field CsrName.kVcsr (value (vcsr (cpu s))) (cpu s)) s).

Definition SetCsr (name : CsrName.t) (arg : Z) : IM unit :=
  match name with
  | CsrName.kFCsr =>
      _ ← check_no_exception;
      _ ← modify (fun s => set_env (FeSetExceptions (Z.land arg 31) (env s)) s);
      set_frm (Z.land (Z.shiftr arg 5) (kCsrMask CsrName.kFrm))
  | CsrName.kFFlags =>
      _ ← check_no_exception;
      modify (fun s => set_env (FeSetExceptions (Z.land arg 31) (env s)) s)
  | CsrName.kFrm => _ ← check_no_exception; set_frm (Z.land arg (kCsrMask CsrName.kFrm))
  | CsrName.kVxrm =>
      _ ← check_no_exception; set_vcsr (fun v => Z.lor (Z.land v 4) (Z.land arg 3))
  | CsrName.kVxsat =>
      _ ← check_no_exception;
      set_vcsr (fun v => Z.lor (Z.land v 3) (Z.shiftl (Z.land arg 1) 2))
  | name =>
      e ← gets exception_raised_;
      if e : bool then mret tt
      else modify (fun s => set_cpu (set_csr_field name (Z.land arg (kCsrMask name)) (cpu s)) s)
  end.

Definition UpdateCsr (opcode arg csr : Z) : IM Z :=
  match enum_of opcode with
  | Some CsrOpcode.kCsrrs => mret (Z.lor arg csr)
  | Some CsrOpcode.kCsrrc => mret (Z.land (cast u64 (Z.lnot arg)) csr)
  | _ => undefined_result
  end.
Definition UpdateCsrImm (opcode imm csr : Z) : IM Z := UpdateCsr opcode imm csr.

(** *** Integer operations *)
Definition Op (opcode arg1 arg2 : Z) : IM Z :=
  let s1 := cast i64 arg1 in
  let s2 := cast i64 arg2 in
  let ret v := mret (cast u64 v) in
  match enum_of opcode with
  | Some OpOpcode.kAdd => ret (Wrapping.add i64 s1 s2)
  | Some OpOpcode.kSub => ret (Wrapping.sub i64 s1 s2)
  | Some OpOpcode.kAnd => ret (Wrapping.and i64 s1 s2)
  | Some OpOpcode.kOr => ret (Wrapping.or i64 s1 s2)
  | Some OpOpcode.kXor => ret (Wrapping.xor i64 s1 s2)
  | Some OpOpcode.kSll => ret (Wrapping.shl i64 s1 s2)
  | Some OpOpcode.kSrl => ret (Wrapping.shr u64 arg1 s2)
  | Some OpOpcode.kSra => ret (Wrapping.shr i64 s1 s2)
  | Some OpOpcode.kSlt => ret (if s1 <? s2 then 1 else 0)
  | Some OpOpcode.kSltu => ret (if arg1 <? arg2 then 1 else 0)
  | Some OpOpcode.kMul => ret (Wrapping.mul i64 s1 s2)
  | Some OpOpcode.kMulh =>
      ret (Wrapping.NarrowTopHalf i64
             (Wrapping.mul i128 (Wrapping.wrap_Widen i128 s1) (Wrapping.wrap_Widen i128 s2)))
  | Some OpOpcode.kMulhsu =>
      ret (Wrapping.NarrowTopHalf i64
             (Wrapping.mul i128 (Wrapping.wrap_Widen i128 s1)
                (BitCastToSigned u128 (Wrapping.wrap_Widen u128 arg2))))
  | Some OpOpcode.kMulhu =>
      ret (Wrapping.NarrowTopHalf u64
             (Wrapping.mul u128 (Wrapping.wrap_Widen u128 arg1) (Wrapping.wrap_Widen u128 arg2)))
  | Some OpOpcode.kAndn => ret (Wrapping.and i64 s1 (Wrapping.not i64 s2))
  | Some OpOpcode.kOrn => ret (Wrapping.or i64 s1 (Wrapping.not i64 s2))
  | Some OpOpcode.kXnor => ret (Wrapping.not i64 (Wrapping.xor i64 s1 s2))
  | _ => undefined_result
  end.

Definition Op32 (opcode arg1 arg2 : Z) : IM Z :=
  let s1 := TruncateTo i32 arg1 in
  let s2 := TruncateTo i32 arg2 in
  let ret v := mret (cast u64 (Wrapping.wrap_Widen i64 v)) in
  match enum_of opcode with
  | Some Op32Opcode.kAddw => ret (Wrapping.add i32 s1 s2)
  | Some Op32Opcode.kSubw => ret (Wrapping.sub i32 s1 s2)
  | Some Op32Opcode.kSllw => ret (Wrapping.shl i32 s1 s2)
  | Some Op32Opcode.kSrlw => ret (BitCastToSigned u32 (Wrapping.shr u32 (TruncateTo u32 arg1) s2))
  | Some Op32Opcode.kSraw => ret (Wrapping.shr i32 s1 s2)
  | Some Op32Opcode.kMulw => ret (Wrapping.mul i32 s1 s2)
  | _ => undefined_result
  end.

Definition OpImm (opcode arg imm : Z) : IM Z :=
  match enum_of opcode with
  | Some OpImmOpcode.kAddi => mret (cast u64 (arg + cast u64 imm))
  | Some OpImmOpcode.kSlti => mret (if cast i64 arg <? imm then 1 else 0)
  | Some OpImmOpcode.kSltiu => mret (if arg <? cast u64 imm then 1 else 0)
  | Some OpImmOpcode.kXori => mret (Z.lxor arg (cast u64 imm))
  | Some OpImmOpcode.kOri => mret (Z.lor arg (cast u64 imm))
  | Some OpImmOpcode.kAndi => mret (Z.land arg (cast u64 imm))
  | None => undefined_result
  end.

Definition Lui (imm : Z) : IM Z := mret (cast u64 imm).
Definition Auipc (imm : Z) : IM Z := pc ← GetInsnAddr; mret (cast u64 (pc + cast u64 imm)).

(** [int32_t] addition, undefined when it overflows. *)
Definition add_int32 (a b : Z) : option Z :=
  if in_rangeb i32 (a + b) then Some (a + b) else None.
Definition OpImm32 (opcode arg imm : Z) : IM Z :=
  match enum_of opcode with
  | Some OpImm32Opcode.kAddiw => v ← defined (add_int32 (cast i32 arg) imm); mret (cast u64 v)
  | None => undefined_result
  end.

(** Shifts by an amount outside the width are undefined. *)
Definition shift_ok (w n : Z) (v : Z) : IM Z := if shift_defined w n then mret v else fail.
Definition Slli (arg imm : Z) : IM Z := shift_ok 64 imm (cast u64 (Z.shiftl arg imm)).
Definition Srli (arg imm : Z) : IM Z := shift_ok 64 imm (Z.shiftr arg imm).
Definition Srai (arg imm : Z) : IM Z := shift_ok 64 imm (cast u64 (Z.shiftr (cast i64 arg) imm)).
Definition ShiftImm32 (opcode arg imm : Z) : IM Z :=
  match enum_of opcode with
  | Some ShiftImm32Opcode.kSlliw =>
      shift_ok 32 imm (cast u64 (cast i32 (Z.shiftl (cast i32 arg) imm)))
  | Some ShiftImm32Opcode.kSrliw =>
      shift_ok 32 imm (cast u64 (cast i32 (Z.shiftr (cast u32 arg) imm)))
  | Some ShiftImm32Opcode.kSraiw => shift_ok 32 imm (cast u64 (Z.shiftr (cast i32 arg) imm))
  | None => undefined_result
  end.
Definition CheckShamtIsValid (shamt : Z) : IM unit :=
  _ ← CHECK (0 <=? shamt); CHECK (shamt <? 64).
Definition CheckShamt32IsValid (shamt : Z) : IM unit :=
  _ ← CHECK (0 <=? shamt); CHECK (shamt <? 32).
(** The second shift is by the width when [shamt] is 0. *)
Definition Rori (arg shamt : Z) : IM Z :=
  _ ← CheckShamtIsValid shamt;
  shift_ok 64 (64 - shamt)
    (Z.lor (Z.shiftr (cast u64 arg) shamt) (cast u64 (Z.shiftl (cast u64 arg) (64 - shamt)))).
Definition Roriw (arg shamt : Z) : IM Z :=
  _ ← CheckShamt32IsValid shamt;
  shift_ok 32 (32 - shamt)
    (cast u64 (cast i32 (Z.lor (Z.shiftr (cast u32 arg) shamt)
                          (cast u32 (Z.shiftl (cast u32 arg) (32 - shamt)))))).

(** *** Memory *)
Definition Load_typed (t : IntType) (addr : Z) : IM Z :=
  _ ← check_no_exception;
  m ← gets mem;
  match FaultyLoad m addr (Z.to_nat (width t / 8)) with
  | None => _ ← modify (set_exception_raised true); mret 0
  | Some v => mret (cast u64 (cast t v))
  end.
Definition Load (operand_type arg offset : Z) : IM Z :=
  let ptr := cast u64 (arg + offset) in
  match enum_of operand_type with
  | Some LoadOperandType.k8bitUnsigned => Load_typed u8 ptr
  | Some LoadOperandType.k16bitUnsigned => Load_typed u16 ptr
  | Some LoadOperandType.k32bitUnsigned => Load_typed u32 ptr
  | Some LoadOperandType.k64bit => Load_typed u64 ptr
  | Some LoadOperandType.k8bitSigned => Load_typed i8 ptr
  | Some LoadOperandType.k16bitSigned => Load_typed i16 ptr
  | Some LoadOperandType.k32bitSigned => Load_typed i32 ptr
  | None => undefined_result
  end.
Definition float_type (ft : FloatType) : IntType :=
  match ft with Float32 => u32 | Float64 => u64 end.
Definition LoadFp (ft : FloatType) (arg offset : Z) : IM Z :=
  Load_typed (float_type ft) (cast u64 (arg + offset)).

Definition Store_typed (t : IntType) (addr data : Z) : IM unit :=
  _ ← check_no_exception;
  m ← gets mem;
  match FaultyStore m addr (Z.to_nat (width t / 8)) data with
  | None => modify (set_exception_raised true)
  | Some m' => modify (fun s => set_exception_raised false (set_mem m' s))
  end.
Definition Store (operand_type arg offset data : Z) : IM unit :=
  let ptr := cast u64 (arg + offset) in
  match enum_of operand_type with
  | Some MemoryDataOperandType.k8bit => Store_typed u8 ptr data
  | Some MemoryDataOperandType.k16bit => Store_typed u16 ptr data
  | Some MemoryDataOperandType.k32bit => Store_typed u32 ptr data
  | Some MemoryDataOperandType.k64bit => Store_typed u64 ptr data
  | None => Undefined
  end.
Definition StoreFp (ft : FloatType) (arg offset data : Z) : IM unit :=
  Store_typed (float_type ft) (cast u64 (arg + offset)) data.

(** *** Atomic operations *)
Definition reservation_load (t : IntType) (addr : Z) : IM Z := fun s =>
  match Reservation_Load t (cpu_id s) addr (cpu s) (owners s) (mem s) with
  | None => None
  | Some (v, c, o) => Some (cast u64 v, set_owners o (set_cpu c s))
  end.
Definition reservation_store (t : IntType) (addr val : Z) : IM Z := fun s =>
  match Reservation_Store (Z.to_nat (width t / 8)) (cpu_id s) addr (cast t val) (cpu s) (owners s)
          (mem s) with
  | None => None
  | Some (v, c, o, m) => Some (cast u64 v, set_mem m (set_owners o (set_cpu c s)))
  end.
Definition Lr (t : IntType) (aq rl : bool) (addr : Z) : IM Z :=
  _ ← check_no_exception;
  _ ← CHECK (addr mod (width t / 8) =? 0);
  reservation_load t addr.
(** [sizeof(IntType)] is the size of the enumeration that names the type, one
    byte: every address passes. *)
Definition sizeof_TemplateTypeId : Z := 1.
Definition Sc (t : IntType) (aq rl : bool) (addr val : Z) : IM Z :=
  _ ← check_no_exception;
  _ ← CHECK (addr mod sizeof_TemplateTypeId =? 0);
  reservation_store t addr val.
Definition amo_intrinsic (op : Hook.amo) : IntType -> Z -> Z -> Memory -> option (Z * Memory) :=
  match op with
  | Hook.AmoSwap => AmoSwap
  | Hook.AmoAdd => AmoAdd
  | Hook.AmoXor => AmoXor
  | Hook.AmoAnd => AmoAnd
  | Hook.AmoOr => AmoOr
  | Hook.AmoMin => AmoMin
  | Hook.AmoMax => AmoMax
  end.
Definition Amo (op : Hook.amo) (t : IntType) (aq rl : bool) (arg1 arg2 : Z) : IM Z := fun s =>
  match amo_intrinsic op t arg1 (GPRRegToInteger t arg2) (mem s) with
  | None => None
  | Some (v, m) => Some (IntegerToGPRReg t v, set_mem m s)
  end.

(** A memory fence has no effect on what one thread observes. *)
Definition Fence (args : FenceArgs.t) : IM unit := mret tt.

(** *** Control flow *)
Definition Branch (offset : Z) : IM unit :=
  _ ← check_no_exception;
  modify (fun s => set_branch_taken true
    (set_cpu (set_insn_addr (cast u64 (insn_addr (cpu s) + offset)) (cpu s)) s)).
Definition BranchRegister (base offset : Z) : IM unit :=
  _ ← check_no_exception;
  modify (fun s => set_branch_taken true
    (set_cpu (set_insn_addr (Z.land (cast u64 (base + offset)) (cast u64 (Z.lnot 1))) (cpu s)) s)).
Definition CompareAndBranch (opcode arg1 arg2 offset : Z) : IM unit :=
  let branch (cond_value : bool) := if cond_value then Branch offset else mret tt in
  match enum_of opcode with
  | Some BranchOpcode.kBeq => branch (arg1 =? arg2)
  | Some BranchOpcode.kBne => branch (negb (arg1 =? arg2))
  | Some BranchOpcode.kBltu => branch (arg1 <? arg2)
  | Some BranchOpcode.kBgeu => branch (arg2 <=? arg1)
  | Some BranchOpcode.kBlt => branch (cast i64 arg1 <? cast i64 arg2)
  | Some BranchOpcode.kBge => branch (cast i64 arg2 <=? cast i64 arg1)
  | None => Undefined
  end.

Definition Ecall : IM Z :=
  _ ← check_no_exception;
  _ ← modify (fun s => set_context (RunGuestSyscall (context s)) s);
  v ← gets (fun s => x (cpu s) !! 10%nat); defined v.

Definition shift (h : Hook.shift) (arg imm : Z) : IM Z :=
  match h with
  | Hook.Slli => Slli arg imm
  | Hook.Srli => Srli arg imm
  | Hook.Srai => Srai arg imm
  | Hook.Rori => Rori arg imm
  | Hook.Roriw => Roriw arg imm
  | h => mret (host_shift h arg imm)
  end.

Definition OpVector (c : InsnCall) (rs fs : list Z) : IM unit := fun s =>
  match host_vector c rs fs (context s) with
  | None => None
  | Some (ctx, raised) =>
      Some (tt, set_exception_raised (exception_raised_ s || raised) (set_context ctx s))
  end.

Definition FinalizeInsn (insn_len : Z) : IM unit :=
  modify (fun s =>
    if negb (branch_taken_ s) && negb (exception_raised_ s)
    then set_cpu (set_insn_addr (cast u64 (insn_addr (cpu s) + insn_len)) (cpu s)) s else s).

#[global] Instance listener : SemanticsListener IM Z Z := {|
  no_register := 0;
  no_fp_register := 0;
  l_GetReg := GetReg;
  l_SetReg := SetReg;
  l_GetFpReg := GetFpReg;
  l_GetFRegAndUnboxNan := GetFRegAndUnboxNan;
  l_NanBoxAndSetFpReg := NanBoxAndSetFpReg;
  l_CanonicalizeNan := fun ft v => call_fp (FpCanonicalizeNan ft v);
  l_GetCsr := GetCsr;
  l_SetCsr := SetCsr;
  l_SetCsrImm := SetCsr;
  l_UpdateCsr := UpdateCsr;
  l_UpdateCsrImm := UpdateCsrImm;
  l_GetImm := fun imm => mret (cast u64 imm);
  l_Copy := mret;
  l_GetInsnAddr := GetInsnAddr;
  l_Nop := Nop;
  l_Undefined := Undefined;
  l_Lr := Lr;
  l_Sc := Sc;
  l_Amo := Amo;
  l_Auipc := Auipc;
  l_Lui := Lui;
  l_CompareAndBranch := CompareAndBranch;
  l_Branch := Branch;
  l_BranchRegister := BranchRegister;
  l_Fence := Fence;
  l_Load := Load;
  l_LoadFp := LoadFp;
  l_Store := Store;
  l_StoreFp := StoreFp;
  l_Op := Op;
  l_Op32 := Op32;
  l_OpImm := OpImm;
  l_OpImm32 := OpImm32;
  l_ShiftImm32 := ShiftImm32;
  l_binary := fun h a b => mret (host_binary h a b);
  l_unary := fun h a => mret (host_unary h a);
  l_shift := shift;
  l_Ecall := fun _ => Ecall;
  l_FCvtFloatToFloat := fun d s rm frm a => call_fp (FpCvtFloatToFloat d s rm frm a);
  l_FCvtFloatToInteger := fun t ft rm frm a => call_fp (FpCvtFloatToInteger t ft rm frm a);
  l_FCvtIntegerToFloat := fun ft t rm frm a => call_fp (FpCvtIntegerToFloat ft t rm frm a);
  l_fp_round := fun op ft rm frm a b => call_fp (FpRound op ft rm frm a b);
  l_fp_fma := fun op ft rm frm a b c => call_fp (FpFma op ft rm frm a b c);
  l_fp_plain := fun op ft a b => call_fp (FpPlain op ft a b);
  l_fp_compare := fun op ft a b => call_fp (FpCompare op ft a b);
  l_FClass := fun ft a => call_fp (FpClass ft a);
  l_FSqrt := fun ft rm frm a => call_fp (FpSqrt ft rm frm a);
  l_Fmv := mret;
  l_FmvFloatToInteger := fun t ft a => call_fp (FpMvFloatToInteger t ft a);
  l_FmvIntegerToFloat := fun ft t a => call_fp (FpMvIntegerToFloat ft t a);
  l_OpVector := OpVector;
  l_Vtestvli := fun a b c => mret (host_vset (HVtestvli a b c));
  l_Vtestvl := fun a b c => mret (host_vset (HVtestvl a b c));
  l_Vsetvlimax := fun a => mret (host_vset (HVsetvlimax a));
  l_Vsetvlmax := fun a => mret (host_vset (HVsetvlmax a));
  l_Vsetivli := fun a b => mret (host_vset (HVsetivli a b));
  l_Vsetvl := fun a b => mret (host_vset (HVsetvl a b));
  l_Vsetvli := fun a b => mret (host_vset (HVsetvli a b))
|}.

(** The decoder reads the parcels at the program counter from memory: the second
    one only for a four-byte instruction. *)
Definition fetch (m : Memory) (pc : Z) : option (list Z) :=
  parcel ← FaultyLoad m pc 2;
  if GetInsnSize parcel =? 2 then Some [parcel]
  else parcel1 ← FaultyLoad m (pc + 2) 2; Some [parcel; parcel1].

(** The interpreter object is constructed for each instruction. *)
Definition start (s : IState) : IState := set_exception_raised false (set_branch_taken false s).
Definition play (calls : list InsnCall) (insn_len : Z) : IM unit :=
  _ ← SemanticsPlayer.consume_all calls; FinalizeInsn insn_len.
Definition InterpretInsn : IM unit := fun s =>
  match fetch (mem s) (insn_addr (cpu s)) with
  | None => None
  | Some code =>
      match Decode code with
      | None => None
      | Some (calls, insn_len) => play calls insn_len (start s)
      end
  end.
End Operations.
End Interpreter.
