(* ===== verification/InterpreterProps.v ===== *)
(** * The interpreter keeps the guest state sound

    A weakest-precondition calculus for the interpreter's effect, the
    well-formedness invariant of the guest state, and the soundness of playing
    one decoded instruction: the invariant is kept, exceptions are precise, an
    instruction writes no register but its destination, and only the
    instructions listed in [may_abort] can end the process. *)
From stdpp Require Import gmap.
From S2P Require Import Prelude MachineInt BitUtil RiscvInsn RiscvDecoder RiscvDecoderProps GuestState Intrinsics SemanticsPlayer Interpreter.
#[local] Open Scope Z_scope.

(** ** Types of the host's functions *)

(** What the C++ signatures of the hooks say: a register is a [uint64_t]. *)
Class HostOk `{Host} : Prop := {
  FeGetExceptions_ok e : in_range u64 (FeGetExceptions e);
  CPUClockCount_ok e : in_range u64 (CPUClockCount e);
  host_binary_ok h a b : in_range u64 (host_binary h a b);
  host_unary_ok h a : in_range u64 (host_unary h a);
  host_shift_ok h a n : in_range u64 (host_shift h a n);
  host_fp_ok c e : in_range u64 (host_fp c e).1;
  host_vset_ok c : in_range u64 (host_vset c).1 /\ in_range u64 (host_vset c).2
}.

(** ** Well-formed states *)
Record wf_cpu (c : CPUState) : Prop := {
  wf_x_length : length (x c) = kNumGuestRegs;
  wf_x : Forall (in_range u64) (x c);
  wf_f_length : length (f c) = kNumGuestFpRegs;
  wf_f : Forall (in_range u64) (f c);
  wf_insn_addr : in_range u64 (insn_addr c);
  wf_frm : fits 3 (frm c);
  wf_vstart : fits 7 (vstart c);
  wf_vcsr : fits 3 (vcsr c);
  wf_vl : fits 8 (vl c);
  wf_vtype : in_range u64 (vtype c)
}.

Definition wf_mem (m : Memory) : Prop := map_Forall (fun _ c => 0 <= cell_byte c < 2 ^ 8) m.

Definition wf_state `{Host} (s : IState) : Prop := wf_cpu (cpu s) /\ wf_mem (mem s).

(** The value of a register as instructions read it, and a register write. *)
Section Registers.
Context `{Host}.
Definition xreg (s : IState) (r : Z) : Z :=
  if r =? 0 then 0 else default 0 (x (cpu s) !! Z.to_nat r).
Definition freg (s : IState) (r : Z) : Z := default 0 (f (cpu s) !! Z.to_nat r).
Definition write_reg (r v : Z) (s : IState) : IState :=
  if exception_raised_ s || (r =? 0) then s
  else set_cpu (set_x (<[Z.to_nat r := v]> (x (cpu s))) (cpu s)) s.
Definition write_freg (r v : Z) (s : IState) : IState :=
  if exception_raised_ s then s
  else set_cpu (set_f (<[Z.to_nat r := v]> (f (cpu s))) (cpu s)) s.
End Registers.

(** ** Weakest preconditions

    [wp ab m Q s]: started in [s], [m] ends in a state and value that satisfy
    [Q]; it may end the process only when [ab] is true. *)
Definition wp `{Host} (ab : bool) {A} (m : IM A) (Q : A -> IState -> Prop) (s : IState) : Prop :=
  match m s with Some (a, s') => Q a s' | None => ab = true end.

Section WpRules.
Context `{Host} (ab : bool).

Lemma wp_ret {A} (a : A) Q s : Q a s -> wp ab (mret a) Q s.
Proof. done. Qed.

Lemma wp_bind {A B} (m : IM A) (k : A -> IM B) Q s :
  wp ab m (fun a => wp ab (k a) Q) s -> wp ab (m ≫= k) Q s.
Proof.
  unfold wp, mbind, IM_bind; by destruct (m s) as [[a s'] |].
Qed.

Lemma wp_mono {A} (m : IM A) (Q Q' : A -> IState -> Prop) s :
  (forall a s', Q a s' -> Q' a s') -> wp ab m Q s -> wp ab m Q' s.
Proof. unfold wp; intros HQ; destruct (m s) as [[a s'] |]; auto. Qed.

Lemma wp_gets {A} (g : IState -> A) Q s : Q (g s) s -> wp ab (gets g) Q s.
Proof. done. Qed.
Lemma wp_modify g Q s : Q tt (g s) -> wp ab (modify g) Q s.
Proof. done. Qed.
Lemma wp_check b Q s : (b = true -> Q tt s) -> (b = false -> ab = true) -> wp ab (CHECK b) Q s.
Proof. destruct b; [intros HQ _; by apply HQ | intros _ Hf; by apply Hf]. Qed.
Lemma wp_check_true b Q s : b = true -> Q tt s -> wp ab (CHECK b) Q s.
Proof. by intros ->. Qed.
Lemma wp_no_exception Q s :
  exception_raised_ s = false -> Q tt s -> wp ab check_no_exception Q s.
Proof. intros E HQ; apply wp_bind, wp_gets; rewrite E; by apply wp_check_true. Qed.
End WpRules.

Lemma wp_Some `{Host} {A} (m : IM A) Q s :
  wp false m Q s <-> exists a s', m s = Some (a, s') /\ Q a s'.
Proof.
  unfold wp; destruct (m s) as [[a s'] |]; split; [by eauto | | done | ].
  - by intros (? & ? & [= <- <-] & HQ).
  - by intros (? & ? & ? & _).
Qed.

(** ** The state after a write *)

Lemma u64_fits v : in_range u64 v <-> fits 64 v.
Proof. apply in_range_unsigned; done. Qed.

Lemma fits_u64 n v : n <= 64 -> fits n v -> in_range u64 v.
Proof. intros Hn Hv; apply u64_fits; by apply (fits_mono n). Qed.

Lemma cast_u64_range v : in_range u64 (cast u64 v).
Proof. by apply cast_in_range. Qed.

Lemma land_mask_fits n v : 0 <= n -> 0 <= v -> fits n (Z.land v (2 ^ n - 1)).
Proof.
  intros Hn Hv; change (2 ^ n - 1) with (Z.pred (2 ^ n)); rewrite <- Z.ones_equiv, Z.land_ones by done.
  apply Z.mod_pos_bound, pow2_pos; lia.
Qed.

Lemma land_range_r v m : 0 <= v -> in_range u64 m -> in_range u64 (Z.land v m).
Proof.
  rewrite !u64_fits; intros Hv Hm; apply bounded_of_testbit; [lia |]; intros i Hi.
  rewrite Z.land_spec, (testbit_bounded m 64 i) by done; apply andb_false_r.
Qed.

#[export] Hint Resolve cast_u64_range host_binary_ok host_unary_ok host_shift_ok FeGetExceptions_ok
  CPUClockCount_ok : zrange.

Section States.
Context `{Host}.
Implicit Types (s : IState) (r v : Z).

Lemma xreg_range s r : wf_state s -> in_range u64 (xreg s r).
Proof.
  intros [Hc _]; unfold xreg; destruct (r =? 0); [by apply (fits_u64 0) |].
  destruct (x (cpu s) !! Z.to_nat r) eqn:E; cbn; [| by apply (fits_u64 0)].
  exact (Forall_lookup_1 _ _ _ _ (wf_x _ Hc) E).
Qed.

Lemma freg_range s r : wf_state s -> in_range u64 (freg s r).
Proof.
  intros [Hc _]; unfold freg; destruct (f (cpu s) !! Z.to_nat r) eqn:E; cbn; [| by apply (fits_u64 0)].
  exact (Forall_lookup_1 _ _ _ _ (wf_f _ Hc) E).
Qed.

Lemma wf_set_x c (r : nat) v : wf_cpu c -> in_range u64 v -> wf_cpu (set_x (<[r := v]> (x c)) c).
Proof.
  intros [] Hv; constructor; cbn; try done; [by rewrite length_insert |].
  by apply Forall_insert.
Qed.

Lemma wf_set_f c (r : nat) v : wf_cpu c -> in_range u64 v -> wf_cpu (set_f (<[r := v]> (f c)) c).
Proof.
  intros [] Hv; constructor; cbn; try done; [by rewrite length_insert |].
  by apply Forall_insert.
Qed.

Lemma wf_set_insn_addr c v : wf_cpu c -> in_range u64 v -> wf_cpu (set_insn_addr v c).
Proof. intros [] Hv; by constructor. Qed.

Lemma wf_set_csr_field c name v :
  wf_cpu c -> 0 <= v -> wf_cpu (set_csr_field name (Z.land v (kCsrMask name)) c).
Proof.
  intros [] Hv; constructor; cbn; try done; destruct name; cbn; try done.
  - by apply (land_mask_fits 3).
  - by apply (land_mask_fits 7).
  - by apply (land_mask_fits 3).
  - by apply (land_mask_fits 8).
  - by apply land_range_r.
Qed.

Lemma wf_set_reservation c a v : wf_cpu c -> wf_cpu (set_reservation a v c).
Proof. intros []; by constructor. Qed.

Lemma wf_write_reg s r v : wf_state s -> in_range u64 v -> wf_state (write_reg r v s).
Proof.
  intros [Hc Hm] Hv; unfold write_reg; destruct (_ || _); [done |].
  split; [| done]; by apply wf_set_x.
Qed.

Lemma wf_write_freg s r v : wf_state s -> in_range u64 v -> wf_state (write_freg r v s).
Proof.
  intros [Hc Hm] Hv; unfold write_freg; destruct (exception_raised_ s); [done |].
  split; [| done]; by apply wf_set_f.
Qed.

(** Memory keeps its type through a store. *)
Lemma wf_FaultyStore m a n v m' : FaultyStore m a n v = Some m' -> wf_mem m -> wf_mem m'.
Proof.
  unfold FaultyStore; destruct (writable m a n); [| done]; intros [= <-] Hm i c.
  rewrite store_bytes_lookup; case_decide; [| apply Hm].
  intros (b & Hb%list_elem_of_lookup_2 & ->)%fmap_Some; by apply le_split_range in Hb.
Qed.
End States.

(** ** The interpreter's operations *)
Section Leaves.
Context `{HostOk} (ab : bool).
Implicit Types (s : IState) (r v : Z).

Lemma wp_GetReg s r Q :
  wf_state s -> 0 < r < 32 -> Q (xreg s r) s -> wp ab (Interpreter.GetReg r) Q s.
Proof.
  intros [Hc _] Hr HQ; unfold Interpreter.GetReg, Interpreter.CheckRegIsValid.
  apply wp_bind, wp_bind, wp_check_true; [lia |]; apply wp_check_true; [change (Z.of_nat kNumGuestRegs) with 32; lia |].
  apply wp_bind, wp_gets; unfold xreg in HQ.
  destruct (Z.eqb_spec r 0); [lia |].
  destruct (lookup_lt_is_Some_2 (x (cpu s)) (Z.to_nat r)) as [v Ev].
  { rewrite (wf_x_length _ Hc); change kNumGuestRegs with 32%nat; lia. }
  rewrite Ev in HQ |- *; by apply wp_ret.
Qed.

Lemma wp_GetRegOrZero s r Q :
  wf_state s -> reg r -> Q (xreg s r) s -> wp ab (SemanticsPlayer.GetRegOrZero r) Q s.
Proof.
  intros Hs Hr HQ; unfold SemanticsPlayer.GetRegOrZero; destruct (Z.eqb_spec r 0) as [-> |].
  - by apply wp_ret.
  - apply wp_GetReg; [done | unfold fits in *; lia | done].
Qed.

Lemma wp_SetReg s r v Q :
  wf_state s -> 0 < r < 32 -> Q tt (write_reg r v s) -> wp ab (Interpreter.SetReg r v) Q s.
Proof.
  intros [Hc _] Hr; unfold Interpreter.SetReg, write_reg, Interpreter.CheckRegIsValid; intros HQ.
  apply wp_bind, wp_gets; destruct (exception_raised_ s); [done |]; cbn [orb] in HQ.
  destruct (Z.eqb_spec r 0); [lia |].
  apply wp_bind, wp_bind, wp_check_true; [lia |]; apply wp_check_true; [change (Z.of_nat kNumGuestRegs) with 32; lia |].
  apply wp_bind, wp_gets, wp_bind, wp_check_true; [| by apply wp_modify].
  apply Nat.ltb_lt; rewrite (wf_x_length _ Hc); change kNumGuestRegs with 32%nat; lia.
Qed.

Lemma wp_SetRegOrIgnore s r v Q :
  wf_state s -> reg r -> Q tt (write_reg r v s) -> wp ab (SemanticsPlayer.SetRegOrIgnore r v) Q s.
Proof.
  intros Hs Hr HQ; unfold SemanticsPlayer.SetRegOrIgnore; destruct (Z.eqb_spec r 0) as [-> |]; cbn [negb].
  - unfold write_reg in HQ; rewrite orb_true_r in HQ; by apply wp_ret.
  - apply wp_SetReg; [done | unfold fits in *; lia | done].
Qed.

Lemma wp_call_fp s c Q :
  (forall v e, in_range u64 v -> Q v (set_env e s)) -> wp ab (Interpreter.call_fp c) Q s.
Proof.
  intros HQ; unfold wp, Interpreter.call_fp; pose proof (host_fp_ok c (env s)).
  destruct (host_fp c (env s)) as [v e]; by apply HQ.
Qed.

Lemma wp_GetFpReg s r Q :
  wf_state s -> reg r -> Q (freg s r) s -> wp ab (Interpreter.GetFpReg r) Q s.
Proof.
  intros [Hc _] Hr HQ; unfold fits in Hr; unfold Interpreter.GetFpReg, Interpreter.CheckFpRegIsValid.
  apply wp_bind, wp_check_true; [change (Z.of_nat kNumGuestFpRegs) with 32; cbn in Hr; lia |]; apply wp_bind, wp_gets; unfold freg in HQ.
  destruct (lookup_lt_is_Some_2 (f (cpu s)) (Z.to_nat r)) as [v Ev].
  { rewrite (wf_f_length _ Hc); change kNumGuestFpRegs with 32%nat; cbn in Hr; lia. }
  rewrite Ev in HQ |- *; by apply wp_ret.
Qed.
End Leaves.

(** ** What playing an instruction may do *)

(** The integer register an instruction writes; 0 for none. *)
Definition dest (c : InsnCall) : Z :=
  match c with
  | Amo a => AmoArgs.dst a
  | Auipc a | Lui a => UpperImmArgs.dst a
  | Csr a => CsrArgs.dst a
  | CsrImm a => CsrImmArgs.dst a
  | FcvtFloatToInteger a => FcvtFloatToIntegerArgs.dst a
  | FmvFloatToInteger a => FmvFloatToIntegerArgs.dst a
  | JumpAndLink a => JumpAndLinkArgs.dst a
  | JumpAndLinkRegister a => JumpAndLinkRegisterArgs.dst a
  | Load a => LoadArgsTemplate.dst a
  | Op a | Op32 a => OpArgsTemplate.dst a
  | OpFpGpRegisterTargetNoRounding a => OpFpGpRegisterTargetNoRoundingArgs.dst a
  | OpFpGpRegisterTargetSingleInputNoRounding a =>
      OpFpGpRegisterTargetSingleInputNoRoundingArgs.dst a
  | OpImm a | OpImm32 a => OpImmArgsTemplate.dst a
  | OpImmShift a | OpImmShift32 a => ShiftImmArgsTemplate.dst a
  | OpImmBitmanip a | OpImmBitmanip32 a => BitmanipImmArgsTemplate.dst a
  | OpSingleInput a => OpSingleInputArgs.dst a
  | Vsetivli a => VsetivliArgs.dst a
  | Vsetvl a => VsetvlArgs.dst a
  | Vsetvli a => VsetvliArgs.dst a
  | _ => 0
  end.

(** The floating-point register an instruction writes. *)
Definition fdest (c : InsnCall) : option Z :=
  match c with
  | FcvtFloatToFloat a => Some (FcvtFloatToFloatArgs.dst a)
  | FcvtIntegerToFloat a => Some (FcvtIntegerToFloatArgs.dst a)
  | Fma a => Some (FmaArgs.dst a)
  | FmvIntegerToFloat a => Some (FmvIntegerToFloatArgs.dst a)
  | LoadFp a => Some (LoadArgsTemplate.dst a)
  | OpFp a => Some (OpFpArgs.dst a)
  | OpFpNoRounding a => Some (OpFpNoRoundingArgs.dst a)
  | OpFpSingleInput a => Some (OpFpSingleInputArgs.dst a)
  | OpFpSingleInputNoRounding a => Some (OpFpSingleInputNoRoundingArgs.dst a)
  | _ => None
  end.

(** The field of the processor state in which a control register is kept, and
    the fields an instruction may write. *)
Definition csr_storage (name : CsrName.t) : CsrName.t :=
  match name with
  | CsrName.kFCsr => CsrName.kFrm
  | CsrName.kVxrm | CsrName.kVxsat => CsrName.kVcsr
  | name => name
  end.
Definition writes_field (c : InsnCall) (name : CsrName.t) : bool :=
  match c with
  | Csr a => bool_decide (csr_storage <$> ProcessCsrName (CsrArgs.csr a) = Some name)
  | CsrImm a => bool_decide (csr_storage <$> ProcessCsrName (CsrImmArgs.csr a) = Some name)
  | Vsetivli _ | Vsetvl _ | Vsetvli _ => match name with CsrName.kVl | CsrName.kVtype => true | _ => false end
  | _ => false
  end.

(** Instructions that may write memory, and that may transfer control. *)
Definition writes_memory (c : InsnCall) : bool :=
  match c with Amo _ | Store _ | StoreFp _ => true | _ => false end.
Definition reserves (c : InsnCall) : bool := match c with Amo _ => true | _ => false end.
Definition jumps (c : InsnCall) : bool :=
  match c with CompareAndBranch _ | JumpAndLink _ | JumpAndLinkRegister _ => true | _ => false end.

(** Instructions this development executes completely: not the vector
    operations, nor system calls. *)
Definition scalar (c : InsnCall) : bool :=
  match c with
  | OpVectorLoadIndexed _ | OpVectorLoadStride _ | OpVectorLoadUnitStride _
  | OpVectorStoreIndexed _ | OpVectorStoreStride _ | OpVectorStoreUnitStride _
  | OpVectorFVf _ | OpVectorFVv _ | OpVectorIVi _ | OpVectorIVv _ | OpVectorIVx _
  | OpVectorMVv _ | OpVectorMVx _ => false
  | System a => negb (SystemArgs.opcode a =? enum_bits SystemOpcode.kEcall)
  | _ => true
  end.

(** The outcome of an instruction [c] started in [s0]. *)
Record sound `{Host} (c : InsnCall) (s0 s : IState) : Prop := {
  sound_wf : wf_state s;
  sound_id : cpu_id s = cpu_id s0;
  sound_precise : exception_raised_ s = true ->
    cpu s = cpu s0 /\ mem s = mem s0 /\ owners s = owners s0 /\ branch_taken_ s = false;
  sound_x : forall r, r = 0%nat \/ r <> Z.to_nat (dest c) -> x (cpu s) !! r = x (cpu s0) !! r;
  sound_mem : writes_memory c = false -> mem s = mem s0 /\ owners s = owners s0;
  sound_pc : branch_taken_ s = false -> insn_addr (cpu s) = insn_addr (cpu s0);
  sound_branch : branch_taken_ s = true -> jumps c = true;
  sound_undefined : exception_raised_ s = false -> undefined_insns s = undefined_insns s0;
  sound_f : forall r, fdest c <> Some (Z.of_nat r) -> f (cpu s) !! r = f (cpu s0) !! r;
  sound_csr : forall name, writes_field c name = false -> csr_field name (cpu s) = csr_field name (cpu s0);
  sound_reservation : reserves c = false ->
    reservation_address (cpu s) = reservation_address (cpu s0) /\ reservation_value (cpu s) = reservation_value (cpu s0)
}.

(** Nothing happened yet; an exception was raised and nothing else happened;
    some effects took place and no exception. *)
Record calm `{Host} (s0 s : IState) : Prop := {
  calm_wf : wf_state s;
  calm_id : cpu_id s = cpu_id s0;
  calm_cpu : cpu s = cpu s0;
  calm_mem : mem s = mem s0;
  calm_owners : owners s = owners s0;
  calm_branch : branch_taken_ s = false;
  calm_exception : exception_raised_ s = false;
  calm_undefined : undefined_insns s = undefined_insns s0
}.
Record raised `{Host} (s0 s : IState) : Prop := {
  raised_wf : wf_state s;
  raised_id : cpu_id s = cpu_id s0;
  raised_cpu : cpu s = cpu s0;
  raised_mem : mem s = mem s0;
  raised_owners : owners s = owners s0;
  raised_branch : branch_taken_ s = false;
  raised_exception : exception_raised_ s = true
}.
Record live `{Host} (c : InsnCall) (s0 s : IState) : Prop := {
  live_sound : sound c s0 s;
  live_exception : exception_raised_ s = false;
  live_branch : branch_taken_ s = false
}.

Section Outcomes.
Context `{HostOk}.
Implicit Types (s : IState) (c : InsnCall).

Lemma calm_start s :
  wf_state s -> exception_raised_ s = false -> branch_taken_ s = false -> calm s s.
Proof. by constructor. Qed.

Lemma calm_live c s0 s : calm s0 s -> live c s0 s.
Proof.
  intros []; constructor; [| done | done]; constructor; try done; try congruence; intros; split; congruence.
Qed.

Lemma calm_env s0 s e : calm s0 s -> calm s0 (set_env e s).
Proof. intros []; by constructor. Qed.

Lemma raised_sound c s0 s : raised s0 s -> sound c s0 s.
Proof. intros []; constructor; try done; try congruence; intros; split; congruence. Qed.

Lemma live_env c s0 s e : live c s0 s -> live c s0 (set_env e s).
Proof. intros [[] ? ?]; constructor; [| done | done]; by constructor. Qed.

Lemma live_write_reg c s0 s v :
  reg (dest c) -> live c s0 s -> in_range u64 v -> live c s0 (write_reg (dest c) v s).
Proof.
  intros Hd0 [Hs He Hb] Hv; unfold write_reg; rewrite He; cbn [orb].
  destruct (Z.eqb_spec (dest c) 0) as [| Hd]; [by constructor |].
  destruct Hs as [Hwf ? ? Hx ? ? ? ? ? ? ?]; constructor; [| done | done]; constructor; cbn; try done.
  - destruct Hwf; split; [by apply wf_set_x | done].
  - congruence.
  - intros r Hr; rewrite list_lookup_insert_ne, Hx; [done | done |].
    destruct Hr as [-> |]; [| done]; unfold fits in Hd0; lia.
Qed.

Lemma live_write_freg c s0 s r v :
  reg r -> fdest c = Some r -> live c s0 s -> in_range u64 v -> live c s0 (write_freg r v s).
Proof.
  intros Hr Hd [Hs He Hb] Hv; unfold write_freg; rewrite He.
  destruct Hs as [Hwf ? ? ? ? ? ? ? Hf Hcsr Hres]; constructor; [| done | done]; constructor; cbn; try done.
  - destruct Hwf; split; [by apply wf_set_f | done].
  - congruence.
  - intros r' Hr'; rewrite list_lookup_insert_ne; [by apply Hf |]; intros <-; apply Hr'; rewrite Hd, Z2Nat.id; [done | unfold fits in Hr; lia].
Qed.

Lemma set_csr_field_other name name' v st : name' <> name -> csr_field name' (set_csr_field name v st) = csr_field name' st.
Proof. destruct name', name; done. Qed.

(** A change of a control register only. *)
Lemma live_set_csr c s0 s name v :
  writes_field c name = true -> live c s0 s -> 0 <= v ->
  live c s0 (set_cpu (set_csr_field name (Z.land v (kCsrMask name)) (cpu s)) s).
Proof.
  intros Hw [Hs He Hb] Hv.
  destruct Hs as [Hwf ? ? ? ? ? ? ? Hf Hcsr Hres]; constructor; [| done | done]; constructor; cbn; try done.
  - destruct Hwf; split; [by apply wf_set_csr_field | done].
  - congruence.
  - intros name' Hn; change (csr_field name' (set_csr_field name (Z.land v (kCsrMask name)) (cpu s)) = csr_field name' (cpu s0)).
    rewrite set_csr_field_other; [by apply Hcsr |]; intros ->; congruence.
Qed.

Lemma live_jump c s0 s pc :
  jumps c = true -> live c s0 s -> in_range u64 pc ->
  sound c s0 (set_branch_taken true (set_cpu (set_insn_addr pc (cpu s)) s)).
Proof.
  intros Hj [Hs He Hb] Hpc; destruct Hs as [[Hc Hm] ? ? ? ? ? ? ? ? ? ?]; constructor; cbn; try done.
  - split; [by apply wf_set_insn_addr | done].
  - congruence.
Qed.
End Outcomes.

(** ** The operations, by stage *)
Section Stages.
Context `{HostOk} (ab : bool) (c : InsnCall) (s0 : IState).
Implicit Types (s : IState) (r v : Z).

(** A computation that ends calm, or raises an exception. *)
Definition computes (m : IM Z) : Prop := forall s (Q : Z -> IState -> Prop),
  calm s0 s -> (forall v s', in_range u64 v -> calm s0 s' -> Q v s') ->
  (forall s', raised s0 s' -> Q 0 s') -> wp ab m Q s.
(** A computation that cannot raise one. *)
Definition reads (m : IM Z) : Prop := forall s (Q : Z -> IState -> Prop),
  calm s0 s -> (forall v s', in_range u64 v -> calm s0 s' -> Q v s') -> wp ab m Q s.
(** An effect that does nothing once an exception is raised. *)
Definition commits (m : IM unit) : Prop := forall s (Q : unit -> IState -> Prop),
  (live c s0 s -> (forall s', live c s0 s' -> Q tt s') -> wp ab m Q s)
  /\ (raised s0 s -> (forall s', raised s0 s' -> Q tt s') -> wp ab m Q s).

Lemma reads_computes m : reads m -> computes m.
Proof. intros Hm s Q Hs HQ _; by apply Hm. Qed.

Lemma reads_bind m k : reads m -> (forall v, in_range u64 v -> reads (k v)) -> reads (m ≫= k).
Proof.
  intros Hm Hk s Q Hs HQ; apply wp_bind, Hm; [done |]; intros v s' Hv Hs'; by apply Hk.
Qed.

Lemma reads_value v : in_range u64 v -> reads (mret v).
Proof. intros Hv s Q Hs HQ; by apply wp_ret, HQ. Qed.

Lemma reads_GetRegOrZero r : reg r -> reads (SemanticsPlayer.GetRegOrZero r).
Proof.
  intros Hr s Q Hs HQ; pose proof (calm_wf _ _ Hs).
  apply wp_GetRegOrZero; [done | done |]; apply HQ; [by apply xreg_range | done].
Qed.

Lemma reads_GetReg r : 0 < r < 32 -> reads (Interpreter.GetReg r).
Proof.
  intros Hr s Q Hs HQ; pose proof (calm_wf _ _ Hs).
  apply wp_GetReg; [done | done |]; apply HQ; [by apply xreg_range | done].
Qed.

Lemma reads_GetFpReg r : reg r -> reads (Interpreter.GetFpReg r).
Proof.
  intros Hr s Q Hs HQ; pose proof (calm_wf _ _ Hs).
  apply wp_GetFpReg; [done | done |]; apply HQ; [by apply freg_range | done].
Qed.

Lemma reads_call_fp f : reads (Interpreter.call_fp f).
Proof.
  intros s Q Hs HQ; apply wp_call_fp; intros v e Hv; apply HQ; [done | by apply calm_env].
Qed.

Lemma reads_GetFRegAndUnboxNan ft r : reg r -> reads (Interpreter.GetFRegAndUnboxNan ft r).
Proof.
  intros Hr; apply reads_bind; [by apply reads_GetFpReg |]; intros v Hv.
  destruct ft; [apply reads_call_fp | by apply reads_value].
Qed.

Lemma reads_GetInsnAddr : reads Interpreter.GetInsnAddr.
Proof. intros s Q Hs HQ; apply wp_gets, HQ; [apply wf_insn_addr, (calm_wf _ _ Hs) | done]. Qed.

Lemma reads_GetCsr name : reads (Interpreter.GetCsr name).
Proof.
  intros s Q Hs HQ; apply wp_gets, HQ; [| done]; destruct (calm_wf _ _ Hs) as [[] _].
  destruct name; cbn [csr_field]; eauto with zrange; try (by eapply fits_u64; [| eassumption]).
  - apply lor_in_range; [done | apply FeGetExceptions_ok |].
    apply (fits_u64 (3 + 5)); [done |]; by apply fits_shiftl.
  - apply (fits_u64 3); [done |]; unfold fits in *; rewrite Z.shiftr_div_pow2 by lia; cbn in *; zdivmod.
  - apply (fits_u64 2); [done |]; apply (land_mask_fits 2); unfold fits in *; lia.
  - by apply (fits_u64 5).
Qed.

Lemma undefined_raised s :
  calm s0 s ->
  raised s0 (set_exception_raised true
               (set_undefined_insns (undefined_insns s ++ [insn_addr (cpu s)]) s)).
Proof. intros []; by constructor. Qed.

Lemma wp_Undefined s (Q : unit -> IState -> Prop) :
  calm s0 s -> (forall s', raised s0 s' -> Q tt s') -> wp ab Interpreter.Undefined Q s.
Proof. intros Hs HQ; apply wp_modify, HQ; by apply undefined_raised. Qed.

Lemma computes_undefined : computes Interpreter.undefined_result.
Proof.
  intros s Q Hs _ HQ; apply wp_bind, wp_Undefined; [done |]; intros s' Hs'; by apply wp_ret, HQ.
Qed.

Lemma commits_SetRegOrIgnore r v :
  reg r -> r = dest c -> in_range u64 v -> commits (SemanticsPlayer.SetRegOrIgnore r v).
Proof.
  intros Hr -> Hv s Q; split; intros Hs HQ; apply wp_SetRegOrIgnore; try done.
  - apply sound_wf with c s0, live_sound; done.
  - apply HQ; by apply live_write_reg.
  - by apply raised_wf with s0.
  - unfold write_reg; rewrite (raised_exception _ _ Hs); by apply HQ.
Qed.

Lemma commits_SetReg r v :
  0 < r < 32 -> r = dest c -> in_range u64 v -> commits (Interpreter.SetReg r v).
Proof.
  intros Hr Hd Hv.
  assert (SemanticsPlayer.SetRegOrIgnore r v = Interpreter.SetReg r v) as <-.
  { unfold SemanticsPlayer.SetRegOrIgnore; destruct (Z.eqb_spec r 0); [lia | done]. }
  apply commits_SetRegOrIgnore; [unfold fits; lia | done | done].
Qed.

Lemma commits_NanBoxAndSetFpReg ft r v :
  reg r -> fdest c = Some r -> in_range u64 v -> commits (Interpreter.NanBoxAndSetFpReg ft r v).
Proof.
  intros Hr Hd Hv s Q; split; intros Hs HQ; unfold Interpreter.NanBoxAndSetFpReg; apply wp_bind, wp_gets.
  - rewrite (live_exception _ _ _ Hs); apply wp_bind, wp_check_true.
    { unfold fits in Hr; change (Z.of_nat kNumGuestFpRegs) with 32; cbn in Hr; lia. }
    apply wp_bind; destruct ft; [apply wp_call_fp; intros w e Hw | apply wp_ret]; apply wp_modify, HQ.
    + pose proof (live_write_freg c s0 (set_env e s) r w Hr Hd) as Hl; unfold write_freg in Hl; cbn in Hl.
      rewrite (live_exception _ _ _ Hs) in Hl; apply Hl; [by apply live_env | done].
    + pose proof (live_write_freg c s0 s r v Hr Hd Hs Hv) as Hl; unfold write_freg in Hl.
      by rewrite (live_exception _ _ _ Hs) in Hl.
  - rewrite (raised_exception _ _ Hs); by apply wp_ret, HQ.
Qed.

(** The masks of the two fields of [vcsr]. *)
Lemma vcsr_bits v : fits 3 v -> Z.land v (kCsrMask CsrName.kVcsr) = v.
Proof.
  intros Hv; change (kCsrMask CsrName.kVcsr) with (Z.ones 3); rewrite Z.land_ones by lia.
  by apply Z.mod_small.
Qed.

Lemma live_set_vcsr s v :
  writes_field c CsrName.kVcsr = true -> live c s0 s -> fits 3 v ->
  live c s0 (set_cpu (set_csr_field CsrName.kVcsr v (cpu s)) s).
Proof.
  intros Hw Hs Hv; rewrite <- (vcsr_bits v Hv); apply live_set_csr; [done | done | unfold fits in Hv; lia].
Qed.

Lemma wp_SetCsr name v s (Q : unit -> IState -> Prop) :
  writes_field c (csr_storage name) = true -> in_range u64 v -> live c s0 s -> (forall s', live c s0 s' -> Q tt s') ->
  wp ab (Interpreter.SetCsr name v) Q s.
Proof.
  intros Hw Hv%u64_fits Hs HQ; pose proof (live_exception _ _ _ Hs) as He.
  assert (0 <= v) as Hv0 by (unfold fits in Hv; lia).
  destruct name; cbn [Interpreter.SetCsr csr_storage] in *; apply wp_bind;
    first [apply wp_no_exception; [done |] | apply wp_gets; rewrite He];
    try (apply wp_modify, HQ; by (apply live_set_csr || apply live_env)).
  - apply wp_modify, HQ, live_env; by apply live_set_csr.
  - apply wp_bind, wp_modify, wp_modify, HQ; apply live_env.
    apply (live_set_csr c s0 (set_env _ s) CsrName.kFrm (Z.shiftr v 5)); [done | by apply live_env |].
    by apply Z.shiftr_nonneg.
  - apply wp_modify, HQ, live_set_vcsr; [done | done |]; apply fits_lor; [lia | |].
    + apply (fits_mono 2); [lia |]; apply (land_mask_fits 2); [lia |].
      apply (live_sound _ _ _ Hs).
    + apply (fits_shiftl 1 2); [lia | | lia]; by apply (land_mask_fits 1).
  - apply wp_modify, HQ, live_set_vcsr; [done | done |]; apply fits_lor; [lia | |].
    + destruct (sound_wf _ _ _ (live_sound _ _ _ Hs)) as [[] _].
      apply bounded_of_testbit; [lia |]; intros i Hi.
      by rewrite Z.land_spec, (testbit_bounded (vcsr (cpu s)) 3).
    + apply (fits_mono 2); [lia |]; by apply (land_mask_fits 2).
Qed.

(** After an exception a control register write changes nothing, or aborts. *)
Lemma wp_SetCsr_raised name v s (Q : unit -> IState -> Prop) :
  ab = true -> raised s0 s -> Q tt s -> wp ab (Interpreter.SetCsr name v) Q s.
Proof.
  intros Hab Hs HQ; pose proof (raised_exception _ _ Hs) as He.
  destruct name; cbn [Interpreter.SetCsr]; apply wp_bind; unfold check_no_exception;
    first [apply wp_bind, wp_gets; rewrite He; done | apply wp_gets; rewrite He; by apply wp_ret].
Qed.
End Stages.

(** ** Results are register values *)

Lemma bool_range (b : bool) : in_range u64 (if b then 1 else 0).
Proof. destruct b; by apply (fits_u64 1). Qed.

Lemma land_u64 a b : in_range u64 a -> in_range u64 b -> in_range u64 (Z.land a b).
Proof. intros Ha%u64_fits Hb; apply land_range_r; [unfold fits in Ha; lia | done]. Qed.

Lemma shiftr_u64 a n : in_range u64 a -> 0 <= n -> in_range u64 (Z.shiftr a n).
Proof.
  intros Ha%u64_fits Hn; apply u64_fits; unfold fits in *; rewrite Z.shiftr_div_pow2 by done.
  pose proof (pow2_pos n Hn); split; [apply Z.div_pos; lia |].
  apply Z.le_lt_trans with a; [apply Z.div_le_upper_bound; nia | lia].
Qed.

#[export] Hint Resolve bool_range land_u64 : zrange.
#[export] Hint Extern 2 (in_range u64 (Z.lor _ _)) => apply lor_in_range; [done | |] : zrange.
#[export] Hint Extern 2 (in_range u64 (Z.lxor _ _)) => apply lxor_in_range; [done | |] : zrange.

Section Computations.
Context `{HostOk} (ab : bool) (c : InsnCall) (s0 : IState).
Implicit Types (s : IState) (r v : Z).

(** Dispatch on the opcode: every branch returns a value or is undefined. *)
Ltac by_opcode :=
  match goal with |- computes _ _ (match ?o with _ => _ end) => destruct o as [[]|] end;
  first [apply computes_undefined | apply reads_computes, reads_value; eauto with zrange].

Lemma computes_Op o a b : computes ab s0 (Interpreter.Op o a b).
Proof. unfold Interpreter.Op; cbv zeta; by_opcode. Qed.

Lemma computes_Op32 o a b : computes ab s0 (Interpreter.Op32 o a b).
Proof. unfold Interpreter.Op32; cbv zeta; by_opcode. Qed.

Lemma computes_OpImm o a n : in_range u64 a -> computes ab s0 (Interpreter.OpImm o a n).
Proof. intros Ha; unfold Interpreter.OpImm; by_opcode. Qed.

Lemma computes_UpdateCsr o a b :
  in_range u64 a -> in_range u64 b -> computes ab s0 (Interpreter.UpdateCsr o a b).
Proof. intros Ha Hb; unfold Interpreter.UpdateCsr; by_opcode. Qed.

(** An addition that overflows is undefined: the process may end there. *)
Lemma computes_OpImm32 o a n : ab = true -> computes ab s0 (Interpreter.OpImm32 o a n).
Proof.
  intros Hab; unfold Interpreter.OpImm32.
  match goal with |- computes _ _ (match ?o with _ => _ end) => destruct o as [[]|] end;
    [| apply computes_undefined].
  intros s Q Hs HQ _; apply wp_bind; unfold Interpreter.add_int32; destruct (in_rangeb _ _); [| done].
  apply wp_ret, wp_ret, HQ; [apply cast_u64_range | done].
Qed.

Lemma reads_shift w n v :
  fits w n -> (w = 5 \/ w = 6) -> in_range u64 v -> reads ab s0 (Interpreter.shift_ok (2 ^ w) n v).
Proof.
  intros Hn Hw Hv; unfold Interpreter.shift_ok, shift_defined, fits in *.
  assert ((0 <=? n) && (n <? 2 ^ w) = true) as -> by (apply andb_true_iff; lia).
  by apply reads_value.
Qed.

Lemma computes_ShiftImm32 o a n : fits 5 n -> computes ab s0 (Interpreter.ShiftImm32 o a n).
Proof.
  intros Hn; unfold Interpreter.ShiftImm32.
  match goal with |- computes _ _ (match ?o with _ => _ end) => destruct o as [[]|] end;
    first [apply computes_undefined | apply reads_computes, (reads_shift 5); auto with zrange].
Qed.

(** A rotation by 0 shifts by the width of the operand, which is undefined. *)
Definition rotates_by_zero (h : Hook.shift) (n : Z) : bool :=
  match h with Hook.Rori | Hook.Roriw => n =? 0 | _ => false end.

Lemma computes_shift h a n :
  (rotates_by_zero h n = true -> ab = true) ->
  fits (match h with Hook.Roriw => 5 | _ => 6 end) n -> in_range u64 a ->
  computes ab s0 (Interpreter.shift h a n).
Proof.
  intros Hz Hn Ha; apply reads_computes; assert (0 <= n) by (unfold fits in Hn; lia).
  destruct h; cbn [Interpreter.shift rotates_by_zero] in *; try (apply reads_value; eauto with zrange);
    try (apply (reads_shift 6); [done | by right | eauto using shiftr_u64 with zrange]).
  - intros s Q Hs HQ; apply wp_bind; unfold Interpreter.CheckShamtIsValid, fits in *.
    apply wp_bind, wp_check_true, wp_check_true; [cbn in *; lia .. |].
    unfold Interpreter.shift_ok, shift_defined; destruct (decide (n = 0)) as [E |]; [rewrite E in Hz |- *; by rewrite (Hz eq_refl) |].
    assert ((0 <=? 64 - n) && (64 - n <? 64) = true) as -> by (apply andb_true_iff; cbn in *; lia).
    apply wp_ret, HQ; [| done]; eauto 8 using shiftr_u64 with zrange.
  - intros s Q Hs HQ; apply wp_bind; unfold Interpreter.CheckShamt32IsValid, fits in *.
    apply wp_bind, wp_check_true, wp_check_true; [cbn in *; lia .. |].
    unfold Interpreter.shift_ok, shift_defined; destruct (decide (n = 0)) as [E |]; [rewrite E in Hz |- *; by rewrite (Hz eq_refl) |].
    assert ((0 <=? 32 - n) && (32 - n <? 32) = true) as -> by (apply andb_true_iff; cbn in *; lia).
    apply wp_ret, HQ; [| done]; eauto with zrange.
Qed.

Lemma reads_Auipc n : reads ab s0 (Interpreter.Auipc n).
Proof. apply reads_bind; [apply reads_GetInsnAddr |]; intros v _; apply reads_value; auto with zrange. Qed.

(** *** Memory *)
Lemma fault_raised s : calm s0 s -> raised s0 (set_exception_raised true s).
Proof. intros []; by constructor. Qed.

Lemma computes_Load_typed t a : computes ab s0 (Interpreter.Load_typed t a).
Proof.
  intros s Q Hs HQ HF; unfold Interpreter.Load_typed.
  apply wp_bind, wp_no_exception; [by apply (calm_exception s0) |]; apply wp_bind, wp_gets.
  destruct (FaultyLoad _ _ _) as [v |].
  - apply wp_ret, HQ; [auto with zrange | done].
  - apply wp_bind, wp_modify, wp_ret, HF, fault_raised, Hs.
Qed.

Lemma computes_Load o a n : computes ab s0 (Interpreter.Load o a n).
Proof.
  unfold Interpreter.Load; cbv zeta.
  match goal with |- computes _ _ (match ?o with _ => _ end) => destruct o as [[]|] end;
    first [apply computes_undefined | apply computes_Load_typed].
Qed.

Lemma live_set_mem s m :
  writes_memory c = true -> live c s0 s -> wf_mem m -> live c s0 (set_mem m s).
Proof.
  intros Hw [[[Hc Hm] ? ? ? ? ? ? ? ? ? ?] He Hb] Hm'; constructor; [| done | done]; constructor; cbn;
    try done; congruence.
Qed.

Lemma wp_Store_typed t a v s (Q : unit -> IState -> Prop) :
  writes_memory c = true -> calm s0 s ->
  (forall s', sound c s0 s' -> Q tt s') -> wp ab (Interpreter.Store_typed t a v) Q s.
Proof.
  intros Hw Hs HQ; unfold Interpreter.Store_typed.
  apply wp_bind, wp_no_exception; [by apply (calm_exception s0) |]; apply wp_bind, wp_gets.
  destruct (FaultyStore _ _ _ _) as [m |] eqn:E; apply wp_modify, HQ.
  - assert (live c s0 (set_mem m s)) as Hl.
    { apply live_set_mem; [done | by apply calm_live |].
      eapply wf_FaultyStore; [done |]; apply (calm_wf _ _ Hs). }
    destruct Hl as [[] He ?]; constructor; try done; intros _; auto.
  - by apply raised_sound, fault_raised.
Qed.

Lemma wp_Store o a n v s (Q : unit -> IState -> Prop) :
  writes_memory c = true -> calm s0 s ->
  (forall s', sound c s0 s' -> Q tt s') -> wp ab (Interpreter.Store o a n v) Q s.
Proof.
  intros Hw Hs HQ; unfold Interpreter.Store; cbv zeta.
  match goal with |- wp _ (match ?o with _ => _ end) _ _ => destruct o as [[]|] end;
    try by apply wp_Store_typed.
  eapply wp_Undefined; [done |]; intros s' Hs'; by apply HQ, raised_sound.
Qed.
End Computations.

(** ** Playing an instruction *)

(** The instructions that can end the process from state [s]: an atomic access
    that faults or is misaligned, a control register write or vector
    configuration that names [x0] as a source it always reads, an opcode with no
    enumerator where the decoder produces none, a 32-bit addition that
    overflows and a rotation by zero (both undefined in C++). *)
Definition may_abort `{Host} (c : InsnCall) (s : IState) : bool :=
  match c with
  | Amo _ => true
  | Csr a => (CsrArgs.opcode a =? 0)
      || (CsrArgs.src a =? 0) && (CsrArgs.opcode a =? enum_bits CsrOpcode.kCsrrw)
  | CsrImm a => CsrImmArgs.opcode a =? 0
  | OpImm32 a => negb (in_rangeb i32 (cast i32 (xreg s (OpImmArgsTemplate.src a))
                                      + OpImmArgsTemplate.imm a))
  | OpImmBitmanip a => bool_decide (enum_of (BitmanipImmArgsTemplate.opcode a) = Some BitmanipImmOpcode.kRori)
      && (BitmanipImmArgsTemplate.shamt a =? 0)
  | OpImmBitmanip32 a =>
      bool_decide (enum_of (BitmanipImmArgsTemplate.opcode a) = Some BitmanipImm32Opcode.kRoriw)
      && (BitmanipImmArgsTemplate.shamt a =? 0)
  | Vsetvl a => VsetvlArgs.src2 a =? 0
  | _ => false
  end.

(** Shows the interpreter's method behind a listener call. *)
Ltac expose := cbn [l_GetReg l_SetReg l_GetFpReg l_GetFRegAndUnboxNan l_NanBoxAndSetFpReg
  l_CanonicalizeNan l_GetCsr l_SetCsr l_SetCsrImm l_UpdateCsr l_UpdateCsrImm l_GetImm l_Copy
  l_GetInsnAddr l_Nop l_Undefined l_Lr l_Sc l_Amo l_Auipc l_Lui l_CompareAndBranch l_Branch
  l_BranchRegister l_Fence l_Load l_LoadFp l_Store l_StoreFp l_Op l_Op32 l_OpImm l_OpImm32
  l_ShiftImm32 l_binary l_unary l_shift l_FCvtFloatToFloat l_FCvtFloatToInteger
  l_FCvtIntegerToFloat l_fp_round l_fp_fma l_fp_plain l_fp_compare l_FClass l_FSqrt l_Fmv
  l_FmvFloatToInteger l_FmvIntegerToFloat l_Vtestvli l_Vtestvl l_Vsetvlimax l_Vsetvlmax l_Vsetivli
  l_Vsetvl l_Vsetvli no_register no_fp_register Interpreter.listener].

(** Proves that a computation only reads. *)
Ltac prove_reads :=
  expose;
  lazymatch goal with
  | |- reads _ _ (SemanticsPlayer.GetRegOrZero _) => apply reads_GetRegOrZero
  | |- reads _ _ (Interpreter.GetReg _) => apply reads_GetReg
  | |- reads _ _ (Interpreter.GetFpReg _) => apply reads_GetFpReg
  | |- reads _ _ (Interpreter.GetFRegAndUnboxNan _ _) => apply reads_GetFRegAndUnboxNan
  | |- reads _ _ (Interpreter.GetCsr _) => apply reads_GetCsr
  | |- reads _ _ Interpreter.GetInsnAddr => apply reads_GetInsnAddr
  | |- reads _ _ (Interpreter.call_fp _) => apply reads_call_fp
  | |- reads _ _ (Interpreter.Auipc _) => apply reads_Auipc
  | |- reads _ _ (Interpreter.Lui _) => apply reads_value
  | |- reads _ _ (mret _) => apply reads_value
  end; eauto with zrange; try done.
Ltac prove_computes :=
  expose;
  lazymatch goal with
  | |- computes _ _ (match ?o with _ => _ end) => destruct o; prove_computes
  | |- computes _ _ (Interpreter.Op _ _ _) => apply computes_Op
  | |- computes _ _ (Interpreter.Op32 _ _ _) => apply computes_Op32
  | |- computes _ _ (Interpreter.OpImm _ _ _) => apply computes_OpImm
  | |- computes _ _ (Interpreter.ShiftImm32 _ _ _) => apply computes_ShiftImm32
  | |- computes _ _ (Interpreter.shift _ _ _) => apply computes_shift
  | |- computes _ _ (Interpreter.Load _ _ _) => apply computes_Load
  | |- computes _ _ (Interpreter.LoadFp _ _ _) => apply computes_Load_typed
  | |- computes _ _ (Interpreter.UpdateCsr _ _ _) => apply computes_UpdateCsr
  | |- computes _ _ (SemanticsPlayer.undefined_register) => apply computes_undefined
  | |- computes _ _ _ => apply reads_computes; prove_reads
  end; eauto with zrange; try done.

Section Play.
Context `{HostOk} (ab : bool) (c : InsnCall) (s0 : IState).
Implicit Types (s : IState) (r v : Z) (m : IM Z).
Abbreviation finished := (fun (_ : unit) s => sound c s0 s).

Lemma wp_read {B} m (k : Z -> IM B) Q s :
  calm s0 s -> reads ab s0 m -> (forall v s', in_range u64 v -> calm s0 s' -> wp ab (k v) Q s') ->
  wp ab (m ≫= k) Q s.
Proof. intros Hs Hm Hk; apply wp_bind, Hm; auto. Qed.

Lemma wp_undefined s : calm s0 s -> wp ab Interpreter.Undefined finished s.
Proof. intros Hs; eapply wp_Undefined; [done |]; intros s'; apply raised_sound. Qed.

Lemma wp_commit (m : IM unit) s : calm s0 s -> commits ab c s0 m -> wp ab m finished s.
Proof.
  intros Hs Hm; apply (proj1 (Hm s _)); [by apply calm_live |]; intros s' Hs'; apply (live_sound _ _ _ Hs').
Qed.

(** A computation whose result goes to one effect. *)
Lemma wp_result m (k : Z -> IM unit) s :
  calm s0 s -> computes ab s0 m -> (forall v, in_range u64 v -> commits ab c s0 (k v)) ->
  wp ab (m ≫= k) finished s.
Proof.
  intros Hs Hm Hk; apply wp_bind, Hm; [done | |].
  - intros v s' Hv Hs'; apply (proj1 (Hk v Hv s' _)); [by apply calm_live |].
    intros s'' Hs''; apply (live_sound _ _ _ Hs'').
  - intros s' Hs'; apply (proj2 (Hk 0 (fits_u64 0 0 ltac:(done) ltac:(done)) s' _)); [done |].
    intros s''; apply raised_sound.
Qed.

Lemma wp_result_reg m r s :
  calm s0 s -> reg r -> r = dest c -> computes ab s0 m ->
  wp ab (m ≫= SemanticsPlayer.SetRegOrIgnore r) finished s.
Proof. intros Hs Hr Hd Hm; apply wp_result; [done | done |]; intros; by apply commits_SetRegOrIgnore. Qed.

Lemma wp_result_freg ft m r s :
  calm s0 s -> reg r -> fdest c = Some r -> computes ab s0 m ->
  wp ab (m ≫= Interpreter.NanBoxAndSetFpReg ft r) finished s.
Proof. intros Hs Hr Hd Hm; apply wp_result; [done | done |]; intros; by apply commits_NanBoxAndSetFpReg. Qed.

Lemma wp_by_float_type o k s :
  calm s0 s -> (forall ft, wp ab (k ft) finished s) ->
  wp ab (SemanticsPlayer.by_float_type o k) finished s.
Proof.
  intros Hs Hk; unfold SemanticsPlayer.by_float_type.
  match goal with |- wp _ (match ?o with _ => _ end) _ _ => destruct o as [[]|] end;
    first [apply Hk | by apply wp_undefined].
Qed.
End Play.

(** Runs the next step of an instruction. *)
Ltac wp_next :=
  expose;
  lazymatch goal with
  | |- wp _ Interpreter.Undefined _ _ => apply wp_undefined; done
  | |- wp _ SemanticsPlayer.Undefined _ _ => apply wp_undefined; done
  | |- wp _ (SemanticsPlayer.by_float_type _ _) _ _ => apply wp_by_float_type; [done | intros ft]
  | |- wp _ (_ ≫= (fun v => SemanticsPlayer.SetRegOrIgnore _ v)) _ _ =>
      apply wp_result_reg; [done | done | done |]; prove_computes
  | |- wp _ (_ ≫= (fun v => Interpreter.NanBoxAndSetFpReg _ _ v)) _ _ =>
      apply wp_result_freg; [done | done | done |]; prove_computes
  | |- wp _ (_ ≫= _) _ _ => eapply wp_read; [done | prove_reads |]; intros ?v ?s ?Hv ?Hs
  | |- wp _ (match ?o with _ => _ end) _ _ => destruct o
  end.
Ltac wp_play := repeat wp_next.

Section Instructions.
Context `{HostOk} (ab : bool) (c : InsnCall) (s0 : IState).
Implicit Types (s : IState).
Abbreviation finished := (fun (_ : unit) s => sound c s0 s).

Lemma play_Op hook other a s :
  calm s0 s -> dest c = OpArgsTemplate.dst a ->
  reg (OpArgsTemplate.dst a) -> reg (OpArgsTemplate.src1 a) -> reg (OpArgsTemplate.src2 a) ->
  (forall o v w, computes ab s0 (other o v w)) ->
  wp ab (SemanticsPlayer.Op_with hook other a) finished s.
Proof.
  intros Hs Hd Hr1 Hr2 Hr3 Ho; unfold SemanticsPlayer.Op_with; do 2 wp_next.
  apply wp_result_reg; [done | done | done |].
  destruct (hook _); [prove_computes | apply Ho].
Qed.

(** The instructions that compute a result and write it, or are undefined. *)
Definition plain (c : InsnCall) : bool :=
  match c with
  | Amo _ | CompareAndBranch _ | Csr _ | CsrImm _ | JumpAndLink _ | JumpAndLinkRegister _ | OpImm32 _
  | OpImmBitmanip _ | OpImmBitmanip32 _ | Store _ | StoreFp _ | Vsetivli _ | Vsetvl _ | Vsetvli _ => false
  | c => scalar c
  end.
End Instructions.

Lemma play_plain `{HostOk} (ab : bool) c s0 s :
  plain c = true -> wf_call c -> calm s0 s ->
  wp ab (SemanticsPlayer.consume c) (fun _ s => sound c s0 s) s.
Proof.
  intros Hp Hc Hs; destruct c; try discriminate Hp; cbn [wf_call] in Hc; destruct_and? Hc;
    cbn [SemanticsPlayer.consume].
  all: try apply play_Op; try done; try (intros; prove_computes).
  all: unfold SemanticsPlayer.Auipc, SemanticsPlayer.Lui, SemanticsPlayer.Fcvt_FloatToFloat,
    SemanticsPlayer.Fcvt_FloatToInteger, SemanticsPlayer.Fcvt_IntegerToFloat,
    SemanticsPlayer.FcvtloatToInteger, SemanticsPlayer.FcvtIntegerToFloat,
    SemanticsPlayer.Fma, SemanticsPlayer.Fma_typed,
    SemanticsPlayer.Load, SemanticsPlayer.LoadFp, SemanticsPlayer.OpSingleInput,
    SemanticsPlayer.OpImm, SemanticsPlayer.OpImmShift, SemanticsPlayer.OpImmShift32,
    SemanticsPlayer.OpImm_with, SemanticsPlayer.Fence, SemanticsPlayer.FenceI, SemanticsPlayer.Nop, SemanticsPlayer.OpFp, SemanticsPlayer.OpFp_typed,
    SemanticsPlayer.OpFpGpRegisterTargetNoRounding,
    SemanticsPlayer.OpFpGpRegisterTargetSingleInputNoRounding, SemanticsPlayer.OpFpNoRounding,
    SemanticsPlayer.FmvFloatToInteger, SemanticsPlayer.FmvIntegerToFloat,
    SemanticsPlayer.OpFpSingleInput, SemanticsPlayer.OpFpSingleInputNoRounding; cbv zeta.
  all: wp_play.
  1, 2: by apply wp_ret, live_sound, calm_live.
  unfold plain, scalar in Hp; unfold SemanticsPlayer.System; rewrite Hp; by apply wp_undefined.
Qed.

(** ** The remaining instructions *)
Section OtherInstructions.
Context `{HostOk} (s0 : IState).
Implicit Types (s : IState) (c : InsnCall) (ab : bool).

Lemma play_Store ab a s :
  wf_call (Store a) -> calm s0 s ->
  wp ab (SemanticsPlayer.Store a) (fun _ s => sound (Store a) s0 s) s.
Proof.
  cbn; intros Hc Hs; destruct_and? Hc; unfold SemanticsPlayer.Store; do 2 wp_next.
  expose; by apply (wp_Store ab (Store a) s0).
Qed.

Lemma play_StoreFp ab a s :
  wf_call (StoreFp a) -> calm s0 s ->
  wp ab (SemanticsPlayer.StoreFp a) (fun _ s => sound (StoreFp a) s0 s) s.
Proof.
  cbn; intros Hc Hs; destruct_and? Hc; unfold SemanticsPlayer.StoreFp; do 3 wp_next.
  expose; by apply (wp_Store_typed ab (StoreFp a) s0).
Qed.

Lemma wp_Branch ab c n s :
  jumps c = true -> live c s0 s -> wp ab (Interpreter.Branch n) (fun _ s => sound c s0 s) s.
Proof.
  intros Hj Hs; apply wp_bind, wp_no_exception; [by apply live_exception with c s0 |].
  apply wp_modify, live_jump; auto with zrange.
Qed.

Lemma wp_BranchRegister ab c b n s :
  jumps c = true -> live c s0 s -> wp ab (Interpreter.BranchRegister b n) (fun _ s => sound c s0 s) s.
Proof.
  intros Hj Hs; apply wp_bind, wp_no_exception; [by apply live_exception with c s0 |].
  apply wp_modify, live_jump; auto with zrange.
Qed.

Lemma play_CompareAndBranch ab a s :
  wf_call (CompareAndBranch a) -> calm s0 s ->
  wp ab (SemanticsPlayer.CompareAndBranch a) (fun _ s => sound (CompareAndBranch a) s0 s) s.
Proof.
  cbn; intros Hc Hs; destruct_and? Hc; unfold SemanticsPlayer.CompareAndBranch; do 2 wp_next.
  expose; unfold Interpreter.CompareAndBranch; cbv zeta.
  match goal with |- wp _ (match ?o with _ => _ end) _ _ => destruct o as [[]|] end;
    try by apply wp_undefined.
  all: case_goal; [apply wp_Branch; [done |] | apply wp_ret, live_sound]; by apply calm_live.
Qed.

(** The return address is written before the jump. *)
Lemma wp_link ab c r v (k : unit -> IM unit) s :
  calm s0 s -> reg r -> r = dest c -> in_range u64 v ->
  (forall s', live c s0 s' -> wp ab (k tt) (fun _ s => sound c s0 s) s') ->
  wp ab (SemanticsPlayer.SetRegOrIgnore r v ≫= k) (fun _ s => sound c s0 s) s.
Proof.
  intros Hs Hr Hd Hv Hk; apply wp_bind.
  apply (proj1 (commits_SetRegOrIgnore ab c s0 r v Hr Hd Hv s _)); [by apply calm_live | done].
Qed.

Lemma play_JumpAndLink ab a s :
  wf_call (JumpAndLink a) -> calm s0 s ->
  wp ab (SemanticsPlayer.JumpAndLink a) (fun _ s => sound (JumpAndLink a) s0 s) s.
Proof.
  cbn; intros Hc Hs; destruct_and? Hc; unfold SemanticsPlayer.JumpAndLink; do 2 wp_next.
  apply wp_link; [done .. |]; intros s' Hs'; expose; by apply wp_Branch.
Qed.

Lemma play_JumpAndLinkRegister ab a s :
  wf_call (JumpAndLinkRegister a) -> calm s0 s ->
  wp ab (SemanticsPlayer.JumpAndLinkRegister a) (fun _ s => sound (JumpAndLinkRegister a) s0 s) s.
Proof.
  cbn; intros Hc Hs; destruct_and? Hc; unfold SemanticsPlayer.JumpAndLinkRegister; wp_next.
  eapply wp_read; [done | destruct (_ =? _); by prove_reads |]; intros b s' Hb Hs'.
  do 2 wp_next; apply wp_link; [done .. |]; intros s'' Hs''; expose; by apply wp_BranchRegister.
Qed.

(** The word addition is exact or undefined. *)
Lemma play_OpImm32 a s :
  wf_call (OpImm32 a) -> calm s0 s ->
  wp (may_abort (OpImm32 a) s0) (SemanticsPlayer.OpImm32 a) (fun _ s => sound (OpImm32 a) s0 s) s.
Proof.
  intros Hc Hs; cbn [wf_call] in Hc; destruct_and? Hc.
  unfold SemanticsPlayer.OpImm32, SemanticsPlayer.OpImm_with; expose.
  apply wp_bind, wp_GetRegOrZero; [by apply (calm_wf s0) | done |].
  replace (xreg s (OpImmArgsTemplate.src a)) with (xreg s0 (OpImmArgsTemplate.src a))
    by (unfold xreg; by rewrite (calm_cpu _ _ Hs)).
  apply wp_result_reg; [done | done | done |]; unfold Interpreter.OpImm32, Interpreter.add_int32.
  match goal with |- computes _ _ (match ?o with _ => _ end) => destruct o as [[]|] end;
    [| apply computes_undefined].
  intros s' Q Hs' HQ _; apply wp_bind; cbn [may_abort]; destruct (in_rangeb _ _); [| done].
  apply wp_ret, wp_ret, HQ; [apply cast_u64_range | done].
Qed.

Lemma play_OpImmBitmanip a s :
  wf_call (OpImmBitmanip a) -> calm s0 s ->
  wp (may_abort (OpImmBitmanip a) s0) (SemanticsPlayer.OpImmBitmanip a)
    (fun _ s => sound (OpImmBitmanip a) s0 s) s.
Proof.
  intros Hc Hs; cbn [wf_call] in Hc; destruct_and? Hc; cbn [may_abort].
  unfold SemanticsPlayer.OpImmBitmanip, SemanticsPlayer.OpImm_with; cbv zeta; wp_next.
  apply wp_result_reg; [done | done | done |].
  destruct (enum_of _) as [[]|]; try prove_computes.
Qed.

Lemma play_OpImmBitmanip32 a s :
  wf_call (OpImmBitmanip32 a) -> calm s0 s ->
  wp (may_abort (OpImmBitmanip32 a) s0) (SemanticsPlayer.OpImmBitmanip32 a)
    (fun _ s => sound (OpImmBitmanip32 a) s0 s) s.
Proof.
  intros Hc Hs; cbn [wf_call] in Hc; destruct_and? Hc; cbn [may_abort].
  assert (fits 6 (BitmanipImmArgsTemplate.shamt a)) by (by apply (fits_mono 5)).
  unfold SemanticsPlayer.OpImmBitmanip32, SemanticsPlayer.OpImm_with; cbv zeta; wp_next.
  apply wp_result_reg; [done | done | done |].
  destruct (enum_of _) as [[]|]; try prove_computes.
Qed.

(** *** Control registers *)
Lemma wp_SetCsr_with ab c csr v (Q : bool -> IState -> Prop) s :
  (forall name, ProcessCsrName csr = Some name -> writes_field c (csr_storage name) = true) ->
  in_range u64 v -> live c s0 s -> (forall s', live c s0 s' -> Q true s') -> Q false s ->
  wp ab (SemanticsPlayer.SetCsr csr v) Q s.
Proof.
  intros Hw Hv Hs Ht Hf; unfold SemanticsPlayer.SetCsr, SemanticsPlayer.SetCsr_with.
  destruct (negb (CsrWritable csr)); [by apply wp_ret |].
  destruct (ProcessCsrName csr) as [name |]; [| by apply wp_ret].
  apply wp_bind; destruct (CsrWritable _); expose.
  - eapply wp_SetCsr; [by apply Hw | done | done |]; intros s' Hs'; apply wp_ret; auto.
  - apply wp_ret, wp_ret; auto.
Qed.

Lemma wp_SetCsr_with_raised ab csr v (Q : bool -> IState -> Prop) s :
  ab = true -> raised s0 s -> (forall b, Q b s) -> wp ab (SemanticsPlayer.SetCsr csr v) Q s.
Proof.
  intros Hab Hs Hk; unfold SemanticsPlayer.SetCsr, SemanticsPlayer.SetCsr_with.
  destruct (negb (CsrWritable csr)); [by apply wp_ret |].
  destruct (ProcessCsrName csr) as [name |]; [| by apply wp_ret].
  apply wp_bind; destruct (CsrWritable _); expose.
  - eapply wp_SetCsr_raised; [done | done |]; by apply wp_ret.
  - by apply wp_ret, wp_ret.
Qed.

Lemma wp_GetCsr_with ab c csr (k : bool * Z -> IM unit) s :
  calm s0 s ->
  (forall v s', in_range u64 v -> calm s0 s' -> wp ab (k (true, v)) (fun _ s => sound c s0 s) s') ->
  wp ab (k (false, 0)) (fun _ s => sound c s0 s) s ->
  wp ab (SemanticsPlayer.GetCsr csr ≫= k) (fun _ s => sound c s0 s) s.
Proof.
  intros Hs Ht Hf; apply wp_bind; unfold SemanticsPlayer.GetCsr.
  destruct (ProcessCsrName csr) as [name |]; [| by apply wp_ret].
  wp_next; apply wp_ret; auto.
Qed.

Lemma wp_live_SetReg ab c r v s :
  reg r -> r = dest c -> in_range u64 v -> live c s0 s ->
  wp ab (SemanticsPlayer.SetRegOrIgnore r v) (fun _ s => sound c s0 s) s.
Proof.
  intros Hr Hd Hv Hs; apply (proj1 (commits_SetRegOrIgnore ab c s0 r v Hr Hd Hv s _)); [done |].
  intros s' Hs'; apply (live_sound _ _ _ Hs').
Qed.

Lemma SetReg_nonzero r v : r <> 0 -> Interpreter.SetReg r v = SemanticsPlayer.SetRegOrIgnore r v.
Proof. intros Hr; unfold SemanticsPlayer.SetRegOrIgnore; by destruct (Z.eqb_spec r 0). Qed.

(** Read, modify, write: the part [Csr] and [CsrImm] share.  A source of zero
    leaves the register as it is. *)
Lemma play_csr_update ab c csr o dst arg v s :
  ab || negb (o =? 0) = true -> fits 2 o -> o <> 1 -> reg dst -> dst = dest c ->
  (forall name, ProcessCsrName csr = Some name -> writes_field c (csr_storage name) = true) ->
  reads ab s0 arg -> in_range u64 v -> calm s0 s ->
  wp ab (ok ← (a ← arg; new ← Interpreter.UpdateCsr o a v; SemanticsPlayer.SetCsr csr new);
         if negb ok then SemanticsPlayer.Undefined else SemanticsPlayer.SetRegOrIgnore dst v)
    (fun _ s => sound c s0 s) s.
Proof.
  intros Ho Hf Ho1 Hd Hdc Hw Harg Hv Hs; apply wp_bind.
  eapply wp_read; [done | done |]; intros a s1 Ha Hs1.
  apply wp_bind.
  assert (computes ab s0 (Interpreter.UpdateCsr o a v)) as Hu by (by apply computes_UpdateCsr).
  destruct (decide (o = 0)) as [-> |].
  - cbn in Ho; rewrite orb_false_r in Ho; apply Hu; [done | |].
    + intros w s2 Hw' Hs2; eapply wp_SetCsr_with; [done | done | by apply calm_live | |].
      * intros s3 Hs3; by apply wp_live_SetReg.
      * by apply wp_undefined.
    + intros s2 Hs2; apply wp_SetCsr_with_raised; [done | done |]; intros [].
      * apply wp_SetRegOrIgnore; [by apply (raised_wf s0) | done |].
        unfold write_reg; rewrite (raised_exception _ _ Hs2); by apply raised_sound.
      * apply wp_modify, raised_sound; destruct Hs2; by constructor.
  - assert (o = 2 \/ o = 3) as Hoo by (unfold fits in Hf; cbn in Hf; lia).
    assert (exists w, in_range u64 w /\ Interpreter.UpdateCsr o a v = mret w) as (w & Hw' & ->).
    { destruct Hoo as [-> | ->]; eexists; (split; [| reflexivity]); eauto with zrange. }
    apply wp_ret; eapply wp_SetCsr_with; [done | done | by apply calm_live | |].
    + intros s3 Hs3; by apply wp_live_SetReg.
    + by apply wp_undefined.
Qed.

Lemma play_Csr a s :
  wf_call (Csr a) -> calm s0 s ->
  wp (may_abort (Csr a) s0) (SemanticsPlayer.Csr a) (fun _ s => sound (Csr a) s0 s) s.
Proof.
  intros Hc Hs; cbn [wf_call] in Hc; destruct_and? Hc; cbn [may_abort].
  generalize dependent (may_abort (Csr a) s0); intros _.
  assert (forall name, ProcessCsrName (CsrArgs.csr a) = Some name -> writes_field (Csr a) (csr_storage name) = true) as Hname
    by (intros name E; cbn [writes_field]; by rewrite E, bool_decide_true).
  unfold SemanticsPlayer.Csr; cbv zeta; change (enum_bits CsrOpcode.kCsrrw) with 1.
  destruct (Z.eqb_spec (CsrArgs.opcode a) 1) as [E | E].
  - rewrite E; cbn [Z.eqb orb Pos.eqb]; rewrite andb_true_r.
    assert (forall r, reg r -> reads (r =? 0) s0 (Interpreter.GetReg r)) as Hget.
    { intros r Hr; destruct (Z.eqb_spec r 0) as [-> |]; [| apply reads_GetReg; unfold fits in *; lia].
      by intros s' Q _ _. }
    destruct (Z.eqb_spec (CsrArgs.dst a) 0) as [Ed | Ed]; cbn [negb].
    + eapply wp_read; [done | by apply Hget |]; intros v s' Hv Hs'.
      apply wp_bind; eapply wp_SetCsr_with; [done | done | by apply calm_live | |].
      * intros s'' Hs''; apply wp_ret, (live_sound _ _ _ Hs'').
      * by apply wp_undefined.
    + apply wp_GetCsr_with; [done | | by apply wp_undefined]; intros v s' Hv Hs'; cbn [negb].
      eapply wp_read; [done | by apply Hget |]; intros w s'' Hw Hs''.
      expose; rewrite SetReg_nonzero by done.
      apply wp_bind; eapply wp_SetCsr_with; [done | done | by apply calm_live | |].
      * intros; by apply wp_live_SetReg.
      * apply wp_live_SetReg; try done; by apply calm_live.
  - rewrite andb_false_r, orb_false_r.
    apply wp_GetCsr_with; [done | | by apply wp_undefined]; intros v s' Hv Hs'; cbn [negb].
    destruct (Z.eqb_spec (CsrArgs.src a) 0) as [Es | Es]; cbn [negb].
    + apply wp_bind, wp_ret; apply wp_live_SetReg; try done; by apply calm_live.
    + apply play_csr_update; try done; [by destruct (_ =? 0) |].
      apply reads_GetReg; unfold fits in *; cbn in *; lia.
Qed.

Lemma play_CsrImm a s :
  wf_call (CsrImm a) -> calm s0 s ->
  wp (may_abort (CsrImm a) s0) (SemanticsPlayer.CsrImm a) (fun _ s => sound (CsrImm a) s0 s) s.
Proof.
  intros Hc Hs; cbn [wf_call] in Hc; destruct_and? Hc; cbn [may_abort].
  assert (in_range u64 (CsrImmArgs.imm a)) as Hi by (by apply (fits_u64 5)).
  assert (forall name, ProcessCsrName (CsrImmArgs.csr a) = Some name -> writes_field (CsrImm a) (csr_storage name) = true) as Hname
    by (intros name E; cbn [writes_field]; by rewrite E, bool_decide_true).
  unfold SemanticsPlayer.CsrImm; cbv zeta; change (enum_bits CsrImmOpcode.kCsrrwi) with 1.
  destruct (Z.eqb_spec (CsrImmArgs.opcode a) 1) as [E | E].
  - rewrite E; cbn [Z.eqb orb Pos.eqb].
    assert (forall s', live (CsrImm a) s0 s' ->
      wp false (_ ← SemanticsPlayer.SetCsr_imm (CsrImmArgs.csr a) (CsrImmArgs.imm a); mret tt)
        (fun _ s => sound (CsrImm a) s0 s) s') as Hset.
    { intros s' Hs'; apply wp_bind.
      apply (wp_SetCsr_with false (CsrImm a) (CsrImmArgs.csr a) (CsrImmArgs.imm a)); [done | done | done | |].
      - intros s'' Hs''; apply wp_ret, (live_sound _ _ _ Hs'').
      - apply wp_ret, (live_sound _ _ _ Hs'). }
    destruct (Z.eqb_spec (CsrImmArgs.dst a) 0) as [Ed | Ed]; cbn [negb].
    { apply Hset; by apply calm_live. }
    apply wp_GetCsr_with; [done | | by apply wp_undefined]; intros v s' Hv Hs'; cbn [negb].
    apply wp_bind; apply (wp_SetCsr_with false (CsrImm a)); [done | done | by apply calm_live | | by apply wp_undefined].
    intros s1 Hs1; cbn [negb]; expose; rewrite SetReg_nonzero by done; apply wp_bind.
    eapply (proj1 (commits_SetRegOrIgnore false (CsrImm a) s0 (CsrImmArgs.dst a) v H3 eq_refl Hv s1 _));
      [done | apply Hset].
  - apply wp_GetCsr_with; [done | | by apply wp_undefined]; intros v s' Hv Hs'; cbn [negb].
    destruct (Z.eqb_spec (CsrImmArgs.imm a) 0) as [Es | Es]; cbn [negb].
    + apply wp_bind, wp_ret; apply wp_live_SetReg; try done; by apply calm_live.
    + refine (play_csr_update (CsrImmArgs.opcode a =? 0) (CsrImm a) (CsrImmArgs.csr a)
                (CsrImmArgs.opcode a) (CsrImmArgs.dst a) (mret (CsrImmArgs.imm a)) v s' _ _ _ _ _ _ _ _ _);
        try done; [by destruct (_ =? 0) | by apply reads_value].
Qed.

(** *** Vector configuration *)
Lemma wp_SetVlAndVtypeCsr ab c vl vtype (k : unit -> IM unit) s :
  writes_field c CsrName.kVl = true -> writes_field c CsrName.kVtype = true -> in_range u64 vl -> in_range u64 vtype -> live c s0 s ->
  (forall s', live c s0 s' -> wp ab (k tt) (fun _ s => sound c s0 s) s') ->
  wp ab (SemanticsPlayer.SetVlAndVtypeCsr vl vtype ≫= k) (fun _ s => sound c s0 s) s.
Proof.
  intros Hwl Hwt Hv Ht Hs Hk; unfold SemanticsPlayer.SetVlAndVtypeCsr; expose; do 2 apply wp_bind.
  eapply wp_SetCsr; [done | done | done |]; intros s' Hs'; eapply wp_SetCsr; done.
Qed.

(** The new configuration from the host is written, then the length to the
    destination. *)
Lemma play_configure ab c (call : VsetCall) (k : Z -> IM unit) s :
  writes_field c CsrName.kVl = true -> writes_field c CsrName.kVtype = true -> live c s0 s -> (forall v s', in_range u64 v -> live c s0 s' -> wp ab (k v) (fun _ s => sound c s0 s) s') ->
  wp ab ('(vl, vtype) ← (mret (host_vset call) : IM (Z * Z)); _ ← SemanticsPlayer.SetVlAndVtypeCsr vl vtype; k vl)
    (fun _ s => sound c s0 s) s.
Proof.
  intros Hwl Hwt Hs Hk; apply wp_bind, wp_ret; pose proof (host_vset_ok call) as [Hv Ht].
  destruct (host_vset call) as [vl vtype]; apply wp_SetVlAndVtypeCsr; auto.
Qed.

Lemma play_Vset_zero_imm ab c dst vtype s :
  writes_field c CsrName.kVl = true -> writes_field c CsrName.kVtype = true -> reg dst -> dst = dest c -> calm s0 s ->
  wp ab (SemanticsPlayer.Vset_zero_imm dst vtype) (fun _ s => sound c s0 s) s.
Proof.
  intros Hwl Hwt Hd Hdc Hs; unfold SemanticsPlayer.Vset_zero_imm; destruct (Z.eqb_spec dst 0).
  - unfold SemanticsPlayer.GetVlAndVtypeCsr; apply wp_bind; do 2 wp_next; apply wp_ret; expose.
    apply wp_bind, wp_ret; pose proof (host_vset_ok (HVtestvli v v0 vtype)) as [Hv' Ht].
    destruct (host_vset _) as [vl vt]; unfold SemanticsPlayer.SetVlAndVtypeCsr; expose; apply wp_bind.
    eapply wp_SetCsr; [done | done | by apply calm_live |]; intros s' Hs'; eapply wp_SetCsr; [done | done | done |].
    intros s'' Hs''; apply (live_sound _ _ _ Hs'').
  - expose; apply (play_configure ab c (HVsetvlimax vtype)); [done | done | by apply calm_live |].
    intros v s' Hv Hs'; rewrite SetReg_nonzero by done; by apply wp_live_SetReg.
Qed.

Lemma play_Vsetivli ab a s :
  wf_call (Vsetivli a) -> calm s0 s ->
  wp ab (SemanticsPlayer.Vsetivli a) (fun _ s => sound (Vsetivli a) s0 s) s.
Proof.
  cbn [wf_call]; intros Hc Hs; destruct_and? Hc; unfold SemanticsPlayer.Vsetivli.
  destruct (_ =? 0); [by apply play_Vset_zero_imm |].
  expose; apply (play_configure ab (Vsetivli a) (HVsetivli _ _)); [done | done | by apply calm_live |].
  intros v s' Hv Hs'; by apply wp_live_SetReg.
Qed.

Lemma play_Vsetvli ab a s :
  wf_call (Vsetvli a) -> calm s0 s ->
  wp ab (SemanticsPlayer.Vsetvli a) (fun _ s => sound (Vsetvli a) s0 s) s.
Proof.
  cbn [wf_call]; intros Hc Hs; destruct_and? Hc; unfold SemanticsPlayer.Vsetvli.
  destruct (Z.eqb_spec (VsetvliArgs.src a) 0); [by apply play_Vset_zero_imm |].
  eapply wp_read; [done | apply reads_GetReg; unfold fits in *; cbn in *; lia |]; intros v s1 Hv Hs1.
  expose; apply (play_configure ab (Vsetvli a) (HVsetvli _ _)); [done | done | by apply calm_live |].
  intros w s' Hw Hs'; by apply wp_live_SetReg.
Qed.

Lemma play_Vsetvl a s :
  wf_call (Vsetvl a) -> calm s0 s ->
  wp (may_abort (Vsetvl a) s0) (SemanticsPlayer.Vsetvl a) (fun _ s => sound (Vsetvl a) s0 s) s.
Proof.
  cbn [wf_call may_abort]; intros Hc Hs; destruct_and? Hc; unfold SemanticsPlayer.Vsetvl.
  destruct (Z.eqb_spec (VsetvlArgs.src2 a) 0) as [E |]; [by rewrite E |].
  eapply wp_read; [done | apply reads_GetReg; unfold fits in *; cbn in *; lia |]; intros v s1 Hv Hs1.
  destruct (Z.eqb_spec (VsetvlArgs.src1 a) 0).
  - destruct (Z.eqb_spec (VsetvlArgs.dst a) 0).
    + unfold SemanticsPlayer.GetVlAndVtypeCsr; apply wp_bind; do 2 wp_next; apply wp_ret; expose.
      apply wp_bind, wp_ret; pose proof (host_vset_ok (HVtestvl v0 v1 v)) as [Hv' Ht].
      destruct (host_vset _) as [vl vt]; unfold SemanticsPlayer.SetVlAndVtypeCsr; expose; apply wp_bind.
      eapply (wp_SetCsr _ (Vsetvl a)); [done | done | by apply calm_live |]; intros s' Hs'; eapply (wp_SetCsr _ (Vsetvl a)); [done | done | done |].
      intros s'' Hs''; apply (live_sound _ _ _ Hs'').
    + expose; apply (play_configure _ (Vsetvl a) (HVsetvlmax v)); [done | done | by apply calm_live |].
      intros w s' Hw Hs'; rewrite SetReg_nonzero by done; by apply wp_live_SetReg.
  - eapply wp_read; [done | apply reads_GetReg; unfold fits in *; cbn in *; lia |]; intros w s2 Hw Hs2.
    expose; apply (play_configure _ (Vsetvl a) (HVsetvl _ _)); [done | done | by apply calm_live |].
    intros w' s' Hw' Hs'; by apply wp_live_SetReg.
Qed.

(** *** Atomic operations: the access may fault. *)
Lemma live_set_reservation c s a v :
  reserves c = true -> live c s0 s -> live c s0 (set_cpu (set_reservation a v (cpu s)) s).
Proof.
  intros Hr [Hs He Hb]; destruct Hs as [[Hc Hm] ? ? ? ? ? ? ? ? ? ?]; constructor; [| done | done].
  constructor; cbn; try done; try congruence; split; [by apply wf_set_reservation | done].
Qed.

Lemma live_set_owners c s o :
  writes_memory c = true -> live c s0 s -> live c s0 (set_owners o s).
Proof.
  intros Hw [Hs He Hb]; destruct Hs; constructor; [| done | done]; constructor; cbn; try done; congruence.
Qed.

Lemma wf_ReservationExchange id a e v o m w o' m' :
  ReservationExchange id a e v o m = Some (w, o', m') -> wf_mem m -> wf_mem m'.
Proof.
  unfold ReservationExchange; destruct (TryLock _ _ _); [| by intros [= <- <- <-]].
  unfold compare_exchange; destruct (FaultyLoad _ _ _) as [z |]; cbn [mbind option_bind]; [| done].
  destruct (FaultyStore _ _ _ _) eqn:E; cbn [mbind option_bind]; [| done].
  destruct (z =? e); intros [= <- <- <-]; [by eapply wf_FaultyStore | done].
Qed.

Lemma wp_reservation_load c t a s (Q : Z -> IState -> Prop) :
  reserves c = true -> writes_memory c = true -> calm s0 s ->
  (forall v s', in_range u64 v -> live c s0 s' -> Q v s') -> wp true (Interpreter.reservation_load t a) Q s.
Proof.
  intros Hres Hw Hs HQ; unfold wp, Interpreter.reservation_load, Reservation_Load; cbv zeta.
  destruct (FaultyLoad _ _ _) as [v |]; cbn [mbind option_bind]; [| done].
  apply HQ; [apply cast_u64_range |].
  apply live_set_owners; [done |]; by apply live_set_reservation, calm_live.
Qed.

Lemma wp_reservation_store c t a v s (Q : Z -> IState -> Prop) :
  reserves c = true -> writes_memory c = true -> calm s0 s ->
  (forall v s', in_range u64 v -> live c s0 s' -> Q v s') -> wp true (Interpreter.reservation_store t a v) Q s.
Proof.
  intros Hres Hw Hs HQ; unfold wp, Interpreter.reservation_store, Reservation_Store; cbv zeta.
  pose proof (calm_wf _ _ Hs) as [_ Hm].
  destruct (negb _); cbn [reservation_address reservation_value set_reservation].
  - apply HQ; [apply cast_u64_range |]; apply (live_set_mem c s0); [done | | done].
    apply live_set_owners; [done |]; by apply live_set_reservation, calm_live.
  - destruct (ReservationExchange _ _ _ _ _ _) as [[[w o] m] |] eqn:E; cbn [mbind option_bind]; [| done].
    apply HQ; [apply cast_u64_range |]; apply live_set_mem; [done | | by eapply wf_ReservationExchange].
    apply live_set_owners; [done |]; by apply live_set_reservation, calm_live.
Qed.

Lemma wp_fetch_op c t op a b s (Q : Z -> IState -> Prop) :
  writes_memory c = true -> calm s0 s ->
  (forall v s', in_range u64 v -> live c s0 s' -> Q v s') ->
  wp true (Interpreter.Amo op t false false a b) Q s.
Proof.
  intros Hw Hs HQ; unfold wp, Interpreter.Amo; pose proof (calm_wf _ _ Hs) as [_ Hm].
  assert (exists f, Interpreter.amo_intrinsic op = fetch_op f) as [f ->] by (destruct op; by eexists).
  unfold fetch_op; cbv zeta; destruct (FaultyLoad _ _ _) as [v |]; cbn [mbind option_bind]; [| done].
  destruct (FaultyStore _ _ _ _) as [m |] eqn:E; cbn [mbind option_bind]; [| done].
  apply HQ.
  - unfold IntegerToGPRReg; destruct (_ <=? _); apply cast_u64_range.
  - apply live_set_mem; [done | by apply calm_live | by eapply wf_FaultyStore].
Qed.

Lemma wp_Amo_typed c t o a b aq rl s (Q : Z -> IState -> Prop) :
  reserves c = true -> writes_memory c = true -> calm s0 s ->
  (forall v s', in_range u64 v -> live c s0 s' -> Q v s') -> (forall s', raised s0 s' -> Q 0 s') ->
  wp true (SemanticsPlayer.Amo_typed t o a b aq rl) Q s.
Proof.
  intros Hres Hw Hs HQ HF; unfold SemanticsPlayer.Amo_typed; expose.
  assert (forall (m : IM Z) b, wp true m Q s -> wp true (_ ← check_no_exception; _ ← CHECK b; m) Q s) as Hc.
  { intros m b' Hm; apply wp_bind, wp_no_exception; [by apply (calm_exception s0) |].
    apply wp_bind, wp_check; [by intros _ | done]. }
  match goal with |- wp _ (match ?o with _ => _ end) _ _ => destruct o as [[]|] end;
    try by apply (wp_fetch_op c).
  - apply Hc; by apply (wp_reservation_load c).
  - apply Hc; by apply (wp_reservation_store c).
  - apply wp_bind; eapply wp_Undefined; [done |]; intros s' Hs'; by apply wp_ret, HF.
Qed.

Lemma play_Amo a s :
  wf_call (Amo a) -> calm s0 s ->
  wp true (SemanticsPlayer.Amo a) (fun _ s => sound (Amo a) s0 s) s.
Proof.
  cbn [wf_call]; intros Hc Hs; destruct_and? Hc; unfold SemanticsPlayer.Amo; do 2 wp_next; cbv zeta.
  match goal with |- wp _ (match ?o with _ => _ end) _ _ => destruct o as [[]|] end;
    try by apply wp_undefined.
  all: apply wp_bind, (wp_Amo_typed (Amo a)); [done | done | done | |].
  1, 3: intros; by apply wp_live_SetReg.
  all: intros s' Hs'; apply (proj2 (commits_SetRegOrIgnore true (Amo a) s0 (AmoArgs.dst a) 0 ltac:(done) eq_refl
         (fits_u64 0 0 ltac:(done) ltac:(done)) s' _)); [done |]; intros s'' Hs''; by apply raised_sound.
Qed.
End OtherInstructions.

(** Playing any scalar instruction. *)
Lemma consume_sound `{HostOk} c s :
  wf_call c -> scalar c = true -> wf_state s ->
  exception_raised_ s = false -> branch_taken_ s = false ->
  wp (may_abort c s) (SemanticsPlayer.consume c) (fun _ s' => sound c s s') s.
Proof.
  intros Hc Hk Hs He Hb; assert (calm s s) as Hcalm by (by apply calm_start).
  destruct (plain c) eqn:Hp; [by apply play_plain |].
  destruct c; try discriminate Hp; try discriminate Hk; cbn [SemanticsPlayer.consume];
    eauto using play_Amo, play_CompareAndBranch, play_Csr, play_CsrImm, play_JumpAndLink,
      play_JumpAndLinkRegister, play_OpImm32, play_OpImmBitmanip, play_OpImmBitmanip32, play_Store,
      play_StoreFp, play_Vsetivli, play_Vsetvl, play_Vsetvli.
  change (scalar (System args) = false) in Hp; congruence.
Qed.

(** ** One step of the interpreter *)

(** What one interpreted instruction of length [len] may do: *)
Record step_sound `{Host} (c : InsnCall) (len : Z) (s s' : IState) : Prop := {
  (* the state stays well-formed; *)
  step_wf : wf_state s';
  (* an exception leaves the guest as it was, the program counter included; *)
  step_precise : exception_raised_ s' = true ->
    cpu s' = cpu s /\ mem s' = mem s /\ owners s' = owners s;
  (* without exception or jump the program counter moves past the instruction; *)
  step_pc : exception_raised_ s' = false -> branch_taken_ s' = false ->
    insn_addr (cpu s') = cast u64 (insn_addr (cpu s) + len);
  step_branch : branch_taken_ s' = true -> jumps c = true /\ exception_raised_ s' = false;
  (* no integer register but the destination changes, and [x0] never does; *)
  step_x : forall r, r = 0%nat \/ r <> Z.to_nat (dest c) -> x (cpu s') !! r = x (cpu s) !! r;
  (* only stores and atomic operations change memory; *)
  step_mem : writes_memory c = false -> mem s' = mem s /\ owners s' = owners s;
  (* an illegal instruction is reported only with an exception. *)
  step_undefined : exception_raised_ s' = false -> undefined_insns s' = undefined_insns s;
  (* no floating-point register but the destination changes; *)
  step_f : forall r, fdest c <> Some (Z.of_nat r) -> f (cpu s') !! r = f (cpu s) !! r;
  (* no control register but those the instruction names, or the vector
     configuration of an instruction that sets it; *)
  step_csr : forall name, writes_field c name = false -> csr_field name (cpu s') = csr_field name (cpu s);
  (* only atomics change the reservation. *)
  step_reservation : reserves c = false ->
    reservation_address (cpu s') = reservation_address (cpu s) /\ reservation_value (cpu s') = reservation_value (cpu s)
}.

Section Step.
Context `{HostOk}.

Lemma Decode_calls code calls len :
  Decode code = Some (calls, len) ->
  let c := List.last calls Nop in calls = [] \/ calls = [c] \/ calls = [Nop; c].
Proof.
  unfold Decode; destruct code as [| p rest]; [done |]; destruct (GetInsnSize p =? 2); intros E.
  - apply (inj Some) in E; apply (f_equal fst) in E; cbn [fst] in E; subst calls.
    destruct (DecodeCompressed_calls p) as [c [-> | ->]]; auto.
  - destruct rest as [| q rest]; [done |].
    apply (inj Some) in E; apply (f_equal fst) in E; cbn [fst] in E; subst calls.
    pose proof (DecodeBase_calls (Z.lor p (Z.shiftl q 16))) as Hl.
    destruct (fst _) as [| c [| ? ?]]; [auto | auto |]; cbn in Hl; by destruct (vset_gap _).
Qed.

(** Started in a well-formed state, the player and [FinalizeInsn] end in a
    sound one. *)
Lemma play_sound c calls len s :
  calls = [] /\ c = Nop \/ calls = [c] \/ calls = [Nop; c] ->
  wf_call c -> scalar c = true -> wf_state s ->
  wp (may_abort c s) (Interpreter.play calls len) (fun _ s' => step_sound c len s s')
    (Interpreter.start s).
Proof.
  intros Hcalls Hc Hk Hs; set (s1 := Interpreter.start s).
  assert (wp (may_abort c s) (SemanticsPlayer.consume_all calls) (fun _ s' => sound c s1 s') s1) as Hall.
  { assert (wp (may_abort c s) (SemanticsPlayer.consume c) (fun _ s' => sound c s1 s') s1) as Hone.
    { apply (consume_sound c s1 Hc Hk); done. }
    destruct Hcalls as [[-> ->] | [-> | ->]]; cbn [SemanticsPlayer.consume_all].
    - exact Hone.
    - apply wp_bind; eapply wp_mono; [| exact Hone]; intros [] s' Hs'; by apply wp_ret.
    - apply wp_bind; cbn [SemanticsPlayer.consume]; apply wp_ret, wp_bind.
      eapply wp_mono; [| exact Hone]; intros [] s' Hs'; by apply wp_ret. }
  apply wp_bind; eapply wp_mono; [| exact Hall]; intros [] s2 [Hwf Hid Hp Hx Hm Hpc Hb Hu Hf Hcsr Hres].
  apply wp_modify; destruct (branch_taken_ s2) eqn:Eb, (exception_raised_ s2) eqn:Ee; cbn [negb andb].
  - destruct (Hp eq_refl) as (_ & _ & _ & ?); congruence.
  - constructor; rewrite ?Ee, ?Eb; try done; auto.
  - destruct (Hp eq_refl) as (? & ? & ? & _); constructor; try done; rewrite ?Ee, ?Eb; done.
  - constructor; cbn; rewrite ?Ee, ?Eb; try done.
    + destruct Hwf; split; [by apply wf_set_insn_addr, cast_u64_range | done].
    + intros _ _; by rewrite Hpc.
Qed.

(** C1: interpreting an instruction from a well-formed guest state, when its
    bytes can be fetched and decoded and it is neither a vector operation nor a
    system call ([scalar]): the process ends only in the cases [may_abort] lists;
    otherwise the new state is well-formed, exceptions are precise (registers,
    memory, reservations and program counter are untouched), the program counter
    moves past the instruction unless it jumped, no integer register but the
    destination changes, [x0] never does, no floating-point register but the
    destination of an instruction that has one changes, no field of the control
    registers but those of the written one changes (the flags that floating-point
    operations accrue in the host apart), only atomics change the reservation,
    and only stores and atomics change memory. *)
Theorem InterpretInsn_sound s code calls len :
  wf_state s -> Interpreter.fetch (mem s) (insn_addr (cpu s)) = Some code ->
  Decode code = Some (calls, len) -> Forall (fun c => scalar c = true) calls ->
  let c := List.last calls Nop in
  match Interpreter.InterpretInsn s with
  | Some (_, s') => step_sound c len s s'
  | None => may_abort c s = true
  end.
Proof.
  intros Hs Hf Hd Hk c; pose proof (Decode_calls _ _ _ Hd) as Hcalls; fold c in Hcalls.
  pose proof (Decode_calls_wf _ _ _ Hd) as Hwf.
  unfold Interpreter.InterpretInsn; rewrite Hf, Hd; apply (play_sound c calls len s); [| | | done].
  - destruct Hcalls as [E | [E | E]]; [left | right; by left | right; by right].
    split; [done |]; unfold c; by rewrite E.
  - destruct Hcalls as [E | [E | E]]; [unfold c; by rewrite E | |]; rewrite E in Hwf; by decompose_Forall.
  - destruct Hcalls as [E | [E | E]]; [unfold c; by rewrite E | |]; rewrite E in Hk; by decompose_Forall.
Qed.
End Step.
