(* ===== verification/ReferenceHost.v ===== *)
(** * A concrete host

    An instance of [Host] for evaluating the interpreter on concrete programs:
    the integer hooks are the C++ intrinsics of
    intrinsics/riscv64_to_arm64/include/berberis/intrinsics/intrinsics.h where
    there are such, the floating-point environment is its exception flags, and
    the kernel does nothing. *)
From stdpp Require Import gmap.
From S2P Require Import Prelude MachineInt BitUtil RiscvInsn GuestState Intrinsics SemanticsPlayer Interpreter InterpreterProps.
#[local] Open Scope Z_scope.

Section IntegerHooks.
(** An intrinsic with operands and result of type [t]. *)
Let typed2 (t : IntType) (op : Z -> Z -> Z) (a b : Z) : Z :=
  IntegerToGPRReg t (op (GPRRegToInteger t a) (GPRRegToInteger t b)).
Let rotation (t : IntType) (rotate : Z -> Z -> option Z) (a b : Z) : Z :=
  IntegerToGPRReg t (default (GPRRegToInteger t a)
    (rotate (GPRRegToInteger t a) (Z.land b (width t - 1)))).

Definition ref_binary (h : Hook.binary) (a b : Z) : Z :=
  match h with
  | Hook.DivRiscV t => typed2 t (DivRiscV t) a b
  | Hook.RemRiscV t => typed2 t (RemRiscV t) a b
  | Hook.Max t => typed2 t Max a b
  | Hook.Min t => typed2 t Min a b
  | Hook.Rol t => rotation t (Rol t) a b
  | Hook.Ror t => rotation t (Ror t) a b
  | Hook.Sh1add => Sh1add a b
  | Hook.Sh2add => Sh2add a b
  | Hook.Sh3add => Sh3add a b
  | Hook.Sh1adduw => Sh1adduw a b
  | Hook.Sh2adduw => Sh2adduw a b
  | Hook.Sh3adduw => Sh3adduw a b
  | Hook.Bclr => cast u64 (Bclr a b)
  | Hook.Bext => Bext a b
  | Hook.Binv => cast u64 (Binv a b)
  | Hook.Bset => cast u64 (Bset a b)
  | Hook.Adduw => cast u64 (cast u32 a + b)
  end.
End IntegerHooks.

Definition ref_unary (h : Hook.unary) (a : Z) : Z :=
  match h with
  | Hook.Zext t => Zext t (cast t a)
  | Hook.Sext t => cast u64 (Sext t (cast t a))
  | Hook.Cpop t => cast u64 (Popcount u64 (cast (make_unsigned t) a))
  | Hook.Ctz t => cast u64 (default (width t) (CountRZero u64 (cast (make_unsigned t) a)))
  | Hook.Rev8 => cast u64 (Rev8 a)
  | Hook.Clz t =>
      let v := cast (make_unsigned t) a in
      cast u64 (if v =? 0 then width t else width t - 1 - Z.log2 v)
  | Hook.Orcb => cast u64 (le_combine ((fun b => if b =? 0 then 0 else 0xff) <$> le_split 8 a))
  end.

Definition ref_shift (h : Hook.shift) (a n : Z) : Z :=
  match h with
  | Hook.Bclri => cast u64 (Bclr a n)
  | Hook.Bexti => Bext a n
  | Hook.Binvi => cast u64 (Binv a n)
  | Hook.Bseti => cast u64 (Bset a n)
  | Hook.Slliuw => cast u64 (Z.shiftl (cast u32 a) n)
  | _ => 0
  end.

Definition ref_fp (c : FpCall) (e : Z) : Z * Z :=
  match c with
  | FpNanBox v => (cast u64 (Z.lor v 0xffffffff00000000), e)
  | FpUnboxNan v => (if v <? 0xffffffff00000000 then 0x7fc00000 else cast u32 v, e)
  | FpMvFloatToInteger t _ v => (IntegerToGPRReg t (cast t v), e)
  | FpMvIntegerToFloat _ t v => (cast u64 (cast (make_unsigned t) v), e)
  | FpCanonicalizeNan _ v => (cast u64 v, e)
  | _ => (0, e)
  end.

#[export] Instance ReferenceHost : Host := {|
  host_env := Z;
  FeGetExceptions e := e mod 2 ^ 5;
  FeSetExceptions v _ := v;
  FeSetRound _ e := e;
  CPUClockCount _ := 0;
  host_binary := ref_binary;
  host_unary := ref_unary;
  host_shift := ref_shift;
  host_fp := ref_fp;
  host_vset _ := (0, 0);
  RunGuestSyscall c := c;
  host_vector _ _ _ _ := None
|}.

Lemma IntegerToGPRReg_range t v : in_range u64 (IntegerToGPRReg t v).
Proof. unfold IntegerToGPRReg; destruct (_ <=? _); apply cast_u64_range. Qed.

Lemma zero_range : in_range u64 0.
Proof. by apply (fits_u64 0). Qed.

#[export] Hint Resolve IntegerToGPRReg_range zero_range : zrange.

#[export] Instance ReferenceHostOk : HostOk.
Proof.
  split; cbn.
  - intros e; apply (fits_u64 5); [done |]; by apply Z.mod_pos_bound.
  - intros _; auto with zrange.
  - intros [] a b; unfold ref_binary, Sh1adduw, Sh2adduw, Sh3adduw, Sh1add, Sh2add, Sh3add, Bext;
      auto with zrange.
  - intros [] a; unfold ref_unary, Zext; cbv zeta; auto with zrange.
  - intros [] a n; unfold ref_shift, Bext; auto with zrange.
  - intros [] e; cbn; auto with zrange; case_goal; [by apply (fits_u64 31) |].
    apply (fits_u64 32); [done |]; apply (in_range_unsigned u32); [done |]; by apply cast_in_range.
  - intros _; auto with zrange.
Qed.

(** ** Concrete states *)

Definition initial_cpu (pc : Z) : CPUState :=
  mkCPUState (replicate kNumGuestRegs 0) (replicate kNumGuestFpRegs 0) pc 0 0 0 0 0 0 0.

(** The bytes of [code] at [pc], and [data] at [addr]. *)
Definition initial_state (pc : Z) (code : list Z) (addr : Z) (data : list Z) : IState :=
  mkIState _ 1 (initial_cpu pc) (store_bytes (store_bytes ∅ addr data) pc code) ∅ 0 [] false false.

Lemma initial_cpu_wf pc : in_range u64 pc -> wf_cpu (initial_cpu pc).
Proof.
  intros Hpc; constructor; cbn [initial_cpu x f insn_addr frm vstart vcsr vl vtype]; try done;
    apply Forall_replicate, zero_range.
Qed.

Lemma wf_store_bytes m a bs :
  Forall (fun b => 0 <= b < 2 ^ 8) bs -> wf_mem m -> wf_mem (store_bytes m a bs).
Proof.
  intros Hb Hm i b; rewrite store_bytes_lookup; case_decide; [| apply Hm].
  intros (z & E & ->)%fmap_Some; by eapply Forall_lookup_1 in Hb.
Qed.

Lemma initial_state_wf pc code addr data :
  in_range u64 pc -> Forall (fun b => 0 <= b < 2 ^ 8) code -> Forall (fun b => 0 <= b < 2 ^ 8) data ->
  wf_state (initial_state pc code addr data).
Proof.
  intros Hpc Hc Hd; split; [by apply initial_cpu_wf |].
  apply wf_store_bytes; [done |]; apply wf_store_bytes; [done | apply map_Forall_empty].
Qed.

(** A test of the state after one instruction. *)
Definition after (s : IState) (test : IState -> bool) : bool :=
  match Interpreter.InterpretInsn s with Some (_, s') => test s' | None => false end.

(** Proves the premises of [initial_state_wf] at concrete bytes. *)
Ltac concrete_wf :=
  apply initial_state_wf; [split; vm_compute; congruence | |];
  repeat (apply List.Forall_cons; [split; [vm_compute; congruence | vm_compute; reflexivity] |]);
  apply List.Forall_nil.

(** [addi x5, x0, 7] at address 0x1000. *)
Lemma InterpretInsn_sound_witness :
  let s := initial_state 0x1000 (le_split 4 0x700293) 0 [] in
  match Interpreter.InterpretInsn s with
  | Some (_, s') =>
      step_sound (OpImm (OpImmArgsTemplate.mk (enum_bits OpImmOpcode.kAddi) 5 0 7)) 4 s s'
      /\ xreg s' 5 = 7 /\ insn_addr (cpu s') = 0x1004
  | None => False
  end.
Proof.
  intros s.
  pose proof (InterpretInsn_sound s [0x293; 0x70]
    [OpImm (OpImmArgsTemplate.mk (enum_bits OpImmOpcode.kAddi) 5 0 7)] 4) as H.
  assert (wf_state s) as Hs by concrete_wf.
  specialize (H Hs ltac:(vm_compute; reflexivity) ltac:(vm_compute; reflexivity)
    ltac:(repeat constructor)).
  assert (after s (fun s' => (xreg s' 5 =? 7) && (insn_addr (cpu s') =? 0x1004)) = true) as E
    by (vm_compute; reflexivity).
  unfold after in E; destruct (Interpreter.InterpretInsn s) as [[u s'] |]; [| discriminate E].
  apply andb_true_iff in E as [E1%Z.eqb_eq E2%Z.eqb_eq].
  split; [exact H | split; assumption].
Defined.
