(* ===== verification/InterpreterSpec.v ===== *)
(** * What interpreted instructions compute

    The results of the integer instructions against their definition in exact
    integer arithmetic, loads and stores, control flow and the control
    registers, each for the instruction as the player executes it. *)
From stdpp Require Import gmap.
From S2P Require Import Prelude MachineInt BitUtil RiscvInsn RiscvDecoder RiscvDecoderProps GuestState Intrinsics SemanticsPlayer Interpreter InterpreterProps ReferenceHost.
#[local] Open Scope Z_scope.

(** ** Reference arithmetic

    On unsigned 64-bit values; [sx w] reads the low [w] bits as a signed number
    and [word] is the 64-bit register that holds an integer. *)
Definition sx (w a : Z) : Z :=
  let u := a mod 2 ^ w in if u <? 2 ^ (w - 1) then u else u - 2 ^ w.
Definition word (a : Z) : Z := a mod 2 ^ 64.

Definition riscv_op (o : OpOpcode.t) (a b : Z) : option Z :=
  match o with
  | OpOpcode.kAdd => Some (word (a + b))
  | OpOpcode.kSub => Some (word (a - b))
  | OpOpcode.kAnd => Some (Z.land a b)
  | OpOpcode.kOr => Some (Z.lor a b)
  | OpOpcode.kXor => Some (Z.lxor a b)
  | OpOpcode.kSll => Some (word (a * 2 ^ (b mod 64)))
  | OpOpcode.kSrl => Some (a / 2 ^ (b mod 64))
  | OpOpcode.kSra => Some (word (sx 64 a / 2 ^ (b mod 64)))
  | OpOpcode.kSlt => Some (Z.b2z (sx 64 a <? sx 64 b))
  | OpOpcode.kSltu => Some (Z.b2z (a <? b))
  | OpOpcode.kMul => Some (word (a * b))
  | OpOpcode.kMulh => Some (word (sx 64 a * sx 64 b / 2 ^ 64))
  | OpOpcode.kMulhsu => Some (word (sx 64 a * b / 2 ^ 64))
  | OpOpcode.kMulhu => Some (a * b / 2 ^ 64)
  | OpOpcode.kAndn => Some (Z.ldiff a b)
  | OpOpcode.kOrn => Some (Z.lor a (2 ^ 64 - 1 - b))
  | OpOpcode.kXnor => Some (2 ^ 64 - 1 - Z.lxor a b)
  | _ => None
  end.

(** The word instructions: the 32-bit result, sign-extended. *)
Definition riscv_op32 (o : Op32Opcode.t) (a b : Z) : option Z :=
  match o with
  | Op32Opcode.kAddw => Some (word (sx 32 (a + b)))
  | Op32Opcode.kSubw => Some (word (sx 32 (a - b)))
  | Op32Opcode.kSllw => Some (word (sx 32 (a * 2 ^ (b mod 32))))
  | Op32Opcode.kSrlw => Some (word (sx 32 (a mod 2 ^ 32 / 2 ^ (b mod 32))))
  | Op32Opcode.kSraw => Some (word (sx 32 a / 2 ^ (b mod 32)))
  | Op32Opcode.kMulw => Some (word (sx 32 (a * b)))
  | _ => None
  end.

Definition riscv_op_imm (o : OpImmOpcode.t) (a imm : Z) : Z :=
  match o with
  | OpImmOpcode.kAddi => word (a + imm)
  | OpImmOpcode.kSlti => Z.b2z (sx 64 a <? imm)
  | OpImmOpcode.kSltiu => Z.b2z (a <? word imm)
  | OpImmOpcode.kXori => Z.lxor a (word imm)
  | OpImmOpcode.kOri => Z.lor a (word imm)
  | OpImmOpcode.kAndi => Z.land a (word imm)
  end.

(** The operations left to an intrinsic. *)
Definition op_intrinsic (o : OpOpcode.t) : option Hook.binary :=
  match o with
  | OpOpcode.kDiv => Some (Hook.DivRiscV i64) | OpOpcode.kDivu => Some (Hook.DivRiscV u64)
  | OpOpcode.kRem => Some (Hook.RemRiscV i64) | OpOpcode.kRemu => Some (Hook.RemRiscV u64)
  | OpOpcode.kMax => Some (Hook.Max i64) | OpOpcode.kMaxu => Some (Hook.Max u64)
  | OpOpcode.kMin => Some (Hook.Min i64) | OpOpcode.kMinu => Some (Hook.Min u64)
  | OpOpcode.kRol => Some (Hook.Rol i64) | OpOpcode.kRor => Some (Hook.Ror i64)
  | OpOpcode.kSh1add => Some Hook.Sh1add | OpOpcode.kSh2add => Some Hook.Sh2add | OpOpcode.kSh3add => Some Hook.Sh3add
  | OpOpcode.kBclr => Some Hook.Bclr | OpOpcode.kBext => Some Hook.Bext
  | OpOpcode.kBinv => Some Hook.Binv | OpOpcode.kBset => Some Hook.Bset
  | _ => None
  end.
Definition op32_intrinsic (o : Op32Opcode.t) : option Hook.binary :=
  match o with
  | Op32Opcode.kAdduw => Some Hook.Adduw
  | Op32Opcode.kDivw => Some (Hook.DivRiscV i32) | Op32Opcode.kDivuw => Some (Hook.DivRiscV u32)
  | Op32Opcode.kRemw => Some (Hook.RemRiscV i32) | Op32Opcode.kRemuw => Some (Hook.RemRiscV u32)
  | Op32Opcode.kRolw => Some (Hook.Rol i32) | Op32Opcode.kRorw => Some (Hook.Ror i32)
  | Op32Opcode.kSh1adduw => Some Hook.Sh1adduw | Op32Opcode.kSh2adduw => Some Hook.Sh2adduw
  | Op32Opcode.kSh3adduw => Some Hook.Sh3adduw
  | _ => None
  end.

(** Shifts by an immediate, and rotation to the right: the low [n] bits go to the
    top. *)
Definition riscv_shift_imm (o : ShiftImmOpcode.t) (a n : Z) : Z :=
  match o with
  | ShiftImmOpcode.kSlli => word (a * 2 ^ n)
  | ShiftImmOpcode.kSrli => a / 2 ^ n
  | ShiftImmOpcode.kSrai => word (sx 64 a / 2 ^ n)
  end.
Definition riscv_shift_imm32 (o : ShiftImm32Opcode.t) (a n : Z) : Z :=
  match o with
  | ShiftImm32Opcode.kSlliw => word (sx 32 (a * 2 ^ n))
  | ShiftImm32Opcode.kSrliw => word (sx 32 (a mod 2 ^ 32 / 2 ^ n))
  | ShiftImm32Opcode.kSraiw => word (sx 32 a / 2 ^ n)
  end.
Definition rotate_right (w a n : Z) : Z := a / 2 ^ n + (a mod 2 ^ n) * 2 ^ (w - n).

(** ** The interpreter's arithmetic is the reference *)

Lemma cast_signed_sx w a : 0 < w -> cast (mkIntType w true) a = sx w a.
Proof.
  intros Hw; pose proof (pow2_pos w); pose proof (pow2_double w Hw).
  pose proof (Z.mod_pos_bound a (2 ^ w)).
  apply cast_unique; [done | |].
  - apply in_range_signed; [done |]; unfold sx; cbn [width]; zreflect; lia.
  - unfold sx; cbn [width]; destruct (_ <? _); [by rewrite Z.mod_mod by lia |].
    replace (a mod 2 ^ w - 2 ^ w) with (a mod 2 ^ w + (-1) * 2 ^ w) by lia.
    by rewrite Z.mod_add, Z.mod_mod by lia.
Qed.

Lemma cast_i64_sx a : cast i64 a = sx 64 a.
Proof. by apply (cast_signed_sx 64). Qed.
Lemma cast_i32_sx a : cast i32 a = sx 32 a.
Proof. by apply (cast_signed_sx 32). Qed.

Lemma cast_u64_word a : cast u64 a = word a.
Proof. done. Qed.

Lemma word_small a : in_range u64 a -> word a = a.
Proof. intros Ha%u64_fits; by apply Z.mod_small. Qed.

(** Conversions to 64 bits lose what an intermediate 64-bit type would. *)
Lemma word_cast t a : width t = 64 -> word (cast t a) = word a.
Proof. intros Hw; unfold word; rewrite <- Hw; apply cast_mod; unfold IntTypeOk; lia. Qed.

Lemma bits_of_b n w : w = 2 ^ n -> 0 <= n -> forall b, Z.land b (w - 1) = b mod w.
Proof. intros -> Hn b; rewrite ones_pow2 by done; by apply Z.land_ones. Qed.

Lemma shift_amount64 b : Z.land (cast i64 b) (64 - 1) = b mod 64.
Proof.
  rewrite (bits_of_b 6 64) by (done || lia); change 64 with (2 ^ 6); by rewrite cast_mod_pow2.
Qed.
Lemma shift_amount32 b : Z.land (cast i32 b) (32 - 1) = b mod 32.
Proof.
  rewrite (bits_of_b 5 32) by (done || lia); change 32 with (2 ^ 5); by rewrite cast_mod_pow2.
Qed.

(** A word is determined by its 64 bits. *)
Lemma word_eq a v :
  in_range u64 v -> (forall i, 0 <= i < 64 -> Z.testbit a i = Z.testbit v i) -> word a = v.
Proof.
  intros Hv%u64_fits Hb; apply Z.bits_inj'; intros i Hi; unfold word.
  rewrite testbit_mod_pow2 by lia; destruct (Z.ltb_spec i 64); cbn [andb]; [apply Hb; lia |].
  by rewrite (testbit_bounded v 64).
Qed.

Lemma lnot_word v i : 0 <= i < 64 -> Z.testbit (2 ^ 64 - 1 - v) i = negb (Z.testbit v i).
Proof.
  intros Hi; replace (2 ^ 64 - 1 - v) with (Z.lnot v + 1 * 2 ^ 64) by (unfold Z.lnot; lia).
  rewrite <- (Z.mod_pow2_bits_low _ 64 i), Z.mod_add, Z.mod_pow2_bits_low by lia.
  apply Z.lnot_spec; lia.
Qed.

Lemma complement_range v : in_range u64 v -> in_range u64 (2 ^ 64 - 1 - v).
Proof. rewrite !u64_fits; unfold fits; lia. Qed.

Lemma ldiff_range a b : in_range u64 a -> in_range u64 (Z.ldiff a b).
Proof.
  rewrite !u64_fits; intros Ha; apply bounded_of_testbit; [lia |]; intros i Hi.
  by rewrite Z.ldiff_spec, (testbit_bounded a 64).
Qed.

#[local] Hint Resolve complement_range ldiff_range : zrange.

(** Products of 64-bit values fit 128 bits. *)
Lemma cast_i128 a : - 2 ^ 127 <= a < 2 ^ 127 -> cast i128 a = a.
Proof. intros Ha; apply cast_id; [done |]; by apply in_range_signed. Qed.
Lemma cast_u128 a : 0 <= a < 2 ^ 128 -> cast u128 a = a.
Proof. intros Ha; apply cast_id; [done |]; by apply in_range_unsigned. Qed.

Lemma sx64_bounds a : - 2 ^ 63 <= sx 64 a < 2 ^ 63.
Proof. rewrite <- cast_i64_sx; by apply (in_range_signed i64), cast_in_range. Qed.

Lemma div_word_range a b : in_range u64 a -> 0 <= b -> in_range u64 (a / 2 ^ b).
Proof. intros Ha Hb; rewrite <- Z.shiftr_div_pow2 by done; by apply shiftr_u64. Qed.

Lemma mulhu_range a b : in_range u64 a -> in_range u64 b -> in_range u64 (a * b / 2 ^ 64).
Proof.
  rewrite !u64_fits; unfold fits; intros Ha Hb; split; [apply Z.div_pos; nia |].
  apply Z.div_lt_upper_bound; nia.
Qed.

(** Ring operations on words only depend on the words. *)
Lemma word_add a b : word (cast i64 a + cast i64 b) = word (a + b).
Proof.
  rewrite <- !cast_u64_word, <- (cast_add_l u64 (cast i64 a)), <- (cast_add_r u64 _ (cast i64 b)).
  rewrite !(cast_cast u64 i64) by done; by rewrite cast_add_l, cast_add_r.
Qed.
Lemma word_sub a b : word (cast i64 a - cast i64 b) = word (a - b).
Proof.
  rewrite <- !cast_u64_word, <- (cast_sub_l u64 (cast i64 a)), <- (cast_sub_r u64 _ (cast i64 b)).
  rewrite !(cast_cast u64 i64) by done; by rewrite cast_sub_l, cast_sub_r.
Qed.
Lemma word_mul a b : word (cast i64 a * cast i64 b) = word (a * b).
Proof.
  rewrite <- !cast_u64_word, <- (cast_mul_l u64 (cast i64 a)), <- (cast_mul_r u64 _ (cast i64 b)).
  rewrite !(cast_cast u64 i64) by done; by rewrite cast_mul_l, cast_mul_r.
Qed.
Lemma word_shl a n : 0 <= n -> word (Z.shiftl (cast i64 a) n) = word (a * 2 ^ n).
Proof.
  intros Hn; rewrite Z.shiftl_mul_pow2, <- !cast_u64_word, <- (cast_mul_l u64 (cast i64 a)) by done.
  by rewrite (cast_cast u64 i64), cast_mul_l.
Qed.

(** Evaluates the wrapping operators of one opcode. *)
Ltac unfold_wrapping :=
  unfold Wrapping.add, Wrapping.sub, Wrapping.mul, Wrapping.and, Wrapping.or, Wrapping.xor,
    Wrapping.not, Wrapping.shl, Wrapping.shr, builtin_overflow, Wrapping.NarrowTopHalf,
    Wrapping.wrap_Widen, BitCastToSigned, TruncateTo; cbn [fst].

Ltac bitwise :=
  rewrite cast_u64_word, ?word_cast by done; apply word_eq; [eauto with zrange |]; intros i Hi;
  repeat rewrite ?Z.land_spec, ?Z.lor_spec, ?Z.lxor_spec, ?Z.ldiff_spec, ?lnot_word,
    ?testbit_cast_low, ?Z.lnot_spec by (cbn; lia); try done.

Section Arithmetic.
Context `{Host}.

Lemma Op_riscv_op o a b r s :
  in_range u64 a -> in_range u64 b -> riscv_op o a b = Some r ->
  Interpreter.Op (enum_bits o) a b s = Some (r, s).
Proof.
  intros Ha Hb Hr; unfold Interpreter.Op; rewrite enum_of_bits; cbv zeta.
  assert (forall v, cast u64 v = r -> (mret (cast u64 v) : IM Z) s = Some (r, s)) as Hret
    by (by intros v <-).
  pose proof (Z.mod_pos_bound b 64 ltac:(lia)) as Hn.
  pose proof (sx64_bounds a) as Hsa; pose proof (sx64_bounds b) as Hsb.
  pose proof (proj1 (u64_fits a) Ha) as Ha'; pose proof (proj1 (u64_fits b) Hb) as Hb'.
  unfold fits in Ha', Hb'.
  destruct o; cbn [riscv_op] in Hr; try discriminate Hr; apply (inj Some) in Hr; subst r; apply Hret;
    clear Hret; unfold_wrapping; try by bitwise.
  - by rewrite cast_u64_word, word_cast, word_add.
  - by rewrite cast_u64_word, word_cast, word_sub.
  - change (width i64) with 64; rewrite shift_amount64, cast_u64_word, word_cast by done.
    apply word_shl; lia.
  - rewrite !cast_i64_sx; by destruct (_ <? _).
  - change (width u64) with 64; rewrite shift_amount64, !cast_u64_word, Z.shiftr_div_pow2 by lia.
    rewrite (word_small (a / _)); [apply word_small |]; apply div_word_range; (done || lia).
  - change (width i64) with 64; rewrite shift_amount64, cast_u64_word, word_cast by done.
    by rewrite Z.shiftr_div_pow2, cast_i64_sx by lia.
  - by rewrite cast_u64_word, word_cast, word_mul.
  - rewrite cast_u64_word, word_cast, !cast_i64_sx by done.
    rewrite (cast_i128 (sx 64 a)), (cast_i128 (sx 64 b)), cast_i128 by nia.
    by rewrite Z.shiftr_div_pow2.
  - rewrite cast_u64_word, word_cast, !cast_i64_sx by done; change (make_signed u128) with i128.
    rewrite (cast_u128 b), (cast_i128 (sx 64 a)), (cast_i128 b), cast_i128 by nia.
    by rewrite Z.shiftr_div_pow2.
  - rewrite !cast_u64_word, (cast_u128 a), (cast_u128 b), cast_u128 by nia.
    rewrite Z.shiftr_div_pow2 by done; change (width u64) with 64.
    rewrite (word_small (a * b / _)); [apply word_small |]; by apply mulhu_range.
Qed.

Lemma Op32_riscv_op32 o a b r s :
  riscv_op32 o a b = Some r -> Interpreter.Op32 (enum_bits o) a b s = Some (r, s).
Proof.
  intros Hr; unfold Interpreter.Op32; rewrite enum_of_bits; cbv zeta.
  pose proof (Z.mod_pos_bound b 32 ltac:(lia)) as Hn.
  assert (forall v, cast u64 v = r ->
    (mret (cast u64 (Wrapping.wrap_Widen i64 v)) : IM Z) s = Some (r, s)) as Hret.
  { intros v <-; unfold Wrapping.wrap_Widen; by rewrite cast_cast. }
  destruct o; cbn [riscv_op32] in Hr; try discriminate Hr; apply (inj Some) in Hr; subst r; apply Hret;
    clear Hret; unfold_wrapping; rewrite cast_u64_word; f_equal; change (width i32) with 32;
    change (width u32) with 32; rewrite ?shift_amount32.
  - by rewrite cast_add_l, cast_add_r, cast_i32_sx.
  - by rewrite cast_sub_l, cast_sub_r, cast_i32_sx.
  - rewrite Z.shiftl_mul_pow2 by lia; rewrite cast_mul_l by done; apply cast_i32_sx.
  - rewrite Z.shiftr_div_pow2 by lia; change (make_signed u32) with i32.
    rewrite cast_cast by (cbn; lia); by rewrite cast_i32_sx.
  - rewrite Z.shiftr_div_pow2, <- cast_i32_sx by lia; apply cast_id; [done |].
    rewrite <- Z.shiftr_div_pow2 by lia; apply shiftr_in_range; [done | lia | by apply cast_in_range].
  - by rewrite cast_mul_l, cast_mul_r, cast_i32_sx.
Qed.

Lemma OpImm_riscv o a imm s :
  in_range u64 a -> Interpreter.OpImm (enum_bits o) a imm s = Some (riscv_op_imm o a imm, s).
Proof.
  intros Ha; unfold Interpreter.OpImm; rewrite enum_of_bits; destruct o; cbn [riscv_op_imm];
    unfold mret, IM_ret; rewrite ?cast_i64_sx; do 2 f_equal; try (by destruct (_ <? _)).
  by rewrite cast_add_r.
Qed.

(** *** Shifts and rotations by an immediate *)

Lemma shift_ok_defined w n v s : 0 <= n < w -> Interpreter.shift_ok w n v s = Some (v, s).
Proof. intros Hn; unfold Interpreter.shift_ok, shift_defined; by rewrite (proj2 (Z.leb_le _ _)), (proj2 (Z.ltb_lt _ _)) by lia. Qed.

Lemma shift_imm o a n s :
  0 <= n < 64 -> match o with
                 | ShiftImmOpcode.kSlli => Interpreter.Slli a n
                 | ShiftImmOpcode.kSrli => Interpreter.Srli a n
                 | ShiftImmOpcode.kSrai => Interpreter.Srai a n
                 end s = Some (riscv_shift_imm o a n, s).
Proof.
  intros Hn; destruct o; unfold Interpreter.Slli, Interpreter.Srli, Interpreter.Srai;
    rewrite shift_ok_defined by done; cbn [riscv_shift_imm]; do 2 f_equal.
  - by rewrite Z.shiftl_mul_pow2 by lia.
  - by rewrite Z.shiftr_div_pow2 by lia.
  - by rewrite Z.shiftr_div_pow2, cast_i64_sx by lia.
Qed.

Lemma ShiftImm32_riscv o a n s :
  0 <= n < 32 -> Interpreter.ShiftImm32 (enum_bits o) a n s = Some (riscv_shift_imm32 o a n, s).
Proof.
  intros Hn; unfold Interpreter.ShiftImm32; rewrite enum_of_bits; destruct o;
    rewrite shift_ok_defined by done; cbn [riscv_shift_imm32]; rewrite cast_u64_word; do 3 f_equal.
  - by rewrite Z.shiftl_mul_pow2, cast_mul_l, cast_i32_sx by (done || lia).
  - by rewrite Z.shiftr_div_pow2, cast_i32_sx by lia.
  - by rewrite Z.shiftr_div_pow2, cast_i32_sx by lia.
Qed.

(** The two shifted halves of a rotation have no bit in common. *)
Lemma rotate_halves w a n :
  0 < n < w -> 0 <= a < 2 ^ w ->
  Z.lor (Z.shiftr a n) (cast (mkIntType w false) (Z.shiftl a (w - n))) = rotate_right w a n.
Proof.
  intros Hn Ha; unfold rotate_right; rewrite cast_unsigned, Z.shiftl_mul_pow2, Z.shiftr_div_pow2 by lia.
  assert (2 ^ w = 2 ^ n * 2 ^ (w - n)) as Ew by (rewrite <- Z.pow_add_r by lia; f_equal; lia).
  pose proof (pow2_pos n ltac:(lia)); pose proof (pow2_pos (w - n) ltac:(lia)).
  assert ((a * 2 ^ (w - n)) mod 2 ^ w = (a mod 2 ^ n) * 2 ^ (w - n)) as -> by (rewrite Ew; apply Z.mul_mod_distr_r; lia).
  assert (0 <= a / 2 ^ n < 2 ^ (w - n)) as Hq.
  { split; [apply Z.div_pos; lia | apply Z.div_lt_upper_bound; lia]. }
  rewrite Z.add_nocarry_lxor, Z.lxor_lor; [done | |];
    apply Z.bits_inj'; intros i Hi; rewrite Z.land_spec, Z.mul_pow2_bits, Z.bits_0 by lia;
    (destruct (decide (i < w - n)); [rewrite (Z.testbit_neg_r _ (i - (w - n))) by lia; apply andb_false_r |];
     by rewrite (testbit_bounded (a / 2 ^ n) (w - n)) by (done || lia)).
Qed.

Lemma Rori_riscv a n s :
  in_range u64 a -> 0 < n < 64 -> Interpreter.Rori a n s = Some (rotate_right 64 a n, s).
Proof.
  intros Ha Hn; unfold Interpreter.Rori, Interpreter.CheckShamtIsValid, CHECK.
  rewrite (proj2 (Z.leb_le 0 n)), (proj2 (Z.ltb_lt n 64)) by lia; expose; unfold mbind, IM_bind, mret, IM_ret.
  rewrite shift_ok_defined by lia; rewrite (cast_id u64 a) by done; do 2 f_equal.
  apply rotate_halves; [done |]; by apply u64_fits in Ha.
Qed.

Lemma Roriw_riscv a n s :
  0 < n < 32 -> Interpreter.Roriw a n s = Some (word (sx 32 (rotate_right 32 (a mod 2 ^ 32) n)), s).
Proof.
  intros Hn; unfold Interpreter.Roriw, Interpreter.CheckShamt32IsValid, CHECK.
  rewrite (proj2 (Z.leb_le 0 n)), (proj2 (Z.ltb_lt n 32)) by lia; expose; unfold mbind, IM_bind, mret, IM_ret.
  rewrite shift_ok_defined by lia; rewrite cast_u64_word; do 3 f_equal.
  rewrite cast_i32_sx; f_equal; change (cast u32 a) with (cast (mkIntType 32 false) a); rewrite (cast_unsigned 32 a).
  apply (rotate_halves 32); [done |]; by apply Z.mod_pos_bound.
Qed.

(** The player around a computation that leaves the state alone. *)
Lemma play_OpImm_with src dst compute v s :
  wf_state s -> reg src -> reg dst -> compute (xreg s src) s = Some (v, s) ->
  SemanticsPlayer.OpImm_with src dst compute s = Some (tt, write_reg dst v s).
Proof.
  intros Hs Hr Hd Hc.
  assert (wp false (SemanticsPlayer.OpImm_with src dst compute) (fun _ s' => s' = write_reg dst v s) s) as Hw.
  { apply wp_bind, wp_GetRegOrZero; [done | done |]; apply wp_bind; unfold wp at 1; rewrite Hc.
    by apply wp_SetRegOrIgnore. }
  apply wp_Some in Hw as ([] & s' & E & ->); done.
Qed.

Lemma play_Op_with hook other a v s :
  wf_state s -> reg (OpArgsTemplate.dst a) -> reg (OpArgsTemplate.src1 a) -> reg (OpArgsTemplate.src2 a) ->
  (match hook (OpArgsTemplate.opcode a) with
   | Some h => mret (host_binary h (xreg s (OpArgsTemplate.src1 a)) (xreg s (OpArgsTemplate.src2 a)))
   | None => other (OpArgsTemplate.opcode a) (xreg s (OpArgsTemplate.src1 a)) (xreg s (OpArgsTemplate.src2 a))
   end : IM Z) s = Some (v, s) ->
  SemanticsPlayer.Op_with hook other a s = Some (tt, write_reg (OpArgsTemplate.dst a) v s).
Proof.
  intros Hs Hd H1 H2 Hc.
  assert (wp false (SemanticsPlayer.Op_with hook other a)
    (fun _ s' => s' = write_reg (OpArgsTemplate.dst a) v s) s) as Hw.
  { do 2 (apply wp_bind, wp_GetRegOrZero; [done | done |]); apply wp_bind; unfold wp at 1.
    expose; rewrite Hc; by apply wp_SetRegOrIgnore. }
  apply wp_Some in Hw as ([] & s' & E & ->); done.
Qed.

Lemma addiw_riscv a imm s :
  in_range i32 (sx 32 a + imm) ->
  Interpreter.OpImm32 (enum_bits OpImm32Opcode.kAddiw) a imm s = Some (word (sx 32 (a + imm)), s).
Proof.
  intros Hi; unfold Interpreter.OpImm32, Interpreter.add_int32; rewrite enum_of_bits, cast_i32_sx.
  rewrite (proj2 (in_rangeb_spec i32 _) Hi); unfold mbind, IM_bind, defined, mret, IM_ret; do 2 f_equal.
  rewrite <- (cast_i32_sx a) in Hi |- *; rewrite <- (cast_i32_sx (a + imm)), <- (cast_add_l i32 a imm).
  by rewrite (cast_id i32 (cast i32 a + imm)) by done.
Qed.

Lemma consume_Op `{!HostOk} (o : OpOpcode.t) rd rs1 rs2 s :
  wf_state s -> reg rd -> reg rs1 -> reg rs2 ->
  let a := xreg s rs1 in
  let b := xreg s rs2 in
  SemanticsPlayer.consume (Op (OpArgsTemplate.mk (enum_bits o) rd rs1 rs2)) s
  = Some (tt, write_reg rd match riscv_op o a b, op_intrinsic o with
     | Some r, _ => r | None, Some h => host_binary h a b | None, None => 0 end s)
  /\ (is_Some (riscv_op o a b) \/ is_Some (op_intrinsic o)).
Proof.
  intros Hs Hd H1 H2 a b; pose proof (xreg_range s rs1 Hs) as Ha; pose proof (xreg_range s rs2 Hs) as Hb.
  split; [| by destruct o; (by left; eexists) || (by right; eexists)].
  apply play_Op_with; try done; cbn [OpArgsTemplate.opcode OpArgsTemplate.src1 OpArgsTemplate.src2]; fold a b.
  destruct (riscv_op o a b) as [r |] eqn:E.
  - replace (SemanticsPlayer.Op_hook (enum_bits o)) with (@None Hook.binary) by (by destruct o).
    by apply Op_riscv_op.
  - by destruct o.
Qed.

Lemma consume_Op32 `{!HostOk} (o : Op32Opcode.t) rd rs1 rs2 s :
  wf_state s -> reg rd -> reg rs1 -> reg rs2 ->
  let a := xreg s rs1 in
  let b := xreg s rs2 in
  SemanticsPlayer.consume (Op32 (OpArgsTemplate.mk (enum_bits o) rd rs1 rs2)) s
  = Some (tt, write_reg rd match riscv_op32 o a b, op32_intrinsic o with
     | Some r, _ => r | None, Some h => host_binary h a b | None, None => 0 end s)
  /\ (is_Some (riscv_op32 o a b) \/ is_Some (op32_intrinsic o)).
Proof.
  intros Hs Hd H1 H2 a b; split; [| by destruct o; (by left; eexists) || (by right; eexists)].
  apply play_Op_with; try done; cbn [OpArgsTemplate.opcode OpArgsTemplate.src1 OpArgsTemplate.src2]; fold a b.
  destruct (riscv_op32 o a b) as [r |] eqn:E.
  - replace (SemanticsPlayer.Op32_hook (enum_bits o)) with (@None Hook.binary) by (by destruct o).
    by apply Op32_riscv_op32.
  - by destruct o.
Qed.
End Arithmetic.

Lemma consume_upper `{HostOk} rd imm s :
  wf_state s -> reg rd ->
  SemanticsPlayer.consume (Lui (UpperImmArgs.mk rd imm)) s = Some (tt, write_reg rd (word imm) s)
  /\ SemanticsPlayer.consume (Auipc (UpperImmArgs.mk rd imm)) s
     = Some (tt, write_reg rd (word (insn_addr (cpu s) + imm)) s).
Proof.
  intros Hs Hd.
  assert (forall (m : IM unit) s', wp false m (fun _ s'' => s'' = s') s -> m s = Some (tt, s')) as Hrun.
  { intros m s' ([] & s'' & E & ->)%wp_Some; done. }
  split; apply Hrun; cbn [SemanticsPlayer.consume].
  - apply wp_bind, wp_ret; by apply wp_SetRegOrIgnore.
  - do 2 apply wp_bind; apply wp_gets, wp_ret; apply wp_SetRegOrIgnore; [done | done |].
    by rewrite cast_add_r.
Qed.

(** C28: the integer instructions that the interpreter computes itself write the
    exact result the RISC-V manual defines to the destination register, for all
    operand values, and change nothing else: the register operations in
    [riscv_op] and [riscv_op32] (all multiplications included), the immediate
    operations, [lui] and [auipc], the shifts by an immediate, [addiw] when the
    sum of the 32-bit operands is a 32-bit value, and [rori] and [roriw] by an
    amount other than 0 (in the excluded cases the C++ code is undefined).  Every
    other opcode of the register operations (division, minimum and maximum,
    rotation, shift-and-add, single bits) gets the result of its intrinsic, which
    the build generates. *)
Theorem integer_arithmetic `{HostOk} s rd rs1 rs2 :
  wf_state s -> reg rd -> reg rs1 -> reg rs2 ->
  let a := xreg s rs1 in
  let b := xreg s rs2 in
  let computes c v := SemanticsPlayer.consume c s = Some (tt, write_reg rd v s) in
  (forall o : OpOpcode.t, computes (Op (OpArgsTemplate.mk (enum_bits o) rd rs1 rs2))
     match riscv_op o a b, op_intrinsic o with
     | Some r, _ => r | None, Some h => host_binary h a b | None, None => 0 end
     /\ (is_Some (riscv_op o a b) \/ is_Some (op_intrinsic o)))
  /\ (forall o : Op32Opcode.t, computes (Op32 (OpArgsTemplate.mk (enum_bits o) rd rs1 rs2))
     match riscv_op32 o a b, op32_intrinsic o with
     | Some r, _ => r | None, Some h => host_binary h a b | None, None => 0 end
     /\ (is_Some (riscv_op32 o a b) \/ is_Some (op32_intrinsic o)))
  /\ (forall (o : OpImmOpcode.t) imm,
     computes (OpImm (OpImmArgsTemplate.mk (enum_bits o) rd rs1 imm)) (riscv_op_imm o a imm))
  /\ (forall imm, in_range i32 (sx 32 a + imm) ->
     computes (OpImm32 (OpImmArgsTemplate.mk (enum_bits OpImm32Opcode.kAddiw) rd rs1 imm)) (word (sx 32 (a + imm))))
  /\ (forall (o : ShiftImmOpcode.t) n, 0 <= n < 64 ->
     computes (OpImmShift (ShiftImmArgsTemplate.mk (enum_bits o) rd rs1 n)) (riscv_shift_imm o a n))
  /\ (forall (o : ShiftImm32Opcode.t) n, 0 <= n < 32 ->
     computes (OpImmShift32 (ShiftImmArgsTemplate.mk (enum_bits o) rd rs1 n)) (riscv_shift_imm32 o a n))
  /\ (forall n, 0 < n < 64 ->
     computes (OpImmBitmanip (BitmanipImmArgsTemplate.mk (enum_bits BitmanipImmOpcode.kRori) rd rs1 n))
       (rotate_right 64 a n))
  /\ (forall n, 0 < n < 32 ->
     computes (OpImmBitmanip32 (BitmanipImmArgsTemplate.mk (enum_bits BitmanipImm32Opcode.kRoriw) rd rs1 n))
       (word (sx 32 (rotate_right 32 (a mod 2 ^ 32) n))))
  /\ (forall imm, computes (Lui (UpperImmArgs.mk rd imm)) (word imm)
       /\ computes (Auipc (UpperImmArgs.mk rd imm)) (word (insn_addr (cpu s) + imm))).
Proof.
  intros Hs Hd H1 H2 a b computes; pose proof (xreg_range s rs1 Hs) as Ha; pose proof (xreg_range s rs2 Hs) as Hb.
  split_and!.
  - intros o; apply consume_Op; done.
  - intros o; apply consume_Op32; done.
  - intros o imm; apply play_OpImm_with; try done; by apply OpImm_riscv.
  - intros imm Hi; apply play_OpImm_with; try done; by apply addiw_riscv.
  - intros o n Hn; apply play_OpImm_with; try done; cbn [ShiftImmArgsTemplate.opcode ShiftImmArgsTemplate.imm].
    rewrite enum_of_bits, <- (shift_imm o) by done; by destruct o.
  - intros o n Hn; apply play_OpImm_with; try done; by apply ShiftImm32_riscv.
  - intros n Hn; apply play_OpImm_with; try done; by apply Rori_riscv.
  - intros n Hn; apply play_OpImm_with; try done; by apply Roriw_riscv.
  - intros imm; apply consume_upper; done.
Qed.

(** [mulhsu x7, x5, x6], [sraw], and [rori] on the registers of a concrete state. *)
Lemma integer_arithmetic_witness :
  let s := write_reg 5 (2 ^ 64 - 3) (write_reg 6 (2 ^ 63) (initial_state 0 [] 0 [])) in
  SemanticsPlayer.consume (Op (OpArgsTemplate.mk (enum_bits OpOpcode.kMulhsu) 7 5 6)) s
  = Some (tt, write_reg 7 (2 ^ 64 - 2) s)
  /\ SemanticsPlayer.consume (Op32 (OpArgsTemplate.mk (enum_bits Op32Opcode.kSraw) 7 5 6)) s
     = Some (tt, write_reg 7 (2 ^ 64 - 3) s)
  /\ SemanticsPlayer.consume (OpImmBitmanip (BitmanipImmArgsTemplate.mk (enum_bits BitmanipImmOpcode.kRori) 7 5 4)) s
     = Some (tt, write_reg 7 0xdfffffffffffffff s).
Proof.
  intros s; assert (wf_state s) as Hs.
  { apply wf_write_reg, (fits_u64 64); [| lia | split; vm_compute; congruence].
    apply wf_write_reg, (fits_u64 64); [concrete_wf | lia | split; vm_compute; congruence]. }
  assert (forall r, 5 <= r <= 7 -> reg r) as Hr by (intros r Hr; split; cbn; lia).
  pose proof (integer_arithmetic s 7 5 6 Hs (Hr 7 ltac:(lia)) (Hr 5 ltac:(lia)) (Hr 6 ltac:(lia)))
    as (Hop & Hop32 & _ & _ & _ & _ & Hror & _).
  split; [exact (proj1 (Hop OpOpcode.kMulhsu)) | split; [exact (proj1 (Hop32 Op32Opcode.kSraw)) |]].
  apply (Hror 4); lia.
Defined.

(** ** Memory *)

Definition access_bytes (t : MemoryDataOperandType.t) : nat :=
  match t with
  | MemoryDataOperandType.k8bit => 1
  | MemoryDataOperandType.k16bit => 2
  | MemoryDataOperandType.k32bit => 4
  | MemoryDataOperandType.k64bit => 8
  end.
(** The number of bytes a load reads and what it makes of their value. *)
Definition load_bytes_of (t : LoadOperandType.t) : nat :=
  match t with
  | LoadOperandType.k8bitUnsigned | LoadOperandType.k8bitSigned => 1
  | LoadOperandType.k16bitUnsigned | LoadOperandType.k16bitSigned => 2
  | LoadOperandType.k32bitUnsigned | LoadOperandType.k32bitSigned => 4
  | LoadOperandType.k64bit => 8
  end.
Definition extend (t : LoadOperandType.t) (v : Z) : Z :=
  match t with
  | LoadOperandType.k8bitSigned => word (sx 8 v)
  | LoadOperandType.k16bitSigned => word (sx 16 v)
  | LoadOperandType.k32bitSigned => word (sx 32 v)
  | t => v mod 2 ^ (8 * Z.of_nat (load_bytes_of t))
  end.

Definition address (base offset : Z) : Z := word (base + offset).

Section Memory.
Context `{HostOk}.

(** A faulting access raises an exception and does nothing else. *)
Definition fault (s : IState) : IState := set_exception_raised true s.

Lemma Load_spec (t : LoadOperandType.t) base off s :
  exception_raised_ s = false ->
  Interpreter.Load (enum_bits t) base off s =
  Some (match FaultyLoad (mem s) (address base off) (load_bytes_of t) with
        | Some v => (extend t v, s)
        | None => (0, fault s)
        end).
Proof.
  intros He; unfold Interpreter.Load; rewrite enum_of_bits; cbv zeta; change (cast u64) with word.
  fold (address base off).
  assert (forall ty n, width ty / 8 = Z.of_nat n ->
    Interpreter.Load_typed ty (address base off) s =
    Some (match FaultyLoad (mem s) (address base off) n with
          | Some v => (word (cast ty v), s) | None => (0, fault s) end)) as Hl.
  { intros ty n Hn; unfold Interpreter.Load_typed, check_no_exception, mbind, IM_bind, gets; rewrite He.
    cbn [negb CHECK]; unfold mret, IM_ret; rewrite Hn, Nat2Z.id.
    by destruct (FaultyLoad _ _ _). }
  assert (forall w v, 0 < w <= 64 -> word (cast (mkIntType w false) v) = v mod 2 ^ w) as Hu.
  { intros w v Hw; rewrite cast_unsigned; apply Z.mod_small.
    pose proof (Z.mod_pos_bound v (2 ^ w) (pow2_pos w ltac:(lia))).
    pose proof (pow2_le_mono w 64 ltac:(lia)); lia. }
  destruct t; cbn [load_bytes_of extend];
    lazymatch goal with
    | |- Interpreter.Load_typed (mkIntType ?w ?b) _ _ = _ =>
        rewrite (Hl (mkIntType w b) (Z.to_nat (w / 8)) eq_refl)
    | |- Interpreter.Load_typed ?ty _ _ = _ => let t := eval unfold ty in ty in
        rewrite (Hl ty (Z.to_nat (width ty / 8)) eq_refl); change ty with t
    end; cbn [width Z.div Z.div_eucl Z.to_nat];
    match goal with |- context [FaultyLoad ?m ?a ?n] =>
      let k := eval vm_compute in n in change n with k; destruct (FaultyLoad m a k) as [v |] end;
    try done; do 2 f_equal;
    lazymatch goal with
    | |- context [mkIntType _ true] => by rewrite cast_signed_sx
    | |- context [mkIntType ?w false] => apply (Hu w); lia
    end.
Qed.

Lemma Store_spec (t : MemoryDataOperandType.t) base off v s :
  exception_raised_ s = false ->
  Interpreter.Store (enum_bits t) base off v s =
  Some (tt, match FaultyStore (mem s) (address base off) (access_bytes t) v with
            | Some m => set_exception_raised false (set_mem m s)
            | None => fault s
            end).
Proof.
  intros He; unfold Interpreter.Store; rewrite enum_of_bits; cbv zeta; change (cast u64) with word.
  fold (address base off).
  assert (forall ty n, width ty / 8 = Z.of_nat n ->
    Interpreter.Store_typed ty (address base off) v s =
    Some (tt, match FaultyStore (mem s) (address base off) n v with
              | Some m => set_exception_raised false (set_mem m s) | None => fault s end)) as Hl.
  { intros ty n Hn; unfold Interpreter.Store_typed, check_no_exception, mbind, IM_bind, gets; rewrite He.
    cbn [negb CHECK]; unfold mret, IM_ret; rewrite Hn, Nat2Z.id.
    by destruct (FaultyStore _ _ _ _). }
  destruct t; cbn [access_bytes];
    [apply (Hl u8) | apply (Hl u16) | apply (Hl u32) | apply (Hl u64)]; reflexivity.
Qed.

Lemma consume_Load (t : LoadOperandType.t) rd base off s :
  wf_state s -> reg rd -> reg base -> exception_raised_ s = false ->
  SemanticsPlayer.consume (Load (LoadArgsTemplate.mk (enum_bits t) rd base off)) s =
  Some (tt, match FaultyLoad (mem s) (address (xreg s base) off) (load_bytes_of t) with
            | Some v => write_reg rd (extend t v) s
            | None => fault s
            end).
Proof.
  intros Hs Hd Hb He.
  assert (wp false (SemanticsPlayer.consume (Load (LoadArgsTemplate.mk (enum_bits t) rd base off)))
    (fun _ s' => s' = match FaultyLoad (mem s) (address (xreg s base) off) (load_bytes_of t) with
            | Some v => write_reg rd (extend t v) s | None => fault s end) s) as Hw.
  { cbn [SemanticsPlayer.consume]; unfold SemanticsPlayer.Load.
    apply wp_bind, wp_GetRegOrZero; [done | done |]; apply wp_bind; unfold wp at 1; expose.
    cbn [LoadArgsTemplate.operand_type LoadArgsTemplate.src LoadArgsTemplate.offset LoadArgsTemplate.dst].
    rewrite Load_spec by done; destruct (FaultyLoad _ _ _) as [v |].
    - by apply wp_SetRegOrIgnore.
    - by apply wp_SetRegOrIgnore. }
  apply wp_Some in Hw as ([] & s' & E & ->); done.
Qed.

Lemma consume_Store (t : MemoryDataOperandType.t) base off data s :
  wf_state s -> reg base -> reg data -> exception_raised_ s = false ->
  SemanticsPlayer.consume (Store (StoreArgsTemplate.mk (enum_bits t) base off data)) s =
  Some (tt, match FaultyStore (mem s) (address (xreg s base) off) (access_bytes t) (xreg s data) with
            | Some m => set_exception_raised false (set_mem m s)
            | None => fault s
            end).
Proof.
  intros Hs Hb Hd He; cbn [SemanticsPlayer.consume]; unfold SemanticsPlayer.Store.
  cbn [StoreArgsTemplate.operand_type StoreArgsTemplate.src StoreArgsTemplate.offset StoreArgsTemplate.data].
  set (post := Some _); assert (wp false (a ← SemanticsPlayer.GetRegOrZero base;
    d ← SemanticsPlayer.GetRegOrZero data; l_Store (enum_bits t) a off d) (fun u s' => Some (u, s') = post) s) as Hw.
  { do 2 (apply wp_bind, wp_GetRegOrZero; [done | done |]); unfold wp; expose; by rewrite Store_spec. }
  by apply wp_Some in Hw as (u & s' & E & <-).
Qed.
End Memory.

(** Reading back the bytes just written, with the extension of the load. *)
Lemma extend_mod (t : LoadOperandType.t) v : extend t (v mod 2 ^ (8 * Z.of_nat (load_bytes_of t))) = extend t v.
Proof.
  assert (forall w, 0 < w -> sx w (v mod 2 ^ w) = sx w v) as Hs.
  { intros w Hw; unfold sx; rewrite Z.mod_mod; [done |]; pose proof (pow2_pos w); lia. }
  destruct t; cbn [extend load_bytes_of];
    first [by rewrite Z.mod_mod by (pose proof (pow2_pos 64); lia) | f_equal; by apply Hs].
Qed.

(** C33: memory round trip through the interpreter.  A store of any width either
    faults, exactly when a byte of its range is not mapped or is in a page that
    cannot be written, leaving the guest untouched; or it is complete, and then a
    load of the same width from the same address writes the stored value,
    truncated to the width and sign- or zero-extended as its type says.  Every
    byte outside the range, and the protection of every page, is what it was
    before the store. *)
Theorem store_load `{HostOk} s (t : MemoryDataOperandType.t) base off data :
  wf_state s -> reg base -> reg data -> exception_raised_ s = false ->
  let addr := address (xreg s base) off in
  let inside a := addr <= a < addr + Z.of_nat (access_bytes t) in
  exists s', SemanticsPlayer.consume (Store (StoreArgsTemplate.mk (enum_bits t) base off data)) s
             = Some (tt, s')
  /\ (exception_raised_ s' = false <-> forall a, inside a -> exists b, mem s !! a = Some (mkCell b true))
  /\ (exception_raised_ s' = true -> cpu s' = cpu s /\ mem s' = mem s)
  /\ (exception_raised_ s' = false -> forall (lt : LoadOperandType.t) rd,
      reg rd -> load_bytes_of lt = access_bytes t ->
      SemanticsPlayer.consume (Load (LoadArgsTemplate.mk (enum_bits lt) rd base off)) s'
      = Some (tt, write_reg rd (extend lt (xreg s data)) s'))
  /\ (forall a, cell_writable <$> mem s' !! a = cell_writable <$> mem s !! a
                /\ (~ inside a -> mem s' !! a = mem s !! a)).
Proof.
  intros Hs Hb Hd He addr inside; rewrite consume_Store by done; fold addr; eexists; split; [done |].
  pose proof (FaultyStore_defined (mem s) addr (access_bytes t) (xreg s data)) as Hdef.
  rewrite writable_spec in Hdef; fold inside in Hdef.
  destruct (FaultyStore _ _ _ _) as [m |] eqn:E.
  - assert (wf_mem m) as Hm by (eapply wf_FaultyStore; [done | apply Hs]).
    pose proof (fun a => FaultyStore_cells _ _ _ _ _ a E) as Hcells.
    apply FaultyStore_spec in E as [Hsame _]; split_and!; try done.
    + split; [intros _; apply Hdef; by eexists | done].
    + intros _ lt rd Hrd Hlt; set (s' := set_exception_raised false (set_mem m s)).
      assert (wf_state s') as Hs' by (by split; [apply Hs |]).
      rewrite consume_Load by done; change (address (xreg s' base) off) with addr.
      change (mem s') with m; rewrite Hlt, Hsame, <- Hlt; by rewrite extend_mod.
  - split_and!; try done; split; [done |]; intros Hall; by destruct (proj2 Hdef Hall).
Qed.

(** [sh x5, 2(x6)] then [lh]. *)
Lemma store_load_witness :
  let s := write_reg 6 0x2000 (write_reg 5 0x1ff80 (initial_state 0 [] 0x2000 [1; 2; 3; 4])) in
  exists s', SemanticsPlayer.consume (Store (StoreArgsTemplate.mk (enum_bits MemoryDataOperandType.k16bit) 6 2 5)) s
             = Some (tt, s')
    /\ SemanticsPlayer.consume (Load (LoadArgsTemplate.mk (enum_bits LoadOperandType.k16bitSigned) 7 6 2)) s'
       = Some (tt, write_reg 7 (2 ^ 64 - 128) s').
Proof.
  intros s; assert (wf_state s) as Hs.
  { apply wf_write_reg, (fits_u64 64); [| lia | split; vm_compute; congruence].
    apply wf_write_reg, (fits_u64 64); [concrete_wf | lia | split; vm_compute; congruence]. }
  assert (forall r, 5 <= r <= 7 -> reg r) as Hr by (intros r Hr; split; cbn; lia).
  destruct (store_load s MemoryDataOperandType.k16bit 6 2 5 Hs (Hr 6 ltac:(lia)) (Hr 5 ltac:(lia)) eq_refl)
    as (s' & E & Hf & _ & Hl & _).
  exists s'; split; [exact E |].
  assert (exception_raised_ s' = false) as He.
  { apply Hf; apply writable_spec; vm_compute; reflexivity. }
  apply (Hl He LoadOperandType.k16bitSigned 7 (Hr 7 ltac:(lia)) eq_refl).
Defined.

(** ** Control flow *)

Definition branch_condition (o : BranchOpcode.t) (a b : Z) : bool :=
  match o with
  | BranchOpcode.kBeq => a =? b
  | BranchOpcode.kBne => negb (a =? b)
  | BranchOpcode.kBlt => sx 64 a <? sx 64 b
  | BranchOpcode.kBge => negb (sx 64 a <? sx 64 b)
  | BranchOpcode.kBltu => a <? b
  | BranchOpcode.kBgeu => negb (a <? b)
  end.

Definition jump_to `{Host} (pc : Z) (s : IState) : IState :=
  set_branch_taken true (set_cpu (set_insn_addr pc (cpu s)) s).

(** The largest even number not above. *)
Definition even_down (a : Z) : Z := 2 * (a / 2).

Lemma clear_low_bit a : in_range u64 a -> Z.land a (cast u64 (Z.lnot 1)) = even_down a.
Proof.
  intros Ha%u64_fits; unfold even_down, fits in *.
  replace (2 * (a / 2)) with (Z.shiftl (Z.shiftr a 1) 1)
    by (rewrite Z.shiftl_mul_pow2, Z.shiftr_div_pow2 by lia; change (2 ^ 1) with 2; lia).
  change (cast u64 (Z.lnot 1)) with (Z.shiftl (Z.ones 63) 1).
  apply Z.bits_inj'; intros i Hi; rewrite Z.land_spec, !testbit_shiftl, testbit_shiftr, testbit_ones by lia.
  replace (i - 1 + 1) with i by lia; destruct (Z.ltb_spec i 64).
  - destruct (Z.leb_spec 0 (i - 1)), (Z.leb_spec 0 i), (Z.ltb_spec (i - 1) 63); cbn [andb];
      rewrite ?andb_true_r, ?andb_false_r; (done || lia).
  - rewrite (testbit_bounded a 64 i) by lia; by rewrite !andb_false_r.
Qed.

Section ControlFlow.
Context `{HostOk}.

Lemma BranchRegister_spec base off s :
  exception_raised_ s = false ->
  Interpreter.BranchRegister base off s = Some (tt, jump_to (even_down (word (base + off))) s).
Proof.
  intros He; unfold Interpreter.BranchRegister, check_no_exception, mbind, IM_bind, gets.
  rewrite He; cbn [negb CHECK]; unfold mret, IM_ret, modify, jump_to.
  rewrite clear_low_bit by (apply cast_u64_range); done.
Qed.

Lemma Branch_spec off s :
  exception_raised_ s = false ->
  Interpreter.Branch off s = Some (tt, jump_to (word (insn_addr (cpu s) + off)) s).
Proof.
  intros He; unfold Interpreter.Branch, check_no_exception, mbind, IM_bind, gets.
  by rewrite He.
Qed.

Lemma write_reg_exception r v s : exception_raised_ (write_reg r v s) = exception_raised_ s.
Proof. unfold write_reg; by destruct (_ || _). Qed.
Lemma write_reg_pc r v s : insn_addr (cpu (write_reg r v s)) = insn_addr (cpu s).
Proof. unfold write_reg; by destruct (_ || _). Qed.

Lemma branch_condition_spec (o : BranchOpcode.t) a b off s :
  Interpreter.CompareAndBranch (enum_bits o) a b off s =
  (if branch_condition o a b then Interpreter.Branch off else mret tt) s.
Proof.
  unfold Interpreter.CompareAndBranch; rewrite enum_of_bits; cbv zeta.
  destruct o; cbn [branch_condition]; rewrite ?cast_i64_sx; try done; by rewrite Z.leb_antisym.
Qed.
End ControlFlow.

(** Control transfers.  A conditional branch goes to pc plus its offset
    exactly when its signed or unsigned comparison holds, and otherwise does
    nothing; [jal] writes the address of the next instruction and goes to pc plus
    its offset; [jalr] goes to the even address at or below base plus offset,
    with the base read before the link register is written, so that the two may
    be the same register. *)
Theorem control_flow `{HostOk} s rd rs1 rs2 off len :
  wf_state s -> reg rd -> reg rs1 -> reg rs2 -> exception_raised_ s = false ->
  let pc := insn_addr (cpu s) in
  let a := xreg s rs1 in
  let b := xreg s rs2 in
  (forall o : BranchOpcode.t,
     SemanticsPlayer.consume (CompareAndBranch (BranchArgs.mk (enum_bits o) rs1 rs2 off)) s
     = Some (tt, if branch_condition o a b then jump_to (word (pc + off)) s else s))
  /\ SemanticsPlayer.consume (JumpAndLink (JumpAndLinkArgs.mk rd off len)) s
     = Some (tt, jump_to (word (pc + off)) (write_reg rd (word (pc + len)) s))
  /\ SemanticsPlayer.consume (JumpAndLinkRegister (JumpAndLinkRegisterArgs.mk rd rs1 off len)) s
     = Some (tt, jump_to (even_down (word (a + off))) (write_reg rd (word (pc + len)) s)).
Proof.
  intros Hs Hd H1 H2 He pc a b.
  assert (forall (m : IM unit) s', wp false m (fun _ s'' => s'' = s') s -> m s = Some (tt, s')) as Hrun.
  { intros m s' ([] & s'' & E & ->)%wp_Some; done. }
  split_and!; [intros o | |]; apply Hrun; cbn [SemanticsPlayer.consume].
  - do 2 (apply wp_bind, wp_GetRegOrZero; [done | done |]); expose.
    cbn [BranchArgs.opcode BranchArgs.src1 BranchArgs.src2 BranchArgs.offset].
    unfold wp; rewrite branch_condition_spec; fold a b.
    destruct (branch_condition o a b); [by rewrite Branch_spec | done].
  - apply wp_bind, wp_gets, wp_bind, wp_ret, wp_bind, wp_SetRegOrIgnore; [done | done |].
    unfold wp; expose; rewrite Branch_spec by (by rewrite write_reg_exception).
    rewrite write_reg_pc; cbn [JumpAndLinkArgs.insn_len JumpAndLinkArgs.offset JumpAndLinkArgs.dst].
    by rewrite (cast_idemp u64).
  - apply wp_bind, wp_GetRegOrZero; [done | done |]; apply wp_bind.
    assert (wp false (if JumpAndLinkRegisterArgs.base (JumpAndLinkRegisterArgs.mk rd rs1 off len)
        =? JumpAndLinkRegisterArgs.dst (JumpAndLinkRegisterArgs.mk rd rs1 off len)
      then mret a else mret a) (fun v s' => v = a /\ s' = s) s) as Hcopy by (by destruct (_ =? _)).
    expose; eapply wp_mono; [| exact Hcopy]; intros ? ? [-> ->].
    apply wp_bind, wp_gets, wp_bind, wp_ret, wp_bind, wp_SetRegOrIgnore; [done | done |].
    unfold wp; rewrite BranchRegister_spec by (by rewrite write_reg_exception).
    cbn [JumpAndLinkRegisterArgs.insn_len JumpAndLinkRegisterArgs.offset JumpAndLinkRegisterArgs.dst].
    by rewrite (cast_idemp u64).
Qed.

(** [jalr x1, -1(x1)] with x1 = 0x2006 at 0x1000. *)
Lemma control_flow_witness :
  let s := write_reg 1 0x2006 (initial_state 0x1000 [] 0 []) in
  SemanticsPlayer.consume (JumpAndLinkRegister (JumpAndLinkRegisterArgs.mk 1 1 (-1) 4)) s
  = Some (tt, jump_to 0x2004 (write_reg 1 0x1004 s)).
Proof.
  intros s; assert (wf_state s) as Hs.
  { apply wf_write_reg, (fits_u64 64); [concrete_wf | lia | split; vm_compute; congruence]. }
  assert (reg 1) as Hr by (split; cbn; lia).
  apply (control_flow s 1 1 1 (-1) 4 Hs Hr Hr Hr eq_refl).
Defined.

(** ** Control and status registers *)

(** What the interpreter relies on of the host's floating-point environment:
    exception flags that are set are read back, and the rounding mode is
    separate from them. *)
Class FenvOk `{Host} : Prop := {
  FeGetSet v e : fits 5 v -> FeGetExceptions (FeSetExceptions v e) = v;
  FeGetRound r e : FeGetExceptions (FeSetRound r e) = FeGetExceptions e
}.

#[export] Instance ReferenceFenvOk : FenvOk.
Proof. split; cbn; [intros v e Hv; by apply Z.mod_small | done]. Qed.

(** The bits of each register that can be written. *)
Definition csr_bits (name : CsrName.t) : Z :=
  match name with
  | CsrName.kFFlags => 5
  | CsrName.kFrm => 3
  | CsrName.kFCsr => 8
  | CsrName.kVstart => 7
  | CsrName.kVxsat => 1
  | CsrName.kVxrm => 2
  | CsrName.kVcsr => 3
  | _ => 0
  end.

(** Registers that show the same state. *)
Definition csr_overlap (a b : CsrName.t) : bool :=
  match a, b with
  | CsrName.kFCsr, (CsrName.kFFlags | CsrName.kFrm | CsrName.kFCsr)
  | (CsrName.kFFlags | CsrName.kFrm), CsrName.kFCsr
  | CsrName.kVcsr, (CsrName.kVxsat | CsrName.kVxrm | CsrName.kVcsr)
  | (CsrName.kVxsat | CsrName.kVxrm), CsrName.kVcsr => true
  | _, CsrName.kCycle => true
  | _, _ => bool_decide (a = b)
  end.

Definition read_csr `{Host} (name : CsrName.t) (s : IState) : Z :=
  match Interpreter.GetCsr name s with Some (v, _) => v | None => 0 end.

Lemma land_bits v n : 0 <= n -> Z.land v (2 ^ n - 1) = v mod 2 ^ n.
Proof. intros Hn; rewrite ones_pow2 by done; by apply Z.land_ones. Qed.

(** The fields of [vcsr], on its eight values. *)
Lemma vcsr_fields old v :
  fits 3 old ->
  let xrm := Z.lor (Z.land old 4) (Z.land v 3) in
  let xsat := Z.lor (Z.land old 3) (Z.shiftl (Z.land v 1) 2) in
  Z.land xrm 3 = v mod 2 ^ 2 /\ Z.shiftr xrm 2 = Z.shiftr old 2
  /\ Z.shiftr xsat 2 = v mod 2 ^ 1 /\ Z.land xsat 3 = Z.land old 3.
Proof.
  intros Ho; cbv zeta; rewrite (land_bits v 2 ltac:(lia) : Z.land v 3 = _), (land_bits v 1 ltac:(lia) : Z.land v 1 = _).
  pose proof (Z.mod_pos_bound v (2 ^ 2) ltac:(lia)); pose proof (Z.mod_pos_bound v (2 ^ 1) ltac:(lia)).
  generalize dependent (v mod 2 ^ 2); generalize dependent (v mod 2 ^ 1); unfold fits in Ho.
  assert (old = 0 \/ old = 1 \/ old = 2 \/ old = 3 \/ old = 4 \/ old = 5 \/ old = 6 \/ old = 7) as Hold
    by (cbn in Ho; lia); clear Ho.
  intros b Hb c Hc; assert (b = 0 \/ b = 1) as Hb' by (cbn in Hb; lia).
  assert (c = 0 \/ c = 1 \/ c = 2 \/ c = 3) as Hc' by (cbn in Hc; lia); clear Hb Hc.
  destruct_or! Hold; destruct_or! Hb'; destruct_or! Hc'; subst; vm_compute; auto.
Qed.

Lemma fcsr_fields v :
  Z.lor (Z.land v 31) (Z.shiftl (Z.land (Z.shiftr v 5) 7) 5) = v mod 2 ^ 8.
Proof.
  change 31 with (2 ^ 5 - 1); change 7 with (2 ^ 3 - 1); rewrite !land_bits by lia.
  apply Z.bits_inj'; intros i Hi; autorewrite with zbits; zreflect; cbn [andb orb];
    rewrite ?orb_false_r; try done; try lia; f_equal; lia.
Qed.

Lemma fits_land v n : 0 <= n -> fits n (Z.land v (2 ^ n - 1)).
Proof. intros Hn; rewrite land_bits by done; apply Z.mod_pos_bound, pow2_pos; lia. Qed.

(** Control and status registers.  Writing a writable register and reading it
    back gives the written value truncated to the bits the register has; every
    register that does not show the same state (and is not the cycle counter)
    keeps its value; the integer and floating-point registers, the program
    counter and memory are not touched. *)
Theorem csr_round_trip `{HostOk, !FenvOk} s name v :
  wf_state s -> exception_raised_ s = false -> in_range u64 v ->
  CsrWritable (enum_bits name) = true ->
  exists s', Interpreter.SetCsr name v s = Some (tt, s')
  /\ read_csr name s' = v mod 2 ^ csr_bits name
  /\ (forall other, csr_overlap name other = false -> read_csr other s' = read_csr other s)
  /\ x (cpu s') = x (cpu s) /\ f (cpu s') = f (cpu s) /\ insn_addr (cpu s') = insn_addr (cpu s)
  /\ mem s' = mem s /\ exception_raised_ s' = false.
Proof.
  intros Hs He Hv Hw; pose proof (wf_vcsr _ (proj1 Hs)) as Hvc.
  pose proof (vcsr_fields (vcsr (cpu s)) v Hvc) as (Hrm & Hrm' & Hsat & Hsat').
  pose proof (fits_land v 5 ltac:(lia)) as Hfl.
  destruct name; try discriminate Hw; eexists; (split;
    [unfold Interpreter.SetCsr, check_no_exception, mbind, IM_bind, gets; rewrite He; reflexivity |]);
    unfold read_csr; cbn; rewrite ?He; split_and!; try done.
  all: try (intros []; cbn; (done || (intros [=]))).
  all: rewrite ?FeGetRound, ?FeGetSet by done; try done.
  all: first [apply fcsr_fields | by apply (land_bits v 5) | by apply (land_bits v 3) | by apply (land_bits v 7)].
Qed.

Lemma csr_round_trip_witness :
  let s := initial_state 0x1000 [] 0 [] in
  exists s', Interpreter.SetCsr CsrName.kFCsr 0x1ff s = Some (tt, s')
  /\ read_csr CsrName.kFCsr s' = 0xff /\ read_csr CsrName.kVxrm s' = 0.
Proof.
  intros s; assert (wf_state s) as Hs by concrete_wf.
  destruct (csr_round_trip s CsrName.kFCsr 0x1ff Hs eq_refl) as (s' & E & Hr & Ho & _);
    [split; vm_compute; congruence | reflexivity |].
  exists s'; split; [exact E |]; split; [exact Hr |].
  exact (Ho CsrName.kVxrm eq_refl).
Defined.
