(* ===== verification/AssembledCode.v ===== *)
(** * Assembled code, interpreted

    The composition of the assembler (assembler/include/berberis/assembler/
    riscv.h and riscv64.h), the decoder and the interpreter: code the assembler
    emits for a constant, put in memory and interpreted instruction by
    instruction, leaves the constant in its register. *)
From stdpp Require Import gmap.
From S2P Require Import Prelude MachineInt BitUtil RiscvInsn RiscvDecoder RiscvAssembler RiscvDecoderProps RiscvAssemblerProps RiscvRoundTrip RiscvLabels GuestState Intrinsics SemanticsPlayer Interpreter InterpreterProps ReferenceHost InterpreterSpec.
#[local] Open Scope Z_scope.

(** ** The instructions that load constants *)

(** The instructions [Li] uses, on its destination register. *)
Inductive ConstInsn := CLui (imm : Z) | CAddiZero (imm : Z) | CAddi (imm : Z) | CSlli (n : Z).

Definition const_call (dest : Z) (i : ConstInsn) : InsnCall :=
  match i with
  | CLui imm => Lui (UpperImmArgs.mk dest imm)
  | CAddiZero imm => OpImm (OpImmArgsTemplate.mk (enum_bits OpImmOpcode.kAddi) dest 0 imm)
  | CAddi imm => OpImm (OpImmArgsTemplate.mk (enum_bits OpImmOpcode.kAddi) dest dest imm)
  | CSlli n => OpImmShift (ShiftImmArgsTemplate.mk (enum_bits ShiftImmOpcode.kSlli) dest dest n)
  end.

(** What it makes of the register's value. *)
Definition const_step (v : Z) (i : ConstInsn) : Z :=
  match i with
  | CLui imm | CAddiZero imm => word imm
  | CAddi imm => word (v + imm)
  | CSlli n => word (v * 2 ^ n)
  end.

(** The word of each, and the operands it takes. *)
Definition const_word (dest : Z) (i : ConstInsn) : Z :=
  match i with
  | CLui imm => EmitUTypeInstruction 0x37 dest (UImmediate_MakeRaw imm)
  | CAddiZero imm => EmitITypeInstruction 0x13 dest 0 (Immediate_MakeRaw imm)
  | CAddi imm => EmitITypeInstruction 0x13 dest dest (Immediate_MakeRaw imm)
  | CSlli n => EmitITypeInstruction 0x1013 dest dest (Shift64Immediate_MakeRaw n)
  end.
Definition const_ok (i : ConstInsn) : Prop :=
  match i with
  | CLui imm => sfits 32 imm /\ imm mod 2 ^ 12 = 0
  | CAddiZero imm | CAddi imm => sfits 12 imm
  | CSlli n => fits 6 n
  end.

Lemma const_word_decodes dest i :
  reg dest -> const_ok i -> Decode (parcels (const_word dest i)) = Some ([const_call dest i], 4).
Proof.
  intros Hd Hi; assert (reg 0) as H0 by (split; cbn; lia).
  destruct i; cbn [const_ok const_word const_call] in *.
  - destruct Hi; apply decode_UType; table_side.
  - by_format ltac:(apply decode_IType with (mk := OpImm); [.. | done | | |]).
  - by_format ltac:(apply decode_IType with (mk := OpImm); [.. | done | | |]).
  - by_format ltac:(eapply decode_Shift64).
Qed.

(** ** What [Li] emits *)

Lemma MakeI v t : is_imm_source t -> in_range t v -> sfits 12 v -> MakeIImmediate t v = Some (Immediate_MakeRaw v).
Proof. intros Ht Hv Hs; by apply (MakeImmediate_spec _ _ _ _ _ _ (accept_I t v Ht Hv)). Qed.
Lemma MakeU v : in_range i32 v -> v mod 2 ^ 12 = 0 -> MakeUImmediate i32 v = Some (UImmediate_MakeRaw v).
Proof.
  intros Hv H0; apply (MakeImmediate_spec _ _ _ _ _ _ (accept_U i32 v ltac:(unfold is_imm_source; cbn; auto) Hv)).
  split; [| done]; split; [done |]; by apply (in_range_signed i32).
Qed.

Definition const_value (l : list ConstInsn) : Z := foldl const_step 0 l.

(** The program for a 32-bit constant. *)
Definition li32_program (imm : Z) : list ConstInsn :=
  if (-2048 <=? imm) && (imm <=? 2047) then [CAddiZero imm]
  else if offset_bottom imm =? 0 then [CLui (offset_top imm)]
  else [CLui (offset_top imm); CAddi (offset_bottom imm)].

Lemma sfits12_range t v : t = i32 \/ t = i64 -> sfits 12 v -> in_range t v.
Proof. intros [-> | ->] Hv; apply in_range_signed; try done; unfold sfits in Hv; cbn in *; lia. Qed.

Ltac all_ok := repeat apply Forall_cons_2; first [apply Forall_nil_2 | done | by split].

Lemma Li32_program dest imm :
  in_range i32 imm ->
  Li32 dest imm = Some (const_word dest <$> li32_program imm) /\ Forall const_ok (li32_program imm).
Proof.
  intros Hi; unfold Li32, li32_program.
  assert (is_imm_source i32) as H32 by (unfold is_imm_source; cbn; auto).
  destruct ((-2048 <=? imm) && (imm <=? 2047)) eqn:E.
  - assert (sfits 12 imm) by (unfold sfits; cbn; lia).
    rewrite MakeI by done; split; [done | all_ok].
  - cbv zeta.
    change (cast (mkIntType 12 true) imm) with (offset_bottom imm).
    replace (cast i32 (Z.land _ 0xfffff000)) with (offset_top imm).
    2:{ unfold offset_top; by rewrite Z.shiftl_mul_pow2. }
    destruct (offset_top_range imm) as [Ht Ht0]; pose proof (offset_bottom_range imm) as Hb.
    rewrite MakeU by (done || by apply (in_range_signed i32)); cbn [mbind option_bind].
    destruct (offset_bottom imm =? 0); cbn [negb]; [split; [done | all_ok] |].
    rewrite MakeI by (done || by apply sfits12_range; [left |]); split; [done | all_ok].
Qed.

(** The value loaded: off by 2^32 for the constants whose upper part overflows. *)
Lemma Li32_value imm :
  in_range i32 imm ->
  const_value (li32_program imm) = word (if imm <? 2 ^ 31 - 2 ^ 11 then imm else imm - 2 ^ 32).
Proof.
  intros Hi; unfold li32_program, const_value.
  destruct ((-2048 <=? imm) && (imm <=? 2047)) eqn:E; cbn [foldl const_step].
  { destruct (Z.ltb_spec imm (2 ^ 31 - 2 ^ 11)); [done | lia]. }
  assert (word (offset_top imm + offset_bottom imm)
          = word (if imm <? 2 ^ 31 - 2 ^ 11 then imm else imm - 2 ^ 32)) as Hv.
  { apply in_range_signed in Hi; [| done]; destruct (Z.ltb_spec imm (2 ^ 31 - 2 ^ 11)).
    - by rewrite offset_parts.
    - rewrite offset_top_spec; f_equal; unfold offset_bottom, cast; cbn [is_signed width i32] in *.
      zdivmod. }
  destruct (Z.eqb_spec (offset_bottom imm) 0) as [Eb | Eb]; cbn [foldl const_step].
  - by rewrite <- Hv, Eb, Z.add_0_r.
  - rewrite <- Hv; unfold word; by rewrite Zplus_mod_idemp_l.
Qed.

(** ** 64-bit constants *)

(** The multiple of 2^12 nearest to a constant, as [Li] computes it. *)
Definition li_top (imm64 : Z) : Z :=
  let uimm := cast u64 imm64 in
  cast i64 (Z.land (cast u64 (uimm + cast u64 (Z.shiftl (Z.land uimm (2 ^ 11)) 1))) 0xfffffffffffff000).
Definition li_zeros (imm64 : Z) : Z := default 64 (builtin_ctzll (cast u64 imm64)).

Lemma land_high52 u : 0 <= u < 2 ^ 64 -> Z.land u 0xfffffffffffff000 = 2 ^ 12 * (u / 2 ^ 12).
Proof.
  intros Hu; change 0xfffffffffffff000 with (Z.land (Z.ones 64) (ideal_mask 12 0)).
  rewrite Z.land_assoc, Z.land_ones, Z.mod_small, land_ideal_mask by lia.
  by rewrite Z.mod_1_r.
Qed.

Lemma li_top_spec imm : li_top imm = cast i64 (imm - offset_bottom imm).
Proof.
  unfold li_top; cbv zeta; rewrite land_high52 by (apply (in_range_unsigned u64); [done | by apply cast_in_range]).
  rewrite land_bit11, Z.shiftl_mul_pow2 by lia; apply cast_congr; [done |].
  unfold offset_bottom, bits, cast; cbn [is_signed width u64 i64]; zdivmod.
Qed.

Lemma li_top_aligned imm : li_top imm mod 2 ^ 12 = 0.
Proof. rewrite li_top_spec; unfold offset_bottom, cast; cbn [is_signed width i64]; zdivmod. Qed.

Lemma li_top_value imm : word (li_top imm + offset_bottom imm) = word imm.
Proof.
  rewrite li_top_spec; unfold word; rewrite <- Zplus_mod_idemp_l, (cast_mod i64), Zplus_mod_idemp_l by done.
  f_equal; lia.
Qed.

(** Rounding keeps a constant between powers of two. *)
Lemma li_top_bound imm k :
  12 <= k <= 63 -> in_range i64 imm -> - 2 ^ k <= imm <= 2 ^ k -> - 2 ^ k <= li_top imm <= 2 ^ k.
Proof.
  intros Hk Hi Hb; apply in_range_signed in Hi; [| done]; rewrite li_top_spec; cbn [width i64] in Hi.
  rewrite (pow2_split 12 k) in Hb |- * by lia; set (m := 2 ^ (k - 12)) in *.
  assert (1 <= m <= 2 ^ 51) as Hm.
  { split; [pose proof (pow2_pos (k - 12)); lia | apply pow2_le_mono; lia]. }
  unfold offset_bottom, cast; cbn [is_signed width i64]; zdivmod.
Qed.

Lemma land_fff imm : Z.land imm 0xfff = imm mod 2 ^ 12.
Proof. change 0xfff with (2 ^ 12 - 1); by apply land_bits. Qed.

Lemma lowest_bit_factor v c : lowest_bit v c -> v = Z.shiftr v c * 2 ^ c.
Proof.
  intros (Hc & _ & Hl); rewrite <- Z.shiftl_mul_pow2 by done; apply Z.bits_inj'; intros i Hi.
  rewrite testbit_shiftl, testbit_shiftr; destruct (Z.leb_spec 0 i), (Z.leb_spec 0 (i - c)); cbn [andb];
    try lia; first [apply Hl; lia | f_equal; lia].
Qed.

(** A constant with twelve zero bits has at least as many trailing zeros. *)
Lemma li_zeros_spec imm :
  in_range i64 imm -> imm <> 0 -> imm mod 2 ^ 12 = 0 ->
  12 <= li_zeros imm < 64 /\ imm = Z.shiftr imm (li_zeros imm) * 2 ^ li_zeros imm.
Proof.
  intros Hi Hn H0; unfold li_zeros.
  destruct (builtin_ctzll_spec (cast u64 imm)) as (c & -> & Hl & Hc); cbn [default].
  { rewrite cast_idemp by done; intros E; apply Hn; apply in_range_signed in Hi; [| done].
    unfold cast in E; cbn [is_signed width u64 i64] in E, Hi; zdivmod. }
  assert (lowest_bit imm c) as Hl'.
  { destruct Hl as (H1 & H2 & H3); split_and!; [done | |].
    - by rewrite testbit_cast_low in H2 by (cbn; lia).
    - intros j Hj; rewrite <- (H3 j Hj); by rewrite testbit_cast_low by (cbn; lia). }
  split; [| by apply lowest_bit_factor].
  split; [| done]; destruct (decide (12 <= c)); [done | exfalso].
  destruct Hl' as (Hc0 & Hb & _); rewrite <- (Z.mod_pow2_bits_low imm 12 c), H0, Z.bits_0 in Hb by lia; done.
Qed.

(** The constant that reaches the 32-bit [Li]. *)
Fixpoint li_base (fuel : nat) (imm64 : Z) : Z :=
  match fuel with
  | O => imm64
  | S fuel =>
      if cast i32 imm64 =? imm64 then imm64
      else if negb (imm64 mod 2 ^ 12 =? 0) then li_base fuel (li_top imm64)
      else li_base fuel (Z.shiftr imm64 (li_zeros imm64))
  end.

Lemma Li64_unfold fuel dest imm :
  Li64 (S fuel) dest imm =
  (if cast i32 imm =? imm then Li32 dest (cast i32 imm)
   else if negb (imm mod 2 ^ 12 =? 0) then
     l ← Li64 fuel dest (li_top imm);
     i ← MakeIImmediate i64 (offset_bottom imm);
     Some (l ++ [EmitITypeInstruction 0x13 dest dest i])
   else
     l ← Li64 fuel dest (Z.shiftr imm (li_zeros imm));
     i ← MakeShift64Immediate u8 (li_zeros imm);
     Some (l ++ [EmitITypeInstruction 0x1013 dest dest i])).
Proof. cbn [Li64]; cbv zeta; rewrite <- land_fff; done. Qed.

Lemma i32_dec imm : cast i32 imm = imm <-> in_range i32 imm.
Proof. split; [intros <-; by apply cast_in_range | by apply cast_id]. Qed.

Lemma shiftr_i64 imm n : in_range i64 imm -> 0 <= n -> in_range i64 (Z.shiftr imm n).
Proof. intros; by apply shiftr_in_range. Qed.

Lemma MakeShift n : 0 <= n < 64 -> MakeShift64Immediate u8 n = Some (Shift64Immediate_MakeRaw n).
Proof.
  intros Hn; assert (in_range u8 n) as Hr by (apply in_range_unsigned; [done | cbn; lia]).
  apply (MakeImmediate_spec _ _ _ _ _ (0 <= n < 64)); [| done].
  apply accept_unsigned_below; [unfold is_imm_source; cbn; auto | done | lia].
Qed.

Lemma MakeBottom imm : MakeIImmediate i64 (offset_bottom imm) = Some (Immediate_MakeRaw (offset_bottom imm)).
Proof.
  apply MakeI; [unfold is_imm_source; cbn; auto | | apply offset_bottom_range].
  apply sfits12_range; [by right | apply offset_bottom_range].
Qed.

(** Whatever [Li] emits is a program of constant instructions, and its value is
    the constant when the part that reaches the 32-bit [Li] is not one of the
    overflowing ones. *)
Lemma Li64_program fuel dest imm ws :
  in_range i64 imm -> Li64 fuel dest imm = Some ws ->
  exists l, ws = const_word dest <$> l /\ Forall const_ok l
  /\ (forall v, foldl const_step v l = const_value l)
  /\ (li_base fuel imm < 2 ^ 31 - 2 ^ 11 -> const_value l = word imm).
Proof.
  revert imm ws; induction fuel as [| fuel IH]; intros imm ws Hi; [done |].
  rewrite Li64_unfold; cbn [li_base]; destruct (Z.eqb_spec (cast i32 imm) imm) as [E | E].
  { rewrite E; apply i32_dec in E; destruct (Li32_program dest imm E) as [-> Hok]; intros [= <-].
    eexists; split_and!; [done | done | by unfold li32_program; repeat case_goal |].
    intros Hb; rewrite Li32_value by done.
    by destruct (Z.ltb_spec imm (2 ^ 31 - 2 ^ 11)); [| lia]. }
  destruct (Z.eqb_spec (imm mod 2 ^ 12) 0) as [E0 | E0]; cbn [negb].
  - assert (imm <> 0) as Hn by (intros ->; by apply E).
    destruct (li_zeros_spec imm Hi Hn E0) as [Hz Hf].
    destruct (Li64 fuel dest _) as [l |] eqn:El; cbn [mbind option_bind]; [| done].
    rewrite MakeShift by lia; cbn [mbind option_bind]; intros [= <-].
    destruct (IH _ _ (shiftr_i64 imm (li_zeros imm) Hi ltac:(lia)) El) as (p & -> & Hok & Hr & Hv).
    exists (p ++ [CSlli (li_zeros imm)]); split_and!.
    + by rewrite fmap_app.
    + apply Forall_app; split; [done |]; apply Forall_singleton; change (0 <= li_zeros imm < 64); lia.
    + intros v; unfold const_value in *; by rewrite !foldl_app, Hr.
    + intros Hb; unfold const_value in *; rewrite foldl_app, Hv by done; cbn [foldl const_step].
      unfold word; rewrite Zmult_mod_idemp_l; by rewrite <- Hf.
  - destruct (Li64 fuel dest _) as [l |] eqn:El; cbn [mbind option_bind]; [| done].
    rewrite MakeBottom; cbn [mbind option_bind]; intros [= <-].
    destruct (IH (li_top imm) l) as (p & -> & Hok & Hr & Hv); [unfold li_top; cbv zeta; by apply cast_in_range | done |].
    exists (p ++ [CAddi (offset_bottom imm)]); split_and!.
    + by rewrite fmap_app.
    + apply Forall_app; split; [done |]; apply Forall_singleton, offset_bottom_range.
    + intros v; unfold const_value in *; by rewrite !foldl_app, Hr.
    + intros Hb; unfold const_value in *; rewrite foldl_app, Hv by done; cbn [foldl const_step].
      rewrite <- (li_top_value imm); unfold word; by rewrite Zplus_mod_idemp_l.
Qed.

Lemma quotient_bound v q p m : 2 ^ 12 <= p -> v = q * p -> - (2 ^ 12 * m) <= v <= 2 ^ 12 * m -> - m <= q <= m.
Proof. intros; nia. Qed.

Lemma Li64_mono fuel dest imm : is_Some (Li64 fuel dest imm) -> is_Some (Li64 (S fuel) dest imm).
Proof.
  revert imm; induction fuel as [| fuel IH]; intros imm; [by intros [? ?] |].
  rewrite Li64_unfold, (Li64_unfold (S fuel)); destruct (_ =? imm); [done |].
  destruct (negb _); [specialize (IH (li_top imm)) | specialize (IH (Z.shiftr imm (li_zeros imm)))].
  all: destruct (Li64 fuel dest _) eqn:E; cbn [mbind option_bind]; [| by intros [? ?]].
  all: destruct IH as [l' ->]; [by eexists |]; cbn [mbind option_bind].
  all: first [destruct (MakeIImmediate _ _) | destruct (MakeShift64Immediate _ _)]; intros [? ?]; [by eexists | done].
Qed.

(** [Li] returns code for every constant of [k] bits once it does for those of
    twelve bits fewer. *)
Lemma Li64_more fuel dest k :
  12 <= k <= 63 ->
  (forall imm, in_range i64 imm -> - 2 ^ (k - 12) <= imm <= 2 ^ (k - 12) -> is_Some (Li64 fuel dest imm)) ->
  forall imm, in_range i64 imm -> - 2 ^ k <= imm <= 2 ^ k -> is_Some (Li64 (S (S fuel)) dest imm).
Proof.
  intros Hk IH.
  assert (forall imm, in_range i64 imm -> - 2 ^ k <= imm <= 2 ^ k -> imm mod 2 ^ 12 = 0 ->
    is_Some (Li64 (S fuel) dest imm)) as Haligned.
  { intros imm Hi Hb E0; rewrite Li64_unfold; destruct (Z.eqb_spec (cast i32 imm) imm) as [E | E].
    { rewrite E; apply i32_dec in E; destruct (Li32_program dest imm E) as [-> _]; by eexists. }
    assert (imm <> 0) as Hn by (intros ->; by apply E).
    destruct (li_zeros_spec imm Hi Hn E0) as [Hz Hf]; rewrite E0; cbn [Z.eqb negb].
    destruct (IH (Z.shiftr imm (li_zeros imm))) as [l ->].
    - apply shiftr_i64; [done | lia].
    - apply (quotient_bound imm _ (2 ^ li_zeros imm)); [apply (pow2_le_mono 12); lia | done |].
      by rewrite <- (pow2_split 12 k) by lia.
    - cbn [mbind option_bind]; rewrite MakeShift by lia; by eexists. }
  intros imm Hi Hb; rewrite Li64_unfold; destruct (Z.eqb_spec (cast i32 imm) imm) as [E | E].
  { rewrite E; apply i32_dec in E; destruct (Li32_program dest imm E) as [-> _]; by eexists. }
  destruct (Z.eqb_spec (imm mod 2 ^ 12) 0) as [E0 | E0]; cbn [negb].
  - assert (is_Some (Li64 (S (S fuel)) dest imm)) as Hm by (by apply Li64_mono, Haligned).
    rewrite Li64_unfold, E0, (proj2 (Z.eqb_neq _ _) E) in Hm; exact Hm.
  - destruct (Haligned (li_top imm)) as [l ->].
    + unfold li_top; cbv zeta; by apply cast_in_range.
    + by apply li_top_bound.
    + apply li_top_aligned.
    + cbn [mbind option_bind]; rewrite MakeBottom; by eexists.
Qed.

(** Four rounds of twelve bits: seven calls are always enough. *)
Definition li_fuel : nat := 7.

Lemma Li64_total dest imm : in_range i64 imm -> is_Some (Li64 li_fuel dest imm).
Proof.
  intros Hi; apply (Li64_more 5 dest 63); [lia | | done | apply in_range_signed in Hi; [cbn in *; lia | done]].
  apply (Li64_more 3 dest 51); [lia |]; apply (Li64_more 1 dest 39); [lia |].
  intros v Hv Hb; rewrite Li64_unfold; assert (in_range i32 v) as H32 by (apply in_range_signed; [done | cbn in *; lia]).
  rewrite (proj2 (i32_dec v) H32), Z.eqb_refl; destruct (Li32_program dest v H32) as [-> _]; by eexists.
Qed.

(** ** Code in memory *)

(** Memory holds the bytes at an address. *)
Definition holds (m : Memory) (a : Z) (bytes : list Z) : Prop :=
  load_bytes m a (length bytes) = Some bytes.

(** The code buffer after emitting the words. *)
Definition emit_words (ws : list Z) : Assembler :=
  foldl (fun a w => Emit32 w a) (mkAssembler [] [] [] ∅) ws.

Lemma load_bytes_app m a n k :
  load_bytes m a (n + k) =
  (l1 ← load_bytes m a n; l2 ← load_bytes m (a + Z.of_nat n) k; Some (l1 ++ l2)).
Proof.
  revert a; induction n as [| n IH]; intros a; cbn [load_bytes Nat.add].
  - rewrite Z.add_0_r; cbn [mbind option_bind]; by destruct (load_bytes m a k).
  - destruct (m !! a); cbn [mbind option_bind]; [| done]; rewrite IH.
    replace (a + Z.of_nat (S n)) with (a + 1 + Z.of_nat n) by lia.
    destruct (load_bytes m (a + 1) n); cbn [mbind option_bind]; [| done].
    by destruct (load_bytes m _ k).
Qed.

Lemma holds_app m a l1 l2 :
  holds m a (l1 ++ l2) -> holds m a l1 /\ holds m (a + Z.of_nat (length l1)) l2.
Proof.
  unfold holds; rewrite length_app, load_bytes_app.
  destruct (load_bytes m a _) as [l1' |] eqn:E1; cbn [mbind option_bind]; [| done].
  destruct (load_bytes m (a + _) _) as [l2' |] eqn:E2; cbn [mbind option_bind]; [| done].
  intros [= E]; apply load_bytes_length in E1 as L1.
  by apply app_inj_1 in E as [-> ->].
Qed.

Lemma le_split_add n w k : le_split n (w + k * 2 ^ (8 * Z.of_nat n)) = le_split n w.
Proof.
  revert w; induction n as [| n IH]; intros w; cbn [le_split]; [done |].
  replace (k * 2 ^ (8 * Z.of_nat (S n))) with (k * 2 ^ (8 * Z.of_nat n) * 2 ^ 8).
  2:{ rewrite Nat2Z.inj_succ, <- Z.mul_assoc, <- Z.pow_add_r by lia; do 2 f_equal; lia. }
  by rewrite Z.mod_add, Z.div_add, IH by lia.
Qed.

Lemma le_split_cast w : le_split 4 (cast i32 w) = le_split 4 w.
Proof.
  rewrite <- (le_split_add 4 w (- ((w + 2 ^ 31) / 2 ^ 32))); f_equal.
  unfold cast; cbn [is_signed width i32]; change (8 * Z.of_nat 4) with 32; zdivmod.
Qed.

Lemma code_emit_words ws : code_ (emit_words ws) = concat (le_split 4 <$> ws).
Proof.
  unfold emit_words.
  assert (forall a, code_ (foldl (fun a w => Emit32 w a) a ws) = code_ a ++ concat (le_split 4 <$> ws)) as Ha.
  { induction ws as [| w ws IH]; intros a; cbn [foldl fmap list_fmap concat]; [by rewrite app_nil_r |].
    rewrite IH; cbn [Emit32 code_]; by rewrite le_split_cast, <- app_assoc. }
  by rewrite Ha.
Qed.

(** The decoder is given the two parcels of a word. *)
Lemma fetch_word m a w :
  bits w 0 2 = 3 -> holds m a (le_split 4 w) -> Interpreter.fetch m a = Some (parcels w).
Proof.
  intros H3 Hw; change (le_split 4 w) with (le_split 2 w ++ le_split 2 (w / 2 ^ 8 / 2 ^ 8)) in Hw.
  apply holds_app in Hw as [H1 H2]; unfold holds in H1, H2; rewrite length_le_split in H1; do 2 rewrite length_le_split in H2.
  unfold Interpreter.fetch, FaultyLoad; rewrite H1; cbn [fmap option_fmap option_map mbind option_bind].
  change (a + Z.of_nat 2) with (a + 2) in H2; rewrite H2.
  cbn [fmap option_fmap option_map mbind option_bind]; rewrite !le_combine_split.
  change (2 ^ (8 * Z.of_nat 2)) with (2 ^ 16).
  assert (w mod 2 ^ 16 = bits w 0 16) as -> by (unfold bits; by rewrite Z.div_1_r).
  assert (w / 2 ^ 8 / 2 ^ 8 mod 2 ^ 16 = bits w 16 16) as ->.
  { unfold bits; rewrite Z.div_div by lia; done. }
  unfold GetInsnSize; assert (Z.land (bits w 0 16) 3 = 3) as ->; [| done].
  change 3 with (2 ^ 2 - 1); rewrite land_bits by lia.
  transitivity (bits (bits w 0 16) 0 2); [unfold bits; by rewrite (Z.div_1_r (_ mod _)) |].
  by rewrite bits_bits by lia.
Qed.

(** ** Running it *)

Fixpoint run `{Host} (n : nat) (s : IState) : option IState :=
  match n with
  | O => Some s
  | S n => '(_, s') ← Interpreter.InterpretInsn s; run n s'
  end.

Section Run.
Context `{HostOk}.

Lemma IM_bind_Some {A B} (m : IM A) (k : A -> IM B) s a s' :
  m s = Some (a, s') -> (m ≫= k) s = k a s'.
Proof. intros E; unfold mbind, IM_bind; by rewrite E. Qed.

Definition advance (len : Z) (s : IState) : IState :=
  set_cpu (set_insn_addr (word (insn_addr (cpu s) + len)) (cpu s)) s.

Lemma InterpretInsn_word s w c v rd :
  bits w 0 2 = 3 -> holds (mem s) (insn_addr (cpu s)) (le_split 4 w) ->
  Decode (parcels w) = Some ([c], 4) ->
  SemanticsPlayer.consume c (Interpreter.start s) = Some (tt, write_reg rd v (Interpreter.start s)) ->
  Interpreter.InterpretInsn s = Some (tt, advance 4 (write_reg rd v (Interpreter.start s))).
Proof.
  intros H3 Hw Hd Hc; unfold Interpreter.InterpretInsn; rewrite (fetch_word _ _ w), Hd by done.
  unfold Interpreter.play; cbn [SemanticsPlayer.consume_all].
  rewrite (IM_bind_Some _ _ _ tt (write_reg rd v (Interpreter.start s)));
    [| by rewrite (IM_bind_Some _ _ _ _ _ Hc)].
  unfold Interpreter.FinalizeInsn, modify.
  assert (branch_taken_ (write_reg rd v (Interpreter.start s)) = false) as ->
    by (unfold write_reg; by destruct (_ || _)).
  by rewrite write_reg_exception.
Qed.

Lemma const_call_spec dest i s :
  wf_state s -> 0 < dest < 32 -> const_ok i ->
  SemanticsPlayer.consume (const_call dest i) s = Some (tt, write_reg dest (const_step (xreg s dest) i) s).
Proof.
  intros Hs Hd Hi; assert (reg dest) as Hr by (split; cbn; lia); assert (reg 0) as Hz by (split; cbn; lia).
  pose proof (xreg_range s dest Hs) as Hx.
  destruct i; cbn [const_call const_step SemanticsPlayer.consume const_ok] in *.
  - assert (wp false (SemanticsPlayer.Lui (UpperImmArgs.mk dest imm)) (fun _ s' => s' = write_reg dest (word imm) s) s)
      as Hw by (apply wp_bind, wp_ret, wp_SetRegOrIgnore; done).
    apply wp_Some in Hw as ([] & s' & E & ->); done.
  - apply play_OpImm_with; try done; cbn [OpImmArgsTemplate.src OpImmArgsTemplate.imm OpImmArgsTemplate.opcode].
    expose; rewrite OpImm_riscv by apply zero_range; done.
  - apply play_OpImm_with; try done; cbn [OpImmArgsTemplate.src OpImmArgsTemplate.imm OpImmArgsTemplate.opcode].
    expose; by rewrite OpImm_riscv.
  - apply play_OpImm_with; try done; cbn [ShiftImmArgsTemplate.src ShiftImmArgsTemplate.opcode ShiftImmArgsTemplate.imm].
    rewrite enum_of_bits; expose; cbn [Interpreter.shift]; unfold Interpreter.Slli, Interpreter.shift_ok, shift_defined, fits in *.
    assert ((0 <=? n) && (n <? 64) = true) as -> by (apply andb_true_iff; cbn in *; lia).
    by rewrite Z.shiftl_mul_pow2 by lia.
Qed.

Lemma const_word_low dest i : reg dest -> const_ok i -> bits (const_word dest i) 0 2 = 3.
Proof.
  intros Hd Hi; assert (reg 0) as Hz by (split; cbn; lia).
  assert (forall w c, bits w 0 7 = bits c 0 7 -> bits c 0 2 = 3 -> bits w 0 2 = 3) as Hlow
    by (intros w c Hw <-; by apply bits_low2).
  destruct i; cbn [const_word const_ok] in *.
  - destruct Hi; apply (Hlow _ 0x37); [| done]; by apply (UType_fields dest Hd 0x37 imm).
  - apply (Hlow _ 0x13); [| done]; by apply (IType_fields dest 0 Hd Hz 0x13 imm).
  - apply (Hlow _ 0x13); [| done]; by apply (IType_fields dest dest Hd Hd 0x13 imm).
  - apply (Hlow _ 0x1013); [| done]; by apply (Shift64_fields dest dest Hd Hd 0x1013 n).
Qed.

Lemma xreg_write_same s r v :
  wf_state s -> 0 < r < 32 -> exception_raised_ s = false -> xreg (write_reg r v s) r = v.
Proof.
  intros [Hc _] Hr He; unfold write_reg, xreg; rewrite He; destruct (Z.eqb_spec r 0); [lia |]; cbn.
  rewrite list_lookup_insert_eq; [done |]; rewrite (wf_x_length _ Hc); change kNumGuestRegs with 32%nat; lia.
Qed.

Lemma xreg_write_other s r r' v : 0 <= r -> 0 <= r' -> r' <> r -> xreg (write_reg r v s) r' = xreg s r'.
Proof.
  intros Hr Hr' Hn; unfold write_reg, xreg; destruct (_ || _); [done |]; destruct (r' =? 0); [done |].
  cbn; by rewrite list_lookup_insert_ne by lia.
Qed.

(** A program of constant instructions, in memory at the program counter, runs to
    its end and leaves its value in the register. *)
Lemma run_const dest l s :
  wf_state s -> 0 < dest < 32 -> Forall const_ok l ->
  holds (mem s) (insn_addr (cpu s)) (concat (le_split 4 <$> (const_word dest <$> l))) ->
  insn_addr (cpu s) + 4 * Z.of_nat (length l) < 2 ^ 64 ->
  exists s', run (length l) s = Some s' /\ wf_state s'
  /\ xreg s' dest = foldl const_step (xreg s dest) l
  /\ (forall r, 0 <= r -> r <> dest -> xreg s' r = xreg s r)
  /\ insn_addr (cpu s') = insn_addr (cpu s) + 4 * Z.of_nat (length l) /\ mem s' = mem s.
Proof.
  intros Hs Hd Hok; revert s Hs; induction Hok as [| i l Hi Hok IH]; intros s Hs Hm Hpc.
  { exists s; split_and!; try done; cbn; lia. }
  cbn [fmap list_fmap concat] in Hm; apply holds_app in Hm as [Hw Hm]; rewrite length_le_split in Hm.
  cbn [length] in *; assert (reg dest) as Hr by (split; cbn; lia).
  set (s1 := Interpreter.start s); set (v := const_step (xreg s dest) i).
  assert (Interpreter.InterpretInsn s = Some (tt, advance 4 (write_reg dest v s1))) as Hstep.
  { apply (InterpretInsn_word s (const_word dest i) (const_call dest i)); [by apply const_word_low | done | |].
    - by apply const_word_decodes.
    - by apply (const_call_spec dest i s1). }
  assert (wf_state (write_reg dest v s1)) as Hwf.
  { apply wf_write_reg; [done |]; unfold v; destruct i; apply cast_u64_range. }
  pose proof (proj1 (u64_fits _) (wf_insn_addr _ (proj1 Hs))) as Hpc0; unfold fits in Hpc0.
  set (s2 := advance 4 (write_reg dest v s1)) in *.
  assert (insn_addr (cpu s2) = insn_addr (cpu s) + 4) as Epc.
  { unfold s2, advance; cbn [cpu set_cpu insn_addr set_insn_addr]; rewrite write_reg_pc.
    change (insn_addr (cpu s1)) with (insn_addr (cpu s)); apply Z.mod_small; lia. }
  assert (mem s2 = mem s) as Em by (unfold s2, advance, write_reg; cbn; by destruct (_ =? 0)).
  destruct (IH s2) as (s' & Erun & Hs' & Hv & Ho & Epc' & Em').
  - destruct Hwf as [Hc ?]; split; [| done]; apply wf_set_insn_addr; [done | apply cast_u64_range].
  - by rewrite Em, Epc.
  - rewrite Epc; lia.
  - exists s'; split_and!.
    + cbn [run]; rewrite Hstep; exact Erun.
    + done.
    + rewrite Hv; cbn [foldl]; f_equal; by apply (xreg_write_same s1).
    + intros r Hr0 Hrd; rewrite Ho by done; apply (xreg_write_other s1); lia.
    + rewrite Epc', Epc; lia.
    + by rewrite Em', Em.
Qed.
End Run.

(** C27: loading constants, end to end.  For every 64-bit constant [Li] returns
    code within the recursion the source performs, and interpreting that code
    from memory, one decoded instruction after the other, ends with the program
    counter just past it, the constant in the destination register, and every
    other register and all of memory unchanged.  Excluded are the constants
    that reach the 32-bit [Li] at or above 2^31 - 2^11. *)
Theorem Li_loads_constant `{HostOk} s dest imm64 :
  wf_state s -> 0 < dest < 32 -> in_range i64 imm64 -> li_base li_fuel imm64 < 2 ^ 31 - 2 ^ 11 ->
  exists ws, Li64 li_fuel dest imm64 = Some ws
  /\ (holds (mem s) (insn_addr (cpu s)) (code_ (emit_words ws)) ->
      insn_addr (cpu s) + 4 * Z.of_nat (length ws) < 2 ^ 64 ->
      exists s', run (length ws) s = Some s'
      /\ xreg s' dest = word imm64
      /\ (forall r, 0 <= r -> r <> dest -> xreg s' r = xreg s r)
      /\ insn_addr (cpu s') = insn_addr (cpu s) + 4 * Z.of_nat (length ws) /\ mem s' = mem s).
Proof.
  intros Hs Hd Hi Hb; destruct (Li64_total dest imm64 Hi) as [ws Hws]; exists ws; split; [done |].
  destruct (Li64_program li_fuel dest imm64 ws Hi Hws) as (l & -> & Hok & Hr & Hv).
  rewrite code_emit_words, length_fmap; intros Hm Hpc.
  destruct (run_const dest l s Hs Hd Hok Hm Hpc) as (s' & E & _ & Hx & Ho & Epc & Em).
  exists s'; split_and!; try done; by rewrite Hx, Hr, Hv.
Qed.

(** The code for 0x123456789abcdef0 at 0x1000. *)
Definition li_example : list Z :=
  Eval vm_compute in
    default [] ((fun ws => code_ (emit_words ws)) <$> Li64 li_fuel 5 0x123456789abcdef0).

Lemma Li_loads_constant_witness :
  let s := initial_state 0x1000 li_example 0 [] in
  exists s', run 8 s = Some s' /\ xreg s' 5 = 0x123456789abcdef0 /\ insn_addr (cpu s') = 0x1020.
Proof.
  intros s; assert (wf_state s) as Hs by concrete_wf.
  destruct (Li_loads_constant s 5 0x123456789abcdef0 Hs) as (ws & E & Hrun);
    [lia | split; vm_compute; congruence | reflexivity |].
  assert (Some ws = Li64 li_fuel 5 0x123456789abcdef0) as E' by (symmetry; exact E).
  vm_compute in E'; apply (inj Some) in E'; subst ws.
  destruct Hrun as (s' & Er & Hx & _ & Hpc & _); [vm_compute; reflexivity | reflexivity |].
  exists s'; split; [exact Er | split; [exact Hx | exact Hpc]].
Defined.

(** The constants [Li] gets wrong.  For every constant from 2^31 - 2^11 to
    2^31 - 1 the code [Li] emits loads the constant minus 2^32: the upper part
    of the constant is rounded up to 2^31, which [lui] sign-extends. *)
Theorem Li_overflow `{HostOk} s dest imm :
  wf_state s -> 0 < dest < 32 -> 2 ^ 31 - 2 ^ 11 <= imm < 2 ^ 31 ->
  exists ws, Li64 li_fuel dest imm = Some ws /\ Li32 dest imm = Some ws
  /\ (holds (mem s) (insn_addr (cpu s)) (code_ (emit_words ws)) ->
      insn_addr (cpu s) + 4 * Z.of_nat (length ws) < 2 ^ 64 ->
      exists s', run (length ws) s = Some s'
      /\ xreg s' dest = word (imm - 2 ^ 32) /\ xreg s' dest <> word imm).
Proof.
  intros Hs Hd Hi; assert (in_range i32 imm) as H32 by (apply in_range_signed; [done | cbn in *; lia]).
  destruct (Li32_program dest imm H32) as [E Hok]; pose proof (Li32_value imm H32) as Hv.
  exists (const_word dest <$> li32_program imm); split_and!; [| done |].
  { unfold li_fuel; rewrite Li64_unfold, (proj2 (i32_dec imm) H32), Z.eqb_refl; done. }
  rewrite code_emit_words, length_fmap; intros Hm Hpc.
  destruct (run_const dest _ s Hs Hd Hok Hm Hpc) as (s' & Er & _ & Hx & _); exists s'.
  assert (xreg s' dest = word (imm - 2 ^ 32)) as Hx'.
  { rewrite Hx; destruct (Z.ltb_spec imm (2 ^ 31 - 2 ^ 11)) in Hv; [lia |]; rewrite <- Hv.
    unfold const_value, li32_program; repeat case_goal; done. }
  split_and!; [done | done |]; rewrite Hx'; unfold word; zdivmod.
Qed.

Definition li_overflow_example : list Z :=
  Eval vm_compute in default [] ((fun ws => code_ (emit_words ws)) <$> Li32 5 0x7fffffff).

Lemma Li_overflow_witness :
  let s := initial_state 0x1000 li_overflow_example 0 [] in
  exists s', run 2 s = Some s' /\ xreg s' 5 = 0xffffffff7fffffff.
Proof.
  intros s; assert (wf_state s) as Hs by concrete_wf.
  destruct (Li_overflow s 5 0x7fffffff Hs) as (ws & _ & E & Hrun); [lia | lia |].
  assert (Some ws = Li32 5 0x7fffffff) as E' by (symmetry; exact E).
  vm_compute in E'; apply (inj Some) in E'; subst ws.
  destruct Hrun as (s' & Er & Hx & _); [vm_compute; reflexivity | reflexivity |].
  exists s'; split; [exact Er | exact Hx].
Defined.
