(* ===== verification/ReservationMachine.v ===== *)
(** * Memory reservations, interleaved

    runtime_primitives/memory_region_reservation.h and .cc as several guest
    CPUs execute them: every atomic access of [SetOwner], [TryLock], [Unlock],
    [ReservationLoad] and [ReservationExchange] is one step, and the steps of the
    CPUs interleave freely, also with plain stores of other code and with changes
    of the memory map.  An access to the region faults when the region is not
    mapped or, for the exchange, not writable; the CPU then stops where it is.
    The atomics of the source default to sequential consistency for the owner
    entries. *)
From stdpp Require Import gmap.
From S2P Require Import Prelude MachineInt GuestState.
#[local] Open Scope Z_scope.

(** ** The machine *)

(** Where a CPU is in a load-reserved or a store-conditional; the addresses are
    those of 8-byte regions. *)
Inductive Position :=
  | Idle
  | LrLoadEntry (addr : Z)                       (* before [entry.load()] *)
  | LrExchangeEntry (addr : Z) (prev : Owner)    (* before the exchange of [SetOwner] *)
  | LrLoadRegion (addr : Z)                      (* before the load of the region *)
  | ScTryLock (addr expected value : Z)          (* before the exchange of [TryLock] *)
  | ScExchange (addr expected value : Z)         (* before the exchange of the region *)
  | ScUnlock (addr : Z) (written : bool)         (* before the store of [Unlock] *)
  | Faulted (addr : Z) (locked : bool).          (* stopped by a fault; did it hold the lock *)

Record Cpu := mkCpu {
  position : Position;
  res_addr : Z;
  res_value : Z;
  result : Z
}.

Record Machine := mkMachine {
  entries : gmap Z Owner;
  memory : Memory;
  cpus : nat -> Cpu
}.

Definition set_position (p : Position) (c : Cpu) : Cpu := mkCpu p (res_addr c) (res_value c) (result c).
Definition upd (i : nat) (c : Cpu) (m : Machine) : Machine :=
  mkMachine (entries m) (memory m) (fun j => if decide (i = j) then c else cpus m j).
Definition goto (i : nat) (p : Position) (m : Machine) : Machine :=
  upd i (set_position p (cpus m i)) m.
Definition set_entry (addr : Z) (o : Owner) (m : Machine) : Machine :=
  mkMachine (<[GetEntry addr := o]> (entries m)) (memory m) (cpus m).
Definition set_memory (mem : Memory) (m : Machine) : Machine :=
  mkMachine (entries m) mem (cpus m).

(** The two operations, with their arguments. *)
Inductive Operation := LoadReserved (addr : Z) | StoreConditional (addr : Z) (n : nat) (value : Z).

(** What a step shows: a CPU starts an operation, reads a region under a
    reservation, writes one exclusively, faults, or does anything else; other code
    stores, or changes the memory map. *)
Inductive Event :=
  | Begin (i : nat) (op : Operation)
  | Internal (i : nat)
  | ReadRegion (i : nat) (addr v : Z)
  | WroteRegion (i : nat) (addr v : Z)
  | Fault (i : nat) (addr : Z)
  | PlainStore
  | Remap.

Inductive step (m : Machine) : Event -> Machine -> Prop :=
  | lr_start i addr :
      position (cpus m i) = Idle ->
      step m (Begin i (LoadReserved addr))
        (upd i (mkCpu (LrLoadEntry (AlignedReservation addr)) (AlignedReservation addr)
                  (res_value (cpus m i)) (result (cpus m i))) m)
  | lr_load_entry i addr :
      position (cpus m i) = LrLoadEntry addr ->
      step m (Internal i)
        (goto i (if decide (owner_of (entries m) addr = kLockedOwner) then LrLoadRegion addr
                 else LrExchangeEntry addr (owner_of (entries m) addr)) m)
  | lr_exchange_entry i addr prev :
      position (cpus m i) = LrExchangeEntry addr prev -> owner_of (entries m) addr = prev ->
      step m (Internal i) (set_entry addr (OwnedBy i) (goto i (LrLoadRegion addr) m))
  | lr_exchange_entry_fails i addr prev :
      position (cpus m i) = LrExchangeEntry addr prev -> owner_of (entries m) addr <> prev ->
      step m (Internal i) (goto i (LrLoadRegion addr) m)
  | lr_load_region i addr v :
      position (cpus m i) = LrLoadRegion addr -> FaultyLoad (memory m) addr 8 = Some v ->
      step m (ReadRegion i addr v)
        (upd i (mkCpu Idle (res_addr (cpus m i)) v (result (cpus m i))) m)
  | lr_load_region_faults i addr :
      position (cpus m i) = LrLoadRegion addr -> FaultyLoad (memory m) addr 8 = None ->
      step m (Fault i addr) (goto i (Faulted addr false) m)
  | sc_start i addr n value :
      position (cpus m i) = Idle -> AlignedReservation addr = res_addr (cpus m i) ->
      step m (Begin i (StoreConditional addr n value))
        (upd i (mkCpu (ScTryLock (AlignedReservation addr) (res_value (cpus m i))
                         (embed (res_value (cpus m i)) (addr - AlignedReservation addr) n value))
                  0 (res_value (cpus m i)) (result (cpus m i))) m)
  | sc_start_fails i addr n value :
      position (cpus m i) = Idle -> AlignedReservation addr <> res_addr (cpus m i) ->
      step m (Begin i (StoreConditional addr n value)) (upd i (mkCpu Idle 0 (res_value (cpus m i)) 1) m)
  | sc_try_lock i addr expected value :
      position (cpus m i) = ScTryLock addr expected value ->
      owner_of (entries m) addr = OwnedBy i ->
      step m (Internal i) (set_entry addr kLockedOwner (goto i (ScExchange addr expected value) m))
  | sc_try_lock_fails i addr expected value :
      position (cpus m i) = ScTryLock addr expected value ->
      owner_of (entries m) addr <> OwnedBy i ->
      step m (Internal i) (upd i (mkCpu Idle (res_addr (cpus m i)) (res_value (cpus m i)) 1) m)
  | sc_exchange i addr expected value mem :
      position (cpus m i) = ScExchange addr expected value ->
      compare_exchange (memory m) addr expected value = Some (true, mem) ->
      step m (WroteRegion i addr value) (set_memory mem (goto i (ScUnlock addr true) m))
  | sc_exchange_fails i addr expected value mem :
      position (cpus m i) = ScExchange addr expected value ->
      compare_exchange (memory m) addr expected value = Some (false, mem) ->
      step m (Internal i) (goto i (ScUnlock addr false) m)
  | sc_exchange_faults i addr expected value :
      position (cpus m i) = ScExchange addr expected value ->
      compare_exchange (memory m) addr expected value = None ->
      step m (Fault i addr) (goto i (Faulted addr true) m)
  | sc_unlock i addr written :
      position (cpus m i) = ScUnlock addr written ->
      step m (Internal i)
        (set_entry addr NoOwner
           (upd i (mkCpu Idle (res_addr (cpus m i)) (res_value (cpus m i))
                     (if written then 0 else 1)) m))
  | plain_store addr n v mem :
      FaultyStore (memory m) addr n v = Some mem -> step m PlainStore (set_memory mem m)
  | remap mem : step m Remap (set_memory mem m).

(** The machine starts with no owners and idle CPUs without reservations. *)
Definition initial (m : Machine) : Prop :=
  entries m = ∅ /\ forall i, position (cpus m i) = Idle /\ res_addr (cpus m i) = 0.

Inductive reachable : list Event -> Machine -> Prop :=
  | reach_initial m : initial m -> reachable [] m
  | reach_step tr m ev m' : reachable tr m -> step m ev m' -> reachable (tr ++ [ev]) m'.

(** ** Invariant *)

(** [tr] ends with a stretch, from a read of [v] at [a] by [i] on, in which no
    CPU wrote a region of the same entry exclusively. *)
Definition quiet (e : Z) (ev : Event) : Prop :=
  match ev with WroteRegion _ a _ => GetEntry a <> e | _ => True end.
Definition fresh (tr : list Event) (i : nat) (a v : Z) : Prop :=
  exists tr1 tr2, tr = tr1 ++ ReadRegion i a v :: tr2 /\ Forall (quiet (GetEntry a)) tr2.

(** The CPU holds the lock of the entry of a region. *)
Definition locks (p : Position) (e : Z) : Prop :=
  match p with ScExchange a _ _ | ScUnlock a _ | Faulted a true => GetEntry a = e | _ => False end.

(** The region and value a CPU has reserved. *)
Definition reserves (c : Cpu) (a v : Z) : Prop :=
  match position c with
  | Idle => res_addr c = a /\ res_value c = v
  | ScTryLock a' v' _ => a' = a /\ v' = v
  | _ => False
  end.

(** The reserved address is set at the start of a load-reserved and cleared at
    the start of a store-conditional. *)
Definition addr_ok (c : Cpu) : Prop :=
  match position c with
  | Idle => True
  | LrLoadEntry a | LrExchangeEntry a _ | LrLoadRegion a | Faulted a false => res_addr c = a
  | ScTryLock _ _ _ | ScExchange _ _ _ | ScUnlock _ _ | Faulted _ true => res_addr c = 0
  end.

Record invariant (tr : list Event) (m : Machine) : Prop := {
  inv_addr : forall i, addr_ok (cpus m i);
  inv_prev : forall i a prev, position (cpus m i) = LrExchangeEntry a prev -> prev <> kLockedOwner;
  inv_locked : forall i a, locks (position (cpus m i)) (GetEntry a) ->
    owner_of (entries m) a = kLockedOwner;
  inv_unique : forall i j e, locks (position (cpus m i)) e -> locks (position (cpus m j)) e -> i = j;
  inv_reserved : forall i a v, a <> 0 -> reserves (cpus m i) a v ->
    owner_of (entries m) a = OwnedBy i -> fresh tr i a v;
  inv_exchange : forall i a v w, a <> 0 -> position (cpus m i) = ScExchange a v w -> fresh tr i a v
}.

Lemma fresh_snoc tr i a v ev : fresh tr i a v -> quiet (GetEntry a) ev -> fresh (tr ++ [ev]) i a v.
Proof.
  intros (tr1 & tr2 & -> & Hq) Hev; exists tr1, (tr2 ++ [ev]); split; [by rewrite <- app_assoc |].
  apply Forall_app; split; [done | by apply Forall_singleton].
Qed.

Lemma fresh_read tr i a v : fresh (tr ++ [ReadRegion i a v]) i a v.
Proof. by exists tr, []. Qed.

Lemma owner_of_insert es a o a' :
  owner_of (<[GetEntry a := o]> es) a' = if decide (GetEntry a = GetEntry a') then o else owner_of es a'.
Proof. unfold owner_of; rewrite lookup_insert; by case_decide. Qed.

Lemma compare_exchange_written m a e v m' :
  compare_exchange m a e v = Some (true, m') -> FaultyLoad m a 8 = Some e /\ FaultyStore m a 8 v = Some m'.
Proof.
  unfold compare_exchange; destruct (FaultyLoad m a 8) as [w |]; cbn [mbind option_bind]; [| done].
  destruct (Z.eqb_spec w e) as [-> |]; destruct (FaultyStore _ _ _ _) eqn:E; cbn [mbind option_bind]; try done.
  by intros [= <-].
Qed.

(** The exchange faults exactly when the region is not writable. *)
Lemma compare_exchange_fault m a e v : compare_exchange m a e v = None <-> writable m a 8 = false.
Proof.
  unfold compare_exchange, FaultyStore; destruct (writable m a 8) eqn:Ew.
  - destruct (writable_FaultyLoad m a 8 Ew) as [w ->]; cbn [mbind option_bind]; by destruct (_ =? _).
  - destruct (FaultyLoad m a 8); done.
Qed.

(** Splits on whether the CPU looked at is the one that moved. *)
Ltac reduce := unfold goto, upd, set_entry, set_memory, set_position in *;
  cbn [cpus entries memory position res_addr res_value result] in *.
Ltac cpu_cases :=
  reduce; repeat (case_decide; simplify_eq; reduce); cbn [locks] in *.

Lemma initial_invariant m : initial m -> invariant [] m.
Proof.
  intros [He Hi]; constructor.
  - intros i; unfold addr_ok; by rewrite (proj1 (Hi i)).
  - intros i a prev; by rewrite (proj1 (Hi i)).
  - intros i a; by rewrite (proj1 (Hi i)).
  - intros i j e; by rewrite (proj1 (Hi i)).
  - intros i a v Ha; unfold reserves; rewrite (proj1 (Hi i)), (proj2 (Hi i)); intros [<- _]; done.
  - intros i a v w _; by rewrite (proj1 (Hi i)).
Qed.

Section Preservation.
Context (tr : list Event) (m : Machine) (ev : Event) (m' : Machine).
Hypothesis Hinv : invariant tr m.
Hypothesis Hstep : step m ev m'.

Lemma step_addr i : addr_ok (cpus m' i).
Proof using Hinv Hstep.
  pose proof (inv_addr tr m Hinv i) as Ha; destruct Hstep; unfold addr_ok in *; cpu_cases; try done;
    rewrite H in Ha; by try case_decide.
Qed.

Lemma step_prev i a prev :
  position (cpus m' i) = LrExchangeEntry a prev -> prev <> kLockedOwner.
Proof using Hinv Hstep.
  pose proof (inv_prev tr m Hinv) as Hp; destruct Hstep; cpu_cases; try done; try apply Hp.
  by intros [= <- <-].
Qed.

Lemma step_locked i a :
  locks (position (cpus m' i)) (GetEntry a) -> owner_of (entries m') a = kLockedOwner.
Proof using Hinv Hstep.
  pose proof (inv_locked tr m Hinv) as Hl; pose proof (inv_unique tr m Hinv) as Hu.
  pose proof (inv_prev tr m Hinv) as Hp.
  destruct Hstep; cpu_cases; rewrite ?owner_of_insert; try done; try (by apply Hl);
    try (case_decide as He; [| by apply Hl]); try done.
  - intros Hk; rewrite <- He in Hk; apply Hl in Hk; by apply Hp in H.
  - intros He; by rewrite decide_True.
  - intros He; apply (Hl i); by rewrite H.
  - intros He; apply (Hl i); by rewrite H.
  - intros He; apply (Hl i); by rewrite H.
  - intros Hk; match goal with Hn : _ <> _ |- _ => destruct Hn end.
    apply (Hu _ _ (GetEntry a)); [by rewrite H | done].
Qed.

Lemma step_unique i j e : locks (position (cpus m' i)) e -> locks (position (cpus m' j)) e -> i = j.
Proof using Hinv Hstep.
  pose proof (inv_locked tr m Hinv) as Hl; pose proof (inv_unique tr m Hinv) as Hu.
  destruct Hstep; cpu_cases; try done; try apply Hu.
  all: first [intros <- Hk; apply Hl in Hk; congruence | intros Hk <-; apply Hl in Hk; congruence
             | intros <- Hk; apply (Hu _ _ (GetEntry addr)); [by rewrite H | done]
             | intros Hk <-; apply (Hu _ _ (GetEntry addr)); [done | by rewrite H]].
Qed.

(** A region written exclusively is locked: no reservation of another CPU on its
    entry is owned. *)
Lemma step_quiet i a :
  owner_of (entries m) a = OwnedBy i -> quiet (GetEntry a) ev.
Proof using Hinv Hstep.
  intros Ho; destruct Hstep; cbn [quiet]; try done; intros E.
  assert (owner_of (entries m) a = kLockedOwner); [| congruence].
  apply (inv_locked tr m Hinv i0); by rewrite H.
Qed.

Lemma step_reserved i a v :
  a <> 0 -> reserves (cpus m' i) a v -> owner_of (entries m') a = OwnedBy i -> fresh (tr ++ [ev]) i a v.
Proof using Hinv Hstep.
  intros Ha Hr Ho; pose proof (inv_reserved tr m Hinv i a v Ha) as Hf.
  assert (reserves (cpus m i) a v -> owner_of (entries m) a = OwnedBy i -> fresh (tr ++ [ev]) i a v) as Hkeep.
  { intros Hr' Ho'; apply fresh_snoc; [by apply Hf | by apply step_quiet with i]. }
  pose proof (inv_addr tr m Hinv i) as Hres; unfold addr_ok in Hres.
  destruct Hstep; unfold reserves in *; cpu_cases; try (by apply Hkeep); try done.
  all: try (rewrite H in Hkeep, Hres); rewrite ?owner_of_insert in Ho; try case_decide; try congruence;
    try (by apply Hkeep); destruct Hr as [<- <-]; try done; try congruence.
  - rewrite Hres; apply fresh_read.
  - by apply Hkeep; [split |].
Qed.

Lemma step_exchange i a v w :
  a <> 0 -> position (cpus m' i) = ScExchange a v w -> fresh (tr ++ [ev]) i a v.
Proof using Hinv Hstep.
  intros Ha Hp.
  assert (position (cpus m i) = ScExchange a v w -> quiet (GetEntry a) ev -> fresh (tr ++ [ev]) i a v) as Hkeep.
  { intros Hp' Hq; apply fresh_snoc; [by apply (inv_exchange tr m Hinv i a v w) | done]. }
  destruct Hstep; cpu_cases; try (by apply Hkeep); try done.
  - simplify_eq; apply fresh_snoc; [| done]; apply (inv_reserved tr m Hinv); [done | | done].
    unfold reserves; by rewrite H.
  - apply Hkeep; [done |]; cbn [quiet]; intros E.
    match goal with Hn : _ <> _ |- _ => apply Hn end.
    apply (inv_unique tr m Hinv _ _ (GetEntry a)); [by rewrite H | by rewrite Hp].
Qed.

Lemma step_invariant : invariant (tr ++ [ev]) m'.
Proof using Hinv Hstep.
  constructor; eauto using step_addr, step_prev, step_locked, step_unique, step_reserved, step_exchange.
Qed.
End Preservation.

Lemma reachable_invariant tr m : reachable tr m -> invariant tr m.
Proof. induction 1; [by apply initial_invariant | by eapply step_invariant]. Qed.

(** ** Store-conditional is atomic *)

(** C24: safety of load-reserved and store-conditional under every interleaving.
    When a CPU's store-conditional writes a region, that CPU read the region
    under its reservation before, the region still has the value it read then,
    and since that read no CPU has written any region of the same owner entry
    exclusively. *)
Theorem store_conditional_atomic tr m i a w m' :
  reachable tr m -> a <> 0 -> step m (WroteRegion i a w) m' ->
  exists tr1 tr2 v, tr = tr1 ++ ReadRegion i a v :: tr2
  /\ Forall (quiet (GetEntry a)) tr2
  /\ FaultyLoad (memory m) a 8 = Some v
  /\ FaultyLoad (memory m') a 8 = Some (w mod 2 ^ 64).
Proof.
  intros Hr%reachable_invariant Ha Hs.
  inversion Hs as [| | | | | | | | | | ? ? expected ? mem Hp Hce | | | | |]; subst; apply compare_exchange_written in Hce as [Hl Hst].
  destruct (inv_exchange tr m Hr i a expected w Ha Hp) as (tr1 & tr2 & -> & Hq).
  apply FaultyStore_spec in Hst as [Hst _]; by exists tr1, tr2, expected.
Qed.

(** The lock of an owner entry is exclusive: in every reachable state at most
    one CPU is between a successful [TryLock] and its [Unlock] for regions of one
    entry, the entry then holds the special owner, and so no other CPU can take
    the reservation or the lock. *)
Theorem reservation_lock_exclusive tr m i a :
  reachable tr m -> locks (position (cpus m i)) (GetEntry a) ->
  owner_of (entries m) a = kLockedOwner
  /\ (forall j, locks (position (cpus m j)) (GetEntry a) -> j = i)
  /\ (forall ev m', step m ev m' -> ev <> Internal i -> owner_of (entries m') a = kLockedOwner).
Proof.
  intros Hr%reachable_invariant Hi; split_and!.
  - by apply (inv_locked tr m Hr i).
  - intros j Hj; by apply (inv_unique tr m Hr _ _ (GetEntry a)).
  - intros ev m' Hs Hn; pose proof (step_locked tr m ev m' Hr Hs i a) as Hl; apply Hl.
    destruct Hs; cpu_cases; try done.
    all: rewrite H in Hi; exact Hi.
Qed.

(** ** Every operation ends *)

(** Own steps left until the operation of a CPU is over. *)
Definition steps_left (p : Position) : nat :=
  match p with
  | Idle | Faulted _ _ => 0
  | LrLoadEntry _ | ScTryLock _ _ _ => 3
  | LrExchangeEntry _ _ | ScExchange _ _ _ => 2
  | LrLoadRegion _ | ScUnlock _ _ => 1
  end.
(** Whose step it is, and whether it goes on with an operation. *)
Definition moves (ev : Event) (i : nat) : Prop :=
  match ev with
  | Begin j _ | Internal j | ReadRegion j _ _ | WroteRegion j _ _ | Fault j _ => j = i
  | PlainStore | Remap => False
  end.
Definition continues (i : nat) (ev : Event) : Prop :=
  moves ev i /\ match ev with Begin _ _ => False | _ => True end.

(** C39: load-reserved and store-conditional are wait-free.  A CPU in the middle of
    one, whatever the others have done and however the memory is mapped, can take
    its next step, and each of its own steps brings it closer to the end, by three
    steps at most; no step of another CPU sets it back.  The end is that it is idle
    again, or that it has faulted: at the load of the region when a byte of it is
    not mapped, at the exchange when a byte of it is not mapped and writable. *)
Theorem reservations_wait_free m i :
  (0 < steps_left (position (cpus m i)))%nat ->
  (exists ev m', step m ev m' /\ continues i ev)
  /\ (forall ev m', step m ev m' -> moves ev i ->
       (steps_left (position (cpus m' i)) < steps_left (position (cpus m i)) <= 3)%nat)
  /\ (forall ev m', step m ev m' -> ~ moves ev i -> cpus m' i = cpus m i)
  /\ (forall a m', step m (Fault i a) m' ->
       position (cpus m i) = LrLoadRegion a /\ FaultyLoad (memory m) a 8 = None
       \/ (exists e v, position (cpus m i) = ScExchange a e v) /\ writable (memory m) a 8 = false).
Proof.
  intros Hp; split_and!.
  - unfold continues; destruct (position (cpus m i)) eqn:E; cbn in Hp; try lia.
    + eexists _, _; split; [by eapply lr_load_entry | done].
    + destruct (decide (owner_of (entries m) addr = prev)); eexists _, _;
        (split; [first [by eapply lr_exchange_entry | by eapply lr_exchange_entry_fails] | done]).
    + destruct (FaultyLoad (memory m) addr 8) eqn:El; eexists _, _;
        (split; [first [by eapply lr_load_region | by eapply lr_load_region_faults] | done]).
    + destruct (decide (owner_of (entries m) addr = OwnedBy i)); eexists _, _;
        (split; [first [by eapply sc_try_lock | by eapply sc_try_lock_fails] | done]).
    + destruct (compare_exchange (memory m) addr expected value) as [[[] mem] |] eqn:Ec; eexists _, _;
        (split; [first [by eapply sc_exchange | by eapply sc_exchange_fails | by eapply sc_exchange_faults] | done]).
    + eexists _, _; split; [by eapply sc_unlock | done].
  - intros ev m' Hs Hm; destruct Hs; cbn [moves] in Hm; subst; cpu_cases; try done;
      match goal with E : position _ = _ |- _ => rewrite E in Hp |- * end; cbn in *;
      try (case_decide; cbn; lia); lia.
  - intros ev m' Hs Hm; destruct Hs; cbn [moves] in Hm; cpu_cases; done.
  - intros a m' Hs; inversion Hs; subst; [by left | right].
    split; [by eexists _, _ | by eapply compare_exchange_fault].
Qed.

(** ** The interpreter's view *)

(** The events of a run. *)
Inductive run : Machine -> list Event -> Machine -> Prop :=
  | run_nil m : run m [] m
  | run_cons m ev m1 evs m2 : step m ev m1 -> run m1 evs m2 -> run m (ev :: evs) m2.

(** [op] by one CPU, undisturbed: it starts, and its own steps follow. *)
Definition executes (i : nat) (op : Operation) (m m' : Machine) : Prop :=
  exists evs, run m (Begin i op :: evs) m' /\ Forall (continues i) evs.
(** Its steps from a position in the middle. *)
Definition proceeds (i : nat) (m m' : Machine) : Prop := exists evs, run m evs m' /\ Forall (continues i) evs.

Lemma executes_start i op m m1 m' : step m (Begin i op) m1 -> proceeds i m1 m' -> executes i op m m'.
Proof. intros Hs (evs & Hr & Hc); exists evs; split; [by eapply run_cons | done]. Qed.
Lemma proceeds_refl i m : proceeds i m m.
Proof. exists []; split; [constructor | done]. Qed.
Lemma proceeds_step i m ev m1 m' : step m ev m1 -> continues i ev -> proceeds i m1 m' -> proceeds i m m'.
Proof.
  intros Hs Hc (evs & Hr & He); exists (ev :: evs); split; [by eapply run_cons | by constructor].
Qed.

(** The machine's CPU has the reservation of a guest state, at a position. *)
Definition shows (m : Machine) (i : nat) (p : Position) (c : CPUState) (o : gmap Z Owner) (mem : Memory) : Prop :=
  position (cpus m i) = p /\ res_addr (cpus m i) = reservation_address c
  /\ res_value (cpus m i) = reservation_value c /\ entries m = o /\ memory m = mem.

Ltac at_i := reduce; by repeat (rewrite decide_True by done; reduce).

Lemma run_app m evs m1 evs' m2 : run m evs m1 -> run m1 evs' m2 -> run m (evs ++ evs') m2.
Proof. induction 1; [done |]; intros Hr; eapply run_cons; [done | by apply IHrun]. Qed.
Lemma executes_then i op m m1 m' : executes i op m m1 -> proceeds i m1 m' -> executes i op m m'.
Proof.
  intros (evs & Hr & Hc) (evs' & Hr' & Hc'); exists (evs ++ evs'); split; [by eapply (run_app _ (_ :: evs)) |].
  by apply Forall_app.
Qed.
Lemma proceeds_one i m ev m1 : step m ev m1 -> continues i ev -> proceeds i m m1.
Proof. intros Hs Hc; by eapply proceeds_step, proceeds_refl. Qed.

(** [SetOwner], from the start of a load-reserved up to the load of the region. *)
Lemma executes_SetOwner m i addr c :
  let a := AlignedReservation addr in
  shows m i Idle c (entries m) (memory m) ->
  exists m1, executes i (LoadReserved addr) m m1
  /\ shows m1 i (LrLoadRegion a) (set_reservation a (reservation_value c) c) (SetOwner a i (entries m)) (memory m).
Proof.
  intros a (Hp & Ha & Hv & _); unfold SetOwner; case_decide as Ho; eexists.
  - split.
    + eapply executes_start; [by apply (lr_start m i addr) |].
      eapply proceeds_one; [eapply lr_load_entry; at_i | done].
    + unfold shows; fold a; reduce; rewrite (decide_True (P := i = i)) by done; reduce.
      by rewrite (decide_True (P := i = i)), (decide_True (P := owner_of _ _ = _)) by done.
  - split.
    + eapply executes_start; [by apply (lr_start m i addr) |].
      eapply proceeds_step; [eapply lr_load_entry; at_i | done |].
      eapply proceeds_one; [eapply (lr_exchange_entry _ i a (owner_of (entries m) a)); [reduce | at_i] | done].
      fold a; repeat (rewrite (decide_True (P := i = i)) by done; reduce); by rewrite decide_False.
    + unfold shows; at_i.
Qed.

Lemma executes_Load m i addr t c :
  let a := AlignedReservation addr in
  shows m i Idle c (entries m) (memory m) ->
  exists m', executes i (LoadReserved addr) m m' /\
  match Reservation_Load t i addr c (entries m) (memory m) with
  | Some (v, c', o') => shows m' i Idle c' o' (memory m) /\ v = cast t (Z.shiftr (res_value (cpus m' i)) ((addr - a) * 8))
  | None => exists c', shows m' i (Faulted a false) c' (SetOwner a i (entries m)) (memory m)
  end.
Proof.
  intros a Hs; destruct (executes_SetOwner m i addr c Hs) as (m1 & He & Hp & Ha & Hv & Ho & Hm); fold a in Hp, Ha, Ho.
  unfold Reservation_Load; fold a; cbv zeta; rewrite <- Hm; destruct (FaultyLoad (memory m1) a 8) as [v |] eqn:El;
    cbn [mbind option_bind]; eexists.
  - split; [eapply executes_then; [done |]; eapply proceeds_one; [by apply (lr_load_region m1 i a v) | done] |].
    split; [| at_i]; unfold shows; split_and!; try at_i.
  - split; [eapply executes_then; [done |]; eapply proceeds_one; [by apply (lr_load_region_faults m1 i a) | done] |].
    exists (set_reservation a (reservation_value c) c); unfold shows; split_and!; at_i.
Qed.

Lemma executes_Store m i addr n value c :
  let a := AlignedReservation addr in
  shows m i Idle c (entries m) (memory m) ->
  exists m', executes i (StoreConditional addr n value) m m' /\
  match Reservation_Store n i addr value c (entries m) (memory m) with
  | Some (r, c', o', mem') => shows m' i Idle c' o' mem' /\ result (cpus m' i) = r
  | None => exists c', shows m' i (Faulted a true) c' (<[GetEntry a := kLockedOwner]> (entries m)) (memory m)
  end.
Proof.
  intros a (Hp & Ha & Hv & _); unfold Reservation_Store, ReservationExchange, TryLock; cbv zeta.
  cbn [reservation_value set_reservation]; fold a.
  destruct (Z.eqb_spec a (reservation_address c)) as [E | E]; cbn [negb].
  2:{ eexists; split.
      - eapply executes_start; [apply (sc_start_fails m i addr); [done |] | apply proceeds_refl]; by rewrite Ha.
      - unfold shows; at_i. }
  set (w := embed _ _ _ _).
  assert (step m (Begin i (StoreConditional addr n value))
    (upd i (mkCpu (ScTryLock a (res_value (cpus m i)) (embed (res_value (cpus m i)) (addr - a) n value))
              0 (res_value (cpus m i)) (result (cpus m i))) m)) as Hstart
    by (apply sc_start; [done | by rewrite Ha]).
  rewrite Hv in Hstart; fold w in Hstart; case_decide as Ho; cbn [mbind option_bind].
  2:{ eexists; split.
      - eapply executes_start; [exact Hstart |].
        eapply proceeds_one; [apply (sc_try_lock_fails _ i a (reservation_value c) w); at_i | done].
      - unfold shows; at_i. }
  assert (forall m1, proceeds i (set_entry a kLockedOwner
      (goto i (ScExchange a (reservation_value c) w) (upd i (mkCpu (ScTryLock a (reservation_value c) w)
        0 (reservation_value c) (result (cpus m i))) m))) m1 -> executes i (StoreConditional addr n value) m m1) as Hlock.
  { intros m1 Hm1; eapply executes_start; [exact Hstart |].
    eapply proceeds_step; [apply (sc_try_lock _ i a (reservation_value c) w); at_i | done | exact Hm1]. }
  destruct (compare_exchange (memory m) a (reservation_value c) w) as [[[] mem] |] eqn:Ec; cbn [mbind option_bind]; eexists.
  - split; [apply Hlock; eapply proceeds_step; [apply (sc_exchange _ i a (reservation_value c) w mem); at_i | done |];
      eapply proceeds_one; [apply (sc_unlock _ i a true); at_i | done] |].
    unfold shows, Unlock; at_i.
  - assert (mem = memory m) as ->.
    { revert Ec; unfold compare_exchange; destruct (FaultyLoad _ _ _); cbn [mbind option_bind]; [| done].
      destruct (FaultyStore _ _ _ _); cbn [mbind option_bind]; [| done]; destruct (_ =? _); congruence. }
    split; [apply Hlock; eapply proceeds_step; [apply (sc_exchange_fails _ i a (reservation_value c) w (memory m)); at_i | done |];
      eapply proceeds_one; [apply (sc_unlock _ i a false); at_i | done] |].
    unfold shows, Unlock; at_i.
  - split; [apply Hlock; eapply proceeds_one; [apply (sc_exchange_faults _ i a (reservation_value c) w); at_i | done] |].
    exists (set_reservation 0 (reservation_value c) c); unfold shows; at_i.
Qed.

(** An undisturbed operation has one outcome. *)
Lemma step_deterministic m i ev1 m1 ev2 m2 :
  step m ev1 m1 -> step m ev2 m2 ->
  continues i ev1 /\ continues i ev2 \/ (exists op, ev1 = Begin i op /\ ev2 = Begin i op) -> m1 = m2.
Proof.
  intros H1 H2 [[[Hm1 Hc1] [Hm2 Hc2]] | (op & -> & ->)].
  - destruct H1; cbn in Hm1, Hc1; try done; subst; destruct H2; cbn in Hm2, Hc2; try done; subst;
      first [congruence | match goal with Ha : position _ = _, Hb : position _ = _ |- _ => rewrite Ha in Hb; by simplify_eq end].
  - inversion H1; subst; inversion H2; subst; congruence.
Qed.

(** A CPU whose operation is over takes no more steps of it. *)
Definition over (i : nat) (m : Machine) : Prop := steps_left (position (cpus m i)) = 0%nat.

Lemma over_stuck i m ev m' : over i m -> continues i ev -> ~ step m ev m'.
Proof.
  unfold over; intros Ho [Hm Hc] Hs; destruct Hs; cbn in Hm, Hc; try done; subst;
    match goal with E : position _ = _ |- _ => rewrite E in Ho end; done.
Qed.

Lemma proceeds_unique i m m1 m2 : proceeds i m m1 -> proceeds i m m2 -> over i m1 -> over i m2 -> m1 = m2.
Proof.
  intros (evs1 & H1 & Hc1) (evs2 & H2 & Hc2) Ho1 Ho2; revert m2 evs2 H2 Hc2 Ho2.
  induction H1 as [m | m ev ma evs mb Hs Hr IH]; intros m2 evs2 H2 Hc2 Ho2.
  - destruct H2; [done |]; apply Forall_cons in Hc2 as [Hc _]; by destruct (over_stuck i m ev m1).
  - apply Forall_cons in Hc1 as [Hc Hcs]; destruct H2 as [m | m ev' ma' evs' mb' Hs' Hr'].
    { by destruct (over_stuck i m ev ma). }
    apply Forall_cons in Hc2 as [Hc' Hcs']; rewrite (step_deterministic m i ev' ma' ev ma) in Hr' by (auto).
    by eapply IH.
Qed.

Lemma executes_unique i op m m1 m2 : executes i op m m1 -> executes i op m m2 -> over i m1 -> over i m2 -> m1 = m2.
Proof.
  intros (evs1 & H1 & Hc1) (evs2 & H2 & Hc2) Ho1 Ho2; inversion H1; inversion H2; subst.
  match goal with
  | Ha : step m _ ?x, Ra : run ?x evs1 _, Hb : step m _ ?y, Rb : run ?y evs2 _ |- _ =>
      rewrite (step_deterministic m i _ y _ x Hb Ha) in Rb by (right; by exists op);
      by apply (proceeds_unique i x); [exists evs1 | exists evs2 | |]
  end.
Qed.

(** C34: refinement.  The load-reserved and store-conditional functions of the
    interpreter against the interleaved machine, from any idle state: when the CPU
    executes exactly this operation (it begins with these arguments, and its own
    steps follow undisturbed until the operation is over), the machine ends in one
    state, which has the reservation, owners, memory and result that the function
    returns; when the function ends in a host fault, so does the operation, with
    the owner entry left locked in the case of the store-conditional. *)
Theorem reservation_functions_refine m i c addr :
  let a := AlignedReservation addr in
  shows m i Idle c (entries m) (memory m) ->
  (forall t m', executes i (LoadReserved addr) m m' -> over i m' ->
     match Reservation_Load t i addr c (entries m) (memory m) with
     | Some (v, c', o') => shows m' i Idle c' o' (memory m) /\ v = cast t (Z.shiftr (res_value (cpus m' i)) ((addr - a) * 8))
     | None => exists c', shows m' i (Faulted a false) c' (SetOwner a i (entries m)) (memory m)
     end)
  /\ (forall n value m', executes i (StoreConditional addr n value) m m' -> over i m' ->
     match Reservation_Store n i addr value c (entries m) (memory m) with
     | Some (r, c', o', mem') => shows m' i Idle c' o' mem' /\ result (cpus m' i) = r
     | None => exists c', shows m' i (Faulted a true) c' (<[GetEntry a := kLockedOwner]> (entries m)) (memory m)
     end)
  /\ (forall op, op = LoadReserved addr \/ (exists n value, op = StoreConditional addr n value) ->
     exists m', executes i op m m' /\ over i m').
Proof.
  intros a Hs.
  assert (forall m' p c' o' mem', shows m' i p c' o' mem' -> steps_left p = 0%nat -> over i m') as Hover
    by (unfold over; by intros m' p c' o' mem' (-> & _)).
  pose proof (fun t => executes_Load m i addr t c Hs) as HL; pose proof (fun n value => executes_Store m i addr n value c Hs) as HS.
  assert (forall t, exists m', executes i (LoadReserved addr) m m' /\ over i m' /\
    match Reservation_Load t i addr c (entries m) (memory m) with
    | Some (v, c', o') => shows m' i Idle c' o' (memory m) /\ v = cast t (Z.shiftr (res_value (cpus m' i)) ((addr - a) * 8))
    | None => exists c', shows m' i (Faulted a false) c' (SetOwner a i (entries m)) (memory m)
    end) as HL'.
  { intros t; destruct (HL t) as (m' & He & Hm); exists m'; split_and!; [done | | done].
    destruct (Reservation_Load _ _ _ _ _ _) as [[[v c'] o'] |]; [destruct Hm as [Hm _] | destruct Hm as [c' Hm]]; by eapply Hover. }
  assert (forall n value, exists m', executes i (StoreConditional addr n value) m m' /\ over i m' /\
    match Reservation_Store n i addr value c (entries m) (memory m) with
    | Some (r, c', o', mem') => shows m' i Idle c' o' mem' /\ result (cpus m' i) = r
    | None => exists c', shows m' i (Faulted a true) c' (<[GetEntry a := kLockedOwner]> (entries m)) (memory m)
    end) as HS'.
  { intros n value; destruct (HS n value) as (m' & He & Hm); exists m'; split_and!; [done | | done].
    destruct (Reservation_Store _ _ _ _ _ _ _) as [[[[r c'] o'] mem'] |]; [destruct Hm as [Hm _] | destruct Hm as [c' Hm]]; by eapply Hover. }
  split_and!.
  - intros t m' He Ho; destruct (HL' t) as (m1 & He1 & Ho1 & Hm); by rewrite (executes_unique i _ m m' m1 He He1 Ho Ho1).
  - intros n value m' He Ho; destruct (HS' n value) as (m1 & He1 & Ho1 & Hm); by rewrite (executes_unique i _ m m' m1 He He1 Ho Ho1).
  - intros op [-> | (n & value & ->)]; [destruct (HL' u64) as (m' & ? & ? & _) | destruct (HS' n value) as (m' & ? & ? & _)]; by exists m'.
Qed.

(** ** A run: two CPUs, one region *)

Definition example_machine : Machine :=
  mkMachine ∅ (store_bytes ∅ 8 [1; 0; 0; 0; 0; 0; 0; 0]) (fun _ => mkCpu Idle 0 0 0).
Definition example_cpu : CPUState := mkCPUState [] [] 0 0 0 0 0 0 0 0.

Lemma reservation_functions_refine_witness :
  exists m', executes 3 (LoadReserved 12) example_machine m'
  /\ res_addr (cpus m' 3%nat) = 8 /\ res_value (cpus m' 3%nat) = 1.
Proof.
  destruct (reservation_functions_refine example_machine 3 example_cpu 12
    ltac:(split; [reflexivity | split; [reflexivity | split; [reflexivity | split; reflexivity]]])) as (HL & _ & Hex).
  destruct (Hex (LoadReserved 12) ltac:(left; reflexivity)) as (m' & He & Ho).
  pose proof (HL i32 m' He Ho) as Hm; exists m'; split; [exact He |].
  replace (Reservation_Load i32 3 12 example_cpu (entries example_machine) (memory example_machine))
    with (Some (0, set_reservation 8 1 example_cpu, SetOwner 8 3 (entries example_machine))) in Hm
    by (vm_compute; reflexivity).
  destruct Hm as ((_ & Ha & Hv & _) & _); split; [exact Ha | exact Hv].
Defined.

(** CPU 0 reserves the region and is about to write it. *)
Definition locked_machine : Machine :=
  set_entry 8 kLockedOwner (goto 0 (ScExchange 8 1 2)
    (upd 0 (mkCpu (ScTryLock 8 1 2) 0 1 0)
      (upd 0 (mkCpu Idle 8 1 0)
        (set_entry 8 (OwnedBy 0) (goto 0 (LrLoadRegion 8)
          (goto 0 (LrExchangeEntry 8 NoOwner)
            (upd 0 (mkCpu (LrLoadEntry 8) 8 0 0) example_machine))))))).
Definition locked_trace : list Event :=
  [Begin 0 (LoadReserved 8); Internal 0; Internal 0; ReadRegion 0 8 1; Begin 0 (StoreConditional 8 8 2); Internal 0].

Lemma example_initial : reachable [] example_machine.
Proof. apply reach_initial; split; [reflexivity | intros i; split; reflexivity]. Qed.

(** One more step of a reachable machine, its premises by computation. *)
Tactic Notation "advance" constr(R) "by" uconstr(s) "as" ident(R') :=
  unshelve epose proof (reach_step _ _ _ _ R s) as R'; [reflexivity .. |].

Lemma locked_reachable : reachable locked_trace locked_machine.
Proof.
  advance example_initial by (lr_start _ 0 8 _) as R1.
  advance R1 by (lr_load_entry _ 0 8 _) as R2.
  advance R2 by (lr_exchange_entry _ 0 8 NoOwner _ _) as R3.
  advance R3 by (lr_load_region _ 0 8 1 _ _) as R4.
  advance R4 by (sc_start _ 0 8 8 2 _ _) as R5.
  advance R5 by (sc_try_lock _ 0 8 1 2 _ _) as R6; exact R6.
Qed.

Lemma store_conditional_atomic_witness :
  exists tr1 tr2 v, locked_trace = tr1 ++ ReadRegion 0 8 v :: tr2
  /\ Forall (quiet (GetEntry 8)) tr2
  /\ FaultyLoad (memory locked_machine) 8 8 = Some v.
Proof.
  assert (exists mem, compare_exchange (memory locked_machine) 8 1 2 = Some (true, mem)) as [mem E]
    by (eexists; vm_compute; reflexivity).
  destruct (store_conditional_atomic locked_trace locked_machine 0 8 2
    (set_memory mem (goto 0 (ScUnlock 8 true) locked_machine)) locked_reachable) as (tr1 & tr2 & v & H1 & H2 & H3 & _);
    [lia | apply (sc_exchange locked_machine 0 8 1 2 mem); [reflexivity | exact E] |].
  exists tr1, tr2, v; split; [exact H1 | split; [exact H2 | exact H3]].
Defined.

Lemma reservation_lock_exclusive_witness :
  owner_of (entries locked_machine) 8 = kLockedOwner
  /\ forall j, locks (position (cpus locked_machine j)) (GetEntry 8) -> j = 0%nat.
Proof.
  destruct (reservation_lock_exclusive locked_trace locked_machine 0 8 locked_reachable) as (H1 & H2 & _);
    [reflexivity | split; [exact H1 | exact H2]].
Defined.

Lemma reservations_wait_free_witness : exists ev m', step locked_machine ev m' /\ continues 0 ev.
Proof. apply (reservations_wait_free locked_machine 0); vm_compute; lia. Defined.
