(* ===== verification/Translator.v ===== *)
(** * Translating a region

    How a guest address that is executed for the first time gets its host code:
    - runtime/riscv64/translator_x86_64.cc and translator.cc: the choice of the
      translator, and what is published for the region;
    - lite_translator/riscv64_to_x86_64/lite_translate_region.cc and
      heavy_optimizer/riscv64/heavy_optimize_region.cc: the loops over the
      instructions of a region.

    Other threads run at the same time.  A translation is therefore a program
    over the calls it makes ([prog]): to the translation cache, to the map of
    executable memory, to the code pool and to guest memory.  What other threads
    do between two calls is up to the semantics (file ExecutableCode).

    The code generators are a parameter, the class [InsnTranslator]: what they do
    with one decoded instruction, and their two flags. *)
From Stdlib Require Import String.
From stdpp Require Import gmap.
From S2P Require Import Prelude MachineInt BitUtil Effects TableOfTables TranslationCache GuestMapShadow RiscvInsn RiscvDecoder GuestState Interpreter.
#[local] Open Scope Z_scope.

(** ** The parameters *)

(** A code generator with state [L] that makes code of type [MC]. *)
Class InsnTranslator (L MC : Type) := {
  tr_new : option nat -> Z -> L;
  tr_start_insn : L -> L;
  tr_play : list InsnCall -> Z -> L -> L;
  tr_free_temp_regs : L -> L;
  tr_success : L -> bool;
  tr_region_end : Z -> L -> bool;
  tr_finalize : Z -> L -> L;
  tr_code : L -> MC
}.

(** What the loops rely on: nothing ends a region before its first instruction,
    and neither releasing registers nor leaving the region changes whether it was
    translated. *)
Class InsnTranslatorOk (L MC : Type) `{InsnTranslator L MC} : Prop := {
  tr_new_open counter pc : tr_region_end pc (tr_new counter pc) = false;
  tr_new_success counter pc : tr_success (tr_new counter pc) = true;
  tr_free_success t : tr_success (tr_free_temp_regs t) = tr_success t;
  tr_finalize_success pc t : tr_success (tr_finalize pc t) = tr_success t
}.

(** ** Programs *)
Section Programs.
Context {MC : Type}.

Inductive prog (A : Type) : Type :=
  | Ret (a : A)
  | Crash
  | AddAndLock (pc threshold : Z) (cont : option nat -> prog A)
  | LockGearUp (pc : Z) (cont : option nat -> prog A)
  | Unlock (pc : Z) (p : nat) (gsize : Z) (kind : Kind.t) (piece : HostCodePiece) (cont : prog A)
  | ClearCounter (p : nat) (cont : prog A)
  | AskExecutable (start size : Z) (cont : bool -> prog A)
  | AskRegionSize (start size : Z) (cont : bool * Z -> prog A)
  | ReadMemory (cont : Memory -> prog A)
  | Install (code : MC) (cont : HostCodePiece -> prog A).
End Programs.
Arguments prog MC A : clear implicits.
Arguments Ret {MC A} a.
Arguments Crash {MC A}.
Arguments AddAndLock {MC A} pc threshold cont.
Arguments LockGearUp {MC A} pc cont.
Arguments Unlock {MC A} pc p gsize kind piece cont.
Arguments ClearCounter {MC A} p cont.
Arguments AskExecutable {MC A} start size cont.
Arguments AskRegionSize {MC A} start size cont.
Arguments ReadMemory {MC A} cont.
Arguments Install {MC A} code cont.

#[export] Instance prog_ret {MC} : MRet (prog MC) := @Ret MC.
#[export] Instance prog_bind {MC} : MBind (prog MC) := fun A B f =>
  fix bind t :=
    match t with
    | Ret a => f a
    | Crash => Crash
    | AddAndLock pc threshold cont => AddAndLock pc threshold (fun r => bind (cont r))
    | LockGearUp pc cont => LockGearUp pc (fun r => bind (cont r))
    | Unlock pc p gsize kind piece cont => Unlock pc p gsize kind piece (bind cont)
    | ClearCounter p cont => ClearCounter p (bind cont)
    | AskExecutable start size cont => AskExecutable start size (fun b => bind (cont b))
    | AskRegionSize start size cont => AskRegionSize start size (fun r => bind (cont r))
    | ReadMemory cont => ReadMemory (fun m => bind (cont m))
    | Install code cont => Install code (fun p => bind (cont p))
    end.

Definition or_crash {MC A} (o : option A) : prog MC A := match o with Some a => Ret a | None => Crash end.
Definition prog_check {MC} (b : bool) : prog MC unit := if b then Ret tt else Crash.

(** ** The loops over instructions *)

(** [while (addr < end_pc && !is_region_end_reached())]: the state of the code
    generator, the address it stopped at, and whether it was successful.  [None]
    when the memory of an instruction is not readable.  Every instruction has at
    least two bytes, so that one more than the distance is enough fuel. *)
Fixpoint lite_loop `{InsnTranslator L MC} (fuel : nat) (m : Memory) (end_pc : Z) (t : L) (insn_addr : Z)
    : option (bool * Z * L) :=
  if (insn_addr <? end_pc) && negb (tr_region_end insn_addr t) then
    match fuel with
    | O => None
    | S fuel =>
        code ← Interpreter.fetch m insn_addr;
        '(calls, insn_size) ← Decode code;
        let t := tr_play calls insn_addr t in
        if negb (tr_success t) then Some (false, insn_addr, t)
        else lite_loop fuel m end_pc (tr_free_temp_regs t) (cast u64 (insn_addr + insn_size))
    end
  else
    let t := tr_finalize insn_addr t in
    Some (tr_success t, insn_addr, t).

Definition region_fuel (start_pc end_pc : Z) : nat := S (Z.to_nat (end_pc - start_pc)).

(** The same with a bound on the number of instructions; a failed instruction
    only ends the loop. *)
Fixpoint heavy_loop `{InsnTranslator L MC} (instructions_left : nat) (m : Memory) (end_pc : Z) (t : L)
    (insn_addr : Z) : option (Z * L) :=
  match instructions_left with
  | O => Some (insn_addr, t)
  | S instructions_left =>
      if (insn_addr <? end_pc) && negb (tr_region_end insn_addr t) then
        code ← Interpreter.fetch m insn_addr;
        '(calls, insn_size) ← Decode code;
        let t := tr_play calls insn_addr (tr_start_insn t) in
        if negb (tr_success t) then Some (insn_addr, t)
        else heavy_loop instructions_left m end_pc t (cast u64 (insn_addr + insn_size))
      else Some (insn_addr, t)
  end.

Definition max_number_of_instructions : nat := 200.

(** ** Modes *)
Inductive TranslationMode :=
  | kInterpretOnly
  | kLiteTranslateOrFallbackToInterpret
  | kHeavyOptimizeOrFallbackToInterpret
  | kHeavyOptimizeOrFallbackToLiteTranslator
  | kLiteTranslateThenHeavyOptimize.
Abbreviation kTwoGear := kLiteTranslateThenHeavyOptimize (only parsing).
#[export] Instance TranslationMode_eq_dec : EqDecision TranslationMode.
Proof. solve_decision. Defined.

Inductive TranslationGear := kFirst | kSecond.
#[export] Instance TranslationGear_eq_dec : EqDecision TranslationGear.
Proof. solve_decision. Defined.

Definition kTranslationModeNames : list (string * TranslationMode) :=
  [("interpret-only", kInterpretOnly);
   ("lite-translate-or-interpret", kLiteTranslateOrFallbackToInterpret);
   ("heavy-optimize-or-interpret", kHeavyOptimizeOrFallbackToInterpret);
   ("heavy-optimize-or-lite-translate", kHeavyOptimizeOrFallbackToLiteTranslator);
   ("two-gear", kTwoGear)]%string.

(** The configured mode, or the present one; [None] for an unknown name, which
    is fatal. *)
Definition UpdateTranslationMode (config_mode : option string) (g_translation_mode : TranslationMode)
    : option TranslationMode :=
  match config_mode with
  | None => Some g_translation_mode
  | Some name =>
      match List.find (fun r => String.eqb name r.1) kTranslationModeNames with
      | Some r => Some r.2
      | None => None
      end
  end.

(** ** Regions *)
Section Regions.
Context (kGuestPageSizeLog2 : Z) (g_translation_mode : TranslationMode).
Context {MC Lite Heavy : Type} `{InsnTranslator Lite MC} `{InsnTranslator Heavy MC} `{HostEntries}.
#[local] Abbreviation PM := (prog MC).

Definition GetRiscv64InsnSize (pc : Z) : PM Z :=
  ReadMemory (fun m =>
    parcel ← or_crash (FaultyLoad m pc 2);
    if negb (Z.land parcel 3 =? 3) then mret 2 else mret 4).

Definition kMinimumInsnSize : Z := 2.
Definition IsPcExecutable (pc : Z) : PM (bool * Z) :=
  AskExecutable pc kMinimumInsnSize (fun executable =>
    if negb executable then mret (false, kMinimumInsnSize)
    else
      first_insn_size ← GetRiscv64InsnSize pc;
      if kMinimumInsnSize <? first_insn_size then
        AskExecutable (cast u64 (pc + kMinimumInsnSize)) (first_insn_size - kMinimumInsnSize) (fun executable =>
          if negb executable then mret (false, first_insn_size) else mret (true, first_insn_size))
      else mret (true, first_insn_size)).

Definition GetExecutableRegionSize (pc : Z) : PM Z :=
  AskRegionSize pc (kGuestPageSize kGuestPageSizeLog2) (fun '(is_exec, exec_size) =>
    _ ← prog_check is_exec; mret exec_size).

(** [counter] is the counter that the translated code increments, if any. *)
Definition TryLiteTranslateRegion (start_pc end_pc : Z) (counter : option nat) : PM (bool * Z * MC) :=
  _ ← prog_check (start_pc <? end_pc);
  _ ← (match counter with Some p => ClearCounter p (mret tt) | None => mret tt end);
  ReadMemory (fun m =>
    '(success, stop_pc, t) ← or_crash (lite_loop (region_fuel start_pc end_pc) m end_pc
                                         (tr_new (L := Lite) counter start_pc) start_pc);
    mret (success, stop_pc, tr_code t)).

(** A translated region: its code, its size and its kind; [None] when not even
    one instruction could be translated. *)
Definition TryLiteTranslateAndInstallRegion (pc : Z) (counter : option nat)
    : PM (option (HostCodePiece * Z * Kind.t)) :=
  exec_size ← GetExecutableRegionSize pc;
  let end_pc := cast u64 (pc + exec_size) in
  '(success, stop_pc, machine_code) ← TryLiteTranslateRegion pc end_pc counter;
  let size := cast u64 (stop_pc - pc) in
  if success : bool then
    Install machine_code (fun piece => mret (Some (piece, size, Kind.kLiteTranslated)))
  else if size =? 0 then mret None
  else
    let end_pc := stop_pc in
    '(success, stop_pc, another_machine_code) ← TryLiteTranslateRegion pc end_pc counter;
    _ ← prog_check success;
    _ ← prog_check (stop_pc =? end_pc);
    Install another_machine_code (fun piece => mret (Some (piece, size, Kind.kLiteTranslated))).

Definition HeavyOptimizeRegion (pc end_pc : Z) : PM (Z * bool * MC) :=
  ReadMemory (fun m =>
    '(stop_pc, t) ← or_crash (heavy_loop max_number_of_instructions m end_pc (tr_new (L := Heavy) None pc) pc);
    let t := tr_finalize stop_pc t in
    mret (stop_pc, tr_success t, tr_code t)).

Definition HeavyOptimizeAndInstallRegion (pc : Z) : PM (option (HostCodePiece * Z * Kind.t)) :=
  exec_size ← GetExecutableRegionSize pc;
  '(stop_pc, success, machine_code) ← HeavyOptimizeRegion pc (cast u64 (pc + exec_size));
  let size := cast u64 (stop_pc - pc) in
  if negb success && (size =? 0) then mret None
  else Install machine_code (fun piece => mret (Some (piece, size, Kind.kHeavyOptimized))).

(** What is published when nothing could be translated. *)
Definition interpret_first (first_insn_size : Z) : HostCodePiece * Z * Kind.t :=
  (mkHostCodePiece kEntryInterpret 0, first_insn_size, Kind.kInterpreted).
Definition or_interpret (first_insn_size : Z) (r : option (HostCodePiece * Z * Kind.t))
    : HostCodePiece * Z * Kind.t :=
  default (interpret_first first_insn_size) r.

(** The translators a mode tries for the region of a locked entry, in turn. *)
Definition TranslateCode (gear : TranslationGear) (pc : Z) (entry : nat) (first_insn_size : Z)
    : PM (HostCodePiece * Z * Kind.t) :=
  match g_translation_mode, gear with
  | kInterpretOnly, _ => mret (interpret_first first_insn_size)
  | kLiteTranslateOrFallbackToInterpret, _ =>
      r ← TryLiteTranslateAndInstallRegion pc None; mret (or_interpret first_insn_size r)
  | kLiteTranslateThenHeavyOptimize, kFirst =>
      r ← TryLiteTranslateAndInstallRegion pc (Some entry);
      match r with
      | Some region => mret region
      | None => r ← HeavyOptimizeAndInstallRegion pc; mret (or_interpret first_insn_size r)
      end
  | kHeavyOptimizeOrFallbackToInterpret, _ | kLiteTranslateThenHeavyOptimize, kSecond =>
      r ← HeavyOptimizeAndInstallRegion pc; mret (or_interpret first_insn_size r)
  | kHeavyOptimizeOrFallbackToLiteTranslator, _ =>
      r ← HeavyOptimizeAndInstallRegion pc;
      match r with
      | Some region => mret region
      | None => r ← TryLiteTranslateAndInstallRegion pc None; mret (or_interpret first_insn_size r)
      end
  end.

Definition TranslateLocked (gear : TranslationGear) (pc : Z) (entry : nat) : PM unit :=
  '(is_executable, first_insn_size) ← IsPcExecutable pc;
  if negb is_executable then
    Unlock pc entry (cast u32 first_insn_size) Kind.kSpecialHandler (mkHostCodePiece kEntryNoExec 0) (mret tt)
  else
    '(host_code_piece, size, kind) ← TranslateCode gear pc entry first_insn_size;
    Unlock pc entry (cast u32 size) kind host_code_piece (mret tt).

Definition TranslateRegion (gear : TranslationGear) (pc : Z) : PM unit :=
  entry ← (match gear with
           | kFirst => AddAndLock pc 0 mret
           | kSecond => _ ← prog_check (bool_decide (g_translation_mode = kTwoGear)); LockGearUp pc mret
           end);
  match entry with
  | None => mret tt
  | Some entry => TranslateLocked gear pc entry
  end.
End Regions.

(** ** The loops *)

Lemma some_pair_snd {A B} (x : A * B) a b : Some x = Some (a, b) -> b = x.2.
Proof. by intros [= ->]. Qed.

Lemma fetch_Decode_size m pc code calls n :
  Interpreter.fetch m pc = Some code -> Decode code = Some (calls, n) -> n = 2 \/ n = 4.
Proof.
  intros _; unfold Decode; destruct code as [| parcel rest]; [done |]; destruct (_ =? 2).
  - intros ->%some_pair_snd; left; reflexivity.
  - destruct rest; [discriminate |]; intros ->%some_pair_snd; right; reflexivity.
Qed.

Section Loops.
Context `{InsnTranslatorOk L MC}.
Implicit Types (t : L) (m : Memory).

(** Addresses of instructions are even, and far from the end of the address space. *)
Definition loop_range (addr end_pc : Z) : Prop :=
  0 <= addr /\ (2 | addr) /\ (2 | end_pc) /\ end_pc + 2 < 2 ^ 64.

Lemma loop_next addr end_pc n :
  loop_range addr end_pc -> addr < end_pc -> n = 2 \/ n = 4 ->
  cast u64 (addr + n) = addr + n /\ loop_range (addr + n) end_pc /\ addr + n <= end_pc + 2.
Proof.
  intros (Hpos & [x ->] & [y ->] & Hmax) Hlt Hn; assert (x + 1 <= y) by lia.
  assert (x * 2 + n <= y * 2 + 2) by lia; split_and!; [| split_and!; try done; try lia | done].
  - apply cast_id; [done |]; rewrite in_range_unsigned by done; change (width u64) with 64; lia.
  - destruct Hn as [-> | ->]; [exists (x + 1) | exists (x + 2)]; lia.
  - by exists y.
Qed.

(** The loop stops at most two bytes after the end of the region: the last
    instruction may straddle it. *)
Lemma lite_loop_bounds fuel m end_pc t addr success stop t' :
  loop_range addr end_pc -> lite_loop fuel m end_pc t addr = Some (success, stop, t') ->
  addr <= stop <= Z.max addr (end_pc + 2) /\ (2 | stop).
Proof.
  revert t addr; induction fuel as [| fuel IH]; intros t addr Hr; cbn [lite_loop];
    destruct ((addr <? end_pc) && negb (tr_region_end addr t)) eqn:E.
  - done.
  - intros [= <- <- <-]; split; [lia | apply Hr].
  - destruct (Interpreter.fetch m addr) as [code |] eqn:Ef; [| discriminate]; cbn [mbind option_bind].
    destruct (Decode code) as [[calls n] |] eqn:Ed; [| discriminate]; cbn [mbind option_bind].
    pose proof (fetch_Decode_size _ _ _ _ _ Ef Ed) as Hn.
    apply andb_true_iff in E as [Hlt%Z.ltb_lt _]; destruct (loop_next _ _ _ Hr Hlt Hn) as (-> & Hr' & Hle).
    case_match; [intros [= <- <- <-]; split; [lia | apply Hr] |].
    intros Hl%IH; [| done]; destruct Hl as [? ?]; split; [lia | done].
  - intros [= <- <- <-]; split; [lia | apply Hr].
Qed.

Lemma heavy_loop_bounds fuel m end_pc t addr stop t' :
  loop_range addr end_pc -> heavy_loop fuel m end_pc t addr = Some (stop, t') ->
  addr <= stop <= Z.max addr (end_pc + 2) /\ (2 | stop).
Proof.
  revert t addr; induction fuel as [| fuel IH]; intros t addr Hr; cbn [heavy_loop].
  { intros [= <- <-]; split; [lia | apply Hr]. }
  destruct ((addr <? end_pc) && negb (tr_region_end addr t)) eqn:E; [| intros [= <- <-]; split; [lia | apply Hr]].
  destruct (Interpreter.fetch m addr) as [code |] eqn:Ef; [| discriminate]; cbn [mbind option_bind].
  destruct (Decode code) as [[calls n] |] eqn:Ed; [| discriminate]; cbn [mbind option_bind].
  pose proof (fetch_Decode_size _ _ _ _ _ Ef Ed) as Hn.
  apply andb_true_iff in E as [Hlt%Z.ltb_lt _]; destruct (loop_next _ _ _ Hr Hlt Hn) as (-> & Hr' & Hle).
  case_match; [intros [= <- <-]; split; [lia | apply Hr] |].
  intros Hl%IH; [| done]; destruct Hl as [? ?]; split; [lia | done].
Qed.

(** One turn of the loop. *)
Lemma lite_loop_turn fuel m end_pc t addr success stop t' :
  loop_range addr end_pc -> addr < end_pc -> tr_region_end addr t = false ->
  lite_loop fuel m end_pc t addr = Some (success, stop, t') ->
  exists fuel' code calls n, fuel = S fuel' /\ Interpreter.fetch m addr = Some code
  /\ Decode code = Some (calls, n) /\ (n = 2 \/ n = 4)
  /\ (tr_success (tr_play calls addr t) = false /\ success = false /\ stop = addr
      \/ tr_success (tr_play calls addr t) = true
         /\ lite_loop fuel' m end_pc (tr_free_temp_regs (tr_play calls addr t)) (addr + n)
            = Some (success, stop, t')).
Proof.
  intros Hr Hlt Hopen; destruct fuel as [| fuel]; cbn [lite_loop]; rewrite Hopen, (proj2 (Z.ltb_lt _ _) Hlt);
    [discriminate | cbn [andb negb]].
  destruct (Interpreter.fetch m addr) as [code |] eqn:Ef; [| discriminate]; cbn [mbind option_bind].
  destruct (Decode code) as [[calls n] |] eqn:Ed; [| discriminate]; cbn [mbind option_bind].
  pose proof (fetch_Decode_size _ _ _ _ _ Ef Ed) as Hn; destruct (loop_next _ _ _ Hr Hlt Hn) as (-> & _ & _).
  intros Hl; exists fuel, code, calls, n; split_and!; try done.
  destruct (tr_success (tr_play calls addr t)); [by right | left; by injection Hl as <- <- <-].
Qed.

(** A success is at least one instruction. *)
Lemma lite_success_size fuel m end_pc counter pc stop t' :
  loop_range pc end_pc -> pc < end_pc ->
  lite_loop fuel m end_pc (tr_new counter pc) pc = Some (true, stop, t') -> pc + 2 <= stop.
Proof.
  intros Hr Hlt Hl; destruct (lite_loop_turn _ _ _ _ _ _ _ _ Hr Hlt (tr_new_open counter pc) Hl)
    as (fuel' & code & calls & n & _ & _ & _ & Hn & [(_ & ? & _) | (_ & Hl')]); [done |].
  destruct (loop_next _ _ _ Hr Hlt Hn) as (_ & Hr' & _).
  apply lite_loop_bounds in Hl' as [? _]; [lia | done].
Qed.

(** If the heavy optimizer made no step, the first instruction failed. *)
Lemma heavy_failure left m end_pc counter pc stop t' :
  loop_range pc end_pc -> pc < end_pc ->
  heavy_loop (S left) m end_pc (tr_new counter pc) pc = Some (stop, t') ->
  stop = pc -> tr_success t' = false.
Proof.
  intros Hr Hlt; cbn [heavy_loop].
  rewrite tr_new_open, (proj2 (Z.ltb_lt _ _) Hlt); cbn [andb negb].
  destruct (Interpreter.fetch m pc) as [code |] eqn:Ef; [| discriminate]; cbn [mbind option_bind].
  destruct (Decode code) as [[calls n] |] eqn:Ed; [| discriminate]; cbn [mbind option_bind].
  pose proof (fetch_Decode_size _ _ _ _ _ Ef Ed) as Hn; destruct (loop_next _ _ _ Hr Hlt Hn) as (-> & Hr' & _).
  destruct (tr_success _) eqn:Es; [| by intros [= <- <-]].
  intros [Hb _]%heavy_loop_bounds ->; [lia | done].
Qed.

(** When an instruction fails, a second pass up to it succeeds. *)
Lemma lite_second_pass fuel fuel2 m end_pc t addr stop t' :
  loop_range addr end_pc -> tr_success t = true ->
  lite_loop fuel m end_pc t addr = Some (false, stop, t') -> (Z.to_nat (stop - addr) < fuel2)%nat ->
  exists t2, lite_loop fuel2 m stop t addr = Some (true, stop, t2).
Proof.
  revert fuel2 t addr; induction fuel as [| fuel IH]; intros fuel2 t addr Hr Ht Hl Hfuel.
  all: destruct (decide (addr < end_pc /\ tr_region_end addr t = false)) as [[Hlt Hopen] | Hend].
  2, 4: cbn [lite_loop] in Hl;
    replace ((addr <? end_pc) && negb (tr_region_end addr t)) with false in Hl
      by (destruct (Z.ltb_spec addr end_pc), (tr_region_end addr t); try done; exfalso; tauto);
    rewrite tr_finalize_success, Ht in Hl; discriminate.
  1: cbn [lite_loop] in Hl; rewrite Hopen, (proj2 (Z.ltb_lt _ _) Hlt) in Hl; discriminate.
  destruct (lite_loop_turn _ _ _ _ _ _ _ _ Hr Hlt Hopen Hl) as (f & code & calls & n & [= <-] & Ef & Ed & Hn & Hcase).
  destruct (loop_next _ _ _ Hr Hlt Hn) as (Hc & Hr' & _).
  destruct Hcase as [(_ & _ & ->) | (Hs & Hl')].
  { exists (tr_finalize addr t); destruct fuel2; cbn [lite_loop]; rewrite Z.ltb_irrefl; cbn;
      by rewrite tr_finalize_success, Ht. }
  pose proof (lite_loop_bounds _ _ _ _ _ _ _ _ Hr' Hl') as [Hb _].
  destruct fuel2 as [| fuel2]; [lia |].
  destruct (IH fuel2 _ _ Hr' ltac:(by rewrite tr_free_success) Hl' ltac:(lia)) as [t2 Ht2]; exists t2.
  cbn [lite_loop]; rewrite Hopen, (proj2 (Z.ltb_lt addr stop)) by lia; cbn [andb negb].
  rewrite Ef; cbn [mbind option_bind]; rewrite Ed; cbn [mbind option_bind]; rewrite Hs, Hc; exact Ht2.
Qed.

(** An instruction can be read at every even address. *)
Definition readable m (addr end_pc : Z) : Prop :=
  forall a, addr <= a < end_pc -> (2 | a) -> exists code calls n,
    Interpreter.fetch m a = Some code /\ Decode code = Some (calls, n).

(** The fuel is enough: with readable memory the loop ends. *)
Lemma lite_loop_ends fuel m end_pc t addr :
  loop_range addr end_pc -> (Z.to_nat (end_pc - addr) < fuel)%nat ->
  readable m addr end_pc -> is_Some (lite_loop fuel m end_pc t addr).
Proof.
  revert t addr; induction fuel as [| fuel IH]; intros t addr Hr Hfuel Hread; [lia |]; cbn [lite_loop].
  destruct ((addr <? end_pc) && negb (tr_region_end addr t)) eqn:E; [| eauto].
  apply andb_true_iff in E as [Hlt%Z.ltb_lt _].
  destruct (Hread addr) as (code & calls & n & Ef & Ed); [lia | apply Hr |]; rewrite Ef; cbn [mbind option_bind]; rewrite Ed; cbn [mbind option_bind].
  pose proof (fetch_Decode_size _ _ _ _ _ Ef Ed) as Hn; destruct (loop_next _ _ _ Hr Hlt Hn) as (-> & Hr' & _).
  destruct (tr_success _); cbn; [| eauto]; apply IH; [done | lia | intros a Ha; apply Hread; lia].
Qed.

(** The two passes of the lite translator.  From an even address before the
    end of the region, with readable memory, the first pass ends within its
    fuel, and stops at most two bytes after the end; a successful pass has
    translated an instruction.  If it fails after some instructions, the second
    pass, up to the instruction that failed, succeeds and stops exactly there, so
    that the two checks after it hold. *)
Theorem lite_passes m end_pc counter pc :
  loop_range pc end_pc -> pc < end_pc -> readable m pc end_pc ->
  exists success stop t,
    lite_loop (region_fuel pc end_pc) m end_pc (tr_new counter pc) pc = Some (success, stop, t)
    /\ pc <= stop <= end_pc + 2
    /\ (success = true -> pc < stop)
    /\ (success = false -> exists t2,
          lite_loop (region_fuel pc stop) m stop (tr_new counter pc) pc = Some (true, stop, t2)).
Proof.
  intros Hr Hlt Hread; unfold region_fuel.
  destruct (lite_loop_ends (S (Z.to_nat (end_pc - pc))) m end_pc (tr_new counter pc) pc Hr) as [[[success stop] t] El];
    [lia | done |].
  exists success, stop, t; split_and!; [done | apply lite_loop_bounds in El as [? _]; [lia | done].. | |].
  - intros ->; apply lite_success_size in El; [lia | done | done].
  - intros ->; eapply lite_second_pass; [done | apply tr_new_success | exact El | lia].
Qed.
End Loops.

(** ** A code generator *)

(** It translates every instruction but undefined ones. *)
Definition example_translator : InsnTranslator bool unit := {|
  tr_new _ _ := true;
  tr_start_insn t := t;
  tr_play calls _ t := match calls with [Undefined] => false | _ => t end;
  tr_free_temp_regs t := t;
  tr_success t := t;
  tr_region_end _ _ := false;
  tr_finalize _ t := t;
  tr_code _ := tt
|}.
Lemma example_translator_ok : @InsnTranslatorOk bool unit example_translator.
Proof. by split. Qed.

(** Two compressed no-operations, and four bytes that are not an instruction. *)
Definition example_memory : Memory := store_bytes ∅ 0x1ffa [1; 0; 1; 0; 0x7f; 0; 0; 0].

Lemma lite_passes_witness :
  exists stop t, @lite_loop bool unit example_translator (region_fuel 0x1ffa 0x2000) example_memory 0x2000 true 0x1ffa
    = Some (false, stop, t).
Proof.
  destruct (@lite_passes bool unit example_translator example_translator_ok example_memory 0x2000 None 0x1ffa)
    as (success & stop & t & E & _).
  - split_and!; [lia | by exists 0xffd | by exists 0x1000 | lia].
  - lia.
  - assert (forall a code, Interpreter.fetch example_memory a = Some code -> is_Some (Decode code) ->
      exists code calls n, Interpreter.fetch example_memory a = Some code /\ Decode code = Some (calls, n)) as Hread.
    { intros a code Hf [[calls n] Hd]; exists code, calls, n; split; [exact Hf | exact Hd]. }
    intros a Ha [y Hy]; assert (a = 0x1ffa \/ a = 0x1ffc \/ a = 0x1ffe) as [-> | [-> | ->]] by lia.
    + apply (Hread _ [1]); [vm_compute; reflexivity | vm_compute; eexists; reflexivity].
    + apply (Hread _ [1]); [vm_compute; reflexivity | vm_compute; eexists; reflexivity].
    + apply (Hread _ [0x7f; 0]); [vm_compute; reflexivity | vm_compute; eexists; reflexivity].
  - destruct success; [vm_compute in E; discriminate | exists stop, t; exact E].
Defined.
