(* ===== verification/ExecutableCode.v ===== *)
(** * Only executable memory is translated

    The composition of the translators (file Translator) with the translation
    cache and the map of executable memory, for any number of threads.  Threads
    translate regions; at the same time other threads take executability away
    from pages and invalidate the translations ([ClearExecutable], page by page),
    make pages executable, wrap functions, invalidate other ranges and so on.

    Every call of a translation is one step, and so is every change of one page:
    the map keeps the bits of eight pages in a byte, and reading and writing that
    byte is taken to be one access. *)
From stdpp Require Import gmap.
From S2P Require Import Prelude MachineInt BitUtil Effects TableOfTables TranslationCache TranslationCacheProps CacheProtocol GuestMapShadow RiscvInsn RiscvDecoder GuestState Interpreter Translator.
#[local] Open Scope Z_scope.

Section Composition.
Context {A P : Type} `{AddressMapOk A P} `{HostEntriesOk}.
Context {MC Lite Heavy : Type} `{InsnTranslatorOk Lite MC} `{InsnTranslatorOk Heavy MC}.
Context (k : Z) (Hk : 1 <= k <= 16) (mode : TranslationMode).

#[local] Abbreviation translate := (TranslateRegion k mode (Lite := Lite) (Heavy := Heavy)).

(** ** What a translation does *)

(** What a translating thread has: the entry it holds, with its address, and the
    bytes it has seen to be executable since it has got it. *)
Record Ghost := mkGhost { holding : option (nat * Z); known : Z -> Prop }.
Definition no_ghost : Ghost := mkGhost None (fun _ => False).
Definition locked (pc : Z) (r : option nat) : Ghost := mkGhost ((fun p => (p, pc)) <$> r) (fun _ => False).
Definition learn (executable : bool) (start size : Z) (g : Ghost) : Ghost :=
  mkGhost (holding g) (fun a => known g a \/ executable = true /\ start <= a < start + size).

(** The program uses the cache as its protocol demands, whatever the answers to
    its calls are, and what it publishes covers only bytes it has seen to be
    executable, the last two apart. *)
Fixpoint lawful {B} (t : prog MC B) (g : Ghost) (Q : B -> Ghost -> Prop) : Prop :=
  match t with
  | Ret b => Q b g
  | Crash => True
  | AddAndLock pc threshold cont =>
      holding g = None /\ valid_pc pc /\ 0 <= threshold < 2 ^ 32 /\ forall r, lawful (cont r) (locked pc r) Q
  | LockGearUp pc cont => holding g = None /\ forall r, lawful (cont r) (locked pc r) Q
  | Unlock pc p gsize kind piece cont =>
      holding g = Some (p, pc) /\ 0 < gsize < 2 ^ 32 /\ finished_kind kind /\ publishable (code piece)
      /\ (code piece <> kEntryNoExec -> forall a, pc <= a < pc + gsize - 2 -> known g a)
      /\ lawful cont no_ghost Q
  | ClearCounter p cont => (exists pc, holding g = Some (p, pc)) /\ lawful cont g Q
  | AskExecutable start size cont =>
      fits_range k start size /\ forall b, lawful (cont b) (learn b start size g) Q
  | AskRegionSize start size cont =>
      fits_range k start size
      /\ forall b r, 0 < r <= size + kGuestPageSize k -> aligned k (start + r) ->
         lawful (cont (b, r)) (learn b start r g) Q
  | ReadMemory cont => forall m, lawful (cont m) g Q
  | Install code' cont => forall piece, publishable (code piece) -> lawful (cont piece) g Q
  end.

Lemma lawful_bind {B C} (t : prog MC B) (f : B -> prog MC C) g Q :
  lawful t g (fun b g' => lawful (f b) g' Q) -> lawful (t ≫= f) g Q.
Proof.
  revert g; induction t as [b | | pc th cont IH | pc cont IH | pc p n kd piece cont IH | p cont IH
    | start size cont IH | start size cont IH | cont IH | c cont IH]; intros g; cbn [lawful];
    [done | done | ..].
  - intros (? & ? & ? & Ht); split_and!; try done; try lia; intros; by apply IH.
  - intros [? Ht]; split; [done |]; intros; by apply IH.
  - intros (? & ? & ? & ? & ? & Ht); split_and!; try done; try lia; by apply IH.
  - intros [? Ht]; split; [done |]; by apply IH.
  - intros [? Ht]; split; [done |]; intros; by apply IH.
  - intros [? Ht]; split; [done |]; intros; apply IH; by apply Ht.
  - intros Ht m; by apply IH.
  - intros Ht piece Hp; by apply IH, Ht.
Qed.

Lemma lawful_check {C} b (f : unit -> prog MC C) g Q :
  (b = true -> lawful (f tt) g Q) -> lawful (prog_check b ≫= f) g Q.
Proof. intros Ht; destruct b; [by apply Ht | done]. Qed.
Lemma lawful_or_crash {B C} (o : option B) (f : B -> prog MC C) g Q :
  (forall b, o = Some b -> lawful (f b) g Q) -> lawful (or_crash o ≫= f) g Q.
Proof. intros Ht; destruct o; [by apply Ht | done]. Qed.

(** ** Regions *)

Lemma publishable_handlers : publishable kEntryInterpret /\ publishable kEntryNoExec.
Proof.
  pose proof special_entries_NoDup as Hn; unfold publishable.
  rewrite !NoDup_cons, !elem_of_cons, !elem_of_nil in Hn; destruct Hn as (Hi & _ & Hs & Hx & _).
  split; rewrite !elem_of_cons, elem_of_nil; intuition congruence.
Qed.

(** A pc of the guest. *)
Definition guest_pc (pc : Z) : Prop := valid_pc pc /\ (2 | pc).

Lemma page_range : 2 <= kGuestPageSize k <= 2 ^ 16.
Proof using Hk.
  unfold kGuestPageSize; split; [| apply Z.pow_le_mono_r; lia].
  change 2 with (2 ^ 1) at 1; apply Z.pow_le_mono_r; lia.
Qed.

Lemma aligned_even a : aligned k a -> (2 | a).
Proof using Hk.
  intros Ha%Z.mod_divide; [| pose proof page_range; lia]; etransitivity; [| exact Ha].
  unfold kGuestPageSize; exists (2 ^ (k - 1)); rewrite Z.mul_comm, <- Z.pow_succ_r by lia; f_equal; lia.
Qed.

Lemma small_range x : 0 <= x < 2 ^ 32 -> cast u64 x = x /\ cast u32 x = x.
Proof.
  intros Hx; split; apply cast_id; try done; rewrite in_range_unsigned by done; [change (width u64) with 64; lia | done].
Qed.
Lemma address_range x : 0 <= x < 2 ^ 49 -> cast u64 x = x.
Proof. intros Hx; apply cast_id; [done |]; rewrite in_range_unsigned by done; change (width u64) with 64; lia. Qed.

(** The thread holds the same entry and has learned more. *)
Definition extends (g g' : Ghost) : Prop := holding g' = holding g /\ forall a, known g a -> known g' a.
#[local] Instance extends_preorder : PreOrder extends.
Proof. split; [by split | intros g1 g2 g3 [? ?] [? ?]; split; [congruence | auto]]. Qed.
Lemma extends_learn b start size g : extends g (learn b start size g).
Proof. split; [done |]; intros a Ha; by left. Qed.

Lemma lawful_IsPcExecutable {C} pc (f : bool * Z -> prog MC C) g Q :
  guest_pc pc ->
  (forall b n g', n = 2 \/ n = 4 -> extends g g' -> (b = true -> forall a, pc <= a < pc + n -> known g' a) ->
     lawful (f (b, n)) g' Q) ->
  lawful (IsPcExecutable pc ≫= f) g Q.
Proof using Hk.
  intros [[? ?] _] Hf; pose proof page_range; apply lawful_bind; unfold IsPcExecutable; cbn [lawful].
  split; [unfold fits_range, kMinimumInsnSize; lia |]; intros [|]; cbn [negb].
  2: { apply Hf; [by left | apply extends_learn | done]. }
  apply lawful_bind; intros m; apply lawful_or_crash; intros parcel _.
  destruct (negb _); cbn [lawful mret prog_ret]; cbn [Z.ltb Z.compare Pos.compare Pos.compare_cont kMinimumInsnSize].
  - apply Hf; [by left | apply extends_learn |]; intros _ a Ha; right; unfold kMinimumInsnSize; lia.
  - cbn [lawful]; rewrite address_range by (unfold kMinimumInsnSize; lia).
    split; [unfold fits_range, kMinimumInsnSize; lia |]; intros b.
    destruct b; cbn [negb lawful mret prog_ret]; apply Hf; try (by right); try (etransitivity; apply extends_learn); try done.
    intros _ a Ha; unfold kMinimumInsnSize; cbn; destruct (Z.lt_ge_cases a (pc + 2)); [left; right | right]; lia.
Qed.

Lemma lawful_RegionSize {C} pc (f : Z -> prog MC C) g Q :
  guest_pc pc ->
  (forall r g', 0 < r <= 2 ^ 17 -> aligned k (pc + r) -> extends g g' -> (forall a, pc <= a < pc + r -> known g' a) ->
     lawful (f r) g' Q) ->
  lawful (GetExecutableRegionSize k pc ≫= f) g Q.
Proof using Hk.
  intros [[? ?] _] Hf; pose proof page_range; apply lawful_bind; unfold GetExecutableRegionSize; cbn [lawful].
  split; [unfold fits_range; lia |]; intros b r Hr Ha; apply lawful_check; intros ->; cbn [lawful mret prog_ret].
  apply Hf; [lia | done | apply extends_learn |]; intros a Hin; by right.
Qed.

(** A region that may be published. *)
Definition region_ok (pc : Z) (g : Ghost) (r : HostCodePiece * Z * Kind.t) : Prop :=
  0 < r.1.2 < 2 ^ 32 /\ publishable (code r.1.1) /\ finished_kind r.2
  /\ forall a, pc <= a < pc + r.1.2 - 2 -> known g a.

Lemma lawful_LitePass {C} pc end_pc counter (f : bool * Z * MC -> prog MC C) g Q :
  guest_pc pc -> (2 | end_pc) -> pc < end_pc <= 2 ^ 48 + 2 ^ 18 ->
  (forall p, counter = Some p -> holding g = Some (p, pc)) ->
  (forall success stop mc, pc <= stop <= end_pc + 2 -> (2 | stop) -> (success = true -> pc < stop) ->
     lawful (f (success, stop, mc)) g Q) ->
  lawful (TryLiteTranslateRegion pc end_pc counter (Lite := Lite) ≫= f) g Q.
Proof.
  intros [[? ?] ?] He Hlt Hc Hf; unfold TryLiteTranslateRegion.
  apply lawful_bind, lawful_check; intros _.
  assert (loop_range pc end_pc) as Hr by (unfold loop_range; split_and!; [lia | done | done | lia]).
  assert (lawful (ReadMemory (fun m =>
    '(success, stop_pc, t) ← or_crash (lite_loop (region_fuel pc end_pc) m end_pc (tr_new (L := Lite) counter pc) pc);
    mret (success, stop_pc, tr_code t))) g (fun b g' => lawful (f b) g' Q)) as Hread.
  { intros m; apply lawful_or_crash; intros [[success stop] t] El; apply Hf.
    - apply lite_loop_bounds in El as [? _]; [lia | done].
    - by apply lite_loop_bounds in El as [_ ?].
    - intros ->; apply lite_success_size in El; [lia | done | lia]. }
  destruct counter as [p |]; [| exact Hread].
  split; [exists pc; by apply Hc | exact Hread].
Qed.

Definition result_ok (pc : Z) (g : Ghost) (r : option (HostCodePiece * Z * Kind.t)) : Prop :=
  match r with Some region => region_ok pc g region | None => True end.

(** The code of the region up to [stop], of which all but the last two bytes are known. *)
Lemma lawful_Install pc stop mc kd g (Q : option (HostCodePiece * Z * Kind.t) -> Ghost -> Prop) :
  valid_pc pc -> pc < stop <= pc + 2 ^ 17 + 2 -> finished_kind kd ->
  (forall a, pc <= a < stop - 2 -> known g a) ->
  (forall r, result_ok pc g r -> Q r g) ->
  lawful (Install mc (fun piece => mret (Some (piece, cast u64 (stop - pc), kd)))) g Q.
Proof.
  intros [? ?] Hs Hkd Ha HQ piece Hp; cbn [lawful mret prog_ret]; apply HQ.
  rewrite (proj1 (small_range (stop - pc) ltac:(lia))).
  split_and!; cbn; try done; try lia; intros a Hin; apply Ha; lia.
Qed.

Lemma lawful_Lite {C} pc counter (f : option (HostCodePiece * Z * Kind.t) -> prog MC C) g Q :
  guest_pc pc -> (forall p, counter = Some p -> holding g = Some (p, pc)) ->
  (forall r g', extends g g' -> result_ok pc g' r -> lawful (f r) g' Q) ->
  lawful (TryLiteTranslateAndInstallRegion k pc counter (Lite := Lite) ≫= f) g Q.
Proof using All.
  intros Hpc Hc Hf; pose proof Hpc as [[? ?] ?]; unfold TryLiteTranslateAndInstallRegion.
  apply lawful_bind, lawful_RegionSize; [done |]; intros r g' Hr Ha%aligned_even Hx Hkn.
  assert (forall p, counter = Some p -> holding g' = Some (p, pc)) as Hc'
    by (intros p Hp; rewrite (proj1 Hx); auto).
  rewrite (address_range (pc + r)) by lia; apply lawful_LitePass; [done | done | lia | done |].
  assert (finished_kind Kind.kLiteTranslated) by (by split_and!).
  intros success stop mc Hs Hev Hpos.
  assert (forall mc', pc < stop -> lawful (Install mc' (fun piece =>
    mret (Some (piece, cast u64 (stop - pc), Kind.kLiteTranslated)))) g' (fun r g'' => lawful (f r) g'' Q)) as Hinst.
  { intros mc' Hlt; apply lawful_Install; [split; lia | lia | done | intros; apply Hkn; lia |].
    intros r' Hr'; by apply Hf. }
  destruct success; [by apply Hinst, Hpos |].
  rewrite (proj1 (small_range (stop - pc) ltac:(lia))); destruct (Z.eqb_spec (stop - pc) 0) as [E | E].
  { by apply Hf. }
  rewrite <- (proj1 (small_range (stop - pc) ltac:(lia))).
  apply lawful_LitePass; [done | done | lia | done |]; intros success stop' mc' _ _ _.
  apply lawful_check; intros _; apply lawful_check; intros _; apply Hinst; lia.
Qed.

#[local] Strategy 100 [max_number_of_instructions heavy_loop].

Lemma lawful_Heavy {C} pc (f : option (HostCodePiece * Z * Kind.t) -> prog MC C) g Q :
  guest_pc pc -> (forall r g', extends g g' -> result_ok pc g' r -> lawful (f r) g' Q) ->
  lawful (HeavyOptimizeAndInstallRegion k pc (Heavy := Heavy) ≫= f) g Q.
Proof using All.
  intros Hpc Hf; pose proof Hpc as [[? ?] ?]; unfold HeavyOptimizeAndInstallRegion.
  apply lawful_bind, lawful_RegionSize; [done |]; intros r g' Hr Ha%aligned_even Hx Hkn.
  rewrite (address_range (pc + r)) by lia; unfold HeavyOptimizeRegion; apply lawful_bind; intros m.
  apply lawful_or_crash; intros [stop t] El.
  assert (exists left, max_number_of_instructions = S left) as [left Eleft] by (by exists 199%nat).
  rewrite Eleft in El.
  assert (loop_range pc (pc + r)) as Hlr by (unfold loop_range; split_and!; [lia | done | done | lia]).
  pose proof (heavy_loop_bounds _ _ _ _ _ _ _ Hlr El) as [Hs _].
  pose proof (heavy_failure left _ _ _ _ _ _ Hlr ltac:(lia) El) as Hfail.
  cbn [lawful mret prog_ret]; rewrite tr_finalize_success.
  destruct (negb (tr_success t) && (cast u64 (stop - pc) =? 0)) eqn:E; [by apply Hf |].
  rewrite (proj1 (small_range (stop - pc) ltac:(lia))) in E.
  assert (pc < stop).
  { destruct (Z.eq_dec stop pc) as [Es | ?]; [exfalso | lia]; rewrite Hfail, Es, Z.sub_diag in E; done. }
  apply lawful_Install; [split; lia | lia | by split_and! | intros; apply Hkn; lia |].
  intros r' Hr'; by apply Hf.
Qed.

Lemma lawful_TranslateCode {C} gear pc p n (f : HostCodePiece * Z * Kind.t -> prog MC C) g Q :
  guest_pc pc -> holding g = Some (p, pc) -> n = 2 \/ n = 4 -> (forall a, pc <= a < pc + n -> known g a) ->
  (forall r g', extends g g' -> region_ok pc g' r -> lawful (f r) g' Q) ->
  lawful (TranslateCode k mode gear pc p n (Lite := Lite) (Heavy := Heavy) ≫= f) g Q.
Proof using All.
  intros Hpc Hh Hn Hkn Hf.
  assert (forall g', extends g g' -> lawful (f (interpret_first n)) g' Q) as Hint.
  { intros g' Hx; apply Hf; [done |]; split_and!; cbn; [lia | lia | apply publishable_handlers | done |].
    intros a Ha; apply Hx, Hkn; lia. }
  assert (forall r g', extends g g' -> result_ok pc g' r -> lawful (f (or_interpret n r)) g' Q) as Hor.
  { intros [r |] g' Hx Hr; [by apply Hf | by apply Hint]. }
  assert (forall g', extends g g' -> lawful
    (HeavyOptimizeAndInstallRegion k pc (Heavy := Heavy) ≫= fun r => mret (or_interpret n r)) g'
    (fun r g'' => lawful (f r) g'' Q)) as Hheavy.
  { intros g' Hx; apply lawful_Heavy; [done |]; intros r g'' Hx' Hr; apply Hor; [by etransitivity | done]. }
  assert (forall g', extends g g' -> lawful
    (TryLiteTranslateAndInstallRegion k pc None (Lite := Lite) ≫= fun r => mret (or_interpret n r)) g'
    (fun r g'' => lawful (f r) g'' Q)) as Hlite.
  { intros g' Hx; apply lawful_Lite; [done | done |]; intros r g'' Hx' Hr; apply Hor; [by etransitivity | done]. }
  apply lawful_bind; unfold TranslateCode; destruct mode, gear;
    first [by apply Hint | by apply Hlite | by apply Hheavy | idtac].
  1, 2: apply lawful_Heavy; [done |]; intros [r |] g' Hx Hr; [by apply Hf | by apply Hlite].
  apply lawful_Lite; [done | by intros ? [= <-] |]; intros [r |] g' Hx Hr; [by apply Hf | by apply Hheavy].
Qed.

(** [TranslateRegion] follows the protocol, and publishes only what it has seen. *)
Lemma lawful_TranslateRegion gear pc :
  guest_pc pc -> lawful (translate gear pc) no_ghost (fun _ g => holding g = None).
Proof using All.
  intros Hpc; pose proof Hpc as [Hv _]; destruct publishable_handlers as [Hint Hno].
  assert (forall r, lawful (match r with None => mret tt | Some entry =>
    TranslateLocked k mode gear pc entry (Lite := Lite) (Heavy := Heavy) end) (locked pc r)
    (fun _ g => holding g = None)) as Hmain.
  2: { destruct gear; [by split_and! |]; unfold TranslateRegion.
       apply lawful_bind, lawful_check; intros _; by split. }
  intros [p |]; [| done]; unfold TranslateLocked; apply lawful_IsPcExecutable; [done |].
  intros b n g Hn Hx Hkn; assert (cast u32 n = n) as Hc by (apply small_range; lia).
  destruct b; cbn [negb].
  - apply (lawful_TranslateCode _ _ p); try done; [by rewrite (proj1 Hx) | by apply Hkn |].
    intros [[piece size] kd] g' Hx' (Hs & Hp & Hkd & Ha); cbn in Hs, Hp, Hkd, Ha.
    rewrite (proj2 (small_range size ltac:(lia))); cbn [lawful mret prog_ret].
    split_and!; try done; try lia; rewrite (proj1 Hx'); by rewrite (proj1 Hx).
  - rewrite Hc; cbn [lawful mret prog_ret]; split_and!; try done; try lia; by rewrite (proj1 Hx).
Qed.

(** ** The threads *)

(** A thread in the loop of [ClearExecutable]. *)
Record Clearing := mkClearing { c_start : Z; c_end : Z; c_pc : Z; c_changed : bool }.

Record World := mkWorld {
  sys : CacheProtocol.System A P;
  shadow : GuestMapShadow;
  threads : gmap nat (prog MC unit);
  clears : gmap nat Clearing;
  (* a record of the ranges that lost executability in a way that no call
     invalidates: see [clear_enter] and [fork] *)
  uncovered : list (Z * Z)
}.

Definition set_thread (i : nat) (t : prog MC unit) (w : World) : World :=
  mkWorld (sys w) (shadow w) (<[i := t]> (threads w)) (clears w) (uncovered w).
Definition set_sys (s : CacheProtocol.System A P) (w : World) : World :=
  mkWorld s (shadow w) (threads w) (clears w) (uncovered w).
Definition set_map (s : GuestMapShadow) (w : World) : World :=
  mkWorld (sys w) s (threads w) (clears w) (uncovered w).
Definition set_clears (c : gmap nat Clearing) (w : World) : World :=
  mkWorld (sys w) (shadow w) (threads w) c (uncovered w).
Definition set_uncovered (l : list (Z * Z)) (w : World) : World :=
  mkWorld (sys w) (shadow w) (threads w) (clears w) l.
(** The pages a call of [ClearExecutable] works on. *)
Definition clearing_pages (c : Clearing) : Z * Z := (AlignDownGuestPageSize k (c_start c), c_end c).

(** The actions that are not part of a translation. *)
Definition other_action (act : Action) : Prop :=
  match act with
  | TryWrap _ _ | FinishWrapping _ _ _ _ _ | Invalidate _ _ | GearShift _ _ | Stop _ => True
  | _ => False
  end.

(** One step, and the event of the cache it makes.  [ClearExecutable] takes
    executability away from whole pages, but invalidates from its first argument on:
    the bytes before it in its page are not covered.  After a fork the threads of
    the parent are gone, in the middle of what they were doing. *)
Inductive step (w : World) : list Event -> World -> Prop :=
  | enter i gear pc :
      threads w !! i = None -> guest_pc pc -> step w [] (set_thread i (translate gear pc) w)
  | leave i :
      threads w !! i = Some (Ret tt) ->
      step w [] (mkWorld (sys w) (shadow w) (delete i (threads w)) (clears w) (uncovered w))
  | lock_first i pc threshold cont r c' ev s' :
      threads w !! i = Some (AddAndLock pc threshold cont) ->
      TranslationCache.AddAndLockForTranslation pc threshold (cache (sys w)) = Some (r, c') ->
      exec (TryTranslate i pc threshold) (sys w) = Some (ev, s') ->
      step w [ev] (set_sys s' (set_thread i (cont r) w))
  | lock_gear_up i pc cont r c' ev s' :
      threads w !! i = Some (LockGearUp pc cont) ->
      TranslationCache.LockForGearUpTranslation pc (cache (sys w)) = Some (r, c') ->
      exec (TryGearUp i pc) (sys w) = Some (ev, s') ->
      step w [ev] (set_sys s' (set_thread i (cont r) w))
  | unlock i pc p gsize kind piece cont ev s' :
      threads w !! i = Some (Unlock pc p gsize kind piece cont) ->
      exec (FinishTranslation i p pc gsize kind piece) (sys w) = Some (ev, s') ->
      step w [ev] (set_sys s' (set_thread i cont w))
  | clear_counter i p pc cont ev s' :
      threads w !! i = Some (ClearCounter p cont) ->
      exec (ResetCounter i p pc) (sys w) = Some (ev, s') ->
      step w [ev] (set_sys s' (set_thread i cont w))
  | ask_executable i start size cont b s' :
      threads w !! i = Some (AskExecutable start size cont) ->
      IsExecutable k start size (shadow w) = Some (b, s') ->
      step w [] (set_map s' (set_thread i (cont b) w))
  | ask_region_size i start size cont r s' :
      threads w !! i = Some (AskRegionSize start size cont) ->
      GuestMapShadow.GetExecutableRegionSize k start size (shadow w) = Some (r, s') ->
      step w [] (set_map s' (set_thread i (cont r) w))
  | read_memory i cont m :
      threads w !! i = Some (ReadMemory cont) -> step w [] (set_thread i (cont m) w)
  | install i mc cont piece :
      threads w !! i = Some (Install mc cont) -> publishable (code piece) ->
      step w [] (set_thread i (cont piece) w)
  | clear_enter j start size :
      clears w !! j = None -> fits_range k start size ->
      step w [] (set_uncovered ((AlignDownGuestPageSize k start, start) :: uncovered w)
        (set_clears (<[j := mkClearing start (AlignUpGuestPageSize k (cast u64 (start + size)))
                              (AlignDownGuestPageSize k start) false]> (clears w)) w))
  | clear_page j c changed s' :
      clears w !! j = Some c -> c_pc c < c_end c ->
      SetExecAddr k (c_pc c) false (shadow w) = Some (changed, s') ->
      step w [] (set_map s' (set_clears (<[j := mkClearing (c_start c) (c_end c)
                   (cast u64 (c_pc c + kGuestPageSize k)) (c_changed c || changed)]> (clears w)) w))
  | clear_invalidate j c ev s' :
      clears w !! j = Some c -> c_end c <= c_pc c -> c_changed c = true ->
      exec (Invalidate (c_start c) (c_end c)) (sys w) = Some (ev, s') ->
      step w [ev] (set_sys s' (set_clears (delete j (clears w)) w))
  | clear_nothing j c :
      clears w !! j = Some c -> c_end c <= c_pc c -> c_changed c = false ->
      step w [] (set_clears (delete j (clears w)) w)
  | set_page addr b s' :
      0 <= addr -> SetExecAddr k addr true (shadow w) = Some (b, s') -> step w [] (set_map s' w)
  | other act ev s' :
      other_action act -> allowed (sys w) act -> exec act (sys w) = Some (ev, s') -> step w [ev] (set_sys s' w)
  | fork ev s' :
      exec ForkChild (sys w) = Some (ev, s') ->
      step w [ev] (mkWorld s' (shadow w) ∅ ∅ ((clearing_pages <$> (map_to_list (clears w)).*2) ++ uncovered w)).

Definition initial (a : A) (s : GuestMapShadow) : World :=
  mkWorld (mkSystem (TranslationCache.new_cache a) ∅) s ∅ ∅ [].

Definition runs (tr : list Event) (w : World) : Prop :=
  exists a s, am_ok a /\ (forall pc, valid_pc pc -> am_cell a pc = kEntryNotTranslated)
  /\ reached step (initial a s) tr w.

(** ** The invariant *)
Implicit Types (w : World) (tr : list Event) (g : Ghost).

(** The byte is executable, or a thread that has taken this away is on its way to
    invalidate it. *)
Definition secure w (a : Z) : Prop :=
  IsExecAddr k a (shadow w) = true
  \/ exists j c, clears w !! j = Some c /\ c_changed c = true /\ (c_start c <= a < c_end c).

(** The byte lost executability without any call that covers it. *)
Definition missed w (a : Z) : Prop := exists start end_, (start, end_) ∈ uncovered w /\ start <= a < end_.
Definition safe w (a : Z) : Prop := secure w a \/ missed w a.

Definition clearing_ok w (c : Clearing) : Prop :=
  aligned k (c_end c) /\ aligned k (c_pc c) /\ 0 <= AlignDownGuestPageSize k (c_start c) <= c_pc c
  /\ c_end c < 2 ^ 64
  /\ AlignDownGuestPageSize k (c_start c) <= c_start c
  /\ (AlignDownGuestPageSize k (c_start c), c_start c) ∈ uncovered w.

(** A translating thread holds what it was given; if nothing was invalidated
    since, the bytes it has seen to be executable are secure. *)
Definition thread_ok tr w (i : nat) g : Prop :=
  match holding g with
  | None => True
  | Some (p, pc) =>
      held (sys w) !! p = Some (i, pc, Translate)
      /\ exists tr1 tr2, tr = tr1 ++ Locked i pc :: tr2 /\ (Locked i pc ∉ tr2)
         /\ (Forall no_invalidation tr2 -> forall a, 0 <= a -> known g a -> safe w a)
  end.

(** The bytes of a published region that was not invalidated are secure. *)
Definition published_ok tr w : Prop :=
  forall tr1 i pc tr2 n v tr3,
    tr = tr1 ++ Locked i pc :: tr2 ++ Published i pc n v :: tr3 ->
    Forall no_invalidation tr2 -> Forall (spares pc n) tr3 -> v <> kEntryNoExec ->
    forall a, 0 <= a -> pc <= a < pc + n - 2 -> safe w a.

Definition finished {B} (_ : B) g : Prop := holding g = None.

Record world_ok tr w : Prop := {
  ok_cache : sound_state (sys w) tr;
  ok_clears j c : clears w !! j = Some c -> clearing_ok w c;
  ok_threads i t : threads w !! i = Some t -> exists g, lawful t g finished /\ thread_ok tr w i g;
  ok_published : published_ok tr w
}.

(** ** Steps that keep bytes secure *)

(** Bytes outside the ranges that are invalidated stay secure. *)
Definition keeps_secure w (evs : list Event) w' : Prop :=
  forall a, 0 <= a -> (forall start end_, Invalidated start end_ ∈ evs -> ~ (start <= a < end_)) ->
    safe w a -> safe w' a.

Lemma keeps_same w evs w' :
  shadow w' = shadow w -> clears w' = clears w -> uncovered w' = uncovered w -> keeps_secure w evs w'.
Proof. intros Es Ec Eu a _ _; unfold safe, secure, missed; by rewrite Es, Ec, Eu. Qed.

(** Missed bytes stay missed. *)
Lemma keeps_missed w evs w' :
  uncovered w ⊆ uncovered w' ->
  (forall a, 0 <= a -> (forall start end_, Invalidated start end_ ∈ evs -> ~ (start <= a < end_)) ->
    secure w a -> safe w' a) -> keeps_secure w evs w'.
Proof.
  intros Hu Hs a Ha Hout [Hsec | (start & end_ & Hin & Hr)]; [by apply Hs | right].
  exists start, end_; split; [by apply Hu | done].
Qed.

Lemma split_snoc tr (e : Event) tr1 x tr2 y tr3 :
  tr ++ [e] = tr1 ++ x :: tr2 ++ y :: tr3 ->
  (tr3 = [] /\ y = e /\ tr = tr1 ++ x :: tr2)
  \/ exists tr3', tr3 = tr3' ++ [e] /\ tr = tr1 ++ x :: tr2 ++ y :: tr3'.
Proof.
  destruct tr3 as [| z tr3 _] using rev_ind; intros E.
  - left; rewrite app_comm_cons, app_assoc in E; apply app_inj_tail in E as [-> ->]; done.
  - right; exists tr3; rewrite !app_comm_cons, !app_assoc in E; apply app_inj_tail in E as [E ->]; split; [done |].
    by rewrite !app_comm_cons, !app_assoc.
Qed.

Lemma published_keep tr w evs w' :
  published_ok tr w -> keeps_secure w evs w' -> (length evs <= 1)%nat ->
  (forall i pc n v, Published i pc n v ∉ evs) -> published_ok (tr ++ evs) w'.
Proof.
  intros Hp Hk' Hl Hn; destruct evs as [| ev [| ? ?]]; [| | cbn in Hl; lia].
  - rewrite app_nil_r; intros tr1 i pc tr2 n v tr3 E Hq Hsp Hv a Ha0 Ha.
    apply Hk'; [done | intros ? ? []%elem_of_nil | by eapply Hp].
  - intros tr1 i pc tr2 n v tr3 [(_ & E & _) | (tr3' & -> & E)]%split_snoc Hq Hsp Hv a Ha0 Ha.
    { exfalso; eapply Hn; rewrite <- E; by left. }
    apply Forall_app in Hsp as [Hsp Hsp1]; apply Hk'; [done | | by eapply Hp].
    intros start end_ Hin%list_elem_of_singleton Hr; subst ev; inversion_clear Hsp1 as [| ? ? Hs _]; cbn in Hs; lia.
Qed.

Lemma thread_keep tr w evs w' i g :
  thread_ok tr w i g -> keeps_secure w evs w' -> (forall pc, Locked i pc ∉ evs) ->
  (forall p pc, held (sys w) !! p = Some (i, pc, Translate) -> held (sys w') !! p = Some (i, pc, Translate)) ->
  thread_ok (tr ++ evs) w' i g.
Proof.
  unfold thread_ok; destruct (holding g) as [[p pc] |]; [| done].
  intros (Hh & tr1 & tr2 & -> & Hin & Hs) Hk' Hn Hkeep; split; [by apply Hkeep |].
  exists tr1, (tr2 ++ evs); split_and!; [by rewrite <- app_assoc | |].
  - intros [? | ?]%elem_of_app; [done | by eapply Hn].
  - intros [Hq He]%Forall_app a Ha0 Ha; apply Hk'; [done | | by apply Hs].
    intros start end_ Hi; rewrite Forall_forall in He; by destruct (He _ Hi).
Qed.

(** Learning that bytes are executable now. *)
Lemma thread_learn tr w i g b start size :
  thread_ok tr w i g -> (b = true -> forall a, start <= a < start + size -> IsExecAddr k a (shadow w) = true) ->
  thread_ok tr w i (learn b start size g).
Proof.
  unfold thread_ok; cbn; destruct (holding g) as [[p pc] |]; [| done].
  intros (Hh & tr1 & tr2 & -> & Hin & Hs) Hb; split; [done |]; exists tr1, tr2; split_and!; try done.
  intros Hq a Ha0 [Ha | [-> Ha]]; [by apply Hs | left; left; by apply Hb].
Qed.

(** Another part of the trace between the last lock and its end. *)
Lemma last_lock (x : Event) tr1 tr2 tr1' tr2' :
  tr1 ++ x :: tr2 = tr1' ++ x :: tr2' -> x ∉ tr2 -> exists u, tr2' = u ++ tr2.
Proof.
  intros E Hn; apply app_eq_app in E as (l & [(-> & E) | (-> & E)]).
  - destruct l as [| y l]; [injection E as ->; by exists [] |]; injection E as -> ->.
    exists (l ++ [y]); by rewrite <- app_assoc.
  - destruct l as [| y l]; [injection E as ->; by exists [] |]; injection E as -> ->.
    exfalso; apply Hn, elem_of_app; right; left.
Qed.

(** ** The cache's part of a step *)
Lemma exec_keeps_sound s tr act ev (s' : CacheProtocol.System A P) :
  sound_state s tr -> exec act s = Some (ev, s') -> allowed s act -> sound_state s' (tr ++ [ev]).
Proof. intros Hs E Ha; destruct (exec_sound s tr act Hs Ha) as (ev1 & s1 & E1 & Hs1); congruence. Qed.

(** The locks: who gets the entry, and that nobody had it before. *)
Lemma take_cases op i pc task ev (s : CacheProtocol.System A P) r c' ev' s' :
  op (cache s) = Some (r, c') -> take op i pc task ev s = Some (ev', s') ->
  match r with
  | Some p => ev' = ev /\ s' = mkSystem c' (<[p := (i, pc, task)]> (held s))
  | None => ev' = Other /\ s' = mkSystem c' (held s)
  end.
Proof. unfold take; intros ->; destruct r; by intros [= <- <-]. Qed.

Lemma lock_fresh s tr pc threshold p c' :
  sound_state s tr -> valid_pc pc -> 0 <= threshold < 2 ^ 32 ->
  TranslationCache.AddAndLockForTranslation pc threshold (cache s) = Some (Some p, c') -> held s !! p = None.
Proof.
  intros Hs Hpc Hth E; destruct (ends_AddAndLock (cache s) (held s) tr 0 pc threshold Hs Hpc Hth) as (r & c1 & E1 & Hr).
  rewrite E in E1; injection E1 as <- <-; apply Hr.
Qed.
Lemma gear_up_fresh s tr pc p c' :
  sound_state s tr ->
  TranslationCache.LockForGearUpTranslation pc (cache s) = Some (Some p, c') -> held s !! p = None.
Proof.
  intros Hs E; destruct (ends_GearUp (cache s) (held s) tr 0 pc Hs) as (r & c1 & E1 & Hr).
  rewrite E in E1; injection E1 as <- <-; apply Hr.
Qed.

(** Actions outside translations take no entry away from a translation, and
    neither lock nor publish. *)
Lemma other_held s tr act ev s' p i pc :
  sound_state s tr -> other_action act -> allowed s act -> exec act s = Some (ev, s') ->
  held s !! p = Some (i, pc, Translate) -> held s' !! p = Some (i, pc, Translate).
Proof.
  intros Hs Ho Ha E Hp; destruct act as [| | | | j pc' | j q pc' b piece | start end_ | target range | pc' |];
    try done; cbn in E, Ha; unfold perform in E.
  - destruct (ends_LockWrap (cache s) (held s) tr j pc' Hs Ha) as ([q |] & c1 & E1 & Hr);
      pose proof (take_cases _ _ _ _ _ _ _ _ _ _ E1 E) as [_ ->]; cbn; [| done].
    rewrite lookup_insert_ne; [done | destruct Hr; congruence].
  - destruct (TranslationCache.SetWrappedAndUnlock _ _ _ _ _) as [[]|]; [| done]; injection E as <- <-; cbn.
    rewrite lookup_delete_ne; [done | destruct Ha; congruence].
  - destruct (TranslationCache.InvalidateGuestRange _ _ _) as [[]|]; [by injection E as <- <- | done].
  - destruct (TranslationCache.TriggerGearShift _ _ _) as [[]|]; [by injection E as <- <- | done].
  - destruct (TranslationCache.SetStop _ _) as [[]|]; [by injection E as <- <- | done].
Qed.
Lemma other_event act (s : CacheProtocol.System A P) ev s' :
  other_action act -> exec act s = Some (ev, s') -> ev = Other \/ exists start end_, act = Invalidate start end_ /\ ev = Invalidated start end_.
Proof.
  intros Ho; destruct act as [| | | | j pc' | j q pc' b piece | start end_ | target range | pc' |]; try done;
    cbn; unfold take, perform; repeat case_match; intros [= <- <-]; eauto.
Qed.

(** ** The map's part of a step *)
Lemma IsExecutable_sound start size s b s' :
  fits_range k start size -> IsExecutable k start size s = Some (b, s') ->
  s' = s /\ (b = true -> forall a, start <= a < start + size -> IsExecAddr k a s = true).
Proof using Hk.
  intros Hf E; destruct (ends_GetExecutable k ltac:(lia) start size s Hf) as (v & s1 & E1 & -> & Hv).
  unfold IsExecutable, mbind, SM_bind in E; rewrite E1 in E; injection E as <- <-; split; [done |].
  destruct v; try done; intros _; apply Hv.
Qed.
Lemma RegionSize_sound start size s r s' :
  fits_range k start size -> GuestMapShadow.GetExecutableRegionSize k start size s = Some (r, s') ->
  s' = s /\ 0 < r.2 <= size + kGuestPageSize k /\ aligned k (start + r.2)
  /\ (r.1 = true -> forall a, start <= a < start + r.2 -> IsExecAddr k a s = true).
Proof using Hk.
  intros Hf E; destruct (ends_RegionSize k ltac:(lia) start size s Hf) as (r1 & s1 & E1 & -> & Hr).
  rewrite E in E1; injection E1 as <- <-; destruct Hr as (-> & Hn & Ha & Hall & _).
  split_and!; try done; try lia; intros Ht a Hin; by rewrite Hall.
Qed.

(** Making a page executable. *)
Lemma set_page_secure w addr b s' :
  0 <= addr -> SetExecAddr k addr true (shadow w) = Some (b, s') -> keeps_secure w [] (set_map s' w).
Proof using Hk.
  intros Hadr E; destruct (ends_SetExecAddr k ltac:(lia) addr true (shadow w) Hadr) as (b1 & s1 & E1 & Hx & _).
  rewrite E in E1; injection E1 as <- <-; apply keeps_missed; [done |]; intros a Ha _ [He | Hc]; left; [left; cbn | by right].
  rewrite Hx, He by done; by case_match.
Qed.

(** Taking executability away from a page marks the thread that does it. *)
Lemma clear_page_secure w j c changed s' :
  clears w !! j = Some c -> clearing_ok w c -> c_pc c < c_end c ->
  SetExecAddr k (c_pc c) false (shadow w) = Some (changed, s') ->
  keeps_secure w [] (set_map s' (set_clears (<[j := mkClearing (c_start c) (c_end c)
    (cast u64 (c_pc c + kGuestPageSize k)) (c_changed c || changed)]> (clears w)) w)).
Proof using Hk.
  intros Hj (Hae & Hap & Hs & He & Hfl & Hu) Hlt E; assert (0 <= c_pc c) as Hpc by lia.
  destruct (ends_SetExecAddr k ltac:(lia) (c_pc c) false (shadow w) Hpc) as (b1 & s1 & E1 & Hx & Hch & _).
  rewrite E in E1; injection E1 as <- <-; apply keeps_missed; [done |]; intros a Ha _ [Hex | (j' & c' & Hj' & Hc' & Hr)].
  - unfold safe, secure; cbn; rewrite Hx by done; destruct (same_page k (c_pc c) a && _ && _) eqn:Ep; [| by left; left].
    apply andb_true_iff in Ep as [[Hsp ?%Z.leb_le]%andb_true_iff ?%Z.leb_le].
    pose proof (proj1 (same_page_range k ltac:(lia) _ a Hap) Hsp) as Hrange; pose proof (aligned_lt k ltac:(lia) _ _ Hap Hae Hlt).
    destruct (Z.lt_ge_cases a (c_start c)); [right; eexists _, _; split; [exact Hu | lia] | left; right].
    eexists j, _; split; [apply lookup_insert_eq |]; cbn; split; [| lia].
    rewrite Hch, (exec_same_page k ltac:(lia) (c_pc c) a), Hex by (done || lia).
    rewrite (proj2 (Z.leb_le _ _)) by lia; apply orb_true_r.
  - left; right; cbn; destruct (decide (j' = j)) as [-> | Hne].
    + rewrite Hj in Hj'; injection Hj' as <-; eexists j, _; split; [apply lookup_insert_eq |]; cbn; by rewrite Hc'.
    + exists j', c'; by rewrite lookup_insert_ne.
Qed.

Lemma clear_done_secure w j c evs :
  clears w !! j = Some c -> (c_changed c = true -> Invalidated (c_start c) (c_end c) ∈ evs) ->
  forall s', keeps_secure w evs (set_sys s' (set_clears (delete j (clears w)) w)).
Proof.
  intros Hj Hev s'; apply keeps_missed; [done |]; intros a _ Hout [Hex | (j' & c' & Hj' & Hc' & Hr)]; left; [by left | right; cbn].
  destruct (decide (j' = j)) as [-> | Hne]; [| exists j', c'; by rewrite lookup_delete_ne].
  rewrite Hj in Hj'; injection Hj' as <-; exfalso; by eapply Hout; [apply Hev |].
Qed.

(** ** Every step keeps the invariant *)

(** Thread [j] is not affected. *)
Definition keeps_thread (evs : list Event) w w' (j : nat) : Prop :=
  (forall pc, Locked j pc ∉ evs)
  /\ (forall p pc, held (sys w) !! p = Some (j, pc, Translate) -> held (sys w') !! p = Some (j, pc, Translate)).

Lemma world_step tr w evs w' :
  world_ok tr w -> sound_state (sys w') (tr ++ evs) -> keeps_secure w evs w' -> published_ok (tr ++ evs) w' ->
  (forall j c, clears w' !! j = Some c -> clearing_ok w' c) ->
  (forall j t, threads w' !! j = Some t ->
     threads w !! j = Some t /\ keeps_thread evs w w' j
     \/ exists g, lawful t g finished /\ thread_ok (tr ++ evs) w' j g) ->
  world_ok (tr ++ evs) w'.
Proof.
  intros Hw Hs Hsec Hp Hc Ht; split; try done.
  intros j t Hj; destruct (Ht j t Hj) as [[Hj' [Hl Hh]] | ?]; [| done].
  destruct (ok_threads _ _ Hw j t Hj') as (g & Hg & Hok); exists g; split; [done | by eapply thread_keep].
Qed.

(** A step of thread [i] that touches nothing else. *)
Lemma local_step tr w i t t' g :
  world_ok tr w -> threads w !! i = Some t -> lawful t' g finished -> thread_ok tr w i g ->
  world_ok (tr ++ []) (set_thread i t' w).
Proof.
  intros Hw Hi Hl Hok; apply (world_step _ w); try done.
  - rewrite app_nil_r; apply (ok_cache _ _ Hw).
  - by apply keeps_same.
  - rewrite app_nil_r; exact (ok_published _ _ Hw).
  - apply (ok_clears _ _ Hw).
  - cbn; intros j u [[<- <-] | [? Hj]]%lookup_insert_Some; [right; exists g; by rewrite app_nil_r | left].
    split; [done | by split; [intros pc []%elem_of_nil |]].
Qed.

(** A call of thread [i] to the cache. *)
Lemma cache_step tr w i t t' ev s' g' :
  world_ok tr w -> threads w !! i = Some t -> sound_state s' (tr ++ [ev]) ->
  (forall start end_, ev <> Invalidated start end_) -> (forall j pc, ev = Locked j pc -> j = i) ->
  (forall j p pc, j <> i -> held (sys w) !! p = Some (j, pc, Translate) -> held s' !! p = Some (j, pc, Translate)) ->
  published_ok (tr ++ [ev]) w ->
  lawful t' g' finished -> thread_ok (tr ++ [ev]) (set_sys s' w) i g' ->
  world_ok (tr ++ [ev]) (set_sys s' (set_thread i t' w)).
Proof.
  intros Hw Hi Hs Hni Hlk Hheld Hp Hl Hok; apply (world_step _ w); try done.
  - by apply keeps_same.
  - apply (ok_clears _ _ Hw).
  - cbn; intros j u [[<- <-] | [? Hj]]%lookup_insert_Some; [right; by exists g' | left].
    split; [done |]; split; [| by intros; apply (Hheld j)].
    intros pc E%list_elem_of_singleton; by rewrite (Hlk _ _ (eq_sym E)) in *.
Qed.

(** What locking gives: the entry, and a trace that ends with the lock. *)
Lemma lock_step tr w i t (cont : option nat -> prog MC unit) pc op r c' ev s' :
  world_ok tr w -> threads w !! i = Some t -> (forall r, lawful (cont r) (locked pc r) finished) ->
  op (cache (sys w)) = Some (r, c') -> take op i pc Translate (Locked i pc) (sys w) = Some (ev, s') ->
  (forall p, r = Some p -> held (sys w) !! p = None) -> sound_state s' (tr ++ [ev]) ->
  world_ok (tr ++ [ev]) (set_sys s' (set_thread i (cont r) w)).
Proof.
  intros Hw Hi Hl Eop Etake Hfresh Hs; pose proof (take_cases _ _ _ _ _ _ _ _ _ _ Eop Etake) as Hr.
  assert (ev = Locked i pc \/ ev = Other) as Hev by (destruct r, Hr; auto).
  apply (cache_step _ _ _ t _ _ _ (locked pc r)); try done.
  - intros start end_ ->; by destruct Hev.
  - intros j pc' ->; by destruct Hev as [[= -> _] |].
  - intros j p pc' Hne Hp; destruct r as [q |]; destruct Hr as [_ ->]; cbn; [| done].
    rewrite lookup_insert_ne; [done |]; intros ->; by rewrite (Hfresh _ eq_refl) in Hp.
  - apply (published_keep _ w); [apply Hw | by apply keeps_same | cbn; lia |].
    intros j pc' n v E%list_elem_of_singleton; subst; by destruct Hev.
  - destruct r as [q |]; [| done]; destruct Hr as [-> ->]; split; cbn; [apply lookup_insert_eq |].
    exists tr, []; split_and!; [done | by intros ?%elem_of_nil | done].
Qed.

Lemma perform_cases {R} (op : TranslationCache.CM R) h ev (s : CacheProtocol.System A P) ev' s' :
  perform op h ev s = Some (ev', s') -> ev' = ev /\ held s' = h.
Proof. unfold perform; destruct (op (cache s)) as [[] |]; [by intros [= <- <-] | done]. Qed.

(** Publishing: the bytes were seen to be executable since the lock. *)
Lemma publish_ok tr w i g p pc n v :
  published_ok tr w -> thread_ok tr w i g -> holding g = Some (p, pc) ->
  (v <> kEntryNoExec -> forall a, pc <= a < pc + n - 2 -> known g a) ->
  published_ok (tr ++ [Published i pc n v]) w.
Proof.
  intros Hp Hok Hh Hkn; unfold thread_ok in Hok; rewrite Hh in Hok.
  destruct Hok as (_ & t1 & t2 & Et & Hnin & Hs).
  intros tr1 i' pc' tr2 n' v' tr3 [(-> & [= -> -> -> ->] & E) | (tr3' & -> & E)]%split_snoc Hq Hsp Hv a Ha0 Ha.
  - rewrite Et in E; destruct (last_lock _ _ _ _ _ E Hnin) as [u ->].
    apply Forall_app in Hq as [_ Hq]; apply Hs; [done | done | by apply Hkn].
  - apply Forall_app in Hsp as [Hsp _]; by eapply Hp.
Qed.

Lemma unlock_step tr w i pc p n kd piece cont ev s' :
  world_ok tr w -> threads w !! i = Some (Unlock pc p n kd piece cont) ->
  exec (FinishTranslation i p pc n kd piece) (sys w) = Some (ev, s') ->
  world_ok (tr ++ [ev]) (set_sys s' (set_thread i cont w)).
Proof.
  intros Hw Hi E; destruct (ok_threads _ _ Hw _ _ Hi) as (g & Hl & Hok).
  destruct Hl as (Hh & Hn & Hkd & Hpub & Hkn & Hl); pose proof Hok as Hok'; unfold thread_ok in Hok'.
  rewrite Hh in Hok'; destruct Hok' as [Hheld _].
  assert (sound_state s' (tr ++ [ev])) as Hs.
  { eapply exec_keeps_sound; [apply (ok_cache _ _ Hw) | exact E |].
    exact (conj Hheld (conj Hn (conj Hkd Hpub))). }
  apply perform_cases in E as [-> Eh]; apply (cache_step _ _ _ _ _ _ _ no_ghost Hw Hi); try done.
  - intros j q pc' Hne Hq; rewrite Eh, lookup_delete_ne; [done | congruence].
  - eapply publish_ok; [apply Hw | exact Hok | exact Hh | exact Hkn].
Qed.

Lemma counter_step tr w i p pc cont ev s' :
  world_ok tr w -> threads w !! i = Some (ClearCounter p cont) ->
  exec (ResetCounter i p pc) (sys w) = Some (ev, s') ->
  world_ok (tr ++ [ev]) (set_sys s' (set_thread i cont w)).
Proof.
  intros Hw Hi E; destruct (ok_threads _ _ Hw _ _ Hi) as (g & [[pc' Hh] Hl] & Hok); pose proof Hok as Hok'.
  unfold thread_ok in Hok'; rewrite Hh in Hok'; destruct Hok' as [Hheld _].
  assert (sound_state s' (tr ++ [ev])) as Hs.
  { eapply (exec_keeps_sound _ _ (ResetCounter i p pc')); [apply (ok_cache _ _ Hw) | exact E | exact Hheld]. }
  apply perform_cases in E as [-> Eh]; apply (cache_step _ _ _ _ _ _ _ g Hw Hi); try done.
  - intros j q pc2 _ Hq; by rewrite Eh.
  - apply (published_keep _ w); [apply Hw | by apply keeps_same | cbn; lia |].
    by intros ? ? ? ? ?%list_elem_of_singleton.
  - apply (thread_keep _ w); [done | by apply keeps_same | by intros ? ?%list_elem_of_singleton |].
    cbn; by rewrite Eh.
Qed.

(** A step of other threads: translations are not affected. *)
Lemma outside_step tr w evs w' :
  world_ok tr w -> sound_state (sys w') (tr ++ evs) -> keeps_secure w evs w' -> (length evs <= 1)%nat ->
  (forall ev, ev ∈ evs -> ev = Other \/ exists start end_, ev = Invalidated start end_) ->
  (forall j c, clears w' !! j = Some c -> clearing_ok w' c) ->
  threads w' = threads w ->
  (forall j p pc, held (sys w) !! p = Some (j, pc, Translate) -> held (sys w') !! p = Some (j, pc, Translate)) ->
  world_ok (tr ++ evs) w'.
Proof.
  intros Hw Hs Hsec Hlen Hev Hc Ht Hh; apply (world_step _ w); try done.
  - apply (published_keep _ w); try done; [apply Hw |]; intros i pc n v Hin; by destruct (Hev _ Hin) as [| (? & ? & ?)].
  - rewrite Ht; intros j t Hj; left; split; [done |]; split; [| by apply Hh].
    intros pc Hin; by destruct (Hev _ Hin) as [| (? & ? & ?)].
Qed.

Lemma clear_enter_ok w start size :
  fits_range k start size -> (AlignDownGuestPageSize k start, start) ∈ uncovered w ->
  clearing_ok w (mkClearing start (AlignUpGuestPageSize k (cast u64 (start + size)))
                   (AlignDownGuestPageSize k start) false).
Proof using Hk.
  intros Hf Hu; rewrite (fits_end k ltac:(lia)) by done; destruct Hf as (? & ? & ?); pose proof page_range.
  destruct (page_floor_spec k ltac:(lia) start) as (Haf & Hfl & _); [lia |].
  destruct (page_ceil_spec k ltac:(lia) (start + size)) as (Hac & Hce); [lia | lia |].
  unfold page_floor, page_ceil in *; split_and!; cbn; try done; try lia.
Qed.

Lemma clear_page_ok w c b :
  clearing_ok w c -> c_pc c < c_end c ->
  clearing_ok w (mkClearing (c_start c) (c_end c) (cast u64 (c_pc c + kGuestPageSize k)) b).
Proof using Hk.
  intros (He & Hp & Hr & Hm & Hfl & Hu) Hlt; pose proof page_range.
  rewrite (next_no_wrap k ltac:(lia) _ (c_end c)) by (done || lia); split_and!; cbn; try done; try lia.
  apply aligned_next; [lia | done].
Qed.

Lemma clearing_mono w w' c : uncovered w ⊆ uncovered w' -> clearing_ok w c -> clearing_ok w' c.
Proof. intros Hu (? & ? & ? & ? & ? & Hin); split_and!; try done; [lia .. | by apply Hu]. Qed.

(** Steps of other threads that do not call the cache. *)
Lemma quiet_step tr w w' :
  world_ok tr w -> sys w' = sys w -> threads w' = threads w -> keeps_secure w [] w' ->
  (forall j c, clears w' !! j = Some c -> clearing_ok w' c) -> world_ok (tr ++ []) w'.
Proof.
  intros Hw Es Et Hk' Hc; apply (outside_step _ w); rewrite ?Es, ?app_nil_r; try done;
    [apply Hw | cbn; lia | by intros ? ?%elem_of_nil].
Qed.

(** Threads that end and threads that begin. *)
Lemma threads_step tr w ts :
  world_ok tr w ->
  (forall j t, ts !! j = Some t -> threads w !! j = Some t \/ lawful t no_ghost finished) ->
  world_ok (tr ++ []) (mkWorld (sys w) (shadow w) ts (clears w) (uncovered w)).
Proof.
  intros Hw Ht; apply (world_step _ w); rewrite ?app_nil_r; try apply Hw; [by apply keeps_same |].
  intros j t Hj; destruct (Ht j t Hj) as [? | ?]; [left | right; by exists no_ghost].
  split; [done | by split; [intros ? []%elem_of_nil |]].
Qed.

Lemma step_ok tr w evs w' : world_ok tr w -> step w evs w' -> world_ok (tr ++ evs) w'.
Proof using All.
  intros Hw Hst; pose proof (ok_cache _ _ Hw) as Hs; pose proof (ok_clears _ _ Hw) as Hcl.
  destruct Hst as [i gear pc Hi Hpc | i Hi | i pc th cont r c' ev s' Hi Eop E | i pc cont r c' ev s' Hi Eop E
    | i pc p n kd piece cont ev s' Hi E | i p pc cont ev s' Hi E | i start size cont b s' Hi E
    | i start size cont r s' Hi E | i cont m Hi | i mc cont piece Hi Hp | j start size Hj Hr
    | j c changed s' Hj Hlt E | j c ev s' Hj Hle Hch E | j c Hj Hle Hch | addr b s' Ha E | act ev s' Ho Ha E
    | ev s' E];
    try (destruct (ok_threads _ _ Hw _ _ Hi) as (g & Hl & Hok)).
  - apply threads_step; [done |]; intros j t [[_ <-] | [_ Hj]]%lookup_insert_Some; [right | by left].
    by apply lawful_TranslateRegion.
  - apply threads_step; [done |]; intros j t [_ Hj]%lookup_delete_Some; by left.
  - destruct Hl as (_ & Hv & Hth & Hl); eapply lock_step; try done; [intros p ->; by eapply lock_fresh |].
    eapply exec_keeps_sound; [done | exact E | by split].
  - destruct Hl as (_ & Hl); eapply lock_step; try done; [intros p ->; by eapply gear_up_fresh |].
    by eapply exec_keeps_sound.
  - by eapply unlock_step.
  - by eapply counter_step.
  - destruct Hl as (Hf & Hl); apply IsExecutable_sound in E as [-> Hx]; [| done].
    change (world_ok (tr ++ []) (set_thread i (cont b) w)).
    eapply local_step; [done | done | apply Hl | by apply thread_learn].
  - destruct Hl as (Hf & Hl); apply RegionSize_sound in E as (-> & Hn & Hal & Hx); [| done]; destruct r as [b n].
    change (world_ok (tr ++ []) (set_thread i (cont (b, n)) w)).
    eapply local_step; [done | done | by apply Hl | by apply thread_learn].
  - by eapply local_step; [.. | exact Hok].
  - eapply local_step; [done | done | by apply Hl | exact Hok].
  - apply (quiet_step _ w); try done.
    + apply keeps_missed; [by apply list_subseteq_cons |].
      intros a _ _ [? | (j' & c' & Hj' & ?)]; left; [by left | right; exists j', c'; split; [| done]; cbn].
      rewrite lookup_insert_ne; [done | congruence].
    + cbn; intros j' c' [[_ <-] | [_ Hj']]%lookup_insert_Some.
      * apply clear_enter_ok; [done | apply list_elem_of_here].
      * apply (clearing_mono w); [by apply list_subseteq_cons | eauto].
  - apply (quiet_step _ w); try done; [by eapply clear_page_secure; eauto |].
    cbn; intros j' c' [[_ <-] | [_ Hj']]%lookup_insert_Some; [by apply (clear_page_ok w); eauto | by apply (clearing_mono w); eauto].
  - apply perform_cases in E as E'; destruct E' as [-> Eh]; apply (outside_step _ w); try done.
    + by eapply exec_keeps_sound.
    + eapply clear_done_secure; [done |]; intros _; by left.
    + intros ev ->%list_elem_of_singleton; right; eauto.
    + cbn; intros j' c' [_ Hj']%lookup_delete_Some; eauto.
    + cbn; by rewrite Eh.
  - apply (quiet_step _ w); try done; [apply (clear_done_secure w j c [] Hj); by rewrite Hch |].
    cbn; intros j' c' [_ Hj']%lookup_delete_Some; eauto.
  - apply (quiet_step _ w); try done; by eapply set_page_secure.
  - apply (outside_step _ w); try done; [by eapply exec_keeps_sound | by apply keeps_same | | intros j p pc Hp; by eapply other_held].
    intros ev' ->%list_elem_of_singleton; destruct (other_event _ _ _ _ Ho E) as [| (? & ? & _ & ?)]; eauto.
  - apply perform_cases in E as E'; destruct E' as [-> Eh].
    match goal with |- world_ok _ ?x => set (w' := x) end.
    assert (keeps_secure w [Other] w') as Hk'.
    { apply keeps_missed; [by apply list_subseteq_app_r |]; intros a _ _ [? | (j & c & Hj & _ & Hr)]; [by left; left | right].
      exists (AlignDownGuestPageSize k (c_start c)), (c_end c); split; [| destruct (Hcl j c Hj) as (_ & _ & _ & _ & ? & _); lia].
      apply elem_of_app; left; change (clearing_pages c ∈ clearing_pages <$> (map_to_list (clears w)).*2).
      apply list_elem_of_fmap_2, list_elem_of_fmap; exists (j, c); split; [done |]; by apply elem_of_map_to_list. }
    apply (world_step _ w); try done; [by eapply exec_keeps_sound |].
    apply (published_keep _ w); [apply Hw | done | cbn; lia | by intros ? ? ? ? ?%list_elem_of_singleton].
Qed.

Lemma runs_ok tr w : runs tr w -> world_ok tr w.
Proof using All.
  intros (a & s & Ha & Hd & Hr); induction Hr as [| tr w evs w' Hr IH Hst]; [| by eapply step_ok].
  split; cbn; try (intros *; by rewrite lookup_empty).
  - apply reachable_sound; by apply reach_initial.
  - intros tr1 i pc tr2 n v tr3 E; by destruct tr1.
Qed.

(** ** The properties *)

(** How bytes come to be missed. *)
Lemma missed_causes w evs w' a :
  step w evs w' -> missed w' a -> missed w a
  \/ (exists j c, clears w !! j = None /\ clears w' !! j = Some c /\ page_floor k (c_start c) <= a < c_start c)
  \/ (exists j c, clears w !! j = Some c /\ threads w' = ∅ /\ clears w' = ∅ /\ page_floor k (c_start c) <= a < c_end c).
Proof.
  intros Hst (start & end_ & Hin & Hr); destruct Hst; cbn in Hin; try (left; by exists start, end_).
  - apply elem_of_cons in Hin as [[= -> ->] | Hin]; [| left; by exists start, end_].
    right; left; eexists j, _; split_and!; [done | apply lookup_insert_eq | | ]; cbn; apply Hr.
  - apply elem_of_app in Hin as [Hin | Hin]; [| left; by exists start, end_].
    apply list_elem_of_fmap in Hin as (c & [= -> ->] & Hin); apply list_elem_of_fmap in Hin as ([j c'] & -> & Hin).
    apply elem_of_map_to_list in Hin; right; right; by exists j, c'.
Qed.

(** C4: host code is only executed for executable guest memory.  However the
    translations of any number of threads, the calls that take executability away
    from pages and invalidate what was translated there, and forks interleave: when
    the cell of a guest address holds host code other than the handler for
    non-executable memory, the address is wrapped, or every byte of the guest code
    it stands for, the last two apart, is executable, or a thread that made it
    non-executable has still to invalidate it, or the byte was missed.  Bytes are
    missed in two ways only: they are in the first page of a [ClearExecutable] that
    does not start at a page boundary, before its start; or they are in the pages
    of a [ClearExecutable] that was in progress when the process forked. *)
Theorem translated_code_executable tr w pc :
  runs tr w -> valid_pc pc ->
  publishable (cell (cache (sys w)) pc) -> cell (cache (sys w)) pc <> kEntryNoExec ->
  (exists p e, TranslationCache.guest_entries_ (cache (sys w)) !! pc = Some p
  /\ TranslationCache.nodes (cache (sys w)) !! p = Some (pc, e)
  /\ (wrapped (TranslationCache.kind e)
      \/ forall a, pc <= a < pc + TranslationCache.guest_size e - 2 -> secure w a \/ missed w a))
  /\ forall evs w' a, step w evs w' -> missed w' a -> missed w a
     \/ (exists j c, clears w !! j = None /\ clears w' !! j = Some c /\ page_floor k (c_start c) <= a < c_start c)
     \/ (exists j c, clears w !! j = Some c /\ threads w' = ∅ /\ clears w' = ∅
         /\ page_floor k (c_start c) <= a < c_end c).
Proof using All.
  intros Hw%runs_ok Hpc Hv Hne; split; [| by intros; eapply missed_causes].
  destruct (sound_cell _ _ _ (ok_cache _ _ Hw) Hpc Hv) as (p & e & Hp & He & Hc).
  exists p, e; split_and!; [done | done |]; destruct Hc as [? | (tr1 & i & tr2 & tr3 & -> & Hq & Hsp)]; [by left | right].
  intros a Ha; eapply (ok_published _ _ Hw); try done; destruct Hpc; lia.
Qed.

(** [t'] is what is left of [t] after its next call. *)
Definition continues (t t' : prog MC unit) : Prop :=
  match t with
  | Ret _ | Crash => False
  | AddAndLock _ _ cont | LockGearUp _ cont => exists r, t' = cont r
  | Unlock _ _ _ _ _ cont | ClearCounter _ cont => t' = cont
  | AskExecutable _ _ cont => exists b, t' = cont b
  | AskRegionSize _ _ cont => exists r, t' = cont r
  | ReadMemory cont => exists m, t' = cont m
  | Install _ cont => exists piece, t' = cont piece
  end.

Lemma exec_some s tr act :
  sound_state s tr -> allowed s act -> exists ev (s' : CacheProtocol.System A P), exec act s = Some (ev, s').
Proof. intros Hs Ha; destruct (exec_sound s tr act Hs Ha) as (ev & s' & E & _); eauto. Qed.

(** C35: translations keep to the protocol of the cache.  Whatever the other threads
    have done, a thread that is inside [TranslateRegion] has reached its end, has
    failed a check or a read of its own, or can make its next call: no call the
    translators make fails a check in the cache or uses an entry that was erased. *)
Theorem translation_progress tr w i t :
  runs tr w -> threads w !! i = Some t ->
  t = Ret tt \/ t = Crash
  \/ exists evs w' t', step w evs w' /\ threads w' !! i = Some t' /\ continues t t'.
Proof using All.
  intros Hw%runs_ok Hi; pose proof (ok_cache _ _ Hw) as Hs; destruct (ok_threads _ _ Hw _ _ Hi) as (g & Hl & Hok).
  assert (forall t' : prog MC unit, <[i := t']> (threads w) !! i = Some t') as Hset by (intros; apply lookup_insert_eq).
  destruct t as [[] | | pc th cont | pc cont | pc p n kd piece cont | p cont | start size cont | start size cont | cont | mc cont];
    [by left | by right; left | ..]; right; right.
  - destruct Hl as (_ & Hv & Hth & _); destruct (exec_some _ _ (TryTranslate i pc th) Hs (conj Hv Hth)) as (ev & s' & E).
    destruct (TranslationCache.AddAndLockForTranslation pc th (cache (sys w))) as [[r c'] |] eqn:Eop;
      [| cbn in E; unfold take in E; by rewrite Eop in E].
    eexists _, _, _; split; [by eapply lock_first | split; [apply Hset | by exists r]].
  - destruct (exec_some _ _ (TryGearUp i pc) Hs I) as (ev & s' & E).
    destruct (TranslationCache.LockForGearUpTranslation pc (cache (sys w))) as [[r c'] |] eqn:Eop;
      [| cbn in E; unfold take in E; by rewrite Eop in E].
    eexists _, _, _; split; [by eapply lock_gear_up | split; [apply Hset | by exists r]].
  - destruct Hl as (Hh & Hn & Hkd & Hpub & _); unfold thread_ok in Hok; rewrite Hh in Hok; destruct Hok as [Hheld _].
    destruct (exec_some _ _ (FinishTranslation i p pc n kd piece) Hs (conj Hheld (conj Hn (conj Hkd Hpub)))) as (ev & s' & E).
    eexists _, _, _; split; [by eapply unlock | split; [apply Hset | done]].
  - destruct Hl as [[pc Hh] _]; unfold thread_ok in Hok; rewrite Hh in Hok; destruct Hok as [Hheld _].
    destruct (exec_some _ _ (ResetCounter i p pc) Hs Hheld) as (ev & s' & E).
    eexists _, _, _; split; [by eapply clear_counter | split; [apply Hset | done]].
  - destruct Hl as [Hf _]; destruct (ends_GetExecutable k ltac:(lia) start size (shadow w) Hf) as (v & s' & E & _).
    eexists _, _, _; split; [eapply ask_executable; [exact Hi |]; unfold IsExecutable, mbind, SM_bind; by rewrite E |].
    split; [apply Hset | by eexists].
  - destruct Hl as [Hf _]; destruct (ends_RegionSize k ltac:(lia) start size (shadow w) Hf) as (r & s' & E & _).
    eexists _, _, _; split; [by eapply ask_region_size | split; [apply Hset | by exists r]].
  - eexists _, _, _; split; [by eapply (read_memory _ i cont ∅) | split; [apply Hset | by eexists]].
  - eexists _, _, _; split; [eapply (install _ i mc cont (mkHostCodePiece kEntryInterpret 0)); [exact Hi |] |].
    + apply publishable_handlers.
    + split; [apply Hset | by eexists].
Qed.

(** ** One thread alone *)

(** The program of thread [i], run to its end without interference: memory is
    [m], and the code pool answers [piece]. *)
Fixpoint run (i : nat) (m : Memory) (piece : HostCodePiece) (t : prog MC unit)
    (s : CacheProtocol.System A P) (sh : GuestMapShadow) : option (list Event * CacheProtocol.System A P) :=
  let call act t' :=
    match exec act s with
    | Some (ev, s') =>
        match run i m piece t' s' sh with Some (evs, s'') => Some (ev :: evs, s'') | None => None end
    | None => None
    end in
  match t with
  | Ret _ => Some ([], s)
  | Crash => None
  | AddAndLock pc threshold cont =>
      match TranslationCache.AddAndLockForTranslation pc threshold (cache s) with
      | Some (r, _) => call (TryTranslate i pc threshold) (cont r)
      | None => None
      end
  | LockGearUp pc cont =>
      match TranslationCache.LockForGearUpTranslation pc (cache s) with
      | Some (r, _) => call (TryGearUp i pc) (cont r)
      | None => None
      end
  | Unlock pc p gsize kd piece' cont => call (FinishTranslation i p pc gsize kd piece') cont
  | ClearCounter p cont => call (ResetCounter i p 0) cont
  | AskExecutable start size cont =>
      match IsExecutable k start size sh with Some (b, _) => run i m piece (cont b) s sh | None => None end
  | AskRegionSize start size cont =>
      match GuestMapShadow.GetExecutableRegionSize k start size sh with
      | Some (r, _) => run i m piece (cont r) s sh
      | None => None
      end
  | ReadMemory cont => run i m piece (cont m) s sh
  | Install _ cont => run i m piece (cont piece) s sh
  end.

Lemma region_size_reads start size sh r sh' :
  GuestMapShadow.GetExecutableRegionSize k start size sh = Some (r, sh') -> sh' = sh.
Proof. unfold GuestMapShadow.GetExecutableRegionSize; cbn zeta; case_match; [by intros [= _ <-] | done]. Qed.
Lemma executable_reads start size sh b sh' : IsExecutable k start size sh = Some (b, sh') -> sh' = sh.
Proof.
  unfold IsExecutable, GetExecutable, mbind, SM_bind.
  destruct (GuestMapShadow.GetExecutableRegionSize k start size sh) as [[[b' n] s1] |] eqn:E; [| done].
  apply region_size_reads in E as ->; by intros [= _ <-].
Qed.

Lemma run_reached i m piece t w evs s' :
  publishable (code piece) -> threads w !! i = Some t -> run i m piece t (sys w) (shadow w) = Some (evs, s') ->
  reached step w evs (set_sys s' (set_thread i (Ret tt) w)).
Proof.
  intros Hpc; revert w evs.
  assert (forall t' w evs1 s1 sh1 evs2,
    step w evs1 (mkWorld s1 sh1 (<[i := t']> (threads w)) (clears w) (uncovered w)) -> sh1 = shadow w ->
    (forall w evs, threads w !! i = Some t' -> run i m piece t' (sys w) (shadow w) = Some (evs, s') ->
       reached step w evs (set_sys s' (set_thread i (Ret tt) w))) ->
    run i m piece t' s1 (shadow w) = Some (evs2, s') ->
    reached step w (evs1 ++ evs2) (set_sys s' (set_thread i (Ret tt) w))) as Hcons.
  { intros t' w evs1 s1 sh1 evs2 Hs -> IH Hr; eapply reached_app; [by apply reached_one |].
    specialize (IH (mkWorld s1 (shadow w) (<[i := t']> (threads w)) (clears w) (uncovered w)) evs2); cbn in IH.
    rewrite lookup_insert_eq in IH; specialize (IH eq_refl Hr).
    unfold set_sys, set_thread in *; cbn in *; by rewrite insert_insert_eq in IH. }
  assert (forall w act t' evs, match exec act (sys w) with
      | Some (ev, s1) => match run i m piece t' s1 (shadow w) with Some (evs, s2) => Some (ev :: evs, s2) | None => None end
      | None => None end = Some (evs, s') ->
    exists ev s1 evs', exec act (sys w) = Some (ev, s1) /\ run i m piece t' s1 (shadow w) = Some (evs', s') /\ evs = [ev] ++ evs')
    as Hcall.
  { intros w act t' evs; destruct (exec act (sys w)) as [[ev s1] |]; [| done].
    destruct (run i m piece t' s1 (shadow w)) as [[evs' s2] |] eqn:E; [| done]; intros [= <- <-]; by exists ev, s1, evs'. }
  induction t as [[] | | pc th cont IH | pc cont IH | pc p n kd pc' cont IH | p cont IH | start size cont IH
    | start size cont IH | cont IH | mc cont IH]; intros w evs Hi; cbn [run].
  - intros [= <- <-]; unfold set_sys, set_thread; rewrite insert_id by done; destruct w; apply reached_start.
  - done.
  - destruct (TranslationCache.AddAndLockForTranslation pc th (cache (sys w))) as [[r c'] |] eqn:Eop; [| done].
    intros (ev & s1 & evs' & E & Hr & ->)%Hcall; eapply Hcons; [by eapply lock_first | done | apply IH | done].
  - destruct (TranslationCache.LockForGearUpTranslation pc (cache (sys w))) as [[r c'] |] eqn:Eop; [| done].
    intros (ev & s1 & evs' & E & Hr & ->)%Hcall; eapply Hcons; [by eapply lock_gear_up | done | apply IH | done].
  - intros (ev & s1 & evs' & E & Hr & ->)%Hcall; eapply Hcons; [by eapply unlock | done | apply IH | done].
  - intros (ev & s1 & evs' & E & Hr & ->)%Hcall; eapply Hcons; [by eapply clear_counter | done | apply IH | done].
  - destruct (IsExecutable k start size (shadow w)) as [[b sh'] |] eqn:E; [| done]; intros Hr.
    eapply (Hcons (cont b) _ []); [by eapply ask_executable | by eapply executable_reads | apply IH | done].
  - destruct (GuestMapShadow.GetExecutableRegionSize k start size (shadow w)) as [[r sh'] |] eqn:E; [| done]; intros Hr.
    eapply (Hcons (cont r) _ []); [by eapply ask_region_size | by eapply region_size_reads | apply IH | done].
  - intros Hr; eapply (Hcons (cont m) _ []); [by eapply read_memory | done | apply IH | done].
  - intros Hr; eapply (Hcons (cont piece) _ []); [by eapply install | done | apply IH | done].
Qed.
End Composition.

(** ** An execution *)

#[local] Existing Instance example_entries.
#[local] Existing Instance example_entries_ok.

#[local] Existing Instance example_translator.
#[local] Existing Instance example_translator_ok.

Abbreviation example_mode := kLiteTranslateOrFallbackToInterpret.

(** The page at 0x1000 is executable, the next one is not.  The code at 0x1ffa:
    two compressed no-operations, and a four-byte one that begins in the last two
    bytes of the page. *)
Definition example_map : GuestMapShadow := mkGuestMapShadow {[ 0 := 2 ]} [] [].
Definition example_code : Memory :=
  store_bytes ∅ 0x1ffa [1; 0; 1; 0; 0x13; 0; 0; 0].
Definition example_program : prog unit unit :=
  TranslateRegion 12 example_mode (Lite := bool) (Heavy := bool) kFirst 0x1ffa.
Definition example_begin : World (A := TableOfTables) (P := CellPtr) (MC := unit) :=
  set_thread 0 example_program (initial (new_TableOfTables 5) example_map).
Definition example_result : list Event * CacheProtocol.System TableOfTables CellPtr :=
  Eval vm_compute in
    match run 12 0 example_code (mkHostCodePiece 1000 64) example_program (sys example_begin) example_map with
    | Some r => r
    | None => ([], sys example_begin)
    end.
Definition example_end : World (A := TableOfTables) (P := CellPtr) (MC := unit) :=
  set_sys example_result.2 (set_thread 0 (Ret tt) example_begin).

Lemma example_run :
  run 12 0 example_code (mkHostCodePiece 1000 64) example_program (sys example_begin) example_map = Some example_result.
Proof. vm_compute; reflexivity. Qed.

Lemma example_begin_runs : runs 12 example_mode (Lite := bool) (Heavy := bool) [] example_begin.
Proof.
  exists (new_TableOfTables 5), example_map; split_and!.
  - split; intros *; cbn; by rewrite lookup_empty.
  - intros pc Hpc; cbn; unfold Get; cbn; by rewrite lookup_empty.
  - apply reached_one; apply enter; [done |]; split; [split; done | by exists 0xffd].
Qed.

Lemma example_runs : runs 12 example_mode (Lite := bool) (Heavy := bool) example_result.1 example_end.
Proof.
  destruct example_begin_runs as (a & s & Ha & Hd & Hr); exists a, s; split_and!; [done | done |].
  eapply (reached_app _ _ []); [exact Hr |].
  apply (run_reached 12 example_mode 0 example_code (mkHostCodePiece 1000 64) example_program);
    [apply publishable_1000 | done |].
  etransitivity; [exact example_run | reflexivity].
Qed.

Lemma example_published_cell : cell (cache (sys example_end)) 0x1ffa = 1000.
Proof. vm_compute; reflexivity. Qed.

Lemma translated_code_executable_witness :
  exists p e, TranslationCache.nodes (cache (sys example_end)) !! p = Some (0x1ffa, e)
  /\ (wrapped (TranslationCache.kind e)
      \/ forall a, 0x1ffa <= a < 0x1ffa + TranslationCache.guest_size e - 2 ->
         secure 12 example_end a \/ missed example_end a).
Proof.
  destruct (translated_code_executable 12 ltac:(lia) example_mode _ example_end 0x1ffa example_runs)
    as ((p & e & _ & He & Hs) & _); [split; done | rewrite example_published_cell; apply publishable_1000
    | rewrite example_published_cell; discriminate |].
  exists p, e; split; [exact He | exact Hs].
Defined.

Lemma translation_progress_witness :
  exists evs w' t', step 12 example_mode (Lite := bool) (Heavy := bool) example_begin evs w'
  /\ threads w' !! 0%nat = Some t' /\ continues example_program t'.
Proof.
  destruct (translation_progress 12 ltac:(lia) example_mode [] example_begin 0 example_program example_begin_runs eq_refl)
    as [E | [E | Hs]]; [discriminate | discriminate | exact Hs].
Defined.

(** The last two bytes of a translated region may lie outside executable memory:
    the four-byte instruction at 0x1ffe was translated, although its second half,
    at 0x2000, is in a page that is not executable. *)
Lemma last_instruction_straddles :
  exists p e, TranslationCache.nodes (cache (sys example_end)) !! p = Some (0x1ffa, e)
  /\ TranslationCache.kind e = Kind.kLiteTranslated /\ TranslationCache.guest_size e = 8
  /\ IsExecAddr 12 0x1fff (shadow example_end) = true /\ IsExecAddr 12 0x2000 (shadow example_end) = false
  /\ clears example_end = ∅.
Proof. eexists 0%nat, _; split_and!; vm_compute; reflexivity. Qed.
