(* ===== verification/MachineIR.v ===== *)
(** * The machine IR of the code generator

    Registers, register classes, operands, instructions, basic blocks and the
    control-flow graph of [src/backend/include/berberis/backend/common/machine_ir.h]
    and of [x86_64/machine_ir.h], with the pseudo instructions of
    [src/backend/x86_64/code.cc].

    A pointer to a basic block is the block's [id] (ids are handed out by
    [ReserveBasicBlockId], one per block) and a pointer to an edge is its
    position in the arena; the blocks and the edges are kept in maps, so that
    two blocks that share an edge see each other's updates.  A failed [CHECK]
    is [None]. *)
From stdpp Require Import gmap list.
From S2P Require Import Prelude Effects.
#[local] Open Scope Z_scope.

(** ** Registers *)

Abbreviation MachineReg := Z (only parsing).

Definition kFirstVRegNumber : Z := 1024.
Definition kInvalidMachineReg : MachineReg := 0.
Definition kLastSpilledRegNumber : Z := -1024.

Definition IsSpilledReg (r : MachineReg) : bool := r <=? kLastSpilledRegNumber.
Definition IsHardReg (r : MachineReg) : bool := (kInvalidMachineReg <? r) && (r <? kFirstVRegNumber).
Definition IsInvalidReg (r : MachineReg) : bool := r =? kInvalidMachineReg.
Definition IsVReg (r : MachineReg) : bool := kFirstVRegNumber <=? r.

Definition GetVRegIndex (r : MachineReg) : option nat :=
  if kFirstVRegNumber <=? r then Some (Z.to_nat (r - kFirstVRegNumber)) else None.

Definition GetSpilledRegIndex (r : MachineReg) : option Z :=
  if r <=? kLastSpilledRegNumber then Some (kLastSpilledRegNumber - r) else None.

Definition CreateVRegFromIndex (index : nat) : option MachineReg :=
  if Z.of_nat index <=? (2 ^ 31 - 1) - kFirstVRegNumber
  then Some (kFirstVRegNumber + Z.of_nat index) else None.

(** The bound is compared as an [unsigned]: the [CHECK] passes for every index
    up to [2^31 - 1024]. *)
Definition CreateSpilledRegFromIndex (index : Z) : option MachineReg :=
  if index <=? - (- 2 ^ 31 - kLastSpilledRegNumber)
  then Some (kLastSpilledRegNumber - index) else None.

(** ** Register classes *)

(** [regs] is ordered by allocation preference; [num_regs] is its length. *)
Record MachineRegClass := { reg_size : Z; reg_mask : Z; class_regs : list MachineReg }.

Definition RegSize (c : MachineRegClass) : Z := reg_size c.
Definition NumRegs (c : MachineRegClass) : nat := length (class_regs c).

Definition HasReg (c : MachineRegClass) (r : MachineReg) : bool :=
  negb (Z.land (reg_mask c) (Z.shiftl 1 r) =? 0).

Definition IsSubsetOf (c other : MachineRegClass) : bool :=
  Z.land (reg_mask c) (reg_mask other) =? reg_mask c.

Definition GetIntersection (c other : MachineRegClass) : option MachineRegClass :=
  let mask := Z.land (reg_mask c) (reg_mask other) in
  if mask =? reg_mask c then Some c
  else if mask =? reg_mask other then Some other
  else None.

(** [MachineRegClassFromMachineInsnInfoClass]: the mask is the union of the
    registers' bits. *)
Definition mask_of (rs : list MachineReg) : Z := foldr (fun r m => Z.lor (Z.shiftl 1 r) m) 0 rs.
Definition MachineRegClassFromMachineInsnInfoClass (size : Z) (rs : list MachineReg) : MachineRegClass :=
  {| reg_size := size; reg_mask := mask_of rs; class_regs := rs |}.

(** The registers of x86_64 and the classes the pseudo instructions use. *)
Module MachineRegs.
Definition kR8 : MachineReg := 1.
Definition kR9 : MachineReg := 2.
Definition kR10 : MachineReg := 3.
Definition kR11 : MachineReg := 4.
Definition kRSI : MachineReg := 5.
Definition kRDI : MachineReg := 6.
Definition kRAX : MachineReg := 7.
Definition kRBX : MachineReg := 8.
Definition kRCX : MachineReg := 9.
Definition kRDX : MachineReg := 10.
Definition kRBP : MachineReg := 11.
Definition kRSP : MachineReg := 12.
Definition kR12 : MachineReg := 13.
Definition kR13 : MachineReg := 14.
Definition kR14 : MachineReg := 15.
Definition kR15 : MachineReg := 16.
Definition kFLAGS : MachineReg := 19.
Definition kXMM (n : Z) : MachineReg := 20 + n.
End MachineRegs.

Section Classes.
Import MachineRegs.
Definition general_regs : list MachineReg :=
  [kRDI; kRSI; kRBX; kR10; kR11; kR13; kR14; kR15; kR8; kR9; kRDX; kR12; kRCX; kRAX].
Definition xmm_regs : list MachineReg :=
  map kXMM [1; 2; 3; 4; 5; 6; 7; 8; 9; 10; 11; 12; 13; 14; 15; 0].
Definition kGeneralReg64 := MachineRegClassFromMachineInsnInfoClass 8 general_regs.
Definition kGeneralReg32 := MachineRegClassFromMachineInsnInfoClass 4 general_regs.
Definition kXmmReg := MachineRegClassFromMachineInsnInfoClass 16 xmm_regs.
Definition kYmmReg := MachineRegClassFromMachineInsnInfoClass 32 xmm_regs.
Definition kReg64 := MachineRegClassFromMachineInsnInfoClass 8 (general_regs ++ xmm_regs).
Definition kReg32 := MachineRegClassFromMachineInsnInfoClass 4 (general_regs ++ xmm_regs).
Definition kRAXClass := MachineRegClassFromMachineInsnInfoClass 8 [kRAX].
Definition kRCXClass := MachineRegClassFromMachineInsnInfoClass 8 [kRCX].
Definition kFLAGSClass := MachineRegClassFromMachineInsnInfoClass 0 [kFLAGS].
End Classes.

(** ** Operands *)

Definition kRegisterIsUsed : Z := 1.
Definition kRegisterIsDefined : Z := 2.
Definition kRegisterIsInput : Z := 4.

Inductive StandardAccess := kUse | kDef | kUseDef | kDefEarlyClobber.
Definition access_bits (a : StandardAccess) : Z :=
  match a with
  | kUse => Z.lor kRegisterIsUsed kRegisterIsInput
  | kDef => kRegisterIsDefined
  | kUseDef => Z.lor (Z.lor kRegisterIsUsed kRegisterIsInput) kRegisterIsDefined
  | kDefEarlyClobber => Z.lor kRegisterIsUsed kRegisterIsDefined
  end.

Record MachineRegKind := { RegClass : MachineRegClass; access : StandardAccess }.
Definition IsUse (k : MachineRegKind) : bool := negb (Z.land (access_bits (access k)) kRegisterIsUsed =? 0).
Definition IsDef (k : MachineRegKind) : bool := negb (Z.land (access_bits (access k)) kRegisterIsDefined =? 0).
Definition IsInput (k : MachineRegKind) : bool := negb (Z.land (access_bits (access k)) kRegisterIsInput =? 0).

(** ** Instructions *)

Abbreviation BlockPtr := nat (only parsing).
Abbreviation EdgePtr := nat (only parsing).

Inductive MachineInsnKind := kMachineInsnDefault | kMachineInsnSideEffects | kMachineInsnCopy.

Inductive PseudoJumpKind :=
  | kJumpWithPendingSignalsCheck | kJumpWithoutPendingSignalsCheck | kExitGeneratedCode | kSyscall.

(** The opcodes of the x86_64 instructions: those the optimizer names, and the
    other members of the generated enumeration by their number. *)
Inductive X86Opcode :=
  | MovqRegMemBaseDisp | MovdqaXRegMemBaseDisp | MovwRegMemBaseDisp | MovsdXRegMemBaseDisp
  | MovqMemBaseDispReg | MovdqaMemBaseDispXReg | MovwMemBaseDispReg | MovsdMemBaseDispXReg
  | MovqMemBaseDispImm
  | GeneratedOpcode (number : Z).

(** The subclasses of [MachineInsn] with their own fields. *)
Inductive InsnData :=
  | PseudoBranch (then_bb : BlockPtr)
  | PseudoCondBranch (cond : Z) (then_bb else_bb : BlockPtr)
  | PseudoJump (target : Z) (jump_kind : PseudoJumpKind)
  | PseudoIndirectJump
  | PseudoCopy
  | PseudoDefXReg
  | PseudoDefReg
  | PseudoReadFlags (with_overflow : bool)
  | PseudoWriteFlags
  | CallImm (imm : Z)
  | CallImmArg
  | X86Insn (opcode : X86Opcode) (disp disp2 scale scale2 cond imm : Z).

#[export] Instance StandardAccess_dec : EqDecision StandardAccess.
Proof. solve_decision. Defined.
#[export] Instance MachineRegClass_dec : EqDecision MachineRegClass.
Proof. solve_decision. Defined.
#[export] Instance MachineRegKind_dec : EqDecision MachineRegKind.
Proof. solve_decision. Defined.
#[export] Instance MachineInsnKind_dec : EqDecision MachineInsnKind.
Proof. solve_decision. Defined.
#[export] Instance PseudoJumpKind_dec : EqDecision PseudoJumpKind.
Proof. solve_decision. Defined.
#[export] Instance X86Opcode_dec : EqDecision X86Opcode.
Proof. solve_decision. Defined.
#[export] Instance InsnData_dec : EqDecision InsnData.
Proof. solve_decision. Defined.

Record MachineInsn := {
  data : InsnData;
  reg_kinds : list MachineRegKind;
  regs : list MachineReg;
  kind : MachineInsnKind;
  recovery_bb : option BlockPtr;
  recovery_pc : Z
}.

Definition kNullGuestAddr : Z := 0.

Definition NumRegOperands (i : MachineInsn) : nat := length (reg_kinds i).
Definition RegAt (i : MachineInsn) (n : nat) : option MachineReg := regs i !! n.
Definition RegKindAt (i : MachineInsn) (n : nat) : option MachineRegKind := reg_kinds i !! n.
Definition SetRegAt (n : nat) (r : MachineReg) (i : MachineInsn) : MachineInsn :=
  {| data := data i; reg_kinds := reg_kinds i; regs := <[n := r]> (regs i); kind := kind i;
     recovery_bb := recovery_bb i; recovery_pc := recovery_pc i |}.
Definition set_data (d : InsnData) (i : MachineInsn) : MachineInsn :=
  {| data := d; reg_kinds := reg_kinds i; regs := regs i; kind := kind i;
     recovery_bb := recovery_bb i; recovery_pc := recovery_pc i |}.

Definition has_side_effects (i : MachineInsn) : bool :=
  bool_decide (kind i = kMachineInsnSideEffects) || bool_decide (is_Some (recovery_bb i)) ||
  negb (recovery_pc i =? kNullGuestAddr) || (NumRegOperands i =? 0)%nat.

Definition is_copy (i : MachineInsn) : bool := bool_decide (kind i = kMachineInsnCopy).

(** The operands with their kinds, in order. *)
Definition operands (i : MachineInsn) : list (MachineReg * MachineRegKind) := zip (regs i) (reg_kinds i).

(** Every operand has a register and a kind. *)
Definition wf_insn (i : MachineInsn) : Prop := length (regs i) = length (reg_kinds i).
#[export] Instance wf_insn_dec i : Decision (wf_insn i) := decide (_ = _).

Definition new_insn (d : InsnData) (kinds : list MachineRegKind) (rs : list MachineReg)
    (k : MachineInsnKind) : MachineInsn :=
  {| data := d; reg_kinds := kinds; regs := rs; kind := k; recovery_bb := None;
     recovery_pc := kNullGuestAddr |}.

Definition use_of (c : MachineRegClass) : MachineRegKind := {| RegClass := c; access := kUse |}.
Definition def_of (c : MachineRegClass) : MachineRegKind := {| RegClass := c; access := kDef |}.
Definition use_def_of (c : MachineRegClass) : MachineRegKind := {| RegClass := c; access := kUseDef |}.

Definition new_PseudoBranch (then_bb : BlockPtr) : MachineInsn :=
  new_insn (PseudoBranch then_bb) [] [] kMachineInsnSideEffects.
Definition new_PseudoCondBranch (cond : Z) (then_bb else_bb : BlockPtr) (eflags : MachineReg) : MachineInsn :=
  new_insn (PseudoCondBranch cond then_bb else_bb) [use_of kFLAGSClass] [eflags] kMachineInsnSideEffects.
Definition new_PseudoJump (target : Z) (k : PseudoJumpKind) : MachineInsn :=
  new_insn (PseudoJump target k) [] [] kMachineInsnSideEffects.
Definition new_PseudoIndirectJump (src : MachineReg) : MachineInsn :=
  new_insn PseudoIndirectJump [use_of kGeneralReg64] [src] kMachineInsnSideEffects.
Definition copy_class (size : Z) : MachineRegClass :=
  if 8 <? size then kXmmReg else if 4 <? size then kReg64 else kReg32.
Definition new_PseudoCopy (dst src : MachineReg) (size : Z) : MachineInsn :=
  new_insn PseudoCopy [def_of (copy_class size); use_of (copy_class size)] [dst; src] kMachineInsnCopy.
Definition new_PseudoDefXReg (r : MachineReg) : MachineInsn :=
  new_insn PseudoDefXReg [def_of kXmmReg] [r] kMachineInsnDefault.
Definition new_PseudoDefReg (r : MachineReg) : MachineInsn :=
  new_insn PseudoDefReg [def_of kReg64] [r] kMachineInsnDefault.
Definition new_PseudoReadFlags (with_overflow : bool) (dst flags : MachineReg) : MachineInsn :=
  new_insn (PseudoReadFlags with_overflow) [def_of kRAXClass; use_of kFLAGSClass] [dst; flags]
    kMachineInsnDefault.
Definition new_PseudoWriteFlags (src flags : MachineReg) : MachineInsn :=
  new_insn PseudoWriteFlags [use_def_of kRAXClass; def_of kFLAGSClass] [src; flags] kMachineInsnDefault.

Definition IsControlTransfer (i : MachineInsn) : bool :=
  match data i with
  | PseudoBranch _ | PseudoCondBranch _ _ _ | PseudoIndirectJump | PseudoJump _ _ => true
  | _ => false
  end.

(** ** Blocks, edges and the IR *)

Record MachineEdge := { edge_src : BlockPtr; edge_dst : BlockPtr }.

Record MachineBasicBlock := {
  insn_list : list MachineInsn;
  in_edges : list EdgePtr;
  out_edges : list EdgePtr;
  live_in : list MachineReg;
  live_out : list MachineReg;
  is_recovery : bool
}.

Definition new_block : MachineBasicBlock :=
  {| insn_list := []; in_edges := []; out_edges := []; live_in := []; live_out := [];
     is_recovery := false |}.

Definition set_insn_list (l : list MachineInsn) (b : MachineBasicBlock) : MachineBasicBlock :=
  {| insn_list := l; in_edges := in_edges b; out_edges := out_edges b; live_in := live_in b;
     live_out := live_out b; is_recovery := is_recovery b |}.
Definition set_in_edges (l : list EdgePtr) (b : MachineBasicBlock) : MachineBasicBlock :=
  {| insn_list := insn_list b; in_edges := l; out_edges := out_edges b; live_in := live_in b;
     live_out := live_out b; is_recovery := is_recovery b |}.
Definition set_out_edges (l : list EdgePtr) (b : MachineBasicBlock) : MachineBasicBlock :=
  {| insn_list := insn_list b; in_edges := in_edges b; out_edges := l; live_in := live_in b;
     live_out := live_out b; is_recovery := is_recovery b |}.
Definition set_live_in (l : list MachineReg) (b : MachineBasicBlock) : MachineBasicBlock :=
  {| insn_list := insn_list b; in_edges := in_edges b; out_edges := out_edges b; live_in := l;
     live_out := live_out b; is_recovery := is_recovery b |}.
Definition set_live_out (l : list MachineReg) (b : MachineBasicBlock) : MachineBasicBlock :=
  {| insn_list := insn_list b; in_edges := in_edges b; out_edges := out_edges b; live_in := live_in b;
     live_out := l; is_recovery := is_recovery b |}.

Inductive BasicBlockOrder := kUnordered | kReversePostOrder.

(** [blocks] and [edges] are the arena's objects, [next_edge] the next free
    position of an edge; [bb_list] is the list of the blocks enrolled. *)
Record MachineIR := {
  num_bb : nat;
  num_vreg : nat;
  num_arg_slots : Z;
  num_spill_slots : Z;
  bb_list : list BlockPtr;
  blocks : gmap nat MachineBasicBlock;
  edges : gmap nat MachineEdge;
  next_edge : nat;
  bb_order : BasicBlockOrder;
  insn_folding_executed : bool
}.

Definition new_MachineIR (vregs : nat) : MachineIR :=
  {| num_bb := 0; num_vreg := vregs; num_arg_slots := 0; num_spill_slots := 0; bb_list := [];
     blocks := ∅; edges := ∅; next_edge := 0; bb_order := kUnordered; insn_folding_executed := false |}.

Definition set_blocks (m : gmap nat MachineBasicBlock) (ir : MachineIR) : MachineIR :=
  {| num_bb := num_bb ir; num_vreg := num_vreg ir; num_arg_slots := num_arg_slots ir;
     num_spill_slots := num_spill_slots ir; bb_list := bb_list ir; blocks := m; edges := edges ir;
     next_edge := next_edge ir; bb_order := bb_order ir; insn_folding_executed := insn_folding_executed ir |}.
Definition set_edges (m : gmap nat MachineEdge) (ir : MachineIR) : MachineIR :=
  {| num_bb := num_bb ir; num_vreg := num_vreg ir; num_arg_slots := num_arg_slots ir;
     num_spill_slots := num_spill_slots ir; bb_list := bb_list ir; blocks := blocks ir; edges := m;
     next_edge := next_edge ir; bb_order := bb_order ir; insn_folding_executed := insn_folding_executed ir |}.
Definition set_bb_list (l : list BlockPtr) (ir : MachineIR) : MachineIR :=
  {| num_bb := num_bb ir; num_vreg := num_vreg ir; num_arg_slots := num_arg_slots ir;
     num_spill_slots := num_spill_slots ir; bb_list := l; blocks := blocks ir; edges := edges ir;
     next_edge := next_edge ir; bb_order := bb_order ir; insn_folding_executed := insn_folding_executed ir |}.
Definition set_bb_order (o : BasicBlockOrder) (ir : MachineIR) : MachineIR :=
  {| num_bb := num_bb ir; num_vreg := num_vreg ir; num_arg_slots := num_arg_slots ir;
     num_spill_slots := num_spill_slots ir; bb_list := bb_list ir; blocks := blocks ir; edges := edges ir;
     next_edge := next_edge ir; bb_order := o; insn_folding_executed := insn_folding_executed ir |}.
Definition set_num_vreg (n : nat) (ir : MachineIR) : MachineIR :=
  {| num_bb := num_bb ir; num_vreg := n; num_arg_slots := num_arg_slots ir;
     num_spill_slots := num_spill_slots ir; bb_list := bb_list ir; blocks := blocks ir; edges := edges ir;
     next_edge := next_edge ir; bb_order := bb_order ir; insn_folding_executed := insn_folding_executed ir |}.

Definition AllocVReg (ir : MachineIR) : option (MachineReg * MachineIR) :=
  r ← CreateVRegFromIndex (num_vreg ir); Some (r, set_num_vreg (S (num_vreg ir)) ir).

Definition SetInsnFoldingExecuted (ir : MachineIR) : MachineIR :=
  {| num_bb := num_bb ir; num_vreg := num_vreg ir; num_arg_slots := num_arg_slots ir;
     num_spill_slots := num_spill_slots ir; bb_list := bb_list ir; blocks := blocks ir; edges := edges ir;
     next_edge := next_edge ir; bb_order := bb_order ir; insn_folding_executed := true |}.

(** *** The stack frame *)

Definition ReserveArgs (size : Z) (ir : MachineIR) : MachineIR :=
  let slots := ((size + 15) mod 2 ^ 32) / 16 in
  {| num_bb := num_bb ir; num_vreg := num_vreg ir;
     num_arg_slots := if num_arg_slots ir <? slots then slots else num_arg_slots ir;
     num_spill_slots := num_spill_slots ir; bb_list := bb_list ir; blocks := blocks ir; edges := edges ir;
     next_edge := next_edge ir; bb_order := bb_order ir; insn_folding_executed := insn_folding_executed ir |}.
Definition AllocSpill (ir : MachineIR) : Z * MachineIR :=
  (num_spill_slots ir,
   {| num_bb := num_bb ir; num_vreg := num_vreg ir; num_arg_slots := num_arg_slots ir;
      num_spill_slots := (num_spill_slots ir + 1) mod 2 ^ 32; bb_list := bb_list ir;
      blocks := blocks ir; edges := edges ir; next_edge := next_edge ir; bb_order := bb_order ir; insn_folding_executed := insn_folding_executed ir |}).
Definition SpillSlotOffset (ir : MachineIR) (slot : Z) : Z := (16 * (num_arg_slots ir + slot)) mod 2 ^ 32.
Definition FrameSize (ir : MachineIR) : Z := (16 * (num_arg_slots ir + num_spill_slots ir)) mod 2 ^ 32.

(** *** The graph *)

(** [NewBasicBlock] with [ReserveBasicBlockId]. *)
Definition NewBasicBlock (ir : MachineIR) : BlockPtr * MachineIR :=
  (num_bb ir,
   {| num_bb := S (num_bb ir); num_vreg := num_vreg ir; num_arg_slots := num_arg_slots ir;
      num_spill_slots := num_spill_slots ir; bb_list := bb_list ir;
      blocks := <[num_bb ir := new_block]> (blocks ir); edges := edges ir;
      next_edge := next_edge ir; bb_order := bb_order ir; insn_folding_executed := insn_folding_executed ir |}).

Definition update_block (b : BlockPtr) (f : MachineBasicBlock -> MachineBasicBlock) (ir : MachineIR)
    : MachineIR := set_blocks (alter f b (blocks ir)) ir.

(** [NewInArena<MachineEdge>]. *)
Definition new_edge (src dst : BlockPtr) (ir : MachineIR) : EdgePtr * MachineIR :=
  (next_edge ir,
   {| num_bb := num_bb ir; num_vreg := num_vreg ir; num_arg_slots := num_arg_slots ir;
      num_spill_slots := num_spill_slots ir; bb_list := bb_list ir; blocks := blocks ir;
      edges := <[next_edge ir := {| edge_src := src; edge_dst := dst |}]> (edges ir);
      next_edge := S (next_edge ir); bb_order := bb_order ir; insn_folding_executed := insn_folding_executed ir |}).

Definition add_out_edge (e : EdgePtr) (b : MachineBasicBlock) := set_out_edges (out_edges b ++ [e]) b.
Definition add_in_edge (e : EdgePtr) (b : MachineBasicBlock) := set_in_edges (in_edges b ++ [e]) b.
Definition push_insn (i : MachineInsn) (b : MachineBasicBlock) := set_insn_list (insn_list b ++ [i]) b.

Definition AddEdge (src dst : BlockPtr) (ir : MachineIR) : MachineIR :=
  let '(e, ir) := new_edge src dst ir in
  set_bb_order kUnordered (update_block dst (add_in_edge e) (update_block src (add_out_edge e) ir)).

Definition set_dst (e : EdgePtr) (dst : BlockPtr) (ir : MachineIR) : MachineIR :=
  set_edges (alter (fun x => {| edge_src := edge_src x; edge_dst := dst |}) e (edges ir)) ir.
Definition set_src (e : EdgePtr) (src : BlockPtr) (ir : MachineIR) : MachineIR :=
  set_edges (alter (fun x => {| edge_src := src; edge_dst := edge_dst x |}) e (edges ir)) ir.

(** The instructions from [insn_it] on move to a new block. *)
Definition SplitBasicBlock (bb : BlockPtr) (insn_it : nat) (ir : MachineIR)
    : option (BlockPtr * MachineIR) :=
  let '(new_bb, ir) := NewBasicBlock ir in
  b ← blocks ir !! bb;
  let ir := update_block new_bb (set_insn_list (drop insn_it (insn_list b))) ir in
  let ir := update_block bb (set_insn_list (take insn_it (insn_list b) ++ [new_PseudoBranch new_bb])) ir in
  let ir := foldl (fun ir e => set_src e new_bb ir) ir (out_edges b) in
  let ir := update_block new_bb (set_out_edges (out_edges b)) ir in
  let ir := update_block bb (set_out_edges []) ir in
  let ir := AddEdge bb new_bb ir in
  Some (new_bb, set_bb_list (bb_list ir ++ [new_bb]) ir).
