(* ===== verification/Lifetime.v ===== *)
(** * Lifetimes of virtual registers

    [src/backend/include/berberis/backend/common/lifetime.h]: the uses of a
    virtual register, its live ranges with the holes between them, the test
    whether two lifetimes interfere, and the split of a spilled lifetime into
    one tiny lifetime per use.

    A lifetime is referred to by its position in the arena.  [begin()] and
    [end()] of a lifetime without ranges, and [back()] of an empty list, are
    undefined in the source and [None] here. *)
From stdpp Require Import list sorting.
From S2P Require Import Prelude MachineIR.
#[local] Open Scope Z_scope.

(** Splits a goal that is a conjunction as it stands. *)
Ltac conjs := repeat match goal with |- _ /\ _ => split end.

(** ** Uses *)

(** The position of an instruction: its block and its place in the block's
    list when the lifetimes are collected. *)
Abbreviation MachineInsnListPosition := (nat * nat)%type (only parsing).

(** The kind of the operand is kept with the use: no pass changes it. *)
Record VRegUse := {
  use_pos : MachineInsnListPosition;
  use_index : nat;
  use_begin : Z;
  use_end : Z;
  use_kind : MachineRegKind
}.

Definition GetRegClass (u : VRegUse) : MachineRegClass := RegClass (use_kind u).

#[export] Instance VRegUse_dec : EqDecision VRegUse.
Proof. solve_decision. Defined.

(** ** Live ranges *)

Record VRegLiveRange := { lr_begin : Z; lr_end : Z; use_list : list VRegUse }.

Definition new_range (b : Z) : VRegLiveRange := {| lr_begin := b; lr_end := b; use_list := [] |}.
Definition range_of_use (u : VRegUse) : VRegLiveRange :=
  {| lr_begin := use_begin u; lr_end := use_end u; use_list := [u] |}.
Definition set_begin (b : Z) (r : VRegLiveRange) : VRegLiveRange :=
  {| lr_begin := b; lr_end := b; use_list := use_list r |}.
Definition range_set_end (e : Z) (r : VRegLiveRange) : VRegLiveRange :=
  {| lr_begin := lr_begin r; lr_end := e; use_list := use_list r |}.
Definition range_AppendUse (u : VRegUse) (r : VRegLiveRange) : VRegLiveRange :=
  {| lr_begin := lr_begin r;
     lr_end := if lr_end r <? use_end u then use_end u else lr_end r;
     use_list := use_list r ++ [u] |}.

(** ** Lifetimes *)

Abbreviation LifetimePtr := nat (only parsing).

Record VRegLifetime := {
  range_list : list VRegLiveRange;
  reg_class : option MachineRegClass;
  hard_reg : MachineReg;
  spill_slot : Z;
  spill_weight : Z;
  move_hint : option LifetimePtr
}.

Definition new_lifetime (b : Z) : VRegLifetime :=
  {| range_list := [new_range b]; reg_class := None; hard_reg := 0; spill_slot := -1;
     spill_weight := 0; move_hint := None |}.
Definition lifetime_of_use (u : VRegUse) : VRegLifetime :=
  {| range_list := [range_of_use u]; reg_class := Some (GetRegClass u); hard_reg := 0;
     spill_slot := -1; spill_weight := 1; move_hint := None |}.

Definition set_range_list (rl : list VRegLiveRange) (l : VRegLifetime) : VRegLifetime :=
  {| range_list := rl; reg_class := reg_class l; hard_reg := hard_reg l; spill_slot := spill_slot l;
     spill_weight := spill_weight l; move_hint := move_hint l |}.
Definition set_hard_reg (r : MachineReg) (l : VRegLifetime) : VRegLifetime :=
  {| range_list := range_list l; reg_class := reg_class l; hard_reg := r; spill_slot := spill_slot l;
     spill_weight := spill_weight l; move_hint := move_hint l |}.
Definition SetSpill (slot : Z) (l : VRegLifetime) : VRegLifetime :=
  {| range_list := range_list l; reg_class := reg_class l; hard_reg := hard_reg l; spill_slot := slot;
     spill_weight := spill_weight l; move_hint := move_hint l |}.
Definition set_move_hint (h : LifetimePtr) (l : VRegLifetime) : VRegLifetime :=
  {| range_list := range_list l; reg_class := reg_class l; hard_reg := hard_reg l;
     spill_slot := spill_slot l; spill_weight := spill_weight l; move_hint := Some h |}.

Definition lt_begin (l : VRegLifetime) : option Z := lr_begin <$> head (range_list l).
Definition lt_end (l : VRegLifetime) : option Z := lr_end <$> last (range_list l).
Definition LastLiveRangeBegin (l : VRegLifetime) : option Z := lr_begin <$> last (range_list l).

(** Changes the last element of a list. *)
Definition update_last {A} (f : A -> A) (l : list A) : list A := alter f (pred (length l)) l.

Definition StartLiveRange (b : Z) (l : VRegLifetime) : VRegLifetime :=
  set_range_list (range_list l ++ [new_range b]) l.

Definition lt_set_end (e : Z) (l : VRegLifetime) : VRegLifetime :=
  set_range_list (update_last (range_set_end e) (range_list l)) l.

(** The ranges before the use is appended: a write that comes after a gap
    starts a new range, or moves the start of a range without uses. *)
Definition insert_hole (u : VRegUse) (back : VRegLiveRange) (rl : list VRegLiveRange) : list VRegLiveRange :=
  if IsDef (use_kind u) && negb (IsUse (use_kind u)) && (lr_end back <? use_begin u) then
    match use_list back with
    | [] => update_last (set_begin (use_begin u)) rl
    | _ => rl ++ [new_range (use_begin u)]
    end
  else rl.

Definition AppendUse (u : VRegUse) (l : VRegLifetime) : option VRegLifetime :=
  back ← last (range_list l);
  let rl := update_last (range_AppendUse u) (insert_hole u back (range_list l)) in
  c ← match reg_class l with
      | Some c => GetIntersection c (GetRegClass u)
      | None => Some (GetRegClass u)
      end;
  Some {| range_list := rl; reg_class := Some c; hard_reg := hard_reg l; spill_slot := spill_slot l;
          spill_weight := spill_weight l + 1; move_hint := move_hint l |}.

(** ** Move hints *)

(** The arena of lifetimes. *)
Abbreviation Store := (list VRegLifetime) (only parsing).

(** [FindMoveHint] with its path compression; the recursion follows the
    pointers, at most as many as there are lifetimes. *)
Fixpoint find_move_hint (fuel : nat) (st : Store) (p : LifetimePtr) : option (LifetimePtr * Store) :=
  match fuel with
  | O => None
  | S fuel =>
      l ← st !! p;
      match move_hint l with
      | Some h =>
          '(root, st) ← find_move_hint fuel st h;
          Some (root, alter (set_move_hint root) p st)
      | None => Some (p, st)
      end
  end.

Definition FindMoveHint (st : Store) (p : LifetimePtr) : option (LifetimePtr * Store) :=
  find_move_hint (S (length st)) st p.

Definition SetMoveHint (st : Store) (p other : LifetimePtr) : option Store :=
  '(hint, st) ← FindMoveHint st p;
  '(other_hint, st) ← FindMoveHint st other;
  l ← st !! hint; o ← st !! other_hint;
  b ← lt_begin l; ob ← lt_begin o;
  Some (if ob <? b then alter (set_move_hint other_hint) hint st
        else if decide (other_hint = hint) then st
        else alter (set_move_hint hint) other_hint st).

(** ** Interference *)

Fixpoint test_interference (l1 : list VRegLiveRange) : list VRegLiveRange -> bool :=
  fix go (l2 : list VRegLiveRange) : bool :=
    match l1, l2 with
    | i :: l1', j :: l2' =>
        if lr_end i <=? lr_begin j then test_interference l1' l2
        else if lr_end j <=? lr_begin i then go l2'
        else true
    | _, _ => false
    end.

Definition TestInterference (l other : VRegLifetime) : bool :=
  test_interference (range_list l) (range_list other).

(** ** Splitting *)

Inductive SplitKind := SPLIT_IMPOSSIBLE | SPLIT_CONFLICT | SPLIT_OK.
#[export] Instance SplitKind_dec : EqDecision SplitKind.
Proof. solve_decision. Defined.

(** The iterators of a range and of a use in it, [None] when the range
    iterator is [end()]. *)
Abbreviation SplitPos := (option (nat * nat)) (only parsing).

(** The loop over the uses of one range, from the [n]-th use. *)
Fixpoint split_uses (b : Z) (m : nat) (n : nat) (us : list VRegUse) : option (SplitKind * SplitPos) :=
  match us with
  | [] => None
  | u :: us =>
      if use_end u <=? b then split_uses b m (S n) us
      else if use_begin u <? b then Some (SPLIT_IMPOSSIBLE, None)
      else Some (if use_begin u =? b then SPLIT_CONFLICT else SPLIT_OK, Some (m, n))
  end.

(** The loop over the ranges, from the [m]-th range. *)
Fixpoint split_ranges (b : Z) (m : nat) (rl : list VRegLiveRange) : SplitKind * SplitPos :=
  match rl with
  | [] => (SPLIT_OK, None)
  | r :: rl =>
      if lr_end r <=? b then split_ranges b (S m) rl
      else match split_uses b m 0 (use_list r) with
           | Some res => res
           | None => split_ranges b (S m) rl
           end
  end.

Definition FindSplitPos (b : Z) (l : VRegLifetime) : SplitKind * SplitPos :=
  split_ranges b 0 (range_list l).

Definition tiny_lifetime (slot : Z) (u : VRegUse) : VRegLifetime := SetSpill slot (lifetime_of_use u).

Definition set_use_list (us : list VRegUse) (r : VRegLiveRange) : VRegLiveRange :=
  {| lr_begin := lr_begin r; lr_end := lr_end r; use_list := us |}.

(** The uses from the split position on. *)
Definition uses_from (pos : nat * nat) (rl : list VRegLiveRange) : list VRegUse :=
  match drop pos.1 rl with
  | [] => []
  | r :: rl => drop pos.2 (use_list r) ++ concat (use_list <$> rl)
  end.

(** What is left of the ranges when the uses from the position on are erased. *)
Definition ranges_before (pos : nat * nat) (rl : list VRegLiveRange) : list VRegLiveRange :=
  take pos.1 rl ++
  match drop pos.1 rl, pos.2 with
  | r :: _, S _ => [set_use_list (take pos.2 (use_list r)) r]
  | _, _ => []
  end.

(** The lifetime that is left and the tiny lifetimes made of the other uses. *)
Definition Split (pos : SplitPos) (l : VRegLifetime) : VRegLifetime * list VRegLifetime :=
  match pos with
  | None => (l, [])
  | Some p => (set_range_list (ranges_before p (range_list l)) l,
               tiny_lifetime (spill_slot l) <$> uses_from p (range_list l))
  end.

(** ** Well-formed lifetimes *)

(** The ranges follow each other. *)
Definition ranges_ok (rl : list VRegLiveRange) : Prop :=
  Forall (fun r => lr_begin r <= lr_end r) rl /\ StronglySorted (fun r r' => lr_end r <= lr_begin r') rl.

(** The uses lie in their range, ordered by their first tick. *)
Definition range_uses_ok (r : VRegLiveRange) : Prop :=
  Forall (fun u => lr_begin r <= use_begin u /\ use_begin u < use_end u /\ use_end u <= lr_end r) (use_list r)
  /\ StronglySorted (fun u u' => use_begin u <= use_begin u') (use_list r).

Definition lt_uses (l : VRegLifetime) : list VRegUse := concat (use_list <$> range_list l).

(** A class that the hard register of every use may come from. *)
Definition class_within (c c' : MachineRegClass) : Prop :=
  forall r, r ∈ class_regs c -> r ∈ class_regs c'.

Record lifetime_ok (l : VRegLifetime) : Prop := {
  lo_ranges : ranges_ok (range_list l);
  lo_uses : Forall range_uses_ok (range_list l)
}.

(** *** Interference is the overlap of two ranges *)

Definition overlap (r r' : VRegLiveRange) : Prop := lr_begin r' < lr_end r /\ lr_begin r < lr_end r'.

Lemma ranges_ok_cons r rl :
  ranges_ok (r :: rl) <->
  lr_begin r <= lr_end r /\ Forall (fun r' => lr_end r <= lr_begin r') rl /\ ranges_ok rl.
Proof.
  unfold ranges_ok; rewrite Forall_cons; split.
  - intros [[? ?] Hs]; inversion Hs; subst; done.
  - intros (? & ? & ? & ?); repeat split; try done; by constructor.
Qed.

Lemma no_overlap_before r r' rl :
  lr_end r <= lr_begin r' -> ranges_ok (r' :: rl) -> Exists (overlap r) (r' :: rl) -> False.
Proof.
  intros Hle [Hb [Hs _]]%ranges_ok_cons; rewrite Exists_exists; intros (x & Hx & Ho1 & Ho2).
  apply elem_of_cons in Hx as [-> | Hx]; [lia |].
  rewrite Forall_forall in Hs; specialize (Hs _ Hx); lia.
Qed.

Lemma overlap_sym r r' : overlap r r' -> overlap r' r.
Proof. unfold overlap; tauto. Qed.

Lemma test_interference_overlap l1 l2 :
  ranges_ok l1 -> ranges_ok l2 ->
  test_interference l1 l2 = true <-> exists r r', r ∈ l1 /\ r' ∈ l2 /\ overlap r r'.
Proof.
  revert l2; induction l1 as [| i l1 IH1]; intros l2 H1.
  - intros _; destruct l2; (split; [done | intros (? & ? & Hr & _); by apply not_elem_of_nil in Hr]).
  - induction l2 as [| j l2 IH2]; intros H2; cbn [test_interference].
    + split; [done | intros (? & ? & _ & Hr & _); by apply not_elem_of_nil in Hr].
    + pose proof (proj1 (ranges_ok_cons _ _) H1) as (Hi & _ & H1').
      pose proof (proj1 (ranges_ok_cons _ _) H2) as (Hj & _ & H2').
      destruct (Z.leb_spec (lr_end i) (lr_begin j)); [| destruct (Z.leb_spec (lr_end j) (lr_begin i))].
      * rewrite IH1 by done; split; [intros (r & r' & ? & ? & ?); exists r, r'; by rewrite elem_of_cons; auto |].
        intros (r & r' & [-> | Hr]%elem_of_cons & Hr' & Ho); [| by exists r, r'].
        exfalso; eapply (no_overlap_before i j l2); [done | done |].
        apply Exists_exists; eauto.
      * rewrite IH2 by done; split; [intros (r & r' & ? & ? & ?); exists r, r'; rewrite (elem_of_cons l2); auto |].
        intros (r & r' & Hr & [-> | Hr']%elem_of_cons & Ho); [| by exists r, r'].
        exfalso; eapply (no_overlap_before j i l1); [done | done |].
        apply Exists_exists; eauto using overlap_sym.
      * split; [| done]; intros _; exists i, j; unfold overlap; rewrite !elem_of_cons; auto.
Qed.

(** The ticks at which a lifetime is live. *)
Definition covers (rl : list VRegLiveRange) (t : Z) : Prop :=
  exists r, r ∈ rl /\ lr_begin r <= t < lr_end r.

Lemma range_in_order rl r : ranges_ok rl -> r ∈ rl -> lr_begin r <= lr_end r.
Proof. intros [Hf _] Hr; rewrite Forall_forall in Hf; by apply Hf. Qed.

Lemma no_interference_disjoint l1 l2 t :
  ranges_ok l1 -> ranges_ok l2 -> test_interference l1 l2 = false -> covers l1 t -> covers l2 t -> False.
Proof.
  intros H1 H2 Hf (r & Hr & Ht) (r' & Hr' & Ht').
  assert (test_interference l1 l2 = true) as Ht1; [| by rewrite Hf in Ht1].
  apply test_interference_overlap; [done | done |]; exists r, r'; unfold overlap; repeat split; try done; lia.
Qed.

(** [TestInterference], which walks the two range lists side by side and
    stops at the first overlap, answers exactly whether some live range of one
    lifetime overlaps some live range of the other; when no range is empty this
    is to say that the two lifetimes are live at one tick together. *)
Theorem TestInterference_exact (l other : VRegLifetime) :
  ranges_ok (range_list l) -> ranges_ok (range_list other) ->
  (TestInterference l other = true <->
   exists r r', r ∈ range_list l /\ r' ∈ range_list other /\ overlap r r') /\
  (Forall (fun r => lr_begin r < lr_end r) (range_list l ++ range_list other) ->
   TestInterference l other = true <-> exists t, covers (range_list l) t /\ covers (range_list other) t).
Proof.
  intros H1 H2; unfold TestInterference; split; [by apply test_interference_overlap |].
  rewrite Forall_app, !Forall_forall; intros [Hn1 Hn2].
  split; [rewrite test_interference_overlap by done |].
  - intros (r & r' & Hr & Hr' & Ho1 & Ho2); exists (Z.max (lr_begin r) (lr_begin r')).
    specialize (Hn1 _ Hr); specialize (Hn2 _ Hr').
    split; [exists r | exists r']; (split; [done | lia]).
  - intros (t & Hc1 & Hc2); destruct (test_interference _ _) eqn:E; [done |].
    exfalso; exact (no_interference_disjoint _ _ t H1 H2 E Hc1 Hc2).
Qed.

(** *** Where a split falls *)

Definition ends_by (b : Z) (u : VRegUse) : Prop := use_end u <= b.

Lemma split_uses_spec b m n us :
  match split_uses b m n us with
  | None => Forall (ends_by b) us
  | Some (SPLIT_IMPOSSIBLE, _) => Exists (fun u => use_begin u < b < use_end u) us
  | Some (k, Some (m', n')) =>
      m' = m /\ exists pre u post, us = pre ++ u :: post /\ n' = (n + length pre)%nat /\
        Forall (ends_by b) pre /\ b < use_end u /\ b <= use_begin u /\
        (k = SPLIT_OK -> b < use_begin u) /\ (k = SPLIT_CONFLICT -> use_begin u = b)
  | Some (_, None) => False
  end.
Proof.
  revert n; induction us as [| u us IH]; intros n; cbn [split_uses]; [constructor |].
  destruct (Z.leb_spec (use_end u) b) as [He | He].
  - specialize (IH (S n)); destruct (split_uses b m (S n) us) as [[[] [[m' n'] |]] |]; try done;
      try (by apply Exists_cons_tl); try (constructor; [exact He | done]).
    all: destruct IH as (-> & pre & v & post & -> & -> & Hp & Hv); split; [done |];
      exists (u :: pre), v, post; cbn [length app]; repeat split; try done; try lia; try tauto; constructor; [exact He | done].
  - destruct (Z.ltb_spec (use_begin u) b); [by apply Exists_cons_hd |].
    destruct (Z.eqb_spec (use_begin u) b); (split; [done |]; exists [], u, us; cbn;
      repeat split; try done; try lia; constructor).
Qed.

Lemma uses_end_by r b : range_uses_ok r -> lr_end r <= b -> Forall (ends_by b) (use_list r).
Proof. intros [Hf _] ?; eapply Forall_impl; [exact Hf |]; unfold ends_by; cbn; lia. Qed.

Lemma split_ranges_spec b m rl :
  Forall range_uses_ok rl ->
  match split_ranges b m rl with
  | (SPLIT_IMPOSSIBLE, _) => Exists (fun u => use_begin u < b < use_end u) (concat (use_list <$> rl))
  | (SPLIT_CONFLICT, None) => False
  | (SPLIT_OK, None) => Forall (ends_by b) (concat (use_list <$> rl))
  | (k, Some (m', n')) =>
      exists rpre r rpost pre u post, rl = rpre ++ r :: rpost /\ use_list r = pre ++ u :: post /\
        m' = (m + length rpre)%nat /\ n' = length pre /\
        Forall (ends_by b) (concat (use_list <$> rpre)) /\ Forall (ends_by b) pre /\
        b <= use_begin u /\ (k = SPLIT_OK -> b < use_begin u) /\ (k = SPLIT_CONFLICT -> use_begin u = b)
  end.
Proof.
  revert m; induction rl as [| r rl IH]; intros m; [intros; constructor |].
  rewrite Forall_cons; intros [Hr Hrl]; cbn [split_ranges fmap list_fmap concat].
  assert (Hskip : Forall (ends_by b) (use_list r) ->
    match split_ranges b (S m) rl with
    | (SPLIT_IMPOSSIBLE, _) => Exists (fun u => use_begin u < b < use_end u) (use_list r ++ concat (use_list <$> rl))
    | (SPLIT_CONFLICT, None) => False
    | (SPLIT_OK, None) => Forall (ends_by b) (use_list r ++ concat (use_list <$> rl))
    | (k, Some (m', n')) =>
        exists rpre r' rpost pre u post, r :: rl = rpre ++ r' :: rpost /\ use_list r' = pre ++ u :: post /\
          m' = (m + length rpre)%nat /\ n' = length pre /\
          Forall (ends_by b) (concat (use_list <$> rpre)) /\ Forall (ends_by b) pre /\
          b <= use_begin u /\ (k = SPLIT_OK -> b < use_begin u) /\ (k = SPLIT_CONFLICT -> use_begin u = b)
    end).
  { intros Hu; specialize (IH (S m) Hrl); destruct (split_ranges b (S m) rl) as [[] [[m' n'] |]]; try done;
      try (apply Exists_app; by right); try (by apply Forall_app).
    all: destruct IH as (rpre & r' & rpost & pre & u & post & -> & ? & -> & ? & ? & ?);
      exists (r :: rpre), r', rpost, pre, u, post; cbn [length app fmap list_fmap concat];
      rewrite Forall_app; repeat split; try done; try lia; tauto. }
  destruct (Z.leb_spec (lr_end r) b) as [Hend | Hend]; [exact (Hskip (uses_end_by _ _ Hr Hend)) |].
  pose proof (split_uses_spec b m 0 (use_list r)) as Hsp.
  destruct (split_uses b m 0 (use_list r)) as [[[] [[m' n'] |]] |]; try done; try exact (Hskip Hsp);
    try (apply Exists_app; by left).
  all: destruct Hsp as (-> & pre & u & post & Hu & -> & ? & ? & ? & ? & ?);
    exists [], r, rl, pre, u, post; cbn; repeat split; try done; try lia; constructor.
Qed.

(** *** What a split leaves *)

Definition begins_sorted : list VRegUse -> Prop := StronglySorted (fun u u' => use_begin u <= use_begin u').

Lemma StronglySorted_concat {A} (R : A -> A -> Prop) (ls : list (list A)) :
  Forall (StronglySorted R) ls ->
  StronglySorted (fun l l' => forall x y, x ∈ l -> y ∈ l' -> R x y) ls ->
  StronglySorted R (concat ls).
Proof.
  induction ls as [| l ls IH]; cbn [concat]; [constructor |].
  rewrite Forall_cons; intros [Hl Hls] Hs; inversion Hs as [| ? ? Hs' Hf]; subst.
  apply StronglySorted_app; split; [| split; [done | by apply IH]].
  intros x y Hx (l' & Hl' & Hy)%list_elem_of_In%in_concat.
  rewrite Forall_forall in Hf; eapply Hf; [apply list_elem_of_In | | apply list_elem_of_In]; done.
Qed.

Lemma use_in_range r u : range_uses_ok r -> u ∈ use_list r ->
  lr_begin r <= use_begin u /\ use_begin u < use_end u /\ use_end u <= lr_end r.
Proof. intros [Hf _] Hu; rewrite Forall_forall in Hf; by apply Hf. Qed.

Lemma lt_uses_sorted l : lifetime_ok l -> begins_sorted (lt_uses l).
Proof.
  intros [[_ Hs] Hu]; apply StronglySorted_concat.
  - rewrite Forall_fmap; eapply Forall_impl; [exact Hu |]; by intros r [_ ?].
  - revert Hs Hu; generalize (range_list l) as rl; induction 1 as [| r rl Hs IH Hf]; [constructor |].
    rewrite Forall_cons; intros [Hr Hrl]; cbn [fmap list_fmap]; constructor; [by apply IH |].
    rewrite Forall_fmap, Forall_forall; intros r' Hr' x y Hx Hy; cbn in *.
    rewrite Forall_forall in Hf, Hrl; specialize (Hf _ Hr'); specialize (Hrl _ Hr').
    pose proof (use_in_range r x Hr Hx); pose proof (use_in_range r' y Hrl Hy); lia.
Qed.

Lemma ranges_ok_app_l rl rl' : ranges_ok (rl ++ rl') -> ranges_ok rl.
Proof. unfold ranges_ok; rewrite Forall_app, StronglySorted_app; tauto. Qed.

Lemma ranges_ok_set_uses rl r us : ranges_ok (rl ++ [r]) -> ranges_ok (rl ++ [set_use_list us r]).
Proof.
  unfold ranges_ok; rewrite !Forall_app, !Forall_singleton, !StronglySorted_app.
  intros [[? ?] (Hx & ? & ?)]; repeat split; try done; [| by repeat constructor].
  intros x y Hxin Hy; apply list_elem_of_singleton in Hy as ->; cbn; apply (Hx x r); [done |].
  by apply list_elem_of_singleton.
Qed.

Lemma range_uses_ok_prefix r us us' :
  use_list r = us ++ us' -> range_uses_ok r -> range_uses_ok (set_use_list us r).
Proof. unfold range_uses_ok; cbn; intros ->; rewrite Forall_app, StronglySorted_app; tauto. Qed.

Lemma ranges_before_app rpre r rpost pre u post :
  use_list r = pre ++ u :: post ->
  ranges_before (length rpre, length pre) (rpre ++ r :: rpost) =
  rpre ++ match pre with [] => [] | _ => [set_use_list pre r] end.
Proof.
  intros Hu; unfold ranges_before; cbn [fst snd].
  rewrite take_app_length, drop_app_length, Hu, take_app_length; by destruct pre.
Qed.

Lemma uses_from_app rpre r rpost pre u post :
  use_list r = pre ++ u :: post ->
  uses_from (length rpre, length pre) (rpre ++ r :: rpost) = u :: post ++ concat (use_list <$> rpost).
Proof.
  intros Hu; unfold uses_from; cbn [fst snd]; by rewrite drop_app_length, Hu, drop_app_length.
Qed.

(** The uses of the lifetime are divided: those that are left end by the split
    position, those of the tiny lifetimes begin at it or later. *)
Record split_at (b : Z) (k : SplitKind) (l l' : VRegLifetime) (us : list VRegUse) : Prop := {
  sa_uses : lt_uses l = lt_uses l' ++ us;
  sa_before : Forall (ends_by b) (lt_uses l');
  sa_after : Forall (fun u => b <= use_begin u) us;
  sa_strict : k = SPLIT_OK -> Forall (fun u => b < use_begin u) us;
  sa_sorted : begins_sorted us;
  sa_ok : lifetime_ok l';
  sa_same : l' = set_range_list (range_list l') l
}.

Lemma Split_spec b l k pos :
  lifetime_ok l -> FindSplitPos b l = (k, pos) -> k <> SPLIT_IMPOSSIBLE ->
  exists us, (Split pos l).2 = tiny_lifetime (spill_slot l) <$> us /\ split_at b k l (Split pos l).1 us.
Proof.
  intros Hok Hf Hk; pose proof (lt_uses_sorted l Hok) as Hsort; destruct Hok as [Hr Hu].
  pose proof (split_ranges_spec b 0 (range_list l) Hu) as Hsp.
  unfold FindSplitPos in Hf; rewrite Hf in Hsp; destruct pos as [[m n] |].
  2:{ exists []; split; [done |]; destruct k; [done | done |].
      cbn; split; cbn; rewrite ?app_nil_r; try done; try constructor; try done; by destruct l. }
  assert (exists rpre r rpost pre u post, range_list l = rpre ++ r :: rpost /\ use_list r = pre ++ u :: post /\
    m = length rpre /\ n = length pre /\ Forall (ends_by b) (concat (use_list <$> rpre)) /\
    Forall (ends_by b) pre /\ b <= use_begin u /\ (k = SPLIT_OK -> b < use_begin u))
    as (rpre & r & rpost & pre & u & post & Hrl & Hul & -> & -> & Hb1 & Hb2 & Hge & Hgt).
  { destruct k; [done | |]; destruct Hsp as (rpre & r & rpost & pre & u & post & ? & ? & ? & ? & ? & ? & ? & ? & ?);
      exists rpre, r, rpost, pre, u, post; by repeat split. }
  clear Hsp Hf; cbn [Split fst snd]; exists (uses_from (length rpre, length pre) (range_list l)); split; [done |].
  assert (Hl : lt_uses l = (concat (use_list <$> rpre) ++ pre) ++ u :: post ++ concat (use_list <$> rpost)).
  { unfold lt_uses; rewrite Hrl, fmap_app, concat_app; cbn; by rewrite Hul, <- !app_assoc. }
  rewrite Hl in Hsort; apply StronglySorted_app in Hsort as (_ & _ & Hsort).
  assert (Hfa : Forall (fun v => use_begin u <= use_begin v) (u :: post ++ concat (use_list <$> rpost))).
  { inversion Hsort; subst; constructor; [lia | done]. }
  assert (Hl' : lt_uses (set_range_list (ranges_before (length rpre, length pre) (range_list l)) l)
                = concat (use_list <$> rpre) ++ pre).
  { unfold lt_uses; cbn [range_list set_range_list]; rewrite Hrl, (ranges_before_app _ _ _ _ _ _ Hul).
    rewrite fmap_app, concat_app; f_equal; destruct pre; cbn; [done | by rewrite app_nil_r]. }
  rewrite Hrl, (uses_from_app _ _ _ _ _ _ Hul) in *; rewrite Forall_app, Forall_cons in Hu.
  destruct Hu as (Hup & Hur & _).
  assert (Hr' : ranges_ok (rpre ++ [r])).
  { apply (ranges_ok_app_l _ rpost); by rewrite <- app_assoc. }
  split; rewrite ?Hl'; try done.
  - by apply Forall_app.
  - eapply Forall_impl; [exact Hfa |]; cbn; lia.
  - intros Hko; specialize (Hgt Hko); eapply Forall_impl; [exact Hfa |]; cbn; lia.
  - split; cbn [range_list set_range_list]; rewrite (ranges_before_app _ _ _ _ _ _ Hul).
    + destruct pre; [rewrite app_nil_r; by eapply ranges_ok_app_l | by apply ranges_ok_set_uses].
    + apply Forall_app; split; [done |]; destruct pre; constructor; [| constructor].
      by eapply range_uses_ok_prefix.
Qed.
