(* ===== verification/LifetimeAnalysis.v ===== *)
(** * Collecting the lifetimes

    [VRegLifetimeAnalysis] of [src/backend/common/lifetime_analysis.cc] and
    [CollectLifetimes] of [src/backend/common/reg_alloc.cc]: the walk over the
    instructions in the order of the block list, two ticks per instruction,
    that makes one lifetime per virtual register. *)
From stdpp Require Import gmap list sorting.
From S2P Require Import Prelude MachineIR Lifetime.
#[local] Open Scope Z_scope.

(** [vreg_lifetimes] maps the index of a virtual register to its lifetime; an
    index without an entry is a null pointer or lies past the end of the
    vector. *)
Record VRegLifetimeAnalysis := {
  an_lifetimes : Store;
  tick : Z;
  bb_tick : Z;
  vreg_lifetimes : gmap nat LifetimePtr
}.

Definition new_analysis : VRegLifetimeAnalysis :=
  {| an_lifetimes := []; tick := 0; bb_tick := 0; vreg_lifetimes := ∅ |}.

Definition set_lifetimes (st : Store) (an : VRegLifetimeAnalysis) : VRegLifetimeAnalysis :=
  {| an_lifetimes := st; tick := tick an; bb_tick := bb_tick an; vreg_lifetimes := vreg_lifetimes an |}.

Definition GetVRegLifetime (r : MachineReg) (b : Z) (an : VRegLifetimeAnalysis)
    : option (LifetimePtr * VRegLifetimeAnalysis) :=
  i ← GetVRegIndex r;
  match vreg_lifetimes an !! i with
  | Some p =>
      l ← an_lifetimes an !! p;
      lb ← LastLiveRangeBegin l;
      Some (p, if lb <? bb_tick an
               then set_lifetimes (<[p := StartLiveRange b l]> (an_lifetimes an)) an else an)
  | None =>
      let p := length (an_lifetimes an) in
      Some (p, {| an_lifetimes := an_lifetimes an ++ [new_lifetime b]; tick := tick an;
                  bb_tick := bb_tick an; vreg_lifetimes := <[i := p]> (vreg_lifetimes an) |})
  end.

(** [r] is the register of the use's operand. *)
Definition AppendVRegUse (r : MachineReg) (u : VRegUse) (an : VRegLifetimeAnalysis)
    : option VRegLifetimeAnalysis :=
  '(p, an) ← GetVRegLifetime r (use_begin u) an;
  l ← an_lifetimes an !! p;
  l ← AppendUse u l;
  Some (set_lifetimes (<[p := l]> (an_lifetimes an)) an).

Definition TrySetMoveHint (i : MachineInsn) (an : VRegLifetimeAnalysis) : option VRegLifetimeAnalysis :=
  if is_copy i then
    dst ← RegAt i 0;
    if IsVReg dst then
      src ← RegAt i 1;
      if IsVReg src then
        di ← GetVRegIndex dst; si ← GetVRegIndex src;
        dp ← vreg_lifetimes an !! di; sp ← vreg_lifetimes an !! si;
        st ← SetMoveHint (an_lifetimes an) dp sp;
        Some (set_lifetimes st an)
      else Some an
    else Some an
  else Some an.

(** The first walk over the operands appends the uses and use-defs, the
    second the defs. *)
Definition early_use (pos : MachineInsnListPosition) (n : nat) (t : Z) (k : MachineRegKind) : VRegUse :=
  {| use_pos := pos; use_index := n; use_begin := t; use_end := t + (if IsDef k then 2 else 1); use_kind := k |}.
Definition late_use (pos : MachineInsnListPosition) (n : nat) (t : Z) (k : MachineRegKind) : VRegUse :=
  {| use_pos := pos; use_index := n; use_begin := t + 1; use_end := t + 2; use_kind := k |}.

Fixpoint add_early (pos : MachineInsnListPosition) (n : nat) (ops : list (MachineReg * MachineRegKind))
    (an : VRegLifetimeAnalysis) : option VRegLifetimeAnalysis :=
  match ops with
  | [] => Some an
  | (r, k) :: ops =>
      an ← (if IsVReg r && IsUse k then AppendVRegUse r (early_use pos n (tick an) k) an else Some an);
      add_early pos (S n) ops an
  end.

Fixpoint add_late (pos : MachineInsnListPosition) (n : nat) (ops : list (MachineReg * MachineRegKind))
    (an : VRegLifetimeAnalysis) : option VRegLifetimeAnalysis :=
  match ops with
  | [] => Some an
  | (r, k) :: ops =>
      an ← (if IsVReg r && negb (IsUse k) then AppendVRegUse r (late_use pos n (tick an) k) an else Some an);
      add_late pos (S n) ops an
  end.

Definition next_tick (an : VRegLifetimeAnalysis) : VRegLifetimeAnalysis :=
  {| an_lifetimes := an_lifetimes an; tick := tick an + 2; bb_tick := bb_tick an;
     vreg_lifetimes := vreg_lifetimes an |}.

Definition AddInsn (pos : MachineInsnListPosition) (i : MachineInsn) (an : VRegLifetimeAnalysis)
    : option VRegLifetimeAnalysis :=
  an ← add_early pos 0 (operands i) an;
  an ← add_late pos 0 (operands i) an;
  an ← TrySetMoveHint i an;
  Some (next_tick an).

Definition SetLiveIn (r : MachineReg) (an : VRegLifetimeAnalysis) : option VRegLifetimeAnalysis :=
  if tick an =? bb_tick an then snd <$> GetVRegLifetime r (tick an) an else None.

Definition SetLiveOut (r : MachineReg) (an : VRegLifetimeAnalysis) : option VRegLifetimeAnalysis :=
  i ← GetVRegIndex r;
  p ← vreg_lifetimes an !! i;
  Some (set_lifetimes (alter (lt_set_end (tick an)) p (an_lifetimes an)) an).

Definition EndBasicBlock (an : VRegLifetimeAnalysis) : VRegLifetimeAnalysis :=
  {| an_lifetimes := an_lifetimes an; tick := tick an; bb_tick := tick an;
     vreg_lifetimes := vreg_lifetimes an |}.

(** ** The walk over the blocks *)

Fixpoint add_insns (bb : BlockPtr) (n : nat) (l : list MachineInsn) (an : VRegLifetimeAnalysis)
    : option VRegLifetimeAnalysis :=
  match l with
  | [] => Some an
  | i :: l => an ← AddInsn (bb, n) i an; add_insns bb (S n) l an
  end.

Fixpoint for_each {A B} (f : A -> B -> option B) (l : list A) (b : B) : option B :=
  match l with
  | [] => Some b
  | a :: l => b ← f a b; for_each f l b
  end.

Definition collect_block (bb : BlockPtr) (b : MachineBasicBlock) (an : VRegLifetimeAnalysis)
    : option VRegLifetimeAnalysis :=
  an ← for_each SetLiveIn (live_in b) an;
  an ← add_insns bb 0 (insn_list b) an;
  an ← for_each SetLiveOut (live_out b) an;
  Some (EndBasicBlock an).

(** The arena of lifetimes; the list is filled in the order of the arena. *)
Definition CollectLifetimes (ir : MachineIR) : option Store :=
  an ← for_each (fun bb an => b ← blocks ir !! bb; collect_block bb b an) (bb_list ir) new_analysis;
  Some (an_lifetimes an).
