(* ===== verification/RegAlloc.v ===== *)
(** * The register allocator

    The linear scan of [src/backend/common/reg_alloc.cc]: the lifetimes are
    taken in the order of a list, each is given a hard register whose current
    lifetimes it does not interfere with, or one whose interfering lifetimes
    can be spilled; the uses of a spilled lifetime that are still to come
    become tiny lifetimes and are merged into the list.

    The arena of lifetimes is a list and a pointer is a position in it; the
    list that is walked is a list of pointers, an iterator of it is the
    element it points to, [None] for [end()].  A failed [CHECK] and a null or
    dangling pointer are [None]. *)
From stdpp Require Import gmap list sorting.
From S2P Require Import Prelude MachineIR Lifetime LifetimeAnalysis.
#[local] Open Scope Z_scope.

Definition kInfiniteSpillWeight : Z := 99999.
Definition kMaxHardRegs : nat := 64.

(** ** One hard register *)

Record HardRegAllocation := {
  ha_lifetimes : list LifetimePtr;
  ha_new_lifetime : option LifetimePtr;
  ha_spills : list (LifetimePtr * SplitPos)
}.
Definition new_HardRegAllocation : HardRegAllocation :=
  {| ha_lifetimes := []; ha_new_lifetime := None; ha_spills := [] |}.

(** The loop of [TryAssign]: whether nothing interferes, and the lifetimes
    that are left when those that end before the new one begins are erased. *)
Fixpoint try_assign (st : Store) (new : VRegLifetime) (cur : list LifetimePtr)
    : option (bool * list LifetimePtr) :=
  match cur with
  | [] => Some (true, [])
  | p :: cur =>
      c ← st !! p; e ← lt_end c; b ← lt_begin new;
      if e <=? b then try_assign st new cur
      else if TestInterference c new then Some (false, p :: cur)
      else '(ok, kept) ← try_assign st new cur; Some (ok, p :: kept)
  end.

Definition TryAssign (st : Store) (p : LifetimePtr) (h : HardRegAllocation)
    : option (bool * HardRegAllocation) :=
  new ← st !! p;
  '(ok, kept) ← try_assign st new (ha_lifetimes h);
  Some (ok, {| ha_lifetimes := if (ok : bool) then kept ++ [p] else kept;
               ha_new_lifetime := Some p; ha_spills := ha_spills h |}).

(** The loop of [ConsiderSpill], with the weight and the spills so far. *)
Fixpoint consider_spill (st : Store) (new : VRegLifetime) (cur : list LifetimePtr)
    (weight : Z) (spills : list (LifetimePtr * SplitPos)) : option (Z * list (LifetimePtr * SplitPos)) :=
  match cur with
  | [] => if weight <? kInfiniteSpillWeight then Some (weight, spills) else None
  | p :: cur =>
      c ← st !! p;
      if TestInterference c new then
        b ← lt_begin new;
        let '(split_kind, split_pos) := FindSplitPos b c in
        match split_kind with
        | SPLIT_IMPOSSIBLE => Some (kInfiniteSpillWeight, spills)
        | _ =>
            blocked ← match split_kind with
                      | SPLIT_CONFLICT =>
                          cc ← reg_class c; nc ← reg_class new; Some (IsSubsetOf cc nc)
                      | _ => Some false
                      end;
            if (blocked : bool) then Some (kInfiniteSpillWeight, spills)
            else consider_spill st new cur
                   (if spill_slot c =? -1 then weight + spill_weight c else weight)
                   (spills ++ [(p, split_pos)])
        end
      else consider_spill st new cur weight spills
  end.

Definition ConsiderSpill (st : Store) (p : LifetimePtr) (h : HardRegAllocation)
    : option (Z * HardRegAllocation) :=
  if decide (ha_new_lifetime h = Some p) then
    new ← st !! p;
    '(weight, spills) ← consider_spill st new (ha_lifetimes h) 0 [];
    Some (weight, {| ha_lifetimes := ha_lifetimes h; ha_new_lifetime := ha_new_lifetime h;
                     ha_spills := spills |})
  else None.

(** ** The merge *)

Definition begin_of (st : Store) (p : LifetimePtr) : option Z := st !! p ≫= lt_begin.

(** The elements that are passed before one begins after [b]. *)
Fixpoint advance (st : Store) (b : Z) (dst : list LifetimePtr)
    : option (list LifetimePtr * list LifetimePtr) :=
  match dst with
  | [] => Some ([], [])
  | d :: dst' =>
      db ← begin_of st d;
      if b <? db then Some ([], dst)
      else '(passed, rest) ← advance st b dst'; Some (d :: passed, rest)
  end.

Fixpoint merge_loop (st : Store) (dst src : list LifetimePtr) : option (list LifetimePtr) :=
  match src with
  | [] => Some dst
  | c :: src =>
      b ← begin_of st c;
      '(passed, rest) ← advance st b dst;
      merged ← merge_loop st rest src;
      Some (passed ++ c :: merged)
  end.

(** The list before and from an iterator on. *)
Fixpoint break_at (pos : LifetimePtr) (l : list LifetimePtr) : list LifetimePtr * list LifetimePtr :=
  match l with
  | [] => ([], [])
  | x :: l' => if decide (x = pos) then ([], l)
               else let '(pre, post) := break_at pos l' in (x :: pre, post)
  end.

Definition MergeVRegLifetimeList (st : Store) (dst : list LifetimePtr) (dst_pos : option LifetimePtr)
    (src : list LifetimePtr) : option (list LifetimePtr) :=
  let '(pre, post) := match dst_pos with Some pos => break_at pos dst | None => (dst, []) end in
  post ← merge_loop st post src; Some (pre ++ post).

(** ** Spilling *)

(** The lifetime that is spilled and the arena with the tiny lifetimes it is
    split into, with their pointers. *)
Definition spill_one (st : Store) (slot : Z) (p : LifetimePtr) (pos : SplitPos)
    : option (Store * list LifetimePtr) :=
  l ← st !! p;
  let l := if spill_slot l =? -1 then SetSpill slot l else l in
  let '(l, tiny) := Split pos l in
  Some (<[p := l]> st ++ tiny, seq (length st) (length tiny)).

Fixpoint spill_loop (st : Store) (order : list LifetimePtr) (slot : Z) (pos : option LifetimePtr)
    (cur : list LifetimePtr) (spills : list (LifetimePtr * SplitPos))
    : option (Store * list LifetimePtr * list LifetimePtr) :=
  match spills with
  | [] => Some (st, order, cur)
  | (p, sp) :: spills =>
      '(st, split) ← spill_one st slot p sp;
      order ← MergeVRegLifetimeList st order pos split;
      spill_loop st order slot pos (filter (fun q => q <> p) cur) spills
  end.

Definition SpillAndAssign (st : Store) (order : list LifetimePtr) (p : LifetimePtr) (slot : Z)
    (pos : option LifetimePtr) (h : HardRegAllocation)
    : option (Store * list LifetimePtr * HardRegAllocation) :=
  if decide (ha_new_lifetime h = Some p /\ ha_spills h <> []) then
    '(st, order, cur) ← spill_loop st order slot pos (ha_lifetimes h) (ha_spills h);
    Some (st, order, {| ha_lifetimes := cur ++ [p]; ha_new_lifetime := ha_new_lifetime h;
                        ha_spills := ha_spills h |})
  else None.

(** ** The allocator *)

Record Allocator := {
  al_ir : MachineIR;
  al_store : Store;
  al_order : list LifetimePtr;
  allocations : list HardRegAllocation
}.

Definition new_Allocator (ir : MachineIR) (st : Store) (order : list LifetimePtr) : Allocator :=
  {| al_ir := ir; al_store := st; al_order := order;
     allocations := replicate kMaxHardRegs new_HardRegAllocation |}.

Definition set_allocation (r : MachineReg) (h : HardRegAllocation) (a : Allocator) : Allocator :=
  {| al_ir := al_ir a; al_store := al_store a; al_order := al_order a;
     allocations := <[Z.to_nat r := h]> (allocations a) |}.
Definition set_store (st : Store) (a : Allocator) : Allocator :=
  {| al_ir := al_ir a; al_store := st; al_order := al_order a; allocations := allocations a |}.

Definition TryAssignHardReg (p : LifetimePtr) (r : MachineReg) (a : Allocator) : option (bool * Allocator) :=
  h ← allocations a !! Z.to_nat r;
  '(ok, h) ← TryAssign (al_store a) p h;
  let a := set_allocation r h a in
  Some (ok, if (ok : bool) then set_store (alter (set_hard_reg r) p (al_store a)) a else a).

Definition ConsiderSpillHardReg (r : MachineReg) (p : LifetimePtr) (a : Allocator) : option (Z * Allocator) :=
  h ← allocations a !! Z.to_nat r;
  '(weight, h) ← ConsiderSpill (al_store a) p h;
  Some (weight, set_allocation r h a).

(** [n] is the position of the lifetime in the list. *)
Definition SpillAndAssignHardReg (r : MachineReg) (n : nat) (p : LifetimePtr) (a : Allocator)
    : option Allocator :=
  let next := al_order a !! S n in
  let '(slot, ir) := AllocSpill (al_ir a) in
  h ← allocations a !! Z.to_nat r;
  '(st, order, h) ← SpillAndAssign (al_store a) (al_order a) p slot next h;
  Some {| al_ir := ir; al_store := alter (set_hard_reg r) p st; al_order := order;
          allocations := <[Z.to_nat r := h]> (allocations a) |}.

(** The walk over the registers of the class. *)
Fixpoint try_regs (p : LifetimePtr) (pref : MachineReg) (rs : list MachineReg) (a : Allocator)
    : option (bool * Allocator) :=
  match rs with
  | [] => Some (false, a)
  | r :: rs =>
      if r =? pref then try_regs p pref rs a
      else '(ok, a) ← TryAssignHardReg p r a;
           if (ok : bool) then Some (true, a) else try_regs p pref rs a
  end.

(** The walk that looks for the cheapest spill. *)
Fixpoint best_spill (p : LifetimePtr) (rs : list MachineReg) (best_weight : Z) (best : MachineReg)
    (a : Allocator) : option (Z * MachineReg * Allocator) :=
  match rs with
  | [] => Some (best_weight, best, a)
  | r :: rs =>
      '(weight, a) ← ConsiderSpillHardReg r p a;
      if weight <? best_weight then best_spill p rs weight r a
      else best_spill p rs best_weight best a
  end.

Definition AllocateLifetime (n : nat) (p : LifetimePtr) (a : Allocator) : option Allocator :=
  l ← al_store a !! p;
  c ← reg_class l;
  '(hint, st) ← FindMoveHint (al_store a) p;
  let a := set_store st a in
  pref ← hard_reg <$> st !! hint;
  '(ok, a) ← (if HasReg c pref then TryAssignHardReg p pref a else Some (false, a));
  if (ok : bool) then Some a else
  '(ok, a) ← try_regs p pref (class_regs c) a;
  if (ok : bool) then Some a else
  '(weight, best, a) ← best_spill p (class_regs c) kInfiniteSpillWeight 0 a;
  if weight <? kInfiniteSpillWeight then SpillAndAssignHardReg best n p a else None.

(** The loop of [Allocate] from the [n]-th element of the list: whether it
    came to the end of the list within [fuel] iterations. *)
Fixpoint allocate_loop (fuel : nat) (n : nat) (a : Allocator) : option (bool * Allocator) :=
  match al_order a !! n with
  | None => Some (true, a)
  | Some p =>
      match fuel with
      | O => Some (false, a)
      | S fuel => a ← AllocateLifetime n p a; allocate_loop fuel (S n) a
      end
  end.

(** ** Rewriting

    While the instructions are rewritten, a block is kept as the instructions
    it had with those inserted right before and right after each of them, so
    that a position stays valid. *)
Record Node := { inserted_before : list MachineInsn; node_insn : MachineInsn; inserted_after : list MachineInsn }.

Definition node_of (i : MachineInsn) : Node :=
  {| inserted_before := []; node_insn := i; inserted_after := [] |}.
Definition node_insns (n : Node) : list MachineInsn := inserted_before n ++ node_insn n :: inserted_after n.

(** Next to the position, as [std::list::insert] does. *)
Definition InsertBefore (i : MachineInsn) (n : Node) : Node :=
  {| inserted_before := inserted_before n ++ [i]; node_insn := node_insn n; inserted_after := inserted_after n |}.
Definition InsertAfter (i : MachineInsn) (n : Node) : Node :=
  {| inserted_before := inserted_before n; node_insn := node_insn n; inserted_after := i :: inserted_after n |}.
Definition node_SetRegAt (k : nat) (r : MachineReg) (n : Node) : Node :=
  {| inserted_before := inserted_before n; node_insn := SetRegAt k r (node_insn n);
     inserted_after := inserted_after n |}.

(** The use of a spilled register is read from its slot: by the copy itself,
    unless its destination is a slot too, or by a copy before. *)
Definition rewrite_use (u : VRegUse) (reg spill : MachineReg) (n : Node) : option Node :=
  dst ← (if is_copy (node_insn n) then RegAt (node_insn n) 0 else Some 0);
  if is_copy (node_insn n) && negb (IsSpilledReg dst) then
    if (use_index u =? 1)%nat then Some (node_SetRegAt 1 spill n) else None
  else Some (InsertBefore (new_PseudoCopy reg spill (RegSize (GetRegClass u))) n).

Definition rewrite_def (u : VRegUse) (reg spill : MachineReg) (n : Node) : option Node :=
  src ← (if is_copy (node_insn n) then RegAt (node_insn n) 1 else Some 0);
  if is_copy (node_insn n) && negb (IsSpilledReg src) then
    if (use_index u =? 0)%nat then Some (node_SetRegAt 0 spill n) else None
  else Some (InsertAfter (new_PseudoCopy spill reg (RegSize (GetRegClass u))) n).

Definition RewriteVReg (ir : MachineIR) (u : VRegUse) (reg : MachineReg) (slot : Z) (n : Node) : option Node :=
  let n := node_SetRegAt (use_index u) reg n in
  if slot =? -1 then Some n else
  spill ← CreateSpilledRegFromIndex (SpillSlotOffset ir slot);
  n ← (if IsUse (use_kind u) then rewrite_use u reg spill n else Some n);
  if IsDef (use_kind u) then rewrite_def u reg spill n else Some n.

Abbreviation NodeMap := (gmap nat (list Node)) (only parsing).

Definition rewrite_one (ir : MachineIR) (reg : MachineReg) (slot : Z) (u : VRegUse) (m : NodeMap) : option NodeMap :=
  ns ← m !! (use_pos u).1;
  n ← ns !! (use_pos u).2;
  n ← RewriteVReg ir u reg slot n;
  Some (<[(use_pos u).1 := <[(use_pos u).2 := n]> ns]> m).

(** [VRegLifetime::Rewrite]. *)
Definition Rewrite (ir : MachineIR) (l : VRegLifetime) (m : NodeMap) : option NodeMap :=
  for_each (rewrite_one ir (hard_reg l) (spill_slot l)) (lt_uses l) m.

Definition RewriteAllocatedLifetimes (a : Allocator) (m : NodeMap) : option NodeMap :=
  for_each (fun p m => l ← al_store a !! p; Rewrite (al_ir a) l m) (al_order a) m.

Definition nodes_of_ir (ir : MachineIR) : NodeMap := (fun b => node_of <$> insn_list b) <$> blocks ir.

Definition ir_of_nodes (ir : MachineIR) (m : NodeMap) : MachineIR :=
  set_blocks (merge (fun b ns => match b, ns with
                                 | Some b, Some ns => Some (set_insn_list (concat (node_insns <$> ns)) b)
                                 | _, _ => b
                                 end) (blocks ir) m) ir.

Definition AllocRegs (fuel : nat) (ir : MachineIR) : option (bool * MachineIR) :=
  st ← CollectLifetimes ir;
  '(finished, a) ← allocate_loop fuel 0 (new_Allocator ir st (seq 0 (length st)));
  if (finished : bool) then
    m ← RewriteAllocatedLifetimes a (nodes_of_ir ir);
    Some (true, ir_of_nodes (al_ir a) m)
  else Some (false, ir).
