(* ===== verification/RegAllocProps.v ===== *)
(** * Properties of the register allocator *)
From stdpp Require Import list sorting.
From S2P Require Import Prelude MachineIR Lifetime LifetimeAnalysis RegAlloc.
#[local] Open Scope Z_scope.

(** ** Register classes *)

(** The mask of a class holds its registers, which are hard registers below
    [kMaxHardRegs]. *)
Definition wf_class (c : MachineRegClass) : Prop :=
  Forall (fun r => 0 < r < Z.of_nat kMaxHardRegs) (class_regs c) /\ reg_mask c = mask_of (class_regs c).

Lemma HasReg_testbit c r : 0 <= r -> HasReg c r = Z.testbit (reg_mask c) r.
Proof.
  intros Hr; unfold HasReg.
  assert (Hs : forall i, 0 <= i -> Z.testbit (Z.shiftl 1 r) i = bool_decide (i = r)).
  { intros i Hi; rewrite testbit_shiftl; destruct (Z.leb_spec 0 i); [| lia]; cbn [andb].
    case_bool_decide; [subst; by rewrite Z.sub_diag |].
    destruct (decide (i < r)); [apply Z.testbit_neg_r; lia |].
    apply (testbit_bounded 1 1); lia. }
  destruct (Z.testbit (reg_mask c) r) eqn:Ht.
  - apply negb_true_iff, Z.eqb_neq; intros H0.
    assert (Z.testbit (Z.land (reg_mask c) (Z.shiftl 1 r)) r = false) as Hb by (rewrite H0; apply Z.bits_0).
    rewrite Z.land_spec, Ht, Hs, bool_decide_eq_true_2 in Hb; done.
  - apply negb_false_iff, Z.eqb_eq, Z.bits_inj'; intros i Hi.
    rewrite Z.land_spec, Z.bits_0, Hs by done; case_bool_decide; [subst; by rewrite Ht | apply andb_false_r].
Qed.

Lemma mask_of_testbit rs r :
  Forall (fun r => 0 < r) rs -> 0 <= r -> Z.testbit (mask_of rs) r = bool_decide (r ∈ rs).
Proof.
  intros Hrs Hr; induction Hrs as [| x rs Hx Hrs IH]; cbn [mask_of foldr].
  - by rewrite Z.bits_0.
  - change (foldr (fun r m => Z.lor (Z.shiftl 1 r) m) 0 rs) with (mask_of rs).
    rewrite Z.lor_spec, IH, testbit_shiftl.
    destruct (Z.leb_spec 0 r); [| lia]; cbn [andb].
    destruct (decide (r = x)) as [-> |].
    + assert (bool_decide (x ∈ x :: rs) = true) as -> by (apply bool_decide_eq_true, elem_of_cons; by left).
      by rewrite Z.sub_diag.
    + assert (Z.testbit 1 (r - x) = false) as ->.
      { destruct (decide (r < x)); [apply Z.testbit_neg_r; lia | apply (testbit_bounded 1 1); lia]. }
      cbn [orb]; apply bool_decide_ext; rewrite elem_of_cons; tauto.
Qed.

Lemma HasReg_class c r : wf_class c -> 0 <= r -> HasReg c r = true <-> r ∈ class_regs c.
Proof.
  intros [Hf Hm] Hr; assert (Forall (fun r => 0 < r) (class_regs c)).
  { eapply Forall_impl; [exact Hf |]; cbn; lia. }
  rewrite HasReg_testbit, Hm, mask_of_testbit by done.
  by rewrite bool_decide_eq_true.
Qed.

Lemma IsSubsetOf_regs c c' r :
  0 <= r -> IsSubsetOf c c' = true -> HasReg c r = true -> HasReg c' r = true.
Proof.
  intros Hr; rewrite !HasReg_testbit by done; unfold IsSubsetOf; rewrite Z.eqb_eq; intros Hs Ht.
  rewrite <- Hs, Z.land_spec in Ht; by apply andb_true_iff in Ht as [_ ?].
Qed.

Lemma GetIntersection_subset c c' d :
  GetIntersection c c' = Some d -> (d = c \/ d = c') /\ IsSubsetOf d c = true /\ IsSubsetOf d c' = true.
Proof.
  unfold GetIntersection, IsSubsetOf.
  destruct (Z.eqb_spec (Z.land (reg_mask c) (reg_mask c')) (reg_mask c)) as [H1 | H1];
    [| destruct (Z.eqb_spec (Z.land (reg_mask c) (reg_mask c')) (reg_mask c')) as [H2 | H2]]; [| | done];
    intros [= <-]; rewrite !Z.eqb_eq, Z.land_diag; repeat split; auto.
  by rewrite Z.land_comm.
Qed.

(** ** Where a lifetime holds its hard register *)

(** A lifetime that is not spilled holds it over its ranges, a spilled one
    lives in its slot and holds the register only while it is used. *)
Definition occupied (l : VRegLifetime) (t : Z) : Prop :=
  if decide (spill_slot l = -1) then covers (range_list l) t
  else exists u, u ∈ lt_uses l /\ use_begin u <= t < use_end u.

(** No two lifetimes hold one hard register at the same tick. *)
Definition conflict_free (st : Store) : Prop :=
  forall p q lp lq t, st !! p = Some lp -> st !! q = Some lq -> p <> q ->
    hard_reg lp = hard_reg lq -> hard_reg lp <> 0 -> occupied lp t -> occupied lq t -> False.

Lemma use_covers l u t : lifetime_ok l -> u ∈ lt_uses l -> use_begin u <= t < use_end u -> covers (range_list l) t.
Proof.
  intros [_ Hu] (us & Hus & Hin)%list_elem_of_In%in_concat Ht.
  apply list_elem_of_In, list_elem_of_fmap in Hus as (r & -> & Hr); apply list_elem_of_In in Hin.
  rewrite Forall_forall in Hu; pose proof (use_in_range r u (Hu _ Hr) Hin).
  exists r; split; [done | lia].
Qed.

Lemma occupied_covers l t : lifetime_ok l -> occupied l t -> covers (range_list l) t.
Proof. unfold occupied; case_decide; [done |]; intros ? (u & ? & ?); by eapply use_covers. Qed.

Lemma covers_before_end rl t e : ranges_ok rl -> covers rl t -> lr_end <$> last rl = Some e -> t < e.
Proof.
  intros Hok (r & Hr & Ht) He; destruct (last rl) as [r' |] eqn:El; [| done]; injection He as <-.
  apply last_Some in El as [rl' ->]; apply elem_of_app in Hr as [Hr | Hr%list_elem_of_singleton]; [| by subst; lia].
  pose proof (range_in_order _ r' Hok ltac:(apply elem_of_app; right; by apply list_elem_of_singleton)).
  destruct Hok as [_ Hs]; apply StronglySorted_app in Hs as (Hx & _ & _).
  specialize (Hx r r' Hr ltac:(by apply list_elem_of_singleton)); cbn in Hx; lia.
Qed.

Lemma covers_from_begin rl t b : ranges_ok rl -> covers rl t -> lr_begin <$> head rl = Some b -> b <= t.
Proof.
  intros Hok (r & Hr & Ht) Hb; destruct rl as [| r' rl]; [done |]; injection Hb as <-.
  apply ranges_ok_cons in Hok as (? & Hf & _); apply elem_of_cons in Hr as [-> | Hr]; [lia |].
  rewrite Forall_forall in Hf; specialize (Hf _ Hr); cbn in Hf; lia.
Qed.

(** The class of a lifetime fits all its uses and holds the hard register; a
    lifetime that waits for one has a range. *)
Definition classed (l : VRegLifetime) : Prop :=
  exists c, reg_class l = Some c /\ wf_class c /\
    Forall (fun u => wf_class (GetRegClass u) /\ IsSubsetOf c (GetRegClass u) = true) (lt_uses l) /\
    (hard_reg l = 0 /\ range_list l <> [] \/ hard_reg l ∈ class_regs c).

Lemma classed_reg l : classed l -> 0 <= hard_reg l < Z.of_nat kMaxHardRegs.
Proof.
  intros (c & _ & [Hf _] & _ & [[-> _] | Hr]); [unfold kMaxHardRegs; lia |].
  rewrite Forall_forall in Hf; specialize (Hf _ Hr); cbn in Hf; lia.
Qed.

(** ** The state of the scan *)
Section Scan.
(** Whether the lifetimes were met in the order of their first ticks. *)
Context (ord : Prop).

(** [acts] are the lifetimes each hard register tracks; every lifetime that
    has a hard register and is not tracked is out of it before tick [b]. *)
Record scan_ok (b : Z) (st : Store) (acts : list (list LifetimePtr)) : Prop := {
  so_lifetime : forall p l, st !! p = Some l -> lifetime_ok l /\ classed l;
  so_active : forall r ps p, acts !! r = Some ps -> p ∈ ps ->
                exists l, st !! p = Some l /\ hard_reg l = Z.of_nat r /\ hard_reg l <> 0;
  so_nodup : forall r ps, acts !! r = Some ps -> NoDup ps;
  so_past : ord -> forall p l, st !! p = Some l -> hard_reg l <> 0 ->
              (exists ps, acts !! Z.to_nat (hard_reg l) = Some ps /\ p ∈ ps) \/
              (forall t, occupied l t -> t < b);
  so_free : ord -> conflict_free st
}.

Lemma scan_ok_later b b' st acts : (ord -> b <= b') -> scan_ok b st acts -> scan_ok b' st acts.
Proof.
  intros Hb [H1 H2 H3 H4 H5]; split; try done.
  intros Hord p l Hp Hr; specialize (Hb Hord).
  destruct (H4 Hord p l Hp Hr) as [? | Ht]; [by left | right; intros t Ho; specialize (Ht t Ho); lia].
Qed.

(** *** Move hints do not matter *)

Definition same_but_hint (l l' : VRegLifetime) : Prop :=
  range_list l' = range_list l /\ reg_class l' = reg_class l /\ hard_reg l' = hard_reg l /\
  spill_slot l' = spill_slot l /\ spill_weight l' = spill_weight l.

#[export] Instance same_but_hint_equiv : Equivalence same_but_hint.
Proof.
  split; unfold same_but_hint; [done | |].
  - intros l l' (-> & -> & -> & -> & ->); done.
  - intros l1 l2 l3 (-> & -> & -> & -> & ->) (-> & -> & -> & -> & ->); done.
Qed.

Definition same_but_hints : Store -> Store -> Prop := Forall2 same_but_hint.

Lemma same_but_hints_alter st h p : same_but_hints st (alter (set_move_hint h) p st).
Proof.
  unfold same_but_hints; revert p; induction st as [| l st IH]; intros [| p]; cbn; constructor; try done.
Qed.

Lemma find_move_hint_same fuel st p q st' :
  find_move_hint fuel st p = Some (q, st') -> same_but_hints st st'.
Proof.
  revert st p q st'; induction fuel as [| fuel IH]; intros st p q st'; cbn; [done |].
  destruct (st !! p) as [l |]; cbn; [| done]; destruct (move_hint l) as [h |].
  - destruct (find_move_hint fuel st h) as [[root st1] |] eqn:E; cbn; [| done]; intros [= _ <-].
    apply (transitivity (y := st1)); [by eapply IH | apply same_but_hints_alter].
  - intros [= _ <-]; apply reflexivity.
Qed.

Lemma same_but_hint_occupied l l' t : same_but_hint l l' -> occupied l' t <-> occupied l t.
Proof. unfold occupied, lt_uses; by intros (-> & _ & _ & -> & _). Qed.

Lemma same_but_hint_ok l l' : same_but_hint l l' -> lifetime_ok l -> lifetime_ok l'.
Proof. by intros (E & _) [? ?]; split; rewrite E. Qed.

Lemma same_but_hint_classed l l' : same_but_hint l l' -> classed l -> classed l'.
Proof. unfold classed, lt_uses; by intros (-> & -> & -> & _). Qed.

Lemma scan_ok_hints b st st' acts : same_but_hints st st' -> scan_ok b st acts -> scan_ok b st' acts.
Proof.
  intros Hs [H1 H2 H3 H4 H5].
  assert (Hl : forall p l', st' !! p = Some l' -> exists l, st !! p = Some l /\ same_but_hint l l').
  { intros p l' Hp; destruct (Forall2_lookup_r _ _ _ _ _ Hs Hp) as (l & ? & ?); by exists l. }
  split; [| | done | |].
  - intros p l' (l & Hp & Hll)%Hl; destruct (H1 p l Hp); eauto using same_but_hint_ok, same_but_hint_classed.
  - intros r ps p Hr Hp; destruct (H2 r ps p Hr Hp) as (l & Hl1 & Hl2).
    destruct (Forall2_lookup_l _ _ _ _ _ Hs Hl1) as (l' & ? & Hll); exists l'; split; [done |].
    by destruct Hll as (_ & _ & -> & _).
  - intros Hord p l' (l & Hp & Hll)%Hl; pose proof Hll as (_ & _ & -> & _); intros Hr.
    destruct (H4 Hord p l Hp Hr) as [? | Ht]; [by left | right; intros t; rewrite (same_but_hint_occupied l l') by done; auto].
  - intros Hord p q lp' lq' t (lp & Hp & Hlp)%Hl (lq & Hq & Hlq)%Hl Hpq.
    rewrite (same_but_hint_occupied lp lp'), (same_but_hint_occupied lq lq') by done.
    destruct Hlp as (_ & _ & -> & _), Hlq as (_ & _ & -> & _); exact (H5 Hord p q lp lq t Hp Hq Hpq).
Qed.

(** *** Expiring and assigning *)

Lemma lookup_insert_cases {A} (l : list A) i j x y :
  <[i := x]> l !! j = Some y -> (i = j /\ y = x) \/ (i <> j /\ l !! j = Some y).
Proof. rewrite list_lookup_insert_Some; intros [(? & ? & ?) | ?]; auto. Qed.

Lemma scan_ok_expire b st acts r ps kept :
  scan_ok b st acts -> acts !! r = Some ps -> NoDup kept -> kept ⊆ ps ->
  (forall q lq t, q ∈ ps -> q ∉ kept -> st !! q = Some lq -> occupied lq t -> t < b) ->
  scan_ok b st (<[r := kept]> acts).
Proof.
  intros [H1 H2 H3 H4 H5] Hr Hnd Hsub Hexp; split; try done.
  - intros r' ps' p [[<- ->] | [? Hr']]%lookup_insert_cases Hp; [by eapply H2, Hsub | by eapply H2].
  - intros r' ps' [[<- ->] | [? Hr']]%lookup_insert_cases; [done | by eapply H3].
  - intros Hord p l Hp Hl; destruct (H4 Hord p l Hp Hl) as [(ps' & Hps' & Hin) | ?]; [| by right].
    destruct (decide (r = Z.to_nat (hard_reg l))) as [-> |].
    + assert (ps' = ps) as -> by congruence; destruct (decide (p ∈ kept)).
      * left; exists kept; split; [| done]; apply list_lookup_insert_eq; by eapply lookup_lt_Some.
      * right; intros t Ho; by eapply Hexp.
    + left; exists ps'; by rewrite list_lookup_insert_ne.
Qed.

Lemma lookup_alter_cases {A} (f : A -> A) (l : list A) i j y :
  alter f i l !! j = Some y -> exists x, l !! j = Some x /\ ((i = j /\ y = f x) \/ (i <> j /\ y = x)).
Proof.
  destruct (decide (i = j)) as [-> |].
  - rewrite list_lookup_alter_eq; intros (x & -> & ->)%fmap_Some; eauto.
  - rewrite list_lookup_alter_ne by done; eauto.
Qed.

Lemma occupied_set_hard_reg r l t : occupied (set_hard_reg r l) t <-> occupied l t.
Proof. done. Qed.

Lemma scan_ok_assign b st acts r ps p l c :
  scan_ok b st acts -> st !! p = Some l -> hard_reg l = 0 -> lt_begin l = Some b ->
  reg_class l = Some c -> r ∈ class_regs c -> acts !! Z.to_nat r = Some ps ->
  (forall q lq, q ∈ ps -> st !! q = Some lq -> TestInterference lq l = false) ->
  scan_ok b (alter (set_hard_reg r) p st) (<[Z.to_nat r := ps ++ [p]]> acts).
Proof.
  intros Hok Hp H0 Hb Hc Hr Hps Hni; pose proof Hok as [H1 H2 H3 H4 H5].
  destruct (H1 p l Hp) as [Hl Hcl]; pose proof Hcl as (c' & Hc' & Hwf & Hus & _); assert (c' = c) as -> by congruence.
  assert (0 < r < Z.of_nat kMaxHardRegs) as Hrr.
  { destruct Hwf as [Hf _]; rewrite Forall_forall in Hf; by apply Hf. }
  assert (Hnp : p ∉ ps).
  { intros Hin; destruct (H2 _ _ _ Hps Hin) as (l1 & Hl1 & Hh & _); rewrite Hp in Hl1; injection Hl1 as <-; lia. }
  (* nothing that already has the register meets the new lifetime *)
  assert (Hnew : ord -> forall q lq t, st !! q = Some lq -> hard_reg lq = r -> occupied lq t -> occupied l t -> False).
  { intros Hord q lq t Hq Hhr Ho1 Ho2; apply (occupied_covers l) in Ho2; [| done].
    destruct (H4 Hord q lq Hq ltac:(lia)) as [(ps' & Hps' & Hin) | Hpast].
    - rewrite Hhr in Hps'; assert (ps' = ps) as -> by congruence.
      apply occupied_covers in Ho1; [| by eapply H1].
      eapply (no_interference_disjoint (range_list lq) (range_list l) t); [apply (H1 q lq Hq) | apply Hl | | done | done].
      by eapply Hni.
    - specialize (Hpast t Ho1); pose proof (covers_from_begin _ t b (lo_ranges _ Hl) Ho2 Hb); lia. }
  split.
  - intros q lq (x & Hx & [[<- ->] | [? ->]])%lookup_alter_cases; [| by apply (H1 q)].
    rewrite Hp in Hx; injection Hx as <-; split; [by destruct Hl; split |].
    exists c; cbn; auto.
  - intros r' ps' q [[<- ->] | [Hne Hr']]%lookup_insert_cases Hq.
    + apply elem_of_app in Hq as [Hq | ->%list_elem_of_singleton].
      * destruct (H2 _ _ _ Hps Hq) as (lq & ? & ?); exists lq.
        rewrite list_lookup_alter_ne by (intros ->; done); done.
      * exists (set_hard_reg r l); rewrite list_lookup_alter_eq, Hp; cbn; split; [done | lia].
    + destruct (H2 _ _ _ Hr' Hq) as (lq & Hlq & ?); exists lq.
      rewrite list_lookup_alter_ne; [done |]; intros ->.
      rewrite Hp in Hlq; injection Hlq as <-; apply Hne.
      lia.
  - intros r' ps' [[<- ->] | [? Hr']]%lookup_insert_cases; [| by eapply H3].
    apply NoDup_app; split; [by eapply H3 |]; split; [| apply NoDup_singleton].
    by intros x Hx ->%list_elem_of_singleton.
  - intros Hord q lq (x & Hx & [[<- ->] | [Hne ->]])%lookup_alter_cases Hh.
    + left; exists (ps ++ [p]); cbn; rewrite list_lookup_insert_eq by (by eapply lookup_lt_Some).
      split; [done |]; apply elem_of_app; right; by apply list_elem_of_singleton.
    + destruct (H4 Hord q x Hx Hh) as [(ps' & Hps' & Hin) | ?]; [left | by right].
      destruct (decide (Z.to_nat r = Z.to_nat (hard_reg x))) as [E |].
      * exists (ps ++ [p]); rewrite <- E, list_lookup_insert_eq by (by eapply lookup_lt_Some).
        split; [done |]; apply elem_of_app; left; by replace ps with ps' by congruence.
      * exists ps'; by rewrite list_lookup_insert_ne.
  - intros Hord q q' lq lq' t (x & Hx & Hxq)%lookup_alter_cases (x' & Hx' & Hxq')%lookup_alter_cases Hne.
    destruct Hxq as [[<- ->] | [Hnq ->]], Hxq' as [[<- ->] | [Hnq' ->]]; [done | | | by eapply (H5 Hord)].
    + rewrite Hp in Hx; injection Hx as <-; cbn; intros Hh _ Ho Ho'; by eapply (Hnew Hord q' x').
    + rewrite Hp in Hx'; injection Hx' as <-; cbn; intros Hh _ Ho Ho'; by eapply (Hnew Hord q x).
Qed.

(** *** [TryAssign] *)

Lemma try_assign_spec st new cur ok kept b :
  try_assign st new cur = Some (ok, kept) -> lt_begin new = Some b ->
  sublist kept cur /\
  (forall q, q ∈ cur -> q ∉ kept -> exists c e, st !! q = Some c /\ lt_end c = Some e /\ e <= b) /\
  (ok = true -> forall q, q ∈ kept -> exists c, st !! q = Some c /\ TestInterference c new = false).
Proof.
  intros Ht Hb; revert ok kept Ht; induction cur as [| p cur IH]; intros ok kept; cbn.
  - intros [= <- <-]; split; [apply sublist_nil_l | split; [| intros _]]; intros q Hq; by apply not_elem_of_nil in Hq.
  - destruct (st !! p) as [c |] eqn:Hp; cbn; [| done]; destruct (lt_end c) as [e |] eqn:He; cbn; [| done].
    rewrite Hb; cbn; destruct (Z.leb_spec e b) as [Hle | Hle].
    + intros Ht; destruct (IH _ _ Ht) as (H1 & H2 & H3); split; [by constructor | split; [| done]].
      intros q [-> | Hq]%elem_of_cons Hk; [by exists c, e | auto].
    + destruct (TestInterference c new) eqn:Hi.
      * intros [= <- <-]; split; [done | split; [| done]]; intros q Hq Hk; done.
      * destruct (try_assign st new cur) as [[ok' kept'] |]; cbn; [| done]; intros [= <- <-].
        destruct (IH _ _ eq_refl) as (H1 & H2 & H3); split; [by constructor | split].
        -- intros q [-> | Hq]%elem_of_cons [? Hk]%not_elem_of_cons; [done | auto].
        -- intros Hok q [-> | Hq]%elem_of_cons; [by exists c | auto].
Qed.

Lemma ended_before b st acts q c e t :
  scan_ok b st acts -> st !! q = Some c -> lt_end c = Some e -> e <= b -> occupied c t -> t < b.
Proof.
  intros [H1 _ _ _ _] Hq He Hle Ho; destruct (H1 q c Hq) as [Hok _].
  pose proof (covers_before_end _ t e (lo_ranges _ Hok) (occupied_covers c t Hok Ho) He); lia.
Qed.

Definition acts_of (a : Allocator) : list (list LifetimePtr) := ha_lifetimes <$> allocations a.

(** Every lifetime that is tracked was tracked before or is [p]. *)
Definition acts_within (p : LifetimePtr) (acts acts' : list (list LifetimePtr)) : Prop :=
  forall r ps q, acts' !! r = Some ps -> q ∈ ps -> q = p \/ exists ps0, acts !! r = Some ps0 /\ q ∈ ps0.

Lemma acts_within_refl p acts : acts_within p acts acts.
Proof. intros r ps q Hr Hq; right; by exists ps. Qed.

Lemma acts_within_trans p acts1 acts2 acts3 :
  acts_within p acts1 acts2 -> acts_within p acts2 acts3 -> acts_within p acts1 acts3.
Proof. intros H12 H23 r ps q Hr Hq; destruct (H23 r ps q Hr Hq) as [? | (ps2 & ? & ?)]; [by left | by eapply H12]. Qed.

Lemma acts_within_insert p acts r ps ps' :
  acts !! r = Some ps -> (forall q, q ∈ ps' -> q = p \/ q ∈ ps) -> acts_within p acts (<[r := ps']> acts).
Proof.
  intros Hr Hq r' ps1 q [[<- ->] | [? Hr']]%lookup_insert_cases Hin; [| right; by exists ps1].
  destruct (Hq q Hin); [by left | right; by exists ps].
Qed.

(** What an allocation step keeps when it does not give up: the list of
    lifetimes and the arena but for the hard register it assigns. *)
Lemma TryAssignHardReg_ok b p l c r a ok a' :
  scan_ok b (al_store a) (acts_of a) -> al_store a !! p = Some l -> hard_reg l = 0 ->
  lt_begin l = Some b -> reg_class l = Some c -> r ∈ class_regs c ->
  TryAssignHardReg p r a = Some (ok, a') ->
  scan_ok b (al_store a') (acts_of a') /\ al_order a' = al_order a /\ al_ir a' = al_ir a /\
  al_store a' = (if ok then alter (set_hard_reg r) p (al_store a) else al_store a) /\
  acts_within p (acts_of a) (acts_of a').
Proof.
  intros Hok Hp H0 Hb Hc Hr; unfold TryAssignHardReg, TryAssign.
  destruct (allocations a !! Z.to_nat r) as [h |] eqn:Hh; cbn; [| done]; rewrite Hp; cbn.
  destruct (try_assign (al_store a) l (ha_lifetimes h)) as [[ok' kept] |] eqn:Ht; cbn; [| done].
  intros [= <- <-]; destruct (try_assign_spec _ _ _ _ _ _ Ht Hb) as (Hsub & Hexp & Hni).
  assert (Hacts : acts_of a !! Z.to_nat r = Some (ha_lifetimes h)).
  { unfold acts_of; by rewrite list_lookup_fmap, Hh. }
  assert (Hexp' : scan_ok b (al_store a) (<[Z.to_nat r := kept]> (acts_of a))).
  { eapply scan_ok_expire; [done | done | | |].
    - eapply sublist_NoDup; [by eapply so_nodup | done].
    - intros x Hx; by eapply elem_of_sublist.
    - intros q lq t Hq Hk Hlq Ho; destruct (Hexp q Hq Hk) as (c' & e & Hc' & He & Hle).
      rewrite Hlq in Hc'; injection Hc' as <-; by eapply ended_before. }
  assert (Hwi : acts_within p (acts_of a) (acts_of (set_allocation r
      {| ha_lifetimes := if ok' then kept ++ [p] else kept; ha_new_lifetime := Some p; ha_spills := ha_spills h |} a))).
  { unfold acts_of at 2; cbn [allocations set_allocation]; rewrite list_fmap_insert; cbn [ha_lifetimes].
    eapply acts_within_insert; [exact Hacts |]; intros q Hq.
    assert (q ∈ kept \/ q = p) as [Hq' | ->]; [| right; by eapply elem_of_sublist | by left].
    destruct ok'; [apply elem_of_app in Hq as [? | ->%list_elem_of_singleton]; auto | by left]. }
  destruct ok'; (split; [| done]).
  - cbn [al_store set_store set_allocation]; unfold acts_of; cbn [allocations set_store set_allocation].
    rewrite list_fmap_insert; cbn [ha_lifetimes].
    replace (<[Z.to_nat r:=kept ++ [p]]> (ha_lifetimes <$> allocations a))
      with (<[Z.to_nat r:=kept ++ [p]]> (<[Z.to_nat r:=kept]> (acts_of a))) by apply list_insert_insert_eq.
    eapply scan_ok_assign; try done.
    + apply list_lookup_insert_eq; by eapply lookup_lt_Some.
    + intros q lq Hq Hlq; destruct (Hni eq_refl q Hq) as (c' & Hc' & ?); congruence.
  - cbn [al_store set_store set_allocation]; unfold acts_of; cbn [allocations set_store set_allocation].
    by rewrite list_fmap_insert.
Qed.

Lemma try_regs_ok b p l c pref rs a ok a' :
  scan_ok b (al_store a) (acts_of a) -> al_store a !! p = Some l -> hard_reg l = 0 ->
  lt_begin l = Some b -> reg_class l = Some c -> rs ⊆ class_regs c ->
  try_regs p pref rs a = Some (ok, a') ->
  scan_ok b (al_store a') (acts_of a') /\ al_order a' = al_order a /\ al_ir a' = al_ir a /\
  (if ok then exists r, r ∈ class_regs c /\ al_store a' = alter (set_hard_reg r) p (al_store a)
   else al_store a' = al_store a) /\ acts_within p (acts_of a) (acts_of a').
Proof.
  intros Hok Hp H0 Hb Hc; revert a Hok Hp; induction rs as [| r rs IH]; intros a Hok Hp Hrs; cbn.
  - intros [= <- <-]; conjs; try done; apply acts_within_refl.
  - assert (rs ⊆ class_regs c) by (intros x Hx; apply Hrs, elem_of_cons; by right).
    destruct (r =? pref); [by apply IH |].
    destruct (TryAssignHardReg p r a) as [[ok1 a1] |] eqn:E; cbn; [| done].
    destruct (TryAssignHardReg_ok b p l c r a ok1 a1) as (H1 & H2 & H3 & H4 & H5); try done.
    { apply Hrs, elem_of_cons; by left. }
    destruct ok1.
    + intros [= <- <-]; conjs; try done; exists r; split; [| done].
      apply Hrs, elem_of_cons; by left.
    + intros Ht; destruct (IH a1) as (G1 & G2 & G3 & G4 & G5); try done; [by rewrite H4 |].
      rewrite H2 in G2; rewrite H3 in G3; rewrite H4 in G4; conjs; try done; by eapply acts_within_trans.
Qed.

(** *** [ConsiderSpill] *)

(** A lifetime that interferes with the new one and can be spilled from tick
    [b] on. *)
Definition spillable (st : Store) (new : VRegLifetime) (b : Z) (s : LifetimePtr * SplitPos) : Prop :=
  exists c k, st !! s.1 = Some c /\ TestInterference c new = true /\ FindSplitPos b c = (k, s.2) /\
    k <> SPLIT_IMPOSSIBLE /\
    (k = SPLIT_CONFLICT -> exists cc nc, reg_class c = Some cc /\ reg_class new = Some nc /\ IsSubsetOf cc nc = false).

Lemma consider_spill_spec st new cur w sp w' sp' b :
  consider_spill st new cur w sp = Some (w', sp') -> w' < kInfiniteSpillWeight -> lt_begin new = Some b ->
  exists spilled, sp' = sp ++ spilled /\ Forall (spillable st new b) spilled /\ sublist spilled.*1 cur /\
    forall q, q ∈ cur -> q ∉ spilled.*1 -> exists c, st !! q = Some c /\ TestInterference c new = false.
Proof.
  intros Hc Hw Hb; revert w sp Hc; induction cur as [| p cur IH]; intros w sp; cbn [consider_spill].
  - destruct (Z.ltb_spec w kInfiniteSpillWeight); [| done]; intros [= <- <-]; exists []; rewrite app_nil_r.
    split; [done |]; split; [constructor |]; split; [apply sublist_nil_l |]; intros q Hq; by apply not_elem_of_nil in Hq.
  - destruct (st !! p) as [c |] eqn:Hp; cbn; [| done]; destruct (TestInterference c new) eqn:Hi.
    2:{ intros Hc; destruct (IH _ _ Hc) as (spilled & H1 & H2 & H3 & H4).
        exists spilled; split; [done | split; [done | split; [by constructor |]]].
        intros q [-> | Hq]%elem_of_cons Hn; [by exists c | auto]. }
    rewrite Hb; cbn; destruct (FindSplitPos b c) as [k pos] eqn:Hf.
    assert (Hcons : forall w, spillable st new b (p, pos) ->
      consider_spill st new cur w (sp ++ [(p, pos)]) = Some (w', sp') ->
      exists spilled, sp' = sp ++ spilled /\ Forall (spillable st new b) spilled /\ sublist spilled.*1 (p :: cur) /\
        forall q, q ∈ p :: cur -> q ∉ spilled.*1 -> exists c, st !! q = Some c /\ TestInterference c new = false).
    { intros w1 Hs Hc; destruct (IH _ _ Hc) as (spilled & H1 & H2 & H3 & H4).
      exists ((p, pos) :: spilled); cbn [fmap list_fmap fst]; split; [by rewrite H1, <- app_assoc |].
      split; [by constructor | split; [by constructor |]].
      intros q [-> | Hq]%elem_of_cons [Hne Hn]%not_elem_of_cons; [done | auto]. }
    destruct k.
    + intros [= <- <-]; lia.
    + destruct (reg_class c) as [cc |] eqn:Ecc; cbn; [| done]; destruct (reg_class new) as [nc |] eqn:Enc; cbn; [| done].
      destruct (IsSubsetOf cc nc) eqn:Es; [intros [= <- <-]; lia |].
      apply Hcons; exists c, SPLIT_CONFLICT; cbn; repeat split; try done; by exists cc, nc.
    + apply Hcons; exists c, SPLIT_OK; by repeat split.
Qed.

(** The last call of [ConsiderSpill] on [r] found the spills it holds, at weight [w]. *)
Definition considered (p : LifetimePtr) (r : MachineReg) (w : Z) (a : Allocator) : Prop :=
  exists h new, allocations a !! Z.to_nat r = Some h /\ al_store a !! p = Some new /\
    consider_spill (al_store a) new (ha_lifetimes h) 0 [] = Some (w, ha_spills h).

Lemma ConsiderSpillHardReg_ok r p a w a' :
  ConsiderSpillHardReg r p a = Some (w, a') ->
  al_store a' = al_store a /\ acts_of a' = acts_of a /\ al_order a' = al_order a /\ al_ir a' = al_ir a /\
  considered p r w a' /\ (forall r' w', considered p r' w' a -> considered p r' w' a').
Proof.
  unfold ConsiderSpillHardReg, ConsiderSpill.
  destruct (allocations a !! Z.to_nat r) as [h |] eqn:Hh; cbn; [| done]; case_decide; [| done].
  destruct (al_store a !! p) as [new |] eqn:Hp; cbn; [| done].
  destruct (consider_spill _ _ _ _ _) as [[w1 sp] |] eqn:Hc; cbn; [| done]; intros [= <- <-].
  split; [done |]; split; [| split; [done | split; [done |]]].
  { unfold acts_of; cbn; rewrite list_fmap_insert; cbn [ha_lifetimes]; apply list_insert_id.
    by rewrite list_lookup_fmap, Hh. }
  assert (Hin : (Z.to_nat r < length (allocations a))%nat) by (by eapply lookup_lt_Some).
  split.
  - eexists _, new; cbn; rewrite list_lookup_insert_eq by done; by repeat split.
  - intros r' w' (h' & new' & Hh' & Hp' & Hc'); rewrite Hp in Hp'; injection Hp' as <-.
    destruct (decide (Z.to_nat r = Z.to_nat r')) as [E |].
    + rewrite <- E, Hh in Hh'; injection Hh' as <-.
      eexists _, new; cbn; rewrite <- E, list_lookup_insert_eq by done; repeat split; [done |]; cbn; congruence.
    + exists h', new; cbn; by rewrite list_lookup_insert_ne.
Qed.

Lemma best_spill_ok p rs w best a w' best' a' :
  best_spill p rs w best a = Some (w', best', a') ->
  (w < kInfiniteSpillWeight -> considered p best w a) ->
  al_store a' = al_store a /\ acts_of a' = acts_of a /\ al_order a' = al_order a /\ al_ir a' = al_ir a /\
  (w' < kInfiniteSpillWeight -> considered p best' w' a') /\ (best' = best \/ best' ∈ rs) /\
  (w' < kInfiniteSpillWeight -> w < kInfiniteSpillWeight \/ best' ∈ rs).
Proof.
  revert w best a; induction rs as [| r rs IH]; intros w best a; cbn [best_spill].
  - intros [= <- <- <-] ?; split; [done | split; [done | split; [done | split; [done |]]]]; auto.
  - destruct (ConsiderSpillHardReg r p a) as [[w1 a1] |] eqn:E; cbn; [| done].
    destruct (ConsiderSpillHardReg_ok _ _ _ _ _ E) as (H1 & H2 & H3 & H4 & H5 & H6).
    destruct (Z.ltb_spec w1 w).
    + intros Hb Hw; destruct (IH _ _ _ Hb (fun _ => H5)) as (-> & -> & -> & -> & ? & Hin & Hlt).
      split; [done | split; [done | split; [done | split; [done |]]]]; split; [done |].
      split; [| intros Hl; right]; rewrite elem_of_cons; destruct Hin as [-> | Hin]; auto.
    + intros Hb Hw; destruct (IH _ _ _ Hb (fun Hl => H6 _ _ (Hw Hl))) as (-> & -> & -> & -> & ? & Hin & Hlt).
      split; [done | split; [done | split; [done | split; [done |]]]]; split; [done |].
      rewrite elem_of_cons; split; [destruct Hin; auto |]; intros Hl; destruct (Hlt Hl); auto.
Qed.

(** *** Spilling one lifetime *)

Lemma lt_use_bounds l u : lifetime_ok l -> u ∈ lt_uses l -> use_begin u < use_end u.
Proof.
  intros [_ Hu] (us & Hus & Hin)%list_elem_of_In%in_concat.
  apply list_elem_of_In, list_elem_of_fmap in Hus as (r & -> & Hr); apply list_elem_of_In in Hin.
  rewrite Forall_forall in Hu; pose proof (use_in_range r u (Hu _ Hr) Hin); lia.
Qed.

Lemma tiny_ok slot u : use_begin u < use_end u -> lifetime_ok (tiny_lifetime slot u).
Proof.
  intros Hu; split; cbn.
  - split; repeat constructor; cbn; lia.
  - repeat constructor; cbn; lia.
Qed.

Lemma IsSubsetOf_refl c : IsSubsetOf c c = true.
Proof. unfold IsSubsetOf; rewrite Z.land_diag; apply Z.eqb_refl. Qed.

Lemma tiny_classed slot u : wf_class (GetRegClass u) -> classed (tiny_lifetime slot u).
Proof.
  intros Hw; exists (GetRegClass u); cbn; repeat split; auto; try apply Hw.
  repeat constructor; [apply Hw | apply Hw | apply IsSubsetOf_refl].
Qed.

(** The spilled lifetime, with its slot. *)
Definition spilled_of (slot : Z) (c : VRegLifetime) : VRegLifetime :=
  if spill_slot c =? -1 then SetSpill slot c else c.

Lemma spilled_of_same slot c :
  range_list (spilled_of slot c) = range_list c /\ reg_class (spilled_of slot c) = reg_class c /\
  hard_reg (spilled_of slot c) = hard_reg c.
Proof. unfold spilled_of; by destruct (spill_slot c =? -1). Qed.

Lemma spilled_of_slot slot c : 0 <= slot -> spill_slot (spilled_of slot c) <> -1.
Proof. unfold spilled_of; destruct (Z.eqb_spec (spill_slot c) (-1)); cbn; lia. Qed.

(** The arena after a spill: the lifetime [q] keeps the uses [l'] and the uses
    [us] are tiny lifetimes at the end. *)
Record spilled_store (b : Z) (st : Store) (slot : Z) (q : LifetimePtr) (c l' : VRegLifetime)
    (us : list VRegUse) (st' : Store) : Prop := {
  ss_store : exists s, st' = <[q := l']> st ++ (tiny_lifetime s <$> us) /\ s = spill_slot l';
  ss_slot : spill_slot l' <> -1;
  ss_uses : lt_uses c = lt_uses l' ++ us;
  ss_before : Forall (ends_by b) (lt_uses l');
  ss_after : Forall (fun u => b <= use_begin u) us;
  ss_sorted : begins_sorted us;
  ss_ok : lifetime_ok l';
  ss_class : reg_class l' = reg_class c;
  ss_hard : hard_reg l' = hard_reg c
}.

Lemma spill_one_spec b st slot q c k pos st' split :
  st !! q = Some c -> lifetime_ok c -> FindSplitPos b c = (k, pos) -> k <> SPLIT_IMPOSSIBLE -> 0 <= slot ->
  spill_one st slot q pos = Some (st', split) ->
  exists l' us, spilled_store b st slot q c l' us st' /\ split = seq (length st) (length us) /\
    (k = SPLIT_OK -> Forall (fun u => b < use_begin u) us).
Proof.
  intros Hq Hok Hf Hk Hslot; unfold spill_one; rewrite Hq; cbn [mbind option_bind].
  change (if spill_slot c =? -1 then SetSpill slot c else c) with (spilled_of slot c).
  destruct (spilled_of_same slot c) as (Er & Ec & Eh).
  assert (Hok' : lifetime_ok (spilled_of slot c)) by (destruct Hok; split; by rewrite Er).
  assert (Hf' : FindSplitPos b (spilled_of slot c) = (k, pos)) by (unfold FindSplitPos; by rewrite Er).
  destruct (Split_spec b _ k pos Hok' Hf' Hk) as (us & Hout & Hsa).
  destruct (Split pos (spilled_of slot c)) as [l' out]; cbn in Hout, Hsa; subst out.
  intros [= <- <-]; exists l', us; rewrite length_fmap; split; [| split; [done | apply Hsa]].
  destruct Hsa as [H1 H2 H3 H4 H5 H6 H7].
  assert (spill_slot l' = spill_slot (spilled_of slot c)) as Hsl by (by rewrite H7).
  split; try done.
  - exists (spill_slot (spilled_of slot c)); by rewrite Hsl.
  - rewrite Hsl; by apply spilled_of_slot.
  - by unfold lt_uses in H1; rewrite Er in H1.
  - rewrite H7; exact Ec.
  - rewrite H7; exact Eh.
Qed.

Lemma spilled_store_lookup b st slot q c l' us st' j x :
  spilled_store b st slot q c l' us st' -> st' !! j = Some x ->
  (j = q /\ x = l' /\ (q < length st)%nat) \/ (j <> q /\ st !! j = Some x) \/
  ((length st <= j)%nat /\ exists u, u ∈ us /\ x = tiny_lifetime (spill_slot l') u).
Proof.
  intros [(s & -> & ->) _ _ _ _ _ _ _ _] [Hj | [Hle Hj]]%lookup_app_Some.
  - apply list_lookup_insert_Some in Hj as [(-> & <- & ?) | [? ?]]; auto.
  - right; right; rewrite length_insert in Hle; split; [done |].
    rewrite list_lookup_fmap in Hj; apply fmap_Some in Hj as (u & Hu & ->).
    exists u; split; [by eapply list_elem_of_lookup_2 | done].
Qed.

Lemma spilled_store_old b st slot q c l' us st' j x :
  spilled_store b st slot q c l' us st' -> st !! j = Some x -> st' !! j = Some (if decide (j = q) then l' else x).
Proof.
  intros [(s & -> & ->) _ _ _ _ _ _ _ _] Hj.
  rewrite lookup_app_l by (rewrite length_insert; by eapply lookup_lt_Some).
  case_decide; [subst; apply list_lookup_insert_eq; by eapply lookup_lt_Some | by rewrite list_lookup_insert_ne].
Qed.

Lemma spilled_occupied b st slot q c l' us st' t :
  spilled_store b st slot q c l' us st' -> lifetime_ok c -> occupied l' t -> occupied c t /\ t < b.
Proof.
  intros Hs Hok; pose proof (ss_slot _ _ _ _ _ _ _ _ Hs) as Hslot.
  unfold occupied at 1; rewrite decide_False by done; intros (u & Hu & Ht); split.
  - assert (u ∈ lt_uses c) by (rewrite (ss_uses _ _ _ _ _ _ _ _ Hs); apply elem_of_app; by left).
    unfold occupied; case_decide; [by eapply use_covers | by exists u].
  - pose proof (ss_before _ _ _ _ _ _ _ _ Hs) as Hb; rewrite Forall_forall in Hb.
    specialize (Hb u Hu); unfold ends_by in Hb; lia.
Qed.

Lemma spilled_classed b st slot q c l' us st' :
  spilled_store b st slot q c l' us st' -> hard_reg c <> 0 -> classed c -> classed l' /\ forall u, u ∈ us -> wf_class (GetRegClass u).
Proof.
  intros Hs Hnz (cl & Hc & Hwf & Hus & Hh); rewrite (ss_uses _ _ _ _ _ _ _ _ Hs), Forall_app in Hus.
  destruct Hus as [Hus1 Hus2]; split.
  - exists cl; rewrite (ss_class _ _ _ _ _ _ _ _ Hs), (ss_hard _ _ _ _ _ _ _ _ Hs); destruct Hh as [[? _] |]; [done | auto].
  - intros u Hu; rewrite Forall_forall in Hus2; by apply Hus2.
Qed.

Lemma scan_ok_spill b st acts r ps slot q c l' us st' :
  scan_ok b st acts -> acts !! r = Some ps -> q ∈ ps -> st !! q = Some c ->
  spilled_store b st slot q c l' us st' ->
  scan_ok b st' (<[r := filter (fun x => x <> q) ps]> acts).
Proof.
  intros [H1 H2 H3 H4 H5] Hr Hq Hc Hs; destruct (H1 q c Hc) as [Hok Hcl].
  assert (Hnz : hard_reg c <> 0).
  { destruct (H2 _ _ _ Hr Hq) as (c1 & Hc1 & _ & ?); congruence. }
  destruct (spilled_classed _ _ _ _ _ _ _ _ Hs Hnz Hcl) as [Hcl' Hwf].
  assert (Hold : forall p l, st !! p = Some l -> exists l1, st' !! p = Some l1 /\ hard_reg l1 = hard_reg l).
  { intros p l Hp; rewrite (spilled_store_old _ _ _ _ _ _ _ _ _ _ Hs Hp); case_decide; [| by eexists].
    subst; rewrite Hc in Hp; injection Hp as <-; eexists; split; [done | apply Hs]. }
  (* an entry with a hard register stands for an old one that held more *)
  assert (Hnew : forall p l, st' !! p = Some l -> hard_reg l <> 0 ->
    exists l0, st !! p = Some l0 /\ hard_reg l0 = hard_reg l /\ (forall t, occupied l t -> occupied l0 t) /\
      (p <> q -> l0 = l) /\ (p = q -> forall t, occupied l t -> t < b)).
  { intros p l Hp Hl; destruct (spilled_store_lookup _ _ _ _ _ _ _ _ _ _ Hs Hp)
      as [(-> & -> & _) | [(Hne & Hp') | (_ & u & _ & ->)]]; [| by exists l | done].
    exists c; split; [done |]; split; [symmetry; apply Hs |]; split; [| split; [done | intros _]];
      intros t Ho; by eapply spilled_occupied. }
  split.
  - intros p l Hp; destruct (spilled_store_lookup _ _ _ _ _ _ _ _ _ _ Hs Hp)
      as [(-> & -> & _) | [(Hne & Hp') | (_ & u & Hu & ->)]]; [split; [apply Hs | done] | by apply (H1 p) |].
    split; [apply tiny_ok | apply tiny_classed; auto].
    apply (lt_use_bounds c); [done |]; rewrite (ss_uses _ _ _ _ _ _ _ _ Hs); apply elem_of_app; by right.
  - intros r' ps' p [[<- ->] | [? Hr']]%lookup_insert_cases Hp.
    + apply list_elem_of_filter in Hp as [_ Hp]; destruct (H2 _ _ _ Hr Hp) as (l & Hl & E & ?).
      destruct (Hold p l Hl) as (l1 & ? & Eh); exists l1; rewrite Eh; done.
    + destruct (H2 _ _ _ Hr' Hp) as (l & Hl & E & ?).
      destruct (Hold p l Hl) as (l1 & ? & Eh); exists l1; rewrite Eh; done.
  - intros r' ps' [[<- ->] | [? Hr']]%lookup_insert_cases; [apply NoDup_filter |]; by eapply H3.
  - intros Hord p l Hp Hl; destruct (Hnew p l Hp Hl) as (l0 & Hl0 & Eh & Hocc & Hne & Heq).
    destruct (decide (p = q)) as [-> | Hpq]; [right; by apply Heq |].
    destruct (H4 Hord p l0 Hl0 ltac:(congruence)) as [(ps' & Hps' & Hin) | Hpast]; [left | right; eauto].
    rewrite Eh in Hps'; destruct (decide (r = Z.to_nat (hard_reg l))) as [-> |].
    + assert (ps' = ps) as -> by congruence; eexists; rewrite list_lookup_insert_eq by (by eapply lookup_lt_Some).
      split; [done |]; by apply list_elem_of_filter.
    + exists ps'; by rewrite list_lookup_insert_ne.
  - intros Hord p p' lp lp' t Hp Hp' Hpp Heq Hnz1 Ho Ho'.
    destruct (Hnew p lp Hp Hnz1) as (l0 & Hl0 & E0 & Hocc0 & _ & _).
    destruct (Hnew p' lp' Hp' ltac:(congruence)) as (l1 & Hl1 & E1 & Hocc1 & _ & _).
    exact (H5 Hord p p' l0 l1 t Hl0 Hl1 Hpp ltac:(congruence) ltac:(congruence) (Hocc0 t Ho) (Hocc1 t Ho')).
Qed.

(** *** The merge *)

Lemma advance_app st b dst passed rest : advance st b dst = Some (passed, rest) -> dst = passed ++ rest.
Proof.
  revert passed rest; induction dst as [| d dst IH]; intros passed rest; cbn; [by intros [= <- <-] |].
  destruct (begin_of st d) as [db |]; cbn; [| done]; destruct (b <? db); [by intros [= <- <-] |].
  destruct (advance st b dst) as [[p1 r1] |]; cbn; [| done]; intros [= <- <-]; cbn; f_equal; by apply IH.
Qed.

Lemma merge_loop_perm st dst src m : merge_loop st dst src = Some m -> m ≡ₚ dst ++ src.
Proof.
  revert dst m; induction src as [| c src IH]; intros dst m; cbn; [intros [= <-]; by rewrite app_nil_r |].
  destruct (begin_of st c) as [b |]; cbn; [| done].
  destruct (advance st b dst) as [[passed rest] |] eqn:Ea; cbn; [| done].
  destruct (merge_loop st rest src) as [m1 |] eqn:Em; cbn; [| done]; intros [= <-].
  rewrite (advance_app _ _ _ _ _ Ea), (IH _ _ Em), <- app_assoc; f_equiv.
  by rewrite Permutation_middle.
Qed.

Lemma break_at_app pos l pre post : break_at pos l = (pre, post) -> l = pre ++ post /\ pos ∉ pre.
Proof.
  revert pre post; induction l as [| x l IH]; intros pre post; cbn.
  - intros [= <- <-]; split; [done | apply not_elem_of_nil].
  - case_decide; [intros [= <- <-]; split; [done | apply not_elem_of_nil] |].
    destruct (break_at pos l) as [p1 p2]; intros [= <- <-]; destruct (IH _ _ eq_refl) as [-> ?].
    split; [done | by rewrite not_elem_of_cons].
Qed.

Lemma break_at_skip pos done todo :
  pos ∉ done -> break_at pos (done ++ todo) = (done ++ (break_at pos todo).1, (break_at pos todo).2).
Proof.
  induction done as [| x done IH]; cbn; [by destruct (break_at pos todo) |].
  intros [Hne Hn]%not_elem_of_cons; rewrite decide_False, IH by done; done.
Qed.

(** The merge works behind the iterator, whatever was there. *)
Lemma Merge_spec st done todo pos src order :
  (forall x, pos = Some x -> (x ∉ done) /\ x ∈ todo) ->
  MergeVRegLifetimeList st (done ++ todo) pos src = Some order ->
  exists todo', order = done ++ todo' /\ todo' ≡ₚ todo ++ src /\ (forall x, pos = Some x -> x ∈ todo').
Proof.
  intros Hpos; unfold MergeVRegLifetimeList; destruct pos as [pos |].
  - destruct (Hpos pos eq_refl) as [Hnd Hin]; rewrite break_at_skip by done.
    destruct (break_at pos todo) as [pre post] eqn:Eb; destruct (break_at_app _ _ _ _ Eb) as [-> Hnp]; cbn.
    destruct (merge_loop st post src) as [m |] eqn:Em; cbn; [| done]; intros [= <-].
    apply merge_loop_perm in Em; exists (pre ++ m); rewrite <- app_assoc; split; [done |].
    split; [by rewrite Em, <- app_assoc |]; intros x [= <-].
    apply elem_of_app in Hin as [? | Hin]; [done |]; apply elem_of_app; right.
    rewrite Em; apply elem_of_app; by left.
  - destruct (merge_loop st [] src) as [m |] eqn:Em; cbn; [| done]; intros [= <-].
    apply merge_loop_perm in Em; exists (todo ++ m); rewrite <- app_assoc; split; [done |].
    split; [by rewrite Em |]; done.
Qed.

(** *** Spilling all *)

Definition splittable (st : Store) (b : Z) (s : LifetimePtr * SplitPos) : Prop :=
  exists c k, st !! s.1 = Some c /\ FindSplitPos b c = (k, s.2) /\ k <> SPLIT_IMPOSSIBLE.

Definition all_uses (st : Store) : list VRegUse := concat (lt_uses <$> st).

Lemma spilled_store_uses b st slot q c l' us st' :
  st !! q = Some c -> spilled_store b st slot q c l' us st' -> all_uses st' ≡ₚ all_uses st.
Proof.
  intros Hq Hs; pose proof Hs as [(s & -> & _) _ Hu _ _ _ _ _ _]; unfold all_uses.
  rewrite (insert_take_drop st q l') by (by eapply lookup_lt_Some).
  rewrite <- (take_drop_middle st q c Hq) at 3.
  rewrite !fmap_app, !concat_app; cbn [fmap list_fmap concat]; rewrite Hu, <- !app_assoc; f_equiv; f_equiv.
  rewrite (Permutation_app_comm us); f_equiv.
  clear; induction us as [| u us IH]; cbn; [done |]; by rewrite IH.
Qed.

Lemma spilled_store_length b st slot q c l' us st' :
  spilled_store b st slot q c l' us st' -> length st' = (length st + length us)%nat.
Proof. intros [(s & -> & _) _ _ _ _ _ _ _ _]; by rewrite length_app, length_insert, length_fmap. Qed.

(** What a run of spills keeps: the entries that are not spilled, the hard
    registers; what it adds has no hard register yet. *)
Record spill_frame (spilled : list LifetimePtr) (st st' : Store) : Prop := {
  sf_old : forall j x, st !! j = Some x ->
    exists x', st' !! j = Some x' /\ hard_reg x' = hard_reg x /\ (j ∉ spilled -> x' = x);
  sf_new : forall j x, (length st <= j)%nat -> st' !! j = Some x -> hard_reg x = 0;
  sf_len : (length st <= length st')%nat;
  sf_uses : all_uses st' ≡ₚ all_uses st
}.

Lemma spill_frame_one b st slot q c l' us st' :
  st !! q = Some c -> spilled_store b st slot q c l' us st' -> spill_frame [q] st st'.
Proof.
  intros Hq Hs; split.
  - intros j x Hj; rewrite (spilled_store_old _ _ _ _ _ _ _ _ _ _ Hs Hj); eexists; split; [done |].
    case_decide; [| by split]; subst; rewrite Hq in Hj; injection Hj as <-; split; [apply Hs |].
    intros []%not_elem_of_cons; done.
  - intros j x Hle Hj; destruct (spilled_store_lookup _ _ _ _ _ _ _ _ _ _ Hs Hj)
      as [(-> & _ & ?) | [(_ & Hj'%lookup_lt_Some) | (_ & u & _ & ->)]]; [lia | lia | done].
  - rewrite (spilled_store_length _ _ _ _ _ _ _ _ Hs); lia.
  - by eapply spilled_store_uses.
Qed.

Lemma spill_frame_trans s1 s2 st1 st2 st3 :
  spill_frame s1 st1 st2 -> spill_frame s2 st2 st3 -> spill_frame (s1 ++ s2) st1 st3.
Proof.
  intros [A1 A2 A3 A4] [B1 B2 B3 B4]; split; [| | lia | by rewrite B4].
  - intros j x Hj; destruct (A1 j x Hj) as (y & Hy & Ey & Fy), (B1 _ _ Hy) as (z & Hz & Ez & Fz).
    exists z; split; [done |]; split; [congruence |]; rewrite elem_of_app; intros Hn.
    rewrite Fz, Fy; tauto.
  - intros j x Hle Hj; destruct (decide (length st2 <= j)%nat); [by eapply B2 |].
    destruct (lookup_lt_is_Some_2 st2 j) as [y Hy]; [lia |].
    destruct (B1 j y Hy) as (z & Hz & Ez & _); assert (z = x) as -> by congruence; rewrite Ez; by eapply A2.
Qed.

Lemma spill_loop_ok b r acts slot pos done spills : forall st todo cur st' order' cur',
  scan_ok b st acts -> acts !! r = Some cur -> NoDup spills.*1 -> spills.*1 ⊆ cur ->
  Forall (splittable st b) spills -> 0 <= slot ->
  (forall x, pos = Some x -> (x ∉ done) /\ x ∈ todo) ->
  spill_loop st (done ++ todo) slot pos cur spills = Some (st', order', cur') ->
  scan_ok b st' (<[r := cur']> acts) /\ cur' = filter (fun x => x ∉ spills.*1) cur /\
  spill_frame spills.*1 st st' /\
  exists todo', order' = done ++ todo' /\ todo' ≡ₚ todo ++ seq (length st) (length st' - length st).
Proof.
  revert acts; induction spills as [| [q sp] spills IH]; intros acts st todo cur st' order' cur' Hok Hr Hnd Hsub Hspl Hslot Hpos; cbn [spill_loop].
  - intros [= <- <- <-]; split; [by rewrite list_insert_id |]; split.
    { clear; induction cur as [| x cur IH]; [done |]; rewrite filter_cons, decide_True by apply not_elem_of_nil; by f_equal. }
    split; [split; [intros j x Hj; by exists x | | lia | done] |].
    + intros j x Hle Hj%lookup_lt_Some; lia.
    + exists todo; rewrite Nat.sub_diag, app_nil_r; done.
  - cbn [fmap list_fmap fst] in *; apply NoDup_cons in Hnd as [Hnq Hnd]; rewrite Forall_cons in Hspl.
    destruct Hspl as [(c & k & Hq & Hf & Hk) Hspl]; cbn in Hq, Hf.
    destruct (spill_one st slot q sp) as [[st1 split] |] eqn:E1; cbn [mbind option_bind]; [| done].
    destruct (so_lifetime _ _ _ Hok q c Hq) as [Hlok _].
    destruct (spill_one_spec b st slot q c k sp st1 split) as (l' & us & Hs & -> & _); try done.
    destruct (MergeVRegLifetimeList st1 (done ++ todo) pos _) as [order1 |] eqn:Em; cbn; [| done].
    destruct (Merge_spec _ _ _ _ _ _ Hpos Em) as (todo1 & -> & Hp1 & Hpos1).
    assert (q ∈ cur) as Hqin by (apply Hsub, elem_of_cons; by left).
    pose proof (scan_ok_spill _ _ _ _ _ _ _ _ _ _ _ Hok Hr Hqin Hq Hs) as Hok1.
    pose proof (spill_frame_one _ _ _ _ _ _ _ _ Hq Hs) as Hfr.
    intros Hl; eapply IH in Hl as (H1 & H2 & H3 & todo2 & -> & H4); [| exact Hok1 | | done | | | done |].
    + rewrite list_insert_insert_eq in H1; split; [done |]; split.
      { rewrite H2, list_filter_filter; apply list_filter_iff; intros x.
        rewrite not_elem_of_cons; tauto. }
      split; [exact (spill_frame_trans _ _ _ _ _ Hfr H3) |]; exists todo2; split; [done |].
      pose proof (sf_len _ _ _ H3) as Hlen; rewrite (spilled_store_length _ _ _ _ _ _ _ _ Hs) in H4, Hlen.
      rewrite H4, Hp1, <- app_assoc, <- seq_app.
      by replace (length st' - length st)%nat with (length us + (length st' - (length st + length us)))%nat by lia.
    + apply list_lookup_insert_eq; by eapply lookup_lt_Some.
    + intros x Hx; apply list_elem_of_filter; split; [by intros -> |]; apply Hsub, elem_of_cons; by right.
    + rewrite Forall_forall in Hspl |- *; intros s Hs'; destruct (Hspl s Hs') as (c1 & k1 & Hc1 & ?).
      exists c1, k1; split; [| done]; destruct (sf_old _ _ _ Hfr _ _ Hc1) as (x & Hx & _ & Ex).
      rewrite Ex in Hx; [done |]; rewrite list_elem_of_singleton; intros <-; apply Hnq, list_elem_of_fmap; by exists s.
    + intros x Hx; split; [by apply Hpos | by apply Hpos1].
Qed.

(** The spills that were done in the arena of [a] for a lifetime [l] that begins
    at [b], and the arena they leave. *)
Definition spill_run (b : Z) (r : MachineReg) (l : VRegLifetime) (a : Allocator) (st : Store)
    (spills : list (LifetimePtr * SplitPos)) : Prop :=
  exists slot pos order order' cur cur', 0 <= slot /\ acts_of a !! Z.to_nat r = Some cur /\
    spill_loop (al_store a) order slot pos cur spills = Some (st, order', cur') /\
    NoDup spills.*1 /\ spills.*1 ⊆ cur /\ Forall (spillable (al_store a) l b) spills.

Lemma SpillAndAssignHardReg_ok b n p l c r w a a' :
  scan_ok b (al_store a) (acts_of a) -> al_store a !! p = Some l -> hard_reg l = 0 ->
  lt_begin l = Some b -> reg_class l = Some c -> r ∈ class_regs c ->
  considered p r w a -> w < kInfiniteSpillWeight ->
  NoDup (al_order a) -> 0 <= num_spill_slots (al_ir a) ->
  SpillAndAssignHardReg r n p a = Some a' ->
  exists st todo spills, al_store a' = alter (set_hard_reg r) p st /\ st !! p = Some l /\
    scan_ok b (al_store a') (acts_of a') /\ spill_frame spills.*1 (al_store a) st /\ spill_run b r l a st spills /\
    (forall r' ps q, acts_of a' !! r' = Some ps -> q ∈ ps ->
       q = p \/ (q ∉ spills.*1) /\ exists ps0, acts_of a !! r' = Some ps0 /\ q ∈ ps0) /\
    al_order a' = take (S n) (al_order a) ++ todo /\
    todo ≡ₚ drop (S n) (al_order a) ++ seq (length (al_store a)) (length st - length (al_store a)) /\
    0 <= num_spill_slots (al_ir a').
Proof.
  intros Hok Hp H0 Hb Hc Hr (h & new & Hh & Hnew & Hcs) Hw Hnd Hslots; rewrite Hp in Hnew; injection Hnew as <-.
  unfold SpillAndAssignHardReg, SpillAndAssign; cbn [AllocSpill]; rewrite Hh; cbn [mbind option_bind].
  case_decide; [| done].
  destruct (consider_spill_spec _ _ _ _ _ _ _ b Hcs Hw Hb) as (spilled & Hsp & Hall & Hsub & Hrest); cbn in Hsp.
  assert (Hacts : acts_of a !! Z.to_nat r = Some (ha_lifetimes h)).
  { unfold acts_of; by rewrite list_lookup_fmap, Hh. }
  assert (Hnext : forall x, al_order a !! S n = Some x ->
    (x ∉ take (S n) (al_order a)) /\ x ∈ drop (S n) (al_order a)).
  { intros x Hx; rewrite <- (take_drop (S n) (al_order a)), NoDup_app in Hnd.
    assert (x ∈ drop (S n) (al_order a)) as Hin.
    { eapply (list_elem_of_lookup_2 _ 0); by rewrite lookup_drop, Nat.add_0_r. }
    split; [| done]; intros Hx'; by eapply Hnd. }
  rewrite Hsp, <- (take_drop (S n) (al_order a)) at 1.
  destruct (spill_loop _ _ _ _ _ _) as [[[st1 order1] cur1] |] eqn:El; cbn [mbind option_bind]; [| done].
  intros [= <-].
  destruct (spill_loop_ok b (Z.to_nat r) (acts_of a) _ _ _ _ _ _ _ _ _ _ Hok Hacts
    ltac:(eapply sublist_NoDup; [by eapply so_nodup | exact Hsub])
    ltac:(intros x Hx; by eapply elem_of_sublist)
    ltac:(eapply Forall_impl; [exact Hall |]; intros s (c1 & k1 & ? & ? & ? & ? & _); by exists c1, k1) Hslots
    Hnext El) as (H1 & H2 & H3 & todo & Ho & Hperm).
  cbn [al_store al_order al_ir].
  assert (Hnp : p ∉ ha_lifetimes h).
  { intros Hin; destruct (so_active _ _ _ Hok _ _ _ Hacts Hin) as (l1 & Hl1 & _ & ?); congruence. }
  assert (st1 !! p = Some l) as Hp1.
  { destruct (sf_old _ _ _ H3 p l Hp) as (x & Hx & _ & Ex); rewrite Ex in Hx; [done |].
    intros Hin; apply Hnp; by eapply elem_of_sublist. }
  exists st1, todo, spilled; split; [done |]; split; [done |]; split.
  - unfold acts_of; cbn [allocations]; rewrite list_fmap_insert; cbn [ha_lifetimes].
    rewrite <- (list_insert_insert_eq (ha_lifetimes <$> allocations a) _ (cur1 ++ [p]) cur1).
    eapply scan_ok_assign; try done.
    + apply list_lookup_insert_eq; by eapply lookup_lt_Some.
    + intros q lq Hq Hlq; rewrite H2 in Hq; apply list_elem_of_filter in Hq as [Hnq Hq].
      destruct (Hrest q Hq Hnq) as (c1 & Hc1 & Hni).
      destruct (sf_old _ _ _ H3 q c1 Hc1) as (x & Hx & _ & Ex); rewrite Ex in Hx by done; congruence.
  - assert (Hsub' : spilled.*1 ⊆ ha_lifetimes h) by (intros x Hx; by eapply elem_of_sublist).
    conjs; try done; [| | cbn; apply Z.mod_pos_bound; lia].
    + eexists _, _, _, _, _, _; conjs; [exact Hslots | exact Hacts | exact El | | done | done].
      eapply sublist_NoDup; [exact (so_nodup _ _ _ Hok _ _ Hacts) | exact Hsub].
    + unfold acts_of at 1; cbn [allocations]; rewrite list_fmap_insert; cbn [ha_lifetimes].
      intros r' ps q [[<- ->] | [Hne Hr']]%lookup_insert_cases Hq.
      * apply elem_of_app in Hq as [Hq | ->%list_elem_of_singleton]; [| by left].
        rewrite H2 in Hq; apply list_elem_of_filter in Hq as [Hnq Hq]; right; split; [done |]; by eexists.
      * right; split; [| by exists ps]; intros Hin; apply Hne.
        destruct (so_active _ _ _ Hok _ _ _ Hacts (Hsub' q Hin)) as (l1 & Hl1 & E1 & _).
        destruct (so_active _ _ _ Hok _ _ _ Hr' Hq) as (l2 & Hl2 & E2 & _); assert (l1 = l2) as -> by congruence; lia.
Qed.

(** ** The scan keeps its state *)

Record alloc_ok (n : nat) (b : Z) (a : Allocator) : Prop := {
  ao_scan : scan_ok b (al_store a) (acts_of a);
  ao_order : al_order a ≡ₚ seq 0 (length (al_store a));
  ao_done : forall k p l, al_order a !! k = Some p -> al_store a !! p = Some l ->
              hard_reg l = 0 <-> (n <= k)%nat;
  ao_slots : 0 <= num_spill_slots (al_ir a)
}.

Lemma ao_nodup n b a : alloc_ok n b a -> NoDup (al_order a).
Proof. intros [_ Ho _ _]; rewrite Ho; apply NoDup_seq. Qed.

(** The next state when only the hard register of the [n]-th lifetime is set. *)
Lemma alloc_ok_assigned n b b' a a' p l r :
  alloc_ok n b a -> al_order a !! n = Some p -> al_store a !! p = Some l -> r <> 0 ->
  scan_ok b' (al_store a') (acts_of a') -> al_order a' = al_order a -> al_ir a' = al_ir a ->
  (exists st, same_but_hints (al_store a) st /\ al_store a' = alter (set_hard_reg r) p st) ->
  alloc_ok (S n) b' a'.
Proof.
  intros Ha Hn Hp Hr Hs Ho Hi (st & Hh & Est); pose proof Ha as [_ H2 H3 H4]; split; [done | | | by rewrite Hi].
  - by rewrite Ho, H2, Est, length_alter, (Forall2_length _ _ _ Hh).
  - rewrite Ho, Est; intros k q lq Hk (x & Hx & Hcase)%lookup_alter_cases.
    destruct (Forall2_lookup_r _ _ _ _ _ Hh Hx) as (y & Hy & _ & _ & Ey & _).
    destruct Hcase as [[<- ->] | [Hne ->]].
    + assert (k = n) as -> by (eapply NoDup_lookup; [by eapply ao_nodup | done | done]); cbn; lia.
    + rewrite Ey, (H3 k q y Hk Hy); assert (k <> n) by (intros ->; congruence); lia.
Qed.

(** The next state when lifetimes were spilled for it. *)
Lemma alloc_ok_spilled n b b' a a' p l r st0 st todo spilled :
  alloc_ok n b a -> al_order a !! n = Some p -> same_but_hints (al_store a) st0 ->
  spill_frame spilled st0 st -> st !! p = Some l -> r <> 0 ->
  al_store a' = alter (set_hard_reg r) p st -> scan_ok b' (al_store a') (acts_of a') ->
  al_order a' = take (S n) (al_order a) ++ todo ->
  todo ≡ₚ drop (S n) (al_order a) ++ seq (length st0) (length st - length st0) ->
  0 <= num_spill_slots (al_ir a') ->
  alloc_ok (S n) b' a'.
Proof.
  intros Ha Hn Hh Hfr Hp Hr Est Hs Ho Hperm Hsl; pose proof Ha as [_ H2 H3 _].
  pose proof (Forall2_length _ _ _ Hh) as Hlen; pose proof (sf_len _ _ _ Hfr) as Hle.
  assert (Hord : al_order a' ≡ₚ seq 0 (length (al_store a'))).
  { rewrite Ho, Hperm, app_assoc, take_drop, H2, Est, length_alter, Hlen, <- seq_app; f_equiv; lia. }
  split; [done | done | | done].
  intros k q lq Hk; rewrite Est; intros (x & Hx & Hcase)%lookup_alter_cases.
  assert (Hkn : (k <= n)%nat -> al_order a !! k = Some q).
  { intros Hk'; rewrite Ho, lookup_app_l in Hk.
    - by rewrite lookup_take_lt in Hk by lia.
    - rewrite length_take; pose proof (lookup_lt_Some _ _ _ Hn); lia. }
  assert (Hold : (k <= n)%nat -> exists y, al_store a !! q = Some y /\ hard_reg x = hard_reg y).
  { intros Hk'; assert (q ∈ seq 0 (length (al_store a))) as Hq.
    { rewrite <- H2; eapply list_elem_of_lookup_2; by apply Hkn. }
    apply elem_of_seq in Hq as [_ Hq]; destruct (lookup_lt_is_Some_2 (al_store a) q Hq) as [y Hy].
    destruct (Forall2_lookup_l _ _ _ _ _ Hh Hy) as (z & Hz & _ & _ & Ez & _).
    destruct (sf_old _ _ _ Hfr q z Hz) as (x' & Hx' & Ex & _); exists y; split; [done |]; congruence. }
  assert (Hpn : al_order a' !! n = Some p).
  { rewrite Ho, lookup_app_l; [rewrite lookup_take_lt by lia; done |].
    rewrite length_take; pose proof (lookup_lt_Some _ _ _ Hn); lia. }
  assert (Hnd : NoDup (al_order a')) by (rewrite Hord; apply NoDup_seq).
  destruct Hcase as [[<- ->] | [Hne ->]].
  - assert (k = n) as -> by (eapply NoDup_lookup; [exact Hnd | done | done]); cbn; lia.
  - assert (k <> n) by (intros ->; congruence); destruct (decide (k <= n)%nat) as [Hkn' | Hkn'].
    + destruct (Hold Hkn') as (y & Hy & ->); rewrite (H3 k q y (Hkn Hkn') Hy); lia.
    + split; [lia | intros _].
      assert (al_order a' !! k = Some q) as Hk' by done; rewrite Ho, lookup_app_r in Hk' by
        (rewrite length_take; pose proof (lookup_lt_Some _ _ _ Hn); lia).
      apply list_elem_of_lookup_2 in Hk'; rewrite Hperm in Hk'; apply elem_of_app in Hk' as [Hq | Hq].
      * apply list_elem_of_lookup in Hq as [j Hj]; rewrite lookup_drop in Hj.
        assert (q ∈ seq 0 (length (al_store a))) as Hq by (rewrite <- H2; by eapply list_elem_of_lookup_2).
        apply elem_of_seq in Hq as [_ Hq]; destruct (lookup_lt_is_Some_2 (al_store a) q Hq) as [y Hy].
        destruct (Forall2_lookup_l _ _ _ _ _ Hh Hy) as (z & Hz & _ & _ & Ez & _).
        destruct (sf_old _ _ _ Hfr q z Hz) as (x' & Hx' & Ex & _).
        assert (x' = x) as -> by congruence; rewrite Ex, Ez; apply (H3 _ q y Hj Hy); lia.
      * apply elem_of_seq in Hq as [Hq _]; by eapply (sf_new _ _ _ Hfr q).
Qed.

Lemma all_uses_alter (f : VRegLifetime -> VRegLifetime) p st :
  (forall l, lt_uses (f l) = lt_uses l) -> all_uses (alter f p st) = all_uses st.
Proof.
  intros Hf; unfold all_uses; f_equal; revert p; induction st as [| l st IH]; intros [| p]; cbn; try done;
    f_equal; auto; apply IH.
Qed.

Lemma same_but_hints_uses st st' : same_but_hints st st' -> all_uses st' = all_uses st.
Proof.
  intros Hs; unfold all_uses; f_equal; induction Hs as [| l l' st st' Hl _ IH]; cbn; [done |].
  f_equal; [unfold lt_uses; by destruct Hl as (-> & _) | done].
Qed.

Lemma class_reg_pos l c r : classed l -> reg_class l = Some c -> r ∈ class_regs c -> 0 < r.
Proof.
  intros (c' & Hc' & [Hf _] & _) Hc Hr; assert (c' = c) as -> by congruence.
  rewrite Forall_forall in Hf; specialize (Hf r Hr); cbn in Hf; lia.
Qed.

(** How [AllocateLifetime] ends: a register was free, or one was freed. *)
Lemma AllocateLifetime_cases n nb p l c a a' :
  scan_ok nb (al_store a) (acts_of a) -> al_store a !! p = Some l -> hard_reg l = 0 -> lt_begin l = Some nb ->
  reg_class l = Some c -> AllocateLifetime n p a = Some a' ->
  exists st0 r, same_but_hints (al_store a) st0 /\ r ∈ class_regs c /\
    ((al_store a' = alter (set_hard_reg r) p st0 /\ al_order a' = al_order a /\ al_ir a' = al_ir a /\
      scan_ok nb (al_store a') (acts_of a') /\ acts_within p (acts_of a) (acts_of a')) \/
     (exists a3 w, al_store a3 = st0 /\ al_order a3 = al_order a /\ al_ir a3 = al_ir a /\
      scan_ok nb st0 (acts_of a3) /\ acts_within p (acts_of a) (acts_of a3) /\
      considered p r w a3 /\ w < kInfiniteSpillWeight /\ SpillAndAssignHardReg r n p a3 = Some a')).
Proof.
  intros Hsc Hp H0 Hb Hc; unfold AllocateLifetime; rewrite Hp; cbn [mbind option_bind]; rewrite Hc; cbn [mbind option_bind].
  destruct (FindMoveHint (al_store a) p) as [[hint st0] |] eqn:Hh; cbn [mbind option_bind]; [| done].
  apply find_move_hint_same in Hh.
  destruct (hard_reg <$> st0 !! hint) as [pref |] eqn:Hpr; cbn [mbind option_bind]; [| done].
  destruct (Forall2_lookup_l _ _ _ _ _ Hh Hp) as (l0 & Hp0 & Er & Ec & Eh & _).
  set (a0 := set_store st0 a).
  assert (Hsc0 : scan_ok nb (al_store a0) (acts_of a0)) by (eapply scan_ok_hints; [exact Hh | exact Hsc]).
  assert (Hb0 : lt_begin l0 = Some nb) by (unfold lt_begin in *; by rewrite Er).
  assert (Hcl0 : classed l0) by (eapply so_lifetime; [exact Hsc0 | exact Hp0]).
  rewrite <- Eh in H0; rewrite <- Ec in Hc.
  assert (Hpref : forall ok a1, (if HasReg c pref then TryAssignHardReg p pref a0 else Some (false, a0)) = Some (ok, a1) ->
    scan_ok nb (al_store a1) (acts_of a1) /\ al_order a1 = al_order a0 /\ al_ir a1 = al_ir a0 /\
    (if ok then exists r, r ∈ class_regs c /\ al_store a1 = alter (set_hard_reg r) p (al_store a0)
     else al_store a1 = al_store a0) /\ acts_within p (acts_of a0) (acts_of a1)).
  { intros ok a1; destruct (HasReg c pref) eqn:Ehr; [| intros [= <- <-]; conjs; try done; apply acts_within_refl]; intros Ht.
    assert (pref ∈ class_regs c) as Hin.
    { destruct Hcl0 as (c' & Hc' & Hwf & _); assert (c' = c) as -> by congruence.
      apply HasReg_class; [done | | done]; apply fmap_Some in Hpr as (lh & Hlh & ->).
      apply classed_reg, (so_lifetime _ _ _ Hsc0 hint lh Hlh). }
    destruct (TryAssignHardReg_ok nb p l0 c pref a0 ok a1) as (? & ? & ? & Est & ?); try done.
    conjs; try done; destruct ok; [by exists pref | done]. }
  destruct (if HasReg c pref then _ else _) as [[ok1 a1] |]; cbn [mbind option_bind]; [| done].
  destruct (Hpref ok1 a1 eq_refl) as (Hs1 & Ho1 & Hi1 & Est1 & Hw1); destruct ok1.
  { intros [= <-]; destruct Est1 as (r & Hr & Est); exists st0, r; conjs; try done; by left. }
  assert (al_store a1 !! p = Some l0) as Hp1 by (rewrite Est1; exact Hp0).
  destruct (try_regs p pref (class_regs c) a1) as [[ok2 a2] |] eqn:Et; cbn [mbind option_bind]; [| done].
  destruct (try_regs_ok nb p l0 c pref _ a1 ok2 a2 Hs1 Hp1 H0 Hb0 Hc (reflexivity _) Et) as (Hs2 & Ho2 & Hi2 & Est2 & Hw2).
  pose proof (acts_within_trans _ _ _ _ Hw1 Hw2) as Hw; rewrite Est1 in Est2; rewrite Ho1 in Ho2; rewrite Hi1 in Hi2.
  destruct ok2.
  { intros [= <-]; destruct Est2 as (r & Hr & Est); exists st0, r; conjs; try done; by left. }
  destruct (best_spill p (class_regs c) kInfiniteSpillWeight 0 a2) as [[[w best] a3] |] eqn:Eb; cbn [mbind option_bind]; [| done].
  destruct (best_spill_ok _ _ _ _ _ _ _ _ Eb ltac:(lia)) as (Est3 & Hact3 & Ho3 & Hi3 & Hcons & _ & Hin).
  destruct (Z.ltb_spec w kInfiniteSpillWeight) as [Hlt |]; [| done]; intros Hsp.
  destruct (Hin Hlt) as [? | Hbest]; [lia |].
  exists st0, best; conjs; try done; right; exists a3, w; rewrite Est2 in Est3, Hs2.
  conjs; try done; [by rewrite Ho3, Ho2 | by rewrite Hi3, Hi2 | by rewrite Hact3 | by rewrite Hact3 | by apply Hcons].
Qed.

Lemma AllocateLifetime_ok n b nb p a a' :
  alloc_ok n b a -> al_order a !! n = Some p -> begin_of (al_store a) p = Some nb -> (ord -> b <= nb) ->
  AllocateLifetime n p a = Some a' ->
  alloc_ok (S n) nb a' /\ all_uses (al_store a') ≡ₚ all_uses (al_store a).
Proof.
  intros Ha Hn Hbo Hle Hal; unfold begin_of in Hbo.
  destruct (al_store a !! p) as [l |] eqn:Hp; [| done]; cbn in Hbo.
  pose proof (scan_ok_later _ _ _ _ Hle (ao_scan _ _ _ Ha)) as Hsc.
  destruct (so_lifetime _ _ _ Hsc p l Hp) as [_ Hcl]; pose proof Hcl as (c & Hc & _).
  assert (hard_reg l = 0) as H0 by (apply (ao_done _ _ _ Ha n p l Hn Hp); lia).
  destruct (AllocateLifetime_cases n nb p l c a a' Hsc Hp H0 Hbo Hc Hal) as (st0 & r & Hh & Hr & Hcase).
  pose proof (class_reg_pos _ _ _ Hcl Hc Hr) as Hpos.
  destruct Hcase as [(Est & Ho & Hi & Hsc' & _) | (a3 & w & Est3 & Ho3 & Hi3 & Hsc3 & _ & Hcons & Hw & Hsp)].
  - split.
    + eapply (alloc_ok_assigned n b nb a a' p l r); try done; [lia |]; by exists st0.
    + rewrite Est, all_uses_alter by done; by rewrite (same_but_hints_uses _ _ Hh).
  - destruct (Forall2_lookup_l _ _ _ _ _ Hh Hp) as (l0 & Hp0 & Er & Ec & Eh & _).
    destruct (SpillAndAssignHardReg_ok nb n p l0 c r w a3 a')
      as (st & todo & spills & Est & Hpst & Hsc' & Hfr & _ & _ & Ho' & Hperm & Hsl); try done.
    { by rewrite Est3. }
    { by rewrite Est3. }
    { congruence. }
    { unfold lt_begin in *; by rewrite Er. }
    { congruence. }
    { rewrite Ho3; exact (ao_nodup _ _ _ Ha). }
    { rewrite Hi3; exact (ao_slots _ _ _ Ha). }
    rewrite Est3 in Hfr, Hperm; rewrite Ho3 in Ho', Hperm; split.
    + eapply (alloc_ok_spilled n b nb a a' p l0 r st0 st); try done; lia.
    + rewrite Est, all_uses_alter, (sf_uses _ _ _ Hfr), (same_but_hints_uses _ _ Hh) by done; done.
Qed.

(** ** The whole scan *)

(** The first ticks of the lifetimes in the order they are allocated. *)
Fixpoint scan_begins (fuel n : nat) (a : Allocator) : list Z :=
  match fuel, al_order a !! n with
  | S fuel, Some p =>
      match begin_of (al_store a) p, AllocateLifetime n p a with
      | Some b, Some a' => b :: scan_begins fuel (S n) a'
      | _, _ => []
      end
  | _, _ => []
  end.

(** What the lifetime analysis hands over. *)
Definition fresh_lifetime (l : VRegLifetime) : Prop :=
  lifetime_ok l /\ classed l /\ hard_reg l = 0.

Lemma alloc_ok_start ir st :
  Forall fresh_lifetime st -> 0 <= num_spill_slots ir ->
  forall b, alloc_ok 0 b (new_Allocator ir st (seq 0 (length st))).
Proof.
  rewrite Forall_forall; intros Hst Hs b.
  assert (Hl : forall p l, st !! p = Some l -> fresh_lifetime l).
  { intros p l Hp; apply Hst; by eapply list_elem_of_lookup_2. }
  split; cbn [al_store al_order al_ir new_Allocator]; [split | done | | done].
  - intros p l Hp; destruct (Hl p l Hp) as (? & ? & _); done.
  - intros r ps p Hr; unfold acts_of in Hr; cbn [allocations new_Allocator] in Hr.
    rewrite fmap_replicate in Hr; apply lookup_replicate in Hr as [-> _]; by intros ?%not_elem_of_nil.
  - intros r ps Hr; unfold acts_of in Hr; cbn [allocations new_Allocator] in Hr.
    rewrite fmap_replicate in Hr; apply lookup_replicate in Hr as [-> _]; constructor.
  - intros _ p l Hp Hh; destruct (Hl p l Hp) as (_ & _ & ?); done.
  - intros _ p q lp lq t Hp Hq _ _ Hh; destruct (Hl p lp Hp) as (_ & _ & ?); done.
  - intros k p l _ Hp; destruct (Hl p l Hp) as (_ & _ & ->); lia.
Qed.

Lemma waiting_begin n b a p :
  alloc_ok n b a -> al_order a !! n = Some p -> exists nb, begin_of (al_store a) p = Some nb.
Proof.
  intros Ha Hn; assert (p ∈ seq 0 (length (al_store a))) as Hp.
  { rewrite <- (ao_order _ _ _ Ha); by eapply list_elem_of_lookup_2. }
  apply elem_of_seq in Hp as [_ Hp]; destruct (lookup_lt_is_Some_2 (al_store a) p Hp) as [l Hl].
  unfold begin_of, lt_begin; rewrite Hl; cbn.
  assert (hard_reg l = 0) as H0 by (apply (ao_done _ _ _ Ha n p l Hn Hl); lia).
  destruct (so_lifetime _ _ _ (ao_scan _ _ _ Ha) p l Hl) as [_ Hcl].
  pose proof Hcl as (c & Hc & _ & _ & [[_ Hr] | Hr]).
  - destruct (range_list l); [done | by eexists].
  - pose proof (class_reg_pos _ _ _ Hcl Hc Hr); lia.
Qed.

Lemma allocate_loop_ok fuel : forall n b a a',
  alloc_ok n b a -> allocate_loop fuel n a = Some (true, a') ->
  (ord -> StronglySorted Z.le (b :: scan_begins fuel n a)) ->
  exists n' b', alloc_ok n' b' a' /\ al_order a' !! n' = None /\ all_uses (al_store a') ≡ₚ all_uses (al_store a).
Proof.
  induction fuel as [| fuel IH]; intros n b a a' Ha; cbn [allocate_loop scan_begins];
    destruct (al_order a !! n) as [p |] eqn:Hn; [done | | | ]; try (intros [= <-] _; by exists n, b).
  destruct (AllocateLifetime n p a) as [a1 |] eqn:Es; cbn [mbind option_bind]; [| done].
  destruct (waiting_begin _ _ _ _ Ha Hn) as [nb Hnb]; rewrite Hnb; intros Hl Hs.
  assert (ord -> b <= nb) as Hle.
  { intros Hord; specialize (Hs Hord); inversion Hs as [| ? ? Hs1 Hf]; subst; by inversion Hf. }
  assert (ord -> StronglySorted Z.le (nb :: scan_begins fuel (S n) a1)) as Hs1.
  { intros Hord; specialize (Hs Hord); by inversion Hs. }
  destruct (AllocateLifetime_ok n b nb p a a1 Ha Hn Hnb Hle Es) as [Ha1 Hu1].
  destruct (IH _ _ _ _ Ha1 Hl Hs1) as (n' & b' & H1 & H2 & H3); exists n', b'; by rewrite H3.
Qed.

(** What a finished allocation promises: every use of the input is a use of
    exactly one lifetime, its hard register is one its operand may have, and,
    when the scan was in order, no register is held by two lifetimes at once. *)
Record allocated (st st' : Store) : Prop := {
  ad_uses : all_uses st' ≡ₚ all_uses st;
  ad_reg : forall l u, l ∈ st' -> u ∈ lt_uses l ->
             0 < hard_reg l < Z.of_nat kMaxHardRegs /\ HasReg (GetRegClass u) (hard_reg l) = true;
  ad_free : ord -> conflict_free st'
}.

Lemma alloc_ok_allocated st n b a :
  alloc_ok n b a -> al_order a !! n = None -> all_uses (al_store a) ≡ₚ all_uses st -> allocated st (al_store a).
Proof.
  intros Ha Hn Hu; split; [done | | apply (ao_scan _ _ _ Ha)].
  intros l u Hl Hu1; apply list_elem_of_lookup in Hl as [p Hp].
  destruct (so_lifetime _ _ _ (ao_scan _ _ _ Ha) p l Hp) as [_ Hcl].
  assert (hard_reg l <> 0) as Hnz.
  { assert (p ∈ al_order a) as [k Hk]%list_elem_of_lookup.
    { rewrite (ao_order _ _ _ Ha); apply elem_of_seq; pose proof (lookup_lt_Some _ _ _ Hp); lia. }
    rewrite (ao_done _ _ _ Ha k p l Hk Hp); apply lookup_ge_None in Hn; pose proof (lookup_lt_Some _ _ _ Hk); lia. }
  pose proof (classed_reg _ Hcl); split; [lia |]; destruct Hcl as (c & Hc & Hwf & Hus & [[? _] | Hr]); [done |].
  rewrite Forall_forall in Hus; destruct (Hus u Hu1) as [Hwu Hsub].
  eapply IsSubsetOf_regs; [lia | exact Hsub |]; apply HasReg_class; [done | lia | done].
Qed.

End Scan.

(** A scan that comes to the end of the list, in order or not. *)
Lemma Allocate_allocated (ord : Prop) ir st fuel a :
  Forall fresh_lifetime st -> 0 <= num_spill_slots ir ->
  allocate_loop fuel 0 (new_Allocator ir st (seq 0 (length st))) = Some (true, a) ->
  (ord -> StronglySorted Z.le (scan_begins fuel 0 (new_Allocator ir st (seq 0 (length st))))) ->
  allocated ord st (al_store a) /\ al_order a ≡ₚ seq 0 (length (al_store a)).
Proof.
  intros Hst Hsl Hl Hs; set (a0 := new_Allocator ir st (seq 0 (length st))) in *.
  set (b := match scan_begins fuel 0 a0 with b :: _ => b | [] => 0 end).
  destruct (allocate_loop_ok ord fuel 0 b a0 a) as (n' & b' & H1 & H2 & H3).
  - by apply alloc_ok_start.
  - done.
  - intros Hord; specialize (Hs Hord); unfold b; inversion Hs as [| x l Hs' Hf E]; [repeat constructor |].
    constructor; [by constructor |]; constructor; [lia | done].
  - split; [by eapply alloc_ok_allocated | apply H1].
Qed.

(** C5: register allocation is sound as long as the lifetimes are met in the
    order of their first ticks: when [Allocate] comes to the end of the list,
    every use it was given belongs to exactly one lifetime, has a hard register
    of its operand's class, and no hard register is held by two lifetimes at
    the same tick, where a spilled lifetime holds it during its uses only. *)
Theorem Allocate_sound (ir : MachineIR) (st : Store) (fuel : nat) (a : Allocator) :
  Forall fresh_lifetime st -> 0 <= num_spill_slots ir ->
  allocate_loop fuel 0 (new_Allocator ir st (seq 0 (length st))) = Some (true, a) ->
  StronglySorted Z.le (scan_begins fuel 0 (new_Allocator ir st (seq 0 (length st)))) ->
  all_uses (al_store a) ≡ₚ all_uses st /\
  (forall l u, l ∈ al_store a -> u ∈ lt_uses l -> HasReg (GetRegClass u) (hard_reg l) = true) /\
  conflict_free (al_store a).
Proof.
  intros Hst Hsl Hl Hs; destruct (Allocate_allocated True ir st fuel a Hst Hsl Hl (fun _ => Hs)) as [[H1 H2 H3] _].
  conjs; [done | | by apply H3]; intros l u Hlin Hu; by apply H2.
Qed.
