(* ===== verification/RegAllocTermination.v ===== *)
(** * The register allocator ends

    Spilling puts lifetimes back on the list that [Allocate] walks, so the walk
    ends only because a lifetime is evicted by one that comes before it: one
    that begins earlier or, at the same tick, one of a smaller register class.
    The last needs what [AppendUse] assumes of the classes, that they are nested
    or have no common registers. *)
From stdpp Require Import list sorting.
From S2P Require Import Prelude MachineIR Lifetime LifetimeAnalysis RegAlloc RegAllocProps.
#[local] Open Scope Z_scope.

(** ** Lexicographic order of lists of one length *)

Inductive lex_lt : list nat -> list nat -> Prop :=
  | lex_here x y l l' : (x < y)%nat -> length l = length l' -> lex_lt (x :: l) (y :: l')
  | lex_next x l l' : lex_lt l l' -> lex_lt (x :: l) (x :: l').

Lemma lex_lt_length l l' : lex_lt l l' -> length l = length l'.
Proof. induction 1; cbn; congruence. Qed.

Lemma lex_lt_acc n : forall l, length l = n -> Acc lex_lt l.
Proof.
  induction n as [| n IHn]; intros l Hl.
  - destruct l; [| done]; constructor; intros y Hy; inversion Hy.
  - destruct l as [| x l]; [done |]; injection Hl as Hl; revert l Hl.
    induction x as [x IHx] using (well_founded_induction lt_wf); intros l Hl.
    pose proof (IHn l Hl) as Ha; induction Ha as [l _ IHl]; constructor; intros y Hy; inversion Hy; subst.
    + apply IHx; [done | congruence].
    + apply IHl; [done |]; by rewrite (lex_lt_length _ _ ltac:(eassumption)).
Qed.

Lemma lex_lt_map {A} (f g : A -> nat) pre k post :
  (forall x, x ∈ pre -> f x = g x) -> (f k < g k)%nat ->
  lex_lt (f <$> pre ++ k :: post) (g <$> pre ++ k :: post).
Proof.
  intros Hpre Hk; induction pre as [| x pre IH]; cbn [app fmap list_fmap].
  - apply lex_here; [done | by rewrite !length_fmap].
  - rewrite (Hpre x) by (apply elem_of_cons; by left); apply lex_next, IH; intros; apply Hpre, elem_of_cons; by right.
Qed.

(** ** Counting *)

Definition count {A} (P : A -> Prop) `{!forall x, Decision (P x)} (l : list A) : nat := length (filter P l).

Lemma count_cons {A} (P : A -> Prop) `{!forall x, Decision (P x)} x l :
  count P (x :: l) = ((if decide (P x) then 1 else 0) + count P l)%nat.
Proof. unfold count; rewrite filter_cons; by case_decide. Qed.

Lemma count_app {A} (P : A -> Prop) `{!forall x, Decision (P x)} l l' :
  count P (l ++ l') = (count P l + count P l')%nat.
Proof. unfold count; by rewrite filter_app, length_app. Qed.

Lemma count_none {A} (P : A -> Prop) `{!forall x, Decision (P x)} l :
  (forall x, x ∈ l -> ~ P x) -> count P l = 0%nat.
Proof.
  induction l as [| x l IH]; intros Hn; [done |]; rewrite count_cons, IH by (intros; apply Hn, elem_of_cons; by right).
  rewrite decide_False; [done |]; apply Hn, elem_of_cons; by left.
Qed.

(** Where no element gains the property the count does not grow, and where one
    loses it the count falls. *)
Lemma count_mono {A} (P : A -> Prop) `{!forall x, Decision (P x)} l l' :
  length l' = length l ->
  (forall j x x', l !! j = Some x -> l' !! j = Some x' -> P x' -> P x) ->
  (count P l' <= count P l)%nat /\
  ((exists j x x', l !! j = Some x /\ l' !! j = Some x' /\ P x /\ ~ P x') -> (count P l' < count P l)%nat).
Proof.
  revert l'; induction l as [| x l IH]; intros [| x' l'] Hlen Hm; try done.
  - split; [done |]; by intros (j & y & ? & ? & _).
  - injection Hlen as Hlen; destruct (IH l' Hlen) as [H1 H2]; [intros j; exact (Hm (S j)) |].
    pose proof (Hm 0%nat x x' eq_refl eq_refl) as H0; rewrite !count_cons; split.
    + repeat case_decide; try lia; tauto.
    + intros ([| j] & y & y' & Hy & Hy' & HP & HN).
      * injection Hy as ->; injection Hy' as ->; repeat case_decide; try lia; tauto.
      * specialize (H2 ltac:(exists j, y, y'; done)); repeat case_decide; try lia; tauto.
Qed.

Lemma count_same {A} (P : A -> Prop) `{!forall x, Decision (P x)} l l' :
  length l' = length l ->
  (forall j x x', l !! j = Some x -> l' !! j = Some x' -> P x' <-> P x) -> count P l' = count P l.
Proof.
  intros Hlen Hm; assert (Hle : forall l l', length l' = length l ->
    (forall j x x', l !! j = Some x -> l' !! j = Some x' -> P x' -> P x) -> (count P l' <= count P l)%nat).
  { intros l1 l2 H1 H2; by apply count_mono. }
  apply Nat.le_antisymm; apply Hle; try done; intros j x x' Hx Hx'; [by apply (Hm j x x') | by apply (Hm j x' x)].
Qed.

(** ** The order of eviction *)

Lemma mask_bounds rs : Forall (fun r => 0 < r < Z.of_nat kMaxHardRegs) rs -> 0 <= mask_of rs < 2 ^ 64.
Proof.
  intros Hf; assert (0 <= mask_of rs) as Hn.
  { induction Hf; [done |]; cbn [mask_of foldr]; apply Z.lor_nonneg; split; [apply Z.shiftl_nonneg; lia | done]. }
  split; [done |]; destruct (decide (mask_of rs = 0)) as [-> |]; [lia |].
  apply Z.log2_lt_pow2; [lia |]; assert (Hlt : forall m, 64 <= m -> Z.testbit (mask_of rs) m = false).
  { intros m Hm; rewrite mask_of_testbit; [| eapply Forall_impl; [exact Hf |]; cbn; lia | lia].
    apply bool_decide_eq_false; intros Hin; rewrite Forall_forall in Hf; specialize (Hf m Hin).
    change (Z.of_nat kMaxHardRegs) with 64 in Hf; cbn in Hf; lia. }
  destruct (Z.lt_ge_cases (Z.log2 (mask_of rs)) 64); [done |].
  pose proof (Z.bit_log2 (mask_of rs) ltac:(lia)) as Hb; rewrite Hlt in Hb by done; done.
Qed.

(** A smaller class at the same tick comes first. *)
Definition key_of (b : Z) (c : MachineRegClass) : Z := b * 2 ^ 64 + reg_mask c.
Definition key (l : VRegLifetime) : option Z := b ← lt_begin l; c ← reg_class l; Some (key_of b c).

Definition nested (c c' : MachineRegClass) : Prop :=
  IsSubsetOf c c' = true \/ IsSubsetOf c' c = true \/ forall r, r ∈ class_regs c -> r ∈ class_regs c' -> False.

Lemma subset_mask c c' : wf_class c' -> IsSubsetOf c c' = true -> reg_mask c <= reg_mask c'.
Proof.
  intros [Hf Hm] Hs; unfold IsSubsetOf in Hs; apply Z.eqb_eq in Hs.
  pose proof (mask_bounds _ Hf) as Hb; rewrite <- Hm in Hb; apply Z.ldiff_le; [lia |].
  apply Z.bits_inj'; intros i Hi; rewrite Z.ldiff_spec, Z.bits_0, <- Hs, Z.land_spec.
  by destruct (Z.testbit (reg_mask c) i), (Z.testbit (reg_mask c') i).
Qed.

(** Evicting at the same tick: the class of the evicted is the larger one. *)
Lemma conflict_mask c c' r :
  wf_class c -> wf_class c' -> nested c c' -> r ∈ class_regs c -> r ∈ class_regs c' ->
  IsSubsetOf c c' = false -> reg_mask c' < reg_mask c.
Proof.
  intros Hw Hw' [? | [Hs | Hd]] Hr Hr' Hn; [congruence | | by destruct (Hd r)].
  pose proof (subset_mask c' c Hw Hs); destruct (decide (reg_mask c' = reg_mask c)) as [E |]; [| lia].
  unfold IsSubsetOf in *; rewrite E, Z.land_diag, Z.eqb_refl in *; done.
Qed.

Lemma wf_class_mask c : wf_class c -> 0 <= reg_mask c < 2 ^ 64.
Proof. intros [Hf ->]; by apply mask_bounds. Qed.

Lemma key_of_lt b b' c c' :
  wf_class c -> wf_class c' -> b < b' \/ b <= b' /\ reg_mask c < reg_mask c' -> key_of b c < key_of b' c'.
Proof. intros H%wf_class_mask H'%wf_class_mask; unfold key_of; lia. Qed.

(** ** One spill *)
Section Run.
(** The uses of the lifetimes, and the classes of the uses and lifetimes. *)
Context (uses : list VRegUse) (classes : list MachineRegClass).
Hypothesis uses_classes : forall u, u ∈ uses -> GetRegClass u ∈ classes.
Hypothesis classes_wf : forall c, c ∈ classes -> wf_class c.
Hypothesis classes_nested : forall c c', c ∈ classes -> c' ∈ classes -> nested c c'.

(** A lifetime made of one use by a spill. *)
Definition is_tiny (l : VRegLifetime) : Prop :=
  exists u, u ∈ uses /\ lt_uses l = [u] /\ reg_class l = Some (GetRegClass u) /\ lt_begin l = Some (use_begin u).

Definition unspilled (l : VRegLifetime) : Prop := spill_slot l = -1.
Definition pending (k : Z) (l : VRegLifetime) : Prop := hard_reg l = 0 /\ key l = Some k.
#[local] Instance unspilled_dec l : Decision (unspilled l) := decide (_ = _).
#[local] Instance pending_dec k l : Decision (pending k l) := and_dec _ _.

(** The arena after spills for a lifetime of key [kp]: the lifetimes that have
    no register are as they were; those that were added are spilled, and come
    after [kp] unless a lifetime was spilled for the first time. *)
Record spill_effect (kp : Z) (st st' : Store) : Prop := {
  se_old : forall j x, st !! j = Some x -> exists x', st' !! j = Some x' /\ hard_reg x' = hard_reg x /\
    (unspilled x' -> unspilled x) /\ (x' = x \/ hard_reg x <> 0);
  se_new : forall j x, (length st <= j)%nat -> st' !! j = Some x ->
    ~ unspilled x /\ hard_reg x = 0 /\ is_tiny x /\
    ((exists q y y', st !! q = Some y /\ unspilled y /\ st' !! q = Some y' /\ ~ unspilled y') \/
     exists k, key x = Some k /\ kp < k);
  se_len : (length st <= length st')%nat
}.

Lemma spill_effect_refl kp st : spill_effect kp st st.
Proof.
  split; [intros j x Hj; exists x; conjs; try done; by left | | lia].
  intros j x Hle Hj%lookup_lt_Some; lia.
Qed.

Lemma spill_effect_trans kp st1 st2 st3 :
  spill_effect kp st1 st2 -> spill_effect kp st2 st3 -> spill_effect kp st1 st3.
Proof.
  intros [A1 A2 A3] [B1 B2 B3]; split; [| | lia].
  - intros j x Hj; destruct (A1 j x Hj) as (y & Hy & Ey & Uy & Cy), (B1 j y Hy) as (z & Hz & Ez & Uz & Cz).
    exists z; conjs; [done | congruence | tauto |].
    destruct Cy as [-> | ?]; [done | by right].
  - intros j x Hle Hj; destruct (decide (length st2 <= j)%nat) as [Hge | Hlt].
    + destruct (B2 j x Hge Hj) as (H1 & H2 & H3 & [(q & y & y' & Hq & Uy & Hq' & Uy') | H4]); conjs; try done; [| by right].
      left; destruct (decide (length st1 <= q)%nat) as [Hn |]; [by destruct (A2 q y Hn Hq) as [? _] |].
      destruct (lookup_lt_is_Some_2 st1 q) as [y0 Hy0]; [lia |]; destruct (A1 q y0 Hy0) as (y1 & Hy1 & _ & U & _).
      exists q, y0, y'; conjs; try done; apply U; congruence.
    + destruct (lookup_lt_is_Some_2 st2 j) as [y Hy]; [lia |]; destruct (B1 j y Hy) as (z & Hz & Ez & Uz & Cz).
      rewrite Hj in Hz; injection Hz as <-; destruct (A2 j y Hle Hy) as (H1 & H2 & H3 & H4).
      destruct Cz as [-> | ?]; [| done]; conjs; try done; destruct H4 as [(q & w & w' & Hq & Uw & Hq' & Uw') | ?]; [left | by right].
      destruct (B1 q w' Hq') as (w2 & Hw2 & _ & U2 & _); exists q, w, w2; conjs; try done; tauto.
Qed.

Lemma key_tiny slot u : key (tiny_lifetime slot u) = Some (key_of (use_begin u) (GetRegClass u)).
Proof. done. Qed.

Lemma is_tiny_tiny slot u : u ∈ uses -> is_tiny (tiny_lifetime slot u).
Proof. intros Hu; by exists u. Qed.

Lemma spill_one_effect b nc r st slot q c k pos st' split :
  st !! q = Some c -> lifetime_ok c -> FindSplitPos b c = (k, pos) -> k <> SPLIT_IMPOSSIBLE -> 0 <= slot ->
  (k = SPLIT_CONFLICT -> exists cc, reg_class c = Some cc /\ IsSubsetOf cc nc = false) ->
  lt_uses c ⊆ uses -> hard_reg c = r -> r <> 0 -> classed c -> unspilled c \/ is_tiny c ->
  nc ∈ classes -> r ∈ class_regs nc ->
  spill_one st slot q pos = Some (st', split) -> spill_effect (key_of b nc) st st'.
Proof.
  intros Hq Hok Hf Hk Hslot Hcf Hus Hr Hnz Hcl Htiny Hnc Hrn Hsp.
  destruct (spill_one_spec b st slot q c k pos st' split Hq Hok Hf Hk Hslot Hsp) as (l' & us & Hs & _ & Hgt).
  assert (Hsub : us ⊆ uses).
  { intros u Hu; apply Hus; rewrite (ss_uses _ _ _ _ _ _ _ _ Hs); apply elem_of_app; by right. }
  split.
  - intros j x Hj; rewrite (spilled_store_old _ _ _ _ _ _ _ _ _ _ Hs Hj); eexists; split; [done |].
    case_decide; [| conjs; try done; by left]; subst j; rewrite Hq in Hj; injection Hj as <-.
    conjs; [apply Hs | intros Hu; by destruct (ss_slot _ _ _ _ _ _ _ _ Hs) | right; congruence].
  - intros j x Hle Hj; destruct (spilled_store_lookup _ _ _ _ _ _ _ _ _ _ Hs Hj)
      as [(-> & _ & ?) | [(_ & Hj'%lookup_lt_Some) | (_ & u & Hu & ->)]]; [lia | lia |].
    conjs; [apply (ss_slot _ _ _ _ _ _ _ _ Hs) | done | by apply is_tiny_tiny, Hsub |].
    destruct Htiny as [Hun | (v & Hv & Hlu & Hcv & _)].
    + left; exists q, c, l'; conjs; try done; [| apply (ss_slot _ _ _ _ _ _ _ _ Hs)].
      rewrite (spilled_store_old _ _ _ _ _ _ _ _ _ _ Hs Hq); by rewrite decide_True.
    + right; rewrite key_tiny; eexists; split; [done |].
      assert (u = v) as ->.
      { assert (u ∈ lt_uses c) as Hin by (rewrite (ss_uses _ _ _ _ _ _ _ _ Hs); apply elem_of_app; by right).
        rewrite Hlu in Hin; by apply list_elem_of_singleton. }
      pose proof (uses_classes v Hv) as Hvc; apply key_of_lt; [by apply classes_wf | by apply classes_wf |].
      pose proof (ss_after _ _ _ _ _ _ _ _ Hs) as Haf; rewrite Forall_forall in Haf; specialize (Haf v Hu); cbn in Haf.
      destruct k; [done | right; split; [done |] | left].
      * destruct (Hcf eq_refl) as (cc & Hcc & Hns); assert (cc = GetRegClass v) as -> by congruence.
        apply (conflict_mask _ _ r); auto.
        destruct Hcl as (c' & Hc' & _ & _ & [[? _] | Hin]); [congruence |].
        assert (c' = GetRegClass v) as -> by congruence; by rewrite <- Hr.
      * specialize (Hgt eq_refl); rewrite Forall_forall in Hgt; by apply Hgt.
  - rewrite (spilled_store_length _ _ _ _ _ _ _ _ Hs); lia.
Qed.

(** *** All the spills of a register *)

Definition evictable (nc : MachineRegClass) (r : MachineReg) (st : Store) (b : Z) (s : LifetimePtr * SplitPos) : Prop :=
  exists c k, st !! s.1 = Some c /\ FindSplitPos b c = (k, s.2) /\ k <> SPLIT_IMPOSSIBLE /\
    (k = SPLIT_CONFLICT -> exists cc, reg_class c = Some cc /\ IsSubsetOf cc nc = false) /\
    lifetime_ok c /\ lt_uses c ⊆ uses /\ hard_reg c = r /\ classed c /\ (unspilled c \/ is_tiny c).

Lemma spill_loop_effect b nc r slot pos spills : nc ∈ classes -> r ∈ class_regs nc -> r <> 0 -> 0 <= slot ->
  forall st order cur st' order' cur',
  NoDup spills.*1 -> Forall (evictable nc r st b) spills ->
  spill_loop st order slot pos cur spills = Some (st', order', cur') -> spill_effect (key_of b nc) st st'.
Proof.
  intros Hnc Hr Hnz Hslot; induction spills as [| [q sp] spills IH]; intros st order cur st' order' cur' Hnd Hall; cbn [spill_loop].
  - intros [= <- _ _]; apply spill_effect_refl.
  - cbn [fmap list_fmap fst] in *; apply NoDup_cons in Hnd as [Hnq Hnd]; apply Forall_cons in Hall as [He Hall].
    destruct He as (c & k & Hq & Hf & Hk & Hcf & Hok & Hus & Hh & Hcl & Ht); cbn in Hq, Hf.
    destruct (spill_one st slot q sp) as [[st1 split] |] eqn:E1; cbn [mbind option_bind]; [| done].
    destruct (MergeVRegLifetimeList _ _ _ _) as [order1 |]; cbn [mbind option_bind]; [| done]; intros Hl.
    eapply spill_effect_trans; [by eapply (spill_one_effect b nc r st slot q c k sp) |].
    eapply IH; [done | | exact Hl].
    destruct (spill_one_spec b st slot q c k sp st1 split) as (l' & us & Hs & _); try done.
    rewrite Forall_forall in Hall |- *; intros s Hin; destruct (Hall s Hin) as (c1 & k1 & Hc1 & ?).
    exists c1, k1; split; [| done]; rewrite (spilled_store_old _ _ _ _ _ _ _ _ _ _ Hs Hc1), decide_False; [done |].
    intros <-; apply Hnq, list_elem_of_fmap; by exists s.
Qed.

(** ** The measure *)

(** The keys that lifetimes can have, in order. *)
Context (ks : list Z).
Hypothesis ks_sorted : StronglySorted Z.lt ks.

Definition measure (st : Store) : list nat :=
  count unspilled st :: ((fun k => count (pending k) st) <$> ks).

Lemma sorted_split k : k ∈ ks -> exists pre post, ks = pre ++ k :: post /\ forall x, x ∈ pre -> x < k.
Proof.
  intros (pre & post & E)%list_elem_of_split; exists pre, post; split; [done |].
  pose proof ks_sorted as Hs; rewrite E in Hs; apply StronglySorted_app in Hs as (Hx & _ & _).
  intros x Hin; apply Hx; [done | apply elem_of_cons; by left].
Qed.

Lemma measure_hints st st' : same_but_hints st st' -> measure st' = measure st.
Proof.
  intros Hh; pose proof (Forall2_length _ _ _ Hh) as Hlen.
  assert (Hs : forall j x x', st !! j = Some x -> st' !! j = Some x' -> same_but_hint x x').
  { intros j x x' Hx Hx'; destruct (Forall2_lookup_l _ _ _ _ _ Hh Hx) as (y & Hy & ?); congruence. }
  unfold measure; f_equal; [| apply list_fmap_ext; intros i k _]; apply count_same; try done;
    intros j x x' Hx Hx'; destruct (Hs j x x' Hx Hx') as (E1 & E2 & E3 & E4 & _);
    unfold unspilled, pending, key, lt_begin; by rewrite ?E1, ?E2, ?E3, ?E4.
Qed.

Lemma spill_effect_old kp p l r st0 st :
  spill_effect kp st0 st -> st0 !! p = Some l -> hard_reg l = 0 -> key l = Some kp -> r <> 0 ->
  forall j x', alter (set_hard_reg r) p st !! j = Some x' -> (j < length st0)%nat ->
    exists x, st0 !! j = Some x /\ (unspilled x' -> unspilled x) /\
      (forall k, pending k x' -> pending k x) /\ (forall k, pending k x -> pending k x' \/ j = p /\ k = kp).
Proof.
  intros [Hold _ _] Hp H0 Hk Hr j x' (y & Hy & Hc)%lookup_alter_cases Hj.
  destruct (lookup_lt_is_Some_2 st0 j Hj) as [x Hx].
  destruct (Hold j x Hx) as (y' & Hy' & Eh & Eu & Ec); assert (y' = y) as -> by congruence.
  exists x; split; [done |]; destruct Hc as [[<- ->] | [Hne ->]].
  - rewrite Hp in Hx; injection Hx as <-; conjs; [done | by intros k [? _] |].
    intros k [_ Hk']; right; split; [done | congruence].
  - conjs; [done | |]; intros k [G1 G2]; destruct Ec as [-> | ?]; try congruence; [done | by left].
Qed.

Lemma measure_decreases kp p l r st0 st :
  spill_effect kp st0 st -> st0 !! p = Some l -> hard_reg l = 0 -> key l = Some kp -> r <> 0 -> kp ∈ ks ->
  lex_lt (measure (alter (set_hard_reg r) p st)) (measure st0).
Proof.
  intros He Hp H0 Hk Hr Hin; set (st' := alter (set_hard_reg r) p st).
  pose proof (spill_effect_old kp p l r st0 st He Hp H0 Hk Hr) as Hst; fold st' in Hst.
  pose proof He as [Hold Hnew Hlen].
  assert (Hlen' : length st' = length st) by apply length_alter.
  set (A := take (length st0) st'); set (B := drop (length st0) st').
  assert (HAB : st' = A ++ B) by (symmetry; apply take_drop).
  assert (HlA : length A = length st0) by (unfold A; rewrite length_take; lia).
  assert (HA : forall j x', A !! j = Some x' -> st' !! j = Some x' /\ (j < length st0)%nat).
  { intros j x'; unfold A; rewrite lookup_take_Some; tauto. }
  assert (HB : forall x, x ∈ B -> exists j, (length st0 <= j)%nat /\ st !! j = Some x).
  { intros x [j Hj]%list_elem_of_lookup; unfold B in Hj; rewrite lookup_drop in Hj.
    apply lookup_alter_cases in Hj as (y & Hy & [[E ->] | [_ ->]]); [| exists (length st0 + j)%nat; split; [lia | done]].
    apply lookup_lt_Some in Hp; lia. }
  unfold measure.
  destruct (count_mono unspilled st0 A HlA) as [Hle Hlt].
  { intros j x x' Hx [Hx' Hj]%HA; destruct (Hst j x' Hx' Hj) as (y & Hy & Hu & _); assert (y = x) as -> by congruence; done. }
  assert (HuB : count unspilled B = 0%nat).
  { apply count_none; intros x (j & Hj & Hx)%HB; by destruct (Hnew j x Hj Hx). }
  destruct (decide (count unspilled st' = count unspilled st0)) as [Heq | Hne].
  2:{ rewrite HAB, count_app in *; apply lex_here; [lia | by rewrite !length_fmap]. }
  rewrite Heq; apply lex_next.
  assert (HkB : forall x k, x ∈ B -> k <= kp -> ~ pending k x).
  { intros x k (j & Hj & Hx)%HB Hk' [_ Hkx]; destruct (Hnew j x Hj Hx) as (_ & _ & _ & [(q & y & y' & Hq & Uy & Hq' & Uy') | (k' & ? & ?)]);
      [| assert (k' = k) by congruence; lia].
    assert (count unspilled A < count unspilled st0)%nat; [| rewrite HAB, count_app in Heq; lia].
    apply Hlt; pose proof (lookup_lt_Some _ _ _ Hq) as Hql.
    assert (exists y2, st' !! q = Some y2 /\ ~ unspilled y2) as (y2 & Hy2 & Uy2).
    { unfold st'; destruct (decide (p = q)) as [-> |].
      - exists (set_hard_reg r y'); by rewrite list_lookup_alter_eq, Hq'.
      - exists y'; by rewrite list_lookup_alter_ne. }
    exists q, y, y2; conjs; try done; unfold A; by rewrite lookup_take_lt. }
  destruct (sorted_split kp Hin) as (pre & post & -> & Hpre); apply lex_lt_map.
  - intros k Hkp%Hpre; rewrite HAB, count_app, (count_none _ B), Nat.add_0_r by (intros x Hx; apply HkB; [done | lia]).
    apply count_same; [done |]; intros j x x' Hx [Hx' Hj]%HA; destruct (Hst j x' Hx' Hj) as (y & Hy & _ & Hp1 & Hp2).
    assert (y = x) as -> by congruence; split; [apply Hp1 |]; intros Hpk; destruct (Hp2 k Hpk) as [? | [_ ?]]; [done | lia].
  - rewrite HAB, count_app, (count_none _ B), Nat.add_0_r by (intros x Hx; apply HkB; [done | lia]).
    apply count_mono; [done | |].
    + intros j x x' Hx [Hx' Hj]%HA; destruct (Hst j x' Hx' Hj) as (y & Hy & _ & Hp1 & _); assert (y = x) as -> by congruence; apply Hp1.
    + destruct (Hold p l Hp) as (l' & Hl' & Eh & _ & _); exists p, l, (set_hard_reg r l'); conjs; [done | | done | by intros [? _]].
      unfold A; rewrite lookup_take_lt by (by eapply lookup_lt_Some); unfold st'; by rewrite list_lookup_alter_eq, Hl'.
Qed.

(** ** One iteration *)

Definition splits_once (l : VRegLifetime) : Prop := unspilled l \/ is_tiny l.

Lemma splits_once_same l l' :
  range_list l' = range_list l -> reg_class l' = reg_class l -> spill_slot l' = spill_slot l ->
  splits_once l -> splits_once l'.
Proof. unfold splits_once, unspilled, is_tiny, lt_uses, lt_begin; by intros -> -> ->. Qed.

(** Of a lifetime without a register. *)
Definition waiting_ok (l : VRegLifetime) : Prop :=
  splits_once l /\ (exists k, key l = Some k /\ k ∈ ks) /\ (forall c, reg_class l = Some c -> c ∈ classes).

Record run_inv (n : nat) (b : Z) (a : Allocator) : Prop := {
  ri_ok : alloc_ok False n b a;
  ri_uses : all_uses (al_store a) ⊆ uses;
  ri_active : forall r ps p l, acts_of a !! r = Some ps -> p ∈ ps -> al_store a !! p = Some l -> splits_once l;
  ri_waiting : forall p l, al_store a !! p = Some l -> hard_reg l = 0 -> waiting_ok l
}.

Hypothesis keys_uses : forall u, u ∈ uses -> key_of (use_begin u) (GetRegClass u) ∈ ks.

Lemma tiny_waiting l : is_tiny l -> waiting_ok l.
Proof.
  intros Ht; pose proof Ht as (u & Hu & Hl & Hc & Hb); split; [by right |]; split.
  - exists (key_of (use_begin u) (GetRegClass u)); unfold key; rewrite Hb, Hc; cbn; split; [done | by apply keys_uses].
  - intros c; rewrite Hc; intros [= <-]; by apply uses_classes.
Qed.

Lemma same_but_hint_splits l l' : same_but_hint l l' -> splits_once l -> splits_once l'.
Proof. intros (E1 & E2 & _ & E4 & _); by apply splits_once_same. Qed.

Lemma same_but_hint_waiting l l' : same_but_hint l l' -> waiting_ok l -> waiting_ok l'.
Proof.
  intros Hs (H1 & H2 & H3); split; [by eapply same_but_hint_splits |].
  destruct Hs as (E1 & E2 & _); unfold key, lt_begin in *; by rewrite E1, E2.
Qed.

(** The spills of one call. *)
Lemma spill_run_effect b r l c a st spills :
  scan_ok False b (al_store a) (acts_of a) -> all_uses (al_store a) ⊆ uses ->
  (forall r ps p l, acts_of a !! r = Some ps -> p ∈ ps -> al_store a !! p = Some l -> splits_once l) ->
  reg_class l = Some c -> c ∈ classes -> r ∈ class_regs c -> spill_run b r l a st spills ->
  spill_effect (key_of b c) (al_store a) st.
Proof.
  intros Hsc Hus Hact Hc Hcc Hr (slot & pos & order & order' & cur & cur' & Hslot & Hcur & Hl & Hnd & Hsub & Hall).
  assert (0 < r) as Hr0.
  { destruct (classes_wf c Hcc) as [Hf _]; rewrite Forall_forall in Hf; specialize (Hf r Hr); cbn in Hf; lia. }
  eapply (spill_loop_effect b c r); [done | done | lia | exact Hslot | exact Hnd | | exact Hl].
  rewrite Forall_forall in Hall |- *; intros s Hs; destruct (Hall s Hs) as (x & k & Hx & _ & Hf & Hk & Hcf).
  assert (s.1 ∈ cur) as Hin by (apply Hsub, list_elem_of_fmap; by exists s).
  destruct (so_active _ _ _ _ Hsc _ _ _ Hcur Hin) as (x' & Hx' & Hh & _); assert (x' = x) as -> by congruence.
  destruct (so_lifetime _ _ _ _ Hsc _ _ Hx) as [Hok Hcl].
  exists x, k; conjs; try done.
  - intros Hkc; destruct (Hcf Hkc) as (cc & nc & ? & ? & ?); exists cc; split; [done | congruence].
  - intros u Hu; apply Hus, list_elem_of_In, in_concat; exists (lt_uses x).
    split; apply list_elem_of_In; [| done]; apply list_elem_of_fmap; exists x; split; [done | by eapply list_elem_of_lookup_2].
  - lia.
  - by eapply Hact.
Qed.

(** What a spill leaves of the invariants. *)
Lemma spill_effect_waiting kp st st' :
  spill_effect kp st st' -> (forall p l, st !! p = Some l -> hard_reg l = 0 -> waiting_ok l) ->
  forall p l, st' !! p = Some l -> hard_reg l = 0 -> waiting_ok l.
Proof.
  intros [Hold Hnew _] Hw p l Hp H0; destruct (decide (length st <= p)%nat) as [Hge | Hlt].
  - by apply tiny_waiting, (Hnew p l Hge Hp).
  - destruct (lookup_lt_is_Some_2 st p) as [x Hx]; [lia |]; destruct (Hold p x Hx) as (x' & Hx' & Eh & _ & Ec).
    assert (x' = l) as -> by congruence; destruct Ec as [-> | ?]; [by eapply Hw | congruence].
Qed.

(** The hard register of [p] is set last. *)
Lemma run_inv_set n b r p st a' :
  alloc_ok False n b a' -> all_uses (al_store a') ⊆ uses -> al_store a' = alter (set_hard_reg r) p st -> r <> 0 ->
  (forall r ps q x, acts_of a' !! r = Some ps -> q ∈ ps -> st !! q = Some x -> splits_once x) ->
  (forall q x, st !! q = Some x -> hard_reg x = 0 -> waiting_ok x) -> run_inv n b a'.
Proof.
  intros Hok Hus Est Hr Hact Hw; split; [done | done | |]; rewrite Est.
  - intros r' ps q x Hps Hq (y & Hy & Hxy)%lookup_alter_cases; pose proof (Hact r' ps q y Hps Hq Hy) as Hs.
    destruct Hxy as [[_ ->] | [_ ->]]; [by eapply splits_once_same | done].
  - intros q x (y & Hy & [[<- ->] | [_ ->]])%lookup_alter_cases Hx0; [done | by eapply Hw].
Qed.

(** Move hints do not matter to the invariants. *)
Lemma run_inv_hints n b p l a st0 :
  run_inv n b a -> al_store a !! p = Some l -> hard_reg l = 0 -> same_but_hints (al_store a) st0 ->
  (forall q x, st0 !! q = Some x -> hard_reg x = 0 -> waiting_ok x) /\
  (forall acts' r ps q x, acts_within p (acts_of a) acts' -> acts' !! r = Some ps -> q ∈ ps -> st0 !! q = Some x -> splits_once x).
Proof.
  intros [_ _ Hact Hw] Hp H0 Hh.
  assert (Hw0 : forall q x, st0 !! q = Some x -> hard_reg x = 0 -> waiting_ok x).
  { intros q x Hq Hx0; destruct (Forall2_lookup_r _ _ _ _ _ Hh Hq) as (y & Hy & Hyx).
    eapply same_but_hint_waiting; [exact Hyx |]; eapply Hw; [exact Hy |]; destruct Hyx as (_ & _ & E & _); congruence. }
  split; [done |]; intros acts' r ps q x Hwi Hps Hq Hx.
  destruct (Forall2_lookup_r _ _ _ _ _ Hh Hx) as (y & Hy & Hyx); eapply same_but_hint_splits; [exact Hyx |].
  destruct (Hwi r ps q Hps Hq) as [-> | (ps0 & ? & ?)]; [| by eapply Hact].
  assert (y = l) as -> by congruence; by apply (Hw p l).
Qed.

Lemma AllocateLifetime_decreases n b p a a' :
  run_inv n b a -> al_order a !! n = Some p -> AllocateLifetime n p a = Some a' ->
  exists b', run_inv (S n) b' a' /\ lex_lt (measure (al_store a')) (measure (al_store a)).
Proof.
  intros Hinv Hn Hal; pose proof Hinv as [Hok Hus Hact Hw]; destruct (waiting_begin _ _ _ _ _ Hok Hn) as [nb Hnb].
  destruct (AllocateLifetime_ok False n b nb p a a' Hok Hn Hnb ltac:(done) Hal) as [Hok' Hu'].
  pose proof (scan_ok_later False b nb _ _ ltac:(done) (ao_scan _ _ _ _ Hok)) as Hsc.
  unfold begin_of in Hnb; destruct (al_store a !! p) as [l |] eqn:Hp; [| done]; cbn in Hnb.
  assert (hard_reg l = 0) as H0 by (apply (ao_done _ _ _ _ Hok n p l Hn Hp); lia).
  destruct (so_lifetime _ _ _ _ Hsc p l Hp) as [_ Hcl]; pose proof Hcl as (c & Hc & _).
  destruct (Hw p l Hp H0) as (_ & (kp & Hkp & Hkin) & Hcc); specialize (Hcc c Hc).
  destruct (AllocateLifetime_cases False n nb p l c a a' Hsc Hp H0 Hnb Hc Hal) as (st0 & r & Hh & Hr & Hcase).
  pose proof (class_reg_pos _ _ _ Hcl Hc Hr) as Hpos; destruct (run_inv_hints n b p l a st0 Hinv Hp H0 Hh) as [Hw0 Hsp0].
  destruct (Forall2_lookup_l _ _ _ _ _ Hh Hp) as (l0 & Hp0 & Er & Ec & Eh & _).
  assert (Hkp0 : key l0 = Some kp) by (unfold key, lt_begin in *; by rewrite Er, Ec).
  exists nb; rewrite <- (measure_hints _ _ Hh).
  assert (Hu2 : all_uses (al_store a') ⊆ uses) by (intros u Hu; apply Hus; by rewrite <- Hu').
  destruct Hcase as [(Est & _ & _ & _ & Hwi) | (a3 & w & Est3 & Ho3 & Hi3 & Hsc3 & Hwi & Hcons & Hlt & Hsp)].
  - split; [eapply run_inv_set; try done; [lia |]; intros; by eapply Hsp0 |].
    rewrite Est; eapply measure_decreases; try done; [apply spill_effect_refl | congruence | lia].
  - destruct (SpillAndAssignHardReg_ok False nb n p l0 c r w a3 a')
      as (st & todo & spills & Est & Hpst & Hsc' & Hfr & Hrun & Hacts & _); try done.
    1,2: by rewrite Est3.
    { congruence. }
    { unfold lt_begin in *; by rewrite Er. }
    { congruence. }
    { rewrite Ho3; exact (ao_nodup _ _ _ _ Hok). }
    { rewrite Hi3; exact (ao_slots _ _ _ _ Hok). }
    assert (He : spill_effect kp st0 st).
    { assert (kp = key_of nb c) as ->; [unfold key in Hkp; rewrite Hnb, Hc in Hkp; by injection Hkp |].
      subst st0; eapply (spill_run_effect nb r l0 c a3 st spills); try done; [| | congruence].
      - by rewrite (same_but_hints_uses _ _ Hh).
      - intros; by eapply Hsp0. }
    split; [| rewrite Est; eapply measure_decreases; try done; [congruence | lia]].
    eapply run_inv_set; try done; [lia | | by apply (spill_effect_waiting kp st0 st)].
    intros r' ps q y Hps Hq Hy; destruct (Hacts r' ps q Hps Hq) as [-> | [Hnq (ps0 & Hps0 & Hq0)]].
    + assert (y = l0) as -> by congruence; apply (Hw0 p l0); congruence.
    + destruct (so_active _ _ _ _ Hsc3 _ _ _ Hps0 Hq0) as (x0 & Hx0 & _); rewrite <- Est3 in Hx0.
      destruct (sf_old _ _ _ Hfr q x0 Hx0) as (y' & Hy' & _ & Ey); specialize (Ey Hnq).
      assert (y = x0) as -> by congruence; rewrite Est3 in Hx0; by eapply Hsp0.
Qed.

(** ** The loop *)

Lemma allocate_loop_ends n b a :
  run_inv n b a -> exists fuel, forall f, (fuel <= f)%nat ->
    allocate_loop f n a = None \/ exists a', allocate_loop f n a = Some (true, a').
Proof.
  pose proof (lex_lt_acc _ (measure (al_store a)) eq_refl) as Hacc; remember (measure (al_store a)) as m eqn:Em.
  revert n b a Em; induction Hacc as [m _ IH]; intros n b a Em Hinv.
  destruct (al_order a !! n) as [p |] eqn:Hn.
  2:{ exists 0%nat; intros f _; right; exists a; destruct f; cbn; by rewrite Hn. }
  destruct (AllocateLifetime n p a) as [a1 |] eqn:Hal.
  2:{ exists 1%nat; intros [| f] Hf; [lia | left]; cbn; by rewrite Hn, Hal. }
  destruct (AllocateLifetime_decreases n b p a a1 Hinv Hn Hal) as (b' & Hinv' & Hlt); rewrite <- Em in Hlt.
  destruct (IH _ Hlt (S n) b' a1 eq_refl Hinv') as [fuel Hf]; exists (S fuel); intros [| f] Hle; [lia |].
  cbn [allocate_loop]; rewrite Hn, Hal; apply Hf; lia.
Qed.

End Run.

(** ** The whole allocation *)

(** The classes of the lifetimes and of their uses. *)
Definition classes_of (st : Store) : list MachineRegClass := omap reg_class st ++ (GetRegClass <$> all_uses st).

Lemma bounded (l : list Z) : exists lo hi, forall x, x ∈ l -> lo <= x < hi.
Proof.
  induction l as [| y l (lo & hi & IH)]; [exists 0, 0; by intros x ?%not_elem_of_nil |].
  exists (Z.min lo y), (Z.max hi (y + 1)); intros x [-> | Hx%IH]%elem_of_cons; lia.
Qed.

Lemma seqZ_sorted lo n : StronglySorted Z.lt (seqZ lo n).
Proof.
  unfold seqZ; generalize 0%nat as k; induction (Z.to_nat n) as [| m IH]; intros k; cbn; constructor; [apply IH |].
  rewrite Forall_fmap, Forall_forall; intros x [Hx _]%elem_of_seq; cbn; lia.
Qed.

(** C10: the register allocator ends: when the register classes of its lifetimes
    and of their uses are nested or have no common registers, the loop that
    takes lifetimes from the list, while spills put others on it, comes to the
    end of the list or fails a check after finitely many iterations. *)
Theorem Allocate_ends (ir : MachineIR) (st : Store) :
  Forall fresh_lifetime st -> Forall unspilled st -> 0 <= num_spill_slots ir ->
  (forall c c', c ∈ classes_of st -> c' ∈ classes_of st -> nested c c') ->
  exists fuel, forall f, (fuel <= f)%nat ->
    allocate_loop f 0 (new_Allocator ir st (seq 0 (length st))) = None \/
    exists a, allocate_loop f 0 (new_Allocator ir st (seq 0 (length st))) = Some (true, a).
Proof.
  intros Hst Hun Hsl Hnest; set (a0 := new_Allocator ir st (seq 0 (length st))).
  set (keys := omap key st ++ ((fun u => key_of (use_begin u) (GetRegClass u)) <$> all_uses st)).
  destruct (bounded keys) as (lo & hi & Hb).
  assert (Hin : forall k, k ∈ keys -> k ∈ seqZ lo (hi - lo)) by (intros k Hk%Hb; apply elem_of_seqZ; lia).
  rewrite Forall_forall in Hst, Hun.
  apply (allocate_loop_ends (all_uses st) (classes_of st)) with (ks := seqZ lo (hi - lo)) (b := 0).
  - intros u Hu; apply elem_of_app; right; apply list_elem_of_fmap; by exists u.
  - intros c [(l & Hl & Hc)%list_elem_of_omap | (u & -> & Hu)%list_elem_of_fmap]%elem_of_app.
    + destruct (Hst l Hl) as (_ & (c' & Hc' & Hwf & _) & _); by assert (c = c') as -> by congruence.
    + apply list_elem_of_In, in_concat in Hu as (us & (l & -> & Hl)%list_elem_of_In%list_elem_of_fmap & Hu).
      destruct (Hst l Hl) as (_ & (c' & _ & _ & Hus & _) & _); rewrite Forall_forall in Hus; apply Hus; by apply list_elem_of_In.
  - done.
  - apply seqZ_sorted.
  - intros u Hu; apply Hin, elem_of_app; right; apply list_elem_of_fmap; by exists u.
  - split; [apply alloc_ok_start; [by apply Forall_forall | done] | done | |].
    + intros r ps p l Hr Hp; unfold acts_of, a0 in Hr; cbn [allocations new_Allocator] in Hr.
      rewrite fmap_replicate in Hr; apply lookup_replicate in Hr as [-> _]; by apply not_elem_of_nil in Hp.
    + intros p l Hp H0; pose proof (list_elem_of_lookup_2 _ _ _ Hp) as Hl; split; [left; by apply Hun |].
      destruct (Hst l Hl) as (_ & Hcl & _); pose proof Hcl as (c & Hc & _ & _ & [[_ Hne] | Hr]).
      2:{ pose proof (class_reg_pos _ _ _ Hcl Hc Hr); lia. }
      split.
      * unfold key, lt_begin; destruct (range_list l) as [| r rl] eqn:Er; [done |].
        exists (key_of (lr_begin r) c); cbn; rewrite Hc; cbn; split; [done |]; apply Hin, elem_of_app; left.
        apply list_elem_of_omap; exists l; split; [done |]; unfold key, lt_begin; by rewrite Er, Hc.
      * intros c' Hc'; apply elem_of_app; left; apply list_elem_of_omap; by exists l.
Qed.
