(* ===== verification/LifetimeAnalysisProps.v ===== *)
(** * Properties of the lifetime analysis

    The lifetimes that [CollectLifetimes] makes are what the register
    allocator expects: ranges in order, every operand of a virtual register in
    exactly one use of the register's lifetime, with the ticks of its
    instruction. *)
From stdpp Require Import gmap list sorting.
From S2P Require Import Prelude MachineIR Lifetime LifetimeAnalysis RegAlloc RegAllocProps.
#[local] Open Scope Z_scope.

(** ** One lifetime while the walk is at tick [t]

    No range ends after [e]; a range of an earlier block ended before the
    current block began at [bt]. *)
Record life_inv (t e bt : Z) (l : VRegLifetime) : Prop := {
  li_ok : lifetime_ok l;
  li_back : exists init back, range_list l = init ++ [back] /\ lr_begin back <= t /\ lr_end back <= e /\
              (lr_begin back < bt -> lr_end back <= bt);
  li_uses : Forall (fun u => use_begin u <= t) (lt_uses l);
  li_class : match reg_class l with
             | None => lt_uses l = []
             | Some c => wf_class c /\
                 Forall (fun u => wf_class (GetRegClass u) /\ IsSubsetOf c (GetRegClass u) = true) (lt_uses l)
             end;
  li_fresh : hard_reg l = 0 /\ spill_slot l = -1
}.

Lemma life_inv_later t e bt t' e' l : t <= t' -> e <= e' -> life_inv t e bt l -> life_inv t' e' bt l.
Proof.
  intros Ht He [H1 (init & back & H2 & Hq1 & Hq2 & Hq3) H3 H4 H5]; split; try done.
  - exists init, back; conjs; try done; lia.
  - eapply Forall_impl; [exact H3 |]; cbn; lia.
Qed.

Lemma update_last_app {A} (f : A -> A) l x : update_last f (l ++ [x]) = l ++ [f x].
Proof.
  unfold update_last; rewrite length_app; cbn [length]; rewrite Nat.add_1_r; cbn [pred].
  induction l as [| y l IH]; cbn; [done | by rewrite IH].
Qed.

Lemma ranges_ok_snoc rl r :
  ranges_ok (rl ++ [r]) <->
  ranges_ok rl /\ lr_begin r <= lr_end r /\ Forall (fun x => lr_end x <= lr_begin r) rl.
Proof.
  unfold ranges_ok; rewrite Forall_app, Forall_singleton, StronglySorted_app; split.
  - intros [[? ?] (Hx & ? & _)]; conjs; try done; apply Forall_forall; intros x Hx'.
    apply (Hx x r Hx'); by apply list_elem_of_singleton.
  - intros [[? ?] (? & Hf)]; rewrite Forall_forall in Hf; conjs; try done.
    + intros x y Hx ->%list_elem_of_singleton; auto.
    + repeat constructor.
Qed.

Lemma lt_uses_snoc init back c h s w m :
  lt_uses {| range_list := init ++ [back]; reg_class := c; hard_reg := h; spill_slot := s;
             spill_weight := w; move_hint := m |} = concat (use_list <$> init) ++ use_list back.
Proof. unfold lt_uses; cbn; rewrite fmap_app, concat_app; cbn; by rewrite app_nil_r. Qed.

Lemma lt_uses_split l init back : range_list l = init ++ [back] -> lt_uses l = concat (use_list <$> init) ++ use_list back.
Proof. intros E; unfold lt_uses; rewrite E, fmap_app, concat_app; cbn; by rewrite app_nil_r. Qed.

Lemma new_lifetime_inv t e bt : t <= e -> life_inv t e bt (new_lifetime t).
Proof.
  intros Hte; split; cbn; try done.
  - split; cbn; repeat constructor; cbn; lia.
  - exists [], (new_range t); cbn; conjs; (done || lia).
Qed.

Lemma StartLiveRange_inv t e bt l init back :
  life_inv t e bt l -> range_list l = init ++ [back] -> lr_begin back < bt -> bt <= t -> t <= e ->
  life_inv t e bt (StartLiveRange t l).
Proof.
  intros [[H1 H1'] (init' & back' & H2 & Hq1 & Hq2 & Hbt) H3 H4 H5] E Hlt Hb Hte.
  rewrite E in H2; apply app_inj_tail in H2 as [<- <-]; specialize (Hbt Hlt).
  assert (Eu : lt_uses (StartLiveRange t l) = lt_uses l).
  { unfold lt_uses, StartLiveRange; cbn; rewrite fmap_app, concat_app; cbn; by rewrite !app_nil_r. }
  split; rewrite ?Eu; try done.
  - split; cbn [range_list StartLiveRange set_range_list].
    + apply ranges_ok_snoc; cbn; conjs; [exact H1 | lia |].
      rewrite E in H1 |- *; apply ranges_ok_snoc in H1 as (_ & Hbe & Hf); apply Forall_app; split.
      * eapply Forall_impl; [exact Hf |]; cbn; lia.
      * repeat constructor; lia.
    + apply Forall_app; split; [done |]; repeat constructor.
  - exists (range_list l), (new_range t); cbn; conjs; try done; lia.
Qed.

(** Appending a use to the range that is open. *)
Lemma append_last t e bt init back u :
  ranges_ok (init ++ [back]) -> Forall range_uses_ok (init ++ [back]) ->
  Forall (fun u => use_begin u <= t) (use_list back) -> lr_begin back <= t ->
  lr_end back <= e -> bt <= lr_begin back ->
  use_begin u = t -> t < use_end u <= e ->
  ranges_ok (init ++ [range_AppendUse u back]) /\ Forall range_uses_ok (init ++ [range_AppendUse u back]) /\
  lr_end (range_AppendUse u back) <= e.
Proof.
  intros H1 H2 H3 H4 H5 H6 Hu Hend; apply ranges_ok_snoc in H1 as (H1a & H1b & H1c).
  rewrite Forall_app, Forall_singleton in H2; destruct H2 as [H2a [H2b H2c]].
  assert (lr_end back <= lr_end (range_AppendUse u back) /\ use_end u <= lr_end (range_AppendUse u back)) as [Ha Hb].
  { cbn; destruct (Z.ltb_spec (lr_end back) (use_end u)); lia. }
  split; [| split; [| cbn; destruct (Z.ltb_spec (lr_end back) (use_end u)); lia]].
  - apply ranges_ok_snoc; cbn [lr_begin range_AppendUse]; conjs; try done; try exact H1a; lia.
  - apply Forall_app; split; [done |]; apply Forall_singleton; split; cbn [use_list range_AppendUse].
    + apply Forall_app; split.
      * eapply Forall_impl; [exact H2b |]; cbn [lr_begin range_AppendUse]; intros x; cbn beta; lia.
      * repeat constructor; cbn [lr_begin range_AppendUse]; lia.
    + apply StronglySorted_app; split; [| split; [done | repeat constructor]].
      intros x y Hx ->%list_elem_of_singleton; rewrite Forall_forall in H3; specialize (H3 x Hx); cbn in H3; lia.
Qed.

(** The ranges after the hole, with the range that the use goes to. *)
Lemma insert_hole_inv t e bt init back u :
  ranges_ok (init ++ [back]) -> Forall range_uses_ok (init ++ [back]) ->
  Forall (fun u => use_begin u <= t) (concat (use_list <$> init) ++ use_list back) ->
  lr_begin back <= t -> lr_end back <= e -> t <= e -> bt <= lr_begin back -> use_begin u = t ->
  exists init' back', insert_hole u back (init ++ [back]) = init' ++ [back'] /\
    ranges_ok (init' ++ [back']) /\ Forall range_uses_ok (init' ++ [back']) /\
    Forall (fun u => use_begin u <= t) (use_list back') /\ lr_begin back' <= t /\ lr_end back' <= e /\
    bt <= lr_begin back' /\ concat (use_list <$> init') ++ use_list back' = concat (use_list <$> init) ++ use_list back.
Proof.
  intros H1 H2 H3 H4 H5 Hte H6 Hu; unfold insert_hole.
  assert (Hb : Forall (fun u => use_begin u <= t) (use_list back)) by (by apply Forall_app in H3 as [_ ?]).
  destruct (IsDef _ && negb _); cbn [andb]; [| exists init, back; auto 12].
  destruct (Z.ltb_spec (lr_end back) (use_begin u)) as [Hlt |]; [| exists init, back; auto 12].
  destruct (use_list back) as [| u0 us] eqn:Eu.
  - exists init, (set_begin (use_begin u) back); rewrite update_last_app; cbn [lr_begin lr_end set_begin use_list].
    rewrite Eu; apply ranges_ok_snoc in H1 as (H1a & H1b & H1c).
    rewrite Forall_app, Forall_singleton in H2; destruct H2 as [H2a _]; conjs; try lia; try done.
    + apply ranges_ok_snoc; cbn; conjs; try exact H1a; try lia.
      eapply Forall_impl; [exact H1c |]; cbn; lia.
    + apply Forall_app; split; [done |]; apply Forall_singleton; split; cbn; rewrite Eu; constructor.
  - exists (init ++ [back]), (new_range (use_begin u)); cbn [lr_begin lr_end new_range use_list]; conjs; try lia; try done.
    + apply ranges_ok_snoc; cbn; conjs; try exact H1; try lia.
      apply ranges_ok_snoc in H1 as (H1a & H1b & H1c); apply Forall_app; split; [| repeat constructor; lia].
      eapply Forall_impl; [exact H1c |]; cbn; lia.
    + apply Forall_app; split; [done |]; repeat constructor.
    + rewrite fmap_app, concat_app, app_nil_r; cbn; by rewrite Eu, app_nil_r.
Qed.

Lemma AppendUse_inv t e bt l u l' init back :
  life_inv t e bt l -> range_list l = init ++ [back] -> bt <= lr_begin back ->
  use_begin u = t -> t < use_end u <= e -> wf_class (GetRegClass u) -> AppendUse u l = Some l' ->
  life_inv t e bt l' /\ lt_uses l' = lt_uses l ++ [u].
Proof.
  intros [[H1 H1'] (init0 & back0 & H2 & Hbt & Hee & Hbb) H3 H4 H5] E Hge Hu Hend Hwf; unfold AppendUse.
  rewrite E in H2; apply app_inj_tail in H2 as [<- <-]; rewrite E, last_snoc; cbn [mbind option_bind].
  rewrite E in H1, H1'; pose proof (lt_uses_split l init back E) as Eul; rewrite Eul in H3.
  destruct (insert_hole_inv t e bt init back u) as (init' & back' & -> & G1 & G2 & G3 & G4 & G5 & G6 & G7); try done; [lia |].
  rewrite update_last_app.
  destruct (append_last t e bt init' back' u) as (K1 & K2 & K3); try done.
  destruct (match reg_class l with Some c => GetIntersection c (GetRegClass u) | None => Some (GetRegClass u) end) as [c |] eqn:Ec;
    cbn [mbind option_bind]; [| done]; intros [= <-].
  assert (Ell : lt_uses {| range_list := init' ++ [range_AppendUse u back']; reg_class := Some c; hard_reg := hard_reg l;
     spill_slot := spill_slot l; spill_weight := spill_weight l + 1; move_hint := move_hint l |} = lt_uses l ++ [u]).
  { rewrite lt_uses_snoc; cbn [use_list range_AppendUse]; rewrite app_assoc, G7; by rewrite Eul. }
  split; [| done]; split; rewrite ?Ell; cbn [range_list reg_class hard_reg spill_slot]; try done.
  - exists init', (range_AppendUse u back'); cbn [lr_begin range_AppendUse]; conjs; try done; lia.
  - apply Forall_app; split; [by rewrite Eul |]; repeat constructor; lia.
  - rewrite Forall_app, Forall_singleton; destruct (reg_class l) as [c0 |].
    + destruct H4 as [Hw0 Hf0]; destruct (GetIntersection_subset _ _ _ Ec) as ([-> | ->] & Hs1 & Hs2);
        (split; [done | split; [| done]]); [done |].
      eapply Forall_impl; [exact Hf0 |]; intros x [? Hx]; split; [done |].
      unfold IsSubsetOf in *; rewrite Z.eqb_eq in *.
      rewrite <- Hs1 at 1; rewrite <- Z.land_assoc, Hx; done.
    + injection Ec as <-; rewrite H4; conjs; try apply Hwf; try constructor; apply IsSubsetOf_refl.
Qed.

Lemma set_end_inv t bt l : life_inv t t bt l -> life_inv t t t (lt_set_end t l) /\ lt_uses (lt_set_end t l) = lt_uses l.
Proof.
  intros [[H1 H1'] (init & back & E & Hbt & Hee & _) H3 H4 H5]; unfold lt_set_end.
  assert (Eu : lt_uses (set_range_list (update_last (range_set_end t) (range_list l)) l) = lt_uses l).
  { rewrite (lt_uses_split l init back E), (lt_uses_split _ init (range_set_end t back)); [done |].
    cbn [range_list set_range_list]; by rewrite E, update_last_app. }
  split; [| done]; split; rewrite ?Eu; try done; cbn [range_list set_range_list]; rewrite E, update_last_app.
  - rewrite E in H1, H1'; apply ranges_ok_snoc in H1 as (H1a & H1b & H1c).
    rewrite Forall_app, Forall_singleton in H1'; destruct H1' as [H1' [H6 H7]]; split; cbn [range_list set_range_list].
    + apply ranges_ok_snoc; cbn; conjs; try exact H1a; try done.
    + apply Forall_app; split; [done |]; apply Forall_singleton; split; cbn; [| done].
      eapply Forall_impl; [exact H6 |]; cbn; lia.
  - exists init, (range_set_end t back); cbn; conjs; try done; lia.
Qed.

Lemma life_inv_hint t e bt l l' : same_but_hint l l' -> life_inv t e bt l -> life_inv t e bt l'.
Proof.
  intros Hs [H1 H2 H3 H4 H5]; pose proof Hs as (Er & Ec & Eh & Es & _).
  split; unfold lt_uses in *; rewrite ?Er, ?Ec, ?Eh, ?Es; try done; by eapply same_but_hint_ok.
Qed.

Lemma life_inv_block t bt l : life_inv t t bt l -> life_inv t t t l.
Proof.
  intros [H1 (init & back & H2 & Hq1 & Hq2 & Hq3) H3 H4 H5]; split; try done.
  exists init, back; conjs; try done; lia.
Qed.

Lemma all_uses_insert st p l l' us :
  st !! p = Some l -> lt_uses l' = lt_uses l ++ us -> all_uses (<[p := l']> st) ≡ₚ all_uses st ++ us.
Proof.
  intros Hp Hu; unfold all_uses; rewrite (insert_take_drop st p l') by (by eapply lookup_lt_Some).
  rewrite <- (take_drop_middle st p l Hp) at 3.
  rewrite !fmap_app, !concat_app; cbn [fmap list_fmap concat]; rewrite Hu, <- !app_assoc.
  do 2 f_equiv; apply Permutation_app_comm.
Qed.

Lemma all_uses_alter_at (f : VRegLifetime -> VRegLifetime) st p l :
  st !! p = Some l -> lt_uses (f l) = lt_uses l -> all_uses (alter f p st) = all_uses st.
Proof.
  revert p; induction st as [| x st IH]; intros [| p]; cbn; try done.
  - intros [= ->] Hf; unfold all_uses; cbn; by rewrite Hf.
  - intros Hp Hf; unfold all_uses in *; cbn; f_equal; by apply IH.
Qed.

(** ** The state of the analysis

    [op_at] gives the register of an operand by the position of its
    instruction and its index. *)
Section Analysis.
Context (op_at : MachineInsnListPosition -> nat -> option MachineReg).

Definition use_reg (u : VRegUse) : option MachineReg := op_at (use_pos u) (use_index u).

Record an_inv (t e : Z) (an : VRegLifetimeAnalysis) : Prop := {
  ai_life : forall p l, an_lifetimes an !! p = Some l -> life_inv t e (bb_tick an) l;
  ai_tick : bb_tick an <= tick an <= t;
  ai_ptr : forall i p, vreg_lifetimes an !! i = Some p -> is_Some (an_lifetimes an !! p);
  ai_inj : forall i j p, vreg_lifetimes an !! i = Some p -> vreg_lifetimes an !! j = Some p -> i = j;
  ai_reg : forall p l u, an_lifetimes an !! p = Some l -> u ∈ lt_uses l ->
             exists r i, use_reg u = Some r /\ GetVRegIndex r = Some i /\ vreg_lifetimes an !! i = Some p
}.

Lemma an_inv_later t e t' e' an : t <= t' -> e <= e' -> an_inv t e an -> an_inv t' e' an.
Proof. intros ? ? [H1 H2 H3 H3' H4]; split; try done; [eauto using life_inv_later | lia]. Qed.

(** The analysis after a step that keeps the clock and adds the uses [us]. *)
Record an_step (us : list VRegUse) (an an' : VRegLifetimeAnalysis) : Prop := {
  as_tick : tick an' = tick an;
  as_bb_tick : bb_tick an' = bb_tick an;
  as_uses : all_uses (an_lifetimes an') ≡ₚ all_uses (an_lifetimes an) ++ us
}.

Lemma an_step_refl an : an_step [] an an.
Proof. split; [done | done | by rewrite app_nil_r]. Qed.

Lemma an_step_trans us us' a1 a2 a3 : an_step us a1 a2 -> an_step us' a2 a3 -> an_step (us ++ us') a1 a3.
Proof. intros [A1 A2 A3] [B1 B2 B3]; split; [congruence | congruence |]; by rewrite B3, A3, app_assoc. Qed.

Lemma GetVRegLifetime_ok t e r p an an' :
  an_inv t e an -> t <= e -> GetVRegLifetime r t an = Some (p, an') ->
  an_inv t e an' /\ an_step [] an an' /\
  (exists i, GetVRegIndex r = Some i /\ vreg_lifetimes an' !! i = Some p) /\
  exists l init back, an_lifetimes an' !! p = Some l /\ range_list l = init ++ [back] /\ bb_tick an' <= lr_begin back.
Proof.
  intros [H1 H2 H3 H3' H4] Hte; unfold GetVRegLifetime.
  destruct (GetVRegIndex r) as [i |]; cbn [mbind option_bind]; [| done].
  destruct (vreg_lifetimes an !! i) as [q |] eqn:Hq.
  - destruct (an_lifetimes an !! q) as [l |] eqn:Hl; cbn [mbind option_bind]; [| done].
    pose proof (H1 q l Hl) as Hi; pose proof Hi as [_ (init & back & E & Hq1 & Hq2 & Hq3) _ _ _].
    unfold LastLiveRangeBegin; rewrite E, last_snoc; cbn [fmap option_fmap option_map mbind option_bind].
    intros [= <- <-]; destruct (Z.ltb_spec (lr_begin back) (bb_tick an)).
    + pose proof (StartLiveRange_inv t e (bb_tick an) l init back Hi E ltac:(lia) ltac:(lia) Hte) as Hi'.
      assert (Eu : lt_uses (StartLiveRange t l) = lt_uses l ++ []).
      { unfold lt_uses, StartLiveRange; cbn; rewrite fmap_app, concat_app; done. }
      conjs.
      * split; cbn [an_lifetimes bb_tick tick vreg_lifetimes set_lifetimes]; try done.
        -- intros p l1 [[<- ->] | [? ?]]%lookup_insert_cases; eauto.
        -- intros j p Hj; destruct (H3 j p Hj) as [x Hx]; destruct (decide (q = p)) as [-> |].
           ++ rewrite list_lookup_insert_eq by (by eapply lookup_lt_Some); eauto.
           ++ rewrite list_lookup_insert_ne by done; eauto.
        -- intros p l1 u [[<- ->] | [? ?]]%lookup_insert_cases Hu; [| by eapply H4].
           rewrite Eu, app_nil_r in Hu; by eapply H4.
      * split; [done | done |]; cbn [an_lifetimes set_lifetimes]; by apply (all_uses_insert _ _ l).
      * by exists i.
      * exists (StartLiveRange t l), (range_list l), (new_range t); cbn; conjs; [| done | lia].
        apply list_lookup_insert_eq; by eapply lookup_lt_Some.
    + conjs; [done | apply an_step_refl | by exists i |]; exists l, init, back; conjs; [done | done | lia].
  - intros [= <- <-]; conjs.
    + split; cbn [an_lifetimes bb_tick tick vreg_lifetimes]; try done.
      * intros p l [Hp | [_ Hp]]%lookup_app_Some; [eauto |].
        apply list_lookup_singleton_Some in Hp as [_ <-]; apply new_lifetime_inv; lia.
      * intros j p [[<- <-] | [? Hj]]%lookup_insert_Some.
        -- rewrite lookup_app_r, Nat.sub_diag by lia; by eexists.
        -- destruct (H3 j p Hj) as [x Hx]; rewrite lookup_app_l by (by eapply lookup_lt_Some); by eexists.
      * intros j j' p [[<- <-] | [? Hj]]%lookup_insert_Some [[<- ?] | [? Hj']]%lookup_insert_Some; [done | | | by eapply H3'].
        -- destruct (H3 _ _ Hj') as [x Hx%lookup_lt_Some]; lia.
        -- subst p; destruct (H3 _ _ Hj) as [x Hx%lookup_lt_Some]; lia.
      * intros p l u [Hp | [_ Hp]]%lookup_app_Some Hu.
        -- destruct (H4 p l u Hp Hu) as (r' & j & Hr & Hj & Hv); exists r', j; conjs; try done.
           rewrite lookup_insert_ne; [done |]; intros ->; congruence.
        -- apply list_lookup_singleton_Some in Hp as [_ <-]; by apply not_elem_of_nil in Hu.
    + split; [done | done |]; cbn [an_lifetimes]; unfold all_uses; by rewrite fmap_app, concat_app.
    + exists i; split; [done |]; apply lookup_insert_eq.
    + exists (new_lifetime t), [], (new_range t); cbn [range_list new_lifetime lr_begin new_range bb_tick an_lifetimes].
      conjs; [| done | lia]; by rewrite lookup_app_r, Nat.sub_diag by lia.
Qed.

Lemma AppendVRegUse_ok t e r u an an' :
  an_inv t e an -> use_begin u = t -> t < use_end u <= e -> wf_class (GetRegClass u) -> use_reg u = Some r ->
  AppendVRegUse r u an = Some an' -> an_inv t e an' /\ an_step [u] an an'.
Proof.
  intros Ha Hu Hend Hwf Hr; unfold AppendVRegUse; rewrite Hu.
  destruct (GetVRegLifetime r t an) as [[p an1] |] eqn:Eg; cbn [mbind option_bind]; [| done].
  destruct (GetVRegLifetime_ok t e r p an an1 Ha ltac:(lia) Eg)
    as (Ha1 & Hs1 & (i & Hi & Hv) & l & init & back & Hl & E & Hge).
  rewrite Hl; cbn [mbind option_bind]; destruct (AppendUse u l) as [l' |] eqn:Eu; cbn [mbind option_bind]; [| done].
  intros [= <-]; destruct (AppendUse_inv t e (bb_tick an1) l u l' init back) as [Hl' Hus]; try done.
  { by apply (ai_life _ _ _ Ha1 p). }
  destruct Ha1 as [H1 H2 H3 H3' H4]; split.
  - split; cbn [an_lifetimes bb_tick tick vreg_lifetimes set_lifetimes]; try done.
    + intros q l1 [[<- ->] | [? ?]]%lookup_insert_cases; eauto.
    + intros j q Hj; destruct (H3 j q Hj) as [x Hx]; destruct (decide (p = q)) as [-> |].
      * rewrite list_lookup_insert_eq by (by eapply lookup_lt_Some); eauto.
      * rewrite list_lookup_insert_ne by done; eauto.
    + intros q l1 v [[<- ->] | [? ?]]%lookup_insert_cases Hvu; [| by eapply H4].
      rewrite Hus, elem_of_app, list_elem_of_singleton in Hvu; destruct Hvu as [Hvu | ->]; [by eapply H4 |].
      by exists r, i.
  - change [u] with ([] ++ [u]); eapply an_step_trans; [exact Hs1 |]; split; [done | done |].
    cbn [an_lifetimes set_lifetimes]; by apply (all_uses_insert _ _ l).
Qed.

Lemma SetMoveHint_same st p q st' : SetMoveHint st p q = Some st' -> same_but_hints st st'.
Proof.
  unfold SetMoveHint, FindMoveHint.
  destruct (find_move_hint _ st p) as [[h st1] |] eqn:E1; cbn [mbind option_bind]; [| done].
  destruct (find_move_hint _ st1 q) as [[o st2] |] eqn:E2; cbn [mbind option_bind]; [| done].
  apply find_move_hint_same in E1, E2.
  assert (same_but_hints st st2) as Hs by (apply (transitivity (y := st1)); done).
  destruct (st2 !! h), (st2 !! o); cbn [mbind option_bind]; try done.
  destruct (lt_begin v), (lt_begin v0); cbn [mbind option_bind]; try done; intros [= <-].
  destruct (_ <? _); [| case_decide; [done |]]; (apply (transitivity (y := st2)); [done | apply same_but_hints_alter]).
Qed.

Lemma an_inv_hints t e an st :
  same_but_hints (an_lifetimes an) st -> an_inv t e an -> an_inv t e (set_lifetimes st an) /\ an_step [] an (set_lifetimes st an).
Proof.
  intros Hs [H1 H2 H3 H3' H4]; split; [split | split]; cbn [an_lifetimes bb_tick tick vreg_lifetimes set_lifetimes]; try done.
  - intros p l Hp; destruct (Forall2_lookup_r _ _ _ _ _ Hs Hp) as (l0 & Hl0 & Hh); eauto using life_inv_hint.
  - intros i p Hi; destruct (H3 i p Hi) as [l0 Hl0]; destruct (Forall2_lookup_l _ _ _ _ _ Hs Hl0) as (l & ? & _); by exists l.
  - intros p l u Hp Hu; destruct (Forall2_lookup_r _ _ _ _ _ Hs Hp) as (l0 & Hl0 & Er & _).
    unfold lt_uses in Hu; rewrite Er in Hu; by eapply H4.
  - by rewrite (same_but_hints_uses _ _ Hs), app_nil_r.
Qed.

Lemma TrySetMoveHint_ok t e i an an' :
  an_inv t e an -> TrySetMoveHint i an = Some an' -> an_inv t e an' /\ an_step [] an an'.
Proof.
  intros Ha; unfold TrySetMoveHint.
  destruct (is_copy i); [| intros [= <-]; split; [done | apply an_step_refl]].
  destruct (RegAt i 0) as [dst |]; cbn [mbind option_bind]; [| done].
  destruct (IsVReg dst); [| intros [= <-]; split; [done | apply an_step_refl]].
  destruct (RegAt i 1) as [src |]; cbn [mbind option_bind]; [| done].
  destruct (IsVReg src); [| intros [= <-]; split; [done | apply an_step_refl]].
  destruct (GetVRegIndex dst) as [di |]; cbn [mbind option_bind]; [| done].
  destruct (GetVRegIndex src) as [si |]; cbn [mbind option_bind]; [| done].
  destruct (vreg_lifetimes an !! di) as [dp |]; cbn [mbind option_bind]; [| done].
  destruct (vreg_lifetimes an !! si) as [sp |]; cbn [mbind option_bind]; [| done].
  destruct (SetMoveHint _ dp sp) as [st |] eqn:Es; cbn [mbind option_bind]; [| done]; intros [= <-].
  apply SetMoveHint_same in Es; by apply an_inv_hints.
Qed.

(** ** The uses of the instructions *)

Fixpoint early_uses (pos : MachineInsnListPosition) (n : nat) (t : Z) (ops : list (MachineReg * MachineRegKind))
    : list VRegUse :=
  match ops with
  | [] => []
  | (r, k) :: ops => (if IsVReg r && IsUse k then [early_use pos n t k] else []) ++ early_uses pos (S n) t ops
  end.

Fixpoint late_uses (pos : MachineInsnListPosition) (n : nat) (t : Z) (ops : list (MachineReg * MachineRegKind))
    : list VRegUse :=
  match ops with
  | [] => []
  | (r, k) :: ops => (if IsVReg r && negb (IsUse k) then [late_use pos n t k] else []) ++ late_uses pos (S n) t ops
  end.

Definition ops_ok (pos : MachineInsnListPosition) (n : nat) (ops : list (MachineReg * MachineRegKind)) : Prop :=
  Forall (fun o => IsVReg o.1 = true -> wf_class (RegClass o.2)) ops /\
  forall j, (j < length ops)%nat -> op_at pos (n + j) = fst <$> ops !! j.

Lemma ops_ok_cons pos n r k ops :
  ops_ok pos n ((r, k) :: ops) ->
  (IsVReg r = true -> wf_class (RegClass k)) /\ op_at pos n = Some r /\ ops_ok pos (S n) ops.
Proof.
  intros [Hf Ho]; rewrite Forall_cons in Hf; destruct Hf as [Hk Hf]; conjs; [done | |].
  - specialize (Ho 0%nat ltac:(cbn; lia)); by rewrite Nat.add_0_r in Ho.
  - split; [done |]; intros j Hj; specialize (Ho (S j) ltac:(cbn; lia)); by rewrite <- plus_n_Sm in Ho.
Qed.

Lemma add_early_ok t pos n ops an an' :
  an_inv t (t + 2) an -> tick an = t -> ops_ok pos n ops -> add_early pos n ops an = Some an' ->
  an_inv t (t + 2) an' /\ an_step (early_uses pos n t ops) an an'.
Proof.
  revert n an; induction ops as [| [r k] ops IH]; intros n an Ha Ht Hops; cbn [add_early early_uses].
  - intros [= <-]; split; [done | apply an_step_refl].
  - apply ops_ok_cons in Hops as (Hk & Hr & Hops); destruct (IsVReg r && IsUse k) eqn:Ev.
    + destruct (AppendVRegUse r _ an) as [an1 |] eqn:Ea; cbn [mbind option_bind]; [| done].
      apply andb_true_iff in Ev as [Ev _]; rewrite Ht in Ea.
      destruct (AppendVRegUse_ok t (t + 2) r (early_use pos n t k) an an1) as [Ha1 Hs1]; try done; [| by apply Hk |].
      { cbn; destruct (IsDef k); lia. }
      intros Hl; destruct (IH _ _ Ha1 ltac:(rewrite (as_tick _ _ _ Hs1); done) Hops Hl) as [Ha' Hs'].
      split; [done |]; by eapply an_step_trans.
    + cbn [mbind option_bind]; intros Hl; by apply IH.
Qed.

Lemma add_late_ok t pos n ops an an' :
  an_inv (t + 1) (t + 2) an -> tick an = t -> ops_ok pos n ops -> add_late pos n ops an = Some an' ->
  an_inv (t + 1) (t + 2) an' /\ an_step (late_uses pos n t ops) an an'.
Proof.
  revert n an; induction ops as [| [r k] ops IH]; intros n an Ha Ht Hops; cbn [add_late late_uses].
  - intros [= <-]; split; [done | apply an_step_refl].
  - apply ops_ok_cons in Hops as (Hk & Hr & Hops); destruct (IsVReg r && negb (IsUse k)) eqn:Ev.
    + destruct (AppendVRegUse r _ an) as [an1 |] eqn:Ea; cbn [mbind option_bind]; [| done].
      apply andb_true_iff in Ev as [Ev _]; rewrite Ht in Ea.
      destruct (AppendVRegUse_ok (t + 1) (t + 2) r (late_use pos n t k) an an1) as [Ha1 Hs1]; try done; [| by apply Hk |].
      { cbn; lia. }
      intros Hl; destruct (IH _ _ Ha1 ltac:(rewrite (as_tick _ _ _ Hs1); done) Hops Hl) as [Ha' Hs'].
      split; [done |]; by eapply an_step_trans.
    + cbn [mbind option_bind]; intros Hl; by apply IH.
Qed.

Definition insn_uses (pos : MachineInsnListPosition) (t : Z) (i : MachineInsn) : list VRegUse :=
  early_uses pos 0 t (operands i) ++ late_uses pos 0 t (operands i).

Lemma AddInsn_ok pos i an an' :
  an_inv (tick an) (tick an) an -> ops_ok pos 0 (operands i) -> AddInsn pos i an = Some an' ->
  an_inv (tick an') (tick an') an' /\ tick an' = tick an + 2 /\ bb_tick an' = bb_tick an /\
  all_uses (an_lifetimes an') ≡ₚ all_uses (an_lifetimes an) ++ insn_uses pos (tick an) i.
Proof.
  intros Ha Hops; unfold AddInsn.
  destruct (add_early pos 0 (operands i) an) as [a1 |] eqn:E1; cbn [mbind option_bind]; [| done].
  destruct (add_early_ok (tick an) pos 0 (operands i) an a1) as [Ha1 Hs1]; try done.
  { eapply an_inv_later; [| | exact Ha]; lia. }
  destruct (add_late pos 0 (operands i) a1) as [a2 |] eqn:E2; cbn [mbind option_bind]; [| done].
  destruct (add_late_ok (tick an) pos 0 (operands i) a1 a2) as [Ha2 Hs2]; try done.
  { eapply an_inv_later; [| | exact Ha1]; lia. }
  { apply Hs1. }
  destruct (TrySetMoveHint i a2) as [a3 |] eqn:E3; cbn [mbind option_bind]; [| done].
  destruct (TrySetMoveHint_ok _ _ _ _ _ Ha2 E3) as [Ha3 Hs3]; intros [= <-].
  pose proof (an_step_trans _ _ _ _ _ (an_step_trans _ _ _ _ _ Hs1 Hs2) Hs3) as [T1 T2 T3].
  rewrite app_nil_r in T3; cbn [tick bb_tick an_lifetimes next_tick]; conjs; [| lia | done | done].
  apply (an_inv_later _ _ (tick a3 + 2) (tick a3 + 2)) in Ha3; [| lia | lia].
  destruct Ha3 as [A1 A2 A3 A3' A4]; split; cbn [tick bb_tick an_lifetimes next_tick vreg_lifetimes]; try done; lia.
Qed.

Fixpoint insns_uses (bb : BlockPtr) (n : nat) (t : Z) (l : list MachineInsn) : list VRegUse :=
  match l with
  | [] => []
  | i :: l => insn_uses (bb, n) t i ++ insns_uses bb (S n) (t + 2) l
  end.

Lemma add_insns_ok bb n l an an' :
  an_inv (tick an) (tick an) an -> (forall j i, l !! j = Some i -> ops_ok (bb, n + j)%nat 0 (operands i)) ->
  add_insns bb n l an = Some an' ->
  an_inv (tick an') (tick an') an' /\ tick an' = tick an + 2 * Z.of_nat (length l) /\ bb_tick an' = bb_tick an /\
  all_uses (an_lifetimes an') ≡ₚ all_uses (an_lifetimes an) ++ insns_uses bb n (tick an) l.
Proof.
  revert n an; induction l as [| i l IH]; intros n an Ha Hops; cbn [add_insns insns_uses].
  - intros [= <-]; rewrite app_nil_r; conjs; try done; cbn; lia.
  - destruct (AddInsn (bb, n) i an) as [an1 |] eqn:Ea; cbn [mbind option_bind]; [| done].
    pose proof (Hops 0%nat i eq_refl) as Hi; rewrite Nat.add_0_r in Hi.
    destruct (AddInsn_ok (bb, n) i an an1 Ha Hi Ea) as (Ha1 & Ht1 & Hb1 & Hu1).
    intros Hl; destruct (IH (S n) an1) as (Ha' & Ht' & Hb' & Hu'); try done.
    { intros j i' Hj; specialize (Hops (S j) i' Hj); by rewrite <- plus_n_Sm in Hops. }
    conjs; [done | cbn [length]; lia | congruence |].
    by rewrite Hu', Hu1, Ht1, <- app_assoc.
Qed.

(** ** Live-in and live-out registers, blocks *)

Lemma SetLiveIn_ok r an an' :
  an_inv (tick an) (tick an) an -> SetLiveIn r an = Some an' ->
  an_inv (tick an') (tick an') an' /\ an_step [] an an'.
Proof.
  intros Ha; unfold SetLiveIn; destruct (_ =? _); [| done].
  destruct (GetVRegLifetime r (tick an) an) as [[p an1] |] eqn:Eg; cbn; [| done]; intros [= <-].
  destruct (GetVRegLifetime_ok _ _ _ _ _ _ Ha ltac:(lia) Eg) as (H1 & H2 & _).
  by rewrite (as_tick _ _ _ H2).
Qed.

(** Between blocks every range ends by the current tick. *)
Definition out_inv (an : VRegLifetimeAnalysis) : Prop := an_inv (tick an) (tick an) (EndBasicBlock an).

Lemma SetLiveOut_ok r an an' :
  out_inv an -> SetLiveOut r an = Some an' -> out_inv an' /\ tick an' = tick an /\
  all_uses (an_lifetimes an') ≡ₚ all_uses (an_lifetimes an).
Proof.
  intros [H1 H2 H3 H3' H4]; unfold SetLiveOut.
  destruct (GetVRegIndex r) as [i |]; cbn [mbind option_bind]; [| done].
  destruct (vreg_lifetimes an !! i) as [p |] eqn:Hi; cbn [mbind option_bind]; [| done]; intros [= <-].
  cbn [an_lifetimes tick bb_tick vreg_lifetimes EndBasicBlock] in *.
  assert (Hlook : forall q l, alter (lt_set_end (tick an)) p (an_lifetimes an) !! q = Some l ->
    exists l0, an_lifetimes an !! q = Some l0 /\ lt_uses l = lt_uses l0 /\ life_inv (tick an) (tick an) (tick an) l).
  { intros q l (l0 & Hl0 & [[<- ->] | [_ ->]])%lookup_alter_cases; exists l0; [| eauto].
    destruct (set_end_inv _ _ _ (H1 _ _ Hl0)); done. }
  conjs; [| done |].
  - split; cbn [an_lifetimes tick bb_tick vreg_lifetimes EndBasicBlock set_lifetimes]; [| lia | | exact H3' |].
    + intros q l (l0 & _ & _ & ?)%Hlook; done.
    + intros j q Hj; destruct (H3 j q Hj) as [x Hx]; destruct (decide (p = q)) as [-> |].
      * rewrite list_lookup_alter_eq, Hx; cbn; eauto.
      * rewrite list_lookup_alter_ne by done; eauto.
    + intros q l u (l0 & Hl0 & Eu & _)%Hlook Hu; rewrite Eu in Hu; by eapply H4.
  - cbn [an_lifetimes set_lifetimes]; destruct (an_lifetimes an !! p) as [l |] eqn:Hp.
    + rewrite (all_uses_alter_at _ _ _ _ Hp); [done |]; exact (proj2 (set_end_inv _ _ _ (H1 p l Hp))).
    + destruct (H3 i p Hi); congruence.
Qed.

Lemma for_each_inv {A B} (f : A -> B -> option B) (P : B -> Prop) (R : B -> B -> Prop) l b b' :
  (forall x, R x x) -> (forall x y z, R x y -> R y z -> R x z) ->
  (forall a x y, a ∈ l -> P x -> f a x = Some y -> P y /\ R x y) ->
  P b -> for_each f l b = Some b' -> P b' /\ R b b'.
Proof.
  intros Hr Ht; revert b; induction l as [| a l IH]; intros b Hf Hb; cbn [for_each].
  - by intros [= <-].
  - destruct (f a b) as [b1 |] eqn:E; cbn [mbind option_bind]; [| done]; intros Hl.
    destruct (Hf a b b1 ltac:(apply elem_of_cons; by left) Hb E) as [Hb1 Hr1].
    destruct (IH b1 ltac:(intros; eapply Hf; [apply elem_of_cons; by right | done | done]) Hb1 Hl) as [? ?].
    split; [done |]; by eapply Ht.
Qed.

Definition block_ops_ok (bb : BlockPtr) (b : MachineBasicBlock) : Prop :=
  forall n i, insn_list b !! n = Some i -> ops_ok (bb, n) 0 (operands i).

Lemma collect_block_ok bb b an an' :
  an_inv (tick an) (tick an) an -> block_ops_ok bb b -> collect_block bb b an = Some an' ->
  an_inv (tick an') (tick an') an' /\ tick an' = tick an + 2 * Z.of_nat (length (insn_list b)) /\
  all_uses (an_lifetimes an') ≡ₚ all_uses (an_lifetimes an) ++ insns_uses bb 0 (tick an) (insn_list b).
Proof.
  intros Ha Hops; unfold collect_block.
  destruct (for_each SetLiveIn (live_in b) an) as [a1 |] eqn:E1; cbn [mbind option_bind]; [| done].
  destruct (for_each_inv SetLiveIn (fun a => an_inv (tick a) (tick a) a) (an_step []) (live_in b) an a1
    an_step_refl (an_step_trans [] []) (fun r x y _ Hx Hy => SetLiveIn_ok r x y Hx Hy) Ha E1) as [Ha1 Hs1].
  destruct (add_insns bb 0 (insn_list b) a1) as [a2 |] eqn:E2; cbn [mbind option_bind]; [| done].
  destruct (add_insns_ok bb 0 (insn_list b) a1 a2 Ha1 (fun j i Hj => Hops j i Hj) E2) as (Ha2 & Ht2 & Hb2 & Hu2).
  destruct (for_each SetLiveOut (live_out b) a2) as [a3 |] eqn:E3; cbn [mbind option_bind]; [| done].
  destruct (for_each_inv SetLiveOut out_inv (fun a a' => tick a' = tick a /\
    all_uses (an_lifetimes a') ≡ₚ all_uses (an_lifetimes a)) (live_out b) a2 a3) as (Ha3 & Ht3 & Hu3); [done | | | | done |].
  - intros x y z [T1 U1] [T2 U2]; split; [congruence | by rewrite U2].
  - intros r x y _ Hx Hy; destruct (SetLiveOut_ok r x y Hx Hy) as (? & ? & ?); done.
  - unfold out_inv; destruct Ha2 as [A1 A2 A3 A3' A4]; split; cbn [tick bb_tick an_lifetimes vreg_lifetimes EndBasicBlock]; try done; try lia.
    intros p l Hp; eapply life_inv_block; by eapply A1.
  - intros [= <-]; rewrite (as_tick _ _ _ Hs1) in Ht2, Hu2; pose proof (as_uses _ _ _ Hs1) as Hu1.
    rewrite app_nil_r in Hu1; cbn [tick an_lifetimes EndBasicBlock]; conjs; [done | lia |].
    by rewrite Hu3, Hu2, Hu1.
Qed.

(** The uses of all blocks, in the order of the list, from tick [t] on. *)
Fixpoint blocks_uses (ir : MachineIR) (t : Z) (bbs : list BlockPtr) : list VRegUse :=
  match bbs with
  | [] => []
  | bb :: bbs =>
      let l := match blocks ir !! bb with Some b => insn_list b | None => [] end in
      insns_uses bb 0 t l ++ blocks_uses ir (t + 2 * Z.of_nat (length l)) bbs
  end.

Lemma collect_blocks_ok ir bbs an an' :
  an_inv (tick an) (tick an) an ->
  (forall bb b, bb ∈ bbs -> blocks ir !! bb = Some b -> block_ops_ok bb b) ->
  for_each (fun bb an => b ← blocks ir !! bb; collect_block bb b an) bbs an = Some an' ->
  an_inv (tick an') (tick an') an' /\
  all_uses (an_lifetimes an') ≡ₚ all_uses (an_lifetimes an) ++ blocks_uses ir (tick an) bbs.
Proof.
  revert an; induction bbs as [| bb bbs IH]; intros an Ha Hops; cbn [for_each blocks_uses].
  - intros [= <-]; by rewrite app_nil_r.
  - destruct (blocks ir !! bb) as [b |] eqn:Eb; cbn [mbind option_bind]; [| done].
    destruct (collect_block bb b an) as [an1 |] eqn:Ec; [| done].
    destruct (collect_block_ok bb b an an1 Ha) as (Ha1 & Ht1 & Hu1); [| done |].
    { apply Hops; [apply elem_of_cons; by left | done]. }
    intros Hl; destruct (IH an1 Ha1) as [Ha' Hu']; [| done |].
    { intros; apply Hops; [apply elem_of_cons; by right | done]. }
    split; [done |]; by rewrite Hu', Hu1, Ht1, <- app_assoc.
Qed.
End Analysis.

(** ** The lifetimes of an IR *)

Definition operand_at (ir : MachineIR) (pos : MachineInsnListPosition) (n : nat) : option MachineReg :=
  b ← blocks ir !! pos.1; i ← insn_list b !! pos.2; RegAt i n.

(** Operands of virtual registers have classes of hard registers. *)
Definition wf_operands (ir : MachineIR) : Prop :=
  forall bb b i, blocks ir !! bb = Some b -> i ∈ insn_list b ->
    wf_insn i /\ Forall (fun o => IsVReg o.1 = true -> wf_class (RegClass o.2)) (operands i).

Lemma wf_operands_ops ir bb b : wf_operands ir -> blocks ir !! bb = Some b -> block_ops_ok (operand_at ir) bb b.
Proof.
  intros Hwf Hb n i Hi; destruct (Hwf bb b i Hb ltac:(by eapply list_elem_of_lookup_2)) as [Hw Hf]; split; [done |].
  intros j Hj; unfold operand_at; cbn; rewrite Hb; cbn; rewrite Hi; cbn; unfold RegAt, operands in *.
  rewrite length_zip in Hj; destruct (regs i !! j) as [r |] eqn:Er; [| apply lookup_ge_None in Er; lia].
  destruct (lookup_lt_is_Some_2 (reg_kinds i) j) as [k Hk]; [lia |].
  symmetry; apply fmap_Some; exists (r, k); split; [| done]; by apply lookup_zip_Some.
Qed.

Lemma CollectLifetimes_facts (ir : MachineIR) (st : Store) :
  wf_operands ir -> CollectLifetimes ir = Some st ->
  all_uses st ≡ₚ blocks_uses ir 0 (bb_list ir) /\
  (forall p q lp lq u v, st !! p = Some lp -> st !! q = Some lq -> u ∈ lt_uses lp -> v ∈ lt_uses lq ->
     is_Some (use_reg (operand_at ir) u) /\
     (use_reg (operand_at ir) u = use_reg (operand_at ir) v <-> p = q)) /\
  Forall (fun l => is_Some (reg_class l) -> fresh_lifetime l /\ spill_slot l = -1) st.
Proof.
  intros Hwf; unfold CollectLifetimes.
  destruct (for_each _ (bb_list ir) new_analysis) as [an |] eqn:E; cbn [mbind option_bind]; [| done]; intros [= <-].
  destruct (collect_blocks_ok (operand_at ir) ir (bb_list ir) new_analysis an) as [[H1 H2 H3 H3' H4] Hu]; [| | done |].
  - split; cbn; try lia; try done; intros; by rewrite ?lookup_nil, ?lookup_empty in *.
  - intros bb b _ Hb; by apply wf_operands_ops.
  - conjs; [done | |].
    + intros p q lp lq u v Hp Hq Hup Hvq.
      destruct (H4 p lp u Hp Hup) as (r & i & Hr & Hi & Hvi), (H4 q lq v Hq Hvq) as (r' & j & Hr' & Hj & Hvj).
      split; [by eexists |]; rewrite Hr, Hr'; split; [intros [= <-]; congruence | intros <-].
      assert (i = j) as <- by (by eapply H3'); f_equal.
      unfold GetVRegIndex in Hi, Hj; destruct (Z.leb_spec kFirstVRegNumber r), (Z.leb_spec kFirstVRegNumber r'); try done.
      injection Hi as <-; injection Hj as E'; unfold kFirstVRegNumber in *; lia.
    + apply Forall_forall; intros l Hl [c Hc]; apply list_elem_of_lookup in Hl as [p Hp].
      destruct (H1 p l Hp) as [L1 (init & back & L2 & _) L3 L4 [L5 L6]]; rewrite Hc in L4.
      split; [| done]; split; [done |]; split; [| done]; exists c; conjs; try apply L4; [done |].
      left; split; [done |]; rewrite L2; by destruct init.
Qed.

(** ** What the uses should be

    The instructions of the block list are numbered in order; instruction [n] has
    ticks [2 n] and [2 n + 1].  An operand that is read is in use from the first of
    them, one that is only written from the second; an operand that is only read
    is in use up to the second, one that is written up to the next
    instruction. *)
Definition expected_use (pos : MachineInsnListPosition) (n : nat) (number : Z) (k : MachineRegKind) : VRegUse :=
  {| use_pos := pos; use_index := n; use_kind := k;
     use_begin := if IsUse k then 2 * number else 2 * number + 1;
     use_end := if IsUse k && negb (IsDef k) then 2 * number + 1 else 2 * (number + 1) |}.

Definition insn_expected (pos : MachineInsnListPosition) (number : Z) (i : MachineInsn) : list VRegUse :=
  concat (imap (fun n (o : MachineReg * MachineRegKind) => if IsVReg o.1 then [expected_use pos n number o.2] else [])
    (operands i)).

(** The instructions of the list with their positions. *)
Definition positions (ir : MachineIR) (bb : BlockPtr) : list (MachineInsnListPosition * MachineInsn) :=
  imap (fun n i => ((bb, n), i)) (match blocks ir !! bb with Some b => insn_list b | None => [] end).
Definition all_expected (ir : MachineIR) : list VRegUse :=
  concat (imap (fun number '(pos, i) => insn_expected pos (Z.of_nat number) i) (concat (positions ir <$> bb_list ir))).

Lemma operands_expected pos n number ops :
  early_uses pos n (2 * number) ops ++ late_uses pos n (2 * number) ops ≡ₚ
  concat (imap (fun j (o : MachineReg * MachineRegKind) => if IsVReg o.1 then [expected_use pos (n + j) number o.2] else []) ops).
Proof.
  revert n; induction ops as [| [r k] ops IH]; intros n; cbn [early_uses late_uses imap concat]; [done |].
  specialize (IH (S n)); cbn [fst snd]; rewrite Nat.add_0_r.
  assert (forall x : Z, 2 * x + 2 = 2 * (x + 1)) as E2 by (intros; lia).
  rewrite (imap_ext _ (fun j (o : MachineReg * MachineRegKind) => if IsVReg o.1 then [expected_use pos (S n + j) number o.2] else []))
    by (intros j [? ?] _; cbn; by rewrite <- plus_n_Sm).
  rewrite <- IH; destruct (IsVReg r); cbn [andb app]; [| done]; unfold expected_use, early_use, late_use.
  destruct (IsUse k), (IsDef k); cbn [andb negb app]; rewrite ?E2; try done; by rewrite Permutation_middle.
Qed.

Lemma insns_expected bb n number l :
  insns_uses bb n (2 * number) l ≡ₚ
  concat (imap (fun j '(pos, i) => insn_expected pos (number + Z.of_nat j) i) (imap (fun j i => ((bb, (n + j)%nat), i)) l)).
Proof.
  revert n number; induction l as [| i l IH]; intros n number; cbn [insns_uses imap concat]; [done |].
  rewrite Nat.add_0_r, Z.add_0_r; f_equiv; [apply (operands_expected (bb, n) 0 number) |].
  replace (2 * number + 2) with (2 * (number + 1)) by lia; rewrite IH; apply reflexive_eq; f_equal; unfold compose.
  rewrite (imap_ext (fun j i => ((bb, (S n + j)%nat), i)) (fun j i => ((bb, (n + S j)%nat), i)))
    by (intros j j' _; by rewrite <- plus_n_Sm).
  apply imap_ext; intros j [pos i'] _; f_equal; lia.
Qed.

Lemma blocks_expected ir number bbs :
  blocks_uses ir (2 * number) bbs ≡ₚ
  concat (imap (fun j '(pos, i) => insn_expected pos (number + Z.of_nat j) i) (concat (positions ir <$> bbs))).
Proof.
  revert number; induction bbs as [| bb bbs IH]; intros number; cbn [blocks_uses fmap list_fmap concat imap]; [done |].
  rewrite imap_app, concat_app; unfold positions at 1 2; rewrite length_imap.
  set (l := match blocks ir !! bb with Some b => insn_list b | None => [] end).
  f_equiv; [apply (insns_expected bb 0) |].
  replace (2 * number + 2 * Z.of_nat (length l)) with (2 * (number + Z.of_nat (length l))) by lia.
  rewrite IH; apply reflexive_eq; f_equal; apply imap_ext; intros j [pos i] _; f_equal; lia.
Qed.

(** C6: the lifetime analysis is complete and exact: each operand that is a
    virtual register is recorded in exactly one use, whose interval is given by
    the number of its instruction in the block list and by whether it is read or
    written ([expected_use]); the uses of one lifetime are the operands of one
    register and the uses of a register are in one lifetime; and every lifetime
    with a use is fit for the allocator, its live ranges in order and its class
    inside the class of each operand. *)
Theorem CollectLifetimes_exact (ir : MachineIR) (st : Store) :
  wf_operands ir -> CollectLifetimes ir = Some st ->
  all_uses st ≡ₚ all_expected ir /\
  (forall p q lp lq u v, st !! p = Some lp -> st !! q = Some lq -> u ∈ lt_uses lp -> v ∈ lt_uses lq ->
     is_Some (use_reg (operand_at ir) u) /\
     (use_reg (operand_at ir) u = use_reg (operand_at ir) v <-> p = q)) /\
  Forall (fun l => is_Some (reg_class l) -> fresh_lifetime l /\ spill_slot l = -1) st.
Proof.
  intros Hwf Hst; destruct (CollectLifetimes_facts ir st Hwf Hst) as (Hu & Hr); split; [| exact Hr].
  rewrite Hu; apply (blocks_expected ir 0).
Qed.
