(* ===== verification/AllocRegsProps.v ===== *)
(** * [AllocRegs]: collecting, allocating and rewriting

    What the whole pass guarantees of the instructions it rewrites, and two
    programs on which the order of the scan is lost and two lifetimes share a
    register. *)
From stdpp Require Import gmap list sorting.
From S2P Require Import Prelude MachineIR Lifetime LifetimeAnalysis RegAlloc RegAllocProps LifetimeAnalysisProps.
#[local] Open Scope Z_scope.

(** ** Every operand has its use *)

Lemma elem_of_early_uses pos n t ops j r k :
  ops !! j = Some (r, k) -> IsVReg r = true -> IsUse k = true ->
  early_use pos (n + j) t k ∈ early_uses pos n t ops.
Proof.
  revert n j; induction ops as [| [r0 k0] ops IH]; intros n [| j]; cbn; try done.
  - intros [= -> ->] -> ->; rewrite Nat.add_0_r; cbn; apply elem_of_cons; by left.
  - intros Hj Hr Hk; apply elem_of_app; right; rewrite <- plus_n_Sm; exact (IH (S n) j Hj Hr Hk).
Qed.

Lemma elem_of_late_uses pos n t ops j r k :
  ops !! j = Some (r, k) -> IsVReg r = true -> IsUse k = false ->
  late_use pos (n + j) t k ∈ late_uses pos n t ops.
Proof.
  revert n j; induction ops as [| [r0 k0] ops IH]; intros n [| j]; cbn; try done.
  - intros [= -> ->] -> ->; rewrite Nat.add_0_r; cbn; apply elem_of_cons; by left.
  - intros Hj Hr Hk; apply elem_of_app; right; rewrite <- plus_n_Sm; exact (IH (S n) j Hj Hr Hk).
Qed.

Lemma insn_has_use pos t i j r k :
  operands i !! j = Some (r, k) -> IsVReg r = true ->
  exists u, u ∈ insn_uses pos t i /\ use_pos u = pos /\ use_index u = j.
Proof.
  intros Hj Hr; unfold insn_uses; destruct (IsUse k) eqn:Hk; eexists; (split; [apply elem_of_app |]).
  - left; exact (elem_of_early_uses pos 0 t _ j r k Hj Hr Hk).
  - done.
  - right; exact (elem_of_late_uses pos 0 t _ j r k Hj Hr Hk).
  - done.
Qed.

Lemma insns_have_use bb n t l m i j r k :
  l !! m = Some i -> operands i !! j = Some (r, k) -> IsVReg r = true ->
  exists u, u ∈ insns_uses bb n t l /\ use_pos u = (bb, n + m)%nat /\ use_index u = j.
Proof.
  revert n t m; induction l as [| i0 l IH]; intros n t [| m]; cbn; try done.
  - intros [= ->] Hj Hr; destruct (insn_has_use (bb, n) t i j r k Hj Hr) as (u & Hu & Hp & Hi).
    exists u; rewrite Nat.add_0_r; split; [apply elem_of_app; by left | done].
  - intros Hm Hj Hr; destruct (IH (S n) (t + 2) m Hm Hj Hr) as (u & Hu & Hp & Hi).
    exists u; split; [apply elem_of_app; by right |]; by rewrite <- plus_n_Sm.
Qed.

Lemma blocks_have_use ir t bbs bb b m i j r k :
  bb ∈ bbs -> blocks ir !! bb = Some b -> insn_list b !! m = Some i -> operands i !! j = Some (r, k) ->
  IsVReg r = true -> exists u, u ∈ blocks_uses ir t bbs /\ use_pos u = (bb, m) /\ use_index u = j.
Proof.
  intros Hbb Hb Hm Hj Hr; revert t; induction bbs as [| x bbs IH]; intros t; [by apply not_elem_of_nil in Hbb |].
  cbn [blocks_uses]; apply elem_of_cons in Hbb as [<- | Hbb].
  - rewrite Hb; destruct (insns_have_use bb 0 t (insn_list b) m i j r k Hm Hj Hr) as (u & Hu & ? & ?).
    exists u; split; [apply elem_of_app; by left | done].
  - destruct (IH Hbb (t + 2 * Z.of_nat (length match blocks ir !! x with Some b => insn_list b | None => [] end)))
      as (u & Hu & ? & ?); exists u; split; [apply elem_of_app; by right | done].
Qed.

(** ** Rewriting removes the virtual registers *)

Definition no_vreg (i : MachineInsn) : Prop := Forall (fun r => IsVReg r = false) (regs i).

Lemma new_copy_no_vreg dst src size :
  IsVReg dst = false -> IsVReg src = false -> no_vreg (new_PseudoCopy dst src size).
Proof. intros; repeat constructor; done. Qed.

(** A node of which the uses in [done] have been rewritten: its instruction
    keeps a virtual register only where it had it and no use was rewritten. *)
Record node_ok (pos : MachineInsnListPosition) (done : list VRegUse) (i : MachineInsn) (n : Node) : Prop := {
  no_before : Forall no_vreg (inserted_before n);
  no_after : Forall no_vreg (inserted_after n);
  no_insn : forall j r, regs (node_insn n) !! j = Some r -> IsVReg r = true ->
    regs i !! j = Some r /\ forall u, u ∈ done -> use_pos u = pos -> use_index u <> j
}.

Lemma node_ok_set pos done i n k r :
  node_ok pos done i n -> IsVReg r = false -> node_ok pos done i (node_SetRegAt k r n).
Proof.
  intros [H1 H2 H3] Hr; split; try done; cbn; intros j r' [[<- ->] | [? ?]]%lookup_insert_cases; [congruence | by apply H3].
Qed.

Lemma node_ok_before pos done i n c : node_ok pos done i n -> no_vreg c -> node_ok pos done i (InsertBefore c n).
Proof. intros [H1 H2 H3] Hc; split; try done; cbn; apply Forall_app; split; [done | by repeat constructor]. Qed.

Lemma node_ok_after pos done i n c : node_ok pos done i n -> no_vreg c -> node_ok pos done i (InsertAfter c n).
Proof. intros [H1 H2 H3] Hc; split; try done; cbn; by constructor. Qed.

Lemma node_ok_done pos done i n u r :
  node_ok pos done i n -> IsVReg r = false -> node_ok pos (u :: done) i (node_SetRegAt (use_index u) r n).
Proof.
  intros [H1 H2 H3] Hr; split; try done; cbn; intros j r' [[<- ->] | [Hne Hj]]%lookup_insert_cases Hv; [congruence |].
  destruct (H3 j r' Hj Hv) as [? Hd]; split; [done |]; intros v [-> | Hv']%elem_of_cons; [done | by apply Hd].
Qed.

Lemma node_ok_mono pos done done' i n : done ⊆ done' -> node_ok pos done' i n -> node_ok pos done i n.
Proof. intros Hs [H1 H2 H3]; split; try done; intros j r Hj Hv; destruct (H3 j r Hj Hv); split; [done |]; auto. Qed.

Lemma spilled_not_vreg x r : CreateSpilledRegFromIndex x = Some r -> 0 <= x -> IsVReg r = false.
Proof.
  unfold CreateSpilledRegFromIndex; case_match; [| done]; intros [= <-] Hx.
  unfold IsVReg, kFirstVRegNumber, kLastSpilledRegNumber; apply Z.leb_gt; lia.
Qed.

Lemma RewriteVReg_ok ir u reg slot n n' pos done i :
  node_ok pos done i n -> IsVReg reg = false -> RewriteVReg ir u reg slot n = Some n' ->
  node_ok pos (u :: done) i n'.
Proof.
  intros Hn Hr; unfold RewriteVReg; pose proof (node_ok_done _ _ _ _ u _ Hn Hr) as H1.
  destruct (slot =? -1); [by intros [= <-] |].
  destruct (CreateSpilledRegFromIndex (SpillSlotOffset ir slot)) as [spill |] eqn:Es; cbn [mbind option_bind]; [| done].
  assert (Hsp : IsVReg spill = false).
  { eapply spilled_not_vreg; [exact Es |]; apply Z.mod_pos_bound; lia. }
  set (n1 := node_SetRegAt (use_index u) reg n) in *.
  assert (H2 : forall n2, (if IsUse (use_kind u) then rewrite_use u reg spill n1 else Some n1) = Some n2 ->
    node_ok pos (u :: done) i n2).
  { intros n2; destruct (IsUse (use_kind u)); [| by intros [= <-]]; unfold rewrite_use.
    destruct (if is_copy (node_insn n1) then RegAt (node_insn n1) 0 else Some 0) as [d |]; cbn [mbind option_bind]; [| done].
    destruct (is_copy (node_insn n1) && _).
    - destruct (_ =? _)%nat; [| done]; intros [= <-]; by apply node_ok_set.
    - intros [= <-]; apply node_ok_before; [done | by apply new_copy_no_vreg]. }
  destruct (if IsUse (use_kind u) then _ else _) as [n2 |]; cbn [mbind option_bind]; [| done].
  specialize (H2 n2 eq_refl); destruct (IsDef (use_kind u)); [| by intros [= <-]]; unfold rewrite_def.
  destruct (if is_copy (node_insn n2) then RegAt (node_insn n2) 1 else Some 0) as [s |]; cbn [mbind option_bind]; [| done].
  destruct (is_copy (node_insn n2) && _).
  - destruct (_ =? _)%nat; [| done]; intros [= <-]; by apply node_ok_set.
  - intros [= <-]; apply node_ok_after; [done | by apply new_copy_no_vreg].
Qed.

(** The blocks of [ir], with the uses in [done] rewritten. *)
Definition nodes_ok (ir : MachineIR) (done : list VRegUse) (m : gmap nat (list Node)) : Prop :=
  forall bb ns k n, m !! bb = Some ns -> ns !! k = Some n ->
    exists b i, blocks ir !! bb = Some b /\ insn_list b !! k = Some i /\ node_ok (bb, k) done i n.

Lemma nodes_ok_start ir : nodes_ok ir [] (nodes_of_ir ir).
Proof.
  intros bb ns k n Hbb Hk; unfold nodes_of_ir in Hbb; rewrite lookup_fmap in Hbb.
  apply fmap_Some in Hbb as (b & Hb & ->); rewrite list_lookup_fmap in Hk; apply fmap_Some in Hk as (i & Hi & ->).
  exists b, i; conjs; try done; split; cbn; try constructor; try done; by intros u ?%not_elem_of_nil.
Qed.

Lemma node_ok_other pos done i n u : use_pos u <> pos -> node_ok pos done i n -> node_ok pos (u :: done) i n.
Proof.
  intros Hu [H1 H2 H3]; split; try done; intros j r Hj Hv; destruct (H3 j r Hj Hv) as [? Hd].
  split; [done |]; intros v [-> | Hv']%elem_of_cons; [done | by apply Hd].
Qed.

Lemma rewrite_one_ok ir ir' reg slot u m m' done :
  nodes_ok ir done m -> IsVReg reg = false -> rewrite_one ir' reg slot u m = Some m' -> nodes_ok ir (u :: done) m'.
Proof.
  intros Hm Hr; unfold rewrite_one; destruct (use_pos u) as [ub uk] eqn:Ep; cbn [fst snd].
  destruct (m !! ub) as [ns |] eqn:Hns; cbn [mbind option_bind]; [| done].
  destruct (ns !! uk) as [n |] eqn:Hn; cbn [mbind option_bind]; [| done].
  destruct (RewriteVReg ir' u reg slot n) as [n' |] eqn:Er; cbn [mbind option_bind]; [| done]; intros [= <-].
  intros bb ns1 k n1 [[<- <-] | [Hne Hbb]]%lookup_insert_Some Hk.
  - apply lookup_insert_cases in Hk as [[<- ->] | [Hne Hk]].
    + destruct (Hm ub ns uk n Hns Hn) as (b & i & Hb & Hi & Hok); exists b, i; conjs; try done.
      by eapply RewriteVReg_ok.
    + destruct (Hm ub ns k n1 Hns Hk) as (b & i & Hb & Hi & Hok); exists b, i; conjs; try done.
      apply node_ok_other; [| done]; rewrite Ep; congruence.
  - destruct (Hm bb ns1 k n1 Hbb Hk) as (b & i & Hb & Hi & Hok); exists b, i; conjs; try done.
    apply node_ok_other; [| done]; rewrite Ep; congruence.
Qed.

Lemma Rewrite_ok ir ir' l m m' done :
  nodes_ok ir done m -> (lt_uses l <> [] -> IsVReg (hard_reg l) = false) -> Rewrite ir' l m = Some m' ->
  nodes_ok ir (rev (lt_uses l) ++ done) m'.
Proof.
  intros Hm Hr; unfold Rewrite; revert m done Hm Hr; generalize (lt_uses l) as us.
  induction us as [| u us IH]; intros m done Hm Hr; cbn [for_each rev]; [by intros [= <-] |].
  destruct (rewrite_one ir' (hard_reg l) (spill_slot l) u m) as [m1 |] eqn:E1; cbn [mbind option_bind]; [| done].
  pose proof (rewrite_one_ok _ _ _ _ _ _ _ _ Hm (Hr ltac:(done)) E1) as Hm1.
  rewrite <- app_assoc; cbn; intros Hl; apply (IH m1); [done | | done]; intros _; by apply Hr.
Qed.

Lemma rewrite_lifetimes_ok ir a ps done m m' :
  nodes_ok ir done m ->
  (forall p l, al_store a !! p = Some l -> lt_uses l <> [] -> IsVReg (hard_reg l) = false) ->
  for_each (fun p m => l ← al_store a !! p; Rewrite (al_ir a) l m) ps m = Some m' ->
  exists done', nodes_ok ir done' m' /\ done ⊆ done' /\
    forall p l u, p ∈ ps -> al_store a !! p = Some l -> u ∈ lt_uses l -> u ∈ done'.
Proof.
  intros Hm Hr; revert done m Hm; induction ps as [| p ps IH]; intros done m Hm; cbn [for_each].
  - intros [= <-]; exists done; conjs; [done | done |]; by intros p l u ?%not_elem_of_nil.
  - destruct (al_store a !! p) as [l |] eqn:Hl; cbn [mbind option_bind]; [| done].
    destruct (Rewrite (al_ir a) l m) as [m1 |] eqn:E1; [| done].
    pose proof (Rewrite_ok _ _ _ _ _ _ Hm (Hr p l Hl) E1) as Hm1; intros Hf.
    destruct (IH _ _ Hm1 Hf) as (done' & Hd & Hsub & Hin); exists done'; conjs; [done | |].
    + intros u Hu; apply Hsub, elem_of_app; by right.
    + intros q l1 u [-> | Hq]%elem_of_cons Hl1 Hu; [| by eapply Hin].
      rewrite Hl in Hl1; injection Hl1 as <-; apply Hsub, elem_of_app; left.
      by apply list_elem_of_In, in_rev; rewrite rev_involutive; apply list_elem_of_In.
Qed.

Lemma nodes_ok_no_vreg ir done m ir' bb b' i' :
  wf_operands ir -> nodes_ok ir done m -> (forall bb, blocks ir' !! bb = blocks ir !! bb) ->
  (forall b k i j r kd, blocks ir !! bb = Some b -> insn_list b !! k = Some i -> operands i !! j = Some (r, kd) ->
     IsVReg r = true -> exists u, u ∈ done /\ use_pos u = (bb, k) /\ use_index u = j) ->
  is_Some (m !! bb) ->
  blocks (ir_of_nodes ir' m) !! bb = Some b' -> i' ∈ insn_list b' -> no_vreg i'.
Proof.
  intros Hwf Hm Hsame Hall [ns Hns]; unfold ir_of_nodes; cbn; rewrite lookup_merge, Hsame, Hns.
  destruct (blocks ir !! bb) as [b |] eqn:Hb; cbn; [| done]; intros [= <-]; cbn [insn_list set_insn_list].
  intros (is0 & His & Hi)%list_elem_of_In%in_concat; apply list_elem_of_In in His, Hi.
  apply list_elem_of_fmap in His as (n & -> & Hn); apply list_elem_of_lookup in Hn as [k Hk].
  destruct (Hm bb ns k n Hns Hk) as (b0 & i & Hb0 & Hik & [N1 N2 N3]); rewrite Hb in Hb0; injection Hb0 as <-.
  unfold node_insns in Hi; apply elem_of_app in Hi as [Hi | [-> | Hi]%elem_of_cons].
  - rewrite Forall_forall in N1; by apply N1.
  - apply Forall_forall; intros r Hr; apply list_elem_of_lookup in Hr as [j Hj].
    destruct (IsVReg r) eqn:Ev; [| done]; exfalso; destruct (N3 j r Hj Ev) as [Hij Hd].
    destruct (Hwf bb b i Hb ltac:(by eapply list_elem_of_lookup_2)) as [Hw _].
    destruct (lookup_lt_is_Some_2 (reg_kinds i) j) as [kd Hkd].
    { rewrite <- Hw; by eapply lookup_lt_Some. }
    destruct (Hall b k i j r kd eq_refl Hik ltac:(unfold operands; by apply lookup_zip_Some) Ev) as (u & Hu & Hp & Hx).
    by apply (Hd u Hu Hp).
  - rewrite Forall_forall in N2; by apply N2.
Qed.

(** A run of the three parts of [AllocRegs]. *)
Lemma AllocRegs_parts fuel ir ir' :
  AllocRegs fuel ir = Some (true, ir') ->
  exists st a m, CollectLifetimes ir = Some st /\
    allocate_loop fuel 0 (new_Allocator ir st (seq 0 (length st))) = Some (true, a) /\
    RewriteAllocatedLifetimes a (nodes_of_ir ir) = Some m /\ ir' = ir_of_nodes (al_ir a) m.
Proof.
  unfold AllocRegs; destruct (CollectLifetimes ir) as [st |]; cbn [mbind option_bind]; [| done].
  destruct (allocate_loop _ _ _) as [[[] a] |] eqn:El; cbn [mbind option_bind]; [| done | done].
  destruct (RewriteAllocatedLifetimes a (nodes_of_ir ir)) as [m |] eqn:Em; cbn [mbind option_bind]; [| done].
  intros [= <-]; by exists st, a, m.
Qed.

(** The allocation touches the spill slots of the IR only. *)
Lemma TryAssignHardReg_ir p r a ok a' : TryAssignHardReg p r a = Some (ok, a') -> al_ir a' = al_ir a.
Proof.
  unfold TryAssignHardReg; destruct (allocations a !! _); cbn [mbind option_bind]; [| done].
  destruct (TryAssign _ _ _) as [[[] ?] |]; cbn [mbind option_bind]; [| | done]; by intros [= _ <-].
Qed.

Lemma try_regs_ir p pref rs a ok a' : try_regs p pref rs a = Some (ok, a') -> al_ir a' = al_ir a.
Proof.
  revert a; induction rs as [| r rs IH]; intros a; cbn [try_regs]; [by intros [= _ <-] |].
  destruct (r =? pref); [by apply IH |].
  destruct (TryAssignHardReg p r a) as [[[] a1] |] eqn:E; cbn [mbind option_bind]; [| | done];
    apply TryAssignHardReg_ir in E; rewrite <- E; [by intros [= _ <-] | by apply IH].
Qed.

Lemma AllocateLifetime_blocks n p a a' : AllocateLifetime n p a = Some a' -> blocks (al_ir a') = blocks (al_ir a).
Proof.
  unfold AllocateLifetime; destruct (al_store a !! p) as [l |]; cbn [mbind option_bind]; [| done].
  destruct (reg_class l) as [c |]; cbn [mbind option_bind]; [| done].
  destruct (FindMoveHint _ p) as [[h st] |]; cbn [mbind option_bind]; [| done].
  destruct (hard_reg <$> st !! h) as [pref |]; cbn [mbind option_bind]; [| done].
  destruct (if HasReg c pref then TryAssignHardReg p pref (set_store st a) else Some (false, set_store st a))
    as [[ok1 a1] |] eqn:E1; cbn [mbind option_bind]; [| done].
  assert (al_ir a1 = al_ir a) as Hi1.
  { destruct (HasReg c pref); [by apply TryAssignHardReg_ir in E1 | by injection E1 as _ <-]. }
  destruct ok1; [intros [= <-]; by rewrite Hi1 |].
  destruct (try_regs p pref (class_regs c) a1) as [[ok2 a2] |] eqn:E2; cbn [mbind option_bind]; [| done].
  apply try_regs_ir in E2; destruct ok2; [intros [= <-]; by rewrite E2, Hi1 |].
  destruct (best_spill _ _ _ _ a2) as [[[w best] a3] |] eqn:E3; cbn [mbind option_bind]; [| done].
  destruct (best_spill_ok _ _ _ _ _ _ _ _ E3 ltac:(lia)) as (_ & _ & _ & Hi3 & _).
  destruct (w <? _); [| done]; unfold SpillAndAssignHardReg; cbn [AllocSpill].
  destruct (allocations a3 !! _) as [ha |]; cbn [mbind option_bind]; [| done].
  destruct (SpillAndAssign _ _ _ _ _ _) as [[[st4 o4] h4] |]; cbn [mbind option_bind]; [| done].
  intros [= <-]; cbn; by rewrite Hi3, E2, Hi1.
Qed.

Lemma allocate_loop_blocks fuel n a ok a' :
  allocate_loop fuel n a = Some (ok, a') -> blocks (al_ir a') = blocks (al_ir a).
Proof.
  revert n a; induction fuel as [| fuel IH]; intros n a; cbn [allocate_loop];
    destruct (al_order a !! n) as [p |]; try (by intros [= _ <-]).
  destruct (AllocateLifetime n p a) as [a1 |] eqn:E; cbn [mbind option_bind]; [| done].
  intros Hl; by rewrite (IH _ _ Hl), (AllocateLifetime_blocks _ _ _ _ E).
Qed.

Lemma RewriteAllocatedLifetimes_keys a m m' bb :
  RewriteAllocatedLifetimes a m = Some m' -> is_Some (m !! bb) -> is_Some (m' !! bb).
Proof.
  assert (H1 : forall ir reg slot u m m', rewrite_one ir reg slot u m = Some m' -> is_Some (m !! bb) -> is_Some (m' !! bb)).
  { intros ir reg slot u x y; unfold rewrite_one.
    destruct (x !! _) as [ns |]; cbn [mbind option_bind]; [| done]; destruct (ns !! _); cbn [mbind option_bind]; [| done].
    destruct (RewriteVReg _ _ _ _ _); cbn [mbind option_bind]; [| done]; intros [= <-].
    rewrite lookup_insert_is_Some'; auto. }
  intros H2 H3; unfold RewriteAllocatedLifetimes in H2.
  apply (for_each_inv _ (fun m => is_Some (m !! bb)) (fun _ _ => True) _ _ _) in H2 as [? _]; try done.
  intros p x y _ Hx; destruct (al_store a !! p) as [l |]; cbn [mbind option_bind]; [| done]; unfold Rewrite.
  intros Hy; eapply (for_each_inv _ (fun m => is_Some (m !! bb)) (fun _ _ => True)) in Hy as [? _]; try done.
  intros u z w _ Hz Hw; split; [by eapply H1 | done].
Qed.

(** C7: a finished register allocation leaves no virtual register: in every
    block of the list each operand, of the instructions that were there and of
    the spills and reloads that were added, is a hard register or a spill
    slot. *)
Theorem AllocRegs_no_vregs (fuel : nat) (ir ir' : MachineIR) :
  wf_operands ir -> 0 <= num_spill_slots ir ->
  (forall st, CollectLifetimes ir = Some st -> Forall (fun l => is_Some (reg_class l)) st) ->
  AllocRegs fuel ir = Some (true, ir') ->
  forall bb b' i', bb ∈ bb_list ir -> blocks ir' !! bb = Some b' -> i' ∈ insn_list b' -> no_vreg i'.
Proof.
  intros Hwf Hsl Hcls Hrun bb b' i' Hbb Hb' Hi'.
  destruct (AllocRegs_parts _ _ _ Hrun) as (st & a & m & Hst & Hl & Hm & ->).
  specialize (Hcls st Hst); destruct (CollectLifetimes_facts ir st Hwf Hst) as (Huses & _ & Hfresh).
  destruct (Allocate_allocated False ir st fuel a) as [[Hu Hreg _] Hord]; try done.
  { rewrite Forall_forall in Hfresh, Hcls |- *; intros l Hl1; apply Hfresh; auto. }
  destruct (rewrite_lifetimes_ok ir a (al_order a) [] (nodes_of_ir ir) m (nodes_ok_start ir)) as (done & Hdone & _ & Hall).
  { intros p l Hp Hne; destruct (lt_uses l) as [| u us] eqn:El; [done |].
    destruct (Hreg l u) as [Hr _]; [by eapply list_elem_of_lookup_2 | rewrite El; apply elem_of_cons; by left |].
    unfold IsVReg, kFirstVRegNumber; apply Z.leb_gt; unfold kMaxHardRegs in Hr; lia. }
  { exact Hm. }
  eapply nodes_ok_no_vreg; [exact Hwf | exact Hdone | | | | exact Hb' | exact Hi'].
  - intros x; by rewrite (allocate_loop_blocks _ _ _ _ _ Hl).
  - intros b k i j r kd Hb Hk Hj Hv.
    destruct (blocks_have_use ir 0 (bb_list ir) bb b k i j r kd Hbb Hb Hk Hj Hv) as (u & Hin & Hp & Hx).
    exists u; split; [| done]; rewrite <- Huses, <- Hu in Hin.
    apply list_elem_of_In, in_concat in Hin as (us & Hus & Huin); apply list_elem_of_In in Hus, Huin.
    apply list_elem_of_fmap in Hus as (l & -> & Hlin); apply list_elem_of_lookup in Hlin as [p Hpl].
    eapply (Hall p l); [| done | done]; rewrite Hord; apply elem_of_seq; pose proof (lookup_lt_Some _ _ _ Hpl); lia.
  - eapply RewriteAllocatedLifetimes_keys; [exact Hm |]; unfold nodes_of_ir; rewrite lookup_fmap.
    unfold ir_of_nodes in Hb'; cbn in Hb'; rewrite lookup_merge, (allocate_loop_blocks _ _ _ _ _ Hl) in Hb'.
    destruct (blocks ir !! bb) eqn:Eb; [by eexists |].
    cbn in Hb'; rewrite Eb in Hb'; cbn in Hb'; by destruct (m !! bb).
Qed.
