(* ===== verification/RegAllocExamples.v ===== *)
(** * Programs for the register allocator

    Small blocks on which the theorems of the allocator are applied, and two
    blocks on which the scan loses the order of the lifetimes and puts two of
    them into one hard register. *)
From stdpp Require Import gmap list sorting.
From S2P Require Import Prelude MachineIR Lifetime LifetimeAnalysis RegAlloc RegAllocProps RegAllocTermination LifetimeAnalysisProps AllocRegsProps.
#[local] Open Scope Z_scope.

Definition vreg (n : Z) : MachineReg := 1024 + n.

(** An instruction that writes [defs] and reads [uses], all of class [c]. *)
Definition plain_insn (c : MachineRegClass) (defs uses : list Z) : MachineInsn :=
  new_insn (X86Insn (GeneratedOpcode 0) 0 0 0 0 0 0)
    (map (fun _ => def_of c) defs ++ map (fun _ => use_of c) uses) (map vreg (defs ++ uses)) kMachineInsnDefault.

Definition one_block (ins : list MachineReg) (l : list MachineInsn) : MachineIR :=
  let '(bb, ir) := NewBasicBlock (new_MachineIR 32) in
  set_bb_list [bb] (update_block bb (fun b => set_live_in ins (set_insn_list l b)) ir).

(** ** Deciding the conditions of a concrete program *)

#[export] Instance wf_class_dec c : Decision (wf_class c).
Proof. unfold wf_class; apply _. Defined.

Definition wf_operandsb (ir : MachineIR) : bool :=
  forallb (fun x : nat * MachineBasicBlock =>
    forallb (fun i => bool_decide (wf_insn i) &&
      forallb (fun o : MachineReg * MachineRegKind => negb (IsVReg o.1) || bool_decide (wf_class (RegClass o.2))) (operands i))
      (insn_list x.2)) (map_to_list (blocks ir)).

Lemma wf_operandsb_spec ir : wf_operandsb ir = true -> wf_operands ir.
Proof.
  intros Hb bb b i Hbb Hi; unfold wf_operandsb in Hb; rewrite forallb_forall in Hb.
  specialize (Hb (bb, b) ltac:(apply list_elem_of_In; by apply elem_of_map_to_list)); cbn in Hb.
  rewrite forallb_forall in Hb; specialize (Hb i ltac:(by apply list_elem_of_In)).
  apply andb_true_iff in Hb as [Hw Hf]; rewrite bool_decide_eq_true in Hw; split; [done |].
  apply Forall_forall; intros o Ho Hv; rewrite forallb_forall in Hf.
  specialize (Hf o ltac:(by apply list_elem_of_In)); rewrite Hv in Hf; cbn in Hf; by apply bool_decide_eq_true in Hf.
Qed.

Fixpoint sortedb (l : list Z) : bool :=
  match l with
  | x :: l => forallb (Z.leb x) l && sortedb l
  | [] => true
  end.

Lemma sortedb_spec l : sortedb l = true <-> StronglySorted Z.le l.
Proof.
  induction l as [| x l IH]; cbn [sortedb]; [split; [constructor | done] |].
  rewrite andb_true_iff, IH, forallb_forall; split.
  - intros [Hf Hs]; constructor; [done |]; apply Forall_forall; intros y Hy.
    apply Z.leb_le, Hf; by apply list_elem_of_In.
  - intros Hs; inversion Hs as [| ? ? Hs' Hf]; subst; split; [| done]; intros y Hy.
    rewrite Forall_forall in Hf; apply Z.leb_le, Hf; by apply list_elem_of_In.
Qed.

(** The lifetimes of a program with proper operands are fit for the scan. *)
Lemma collected_fresh ir st :
  wf_operandsb ir = true -> CollectLifetimes ir = Some st ->
  forallb (fun l => bool_decide (is_Some (reg_class l))) st = true -> Forall fresh_lifetime st.
Proof.
  intros Hw Hst Hc; destruct (CollectLifetimes_facts ir st (wf_operandsb_spec ir Hw) Hst) as (_ & _ & Hf).
  rewrite forallb_forall in Hc; rewrite Forall_forall in Hf |- *; intros l Hl; apply Hf; [done |].
  specialize (Hc l ltac:(by apply list_elem_of_In)); by apply bool_decide_eq_true in Hc.
Qed.

(** Whether the two lifetimes hold one hard register at tick [t]. *)
Definition occupiedb (l : VRegLifetime) (t : Z) : bool :=
  if spill_slot l =? -1 then existsb (fun r => (lr_begin r <=? t) && (t <? lr_end r)) (range_list l)
  else existsb (fun u => (use_begin u <=? t) && (t <? use_end u)) (lt_uses l).

Lemma occupiedb_spec l t : occupiedb l t = true -> occupied l t.
Proof.
  unfold occupiedb, occupied, covers; destruct (Z.eqb_spec (spill_slot l) (-1)) as [E | E];
    [rewrite decide_True by done | rewrite decide_False by done]; intros (x & Hx & Ht)%existsb_exists;
    apply andb_true_iff in Ht as [? ?]; exists x; (split; [by apply list_elem_of_In | lia]).
Qed.

Definition conflictb (st : Store) (p q : LifetimePtr) (t : Z) : bool :=
  match st !! p, st !! q with
  | Some lp, Some lq =>
      negb (p =? q)%nat && (hard_reg lp =? hard_reg lq) && negb (hard_reg lp =? 0) && occupiedb lp t && occupiedb lq t
  | _, _ => false
  end.

Lemma conflictb_spec st p q t : conflictb st p q t = true -> ~ conflict_free st.
Proof.
  unfold conflictb; destruct (st !! p) as [lp |] eqn:Hp; [| done]; destruct (st !! q) as [lq |] eqn:Hq; [| done].
  rewrite !andb_true_iff, !negb_true_iff, Nat.eqb_neq, Z.eqb_eq, Z.eqb_neq; intros [[[[? ?] ?] ?] ?] Hf.
  by apply (Hf p q lp lq t Hp Hq); try apply occupiedb_spec.
Qed.

(** ** The order is lost when two lifetimes are spilled at once

    Twelve registers are taken throughout.  Register 0 is live from its first
    write to its last read, 1 is written, read and written again later, 2 is
    live in the gap of 1; they fill the last two hard registers, and 3 comes
    next.  The cheapest hard register to free is the one of 1 and 2. *)
Definition fillers : list Z := [10; 11; 12; 13; 14; 15; 16; 17; 18; 19; 20; 21].

Definition two_spills : MachineIR :=
  let c := kGeneralReg64 in
  one_block []
    [plain_insn c fillers []; plain_insn c [0] []; plain_insn c [1] []; plain_insn c [] [1];
     plain_insn c [2] []; plain_insn c [3] []; plain_insn c [] [0; 0; 0; 0]; plain_insn c [] [0; 0; 0; 0];
     plain_insn c [] [2]; plain_insn c [] [0]; plain_insn c [1] []; plain_insn c [] [1]; plain_insn c [] [3];
     plain_insn c [] (fillers ++ fillers); plain_insn c [] (fillers ++ fillers);
     plain_insn c [] (fillers ++ fillers); plain_insn c [] (fillers ++ fillers)].

Definition run_scan (fuel : nat) (ir : MachineIR) : option (list Z * bool * Store) :=
  st ← CollectLifetimes ir;
  let a := new_Allocator ir st (seq 0 (length st)) in
  '(ok, a') ← allocate_loop fuel 0 a;
  Some (scan_begins fuel 0 a, ok, al_store a').

Definition scan_of (fuel : nat) (ir : MachineIR) : list Z * bool * Store :=
  match run_scan fuel ir with Some r => r | None => ([], false, []) end.

(** The list of lifetimes does not stay in order when two lifetimes are
    spilled at once, because the second split is merged from the same iterator
    as the first and lands behind it: on this block, whose lifetimes are
    collected in order, the read of register 2 is given the hard register that
    register 0 still holds. *)
Theorem two_spills_conflict :
  exists st begins st', CollectLifetimes two_spills = Some st /\ run_scan 40 two_spills = Some (begins, true, st') /\
    Forall fresh_lifetime st /\ StronglySorted Z.le ((fun l => default 0 (lt_begin l)) <$> st) /\
    ~ StronglySorted Z.le begins /\ ~ conflict_free st'.
Proof.
  exists (default [] (CollectLifetimes two_spills)), (scan_of 40 two_spills).1.1, (scan_of 40 two_spills).2.
  split; [vm_compute; reflexivity |]; split; [vm_compute; reflexivity |]; split; [| split; [| split]].
  - apply (collected_fresh two_spills); vm_compute; reflexivity.
  - apply sortedb_spec; vm_compute; reflexivity.
  - rewrite <- sortedb_spec; by vm_compute.
  - apply (conflictb_spec _ 12 18 16); vm_compute; reflexivity.
Qed.

(** ** The order is lost when a live-in register is overwritten

    Three registers live into the block; 1 is written before it is read. *)
Definition overwritten_live_in : MachineIR :=
  let c := kGeneralReg64 in
  one_block (map vreg [0; 1; 2])
    [plain_insn c [] [0]; plain_insn c [] [2]; plain_insn c [1] []; plain_insn c [] [1]].

(** The lifetimes are not collected in the order of their first ticks when
    a register that lives into a block is overwritten before it is read, because
    the overwriting moves the start of a lifetime that has its place in the list
    already: on this block the registers 0 and 2, both live at the start, get
    one hard register. *)
Theorem overwritten_live_in_conflict :
  exists st begins st', CollectLifetimes overwritten_live_in = Some st /\
    run_scan 10 overwritten_live_in = Some (begins, true, st') /\ Forall fresh_lifetime st /\
    ~ StronglySorted Z.le ((fun l => default 0 (lt_begin l)) <$> st) /\
    conflictb st' 0 2 0 = true /\ ~ conflict_free st'.
Proof.
  exists (default [] (CollectLifetimes overwritten_live_in)), (scan_of 10 overwritten_live_in).1.1, (scan_of 10 overwritten_live_in).2.
  split; [vm_compute; reflexivity |]; split; [vm_compute; reflexivity |]; split; [| split; [| split]].
  - apply (collected_fresh overwritten_live_in); vm_compute; reflexivity.
  - rewrite <- sortedb_spec; by vm_compute.
  - vm_compute; reflexivity.
  - apply (conflictb_spec _ 0 2 0); vm_compute; reflexivity.
Qed.

(** ** Witnesses *)

(** A block with one spill: three registers of a class of two. *)
Definition two_regs : MachineRegClass :=
  MachineRegClassFromMachineInsnInfoClass 8 [MachineRegs.kRDI; MachineRegs.kRSI].
Definition one_spill : MachineIR :=
  let c := two_regs in
  one_block [] [plain_insn c [0] []; plain_insn c [1] []; plain_insn c [2] [1]; plain_insn c [] [2; 2]; plain_insn c [] [0; 1]].

Definition lifetimes_of (ir : MachineIR) : Store := default [] (CollectLifetimes ir).
Definition scanned (fuel : nat) (ir : MachineIR) : Allocator :=
  match allocate_loop fuel 0 (new_Allocator ir (lifetimes_of ir) (seq 0 (length (lifetimes_of ir)))) with
  | Some (_, a) => a
  | None => new_Allocator ir [] []
  end.

Lemma Allocate_sound_witness : conflict_free (al_store (scanned 10 one_spill)) /\ length (al_store (scanned 10 one_spill)) = 4%nat.
Proof.
  split; [| vm_compute; reflexivity].
  refine (proj2 (proj2 (Allocate_sound one_spill (lifetimes_of one_spill) 10 (scanned 10 one_spill) _ _ _ _))).
  - apply (collected_fresh one_spill); vm_compute; reflexivity.
  - by vm_compute.
  - vm_compute; reflexivity.
  - apply sortedb_spec; vm_compute; reflexivity.
Defined.

(** Two registers of a class of two, and one that must be in RDI. *)
Definition rdi_only : MachineRegClass := MachineRegClassFromMachineInsnInfoClass 8 [MachineRegs.kRDI].
Definition mixed_classes : MachineIR :=
  one_block [] [plain_insn two_regs [0] []; plain_insn two_regs [1] []; plain_insn rdi_only [2] []; plain_insn rdi_only [] [2]; plain_insn two_regs [] [0; 1]].

Definition nestedb (c c' : MachineRegClass) : bool := IsSubsetOf c c' || IsSubsetOf c' c.
Lemma nestedb_spec cs :
  forallb (fun c => forallb (nestedb c) cs) cs = true -> forall c c', c ∈ cs -> c' ∈ cs -> nested c c'.
Proof.
  rewrite forallb_forall; intros H c c' Hc Hc'; specialize (H c ltac:(by apply list_elem_of_In)).
  rewrite forallb_forall in H; specialize (H c' ltac:(by apply list_elem_of_In)).
  apply orb_true_iff in H as [? | ?]; [by left | by right; left].
Qed.

Lemma Allocate_ends_witness :
  exists fuel, forall f, (fuel <= f)%nat ->
    allocate_loop f 0 (new_Allocator mixed_classes (lifetimes_of mixed_classes) (seq 0 3)) = None \/
    exists a, allocate_loop f 0 (new_Allocator mixed_classes (lifetimes_of mixed_classes) (seq 0 3)) = Some (true, a).
Proof.
  refine (Allocate_ends mixed_classes (lifetimes_of mixed_classes) _ _ _ _).
  - apply (collected_fresh mixed_classes); vm_compute; reflexivity.
  - vm_compute; repeat constructor.
  - by vm_compute.
  - apply nestedb_spec; vm_compute; reflexivity.
Defined.

(** There is one spill, and four lifetimes have registers in the end. *)
Example mixed_classes_run :
  (fun l => (hard_reg l, spill_slot l)) <$> al_store (scanned 10 mixed_classes) = [(6, 0); (5, -1); (6, -1); (6, 0)].
Proof. vm_compute; reflexivity. Qed.

Lemma CollectLifetimes_exact_witness :
  all_uses (lifetimes_of one_spill) ≡ₚ all_expected one_spill /\ length (lifetimes_of one_spill) = 3%nat.
Proof.
  split; [| vm_compute; reflexivity].
  refine (proj1 (CollectLifetimes_exact one_spill (lifetimes_of one_spill) _ _)).
  - apply wf_operandsb_spec; vm_compute; reflexivity.
  - vm_compute; reflexivity.
Defined.

Definition allocated_ir (fuel : nat) (ir : MachineIR) : MachineIR :=
  match AllocRegs fuel ir with Some (_, ir) => ir | None => ir end.
Definition first_block (ir : MachineIR) : MachineBasicBlock := default new_block (blocks ir !! 0%nat).

Lemma AllocRegs_no_vregs_witness :
  Forall no_vreg (insn_list (first_block (allocated_ir 10 one_spill))) /\
  length (insn_list (first_block (allocated_ir 10 one_spill))) = 7%nat.
Proof.
  split; [| vm_compute; reflexivity]; apply Forall_forall; intros i Hi.
  refine (AllocRegs_no_vregs 10 one_spill (allocated_ir 10 one_spill) _ _ _ _ 0%nat
    (first_block (allocated_ir 10 one_spill)) i _ _ Hi).
  - apply wf_operandsb_spec; vm_compute; reflexivity.
  - by vm_compute.
  - intros st Hst; replace st with (lifetimes_of one_spill) by (unfold lifetimes_of; by rewrite Hst).
    vm_compute; repeat constructor; by eexists.
  - vm_compute; reflexivity.
  - apply list_elem_of_singleton; reflexivity.
  - vm_compute; reflexivity.
Defined.

Lemma TestInterference_exact_witness :
  TestInterference (new_lifetime 0) (new_lifetime 3) = true <->
  exists r r', r ∈ [new_range 0] /\ r' ∈ [new_range 3] /\ overlap r r'.
Proof.
  refine (proj1 (TestInterference_exact (new_lifetime 0) (new_lifetime 3) _ _)); (split; repeat constructor; cbn; lia).
Defined.
