(* ===== verification/Liveness.v ===== *)
(** * Liveness of virtual registers

    [VRegBitSet] ([x86_64/vreg_bit_set.h]) and [LivenessAnalyzer]
    ([x86_64/liveness_analyzer.h], [x86_64/liveness_analyzer.cc]): the work
    list that computes which virtual registers live into each block.

    An index past the end of a vector, a null block and a failed [CHECK] are
    [None]. *)
From stdpp Require Import gmap list sorting.
From S2P Require Import Prelude MachineIR Lifetime.
#[local] Open Scope Z_scope.

(** ** Bit sets *)

Abbreviation VRegBitSet := (list bool) (only parsing).

Definition new_VRegBitSet (size : nat) : VRegBitSet := replicate size false.

Definition set_bit (v : bool) (r : MachineReg) (s : VRegBitSet) : option VRegBitSet :=
  i ← GetVRegIndex r;
  if decide (i < length s)%nat then Some (<[i := v]> s) else None.
Definition Set_ (r : MachineReg) (s : VRegBitSet) : option VRegBitSet := set_bit true r s.
Definition Reset_ (r : MachineReg) (s : VRegBitSet) : option VRegBitSet := set_bit false r s.
Definition test (s : VRegBitSet) (r : MachineReg) : option bool := i ← GetVRegIndex r; s !! i.

Definition bit_or (s other : VRegBitSet) : option VRegBitSet :=
  if (length s =? length other)%nat then Some (zip_with orb s other) else None.

(** ** One block *)

Fixpoint reset_defs (ops : list (MachineReg * MachineRegKind)) (s : VRegBitSet) : option VRegBitSet :=
  match ops with
  | [] => Some s
  | (r, k) :: ops => s ← (if IsVReg r && IsDef k then Reset_ r s else Some s); reset_defs ops s
  end.

Fixpoint set_inputs (ops : list (MachineReg * MachineRegKind)) (s : VRegBitSet) : option VRegBitSet :=
  match ops with
  | [] => Some s
  | (r, k) :: ops => s ← (if IsVReg r && IsInput k then Set_ r s else Some s); set_inputs ops s
  end.

(** One instruction of the backward walk: all the defs first. *)
Definition visit_insn (i : MachineInsn) (s : VRegBitSet) : option VRegBitSet :=
  s ← reset_defs (operands i) s; set_inputs (operands i) s.

(** The instructions from the last to the first. *)
Fixpoint visit_insns (l : list MachineInsn) (s : VRegBitSet) : option VRegBitSet :=
  match l with
  | [] => Some s
  | i :: l => s ← visit_insns l s; visit_insn i s
  end.

(** The union over the out edges. *)
Fixpoint union_live_in (ir : MachineIR) (live : list VRegBitSet) (es : list EdgePtr) (s : VRegBitSet)
    : option VRegBitSet :=
  match es with
  | [] => Some s
  | e :: es =>
      x ← edges ir !! e;
      d ← live !! edge_dst x;
      s ← bit_or s d;
      union_live_in ir live es s
  end.

(** [NumVReg] of the analyzer: the size of the first bit set. *)
Definition NumVReg (live : list VRegBitSet) : option nat := length <$> live !! 0%nat.

Definition VisitBasicBlock (ir : MachineIR) (bb : BlockPtr) (live : list VRegBitSet)
    : option (bool * list VRegBitSet) :=
  b ← blocks ir !! bb;
  n ← NumVReg live;
  s ← union_live_in ir live (out_edges b) (new_VRegBitSet n);
  s ← visit_insns (insn_list b) s;
  old ← live !! bb;
  Some (if decide (old = s) then (false, live) else (true, <[bb := s]> live)).

(** ** The work list

    The list is kept with its back first: [push_back] is a cons. *)
Fixpoint push_preds (ir : MachineIR) (es : list EdgePtr) (wl : list BlockPtr) : option (list BlockPtr) :=
  match es with
  | [] => Some wl
  | e :: es =>
      x ← edges ir !! e;
      push_preds ir es (if decide (edge_src x ∈ wl) then wl else edge_src x :: wl)
  end.

(** Whether the list became empty within [fuel] iterations; [visit] is the
    [VisitBasicBlock] of the analyzer, as the analysis of the guest context has
    the same loop. *)
Fixpoint work_list (visit : BlockPtr -> list VRegBitSet -> option (bool * list VRegBitSet)) (fuel : nat) (ir : MachineIR)
    (wl : list BlockPtr) (live : list VRegBitSet) : option (bool * list VRegBitSet) :=
  match wl with
  | [] => Some (true, live)
  | bb :: wl =>
      match fuel with
      | O => Some (false, live)
      | S fuel =>
          '(changed, live) ← visit bb live;
          wl ← (if (changed : bool) then b ← blocks ir !! bb; push_preds ir (in_edges b) wl else Some wl);
          work_list visit fuel ir wl live
      end
  end.
Definition run_worklist (fuel : nat) (ir : MachineIR) : list BlockPtr -> list VRegBitSet -> option (bool * list VRegBitSet) :=
  work_list (VisitBasicBlock ir) fuel ir.

Definition new_live_in (ir : MachineIR) : list VRegBitSet :=
  replicate (num_bb ir) (new_VRegBitSet (num_vreg ir)).

(** The copy of the block list is reversed: its back is the first block. *)
Definition Run (fuel : nat) (ir : MachineIR) : option (bool * list VRegBitSet) :=
  let live := new_live_in ir in
  n ← NumVReg live;
  if (num_bb ir =? length live)%nat && (num_vreg ir =? n)%nat then run_worklist fuel ir (bb_list ir) live
  else None.

Definition IsLiveIn (live : list VRegBitSet) (bb : BlockPtr) (r : MachineReg) : option bool :=
  s ← live !! bb; test s r.

(** ** The live-in registers in order *)

(** The search from index [i], [n] indices long. *)
Fixpoint next_live_in (live : list VRegBitSet) (bb : BlockPtr) (i n : nat) : option MachineReg :=
  match n with
  | O => Some kInvalidMachineReg
  | S n =>
      r ← CreateVRegFromIndex i;
      b ← IsLiveIn live bb r;
      if (b : bool) then Some r else next_live_in live bb (S i) n
  end.

Definition GetNextLiveIn (live : list VRegBitSet) (bb : BlockPtr) (prev : MachineReg) : option MachineReg :=
  n ← NumVReg live;
  if prev =? kInvalidMachineReg then next_live_in live bb 0 n
  else
    p ← GetVRegIndex prev;
    if (p <? n)%nat then next_live_in live bb (S p) (n - S p) else None.

Definition GetFirstLiveIn (live : list VRegBitSet) (bb : BlockPtr) : option MachineReg :=
  GetNextLiveIn live bb kInvalidMachineReg.

(** ** What the bits mean *)

Definition reads (i : MachineInsn) (v : nat) : Prop :=
  exists r k, (r, k) ∈ operands i /\ IsInput k = true /\ GetVRegIndex r = Some v.
Definition writes (i : MachineInsn) (v : nat) : Prop :=
  exists r k, (r, k) ∈ operands i /\ IsDef k = true /\ GetVRegIndex r = Some v.

(** [v] is read before it is written. *)
Fixpoint read_first (l : list MachineInsn) (v : nat) : Prop :=
  match l with
  | [] => False
  | i :: l => reads i v \/ ~ writes i v /\ read_first l v
  end.
Fixpoint never_written (l : list MachineInsn) (v : nat) : Prop :=
  match l with
  | [] => True
  | i :: l => ~ writes i v /\ never_written l v
  end.

Definition edge_to (ir : MachineIR) (bb bb' : BlockPtr) : Prop :=
  exists b e x, blocks ir !! bb = Some b /\ e ∈ out_edges b /\ edges ir !! e = Some x /\ edge_dst x = bb'.

(** Some path from the start of [bb] reads [v] before writing it. *)
Inductive lives (ir : MachineIR) (v : nat) : BlockPtr -> Prop :=
  | lives_here bb b : blocks ir !! bb = Some b -> read_first (insn_list b) v -> lives ir v bb
  | lives_later bb b bb' : blocks ir !! bb = Some b -> never_written (insn_list b) v ->
      edge_to ir bb bb' -> lives ir v bb' -> lives ir v bb.

(** The graph that [CheckMachineIR] accepts, with registers and blocks in
    their bounds. *)
Record wf_cfg (ir : MachineIR) : Prop := {
  wc_block : forall bb, bb ∈ bb_list ir -> exists b, blocks ir !! bb = Some b /\ (bb < num_bb ir)%nat;
  wc_nodup : NoDup (bb_list ir);
  wc_out : forall bb b e, bb ∈ bb_list ir -> blocks ir !! bb = Some b -> e ∈ out_edges b ->
    exists x, edges ir !! e = Some x /\ edge_dst x ∈ bb_list ir /\
      exists d, blocks ir !! edge_dst x = Some d /\ e ∈ in_edges d /\ edge_src x = bb;
  wc_in : forall bb b e, bb ∈ bb_list ir -> blocks ir !! bb = Some b -> e ∈ in_edges b ->
    exists x, edges ir !! e = Some x /\ edge_src x ∈ bb_list ir;
  wc_regs : forall bb b i r k, bb ∈ bb_list ir -> blocks ir !! bb = Some b -> i ∈ insn_list b ->
    (r, k) ∈ operands i -> IsVReg r = true -> exists v, GetVRegIndex r = Some v /\ (v < num_vreg ir)%nat
}.

(** *** Bits *)

Definition bit (s : VRegBitSet) (v : nat) : Prop := s !! v = Some true.

Lemma IsVReg_index r : IsVReg r = true <-> exists v, GetVRegIndex r = Some v.
Proof.
  unfold IsVReg, GetVRegIndex; destruct (kFirstVRegNumber <=? r); split; intros H; try done; [by eexists | by destruct H].
Qed.

Lemma set_bit_spec b r v s : GetVRegIndex r = Some v -> (v < length s)%nat -> set_bit b r s = Some (<[v := b]> s).
Proof. intros Hr Hv; unfold set_bit; rewrite Hr; cbn; by rewrite decide_True. Qed.

Lemma bit_insert v b s w : (v < length s)%nat -> bit (<[v := b]> s) w <-> (w = v /\ b = true) \/ (w <> v /\ bit s w).
Proof.
  intros Hv; unfold bit; destruct (decide (w = v)) as [-> | Hne].
  - rewrite list_lookup_insert_eq by done; split; [intros [= ->]; by left | intros [[_ ->] | [? ?]]; done].
  - rewrite list_lookup_insert_ne by done; split; [by right | intros [[? _] | [_ ?]]; done].
Qed.

Definition in_bounds (n : nat) (ops : list (MachineReg * MachineRegKind)) : Prop :=
  Forall (fun o => IsVReg o.1 = true -> exists v, GetVRegIndex o.1 = Some v /\ (v < n)%nat) ops.

Lemma reset_defs_spec ops s :
  in_bounds (length s) ops ->
  exists s', reset_defs ops s = Some s' /\ length s' = length s /\
    forall w, bit s' w <-> bit s w /\ ~ exists r k, (r, k) ∈ ops /\ IsDef k = true /\ GetVRegIndex r = Some w.
Proof.
  revert s; induction ops as [| [r k] ops IH]; intros s Hb; cbn [reset_defs].
  - exists s; conjs; try done; intros w; split; [| tauto].
    intros Hw; split; [done |]; intros (r & k & Hin & _); by apply not_elem_of_nil in Hin.
  - unfold in_bounds in Hb; rewrite Forall_cons in Hb; destruct Hb as [Hr Hb]; cbn in Hr.
    assert (Hstep : exists s1, (if IsVReg r && IsDef k then Reset_ r s else Some s) = Some s1 /\ length s1 = length s /\
      forall w, bit s1 w <-> bit s w /\ ~ (IsDef k = true /\ GetVRegIndex r = Some w)).
    { destruct (IsVReg r) eqn:Ev; cbn [andb].
      - destruct (Hr eq_refl) as (v & Hv & Hlt); destruct (IsDef k) eqn:Ed.
        + exists (<[v := false]> s); unfold Reset_; rewrite (set_bit_spec _ _ v) by done.
          conjs; [done | apply length_insert |]; intros w; rewrite bit_insert by done; rewrite Hv.
          split; [intros [[_ ?] | [Hne Hw]]; [done |]; split; [done |]; intros [_ [= <-]]; done |].
          intros [Hw Hn]; right; split; [intros ->; by apply Hn | done].
        + exists s; conjs; try done; intros w; split; [intros; split; [done |]; by intros [? _] | tauto].
      - exists s; conjs; try done; intros w; split; [intros; split; [done |] | tauto].
        intros [_ Hw]; assert (IsVReg r = true); [apply IsVReg_index; by eexists | congruence]. }
    destruct Hstep as (s1 & -> & Hl1 & H1); cbn [mbind option_bind].
    destruct (IH s1) as (s2 & -> & Hl2 & H2); [unfold in_bounds; by rewrite Hl1 |].
    exists s2; conjs; [done | congruence |]; intros w; rewrite H2, H1; split.
    + intros [[? Hn1] Hn2]; split; [done |]; intros (r' & k' & [Heq | Hin]%elem_of_cons & Hd & Hi).
      * injection Heq as -> ->; by apply Hn1.
      * apply Hn2; by exists r', k'.
    + intros [? Hn]; split; [split; [done |] |].
      * intros [? ?]; apply Hn; exists r, k; split; [apply elem_of_cons; by left | done].
      * intros (r' & k' & Hin & ?); apply Hn; exists r', k'; split; [apply elem_of_cons; by right | done].
Qed.

Lemma set_inputs_spec ops s :
  in_bounds (length s) ops ->
  exists s', set_inputs ops s = Some s' /\ length s' = length s /\
    forall w, bit s' w <-> bit s w \/ exists r k, (r, k) ∈ ops /\ IsInput k = true /\ GetVRegIndex r = Some w.
Proof.
  revert s; induction ops as [| [r k] ops IH]; intros s Hb; cbn [set_inputs].
  - exists s; conjs; try done; intros w; split; [by left |].
    intros [? | (r & k & Hin & _)]; [done | by apply not_elem_of_nil in Hin].
  - unfold in_bounds in Hb; rewrite Forall_cons in Hb; destruct Hb as [Hr Hb]; cbn in Hr.
    assert (Hstep : exists s1, (if IsVReg r && IsInput k then Set_ r s else Some s) = Some s1 /\ length s1 = length s /\
      forall w, bit s1 w <-> bit s w \/ (IsInput k = true /\ GetVRegIndex r = Some w)).
    { destruct (IsVReg r) eqn:Ev; cbn [andb].
      - destruct (Hr eq_refl) as (v & Hv & Hlt); destruct (IsInput k) eqn:Ed.
        + exists (<[v := true]> s); unfold Set_; rewrite (set_bit_spec _ _ v) by done.
          conjs; [done | apply length_insert |]; intros w; rewrite bit_insert by done; rewrite Hv.
          split; [intros [[-> _] | [Hne Hw]]; auto |].
          intros [Hw | [_ [= <-]]]; [| by left]; destruct (decide (w = v)); [by left | by right].
        + exists s; conjs; try done; intros w; split; [by left | intros [? | [? _]]; done].
      - exists s; conjs; try done; intros w; split; [by left | intros [? | [_ Hw]]; [done |]].
        assert (IsVReg r = true); [apply IsVReg_index; by eexists | congruence]. }
    destruct Hstep as (s1 & -> & Hl1 & H1); cbn [mbind option_bind].
    destruct (IH s1) as (s2 & -> & Hl2 & H2); [unfold in_bounds; by rewrite Hl1 |].
    exists s2; conjs; [done | congruence |]; intros w; rewrite H2, H1; split.
    + intros [[? | [? ?]] | (r' & k' & Hin & ?)]; [by left | |]; right.
      * exists r, k; split; [apply elem_of_cons; by left | done].
      * exists r', k'; split; [apply elem_of_cons; by right | done].
    + intros [? | (r' & k' & [Heq | Hin]%elem_of_cons & Hd & Hi)]; [by left; left | |].
      * injection Heq as -> ->; left; by right.
      * right; by exists r', k'.
Qed.

Lemma visit_insn_spec i s :
  in_bounds (length s) (operands i) ->
  exists s', visit_insn i s = Some s' /\ length s' = length s /\
    forall w, bit s' w <-> reads i w \/ ~ writes i w /\ bit s w.
Proof.
  intros Hb; unfold visit_insn; destruct (reset_defs_spec (operands i) s Hb) as (s1 & -> & Hl1 & H1); cbn [mbind option_bind].
  destruct (set_inputs_spec (operands i) s1) as (s2 & -> & Hl2 & H2); [by rewrite Hl1 |].
  exists s2; conjs; [done | congruence |]; intros w; rewrite H2, H1; unfold reads, writes; tauto.
Qed.

Lemma visit_insns_spec l s :
  Forall (fun i => in_bounds (length s) (operands i)) l ->
  exists s', visit_insns l s = Some s' /\ length s' = length s /\
    forall w, bit s' w <-> read_first l w \/ never_written l w /\ bit s w.
Proof.
  induction l as [| i l IH]; cbn [visit_insns read_first never_written]; [exists s; conjs; try done; tauto |].
  rewrite Forall_cons; intros [Hi Hl]; destruct (IH Hl) as (s1 & -> & Hl1 & H1); cbn [mbind option_bind].
  destruct (visit_insn_spec i s1) as (s2 & -> & Hl2 & H2); [by rewrite Hl1 |].
  exists s2; conjs; [done | congruence |]; intros w; rewrite H2, H1; tauto.
Qed.

(** *** The equations *)

Definition live_at (live : list VRegBitSet) (bb : BlockPtr) (w : nat) : Prop :=
  exists s, live !! bb = Some s /\ bit s w.

Definition live_ok (ir : MachineIR) (live : list VRegBitSet) : Prop :=
  length live = num_bb ir /\ Forall (fun s => length s = num_vreg ir) live.

Definition insns_of (ir : MachineIR) (bb : BlockPtr) : list MachineInsn :=
  match blocks ir !! bb with Some b => insn_list b | None => [] end.

(** What lives into [bb] when [live] lives into the other blocks. *)
Definition transfer (ir : MachineIR) (live : list VRegBitSet) (bb : BlockPtr) (w : nat) : Prop :=
  read_first (insns_of ir bb) w \/
  never_written (insns_of ir bb) w /\ exists bb', edge_to ir bb bb' /\ live_at live bb' w.

Lemma bit_or_spec s t :
  length s = length t ->
  exists u, bit_or s t = Some u /\ length u = length s /\ forall w, bit u w <-> bit s w \/ bit t w.
Proof.
  intros Hl; unfold bit_or; rewrite Hl, Nat.eqb_refl; eexists; split; [done |].
  split; [rewrite length_zip_with; lia |]; intros w; unfold bit; rewrite lookup_zip_with.
  destruct (s !! w) as [b |] eqn:Hs; cbn.
  - destruct (lookup_lt_is_Some_2 t w) as [c Hc]; [rewrite <- Hl; by eapply lookup_lt_Some |].
    rewrite Hc; cbn; destruct b, c; split; intros H; try done; auto; destruct H; done.
  - rewrite (lookup_ge_None_2 t w) by (rewrite <- Hl; by apply lookup_ge_None).
    split; [done |]; intros [? | ?]; done.
Qed.

Lemma union_bits ir n live es s :
  length live = num_bb ir /\ Forall (fun s => length s = n) live -> length s = n ->
  (forall e, e ∈ es -> exists x, edges ir !! e = Some x /\ (edge_dst x < num_bb ir)%nat) ->
  exists s', union_live_in ir live es s = Some s' /\ length s' = n /\
    forall w, bit s' w <-> bit s w \/ exists e x, e ∈ es /\ edges ir !! e = Some x /\ live_at live (edge_dst x) w.
Proof.
  intros [Hlen Hall] Hs Hes; revert s Hs; induction es as [| e es IH]; intros s Hs; cbn [union_live_in].
  - exists s; conjs; try done; intros w; split; [by left |].
    intros [? | (e & x & Hin & _)]; [done | by apply not_elem_of_nil in Hin].
  - destruct (Hes e ltac:(apply elem_of_cons; by left)) as (x & Hx & Hlt); rewrite Hx; cbn [mbind option_bind].
    destruct (lookup_lt_is_Some_2 live (edge_dst x)) as [d Hd]; [lia |]; rewrite Hd; cbn [mbind option_bind].
    assert (length d = n) as Hdl.
    { rewrite Forall_forall in Hall; apply Hall; by eapply list_elem_of_lookup_2. }
    destruct (bit_or_spec s d) as (s1 & -> & Hl1 & H1); [congruence |]; cbn [mbind option_bind].
    destruct (IH ltac:(intros; apply Hes, elem_of_cons; by right) s1 ltac:(congruence)) as (s2 & -> & Hl2 & H2).
    exists s2; conjs; try done; intros w; rewrite H2, H1; split.
    + intros [[? | Hw] | (e' & x' & Hin & ?)]; [by left | |]; right.
      * exists e, x; conjs; [apply elem_of_cons; by left | done | by exists d].
      * exists e', x'; split; [apply elem_of_cons; by right | done].
    + intros [? | (e' & x' & [-> | Hin]%elem_of_cons & Hx' & Hw)]; [by left; left | |].
      * rewrite Hx in Hx'; injection Hx' as <-; destruct Hw as (d' & Hd' & Hw); left; right; congruence.
      * right; by exists e', x'.
Qed.

Lemma bit_new n w : ~ bit (new_VRegBitSet n) w.
Proof. unfold bit, new_VRegBitSet; intros [? _]%lookup_replicate; done. Qed.

Lemma NumVReg_spec ir live : live_ok ir live -> (0 < num_bb ir)%nat -> NumVReg live = Some (num_vreg ir).
Proof.
  intros [Hl Hall] H; unfold NumVReg; destruct live as [| s live]; cbn in *; [lia |].
  apply Forall_cons in Hall as [-> _]; done.
Qed.

Lemma VisitBasicBlock_spec ir live bb :
  wf_cfg ir -> live_ok ir live -> bb ∈ bb_list ir ->
  exists old s, live !! bb = Some old /\ length s = num_vreg ir /\
    (forall w, bit s w <-> transfer ir live bb w) /\
    VisitBasicBlock ir bb live = Some (if decide (old = s) then (false, live) else (true, <[bb := s]> live)).
Proof.
  intros Hwf Hlive Hbb; unfold VisitBasicBlock.
  destruct (wc_block _ Hwf bb Hbb) as (b & Hb & Hlt); rewrite Hb; cbn [mbind option_bind].
  rewrite (NumVReg_spec ir) by (done || lia); cbn [mbind option_bind].
  destruct (union_bits ir (num_vreg ir) live (out_edges b) (new_VRegBitSet (num_vreg ir))) as (s1 & -> & Hl1 & H1);
    [done | apply length_replicate | |].
  { intros e He; destruct (wc_out _ Hwf bb b e Hbb Hb He) as (x & Hx & Hd & _).
    exists x; split; [done |]; by destruct (wc_block _ Hwf _ Hd) as (? & _ & ?). }
  cbn [mbind option_bind]; destruct (visit_insns_spec (insn_list b) s1) as (s2 & -> & Hl2 & H2).
  { apply Forall_forall; intros i Hi; unfold in_bounds; apply Forall_forall; intros [r k] Ho Hv; cbn in *.
    rewrite Hl1; by eapply (wc_regs _ Hwf bb b i r k). }
  cbn [mbind option_bind]; destruct (lookup_lt_is_Some_2 live bb) as [old Hold]; [destruct Hlive; lia |].
  rewrite Hold; cbn [mbind option_bind]; exists old, s2; conjs; [done | congruence | | done].
  intros w; rewrite H2, H1; unfold transfer, insns_of; rewrite Hb; split.
  - intros [? | [? [Hn | (e & x & He & Hx & Hw)]]]; [by left | by apply bit_new in Hn |].
    right; split; [done |]; exists (edge_dst x); split; [by exists b, e, x | done].
  - intros [? | [? (bb' & (b' & e & x & Hb' & He & Hx & <-) & Hw)]]; [by left |].
    rewrite Hb in Hb'; injection Hb' as <-; right; split; [done |]; right; by exists e, x.
Qed.

(** *** Progress *)

Definition zeros (s : VRegBitSet) : nat := length (filter (fun b => b = false) s).
Definition total_zeros (live : list VRegBitSet) : nat := sum_list (zeros <$> live).

Lemma zeros_le s t :
  length s = length t -> (forall w, bit s w -> bit t w) -> (zeros t <= zeros s)%nat /\ (s <> t -> (zeros t < zeros s)%nat).
Proof.
  revert t; induction s as [| b s IH]; intros [| c t]; cbn [length]; try done.
  intros [= Hl] Hsub; destruct (IH t Hl) as [H1 H2]; [intros w Hw; exact (Hsub (S w) Hw) |].
  assert (b = true -> c = true) as Hbc by (intros ->; specialize (Hsub 0%nat eq_refl); by injection Hsub).
  destruct b, c; [| by specialize (Hbc eq_refl) | |].
  - change (zeros (true :: t)) with (zeros t); change (zeros (true :: s)) with (zeros s).
    split; [done |]; intros Hne; apply H2; congruence.
  - change (zeros (true :: t)) with (zeros t); change (zeros (false :: s)) with (S (zeros s)); lia.
  - change (zeros (false :: t)) with (S (zeros t)); change (zeros (false :: s)) with (S (zeros s)).
    split; [lia |]; intros Hne; assert (s <> t) by congruence; specialize (H2 ltac:(done)); lia.
Qed.

Lemma total_zeros_insert live bb old s :
  live !! bb = Some old -> (zeros s < zeros old)%nat -> (total_zeros (<[bb := s]> live) < total_zeros live)%nat.
Proof.
  revert bb; induction live as [| x live IH]; intros [| bb]; try done; intros Hb Hz.
  - injection Hb as ->.
    change (zeros s + total_zeros live < zeros old + total_zeros live)%nat; lia.
  - specialize (IH bb Hb Hz).
    change (zeros x + total_zeros (<[bb := s]> live) < zeros x + total_zeros live)%nat; lia.
Qed.

(** *** The work list *)

Lemma push_preds_spec ir es wl :
  (forall e, e ∈ es -> exists x, edges ir !! e = Some x /\ edge_src x ∈ bb_list ir) ->
  wl ⊆ bb_list ir -> NoDup wl ->
  exists wl', push_preds ir es wl = Some wl' /\ wl' ⊆ bb_list ir /\ NoDup wl' /\ wl ⊆ wl' /\
    forall e x, e ∈ es -> edges ir !! e = Some x -> edge_src x ∈ wl'.
Proof.
  intros Hes; revert wl; induction es as [| e es IH]; intros wl Hsub Hnd; cbn [push_preds].
  - exists wl; conjs; try done; by intros e x ?%not_elem_of_nil.
  - destruct (Hes e ltac:(apply elem_of_cons; by left)) as (x & Hx & Hs); rewrite Hx; cbn [mbind option_bind].
    set (wl1 := if decide (edge_src x ∈ wl) then wl else edge_src x :: wl).
    assert (wl1 ⊆ bb_list ir /\ NoDup wl1 /\ wl ⊆ wl1 /\ edge_src x ∈ wl1) as (A1 & A2 & A3 & A4).
    { unfold wl1; case_decide; conjs; try done.
      - intros y [-> | Hy]%elem_of_cons; [done | by apply Hsub].
      - by constructor.
      - intros y Hy; apply elem_of_cons; by right.
      - apply elem_of_cons; by left. }
    destruct (IH ltac:(intros; apply Hes, elem_of_cons; by right) wl1 A1 A2) as (wl2 & -> & B1 & B2 & B3 & B4).
    exists wl2; conjs; try done; [intros y Hy; by apply B3, A3 |].
    intros e' x' [-> | Hin]%elem_of_cons Hx'; [| by eapply B4]; rewrite Hx in Hx'; injection Hx' as <-; by apply B3.
Qed.

Lemma live_at_insert live bb s bb' w :
  (bb < length live)%nat -> live_at (<[bb := s]> live) bb' w <-> (bb' = bb /\ bit s w) \/ (bb' <> bb /\ live_at live bb' w).
Proof.
  intros Hlt; unfold live_at; destruct (decide (bb' = bb)) as [-> | Hne].
  - rewrite list_lookup_insert_eq by done; split; [intros (? & [= <-] & ?); by left | intros [[_ ?] | [? _]]; [by eexists | done]].
  - rewrite list_lookup_insert_ne by done; split; [by right | intros [[? _] | [_ ?]]; done].
Qed.

(** A work list whose visits compute [T], which is monotone and looks at the
    successors of a block only; bit sets have [n] bits, and what is found is in
    [L]. *)
Section WorkList.
Context (ir : MachineIR) (n : nat) (T : list VRegBitSet -> BlockPtr -> nat -> Prop) (L : BlockPtr -> nat -> Prop).
Context (visit : BlockPtr -> list VRegBitSet -> option (bool * list VRegBitSet)).

Definition bits_ok (live : list VRegBitSet) : Prop := length live = num_bb ir /\ Forall (fun s => length s = n) live.

Context (Hwf : wf_cfg ir).
Context (Hmono : forall live live' bb w, (forall bb w, live_at live bb w -> live_at live' bb w) -> T live bb w -> T live' bb w).
Context (Hlocal : forall live live' bb w, bb ∈ bb_list ir -> (forall bb' w, edge_to ir bb bb' -> live_at live bb' w -> live_at live' bb' w) ->
  T live bb w -> T live' bb w).
Context (HL : forall live bb w, bb ∈ bb_list ir -> (forall bb' w, live_at live bb' w -> L bb' w) -> T live bb w -> L bb w).
Context (Hvisit : forall live bb, bits_ok live -> bb ∈ bb_list ir -> exists old s, live !! bb = Some old /\ length s = n /\
  (forall w, bit s w <-> T live bb w) /\ visit bb live = Some (if decide (old = s) then (false, live) else (true, <[bb := s]> live))).

Record work_ok (wl : list BlockPtr) (live : list VRegBitSet) : Prop := {
  wo_live : bits_ok live;
  wo_sub : wl ⊆ bb_list ir;
  wo_nodup : NoDup wl;
  wo_sound : forall bb w, live_at live bb w -> L bb w;
  wo_pre : forall bb w, live_at live bb w -> T live bb w;
  wo_fix : forall bb w, bb ∈ bb_list ir -> bb ∉ wl -> T live bb w -> live_at live bb w
}.

(** One iteration: the block is settled, or its predecessors are queued and a
    bit was set. *)
Lemma work_step bb wl live :
  work_ok (bb :: wl) live ->
  exists changed live' wl', visit bb live = Some (changed, live') /\
    (if changed : bool then b ← blocks ir !! bb; push_preds ir (in_edges b) wl else Some wl) = Some wl' /\
    work_ok wl' live' /\
    if changed then (total_zeros live' < total_zeros live)%nat else live' = live /\ wl' = wl.
Proof.
  intros [H1 H2 H3 H4 H5 H6].
  assert (bb ∈ bb_list ir) as Hbb by (apply H2, elem_of_cons; by left).
  destruct (Hvisit live bb H1 Hbb) as (old & s & Hold & Hsl & Hs & Hv); rewrite Hv.
  apply NoDup_cons in H3 as [Hnin Hnd].
  assert (wl ⊆ bb_list ir) as Hsub by (intros y Hy; apply H2, elem_of_cons; by right).
  case_decide as Heq.
  - exists false, live, wl; conjs; try done; split; try done.
    intros bb' w Hb' Hn Ht; destruct (decide (bb' = bb)) as [-> | Hne].
    + exists old; split; [done |]; rewrite Heq; by apply Hs.
    + apply H6; [done | | done]; by intros [? | ?]%elem_of_cons.
  - destruct (wc_block _ Hwf bb Hbb) as (b & Hb & _); rewrite Hb; cbn [mbind option_bind].
    destruct (push_preds_spec ir (in_edges b) wl) as (wl' & Hp & P1 & P2 & P3 & P4); try done.
    { intros e He; by eapply wc_in. }
    pose proof (lookup_lt_Some _ _ _ Hold) as Hlt.
    assert (Hgrow : forall bb' w, live_at live bb' w -> live_at (<[bb := s]> live) bb' w).
    { intros bb' w Hw; rewrite live_at_insert by done; destruct (decide (bb' = bb)) as [-> |]; [left | by right].
      split; [done |]; apply Hs, H5, Hw. }
    assert (Hold_s : length old = length s).
    { rewrite Hsl; destruct H1 as [_ Hall]; rewrite Forall_forall in Hall; apply Hall; by eapply list_elem_of_lookup_2. }
    exists true, (<[bb := s]> live), wl'; conjs; try done.
    + split; try done.
      * destruct H1 as [Hl Hall]; split; [by rewrite length_insert |]; by apply Forall_insert.
      * intros bb' w; rewrite live_at_insert by done; intros [[-> Hw] | [_ Hw]]; [| by apply H4].
        eapply HL; [done | exact H4 |]; by apply Hs.
      * intros bb' w; rewrite live_at_insert by done; intros [[-> Hw] | [_ Hw]]; (eapply Hmono; [exact Hgrow |]).
        -- by apply Hs.
        -- by apply H5.
      * intros bb' w Hb' Hn Ht.
        assert (Hold_t : T live bb' w).
        { eapply Hlocal; [done | | exact Ht]; intros bb2 w' He Hw.
          rewrite live_at_insert in Hw by done; destruct Hw as [[-> _] | [_ ?]]; [exfalso | done].
          destruct He as (b' & e & x & Hb'' & He & Hx & Hd); apply Hn.
          destruct (wc_out _ Hwf bb' b' e Hb' Hb'' He) as (x' & Hx' & _ & d & Hd' & Hin & <-).
          rewrite Hx in Hx'; injection Hx' as <-; rewrite Hd, Hb in Hd'; injection Hd' as <-; by eapply P4. }
        rewrite live_at_insert by done; destruct (decide (bb' = bb)) as [-> |]; [left; split; [done |]; by apply Hs |].
        right; split; [done |]; apply H6; [done | | done]; intros [? | Hin]%elem_of_cons; [done |]; by apply Hn, P3.
    + eapply total_zeros_insert; [exact Hold |]; apply zeros_le; [done | | done].
      intros w Hw; apply Hs, H5; by exists old.
Qed.

(** The work left: a bit to set counts for more than all the blocks that may
    be queued. *)
Definition work (wl : list BlockPtr) (live : list VRegBitSet) : nat :=
  total_zeros live * S (length (bb_list ir)) + length wl.

Lemma work_list_ok : forall fuel wl live,
  work_ok wl live -> (work wl live <= fuel)%nat ->
  exists live', work_list visit fuel ir wl live = Some (true, live') /\ work_ok [] live'.
Proof.
  induction fuel as [| fuel IH]; intros [| bb wl] live Hw Hle; cbn [work_list]; try (by exists live).
  - unfold work in Hle; cbn [length] in Hle; lia.
  - destruct (work_step bb wl live Hw) as (changed & live' & wl' & -> & Hp & Hw' & Hm); cbn [mbind option_bind].
    rewrite Hp; cbn [mbind option_bind]; apply IH; [done |]; unfold work in *; cbn [length] in Hle.
    destruct changed; [| destruct Hm as [-> ->]; lia].
    assert (length wl' <= length (bb_list ir))%nat; [| nia].
    apply (NoDup_incl_length (proj1 (NoDup_ListNoDup _) (wo_nodup _ _ Hw'))).
    intros x Hx; apply list_elem_of_In, (wo_sub _ _ Hw'); by apply list_elem_of_In.
Qed.

(** All bits clear. *)
Definition no_bits : list VRegBitSet := replicate (num_bb ir) (new_VRegBitSet n).

Lemma work_ok_start : work_ok (bb_list ir) no_bits.
Proof.
  assert (Hn : forall bb w, ~ live_at no_bits bb w).
  { intros bb w (s & Hs & Hw); apply lookup_replicate in Hs as [-> _]; by apply bit_new in Hw. }
  split; try done.
  - split; [apply length_replicate |]; apply Forall_replicate, length_replicate.
  - apply (wc_nodup _ Hwf).
  - intros bb w Hl; by apply Hn in Hl.
  - intros bb w Hl; by apply Hn in Hl.
Qed.

Lemma zeros_replicate k : zeros (new_VRegBitSet k) = k.
Proof.
  induction k as [| m IH]; [done |].
  change (S (zeros (new_VRegBitSet m)) = S m); by rewrite IH.
Qed.

Lemma total_zeros_start : total_zeros no_bits = (num_bb ir * n)%nat.
Proof.
  unfold no_bits; induction (num_bb ir) as [| m IH]; [done |].
  change (zeros (new_VRegBitSet n) + total_zeros (replicate m (new_VRegBitSet n)) = S m * n)%nat.
  rewrite IH, zeros_replicate; lia.
Qed.

(** Enough iterations for every graph. *)
Definition work_bound : nat := num_bb ir * n * S (length (bb_list ir)) + length (bb_list ir).

Lemma work_list_ends fuel : (work_bound <= fuel)%nat ->
  exists live, work_list visit fuel ir (bb_list ir) no_bits = Some (true, live) /\ work_ok [] live.
Proof. intros Hf; apply work_list_ok; [apply work_ok_start |]; unfold work, work_bound in *; by rewrite total_zeros_start. Qed.

End WorkList.

(** *** The registers *)

Lemma transfer_mono ir live live' bb w :
  (forall bb w, live_at live bb w -> live_at live' bb w) -> transfer ir live bb w -> transfer ir live' bb w.
Proof. intros Hm [? | [? (bb' & ? & ?)]]; [by left | right; split; [done |]; exists bb'; auto]. Qed.

Lemma transfer_local ir live live' bb w :
  (forall bb' w, edge_to ir bb bb' -> live_at live bb' w -> live_at live' bb' w) -> transfer ir live bb w -> transfer ir live' bb w.
Proof. intros Hm [? | [? (bb' & ? & ?)]]; [by left | right; split; [done |]; exists bb'; auto]. Qed.

Lemma lives_transfer ir live bb w :
  wf_cfg ir -> bb ∈ bb_list ir -> (forall bb' w, live_at live bb' w -> lives ir w bb') ->
  transfer ir live bb w -> lives ir w bb.
Proof.
  intros Hwf Hbb Hs; destruct (wc_block _ Hwf bb Hbb) as (b & Hb & _); unfold transfer, insns_of; rewrite Hb.
  intros [? | [? (bb' & He & Hw)]]; [by eapply lives_here | eapply lives_later; eauto].
Qed.

Definition run_bound (ir : MachineIR) : nat := work_bound ir (num_vreg ir).

Abbreviation settled_lives ir live := (work_ok ir (num_vreg ir) (transfer ir) (fun bb w => lives ir w bb) [] live) (only parsing).

Lemma lives_live_at ir live :
  wf_cfg ir -> settled_lives ir live -> forall bb w, lives ir w bb -> bb ∈ bb_list ir -> live_at live bb w.
Proof.
  intros Hwf Hw bb w; induction 1 as [bb b Hb Hr | bb b bb' Hb Hn He _ IH]; intros Hbb;
    apply (wo_fix _ _ _ _ _ _ Hw); try done; try apply not_elem_of_nil; unfold transfer, insns_of; rewrite Hb; [by left |].
  right; split; [done |]; exists bb'; split; [done |]; apply IH.
  destruct He as (b' & e & x & Hb' & He & Hx & <-); destruct (wc_out _ Hwf bb b' e Hbb Hb' He) as (x' & Hx' & Hin & _).
  rewrite Hx in Hx'; by injection Hx' as <-.
Qed.

Lemma IsLiveIn_live_at ir live bb r v :
  live_ok ir live -> (bb < num_bb ir)%nat -> GetVRegIndex r = Some v -> (v < num_vreg ir)%nat ->
  exists b, IsLiveIn live bb r = Some b /\ (b = true <-> live_at live bb v).
Proof.
  intros [Hl Hall] Hbb Hr Hv; unfold IsLiveIn, test, live_at, bit.
  destruct (lookup_lt_is_Some_2 live bb) as [s Hs]; [lia |]; rewrite Hs, Hr; cbn [mbind option_bind].
  assert (length s = num_vreg ir) as Hsl by (rewrite Forall_forall in Hall; apply Hall; by eapply list_elem_of_lookup_2).
  destruct (lookup_lt_is_Some_2 s v) as [b Hb]; [lia |]; exists b; split; [done |]; split.
  - intros ->; by exists s.
  - intros (s' & [= <-] & Hb'); congruence.
Qed.

(** The work list runs empty, and the bits are the registers that live. *)
Lemma Run_lives ir fuel :
  wf_cfg ir -> (0 < num_bb ir)%nat -> (run_bound ir <= fuel)%nat ->
  exists live, Run fuel ir = Some (true, live) /\ live_ok ir live /\
    forall bb v, bb ∈ bb_list ir -> live_at live bb v <-> lives ir v bb.
Proof.
  intros Hwf Hpos Hf; destruct (work_list_ends ir (num_vreg ir) (transfer ir) (fun bb w => lives ir w bb) (VisitBasicBlock ir) Hwf) with (fuel := fuel)
    as (live & Hrun & Hw); try done.
  { apply transfer_mono. }
  { intros live live' bb w _; apply transfer_local. }
  { intros live bb w; by apply lives_transfer. }
  { intros live bb; by apply VisitBasicBlock_spec. }
  exists live; conjs; [| apply Hw |].
  - unfold Run, run_worklist; change (new_live_in ir) with (no_bits ir (num_vreg ir)).
    pose proof (wo_live _ _ _ _ _ _ (work_ok_start ir (num_vreg ir) (transfer ir) (fun bb w => lives ir w bb) Hwf)) as Hb0.
    rewrite (NumVReg_spec ir) by done; cbn [mbind option_bind]; by rewrite (proj1 Hb0), !Nat.eqb_refl.
  - intros bb v Hbb; split; [apply (wo_sound _ _ _ _ _ _ Hw) |]; intros Hl; by apply (lives_live_at ir live Hwf Hw).
Qed.

(** C8: the liveness analysis terminates and is exact: on every well-formed
    graph the work list runs empty within a bound given by the numbers of blocks
    and registers, and a register is then live into a block if and only if some
    path from the start of the block reads it before writing it. *)
Theorem liveness_exact (ir : MachineIR) :
  wf_cfg ir -> (0 < num_bb ir)%nat ->
  exists live, Run (run_bound ir) ir = Some (true, live) /\
    forall bb r v, bb ∈ bb_list ir -> GetVRegIndex r = Some v -> (v < num_vreg ir)%nat ->
      exists b, IsLiveIn live bb r = Some b /\ (b = true <-> lives ir v bb).
Proof.
  intros Hwf Hpos; destruct (Run_lives ir (run_bound ir) Hwf Hpos (le_n _)) as (live & Hrun & Hok & Hiff).
  exists live; split; [done |]; intros bb r v Hbb Hr Hv; destruct (wc_block _ Hwf bb Hbb) as (_ & _ & Hlt).
  destruct (IsLiveIn_live_at ir live bb r v Hok Hlt Hr Hv) as (b & Hb & Hb').
  exists b; split; [done |]; rewrite Hb'; by apply Hiff.
Qed.
