(* ===== verification/MachineIRCheck.v ===== *)
(** * The checker of the machine IR

    [CheckMachineIR] ([x86_64/machine_ir_check.cc]) and what it establishes: the
    graph is linked both ways and closed, and every block ends in its only
    control transfer.

    A pointer that refers to no object of the arena is [None]. *)
From stdpp Require Import gmap list.
From S2P Require Import Prelude MachineIR Lifetime Liveness.
#[local] Open Scope Z_scope.

Inductive MachineIRCheckStatus :=
  kMachineIRCheckSuccess | kMachineIRCheckFail | kMachineIRCheckDanglingEdge | kMachineIRCheckDanglingBasicBlock.
#[export] Instance MachineIRCheckStatus_dec : EqDecision MachineIRCheckStatus.
Proof. solve_decision. Defined.

Definition CheckEdgeInVector (target_edge : EdgePtr) (edge_vector : list EdgePtr) : bool :=
  bool_decide (target_edge ∈ edge_vector).
Definition CheckBasicBlockInIR (bb : BlockPtr) (ir : MachineIR) : bool := bool_decide (bb ∈ bb_list ir).

(** The loop over one vector of edges: [far] is the other end of the edge and
    [back] the vector of the block there that must hold it. *)
Fixpoint check_links (far : MachineEdge -> BlockPtr) (back : MachineBasicBlock -> list EdgePtr)
    (ir : MachineIR) (es : list EdgePtr) : option MachineIRCheckStatus :=
  match es with
  | [] => Some kMachineIRCheckSuccess
  | e :: es =>
      x ← edges ir !! e;
      d ← blocks ir !! far x;
      if negb (CheckEdgeInVector e (back d)) then Some kMachineIRCheckDanglingEdge
      else if negb (CheckBasicBlockInIR (far x) ir) then Some kMachineIRCheckDanglingBasicBlock
      else check_links far back ir es
  end.

Definition CheckNoDanglingEdgesOrBasicBlocks (ir : MachineIR) (b : MachineBasicBlock)
    : option MachineIRCheckStatus :=
  if (length (out_edges b) =? 0)%nat && (length (in_edges b) =? 0)%nat then
    if negb (length (bb_list ir) =? 1)%nat then Some kMachineIRCheckDanglingBasicBlock
    else Some kMachineIRCheckSuccess
  else
    st ← check_links edge_dst in_edges ir (out_edges b);
    if negb (bool_decide (st = kMachineIRCheckSuccess)) then Some st
    else check_links edge_src out_edges ir (in_edges b).

(** The loop over one vector of edges: [near] is the end at the block. *)
Fixpoint check_ends (near : MachineEdge -> BlockPtr) (ir : MachineIR) (bb : BlockPtr) (es : list EdgePtr)
    : option bool :=
  match es with
  | [] => Some true
  | e :: es => x ← edges ir !! e; if negb (near x =? bb)%nat then Some false else check_ends near ir bb es
  end.

Definition CheckInOutEdgesLinksToBasicBlock (ir : MachineIR) (bb : BlockPtr) (b : MachineBasicBlock)
    : option bool :=
  r ← check_ends edge_dst ir bb (in_edges b);
  if (r : bool) then check_ends edge_src ir bb (out_edges b) else Some false.

Fixpoint successor_in (ir : MachineIR) (es : list EdgePtr) (dst : BlockPtr) : option bool :=
  match es with
  | [] => Some false
  | e :: es => x ← edges ir !! e; if (edge_dst x =? dst)%nat then Some true else successor_in ir es dst
  end.
Definition IsBasicBlockSuccessor (ir : MachineIR) (src : MachineBasicBlock) (dst : BlockPtr) : option bool :=
  successor_in ir (out_edges src) dst.

(** The loop over the instructions; an instruction is the back of the list when
    none follow it. *)
Fixpoint check_transfer (ir : MachineIR) (b : MachineBasicBlock) (l : list MachineInsn) : option bool :=
  match l with
  | [] => Some false
  | i :: l =>
      let is_back := (length l =? 0)%nat in
      match data i with
      | PseudoIndirectJump => Some is_back
      | PseudoJump _ _ => Some is_back
      | PseudoBranch then_bb => if negb is_back then Some false else IsBasicBlockSuccessor ir b then_bb
      | PseudoCondBranch _ then_bb else_bb =>
          if negb is_back then Some false
          else
            r ← IsBasicBlockSuccessor ir b then_bb;
            if (r : bool) then IsBasicBlockSuccessor ir b else_bb else Some false
      | _ => check_transfer ir b l
      end
  end.
Definition CheckControlTransferInsn (ir : MachineIR) (b : MachineBasicBlock) : option bool :=
  check_transfer ir b (insn_list b).

Fixpoint check_blocks (ir : MachineIR) (bbs : list BlockPtr) : option MachineIRCheckStatus :=
  match bbs with
  | [] => Some kMachineIRCheckSuccess
  | bb :: bbs =>
      b ← blocks ir !! bb;
      r ← CheckInOutEdgesLinksToBasicBlock ir bb b;
      if negb r then Some kMachineIRCheckFail
      else
        status ← CheckNoDanglingEdgesOrBasicBlocks ir b;
        if negb (bool_decide (status = kMachineIRCheckSuccess)) then Some status
        else
          r ← CheckControlTransferInsn ir b;
          if negb r then Some kMachineIRCheckFail else check_blocks ir bbs
  end.

Definition CheckCFG (ir : MachineIR) : option MachineIRCheckStatus := check_blocks ir (bb_list ir).
Definition CheckMachineIR (ir : MachineIR) : option MachineIRCheckStatus := CheckCFG ir.

(** ** What it accepts *)

Definition out_linked (ir : MachineIR) (bb : BlockPtr) (e : EdgePtr) : Prop :=
  exists x d, edges ir !! e = Some x /\ edge_src x = bb /\ edge_dst x ∈ bb_list ir /\
    blocks ir !! edge_dst x = Some d /\ e ∈ in_edges d.
Definition in_linked (ir : MachineIR) (bb : BlockPtr) (e : EdgePtr) : Prop :=
  exists x d, edges ir !! e = Some x /\ edge_dst x = bb /\ edge_src x ∈ bb_list ir /\
    blocks ir !! edge_src x = Some d /\ e ∈ out_edges d.

(** The blocks an instruction may transfer control to. *)
Definition targets (i : MachineInsn) : list BlockPtr :=
  match data i with
  | PseudoBranch then_bb => [then_bb]
  | PseudoCondBranch _ then_bb else_bb => [then_bb; else_bb]
  | _ => []
  end.

Definition ends_in_transfer (ir : MachineIR) (bb : BlockPtr) (l : list MachineInsn) : Prop :=
  exists l' i, l = l' ++ [i] /\ IsControlTransfer i = true /\ Forall (fun i => IsControlTransfer i = false) l' /\
    forall t, t ∈ targets i -> edge_to ir bb t.

Record block_checked (ir : MachineIR) (bb : BlockPtr) (b : MachineBasicBlock) : Prop := {
  bc_out : forall e, e ∈ out_edges b -> out_linked ir bb e;
  bc_in : forall e, e ∈ in_edges b -> in_linked ir bb e;
  bc_alone : out_edges b = [] -> in_edges b = [] -> length (bb_list ir) = 1%nat;
  bc_transfer : ends_in_transfer ir bb (insn_list b)
}.

Lemma check_links_spec far back ir es :
  check_links far back ir es = Some kMachineIRCheckSuccess <->
  forall e, e ∈ es -> exists x d, edges ir !! e = Some x /\ blocks ir !! far x = Some d /\
    e ∈ back d /\ far x ∈ bb_list ir.
Proof.
  induction es as [| e es IH]; cbn [check_links]; [split; [intros _ e He; by apply not_elem_of_nil in He | done] |].
  unfold CheckEdgeInVector, CheckBasicBlockInIR.
  destruct (edges ir !! e) as [x |] eqn:Hx; cbn [mbind option_bind];
    [destruct (blocks ir !! far x) as [d |] eqn:Hd; cbn [mbind option_bind]; [repeat case_bool_decide; cbn [negb] |] |].
  { rewrite IH; split; [| intros Hall e' He'; apply Hall, elem_of_cons; by right].
    intros Hall e' [-> | He']%elem_of_cons; [by exists x, d | by apply Hall]. }
  all: split; [done |]; intros Hall;
    destruct (Hall e ltac:(apply elem_of_cons; by left)) as (x' & d' & ? & ? & ? & ?); congruence.
Qed.

Lemma check_ends_spec near ir bb es :
  check_ends near ir bb es = Some true <-> forall e, e ∈ es -> exists x, edges ir !! e = Some x /\ near x = bb.
Proof.
  induction es as [| e es IH]; cbn [check_ends]; [split; [intros _ e He; by apply not_elem_of_nil in He | done] |].
  destruct (edges ir !! e) as [x |] eqn:Hx; cbn [mbind option_bind].
  - destruct (Nat.eqb_spec (near x) bb); cbn [negb].
    + rewrite IH; split; [| intros Hall e' He'; apply Hall, elem_of_cons; by right].
      intros Hall e' [-> | He']%elem_of_cons; [by exists x | by apply Hall].
    + split; [done |]; intros Hall; destruct (Hall e ltac:(apply elem_of_cons; by left)) as (x' & ? & ?); congruence.
  - split; [done |]; intros Hall; destruct (Hall e ltac:(apply elem_of_cons; by left)) as (x' & ? & ?); congruence.
Qed.

Lemma successor_in_spec ir es dst :
  (forall e, e ∈ es -> is_Some (edges ir !! e)) ->
  successor_in ir es dst = Some true <-> exists e x, e ∈ es /\ edges ir !! e = Some x /\ edge_dst x = dst.
Proof.
  induction es as [| e es IH]; intros Hall; cbn [successor_in].
  - split; [done | intros (e & x & He & _); by apply not_elem_of_nil in He].
  - destruct (Hall e ltac:(apply elem_of_cons; by left)) as [x Hx]; rewrite Hx; cbn [mbind option_bind].
    destruct (Nat.eqb_spec (edge_dst x) dst) as [Hd | Hd].
    + split; [intros _; exists e, x; split; [apply elem_of_cons; by left | done] | done].
    + rewrite IH by (intros; apply Hall, elem_of_cons; by right); split.
      * intros (e' & x' & ? & ?); exists e', x'; split; [apply elem_of_cons; by right | done].
      * intros (e' & x' & [-> | ?]%elem_of_cons & Hx' & ?); [congruence | by exists e', x'].
Qed.

Lemma edge_to_spec ir bb b t :
  blocks ir !! bb = Some b -> (forall e, e ∈ out_edges b -> is_Some (edges ir !! e)) ->
  IsBasicBlockSuccessor ir b t = Some true <-> edge_to ir bb t.
Proof.
  intros Hb He; unfold IsBasicBlockSuccessor; rewrite successor_in_spec by done; split.
  - intros (e & x & ? & ? & ?); by exists b, e, x.
  - intros (b' & e & x & Hb' & ? & ? & ?); rewrite Hb in Hb'; injection Hb' as <-; by exists e, x.
Qed.

Lemma ends_in_transfer_back ir bb i :
  ends_in_transfer ir bb [i] <-> IsControlTransfer i = true /\ forall t, t ∈ targets i -> edge_to ir bb t.
Proof.
  split.
  - intros ([| j l] & i' & Hl & Hc & _ & Ht); [by injection Hl as -> |].
    injection Hl as _ Hl; by destruct l.
  - intros [? ?]; exists [], i; conjs; try done; constructor.
Qed.

Lemma ends_in_transfer_cons ir bb i j l :
  ends_in_transfer ir bb (i :: j :: l) <-> IsControlTransfer i = false /\ ends_in_transfer ir bb (j :: l).
Proof.
  split.
  - intros ([| k l'] & i' & Hl & Hc & Hf & Ht); [by injection Hl |].
    injection Hl as -> Hl; apply Forall_cons in Hf as [? ?]; split; [done |]; by exists l', i'.
  - intros [? (l' & i' & Hl & ? & ? & ?)]; exists (i :: l'), i'; rewrite Hl; conjs; try done; by constructor.
Qed.

Lemma check_transfer_spec ir bb b l :
  blocks ir !! bb = Some b -> (forall e, e ∈ out_edges b -> is_Some (edges ir !! e)) ->
  check_transfer ir b l = Some true <-> ends_in_transfer ir bb l.
Proof.
  intros Hb He; induction l as [| i [| j l] IH]; cbn [check_transfer].
  - split; [done | intros (l' & i & Hl & _); by destruct l'].
  - rewrite ends_in_transfer_back; unfold IsControlTransfer, targets.
    destruct (data i); cbn [length Nat.eqb negb]; try (by split; [| intros [? _]]);
      try (split; [intros _; split; [done |]; intros t Ht; by apply not_elem_of_nil in Ht | done]).
    + rewrite edge_to_spec by done; split; [intros ?; split; [done |]; by intros t ->%list_elem_of_singleton |].
      intros [_ Ht]; apply Ht; by apply list_elem_of_singleton.
    + pose proof (edge_to_spec ir bb b then_bb Hb He) as H1; pose proof (edge_to_spec ir bb b else_bb Hb He) as H2.
      split.
      * destruct (IsBasicBlockSuccessor ir b then_bb) as [[] |]; cbn [mbind option_bind]; try done.
        intros H3; split; [done |]; intros t [-> | ->%list_elem_of_singleton]%elem_of_cons; [by apply H1 | by apply H2].
      * intros [_ Ht]; rewrite (proj2 H1); [cbn [mbind option_bind]; apply H2 |]; apply Ht;
          apply elem_of_cons; [right; by apply list_elem_of_singleton | by left].
  - rewrite ends_in_transfer_cons, <- IH; unfold IsControlTransfer; destruct (data i); cbn [length Nat.eqb negb];
      (split; [intros ?; split | intros [? ?]]); done.
Qed.

Lemma CheckInOutEdges_spec ir bb b :
  CheckInOutEdgesLinksToBasicBlock ir bb b = Some true <->
  check_ends edge_dst ir bb (in_edges b) = Some true /\ check_ends edge_src ir bb (out_edges b) = Some true.
Proof.
  unfold CheckInOutEdgesLinksToBasicBlock; destruct (check_ends edge_dst _ _ _) as [[] |]; cbn [mbind option_bind];
    split; (by intros [? ?]) || (intros ?; try split; done).
Qed.

Lemma CheckNoDangling_spec ir b :
  CheckNoDanglingEdgesOrBasicBlocks ir b = Some kMachineIRCheckSuccess <->
  (out_edges b = [] -> in_edges b = [] -> length (bb_list ir) = 1%nat) /\
  check_links edge_dst in_edges ir (out_edges b) = Some kMachineIRCheckSuccess /\
  check_links edge_src out_edges ir (in_edges b) = Some kMachineIRCheckSuccess.
Proof.
  unfold CheckNoDanglingEdgesOrBasicBlocks; destruct (out_edges b) as [| e es], (in_edges b) as [| e' es'];
    cbn [length Nat.eqb andb].
  { destruct (Nat.eqb_spec (length (bb_list ir)) 1); cbn [negb]; split; try done.
    intros [Hl _]; by specialize (Hl eq_refl eq_refl). }
  all: match goal with |- mbind _ ?c = _ <-> _ => destruct c as [st |] end; cbn [mbind option_bind];
    [destruct (decide (st = kMachineIRCheckSuccess)) as [-> |];
       [rewrite bool_decide_true by done | rewrite bool_decide_false by done]; cbn [negb] |];
    split; try done; try congruence; try (intros ?; conjs; done); intros (_ & ? & ?); congruence.
Qed.

Lemma block_checked_spec ir bb b :
  blocks ir !! bb = Some b ->
  block_checked ir bb b <->
  CheckInOutEdgesLinksToBasicBlock ir bb b = Some true /\
  CheckNoDanglingEdgesOrBasicBlocks ir b = Some kMachineIRCheckSuccess /\
  CheckControlTransferInsn ir b = Some true.
Proof.
  intros Hb; rewrite CheckInOutEdges_spec, CheckNoDangling_spec, !check_ends_spec, !check_links_spec.
  unfold CheckControlTransferInsn; split.
  - intros [Ho Hi Ha Ht]; conjs.
    + intros e He; destruct (Hi e He) as (x & d & ? & ? & _); by exists x.
    + intros e He; destruct (Ho e He) as (x & d & ? & ? & _); by exists x.
    + done.
    + intros e He; destruct (Ho e He) as (x & d & ? & _ & ? & ? & ?); by exists x, d.
    + intros e He; destruct (Hi e He) as (x & d & ? & _ & ? & ? & ?); by exists x, d.
    + apply (check_transfer_spec ir bb); [done | | done].
      intros e He; destruct (Ho e He) as (x & d & ? & _); by exists x.
  - intros ([H1 H2] & (H3 & H4 & H5) & H6); split; [| | done |].
    + intros e He; destruct (H2 e He) as (x & Hx & ?), (H4 e He) as (x' & d & Hx' & ? & ? & ?).
      rewrite Hx in Hx'; injection Hx' as <-; by exists x, d.
    + intros e He; destruct (H1 e He) as (x & Hx & ?), (H5 e He) as (x' & d & Hx' & ? & ? & ?).
      rewrite Hx in Hx'; injection Hx' as <-; by exists x, d.
    + apply (check_transfer_spec ir bb b); [done | | done].
      intros e He; destruct (H2 e He) as (x & Hx & _); by exists x.
Qed.

Lemma check_blocks_spec ir bbs :
  check_blocks ir bbs = Some kMachineIRCheckSuccess <->
  forall bb, bb ∈ bbs -> exists b, blocks ir !! bb = Some b /\ block_checked ir bb b.
Proof.
  induction bbs as [| bb bbs IH]; cbn [check_blocks]; [split; [intros _ bb H; by apply not_elem_of_nil in H | done] |].
  split.
  - destruct (blocks ir !! bb) as [b |] eqn:Hb; cbn [mbind option_bind]; [| done].
    destruct (CheckInOutEdgesLinksToBasicBlock ir bb b) as [[] |] eqn:H1; cbn [mbind option_bind negb]; try done.
    destruct (CheckNoDanglingEdgesOrBasicBlocks ir b) as [st |] eqn:H2; cbn [mbind option_bind]; [| done].
    case_bool_decide; subst; cbn [negb]; [| congruence].
    destruct (CheckControlTransferInsn ir b) as [[] |] eqn:H3; cbn [mbind option_bind negb]; try done.
    rewrite IH; intros Hall bb' [-> | Hin]%elem_of_cons; [| by apply Hall]; exists b; split; [done |].
    by apply block_checked_spec.
  - intros Hall; destruct (Hall bb ltac:(apply elem_of_cons; by left)) as (b & Hb & Hc); rewrite Hb; cbn [mbind option_bind].
    apply block_checked_spec in Hc as (-> & -> & ->); [| done]; cbn [mbind option_bind negb].
    rewrite bool_decide_true by done; cbn [negb]; apply IH; intros; apply Hall, elem_of_cons; by right.
Qed.

(** C9: the checker of the IR is exact: it accepts if and only if, for every
    enrolled block, each out edge starts at the block and is an in edge of an
    enrolled block, each in edge ends at it and is an out edge of an enrolled
    block, the block is not isolated unless it is alone, and it ends in its
    only control transfer, whose targets are its successors. *)
Theorem CheckMachineIR_exact (ir : MachineIR) :
  CheckMachineIR ir = Some kMachineIRCheckSuccess <->
  forall bb, bb ∈ bb_list ir -> exists b, blocks ir !! bb = Some b /\ block_checked ir bb b.
Proof. apply check_blocks_spec. Qed.

(** ** The graph the passes run on *)

(** Blocks enrolled once under ids handed out by [ReserveBasicBlockId], and
    registers handed out by [AllocVReg]. *)
Definition operand_in_range (n : nat) (o : MachineReg * MachineRegKind) : bool :=
  match GetVRegIndex o.1 with Some v => (v <? n)%nat | None => true end.
Definition block_in_range (ir : MachineIR) (bb : BlockPtr) : bool :=
  (bb <? num_bb ir)%nat &&
  match blocks ir !! bb with
  | Some b => forallb (fun i => forallb (operand_in_range (num_vreg ir)) (operands i)) (insn_list b)
  | None => true
  end.
Definition ids_in_range (ir : MachineIR) : bool :=
  bool_decide (NoDup (bb_list ir)) && forallb (block_in_range ir) (bb_list ir).

Lemma forallb_elem_of {A} (f : A -> bool) l x : forallb f l = true -> x ∈ l -> f x = true.
Proof. rewrite forallb_forall; intros H Hx; apply H; by apply list_elem_of_In. Qed.

Lemma wf_cfg_checked ir :
  CheckMachineIR ir = Some kMachineIRCheckSuccess -> ids_in_range ir = true -> wf_cfg ir.
Proof.
  unfold CheckMachineIR, CheckCFG; intros Hc [Hnd%bool_decide_eq_true Hr]%andb_true_iff.
  rewrite check_blocks_spec in Hc.
  assert (Hb : forall bb b, bb ∈ bb_list ir -> blocks ir !! bb = Some b -> block_checked ir bb b).
  { intros bb b Hin Hb; destruct (Hc bb Hin) as (b' & Hb' & ?); congruence. }
  split.
  - intros bb Hbb; destruct (Hc bb Hbb) as (b & ? & _); exists b; split; [done |].
    apply (forallb_elem_of _ _ bb) in Hr; [| done]; apply andb_true_iff in Hr as [?%Nat.ltb_lt _]; done.
  - done.
  - intros bb b e Hbb Hbl He; destruct (bc_out _ _ _ (Hb bb b Hbb Hbl) e He) as (x & d & ? & ? & ? & ? & ?).
    exists x; conjs; try done; by exists d.
  - intros bb b e Hbb Hbl He; destruct (bc_in _ _ _ (Hb bb b Hbb Hbl) e He) as (x & d & ? & ? & ? & ? & ?).
    by exists x.
  - intros bb b i r k Hbb Hbl Hi Ho [v Hv]%IsVReg_index; exists v; split; [done |].
    apply (forallb_elem_of _ _ bb) in Hr; [| done]; apply andb_true_iff in Hr as [_ Hr]; rewrite Hbl in Hr.
    apply (forallb_elem_of _ _ i) in Hr; [| done]; apply (forallb_elem_of _ _ (r, k)) in Hr; [| done].
    unfold operand_in_range in Hr; cbn in Hr; rewrite Hv in Hr; by apply Nat.ltb_lt.
Qed.

(** ** An example: a loop *)

Definition append_insns (bb : BlockPtr) (l : list MachineInsn) (ir : MachineIR) : MachineIR :=
  update_block bb (set_insn_list l) ir.

(** Block 0 defines register 0; block 1 copies it to register 1 and loops;
    block 2 jumps to register 1. *)
Definition loop_ir : MachineIR :=
  let v n := 1024 + n in
  let ir := new_MachineIR 3 in
  let '(b0, ir) := NewBasicBlock ir in
  let '(b1, ir) := NewBasicBlock ir in
  let '(b2, ir) := NewBasicBlock ir in
  let ir := set_bb_list [b0; b1; b2] ir in
  let ir := AddEdge b0 b1 ir in
  let ir := AddEdge b1 b1 ir in
  let ir := AddEdge b1 b2 ir in
  let ir := append_insns b0 [new_PseudoDefReg (v 0); new_PseudoBranch b1] ir in
  let ir := append_insns b1
    [new_PseudoCopy (v 1) (v 0) 8; new_PseudoWriteFlags (v 1) (v 2); new_PseudoCondBranch 0 b1 b2 (v 2)] ir in
  append_insns b2 [new_PseudoIndirectJump (v 1)] ir.

Lemma liveness_exact_witness :
  wf_cfg loop_ir /\ (0 < num_bb loop_ir)%nat /\
  exists live, Run (run_bound loop_ir) loop_ir = Some (true, live) /\
    forall bb r v, bb ∈ bb_list loop_ir -> GetVRegIndex r = Some v -> (v < num_vreg loop_ir)%nat ->
      exists b, IsLiveIn live bb r = Some b /\ (b = true <-> lives loop_ir v bb).
Proof.
  assert (wf_cfg loop_ir) as Hwf by (apply wf_cfg_checked; vm_compute; reflexivity).
  assert (0 < num_bb loop_ir)%nat as Hpos by (vm_compute; lia).
  split; [exact Hwf | split; [exact Hpos | exact (liveness_exact loop_ir Hwf Hpos)]].
Defined.

(** Registers 0 into block 1 and register 1 into block 2. *)
Example loop_live : Run (run_bound loop_ir) loop_ir
  = Some (true, [[false; false; false]; [true; false; false]; [false; true; false]]).
Proof. vm_compute; reflexivity. Qed.
