(* ===== verification/MachineSem.v ===== *)
(** * What the machine IR computes

    The meaning of a graph of blocks, over a machine that is a parameter: what
    the instructions of x86_64 do is generated from tables, so the class
    [MachineSem] takes it as a function from the values an instruction reads to
    the values it writes, and [MachineSemOk] states what the optimizer relies on.

    A state is the value of every register and a world (memory, the guest
    context, all that is not a register).  Values have the type [V], worlds the
    type [W]. *)
From stdpp Require Import gmap list.
From S2P Require Import Prelude MachineIR Lifetime Liveness MachineIRCheck.
#[local] Open Scope Z_scope.

(** [exec_insn] gives the value of the [n]-th written operand and the new world,
    [insn_faults] whether the instruction raises a signal instead, and
    [cond_holds] whether a condition of a branch holds of the flags. *)
Class MachineSem (V W : Type) := {
  exec_insn : InsnData -> list MachineRegKind -> list V -> W -> (nat -> V) * W;
  insn_faults : InsnData -> list MachineRegKind -> list V -> W -> bool;
  cond_holds : Z -> V -> bool;
  default_value : V
}.

(** [kMachineInsnSideEffects]: an instruction without it only writes its
    registers; [kMachineInsnCopy]: a copy writes what it reads. *)
Class MachineSemOk (V W : Type) `{MachineSem V W} := {
  pure_world : forall i vals w, has_side_effects i = false -> (exec_insn (data i) (reg_kinds i) vals w).2 = w;
  copy_value : forall ks v w, (exec_insn PseudoCopy ks [v] w).1 0%nat = v /\ (exec_insn PseudoCopy ks [v] w).2 = w
}.

(** Where control goes. *)
Inductive Exit (V : Type) :=
  | GoTo (bb : BlockPtr)
  | JumpOut (target : Z) (k : PseudoJumpKind)
  | IndirectOut (target : V)
  | FaultOut (pc : Z)
  | NoExit.
Arguments GoTo {V}. Arguments JumpOut {V}. Arguments IndirectOut {V}. Arguments FaultOut {V}. Arguments NoExit {V}.

Section Sem.
Context {V W : Type} `{!MachineSem V W}.

Abbreviation regfile := (MachineReg -> V) (only parsing).

Definition set_reg (r : MachineReg) (v : V) (ρ : regfile) : regfile :=
  fun r' => if decide (r' = r) then v else ρ r'.

(** The values an instruction reads. *)
Fixpoint inputs_of (ops : list (MachineReg * MachineRegKind)) (ρ : regfile) : list V :=
  match ops with
  | [] => []
  | (r, k) :: ops => if IsInput k then ρ r :: inputs_of ops ρ else inputs_of ops ρ
  end.

(** The written operands take the values from the [n]-th on. *)
Fixpoint write_defs (ops : list (MachineReg * MachineRegKind)) (n : nat) (out : nat -> V) (ρ : regfile) : regfile :=
  match ops with
  | [] => ρ
  | (r, k) :: ops => if IsDef k then write_defs ops (S n) out (set_reg r (out n) ρ) else write_defs ops n out ρ
  end.

Definition first_input (i : MachineInsn) (ρ : regfile) : V := default default_value (head (inputs_of (operands i) ρ)).

(** The signal handler takes a fault to the recovery block or to the recovery
    address; without either the program is stopped, which is not modelled. *)
Definition fault_of (i : MachineInsn) (ρ : regfile) (w : W) : option (Exit V) :=
  if insn_faults (data i) (reg_kinds i) (inputs_of (operands i) ρ) w then
    match recovery_bb i with
    | Some bb => Some (GoTo bb)
    | None => if recovery_pc i =? kNullGuestAddr then None else Some (FaultOut (recovery_pc i))
    end
  else None.

Definition transfer_of (i : MachineInsn) (ρ : regfile) : option (Exit V) :=
  match data i with
  | PseudoBranch then_bb => Some (GoTo then_bb)
  | PseudoCondBranch cond then_bb else_bb =>
      Some (GoTo (if cond_holds cond (first_input i ρ) then then_bb else else_bb))
  | PseudoJump target k => Some (JumpOut target k)
  | PseudoIndirectJump => Some (IndirectOut (first_input i ρ))
  | _ => None
  end.

Definition exec_regs (i : MachineInsn) (ρ : regfile) (w : W) : regfile * W :=
  let '(out, w') := exec_insn (data i) (reg_kinds i) (inputs_of (operands i) ρ) w in
  (write_defs (operands i) 0 out ρ, w').

Fixpoint run_insns (l : list MachineInsn) (ρ : regfile) (w : W) : Exit V * regfile * W :=
  match l with
  | [] => (NoExit, ρ, w)
  | i :: l =>
      match fault_of i ρ w with
      | Some e => (e, ρ, w)
      | None =>
          match transfer_of i ρ with
          | Some e => (e, ρ, w)
          | None => let '(ρ', w') := exec_regs i ρ w in run_insns l ρ' w'
          end
      end
  end.

Definition is_final (e : Exit V) : Prop := match e with GoTo _ => False | _ => True end.

(** The executions that leave the graph. *)
Inductive runs (ir : MachineIR) : BlockPtr -> regfile -> W -> Exit V -> regfile -> W -> Prop :=
  | runs_exit bb b ρ w e ρ' w' : blocks ir !! bb = Some b -> run_insns (insn_list b) ρ w = (e, ρ', w') ->
      is_final e -> runs ir bb ρ w e ρ' w'
  | runs_goto bb b ρ w bb' ρ' w' e ρ'' w'' : blocks ir !! bb = Some b ->
      run_insns (insn_list b) ρ w = (GoTo bb', ρ', w') -> runs ir bb' ρ' w' e ρ'' w'' -> runs ir bb ρ w e ρ'' w''.

(** ** States that agree *)

Lemma GetVRegIndex_inj r r' v : GetVRegIndex r = Some v -> GetVRegIndex r' = Some v -> r = r'.
Proof.
  unfold GetVRegIndex; destruct (Z.leb_spec kFirstVRegNumber r), (Z.leb_spec kFirstVRegNumber r'); try done.
  intros [= <-] [= ?]; lia.
Qed.

(** On the registers that are not virtual and on the virtual registers in [S]. *)
Definition agree (S : nat -> Prop) (ρ ρ' : regfile) : Prop :=
  forall r, IsVReg r = false \/ (exists v, GetVRegIndex r = Some v /\ S v) -> ρ r = ρ' r.

Lemma agree_refl S ρ : agree S ρ ρ.
Proof. done. Qed.

Lemma agree_sym S ρ ρ' : agree S ρ ρ' -> agree S ρ' ρ.
Proof. intros H r Hr; symmetry; by apply H. Qed.

Lemma agree_trans S ρ1 ρ2 ρ3 : agree S ρ1 ρ2 -> agree S ρ2 ρ3 -> agree S ρ1 ρ3.
Proof. intros H1 H2 r Hr; rewrite H1 by done; by apply H2. Qed.

Lemma agree_sub (S S' : nat -> Prop) ρ ρ' : (forall v, S' v -> S v) -> agree S ρ ρ' -> agree S' ρ ρ'.
Proof. intros Hs Ha r [? | (v & ? & ?)]; apply Ha; [by left | right; exists v; auto]. Qed.

Lemma inputs_agree S i ρ ρ' :
  agree S ρ ρ' -> (forall v, reads i v -> S v) -> inputs_of (operands i) ρ = inputs_of (operands i) ρ'.
Proof.
  intros Ha Hr; assert (Hops : forall r k, (r, k) ∈ operands i -> IsInput k = true -> ρ r = ρ' r).
  { intros r k Hin Hk; apply Ha; destruct (IsVReg r) eqn:Ev; [right | by left].
    apply IsVReg_index in Ev as [v Hv]; exists v; split; [done |]; apply Hr; by exists r, k. }
  revert Hops; generalize (operands i) as ops; induction ops as [| [r k] ops IH]; intros Hops; cbn [inputs_of]; [done |].
  rewrite IH by (intros; eapply Hops; [apply elem_of_cons; by right | done]).
  destruct (IsInput k) eqn:Ek; [| done]; f_equal; eapply Hops; [apply elem_of_cons; by left | done].
Qed.

Definition written (ops : list (MachineReg * MachineRegKind)) (r : MachineReg) : Prop :=
  exists k, (r, k) ∈ ops /\ IsDef k = true.

Lemma write_defs_unwritten ops n out ρ r : ~ written ops r -> write_defs ops n out ρ r = ρ r.
Proof.
  revert n ρ; induction ops as [| [r' k] ops IH]; intros n ρ Hn; cbn [write_defs]; [done |].
  assert (Hn' : ~ written ops r) by (intros (k' & ? & ?); apply Hn; exists k'; split; [apply elem_of_cons; by right | done]).
  destruct (IsDef k) eqn:Ek; rewrite IH by done; [| done]; unfold set_reg; rewrite decide_False; [done |].
  intros ->; apply Hn; exists k; split; [apply elem_of_cons; by left | done].
Qed.

(** The written operands agree whatever the states were. *)
Lemma write_defs_same ops n out ρ ρ' r :
  (written ops r \/ ρ r = ρ' r) -> write_defs ops n out ρ r = write_defs ops n out ρ' r.
Proof.
  revert n ρ ρ'; induction ops as [| [r' k] ops IH]; intros n ρ ρ' Hc; cbn [write_defs].
  - destruct Hc as [(k & Hk & _) | ?]; [by apply not_elem_of_nil in Hk | done].
  - destruct (IsDef k) eqn:Ek; apply IH.
    + destruct (decide (r = r')) as [-> | Hne]; [right; unfold set_reg; by rewrite !decide_True |].
      destruct Hc as [(k' & [[= ? ?] | Hin]%elem_of_cons & Hd) | Heq]; [congruence | left; by exists k' |].
      right; unfold set_reg; by rewrite !decide_False.
    + destruct Hc as [(k' & [[= -> ->] | Hin]%elem_of_cons & Hd) | Heq]; [congruence | left; by exists k' | by right].
Qed.

Lemma written_writes i r v : GetVRegIndex r = Some v -> written (operands i) r -> writes i v.
Proof. intros Hv (k & ? & ?); by exists r, k. Qed.

Lemma exec_agree (S : nat -> Prop) i ρ ρ' w :
  agree (fun v => reads i v \/ ~ writes i v /\ S v) ρ ρ' ->
  (exec_regs i ρ w).2 = (exec_regs i ρ' w).2 /\ agree S (exec_regs i ρ w).1 (exec_regs i ρ' w).1.
Proof.
  intros Ha; unfold exec_regs; rewrite (inputs_agree _ i ρ ρ' Ha) by auto.
  destruct (exec_insn _ _ _ _) as [out w']; split; [done |]; cbn; intros r Hr.
  apply write_defs_same; destruct (decide (Exists (fun o => o.1 = r /\ IsDef o.2 = true) (operands i))) as [He | Hn].
  - left; apply Exists_exists in He as ([r' k] & Hin & Hr' & Hk); cbn in *; subst; by exists k.
  - right; apply Ha; destruct Hr as [? | (v & Hv & Hs)]; [by left | right; exists v; split; [done |]; right; split; [| done]].
    intros (r' & k & Hin & Hk & Hv'); apply Hn, Exists_exists; exists (r', k); split; [done |]; split; [| done]; cbn.
    by eapply GetVRegIndex_inj.
Qed.

Lemma fault_agree S i ρ ρ' w : agree S ρ ρ' -> (forall v, reads i v -> S v) -> fault_of i ρ w = fault_of i ρ' w.
Proof. intros Ha Hr; unfold fault_of; by rewrite (inputs_agree S i ρ ρ' Ha Hr). Qed.

Lemma transfer_agree S i ρ ρ' : agree S ρ ρ' -> (forall v, reads i v -> S v) -> transfer_of i ρ = transfer_of i ρ'.
Proof. intros Ha Hr; unfold transfer_of, first_input; by rewrite (inputs_agree S i ρ ρ' Ha Hr). Qed.

Lemma transfer_control i ρ : is_Some (transfer_of i ρ) <-> IsControlTransfer i = true.
Proof. unfold transfer_of, IsControlTransfer; destruct (data i); split; intros H; try done; try (by eexists); by destruct H. Qed.

Lemma transfer_none i ρ : IsControlTransfer i = false -> transfer_of i ρ = None.
Proof. unfold transfer_of, IsControlTransfer; by destruct (data i). Qed.

(** ** Where control goes *)

(** Where an instruction can send control to. *)
Definition successors (i : MachineInsn) : list BlockPtr :=
  targets i ++ match recovery_bb i with Some bb => [bb] | None => [] end.

Lemma fault_goto i ρ w bb : fault_of i ρ w = Some (GoTo bb) -> bb ∈ successors i.
Proof.
  unfold fault_of, successors; destruct (insn_faults _ _ _ _); [| done]; destruct (recovery_bb i) as [rb |].
  - intros [= ->]; apply elem_of_app; right; by apply list_elem_of_singleton.
  - by destruct (recovery_pc i =? kNullGuestAddr).
Qed.

Lemma transfer_goto i ρ bb : transfer_of i ρ = Some (GoTo bb) -> bb ∈ successors i.
Proof.
  unfold transfer_of, successors, targets; destruct (data i); try done; intros [= <-]; apply elem_of_app; left.
  - by apply list_elem_of_singleton.
  - destruct (cond_holds _ _); apply elem_of_cons; [by left | right; by apply list_elem_of_singleton].
Qed.

(** Control leaves a block at one of its instructions. *)
Lemma run_insns_goto l ρ w bb ρ' w' :
  run_insns l ρ w = (GoTo bb, ρ', w') -> exists i, i ∈ l /\ bb ∈ successors i.
Proof.
  revert ρ w; induction l as [| i l IH]; intros ρ w; cbn [run_insns]; [done |].
  destruct (fault_of i ρ w) as [e |] eqn:Ef.
  { intros [= -> _ _]; exists i; split; [apply elem_of_cons; by left | by eapply fault_goto]. }
  destruct (transfer_of i ρ) as [e |] eqn:Et.
  { intros [= -> _ _]; exists i; split; [apply elem_of_cons; by left | by eapply transfer_goto]. }
  destruct (exec_regs i ρ w) as [ρ1 w1]; intros (j & Hj & ?)%IH; exists j; split; [apply elem_of_cons; by right | done].
Qed.

(** ** Graphs that run in lockstep *)

(** No virtual register. *)
Definition no_vregs (v : nat) : Prop := False.

(** What is seen of two executions of a block: they leave it alike, with the
    same world, in states related by [R] where the next block begins. *)
Definition matching (R : BlockPtr -> regfile -> regfile -> Prop) (o1 o2 : Exit V * regfile * W) : Prop :=
  o1.1.1 = o2.1.1 /\ o1.2 = o2.2 /\
  match o1.1.1 with GoTo bb => R bb o1.1.2 o2.1.2 | _ => agree no_vregs o1.1.2 o2.1.2 end.

(** From states related by [R], every execution of one graph that leaves it is
    one of the other, with the same exit, the same world and the same values of
    the registers that are not virtual. *)
Definition same_runs (ir ir' : MachineIR) (bb bb' : BlockPtr) (ρ ρ' : regfile) (w : W) : Prop :=
  (forall e ρ1 w1, runs ir bb ρ w e ρ1 w1 -> exists ρ2, runs ir' bb' ρ' w e ρ2 w1 /\ agree no_vregs ρ1 ρ2) /\
  (forall e ρ2 w1, runs ir' bb' ρ' w e ρ2 w1 -> exists ρ1, runs ir bb ρ w e ρ1 w1 /\ agree no_vregs ρ1 ρ2).

Lemma lockstep_forward ir ir' (R : BlockPtr -> regfile -> regfile -> Prop) :
  (forall bb ρ1 ρ2, R bb ρ1 ρ2 -> exists b b', blocks ir !! bb = Some b /\ blocks ir' !! bb = Some b' /\
     forall w, matching R (run_insns (insn_list b) ρ1 w) (run_insns (insn_list b') ρ2 w)) ->
  forall bb ρ1 w e ρ1' w', runs ir bb ρ1 w e ρ1' w' -> forall ρ2, R bb ρ1 ρ2 ->
  exists ρ2', runs ir' bb ρ2 w e ρ2' w' /\ agree no_vregs ρ1' ρ2'.
Proof.
  intros HR bb ρ1 w e ρ1' w'; induction 1 as [bb b ρ w e ρ' w' Hb Hrun He | bb b ρ w bb' ρ' w' e ρ'' w'' Hb Hrun _ IH]; intros ρ2 Hr;
    destruct (HR bb ρ ρ2 Hr) as (b1 & b2 & Hb1 & Hb2 & Hm); specialize (Hm w);
    assert (b1 = b) as -> by congruence; rewrite Hrun in Hm;
    destruct (run_insns (insn_list b2) ρ2 w) as [[e2 ρ2'] w2] eqn:E2; destruct Hm as (He2 & Hw2 & Hr2); cbn in *; subst.
  - exists ρ2'; split; [by eapply runs_exit | by destruct e2].
  - destruct (IH ρ2' Hr2) as (ρ3 & Hruns & Ha); exists ρ3; split; [by eapply runs_goto | done].
Qed.

Lemma lockstep ir ir' (R : BlockPtr -> regfile -> regfile -> Prop) :
  (forall bb ρ1 ρ2, R bb ρ1 ρ2 -> exists b b', blocks ir !! bb = Some b /\ blocks ir' !! bb = Some b' /\
     forall w, matching R (run_insns (insn_list b) ρ1 w) (run_insns (insn_list b') ρ2 w)) ->
  forall bb ρ1 ρ2 w, R bb ρ1 ρ2 -> same_runs ir ir' bb bb ρ1 ρ2 w.
Proof.
  intros HR bb ρ1 ρ2 w Hr; split; intros e ρ w1 Hruns; [by eapply lockstep_forward |].
  destruct (lockstep_forward ir' ir (fun bb ρ ρ' => R bb ρ' ρ)) with (bb := bb) (ρ1 := ρ2) (w := w) (e := e) (ρ1' := ρ) (w' := w1) (ρ2 := ρ1)
    as (ρ' & ? & ?); try done; [| exists ρ'; split; [done | by apply agree_sym]].
  intros bb' ρa ρb Hab; destruct (HR bb' ρb ρa Hab) as (b & b' & ? & ? & Hm); exists b', b; conjs; try done; intros w'.
  destruct (Hm w') as (E1 & E2 & E3); split; [done |]; split; [done |]; rewrite <- E1.
  destruct (run_insns (insn_list b) ρb w') as [[[] ?] ?]; cbn in *; try done; by apply agree_sym.
Qed.

End Sem.

(** The machine with one value and one world, for what does not depend on what
    is computed. *)
Definition unit_sem : MachineSem unit unit :=
  {| exec_insn := fun _ _ _ w => (fun _ => tt, w); insn_faults := fun _ _ _ _ => false; cond_holds := fun _ _ => true; default_value := tt |}.

Lemma unit_sem_ok : @MachineSemOk unit unit unit_sem.
Proof. split; [done |]; intros ks [] w; done. Qed.
