(* ===== verification/DeadCode.v ===== *)
(** * Removal of dead code

    [RemoveDeadCode] of [x86_64/machine_ir_opt.cc], and the proof that it
    preserves what the graph computes.

    [VRegBitSet::Clear] calls [clear()] of the vector of bits, which makes its
    size 0, and the set is indexed afterwards: that is undefined.  What
    [operator[]] reaches then is a parameter, [after_clear].  When the storage
    stays within reach ([keeps_storage]), with whatever bits, the pass is
    correct; by the letter of the standard nothing is within reach
    ([standard_clear]), and the pass fails on every graph that has a virtual
    register to record ([RemoveDeadCode_standard]).  An index out of reach is
    [None]. *)
From stdpp Require Import gmap list.
From S2P Require Import Prelude MachineIR Lifetime LifetimeAnalysis Liveness MachineIRCheck MachineSem.
#[local] Open Scope Z_scope.

(** ** The code *)

(** The bits that [operator[]] reaches after [clear()] of a vector. *)
Class VectorClear := after_clear : list bool -> list bool.
Definition keeps_storage (vc : VectorClear) : Prop := forall s, length (after_clear (VectorClear := vc) s) = length s.
Definition standard_clear : VectorClear := fun _ => [].

(** [RegUsageBitSet]: registers that are not virtual are always used. *)
Definition usage_Set (r : MachineReg) (s : VRegBitSet) : option VRegBitSet := if IsVReg r then Set_ r s else Some s.
Definition usage_Reset (r : MachineReg) (s : VRegBitSet) : option VRegBitSet := if IsVReg r then Reset_ r s else Some s.
Definition usage_test (s : VRegBitSet) (r : MachineReg) : option bool := if IsVReg r then test s r else Some true.
Definition usage_Clear `{vc : VectorClear} (s : VRegBitSet) : VRegBitSet := after_clear s.

Fixpoint AreResultsUsed (ops : list (MachineReg * MachineRegKind)) (s : VRegBitSet) : option bool :=
  match ops with
  | [] => Some false
  | (r, k) :: ops =>
      u ← (if IsDef k then usage_test s r else Some false);
      if (u : bool) then Some true else AreResultsUsed ops s
  end.

Fixpoint SetInsnResultsUnused (ops : list (MachineReg * MachineRegKind)) (s : VRegBitSet) : option VRegBitSet :=
  match ops with
  | [] => Some s
  | (r, k) :: ops => s ← (if IsDef k then usage_Reset r s else Some s); SetInsnResultsUnused ops s
  end.

Fixpoint SetInsnArgumentsUsed (ops : list (MachineReg * MachineRegKind)) (s : VRegBitSet) : option VRegBitSet :=
  match ops with
  | [] => Some s
  | (r, k) :: ops => s ← (if IsUse k then usage_Set r s else Some s); SetInsnArgumentsUsed ops s
  end.

(** The walk from the end of the block. *)
Fixpoint remove_dead (l : list MachineInsn) (s : VRegBitSet) : option (list MachineInsn * VRegBitSet) :=
  match l with
  | [] => Some ([], s)
  | i :: l =>
      '(l, s) ← remove_dead l s;
      keep ← (if has_side_effects i then Some true else AreResultsUsed (operands i) s);
      s ← SetInsnResultsUnused (operands i) s;
      if (keep : bool) then s ← SetInsnArgumentsUsed (operands i) s; Some (i :: l, s) else Some (l, s)
  end.

Definition remove_dead_block `{vc : VectorClear} (bb : BlockPtr) (x : MachineIR * VRegBitSet) : option (MachineIR * VRegBitSet) :=
  let '(ir, s) := x in
  b ← blocks ir !! bb;
  s ← for_each usage_Set (live_out b) (usage_Clear s);
  '(l, s) ← remove_dead (insn_list b) s;
  Some (update_block bb (set_insn_list l) ir, s).

Definition RemoveDeadCode `{vc : VectorClear} (ir : MachineIR) : option MachineIR :=
  fst <$> for_each remove_dead_block (bb_list ir) (ir, new_VRegBitSet (num_vreg ir)).

(** ** What is removed *)

(** [l'] is [l] without dead instructions, where the registers [T] are needed
    after it and [T'] before it. *)
Inductive thinned : list MachineInsn -> list MachineInsn -> (nat -> Prop) -> (nat -> Prop) -> Prop :=
  | thin_nil T : thinned [] [] T T
  | thin_keep i l l' T T' : thinned l l' T T' -> thinned (i :: l) (i :: l') T (fun v => reads i v \/ ~ writes i v /\ T' v)
  | thin_drop i l l' T T' : thinned l l' T T' -> has_side_effects i = false ->
      (forall v, writes i v -> ~ T' v) -> (forall r, written (operands i) r -> IsVReg r = true) ->
      thinned (i :: l) l' T T'.

Section Bits.

Lemma usage_test_spec s r b :
  usage_test s r = Some b -> b = false -> exists v, GetVRegIndex r = Some v /\ ~ bit s v.
Proof.
  unfold usage_test, test; destruct (IsVReg r) eqn:Ev; [| congruence].
  apply IsVReg_index in Ev as [v Hv]; rewrite Hv; cbn; unfold bit; intros Hs ->; exists v; split; [done | congruence].
Qed.

Lemma AreResultsUsed_spec ops s :
  AreResultsUsed ops s = Some false -> forall r k, (r, k) ∈ ops -> IsDef k = true -> exists v, GetVRegIndex r = Some v /\ ~ bit s v.
Proof.
  induction ops as [| [r k] ops IH]; cbn [AreResultsUsed]; intros Hu r' k' Hin Hd; [by apply not_elem_of_nil in Hin |].
  destruct (if IsDef k then usage_test s r else Some false) as [b |] eqn:E; cbn [mbind option_bind] in Hu; [| done].
  destruct b; [done |]; apply elem_of_cons in Hin as [[= -> ->] | Hin]; [| by eapply IH].
  rewrite Hd in E; by eapply usage_test_spec.
Qed.

Lemma set_bit_cases b r s s' :
  set_bit b r s = Some s' -> exists v, GetVRegIndex r = Some v /\ (v < length s)%nat /\ s' = <[v := b]> s.
Proof.
  unfold set_bit; destruct (GetVRegIndex r) as [v |]; cbn; [| done]; case_decide; [| done].
  intros [= <-]; by exists v.
Qed.

(** Only the written registers are reset. *)
Lemma SetInsnResultsUnused_spec ops s s' :
  SetInsnResultsUnused ops s = Some s' -> length s' = length s /\
  forall v, bit s v -> (forall r k, (r, k) ∈ ops -> IsDef k = true -> GetVRegIndex r <> Some v) -> bit s' v.
Proof.
  revert s; induction ops as [| [r k] ops IH]; intros s; cbn [SetInsnResultsUnused]; [intros [= <-]; auto |].
  destruct (if IsDef k then usage_Reset r s else Some s) as [s1 |] eqn:E; cbn [mbind option_bind]; [| done].
  intros Hs; destruct (IH _ Hs) as [Hl Hb].
  assert (length s1 = length s /\ forall v, bit s v -> (IsDef k = true -> GetVRegIndex r <> Some v) -> bit s1 v) as [Hl1 Hb1].
  { destruct (IsDef k); [| injection E as ->; auto]; unfold usage_Reset in E; destruct (IsVReg r); [| injection E as ->; auto].
    destruct (set_bit_cases _ _ _ _ E) as (x & Hx & Hlt & ->); split; [apply length_insert |].
    intros v Hv Hn; apply bit_insert; [done |]; right; split; [| done]; intros ->; by apply Hn. }
  split; [congruence |]; intros v Hv Hn; apply Hb; [apply Hb1; [done |] |].
  - intros Hd; apply (Hn r k); [apply elem_of_cons; by left | done].
  - intros r' k' Hin; apply (Hn r' k'), elem_of_cons; by right.
Qed.

(** The registers that are read are set. *)
Lemma SetInsnArgumentsUsed_spec ops s s' :
  SetInsnArgumentsUsed ops s = Some s' -> length s' = length s /\ (forall v, bit s v -> bit s' v) /\
  forall r k v, (r, k) ∈ ops -> IsUse k = true -> GetVRegIndex r = Some v -> bit s' v.
Proof.
  revert s; induction ops as [| [r k] ops IH]; intros s; cbn [SetInsnArgumentsUsed].
  { intros [= <-]; conjs; try done; intros r k v Hin; by apply not_elem_of_nil in Hin. }
  destruct (if IsUse k then usage_Set r s else Some s) as [s1 |] eqn:E; cbn [mbind option_bind]; [| done].
  intros Hs; destruct (IH _ Hs) as (Hl & Hb & Hset).
  assert (length s1 = length s /\ (forall v, bit s v -> bit s1 v) /\
    forall v, IsUse k = true -> GetVRegIndex r = Some v -> bit s1 v) as (Hl1 & Hb1 & Hs1).
  { destruct (IsUse k); [| injection E as ->; conjs; done]; unfold usage_Set in E; destruct (IsVReg r) eqn:Ev.
    - destruct (set_bit_cases _ _ _ _ E) as (x & Hx & Hlt & ->); split; [apply length_insert |]; split.
      + intros v Hv; apply bit_insert; [done |]; destruct (decide (v = x)); [by left | by right].
      + intros v _ Hv; apply bit_insert; [done |]; left; split; congruence.
    - injection E as ->; conjs; try done; intros v _ Hv; assert (IsVReg r = true); [apply IsVReg_index; by eexists | congruence]. }
  conjs; [congruence | auto |]; intros r' k' v [[= -> ->] | Hin]%elem_of_cons Hu Hv; [auto | by eapply Hset].
Qed.

End Bits.

Lemma IsInput_IsUse k : IsInput k = true -> IsUse k = true.
Proof. unfold IsInput, IsUse; by destruct (access k). Qed.

(** The walk is a thinning that keeps every register it knows to be needed. *)
Lemma remove_dead_thins l s l' s' (T : nat -> Prop) :
  remove_dead l s = Some (l', s') -> (forall v, T v -> bit s v) ->
  exists T', thinned l l' T T' /\ (forall v, T' v -> bit s' v) /\ length s' = length s.
Proof.
  revert l' s'; induction l as [| i l IH]; intros l' s'; cbn [remove_dead].
  - intros [= <- <-] HT; exists T; conjs; try done; constructor.
  - destruct (remove_dead l s) as [[l1 s1] |]; cbn [mbind option_bind]; [| done]; intros Hr HT.
    destruct (IH l1 s1 eq_refl HT) as (T' & Hth & HT' & Hl1).
    destruct (if has_side_effects i then _ else _) as [keep |] eqn:Ek; cbn [mbind option_bind] in Hr; [| done].
    destruct (SetInsnResultsUnused (operands i) s1) as [s2 |] eqn:E2; cbn [mbind option_bind] in Hr; [| done].
    destruct (SetInsnResultsUnused_spec _ _ _ E2) as [Hl2 Hb2].
    destruct keep.
    + destruct (SetInsnArgumentsUsed (operands i) s2) as [s3 |] eqn:E3; cbn [mbind option_bind] in Hr; [| done].
      injection Hr as <- <-; destruct (SetInsnArgumentsUsed_spec _ _ _ E3) as (Hl3 & Hb3 & Hs3).
      eexists; conjs; [by apply thin_keep | | congruence]; intros v [(r & k & Hin & Hk & Hv) | [Hnw Hv]].
      * apply (Hs3 r k v); [done | by apply IsInput_IsUse | done].
      * apply Hb3, Hb2; [by apply HT' |]; intros r k Hin Hd Hr; apply Hnw; by exists r, k.
    + injection Hr as <- <-; destruct (has_side_effects i) eqn:Es; [congruence |].
      pose proof (AreResultsUsed_spec _ _ Ek) as Hun.
      assert (Hnone : forall v, writes i v -> ~ T' v).
      { intros v (r & k & Hin & Hd & Hv) Ht; destruct (Hun r k Hin Hd) as (v' & Hv' & Hn); apply Hn.
        assert (v' = v) as -> by congruence; by apply HT'. }
      exists T'; conjs; [apply thin_drop; try done | | congruence].
      * intros r (k & Hin & Hd); destruct (Hun r k Hin Hd) as (v & Hv & _); apply IsVReg_index; by exists v.
      * intros v Hv; apply Hb2; [by apply HT' |]; intros r k Hin Hd Hr; apply (Hnone v); [by exists r, k | done].
Qed.

(** ** It changes nothing *)
Section Sim.
Context {V W : Type} `{!MachineSem V W} `{!MachineSemOk V W}.

(** A control transfer is never dead and writes no register. *)
Definition transfer_ok (i : MachineInsn) : Prop :=
  IsControlTransfer i = true -> has_side_effects i = true /\ forall r, ~ written (operands i) r.

(** The instruction at which control left the block is the first of [post]. *)
Definition left_at (post : list MachineInsn) (e : Exit V) : Prop :=
  match post with
  | [] => e = NoExit
  | i :: _ => forall bb, e = GoTo bb -> bb ∈ successors i
  end.

Lemma thinned_needed l l' T T' v : thinned l l' T T' -> T v -> never_written l v -> T' v.
Proof.
  induction 1 as [| i l l' T T' _ IH | i l l' T T' _ IH _ _ _]; cbn [never_written]; [done | |]; intros Ht [Hn Hl]; auto.
Qed.

Lemma thinned_live_in l l' T T' v : thinned l l' T T' -> T' v -> read_first l v \/ never_written l v /\ T v.
Proof.
  induction 1 as [| i l l' T T' _ IH | i l l' T T' _ IH _ Hn _]; cbn [read_first never_written]; [by right | |].
  - intros [? | [? Ht]]; [by left; left |]; destruct (IH Ht) as [? | [? ?]]; tauto.
  - intros Ht; assert (~ writes i v) by (intros Hw; by apply (Hn v Hw)); destruct (IH Ht) as [? | [? ?]]; tauto.
Qed.

Lemma no_fault i ρ w : has_side_effects i = false -> fault_of (V := V) i ρ w = None.
Proof.
  unfold has_side_effects, fault_of; rewrite !orb_false_iff, !bool_decide_eq_false, negb_false_iff.
  intros [[[_ Hr] ->] _]; destruct (insn_faults _ _ _ _), (recovery_bb i); try done; by destruct Hr.
Qed.

Lemma exec_dead (T : nat -> Prop) i ρ w :
  has_side_effects i = false -> (forall v, writes i v -> ~ T v) -> (forall r, written (operands i) r -> IsVReg r = true) ->
  (exec_regs i ρ w).2 = w /\ agree T (exec_regs i ρ w).1 ρ.
Proof.
  intros Hs Hw Hv; unfold exec_regs; pose proof (pure_world i (inputs_of (operands i) ρ) w Hs) as Hp.
  destruct (exec_insn _ _ _ _) as [out w']; cbn in *; split; [done |].
  intros r Hr; apply write_defs_unwritten; intros Hwr; destruct Hr as [Hr | (v & Hr & Ht)].
  - specialize (Hv r Hwr); congruence.
  - by apply (Hw v), Ht; eapply written_writes.
Qed.

Lemma thinned_sim l l' T T' : thinned l l' T T' -> Forall transfer_ok l ->
  forall ρ1 ρ2 w e ρ1' w', agree T' ρ1 ρ2 -> run_insns l ρ1 w = (e, ρ1', w') ->
  exists ρ2' pre post, run_insns l' ρ2 w = (e, ρ2', w') /\ l = pre ++ post /\
    agree (fun v => T v /\ never_written post v) ρ1' ρ2' /\ left_at post e.
Proof.
  induction 1 as [T | i l l' T T' Hth IH | i l l' T T' Hth IH Hs Hn Hv]; intros Hok ρ1 ρ2 w e ρ1' w' Ha; cbn [run_insns].
  - intros [= <- <- <-]; exists ρ2, [], []; conjs; try done; eapply agree_sub; [| exact Ha]; by intros v [? _].
  - apply Forall_cons in Hok as [_ Hok].
    rewrite <- (fault_agree _ i ρ1 ρ2 w Ha), <- (transfer_agree _ i ρ1 ρ2 Ha) by auto.
    assert (Hhere : agree (fun v => T v /\ never_written (i :: l) v) ρ1 ρ2).
    { eapply agree_sub; [| exact Ha]; intros v [Ht Hnw]; exact (thinned_needed _ _ _ _ v (thin_keep i _ _ _ _ Hth) Ht Hnw). }
    destruct (fault_of i ρ1 w) as [ef |] eqn:Ef.
    { intros [= <- <- <-]; exists ρ2, [], (i :: l); conjs; try done; intros bb ->; by eapply fault_goto. }
    destruct (transfer_of i ρ1) as [et |] eqn:Et.
    { intros [= <- <- <-]; exists ρ2, [], (i :: l); conjs; try done; intros bb ->; by eapply transfer_goto. }
    destruct (exec_agree T' i ρ1 ρ2 w Ha) as [Ew Ha'].
    destruct (exec_regs i ρ1 w) as [ρ1a w1], (exec_regs i ρ2 w) as [ρ2a w2]; cbn in Ew, Ha'; subst w2; intros Hrun.
    destruct (IH Hok _ _ _ _ _ _ Ha' Hrun) as (ρ2' & pre & post & ? & -> & ? & ?); exists ρ2', (i :: pre), post; done.
  - apply Forall_cons in Hok as [Hi Hok]; rewrite no_fault by done.
    rewrite transfer_none by (destruct (IsControlTransfer i) eqn:Ec; [destruct (Hi Ec); congruence | done]).
    destruct (exec_dead T' i ρ1 w Hs Hn Hv) as [Ew Ha']; destruct (exec_regs i ρ1 w) as [ρ1a w1]; cbn in Ew, Ha'; subst w1; intros Hrun.
    destruct (IH Hok ρ1a ρ2 w e ρ1' w') as (ρ2' & pre & post & ? & -> & ? & ?); [by eapply agree_trans | done |].
    exists ρ2', (i :: pre), post; done.
Qed.

(** *** The live-out sets *)

Definition lives_out (b : MachineBasicBlock) (v : nat) : Prop := exists r, r ∈ live_out b /\ GetVRegIndex r = Some v.
Definition lives_in (b : MachineBasicBlock) (v : nat) : Prop :=
  read_first (insn_list b) v \/ never_written (insn_list b) v /\ lives_out b v.

(** The live-out sets solve the equations of liveness: what lives into a
    successor of an instruction lives out of its block, and is not written from
    the instruction on. *)
Record live_out_ok (ir : MachineIR) : Prop := {
  lk_next : forall bb b pre i post t, bb ∈ bb_list ir -> blocks ir !! bb = Some b -> insn_list b = pre ++ i :: post ->
    t ∈ successors i -> t ∈ bb_list ir;
  lk_live : forall bb b pre i post t d v, bb ∈ bb_list ir -> blocks ir !! bb = Some b -> insn_list b = pre ++ i :: post ->
    t ∈ successors i -> blocks ir !! t = Some d -> lives_in d v -> lives_out b v /\ never_written (i :: post) v;
  lk_transfer : forall bb b i, bb ∈ bb_list ir -> blocks ir !! bb = Some b -> i ∈ insn_list b -> transfer_ok i
}.

(** [ir'] is [ir] with its blocks thinned. *)
Definition thinned_ir (ir ir' : MachineIR) : Prop :=
  forall bb, bb ∈ bb_list ir -> exists b b' T', blocks ir !! bb = Some b /\ blocks ir' !! bb = Some b' /\
    thinned (insn_list b) (insn_list b') (lives_out b) T'.

Lemma thinned_same_runs ir ir' bb ρ w :
  live_out_ok ir -> thinned_ir ir ir' -> bb ∈ bb_list ir -> same_runs ir ir' bb bb ρ ρ w.
Proof.
  intros Hok Hth Hbb.
  apply (lockstep ir ir' (fun bb ρ1 ρ2 => bb ∈ bb_list ir /\ forall b, blocks ir !! bb = Some b -> agree (lives_in b) ρ1 ρ2)); [| by split; [| intros; apply agree_refl]].
  intros bb1 ρ1 ρ2 [Hin Ha]; destruct (Hth bb1 Hin) as (b & b' & T' & Hb & Hb' & Ht); exists b, b'; conjs; try done; intros w1.
  destruct (run_insns (insn_list b) ρ1 w1) as [[e ρ1'] w'] eqn:E1.
  destruct (thinned_sim _ _ _ _ Ht) with (ρ1 := ρ1) (ρ2 := ρ2) (w := w1) (e := e) (ρ1' := ρ1') (w' := w')
    as (ρ2' & pre & post & E2 & Hl & Ha' & Hleft); try done.
  { apply Forall_forall; intros i Hi; by eapply lk_transfer. }
  { eapply agree_sub; [| by apply Ha]; intros v Hv; destruct (thinned_live_in _ _ _ _ v Ht Hv); [by left | by right]. }
  rewrite E2; split; [done |]; split; [done |]; cbn [fst snd].
  destruct e as [t | | | |]; cbn [fst]; try (eapply agree_sub; [| exact Ha']; by intros v []).
  destruct post as [| i post]; [by cbn in Hleft |]; pose proof (Hleft t eq_refl) as Hs.
  split; [by eapply lk_next |]; intros d Hd; eapply agree_sub; [| exact Ha']; intros v Hv; by eapply lk_live.
Qed.

End Sim.

(** *** The pass *)

Lemma for_each_Set_spec rs s s' :
  for_each usage_Set rs s = Some s' -> length s' = length s /\ (forall v, bit s v -> bit s' v) /\
  forall r v, r ∈ rs -> GetVRegIndex r = Some v -> bit s' v.
Proof.
  revert s; induction rs as [| r rs IH]; intros s; cbn [for_each].
  { intros [= <-]; conjs; try done; intros r v Hr; by apply not_elem_of_nil in Hr. }
  destruct (usage_Set r s) as [s1 |] eqn:E; cbn [mbind option_bind]; [| done]; intros Hs.
  destruct (SetInsnArgumentsUsed_spec [(r, use_of kGeneralReg64)] s s1) as (Hl1 & Hb1 & Hs1); [cbn; by rewrite E |].
  destruct (IH _ Hs) as (Hl & Hb & Hset); conjs; [congruence | auto |].
  intros r' v [-> | Hin]%elem_of_cons Hv; [| by eapply Hset]; apply Hb; eapply Hs1; [by apply list_elem_of_singleton | done | done].
Qed.

Lemma remove_dead_block_spec `{vc : VectorClear} bb ir s ir' s' :
  remove_dead_block bb (ir, s) = Some (ir', s') ->
  bb_list ir' = bb_list ir /\ (forall bb', bb' <> bb -> blocks ir' !! bb' = blocks ir !! bb') /\
  exists b b' T', blocks ir !! bb = Some b /\ blocks ir' !! bb = Some b' /\
    thinned (insn_list b) (insn_list b') (lives_out b) T'.
Proof.
  unfold remove_dead_block; destruct (blocks ir !! bb) as [b |] eqn:Hb; cbn [mbind option_bind]; [| done].
  destruct (for_each usage_Set _ _) as [s1 |] eqn:E1; cbn [mbind option_bind]; [| done].
  destruct (remove_dead _ _) as [[l s2] |] eqn:E2; cbn [mbind option_bind]; [| done]; intros [= <- <-].
  destruct (for_each_Set_spec _ _ _ E1) as (_ & _ & Hset).
  destruct (remove_dead_thins _ _ _ _ (lives_out b) E2) as (T' & Hth & _ & _).
  { intros v (r & Hr & Hv); by eapply Hset. }
  conjs; [done | |].
  - intros bb' Hne; cbn; by rewrite lookup_alter_ne.
  - exists b, (set_insn_list l b), T'; conjs; try done; cbn; by rewrite lookup_alter_eq, Hb.
Qed.

Lemma for_each_remove_dead `{vc : VectorClear} l ir s ir' s' :
  NoDup l -> for_each remove_dead_block l (ir, s) = Some (ir', s') ->
  bb_list ir' = bb_list ir /\ (forall bb, bb ∉ l -> blocks ir' !! bb = blocks ir !! bb) /\
  forall bb, bb ∈ l -> exists b b' T', blocks ir !! bb = Some b /\ blocks ir' !! bb = Some b' /\
    thinned (insn_list b) (insn_list b') (lives_out b) T'.
Proof.
  revert ir s; induction l as [| bb l IH]; intros ir s Hnd; cbn [for_each].
  { intros [= <- <-]; conjs; try done; intros bb Hbb; by apply not_elem_of_nil in Hbb. }
  apply NoDup_cons in Hnd as [Hnb Hnd].
  destruct (remove_dead_block bb (ir, s)) as [[ir1 s1] |] eqn:E; cbn [mbind option_bind]; [| done]; intros Hf.
  destruct (remove_dead_block_spec _ _ _ _ _ E) as (Hl1 & Ho1 & b & b' & T' & Hb & Hb' & Ht).
  destruct (IH _ _ Hnd Hf) as (Hl2 & Ho2 & Hin2); conjs; [congruence | |].
  - intros bb' [Hne Hn]%not_elem_of_cons; rewrite Ho2, Ho1; done.
  - intros bb' [-> | Hin]%elem_of_cons.
    + exists b, b', T'; conjs; try done; by rewrite Ho2.
    + destruct (Hin2 bb' Hin) as (c & c' & Tc & Hc & ? & ?); exists c, c', Tc; conjs; try done.
      rewrite <- Hc, Ho1; [done |]; intros ->; done.
Qed.

(** It never indexes outside of the storage. *)
Definition reg_in (n : nat) (r : MachineReg) : Prop := forall v, GetVRegIndex r = Some v -> (v < n)%nat.

Lemma set_bit_total b r s : IsVReg r = true -> reg_in (length s) r -> exists s', set_bit b r s = Some s' /\ length s' = length s.
Proof.
  intros [v Hv]%IsVReg_index Hr; rewrite (set_bit_spec b r v s Hv (Hr v Hv)); eexists; split; [done | apply length_insert].
Qed.

Lemma usage_Set_total r s : reg_in (length s) r -> exists s', usage_Set r s = Some s' /\ length s' = length s.
Proof. intros Hr; unfold usage_Set; destruct (IsVReg r) eqn:Ev; [by apply set_bit_total | by exists s]. Qed.

Lemma usage_Reset_total r s : reg_in (length s) r -> exists s', usage_Reset r s = Some s' /\ length s' = length s.
Proof. intros Hr; unfold usage_Reset; destruct (IsVReg r) eqn:Ev; [by apply set_bit_total | by exists s]. Qed.

Lemma for_each_total {A} (f : A -> VRegBitSet -> option VRegBitSet) (P : A -> Prop) n l s :
  (forall a s, P a -> length s = n -> exists s', f a s = Some s' /\ length s' = n) ->
  (forall a, a ∈ l -> P a) -> length s = n -> exists s', for_each f l s = Some s' /\ length s' = n.
Proof.
  intros Hf; revert s; induction l as [| a l IH]; intros s HP Hs; cbn [for_each]; [by exists s |].
  destruct (Hf a s) as (s1 & -> & Hs1); [apply HP, elem_of_cons; by left | done |]; cbn [mbind option_bind].
  apply IH; [intros; apply HP, elem_of_cons; by right | done].
Qed.

Lemma SetInsnResultsUnused_total ops s :
  (forall o, o ∈ ops -> reg_in (length s) o.1) -> exists s', SetInsnResultsUnused ops s = Some s' /\ length s' = length s.
Proof.
  revert s; induction ops as [| [r k] ops IH]; intros s Hin; cbn [SetInsnResultsUnused]; [by exists s |].
  assert (exists s', (if IsDef k then usage_Reset r s else Some s) = Some s' /\ length s' = length s) as (s1 & -> & Hl).
  { destruct (IsDef k); [| by exists s]; apply usage_Reset_total, (Hin (r, k)), elem_of_cons; by left. }
  cbn [mbind option_bind]; rewrite <- Hl; apply IH; rewrite Hl; intros; apply Hin, elem_of_cons; by right.
Qed.

Lemma SetInsnArgumentsUsed_total ops s :
  (forall o, o ∈ ops -> reg_in (length s) o.1) -> exists s', SetInsnArgumentsUsed ops s = Some s' /\ length s' = length s.
Proof.
  revert s; induction ops as [| [r k] ops IH]; intros s Hin; cbn [SetInsnArgumentsUsed]; [by exists s |].
  assert (exists s', (if IsUse k then usage_Set r s else Some s) = Some s' /\ length s' = length s) as (s1 & -> & Hl).
  { destruct (IsUse k); [| by exists s]; apply usage_Set_total, (Hin (r, k)), elem_of_cons; by left. }
  cbn [mbind option_bind]; rewrite <- Hl; apply IH; rewrite Hl; intros; apply Hin, elem_of_cons; by right.
Qed.

Lemma AreResultsUsed_total ops s : (forall o, o ∈ ops -> reg_in (length s) o.1) -> is_Some (AreResultsUsed ops s).
Proof.
  induction ops as [| [r k] ops IH]; intros Hin; cbn [AreResultsUsed]; [by eexists |].
  assert (exists b, (if IsDef k then usage_test s r else Some false) = Some b) as (b & ->).
  { destruct (IsDef k); [| by exists false]; unfold usage_test, test; destruct (IsVReg r) eqn:Ev; [| by exists true].
    apply IsVReg_index in Ev as [v Hv]; rewrite Hv; cbn; apply lookup_lt_is_Some_2, (Hin (r, k)); [apply elem_of_cons; by left | done]. }
  cbn [mbind option_bind]; destruct b; [by eexists |]; apply IH; intros; apply Hin, elem_of_cons; by right.
Qed.

Lemma remove_dead_total l s :
  (forall i o, i ∈ l -> o ∈ operands i -> reg_in (length s) o.1) ->
  exists l' s', remove_dead l s = Some (l', s') /\ length s' = length s.
Proof.
  induction l as [| i l IH]; intros Hin; cbn [remove_dead]; [by exists [], s |].
  destruct IH as (l1 & s1 & -> & Hl1); [intros j o Hj; apply Hin, elem_of_cons; by right |]; cbn [mbind option_bind].
  assert (Hi : forall o, o ∈ operands i -> reg_in (length s1) o.1) by (rewrite Hl1; intros o; apply Hin, elem_of_cons; by left).
  assert (exists keep, (if has_side_effects i then Some true else AreResultsUsed (operands i) s1) = Some keep) as (keep & ->).
  { destruct (has_side_effects i); [by eexists | by apply AreResultsUsed_total]. }
  destruct (SetInsnResultsUnused_total (operands i) s1 Hi) as (s2 & -> & Hl2); cbn [mbind option_bind].
  destruct keep; [| exists l1, s2; split; [done | congruence]].
  destruct (SetInsnArgumentsUsed_total (operands i) s2) as (s3 & -> & Hl3); [by rewrite Hl2 |].
  exists (i :: l1), s3; split; [done | congruence].
Qed.

(** Registers handed out by [AllocVReg] only. *)
Record regs_in_range (ir : MachineIR) : Prop := {
  rr_insns : forall bb b i o, bb ∈ bb_list ir -> blocks ir !! bb = Some b -> i ∈ insn_list b -> o ∈ operands i ->
    reg_in (num_vreg ir) o.1;
  rr_live_out : forall bb b r, bb ∈ bb_list ir -> blocks ir !! bb = Some b -> r ∈ live_out b -> reg_in (num_vreg ir) r;
  rr_blocks : forall bb, bb ∈ bb_list ir -> is_Some (blocks ir !! bb)
}.

Lemma RemoveDeadCode_total `{vc : VectorClear} ir : keeps_storage vc -> NoDup (bb_list ir) -> regs_in_range ir -> is_Some (RemoveDeadCode ir).
Proof.
  intros Hvc Hnd Hr; unfold RemoveDeadCode; apply fmap_is_Some.
  assert (Hgo : forall l ir1 s, NoDup l -> (forall bb, bb ∈ l -> bb ∈ bb_list ir /\ blocks ir1 !! bb = blocks ir !! bb) ->
    length s = num_vreg ir -> is_Some (for_each remove_dead_block l (ir1, s))).
  { clear Hnd; induction l as [| bb l IH]; intros ir1 s Hnd Hin Hs; cbn [for_each]; [by eexists |].
    apply NoDup_cons in Hnd as [Hnb Hnd]; destruct (Hin bb ltac:(apply elem_of_cons; by left)) as [Hbb Heq].
    destruct (rr_blocks _ Hr bb Hbb) as [b Hb]; cbn [remove_dead_block]; rewrite Heq, Hb; cbn [mbind option_bind].
    destruct (for_each_total usage_Set (reg_in (num_vreg ir)) (num_vreg ir) (live_out b) (usage_Clear s)) as (s1 & -> & Hs1); [| | by rewrite <- Hs; apply Hvc |].
    { intros r s0 Hr0 Hl0; rewrite <- Hl0; apply usage_Set_total; by rewrite Hl0. }
    { intros r; by eapply rr_live_out. }
    cbn [mbind option_bind]; destruct (remove_dead_total (insn_list b) s1) as (l' & s2 & -> & Hs2).
    { rewrite Hs1; intros i o; by eapply rr_insns. }
    cbn [mbind option_bind]; apply IH; [done | | congruence].
    intros bb' Hin'; destruct (Hin bb' ltac:(apply elem_of_cons; by right)) as [? Heq']; split; [done |].
    cbn; rewrite lookup_alter_ne; [done |]; intros ->; done. }
  apply Hgo; [done | done | apply length_replicate].
Qed.

Lemma RemoveDeadCode_thins `{vc : VectorClear} ir :
  keeps_storage vc -> NoDup (bb_list ir) -> regs_in_range ir -> exists ir', RemoveDeadCode ir = Some ir' /\ bb_list ir' = bb_list ir /\ thinned_ir ir ir'.
Proof.
  intros Hvc Hnd Hr; destruct (RemoveDeadCode_total ir Hvc Hnd Hr) as [ir' E]; exists ir'; split; [done |].
  unfold RemoveDeadCode in E; destruct (for_each _ _ _) as [[ir1 s1] |] eqn:Ef; [| done]; injection E as <-.
  destruct (for_each_remove_dead _ _ _ _ _ Hnd Ef) as (? & _ & Hin); split; [done |]; intros bb Hbb; by apply Hin.
Qed.

(** *** The letter of the standard *)

(** The pass records a virtual register at the block. *)
Definition records (b : MachineBasicBlock) : Prop :=
  (exists r, r ∈ live_out b /\ IsVReg r = true)
  \/ exists i r k, i ∈ insn_list b /\ (r, k) ∈ operands i /\ IsDef k = true /\ IsVReg r = true.

Lemma set_bit_empty b r : set_bit b r [] = None.
Proof. unfold set_bit; destruct (GetVRegIndex r) as [v |]; cbn; [| done]; case_decide as Hv; [by cbn in Hv; lia | done]. Qed.

Lemma length_0 {A} (l : list A) : length l = length (@nil A) -> l = [].
Proof. by destruct l. Qed.

Lemma SetInsnResultsUnused_empty ops r k : (r, k) ∈ ops -> IsDef k = true -> IsVReg r = true -> SetInsnResultsUnused ops [] = None.
Proof.
  induction ops as [| [r' k'] ops IH]; cbn [SetInsnResultsUnused]; intros Hin Hk Hr; [by apply not_elem_of_nil in Hin |].
  apply elem_of_cons in Hin as [[= <- <-] | Hin]; [by unfold usage_Reset, Reset_; rewrite Hk, Hr, set_bit_empty |].
  destruct (IsDef k'); [| by apply IH]; unfold usage_Reset, Reset_; destruct (IsVReg r'); [by rewrite set_bit_empty | by apply IH].
Qed.

Lemma remove_dead_empty l i r k :
  i ∈ l -> (r, k) ∈ operands i -> IsDef k = true -> IsVReg r = true -> remove_dead l [] = None.
Proof.
  intros Hi Ho Hk Hr; induction l as [| j l IH]; cbn [remove_dead]; [by apply not_elem_of_nil in Hi |].
  destruct (remove_dead l []) as [[l1 s1] |] eqn:E; cbn [mbind option_bind]; [| done].
  destruct (remove_dead_thins _ _ _ _ (fun _ => False) E) as (_ & _ & _ & ->%length_0); [done |].
  apply elem_of_cons in Hi as [<- | Hi]; [| by discriminate (IH Hi)].
  destruct (if has_side_effects i then _ else _); cbn [mbind option_bind]; [| done]; by erewrite SetInsnResultsUnused_empty.
Qed.

Lemma for_each_Set_empty rs r : r ∈ rs -> IsVReg r = true -> for_each usage_Set rs [] = None.
Proof.
  intros Hin Hr; induction rs as [| r' rs IH]; cbn [for_each]; [by apply not_elem_of_nil in Hin |]; unfold usage_Set, Set_.
  destruct (IsVReg r') eqn:E; [by rewrite set_bit_empty |]; apply elem_of_cons in Hin as [-> | Hin]; [congruence | by apply IH].
Qed.

Lemma remove_dead_block_standard bb b ir s :
  blocks ir !! bb = Some b -> records b -> remove_dead_block (vc := standard_clear) bb (ir, s) = None.
Proof.
  intros Hb Hr; cbn [remove_dead_block]; rewrite Hb; cbn [mbind option_bind]; unfold usage_Clear, after_clear, standard_clear.
  destruct Hr as [(r & Hin & Hr) | (i & r & k & Hi & Ho & Hk & Hr)]; [by erewrite for_each_Set_empty |].
  destruct (for_each usage_Set _ _) as [s1 |] eqn:E; cbn [mbind option_bind]; [| done].
  destruct (for_each_Set_spec _ _ _ E) as [->%length_0 _]; by erewrite remove_dead_empty.
Qed.

(** When [clear()] leaves nothing within reach, the pass indexes the vector out
    of its range on every graph with a virtual register in a live-out set or
    among the results of an instruction. *)
Theorem RemoveDeadCode_standard ir bb b :
  NoDup (bb_list ir) -> bb ∈ bb_list ir -> blocks ir !! bb = Some b -> records b ->
  RemoveDeadCode (vc := standard_clear) ir = None.
Proof.
  intros Hnd Hin Hb Hr; unfold RemoveDeadCode; generalize (new_VRegBitSet (num_vreg ir)) as s.
  enough (forall l ir1 s, NoDup l -> bb ∈ l -> blocks ir1 !! bb = Some b -> for_each (remove_dead_block (vc := standard_clear)) l (ir1, s) = None)
    as Hgo by (intros s; by rewrite Hgo).
  clear Hnd Hin Hb; induction l as [| bb' l IH]; intros ir1 s Hnd Hin Hb; [by apply not_elem_of_nil in Hin |]; cbn [for_each].
  apply NoDup_cons in Hnd as [Hn Hnd]; apply elem_of_cons in Hin as [<- | Hin]; [by erewrite remove_dead_block_standard |].
  destruct (remove_dead_block _ _) as [[ir2 s2] |] eqn:E; cbn [mbind option_bind]; [| done].
  apply IH; [done | done |]; destruct (remove_dead_block_spec _ _ _ _ _ E) as (_ & Ho & _); rewrite Ho; [done | by intros ->].
Qed.

