(* ===== verification/BlockOrder.v ===== *)
(** * Passes over the list of blocks and over copies

    [RemoveNopPseudoCopy] and [MoveColdBlocksToEnd] of
    [src/backend/common/machine_ir_opt.cc]. *)
From stdpp Require Import gmap list.
From S2P Require Import Prelude MachineIR Lifetime LifetimeAnalysis Liveness MachineSem.
#[local] Open Scope Z_scope.

(** ** Copies from a register to itself *)

(** The predicate of [remove_if]. *)
Definition nop_copy (i : MachineInsn) : option bool :=
  match data i with
  | PseudoCopy => dst ← RegAt i 0; src ← RegAt i 1; Some (dst =? src)
  | _ => Some false
  end.

Fixpoint remove_if_insn (f : MachineInsn -> option bool) (l : list MachineInsn) : option (list MachineInsn) :=
  match l with
  | [] => Some []
  | i :: l => r ← f i; l ← remove_if_insn f l; Some (if (r : bool) then l else i :: l)
  end.

(** One block rewritten by [f]. *)
Definition rewrite_block (f : MachineBasicBlock -> option (list MachineInsn)) (bb : BlockPtr) (ir : MachineIR)
    : option MachineIR :=
  b ← blocks ir !! bb; l ← f b; Some (update_block bb (set_insn_list l) ir).

Definition RemoveNopPseudoCopy (ir : MachineIR) : option MachineIR :=
  for_each (rewrite_block (fun b => remove_if_insn nop_copy (insn_list b))) (bb_list ir) ir.

Lemma rewrite_blocks_total f l ir :
  NoDup l -> (forall bb, bb ∈ l -> exists b, blocks ir !! bb = Some b /\ is_Some (f b)) ->
  is_Some (for_each (rewrite_block f) l ir).
Proof.
  revert ir; induction l as [| bb l IH]; intros ir Hnd Hall; cbn [for_each]; [by eexists |].
  apply NoDup_cons in Hnd as [Hnb Hnd]; destruct (Hall bb ltac:(apply elem_of_cons; by left)) as (b & Hb & l' & Hf).
  assert (rewrite_block f bb ir = Some (update_block bb (set_insn_list l') ir)) as ->.
  { unfold rewrite_block; rewrite Hb; cbn; by rewrite Hf. }
  cbn [mbind option_bind]; apply IH; [done |]; intros bb' Hin.
  destruct (Hall bb' ltac:(apply elem_of_cons; by right)) as (b' & Hb' & ?); exists b'; split; [| done].
  cbn; rewrite lookup_alter_ne; [done |]; intros ->; done.
Qed.

Lemma rewrite_blocks_spec f l ir ir' :
  NoDup l -> for_each (rewrite_block f) l ir = Some ir' ->
  bb_list ir' = bb_list ir /\ (forall bb, bb ∉ l -> blocks ir' !! bb = blocks ir !! bb) /\
  forall bb, bb ∈ l -> exists b l', blocks ir !! bb = Some b /\ f b = Some l' /\ blocks ir' !! bb = Some (set_insn_list l' b).
Proof.
  revert ir; induction l as [| bb l IH]; intros ir Hnd; cbn [for_each].
  { intros [= <-]; conjs; try done; intros bb Hbb; by apply not_elem_of_nil in Hbb. }
  apply NoDup_cons in Hnd as [Hnb Hnd].
  destruct (rewrite_block f bb ir) as [ir1 |] eqn:E; cbn [mbind option_bind]; [| done]; intros He; unfold rewrite_block in E.
  destruct (blocks ir !! bb) as [b |] eqn:Hb; cbn [mbind option_bind] in E; [| done].
  destruct (f b) as [l' |] eqn:Hf; cbn [mbind option_bind] in E; [| done]; injection E as <-.
  destruct (IH _ Hnd He) as (H1 & H2 & H3); conjs; [done | |].
  - intros bb' [Hne Hn]%not_elem_of_cons; rewrite H2 by done; cbn; by rewrite lookup_alter_ne.
  - intros bb' [-> | Hin]%elem_of_cons.
    + exists b, l'; conjs; try done; rewrite H2 by done; cbn; by rewrite lookup_alter_eq, Hb.
    + destruct (H3 bb' Hin) as (c & lc & Hc & ? & ?); exists c, lc; conjs; try done.
      cbn in Hc; rewrite lookup_alter_ne in Hc; [done |]; intros ->; done.
Qed.

(** A copy as its constructor makes it. *)
Definition copy_ok (i : MachineInsn) : Prop :=
  data i = PseudoCopy -> recovery_bb i = None /\ recovery_pc i = kNullGuestAddr /\
  exists dst src c, regs i = [dst; src] /\ reg_kinds i = [def_of c; use_of c].

Section Copies.
Context {V W : Type} `{!MachineSem V W} `{!MachineSemOk V W}.

Definition all_vregs (v : nat) : Prop := True.

Lemma agree_all (ρ ρ' : MachineReg -> V) : agree all_vregs ρ ρ' <-> forall r, ρ r = ρ' r.
Proof.
  split; [| by intros H r _]; intros H r; apply H; destruct (IsVReg r) eqn:E; [right | by left].
  apply IsVReg_index in E as [v Hv]; by exists v.
Qed.

Lemma exec_copy i dst src c (ρ : MachineReg -> V) (w : W) :
  data i = PseudoCopy -> regs i = [dst; src] -> reg_kinds i = [def_of c; use_of c] ->
  (exec_regs i ρ w).2 = w /\ forall r, (exec_regs i ρ w).1 r = set_reg dst (ρ src) ρ r.
Proof.
  intros Hd Hr Hk; unfold exec_regs, operands; rewrite Hd, Hr, Hk; cbn [zip inputs_of IsInput].
  destruct (copy_value [def_of c; use_of c] (ρ src) w) as [H1 H2]; cbn in *.
  destruct (exec_insn _ _ _ _) as [out w']; cbn in *; by rewrite H1.
Qed.

Lemma copy_falls_through i (ρ : MachineReg -> V) (w : W) :
  copy_ok i -> data i = PseudoCopy -> fault_of i ρ w = None /\ transfer_of i ρ = None.
Proof.
  intros Hok Hd; destruct (Hok Hd) as (Hb & Hp & _); split; [| unfold transfer_of; by rewrite Hd].
  unfold fault_of; rewrite Hb, Hp, Z.eqb_refl; by destruct (insn_faults _ _ _ _).
Qed.

(** The same instruction on both sides. *)
Lemma run_cons_matching i l l' (ρ1 ρ2 : MachineReg -> V) (w : W) :
  agree all_vregs ρ1 ρ2 ->
  (forall ρ1 ρ2 w, agree all_vregs ρ1 ρ2 -> matching (fun _ => agree all_vregs) (run_insns l ρ1 w) (run_insns l' ρ2 w)) ->
  matching (fun _ => agree all_vregs) (run_insns (i :: l) ρ1 w) (run_insns (i :: l') ρ2 w).
Proof.
  intros Ha Hl; cbn [run_insns].
  rewrite <- (fault_agree _ i ρ1 ρ2 w Ha), <- (transfer_agree _ i ρ1 ρ2 Ha) by done.
  assert (Hhere : forall e, matching (fun _ => agree all_vregs) (e, ρ1, w) (e, ρ2, w)).
  { intros e; split; [done |]; split; [done |]; destruct e; cbn; try done; (eapply agree_sub; [| exact Ha]); done. }
  destruct (fault_of i ρ1 w); [apply Hhere |]; destruct (transfer_of i ρ1); [apply Hhere |].
  destruct (exec_agree all_vregs i ρ1 ρ2 w) as [Ew Hr]; [eapply agree_sub; [| exact Ha]; done |].
  destruct (exec_regs i ρ1 w), (exec_regs i ρ2 w); cbn in *; subst; by apply Hl.
Qed.

Lemma remove_nop_sim l l' : remove_if_insn nop_copy l = Some l' -> Forall copy_ok l ->
  forall (ρ1 ρ2 : MachineReg -> V) (w : W), agree all_vregs ρ1 ρ2 ->
  matching (fun _ => agree all_vregs) (run_insns l ρ1 w) (run_insns l' ρ2 w).
Proof.
  revert l'; induction l as [| i l IH]; intros l'; cbn [remove_if_insn].
  { intros [= <-] _ ρ1 ρ2 w Ha; split; [done |]; split; [done |]; eapply agree_sub; [| exact Ha]; done. }
  destruct (nop_copy i) as [b |] eqn:En; cbn [mbind option_bind]; [| done].
  destruct (remove_if_insn nop_copy l) as [l1 |]; cbn [mbind option_bind]; [| done].
  intros [= <-] [Hi Hl]%Forall_cons ρ1 ρ2 w Ha; destruct b.
  - assert (data i = PseudoCopy) as Hd by (unfold nop_copy in En; by destruct (data i)).
    destruct (Hi Hd) as (_ & _ & dst & src & c & Hr & Hk); destruct (copy_falls_through i ρ1 w Hi Hd) as [Ef Et].
    cbn [run_insns]; rewrite Ef, Et; destruct (exec_copy i dst src c ρ1 w Hd Hr Hk) as [Ew Eρ].
    destruct (exec_regs i ρ1 w) as [ρ1' w']; cbn in Ew, Eρ; subst w'; apply IH; [done | done |].
    unfold nop_copy in En; rewrite Hd in En; unfold RegAt in En; rewrite Hr in En; cbn in En; injection En as En%Z.eqb_eq.
    apply agree_all; intros r; rewrite Eρ, <- (proj1 (agree_all _ _) Ha); unfold set_reg; case_decide; congruence.
  - apply run_cons_matching; [done |]; intros; by apply IH.
Qed.

End Copies.

(** The branches of the graph stay in it. *)
Definition closed (ir : MachineIR) : Prop :=
  forall bb b i t, bb ∈ bb_list ir -> blocks ir !! bb = Some b -> i ∈ insn_list b -> t ∈ successors i -> t ∈ bb_list ir.

(** Removing the copies from a register to itself changes nothing that can
    be seen, from any block and state. *)
Theorem RemoveNopPseudoCopy_preserves {V W : Type} `{!MachineSem V W} `{!MachineSemOk V W} (ir : MachineIR) :
  NoDup (bb_list ir) -> closed ir ->
  (forall bb, bb ∈ bb_list ir -> exists b, blocks ir !! bb = Some b /\ Forall copy_ok (insn_list b)) ->
  exists ir', RemoveNopPseudoCopy ir = Some ir' /\
    (forall bb b i, bb ∈ bb_list ir -> blocks ir' !! bb = Some b -> i ∈ insn_list b -> nop_copy i = Some false) /\
    forall bb (ρ : MachineReg -> V) (w : W), bb ∈ bb_list ir -> same_runs ir ir' bb bb ρ ρ w.
Proof.
  intros Hnd Hcl Hall.
  assert (Hf : forall l, Forall copy_ok l -> exists l', remove_if_insn nop_copy l = Some l' /\ l' ⊆ l /\ Forall (fun i => nop_copy i = Some false) l').
  { induction 1 as [| i l Hi _ (l' & E & Hs & Hn)]; cbn [remove_if_insn]; [by exists [] |].
    assert (is_Some (nop_copy i)) as [b Eb].
    { unfold nop_copy; destruct (data i) eqn:Hd; try (by eexists); destruct (Hi Hd) as (_ & _ & d & s & c & Hr & _).
      unfold RegAt; rewrite Hr; by eexists. }
    rewrite Eb; cbn [mbind option_bind]; rewrite E; cbn [mbind option_bind]; eexists; split; [done |]; destruct b; split; try done.
    - intros x Hx; apply elem_of_cons; right; by apply Hs.
    - intros x [-> | Hx]%elem_of_cons; apply elem_of_cons; [by left | right; by apply Hs].
    - by constructor. }
  destruct (rewrite_blocks_total (fun b => remove_if_insn nop_copy (insn_list b)) (bb_list ir) ir Hnd) as [ir' E].
  { intros bb Hbb; destruct (Hall bb Hbb) as (b & Hb & Hc); exists b; split; [done |]; destruct (Hf _ Hc) as (l' & -> & _); by eexists. }
  exists ir'; split; [done |]; destruct (rewrite_blocks_spec _ _ _ _ Hnd E) as (_ & _ & Hin); split.
  - intros bb b i Hbb Hb Hi; destruct (Hin bb Hbb) as (c & l' & Hc & El & Hb'); rewrite Hb in Hb'; injection Hb' as ->.
    destruct (Hall bb Hbb) as (c' & Hc' & Hok); assert (c' = c) as -> by congruence.
    destruct (Hf _ Hok) as (l2 & El2 & _ & Hn); assert (l2 = l') as -> by congruence; rewrite Forall_forall in Hn; by apply Hn.
  - intros bb ρ w Hbb; apply (lockstep ir ir' (fun bb ρ1 ρ2 => bb ∈ bb_list ir /\ agree all_vregs ρ1 ρ2)); [| done].
    intros bb1 ρ1 ρ2 [Hbb1 Ha]; destruct (Hin bb1 Hbb1) as (b & l' & Hb & El & Hb'); exists b, (set_insn_list l' b); conjs; try done.
    destruct (Hall bb1 Hbb1) as (b0 & Hb0 & Hok); assert (b0 = b) as -> by congruence; intros w1; cbn [insn_list set_insn_list].
    pose proof (remove_nop_sim _ _ El Hok ρ1 ρ2 w1 Ha) as Hm; destruct (run_insns (insn_list b) ρ1 w1) as [[e ρ'] w'] eqn:Er.
    destruct Hm as (H1 & H2 & H3); split; [done |]; split; [done |]; cbn in *; destruct e; try done; split; [| done].
    destruct (run_insns_goto _ _ _ _ _ _ Er) as (i & Hi & Hs); by eapply Hcl.
Qed.

(** ** Recovery blocks last *)

Definition swap {A} (n i : nat) (l : list A) : option (list A) :=
  x ← l !! n; y ← l !! i; Some (<[n := y]> (<[i := x]> l)).

Definition block_is_recovery (ir : MachineIR) (bb : BlockPtr) : option bool := is_recovery <$> blocks ir !! bb.

(** The loop, at the [i]-th element of [m] left; [n] is [normal_it]. *)
Fixpoint move_cold (ir : MachineIR) (m i n : nat) (l : list BlockPtr) : option (list BlockPtr) :=
  match m with
  | O => Some l
  | S m =>
      bb ← l !! i;
      r ← block_is_recovery ir bb;
      if (r : bool) then move_cold ir m (S i) n l
      else l ← swap n i l; move_cold ir m (S i) (S n) l
  end.

Definition MoveColdBlocksToEnd (ir : MachineIR) : option MachineIR :=
  front ← head (bb_list ir);
  r ← block_is_recovery ir front;
  if (r : bool) then None
  else l ← move_cold ir (length (bb_list ir)) 0 0 (bb_list ir); Some (set_bb_list l ir).

Definition normal (ir : MachineIR) (bb : BlockPtr) : Prop := block_is_recovery ir bb = Some false.
#[export] Instance normal_dec ir bb : Decision (normal ir bb) := decide (_ = _).

Lemma swap_middle {A} (N : list A) r R x S :
  swap (length N) (length N + Datatypes.S (length R)) (N ++ r :: R ++ x :: S) = Some (N ++ x :: R ++ r :: S).
Proof.
  unfold swap; rewrite (list_lookup_middle N _ r (length N)) by done; cbn [mbind option_bind].
  replace (N ++ r :: R ++ x :: S) with ((N ++ r :: R) ++ x :: S) by (by rewrite <- app_assoc).
  rewrite list_lookup_middle by (rewrite length_app; cbn; lia); cbn [mbind option_bind]; f_equal.
  replace (length N + Datatypes.S (length R))%nat with (length (N ++ r :: R) + 0)%nat by (rewrite length_app; cbn; lia).
  rewrite insert_app_r; cbn; rewrite <- app_assoc; replace (length N) with (length N + 0)%nat by lia.
  by rewrite insert_app_r.
Qed.

Lemma swap_self {A} (N : list A) x S : swap (length N) (length N) (N ++ x :: S) = Some (N ++ x :: S).
Proof.
  unfold swap; rewrite list_lookup_middle by done; cbn [mbind option_bind]; f_equal.
  rewrite list_insert_insert_eq; apply list_insert_id; by rewrite list_lookup_middle.
Qed.

Lemma move_cold_spec ir : forall todo N R, (forall bb, bb ∈ todo -> is_Some (blocks ir !! bb)) ->
  exists R', move_cold ir (length todo) (length N + length R) (length N) (N ++ R ++ todo)
    = Some ((N ++ filter (normal ir) todo) ++ R') /\ R' ≡ₚ R ++ filter (fun bb => ~ normal ir bb) todo.
Proof.
  induction todo as [| x todo IH]; intros N R Hb; cbn [length move_cold].
  { exists R; rewrite !app_nil_r; done. }
  destruct (Hb x ltac:(apply elem_of_cons; by left)) as [b Hx].
  assert (Hb' : forall bb, bb ∈ todo -> is_Some (blocks ir !! bb)) by (intros; apply Hb, elem_of_cons; by right).
  replace (N ++ R ++ x :: todo) with ((N ++ R) ++ x :: todo) by (by rewrite <- app_assoc).
  rewrite list_lookup_middle by (by rewrite length_app); cbn [mbind option_bind].
  assert (Hr : block_is_recovery ir x = Some (is_recovery b)) by (unfold block_is_recovery; by rewrite Hx).
  rewrite !filter_cons, Hr; cbn [mbind option_bind].
  assert (Hn : normal ir x <-> is_recovery b = false) by (unfold normal; rewrite Hr; split; [by intros [= ->] | by intros ->]).
  destruct (is_recovery b).
  - assert (~ normal ir x) by (rewrite Hn; done); rewrite decide_False, decide_True by done; destruct (IH N (R ++ [x]) Hb') as (R' & E & Hp); exists R'.
    rewrite length_app, <- !app_assoc in E; cbn in E; rewrite Nat.add_1_r, Nat.add_succ_r in E; rewrite <- !app_assoc.
    split; [exact E |]; by rewrite Hp, <- app_assoc.
  - assert (normal ir x) by (by apply Hn); rewrite decide_True, decide_False by (done || by intros Hx').
    assert (exists R2, swap (length N) (length N + length R) ((N ++ R) ++ x :: todo) = Some ((N ++ [x]) ++ R2 ++ todo) /\ R2 ≡ₚ R)
      as (R2 & -> & Hp2).
    { destruct R as [| r R]; cbn [length].
      - rewrite Nat.add_0_r, app_nil_r, swap_self; exists []; by rewrite <- app_assoc.
      - rewrite <- app_assoc; cbn [app]; rewrite swap_middle; exists (R ++ [r]); rewrite <- !app_assoc; split; [done |].
        by rewrite Permutation_app_comm. }
    cbn [mbind option_bind]; destruct (IH (N ++ [x]) R2 Hb') as (R' & E & Hp); exists R'.
    rewrite (Permutation_length Hp2), length_app in E; cbn in E; rewrite Nat.add_1_r in E.
    rewrite <- (app_assoc N [x] (R2 ++ todo)), <- (app_assoc N [x] (filter (normal ir) todo)) in E; cbn [app Nat.add] in E.
    split; [rewrite <- (app_assoc N [x] (R2 ++ todo)); exact E |]; by rewrite Hp, Hp2.
Qed.

(** [MoveColdBlocksToEnd] keeps the first block in its place and the order of the
    blocks that are not recovery blocks, and puts all the others after them. *)
Theorem MoveColdBlocksToEnd_spec (ir : MachineIR) :
  (forall bb, bb ∈ bb_list ir -> is_Some (blocks ir !! bb)) ->
  (exists front, head (bb_list ir) = Some front /\ normal ir front) ->
  exists cold, MoveColdBlocksToEnd ir = Some (set_bb_list (filter (normal ir) (bb_list ir) ++ cold) ir) /\
    cold ≡ₚ filter (fun bb => ~ normal ir bb) (bb_list ir) /\
    head (filter (normal ir) (bb_list ir) ++ cold) = head (bb_list ir).
Proof.
  intros Hb (front & Hf & Hn); unfold MoveColdBlocksToEnd; rewrite Hf; cbn [mbind option_bind]; rewrite Hn; cbn [mbind option_bind].
  destruct (move_cold_spec ir (bb_list ir) [] [] Hb) as (R & E & Hp); cbn in E; rewrite E; cbn [mbind option_bind].
  exists R; conjs; [done | done |]; destruct (bb_list ir) as [| x l]; [done |]; injection Hf as ->.
  by rewrite filter_cons, decide_True by done.
Qed.
