(* ===== verification/ControlFlow.v ===== *)
(** * Passes over the control-flow graph

    [ChangeBranchTarget], [InsertNodeOnEdge] and [RemoveCriticalEdges] of
    [src/backend/x86_64/machine_ir_opt.cc], with the graphs they run on and the
    lemmas on moving an edge and adding a block.

    Blocks share edges, so each update is an update of the arena's maps.  A
    failed [CHECK] and an access out of range are [None]. *)
From stdpp Require Import gmap list.
From S2P Require Import Prelude MachineIR Lifetime LifetimeAnalysis Liveness MachineIRCheck MachineSem.
#[local] Open Scope Z_scope.

(** ** The code *)

(** A branch retargeted: [set_then_bb] and [set_else_bb]. *)
Definition redirect (old_dst new_dst : BlockPtr) (i : MachineInsn) : option MachineInsn :=
  match data i with
  | PseudoBranch then_bb =>
      if (then_bb =? old_dst)%nat then Some (set_data (PseudoBranch new_dst) i) else None
  | PseudoCondBranch cond then_bb else_bb =>
      Some (if (then_bb =? old_dst)%nat then set_data (PseudoCondBranch cond new_dst else_bb) i
            else if (else_bb =? old_dst)%nat then set_data (PseudoCondBranch cond then_bb new_dst) i
            else i)
  | _ => None
  end.

Definition redirect_last (old_dst new_dst : BlockPtr) (l : list MachineInsn) : option (list MachineInsn) :=
  i ← last l; i' ← redirect old_dst new_dst i; Some (take (length l - 1) l ++ [i']).

Definition ChangeBranchTarget (bb old_dst new_dst : BlockPtr) (ir : MachineIR) : option MachineIR :=
  b ← blocks ir !! bb;
  l ← redirect_last old_dst new_dst (insn_list b);
  Some (update_block bb (set_insn_list l) ir).

Definition set_in_edge (n : nat) (e : EdgePtr) (b : MachineBasicBlock) : MachineBasicBlock :=
  set_in_edges (<[n := e]> (in_edges b)) b.

Definition InsertNodeOnEdge (edge : EdgePtr) (in_edge_index : nat) (ir : MachineIR) : option MachineIR :=
  x ← edges ir !! edge;
  let pred_bb := edge_src x in
  let succ_bb := edge_dst x in
  let '(new_bb, ir) := NewBasicBlock ir in
  let ir := set_bb_list (bb_list ir ++ [new_bb]) ir in
  let '(e, ir) := new_edge new_bb succ_bb ir in
  let ir := update_block new_bb (add_out_edge e) ir in
  let ir := update_block succ_bb (set_in_edge in_edge_index e) ir in
  let ir := set_dst edge new_bb ir in
  let ir := update_block new_bb (add_in_edge edge) ir in
  ir ← ChangeBranchTarget pred_bb succ_bb new_bb ir;
  Some (update_block new_bb (push_insn (new_PseudoBranch succ_bb)) ir).

(** The [i]-th in edge of [bb]. *)
Definition split_in_edge (bb : BlockPtr) (i : nat) (ir : MachineIR) : option MachineIR :=
  b ← blocks ir !! bb;
  e ← in_edges b !! i;
  x ← edges ir !! e;
  p ← blocks ir !! edge_src x;
  if (2 <=? length (out_edges p))%nat then InsertNodeOnEdge e i ir else Some ir.

(** The vector of in edges keeps its size: an insertion replaces an element. *)
Definition split_in_edges (bb : BlockPtr) (ir : MachineIR) : option MachineIR :=
  b ← blocks ir !! bb;
  if (length (in_edges b) <? 2)%nat then Some ir
  else for_each (split_in_edge bb) (seq 0 (length (in_edges b))) ir.

(** The loop over the list of blocks, which grows as it is walked; [n] is the
    position.  Whether the end was reached within [fuel] blocks. *)
Fixpoint split_edges (fuel n : nat) (ir : MachineIR) : option (bool * MachineIR) :=
  match bb_list ir !! n with
  | None => Some (true, ir)
  | Some bb =>
      match fuel with
      | O => Some (false, ir)
      | S fuel => ir ← split_in_edges bb ir; split_edges fuel (S n) ir
      end
  end.

Definition RemoveCriticalEdges (fuel : nat) (ir : MachineIR) : option (bool * MachineIR) := split_edges fuel 0 ir.

(** ** Graphs whose branches and edges match *)

Definition dsts (ir : MachineIR) (es : list EdgePtr) : list BlockPtr :=
  omap (fun e => edge_dst <$> edges ir !! e) es.

(** The recovery blocks of the instructions. *)
Definition recoveries (l : list MachineInsn) : list BlockPtr := omap recovery_bb l.

(** The last instruction is the only control transfer and cannot fault; the
    successors along the edges are the targets of the branch and the recovery
    blocks; the edge to a recovery block is its only in edge. *)
Record block_ok (ir : MachineIR) (bb : BlockPtr) (b : MachineBasicBlock) : Prop := {
  bo_out : forall e, e ∈ out_edges b -> out_linked ir bb e;
  bo_in : forall e, e ∈ in_edges b -> in_linked ir bb e;
  bo_nodup_in : NoDup (in_edges b);
  bo_nodup_out : NoDup (out_edges b);
  bo_last : exists l i, insn_list b = l ++ [i] /\ IsControlTransfer i = true /\
    Forall (fun i => IsControlTransfer i = false) l /\ recovery_bb i = None /\ recovery_pc i = kNullGuestAddr /\
    dsts ir (out_edges b) ≡ₚ targets i ++ recoveries l;
  bo_rec : forall t d, t ∈ recoveries (insn_list b) -> blocks ir !! t = Some d -> (length (in_edges d) < 2)%nat
}.

Record wf_graph (ir : MachineIR) : Prop := {
  wg_nodup : NoDup (bb_list ir);
  wg_block : forall bb, bb ∈ bb_list ir -> exists b, blocks ir !! bb = Some b /\ block_ok ir bb b;
  wg_id : forall bb, is_Some (blocks ir !! bb) -> (bb < num_bb ir)%nat;
  wg_edge : forall e, is_Some (edges ir !! e) -> (e < next_edge ir)%nat;
  wg_alone : forall bb b, bb ∈ bb_list ir -> blocks ir !! bb = Some b ->
    out_edges b = [] -> in_edges b = [] -> length (bb_list ir) = 1%nat
}.

Lemma wg_ok ir bb b : wf_graph ir -> bb ∈ bb_list ir -> blocks ir !! bb = Some b -> block_ok ir bb b.
Proof. intros Hwf Hbb Hb; destruct (wg_block _ Hwf bb Hbb) as (b' & ? & ?); congruence. Qed.

Lemma elem_of_dsts ir es t : t ∈ dsts ir es <-> exists e x, e ∈ es /\ edges ir !! e = Some x /\ edge_dst x = t.
Proof.
  unfold dsts; rewrite list_elem_of_omap; split.
  - intros (e & He & Hx); apply fmap_Some in Hx as (x & ? & ->); by exists e, x.
  - intros (e & x & He & Hx & <-); exists e; split; [done |]; by rewrite Hx.
Qed.

Lemma recoveries_app l l' : recoveries (l ++ l') = recoveries l ++ recoveries l'.
Proof. apply omap_app. Qed.

Lemma elem_of_recoveries l t : t ∈ recoveries l <-> exists i, i ∈ l /\ recovery_bb i = Some t.
Proof. apply list_elem_of_omap. Qed.

(** The destinations and the targets, without naming the last instruction. *)
Lemma bo_dst ir bb b t : block_ok ir bb b -> t ∈ dsts ir (out_edges b) -> t ∈ bb_list ir.
Proof.
  intros Hok (e & x & He & Hx & <-)%elem_of_dsts; destruct (bo_out _ _ _ Hok e He) as (x' & d & ? & _ & ? & _); congruence.
Qed.

Lemma bo_successors ir bb b i t :
  block_ok ir bb b -> i ∈ insn_list b -> t ∈ successors i -> t ∈ dsts ir (out_edges b).
Proof.
  intros Hok Hi Ht; destruct (bo_last _ _ _ Hok) as (l & j & Hl & Hj & Hf & Hrb & _ & Hp); rewrite Hp; rewrite Hl in Hi.
  unfold successors in Ht; apply elem_of_app; apply elem_of_app in Ht as [Ht | Ht]; apply elem_of_app in Hi as [Hi | ->%list_elem_of_singleton].
  - rewrite Forall_forall in Hf; specialize (Hf i Hi); exfalso; revert Ht; unfold targets, IsControlTransfer in *.
    destruct (data i); try done; apply not_elem_of_nil.
  - by left.
  - right; apply elem_of_recoveries; exists i; split; [done |]; destruct (recovery_bb i); [by apply list_elem_of_singleton in Ht as -> |].
    by apply not_elem_of_nil in Ht.
  - rewrite Hrb in Ht; by apply not_elem_of_nil in Ht.
Qed.

(** The checker accepts such a graph. *)
Lemma wf_graph_checked ir : wf_graph ir -> CheckMachineIR ir = Some kMachineIRCheckSuccess.
Proof.
  intros Hwf; apply check_blocks_spec; intros bb Hbb; destruct (wg_block _ Hwf bb Hbb) as (b & Hb & Hok); exists b; split; [done |].
  split; [apply Hok | apply Hok | by eapply wg_alone |].
  destruct (bo_last _ _ _ Hok) as (l & i & Hl & Hi & Hf & _ & _ & Hp); exists l, i; conjs; try done; intros t Ht.
  assert (t ∈ dsts ir (out_edges b)) as (e & x & ? & ? & ?)%elem_of_dsts by (rewrite Hp; apply elem_of_app; by left).
  by exists b, e, x.
Qed.

(** ** Detours *)

Section Detour.
Context {V W : Type} `{!MachineSem V W}.

(** A block that only passes control on. *)
Definition skips (ir : MachineIR) (n t : BlockPtr) : Prop :=
  exists b, blocks ir !! n = Some b /\
    forall (ρ : MachineReg -> V) (w : W), run_insns (insn_list b) ρ w = (GoTo t, ρ, w).

(** The exit, or the exit through a block that passes control on. *)
Definition via (ir : MachineIR) (e e' : Exit V) : Prop :=
  e' = e \/ exists n t, e = GoTo t /\ e' = GoTo n /\ skips ir n t.

(** The blocks [D] of [ir] run as those of [ir'], which may take detours. *)
Definition detours (D : list BlockPtr) (ir ir' : MachineIR) : Prop :=
  forall bb, bb ∈ D -> exists b b', blocks ir !! bb = Some b /\ blocks ir' !! bb = Some b' /\
    forall (ρ : MachineReg -> V) (w : W), exists e e' ρ' w', run_insns (insn_list b) ρ w = (e, ρ', w') /\
      run_insns (insn_list b') ρ w = (e', ρ', w') /\ via ir' e e' /\ forall t, e = GoTo t -> t ∈ D.

Definition equal_runs (bb : BlockPtr) (ir ir' : MachineIR) : Prop :=
  forall (ρ : MachineReg -> V) (w : W) e ρ' w', runs ir bb ρ w e ρ' w' <-> runs ir' bb ρ w e ρ' w'.

Lemma detour_there D ir ir' bb (ρ : MachineReg -> V) (w : W) e ρ' w' :
  detours D ir ir' -> runs ir bb ρ w e ρ' w' -> bb ∈ D -> runs ir' bb ρ w e ρ' w'.
Proof.
  intros HD; induction 1 as [bb b ρ w e ρ' w' Hb Hrun He | bb b ρ w bb' ρ' w' e ρ'' w'' Hb Hrun _ IH]; intros Hbb;
    destruct (HD bb Hbb) as (b1 & b' & Hb1 & Hb' & Hr); destruct (Hr ρ w) as (e1 & e2 & ρ1 & w1 & H1 & H2 & Hv & Hin);
    assert (b1 = b) as -> by congruence; rewrite Hrun in H1; injection H1 as <- <- <-.
  - destruct Hv as [-> | (n & t & -> & _)]; [by eapply runs_exit | done].
  - destruct Hv as [-> | (n & t & [= <-] & -> & bn & Hn & Hsk)]; [eapply runs_goto; eauto |].
    eapply runs_goto; [exact Hb' | exact H2 |]; eapply runs_goto; eauto.
Qed.

Lemma detour_back D ir ir' x (ρ : MachineReg -> V) (w : W) e ρ' w' :
  detours D ir ir' -> runs ir' x ρ w e ρ' w' ->
  (x ∈ D -> runs ir x ρ w e ρ' w') /\ (forall t, t ∈ D -> skips ir' x t -> runs ir t ρ w e ρ' w').
Proof.
  intros HD; induction 1 as [x b ρ w e ρ' w' Hb Hrun He | x b ρ w bb' ρ' w' e ρ'' w'' Hb Hrun _ [IH1 IH2]].
  - split; [intros Hx | intros t Ht (bx & Hbx & Hsk)].
    + destruct (HD x Hx) as (b1 & b' & Hb1 & Hb' & Hr); destruct (Hr ρ w) as (e1 & e2 & ρ1 & w1 & H1 & H2 & Hv & Hin).
      assert (b' = b) as -> by congruence; rewrite Hrun in H2; injection H2 as -> -> ->.
      destruct Hv as [-> | (n & t & -> & -> & _)]; [by eapply runs_exit | done].
    + assert (bx = b) as -> by congruence; rewrite Hsk in Hrun; injection Hrun as <- <- <-; done.
  - split; [intros Hx | intros t Ht (bx & Hbx & Hsk)].
    + destruct (HD x Hx) as (b1 & b' & Hb1 & Hb' & Hr); destruct (Hr ρ w) as (e1 & e2 & ρ1 & w1 & H1 & H2 & Hv & Hin).
      assert (b' = b) as -> by congruence; rewrite Hrun in H2; injection H2 as <- <- <-.
      destruct Hv as [<- | (n & t & -> & [= <-] & Hsk)]; (eapply runs_goto; [exact Hb1 | exact H1 |]).
      * by apply IH1, Hin.
      * apply IH2; [by apply Hin | done].
    + assert (bx = b) as -> by congruence; rewrite Hsk in Hrun; injection Hrun as <- <- <-; by apply IH1.
Qed.

Lemma detours_equal D ir ir' bb : detours D ir ir' -> bb ∈ D -> equal_runs bb ir ir'.
Proof. intros HD Hbb ρ w e ρ' w'; split; intros H; [by eapply detour_there |].
  destruct (detour_back D ir ir' bb ρ w e ρ' w' HD H) as [Hx _]; by apply Hx.
Qed.

#[global] Instance equal_runs_equiv bb : Equivalence (equal_runs bb).
Proof.
  split.
  - intros ir ρ w e ρ' w'; done.
  - intros ir ir' H ρ w e ρ' w'; symmetry; apply H.
  - intros ir1 ir2 ir3 H1 H2 ρ w e ρ' w'; etrans; [apply H1 | apply H2].
Qed.

(** A block is left before its last instruction, or by it. *)
Lemma run_last l (ρ : MachineReg -> V) (w : W) :
  (exists r, forall i, run_insns (l ++ [i]) ρ w = r) \/
  (exists ρ' w', forall i, run_insns (l ++ [i]) ρ w = run_insns [i] ρ' w').
Proof.
  revert ρ w; induction l as [| j l IH]; intros ρ w; cbn [app].
  { right; by exists ρ, w. }
  cbn [run_insns]; destruct (fault_of j ρ w) as [e |]; [left; by eexists |].
  destruct (transfer_of j ρ) as [e |]; [left; by eexists |].
  destruct (exec_regs j ρ w) as [ρ1 w1]; apply IH.
Qed.

Lemma run_transfer i (ρ : MachineReg -> V) (w : W) :
  IsControlTransfer i = true -> recovery_bb i = None -> recovery_pc i = kNullGuestAddr ->
  exists e, transfer_of i ρ = Some e /\ run_insns [i] ρ w = (e, ρ, w).
Proof.
  intros Hc Hb Hp; apply (transfer_control i ρ) in Hc as [e He]; exists e; split; [done |]; cbn [run_insns].
  assert (fault_of i ρ w = None) as -> by (unfold fault_of; rewrite Hb, Hp, Z.eqb_refl; by destruct (insn_faults _ _ _ _)).
  by rewrite He.
Qed.

End Detour.

(** *** A branch retargeted *)

Lemma redirect_spec s t i i' :
  redirect s t i = Some i' ->
  IsControlTransfer i' = true /\ IsControlTransfer i = true /\ recovery_bb i' = recovery_bb i /\ recovery_pc i' = recovery_pc i /\
  (s ∈ targets i -> exists T, targets i ≡ₚ s :: T /\ targets i' ≡ₚ t :: T).
Proof.
  unfold redirect, IsControlTransfer, targets; destruct (data i) as [u | c u v | | | | | | | | | |] eqn:Hd; try done.
  - destruct (Nat.eqb_spec u s) as [-> |]; [| done]; intros [= <-]; cbn; conjs; try done; intros _; by exists [].
  - intros [= <-]; destruct (Nat.eqb_spec u s) as [-> | Hu]; [| destruct (Nat.eqb_spec v s) as [-> | Hv]]; cbn.
    + conjs; try done; intros _; by exists [v].
    + conjs; try done; intros _; exists [u]; split; constructor.
    + rewrite Hd; conjs; try done; intros [? | ?%list_elem_of_singleton]%elem_of_cons; congruence.
Qed.

Lemma redirect_total s t i : s ∈ targets i -> is_Some (redirect s t i).
Proof.
  unfold redirect, targets; destruct (data i); try (intros H; by apply not_elem_of_nil in H); [| by eexists].
  intros ->%list_elem_of_singleton; rewrite Nat.eqb_refl; by eexists.
Qed.

Lemma redirect_last_snoc s t l i :
  redirect_last s t (l ++ [i]) = (i' ← redirect s t i; Some (l ++ [i'])).
Proof.
  unfold redirect_last; rewrite last_snoc; cbn [mbind option_bind]; rewrite length_app; cbn [length].
  replace (length l + 1 - 1)%nat with (length l) by lia; by rewrite take_app_length.
Qed.

Lemma recoveries_redirect s t l i i' :
  redirect s t i = Some i' -> recovery_bb i = None -> recoveries (l ++ [i']) = recoveries (l ++ [i]).
Proof.
  intros (_ & _ & Hb & _)%redirect_spec Hn; rewrite !recoveries_app; f_equal; unfold recoveries; cbn.
  by rewrite Hb, Hn.
Qed.

(** *** An edge moved *)

(** The block [y] when the edge [e] from [p] moves from [s] to [t]. *)
Definition moved_block (e : EdgePtr) (p s t y : BlockPtr) (b : MachineBasicBlock) : MachineBasicBlock :=
  {| insn_list := if decide (y = p) then default (insn_list b) (redirect_last s t (insn_list b)) else insn_list b;
     in_edges := if decide (y = s) then filter (fun e' => e' <> e) (in_edges b)
                 else if decide (y = t) then in_edges b ++ [e] else in_edges b;
     out_edges := out_edges b; live_in := live_in b; live_out := live_out b; is_recovery := is_recovery b |}.

Definition move_edge (e : EdgePtr) (p s t : BlockPtr) (ir : MachineIR) : MachineIR :=
  set_dst e t (set_blocks (map_imap (fun y b => Some (moved_block e p s t y b)) (blocks ir)) ir).

Lemma move_edge_block e p s t ir y :
  blocks (move_edge e p s t ir) !! y = moved_block e p s t y <$> blocks ir !! y.
Proof. cbn; rewrite map_lookup_imap; by destruct (blocks ir !! y). Qed.

Lemma move_edge_edge e p s t ir e' :
  edges (move_edge e p s t ir) !! e' =
  (fun x => if decide (e' = e) then {| edge_src := edge_src x; edge_dst := t |} else x) <$> edges ir !! e'.
Proof.
  cbn; destruct (decide (e' = e)) as [-> | Hne].
  - rewrite lookup_alter_eq; by destruct (edges ir !! e).
  - rewrite lookup_alter_ne by done; by destruct (edges ir !! e').
Qed.

Lemma move_edge_same e p s t ir x :
  edges ir !! e = Some x -> edges (move_edge e p s t ir) !! e = Some {| edge_src := edge_src x; edge_dst := t |}.
Proof. intros Hx; rewrite move_edge_edge, Hx; cbn; by rewrite decide_True. Qed.

Lemma move_edge_other e p s t ir e' : e' <> e -> edges (move_edge e p s t ir) !! e' = edges ir !! e'.
Proof. intros Hne; rewrite move_edge_edge; destruct (edges ir !! e'); [| done]; cbn; by rewrite decide_False. Qed.

(** The conditions: [e] leads from [p] to [s], which is a target of the branch. *)
Record movable (e : EdgePtr) (p s t : BlockPtr) (ir : MachineIR) : Prop := {
  mv_edge : exists x, edges ir !! e = Some x /\ edge_src x = p /\ edge_dst x = s;
  mv_in : exists b, blocks ir !! s = Some b /\ e ∈ in_edges b /\ (out_edges b = [] -> exists e', e' <> e /\ e' ∈ in_edges b);
  mv_src : s ∈ bb_list ir;
  mv_dst : t ∈ bb_list ir;
  mv_ne : s <> t;
  mv_rec : forall bb b, bb ∈ bb_list ir -> blocks ir !! bb = Some b ->
    (s ∉ recoveries (insn_list b)) /\ (t ∉ recoveries (insn_list b))
}.

Lemma movable_redirect e p s t ir :
  wf_graph ir -> movable e p s t ir ->
  p ∈ bb_list ir /\ exists b l i i', blocks ir !! p = Some b /\ insn_list b = l ++ [i] /\ e ∈ out_edges b /\ s ∈ targets i /\
    redirect s t i = Some i' /\ redirect_last s t (insn_list b) = Some (l ++ [i']) /\ recovery_bb i = None /\ recovery_pc i = kNullGuestAddr /\
    Forall (fun i => IsControlTransfer i = false) l /\ dsts ir (out_edges b) ≡ₚ targets i ++ recoveries l.
Proof.
  intros Hwf [(x & Hx & Hp & Hs) (b & Hb & He & _) Hsl _ _ Hrec].
  destruct (bo_in _ _ _ (wg_ok _ _ _ Hwf Hsl Hb) e He) as (x' & d & Hx' & _ & Hd & Hdb & Ho).
  assert (x' = x) as -> by congruence; rewrite Hp in Hd, Hdb; split; [done |].
  destruct (bo_last _ _ _ (wg_ok _ _ _ Hwf Hd Hdb)) as (l & i & Hl & _ & Hf & Hr & Hrp & Hperm).
  assert (s ∈ targets i) as Ht.
  { assert (s ∈ dsts ir (out_edges d)) as Hin by (apply elem_of_dsts; by exists e, x).
    rewrite Hperm in Hin; apply elem_of_app in Hin as [? | Hin]; [done |]; exfalso.
    destruct (Hrec p d Hd Hdb) as [Hn _]; apply Hn; rewrite Hl, recoveries_app; apply elem_of_app; by left. }
  destruct (redirect_total s t i Ht) as [i' Hi']; exists d, l, i, i'; conjs; try done.
  rewrite Hl, redirect_last_snoc; by rewrite Hi'.
Qed.

Lemma dsts_ext ir ir' es : (forall e, e ∈ es -> edge_dst <$> edges ir !! e = edge_dst <$> edges ir' !! e) -> dsts ir es = dsts ir' es.
Proof.
  induction es as [| e es IH]; intros H; [done |]; unfold dsts in *; cbn [omap list_omap].
  rewrite (H e) by (apply elem_of_cons; by left); rewrite IH by (intros; apply H, elem_of_cons; by right); done.
Qed.

#[global] Instance dsts_perm ir : Proper ((≡ₚ) ==> (≡ₚ)) (dsts ir).
Proof. intros l l' Hl; unfold dsts; by rewrite Hl. Qed.

Lemma out_edge_src ir bb b e x :
  wf_graph ir -> bb ∈ bb_list ir -> blocks ir !! bb = Some b -> e ∈ out_edges b -> edges ir !! e = Some x -> edge_src x = bb.
Proof.
  intros Hwf Hbb Hb He Hx; destruct (bo_out _ _ _ (wg_ok _ _ _ Hwf Hbb Hb) e He) as (x' & d & ? & ? & _); congruence.
Qed.

Lemma in_edge_dst ir bb b e x :
  wf_graph ir -> bb ∈ bb_list ir -> blocks ir !! bb = Some b -> e ∈ in_edges b -> edges ir !! e = Some x -> edge_dst x = bb.
Proof.
  intros Hwf Hbb Hb He Hx; destruct (bo_in _ _ _ (wg_ok _ _ _ Hwf Hbb Hb) e He) as (x' & d & ? & ? & _); congruence.
Qed.

Section Move.
Context (ir : MachineIR) (e : EdgePtr) (p s t : BlockPtr) (Hwf : wf_graph ir) (Hmv : movable e p s t ir).

Lemma moved_in y b e' :
  y ∈ bb_list ir -> blocks ir !! y = Some b -> e' ∈ in_edges (moved_block e p s t y b) <->
  (e' = e /\ y = t) \/ (e' <> e /\ e' ∈ in_edges b).
Proof.
  intros Hy Hb; destruct Hmv as [(x & Hx & _ & Hs) _ _ _ Hne _]; cbn.
  assert (He : e ∈ in_edges b -> y = s) by (intros He; rewrite <- Hs; symmetry; by eapply in_edge_dst).
  assert (Hs' : y <> s -> e' ∈ in_edges b -> e' <> e) by (intros Hn Hin ->; by apply Hn, He).
  destruct (decide (y = s)) as [-> | Hys]; [rewrite list_elem_of_filter; split; [by right | by intros [[_ ?] | ?]] |].
  destruct (decide (y = t)) as [-> | Hyt].
  - rewrite elem_of_app, list_elem_of_singleton; split; [intros [? | ->]; [right; auto | by left] | intros [[? _] | [_ ?]]; auto].
  - split; [intros ?; right; auto | by intros [[_ ?] | [_ ?]]].
Qed.

Lemma moved_out_linked y b e' :
  y ∈ bb_list ir -> blocks ir !! y = Some b -> e' ∈ out_edges b -> out_linked (move_edge e p s t ir) y e'.
Proof.
  intros Hy Hb He'; destruct (bo_out _ _ _ (wg_ok _ _ _ Hwf Hy Hb) e' He') as (x' & d & Hx' & Hsrc & Hdst & Hd & Hin).
  pose proof Hmv as [(x & Hx & _ & Hs) _ _ Ht _ _].
  unfold out_linked; destruct (decide (e' = e)) as [-> | Hne];
    [rewrite (move_edge_same e p s t ir x' Hx') | rewrite move_edge_other, Hx' by done].
  - destruct (wg_block _ Hwf t Ht) as (bt & Hbt & _); eexists _, (moved_block e p s t t bt); split; [done |]; cbn [edge_src edge_dst].
    rewrite move_edge_block, Hbt; conjs; try done; apply (moved_in t bt e); [done | done | by left].
  - exists x', (moved_block e p s t (edge_dst x') d); rewrite move_edge_block, Hd; conjs; try done.
    apply (moved_in (edge_dst x') d e'); [done | done | by right].
Qed.

Lemma moved_in_linked y b e' :
  y ∈ bb_list ir -> blocks ir !! y = Some b -> e' ∈ in_edges (moved_block e p s t y b) -> in_linked (move_edge e p s t ir) y e'.
Proof.
  intros Hy Hb He'; apply (moved_in y b e' Hy Hb) in He' as [[-> ->] | [Hne He']].
  - destruct (movable_redirect _ _ _ _ _ Hwf Hmv) as (Hp & bp & l & i & i' & Hbp & _ & Hout & _).
    destruct Hmv as [(x & Hx & Hxp & _) _ _ _ _ _]; unfold in_linked; rewrite (move_edge_same e p s t ir x Hx).
    eexists _, (moved_block e p s t p bp); split; [done |]; cbn [edge_src edge_dst]; rewrite Hxp, move_edge_block, Hbp; done.
  - destruct (bo_in _ _ _ (wg_ok _ _ _ Hwf Hy Hb) e' He') as (x' & d & Hx' & Hdst & Hsrc & Hd & Hout).
    exists x', (moved_block e p s t (edge_src x') d); rewrite move_edge_other, Hx', move_edge_block, Hd by done; done.
Qed.

Lemma moved_dsts_ne y b :
  y ∈ bb_list ir -> blocks ir !! y = Some b -> y <> p -> dsts (move_edge e p s t ir) (out_edges b) = dsts ir (out_edges b).
Proof.
  intros Hy Hb Hne; apply dsts_ext; intros e' He'; rewrite move_edge_other; [done |]; intros ->.
  destruct Hmv as [(x & Hx & Hp & _) _ _ _ _ _].
  apply Hne; rewrite <- Hp; symmetry; by eapply out_edge_src.
Qed.

Lemma moved_last y b :
  y ∈ bb_list ir -> blocks ir !! y = Some b ->
  recoveries (insn_list (moved_block e p s t y b)) = recoveries (insn_list b) /\
  exists l i, insn_list (moved_block e p s t y b) = l ++ [i] /\ IsControlTransfer i = true /\
    Forall (fun i => IsControlTransfer i = false) l /\ recovery_bb i = None /\ recovery_pc i = kNullGuestAddr /\
    dsts (move_edge e p s t ir) (out_edges b) ≡ₚ targets i ++ recoveries l.
Proof.
  intros Hy Hb; cbn [moved_block insn_list]; destruct (decide (y = p)) as [-> | Hne].
  - destruct (movable_redirect _ _ _ _ _ Hwf Hmv) as (_ & bp & l & i & i' & Hbp & Hl & Hout & Hs & Hr & Hrl & Hrb & Hrp & Hf & Hperm).
    assert (bp = b) as -> by congruence; rewrite Hrl; cbn [default]; split; [rewrite Hl; by eapply recoveries_redirect |].
    destruct (redirect_spec _ _ _ _ Hr) as (Hc & _ & Hrb' & Hrp' & Ht); destruct (Ht Hs) as (T & HT & HT').
    exists l, i'; conjs; try done; [congruence | congruence |]; rewrite HT', HT in *.
    apply elem_of_Permutation in Hout as [rest Hrest]; rewrite Hrest in Hperm |- *.
    assert (Hnd : NoDup (e :: rest)) by (rewrite <- Hrest; eapply bo_nodup_out; by eapply wg_ok).
    apply NoDup_cons in Hnd as [Hnin _]; destruct Hmv as [(x & Hx & _ & Hxs) _ _ _ _ _].
    assert (dsts (move_edge e p s t ir) rest = dsts ir rest) as Heq.
    { apply dsts_ext; intros e' He'; rewrite move_edge_other; [done |]; by intros ->. }
    revert Hperm Heq; unfold dsts; cbn [omap list_omap]; rewrite (move_edge_same e p s t ir x Hx), Hx; cbn.
    rewrite Hxs; intros Hperm ->; apply Permutation_cons_inv in Hperm; by rewrite Hperm.
  - split; [done |]; destruct (bo_last _ _ _ (wg_ok _ _ _ Hwf Hy Hb)) as (l & i & ? & ? & ? & ? & ? & ?); exists l, i; conjs; try done.
    by rewrite (moved_dsts_ne y).
Qed.

Lemma moved_length y b : y <> t -> (length (in_edges (moved_block e p s t y b)) <= length (in_edges b))%nat.
Proof. intros Hy; cbn; repeat case_decide; try done; apply length_filter. Qed.

Lemma move_edge_wf : wf_graph (move_edge e p s t ir).
Proof.
  split.
  - apply Hwf.
  - intros y Hy; cbn [bb_list move_edge set_dst set_edges set_blocks] in Hy; destruct (wg_block _ Hwf y Hy) as (b & Hb & Hok).
    exists (moved_block e p s t y b); split; [by rewrite move_edge_block, Hb |].
    destruct (moved_last y b Hy Hb) as [Hrec Hlast]; split.
    + intros e' He'; by eapply moved_out_linked.
    + intros e' He'; by eapply moved_in_linked.
    + cbn; repeat case_decide; [by apply NoDup_filter, Hok | | apply Hok]; subst; apply NoDup_app; conjs; [apply Hok | | apply NoDup_singleton].
      intros e' He' ->%list_elem_of_singleton; destruct Hmv as [(x & Hx & _ & Hs) _ _ _ _ _].
      rewrite (in_edge_dst ir t b e x) in Hs by done; congruence.
    + apply Hok.
    + exact Hlast.
    + rewrite Hrec; intros u d Hu; rewrite move_edge_block; intros (d0 & Hd0 & ->)%fmap_Some.
      eapply Nat.le_lt_trans; [apply moved_length | by eapply bo_rec].
      intros ->; by destruct (mv_rec _ _ _ _ _ Hmv y b Hy Hb).
  - intros y [b Hb]; rewrite move_edge_block in Hb; apply fmap_Some in Hb as (b0 & Hb0 & _); eapply (wg_id _ Hwf); by eexists.
  - intros e' [x Hx]; rewrite move_edge_edge in Hx; apply fmap_Some in Hx as (x0 & Hx0 & _); eapply (wg_edge _ Hwf); by eexists.
  - intros y b Hy Hb Ho Hi; rewrite move_edge_block in Hb; apply fmap_Some in Hb as (b0 & Hb0 & ->).
    eapply (wg_alone _ Hwf y b0); try done; cbn in Ho; destruct (in_edges b0) as [| e' es] eqn:Hin; [done | exfalso].
    assert (Hall : forall e', e' ∈ in_edges b0 -> e' <> e -> False).
    { intros e1 H1 H2; apply (not_elem_of_nil e1); rewrite <- Hi; apply (moved_in y b0 e1); auto. }
    destruct (decide (e' = e)) as [-> | Hne]; [| by apply (Hall e'); [rewrite Hin; apply elem_of_cons; by left |]].
    destruct Hmv as [(x & Hx & _ & Hs) (bs & Hbs & _ & Hal) _ _ _ _].
    assert (edge_dst x = y) as Hy' by (eapply (in_edge_dst ir y b0 e); try done; rewrite Hin; apply elem_of_cons; by left).
    rewrite Hs in Hy'; subst y; assert (bs = b0) as -> by congruence; destruct (Hal Ho) as (e1 & H1 & H2); by apply (Hall e1).
Qed.
End Move.

(** *** Graphs up to the order of the in edges *)

Definition block_eq (b b' : MachineBasicBlock) : Prop :=
  insn_list b = insn_list b' /\ out_edges b = out_edges b' /\ in_edges b ≡ₚ in_edges b'.

Definition same_graph (ir ir' : MachineIR) : Prop :=
  bb_list ir = bb_list ir' /\ num_bb ir = num_bb ir' /\ next_edge ir = next_edge ir' /\ edges ir = edges ir' /\
  forall y, option_Forall2 block_eq (blocks ir !! y) (blocks ir' !! y).

#[global] Instance block_eq_equiv : Equivalence block_eq.
Proof.
  split.
  - intros b; done.
  - intros b b' (? & ? & ?); done.
  - intros b1 b2 b3 (? & ? & ?) (? & ? & ?); unfold block_eq; conjs; congruence || by etrans.
Qed.

#[global] Instance same_graph_equiv : Equivalence same_graph.
Proof.
  split.
  - intros ir; unfold same_graph; conjs; try done; intros y; reflexivity.
  - intros ir ir' (? & ? & ? & ? & H); unfold same_graph; conjs; try done; intros y; by symmetry.
  - intros ir1 ir2 ir3 (? & ? & ? & ? & H) (? & ? & ? & ? & H'); unfold same_graph; conjs; try congruence; intros y; etrans; [apply H | apply H'].
Qed.

Lemma same_graph_block ir ir' y b :
  same_graph ir ir' -> blocks ir !! y = Some b -> exists b', blocks ir' !! y = Some b' /\ block_eq b b'.
Proof.
  intros (_ & _ & _ & _ & H) Hb; specialize (H y); rewrite Hb in H; inversion H as [? b' Heq | ]; subst; by exists b'.
Qed.

Lemma out_linked_same ir ir' bb e : same_graph ir ir' -> out_linked ir bb e -> out_linked ir' bb e.
Proof.
  intros Hsg (x & d & Hx & ? & ? & Hd & Hin); destruct (same_graph_block _ _ _ _ Hsg Hd) as (d' & Hd' & _ & _ & Hp).
  destruct Hsg as (Hl & _ & _ & He & _); exists x, d'; rewrite <- He, <- Hl; conjs; try done; by rewrite <- Hp.
Qed.

Lemma in_linked_same ir ir' bb e : same_graph ir ir' -> in_linked ir bb e -> in_linked ir' bb e.
Proof.
  intros Hsg (x & d & Hx & ? & ? & Hd & Hin); destruct (same_graph_block _ _ _ _ Hsg Hd) as (d' & Hd' & _ & Ho & _).
  destruct Hsg as (Hl & _ & _ & He & _); exists x, d'; rewrite <- He, <- Hl; conjs; try done; by rewrite <- Ho.
Qed.

Lemma block_ok_same ir ir' bb b b' : same_graph ir ir' -> block_eq b b' -> block_ok ir bb b -> block_ok ir' bb b'.
Proof.
  intros Hsg (Hi & Ho & Hp) Hok; split; rewrite <- ?Hi, <- ?Ho.
  - intros e He; eapply out_linked_same; [done |]; by eapply bo_out.
  - intros e He; rewrite <- Hp in He; eapply in_linked_same; [done |]; by eapply bo_in.
  - rewrite <- Hp; apply Hok.
  - apply Hok.
  - destruct (bo_last _ _ _ Hok) as (l & i & ? & ? & ? & ? & ? & Hperm); exists l, i; conjs; try done.
    destruct Hsg as (_ & _ & _ & He & _); by unfold dsts in *; rewrite <- He.
  - intros t d' Ht Hd'; destruct (same_graph_block ir' ir t d') as (d & Hd & _ & _ & Hpd); [by symmetry | done |].
    rewrite Hpd; by eapply bo_rec.
Qed.

Lemma wf_graph_same ir ir' : same_graph ir ir' -> wf_graph ir -> wf_graph ir'.
Proof.
  intros Hsg Hwf; pose proof Hsg as (Hl & Hn & Hne & He & Hb); split.
  - rewrite <- Hl; apply Hwf.
  - rewrite <- Hl; intros bb Hbb; destruct (wg_block _ Hwf bb Hbb) as (b & Hbb' & Hok).
    destruct (same_graph_block _ _ _ _ Hsg Hbb') as (b' & ? & ?); exists b'; split; [done | by eapply block_ok_same].
  - rewrite <- Hn; intros bb [b' Hb']; destruct (same_graph_block ir' ir bb b') as (b & ? & _); [by symmetry | done |].
    apply Hwf; by eexists.
  - rewrite <- He, <- Hne; apply Hwf.
  - rewrite <- Hl; intros bb b' Hbb Hb' Ho Hi; destruct (same_graph_block ir' ir bb b') as (b & Hbl & _ & Ho' & Hp); [by symmetry | done |].
    apply (wg_alone _ Hwf bb b Hbb Hbl); [congruence |]; rewrite Hi in Hp; by apply Permutation_nil_l in Hp.
Qed.

#[global] Instance wf_graph_proper : Proper (same_graph ==> iff) wf_graph.
Proof. intros ir ir' H; split; apply wf_graph_same; [done | by symmetry]. Qed.

(** *** What the graphs compute *)

Section Runs.
Context {V W : Type} `{!MachineSem V W}.

(** Control stays in the graph. *)
Lemma wf_goto ir bb b (ρ : MachineReg -> V) (w : W) t ρ' w' :
  wf_graph ir -> bb ∈ bb_list ir -> blocks ir !! bb = Some b -> run_insns (insn_list b) ρ w = (GoTo t, ρ', w') -> t ∈ bb_list ir.
Proof.
  intros Hwf Hbb Hb (i & Hi & Ht)%run_insns_goto; pose proof (wg_ok _ _ _ Hwf Hbb Hb) as Hok.
  eapply bo_dst; [exact Hok |]; by eapply bo_successors.
Qed.

Lemma same_insns_runs ir ir' bb :
  wf_graph ir -> (forall y b, y ∈ bb_list ir -> blocks ir !! y = Some b -> exists b', blocks ir' !! y = Some b' /\ insn_list b' = insn_list b) ->
  bb ∈ bb_list ir -> equal_runs (V := V) (W := W) bb ir ir'.
Proof.
  intros Hwf Hb; apply detours_equal; intros y Hy; destruct (wg_block _ Hwf y Hy) as (b & Hyb & _).
  destruct (Hb y b Hy Hyb) as (b' & Hb' & Hl); exists b, b'; conjs; try done; intros ρ w; rewrite Hl.
  destruct (run_insns (insn_list b) ρ w) as [[e ρ'] w'] eqn:E; exists e, e, ρ', w'; conjs; try done; [by left |].
  intros t ->; by eapply wf_goto.
Qed.

Lemma redirect_transfer s t i i' (ρ : MachineReg -> V) (e : Exit V) :
  redirect s t i = Some i' -> transfer_of i ρ = Some e ->
  exists e', transfer_of i' ρ = Some e' /\ (e' = e \/ e = GoTo s /\ e' = GoTo t).
Proof.
  unfold redirect, transfer_of, first_input; destruct (data i) as [u | c u v | | | | | | | | | |] eqn:Hd; try done.
  - destruct (Nat.eqb_spec u s) as [-> |]; [| done]; intros [= <-] [= <-]; cbn; eexists; split; [done | by right].
  - intros [= <-] [= <-]; destruct (Nat.eqb_spec u s) as [-> |]; [| destruct (Nat.eqb_spec v s) as [-> |]]; cbn.
    + destruct (cond_holds c _); eexists; split; auto.
    + destruct (cond_holds c _); eexists; split; auto.
    + rewrite Hd; eexists; split; [done | by left].
Qed.

(** Both graphs of a moved edge run alike where it is moved to a block that
    passes control on to the old destination, or away from one that passes
    control on to the new destination. *)
Lemma moved_run e p s t ir y b (ρ : MachineReg -> V) (w : W) :
  wf_graph ir -> movable e p s t ir -> y ∈ bb_list ir -> blocks ir !! y = Some b ->
  exists e1 e2 ρ' w', run_insns (insn_list b) ρ w = (e1, ρ', w') /\
    run_insns (insn_list (moved_block e p s t y b)) ρ w = (e2, ρ', w') /\ (e2 = e1 \/ e1 = GoTo s /\ e2 = GoTo t).
Proof.
  intros Hwf Hmv Hy Hb; cbn [moved_block insn_list]; case_decide as Hyp; subst.
  2: { destruct (run_insns (insn_list b) ρ w) as [[e1 ρ'] w']; exists e1, e1, ρ', w'; conjs; auto. }
  destruct (movable_redirect _ _ _ _ _ Hwf Hmv) as (_ & bp & l & i & i' & Hbp & Hl & _ & _ & Hr & Hrl & Hrb & Hrp & _ & _).
  assert (bp = b) as -> by congruence; rewrite Hrl, Hl; cbn [default from_option id].
  destruct (redirect_spec _ _ _ _ Hr) as (Hc & Hc' & Hrb' & Hrp' & _).
  destruct (run_last l ρ w) as [[[[e0 ρ'] w'] Hrun] | (ρ' & w' & Hrun)]; rewrite !Hrun; [exists e0, e0, ρ', w'; conjs; auto |].
  destruct (run_transfer i ρ' w') as (e1 & He1 & ->); try done.
  destruct (run_transfer i' ρ' w') as (e2 & He2 & ->); [done | congruence | congruence |].
  destruct (redirect_transfer _ _ _ _ ρ' e1 Hr He1) as (e2' & He2' & ?); exists e1, e2, ρ', w'; conjs; try done; congruence.
Qed.

Lemma move_edge_runs e p s t ir bb :
  wf_graph ir -> movable e p s t ir -> bb ∈ bb_list ir ->
  skips (V := V) (W := W) (move_edge e p s t ir) t s \/ skips (V := V) (W := W) ir s t ->
  equal_runs (V := V) (W := W) bb ir (move_edge e p s t ir).
Proof.
  intros Hwf Hmv Hbb Hsk; pose proof (move_edge_wf ir e p s t Hwf Hmv) as Hwf'; destruct Hsk as [Hsk | Hsk].
  - apply (detours_equal (bb_list ir)); [| done]; intros y Hy; destruct (wg_block _ Hwf y Hy) as (b & Hb & _).
    exists b, (moved_block e p s t y b); rewrite move_edge_block, Hb; conjs; try done; intros ρ w.
    destruct (moved_run e p s t ir y b ρ w Hwf Hmv Hy Hb) as (e1 & e2 & ρ' & w' & H1 & H2 & He); exists e1, e2, ρ', w'; conjs; try done.
    + destruct He as [-> | [-> ->]]; [by left | right; by exists t, s].
    + intros u ->; by eapply wf_goto.
  - symmetry; apply (detours_equal (bb_list ir)); [| done]; intros y Hy; destruct (wg_block _ Hwf y Hy) as (b & Hb & _).
    exists (moved_block e p s t y b), b; rewrite move_edge_block, Hb; conjs; try done; intros ρ w.
    destruct (moved_run e p s t ir y b ρ w Hwf Hmv Hy Hb) as (e1 & e2 & ρ' & w' & H1 & H2 & He); exists e2, e1, ρ', w'; conjs; try done.
    + destruct He as [-> | [-> ->]]; [by left | right; by exists s, t].
    + intros u ->; eapply (wf_goto (move_edge e p s t ir) y); [done | done | by rewrite move_edge_block, Hb | exact H2].
Qed.

End Runs.

(** ** A node on an edge *)

(** A block without in edges that branches to [s]. *)
Definition node_block (s : BlockPtr) (e : EdgePtr) : MachineBasicBlock :=
  {| insn_list := [new_PseudoBranch s]; in_edges := []; out_edges := [e]; live_in := []; live_out := []; is_recovery := false |}.

Definition add_node (s : BlockPtr) (ir : MachineIR) : MachineIR :=
  {| num_bb := S (num_bb ir); num_vreg := num_vreg ir; num_arg_slots := num_arg_slots ir;
     num_spill_slots := num_spill_slots ir; bb_list := bb_list ir ++ [num_bb ir];
     blocks := <[num_bb ir := node_block s (next_edge ir)]> (alter (add_in_edge (next_edge ir)) s (blocks ir));
     edges := <[next_edge ir := {| edge_src := num_bb ir; edge_dst := s |}]> (edges ir);
     next_edge := S (next_edge ir); bb_order := bb_order ir; insn_folding_executed := insn_folding_executed ir |}.

Definition noded_block (s y : BlockPtr) (e : EdgePtr) (b : MachineBasicBlock) : MachineBasicBlock :=
  if decide (y = s) then add_in_edge e b else b.

Lemma noded_insns s y e b : insn_list (noded_block s y e b) = insn_list b.
Proof. unfold noded_block; by case_decide. Qed.
Lemma noded_out s y e b : out_edges (noded_block s y e b) = out_edges b.
Proof. unfold noded_block; by case_decide. Qed.
Lemma noded_in s y e b : in_edges (noded_block s y e b) = in_edges b ++ (if decide (y = s) then [e] else []).
Proof. unfold noded_block; case_decide; [done | by rewrite app_nil_r]. Qed.

Section AddNode.
Context (ir : MachineIR) (s : BlockPtr) (Hwf : wf_graph ir) (Hs : s ∈ bb_list ir).

Lemma fresh_block : blocks ir !! num_bb ir = None.
Proof. destruct (blocks ir !! num_bb ir) eqn:E; [| done]; pose proof (wg_id _ Hwf (num_bb ir) ltac:(by eexists)); lia. Qed.
Lemma fresh_edge : edges ir !! next_edge ir = None.
Proof. destruct (edges ir !! next_edge ir) eqn:E; [| done]; pose proof (wg_edge _ Hwf (next_edge ir) ltac:(by eexists)); lia. Qed.
Lemma enrolled_ne y : y ∈ bb_list ir -> y <> num_bb ir.
Proof. intros Hy ->; destruct (wg_block _ Hwf _ Hy) as (b & Hb & _); by rewrite fresh_block in Hb. Qed.
Lemma edge_ne e x : edges ir !! e = Some x -> e <> next_edge ir.
Proof. intros Hx ->; by rewrite fresh_edge in Hx. Qed.

Lemma add_node_block y : y <> num_bb ir -> blocks (add_node s ir) !! y = noded_block s y (next_edge ir) <$> blocks ir !! y.
Proof.
  intros Hy; cbn; rewrite lookup_insert_ne by done; unfold noded_block; destruct (decide (y = s)) as [-> | Hne].
  - rewrite lookup_alter_eq; by destruct (blocks ir !! s).
  - rewrite lookup_alter_ne by done; by destruct (blocks ir !! y).
Qed.
Lemma add_node_new : blocks (add_node s ir) !! num_bb ir = Some (node_block s (next_edge ir)).
Proof. apply lookup_insert_eq. Qed.
Lemma add_node_edge e x : edges ir !! e = Some x -> edges (add_node s ir) !! e = Some x.
Proof. intros Hx; cbn; rewrite lookup_insert_ne; [done |]; symmetry; by eapply edge_ne. Qed.
Lemma add_node_new_edge : edges (add_node s ir) !! next_edge ir = Some {| edge_src := num_bb ir; edge_dst := s |}.
Proof. apply lookup_insert_eq. Qed.

Lemma add_node_in y : y ∈ bb_list ir -> y ∈ bb_list (add_node s ir).
Proof. intros; apply elem_of_app; by left. Qed.
Lemma add_node_in_new : num_bb ir ∈ bb_list (add_node s ir).
Proof. apply elem_of_app; right; by apply list_elem_of_singleton. Qed.

Lemma add_node_block_ok y b :
  (forall bb b, bb ∈ bb_list ir -> blocks ir !! bb = Some b -> (s ∉ recoveries (insn_list b))) ->
  y ∈ bb_list ir -> blocks ir !! y = Some b -> block_ok (add_node s ir) y (noded_block s y (next_edge ir) b).
Proof.
  intros Hrec Hy Hb; pose proof (wg_ok _ _ _ Hwf Hy Hb) as Hok.
  assert (Hold : forall e, e ∈ in_edges b -> e <> next_edge ir).
  { intros e He; destruct (bo_in _ _ _ Hok e He) as (x & d & Hx & _); by eapply edge_ne. }
  split; rewrite ?noded_insns, ?noded_out, ?noded_in.
  - intros e He; destruct (bo_out _ _ _ Hok e He) as (x & d & Hx & Hsrc & Hdl & Hd & Hin).
    exists x, (noded_block s (edge_dst x) (next_edge ir) d); rewrite add_node_block, Hd by (by apply enrolled_ne).
    conjs; [by apply add_node_edge | done | by apply add_node_in | done |]; rewrite noded_in; apply elem_of_app; by left.
  - intros e [He | He]%elem_of_app.
    + destruct (bo_in _ _ _ Hok e He) as (x & d & Hx & Hdst & Hsl & Hd & Hin).
      exists x, (noded_block s (edge_src x) (next_edge ir) d); rewrite add_node_block, Hd by (by apply enrolled_ne).
      conjs; [by apply add_node_edge | done | by apply add_node_in | done |]; by rewrite noded_out.
    + case_decide as Hys; [apply list_elem_of_singleton in He as -> | by apply not_elem_of_nil in He]; subst y.
      eexists _, (node_block s (next_edge ir)); split; [apply add_node_new_edge |]; cbn [edge_src edge_dst].
      rewrite add_node_new; conjs; [done | apply add_node_in_new | done | by apply list_elem_of_singleton].
  - apply NoDup_app; conjs; [apply Hok | | case_decide; [apply NoDup_singleton | by apply NoDup_nil]].
    intros e He; case_decide; [| apply not_elem_of_nil]; intros ->%list_elem_of_singleton; by apply (Hold (next_edge ir)).
  - apply Hok.
  - destruct (bo_last _ _ _ Hok) as (l & i & ? & ? & ? & ? & ? & Hp); exists l, i; conjs; try done; rewrite <- Hp.
    erewrite dsts_ext; [done |]; intros e He; destruct (bo_out _ _ _ Hok e He) as (x & d & Hx & _).
    by rewrite (add_node_edge e x), Hx.
  - intros u d Hu Hd; assert (u ∈ bb_list ir) as Hul.
    { eapply bo_dst; [exact Hok |]; apply elem_of_recoveries in Hu as (i & Hi & Hui); eapply bo_successors; [exact Hok | exact Hi |].
      unfold successors; rewrite Hui; apply elem_of_app; right; by apply list_elem_of_singleton. }
    rewrite add_node_block in Hd by (by apply enrolled_ne); apply fmap_Some in Hd as (d0 & Hd0 & ->).
    rewrite noded_in, decide_False, app_nil_r; [by eapply bo_rec |]; intros ->; by apply (Hrec y b).
Qed.

Lemma node_block_ok : block_ok (add_node s ir) (num_bb ir) (node_block s (next_edge ir)).
Proof.
  destruct (wg_block _ Hwf s Hs) as (b & Hb & _); split; cbn [out_edges in_edges insn_list node_block].
  - intros e ->%list_elem_of_singleton; eexists _, (noded_block s s (next_edge ir) b); split; [apply add_node_new_edge |].
    cbn [edge_src edge_dst]; rewrite add_node_block, Hb by (by apply enrolled_ne); conjs; [done | by apply add_node_in | done |].
    rewrite noded_in, decide_True by done; apply elem_of_app; right; by apply list_elem_of_singleton.
  - intros e He; by apply not_elem_of_nil in He.
  - by apply NoDup_nil.
  - apply NoDup_singleton.
  - exists [], (new_PseudoBranch s); conjs; try done; unfold dsts; cbn [omap list_omap].
    by rewrite add_node_new_edge.
  - intros t d Ht; by apply not_elem_of_nil in Ht.
Qed.

Lemma add_node_wf :
  (forall bb b, bb ∈ bb_list ir -> blocks ir !! bb = Some b -> (s ∉ recoveries (insn_list b))) -> wf_graph (add_node s ir).
Proof.
  intros Hrec; split.
  - apply NoDup_app; conjs; [apply Hwf | | apply NoDup_singleton].
    intros y Hy ->%list_elem_of_singleton; by eapply enrolled_ne.
  - intros y [Hy | ->%list_elem_of_singleton]%elem_of_app; [| eexists; split; [apply add_node_new | apply node_block_ok]].
    destruct (wg_block _ Hwf y Hy) as (b & Hb & _); eexists; rewrite add_node_block, Hb by (by apply enrolled_ne).
    split; [done | by apply add_node_block_ok].
  - intros y [b Hb]; cbn [num_bb add_node]; destruct (decide (y = num_bb ir)) as [-> | Hne]; [lia |].
    rewrite add_node_block in Hb by done; apply fmap_Some in Hb as (b0 & Hb0 & _); pose proof (wg_id _ Hwf y ltac:(by eexists)); lia.
  - intros e [x Hx]; cbn [next_edge add_node]; destruct (decide (e = next_edge ir)) as [-> | Hne]; [lia |].
    cbn in Hx; rewrite lookup_insert_ne in Hx by done; pose proof (wg_edge _ Hwf e ltac:(by eexists)); lia.
  - intros y b [Hy | ->%list_elem_of_singleton]%elem_of_app Hb Ho Hi.
    2: { rewrite add_node_new in Hb; injection Hb as <-; done. }
    rewrite add_node_block in Hb by (by apply enrolled_ne); apply fmap_Some in Hb as (b0 & Hb0 & ->).
    rewrite noded_out in Ho; rewrite noded_in in Hi; apply app_eq_nil in Hi as [Hi Hd]; exfalso.
    pose proof (wg_alone _ Hwf y b0 Hy Hb0 Ho Hi) as Hlen; destruct (bb_list ir) as [| z [| ? ?]]; try done.
    apply list_elem_of_singleton in Hy, Hs; subst; by rewrite decide_True in Hd.
Qed.

Lemma add_node_runs {V W : Type} `{!MachineSem V W} bb : bb ∈ bb_list ir -> equal_runs (V := V) (W := W) bb ir (add_node s ir).
Proof.
  apply same_insns_runs; [done |]; intros y b Hy Hb; eexists; rewrite add_node_block, Hb by (by apply enrolled_ne).
  split; [done | apply noded_insns].
Qed.

End AddNode.

(** The [idx]-th in edge of [s], which no fault leads to. *)
Record insertable (e : EdgePtr) (idx : nat) (p s : BlockPtr) (ir : MachineIR) : Prop := {
  is_edge : exists x, edges ir !! e = Some x /\ edge_src x = p /\ edge_dst x = s;
  is_in : exists b, blocks ir !! s = Some b /\ in_edges b !! idx = Some e;
  is_enrolled : s ∈ bb_list ir;
  is_rec : forall bb b, bb ∈ bb_list ir -> blocks ir !! bb = Some b -> (s ∉ recoveries (insn_list b))
}.

Lemma insertable_movable e idx p s ir :
  wf_graph ir -> insertable e idx p s ir -> movable e p s (num_bb ir) (add_node s ir).
Proof.
  intros Hwf [(x & Hx & Hp & Hd) (b & Hb & Hi) Hs Hrec]; pose proof (enrolled_ne ir Hwf s Hs) as Hne; split; try done.
  - exists x; split; [by apply add_node_edge | done].
  - exists (noded_block s s (next_edge ir) b); rewrite add_node_block, Hb by done; rewrite noded_in, decide_True by done; conjs; [done | |].
    + apply elem_of_app; left; by eapply list_elem_of_lookup_2.
    + intros _; exists (next_edge ir); split; [intros ?; eapply edge_ne; eauto |]; apply elem_of_app; right; by apply list_elem_of_singleton.
  - by apply add_node_in.
  - apply add_node_in_new.
  - intros y c [Hy | ->%list_elem_of_singleton]%elem_of_app Hc.
    2: { rewrite add_node_new in Hc; injection Hc as <-; cbn; split; apply not_elem_of_nil. }
    rewrite add_node_block in Hc by (by apply enrolled_ne); apply fmap_Some in Hc as (c0 & Hc0 & ->); rewrite noded_insns; split.
    + by apply (Hrec y).
    + intros (i & Hin & Hr)%elem_of_recoveries; apply (enrolled_ne ir Hwf (num_bb ir)); [| done].
      pose proof (wg_ok _ _ _ Hwf Hy Hc0) as Hok; eapply bo_dst; [exact Hok |]; eapply bo_successors; [exact Hok | exact Hin |].
      unfold successors; rewrite Hr; apply elem_of_app; right; by apply list_elem_of_singleton.
Qed.

Lemma filter_absent (e : EdgePtr) (es : list EdgePtr) : (e ∉ es) -> filter (fun x => x <> e) es = es.
Proof.
  induction es as [| x es IH]; [done |]; intros [Hne Hn]%not_elem_of_cons; by rewrite filter_cons_True, IH by auto.
Qed.

(** The element replaced is the edge that moves. *)
Lemma insert_filter (es : list EdgePtr) idx e e' :
  NoDup es -> es !! idx = Some e -> (e' ∉ es) -> <[idx := e']> es ≡ₚ filter (fun x => x <> e) (es ++ [e']).
Proof.
  revert idx; induction es as [| x es IH]; intros [| idx] Hnd; try done; apply NoDup_cons in Hnd as [Hx Hnd]; cbn [lookup list_lookup insert list_insert app].
  - intros [= ->] [Hne Hn]%not_elem_of_cons; rewrite filter_cons_False by auto; rewrite filter_app, (filter_absent e es), filter_cons_True, filter_nil by done.
    apply Permutation_cons_append.
  - intros Hi [Hne Hn]%not_elem_of_cons; rewrite filter_cons_True; [by rewrite (IH idx) |]; intros ->.
    by apply Hx; eapply list_elem_of_lookup_2.
Qed.

(** The block [y] when a node is put on the edge from [p] to [s]. *)
Definition inserted_block (e' idx : nat) (p s n y : BlockPtr) (b : MachineBasicBlock) : MachineBasicBlock :=
  {| insn_list := if decide (y = p) then default (insn_list b) (redirect_last s n (insn_list b)) else insn_list b;
     in_edges := if decide (y = s) then <[idx := e']> (in_edges b) else in_edges b;
     out_edges := out_edges b; live_in := live_in b; live_out := live_out b; is_recovery := is_recovery b |}.

Lemma InsertNodeOnEdge_eq e idx p s ir :
  wf_graph ir -> insertable e idx p s ir -> exists ir', InsertNodeOnEdge e idx ir = Some ir' /\ num_vreg ir' = num_vreg ir /\
    bb_list ir' = bb_list ir ++ [num_bb ir] /\ num_bb ir' = Datatypes.S (num_bb ir) /\ next_edge ir' = Datatypes.S (next_edge ir) /\
    edges ir' = edges (move_edge e p s (num_bb ir) (add_node s ir)) /\
    blocks ir' !! num_bb ir = Some (add_in_edge e (node_block s (next_edge ir))) /\
    (forall y, y <> num_bb ir -> blocks ir' !! y = inserted_block (next_edge ir) idx p s (num_bb ir) y <$> blocks ir !! y).
Proof.
  intros Hwf His; pose proof (insertable_movable _ _ _ _ _ Hwf His) as Hmv.
  pose proof (add_node_wf ir s Hwf (is_enrolled _ _ _ _ _ His) (is_rec _ _ _ _ _ His)) as Hwf'.
  destruct (movable_redirect _ _ _ _ _ Hwf' Hmv) as (_ & b & l & i & i' & Hb & Hl & Ho & Ht & Hr & Hrl & _).
  pose proof His as [(x & Hx & Hp & Hd) (bs & Hbs & Hi) Hs _]; pose proof (enrolled_ne ir Hwf s Hs) as Hsn.
  assert (Hpn : p <> num_bb ir).
  { intros ->; rewrite add_node_new in Hb; injection Hb as <-; apply list_elem_of_singleton in Ho as ->.
    by apply (edge_ne ir Hwf (next_edge ir) x). }
  rewrite add_node_block in Hb by done; apply fmap_Some in Hb as (b0 & Hb0 & ->); rewrite noded_insns in Hrl.
  unfold InsertNodeOnEdge; rewrite Hx; cbn [mbind option_bind]; rewrite Hp, Hd.
  unfold NewBasicBlock, new_edge, ChangeBranchTarget; cbn [blocks update_block set_blocks set_dst set_edges set_bb_list next_edge num_bb edges].
  set (m := alter (add_in_edge e) _ _).
  assert (Hm : forall y, y <> num_bb ir -> m !! y =
    (fun b => if decide (y = s) then set_in_edge idx (next_edge ir) b else b) <$> blocks ir !! y).
  { intros y Hy; unfold m; rewrite lookup_alter_ne by done; destruct (decide (y = s)) as [-> | Hne].
    - rewrite lookup_alter_eq, lookup_alter_ne, lookup_insert_ne by done; done.
    - rewrite lookup_alter_ne, lookup_alter_ne, lookup_insert_ne by done; by destruct (blocks ir !! y). }
  assert (Hmn : m !! num_bb ir = Some (set_insn_list [] (add_in_edge e (node_block s (next_edge ir))))).
  { unfold m; rewrite lookup_alter_eq, lookup_alter_ne by done; by rewrite lookup_alter_eq, lookup_insert_eq. }
  rewrite Hm, Hb0 by done; cbn [fmap option_fmap option_map mbind option_bind].
  assert (insn_list (if decide (p = s) then set_in_edge idx (next_edge ir) b0 else b0) = insn_list b0) as -> by (by case_decide).
  rewrite Hrl; cbn [mbind option_bind]; eexists; split; [done |]; cbn; fold m; conjs; try done.
  - by rewrite lookup_alter_eq, lookup_alter_ne, Hmn by done.
  - intros y Hy; rewrite lookup_alter_ne by done; destruct (decide (y = p)) as [-> | Hyp].
    + rewrite lookup_alter_eq, Hm, Hb0 by done; cbn [fmap option_fmap option_map]; unfold inserted_block; rewrite (decide_True (P := p = p)), Hrl by done.
      case_decide; done.
    + rewrite lookup_alter_ne, Hm by done; destruct (blocks ir !! y); [| done]; cbn [fmap option_fmap option_map]; unfold inserted_block.
      rewrite (decide_False (P := y = p)) by done; f_equal; case_decide; [done | by destruct m0].
Qed.

Lemma InsertNodeOnEdge_same e idx p s ir ir' :
  wf_graph ir -> insertable e idx p s ir -> InsertNodeOnEdge e idx ir = Some ir' ->
  same_graph ir' (move_edge e p s (num_bb ir) (add_node s ir)).
Proof.
  intros Hwf His E; destruct (InsertNodeOnEdge_eq _ _ _ _ _ Hwf His) as (ir1 & E1 & _ & Hl & Hn & Hne & He & Hnew & Hold).
  rewrite E in E1; injection E1 as <-; unfold same_graph; conjs; try done; intros y; rewrite move_edge_block.
  pose proof His as [(x & Hx & _ & Hd) (bs & Hbs & Hi) Hs _]; pose proof (enrolled_ne ir Hwf s Hs) as Hsn.
  destruct (decide (y = num_bb ir)) as [-> | Hy].
  - rewrite Hnew, add_node_new; constructor; unfold block_eq, moved_block; cbn.
    rewrite (decide_False (P := num_bb ir = s)), (decide_True (P := num_bb ir = num_bb ir)) by done; conjs; try done.
    case_decide as Hp; [| done]; exfalso; destruct (movable_redirect _ _ _ _ _ (add_node_wf ir s Hwf Hs (is_rec _ _ _ _ _ His))
      (insertable_movable _ _ _ _ _ Hwf His)) as (_ & b & _ & _ & _ & Hb & _ & Ho & _).
    rewrite <- Hp, add_node_new in Hb; injection Hb as <-; apply list_elem_of_singleton in Ho as ->; by apply (edge_ne ir Hwf (next_edge ir) x).
  - rewrite Hold, add_node_block by done; destruct (blocks ir !! y) as [b |] eqn:Hb; [| constructor]; constructor; cbn.
    unfold block_eq, inserted_block, moved_block; cbn; rewrite noded_insns, noded_out, noded_in; conjs; try done.
    rewrite (decide_False (P := y = num_bb ir)) by done; case_decide as Hys; [| by rewrite app_nil_r]; subst y.
    assert (bs = b) as -> by congruence; pose proof (wg_ok _ _ _ Hwf Hs Hb) as Hok; apply insert_filter; [apply Hok | done |].
    intros Hin; destruct (bo_in _ _ _ Hok _ Hin) as (x' & d & Hx' & _); by apply (edge_ne ir Hwf (next_edge ir) x').
Qed.

(** The [idx]-th in edge of [y] comes from a block with one out edge. *)
Definition noncritical (ir : MachineIR) (y : BlockPtr) (idx : nat) : Prop :=
  forall b e x p, blocks ir !! y = Some b -> in_edges b !! idx = Some e -> edges ir !! e = Some x ->
    blocks ir !! edge_src x = Some p -> (length (out_edges p) < 2)%nat.

Lemma InsertNodeOnEdge_noncritical e idx p s ir ir' y idx' :
  wf_graph ir -> insertable e idx p s ir -> InsertNodeOnEdge e idx ir = Some ir' -> y ∈ bb_list ir ->
  noncritical ir y idx' \/ (y = s /\ idx' = idx) -> noncritical ir' y idx'.
Proof.
  intros Hwf His E Hy Hnc b' e1 x1 p1; destruct (InsertNodeOnEdge_eq _ _ _ _ _ Hwf His) as (ir1 & E1 & _ & Hl & Hn & Hne & He & Hnew & Hold).
  rewrite E in E1; injection E1 as <-; rewrite Hold by (by apply enrolled_ne); intros (b & Hb & ->)%fmap_Some; cbn [inserted_block in_edges].
  pose proof His as [(x & Hx & Hp & Hd) (bs & Hbs & Hi) Hs _]; pose proof (wg_ok _ _ _ Hwf Hy Hb) as Hok.
  assert (Hkeep : forall e1, e1 <> e -> in_edges b !! idx' = Some e1 -> ~ (y = s /\ idx' = idx) -> edges ir' !! e1 = Some x1 ->
    blocks ir' !! edge_src x1 = Some p1 -> (length (out_edges p1) < 2)%nat).
  { clear e1; intros e1 Hee Hlk Hno Hx1 Hp1; rewrite He, move_edge_other in Hx1 by done.
    destruct (bo_in _ _ _ Hok e1 ltac:(by eapply list_elem_of_lookup_2)) as (x1' & d & Hx1' & _ & Hsrc & Hdb & _).
    rewrite (add_node_edge ir s Hwf e1 x1' Hx1') in Hx1; injection Hx1 as ->; rewrite Hold, Hdb in Hp1 by (by apply enrolled_ne).
    injection Hp1 as <-; cbn; destruct Hnc as [Hnc | ?]; [by eapply (Hnc b e1 x1 d) | done]. }
  destruct (decide (y = s /\ idx' = idx)) as [[-> ->] | Hno].
  - assert (bs = b) as -> by congruence; rewrite decide_True, list_lookup_insert_eq by (done || by eapply lookup_lt_Some).
    intros [= <-]; rewrite He, move_edge_other, add_node_new_edge by (intros ?; by eapply (edge_ne ir Hwf e x)).
    intros [= <-]; cbn [edge_src]; rewrite Hnew; intros [= <-]; cbn; lia.
  - assert (Hin : (if decide (y = s) then <[idx := next_edge ir]> (in_edges b) else in_edges b) !! idx' = in_edges b !! idx').
    { case_decide; [| done]; apply list_lookup_insert_ne; intros ->; by apply Hno. }
    rewrite Hin; intros Hlk; apply Hkeep; try done; intros ->.
    assert (edge_dst x = y) as Hdy by (eapply in_edge_dst; try done; by eapply list_elem_of_lookup_2).
    apply Hno; split; [congruence |]; assert (bs = b) as -> by congruence; eapply NoDup_lookup; [apply Hok | exact Hlk | exact Hi].
Qed.

(** *** What the nodes leave alone *)

(** The blocks of [ir'] are those of [ir] with the targets of their branches
    changed, and nodes with nothing but a branch; no register lives longer. *)
Record retargets (ir ir' : MachineIR) : Prop := {
  rt_vregs : num_vreg ir' = num_vreg ir;
  rt_size : (num_bb ir' + length (bb_list ir) = num_bb ir + length (bb_list ir'))%nat;
  rt_old : forall y b, y ∈ bb_list ir -> blocks ir !! y = Some b -> exists b' l j d, blocks ir' !! y = Some b' /\ live_out b' = live_out b /\
    insn_list b = l ++ [j] /\ insn_list b' = l ++ [set_data d j] /\ IsControlTransfer (set_data d j) = true;
  rt_new : forall y b', y ∈ bb_list ir' -> (y ∉ bb_list ir) -> blocks ir' !! y = Some b' -> live_out b' = [] /\
    exists d, insn_list b' = [set_data d (new_PseudoBranch 0)] /\ IsControlTransfer (set_data d (new_PseudoBranch 0)) = true;
  rt_lives : forall y v, y ∈ bb_list ir -> lives ir' v y -> lives ir v y
}.

Lemma set_data_same i : set_data (data i) i = i.
Proof. by destruct i. Qed.
Lemma set_data_twice d d' i : set_data d (set_data d' i) = set_data d i.
Proof. done. Qed.

Lemma retargets_refl ir : wf_graph ir -> retargets ir ir.
Proof.
  intros Hwf; split; try done; [].
  intros y b Hy Hb; destruct (bo_last _ _ _ (wg_ok _ _ _ Hwf Hy Hb)) as (l & j & Hl & Hj & _); exists b, l, j, (data j); by rewrite set_data_same.
Qed.

Lemma retargets_trans ir1 ir2 ir3 :
  wf_graph ir2 -> (forall y, y ∈ bb_list ir1 -> y ∈ bb_list ir2) -> retargets ir1 ir2 -> retargets ir2 ir3 -> retargets ir1 ir3.
Proof.
  intros Hwf Hsub [A1 A2 A3 A4 A5] [B1 B2 B3 B4 B5]; split; [congruence | lia | | |].
  - intros y b Hy Hb; destruct (A3 y b Hy Hb) as (b2 & l & j & d & Hb2 & Hlo & Hl & Hl2 & _).
    destruct (B3 y b2 (Hsub y Hy) Hb2) as (b3 & l2 & j2 & d2 & Hb3 & Hlo2 & Hl3 & Hl4 & Hc); rewrite Hl2 in Hl3; apply app_inj_tail in Hl3 as [<- <-].
    exists b3, l, j, d2; rewrite Hlo2, Hlo; done.
  - intros y b3 Hy Hn Hb3; destruct (decide (y ∈ bb_list ir2)) as [Hy2 | Hy2]; [| by apply (B4 y)].
    destruct (wg_block _ Hwf y Hy2) as (b2 & Hb2 & _); destruct (A4 y b2 Hy2 Hn Hb2) as (Hlo & d & Hl & _).
    destruct (B3 y b2 Hy2 Hb2) as (b & l2 & j2 & d2 & Hb & Hlo2 & Hl2 & Hl3 & Hc); assert (b = b3) as -> by congruence.
    rewrite Hl in Hl2; destruct l2 as [| ? [| ? ?]]; cbn in Hl2; [| done | done]; injection Hl2 as <-.
    split; [congruence |]; exists d2; by rewrite Hl3.
  - intros y v Hy Hl; apply A5, B5; auto.
Qed.

Lemma redirect_set_data s t i i' : redirect s t i = Some i' -> exists d, i' = set_data d i.
Proof.
  unfold redirect; destruct (data i) as [u | c u v | | | | | | | | | |] eqn:Hd; try done.
  - destruct (u =? s)%nat; [| done]; intros [= <-]; by eexists.
  - intros [= <-]; destruct (u =? s)%nat; [by eexists |]; destruct (v =? s)%nat; [by eexists |]; exists (data i); by rewrite set_data_same.
Qed.

Lemma read_first_retarget l j d v : read_first (l ++ [set_data d j]) v <-> read_first (l ++ [j]) v.
Proof. induction l as [| i l IH]; [done |]; cbn [app read_first]; by rewrite IH. Qed.
Lemma never_written_retarget l j d v : never_written (l ++ [set_data d j]) v <-> never_written (l ++ [j]) v.
Proof. induction l as [| i l IH]; [done |]; cbn [app never_written]; by rewrite IH. Qed.

Section Retargets.
Context (e : EdgePtr) (idx : nat) (p s : BlockPtr) (ir ir' : MachineIR).
Context (Hwf : wf_graph ir) (His : insertable e idx p s ir) (E : InsertNodeOnEdge e idx ir = Some ir').

Lemma inserted_insns y b : y ∈ bb_list ir -> blocks ir !! y = Some b -> exists b' l j d, blocks ir' !! y = Some b' /\ live_out b' = live_out b /\
  out_edges b' = out_edges b /\ insn_list b = l ++ [j] /\ insn_list b' = l ++ [set_data d j] /\ IsControlTransfer (set_data d j) = true.
Proof.
  intros Hy Hb; destruct (InsertNodeOnEdge_eq _ _ _ _ _ Hwf His) as (ir1 & E1 & _ & _ & _ & _ & _ & _ & Hold); rewrite E in E1; injection E1 as <-.
  specialize (Hold y (enrolled_ne ir Hwf y Hy)); rewrite Hb in Hold; destruct (bo_last _ _ _ (wg_ok _ _ _ Hwf Hy Hb)) as (l & j & Hl & Hj & _).
  exists (inserted_block (next_edge ir) idx p s (num_bb ir) y b), l, j; destruct (decide (y = p)) as [-> | Hne].
  - assert (Hi' : exists i', redirect s (num_bb ir) j = Some i').
    { pose proof (insertable_movable _ _ _ _ _ Hwf His) as Hmv; pose proof (add_node_wf ir s Hwf (is_enrolled _ _ _ _ _ His) (is_rec _ _ _ _ _ His)) as Hwfa.
      destruct (movable_redirect _ _ _ _ _ Hwfa Hmv) as (_ & b0 & l0 & i & i' & Hb0 & Hl0 & _ & _ & Hr & _).
      rewrite add_node_block, Hb in Hb0 by (by apply enrolled_ne); injection Hb0 as <-; rewrite noded_insns, Hl in Hl0; apply app_inj_tail in Hl0 as [_ ->]; by exists i'. }
    destruct Hi' as [i' Hr]; destruct (redirect_set_data _ _ _ _ Hr) as [d ->]; exists d; conjs; [exact Hold | done | done | done | | apply (redirect_spec _ _ _ _ Hr)].
    cbn [inserted_block insn_list]; by rewrite decide_True, Hl, redirect_last_snoc, Hr by done.
  - exists (data j); rewrite set_data_same; conjs; [exact Hold | done | done | done | | done]; cbn [inserted_block insn_list]; by rewrite decide_False.
Qed.

(** An edge of the old blocks, or the way over the node. *)
Lemma inserted_edge y y' : y ∈ bb_list ir -> edge_to ir' y y' -> edge_to ir y y' \/ y' = num_bb ir /\ edge_to ir y s.
Proof.
  intros Hy (b' & e1 & x1 & Hb' & He1 & Hx1 & Hd1); destruct (wg_block _ Hwf y Hy) as (b & Hb & Hok).
  destruct (inserted_insns y b Hy Hb) as (b2 & l & j & d & Hb2 & _ & Ho & _); assert (b2 = b') as -> by congruence; rewrite Ho in He1.
  destruct (bo_out _ _ _ Hok e1 He1) as (x & t & Hx & _).
  destruct (InsertNodeOnEdge_eq _ _ _ _ _ Hwf His) as (ir1 & E1 & _ & _ & _ & _ & He & _); rewrite E in E1; injection E1 as <-; rewrite He, move_edge_edge in Hx1.
  rewrite (add_node_edge ir s Hwf e1 x Hx) in Hx1; cbn in Hx1; destruct (decide (e1 = e)) as [-> | Hne]; injection Hx1 as <-.
  - right; cbn in Hd1; split; [done |]; pose proof His as [(x0 & Hx0 & _ & Hd0) _ _ _]; exists b, e, x0; done.
  - left; by exists b, e1, x.
Qed.

Lemma inserted_node_edge y' : edge_to ir' (num_bb ir) y' -> y' = s.
Proof.
  intros (b' & e1 & x1 & Hb' & He1 & Hx1 & Hd1).
  destruct (InsertNodeOnEdge_eq _ _ _ _ _ Hwf His) as (ir1 & E1 & _ & _ & _ & _ & He & Hnew & _); rewrite E in E1; injection E1 as <-.
  rewrite Hnew in Hb'; injection Hb' as <-; cbn in He1; apply list_elem_of_singleton in He1 as ->.
  pose proof His as [(x0 & Hx0 & _ & Hd0) _ _ _]; rewrite He, move_edge_other, add_node_new_edge in Hx1 by (intros Heq; by apply (edge_ne ir Hwf e x0 Hx0)).
  by injection Hx1 as <-.
Qed.

Lemma inserted_lives v y : lives ir' v y -> (y ∈ bb_list ir -> lives ir v y) /\ (y = num_bb ir -> lives ir v s).
Proof.
  destruct (InsertNodeOnEdge_eq _ _ _ _ _ Hwf His) as (ir1 & E1 & _ & _ & _ & _ & _ & Hnew & _); rewrite E in E1; injection E1 as <-.
  induction 1 as [y b' Hb' Hr | y b' y' Hb' Hn He _ [IH1 IH2]]; split.
  - intros Hy; destruct (wg_block _ Hwf y Hy) as (b & Hb & _); destruct (inserted_insns y b Hy Hb) as (b2 & l & j & d & Hb2 & _ & _ & Hl & Hl' & _).
    assert (b2 = b') as -> by congruence; rewrite Hl', read_first_retarget, <- Hl in Hr; by eapply lives_here.
  - intros ->; rewrite Hnew in Hb'; injection Hb' as <-; cbn in Hr; destruct Hr as [(r & k & Ho & _) | [_ []]]; by apply not_elem_of_nil in Ho.
  - intros Hy; destruct (wg_block _ Hwf y Hy) as (b & Hb & Hok); destruct (inserted_insns y b Hy Hb) as (b2 & l & j & d & Hb2 & _ & _ & Hl & Hl' & _).
    assert (b2 = b') as -> by congruence; rewrite Hl', never_written_retarget, <- Hl in Hn.
    destruct (inserted_edge y y' Hy He) as [He' | [-> He']]; (eapply lives_later; [exact Hb | done | exact He' |]); [apply IH1 | by apply IH2].
    destruct He' as (b0 & e1 & x1 & Hb0 & Hin & Hx1 & <-); assert (b0 = b) as -> by congruence; destruct (bo_out _ _ _ Hok e1 Hin) as (x & t & Hx & _ & Ht & _); congruence.
  - intros ->; rewrite (inserted_node_edge y' He) in IH1; apply IH1, His.
Qed.

Lemma inserted_retargets : retargets ir ir'.
Proof.
  destruct (InsertNodeOnEdge_eq _ _ _ _ _ Hwf His) as (ir1 & E1 & Hnv & Hl & Hn & _ & _ & Hnew & _); rewrite E in E1; injection E1 as <-; split.
  - done.
  - rewrite Hn, Hl, length_app; cbn; lia.
  - intros y b Hy Hb; destruct (inserted_insns y b Hy Hb) as (b' & l & j & d & ? & ? & _ & ?); by exists b', l, j, d.
  - intros y b' Hy Hny Hb'; rewrite Hl in Hy; apply elem_of_app in Hy as [? | ->%list_elem_of_singleton]; [done |].
    rewrite Hnew in Hb'; injection Hb' as <-; split; [done |]; by exists (PseudoBranch s).
  - intros y v Hy Hlv; by apply inserted_lives.
Qed.

End Retargets.

Section Split.
Context {V W : Type} `{!MachineSem V W}.

(** [ir'] is [ir] with nodes put on some edges. *)
Record splits (ir ir' : MachineIR) : Prop := {
  sp_wf : wf_graph ir';
  sp_list : exists N, bb_list ir' = bb_list ir ++ N /\ forall y b, y ∈ N -> blocks ir' !! y = Some b -> length (in_edges b) = 1%nat;
  sp_block : forall y b, y ∈ bb_list ir -> blocks ir !! y = Some b -> exists b', blocks ir' !! y = Some b' /\
    length (in_edges b') = length (in_edges b) /\ out_edges b' = out_edges b;
  sp_noncritical : forall y idx, y ∈ bb_list ir -> noncritical ir y idx -> noncritical ir' y idx;
  sp_retargets : retargets ir ir';
  sp_runs : forall y, y ∈ bb_list ir -> equal_runs (V := V) (W := W) y ir ir'
}.

Lemma splits_refl ir : wf_graph ir -> splits ir ir.
Proof.
  intros Hwf; split; try done.
  - exists []; rewrite app_nil_r; split; [done |]; intros y b Hy; by apply not_elem_of_nil in Hy.
  - intros y b _ Hb; by exists b.
  - by apply retargets_refl.
Qed.

Lemma splits_sub ir ir' y : splits ir ir' -> y ∈ bb_list ir -> y ∈ bb_list ir'.
Proof. intros Hsp Hy; destruct (sp_list _ _ Hsp) as (N & -> & _); apply elem_of_app; by left. Qed.

Lemma splits_trans ir1 ir2 ir3 : splits ir1 ir2 -> splits ir2 ir3 -> splits ir1 ir3.
Proof.
  intros H1 H2; assert (Hsub : forall y, y ∈ bb_list ir1 -> y ∈ bb_list ir2) by (intros; by eapply splits_sub); split.
  - apply H2.
  - destruct (sp_list _ _ H1) as (N1 & E1 & HN1), (sp_list _ _ H2) as (N2 & E2 & HN2); exists (N1 ++ N2).
    rewrite E2, E1, app_assoc; split; [done |]; intros y b [Hy | Hy]%elem_of_app Hb; [| by eapply HN2].
    assert (y ∈ bb_list ir2) as Hy2 by (rewrite E1; apply elem_of_app; by right).
    destruct (wg_block _ (sp_wf _ _ H1) y Hy2) as (b2 & Hb2 & _); destruct (sp_block _ _ H2 y b2 Hy2 Hb2) as (b3 & Hb3 & Hlen & _).
    assert (b3 = b) as -> by congruence; rewrite Hlen; by eapply HN1.
  - intros y b Hy Hb; destruct (sp_block _ _ H1 y b Hy Hb) as (b2 & Hb2 & Hl2 & Ho2).
    destruct (sp_block _ _ H2 y b2 (Hsub y Hy) Hb2) as (b3 & ? & ? & ?); exists b3; conjs; congruence.
  - intros y idx Hy Hn; apply H2, H1; auto.
  - eapply retargets_trans; [apply H1 | done | apply H1 | apply H2].
  - intros y Hy; etrans; [by apply H1 | apply H2; auto].
Qed.

Lemma InsertNodeOnEdge_splits e idx p s ir :
  wf_graph ir -> insertable e idx p s ir ->
  exists ir', InsertNodeOnEdge e idx ir = Some ir' /\ splits ir ir' /\ noncritical ir' s idx /\
    length (bb_list ir') = Datatypes.S (length (bb_list ir)).
Proof.
  intros Hwf His; destruct (InsertNodeOnEdge_eq _ _ _ _ _ Hwf His) as (ir' & E & Hnv & Hl & Hn & Hne & He & Hnew & Hold).
  pose proof (InsertNodeOnEdge_same _ _ _ _ _ _ Hwf His E) as Hsg; pose proof (insertable_movable _ _ _ _ _ Hwf His) as Hmv.
  pose proof His as [_ _ Hs Hrec]; pose proof (add_node_wf ir s Hwf Hs Hrec) as Hwfa; pose proof (move_edge_wf _ _ _ _ _ Hwfa Hmv) as Hwfm.
  assert (Hwf' : wf_graph ir') by (by rewrite Hsg).
  exists ir'; conjs; [done | split | eapply InsertNodeOnEdge_noncritical; [exact Hwf | exact His | exact E | done | by right] | rewrite Hl, length_app; cbn; lia].
  - done.
  - exists [num_bb ir]; split; [done |]; intros y b ->%list_elem_of_singleton; rewrite Hnew; by intros [= <-].
  - intros y b Hy Hb; eexists; rewrite Hold, Hb by (by apply enrolled_ne); conjs; [done | | done]; cbn; case_decide; [apply length_insert | done].
  - intros y idx' Hy Hnc; eapply InsertNodeOnEdge_noncritical; [exact Hwf | exact His | exact E | done | by left].
  - by eapply inserted_retargets.
  - intros y Hy; etrans; [by apply add_node_runs|]; etrans; [apply (move_edge_runs e p s (num_bb ir)); [done | done | by apply add_node_in |] |].
    + left; exists (moved_block e p s (num_bb ir) (num_bb ir) (node_block s (next_edge ir))); rewrite move_edge_block, add_node_new; split; [done |].
      pose proof (same_graph_block _ _ _ _ Hsg Hnew) as (b' & Hb' & Hi & _); rewrite move_edge_block, add_node_new in Hb'; injection Hb' as <-.
      rewrite <- Hi; intros ρ w; cbn [insn_list add_in_edge set_in_edges node_block].
      destruct (run_transfer (new_PseudoBranch s) ρ w) as (ex & Hex & ->); try done; cbn in Hex; by injection Hex as <-.
    + apply same_insns_runs; [done | | by apply add_node_in]; intros z b _ Hz; symmetry in Hsg.
      destruct (same_graph_block _ _ _ _ Hsg Hz) as (b' & ? & ? & _); by exists b'.
Qed.

(** A block with several in edges is no recovery block. *)
Lemma not_recovery ir y b bb c :
  wf_graph ir -> blocks ir !! y = Some b -> (2 <= length (in_edges b))%nat -> bb ∈ bb_list ir -> blocks ir !! bb = Some c ->
  y ∉ recoveries (insn_list c).
Proof. intros Hwf Hb Hlen Hbb Hc Hin; pose proof (bo_rec _ _ _ (wg_ok _ _ _ Hwf Hbb Hc) y b Hin Hb); lia. Qed.

Lemma split_in_edge_ok ir y b idx :
  wf_graph ir -> y ∈ bb_list ir -> blocks ir !! y = Some b -> (2 <= length (in_edges b))%nat -> (idx < length (in_edges b))%nat ->
  exists ir', split_in_edge y idx ir = Some ir' /\ splits ir ir' /\ noncritical ir' y idx /\
    (length (bb_list ir') <= Datatypes.S (length (bb_list ir)))%nat.
Proof.
  intros Hwf Hy Hb Hlen Hidx; unfold split_in_edge; rewrite Hb; cbn [mbind option_bind].
  destruct (lookup_lt_is_Some_2 _ _ Hidx) as [e He]; rewrite He; cbn [mbind option_bind].
  destruct (bo_in _ _ _ (wg_ok _ _ _ Hwf Hy Hb) e ltac:(by eapply list_elem_of_lookup_2)) as (x & p & Hx & Hd & Hsl & Hp & Ho).
  rewrite Hx; cbn [mbind option_bind]; rewrite Hp; cbn [mbind option_bind].
  destruct (Nat.leb_spec 2 (length (out_edges p))).
  - destruct (InsertNodeOnEdge_splits e idx (edge_src x) y ir Hwf) as (ir' & -> & ? & ? & ?).
    { split; [by exists x | by exists b | done |]; intros bb c Hbb Hc; by eapply not_recovery. }
    exists ir'; conjs; try done; lia.
  - exists ir; conjs; [done | by apply splits_refl | | lia]; intros b' e' x' p' ? ? ? ?; congruence || (assert (p' = p) as -> by congruence; lia).
Qed.

Lemma split_in_edges_loop y m : forall idx ir,
  wf_graph ir -> y ∈ bb_list ir -> (forall b, blocks ir !! y = Some b -> (2 <= length (in_edges b))%nat /\ (idx + m = length (in_edges b))%nat) ->
  (forall j, (j < idx)%nat -> noncritical ir y j) ->
  exists ir', for_each (split_in_edge y) (seq idx m) ir = Some ir' /\ splits ir ir' /\ (forall j, (j < idx + m)%nat -> noncritical ir' y j) /\
    (length (bb_list ir') <= m + length (bb_list ir))%nat.
Proof.
  induction m as [| m IH]; intros idx ir Hwf Hy Hlen Hnc; cbn [seq for_each].
  { exists ir; rewrite Nat.add_0_r; conjs; try done; [by apply splits_refl]. }
  destruct (wg_block _ Hwf y Hy) as (b & Hb & _); destruct (Hlen b Hb) as [H2 Hm].
  destruct (split_in_edge_ok ir y b idx Hwf Hy Hb H2 ltac:(lia)) as (ir1 & -> & Hsp & Hnc1 & Hl1); cbn [mbind option_bind].
  destruct (sp_block _ _ Hsp y b Hy Hb) as (b1 & Hb1 & Hlb1 & _).
  destruct (IH (Datatypes.S idx) ir1) as (ir2 & -> & Hsp2 & Hnc2 & Hl2).
  - apply Hsp.
  - by eapply splits_sub.
  - intros b' Hb'; assert (b' = b1) as -> by congruence; lia.
  - intros j Hj; destruct (decide (j = idx)) as [-> | ?]; [done |]; apply (sp_noncritical _ _ Hsp); [done | apply Hnc; lia].
  - exists ir2; conjs; [done | by eapply splits_trans | intros j Hj; apply Hnc2; lia | lia].
Qed.

(** No in edge of [y] is critical. *)
Definition settled (ir : MachineIR) (y : BlockPtr) : Prop :=
  exists b, blocks ir !! y = Some b /\
    ((length (in_edges b) < 2)%nat \/ forall j, (j < length (in_edges b))%nat -> noncritical ir y j).

Lemma settled_splits ir ir' y : splits ir ir' -> y ∈ bb_list ir -> settled ir y -> settled ir' y.
Proof.
  intros Hsp Hy (b & Hb & Hs); destruct (sp_block _ _ Hsp y b Hy Hb) as (b' & Hb' & Hl & _); exists b'; rewrite Hl; split; [done |].
  destruct Hs as [? | Hs]; [by left | right; intros j Hj; apply (sp_noncritical _ _ Hsp); auto].
Qed.

Definition in_count (ir : MachineIR) (y : BlockPtr) : nat := match blocks ir !! y with Some b => length (in_edges b) | None => 0 end.

Lemma split_in_edges_ok ir y :
  wf_graph ir -> y ∈ bb_list ir ->
  exists ir', split_in_edges y ir = Some ir' /\ splits ir ir' /\ settled ir' y /\ (length (bb_list ir') <= in_count ir y + length (bb_list ir))%nat.
Proof.
  intros Hwf Hy; destruct (wg_block _ Hwf y Hy) as (b & Hb & _); unfold split_in_edges, in_count; rewrite Hb; cbn [mbind option_bind].
  destruct (Nat.ltb_spec (length (in_edges b)) 2).
  - exists ir; conjs; [done | by apply splits_refl | by exists b; auto | lia].
  - destruct (split_in_edges_loop y (length (in_edges b)) 0 ir Hwf Hy) as (ir' & -> & Hsp & Hnc & Hl).
    { intros b' Hb'; assert (b' = b) as -> by congruence; lia. }
    { lia. }
    exists ir'; conjs; try done; destruct (sp_block _ _ Hsp y b Hy Hb) as (b' & Hb' & Hlb & _); exists b'; rewrite Hlb; auto.
Qed.

Lemma split_edges_rest rest : forall pre ir fuel,
  wf_graph ir -> bb_list ir = pre ++ rest -> (forall y b, y ∈ rest -> blocks ir !! y = Some b -> (length (in_edges b) < 2)%nat) ->
  (length rest <= fuel)%nat -> split_edges fuel (length pre) ir = Some (true, ir).
Proof.
  induction rest as [| y rest IH]; intros pre ir fuel Hwf Hl Hin Hf.
  { destruct fuel; cbn [split_edges]; rewrite Hl, app_nil_r, lookup_ge_None_2 by lia; done. }
  destruct fuel as [| fuel]; [cbn in Hf; lia |]; cbn [split_edges]; rewrite Hl, list_lookup_middle by done.
  assert (y ∈ bb_list ir) as Hy by (rewrite Hl; apply elem_of_app; right; apply elem_of_cons; by left).
  destruct (wg_block _ Hwf y Hy) as (b & Hb & _); unfold split_in_edges; rewrite Hb; cbn [mbind option_bind].
  rewrite (proj2 (Nat.ltb_lt _ _)) by (apply (Hin y b); [apply elem_of_cons; by left | done]); cbn [mbind option_bind].
  replace (Datatypes.S (length pre)) with (length (pre ++ [y])) by (rewrite length_app; cbn; lia).
  apply IH; [done | by rewrite <- app_assoc | | cbn in Hf; lia]; intros z c Hz; apply Hin, elem_of_cons; by right.
Qed.

Lemma in_count_splits ir ir' l :
  splits ir ir' -> (forall y, y ∈ l -> y ∈ bb_list ir) -> wf_graph ir -> sum_list_with (in_count ir') l = sum_list_with (in_count ir) l.
Proof.
  intros Hsp Hin Hwf; induction l as [| y l IH]; [done |]; cbn; rewrite IH by (intros; apply Hin, elem_of_cons; by right); f_equal.
  assert (y ∈ bb_list ir) as Hy by (apply Hin, elem_of_cons; by left); destruct (wg_block _ Hwf y Hy) as (b & Hb & _).
  destruct (sp_block _ _ Hsp y b Hy Hb) as (b' & Hb' & Hl & _); unfold in_count; by rewrite Hb, Hb'.
Qed.

Lemma split_edges_loop todo : forall pre N ir fuel,
  wf_graph ir -> bb_list ir = pre ++ todo ++ N -> (forall y b, y ∈ N -> blocks ir !! y = Some b -> length (in_edges b) = 1%nat) ->
  (forall y, y ∈ pre -> settled ir y) -> (length todo + length N + sum_list_with (in_count ir) todo <= fuel)%nat ->
  exists ir', split_edges fuel (length pre) ir = Some (true, ir') /\ splits ir ir' /\
    (length (bb_list ir') <= length (bb_list ir) + sum_list_with (in_count ir) todo)%nat /\ forall y, y ∈ bb_list ir' -> settled ir' y.
Proof.
  induction todo as [| y todo IH]; intros pre N ir fuel Hwf Hl HN Hpre Hf.
  { exists ir; conjs; [| by apply splits_refl | lia |].
    - apply (split_edges_rest N); [done | done | | cbn in Hf; lia]; intros y b Hy Hb; rewrite (HN y b Hy Hb); lia.
    - intros y Hy; pose proof Hy as Hy'; rewrite Hl in Hy'; apply elem_of_app in Hy' as [? | Hy']; [by apply Hpre |].
      destruct (wg_block _ Hwf y Hy) as (b & Hb & _); exists b; split; [done |]; left; rewrite (HN y b Hy' Hb); lia. }
  destruct fuel as [| fuel]; [cbn in Hf; lia |]; cbn [split_edges]; rewrite Hl; cbn [app]; rewrite list_lookup_middle by done.
  assert (Hin : forall z, z ∈ pre ++ y :: todo -> z ∈ bb_list ir).
  { intros z Hz; rewrite Hl, app_assoc; apply elem_of_app; by left. }
  assert (y ∈ bb_list ir) as Hy by (apply Hin, elem_of_app; right; apply elem_of_cons; by left).
  destruct (split_in_edges_ok ir y Hwf Hy) as (ir1 & -> & Hsp & Hst & Hlen); cbn [mbind option_bind].
  destruct (sp_list _ _ Hsp) as (N1 & Hl1 & HN1); rewrite Hl in Hl1, Hlen.
  replace (Datatypes.S (length pre)) with (length (pre ++ [y])) by (rewrite length_app; cbn; lia).
  destruct (IH (pre ++ [y]) (N ++ N1) ir1 fuel) as (ir2 & E & Hsp2 & Hlen2 & Hst2).
  - apply Hsp.
  - rewrite Hl1, <- !app_assoc; done.
  - intros z c [Hz | Hz]%elem_of_app Hc; [| by eapply HN1].
    assert (z ∈ bb_list ir) as Hzl by (rewrite Hl, app_assoc; apply elem_of_app; by right).
    destruct (wg_block _ Hwf z Hzl) as (c0 & Hc0 & _); destruct (sp_block _ _ Hsp z c0 Hzl Hc0) as (c1 & Hc1 & Hlc & _).
    assert (c1 = c) as -> by congruence; rewrite Hlc; by eapply HN.
  - intros z [Hz | ->%list_elem_of_singleton]%elem_of_app; [| done]; eapply settled_splits; [done | | by apply Hpre].
    apply Hin, elem_of_app; by left.
  - rewrite (in_count_splits ir ir1) by (try done; intros z Hz; apply Hin, elem_of_app; right; apply elem_of_cons; by right).
    rewrite Hl1, !length_app in Hlen; rewrite !length_app; cbn in Hf, Hlen |- *; lia.
  - exists ir2; conjs; [done | by eapply splits_trans | | done].
    rewrite (in_count_splits ir ir1) in Hlen2 by (try done; intros z Hz; apply Hin, elem_of_app; right; apply elem_of_cons; by right).
    cbn [sum_list_with]; cbn [app] in Hlen; lia.
Qed.

End Split.

(** No edge leads from a block with several out edges to one with several in
    edges. *)
Definition critical_free (ir : MachineIR) : Prop :=
  forall y b e x p, y ∈ bb_list ir -> blocks ir !! y = Some b -> e ∈ in_edges b -> edges ir !! e = Some x ->
    blocks ir !! edge_src x = Some p -> (length (in_edges b) < 2)%nat \/ (length (out_edges p) < 2)%nat.

(** One step per block and one per block that can be added. *)
Definition critical_fuel (ir : MachineIR) : nat := length (bb_list ir) + sum_list_with (in_count ir) (bb_list ir).

Lemma RemoveCriticalEdges_splits {V W : Type} `{!MachineSem V W} (ir : MachineIR) (fuel : nat) :
  wf_graph ir -> (critical_fuel ir <= fuel)%nat ->
  exists ir', RemoveCriticalEdges fuel ir = Some (true, ir') /\ splits (V := V) (W := W) ir ir' /\ critical_free ir' /\
    (length (bb_list ir') <= critical_fuel ir)%nat.
Proof.
  intros Hwf Hf; destruct (split_edges_loop (V := V) (W := W) (bb_list ir) [] [] ir fuel) as (ir' & E & Hsp & Hlen & Hst).
  - done.
  - by rewrite app_nil_r.
  - intros y b Hy; by apply not_elem_of_nil in Hy.
  - intros y Hy; by apply not_elem_of_nil in Hy.
  - unfold critical_fuel in Hf; cbn; lia.
  - exists ir'; conjs; [done | done | | done].
    intros y b e x p Hy Hb He Hx Hp; destruct (Hst y Hy) as (b' & Hb' & Hs); assert (b' = b) as -> by congruence.
    destruct Hs as [? | Hs]; [by left | right]; apply list_elem_of_lookup in He as [j Hj].
    eapply (Hs j); eauto using lookup_lt_Some.
Qed.

(** C11: on every well-formed graph [RemoveCriticalEdges] ends without a failed
    check, in a number of steps bounded by the blocks and edges there were; the
    new graph is well formed, is accepted by the checker, has no critical edge,
    only has blocks added at its end, and computes the same from every block of
    the old one. *)
Theorem RemoveCriticalEdges_correct {V W : Type} `{!MachineSem V W} (ir : MachineIR) (fuel : nat) :
  wf_graph ir -> (critical_fuel ir <= fuel)%nat ->
  exists ir', RemoveCriticalEdges fuel ir = Some (true, ir') /\ wf_graph ir' /\ critical_free ir' /\
    CheckMachineIR ir' = Some kMachineIRCheckSuccess /\ (exists N, bb_list ir' = bb_list ir ++ N) /\
    forall bb, bb ∈ bb_list ir -> equal_runs (V := V) (W := W) bb ir ir'.
Proof.
  intros Hwf Hf; destruct (RemoveCriticalEdges_splits (V := V) (W := W) ir fuel Hwf Hf) as (ir' & E & Hsp & Hcf & _); exists ir'.
  conjs; [done | apply Hsp | done | apply wf_graph_checked, Hsp | | apply Hsp]; destruct (sp_list _ _ Hsp) as (N & ? & _); by exists N.
Qed.
