(* ===== verification/Forwarders.v ===== *)
(** * Removal of forwarder blocks

    [IsForwarderBlock], [UnlinkForwarderBlock] and [RemoveForwarderBlocks] of
    [src/backend/x86_64/machine_ir_opt.cc]: the blocks that only branch are
    unlinked and erased.  A failed [CHECK] is [None]. *)
From stdpp Require Import gmap list.
From S2P Require Import Prelude MachineIR Lifetime LifetimeAnalysis Liveness MachineIRCheck MachineSem ControlFlow.
#[local] Open Scope Z_scope.

(** ** The code *)

Definition IsForwarderBlock (ir : MachineIR) (bb : BlockPtr) : option bool :=
  b ← blocks ir !! bb;
  if negb (length (insn_list b) =? 1)%nat then Some false
  else if (length (in_edges b) =? 0)%nat then Some false
  else
    self ← (match out_edges b with [e] => x ← edges ir !! e; Some (edge_dst x =? bb)%nat | _ => Some false end);
    if (self : bool) then Some false
    else i ← last (insn_list b); Some (match data i with PseudoBranch _ => true | _ => false end).

Definition forward_edge (bb dst : BlockPtr) (e : EdgePtr) (ir : MachineIR) : option MachineIR :=
  let ir := set_dst e dst ir in
  let ir := update_block dst (add_in_edge e) ir in
  x ← edges ir !! e;
  ChangeBranchTarget (edge_src x) bb dst ir.

(** [erase] of what [find] returns. *)
Fixpoint erase_first (e : EdgePtr) (es : list EdgePtr) : option (list EdgePtr) :=
  match es with
  | [] => None
  | e' :: es => if (e' =? e)%nat then Some es else es ← erase_first e es; Some (e' :: es)
  end.

Definition UnlinkForwarderBlock (bb : BlockPtr) (ir : MachineIR) : option MachineIR :=
  b ← blocks ir !! bb;
  match out_edges b with
  | [edge] =>
      x ← edges ir !! edge;
      let dst := edge_dst x in
      ir ← for_each (forward_edge bb dst) (in_edges b) ir;
      d ← blocks ir !! dst;
      es ← erase_first edge (in_edges d);
      Some (update_block dst (set_in_edges es) ir)
  | _ => None
  end.

(** The loop at the first block of [todo], after the blocks [kept]. *)
Fixpoint remove_forwarders (kept todo : list BlockPtr) (ir : MachineIR) : option MachineIR :=
  match todo with
  | [] => Some ir
  | bb :: todo =>
      f ← IsForwarderBlock ir bb;
      if (f : bool) then
        ir ← UnlinkForwarderBlock bb ir;
        remove_forwarders kept todo (set_bb_list (kept ++ todo) ir)
      else remove_forwarders (kept ++ [bb]) todo ir
  end.

Definition RemoveForwarderBlocks (ir : MachineIR) : option MachineIR := remove_forwarders [] (bb_list ir) ir.

(** ** Moving the edges *)

Lemma erase_first_spec e es : e ∈ es -> exists es', erase_first e es = Some es' /\ es ≡ₚ e :: es'.
Proof.
  induction es as [| x es IH]; [intros H; by apply not_elem_of_nil in H |]; cbn [erase_first].
  destruct (Nat.eqb_spec x e) as [-> | Hne]; [intros _; by exists es |].
  intros [? | Hin]%elem_of_cons; [congruence |]; destruct (IH Hin) as (es' & -> & Hp); exists (x :: es'); split; [done |].
  rewrite Hp; constructor.
Qed.

(** A block that is one branch. *)
Definition lone_branch (b : MachineBasicBlock) (t : BlockPtr) : Prop :=
  exists i, insn_list b = [i] /\ data i = PseudoBranch t.

(** No fault leads to a block that is one branch. *)
Definition recovery_exits (ir : MachineIR) : Prop :=
  forall y b t d u, y ∈ bb_list ir -> blocks ir !! y = Some b -> t ∈ recoveries (insn_list b) -> blocks ir !! t = Some d ->
    ~ lone_branch d u.

(** The graph while the in edges [todo] of the forwarder [bb] are moved to
    [dst]: the vector of the block still holds the edges that have moved. *)
Definition moving (bb : BlockPtr) (todo : list EdgePtr) (ir g : MachineIR) : Prop :=
  bb_list ir = bb_list g /\ num_bb ir = num_bb g /\ next_edge ir = next_edge g /\ edges ir = edges g /\
  forall y, blocks g !! y = (fun b => if decide (y = bb) then set_in_edges todo b else b) <$> blocks ir !! y.

Record forwards (bb dst : BlockPtr) (edge : EdgePtr) (todo : list EdgePtr) (g : MachineIR) : Prop := {
  fw_bb : bb ∈ bb_list g;
  fw_dst : dst ∈ bb_list g;
  fw_ne : bb <> dst;
  fw_block : exists c, blocks g !! bb = Some c /\ lone_branch c dst /\ out_edges c = [edge] /\ in_edges c = todo;
  fw_edge : edges g !! edge = Some {| edge_src := bb; edge_dst := dst |};
  fw_rec : forall y b, y ∈ bb_list g -> blocks g !! y = Some b -> (bb ∉ recoveries (insn_list b)) /\ (dst ∉ recoveries (insn_list b))
}.

Lemma forwards_movable bb dst edge e todo g :
  wf_graph g -> forwards bb dst edge (e :: todo) g ->
  exists p, movable e p bb dst g /\ p <> bb /\ e <> edge /\ edges g !! e = Some {| edge_src := p; edge_dst := bb |}.
Proof.
  intros Hwf [Hbb Hdst Hne (c & Hc & Hlone & Ho & Hi) He Hrec].
  assert (e ∈ in_edges c) as Hin by (rewrite Hi; apply elem_of_cons; by left).
  destruct (bo_in _ _ _ (wg_ok _ _ _ Hwf Hbb Hc) e Hin) as ([p q] & d & Hx & Hd & Hp & Hpb & Hout); cbn in *; subst q.
  assert (e <> edge) as Hee by (intros ->; rewrite He in Hx; injection Hx as ? ?; congruence).
  exists p; conjs; try done.
  - split; [by eexists; split | | done | done | done | done].
    exists c; conjs; [done | by rewrite Hi; apply elem_of_cons; left |]; by rewrite Ho.
  - intros ->; assert (d = c) as -> by congruence; rewrite Ho in Hout; by apply list_elem_of_singleton in Hout.
Qed.

(** One iteration. *)
Lemma forward_edge_ok bb dst edge e todo ir g :
  wf_graph g -> forwards bb dst edge (e :: todo) g -> moving bb (e :: todo) ir g -> NoDup (e :: todo) ->
  exists p ir', forward_edge bb dst e ir = Some ir' /\ movable e p bb dst g /\
    moving bb todo ir' (move_edge e p bb dst g) /\ forwards bb dst edge todo (move_edge e p bb dst g).
Proof.
  intros Hwf Hfw (Hl & Hn & Hne & He & Hb) Hnd; destruct (forwards_movable _ _ _ _ _ _ Hwf Hfw) as (p & Hmv & Hpb & Hee & Hx).
  apply NoDup_cons in Hnd as [Hnin Hnd].
  assert (Hfil : filter (fun e' => e' <> e) (e :: todo) = todo) by (by rewrite filter_cons_False, filter_absent by auto).
  exists p; destruct (movable_redirect _ _ _ _ _ Hwf Hmv) as (Hp & b & l & i & i' & Hbp & Hl' & _ & _ & Hr & Hrl & _).
  pose proof Hfw as [Hbb Hdst Hbd (c & Hc & Hlone & Ho & Hi) Hedge Hrec].
  assert (Hbp' : blocks ir !! p = Some b).
  { pose proof (Hb p) as E; rewrite Hbp in E; symmetry in E; apply fmap_Some in E as (b0 & E & E'); by rewrite decide_False in E' by done; subst. }
  unfold forward_edge, ChangeBranchTarget; cbn [edges update_block set_blocks set_dst set_edges blocks]; rewrite lookup_alter_eq, He, Hx.
  cbn [fmap option_fmap option_map mbind option_bind edge_src].
  assert (exists b1, alter (add_in_edge e) dst (blocks ir) !! p = Some b1 /\ insn_list b1 = insn_list b) as (b1 & -> & Hb1).
  { destruct (decide (p = dst)) as [-> | ?]; [rewrite lookup_alter_eq | rewrite lookup_alter_ne by done]; rewrite Hbp'; by eexists. }
  cbn [mbind option_bind]; rewrite Hb1, Hrl; cbn [mbind option_bind]; eexists; conjs; [done | done | |].
  - unfold moving; conjs; [done | done | done | cbn; by rewrite He |]; intros y.
    rewrite move_edge_block, Hb; cbn [blocks set_blocks update_block set_dst set_edges]; destruct (decide (y = p)) as [-> | Hyp].
    + rewrite lookup_alter_eq; destruct (decide (p = dst)) as [-> | Hpd]; [rewrite lookup_alter_eq | rewrite lookup_alter_ne by done].
      all: rewrite Hbp'; cbn; unfold moved_block; rewrite !(decide_False (P := _ = bb)), (decide_True (P := _ = _)), Hrl by done; cbn.
      * by rewrite decide_True.
      * by rewrite decide_False.
    + rewrite lookup_alter_ne by done; destruct (decide (y = bb)) as [-> | Hyb].
      * rewrite lookup_alter_ne by done; destruct (blocks ir !! bb); [| done]; cbn [fmap option_fmap option_map]; unfold moved_block.
        rewrite !(decide_False (P := bb = p)), (decide_True (P := bb = bb)) by done; cbn [set_in_edges in_edges].
        by rewrite Hfil.
      * assert (Hup : forall b0, moved_block e p bb dst y b0 = if decide (y = dst) then add_in_edge e b0 else b0).
        { intros b0; unfold moved_block; rewrite !(decide_False (P := y = p)), (decide_False (P := y = bb)) by done; case_decide; by destruct b0. }
        destruct (decide (y = dst)) as [-> | Hyd]; [rewrite lookup_alter_eq; destruct (blocks ir !! dst) | rewrite lookup_alter_ne by done; destruct (blocks ir !! y)];
          try done; cbn [fmap option_fmap option_map]; by rewrite Hup.
  - split; try done.
    + exists (moved_block e p bb dst bb c); rewrite move_edge_block, Hc; cbn; rewrite (decide_True (P := bb = bb)) by done.
      conjs; try done; [| by rewrite Hi].
      destruct Hlone as (j & Hj & Hdj); exists j; split; [| done]; cbn; by rewrite decide_False.
    + by rewrite move_edge_other.
    + intros y d Hy; rewrite move_edge_block; intros (d0 & Hd0 & ->)%fmap_Some.
      destruct (moved_last g e p bb dst Hwf Hmv y d0 Hy Hd0) as [-> _]; by apply (Hrec y).
Qed.

(** What an edge moved from [bb] leaves of a block. *)
Record kept_block (bb : BlockPtr) (b b' : MachineBasicBlock) : Prop := {
  kb_out : out_edges b' = out_edges b;
  kb_rec : recoveries (insn_list b') = recoveries (insn_list b);
  kb_lone : forall u', lone_branch b' u' -> exists u, lone_branch b u /\ (u <> bb -> u' = u)
}.

Lemma kept_block_refl bb b : kept_block bb b b.
Proof. split; try done; intros u Hu; by exists u. Qed.

Lemma kept_block_trans bb b1 b2 b3 : kept_block bb b1 b2 -> kept_block bb b2 b3 -> kept_block bb b1 b3.
Proof.
  intros [O1 R1 L1] [O2 R2 L2]; split; [congruence | congruence |]; intros u3 H3; destruct (L2 u3 H3) as (u2 & H2 & E2).
  destruct (L1 u2 H2) as (u1 & H1 & E1); exists u1; split; [done |]; intros Hne; rewrite E2, E1; try done; by rewrite E1.
Qed.

Lemma moved_kept e p bb dst g y b :
  wf_graph g -> movable e p bb dst g -> y ∈ bb_list g -> blocks g !! y = Some b -> kept_block bb b (moved_block e p bb dst y b).
Proof.
  intros Hwf Hmv Hy Hb; destruct (moved_last g e p bb dst Hwf Hmv y b Hy Hb) as [Hrec _]; split; [done | done |].
  intros u' (i' & Hi' & Hd'); cbn in Hi'; case_decide as Hyp; [| exists u'; split; [by exists i' | done]]; subst y.
  destruct (movable_redirect _ _ _ _ _ Hwf Hmv) as (_ & b0 & l & i & i0 & Hb0 & Hl & _ & _ & Hr & Hrl & _).
  assert (b0 = b) as -> by congruence; rewrite Hrl in Hi'; cbn in Hi'; destruct l as [| j l]; [| by injection Hi' as _ ?; destruct l].
  injection Hi' as ->; revert Hr; unfold redirect; destruct (data i) as [u | c u v | | | | | | | | | |] eqn:Hd; try done.
  - destruct (Nat.eqb_spec u bb) as [-> |]; [| done]; intros _; exists bb; split; [by exists i | done].
  - intros [= <-]; revert Hd'; repeat case_match; cbn; congruence.
Qed.

Section Unlink.
Context {V W : Type} `{!MachineSem V W}.

Lemma lone_skips g bb c dst :
  wf_graph g -> bb ∈ bb_list g -> blocks g !! bb = Some c -> lone_branch c dst -> skips (V := V) (W := W) g bb dst.
Proof.
  intros Hwf Hbb Hc (i & Hi & Hd); exists c; split; [done |]; intros ρ w; rewrite Hi.
  destruct (bo_last _ _ _ (wg_ok _ _ _ Hwf Hbb Hc)) as ([| j l] & i0 & Hl & Ht & _ & Hr & Hrp & _); rewrite Hi in Hl;
    [injection Hl as <- | by injection Hl as _ ?; destruct l].
  destruct (run_transfer i ρ w Ht Hr Hrp) as (e & He & ->); unfold transfer_of in He; rewrite Hd in He; by injection He as <-.
Qed.

Lemma forward_edges_ok bb dst edge todo : forall ir g,
  wf_graph g -> forwards bb dst edge todo g -> moving bb todo ir g -> NoDup todo ->
  exists ir' g', for_each (forward_edge bb dst) todo ir = Some ir' /\ wf_graph g' /\ forwards bb dst edge [] g' /\
    moving bb [] ir' g' /\ bb_list g' = bb_list g /\ (forall y, y ∈ bb_list g -> equal_runs (V := V) (W := W) y g g') /\
    forall y b, y ∈ bb_list g -> blocks g !! y = Some b -> exists b', blocks g' !! y = Some b' /\ kept_block bb b b' /\
      (y <> bb -> in_edges b' = in_edges b ++ (if decide (y = dst) then todo else [])).
Proof.
  induction todo as [| e todo IH]; intros ir g Hwf Hfw Hmo Hnd; cbn [for_each].
  { exists ir, g; conjs; try done; intros y b _ Hb; exists b; conjs; [done | apply kept_block_refl |].
    intros _; case_decide; by rewrite app_nil_r. }
  destruct (forward_edge_ok _ _ _ _ _ _ _ Hwf Hfw Hmo Hnd) as (p & ir1 & -> & Hmv & Hmo1 & Hfw1); cbn [mbind option_bind].
  apply NoDup_cons in Hnd as [_ Hnd]; pose proof (move_edge_wf _ _ _ _ _ Hwf Hmv) as Hwf1.
  destruct (IH ir1 _ Hwf1 Hfw1 Hmo1 Hnd) as (ir' & g' & E & Hwf' & Hfw' & Hmo' & Hl' & Hruns & Hblocks).
  exists ir', g'; conjs; try done.
  - intros y Hy; etrans; [| by apply Hruns]; apply move_edge_runs; try done; right.
    destruct (fw_block _ _ _ _ _ Hfw) as (c & Hc & Hlone & _); eapply lone_skips; try done; by apply Hfw.
  - intros y b Hy Hb; destruct (Hblocks y (moved_block e p bb dst y b)) as (b' & Hb' & Hk & Hin); [done | by rewrite move_edge_block, Hb |].
    exists b'; conjs; [done | eapply kept_block_trans; [exact (moved_kept e p bb dst g y b Hwf Hmv Hy Hb) | done] |]; intros Hne; rewrite (Hin Hne).
    cbn [moved_block in_edges]; rewrite (decide_False (P := y = bb)) by done; case_decide; [by rewrite <- app_assoc | done].
Qed.

End Unlink.

(** ** The block erased *)

(** [ir] is [g] without the block [bb], which has no in edge, and its edge. *)
Record without (bb dst : BlockPtr) (edge : EdgePtr) (g ir : MachineIR) : Prop := {
  wo_nodup : NoDup (bb_list ir);
  wo_list : forall y, y ∈ bb_list ir <-> y ∈ bb_list g /\ y <> bb;
  wo_num : num_bb ir = num_bb g;
  wo_next : next_edge ir = next_edge g;
  wo_edges : edges ir = edges g;
  wo_dom : forall y, is_Some (blocks ir !! y) <-> is_Some (blocks g !! y);
  wo_block : forall y b, y ∈ bb_list g -> y <> bb -> blocks g !! y = Some b -> exists b', blocks ir !! y = Some b' /\
    insn_list b' = insn_list b /\ out_edges b' = out_edges b /\ in_edges b' ≡ₚ filter (fun e => e <> edge) (in_edges b)
}.

Section Without.
Context (bb dst : BlockPtr) (edge : EdgePtr) (g ir : MachineIR).
Context (Hwf : wf_graph g) (Hfw : forwards bb dst edge [] g) (Hwo : without bb dst edge g ir).

Lemma without_back y b' : y ∈ bb_list ir -> blocks ir !! y = Some b' -> exists b, y ∈ bb_list g /\ y <> bb /\ blocks g !! y = Some b /\
    insn_list b' = insn_list b /\ out_edges b' = out_edges b /\ in_edges b' ≡ₚ filter (fun e => e <> edge) (in_edges b).
Proof.
  intros [Hy Hne]%(wo_list _ _ _ _ _ Hwo) Hb'; destruct (wg_block _ Hwf y Hy) as (b & Hb & _); exists b; conjs; try done;
    destruct (wo_block _ _ _ _ _ Hwo y b Hy Hne Hb) as (b1 & Hb1 & ? & ? & ?); assert (b1 = b') as -> by congruence; done.
Qed.

Lemma without_ok y b b' :
  y ∈ bb_list g -> y <> bb -> blocks g !! y = Some b -> insn_list b' = insn_list b -> out_edges b' = out_edges b ->
  in_edges b' ≡ₚ filter (fun e => e <> edge) (in_edges b) -> block_ok ir y b'.
Proof.
  intros Hy Hne Hb Hi Ho Hp; pose proof (wg_ok _ _ _ Hwf Hy Hb) as Hok; destruct (fw_block _ _ _ _ _ Hfw) as (c & Hc & _ & Hco & Hci).
  split; rewrite ?Hi, ?Ho.
  - intros e He; destruct (bo_out _ _ _ Hok e He) as (x & d & Hx & Hs & Hd & Hdb & Hin).
    assert (edge_dst x <> bb) as Hdne by (intros E; rewrite E in Hdb; assert (d = c) as -> by congruence; rewrite Hci in Hin; by apply not_elem_of_nil in Hin).
    assert (e <> edge) as Hee by (intros ->; rewrite (fw_edge _ _ _ _ _ Hfw) in Hx; injection Hx as <-; cbn in Hs; congruence).
    destruct (wo_block _ _ _ _ _ Hwo _ d Hd Hdne Hdb) as (d' & Hd' & _ & _ & Hpd).
    exists x, d'; rewrite (wo_edges _ _ _ _ _ Hwo); conjs; try done; [by apply (wo_list _ _ _ _ _ Hwo) |].
    rewrite Hpd; by apply list_elem_of_filter.
  - intros e He; rewrite Hp in He; apply list_elem_of_filter in He as [Hee He].
    destruct (bo_in _ _ _ Hok e He) as (x & d & Hx & Hs & Hd & Hdb & Hout).
    assert (edge_src x <> bb) as Hsne by (intros E; rewrite E in Hdb; assert (d = c) as -> by congruence; rewrite Hco in Hout; by apply list_elem_of_singleton in Hout).
    destruct (wo_block _ _ _ _ _ Hwo _ d Hd Hsne Hdb) as (d' & Hd' & _ & Hod & _).
    exists x, d'; rewrite (wo_edges _ _ _ _ _ Hwo), Hod; conjs; try done; by apply (wo_list _ _ _ _ _ Hwo).
  - rewrite Hp; apply NoDup_filter, Hok.
  - apply Hok.
  - destruct (bo_last _ _ _ Hok) as (l & i & ? & ? & ? & ? & ? & Hperm); exists l, i; conjs; try done.
    unfold dsts in *; by rewrite (wo_edges _ _ _ _ _ Hwo).
  - intros t d' Ht Hd'; assert (t ∈ bb_list g /\ t <> bb) as [Htl Htn].
    { split; [| intros ->; by destruct (fw_rec _ _ _ _ _ Hfw y b Hy Hb)].
      apply elem_of_recoveries in Ht as (i & Hin & Hr); eapply bo_dst; [exact Hok |]; eapply bo_successors; [exact Hok | exact Hin |].
      unfold successors; rewrite Hr; apply elem_of_app; right; by apply list_elem_of_singleton. }
    destruct (wg_block _ Hwf t Htl) as (d & Hd & _); destruct (wo_block _ _ _ _ _ Hwo t d Htl Htn Hd) as (d1 & Hd1 & _ & _ & Hpd).
    assert (d1 = d') as -> by congruence; rewrite Hpd; eapply Nat.le_lt_trans; [apply length_filter | by eapply bo_rec].
Qed.

Lemma without_wf :
  (exists e d, blocks g !! dst = Some d /\ e ∈ in_edges d /\ e <> edge) -> wf_graph ir.
Proof.
  intros (e & d & Hd & He & Hee); split.
  - apply Hwo.
  - intros y [Hy Hne]%(wo_list _ _ _ _ _ Hwo); destruct (wg_block _ Hwf y Hy) as (b & Hb & _).
    destruct (wo_block _ _ _ _ _ Hwo y b Hy Hne Hb) as (b' & Hb' & ? & ? & ?); exists b'; split; [done | by eapply without_ok].
  - intros y Hy; rewrite (wo_num _ _ _ _ _ Hwo); apply Hwf; by apply (wo_dom _ _ _ _ _ Hwo).
  - rewrite (wo_edges _ _ _ _ _ Hwo), (wo_next _ _ _ _ _ Hwo); apply Hwf.
  - intros y b' Hy Hb' Ho Hi; exfalso; destruct (without_back y b' Hy Hb') as (b & Hyg & Hne & Hb & _ & Hob & Hp).
    rewrite Hi in Hp; symmetry in Hp; apply Permutation_nil_r in Hp.
    assert (Hall : forall e', e' ∈ in_edges b -> e' = edge).
    { intros e' He'; destruct (decide (e' = edge)); [done | exfalso]; apply (not_elem_of_nil e'); rewrite <- Hp; by apply list_elem_of_filter. }
    assert (in_edges b = []) as Hib.
    { destruct (in_edges b) as [| e' es] eqn:E; [done | exfalso]; assert (e' ∈ in_edges b) as Hin by (rewrite E; apply elem_of_cons; by left).
      pose proof (Hall e' ltac:(apply elem_of_cons; by left)) as ->; assert (y = dst) as ->.
      { pose proof (in_edge_dst _ _ _ _ _ Hwf Hyg Hb Hin (fw_edge _ _ _ _ _ Hfw)) as Hdy; cbn in Hdy; congruence. }
      assert (d = b) as -> by congruence; apply Hee, Hall; by rewrite <- E. }
    pose proof (wg_alone _ Hwf y b Hyg Hb ltac:(congruence) Hib) as Hlen; pose proof (fw_bb _ _ _ _ _ Hfw) as Hbb.
    destruct (bb_list g) as [| z [| ? ?]]; try done; apply list_elem_of_singleton in Hyg, Hbb; congruence.
Qed.

End Without.

(** ** Forwarders *)

(** A block that is one branch to another block, and not the entry. *)
Definition is_forwarder (ir : MachineIR) (bb : BlockPtr) : Prop :=
  exists b t, blocks ir !! bb = Some b /\ lone_branch b t /\ in_edges b <> [] /\ t <> bb.

(** The edge of a block that is one branch. *)
Lemma lone_branch_edge ir bb b t :
  wf_graph ir -> bb ∈ bb_list ir -> blocks ir !! bb = Some b -> lone_branch b t ->
  recoveries (insn_list b) = [] /\ exists edge, out_edges b = [edge] /\ edges ir !! edge = Some {| edge_src := bb; edge_dst := t |} /\ t ∈ bb_list ir /\
    exists d, blocks ir !! t = Some d /\ edge ∈ in_edges d.
Proof.
  intros Hwf Hbb Hb (i & Hi & Hd); pose proof (wg_ok _ _ _ Hwf Hbb Hb) as Hok.
  destruct (bo_last _ _ _ Hok) as ([| j l] & i0 & Hl & _ & _ & Hr & _ & Hp); rewrite Hi in Hl; [injection Hl as <- | by injection Hl as _ ?; destruct l].
  split; [rewrite Hi; unfold recoveries; cbn; by rewrite Hr |]; unfold targets in Hp; rewrite Hd in Hp; cbn in Hp.
  assert (Hlen : length (dsts ir (out_edges b)) = length (out_edges b)).
  { assert (Hall : forall e, e ∈ out_edges b -> is_Some (edges ir !! e)) by (intros e He; destruct (bo_out _ _ _ Hok e He) as (x & d & ? & _); by exists x).
    revert Hall; generalize (out_edges b) as es; induction es as [| e es IH]; intros Hall; [done |]; unfold dsts in *; cbn [omap list_omap].
    destruct (Hall e ltac:(apply elem_of_cons; by left)) as [x ->]; cbn; f_equal; apply IH; intros; apply Hall, elem_of_cons; by right. }
  rewrite Hp in Hlen; destruct (out_edges b) as [| edge [| ? ?]] eqn:Ho; try done; exists edge; split; [done |].
  destruct (bo_out _ _ _ Hok edge ltac:(rewrite Ho; by apply list_elem_of_singleton)) as ([p q] & d & Hx & Hsrc & Hdl & Hdb & Hin); cbn in *; subst p.
  assert (q = t) as ->.
  { unfold dsts in Hp; cbn in Hp; rewrite Hx in Hp; cbn in Hp; by apply Permutation_singleton_l in Hp as [= ->]. }
  conjs; [done | done |]; by exists d.
Qed.

Lemma IsForwarderBlock_spec ir bb :
  wf_graph ir -> bb ∈ bb_list ir -> exists f, IsForwarderBlock ir bb = Some f /\ (f = true <-> is_forwarder ir bb).
Proof.
  intros Hwf Hbb; destruct (wg_block _ Hwf bb Hbb) as (b & Hb & Hok); unfold IsForwarderBlock; rewrite Hb; cbn [mbind option_bind].
  assert (Hno : forall P : Prop, (is_forwarder ir bb -> P) -> ~ P -> exists f, Some false = Some f /\ (f = true <-> is_forwarder ir bb)).
  { intros P HP HnP; exists false; split; [done |]; split; [done |]; intros Hf; by destruct HnP; apply HP. }
  assert (Huni : forall (P : MachineBasicBlock -> Prop), (forall t, lone_branch b t -> in_edges b <> [] -> t <> bb -> P b) -> is_forwarder ir bb -> P b).
  { intros P HP (b' & t & Hb' & ? & ? & ?); assert (b' = b) as -> by congruence; by apply (HP t). }
  destruct (Nat.eqb_spec (length (insn_list b)) 1) as [H1 | H1]; cbn [negb].
  2: { apply (Hno (length (insn_list b) = 1%nat)); [| done]; apply (Huni (fun b => length (insn_list b) = 1%nat)).
       intros t (i & -> & _); done. }
  destruct (Nat.eqb_spec (length (in_edges b)) 0) as [H2 | H2].
  { apply (Hno (in_edges b <> [])); [by apply (Huni (fun b => in_edges b <> [])) |].
    apply length_zero_iff_nil in H2; auto. }
  destruct (insn_list b) as [| i [| ? ?]] eqn:Hi; try done; cbn [last].
  assert (Hlast : forall self : bool, (lone_branch b bb -> self = true) -> (forall t, lone_branch b t -> t <> bb -> self = false) ->
    exists f, (if self then Some false else i ← Some i; Some (match data i with PseudoBranch _ => true | _ => false end)) = Some f /\
      (f = true <-> is_forwarder ir bb)).
  { intros [] Hs1 Hs2.
    - apply (Hno False); [| auto]; intros (b' & t & Hb' & Hl & _ & Ht); assert (b' = b) as -> by congruence; by specialize (Hs2 t Hl Ht).
    - cbn [mbind option_bind]; eexists; split; [done |]; destruct (data i) eqn:Hd.
      { split; [| done]; intros _; exists b, then_bb; conjs; [done | by exists i | by intros Hn; rewrite Hn in H2 |].
        intros ->; by specialize (Hs1 ltac:(by exists i)). }
      all: split; [done |]; intros (b' & t & Hb' & (i' & Hi' & Hd') & _); assert (b' = b) as -> by congruence;
        rewrite Hi in Hi'; injection Hi' as <-; congruence. }
  destruct (out_edges b) as [| edge [| e2 es]] eqn:Ho.
  - apply (Hlast false); [| done]; intros Hl; destruct (lone_branch_edge _ _ _ _ Hwf Hbb Hb Hl) as (_ & e & He & _); congruence.
  - destruct (bo_out _ _ _ Hok edge ltac:(rewrite Ho; by apply list_elem_of_singleton)) as (x & d & Hx & _); rewrite Hx; cbn [mbind option_bind].
    apply Hlast; [intros Hl | intros t Hl Ht]; destruct (lone_branch_edge _ _ _ _ Hwf Hbb Hb Hl) as (_ & e & He & Hx' & _);
      assert (e = edge) as -> by congruence; rewrite Hx' in Hx; injection Hx as <-; cbn; [by apply Nat.eqb_eq | by apply Nat.eqb_neq].
  - apply (Hlast false); [| done]; intros Hl; destruct (lone_branch_edge _ _ _ _ Hwf Hbb Hb Hl) as (_ & e & He & _); congruence.
Qed.

(** A forwarder is ready to be unlinked. *)
Lemma is_forwarder_forwards ir bb :
  wf_graph ir -> recovery_exits ir -> bb ∈ bb_list ir -> is_forwarder ir bb ->
  exists b dst edge, blocks ir !! bb = Some b /\ out_edges b = [edge] /\ forwards bb dst edge (in_edges b) ir /\ in_edges b <> [].
Proof.
  intros Hwf Hre Hbb (b & t & Hb & Hl & Hin & Hne); destruct (lone_branch_edge _ _ _ _ Hwf Hbb Hb Hl) as (Hnr & edge & Ho & Hx & Ht & d & Hd & Hed).
  exists b, t, edge; conjs; try done; split; try done; [by exists b |]; intros y c Hy Hc; split.
  - intros Hr; by eapply (Hre y c bb b t).
  - intros Hr; pose proof (wg_ok _ _ _ Hwf Hy Hc) as Hok; pose proof (bo_rec _ _ _ Hok t d Hr Hd) as Hlen.
    assert (t ∈ dsts ir (out_edges c)) as (e & x & He & Hxe & Hdt)%elem_of_dsts.
    { apply elem_of_recoveries in Hr as (i & Hi & Hri); eapply bo_successors; [exact Hok | exact Hi |].
      unfold successors; rewrite Hri; apply elem_of_app; right; by apply list_elem_of_singleton. }
    destruct (bo_out _ _ _ Hok e He) as (x' & d' & Hx' & Hs' & _ & Hd' & Hin'); assert (x' = x) as -> by congruence.
    rewrite Hdt in Hd'; assert (d' = d) as -> by congruence.
    assert (e <> edge) as Hee.
    { intros ->; rewrite Hx in Hxe; injection Hxe as <-; cbn in Hs'; subst y; assert (c = b) as -> by congruence.
      rewrite Hnr in Hr; by apply not_elem_of_nil in Hr. }
    destruct (in_edges d) as [| e1 [| e2 es]]; cbn in Hlen; [by apply not_elem_of_nil in Hin' | | lia].
    apply list_elem_of_singleton in Hin', Hed; congruence.
Qed.

Section Remove.
Context {V W : Type} `{!MachineSem V W}.

(** The blocks left are those of a graph [g] that differs from [ir] in the edges
    moved only. *)
Lemma unlink_without ir bb b dst edge pre post :
  wf_graph ir -> bb_list ir = pre ++ bb :: post -> blocks ir !! bb = Some b -> out_edges b = [edge] ->
  forwards bb dst edge (in_edges b) ir ->
  exists ir' g, UnlinkForwarderBlock bb ir = Some ir' /\ wf_graph g /\ forwards bb dst edge [] g /\ bb_list g = bb_list ir /\
    without bb dst edge g (set_bb_list (pre ++ post) ir') /\ (forall y, y ∈ bb_list ir -> equal_runs (V := V) (W := W) y ir g) /\
    forall y c, y ∈ bb_list ir -> blocks ir !! y = Some c -> exists c', blocks g !! y = Some c' /\ kept_block bb c c' /\
      (y <> bb -> in_edges c' = in_edges c ++ (if decide (y = dst) then in_edges b else [])).
Proof.
  intros Hwf Hl Hb Ho Hfw; pose proof (fw_bb _ _ _ _ _ Hfw) as Hbb; pose proof (fw_dst _ _ _ _ _ Hfw) as Hdst.
  unfold UnlinkForwarderBlock; rewrite Hb; cbn [mbind option_bind]; rewrite Ho, (fw_edge _ _ _ _ _ Hfw); cbn [mbind option_bind edge_dst].
  destruct (forward_edges_ok (V := V) (W := W) bb dst edge (in_edges b) ir ir Hwf Hfw) as (ir1 & g & -> & Hwfg & Hfwg & Hmo & Hlg & Hruns & Hbl).
  { unfold moving; conjs; try done; intros y; destruct (decide (y = bb)) as [-> |]; [| by destruct (blocks ir !! y)].
    rewrite Hb; cbn; by destruct b. }
  { apply (bo_nodup_in ir bb b); by apply wg_ok. }
  cbn [mbind option_bind]; destruct Hmo as (Hl1 & Hn1 & Hne1 & He1 & Hb1); pose proof (fw_ne _ _ _ _ _ Hfw) as Hbd.
  destruct (wg_block _ Hwfg dst (fw_dst _ _ _ _ _ Hfwg)) as (d1 & Hd1 & Hok1).
  assert (Hd1' : blocks ir1 !! dst = Some d1).
  { pose proof (Hb1 dst) as E; rewrite Hd1 in E; symmetry in E; apply fmap_Some in E as (d0 & E & E'); by rewrite decide_False in E' by done; subst. }
  rewrite Hd1'; cbn [mbind option_bind].
  assert (edge ∈ in_edges d1) as Hed.
  { destruct (fw_block _ _ _ _ _ Hfwg) as (c & Hc & _ & Hco & _).
    destruct (bo_out _ _ _ (wg_ok _ _ _ Hwfg (fw_bb _ _ _ _ _ Hfwg) Hc) edge ltac:(rewrite Hco; by apply list_elem_of_singleton)) as (x & d' & Hx & _ & _ & Hd' & Hin).
    rewrite (fw_edge _ _ _ _ _ Hfwg) in Hx; injection Hx as <-; cbn in Hd'; by assert (d' = d1) as -> by congruence. }
  destruct (erase_first_spec edge (in_edges d1) Hed) as (es & -> & Hes); cbn [mbind option_bind]; eexists _, g; conjs; try done.
  rewrite <- Hlg in Hl; assert (Hnd : NoDup (pre ++ bb :: post)) by (rewrite <- Hl; apply Hwfg).
  rewrite <- (Permutation_middle pre post bb) in Hnd; apply NoDup_cons in Hnd as [Hnb Hnd]; split; try done.
  - intros y; cbn; rewrite Hl, <- Permutation_middle, elem_of_cons; split; [intros Hy; split; [by right | by intros ->] | by intros [[-> | ?] ?]].
  - intros y; cbn; rewrite Hb1, fmap_is_Some; destruct (decide (y = dst)) as [-> | ?]; [by rewrite lookup_alter_eq, fmap_is_Some | by rewrite lookup_alter_ne].
  - intros y c Hy Hyb Hc; pose proof Hc as Hc0; rewrite Hb1 in Hc0; apply fmap_Some in Hc0 as (c0 & Hc0 & Ec); rewrite decide_False in Ec by done; subst c0.
    cbn; destruct (decide (y = dst)) as [-> | Hyd].
    + rewrite lookup_alter_eq, Hc0; assert (c = d1) as -> by congruence; eexists; conjs; [done | done | done |]; cbn [in_edges set_in_edges].
      pose proof (bo_nodup_in _ _ _ Hok1) as Hnd1; rewrite Hes in Hnd1 |- *; apply NoDup_cons in Hnd1 as [Hn _].
      by rewrite filter_cons_False, filter_absent by auto.
    + rewrite lookup_alter_ne by done; exists c; conjs; try done; rewrite filter_absent; [done |]; intros Hin.
      pose proof (in_edge_dst _ _ _ _ _ Hwfg Hy Hc Hin (fw_edge _ _ _ _ _ Hfwg)); cbn in *; congruence.
Qed.

Lemma UnlinkForwarderBlock_ok ir bb pre post :
  wf_graph ir -> recovery_exits ir -> bb_list ir = pre ++ bb :: post -> is_forwarder ir bb ->
  exists ir', UnlinkForwarderBlock bb ir = Some ir' /\ wf_graph (set_bb_list (pre ++ post) ir') /\
    recovery_exits (set_bb_list (pre ++ post) ir') /\
    forall y, y ∈ pre ++ post -> equal_runs (V := V) (W := W) y ir (set_bb_list (pre ++ post) ir') /\
      (is_forwarder (set_bb_list (pre ++ post) ir') y -> is_forwarder ir y).
Proof.
  intros Hwf Hre Hl Hf; assert (Hbb : bb ∈ bb_list ir) by (rewrite Hl; apply elem_of_app; right; apply elem_of_cons; by left).
  destruct (is_forwarder_forwards ir bb Hwf Hre Hbb Hf) as (b & dst & edge & Hb & Ho & Hfw & Hne).
  destruct (unlink_without ir bb b dst edge pre post Hwf Hl Hb Ho Hfw) as (ir' & g & E & Hwfg & Hfwg & Hlg & Hwo & Hruns & Hbl).
  exists ir'; split; [done |]; set (ir2 := set_bb_list (pre ++ post) ir') in *.
  pose proof (fw_dst _ _ _ _ _ Hfw) as Hdst; pose proof (fw_ne _ _ _ _ _ Hfw) as Hbd; destruct (wg_block _ Hwf dst Hdst) as (d & Hd & _).
  assert (Hwf2 : wf_graph ir2).
  { apply (without_wf bb dst edge g ir2 Hwfg Hfwg Hwo); destruct (Hbl dst d Hdst Hd) as (d1 & Hd1 & _ & Hid).
    destruct (in_edges b) as [| e es'] eqn:Hin; [done |]; exists e, d1; conjs; [done | |].
    - rewrite Hid, decide_True by done; apply elem_of_app; right; apply elem_of_cons; by left.
    - intros ->; assert (edge ∈ in_edges b) as Hin' by (rewrite Hin; apply elem_of_cons; by left).
      pose proof (in_edge_dst _ _ _ _ _ Hwf Hbb Hb Hin' (fw_edge _ _ _ _ _ Hfw)); cbn in *; congruence. }
  assert (Hback : forall y c2, y ∈ bb_list ir2 -> blocks ir2 !! y = Some c2 -> exists c c1, y ∈ bb_list ir /\ y <> bb /\ blocks ir !! y = Some c /\
    blocks g !! y = Some c1 /\ kept_block bb c c1 /\ insn_list c2 = insn_list c1 /\ in_edges c1 = in_edges c ++ (if decide (y = dst) then in_edges b else []) /\
    in_edges c2 ≡ₚ filter (fun e => e <> edge) (in_edges c1)).
  { intros y c2 Hy Hc2; destruct (without_back bb dst edge g ir2 Hwfg Hwo y c2 Hy Hc2) as (c1 & Hyg & Hyb & Hc1 & Hi & _ & Hp); rewrite Hlg in Hyg.
    destruct (wg_block _ Hwf y Hyg) as (c & Hc & _); destruct (Hbl y c Hyg Hc) as (c1' & Hc1' & Hk & Hin); assert (c1' = c1) as -> by congruence.
    exists c, c1; conjs; try done; by apply Hin. }
  conjs; [done | |].
  - intros y c2 t d2 u Hy Hc2 Ht Hd2 (i2 & Hi2 & Hdi2); destruct (Hback y c2 Hy Hc2) as (c & c1 & Hyl & Hyb & Hc & Hc1 & Hk & Hi & _).
    rewrite Hi, (kb_rec _ _ _ Hk) in Ht; assert (t ∈ bb_list ir2) as Ht2.
    { pose proof (wg_ok _ _ _ Hwf2 Hy Hc2) as Hok2; rewrite <- (kb_rec _ _ _ Hk), <- Hi in Ht; apply elem_of_recoveries in Ht as (i & Hin & Hr).
      eapply bo_dst; [exact Hok2 |]; eapply bo_successors; [exact Hok2 | exact Hin |].
      unfold successors; rewrite Hr; apply elem_of_app; right; by apply list_elem_of_singleton. }
    destruct (Hback t d2 Ht2 Hd2) as (d0 & d1 & _ & _ & Hd0 & _ & Hkd & Hid & _); rewrite Hid in Hi2.
    destruct (kb_lone _ _ _ Hkd u ltac:(by exists i2)) as (u0 & Hu0 & _); by apply (Hre y c t d0 u0).
  - intros y Hy; assert (y ∈ bb_list ir2) as Hy2 by done; pose proof (proj1 (wo_list _ _ _ _ _ Hwo y) Hy2) as [Hyg Hyb]; split.
    + etrans; [apply Hruns; congruence |]; symmetry; apply same_insns_runs; [done | | done]; intros z c2 Hz Hc2.
      destruct (Hback z c2 Hz Hc2) as (c & c1 & _ & _ & _ & Hc1 & _ & Hi & _); exists c1; by rewrite Hi.
    + intros (c2 & t2 & Hc2 & (i2 & Hi2 & Hdi2) & Hin2 & Ht2); destruct (Hback y c2 Hy2 Hc2) as (c & c1 & Hyl & _ & Hc & Hc1 & Hk & Hi & Hin1 & Hp).
      rewrite Hi in Hi2; destruct (kb_lone _ _ _ Hk t2 ltac:(by exists i2)) as (t & Ht & Hsame); exists c, t; conjs; [done | done | |].
      * intros Hnil; case_decide as Hyd; [| rewrite Hin1, Hnil in Hp; cbn in Hp; by apply Permutation_nil_r in Hp].
        subst y; assert (c = d) as -> by congruence.
        destruct (bo_out _ _ _ (wg_ok _ _ _ Hwf Hbb Hb) edge ltac:(rewrite Ho; by apply list_elem_of_singleton)) as (x & d' & Hx & _ & _ & Hd' & Hine).
        rewrite (fw_edge _ _ _ _ _ Hfw) in Hx; injection Hx as <-; cbn in Hd'; assert (d' = d) as -> by congruence; rewrite Hnil in Hine; by apply not_elem_of_nil in Hine.
      * intros ->; apply Ht2; by apply Hsame.
Qed.

(** What the loop establishes from [ir]. *)
Record forwarders_removed (ir ir' : MachineIR) : Prop := {
  fr_wf : wf_graph ir';
  fr_none : forall y, y ∈ bb_list ir' -> ~ is_forwarder ir' y;
  fr_old : forall y, y ∈ bb_list ir' -> is_forwarder ir' y -> is_forwarder ir y;
  fr_kept : forall y, y ∈ bb_list ir -> ~ is_forwarder ir y -> y ∈ bb_list ir';
  fr_runs : forall y, y ∈ bb_list ir' -> equal_runs (V := V) (W := W) y ir ir'
}.

Lemma remove_forwarders_ok todo : forall kept ir,
  wf_graph ir -> recovery_exits ir -> bb_list ir = kept ++ todo -> (forall y, y ∈ kept -> ~ is_forwarder ir y) ->
  exists ir' rest, remove_forwarders kept todo ir = Some ir' /\ bb_list ir' = kept ++ rest /\ sublist rest todo /\ forwarders_removed ir ir'.
Proof.
  induction todo as [| bb todo IH]; intros kept ir Hwf Hre Hl Hk; cbn [remove_forwarders].
  { exists ir, []; rewrite app_nil_r in Hl |- *; conjs; try done; split; try done; rewrite Hl; done. }
  assert (Hbb : bb ∈ bb_list ir) by (rewrite Hl; apply elem_of_app; right; apply elem_of_cons; by left).
  destruct (IsForwarderBlock_spec ir bb Hwf Hbb) as (f & -> & Hf); cbn [mbind option_bind]; destruct f.
  - pose proof (proj1 Hf eq_refl) as Hfw; clear Hf.
    destruct (UnlinkForwarderBlock_ok ir bb kept todo Hwf Hre Hl Hfw) as (ir1 & -> & Hwf1 & Hre1 & Hy1); cbn [mbind option_bind].
    destruct (IH kept (set_bb_list (kept ++ todo) ir1) Hwf1 Hre1 eq_refl) as (ir' & rest & E & Hl' & Hsub & [W1 W2 W3 W4 W5]).
    { intros y Hy Hfy; apply (Hk y Hy), (Hy1 y); [apply elem_of_app; by left | done]. }
    exists ir', rest; conjs; [done | done | by constructor |]; assert (Hin : forall y, y ∈ bb_list ir' -> y ∈ kept ++ todo).
    { intros y; rewrite Hl', !elem_of_app; intros [? | Hy]; [by left | right]; eapply elem_of_sublist; eauto. }
    split; [done | done | | |].
    + intros y Hy Hfy; apply (Hy1 y (Hin y Hy)); by apply W3.
    + intros y Hy Hn; apply W4; [| intros Hfy; apply Hn, (Hy1 y); [| done]]; rewrite Hl in Hy; cbn.
      all: apply elem_of_app in Hy as [? | [-> | ?]%elem_of_cons]; apply elem_of_app; auto; done.
    + intros y Hy; etrans; [by apply (Hy1 y (Hin y Hy)) | by apply W5].
  - assert (~ is_forwarder ir bb) as Hnf by (rewrite <- Hf; done).
    destruct (IH (kept ++ [bb]) ir Hwf Hre) as (ir' & rest & E & Hl' & Hsub & Hfr); [by rewrite <- app_assoc | |].
    { intros y [? | ->%list_elem_of_singleton]%elem_of_app; [by apply Hk | done]. }
    exists ir', (bb :: rest); conjs; [done | by rewrite Hl', <- app_assoc | by constructor | done].
Qed.

End Remove.

(** C12: on a well-formed graph in which no fault leads to a block that is one
    branch, [RemoveForwarderBlocks] passes all its checks: it only erases
    forwarders, keeps the order of the other blocks, leaves no forwarder, leaves
    a graph that is well formed and accepted by the checker, and what is computed
    from each block left is what was computed before. *)
Theorem RemoveForwarderBlocks_correct {V W : Type} `{!MachineSem V W} (ir : MachineIR) :
  wf_graph ir -> recovery_exits ir ->
  exists ir', RemoveForwarderBlocks ir = Some ir' /\ wf_graph ir' /\ CheckMachineIR ir' = Some kMachineIRCheckSuccess /\
    sublist (bb_list ir') (bb_list ir) /\ (forall bb, bb ∈ bb_list ir -> IsForwarderBlock ir bb = Some false -> bb ∈ bb_list ir') /\
    (forall bb, bb ∈ bb_list ir' -> IsForwarderBlock ir' bb = Some false) /\
    forall bb, bb ∈ bb_list ir' -> equal_runs (V := V) (W := W) bb ir ir'.
Proof.
  intros Hwf Hre; destruct (remove_forwarders_ok (V := V) (W := W) (bb_list ir) [] ir Hwf Hre eq_refl) as (ir' & rest & E & Hl & Hsub & Hfr).
  { intros y Hy; by apply not_elem_of_nil in Hy. }
  cbn in Hl; subst rest; exists ir'; conjs; try done; try apply Hfr.
  - apply wf_graph_checked, Hfr.
  - intros bb Hbb Hn; apply (fr_kept _ _ Hfr bb Hbb); destruct (IsForwarderBlock_spec ir bb Hwf Hbb) as (f & Ef & Hf).
    rewrite Ef in Hn; injection Hn as ->; by rewrite <- Hf.
  - intros bb Hbb; destruct (IsForwarderBlock_spec ir' bb (fr_wf _ _ Hfr) Hbb) as (f & -> & Hf).
    destruct f; [| done]; exfalso; by apply (fr_none _ _ Hfr bb Hbb), Hf.
Qed.

(** The entry of the region, which has no in edge, stays first. *)
Lemma RemoveForwarderBlocks_entry (ir ir' : MachineIR) bb b :
  wf_graph ir -> recovery_exits ir -> head (bb_list ir) = Some bb -> blocks ir !! bb = Some b -> in_edges b = [] ->
  RemoveForwarderBlocks ir = Some ir' -> head (bb_list ir') = Some bb.
Proof.
  intros Hwf Hre Hh Hb Hi E; unfold RemoveForwarderBlocks in E; destruct (bb_list ir) as [| z todo] eqn:Hl; [done |]; injection Hh as ->.
  assert (bb ∈ bb_list ir) as Hbb by (rewrite Hl; apply elem_of_cons; by left).
  assert (Hn : ~ is_forwarder ir bb) by (intros (b' & t & Hb' & _ & Hin & _); assert (b' = b) as -> by congruence; done).
  cbn [remove_forwarders] in E; destruct (IsForwarderBlock_spec ir bb Hwf Hbb) as (f & Ef & Hf); rewrite Ef in E; cbn [mbind option_bind] in E.
  destruct f; [by destruct Hn; apply Hf |]; cbn [app] in E.
  pose proof unit_sem as sem; destruct (remove_forwarders_ok (V := unit) (W := unit) todo [bb] ir Hwf Hre Hl) as (ir1 & rest & E1 & Hl1 & _).
  { by intros y ->%list_elem_of_singleton. }
  rewrite E in E1; injection E1 as <-; by rewrite Hl1.
Qed.
