(* ===== verification/RenameCopyUses.v ===== *)
(** * Renaming of the uses of copies

    [RenameCopyUsesMap] and [RenameCopyUses] of
    [src/backend/x86_64/rename_copy_uses.h] and [rename_copy_uses.cc], with the
    proof that every instruction reads the values it read before.

    [time_] counts the instructions of a region, far fewer than its 64 bits
    allow.  An index out of range of a vector is [None]. *)
From stdpp Require Import gmap list.
From S2P Require Import Prelude MachineIR Lifetime LifetimeAnalysis Liveness MachineIRCheck MachineSem DeadCode BlockOrder ControlFlow.
#[local] Open Scope Z_scope.

(** ** The code *)

Record RenameData := { renamed : MachineReg; renaming_time : nat; last_def_time : nat }.

Definition no_rename : RenameData := {| renamed := kInvalidMachineReg; renaming_time := 0; last_def_time := 0 |}.

Record RenameCopyUsesMap := { rename_map : list RenameData; time_ : nat }.

Definition new_RenameCopyUsesMap (ir : MachineIR) : RenameCopyUsesMap :=
  {| rename_map := replicate (num_vreg ir) no_rename; time_ := 0 |}.

Definition RenameDataForReg (r : MachineReg) (m : RenameCopyUsesMap) : option RenameData :=
  v ← GetVRegIndex r; rename_map m !! v.

Definition set_rename_data (r : MachineReg) (d : RenameData) (m : RenameCopyUsesMap) : option RenameCopyUsesMap :=
  v ← GetVRegIndex r;
  if decide (v < length (rename_map m))%nat
  then Some {| rename_map := <[v := d]> (rename_map m); time_ := time_ m |} else None.

Definition Tick (m : RenameCopyUsesMap) : RenameCopyUsesMap := {| rename_map := rename_map m; time_ := S (time_ m) |}.

Definition StartBasicBlock (m : RenameCopyUsesMap) : RenameCopyUsesMap :=
  {| rename_map := map (fun _ => no_rename) (rename_map m); time_ := time_ m |}.

(** [RenameCopyUsesMap::Get]. *)
Definition get_renamed (reg : MachineReg) (m : RenameCopyUsesMap) : option MachineReg :=
  d ← RenameDataForReg reg m;
  if renamed d =? kInvalidMachineReg then Some kInvalidMachineReg
  else
    q ← RenameDataForReg (renamed d) m;
    Some (if (renaming_time d <? last_def_time q)%nat then kInvalidMachineReg else renamed d).

(** The register of the operand after the call. *)
Definition RenameUseIfMapped (d : InsnData) (k : MachineRegKind) (reg : MachineReg) (m : RenameCopyUsesMap) : option MachineReg :=
  if bool_decide (d = CallImmArg) || (NumRegs (RegClass k) =? 1)%nat then Some reg
  else if negb (IsVReg reg) then Some reg
  else
    mapped ← get_renamed reg m;
    Some (if mapped =? kInvalidMachineReg then reg else mapped).

Definition ProcessDef (reg : MachineReg) (m : RenameCopyUsesMap) : option RenameCopyUsesMap :=
  if negb (IsVReg reg) then Some m
  else set_rename_data reg {| renamed := kInvalidMachineReg; renaming_time := 0; last_def_time := time_ m |} m.

Definition ProcessCopy (live_out : list MachineReg) (i : MachineInsn) (m : RenameCopyUsesMap) : option RenameCopyUsesMap :=
  dst ← RegAt i 0;
  src ← RegAt i 1;
  if negb (IsVReg dst) || negb (IsVReg src) then Some m
  else if bool_decide (dst ∈ live_out) then
    d ← RenameDataForReg src m;
    set_rename_data src {| renamed := dst; renaming_time := time_ m; last_def_time := last_def_time d |} m
  else set_rename_data dst {| renamed := src; renaming_time := time_ m; last_def_time := time_ m |} m.

(** The loop over the operands of an instruction: the registers it leaves. *)
Fixpoint rename_operands (d : InsnData) (ks : list MachineRegKind) (rs : list MachineReg) (m : RenameCopyUsesMap)
    : option (list MachineReg * RenameCopyUsesMap) :=
  match ks, rs with
  | [], _ => Some (rs, m)
  | k :: ks, r :: rs =>
      '(r, m) ← (if IsDef k then m ← ProcessDef r m; Some (r, m)
                 else r ← RenameUseIfMapped d k r m; Some (r, m));
      '(rs, m) ← rename_operands d ks rs m;
      Some (r :: rs, m)
  | _ :: _, [] => None
  end.

Definition set_regs (rs : list MachineReg) (i : MachineInsn) : MachineInsn :=
  {| data := data i; reg_kinds := reg_kinds i; regs := rs; kind := kind i;
     recovery_bb := recovery_bb i; recovery_pc := recovery_pc i |}.

Definition rename_insn (live_out : list MachineReg) (i : MachineInsn) (m : RenameCopyUsesMap)
    : option (MachineInsn * RenameCopyUsesMap) :=
  '(rs, m) ← rename_operands (data i) (reg_kinds i) (regs i) m;
  let i := set_regs rs i in
  m ← (if is_copy i then ProcessCopy live_out i m else Some m);
  Some (i, Tick m).

Fixpoint rename_insns (live_out : list MachineReg) (l : list MachineInsn) (m : RenameCopyUsesMap)
    : option (list MachineInsn * RenameCopyUsesMap) :=
  match l with
  | [] => Some ([], m)
  | i :: l =>
      '(i, m) ← rename_insn live_out i m;
      '(l, m) ← rename_insns live_out l m;
      Some (i :: l, m)
  end.

Definition rename_block (bb : BlockPtr) (x : MachineIR * RenameCopyUsesMap) : option (MachineIR * RenameCopyUsesMap) :=
  let '(ir, m) := x in
  b ← blocks ir !! bb;
  '(l, m) ← rename_insns (live_out b) (insn_list b) (StartBasicBlock m);
  Some (update_block bb (set_insn_list l) ir, m).

Definition RenameCopyUses (ir : MachineIR) : option MachineIR :=
  fst <$> for_each rename_block (bb_list ir) (ir, new_RenameCopyUsesMap ir).

(** ** What the map says *)

Lemma RenameDataForReg_lookup r v m : GetVRegIndex r = Some v -> RenameDataForReg r m = rename_map m !! v.
Proof. intros Hv; unfold RenameDataForReg; by rewrite Hv. Qed.

Lemma set_rename_data_spec r d m m' :
  set_rename_data r d m = Some m' -> exists v, GetVRegIndex r = Some v /\ (v < length (rename_map m))%nat /\
    time_ m' = time_ m /\ length (rename_map m') = length (rename_map m) /\ RenameDataForReg r m' = Some d /\
    forall r', r' <> r -> RenameDataForReg r' m' = RenameDataForReg r' m.
Proof.
  unfold set_rename_data; destruct (GetVRegIndex r) as [v |] eqn:Hv; cbn [mbind option_bind]; [| done].
  case_decide as Hlt; [| done]; intros [= <-]; exists v; conjs; try done; cbn.
  - apply length_insert.
  - rewrite (RenameDataForReg_lookup r v) by done; cbn; by apply list_lookup_insert_eq.
  - intros r' Hne; unfold RenameDataForReg; destruct (GetVRegIndex r') as [v' |] eqn:Hv'; cbn; [| done].
    apply list_lookup_insert_ne; intros ->; apply Hne; by eapply GetVRegIndex_inj.
Qed.

Lemma get_renamed_spec r q m :
  get_renamed r m = Some q -> q <> kInvalidMachineReg ->
  exists d dq, RenameDataForReg r m = Some d /\ renamed d = q /\ RenameDataForReg q m = Some dq /\ (last_def_time dq <= renaming_time d)%nat.
Proof.
  unfold get_renamed; destruct (RenameDataForReg r m) as [d |]; cbn [mbind option_bind]; [| done].
  destruct (Z.eqb_spec (renamed d) kInvalidMachineReg); [congruence |].
  destruct (RenameDataForReg (renamed d) m) as [dq |] eqn:Hq; cbn [mbind option_bind]; [| done].
  destruct (Nat.ltb_spec (renaming_time d) (last_def_time dq)); [congruence |]; intros [= <-] _; by exists d, dq.
Qed.

(** Renamings are older than the present. *)
Definition timely (m : RenameCopyUsesMap) : Prop :=
  forall r d, RenameDataForReg r m = Some d -> renamed d <> kInvalidMachineReg -> (renaming_time d < time_ m)%nat.

(** The map [m] while the operands of an instruction are processed, from [m0]:
    the registers defined so far have no renaming and were defined now. *)
Record processed (m0 m : RenameCopyUsesMap) : Prop := {
  pr_time : time_ m = time_ m0;
  pr_length : length (rename_map m) = length (rename_map m0);
  pr_data : forall r d, RenameDataForReg r m = Some d ->
    RenameDataForReg r m0 = Some d \/ (renamed d = kInvalidMachineReg /\ last_def_time d = time_ m0)
}.

Lemma processed_refl m : processed m m.
Proof. split; auto. Qed.

Lemma processed_get m0 m r q :
  timely m0 -> processed m0 m -> get_renamed r m = Some q -> q <> kInvalidMachineReg -> get_renamed r m0 = Some q.
Proof.
  intros Ht [_ _ Hd] Hg Hq; destruct (get_renamed_spec _ _ _ Hg Hq) as (d & dq & Hr & Heq & Hrq & Hle); subst q.
  destruct (Hd r d Hr) as [Hr0 | [? _]]; [| done]; pose proof (Ht r d Hr0 Hq) as Hlt.
  destruct (Hd _ dq Hrq) as [Hq0 | [_ ?]]; [| lia]; unfold get_renamed; rewrite Hr0; cbn [mbind option_bind].
  rewrite (proj2 (Z.eqb_neq _ _)) by done; rewrite Hq0; cbn [mbind option_bind]; by rewrite (proj2 (Nat.ltb_ge _ _)) by done.
Qed.

Definition defined_now (m0 m : RenameCopyUsesMap) (r : MachineReg) : Prop :=
  forall d, RenameDataForReg r m = Some d -> renamed d = kInvalidMachineReg /\ last_def_time d = time_ m0.

Lemma ProcessDef_processed m0 r m m' :
  processed m0 m -> ProcessDef r m = Some m' -> processed m0 m' /\ (IsVReg r = true -> defined_now m0 m' r) /\
    forall r', defined_now m0 m r' -> defined_now m0 m' r'.
Proof.
  intros [Ht Hl Hd]; unfold ProcessDef; destruct (IsVReg r) eqn:Ev; cbn [negb]; [| intros [= <-]; done].
  intros (v & _ & _ & Ht' & Hl' & Hr & Ho)%set_rename_data_spec; conjs.
  - split; [congruence | congruence |]; intros r' d; destruct (decide (r' = r)) as [-> | Hne].
    + rewrite Hr; intros [= <-]; right; cbn; split; [done | congruence].
    + rewrite Ho by done; apply Hd.
  - intros _ d; rewrite Hr; intros [= <-]; cbn; split; [done | congruence].
  - intros r' Hn d; destruct (decide (r' = r)) as [-> | Hne]; [rewrite Hr; intros [= <-]; cbn; split; [done | congruence] |].
    rewrite Ho by done; apply Hn.
Qed.

(** ** One instruction *)

Section Rename.
Context {V W : Type} `{!MachineSem V W} `{!MachineSemOk V W}.

(** A register and the register it is renamed to hold the same value. *)
Definition valid (m : RenameCopyUsesMap) (ρ : MachineReg -> V) : Prop :=
  forall r q, get_renamed r m = Some q -> q <> kInvalidMachineReg -> ρ r = ρ q.

Lemma RenameUseIfMapped_value d k r r' m0 m (ρ : MachineReg -> V) :
  timely m0 -> processed m0 m -> valid m0 ρ -> RenameUseIfMapped d k r m = Some r' -> ρ r' = ρ r.
Proof.
  intros Ht Hp Hv; unfold RenameUseIfMapped; destruct (_ || _); [by intros [= <-] |].
  destruct (IsVReg r); cbn [negb]; [| by intros [= <-]]; destruct (get_renamed r m) as [q |] eqn:Hg; cbn [mbind option_bind]; [| done].
  destruct (Z.eqb_spec q kInvalidMachineReg) as [| Hq]; intros [= <-]; [done |]; symmetry; apply Hv; [by eapply processed_get | done].
Qed.

Lemma rename_operands_spec d m0 ks : forall rs m rs' m',
  timely m0 -> processed m0 m -> rename_operands d ks rs m = Some (rs', m') ->
  processed m0 m' /\ (forall r, defined_now m0 m r -> defined_now m0 m' r) /\
  (forall r, written (zip rs ks) r -> IsVReg r = true -> defined_now m0 m' r) /\
  (forall (ρ : MachineReg -> V), valid m0 ρ -> inputs_of (zip rs' ks) ρ = inputs_of (zip rs ks) ρ) /\
  (forall n out (ρ : MachineReg -> V), write_defs (zip rs' ks) n out ρ = write_defs (zip rs ks) n out ρ) /\
  (forall r, written (zip rs' ks) r <-> written (zip rs ks) r).
Proof.
  induction ks as [| k ks IH]; intros [| r rs] m rs' m' Ht Hp; cbn [rename_operands].
  1-2: intros [= <- <-]; conjs; try done; intros x (k & Hk & _); rewrite ?zip_nil_r in Hk; by apply not_elem_of_nil in Hk.
  { done. }
  assert (Hcons : forall x (k' : MachineRegKind) ops r0, written ((r0, k') :: ops) x <-> (x = r0 /\ IsDef k' = true) \/ written ops x).
  { intros x k' ops r0; split.
    - intros (k1 & [[= -> ->] | Hin]%elem_of_cons & Hd); [by left | right; by exists k1].
    - intros [[-> Hd] | (k1 & Hin & Hd)]; [exists k'; split; [apply elem_of_cons; by left | done] | exists k1; split; [apply elem_of_cons; by right | done]]. }
  destruct (IsDef k) eqn:Ek.
  - destruct (ProcessDef r m) as [m1 |] eqn:E1; cbn [mbind option_bind]; [| done].
    destruct (rename_operands d ks rs m1) as [[rs1 m2] |] eqn:E2; cbn [mbind option_bind]; [| done]; intros [= <- <-].
    destruct (ProcessDef_processed _ _ _ _ Hp E1) as (Hp1 & Hd1 & Hk1); destruct (IH _ _ _ _ Ht Hp1 E2) as (Hp2 & Hk2 & Hw2 & Hi2 & Hwd2 & Hww2).
    cbn [zip zip_with]; conjs; [done | auto | | | |].
    + intros x [[-> _] | Hx]%Hcons Hvx; [by apply Hk2, Hd1 | by apply Hw2].
    + intros ρ Hv; cbn [inputs_of]; rewrite (Hi2 ρ Hv); done.
    + intros n out ρ; cbn [write_defs]; rewrite Ek; apply Hwd2.
    + intros x; rewrite !Hcons; by rewrite Hww2.
  - destruct (RenameUseIfMapped d k r m) as [r1 |] eqn:E1; cbn [mbind option_bind]; [| done].
    destruct (rename_operands d ks rs m) as [[rs1 m2] |] eqn:E2; cbn [mbind option_bind]; [| done]; intros [= <- <-].
    destruct (IH _ _ _ _ Ht Hp E2) as (Hp2 & Hk2 & Hw2 & Hi2 & Hwd2 & Hww2).
    cbn [zip zip_with]; conjs; [done | done | | | |].
    + intros x [[_ ?] | Hx]%Hcons Hvx; [congruence | by apply Hw2].
    + intros ρ Hv; cbn [inputs_of]; rewrite (Hi2 ρ Hv), (RenameUseIfMapped_value _ _ _ _ _ _ ρ Ht Hp Hv E1); done.
    + intros n out ρ; cbn [write_defs]; rewrite Ek; apply Hwd2.
    + intros x; rewrite !Hcons, Ek, Hww2; split; (intros [[_ ?] | ?]; [congruence | by right]).
Qed.

(** The map after the instruction that has written [written (operands i)]. *)
Lemma processed_valid m0 m i (ρ : MachineReg -> V) (w : W) :
  timely m0 -> valid m0 ρ -> processed m0 m ->
  (forall r, written (operands i) r -> IsVReg r = true -> defined_now m0 m r) -> valid m (exec_regs i ρ w).1.
Proof.
  intros Ht Hv Hp Hw r q Hg Hq; pose proof (processed_get _ _ _ _ Ht Hp Hg Hq) as Hg0.
  destruct (get_renamed_spec _ _ _ Hg Hq) as (d & dq & Hr & Heq & Hrq & Hle); subst q.
  assert (Hlt : (renaming_time d < time_ m0)%nat) by (destruct (pr_data _ _ Hp r d Hr) as [Hr0 | [? _]]; [by eapply Ht | done]).
  assert (Hvr : forall x y, RenameDataForReg x m = Some y -> IsVReg x = true).
  { intros x y Hx; unfold RenameDataForReg in Hx; destruct (GetVRegIndex x) eqn:E; [| done]; unfold IsVReg; unfold GetVRegIndex in E; by destruct (_ <=? _). }
  unfold exec_regs; destruct (exec_insn _ _ _ _) as [out w']; cbn [fst]; rewrite !write_defs_unwritten; [by apply Hv | |].
  - intros Hx; destruct (Hw _ Hx (Hvr _ _ Hrq) dq Hrq); lia.
  - intros Hx; by destruct (Hw _ Hx (Hvr _ _ Hr) d Hr).
Qed.

Lemma processed_timely m0 m : timely m0 -> processed m0 m -> timely m.
Proof.
  intros Ht [Htm _ Hd] r d Hr Hn; destruct (Hd r d Hr) as [Hr0 | [? _]]; [| done]; rewrite Htm; by eapply Ht.
Qed.

Lemma timely_Tick m : (forall r d, RenameDataForReg r m = Some d -> renamed d <> kInvalidMachineReg -> (renaming_time d <= time_ m)%nat) -> timely (Tick m).
Proof. intros H r d Hr Hn; cbn; specialize (H r d Hr Hn); lia. Qed.

(** A copy records that its registers are equal. *)
Lemma ProcessCopy_spec lo i dst src m0 m m' (ρ : MachineReg -> V) :
  timely m0 -> processed m0 m -> regs i = [dst; src] -> (IsVReg dst = true -> defined_now m0 m dst) -> ρ dst = ρ src -> valid m ρ ->
  ProcessCopy lo i m = Some m' -> timely (Tick m') /\ valid m' ρ.
Proof.
  intros Ht Hp Hr Hdst Heq Hv; unfold ProcessCopy, RegAt; rewrite Hr; cbn [lookup list_lookup mbind option_bind].
  pose proof (processed_timely _ _ Ht Hp) as Htm; destruct (_ || _) eqn:Evr.
  { intros [= <-]; split; [| done]; apply timely_Tick; intros r d Hrd Hn; specialize (Htm r d Hrd Hn); lia. }
  apply orb_false_iff in Evr as [Ed%negb_false_iff Es%negb_false_iff]; specialize (Hdst Ed).
  assert (Hgen : forall x q d, set_rename_data x d m = Some m' -> renamed d = q -> renaming_time d = time_ m -> ρ x = ρ q ->
    (forall d0, RenameDataForReg x m = Some d0 -> last_def_time d = last_def_time d0 \/ last_def_time d = time_ m) -> timely (Tick m') /\ valid m' ρ).
  { intros x q d (v & Hxv & Hvl & Ht' & _ & Hx & Ho)%set_rename_data_spec Hq Hrt Hxq Hld; split.
    - apply timely_Tick; intros r dr; rewrite Ht'; destruct (decide (r = x)) as [-> | Hne]; [rewrite Hx; intros [= <-]; lia |].
      rewrite Ho by done; intros Hrd Hn; specialize (Htm r dr Hrd Hn); lia.
    - intros r q' Hg Hq'; destruct (get_renamed_spec _ _ _ Hg Hq') as (d1 & dq1 & Hr1 & E1 & Hq1 & Hle); subst q'.
      destruct (decide (r = x)) as [-> | Hne]; [rewrite Hx in Hr1; injection Hr1 as <-; congruence |]; rewrite Ho in Hr1 by done.
      specialize (Htm r d1 Hr1 Hq') as Hlt; apply Hv; [| done]; unfold get_renamed; rewrite Hr1; cbn [mbind option_bind].
      rewrite (proj2 (Z.eqb_neq _ _)) by done; destruct (decide (renamed d1 = x)) as [Hx1 | Hnx].
      + rewrite Hx1, Hx in Hq1; injection Hq1 as <-; rewrite Hx1.
        assert (is_Some (RenameDataForReg x m)) as [d0 Hd0] by (rewrite (RenameDataForReg_lookup x v) by done; by apply lookup_lt_is_Some).
        rewrite Hd0; cbn [mbind option_bind]; rewrite (proj2 (Nat.ltb_ge _ _)); [done |]; destruct (Hld d0 Hd0); lia.
      + rewrite Ho in Hq1 by done; rewrite Hq1; cbn [mbind option_bind]; by rewrite (proj2 (Nat.ltb_ge _ _)) by done. }
  case_bool_decide as Hlo.
  - destruct (RenameDataForReg src m) as [ds |] eqn:Hds; cbn [mbind option_bind]; [| done].
    intros Hset; eapply (Hgen src dst); [exact Hset | done | done | done |]; cbn; intros d0 Hd0; left; congruence.
  - intros Hset; eapply (Hgen dst src); [exact Hset | done | done | done |]; cbn; intros d0 _; by right.
Qed.

(** Only the pseudo copy is of the kind of copies, and has the operands its
    constructor gives it. *)
Definition proper_copy (i : MachineInsn) : Prop := copy_ok i /\ (is_copy i = true -> data i = PseudoCopy).

Lemma rename_insn_spec lo i i' m m' (ρ : MachineReg -> V) (w : W) :
  proper_copy i -> timely m -> valid m ρ -> rename_insn lo i m = Some (i', m') ->
  timely m' /\ fault_of i' ρ w = fault_of i ρ w /\ transfer_of i' ρ = transfer_of i ρ /\
  exec_regs i' ρ w = exec_regs i ρ w /\ valid m' (exec_regs i ρ w).1.
Proof.
  intros [Hok Hcopy] Ht Hv; unfold rename_insn; destruct (rename_operands _ _ _ _) as [[rs m1] |] eqn:E1; cbn [mbind option_bind]; [| done].
  destruct (rename_operands_spec _ m _ _ _ _ _ Ht (processed_refl m) E1) as (Hp & _ & Hw & Hi & Hwd & _).
  assert (Hin : inputs_of (operands (set_regs rs i)) ρ = inputs_of (operands i) ρ) by (by apply Hi).
  assert (Hex : exec_regs (set_regs rs i) ρ w = exec_regs i ρ w).
  { unfold exec_regs; rewrite Hin; cbn [data reg_kinds set_regs]; destruct (exec_insn _ _ _ _) as [out w']; f_equal; apply Hwd. }
  assert (Hsame : fault_of (set_regs rs i) ρ w = fault_of i ρ w /\ transfer_of (set_regs rs i) ρ = transfer_of i ρ).
  { unfold fault_of, transfer_of, first_input; by rewrite Hin. }
  pose proof (processed_valid m m1 i ρ w Ht Hv Hp Hw) as Hv1.
  destruct (is_copy (set_regs rs i)) eqn:Ec.
  - destruct (ProcessCopy lo (set_regs rs i) m1) as [m2 |] eqn:E2; cbn [mbind option_bind]; [| done]; intros [= <- <-].
    pose proof (Hcopy Ec) as Hd; destruct (Hok Hd) as (_ & _ & dst & src & c & Hr & Hk).
    rewrite Hr, Hk, Hd in E1; cbn [rename_operands] in E1; change (IsDef (def_of c)) with true in E1; change (IsDef (use_of c)) with false in E1.
    destruct (ProcessDef dst m) as [m3 |] eqn:E3; cbn [mbind option_bind] in E1; [| done].
    destruct (RenameUseIfMapped PseudoCopy (use_of c) src m3) as [src' |] eqn:E4; cbn [mbind option_bind] in E1; [| done]; injection E1 as <- <-.
    destruct (exec_copy i dst src c ρ w Hd Hr Hk) as [_ Hρ]; destruct (ProcessDef_processed m dst m m3 (processed_refl m) E3) as (_ & Hdn & _).
    destruct (ProcessCopy_spec lo (set_regs [dst; src'] i) dst src' m m3 m2 (exec_regs i ρ w).1) as [Ht2 Hv2]; try done; [| by conjs; try apply Hsame].
    rewrite <- Hex; pose proof (exec_copy (set_regs [dst; src'] i) dst src' c ρ w Hd eq_refl Hk) as [_ Hρ']; rewrite !Hρ'.
    unfold set_reg; rewrite decide_True by done; case_decide; done.
  - cbn [mbind option_bind]; intros [= <- <-]; conjs; try apply Hsame; try done.
    apply timely_Tick; intros r d Hr Hn; pose proof (processed_timely _ _ Ht Hp r d Hr Hn); lia.
Qed.

Lemma rename_insns_run lo l : forall m l' m' (ρ : MachineReg -> V) (w : W),
  Forall proper_copy l -> timely m -> valid m ρ -> rename_insns lo l m = Some (l', m') -> run_insns l' ρ w = run_insns l ρ w.
Proof.
  induction l as [| i l IH]; intros m l' m' ρ w Hok Ht Hv; cbn [rename_insns]; [by intros [= <- <-] |].
  apply Forall_cons in Hok as [Hi Hl]; destruct (rename_insn lo i m) as [[i1 m1] |] eqn:E1; cbn [mbind option_bind]; [| done].
  destruct (rename_insns lo l m1) as [[l1 m2] |] eqn:E2; cbn [mbind option_bind]; [| done]; intros [= <- <-].
  destruct (rename_insn_spec lo i i1 m m1 ρ w Hi Ht Hv E1) as (Ht1 & Hf & Htr & Hex & Hv1); cbn [run_insns]; rewrite Hf, Htr, Hex.
  destruct (fault_of i ρ w); [done |]; destruct (transfer_of i ρ); [done |]; destruct (exec_regs i ρ w) as [ρ1 w1]; by eapply IH.
Qed.

Lemma StartBasicBlock_data m r d : RenameDataForReg r (StartBasicBlock m) = Some d -> d = no_rename.
Proof.
  unfold RenameDataForReg; destruct (GetVRegIndex r) as [v |]; cbn [mbind option_bind]; [| done]; cbn.
  rewrite list_lookup_fmap; intros (x & _ & ->)%fmap_Some; done.
Qed.

Lemma StartBasicBlock_timely m : timely (StartBasicBlock m).
Proof. intros r d Hr; apply StartBasicBlock_data in Hr as ->; done. Qed.

Lemma StartBasicBlock_valid m (ρ : MachineReg -> V) : valid (StartBasicBlock m) ρ.
Proof.
  intros r q Hg Hq; destruct (get_renamed_spec _ _ _ Hg Hq) as (d & _ & Hr & Hd & _); apply StartBasicBlock_data in Hr as ->; by subst.
Qed.

End Rename.

(** ** Where renamed registers come from *)

(** The registers uses are renamed to satisfy [K]. *)
Definition mapped_in (K : nat -> Prop) (m : RenameCopyUsesMap) : Prop :=
  forall r d, RenameDataForReg r m = Some d -> renamed d <> kInvalidMachineReg ->
    exists v, GetVRegIndex (renamed d) = Some v /\ K v.

Lemma mapped_in_sub (K K' : nat -> Prop) m : (forall v, K v -> K' v) -> mapped_in K m -> mapped_in K' m.
Proof. intros Hs Hm r d Hr Hn; destruct (Hm r d Hr Hn) as (v & ? & ?); exists v; auto. Qed.

Lemma mapped_in_set K r d m m' :
  mapped_in K m -> set_rename_data r d m = Some m' -> (renamed d <> kInvalidMachineReg -> exists v, GetVRegIndex (renamed d) = Some v /\ K v) ->
  mapped_in K m'.
Proof.
  intros Hm (v & _ & _ & _ & _ & Hr & Ho)%set_rename_data_spec Hd r' d'; destruct (decide (r' = r)) as [-> | Hne].
  - rewrite Hr; by intros [= <-].
  - rewrite Ho by done; apply Hm.
Qed.

Lemma ProcessDef_mapped K r m m' : mapped_in K m -> ProcessDef r m = Some m' -> mapped_in K m'.
Proof.
  intros Hm; unfold ProcessDef; destruct (negb _); [by intros [= <-] |]; intros Hs; eapply mapped_in_set; [exact Hm | exact Hs | done].
Qed.

Lemma RenameUseIfMapped_mapped K d k r r' m :
  mapped_in K m -> RenameUseIfMapped d k r m = Some r' -> r' = r \/ exists v, GetVRegIndex r' = Some v /\ K v.
Proof.
  intros Hm; unfold RenameUseIfMapped; destruct (_ || _); [intros [= <-]; by left |]; destruct (negb _); [intros [= <-]; by left |].
  destruct (get_renamed r m) as [q |] eqn:Hg; cbn [mbind option_bind]; [| done].
  destruct (Z.eqb_spec q kInvalidMachineReg) as [| Hq]; intros [= <-]; [by left | right].
  destruct (get_renamed_spec _ _ _ Hg Hq) as (dr & _ & Hr & Hd & _); subst q; by eapply Hm.
Qed.

Lemma rename_operands_mapped K d ks : forall rs m rs' m',
  mapped_in K m -> rename_operands d ks rs m = Some (rs', m') ->
  mapped_in K m' /\ length rs' = length rs /\
  forall o, o ∈ zip rs' ks -> o ∈ zip rs ks \/ (IsDef o.2 = false /\ exists v, GetVRegIndex o.1 = Some v /\ K v).
Proof.
  induction ks as [| k ks IH]; intros [| r rs] m rs' m' Hm; cbn [rename_operands]; try done.
  1-2: intros [= <- <-]; conjs; auto.
  destruct (IsDef k) eqn:Ek.
  - destruct (ProcessDef r m) as [m1 |] eqn:E1; cbn [mbind option_bind]; [| done].
    destruct (rename_operands d ks rs m1) as [[rs1 m2] |] eqn:E2; cbn [mbind option_bind]; [| done]; intros [= <- <-].
    destruct (IH _ _ _ _ (ProcessDef_mapped K _ _ _ Hm E1) E2) as (Hm2 & Hl & Ho); cbn [zip zip_with length]; conjs; [done | congruence |].
    intros o [-> | Hin]%elem_of_cons; [left; apply elem_of_cons; by left |]; destruct (Ho o Hin); [left; apply elem_of_cons; by right | by right].
  - destruct (RenameUseIfMapped d k r m) as [r1 |] eqn:E1; cbn [mbind option_bind]; [| done].
    destruct (rename_operands d ks rs m) as [[rs1 m2] |] eqn:E2; cbn [mbind option_bind]; [| done]; intros [= <- <-].
    destruct (IH _ _ _ _ Hm E2) as (Hm2 & Hl & Ho); cbn [zip zip_with length]; conjs; [done | congruence |].
    intros o [-> | Hin]%elem_of_cons; [| destruct (Ho o Hin); [left; apply elem_of_cons; by right | by right]].
    destruct (RenameUseIfMapped_mapped K _ _ _ _ _ Hm E1) as [-> | ?]; [left; apply elem_of_cons; by left | by right].
Qed.

Lemma ProcessCopy_mapped K lo i m m' :
  mapped_in K m -> (forall r v, r ∈ regs i -> GetVRegIndex r = Some v -> K v) -> ProcessCopy lo i m = Some m' -> mapped_in K m'.
Proof.
  intros Hm Hk; unfold ProcessCopy; destruct (RegAt i 0) as [dst |] eqn:E0; cbn [mbind option_bind]; [| done].
  destruct (RegAt i 1) as [src |] eqn:E1; cbn [mbind option_bind]; [| done]; destruct (_ || _) eqn:Ev; [by intros [= <-] |].
  apply orb_false_iff in Ev as [Ed%negb_false_iff%IsVReg_index Es%negb_false_iff%IsVReg_index]; destruct Ed as [vd Hd], Es as [vs Hs].
  case_bool_decide.
  - destruct (RenameDataForReg src m) as [d |]; cbn [mbind option_bind]; [| done]; intros Hset; eapply mapped_in_set; [exact Hm | exact Hset |].
    intros _; exists vd; split; [done |]; eapply (Hk dst); [by eapply list_elem_of_lookup_2 | done].
  - intros Hset; eapply mapped_in_set; [exact Hm | exact Hset |]; intros _; exists vs; split; [done |].
    eapply (Hk src); [by eapply list_elem_of_lookup_2 | done].
Qed.

(** The vregs of an instruction. *)
Definition mentions (i : MachineInsn) (v : nat) : Prop := exists r, r ∈ regs i /\ GetVRegIndex r = Some v.

Lemma rename_insn_mapped K lo i i' m m' :
  mapped_in K m -> rename_insn lo i m = Some (i', m') ->
  mapped_in (fun v => K v \/ mentions i' v) m' /\ reg_kinds i' = reg_kinds i /\ length (regs i') = length (regs i) /\
  forall o, o ∈ operands i' -> o ∈ operands i \/ (IsDef o.2 = false /\ exists v, GetVRegIndex o.1 = Some v /\ K v).
Proof.
  intros Hm; unfold rename_insn; destruct (rename_operands _ _ _ _) as [[rs m1] |] eqn:E1; cbn [mbind option_bind]; [| done].
  destruct (rename_operands_mapped K _ _ _ _ _ _ Hm E1) as (Hm1 & Hl & Ho).
  assert (Hm1' : mapped_in (fun v => K v \/ mentions (set_regs rs i) v) m1) by (eapply mapped_in_sub; [| exact Hm1]; auto).
  destruct (is_copy (set_regs rs i)).
  - destruct (ProcessCopy lo (set_regs rs i) m1) as [m2 |] eqn:E2; cbn [mbind option_bind]; [| done]; intros [= <- <-]; conjs; try done.
    apply (ProcessCopy_mapped _ lo (set_regs rs i) m1 m2); [done | | done]; intros r v Hr Hv; right; by exists r.
  - cbn [mbind option_bind]; intros [= <- <-]; by conjs.
Qed.

(** *** The live registers *)

Lemma mentions_operands i v : wf_insn i -> mentions i v -> reads i v \/ writes i v.
Proof.
  intros Hwf (r & Hr & Hv); apply list_elem_of_lookup in Hr as [n Hn]; destruct (reg_kinds i !! n) as [k |] eqn:Hk.
  - assert ((r, k) ∈ operands i) as Hin by (unfold operands; eapply list_elem_of_lookup_2 with (i := n); by rewrite lookup_zip_with, Hn; cbn; rewrite Hk).
    destruct (IsDef k) eqn:Ed; [right; by exists r, k | left; exists r, k; conjs; try done].
    revert Ed; unfold IsDef, IsInput; by destruct (access k).
  - apply lookup_lt_Some in Hn; apply lookup_ge_None in Hk; unfold wf_insn in Hwf; lia.
Qed.

Lemma rename_insn_written lo i i' m m' r :
  timely m -> rename_insn lo i m = Some (i', m') -> written (operands i') r <-> written (operands i) r.
Proof.
  intros Ht; unfold rename_insn; destruct (rename_operands _ _ _ _) as [[rs m1] |] eqn:E1; cbn [mbind option_bind]; [| done].
  destruct (rename_operands_spec (V := unit) _ m _ _ _ _ _ Ht (processed_refl m) E1) as (_ & _ & _ & _ & _ & Hw).
  intros H; assert (operands i' = zip rs (reg_kinds i)) as Hop.
  { destruct (is_copy _); [destruct (ProcessCopy _ _ _); cbn in H; [| done] | cbn in H]; by injection H as <- _. }
  rewrite Hop; apply Hw.
Qed.

Lemma written_same i i' v : (forall r, written (operands i') r <-> written (operands i) r) -> writes i' v <-> writes i v.
Proof.
  intros Hw; unfold writes; split; intros (r & k & Hin & Hd & Hv).
  - destruct (proj1 (Hw r)) as (k' & Hin' & Hd'); [by exists k |]; by exists r, k'.
  - destruct (proj2 (Hw r)) as (k' & Hin' & Hd'); [by exists k |]; by exists r, k'.
Qed.

Lemma rename_insn_timely lo i i' m m' : proper_copy i -> timely m -> rename_insn lo i m = Some (i', m') -> timely m'.
Proof.
  intros Hi Ht E.
  by destruct (@rename_insn_spec unit unit unit_sem unit_sem_ok lo i i' m m' (fun _ => tt) tt Hi Ht (fun _ _ _ _ => eq_refl) E) as (? & _).
Qed.

(** A renamed use reads a register that the block read or wrote before. *)
Lemma rename_insns_reads lo l : forall K m l' m' v,
  Forall proper_copy l -> Forall wf_insn l -> timely m -> mapped_in K m -> rename_insns lo l m = Some (l', m') ->
  (never_written l' v <-> never_written l v) /\ (read_first l' v -> read_first l v \/ K v).
Proof.
  induction l as [| i l IH]; intros K m l' m' v Hok Hwf Ht Hm; cbn [rename_insns]; [intros [= <- <-]; auto |].
  apply Forall_cons in Hok as [Hi Hl], Hwf as [Hwi Hwl]; destruct (rename_insn lo i m) as [[i1 m1] |] eqn:E1; cbn [mbind option_bind]; [| done].
  destruct (rename_insns lo l m1) as [[l1 m2] |] eqn:E2; cbn [mbind option_bind]; [| done]; intros [= <- <-].
  destruct (rename_insn_mapped K lo i i1 m m1 Hm E1) as (Hm1 & Hk & Hlen & Ho); pose proof (written_same i i1 v (fun r => rename_insn_written lo i i1 m m1 r Ht E1)) as Hw.
  destruct (IH _ m1 l1 m2 v Hl Hwl (rename_insn_timely lo i i1 m m1 Hi Ht E1) Hm1 E2) as [Hnw Hrf]; split.
  - cbn [never_written]; rewrite Hw; tauto.
  - assert (Hreads : reads i1 v -> reads i v \/ K v).
    { intros (r & k & Hin & Hk' & Hv); destruct (Ho _ Hin) as [? | (_ & v' & Hv' & ?)]; [left; by exists r, k | right].
      cbn in Hv'; rewrite Hv in Hv'; by injection Hv' as ->. }
    cbn [read_first]; intros [Hr | [Hn Hr]]; [destruct (Hreads Hr); auto |].
    destruct (Hrf Hr) as [? | [? | Hme]]; [left; right; by rewrite <- Hw | by right |].
    assert (wf_insn i1) as Hwi1 by (unfold wf_insn in *; congruence).
    destruct (mentions_operands i1 v Hwi1 Hme) as [? | ?]; [destruct (Hreads ltac:(done)); auto | done].
Qed.

(** ** The pass *)

Lemma set_rename_data_total n r d m :
  IsVReg r = true -> reg_in n r -> length (rename_map m) = n -> exists m', set_rename_data r d m = Some m' /\ length (rename_map m') = n.
Proof.
  intros [v Hv]%IsVReg_index Hr Hl; unfold set_rename_data; rewrite Hv; cbn [mbind option_bind].
  rewrite decide_True by (rewrite Hl; by apply Hr); eexists; split; [done |]; cbn; by rewrite length_insert.
Qed.

Lemma RenameDataForReg_total n r m :
  IsVReg r = true -> reg_in n r -> length (rename_map m) = n -> is_Some (RenameDataForReg r m).
Proof.
  intros [v Hv]%IsVReg_index Hr Hl; rewrite (RenameDataForReg_lookup r v) by done; apply lookup_lt_is_Some; rewrite Hl; by apply Hr.
Qed.

Lemma mapped_reg_in n r v : GetVRegIndex r = Some v -> (v < n)%nat -> IsVReg r = true /\ reg_in n r.
Proof.
  intros Hv Hlt; split; [unfold IsVReg; unfold GetVRegIndex in Hv; by destruct (_ <=? _) |]; intros v' Hv'; congruence.
Qed.

Definition in_range (n : nat) (v : nat) : Prop := (v < n)%nat.

Lemma RenameUseIfMapped_total n d k r m :
  mapped_in (in_range n) m -> length (rename_map m) = n -> reg_in n r -> exists r', RenameUseIfMapped d k r m = Some r' /\ reg_in n r'.
Proof.
  intros Hm Hl Hr; unfold RenameUseIfMapped; destruct (_ || _); [by exists r |]; destruct (IsVReg r) eqn:Ev; cbn [negb]; [| by exists r].
  unfold get_renamed; destruct (RenameDataForReg_total n r m Ev Hr Hl) as [d0 Hd0]; rewrite Hd0; cbn [mbind option_bind].
  destruct (Z.eqb_spec (renamed d0) kInvalidMachineReg) as [| Hn]; cbn [mbind option_bind]; [by exists r |].
  destruct (Hm r d0 Hd0 Hn) as (v & Hv & Hlt); destruct (mapped_reg_in n _ v Hv Hlt) as [Hvq Hq].
  destruct (RenameDataForReg_total n _ m Hvq Hq Hl) as [dq ->]; cbn [mbind option_bind].
  case_match; cbn [mbind option_bind]; [by exists r |]; eexists; split; [done |]; by case_match.
Qed.

Lemma rename_operands_total n d ks : forall rs m,
  length rs = length ks -> mapped_in (in_range n) m -> length (rename_map m) = n -> (forall r, r ∈ rs -> reg_in n r) ->
  exists rs' m', rename_operands d ks rs m = Some (rs', m') /\ length (rename_map m') = n /\ mapped_in (in_range n) m' /\ (forall r, r ∈ rs' -> reg_in n r).
Proof.
  induction ks as [| k ks IH]; intros [| r rs] m Hlen Hm Hl Hr; try done; cbn [rename_operands]; [by exists [], m |].
  assert (Hr0 : reg_in n r) by (apply Hr, elem_of_cons; by left).
  assert (exists r1 m1, (if IsDef k then m ← ProcessDef r m; Some (r, m) else r ← RenameUseIfMapped d k r m; Some (r, m)) = Some (r1, m1) /\
    length (rename_map m1) = n /\ mapped_in (in_range n) m1 /\ reg_in n r1) as (r1 & m1 & -> & Hl1 & Hm1 & Hr1).
  { destruct (IsDef k).
    - destruct (ProcessDef r m) as [m1 |] eqn:E; cbn [mbind option_bind].
      + exists r, m1; conjs; [done | | by eapply ProcessDef_mapped | done]; revert E; unfold ProcessDef; destruct (negb _); [by intros [= <-] |].
        intros (v & _ & _ & _ & ? & _)%set_rename_data_spec; congruence.
      + exfalso; revert E; unfold ProcessDef; destruct (IsVReg r) eqn:Ev; cbn [negb]; [| done].
        by destruct (set_rename_data_total n r {| renamed := kInvalidMachineReg; renaming_time := 0; last_def_time := time_ m |} m Ev Hr0 Hl) as (m' & -> & _).
    - destruct (RenameUseIfMapped_total n d k r m Hm Hl Hr0) as (r' & -> & Hr'); by exists r', m. }
  cbn [mbind option_bind]; destruct (IH rs m1) as (rs' & m2 & -> & Hl2 & Hm2 & Hr2); [by injection Hlen | done | done | intros; apply Hr, elem_of_cons; by right |].
  exists (r1 :: rs'), m2; conjs; try done; intros x [-> | ?]%elem_of_cons; auto.
Qed.

Lemma rename_insn_total n lo i m :
  proper_copy i -> wf_insn i -> mapped_in (in_range n) m -> length (rename_map m) = n -> (forall r, r ∈ regs i -> reg_in n r) ->
  exists i' m', rename_insn lo i m = Some (i', m') /\ length (rename_map m') = n /\ mapped_in (in_range n) m' /\ (forall r, r ∈ regs i' -> reg_in n r).
Proof.
  intros [Hok Hcp] Hwf Hm Hl Hr; unfold rename_insn.
  destruct (rename_operands_total n (data i) (reg_kinds i) (regs i) m Hwf Hm Hl Hr) as (rs & m1 & E1 & Hl1 & Hm1 & Hr1); rewrite E1; cbn [mbind option_bind].
  assert (exists m2, (if is_copy (set_regs rs i) then ProcessCopy lo (set_regs rs i) m1 else Some m1) = Some m2 /\ length (rename_map m2) = n /\
    mapped_in (in_range n) m2) as (m2 & -> & Hl2 & Hm2); [| cbn [mbind option_bind]; by exists (set_regs rs i), (Tick m2)].
  destruct (is_copy (set_regs rs i)) eqn:Ec; [| by exists m1]; destruct (Hok (Hcp Ec)) as (_ & _ & dst & src & c & Hri & Hk).
  destruct (rename_operands_mapped (in_range n) _ _ _ _ _ _ Hm E1) as (_ & Hlr & _); rewrite Hri in Hlr; destruct rs as [| d' [| s' [| ? ?]]]; try done.
  destruct (ProcessCopy lo (set_regs [d'; s'] i) m1) as [m2 |] eqn:E2.
  - exists m2; conjs; [done | | eapply ProcessCopy_mapped; [exact Hm1 | | exact E2]; intros r v Hin Hv; by apply (Hr1 r Hin)].
    revert E2; unfold ProcessCopy; cbn [RegAt regs set_regs lookup list_lookup mbind option_bind]; destruct (_ || _); [by intros [= <-] |].
    case_bool_decide; [destruct (RenameDataForReg s' m1); cbn [mbind option_bind]; [| done] |];
      intros (v & _ & _ & _ & ? & _)%set_rename_data_spec; congruence.
  - exfalso; revert E2; unfold ProcessCopy; cbn [RegAt regs set_regs lookup list_lookup mbind option_bind].
    assert (Hd' : reg_in n d') by (apply Hr1, elem_of_cons; by left).
    assert (Hs' : reg_in n s') by (apply Hr1, elem_of_cons; right; by apply list_elem_of_singleton).
    destruct (IsVReg d') eqn:Ed, (IsVReg s') eqn:Es; cbn [negb orb]; try done.
    destruct (RenameDataForReg_total n s' m1 Es Hs' Hl1) as [x Hx]; rewrite Hx; cbn [mbind option_bind].
    case_bool_decide; [by destruct (set_rename_data_total n s' {| renamed := d'; renaming_time := time_ m1; last_def_time := last_def_time x |} m1 Es Hs' Hl1) as (? & -> & _) |
      by destruct (set_rename_data_total n d' {| renamed := s'; renaming_time := time_ m1; last_def_time := time_ m1 |} m1 Ed Hd' Hl1) as (? & -> & _)].
Qed.

Lemma rename_insns_total n lo l : forall m,
  Forall proper_copy l -> Forall wf_insn l -> mapped_in (in_range n) m -> length (rename_map m) = n -> (forall i r, i ∈ l -> r ∈ regs i -> reg_in n r) ->
  exists l' m', rename_insns lo l m = Some (l', m') /\ length (rename_map m') = n /\ (forall i r, i ∈ l' -> r ∈ regs i -> reg_in n r).
Proof.
  induction l as [| i l IH]; intros m Hok Hwf Hm Hl Hr; cbn [rename_insns].
  { exists [], m; conjs; try done; intros i r Hi; by apply not_elem_of_nil in Hi. }
  apply Forall_cons in Hok as [Hi Hok], Hwf as [Hwi Hwf].
  destruct (rename_insn_total n lo i m Hi Hwi Hm Hl) as (i' & m1 & -> & Hl1 & Hm1 & Hr1); [intros r; apply Hr, elem_of_cons; by left |]; cbn [mbind option_bind].
  destruct (IH m1 Hok Hwf Hm1 Hl1) as (l' & m2 & -> & Hl2 & Hr2); [intros j r Hj; apply Hr, elem_of_cons; by right |].
  exists (i' :: l'), m2; conjs; try done; intros j r [-> | Hj]%elem_of_cons; [apply Hr1 | by apply Hr2].
Qed.

(** What the passes of the optimizer rely on in every block. *)
Definition insns_ok (n : nat) (l : list MachineInsn) : Prop :=
  Forall proper_copy l /\ Forall wf_insn l /\ forall i r, i ∈ l -> r ∈ regs i -> reg_in n r.

Lemma mapped_in_start K m : mapped_in K (StartBasicBlock m).
Proof. intros r d Hr; by apply StartBasicBlock_data in Hr as ->. Qed.

Lemma rename_blocks_spec n l : forall ir m,
  NoDup l -> length (rename_map m) = n -> (forall bb, bb ∈ l -> exists b, blocks ir !! bb = Some b /\ insns_ok n (insn_list b)) ->
  exists ir' m', for_each rename_block l (ir, m) = Some (ir', m') /\ bb_list ir' = bb_list ir /\ num_vreg ir' = num_vreg ir /\
    (forall bb, bb ∉ l -> blocks ir' !! bb = blocks ir !! bb) /\
    forall bb, bb ∈ l -> exists b l' m0 m1, blocks ir !! bb = Some b /\ rename_insns (live_out b) (insn_list b) (StartBasicBlock m0) = Some (l', m1) /\
      blocks ir' !! bb = Some (set_insn_list l' b) /\ (forall i r, i ∈ l' -> r ∈ regs i -> reg_in n r).
Proof.
  induction l as [| bb l IH]; intros ir m Hnd Hl Hall; cbn [for_each].
  { exists ir, m; conjs; try done; intros bb Hbb; by apply not_elem_of_nil in Hbb. }
  apply NoDup_cons in Hnd as [Hnb Hnd]; destruct (Hall bb ltac:(apply elem_of_cons; by left)) as (b & Hb & Hc & Hw & Hr).
  destruct (rename_insns_total n (live_out b) (insn_list b) (StartBasicBlock m) Hc Hw (mapped_in_start _ m)) as (l' & m1 & E & Hl1 & Hr1);
    [by cbn; rewrite length_map | done |].
  assert (rename_block bb (ir, m) = Some (update_block bb (set_insn_list l') ir, m1)) as -> by (unfold rename_block; rewrite Hb; cbn [mbind option_bind]; by rewrite E).
  cbn [mbind option_bind]; destruct (IH (update_block bb (set_insn_list l') ir) m1 Hnd Hl1) as (ir' & m' & -> & H1 & H2 & H3 & H4).
  { intros bb' Hin; cbn; rewrite lookup_alter_ne by (intros ->; done); apply Hall, elem_of_cons; by right. }
  exists ir', m'; conjs; try done.
  - intros bb' [Hne Hn]%not_elem_of_cons; rewrite H3 by done; cbn; by rewrite lookup_alter_ne.
  - intros bb' [-> | Hin]%elem_of_cons.
    + exists b, l', m, m1; conjs; try done; rewrite H3 by done; cbn; by rewrite lookup_alter_eq, Hb.
    + destruct (H4 bb' Hin) as (c & lc & m2 & m3 & Hbc & ? & ? & ?); exists c, lc, m2, m3; conjs; try done.
      cbn in Hbc; rewrite lookup_alter_ne in Hbc; [done |]; intros ->; done.
Qed.

(** Blocks that run alike. *)
Definition block_runs {V W : Type} `{!MachineSem V W} (b b' : MachineBasicBlock) : Prop :=
  forall (ρ : MachineReg -> V) (w : W), run_insns (insn_list b') ρ w = run_insns (insn_list b) ρ w.

Lemma equal_blocks_there {V W : Type} `{!MachineSem V W} ir ir' bb (ρ : MachineReg -> V) (w : W) e ρ' w' :
  (forall y, option_Forall2 (block_runs (V := V) (W := W)) (blocks ir !! y) (blocks ir' !! y)) ->
  runs ir bb ρ w e ρ' w' -> runs ir' bb ρ w e ρ' w'.
Proof.
  intros Hall; induction 1 as [bb b ρ w e ρ' w' Hb Hrun He | bb b ρ w bb' ρ' w' e ρ'' w'' Hb Hrun _ IH];
    pose proof (Hall bb) as H; rewrite Hb in H; inversion H as [x y Hxy Hx Hy | ]; subst.
  - eapply runs_exit; [done | by rewrite Hxy | done].
  - eapply runs_goto; [done | by rewrite Hxy | done].
Qed.

Lemma equal_blocks_runs {V W : Type} `{!MachineSem V W} ir ir' bb :
  (forall y, option_Forall2 (block_runs (V := V) (W := W)) (blocks ir !! y) (blocks ir' !! y)) -> equal_runs (V := V) (W := W) bb ir ir'.
Proof.
  intros Hall ρ w e ρ' w'; split; apply equal_blocks_there; [done |].
  intros y; specialize (Hall y); inversion Hall as [b b' Hbb | ]; constructor; intros ρ0 w0; symmetry; apply Hbb.
Qed.

(** *** The live-out sets stay right *)

Record same_shape (i i' : MachineInsn) : Prop := {
  ss_successors : successors i' = successors i;
  ss_transfer : IsControlTransfer i' = IsControlTransfer i;
  ss_effects : has_side_effects i' = has_side_effects i;
  ss_written : forall r, written (operands i') r <-> written (operands i) r
}.

Lemma rename_insn_shape lo i i' m m' : timely m -> rename_insn lo i m = Some (i', m') -> same_shape i i'.
Proof.
  intros Ht E; split; [| | | intros r; by eapply rename_insn_written]; revert E; unfold rename_insn;
    destruct (rename_operands _ _ _ _) as [[rs m1] |]; cbn [mbind option_bind]; try done;
    destruct (if is_copy _ then _ else _); cbn [mbind option_bind]; try done; by intros [= <- _].
Qed.

Lemma rename_insns_shape lo l : forall m l' m',
  Forall proper_copy l -> timely m -> rename_insns lo l m = Some (l', m') -> Forall2 same_shape l l'.
Proof.
  induction l as [| i l IH]; intros m l' m' Hok Ht; cbn [rename_insns]; [by intros [= <- <-] |]; apply Forall_cons in Hok as [Hi Hl].
  destruct (rename_insn lo i m) as [[i1 m1] |] eqn:E1; cbn [mbind option_bind]; [| done].
  destruct (rename_insns lo l m1) as [[l1 m2] |] eqn:E2; cbn [mbind option_bind]; [| done]; intros [= <- <-].
  constructor; [by eapply rename_insn_shape |]; eapply IH; [done | by eapply rename_insn_timely | done].
Qed.

Lemma never_written_shape l l' v : Forall2 same_shape l l' -> never_written l' v <-> never_written l v.
Proof.
  induction 1 as [| i i' l l' Hi _ IH]; [done |]; cbn [never_written]; rewrite IH, (written_same i i' v (ss_written _ _ Hi)); done.
Qed.

Section Pass.
Context (ir ir' : MachineIR).
Context (Hok : forall bb, bb ∈ bb_list ir -> exists b, blocks ir !! bb = Some b /\ insns_ok (num_vreg ir) (insn_list b)).
Context (Hren : forall bb, bb ∈ bb_list ir -> exists b l' m0 m1, blocks ir !! bb = Some b /\
  rename_insns (live_out b) (insn_list b) (StartBasicBlock m0) = Some (l', m1) /\ blocks ir' !! bb = Some (set_insn_list l' b) /\
  (forall i r, i ∈ l' -> r ∈ regs i -> reg_in (num_vreg ir) r)).
Context (Hlist : bb_list ir' = bb_list ir) (Hnv : num_vreg ir' = num_vreg ir).

Lemma renamed_block bb b' :
  bb ∈ bb_list ir -> blocks ir' !! bb = Some b' -> exists b m0 m1, blocks ir !! bb = Some b /\ live_out b' = live_out b /\
    rename_insns (live_out b) (insn_list b) (StartBasicBlock m0) = Some (insn_list b', m1) /\ insns_ok (num_vreg ir) (insn_list b) /\
    Forall2 same_shape (insn_list b) (insn_list b') /\ (forall i r, i ∈ insn_list b' -> r ∈ regs i -> reg_in (num_vreg ir) r).
Proof.
  intros Hbb Hb'; destruct (Hren bb Hbb) as (b & l' & m0 & m1 & Hb & E & Hr & Hin); rewrite Hb' in Hr; injection Hr as ->.
  destruct (Hok bb Hbb) as (b1 & Hb1 & Hi); assert (b1 = b) as -> by congruence; exists b, m0, m1; conjs; try done.
  eapply rename_insns_shape; [apply Hi | apply StartBasicBlock_timely | exact E].
Qed.

Lemma renamed_lives_in t d' v :
  t ∈ bb_list ir -> blocks ir' !! t = Some d' -> lives_in d' v -> exists d, blocks ir !! t = Some d /\ lives_in d v.
Proof.
  intros Ht Hd'; destruct (renamed_block t d' Ht Hd') as (d & m0 & m1 & Hd & Hlo & E & (Hc & Hw & _) & _ & _); intros Hl; exists d; split; [done |].
  destruct (rename_insns_reads (live_out d) (insn_list d) (fun _ => False) (StartBasicBlock m0) (insn_list d') m1 v Hc Hw
    (StartBasicBlock_timely m0) (mapped_in_start _ m0) E) as [Hnw Hrf].
  destruct Hl as [Hl | [Hn (r & Hr & Hv)]]; [left; by destruct (Hrf Hl) | right; split; [by apply Hnw |]; exists r; by rewrite <- Hlo].
Qed.

Lemma renamed_live_out_ok : live_out_ok ir -> live_out_ok ir'.
Proof.
  intros [H1 H2 H3].
  assert (Hsplit : forall bb b' pre i' post, bb ∈ bb_list ir -> blocks ir' !! bb = Some b' -> insn_list b' = pre ++ i' :: post ->
    exists b pre0 i post0, blocks ir !! bb = Some b /\ live_out b' = live_out b /\ insn_list b = pre0 ++ i :: post0 /\ same_shape i i' /\
      Forall2 same_shape (i :: post0) (i' :: post)).
  { intros bb b' pre i' post Hbb Hb' Hl; destruct (renamed_block bb b' Hbb Hb') as (b & m0 & m1 & Hb & Hlo & _ & _ & Hsh & _); rewrite Hl in Hsh.
    apply Forall2_app_inv_r in Hsh as (pre0 & suf & _ & Hsuf & Hl0); inversion Hsuf as [| i ? post0 ? Hi Hp]; subst; by exists b, pre0, i, post0. }
  split; rewrite Hlist.
  - intros bb b' pre i' post t Hbb Hb' Hl Ht; destruct (Hsplit _ _ _ _ _ Hbb Hb' Hl) as (b & pre0 & i & post0 & Hb & _ & Hl0 & Hi & _).
    rewrite (ss_successors _ _ Hi) in Ht; by eapply H1.
  - intros bb b' pre i' post t d' v Hbb Hb' Hl Ht Hd' Hlv; destruct (Hsplit _ _ _ _ _ Hbb Hb' Hl) as (b & pre0 & i & post0 & Hb & Hlo & Hl0 & Hi & Hp).
    rewrite (ss_successors _ _ Hi) in Ht; destruct (renamed_lives_in t d' v ltac:(by eapply H1) Hd' Hlv) as (d & Hd & Hlv').
    destruct (H2 bb b pre0 i post0 t d v Hbb Hb Hl0 Ht Hd Hlv') as [Hout Hnw]; split; [| by apply (never_written_shape _ _ v Hp)].
    unfold lives_out; by rewrite Hlo.
  - intros bb b' i' Hbb Hb' Hi' Hc; apply list_elem_of_split in Hi' as (pre & post & Hl).
    destruct (Hsplit _ _ _ _ _ Hbb Hb' Hl) as (b & pre0 & i & post0 & Hb & _ & Hl0 & Hi & _); rewrite (ss_transfer _ _ Hi) in Hc.
    assert (i ∈ insn_list b) as Hin by (rewrite Hl0; apply elem_of_app; right; apply elem_of_cons; by left).
    destruct (H3 bb b i Hbb Hb Hin Hc) as [? Hnw]; rewrite (ss_effects _ _ Hi); split; [done |]; intros r Hr; by apply (Hnw r), (ss_written _ _ Hi).
Qed.

End Pass.

Lemma RenameCopyUses_blocks {V W : Type} `{!MachineSem V W} `{!MachineSemOk V W} (ir : MachineIR) :
  NoDup (bb_list ir) ->
  (forall bb, bb ∈ bb_list ir -> exists b, blocks ir !! bb = Some b /\ insns_ok (num_vreg ir) (insn_list b)) ->
  exists ir', RenameCopyUses ir = Some ir' /\ bb_list ir' = bb_list ir /\ (live_out_ok ir -> live_out_ok ir') /\
    (regs_in_range ir -> regs_in_range ir') /\ forall y, option_Forall2 (block_runs (V := V) (W := W)) (blocks ir !! y) (blocks ir' !! y).
Proof.
  intros Hnd Hok; destruct (rename_blocks_spec (num_vreg ir) (bb_list ir) ir (new_RenameCopyUsesMap ir) Hnd) as (ir' & m' & E & Hl & Hnv & Hother & Hin);
    [apply length_replicate | done |].
  exists ir'; unfold RenameCopyUses; rewrite E; conjs; [done | done | by apply renamed_live_out_ok | |].
  - intros [H1 H2 H3]; split; rewrite Hl, ?Hnv.
    + intros bb b' i o Hbb Hb' Hi Ho; destruct (renamed_block ir ir' Hok Hin bb b' Hbb Hb') as (b & m0 & m1 & _ & _ & _ & _ & _ & Hr).
      apply (Hr i); [done |]; destruct o as [r k]; cbn; unfold operands in Ho; by apply elem_of_zip_l in Ho.
    + intros bb b' r Hbb Hb'; destruct (renamed_block ir ir' Hok Hin bb b' Hbb Hb') as (b & m0 & m1 & Hb & -> & _); by eapply H2.
    + intros bb Hbb; destruct (Hin bb Hbb) as (b & l' & _ & _ & _ & _ & -> & _); by eexists.
  - intros y; destruct (decide (y ∈ bb_list ir)) as [Hy | Hy].
    + destruct (Hin y Hy) as (b & l' & m0 & m1 & Hb & Er & Hb' & _); rewrite Hb, Hb'; constructor; intros ρ w; cbn [insn_list set_insn_list].
      destruct (Hok y Hy) as (b1 & Hb1 & Hc & _); assert (b1 = b) as -> by congruence.
      eapply rename_insns_run; [exact Hc | apply StartBasicBlock_timely | apply StartBasicBlock_valid | exact Er].
    + rewrite Hother by done; destruct (blocks ir !! y); constructor; done.
Qed.

(** C18: renaming the uses of copies succeeds on every list of blocks whose
    registers are in range, leaves each block computing exactly what it computed,
    to the last register, and keeps the live-out sets a solution of the equations
    of liveness, which the removal of dead code that follows relies on. *)
Theorem RenameCopyUses_preserves {V W : Type} `{!MachineSem V W} `{!MachineSemOk V W} (ir : MachineIR) :
  NoDup (bb_list ir) ->
  (forall bb, bb ∈ bb_list ir -> exists b, blocks ir !! bb = Some b /\ insns_ok (num_vreg ir) (insn_list b)) ->
  exists ir', RenameCopyUses ir = Some ir' /\ bb_list ir' = bb_list ir /\ (live_out_ok ir -> live_out_ok ir') /\
    (regs_in_range ir -> regs_in_range ir') /\ forall bb, equal_runs (V := V) (W := W) bb ir ir'.
Proof.
  intros Hnd Hok; destruct (RenameCopyUses_blocks (V := V) (W := W) ir Hnd Hok) as (ir' & E & Hl & Hlo & Hr & Hb); exists ir'; conjs; try done.
  intros bb; by apply equal_blocks_runs.
Qed.
