(* ===== verification/RenameVRegs.v ===== *)
(** * Renaming of virtual registers

    [VRegMap], [GenInterBasicBlockMove] and [RenameVRegs] of
    [src/backend/x86_64/rename_vregs.h] and [rename_vregs.cc]: every block gets
    its own names for the virtual registers it uses, and copies connect the
    names along the edges.

    An access out of range, a failed [CHECK] and an id of a register that does
    not fit are [None]. *)
From stdpp Require Import gmap list.
From S2P Require Import Prelude MachineIR Lifetime LifetimeAnalysis Liveness MachineIRCheck MachineSem DeadCode BlockOrder ControlFlow RenameCopyUses.
#[local] Open Scope Z_scope.

(** ** The code *)

(** [map_] and [max_size_]. *)
Record VRegMap := { vreg_map : list (list MachineReg); max_size : list Z }.

Definition new_VRegMap (ir : MachineIR) : VRegMap :=
  {| vreg_map := replicate (num_bb ir) (replicate (num_vreg ir) kInvalidMachineReg);
     max_size := replicate (num_vreg ir) 0 |}.

(** The map refers to the IR, which hands out the registers. *)
Abbreviation renaming := (VRegMap * MachineIR)%type (only parsing).

(** [VRegMap::Get]. *)
Definition vreg_Get (reg : MachineReg) (bb : BlockPtr) (st : renaming) : option (MachineReg * renaming) :=
  let '(vm, ir) := st in
  v ← GetVRegIndex reg;
  row ← vreg_map vm !! bb;
  mapped_reg ← row !! v;
  if mapped_reg =? kInvalidMachineReg then
    '(r, ir) ← AllocVReg ir;
    Some (r, ({| vreg_map := <[bb := <[v := r]> row]> (vreg_map vm); max_size := max_size vm |}, ir))
  else Some (mapped_reg, st).

Definition GetMaxSize (reg : MachineReg) (vm : VRegMap) : option Z := v ← GetVRegIndex reg; max_size vm !! v.

Definition update_max_size (reg : MachineReg) (size : Z) (vm : VRegMap) : option VRegMap :=
  v ← GetVRegIndex reg;
  m ← max_size vm !! v;
  Some {| vreg_map := vreg_map vm; max_size := <[v := Z.max m size]> (max_size vm) |}.

(** The loop over the operands of an instruction. *)
Fixpoint assign_operands (bb : BlockPtr) (ks : list MachineRegKind) (rs : list MachineReg) (st : renaming)
    : option (list MachineReg * renaming) :=
  match ks, rs with
  | [], _ => Some (rs, st)
  | k :: ks, r :: rs =>
      '(r', st) ← (if IsVReg r then
                     '(r', (vm, ir)) ← vreg_Get r bb st;
                     vm ← update_max_size r (RegSize (RegClass k)) vm;
                     Some (r', (vm, ir))
                   else Some (r, st));
      '(rs, st) ← assign_operands bb ks rs st;
      Some (r' :: rs, st)
  | _ :: _, [] => None
  end.

Fixpoint assign_insns (bb : BlockPtr) (l : list MachineInsn) (st : renaming) : option (list MachineInsn * renaming) :=
  match l with
  | [] => Some ([], st)
  | i :: l =>
      '(rs, st) ← assign_operands bb (reg_kinds i) (regs i) st;
      '(l, st) ← assign_insns bb l st;
      Some (set_regs rs i :: l, st)
  end.

Definition assign_block (bb : BlockPtr) (st : renaming) : option renaming :=
  b ← blocks st.2 !! bb;
  '(l, (vm, ir)) ← assign_insns bb (insn_list b) st;
  Some (vm, update_block bb (set_insn_list l) ir).

Definition AssignNewVRegs (st : renaming) : option renaming := for_each assign_block (bb_list st.2) st.

Definition push_live_in (r : MachineReg) (b : MachineBasicBlock) := set_live_in (live_in b ++ [r]) b.
Definition push_live_out (r : MachineReg) (b : MachineBasicBlock) := set_live_out (live_out b ++ [r]) b.

(** [insert] at the beginning and before the last instruction. *)
Definition insert_first (i : MachineInsn) (b : MachineBasicBlock) := set_insn_list (i :: insn_list b) b.
Definition insert_before_last (i : MachineInsn) (b : MachineBasicBlock) : option MachineBasicBlock :=
  j ← last (insn_list b);
  Some (set_insn_list (take (length (insn_list b) - 1) (insn_list b) ++ [i; j]) b).

Definition GenInterBasicBlockMove (pred_bb succ_bb : BlockPtr) (vreg : MachineReg) (st : renaming) : option renaming :=
  '(pred_vreg, st) ← vreg_Get vreg pred_bb st;
  '(succ_vreg, (vm, ir)) ← vreg_Get vreg succ_bb st;
  size ← GetMaxSize vreg vm;
  let insn := new_PseudoCopy succ_vreg pred_vreg size in
  s ← blocks ir !! succ_bb;
  if (length (in_edges s) =? 1)%nat then
    let ir := update_block succ_bb (insert_first insn) ir in
    let ir := update_block succ_bb (push_live_in pred_vreg) ir in
    Some (vm, update_block pred_bb (push_live_out pred_vreg) ir)
  else
    p ← blocks ir !! pred_bb;
    if negb (length (out_edges p) =? 1)%nat then None
    else
      p' ← insert_before_last insn p;
      let ir := set_blocks (<[pred_bb := p']> (blocks ir)) ir in
      let ir := update_block succ_bb (push_live_in succ_vreg) ir in
      Some (vm, update_block pred_bb (push_live_out succ_vreg) ir).

(** The loop over the registers that live into [succ_bb], at [vreg]: at most one
    step per register and the last test. *)
Fixpoint connect_vregs (fuel : nat) (live : list VRegBitSet) (pred_bb succ_bb : BlockPtr) (vreg : MachineReg) (st : renaming)
    : option renaming :=
  if vreg =? kInvalidMachineReg then Some st
  else
    match fuel with
    | O => None
    | S fuel =>
        st ← GenInterBasicBlockMove pred_bb succ_bb vreg st;
        next ← GetNextLiveIn live succ_bb vreg;
        connect_vregs fuel live pred_bb succ_bb next st
    end.

Definition connect_edge (live : list VRegBitSet) (bb : BlockPtr) (e : EdgePtr) (st : renaming) : option renaming :=
  x ← edges st.2 !! e;
  first ← GetFirstLiveIn live (edge_dst x);
  n ← NumVReg live;
  connect_vregs n live bb (edge_dst x) first st.

Definition connect_block (live : list VRegBitSet) (bb : BlockPtr) (st : renaming) : option renaming :=
  b ← blocks st.2 !! bb; for_each (connect_edge live bb) (out_edges b) st.

(** Whether the work list of the analysis ran empty within [fuel] steps. *)
Definition RenameVRegs (fuel : nat) (ir : MachineIR) : option (bool * MachineIR) :=
  '(finished, live) ← Run fuel ir;
  if (finished : bool) then
    st ← AssignNewVRegs (new_VRegMap ir, ir);
    st ← for_each (connect_block live) (bb_list st.2) st;
    Some (true, st.2)
  else Some (false, ir).
