(* ===== verification/RenameVRegsProps.v ===== *)
(** * The map of the renamed registers

    What [VRegMap::Get] and [AssignNewVRegs] do: each pair of a block and a
    register gets its own new register, once. *)
From stdpp Require Import gmap list.
From S2P Require Import Prelude MachineIR Lifetime LifetimeAnalysis Liveness MachineIRCheck MachineSem DeadCode BlockOrder ControlFlow RenameCopyUses RenameVRegs.
#[local] Open Scope Z_scope.

(** ** The map *)

Definition mget (vm : VRegMap) (bb : BlockPtr) (v : nat) : option MachineReg := row ← vreg_map vm !! bb; row !! v.

Definition row_assigned (row : list MachineReg) : nat := length (filter (fun r => r <> kInvalidMachineReg) row).
Definition assigned (vm : VRegMap) : nat := sum_list_with row_assigned (vreg_map vm).

(** The map of [nb] blocks and [n] registers: new registers, no two alike, as
    many as the IR has handed out. *)
Record map_ok (n nb : nat) (vm : VRegMap) (ir : MachineIR) : Prop := {
  mo_rows : length (vreg_map vm) = nb;
  mo_row : Forall (fun row => length row = n) (vreg_map vm);
  mo_sizes : length (max_size vm) = n;
  mo_reg : forall bb v r, mget vm bb v = Some r -> r <> kInvalidMachineReg ->
    exists x, GetVRegIndex r = Some x /\ (n <= x)%nat /\ (x < num_vreg ir)%nat;
  mo_inj : forall bb v bb' v' r, mget vm bb v = Some r -> mget vm bb' v' = Some r -> r <> kInvalidMachineReg -> bb = bb' /\ v = v';
  mo_count : num_vreg ir = (n + assigned vm)%nat
}.

(** Every register there can be has a number. *)
Definition room (n nb : nat) : Prop := Z.of_nat (n + nb * n) <= 2 ^ 31 - kFirstVRegNumber.

Lemma assigned_bound n vm : Forall (fun row => length row = n) (vreg_map vm) -> (assigned vm <= length (vreg_map vm) * n)%nat.
Proof.
  unfold assigned; generalize (vreg_map vm) as l; induction 1 as [| row l Hrow _ IH]; cbn; [done |].
  assert (row_assigned row <= length row)%nat by apply length_filter; lia.
Qed.

Lemma row_assigned_insert row v r :
  row !! v = Some kInvalidMachineReg -> r <> kInvalidMachineReg -> row_assigned (<[v := r]> row) = S (row_assigned row).
Proof.
  unfold row_assigned; revert v; induction row as [| x row IH]; intros [| v]; cbn [lookup list_lookup]; try done.
  - intros [= ->] Hr; cbn [insert list_insert]; rewrite filter_cons_True by done; rewrite (filter_cons_False _ kInvalidMachineReg row) by auto; done.
  - intros Hv Hr; cbn [insert list_insert]; rewrite !filter_cons; specialize (IH v Hv Hr); case_decide; cbn [length]; [by f_equal | done].
Qed.

Lemma assigned_insert vm bb row v r :
  vreg_map vm !! bb = Some row -> row !! v = Some kInvalidMachineReg -> r <> kInvalidMachineReg ->
  assigned {| vreg_map := <[bb := <[v := r]> row]> (vreg_map vm); max_size := max_size vm |} = S (assigned vm).
Proof.
  unfold assigned; cbn; revert bb; generalize (vreg_map vm) as l; induction l as [| y l IH]; intros [| bb]; cbn [lookup list_lookup]; try done.
  - intros [= ->] Hv Hr; cbn [insert list_insert sum_list_with]; by rewrite row_assigned_insert.
  - intros Hb Hv Hr; change (row_assigned y + sum_list_with row_assigned (<[bb := <[v := r]> row]> l) = S (row_assigned y + sum_list_with row_assigned l))%nat.
    rewrite (IH bb) by done; lia.
Qed.

Definition extends (vm vm' : VRegMap) : Prop :=
  forall bb v r, mget vm bb v = Some r -> r <> kInvalidMachineReg -> mget vm' bb v = Some r.

Lemma extends_refl vm : extends vm vm.
Proof. by intros bb v r. Qed.
Lemma extends_trans vm1 vm2 vm3 : extends vm1 vm2 -> extends vm2 vm3 -> extends vm1 vm3.
Proof. intros H1 H2 bb v r Hm Hr; apply H2; auto. Qed.

(** The IR but for the number of registers. *)
Definition same_but_vregs (ir ir' : MachineIR) : Prop := ir' = set_num_vreg (num_vreg ir') ir.

Lemma same_but_vregs_refl ir : same_but_vregs ir ir.
Proof. by destruct ir. Qed.
Lemma same_but_vregs_trans ir1 ir2 ir3 : same_but_vregs ir1 ir2 -> same_but_vregs ir2 ir3 -> same_but_vregs ir1 ir3.
Proof. unfold same_but_vregs; intros H1 H2; rewrite H2, H1; by destruct ir1. Qed.

Lemma mget_insert vm bb row v r bb' v' :
  vreg_map vm !! bb = Some row -> (v < length row)%nat ->
  mget {| vreg_map := <[bb := <[v := r]> row]> (vreg_map vm); max_size := max_size vm |} bb' v' =
  if decide (bb' = bb /\ v' = v) then Some r else mget vm bb' v'.
Proof.
  intros Hrow Hv; unfold mget; cbn; destruct (decide (bb' = bb)) as [-> | Hne].
  - rewrite list_lookup_insert_eq by (by eapply lookup_lt_Some); rewrite Hrow; cbn; case_decide as Hd.
    + destruct Hd as [_ ->]; by apply list_lookup_insert_eq.
    + apply list_lookup_insert_ne; intros ->; by apply Hd.
  - rewrite list_lookup_insert_ne by done; rewrite decide_False; [done | by intros [? _]].
Qed.

Lemma vreg_Get_spec n nb reg v bb vm ir :
  map_ok n nb vm ir -> room n nb -> GetVRegIndex reg = Some v -> (v < n)%nat -> (bb < nb)%nat ->
  exists r vm' ir', vreg_Get reg bb (vm, ir) = Some (r, (vm', ir')) /\ map_ok n nb vm' ir' /\ extends vm vm' /\
    mget vm' bb v = Some r /\ r <> kInvalidMachineReg /\ max_size vm' = max_size vm /\ same_but_vregs ir ir'.
Proof.
  intros Hok Hroom Hv Hvn Hbb; pose proof Hok as [Hl Hr Hs Hreg Hinj Hc]; unfold vreg_Get; rewrite Hv; cbn [mbind option_bind].
  destruct (lookup_lt_is_Some_2 (vreg_map vm) bb) as [row Hrow]; [lia |]; rewrite Hrow; cbn [mbind option_bind].
  assert (Hrl : length row = n) by (rewrite Forall_forall in Hr; apply Hr; by eapply list_elem_of_lookup_2).
  destruct (lookup_lt_is_Some_2 row v) as [q Hq]; [lia |]; rewrite Hq; cbn [mbind option_bind].
  assert (Hget : mget vm bb v = Some q) by (unfold mget; rewrite Hrow; cbn; done).
  destruct (Z.eqb_spec q kInvalidMachineReg) as [-> | Hne].
  2: { exists q, vm, ir; conjs; try done; [apply extends_refl | apply same_but_vregs_refl]. }
  set (k := num_vreg ir) in *; set (r := kFirstVRegNumber + Z.of_nat k).
  assert (Hrv : r <> kInvalidMachineReg) by (unfold r, kFirstVRegNumber, kInvalidMachineReg; lia).
  assert (Hri : GetVRegIndex r = Some k).
  { unfold GetVRegIndex, r; rewrite (proj2 (Z.leb_le _ _)) by (unfold kFirstVRegNumber; lia); f_equal; lia. }
  set (vm' := {| vreg_map := <[bb := <[v := r]> row]> (vreg_map vm); max_size := max_size vm |}).
  assert (Hrow' : Forall (fun row => length row = n) (vreg_map vm')).
  { unfold vm'; cbn; apply Forall_insert; [done |]; by rewrite length_insert. }
  assert (Has : assigned vm' = S (assigned vm)) by (by apply assigned_insert).
  assert (Hlt : (k < n + nb * n)%nat).
  { pose proof (assigned_bound n vm' Hrow') as Hb; rewrite Has in Hb; unfold vm' in Hb; cbn [vreg_map] in Hb; rewrite length_insert in Hb; lia. }
  assert (CreateVRegFromIndex k = Some r) as Hcr.
  { unfold CreateVRegFromIndex, r; rewrite (proj2 (Z.leb_le _ _)); [done |]; unfold room, kFirstVRegNumber in *; lia. }
  unfold AllocVReg; fold k; rewrite Hcr; cbn [mbind option_bind]; fold vm'.
  assert (Hm : forall bb' v', mget vm' bb' v' = if decide (bb' = bb /\ v' = v) then Some r else mget vm bb' v') by (intros; apply mget_insert; [done | lia]).
  assert (Hfresh : forall bb' v' q, mget vm bb' v' = Some q -> q <> kInvalidMachineReg -> q <> r).
  { intros bb' v' q Hq' Hqn ->; destruct (Hreg bb' v' r Hq' Hqn) as (x & Hx & _ & Hxk); rewrite Hri in Hx; injection Hx as <-; lia. }
  exists r, vm', (set_num_vreg (S k) ir); conjs; try done.
  - split; try done.
    + unfold vm'; cbn; by rewrite length_insert.
    + intros bb' v' q; rewrite Hm; case_decide; [intros [= <-] _; exists k; cbn; conjs; [done | lia | lia] |].
      intros Hq' Hqn; destruct (Hreg bb' v' q Hq' Hqn) as (x & ? & ? & ?); exists x; cbn; conjs; [done | done | lia].
    + intros b1 v1 b2 v2 q; rewrite !Hm; repeat case_decide; intros H1 H2 Hqn.
      * destruct H as [-> ->], H0 as [-> ->]; done.
      * injection H1 as <-; by destruct (Hfresh b2 v2 r H2 Hqn).
      * injection H2 as <-; by destruct (Hfresh b1 v1 r H1 Hqn).
      * by apply (Hinj b1 v1 b2 v2 q).
    + change (S k = n + assigned vm')%nat; rewrite Has; lia.
  - intros bb' v' q Hq' Hqn; rewrite Hm; case_decide as Hd; [| done]; destruct Hd as [-> ->]; congruence.
  - rewrite Hm; by rewrite decide_True.
Qed.

(** ** The renaming of a block *)

(** The name of a register in a block. *)
Definition name (vm : VRegMap) (bb : BlockPtr) (r : MachineReg) : MachineReg :=
  match GetVRegIndex r with Some v => default kInvalidMachineReg (mget vm bb v) | None => r end.

(** The register has a name in the block. *)
Definition covers (vm : VRegMap) (bb : BlockPtr) (r : MachineReg) : Prop :=
  forall v, GetVRegIndex r = Some v -> exists q, mget vm bb v = Some q /\ q <> kInvalidMachineReg.

Lemma covers_extends vm vm' bb r : extends vm vm' -> covers vm bb r -> covers vm' bb r /\ name vm' bb r = name vm bb r.
Proof.
  intros He Hc; split.
  - intros v Hv; destruct (Hc v Hv) as (q & Hq & Hn); exists q; auto.
  - unfold name; destruct (GetVRegIndex r) as [v |] eqn:Hv; [| done]; destruct (Hc v Hv) as (q & Hq & Hn); by rewrite Hq, (He bb v q Hq Hn).
Qed.

Definition rename_with (vm : VRegMap) (bb : BlockPtr) (i : MachineInsn) : MachineInsn := set_regs (map (name vm bb) (regs i)) i.

Definition covers_insn (vm : VRegMap) (bb : BlockPtr) (i : MachineInsn) : Prop := forall r, r ∈ regs i -> covers vm bb r.

Lemma rename_with_extends vm vm' bb i : extends vm vm' -> covers_insn vm bb i -> covers_insn vm' bb i /\ rename_with vm' bb i = rename_with vm bb i.
Proof.
  intros He Hc; split; [intros r Hr; by apply (covers_extends vm vm'), Hc |]; unfold rename_with; f_equal.
  apply map_ext_in; intros r Hr%list_elem_of_In; by apply (covers_extends vm vm'), Hc.
Qed.

Lemma update_max_size_spec n reg v size vm :
  GetVRegIndex reg = Some v -> (v < n)%nat -> length (max_size vm) = n ->
  exists vm', update_max_size reg size vm = Some vm' /\ vreg_map vm' = vreg_map vm /\ length (max_size vm') = n.
Proof.
  intros Hv Hn Hl; unfold update_max_size; rewrite Hv; cbn [mbind option_bind].
  destruct (lookup_lt_is_Some_2 (max_size vm) v) as [m Hm]; [lia |]; rewrite Hm; cbn [mbind option_bind]; eexists; split; [done |]; cbn.
  by rewrite length_insert.
Qed.

Lemma map_ok_sizes n nb vm vm' ir :
  map_ok n nb vm ir -> vreg_map vm' = vreg_map vm -> length (max_size vm') = n -> map_ok n nb vm' ir.
Proof. intros [H1 H2 H3 H4 H5 H6] E Hl; split; unfold mget, assigned in *; rewrite ?E; done. Qed.

(** What a step of the assignment does, over the map and the number of registers. *)
Record assigns (n nb : nat) (vm : VRegMap) (ir : MachineIR) (vm' : VRegMap) (ir' : MachineIR) : Prop := {
  as_ok : map_ok n nb vm' ir';
  as_extends : extends vm vm';
  as_ir : same_but_vregs ir ir'
}.

Lemma assigns_refl n nb vm ir : map_ok n nb vm ir -> assigns n nb vm ir vm ir.
Proof. intros; split; [done | apply extends_refl | apply same_but_vregs_refl]. Qed.
Lemma assigns_trans n nb vm1 ir1 vm2 ir2 vm3 ir3 : assigns n nb vm1 ir1 vm2 ir2 -> assigns n nb vm2 ir2 vm3 ir3 -> assigns n nb vm1 ir1 vm3 ir3.
Proof. intros [H1 H2 H3] [H4 H5 H6]; split; [done | by eapply extends_trans | by eapply same_but_vregs_trans]. Qed.

Section Assign.
Context (n nb : nat) (Hroom : room n nb).

Lemma assign_operands_spec bb ks : forall rs vm ir,
  length rs = length ks -> map_ok n nb vm ir -> (bb < nb)%nat -> (forall r, r ∈ rs -> reg_in n r) ->
  exists vm' ir', assign_operands bb ks rs (vm, ir) = Some (map (name vm' bb) rs, (vm', ir')) /\ assigns n nb vm ir vm' ir' /\
    forall r, r ∈ rs -> covers vm' bb r.
Proof.
  induction ks as [| k ks IH]; intros [| r rs] vm ir Hlen Hok Hbb Hr; try done; cbn [assign_operands].
  { exists vm, ir; conjs; [done | by apply assigns_refl |]; intros r Hin; by apply not_elem_of_nil in Hin. }
  assert (exists vm1 ir1, (if IsVReg r then '(r', (vm, ir)) ← vreg_Get r bb (vm, ir); vm ← update_max_size r (RegSize (RegClass k)) vm; Some (r', (vm, ir))
    else Some (r, (vm, ir))) = Some (name vm1 bb r, (vm1, ir1)) /\ assigns n nb vm ir vm1 ir1 /\ covers vm1 bb r) as (vm1 & ir1 & -> & Has1 & Hc1).
  { destruct (IsVReg r) eqn:Ev.
    - apply IsVReg_index in Ev as [v Hv]; assert (v < n)%nat as Hvn by (apply (Hr r); [apply elem_of_cons; by left | done]).
      destruct (vreg_Get_spec n nb r v bb vm ir Hok Hroom Hv Hvn Hbb) as (q & vm1 & ir1 & -> & Hok1 & He & Hq & Hqn & Hsz & Hir); cbn [mbind option_bind].
      destruct (update_max_size_spec n r v (RegSize (RegClass k)) vm1 Hv Hvn (mo_sizes _ _ _ _ Hok1)) as (vm2 & -> & Hm2 & Hs2); cbn [mbind option_bind].
      assert (Hg : forall b x, mget vm2 b x = mget vm1 b x) by (intros; unfold mget; by rewrite Hm2).
      exists vm2, ir1; conjs; [unfold name; by rewrite Hv, Hg, Hq | split; [by eapply map_ok_sizes | | done] |].
      + intros b x y Hy Hn; rewrite Hg; by apply He.
      + intros v' Hv'; assert (v' = v) as -> by congruence; exists q; by rewrite Hg.
    - assert (GetVRegIndex r = None) as Hn by (unfold GetVRegIndex; unfold IsVReg in Ev; by rewrite Ev).
      exists vm, ir; conjs; [unfold name; by rewrite Hn | by apply assigns_refl | intros v Hv; congruence]. }
  cbn [mbind option_bind]; destruct (IH rs vm1 ir1) as (vm2 & ir2 & -> & Has2 & Hc2); [by injection Hlen | apply Has1 | done | intros; apply Hr, elem_of_cons; by right |].
  destruct (covers_extends vm1 vm2 bb r (as_extends _ _ _ _ _ _ Has2) Hc1) as [Hc Hn]; exists vm2, ir2; cbn [mbind option_bind map]; rewrite Hn.
  conjs; [done | by eapply assigns_trans |]; intros x [-> | Hx]%elem_of_cons; auto.
Qed.

Definition insns_fit (l : list MachineInsn) : Prop := Forall wf_insn l /\ forall i r, i ∈ l -> r ∈ regs i -> reg_in n r.

Lemma assign_insns_spec bb l : forall vm ir,
  insns_fit l -> map_ok n nb vm ir -> (bb < nb)%nat ->
  exists vm' ir', assign_insns bb l (vm, ir) = Some (map (rename_with vm' bb) l, (vm', ir')) /\ assigns n nb vm ir vm' ir' /\
    Forall (covers_insn vm' bb) l.
Proof.
  induction l as [| i l IH]; intros vm ir [Hw Hr] Hok Hbb; cbn [assign_insns]; [exists vm, ir; conjs; [done | by apply assigns_refl | done] |].
  apply Forall_cons in Hw as [Hwi Hwl].
  destruct (assign_operands_spec bb (reg_kinds i) (regs i) vm ir Hwi Hok Hbb) as (vm1 & ir1 & -> & Has1 & Hc1); [intros r; apply Hr, elem_of_cons; by left |].
  cbn [mbind option_bind]; destruct (IH vm1 ir1) as (vm2 & ir2 & -> & Has2 & Hc2); [split; [done |]; intros j r Hj; apply Hr, elem_of_cons; by right | apply Has1 | done |].
  destruct (rename_with_extends vm1 vm2 bb i (as_extends _ _ _ _ _ _ Has2) Hc1) as [Hc Hn].
  exists vm2, ir2; cbn [mbind option_bind map]; rewrite Hn; conjs; [done | by eapply assigns_trans | by constructor].
Qed.

(** The blocks [done] have their new names. *)
Definition named (done : list BlockPtr) (ir0 : MachineIR) (vm : VRegMap) (ir : MachineIR) : Prop :=
  forall bb, bb ∈ done -> exists b, blocks ir0 !! bb = Some b /\ Forall (covers_insn vm bb) (insn_list b) /\
    blocks ir !! bb = Some (set_insn_list (map (rename_with vm bb) (insn_list b)) b).

Definition same_graph_parts (ir0 ir : MachineIR) : Prop :=
  bb_list ir = bb_list ir0 /\ num_bb ir = num_bb ir0 /\ edges ir = edges ir0 /\ next_edge ir = next_edge ir0.

Lemma map_rename_extends vm vm' bb l :
  extends vm vm' -> Forall (covers_insn vm bb) l -> Forall (covers_insn vm' bb) l /\ map (rename_with vm' bb) l = map (rename_with vm bb) l.
Proof.
  intros He Hc; split; [eapply Forall_impl; [exact Hc |]; intros i Hi; by apply (rename_with_extends vm vm') |].
  apply map_ext_in; intros i Hi%list_elem_of_In; rewrite Forall_forall in Hc; by apply (rename_with_extends vm vm'), Hc.
Qed.

Lemma AssignNewVRegs_loop ir0 l : forall done vm ir,
  NoDup (done ++ l) -> map_ok n nb vm ir -> same_graph_parts ir0 ir -> named done ir0 vm ir ->
  (forall bb, bb ∉ done -> blocks ir !! bb = blocks ir0 !! bb) ->
  (forall bb, bb ∈ l -> (bb < nb)%nat /\ exists b, blocks ir0 !! bb = Some b /\ insns_fit (insn_list b)) ->
  exists vm' ir', for_each assign_block l (vm, ir) = Some (vm', ir') /\ map_ok n nb vm' ir' /\ extends vm vm' /\ same_graph_parts ir0 ir' /\
    named (done ++ l) ir0 vm' ir' /\ (forall bb, bb ∉ done ++ l -> blocks ir' !! bb = blocks ir0 !! bb).
Proof.
  induction l as [| bb l IH]; intros dn vm ir Hnd Hok Hg Hn Ho Hl; cbn [for_each].
  { exists vm, ir; rewrite app_nil_r in *; conjs; try done; apply extends_refl. }
  destruct (Hl bb ltac:(apply elem_of_cons; by left)) as (Hbb & b & Hb & Hfit).
  assert (bb ∉ dn) as Hnin by (intros Hin; apply NoDup_app in Hnd as (_ & Hd & _); apply (Hd bb Hin), elem_of_cons; by left).
  assert (Hbi : blocks ir !! bb = Some b) by (by rewrite Ho).
  destruct (assign_insns_spec bb (insn_list b) vm ir Hfit Hok Hbb) as (vm1 & ir1 & E & [Hok1 He1 Hs1] & Hc1).
  assert (assign_block bb (vm, ir) = Some (vm1, update_block bb (set_insn_list (map (rename_with vm1 bb) (insn_list b))) ir1)) as ->.
  { unfold assign_block; cbn [snd]; rewrite Hbi; cbn [mbind option_bind]; by rewrite E. }
  cbn [mbind option_bind]; set (ir2 := update_block _ _ ir1).
  assert (Hblk : forall y, blocks ir2 !! y = if decide (y = bb) then Some (set_insn_list (map (rename_with vm1 bb) (insn_list b)) b) else blocks ir !! y).
  { intros y; unfold ir2; cbn; rewrite Hs1; cbn; case_decide as Hy; [subst; by rewrite lookup_alter_eq, Hbi | by rewrite lookup_alter_ne]. }
  destruct (IH (dn ++ [bb]) vm1 ir2) as (vm' & ir' & -> & Hok' & He' & Hg' & Hn' & Ho').
  - by rewrite <- app_assoc.
  - destruct Hok1 as [P1 P2 P3 P4 P5 P6]; split; done.
  - destruct Hg as (? & ? & ? & ?); unfold same_graph_parts, ir2; cbn; rewrite Hs1; cbn; done.
  - intros y [Hy | ->%list_elem_of_singleton]%elem_of_app.
    + destruct (Hn y Hy) as (c & Hc & Hcov & Hcb); destruct (map_rename_extends vm vm1 y (insn_list c) He1 Hcov) as [Hcov1 Hmap].
      exists c; conjs; [done | done |]; rewrite Hblk, decide_False, Hmap by (intros ->; done); done.
    + exists b; conjs; [done | done |]; by rewrite Hblk, decide_True.
  - intros y [Hy Hyb]%not_elem_of_app; rewrite Hblk, decide_False; [by apply Ho |]; intros ->; by apply Hyb, list_elem_of_singleton.
  - intros y Hy; apply Hl, elem_of_cons; by right.
  - rewrite <- app_assoc in Hn', Ho'; exists vm', ir'; conjs; try done; by eapply extends_trans.
Qed.

Lemma map_ok_new ir0 : num_bb ir0 = nb -> num_vreg ir0 = n -> map_ok n nb (new_VRegMap ir0) ir0.
Proof.
  intros Hnb Hn; assert (Hg : forall bb v r, mget (new_VRegMap ir0) bb v = Some r -> r = kInvalidMachineReg).
  { intros bb v r; unfold mget; cbn; destruct (replicate _ _ !! bb) as [row |] eqn:E; cbn; [| done]; apply lookup_replicate in E as [-> _].
    by intros [-> _]%lookup_replicate. }
  split; try (cbn; done).
  - cbn; by rewrite length_replicate.
  - cbn; rewrite Hn; apply Forall_replicate, length_replicate.
  - cbn; by rewrite length_replicate.
  - intros bb v r Hr Hne; by apply Hg in Hr.
  - intros bb v bb' v' r Hr _ Hne; by apply Hg in Hr.
  - assert (Hz : forall k, row_assigned (replicate k kInvalidMachineReg) = 0%nat).
    { induction k as [| k IH]; [done |]; unfold row_assigned in *; cbn [replicate]; rewrite filter_cons_False by auto; done. }
    assert (assigned (new_VRegMap ir0) = 0%nat) as ->; [| lia]; unfold assigned, new_VRegMap; cbn [vreg_map].
    clear Hnb Hg; induction (num_bb ir0) as [| k IH]; [done |]; cbn [replicate sum_list_with]; by rewrite Hz, IH.
Qed.

End Assign.
