(* ===== verification/RenameVRegsConnect.v ===== *)
(** * The copies that connect the renamed registers

    What [GenInterBasicBlockMove] and the loops of [RenameVRegs] build: one copy
    per edge and register that lives into its destination, at the beginning of a
    destination with one predecessor and at the end of the source otherwise. *)
From stdpp Require Import gmap list.
From S2P Require Import Prelude MachineIR Lifetime LifetimeAnalysis Liveness MachineIRCheck MachineSem DeadCode BlockOrder ControlFlow RenameCopyUses RenameVRegs RenameVRegsProps.
#[local] Open Scope Z_scope.

(** ** Moves *)

Definition vreg_of (v : nat) : MachineReg := kFirstVRegNumber + Z.of_nat v.

Lemma vreg_of_index v : GetVRegIndex (vreg_of v) = Some v.
Proof. unfold GetVRegIndex, vreg_of; rewrite (proj2 (Z.leb_le _ _)) by lia; f_equal; lia. Qed.

Lemma vreg_of_inv r v : GetVRegIndex r = Some v -> r = vreg_of v.
Proof. intros H; eapply GetVRegIndex_inj; [exact H | apply vreg_of_index]. Qed.

(** The name of the register with index [v] in a block. *)
Definition name_of (vm : VRegMap) (bb : BlockPtr) (v : nat) : MachineReg := default kInvalidMachineReg (mget vm bb v).
Definition has_name (vm : VRegMap) (bb : BlockPtr) (v : nat) : Prop := exists q, mget vm bb v = Some q /\ q <> kInvalidMachineReg.

Lemma name_vreg vm bb r v : GetVRegIndex r = Some v -> name vm bb r = name_of vm bb v.
Proof. unfold name; by intros ->. Qed.

Lemma has_name_extends vm vm' bb v : extends vm vm' -> has_name vm bb v -> has_name vm' bb v /\ name_of vm' bb v = name_of vm bb v.
Proof.
  intros He (q & Hq & Hn); split; [exists q; auto |]; unfold name_of; by rewrite Hq, (He bb v q Hq Hn).
Qed.

(** The register [mv_vreg] is handed over on an edge. *)
Record move := { mv_pred : BlockPtr; mv_succ : BlockPtr; mv_vreg : nat }.

Definition single (ir : MachineIR) (bb : BlockPtr) : bool :=
  match blocks ir !! bb with Some b => (length (in_edges b) =? 1)%nat | None => false end.

Definition named_move (vm : VRegMap) (m : move) : Prop := has_name vm (mv_pred m) (mv_vreg m) /\ has_name vm (mv_succ m) (mv_vreg m).

Section Joined.
Context (ir1 : MachineIR) (sizes : list Z).

Definition copy_of (vm : VRegMap) (m : move) : MachineInsn :=
  new_PseudoCopy (name_of vm (mv_succ m) (mv_vreg m)) (name_of vm (mv_pred m) (mv_vreg m)) (default 0 (sizes !! mv_vreg m)).

(** The register that lives across the edge. *)
Definition crossing (vm : VRegMap) (m : move) : MachineReg :=
  name_of vm (if single ir1 (mv_succ m) then mv_pred m else mv_succ m) (mv_vreg m).

Definition entering (bb : BlockPtr) (mv : list move) : list move := filter (fun m => mv_succ m = bb /\ single ir1 (mv_succ m) = true) mv.
Definition leaving (bb : BlockPtr) (mv : list move) : list move := filter (fun m => mv_pred m = bb /\ single ir1 (mv_succ m) = false) mv.
Definition from (bb : BlockPtr) (mv : list move) : list move := filter (fun m => mv_pred m = bb) mv.
Definition to (bb : BlockPtr) (mv : list move) : list move := filter (fun m => mv_succ m = bb) mv.

Definition joined (mv : list move) (vm : VRegMap) (bb : BlockPtr) (b : MachineBasicBlock) : MachineBasicBlock :=
  let l := insn_list b in
  {| insn_list := map (copy_of vm) (reverse (entering bb mv)) ++ take (length l - 1) l ++ map (copy_of vm) (leaving bb mv) ++ drop (length l - 1) l;
     in_edges := in_edges b; out_edges := out_edges b;
     live_in := live_in b ++ map (crossing vm) (to bb mv);
     live_out := live_out b ++ map (crossing vm) (from bb mv);
     is_recovery := is_recovery b |}.

Lemma map_move_ext {A} (f g : move -> A) (mv l : list move) : (forall m, m ∈ mv -> f m = g m) -> (forall m, m ∈ l -> m ∈ mv) -> map f l = map g l.
Proof. intros Hf Hl; apply map_ext_in; intros m Hm%list_elem_of_In; auto. Qed.

Lemma joined_extends mv vm vm' bb b :
  extends vm vm' -> Forall (named_move vm) mv -> joined mv vm' bb b = joined mv vm bb b.
Proof.
  intros He Hn; rewrite Forall_forall in Hn.
  assert (Hc : forall m, m ∈ mv -> copy_of vm' m = copy_of vm m).
  { intros m Hm; destruct (Hn m Hm) as [H1 H2]; unfold copy_of.
    by rewrite (proj2 (has_name_extends vm vm' _ _ He H1)), (proj2 (has_name_extends vm vm' _ _ He H2)). }
  assert (Hx : forall m, m ∈ mv -> crossing vm' m = crossing vm m).
  { intros m Hm; destruct (Hn m Hm) as [H1 H2]; unfold crossing; destruct (single _ _); by apply has_name_extends. }
  unfold joined; f_equal; [f_equal; [| f_equal; f_equal] | f_equal | f_equal]; eapply map_move_ext; eauto; intros m; [rewrite elem_of_reverse | | |];
    by intros [_ ?]%list_elem_of_filter.
Qed.

Lemma joined_nil vm bb b : joined [] vm bb b = b.
Proof. unfold joined; cbn; rewrite !app_nil_r, take_drop; by destruct b. Qed.

End Joined.

(** ** One move *)

Section Connect.
Context (n nb : nat) (Hroom : room n nb) (ir1 : MachineIR) (sizes : list Z).

Record connected (mv : list move) (vm : VRegMap) (ir : MachineIR) : Prop := {
  cn_ok : map_ok n nb vm ir;
  cn_sizes : max_size vm = sizes;
  cn_graph : same_graph_parts ir1 ir;
  cn_moves : Forall (named_move vm) mv;
  cn_blocks : forall bb, blocks ir !! bb = joined ir1 sizes mv vm bb <$> blocks ir1 !! bb
}.

(** What the pass relies on in the source and the destination of an edge. *)
Record connectable (p s : BlockPtr) : Prop := {
  mb_pred : exists b, blocks ir1 !! p = Some b /\ insn_list b <> [] /\ (single ir1 s = false -> length (out_edges b) = 1%nat);
  mb_succ : is_Some (blocks ir1 !! s);
  mb_bounds : (p < nb)%nat /\ (s < nb)%nat
}.

Lemma take_drop_last {A} (l : list A) : l <> [] -> exists i, drop (length l - 1) l = [i].
Proof.
  intros Hl; destruct l as [| x l] using rev_ind; [done |]; exists x; rewrite length_app, drop_app_ge; cbn; [| lia].
  by replace (length l + 1 - 1 - length l)%nat with 0%nat by lia.
Qed.

Lemma insert_before_last_snoc i j l b : insn_list b = l ++ [j] -> insert_before_last i b = Some (set_insn_list (l ++ [i; j]) b).
Proof.
  intros Hl; unfold insert_before_last; rewrite Hl, last_snoc, length_app; cbn [length mbind option_bind].
  by rewrite Nat.add_sub, take_app_le, take_ge by lia.
Qed.

(** The blocks after a move. *)
Lemma joined_step mv vm p s v bb b :
  (p = bb -> insn_list b <> []) ->
  let m := {| mv_pred := p; mv_succ := s; mv_vreg := v |} in
  let b1 := joined ir1 sizes mv vm bb b in
  joined ir1 sizes (mv ++ [m]) vm bb b =
  (let b2 := if decide (p = bb) then (if single ir1 s then b1 else default b1 (insert_before_last (copy_of sizes vm m) b1)) else b1 in
   let b3 := if decide (s = bb) then push_live_in (crossing ir1 vm m) (if single ir1 s then insert_first (copy_of sizes vm m) b2 else b2) else b2 in
   if decide (p = bb) then push_live_out (crossing ir1 vm m) b3 else b3).
Proof.
  intros Hl m b1; unfold b1, joined, entering, leaving, from, to.
  rewrite !filter_app, !filter_cons, !filter_nil; cbn [mv_pred mv_succ mv_vreg m].
  generalize (filter (fun m => mv_succ m = bb /\ single ir1 (mv_succ m) = true) mv) as E; intros E.
  generalize (filter (fun m => mv_pred m = bb /\ single ir1 (mv_succ m) = false) mv) as L; intros L.
  destruct (decide (p = bb)) as [-> | Hp].
  - destruct (take_drop_last _ (Hl eq_refl)) as [i Hi]; rewrite Hi.
    rewrite (insert_before_last_snoc _ i (map (copy_of sizes vm) (reverse E) ++ take (length (insn_list b) - 1) (insn_list b) ++ map (copy_of sizes vm) L))
      by (cbn [insn_list]; by rewrite !app_assoc).
    destruct (single ir1 s) eqn:Es; destruct (decide (s = bb)) as [-> | Hs];
      repeat (case_decide as Hd; [try (exfalso; destruct Hd; congruence) | try (exfalso; apply Hd; split; congruence)]; clear Hd); clear.
    all: rewrite ?app_nil_r, ?reverse_app, ?map_app; unfold push_live_in, push_live_out, insert_first; cbn; rewrite ?app_nil_r, <- ?app_assoc; done.
  - destruct (single ir1 s) eqn:Es; destruct (decide (s = bb)) as [-> | Hs];
      repeat (case_decide as Hd; [try (exfalso; destruct Hd; congruence) | try (exfalso; apply Hd; split; congruence)]; clear Hd); clear.
    all: rewrite ?app_nil_r, ?reverse_app, ?map_app; unfold push_live_in, insert_first; cbn; rewrite ?app_nil_r, <- ?app_assoc; done.
Qed.

Lemma single_lookup (ir : MachineIR) mv vm bb b :
  connected mv vm ir -> blocks ir !! bb = Some b -> (length (in_edges b) =? 1)%nat = single ir1 bb.
Proof.
  intros Hc; rewrite (cn_blocks _ _ _ Hc); unfold single; destruct (blocks ir1 !! bb) as [c |]; [| done]; by intros [= <-].
Qed.

Lemma update_lookup y f ir x : blocks (update_block y f ir) !! x = (if decide (y = x) then f else id) <$> blocks ir !! x.
Proof.
  cbn; case_decide as Hd; [subst; by rewrite lookup_alter_eq | rewrite lookup_alter_ne by done; by destruct (blocks ir !! x)].
Qed.

(** The second half of [GenInterBasicBlockMove]. *)
Definition finish (vm : VRegMap) (m : move) (ir : MachineIR) : option renaming :=
  let insn := copy_of sizes vm m in
  let r := crossing ir1 vm m in
  s ← blocks ir !! mv_succ m;
  if single ir1 (mv_succ m) then
    Some (vm, update_block (mv_pred m) (push_live_out r) (update_block (mv_succ m) (push_live_in r) (update_block (mv_succ m) (insert_first insn) ir)))
  else
    p ← blocks ir !! mv_pred m;
    if negb (length (out_edges p) =? 1)%nat then None
    else p' ← insert_before_last insn p;
      Some (vm, update_block (mv_pred m) (push_live_out r) (update_block (mv_succ m) (push_live_in r) (set_blocks (<[mv_pred m := p']> (blocks ir)) ir))).

Lemma finish_move mv vm ir m :
  connected mv vm ir -> Forall (named_move vm) (mv ++ [m]) ->
  (exists b, blocks ir1 !! mv_pred m = Some b /\ insn_list b <> [] /\ (single ir1 (mv_succ m) = false -> length (out_edges b) = 1%nat)) ->
  is_Some (blocks ir1 !! mv_succ m) ->
  exists ir', finish vm m ir = Some (vm, ir') /\ connected (mv ++ [m]) vm ir'.
Proof.
  intros Hc Hn (bp & Hbp & Hne & Hout) [bs Hbs]; destruct Hc as [H1 H2 H3 H4 H5]; destruct m as [p s v]; cbn [mv_pred mv_succ] in *.
  unfold finish; cbn [mv_pred mv_succ mv_vreg]; rewrite (H5 s), Hbs, (H5 p), Hbp; cbn [fmap option_fmap option_map mbind option_bind].
  assert (Hstep : forall bb b, blocks ir1 !! bb = Some b -> p = bb -> insn_list b <> []) by (intros bb b Hb <-; congruence).
  destruct (single ir1 s) eqn:Es.
  - eexists; split; [done |]; split; try done; [by destruct H1 |]; intros bb; rewrite !update_lookup, H5; specialize (Hstep bb).
    destruct (blocks ir1 !! bb) as [b |]; [| done]; cbn [fmap option_fmap option_map]; f_equal.
    rewrite joined_step by auto; rewrite Es; cbn zeta; destruct (decide (p = bb)), (decide (s = bb)); done.
  - cbn [out_edges joined]; rewrite (Hout eq_refl); cbn [negb Nat.eqb].
    assert (exists p', insert_before_last (copy_of sizes vm {| mv_pred := p; mv_succ := s; mv_vreg := v |}) (joined ir1 sizes mv vm p bp) = Some p') as [p' Ep].
    { destruct (take_drop_last _ Hne) as [i Hi]; eexists; apply (insert_before_last_snoc _ i); cbn; rewrite Hi, !app_assoc; done. }
    rewrite Ep; cbn [mbind option_bind]; eexists; split; [done |]; split; try done; [by destruct H1 |]; intros bb; rewrite !update_lookup; cbn [blocks set_blocks].
    specialize (Hstep bb); destruct (decide (p = bb)) as [-> | Hp].
    + rewrite lookup_insert_eq, Hbp; cbn [fmap option_fmap option_map]; f_equal; rewrite joined_step by auto; rewrite Es; destruct (decide (bb = bb)); [| done]; cbn zeta.
      rewrite Ep; cbn [default]; by destruct (decide (s = bb)).
    + rewrite lookup_insert_ne, H5 by done; destruct (blocks ir1 !! bb) as [b |]; [| done]; cbn [fmap option_fmap option_map]; f_equal.
      rewrite joined_step by auto; rewrite Es; destruct (decide (p = bb)); [done |]; cbn zeta; by destruct (decide (s = bb)).
Qed.

Lemma GenInterBasicBlockMove_spec mv vm ir p s v :
  connected mv vm ir -> connectable p s -> (v < n)%nat ->
  exists vm' ir', GenInterBasicBlockMove p s (vreg_of v) (vm, ir) = Some (vm', ir') /\ extends vm vm' /\
    connected (mv ++ [{| mv_pred := p; mv_succ := s; mv_vreg := v |}]) vm' ir'.
Proof.
  intros Hc [(bp & Hbp & Hne & Hout) [bs Hbs] [Hp Hs]] Hv; set (m := {| mv_pred := p; mv_succ := s; mv_vreg := v |}).
  pose proof (vreg_of_index v) as Hi; unfold GenInterBasicBlockMove.
  destruct (vreg_Get_spec n nb _ v p vm ir (cn_ok _ _ _ Hc) Hroom Hi Hv Hp) as (rp & vm1 & ir2 & -> & Hok1 & He1 & Hm1 & Hn1 & Hz1 & Hg1); cbn [mbind option_bind].
  destruct (vreg_Get_spec n nb _ v s vm1 ir2 Hok1 Hroom Hi Hv Hs) as (rs & vm2 & ir3 & -> & Hok2 & He2 & Hm2 & Hn2 & Hz2 & Hg2); cbn [mbind option_bind].
  assert (He : extends vm vm2) by (by eapply extends_trans); assert (Hg : same_but_vregs ir ir3) by (by eapply same_but_vregs_trans).
  assert (Hnp : has_name vm2 p v) by (exists rp; split; [by apply He2 | done]); assert (Hns : has_name vm2 s v) by (by exists rs).
  assert (Hrp : name_of vm2 p v = rp) by (unfold name_of; by rewrite (He2 _ _ _ Hm1 Hn1)); assert (Hrs : name_of vm2 s v = rs) by (unfold name_of; by rewrite Hm2).
  assert (Hmv : Forall (named_move vm2) mv).
  { eapply Forall_impl; [apply (cn_moves _ _ _ Hc) |]; intros m' [H1 H2]; split; by eapply has_name_extends. }
  assert (Hc3 : connected mv vm2 ir3).
  { split; [done | by rewrite Hz2, Hz1, (cn_sizes _ _ _ Hc) | | done |].
    - destruct (cn_graph _ _ _ Hc) as (? & ? & ? & ?); unfold same_graph_parts; rewrite Hg; done.
    - intros bb; rewrite Hg; cbn; rewrite (cn_blocks _ _ _ Hc); destruct (blocks ir1 !! bb); [| done]; cbn; f_equal; symmetry.
      apply joined_extends; [done | apply (cn_moves _ _ _ Hc)]. }
  assert (is_Some (sizes !! v)) as [z Hz] by (apply lookup_lt_is_Some_2; rewrite <- (cn_sizes _ _ _ Hc3), (mo_sizes _ _ _ _ Hok2); done).
  assert (Hcopy : new_PseudoCopy rs rp z = copy_of sizes vm2 m) by (unfold copy_of, m; cbn; by rewrite Hrp, Hrs, Hz).
  assert (Hall : Forall (named_move vm2) (mv ++ [m])) by (apply Forall_app; split; [done | by repeat constructor]).
  unfold GetMaxSize; rewrite Hi; cbn [mbind option_bind]; rewrite (cn_sizes _ _ _ Hc3), Hz; cbn [mbind option_bind]; rewrite Hcopy.
  destruct (finish_move mv vm2 ir3 m Hc3 Hall) as (ir4 & E & Hc4); [by exists bp | by exists bs |].
  exists vm2, ir4; conjs; [| done | done]; rewrite <- E; unfold finish, crossing, m; cbn [mv_pred mv_succ mv_vreg].
  destruct (blocks ir3 !! s) as [b |] eqn:Eb; [| done]; cbn [mbind option_bind]; rewrite (single_lookup _ _ _ _ _ Hc3 Eb).
  destruct (single ir1 s); by rewrite ?Hrp, ?Hrs.
Qed.

(** ** All the moves *)

(** A loop whose steps add moves. *)
Lemma for_each_moves {A} (f : A -> renaming -> option renaming) (g : A -> list move) l : forall mv st,
  (forall x mv st, x ∈ l -> connected mv st.1 st.2 -> exists st', f x st = Some st' /\ extends st.1 st'.1 /\ connected (mv ++ g x) st'.1 st'.2) ->
  connected mv st.1 st.2 ->
  exists st', for_each f l st = Some st' /\ extends st.1 st'.1 /\ connected (mv ++ concat (map g l)) st'.1 st'.2.
Proof.
  induction l as [| x l IH]; intros mv st Hf Hc; cbn [for_each map concat].
  { exists st; rewrite app_nil_r; conjs; try done; apply extends_refl. }
  destruct (Hf x mv st) as (st1 & -> & He1 & Hc1); [apply elem_of_cons; by left | done |]; cbn [mbind option_bind].
  destruct (IH (mv ++ g x) st1) as (st2 & -> & He2 & Hc2); [intros; apply Hf; [apply elem_of_cons; by right | done] | done |].
  exists st2; rewrite app_assoc; conjs; try done; by eapply extends_trans.
Qed.

(** The set indices from [i] on, [k] indices long. *)
Definition live_list (s : VRegBitSet) (i k : nat) : list nat := filter (fun v => s !! v = Some true) (seq i k).

Lemma elem_of_live_list s v : v ∈ live_list s 0 (length s) <-> bit s v.
Proof.
  unfold live_list; rewrite list_elem_of_filter, elem_of_seq; split; [by intros [? _] |]; intros Hb; split; [done |].
  apply lookup_lt_Some in Hb; lia.
Qed.

Lemma live_list_cons s k : forall i v l,
  live_list s i k = v :: l -> (i <= v)%nat /\ (v < i + k)%nat /\ l = live_list s (S v) (i + k - S v).
Proof.
  induction k as [| k IH]; intros i v l; unfold live_list; cbn [seq]; [done |]; rewrite filter_cons; case_decide.
  - intros [= -> <-]; conjs; [lia | lia |]; by replace (v + S k - S v)%nat with k by lia.
  - intros (? & ? & ->)%IH; conjs; [lia | lia |]; by replace (i + S k - S v)%nat with (S i + k - S v)%nat by lia.
Qed.

Section Enumeration.
Context (live : list VRegBitSet) (s : BlockPtr) (bits : VRegBitSet).
Context (Hs : live !! s = Some bits) (Hn : NumVReg live = Some n) (Hlen : length bits = n).

Definition first_reg (l : list nat) : MachineReg := match l with [] => kInvalidMachineReg | v :: _ => vreg_of v end.

Lemma next_live_in_spec k : forall i, (i + k <= n)%nat -> next_live_in live s i k = Some (first_reg (live_list bits i k)).
Proof.
  induction k as [| k IH]; intros i Hi; cbn [next_live_in]; [done |].
  assert (CreateVRegFromIndex i = Some (vreg_of i)) as ->.
  { unfold CreateVRegFromIndex, vreg_of; rewrite (proj2 (Z.leb_le _ _)); [done |]; unfold room, kFirstVRegNumber in *; lia. }
  cbn [mbind option_bind]; unfold IsLiveIn, test; rewrite Hs; cbn [mbind option_bind]; rewrite vreg_of_index; cbn [mbind option_bind].
  destruct (lookup_lt_is_Some_2 bits i) as [b Hb]; [lia |]; rewrite Hb; cbn [mbind option_bind].
  unfold live_list; cbn [seq]; rewrite filter_cons, Hb; destruct b; [by rewrite decide_True |]; rewrite decide_False by done; apply IH; lia.
Qed.

Lemma GetNextLiveIn_spec v : (v < n)%nat -> GetNextLiveIn live s (vreg_of v) = Some (first_reg (live_list bits (S v) (n - S v))).
Proof.
  intros Hv; unfold GetNextLiveIn; rewrite Hn; cbn [mbind option_bind].
  rewrite (proj2 (Z.eqb_neq _ _)) by (unfold vreg_of, kFirstVRegNumber, kInvalidMachineReg; lia).
  rewrite vreg_of_index; cbn [mbind option_bind]; rewrite (proj2 (Nat.ltb_lt _ _)) by done; apply next_live_in_spec; lia.
Qed.

Lemma GetFirstLiveIn_spec : GetFirstLiveIn live s = Some (first_reg (live_list bits 0 n)).
Proof. unfold GetFirstLiveIn, GetNextLiveIn; rewrite Hn; cbn [mbind option_bind]; apply next_live_in_spec; lia. Qed.

(** The loop visits the set indices in order. *)
Lemma connect_vregs_for_each p fuel : forall i k st,
  (i + k = n)%nat -> (k <= fuel)%nat ->
  connect_vregs fuel live p s (first_reg (live_list bits i k)) st = for_each (fun v => GenInterBasicBlockMove p s (vreg_of v)) (live_list bits i k) st.
Proof.
  induction fuel as [| fuel IH]; intros i k st Hi Hk; (destruct (live_list bits i k) as [| v l] eqn:El; [by destruct st |]);
    destruct (live_list_cons _ _ _ _ _ El) as (H1 & H2 & ->); [lia |]; cbn [connect_vregs first_reg for_each].
  rewrite (proj2 (Z.eqb_neq _ _)) by (unfold vreg_of, kFirstVRegNumber, kInvalidMachineReg; lia).
  destruct (GenInterBasicBlockMove p s (vreg_of v) st) as [st1 |]; cbn [mbind option_bind]; [| done].
  rewrite GetNextLiveIn_spec by lia; cbn [mbind option_bind]; rewrite Hi; apply IH; lia.
Qed.

End Enumeration.

Context (live : list VRegBitSet).

Definition edge_moves (p : BlockPtr) (e : EdgePtr) : list move :=
  match edges ir1 !! e with
  | Some x => match live !! edge_dst x with
              | Some bits => map (fun v => {| mv_pred := p; mv_succ := edge_dst x; mv_vreg := v |}) (live_list bits 0 n)
              | None => []
              end
  | None => []
  end.
Definition block_moves (p : BlockPtr) : list move :=
  match blocks ir1 !! p with Some b => concat (map (edge_moves p) (out_edges b)) | None => [] end.
Definition all_moves : list move := concat (map block_moves (bb_list ir1)).

Lemma elem_of_concat_map {A B} (f : A -> list B) l y : y ∈ concat (map f l) <-> exists x, x ∈ l /\ y ∈ f x.
Proof.
  induction l as [| a l IH]; cbn [map concat].
  - split; [by intros ?%not_elem_of_nil | by intros (x & ?%not_elem_of_nil & _)].
  - rewrite elem_of_app, IH; split.
    + intros [? | (x & ? & ?)]; [exists a | exists x]; split; try done; apply elem_of_cons; auto.
    + intros (x & [-> | ?]%elem_of_cons & ?); [by left | right; by exists x].
Qed.

Context (Hlive : length live = nb) (Hbits : Forall (fun s => length s = n) live).

Lemma elem_of_all_moves m :
  m ∈ all_moves <-> mv_pred m ∈ bb_list ir1 /\ edge_to ir1 (mv_pred m) (mv_succ m) /\ live_at live (mv_succ m) (mv_vreg m).
Proof.
  unfold all_moves; rewrite elem_of_concat_map; split.
  - intros (p & Hp & Hm); unfold block_moves in Hm; destruct (blocks ir1 !! p) as [b |] eqn:Hb; [| by apply not_elem_of_nil in Hm].
    apply elem_of_concat_map in Hm as (e & He & Hm); unfold edge_moves in Hm; destruct (edges ir1 !! e) as [x |] eqn:Hx; [| by apply not_elem_of_nil in Hm].
    destruct (live !! edge_dst x) as [bits |] eqn:Hl; [| by apply not_elem_of_nil in Hm].
    apply list_elem_of_In, in_map_iff in Hm as (v & <- & Hv%list_elem_of_In); cbn; conjs; [done | by exists b, e, x |].
    exists bits; split; [done |]; unfold live_list in Hv; by apply list_elem_of_filter in Hv as [? _].
  - intros (Hp & (b & e & x & Hb & He & Hx & Hd) & (bits & Hl & Hv)); exists (mv_pred m); split; [done |]; unfold block_moves; rewrite Hb.
    apply elem_of_concat_map; exists e; split; [done |]; unfold edge_moves; rewrite Hx, Hd, Hl; apply list_elem_of_In, in_map_iff; exists (mv_vreg m).
    split; [by destruct m |]; apply list_elem_of_In; rewrite Forall_forall in Hbits; rewrite <- (Hbits bits) by (by eapply list_elem_of_lookup_2); by apply elem_of_live_list.
Qed.

Context (Hedges : forall p b e, p ∈ bb_list ir1 -> blocks ir1 !! p = Some b -> e ∈ out_edges b ->
  exists x, edges ir1 !! e = Some x /\ connectable p (edge_dst x)).
Context (Hblocks : forall p, p ∈ bb_list ir1 -> is_Some (blocks ir1 !! p)).

Lemma connect_edge_spec p b e mv st :
  p ∈ bb_list ir1 -> blocks ir1 !! p = Some b -> e ∈ out_edges b -> connected mv st.1 st.2 ->
  exists st', connect_edge live p e st = Some st' /\ extends st.1 st'.1 /\ connected (mv ++ edge_moves p e) st'.1 st'.2.
Proof.
  intros Hp Hb He Hc; destruct (Hedges p b e Hp Hb He) as (x & Hx & Hmv); unfold connect_edge, edge_moves.
  destruct (cn_graph _ _ _ Hc) as (_ & _ & -> & _); rewrite Hx; cbn [mbind option_bind].
  destruct (mb_bounds _ _ Hmv) as [Hpn Hdn]; destruct (lookup_lt_is_Some_2 live (edge_dst x)) as [bits Hl]; [lia |]; rewrite Hl.
  rewrite Forall_forall in Hbits; assert (Hbl : length bits = n) by (apply Hbits; by eapply list_elem_of_lookup_2).
  assert (Hn : NumVReg live = Some n).
  { unfold NumVReg; destruct live as [| s0 live']; cbn in *; [lia |]; f_equal; apply Hbits, elem_of_cons; by left. }
  rewrite (GetFirstLiveIn_spec live (edge_dst x) bits) by done; cbn [mbind option_bind]; rewrite Hn; cbn [mbind option_bind].
  rewrite (connect_vregs_for_each live (edge_dst x) bits) by (done || lia).
  destruct (for_each_moves (fun v => GenInterBasicBlockMove p (edge_dst x) (vreg_of v)) (fun v => [{| mv_pred := p; mv_succ := edge_dst x; mv_vreg := v |}])
    (live_list bits 0 n) mv st) as (st' & E & He' & Hc'); [| done |].
  - intros v mv0 [vm0 ir0] Hv Hc0; destruct (GenInterBasicBlockMove_spec mv0 vm0 ir0 p (edge_dst x) v Hc0 Hmv) as (vm1 & ir2 & E & He1 & Hc1).
    { unfold live_list in Hv; apply list_elem_of_filter in Hv as [_ Hv]; apply elem_of_seq in Hv; lia. }
    by exists (vm1, ir2).
  - exists st'; conjs; try done; replace (map _ (live_list bits 0 n)) with (concat (map (fun v => [{| mv_pred := p; mv_succ := edge_dst x; mv_vreg := v |}]) (live_list bits 0 n))); [done |].
    clear; induction (live_list bits 0 n) as [| v l IH]; cbn; [done | by rewrite IH].
Qed.

Lemma connect_all st : connected [] st.1 st.2 ->
  exists st', for_each (connect_block live) (bb_list ir1) st = Some st' /\ extends st.1 st'.1 /\ connected all_moves st'.1 st'.2.
Proof.
  intros Hc; destruct (for_each_moves (connect_block live) block_moves (bb_list ir1) [] st) as (st' & E & He & Hc'); [| done | by exists st'].
  intros p mv st0 Hp Hc0; destruct (Hblocks p Hp) as [b Hb]; unfold connect_block, block_moves.
  rewrite (cn_blocks _ _ _ Hc0), Hb; cbn [fmap option_fmap option_map mbind option_bind out_edges joined].
  apply for_each_moves; [| done]; intros e mv1 st1 He1 Hc1; by eapply connect_edge_spec.
Qed.

End Connect.
