(* ===== verification/RenameVRegsSim.v ===== *)
(** * Renaming of virtual registers changes nothing

    A graph and the graph that [RenameVRegs] makes of it run in lockstep: a block
    finds the registers that live into it under the names of its predecessor, when
    it has one predecessor only, and under its own names otherwise. *)
From stdpp Require Import gmap list.
From S2P Require Import Prelude MachineIR Lifetime LifetimeAnalysis Liveness MachineIRCheck MachineSem DeadCode BlockOrder ControlFlow RenameCopyUses RenameVRegs RenameVRegsProps RenameVRegsConnect.
#[local] Open Scope Z_scope.

(** ** Names *)

Lemma map_ok_vreg n nb vm ir bb v : map_ok n nb vm ir -> has_name vm bb v -> IsVReg (name_of vm bb v) = true.
Proof.
  intros Hok (q & Hq & Hn); unfold name_of; rewrite Hq; cbn; destruct (mo_reg _ _ _ _ Hok bb v q Hq Hn) as (x & Hx & _); apply IsVReg_index; by exists x.
Qed.

Lemma name_of_inj n nb vm ir bb v bb' v' :
  map_ok n nb vm ir -> has_name vm bb v -> has_name vm bb' v' -> name_of vm bb v = name_of vm bb' v' -> bb = bb' /\ v = v'.
Proof.
  intros Hok (q & Hq & Hn) (q' & Hq' & Hn'); unfold name_of; rewrite Hq, Hq'; cbn; intros ->; by eapply (mo_inj _ _ _ _ Hok).
Qed.

Lemma covers_name vm bb r v : GetVRegIndex r = Some v -> covers vm bb r <-> has_name vm bb v.
Proof. intros Hv; split; [intros H; by apply H | intros H v' Hv'; assert (v' = v) as -> by congruence; exact H]. Qed.

Lemma not_vreg_index r : IsVReg r = false <-> GetVRegIndex r = None.
Proof. unfold IsVReg, GetVRegIndex; by destruct (kFirstVRegNumber <=? r). Qed.

Lemma name_not_vreg vm bb r : IsVReg r = false -> name vm bb r = r.
Proof. intros H%not_vreg_index; unfold name; by rewrite H. Qed.

Lemma name_inj n nb vm ir bb r r' :
  map_ok n nb vm ir -> covers vm bb r -> covers vm bb r' -> name vm bb r = name vm bb r' -> r = r'.
Proof.
  intros Hok Hr Hr'; destruct (GetVRegIndex r) as [v |] eqn:Hv, (GetVRegIndex r') as [v' |] eqn:Hv'.
  - rewrite (name_vreg _ _ _ _ Hv), (name_vreg _ _ _ _ Hv'); intros He; rewrite covers_name in Hr, Hr' by done.
    destruct (name_of_inj _ _ _ _ _ _ _ _ Hok Hr Hr' He) as [_ ->]; by eapply GetVRegIndex_inj.
  - rewrite (name_vreg _ _ _ _ Hv), (name_not_vreg _ _ r') by (by apply not_vreg_index); intros He; rewrite covers_name in Hr by done.
    apply (map_ok_vreg _ _ _ _ _ _ Hok) in Hr; rewrite He, (proj2 (not_vreg_index r') Hv') in Hr; done.
  - rewrite (name_vreg _ _ _ _ Hv'), (name_not_vreg _ _ r) by (by apply not_vreg_index); intros He; rewrite covers_name in Hr' by done.
    apply (map_ok_vreg _ _ _ _ _ _ Hok) in Hr'; rewrite <- He, (proj2 (not_vreg_index r) Hv) in Hr'; done.
  - by rewrite !name_not_vreg by (by apply not_vreg_index).
Qed.

Definition rename_operand (vm : VRegMap) (bb : BlockPtr) (o : MachineReg * MachineRegKind) : MachineReg * MachineRegKind := (name vm bb o.1, o.2).

Lemma operands_rename vm bb i : operands (rename_with vm bb i) = map (rename_operand vm bb) (operands i).
Proof.
  unfold operands, rename_with; cbn; generalize (reg_kinds i) as ks; generalize (regs i) as rs.
  induction rs as [| r rs IH]; intros [| k ks]; cbn; [done | done | done | by rewrite IH].
Qed.

Lemma covers_operand vm bb i r k : covers_insn vm bb i -> (r, k) ∈ operands i -> covers vm bb r.
Proof. intros Hc Ho; apply Hc; unfold operands in Ho; by apply elem_of_zip_l in Ho. Qed.

(** ** An instruction *)

Section Insn.
Context {V W : Type} `{!MachineSem V W}.
Context (n nb : nat) (vm : VRegMap) (ir' : MachineIR) (Hmap : map_ok n nb vm ir') (bb : BlockPtr).

(** The registers that are not virtual and those in [T] have their values under
    the names of the block. *)
Definition ren_agree (T : nat -> Prop) (ρ1 ρ2 : MachineReg -> V) : Prop :=
  forall r, IsVReg r = false \/ (exists v, GetVRegIndex r = Some v /\ T v) -> covers vm bb r -> ρ1 r = ρ2 (name vm bb r).

Lemma ren_agree_sub (T T' : nat -> Prop) ρ1 ρ2 : (forall v, T' v -> T v) -> ren_agree T ρ1 ρ2 -> ren_agree T' ρ1 ρ2.
Proof. intros Hs Ha r [? | (v & ? & ?)]; apply Ha; [by left | right; exists v; auto]. Qed.

Lemma ren_agree_none T ρ1 ρ2 : ren_agree T ρ1 ρ2 -> agree no_vregs ρ1 ρ2.
Proof.
  intros Ha r [Hr | (v & _ & [])]; rewrite (Ha r); [by rewrite name_not_vreg | by left |].
  intros v Hv; apply not_vreg_index in Hr; congruence.
Qed.

Lemma inputs_renamed ops (ρ1 ρ2 : MachineReg -> V) :
  (forall r k, (r, k) ∈ ops -> IsInput k = true -> ρ1 r = ρ2 (name vm bb r)) ->
  inputs_of (map (rename_operand vm bb) ops) ρ2 = inputs_of ops ρ1.
Proof.
  induction ops as [| [r k] ops IH]; intros Hall; cbn [map rename_operand fst snd inputs_of]; [done |].
  rewrite IH by (intros; eapply Hall; [apply elem_of_cons; by right | done]); destruct (IsInput k) eqn:Ek; [| done].
  f_equal; symmetry; eapply Hall; [apply elem_of_cons; by left | done].
Qed.

Lemma inputs_ren T i ρ1 ρ2 :
  covers_insn vm bb i -> ren_agree T ρ1 ρ2 -> (forall v, reads i v -> T v) -> inputs_of (operands (rename_with vm bb i)) ρ2 = inputs_of (operands i) ρ1.
Proof.
  intros Hc Ha Hr; rewrite operands_rename; apply inputs_renamed; intros r k Ho Hk; apply Ha; [| by eapply covers_operand].
  destruct (IsVReg r) eqn:Ev; [right | by left]; apply IsVReg_index in Ev as [v Hv]; exists v; split; [done |]; apply Hr; by exists r, k.
Qed.

Lemma write_defs_renamed ops : forall m out (ρ1 ρ2 : MachineReg -> V) r,
  (forall r k, (r, k) ∈ ops -> covers vm bb r) -> covers vm bb r -> (written ops r \/ ρ1 r = ρ2 (name vm bb r)) ->
  write_defs ops m out ρ1 r = write_defs (map (rename_operand vm bb) ops) m out ρ2 (name vm bb r).
Proof.
  induction ops as [| [r' k] ops IH]; intros m out ρ1 ρ2 r Hc Hr Hw; cbn [map rename_operand fst snd write_defs].
  - destruct Hw as [(k & Hk & _) | ?]; [by apply not_elem_of_nil in Hk | done].
  - assert (Hc' : forall r k, (r, k) ∈ ops -> covers vm bb r) by (intros; eapply Hc; apply elem_of_cons; by right).
    assert (Hr' : covers vm bb r') by (eapply Hc; apply elem_of_cons; by left).
    destruct (IsDef k) eqn:Ek; apply IH; try done.
    + destruct (decide (r = r')) as [-> | Hne]; [right; unfold set_reg; by rewrite !decide_True |].
      destruct Hw as [(k' & [[= ? ?] | Hin]%elem_of_cons & Hd) | Heq]; [congruence | left; by exists k' |].
      right; unfold set_reg; rewrite !decide_False; [done | | done]; intros He; apply Hne; by eapply name_inj.
    + destruct Hw as [(k' & [[= -> ->] | Hin]%elem_of_cons & Hd) | Heq]; [congruence | left; by exists k' | by right].
Qed.

Lemma exec_renamed (T : nat -> Prop) i ρ1 ρ2 (w : W) :
  covers_insn vm bb i -> ren_agree (fun v => reads i v \/ ~ writes i v /\ T v) ρ1 ρ2 ->
  (exec_regs (rename_with vm bb i) ρ2 w).2 = (exec_regs i ρ1 w).2 /\ ren_agree T (exec_regs i ρ1 w).1 (exec_regs (rename_with vm bb i) ρ2 w).1.
Proof.
  intros Hc Ha; unfold exec_regs; rewrite (inputs_ren _ i ρ1 ρ2 Hc Ha) by auto; cbn [data reg_kinds rename_with set_regs].
  destruct (exec_insn _ _ _ _) as [out w']; split; [done |]; cbn [fst]; intros r Hr Hcr; rewrite operands_rename.
  apply write_defs_renamed; [by intros ? ? ?%(covers_operand _ _ _ _ _ Hc) | done |].
  destruct (decide (Exists (fun o => o.1 = r /\ IsDef o.2 = true) (operands i))) as [He | Hn].
  - left; apply Exists_exists in He as ([r' k] & Hin & Hr' & Hk); cbn in *; subst; by exists k.
  - right; apply Ha; [| done]; destruct Hr as [? | (v & Hv & Hs)]; [by left | right; exists v; split; [done |]; right; split; [| done]].
    intros (r' & k & Hin & Hk & Hv'); apply Hn, Exists_exists; exists (r', k); split; [done |]; split; [| done]; cbn; by eapply GetVRegIndex_inj.
Qed.

Lemma fault_renamed T i ρ1 ρ2 (w : W) :
  covers_insn vm bb i -> ren_agree T ρ1 ρ2 -> (forall v, reads i v -> T v) -> fault_of (rename_with vm bb i) ρ2 w = fault_of i ρ1 w.
Proof. intros Hc Ha Hr; unfold fault_of; by rewrite (inputs_ren T i ρ1 ρ2 Hc Ha Hr). Qed.

Lemma transfer_renamed T i ρ1 ρ2 :
  covers_insn vm bb i -> ren_agree T ρ1 ρ2 -> (forall v, reads i v -> T v) -> transfer_of (rename_with vm bb i) ρ2 = transfer_of i ρ1.
Proof. intros Hc Ha Hr; unfold transfer_of, first_input; by rewrite (inputs_ren T i ρ1 ρ2 Hc Ha Hr). Qed.

(** What is needed at the beginning of [l] when [Out] is needed at its end. *)
Definition needed (Out : nat -> Prop) (l : list MachineInsn) (v : nat) : Prop := read_first l v \/ never_written l v /\ Out v.

(** A run of renamed instructions without control transfers: it stops at a fault
    or goes on with what follows. *)
Lemma renamed_prefix (Out : nat -> Prop) l post : forall ρ1 ρ2 w l2 l2',
  Forall (covers_insn vm bb) l -> Forall (fun i => IsControlTransfer i = false) l -> ren_agree (needed Out (l ++ post)) ρ1 ρ2 ->
  (exists e pre i rest ρ1' ρ2' w', l = pre ++ i :: rest /\ run_insns (l ++ l2) ρ1 w = (e, ρ1', w') /\
     run_insns (map (rename_with vm bb) l ++ l2') ρ2 w = (e, ρ2', w') /\ (forall t, e = GoTo t -> recovery_bb i = Some t) /\
     ren_agree (needed Out (i :: rest ++ post)) ρ1' ρ2') \/
  (exists ρ1' ρ2' w', run_insns (l ++ l2) ρ1 w = run_insns l2 ρ1' w' /\ run_insns (map (rename_with vm bb) l ++ l2') ρ2 w = run_insns l2' ρ2' w' /\
     ren_agree (needed Out post) ρ1' ρ2').
Proof.
  induction l as [| i l IH]; intros ρ1 ρ2 w l2 l2' Hc Hf Ha; cbn [map app run_insns].
  { right; by exists ρ1, ρ2, w. }
  apply Forall_cons in Hc as [Hci Hcl], Hf as [Hfi Hfl]; cbn [app] in Ha.
  assert (Hr : forall v, reads i v -> needed Out (i :: l ++ post) v) by (intros v Hv; left; by left).
  rewrite (fault_renamed _ i ρ1 ρ2 w Hci Ha Hr), (transfer_renamed _ i ρ1 ρ2 Hci Ha Hr), transfer_none by done.
  destruct (fault_of i ρ1 w) as [e |] eqn:Ef.
  - left; exists e, [], i, l, ρ1, ρ2, w; conjs; try done; intros t ->; unfold fault_of in Ef; destruct (insn_faults _ _ _ _); [| done].
    destruct (recovery_bb i); [congruence | by destruct (recovery_pc i =? kNullGuestAddr)].
  - destruct (exec_renamed (needed Out (l ++ post)) i ρ1 ρ2 w Hci) as [Ew Ha'].
    { eapply ren_agree_sub; [| exact Ha]; unfold needed; cbn [read_first never_written]; tauto. }
    destruct (exec_regs i ρ1 w) as [ρ1a w1], (exec_regs (rename_with vm bb i) ρ2 w) as [ρ2a w2]; cbn in Ew, Ha'; subst w2.
    destruct (IH ρ1a ρ2a w1 l2 l2' Hcl Hfl Ha') as [(e & pre & j & rest & ρ1' & ρ2' & w' & -> & ?) | ?]; [left | by right].
    by exists e, (i :: pre), j, rest, ρ1', ρ2', w'.
Qed.

End Insn.

(** ** The copies *)

Section Copies.
Context {V W : Type} `{!MachineSem V W} `{!MachineSemOk V W}.
Context (n nb : nat) (vm : VRegMap) (ir' : MachineIR) (Hmap : map_ok n nb vm ir') (sizes : list Z) (p s : BlockPtr).

(** The copies of an edge work as if they were made all at once. *)
Lemma run_copies ms : forall l (ρ : MachineReg -> V) (w : W),
  Forall (fun m => mv_pred m = p /\ mv_succ m = s /\ named_move vm m) ms ->
  exists ρ', run_insns (map (copy_of sizes vm) ms ++ l) ρ w = run_insns l ρ' w /\
    (forall r, (forall m, m ∈ ms -> r <> name_of vm s (mv_vreg m)) -> ρ' r = ρ r) /\
    (forall m, m ∈ ms -> ρ' (name_of vm s (mv_vreg m)) = ρ (name_of vm p (mv_vreg m))).
Proof.
  induction ms as [| m ms IH]; intros l ρ w Hall.
  { exists ρ; conjs; try done; intros m Hm; by apply not_elem_of_nil in Hm. }
  apply Forall_cons in Hall as [(Hp & Hs & [Hnp Hns]) Hall]; rewrite Hp in Hnp; rewrite Hs in Hns.
  cbn [map app run_insns]; unfold copy_of at 1 2 3; rewrite Hp, Hs.
  set (z := default 0 (sizes !! mv_vreg m)); set (d := name_of vm s (mv_vreg m)) in *; set (q := name_of vm p (mv_vreg m)) in *.
  assert (Hok : copy_ok (new_PseudoCopy d q z)) by (intros _; conjs; [done | done |]; by exists d, q, (copy_class z)).
  destruct (copy_falls_through (new_PseudoCopy d q z) ρ w Hok eq_refl) as [-> ->].
  destruct (exec_copy (new_PseudoCopy d q z) d q (copy_class z) ρ w eq_refl eq_refl eq_refl) as [Ew Eρ].
  destruct (exec_regs (new_PseudoCopy d q z) ρ w) as [ρ1 w1]; cbn in Ew, Eρ; subst w1.
  destruct (IH l ρ1 w Hall) as (ρ' & E & Hother & Hset); exists ρ'; split; [done |].
  assert (Hsrc : forall v, has_name vm p v -> ρ1 (name_of vm p v) = ρ (name_of vm p v)).
  { intros v Hv; rewrite Eρ; unfold set_reg; case_decide as Hd; [| done]; unfold d in Hd.
    destruct (name_of_inj _ _ _ _ _ _ _ _ Hmap Hv Hns Hd) as [_ ->]; done. }
  rewrite Forall_forall in Hall.
  assert (Hset' : forall m', m' ∈ ms -> ρ' (name_of vm s (mv_vreg m')) = ρ (name_of vm p (mv_vreg m'))).
  { intros m' Hm'; rewrite Hset by done; apply Hsrc; destruct (Hall m' Hm') as (<- & _ & [? _]); done. }
  split.
  - intros r Hr; rewrite Hother by (intros; apply Hr, elem_of_cons; by right); rewrite Eρ; unfold set_reg; rewrite decide_False; [done |].
    intros ->; apply (Hr m); [apply elem_of_cons; by left | done].
  - intros m' [-> | Hm']%elem_of_cons; [| by apply Hset'].
    destruct (decide (mv_vreg m ∈ map mv_vreg ms)) as [Hin | Hnin].
    + apply list_elem_of_In, in_map_iff in Hin as (m' & Hv & Hm'%list_elem_of_In); fold d q; unfold d, q; rewrite <- Hv; by apply Hset'.
    + fold d q; rewrite Hother; [rewrite Eρ; unfold set_reg; by rewrite decide_True |].
      intros m' Hm' Hd; destruct (Hall m' Hm') as (_ & Hs' & [_ Hn']); rewrite Hs' in Hn'.
      destruct (name_of_inj _ _ _ _ _ _ _ _ Hmap Hns Hn' Hd) as [_ Hv]; apply Hnin, list_elem_of_In, in_map_iff; exists m'; split; [done | by apply list_elem_of_In].
Qed.

(** A register that is not virtual, or that has a name of another block, is
    not changed. *)
Lemma run_copies_other ms (ρ ρ' : MachineReg -> V) bb r :
  (forall r, (forall m, m ∈ ms -> r <> name_of vm s (mv_vreg m)) -> ρ' r = ρ r) ->
  (forall m, m ∈ ms -> ρ' (name_of vm s (mv_vreg m)) = ρ (name_of vm p (mv_vreg m))) ->
  Forall (fun m => mv_pred m = p /\ mv_succ m = s /\ named_move vm m) ms -> (bb = p \/ bb <> s) -> covers vm bb r -> ρ' (name vm bb r) = ρ (name vm bb r).
Proof.
  intros Hother Hset Hall Hb Hc; rewrite Forall_forall in Hall; destruct (GetVRegIndex r) as [v |] eqn:Hv.
  - rewrite (name_vreg _ _ _ _ Hv); rewrite covers_name in Hc by done.
    destruct (decide (bb = s)) as [-> | Hne].
    + destruct Hb as [-> | ?]; [| done]; destruct (decide (v ∈ map mv_vreg ms)) as [Hin | Hnin].
      * apply list_elem_of_In, in_map_iff in Hin as (m & <- & Hm%list_elem_of_In); by apply Hset.
      * apply Hother; intros m Hm Hd; destruct (Hall m Hm) as (_ & Hs' & [_ Hn']); rewrite Hs' in Hn'.
        destruct (name_of_inj _ _ _ _ _ _ _ _ Hmap Hc Hn' Hd) as [_ ->]; apply Hnin, list_elem_of_In, in_map_iff; exists m; split; [done | by apply list_elem_of_In].
    + apply Hother; intros m Hm Hd; destruct (Hall m Hm) as (_ & Hs' & [_ Hn']); rewrite Hs' in Hn'.
      by destruct (name_of_inj _ _ _ _ _ _ _ _ Hmap Hc Hn' Hd).
  - rewrite name_not_vreg by (by apply not_vreg_index); apply Hother; intros m Hm Hd; destruct (Hall m Hm) as (_ & Hs' & [_ Hn']); rewrite Hs' in Hn'.
    apply (map_ok_vreg _ _ _ _ _ _ Hmap) in Hn'; rewrite <- Hd, (proj2 (not_vreg_index r) Hv) in Hn'; done.
Qed.

End Copies.

(** ** The graph *)

Section Graph.
Context (ir : MachineIR) (Hwf : wf_graph ir) (Hcrit : critical_free ir).

Lemma edge_ends p s : p ∈ bb_list ir -> edge_to ir p s -> exists bp bs e x, blocks ir !! p = Some bp /\ blocks ir !! s = Some bs /\
  e ∈ out_edges bp /\ e ∈ in_edges bs /\ edges ir !! e = Some x /\ edge_src x = p /\ edge_dst x = s /\ s ∈ bb_list ir.
Proof.
  intros Hp (bp & e & x & Hb & He & Hx & <-); destruct (bo_out _ _ _ (wg_ok _ _ _ Hwf Hp Hb) e He) as (x' & d & Hx' & Hsrc & Hd & Hbd & Hin).
  assert (x' = x) as -> by congruence; by exists bp, d, e, x.
Qed.

Lemma edge_in p s : p ∈ bb_list ir -> edge_to ir p s -> s ∈ bb_list ir.
Proof. intros Hp He; by destruct (edge_ends p s Hp He) as (? & ? & ? & ? & _ & _ & _ & _ & _ & _ & _ & ?). Qed.

Lemma single_spec bb b : blocks ir !! bb = Some b -> single ir bb = true <-> length (in_edges b) = 1%nat.
Proof. intros Hb; unfold single; rewrite Hb; apply Nat.eqb_eq. Qed.

Lemma length_one {A} (x y : A) l : length l = 1%nat -> x ∈ l -> y ∈ l -> x = y.
Proof. destruct l as [| z [| ? ?]]; try done; by intros _ ->%list_elem_of_singleton ->%list_elem_of_singleton. Qed.

Lemma single_pred p p' s : p ∈ bb_list ir -> p' ∈ bb_list ir -> edge_to ir p s -> edge_to ir p' s -> single ir s = true -> p = p'.
Proof.
  intros Hp Hp' He He' Hs; destruct (edge_ends p s Hp He) as (bp & bs & e & x & _ & Hbs & _ & Hin & Hx & <- & _).
  destruct (edge_ends p' s Hp' He') as (bp' & bs' & e' & x' & _ & Hbs' & _ & Hin' & Hx' & <- & _); assert (bs' = bs) as -> by congruence.
  apply (single_spec _ _ Hbs) in Hs; assert (e = e') as <- by (by eapply length_one); congruence.
Qed.

Lemma shared_succ p s bp : p ∈ bb_list ir -> edge_to ir p s -> single ir s = false -> blocks ir !! p = Some bp -> length (out_edges bp) = 1%nat.
Proof.
  intros Hp He Hs Hb; destruct (edge_ends p s Hp He) as (bp' & bs & e & x & Hb' & Hbs & Ho & Hi & Hx & Hsrc & Hdst & Hsl); assert (bp' = bp) as -> by congruence.
  assert (length (in_edges bs) <> 1%nat) by (intros Hl; apply (single_spec _ _ Hbs) in Hl; congruence).
  assert (0 < length (in_edges bs))%nat by (destruct (in_edges bs); [by apply not_elem_of_nil in Hi | cbn; lia]).
  assert (0 < length (out_edges bp))%nat by (destruct (out_edges bp); [by apply not_elem_of_nil in Ho | cbn; lia]).
  destruct (Hcrit s bs e x bp Hsl Hbs Hi Hx); [by rewrite Hsrc | lia | lia].
Qed.

Lemma only_succ p s s' : p ∈ bb_list ir -> edge_to ir p s -> edge_to ir p s' -> single ir s = false -> s' = s.
Proof.
  intros Hp He He' Hs; destruct (edge_ends p s Hp He) as (bp & _ & e & x & Hb & _ & Ho & _ & Hx & _ & <- & _).
  destruct (edge_ends p s' Hp He') as (bp' & _ & e' & x' & Hb' & _ & Ho' & _ & Hx' & _ & <- & _); assert (bp' = bp) as -> by congruence.
  assert (e = e') as <-; [| congruence]; eapply length_one; [| exact Ho | exact Ho']; exact (shared_succ p _ bp Hp He Hs Hb).
Qed.

Lemma successor_edge p b i t : p ∈ bb_list ir -> blocks ir !! p = Some b -> i ∈ insn_list b -> t ∈ successors i -> edge_to ir p t.
Proof.
  intros Hp Hb Hi Ht; pose proof (bo_successors _ _ _ i t (wg_ok _ _ _ Hwf Hp Hb) Hi Ht) as (e & x & He & Hx & Hd)%elem_of_dsts; by exists b, e, x.
Qed.

Lemma recovery_single p b i t : p ∈ bb_list ir -> blocks ir !! p = Some b -> i ∈ insn_list b -> recovery_bb i = Some t -> edge_to ir p t /\ single ir t = true.
Proof.
  intros Hp Hb Hi Ht; assert (He : edge_to ir p t).
  { eapply successor_edge; [done | done | done |]; unfold successors; rewrite Ht; apply elem_of_app; right; by apply list_elem_of_singleton. }
  split; [done |]; destruct (edge_ends p t Hp He) as (_ & bt & e & _ & _ & Hbt & _ & Hin & _); apply (single_spec _ _ Hbt).
  assert (length (in_edges bt) < 2)%nat by (apply (bo_rec _ _ _ (wg_ok _ _ _ Hwf Hp Hb) t bt); [apply elem_of_recoveries; by exists i | done]).
  destruct (in_edges bt); [by apply not_elem_of_nil in Hin | cbn in *; lia].
Qed.

End Graph.

(** ** The renamed graph *)

(** [ir'] has the blocks of [ir] with the names of [vm] and the copies of the
    moves [mv]; [ir1] is the graph before the copies. *)
Record renames (ir ir1 : MachineIR) (sizes : list Z) (mv : list move) (vm : VRegMap) (ir' : MachineIR) : Prop := {
  rn_list : bb_list ir' = bb_list ir;
  rn_graph : same_graph_parts ir ir';
  rn_known : forall bb, is_Some (blocks ir' !! bb) -> is_Some (blocks ir !! bb);
  rn_map : map_ok (num_vreg ir) (num_bb ir) vm ir';
  rn_single : forall bb, single ir1 bb = single ir bb;
  rn_named : Forall (named_move vm) mv;
  rn_moves : forall m, m ∈ mv <-> mv_pred m ∈ bb_list ir /\ edge_to ir (mv_pred m) (mv_succ m) /\ lives ir (mv_vreg m) (mv_succ m);
  rn_block : forall bb b l j, bb ∈ bb_list ir -> blocks ir !! bb = Some b -> insn_list b = l ++ [j] ->
    exists b', blocks ir' !! bb = Some b' /\ Forall (covers_insn vm bb) l /\ covers_insn vm bb j /\
      insn_list b' = map (copy_of sizes vm) (reverse (entering ir1 bb mv)) ++ map (rename_with vm bb) l ++
        map (copy_of sizes vm) (leaving ir1 bb mv) ++ [rename_with vm bb j] /\
      live_out b' = live_out b ++ map (crossing ir1 vm) (from bb mv) /\ in_edges b' = in_edges b /\ out_edges b' = out_edges b
}.

(** The recovery code of an instruction reads no register that is written by the
    instruction or after it in its block.  The pass does not check this and
    renames the reads in the recovery code to the last name in the block; the
    recovery blocks of the frontends read no register. *)
Definition recovery_clean (ir : MachineIR) : Prop :=
  forall bb b pre i post t v, bb ∈ bb_list ir -> blocks ir !! bb = Some b -> insn_list b = pre ++ i :: post ->
    recovery_bb i = Some t -> lives ir v t -> never_written (i :: post) v.

Section Renamed.
Context (ir ir1 : MachineIR) (sizes : list Z) (mv : list move) (vm : VRegMap) (ir' : MachineIR).
Context (Hwf : wf_graph ir) (Hcrit : critical_free ir) (Hren : renames ir ir1 sizes mv vm ir').
Context (Htr : forall bb b i, bb ∈ bb_list ir -> blocks ir !! bb = Some b -> i ∈ insn_list b -> transfer_ok i).
Context (Hclean : recovery_clean ir).

Definition lives_after (bb : BlockPtr) (v : nat) : Prop := exists s, edge_to ir bb s /\ lives ir v s.

Lemma elem_of_entering m bb : m ∈ entering ir1 bb mv <-> m ∈ mv /\ mv_succ m = bb /\ single ir bb = true.
Proof. unfold entering; rewrite list_elem_of_filter, (rn_single _ _ _ _ _ _ Hren); split; [intros ((-> & ?) & ?) | intros (? & -> & ?)]; done. Qed.

Lemma elem_of_leaving m bb : m ∈ leaving ir1 bb mv <-> m ∈ mv /\ mv_pred m = bb /\ single ir (mv_succ m) = false.
Proof. unfold leaving; rewrite list_elem_of_filter, (rn_single _ _ _ _ _ _ Hren); split; [intros ((? & ?) & ?) | intros (? & ? & ?)]; done. Qed.

Lemma move_named m : m ∈ mv -> named_move vm m.
Proof. intros Hm; pose proof (rn_named _ _ _ _ _ _ Hren) as Hn; rewrite Forall_forall in Hn; auto. Qed.

(** The moves into a block with one predecessor, and the moves out of one with
    one successor that others share. *)
Lemma entering_edge bb p : p ∈ bb_list ir -> edge_to ir p bb -> Forall (fun m => mv_pred m = p /\ mv_succ m = bb /\ named_move vm m) (entering ir1 bb mv).
Proof.
  intros Hp He; apply Forall_forall; intros m (Hm & Hs & Hsg)%elem_of_entering.
  destruct (proj1 (rn_moves _ _ _ _ _ _ Hren m) Hm) as (Hpm & Hem & _); rewrite Hs in Hem.
  conjs; [| done | by apply move_named]; by apply (single_pred ir Hwf _ _ bb).
Qed.

Lemma leaving_edge bb s : edge_to ir bb s -> single ir s = false -> Forall (fun m => mv_pred m = bb /\ mv_succ m = s /\ named_move vm m) (leaving ir1 bb mv).
Proof.
  intros He Hs; apply Forall_forall; intros m (Hm & Hp & _)%elem_of_leaving.
  destruct (proj1 (rn_moves _ _ _ _ _ _ Hren m) Hm) as (Hpm & Hem & _); rewrite Hp in Hpm, Hem.
  conjs; [done | | by apply move_named]; by eapply only_succ.
Qed.

Lemma edge_named p s v : p ∈ bb_list ir -> edge_to ir p s -> lives ir v s ->
  {| mv_pred := p; mv_succ := s; mv_vreg := v |} ∈ mv /\ has_name vm p v /\ has_name vm s v.
Proof.
  intros Hp He Hl; assert (Hm : {| mv_pred := p; mv_succ := s; mv_vreg := v |} ∈ mv) by (by apply (rn_moves _ _ _ _ _ _ Hren)).
  split; [done |]; by destruct (move_named _ Hm).
Qed.

Section Sim.
Context {V W : Type} `{!MachineSem V W} `{!MachineSemOk V W}.

(** Where the registers that live into a block are found. *)
Definition entry_agree (bb : BlockPtr) (ρ1 ρ2 : MachineReg -> V) : Prop :=
  bb ∈ bb_list ir /\ agree no_vregs ρ1 ρ2 /\
  forall v, lives ir v bb ->
    if single ir bb then forall p, p ∈ bb_list ir -> edge_to ir p bb -> ρ1 (vreg_of v) = ρ2 (name_of vm p v)
    else ρ1 (vreg_of v) = ρ2 (name_of vm bb v).

Lemma enter_block bb (ρ1 ρ2 : MachineReg -> V) (w : W) l :
  entry_agree bb ρ1 ρ2 ->
  exists ρ2', run_insns (map (copy_of sizes vm) (reverse (entering ir1 bb mv)) ++ l) ρ2 w = run_insns l ρ2' w /\
    ren_agree vm bb (fun v => lives ir v bb) ρ1 ρ2'.
Proof.
  intros (Hbb & Ha & Hl); pose proof (rn_map _ _ _ _ _ _ Hren) as Hmap; destruct (single ir bb) eqn:Es.
  - destruct (wg_block _ Hwf bb Hbb) as (b & Hb & Hok); pose proof (proj1 (single_spec ir bb b Hb) Es) as Hone.
    destruct (in_edges b) as [| e [| ? ?]] eqn:Ei; try done.
    destruct (bo_in _ _ _ Hok e) as (x & bp & Hx & Hd & Hp & Hbp & He); [rewrite Ei; by apply list_elem_of_singleton |].
    assert (Hedge : edge_to ir (edge_src x) bb) by (by exists bp, e, x).
    assert (Hall : Forall (fun m => mv_pred m = edge_src x /\ mv_succ m = bb /\ named_move vm m) (reverse (entering ir1 bb mv))).
    { apply Forall_reverse; by apply entering_edge. }
    destruct (run_copies _ _ vm ir' Hmap sizes (edge_src x) bb (reverse (entering ir1 bb mv)) l ρ2 w Hall) as (ρ2' & E & Hother & Hset).
    exists ρ2'; split; [done |]; intros r [Hr | (v & Hv & Hlv)] Hc.
    + rewrite name_not_vreg by done; rewrite Hother; [apply Ha; by left |]; intros m Hm ->.
      rewrite Forall_forall in Hall; destruct (Hall m Hm) as (_ & Hs & [_ Hns]); rewrite Hs in Hns.
      apply (map_ok_vreg _ _ _ _ _ _ Hmap) in Hns; congruence.
    + destruct (edge_named _ _ v Hp Hedge Hlv) as (Hm & _).
      rewrite (name_vreg _ _ _ _ Hv), (vreg_of_inv _ _ Hv), (Hl v Hlv (edge_src x) Hp Hedge); symmetry; refine (Hset {| mv_vreg := v |} _).
      apply elem_of_reverse, elem_of_entering; done.
  - assert (entering ir1 bb mv = []) as ->.
    { destruct (entering ir1 bb mv) as [| m ms] eqn:Ee; [done |]; assert (m ∈ entering ir1 bb mv) as Hm by (rewrite Ee; apply elem_of_cons; by left).
      apply elem_of_entering in Hm as (_ & _ & ?); congruence. }
    exists ρ2; split; [done |]; intros r [Hr | (v & Hv & Hlv)] Hc.
    + rewrite name_not_vreg by done; apply Ha; by left.
    + rewrite (name_vreg _ _ _ _ Hv), (vreg_of_inv _ _ Hv); by apply Hl.
Qed.

(** The state at the end of a block is the state its successors expect. *)
Lemma leave_block bb (T : nat -> Prop) (ρ1 ρ2 : MachineReg -> V) (w : W) l :
  bb ∈ bb_list ir -> ren_agree vm bb T ρ1 ρ2 -> (forall v, lives_after bb v -> T v) ->
  exists ρ2', run_insns (map (copy_of sizes vm) (leaving ir1 bb mv) ++ l) ρ2 w = run_insns l ρ2' w /\
    ren_agree vm bb T ρ1 ρ2' /\ forall t, edge_to ir bb t -> entry_agree t ρ1 ρ2'.
Proof.
  intros Hbb Ha HT; pose proof (rn_map _ _ _ _ _ _ Hren) as Hmap.
  assert (Hval : forall t v, edge_to ir bb t -> lives ir v t -> ρ1 (vreg_of v) = ρ2 (name_of vm bb v)).
  { intros t v He Hv; destruct (edge_named _ _ v Hbb He Hv) as (_ & Hn & _); rewrite (Ha (vreg_of v)).
    - by rewrite (name_vreg _ _ _ _ (vreg_of_index v)).
    - right; exists v; split; [apply vreg_of_index |]; apply HT; by exists t.
    - by apply (covers_name _ _ _ _ (vreg_of_index v)). }
  assert (Hin : forall t, edge_to ir bb t -> t ∈ bb_list ir) by (intros t He; by apply (edge_in ir Hwf bb)).
  destruct (leaving ir1 bb mv) as [| m0 ms] eqn:El.
  - exists ρ2; conjs; [done | done |]; intros t He; split; [by apply Hin |]; split; [by eapply ren_agree_none |]; intros v Hv.
    destruct (single ir t) eqn:Es.
    + intros p Hp Hep; assert (p = bb) as -> by (by eapply single_pred); by eapply Hval.
    + destruct (edge_named _ _ v Hbb He Hv) as (Hm & _); exfalso; apply (not_elem_of_nil {| mv_pred := bb; mv_succ := t; mv_vreg := v |}).
      rewrite <- El; apply elem_of_leaving; done.
  - assert (m0 ∈ leaving ir1 bb mv) as Hm0 by (rewrite El; apply elem_of_cons; by left).
    apply elem_of_leaving in Hm0 as (Hm0 & Hp0 & Hs0); destruct (proj1 (rn_moves _ _ _ _ _ _ Hren m0) Hm0) as (_ & He0 & _); rewrite Hp0 in He0.
    set (s := mv_succ m0) in *; pose proof (leaving_edge bb s He0 Hs0) as Hall; rewrite <- El.
    destruct (run_copies _ _ vm ir' Hmap sizes bb s (leaving ir1 bb mv) l ρ2 w Hall) as (ρ2' & E & Hother & Hset).
    assert (Hkeep : ren_agree vm bb T ρ1 ρ2').
    { intros r Hr Hc; rewrite (Ha r Hr Hc); symmetry; eapply run_copies_other; eauto. }
    exists ρ2'; conjs; [done | done |]; intros t He; assert (t = s) as -> by (by eapply only_succ).
    split; [by apply Hin |]; split; [by eapply ren_agree_none |]; intros v Hv; rewrite Hs0.
    destruct (edge_named _ _ v Hbb He0 Hv) as (Hm & _); rewrite (Hval s v He0 Hv); symmetry; refine (Hset {| mv_vreg := v |} _).
    by apply elem_of_leaving.
Qed.

Lemma needed_lives bb b v : blocks ir !! bb = Some b -> needed (lives_after bb) (insn_list b) v -> lives ir v bb.
Proof. intros Hb [Hr | [Hn (s & He & Hl)]]; [by eapply lives_here | by eapply lives_later]. Qed.

(** A fault finds the registers of the recovery block. *)
Lemma recovery_agree bb b pre i rest t (ρ1 ρ2 : MachineReg -> V) :
  bb ∈ bb_list ir -> blocks ir !! bb = Some b -> insn_list b = pre ++ i :: rest -> recovery_bb i = Some t ->
  ren_agree vm bb (needed (lives_after bb) (i :: rest)) ρ1 ρ2 -> entry_agree t ρ1 ρ2.
Proof.
  intros Hbb Hb Hl Ht Ha; assert (Hi : i ∈ insn_list b) by (rewrite Hl; apply elem_of_app; right; apply elem_of_cons; by left).
  destruct (recovery_single ir Hwf bb b i t Hbb Hb Hi Ht) as [He Hs]; split; [by apply (edge_in ir Hwf bb) |]; split; [by eapply ren_agree_none |].
  intros v Hv; rewrite Hs; intros p Hp Hep; assert (p = bb) as -> by (by eapply single_pred).
  destruct (edge_named _ _ v Hbb He Hv) as (_ & Hn & _); rewrite (Ha (vreg_of v)).
  - by rewrite (name_vreg _ _ _ _ (vreg_of_index v)).
  - right; exists v; split; [apply vreg_of_index |]; right; split; [by eapply Hclean | by exists t].
  - by apply (covers_name _ _ _ _ (vreg_of_index v)).
Qed.

Lemma block_sim bb (ρ1 ρ2 : MachineReg -> V) :
  entry_agree bb ρ1 ρ2 -> exists b b', blocks ir !! bb = Some b /\ blocks ir' !! bb = Some b' /\
    forall w : W, matching entry_agree (run_insns (insn_list b) ρ1 w) (run_insns (insn_list b') ρ2 w).
Proof.
  intros Hea; pose proof Hea as (Hbb & _); destruct (wg_block _ Hwf bb Hbb) as (b & Hb & Hok).
  destruct (bo_last _ _ _ Hok) as (l & j & Hl & Hj & Hf & Hrb & Hpc & _).
  destruct (rn_block _ _ _ _ _ _ Hren bb b l j Hbb Hb Hl) as (b' & Hb' & Hcl & Hcj & Hl' & _); exists b, b'; conjs; [done | done |]; intros w.
  rewrite Hl', Hl; destruct (enter_block bb ρ1 ρ2 w (map (rename_with vm bb) l ++ map (copy_of sizes vm) (leaving ir1 bb mv) ++ [rename_with vm bb j]) Hea) as (ρ2a & -> & Ha).
  assert (Ha0 : ren_agree vm bb (needed (lives_after bb) (l ++ [j])) ρ1 ρ2a).
  { eapply ren_agree_sub; [| exact Ha]; intros v; rewrite <- Hl; by apply needed_lives. }
  destruct (renamed_prefix _ _ vm ir' (rn_map _ _ _ _ _ _ Hren) bb (lives_after bb) l [j] ρ1 ρ2a w [j]
    (map (copy_of sizes vm) (leaving ir1 bb mv) ++ [rename_with vm bb j]) Hcl Hf Ha0)
    as [(e & pre & i & rest & ρ1' & ρ2' & w' & Hpre & -> & -> & Hrec & Ha') | (ρ1' & ρ2' & w' & -> & -> & Ha')].
  - split; [done |]; split; [done |]; cbn [fst]; destruct e as [t | | | |]; try (by eapply ren_agree_none).
    eapply (recovery_agree bb b pre i (rest ++ [j])); try done; [by rewrite Hl, Hpre, <- app_assoc | by apply Hrec].
  - assert (Hwj : forall v, ~ writes j v).
    { intros v (r & k & Ho & Hk & _); destruct (Htr bb b j Hbb Hb) as [_ Hnw]; [rewrite Hl; apply elem_of_app; right; by apply list_elem_of_singleton | done |].
      apply (Hnw r); by exists k. }
    destruct (leave_block bb _ ρ1' ρ2' w' [rename_with vm bb j] Hbb Ha') as (ρ2b & -> & Hb2 & Hnext).
    { intros v Hv; right; cbn; split; [split; [apply Hwj | done] | done]. }
    assert (Hr : forall v, reads j v -> needed (lives_after bb) [j] v) by (intros v Hv; left; by left).
    cbn [run_insns]; rewrite (fault_renamed vm bb _ j ρ1' ρ2b w' Hcj Hb2 Hr), (transfer_renamed vm bb _ j ρ1' ρ2b Hcj Hb2 Hr).
    assert (fault_of j ρ1' w' = None) as ->.
    { unfold fault_of; rewrite Hrb, Hpc, Z.eqb_refl; by destruct (insn_faults _ _ _ _). }
    destruct (proj2 (transfer_control j ρ1') Hj) as [e Et]; rewrite Et; split; [done |]; split; [done |]; cbn [fst].
    destruct e as [t | | | |]; try (by eapply ren_agree_none); apply Hnext.
    eapply (successor_edge ir Hwf); [done | done | | by eapply transfer_goto]; rewrite Hl; apply elem_of_app; right; by apply list_elem_of_singleton.
Qed.

(** From a block that no register lives into, from every state. *)
Lemma renames_same_runs bb (ρ : MachineReg -> V) (w : W) : bb ∈ bb_list ir -> (forall v, ~ lives ir v bb) -> same_runs ir ir' bb bb ρ ρ w.
Proof.
  intros Hbb Hn; apply (lockstep ir ir' entry_agree); [apply block_sim |]; split; [done |]; split; [apply agree_refl |]; intros v Hv; by apply Hn in Hv.
Qed.

End Sim.
End Renamed.
