(* ===== verification/RenameVRegsLive.v ===== *)
(** * The live-out sets that renaming makes

    [RenameVRegs] records in [live_out] the registers that its copies hand over:
    they solve the equations of liveness of the renamed graph, which the passes
    that follow rely on. *)
From stdpp Require Import gmap list.
From S2P Require Import Prelude MachineIR Lifetime LifetimeAnalysis Liveness MachineIRCheck MachineSem DeadCode BlockOrder ControlFlow RenameCopyUses RenameVRegs RenameVRegsProps RenameVRegsConnect RenameVRegsSim.
#[local] Open Scope Z_scope.

(** ** Lists of instructions *)

Lemma never_written_forall l v : never_written l v <-> forall i, i ∈ l -> ~ writes i v.
Proof.
  induction l as [| i l IH]; cbn [never_written]; [split; [by intros _ i ?%not_elem_of_nil | done] |]; rewrite IH; split.
  - intros [Hi Hl] x [-> | Hx]%elem_of_cons; auto.
  - intros Hall; split; [apply Hall, elem_of_cons; by left | intros x Hx; apply Hall, elem_of_cons; by right].
Qed.

Lemma needed_cons Out i l v : needed Out (i :: l) v <-> reads i v \/ ~ writes i v /\ needed Out l v.
Proof. unfold needed; cbn [read_first never_written]; tauto. Qed.

Lemma needed_app Out l l' v : needed Out (l ++ l') v -> (exists i, i ∈ l /\ reads i v) \/ never_written l v /\ needed Out l' v.
Proof.
  induction l as [| i l IH]; cbn [app]; [by right |]; intros [Hr | [Hw Hn]]%needed_cons; [left; exists i; split; [apply elem_of_cons; by left | done] |].
  destruct (IH Hn) as [(x & Hx & ?) | [Hl ?]]; [left; exists x; split; [apply elem_of_cons; by right | done] | right]; done.
Qed.

Lemma split_app {A} (l1 l2 : list A) : forall pre x post,
  pre ++ x :: post = l1 ++ l2 ->
  (exists l3, l1 = pre ++ x :: l3 /\ post = l3 ++ l2) \/ (exists l0, l2 = l0 ++ x :: post).
Proof.
  induction l1 as [| y l1 IH]; intros pre x post; cbn [app]; [right; by exists pre |].
  destruct pre as [| z pre]; cbn [app]; intros [= -> E]; [left; by exists l1 |].
  destruct (IH pre x post E) as [(l3 & -> & ->) | ?]; [left; by exists l3 | by right].
Qed.

(** ** What is read and written under the new names *)

Section Names.
Context (n nb : nat) (vm : VRegMap) (ir' : MachineIR) (Hmap : map_ok n nb vm ir').

(** [x] is the index of the name of [v] in the block. *)
Definition new_index (bb : BlockPtr) (v x : nat) : Prop := has_name vm bb v /\ GetVRegIndex (name_of vm bb v) = Some x.

Lemma new_index_inj bb v bb' v' x : new_index bb v x -> new_index bb' v' x -> bb = bb' /\ v = v'.
Proof. intros [H1 H2] [H3 H4]; eapply name_of_inj; [exact Hmap | done | done | by eapply GetVRegIndex_inj]. Qed.

Lemma operands_new (P : MachineRegKind -> bool) bb i x :
  covers_insn vm bb i ->
  (exists r k, (r, k) ∈ operands (rename_with vm bb i) /\ P k = true /\ GetVRegIndex r = Some x) <->
  exists v, new_index bb v x /\ exists r k, (r, k) ∈ operands i /\ P k = true /\ GetVRegIndex r = Some v.
Proof.
  intros Hc; rewrite operands_rename; split.
  - intros (r & k & Ho & Hk & Hx); apply list_elem_of_In, in_map_iff in Ho as ([r0 k0] & [= <- <-] & Ho%list_elem_of_In).
    destruct (GetVRegIndex r0) as [v |] eqn:Hv.
    + rewrite (name_vreg _ _ _ _ Hv) in Hx; exists v; split; [split; [| done] | by exists r0, k0].
      exact (proj1 (covers_name vm bb r0 v Hv) (covers_operand vm bb i r0 k0 Hc Ho)).
    + rewrite name_not_vreg in Hx by (by apply not_vreg_index); congruence.
  - intros (v & [_ Hx] & r & k & Ho & Hk & Hv); exists (name vm bb r), k; conjs; [| done | by rewrite (name_vreg _ _ _ _ Hv)].
    apply list_elem_of_In, in_map_iff; exists (r, k); split; [done | by apply list_elem_of_In].
Qed.

Lemma reads_renamed bb i x : covers_insn vm bb i -> reads (rename_with vm bb i) x <-> exists v, new_index bb v x /\ reads i v.
Proof. apply operands_new. Qed.
Lemma writes_renamed bb i x : covers_insn vm bb i -> writes (rename_with vm bb i) x <-> exists v, new_index bb v x /\ writes i v.
Proof. apply operands_new. Qed.

Lemma writes_new bb i v x : covers_insn vm bb i -> new_index bb v x -> writes (rename_with vm bb i) x <-> writes i v.
Proof.
  intros Hc Hx; rewrite writes_renamed by done; split; [| by exists v].
  intros (v' & Hx' & Hw); by destruct (new_index_inj _ _ _ _ _ Hx Hx') as [_ ->].
Qed.

Lemma copy_operands sizes m x :
  named_move vm m ->
  (reads (copy_of sizes vm m) x <-> new_index (mv_pred m) (mv_vreg m) x) /\ (writes (copy_of sizes vm m) x <-> new_index (mv_succ m) (mv_vreg m) x).
Proof.
  intros [Hp Hs]; unfold copy_of, reads, writes, new_index; cbn; split; split.
  - intros (r & k & [[= -> ->] | [[= -> ->] | Ho%not_elem_of_nil]%elem_of_cons]%elem_of_cons & Hk & Hx); done.
  - intros [_ Hx]; eexists _, _; split; [apply elem_of_cons; right; apply elem_of_cons; by left | done].
  - intros (r & k & [[= -> ->] | [[= -> ->] | Ho%not_elem_of_nil]%elem_of_cons]%elem_of_cons & Hk & Hx); done.
  - intros [_ Hx]; eexists _, _; split; [apply elem_of_cons; by left | done].
Qed.

Lemma successors_copy sizes m : successors (copy_of sizes vm m) = [].
Proof. done. Qed.
Lemma successors_rename bb i : successors (rename_with vm bb i) = successors i.
Proof. done. Qed.

Lemma new_index_in_range bb v x : new_index bb v x -> (x < num_vreg ir')%nat.
Proof.
  intros [(q & Hq & Hn) Hx]; unfold name_of in Hx; rewrite Hq in Hx; cbn in Hx.
  destruct (mo_reg _ _ _ _ Hmap bb v q Hq Hn) as (y & Hy & _ & ?); congruence.
Qed.

Lemma name_in_range bb v : has_name vm bb v -> reg_in (num_vreg ir') (name_of vm bb v).
Proof. intros Hn x Hx; by apply (new_index_in_range bb v). Qed.

Lemma covered_in_range bb r : covers vm bb r -> reg_in (num_vreg ir') (name vm bb r).
Proof.
  intros Hc; destruct (GetVRegIndex r) as [v |] eqn:Hv.
  - rewrite (name_vreg _ _ _ _ Hv); apply name_in_range; exact (proj1 (covers_name _ _ _ _ Hv) Hc).
  - rewrite name_not_vreg by (by apply not_vreg_index); intros x Hx; congruence.
Qed.

End Names.

(** ** The renamed graph *)

Section Renamed.
Context (ir ir1 : MachineIR) (sizes : list Z) (mv : list move) (vm : VRegMap) (ir' : MachineIR).
Context (Hwf : wf_graph ir) (Hcrit : critical_free ir) (Hren : renames ir ir1 sizes mv vm ir').
Context (Htr : forall bb b i, bb ∈ bb_list ir -> blocks ir !! bb = Some b -> i ∈ insn_list b -> transfer_ok i).
Context (Hclean : recovery_clean ir).
Context (Hempty : forall bb b, bb ∈ bb_list ir -> blocks ir !! bb = Some b -> live_out b = []).

(** The parts of a renamed block. *)
Record parts (bb : BlockPtr) (b : MachineBasicBlock) (l : list MachineInsn) (j : MachineInsn) (b' : MachineBasicBlock) : Prop := {
  pt_block : blocks ir !! bb = Some b;
  pt_list : insn_list b = l ++ [j];
  pt_covers : Forall (covers_insn vm bb) l;
  pt_covers_last : covers_insn vm bb j;
  pt_inner : Forall (fun i => IsControlTransfer i = false) l;
  pt_last : forall v, ~ writes j v;
  pt_insns : insn_list b' = map (copy_of sizes vm) (reverse (entering ir1 bb mv)) ++ map (rename_with vm bb) l ++
    map (copy_of sizes vm) (leaving ir1 bb mv) ++ [rename_with vm bb j];
  pt_live_out : live_out b' = map (crossing ir1 vm) (from bb mv);
  pt_edges : in_edges b' = in_edges b /\ out_edges b' = out_edges b
}.

Lemma renamed_parts bb b' : bb ∈ bb_list ir -> blocks ir' !! bb = Some b' -> exists b l j, parts bb b l j b'.
Proof.
  intros Hbb Hb'; destruct (wg_block _ Hwf bb Hbb) as (b & Hb & Hok); destruct (bo_last _ _ _ Hok) as (l & j & Hl & Hj & Hf & _).
  destruct (rn_block _ _ _ _ _ _ Hren bb b l j Hbb Hb Hl) as (b1 & Hb1 & Hc & Hcj & Hi & Hlo & Hes); assert (b1 = b') as -> by congruence.
  exists b, l, j; split; try done; [| by rewrite Hlo, (Hempty bb b Hbb Hb)].
  intros v (r & k & Ho & Hk & _); destruct (Htr bb b j Hbb Hb) as [_ Hnw]; [rewrite Hl; apply elem_of_app; right; by apply list_elem_of_singleton | done |].
  apply (Hnw r); by exists k.
Qed.

Lemma elem_of_from m bb : m ∈ from bb mv <-> m ∈ mv /\ mv_pred m = bb.
Proof. unfold from; rewrite list_elem_of_filter; tauto. Qed.

Lemma lives_out_moves bb b l j b' x :
  parts bb b l j b' -> lives_out b' x <-> exists m, m ∈ mv /\ mv_pred m = bb /\ new_index vm (if single ir (mv_succ m) then bb else mv_succ m) (mv_vreg m) x.
Proof.
  intros Hp; unfold lives_out; rewrite (pt_live_out _ _ _ _ _ Hp); unfold crossing; split.
  - intros (r & Hr & Hx); apply list_elem_of_In, in_map_iff in Hr as (m & <- & Hm%list_elem_of_In); apply elem_of_from in Hm as [Hm <-]; exists m.
    rewrite (rn_single _ _ _ _ _ _ Hren) in Hx; conjs; try done; split; [| done]; destruct (move_named _ _ _ _ _ _ Hren m Hm); by destruct (single ir _).
  - intros (m & Hm & <- & _ & Hx); exists (crossing ir1 vm m); unfold crossing; rewrite (rn_single _ _ _ _ _ _ Hren); split; [| done].
    apply list_elem_of_In, in_map_iff; exists m; split; [by rewrite (rn_single _ _ _ _ _ _ Hren) |]; by apply list_elem_of_In, elem_of_from.
Qed.

(** What the code after the entry copies needs lives into the block. *)
Lemma tail_needed bb b l j b' x :
  bb ∈ bb_list ir -> parts bb b l j b' ->
  needed (lives_out b') (map (rename_with vm bb) l ++ map (copy_of sizes vm) (leaving ir1 bb mv) ++ [rename_with vm bb j]) x ->
  exists u, new_index vm bb u x /\ needed (lives_after ir bb) (l ++ [j]) u.
Proof.
  intros Hbb Hp; pose proof (rn_map _ _ _ _ _ _ Hren) as Hmap.
  enough (Hgen : forall l0, Forall (covers_insn vm bb) l0 ->
    needed (lives_out b') (map (rename_with vm bb) l0 ++ map (copy_of sizes vm) (leaving ir1 bb mv) ++ [rename_with vm bb j]) x ->
    exists u, new_index vm bb u x /\ needed (lives_after ir bb) (l0 ++ [j]) u) by (apply Hgen, Hp).
  induction 1 as [| i l0 Hci _ IH]; cbn [map app].
  - assert (Hout : forall m, m ∈ mv -> mv_pred m = bb -> needed (lives_after ir bb) [j] (mv_vreg m)).
    { intros m Hm Hpm; right; split; [cbn; split; [apply (pt_last _ _ _ _ _ Hp) | done] |].
      destruct (proj1 (rn_moves _ _ _ _ _ _ Hren m) Hm) as (_ & He & Hl); rewrite Hpm in He; by exists (mv_succ m). }
    intros [(c & Hcin & Hr) | [Hnw Hn]]%needed_app.
    + apply list_elem_of_In, in_map_iff in Hcin as (m & <- & Hm%list_elem_of_In); apply (elem_of_leaving _ _ _ _ _ _ Hren) in Hm as (Hm & Hpm & _).
      apply (copy_operands vm sizes m x (move_named _ _ _ _ _ _ Hren m Hm)) in Hr; exists (mv_vreg m); rewrite <- Hpm at 1; auto.
    + apply needed_cons in Hn as [Hr | [_ [Hn | [_ Hlo]]]]; [| done |].
      * apply reads_renamed in Hr as (u & Hu & Hr); [| apply Hp]; exists u; split; [done |]; left; by left.
      * apply (lives_out_moves _ _ _ _ _ x Hp) in Hlo as (m & Hm & Hpm & Hx); destruct (single ir (mv_succ m)) eqn:Es; [exists (mv_vreg m); auto |].
        exfalso; rewrite never_written_forall in Hnw; apply (Hnw (copy_of sizes vm m)).
        { apply list_elem_of_In, in_map_iff; exists m; split; [done |]; by apply list_elem_of_In, (elem_of_leaving _ _ _ _ _ _ Hren). }
        by apply (copy_operands vm sizes m x (move_named _ _ _ _ _ _ Hren m Hm)).
  - intros [Hr | [Hw Hn]]%needed_cons.
    + apply reads_renamed in Hr as (u & Hu & Hr); [| done]; exists u; split; [done |]; left; by left.
    + destruct (IH Hn) as (u & Hu & Hnu); exists u; split; [done |]; apply needed_cons; right; split; [| done].
      intros Hwu; apply Hw; by apply (writes_new _ _ vm ir' Hmap bb i u x).
Qed.

Lemma single_has_pred t : t ∈ bb_list ir -> single ir t = true -> exists p, p ∈ bb_list ir /\ edge_to ir p t.
Proof.
  intros Ht Hs; destruct (wg_block _ Hwf t Ht) as (b & Hb & Hok); apply (single_spec ir t b Hb) in Hs.
  destruct (in_edges b) as [| e es] eqn:Ei; [done |]; destruct (bo_in _ _ _ Hok e) as (x & bp & Hx & Hd & Hp & Hbp & He); [rewrite Ei; apply elem_of_cons; by left |].
  exists (edge_src x); split; [done |]; by exists bp, e, x.
Qed.

(** What lives into a renamed block is a register that lives into the block,
    under the name of the only predecessor or of the block. *)
Lemma entry_needed t d' x :
  t ∈ bb_list ir -> blocks ir' !! t = Some d' -> lives_in d' x ->
  exists u, lives ir u t /\ if single ir t then exists p, p ∈ bb_list ir /\ edge_to ir p t /\ new_index vm p u x else new_index vm t u x.
Proof.
  intros Ht Hd'; destruct (renamed_parts t d' Ht Hd') as (d & l & j & Hp); unfold lives_in; rewrite (pt_insns _ _ _ _ _ Hp).
  intros Hn; apply needed_app in Hn as [(c & Hc & Hr) | [Hnw Hn]].
  - apply list_elem_of_In, in_map_iff in Hc as (m & <- & Hm%list_elem_of_In); apply elem_of_reverse, (elem_of_entering _ _ _ _ _ _ Hren) in Hm as (Hm & Hs & Hsg).
    apply (copy_operands vm sizes m x (move_named _ _ _ _ _ _ Hren m Hm)) in Hr; destruct (proj1 (rn_moves _ _ _ _ _ _ Hren m) Hm) as (Hpm & He & Hl).
    rewrite Hs in He, Hl; exists (mv_vreg m); rewrite Hsg; split; [done |]; by exists (mv_pred m).
  - destruct (tail_needed t d l j d' x Ht Hp Hn) as (u & Hu & Hlu); rewrite <- (pt_list _ _ _ _ _ Hp) in Hlu.
    apply (needed_lives ir t d u (pt_block _ _ _ _ _ Hp)) in Hlu; exists u; split; [done |]; destruct (single ir t) eqn:Es; [| done].
    exfalso; destruct (single_has_pred t Ht Es) as (p & Hpp & He); destruct (edge_named _ _ _ _ _ _ Hren p t u Hpp He Hlu) as (Hm & _).
    rewrite never_written_forall in Hnw; apply (Hnw (copy_of sizes vm {| mv_pred := p; mv_succ := t; mv_vreg := u |})).
    + apply list_elem_of_In, in_map_iff; eexists; split; [done |]; apply list_elem_of_In, elem_of_reverse; by apply (elem_of_entering _ _ _ _ _ _ Hren).
    + by apply (copy_operands vm sizes _ x (move_named _ _ _ _ _ _ Hren _ Hm)).
Qed.

(** An instruction of a renamed block is a copy or a renamed instruction. *)
Lemma renamed_insn bb b l j b' i' :
  parts bb b l j b' -> i' ∈ insn_list b' ->
  (exists m, m ∈ mv /\ i' = copy_of sizes vm m) \/ (exists i, i ∈ insn_list b /\ covers_insn vm bb i /\ i' = rename_with vm bb i).
Proof.
  intros Hp; rewrite (pt_insns _ _ _ _ _ Hp), (pt_list _ _ _ _ _ Hp), !elem_of_app; pose proof (pt_covers _ _ _ _ _ Hp) as Hc; rewrite Forall_forall in Hc.
  intros [Hi | [Hi | [Hi | ->%list_elem_of_singleton]]].
  - apply list_elem_of_In, in_map_iff in Hi as (m & <- & Hm%list_elem_of_In); apply elem_of_reverse, (elem_of_entering _ _ _ _ _ _ Hren) in Hm as (Hm & _); left; by exists m.
  - apply list_elem_of_In, in_map_iff in Hi as (i & <- & Hi%list_elem_of_In); right; exists i; conjs; [apply elem_of_app; by left | by apply Hc | done].
  - apply list_elem_of_In, in_map_iff in Hi as (m & <- & Hm%list_elem_of_In); apply (elem_of_leaving _ _ _ _ _ _ Hren) in Hm as (Hm & _); left; by exists m.
  - right; exists j; conjs; [apply elem_of_app; right; by apply list_elem_of_singleton | apply Hp | done].
Qed.

(** A successor is reached from the last instruction or from one that may fault. *)
Lemma renamed_successor bb b l j b' pre i' post t :
  parts bb b l j b' -> insn_list b' = pre ++ i' :: post -> t ∈ successors i' ->
  (i' = rename_with vm bb j /\ post = [] /\ t ∈ successors j) \/
  (exists l1 i l2, l = l1 ++ i :: l2 /\ i' = rename_with vm bb i /\ recovery_bb i = Some t /\
     post = map (rename_with vm bb) l2 ++ map (copy_of sizes vm) (leaving ir1 bb mv) ++ [rename_with vm bb j]).
Proof.
  intros Hp Hl Ht; rewrite (pt_insns _ _ _ _ _ Hp) in Hl; symmetry in Hl.
  assert (Hnocopy : forall ms l3, map (copy_of sizes vm) ms = pre ++ i' :: l3 -> False).
  { intros ms l3 E; assert (i' ∈ map (copy_of sizes vm) ms) as Hi by (rewrite E; apply elem_of_app; right; apply elem_of_cons; by left).
    apply list_elem_of_In, in_map_iff in Hi as (m & <- & _); by apply not_elem_of_nil in Ht. }
  apply split_app in Hl as [(l3 & E & _) | (l0 & Hl)]; [by destruct (Hnocopy _ _ E) |]; symmetry in Hl; clear Hnocopy.
  apply split_app in Hl as [(l3 & E & ->) | (l1 & Hl)].
  - right; apply map_eq_app in E as (l1 & l2 & -> & _ & E); destruct l2 as [| i l2]; cbn in E; [done |]; injection E as <- <-.
    exists l1, i, l2; conjs; try done; rewrite successors_rename in Ht; unfold successors in Ht.
    pose proof (pt_inner _ _ _ _ _ Hp) as Hf; apply Forall_app in Hf as [_ [Hfi _]%Forall_cons].
    apply elem_of_app in Ht as [Ht | Ht]; [exfalso; revert Ht; unfold targets; unfold IsControlTransfer in Hfi; destruct (data i); try done; apply not_elem_of_nil |].
    destruct (recovery_bb i); [by apply list_elem_of_singleton in Ht as -> | by apply not_elem_of_nil in Ht].
  - symmetry in Hl; apply split_app in Hl as [(l3 & E & _) | (l2 & Hl)].
    + exfalso; assert (i' ∈ map (copy_of sizes vm) (leaving ir1 bb mv)) as Hi by (rewrite E; apply elem_of_app; right; apply elem_of_cons; by left).
      apply list_elem_of_In, in_map_iff in Hi as (m & <- & _); by apply not_elem_of_nil in Ht.
    + left; destruct l2 as [| ? [| ? ?]]; cbn in Hl; [| done | done]; injection Hl as <- <-; done.
Qed.

Lemma renames_next bb b' i' t : bb ∈ bb_list ir -> blocks ir' !! bb = Some b' -> i' ∈ insn_list b' -> t ∈ successors i' -> edge_to ir bb t.
Proof.
  intros Hbb Hb' Hi Ht; destruct (renamed_parts bb b' Hbb Hb') as (b & l & j & Hp).
  destruct (renamed_insn _ _ _ _ _ _ Hp Hi) as [(m & _ & ->) | (i & Hin & _ & ->)]; [by apply not_elem_of_nil in Ht |].
  eapply (successor_edge ir Hwf); [done | apply Hp | done | done].
Qed.

(** The name of a register that lives into a successor lives out of the block. *)
Lemma lives_out_edge bb b l j b' t u x :
  bb ∈ bb_list ir -> parts bb b l j b' -> edge_to ir bb t -> lives ir u t -> new_index vm (if single ir t then bb else t) u x -> lives_out b' x.
Proof.
  intros Hbb Hp He Hu Hx; apply (lives_out_moves _ _ _ _ _ x Hp); exists {| mv_pred := bb; mv_succ := t; mv_vreg := u |}.
  conjs; [by apply (edge_named _ _ _ _ _ _ Hren) | done | done].
Qed.

Lemma renames_live bb b' pre i' post t d' x :
  bb ∈ bb_list ir -> blocks ir' !! bb = Some b' -> insn_list b' = pre ++ i' :: post -> t ∈ successors i' -> blocks ir' !! t = Some d' -> lives_in d' x ->
  lives_out b' x /\ never_written (i' :: post) x.
Proof.
  intros Hbb Hb' Hl Ht Hd' Hx; destruct (renamed_parts bb b' Hbb Hb') as (b & l & j & Hp); pose proof (rn_map _ _ _ _ _ _ Hren) as Hmap.
  assert (He : edge_to ir bb t) by (eapply renames_next; [done | exact Hb' | rewrite Hl; apply elem_of_app; right; apply elem_of_cons; by left | done]).
  destruct (entry_needed t d' x (edge_in ir Hwf bb t Hbb He) Hd' Hx) as (u & Hu & Hnew).
  assert (Hnew' : new_index vm (if single ir t then bb else t) u x).
  { destruct (single ir t) eqn:Es; [| done]; destruct Hnew as (p & Hpp & Hpe & Hpu); by assert (p = bb) as -> by (by eapply single_pred). }
  split; [by eapply lives_out_edge |]; apply never_written_forall.
  destruct (renamed_successor _ _ _ _ _ _ _ _ t Hp Hl Ht) as [(-> & -> & _) | (l1 & i & l2 & -> & -> & Hrec & ->)].
  - intros k ->%list_elem_of_singleton Hw; apply writes_renamed in Hw as (v & _ & Hw); [| apply Hp]; by apply (pt_last _ _ _ _ _ Hp v).
  - assert (Hi : i ∈ insn_list b) by (rewrite (pt_list _ _ _ _ _ Hp), <- app_assoc; apply elem_of_app; right; apply elem_of_cons; by left).
    destruct (recovery_single ir Hwf bb b i t Hbb (pt_block _ _ _ _ _ Hp) Hi Hrec) as [_ Hs]; rewrite Hs in Hnew'.
    assert (Hnw : never_written (i :: l2 ++ [j]) u).
    { eapply (Hclean bb b l1); [done | apply Hp | | exact Hrec | done]; by rewrite (pt_list _ _ _ _ _ Hp), <- app_assoc. }
    rewrite never_written_forall in Hnw; pose proof (pt_covers _ _ _ _ _ Hp) as Hc; rewrite Forall_forall in Hc.
    assert (Hren_i : forall k, k ∈ i :: l2 ++ [j] -> covers_insn vm bb k -> ~ writes (rename_with vm bb k) x).
    { intros k Hk Hck Hw; apply (Hnw k Hk); by apply (writes_new _ _ vm ir' Hmap bb k u x). }
    intros k [-> | [Hk | [Hk | ->%list_elem_of_singleton]%elem_of_app]%elem_of_app]%elem_of_cons.
    + apply Hren_i; [apply elem_of_cons; by left |]; apply Hc, elem_of_app; right; apply elem_of_cons; by left.
    + apply list_elem_of_In, in_map_iff in Hk as (k0 & <- & Hk%list_elem_of_In); apply Hren_i; [apply elem_of_cons; right; apply elem_of_app; by left |].
      apply Hc, elem_of_app; right; apply elem_of_cons; by right.
    + apply list_elem_of_In, in_map_iff in Hk as (m & <- & Hm%list_elem_of_In); apply (elem_of_leaving _ _ _ _ _ _ Hren) in Hm as (Hm & Hpm & Hsm).
      destruct (proj1 (rn_moves _ _ _ _ _ _ Hren m) Hm) as (_ & Hem & _); rewrite Hpm in Hem.
      assert (t = mv_succ m) as -> by (by eapply only_succ); congruence.
    + apply Hren_i; [apply elem_of_cons; right; apply elem_of_app; right; by apply list_elem_of_singleton | apply Hp].
Qed.

Lemma renames_live_out_ok : live_out_ok ir'.
Proof.
  pose proof (rn_list _ _ _ _ _ _ Hren) as Hlist; split; rewrite Hlist.
  - intros bb b' pre i' post t Hbb Hb' Hl Ht; apply (edge_in ir Hwf bb t Hbb); eapply renames_next; [done | exact Hb' | | exact Ht].
    rewrite Hl; apply elem_of_app; right; apply elem_of_cons; by left.
  - intros bb b' pre i' post t d' x; apply renames_live.
  - intros bb b' i' Hbb Hb' Hi Hct; destruct (renamed_parts bb b' Hbb Hb') as (b & l & j & Hp).
    destruct (renamed_insn _ _ _ _ _ _ Hp Hi) as [(m & _ & ->) | (i & Hin & _ & ->)]; [done |].
    destruct (Htr bb b i Hbb (pt_block _ _ _ _ _ Hp) Hin Hct) as [Hse Hnw]; split; [exact Hse |]; intros r (k & Ho & Hk); rewrite operands_rename in Ho.
    apply list_elem_of_In, in_map_iff in Ho as ([r0 k0] & [= <- <-] & Ho%list_elem_of_In); apply (Hnw r0); by exists k0.
Qed.

Context (Hfit : forall bb, bb ∈ bb_list ir -> exists b, blocks ir !! bb = Some b /\ insns_ok (num_vreg ir) (insn_list b)).

Lemma copy_insn_ok m : m ∈ mv -> proper_copy (copy_of sizes vm m) /\ wf_insn (copy_of sizes vm m) /\
  forall r, r ∈ regs (copy_of sizes vm m) -> reg_in (num_vreg ir') r.
Proof.
  intros Hm; destruct (move_named _ _ _ _ _ _ Hren m Hm) as [Hp Hs]; conjs; [split; [| done] | done |].
  - intros _; conjs; [done | done |]; eexists _, _, _; done.
  - intros r [-> | ->%list_elem_of_singleton]%elem_of_cons; eapply name_in_range; try done; apply (rn_map _ _ _ _ _ _ Hren).
Qed.

Lemma rename_insn_ok bb i : proper_copy i -> wf_insn i -> covers_insn vm bb i -> proper_copy (rename_with vm bb i) /\ wf_insn (rename_with vm bb i) /\
  forall r, r ∈ regs (rename_with vm bb i) -> reg_in (num_vreg ir') r.
Proof.
  intros [Hc Hk] Hw Hcov; conjs; [split; [| exact Hk] | |].
  - intros Hd; destruct (Hc Hd) as (H1 & H2 & dst & src & c & Hr & Hks); conjs; [done | done |]; exists (name vm bb dst), (name vm bb src), c; cbn; by rewrite Hr.
  - unfold wf_insn in *; cbn; by rewrite length_map.
  - intros r Hr; cbn in Hr; apply list_elem_of_In, in_map_iff in Hr as (r0 & <- & Hr%list_elem_of_In).
    eapply covered_in_range; [apply (rn_map _ _ _ _ _ _ Hren) | by apply Hcov].
Qed.

Lemma renames_insns_ok bb : bb ∈ bb_list ir -> exists b', blocks ir' !! bb = Some b' /\ insns_ok (num_vreg ir') (insn_list b') /\
  forall r, r ∈ live_out b' -> reg_in (num_vreg ir') r.
Proof.
  intros Hbb; destruct (wg_block _ Hwf bb Hbb) as (b & Hb & Hok); destruct (bo_last _ _ _ Hok) as (l & j & Hl & _).
  destruct (rn_block _ _ _ _ _ _ Hren bb b l j Hbb Hb Hl) as (b' & Hb' & _); exists b'; destruct (renamed_parts bb b' Hbb Hb') as (b0 & l0 & j0 & Hp).
  destruct (Hfit bb Hbb) as (b1 & Hb1 & Hc & Hw & _); rewrite (pt_block _ _ _ _ _ Hp) in Hb1; injection Hb1 as <-; rewrite Forall_forall in Hc, Hw.
  assert (Hall : forall i', i' ∈ insn_list b' -> proper_copy i' /\ wf_insn i' /\ forall r, r ∈ regs i' -> reg_in (num_vreg ir') r).
  { intros i' Hi'; destruct (renamed_insn _ _ _ _ _ _ Hp Hi') as [(m & Hm & ->) | (i & Hi & Hcov & ->)]; [by apply copy_insn_ok |].
    apply rename_insn_ok; auto. }
  split; [done |]; split; [split; [| split] |].
  - apply Forall_forall; intros i' Hi'; by apply Hall.
  - apply Forall_forall; intros i' Hi'; by apply Hall.
  - intros i' r Hi' Hr; by apply (Hall i' Hi').
  - intros r Hr; rewrite (pt_live_out _ _ _ _ _ Hp) in Hr; apply list_elem_of_In, in_map_iff in Hr as (m & <- & Hm%list_elem_of_In); apply elem_of_from in Hm as [Hm _].
    destruct (move_named _ _ _ _ _ _ Hren m Hm); unfold crossing; destruct (single ir1 _); (eapply name_in_range; [apply (rn_map _ _ _ _ _ _ Hren) | done]).
Qed.

Lemma renames_regs_in_range : regs_in_range ir'.
Proof.
  split; rewrite (rn_list _ _ _ _ _ _ Hren).
  - intros bb b' i [r k] Hbb Hb' Hi Ho; destruct (renames_insns_ok bb Hbb) as (b1 & Hb1 & (_ & _ & Hr) & _); assert (b1 = b') as -> by congruence.
    apply (Hr i r Hi); unfold operands in Ho; by apply elem_of_zip_l in Ho.
  - intros bb b' r Hbb Hb' Hr; destruct (renames_insns_ok bb Hbb) as (b1 & Hb1 & _ & Hl); assert (b1 = b') as -> by congruence; by apply Hl.
  - intros bb Hbb; destruct (renames_insns_ok bb Hbb) as (b1 & Hb1 & _); by exists b1.
Qed.

(** *** The graph stays well formed *)

Lemma recoveries_copies ms : recoveries (map (copy_of sizes vm) ms) = [].
Proof. induction ms as [| m ms IH]; [done |]; cbn; apply IH. Qed.
Lemma recoveries_rename bb l : recoveries (map (rename_with vm bb) l) = recoveries l.
Proof. induction l as [| i l IH]; [done |]; unfold recoveries in *; cbn; by rewrite IH. Qed.

Lemma renames_block bb b : bb ∈ bb_list ir -> blocks ir !! bb = Some b -> exists b' l j, blocks ir' !! bb = Some b' /\ parts bb b l j b'.
Proof.
  intros Hbb Hb; destruct (renames_insns_ok bb Hbb) as (b' & Hb' & _); destruct (renamed_parts bb b' Hbb Hb') as (b0 & l & j & Hp).
  assert (b0 = b) as -> by (pose proof (pt_block _ _ _ _ _ Hp); congruence); by exists b', l, j.
Qed.

Lemma renames_block_ok bb b b' l j :
  bb ∈ bb_list ir -> parts bb b l j b' -> block_ok ir' bb b'.
Proof.
  intros Hbb Hp; pose proof (pt_block _ _ _ _ _ Hp) as Hb; destruct (wg_ok _ _ _ Hwf Hbb Hb) as [H1 H2 H3 H4 H5 H6].
  destruct (pt_edges _ _ _ _ _ Hp) as [Ei Eo]; destruct (rn_graph _ _ _ _ _ _ Hren) as (Hl & _ & He & _).
  destruct H5 as (l0 & j0 & Hlj & Hct & Hf & Hrb & Hpc & Hd); rewrite (pt_list _ _ _ _ _ Hp) in Hlj; apply app_inj_tail in Hlj as [<- <-]; split.
  - intros e Hin; rewrite Eo in Hin; destruct (H1 e Hin) as (x & d & Hx & Hs & Ht & Hbd & Hde).
    destruct (renames_block _ d Ht Hbd) as (d' & ld & jd & Hd' & Hpd); exists x, d'; rewrite He, Hl; conjs; try done; by destruct (pt_edges _ _ _ _ _ Hpd) as [-> _].
  - intros e Hin; rewrite Ei in Hin; destruct (H2 e Hin) as (x & d & Hx & Hs & Ht & Hbd & Hde).
    destruct (renames_block _ d Ht Hbd) as (d' & ld & jd & Hd' & Hpd); exists x, d'; rewrite He, Hl; conjs; try done; by destruct (pt_edges _ _ _ _ _ Hpd) as [_ ->].
  - by rewrite Ei.
  - by rewrite Eo.
  - exists (map (copy_of sizes vm) (reverse (entering ir1 bb mv)) ++ map (rename_with vm bb) l ++ map (copy_of sizes vm) (leaving ir1 bb mv)), (rename_with vm bb j).
    conjs; [by rewrite (pt_insns _ _ _ _ _ Hp), !app_assoc | done | | done | done |].
    + rewrite Forall_forall in Hf; rewrite !Forall_app; conjs; apply Forall_forall; intros i Hi; apply list_elem_of_In, in_map_iff in Hi as (y & <- & Hy%list_elem_of_In); [done | exact (Hf y Hy) | done].
    + rewrite Eo, !recoveries_app, !recoveries_copies, recoveries_rename, app_nil_r; unfold dsts; rewrite He; exact Hd.
  - intros t d' Ht Hd'; assert (Ht' : t ∈ recoveries (insn_list b)).
    { rewrite (pt_insns _ _ _ _ _ Hp), !recoveries_app, !recoveries_copies, recoveries_rename in Ht; rewrite (pt_list _ _ _ _ _ Hp), recoveries_app; exact Ht. }
    assert (Htl : t ∈ bb_list ir).
    { apply elem_of_recoveries in Ht' as (i & Hi & Hr); destruct (recovery_single ir Hwf bb b i t Hbb Hb Hi Hr) as [Hedge _]; by apply (edge_in ir Hwf bb). }
    destruct (renamed_parts t d' Htl Hd') as (d & ld & jd & Hpd); destruct (pt_edges _ _ _ _ _ Hpd) as [-> _]; apply (H6 t d Ht'), Hpd.
Qed.

Lemma renames_wf_graph : wf_graph ir'.
Proof.
  destruct (rn_graph _ _ _ _ _ _ Hren) as (Hl & Hn & He & Hne); split; rewrite ?Hl.
  - apply (wg_nodup _ Hwf).
  - intros bb Hbb; destruct (wg_block _ Hwf bb Hbb) as (b & Hb & _); destruct (renames_block bb b Hbb Hb) as (b' & l & j & Hb' & Hp); exists b'; split; [done |]; by eapply renames_block_ok.
  - intros bb Hbb; rewrite Hn; apply (wg_id _ Hwf); by apply (rn_known _ _ _ _ _ _ Hren).
  - intros e; rewrite He, Hne; apply (wg_edge _ Hwf).
  - intros bb b' Hbb Hb'; destruct (renamed_parts bb b' Hbb Hb') as (b & l & j & Hp); destruct (pt_edges _ _ _ _ _ Hp) as [-> ->]; apply (wg_alone _ Hwf bb b Hbb), Hp.
Qed.

End Renamed.
