(* ===== verification/RenameVRegsCorrect.v ===== *)
(** * Renaming of virtual registers is correct

    The result of [RenameVRegs] put together: it ends, its graph computes the
    same, and the passes after it find what they rely on. *)
From stdpp Require Import gmap list.
From S2P Require Import Prelude MachineIR Lifetime LifetimeAnalysis Liveness MachineIRCheck MachineSem DeadCode BlockOrder ControlFlow RenameCopyUses RenameVRegs RenameVRegsProps RenameVRegsConnect RenameVRegsSim RenameVRegsLive.
#[local] Open Scope Z_scope.

(** What [RenameVRegs] relies on: no critical edges, registers that
    [AllocVReg] handed out, room for one register per block and register, and
    blocks whose live-out sets nobody has filled in. *)
Record renameable (ir : MachineIR) : Prop := {
  rb_graph : wf_graph ir;
  rb_critical : critical_free ir;
  rb_blocks : bb_list ir <> [];
  rb_room : room (num_vreg ir) (num_bb ir);
  rb_insns : forall bb, bb ∈ bb_list ir -> exists b, blocks ir !! bb = Some b /\ insns_ok (num_vreg ir) (insn_list b) /\
    Forall transfer_ok (insn_list b) /\ live_out b = [];
  rb_clean : recovery_clean ir
}.

Section Pass.
Context (ir : MachineIR) (Hrb : renameable ir).

Let n := num_vreg ir.
Let nb := num_bb ir.

Lemma renameable_insns bb b : bb ∈ bb_list ir -> blocks ir !! bb = Some b -> insns_ok n (insn_list b) /\ Forall transfer_ok (insn_list b) /\ live_out b = [].
Proof. intros Hbb Hb; destruct (rb_insns _ Hrb bb Hbb) as (b' & Hb' & ?); assert (b' = b) as -> by congruence; done. Qed.

Lemma renameable_cfg : wf_cfg ir.
Proof.
  pose proof (rb_graph _ Hrb) as Hwf; split.
  - intros bb Hbb; destruct (wg_block _ Hwf bb Hbb) as (b & Hb & _); exists b; split; [done |]; apply (wg_id _ Hwf); by exists b.
  - apply (wg_nodup _ Hwf).
  - intros bb b e Hbb Hb He; destruct (bo_out _ _ _ (wg_ok _ _ _ Hwf Hbb Hb) e He) as (x & d & Hx & Hs & Hd & Hbd & Hin); exists x; conjs; try done; by exists d.
  - intros bb b e Hbb Hb He; destruct (bo_in _ _ _ (wg_ok _ _ _ Hwf Hbb Hb) e He) as (x & d & Hx & Hs & Hd & _); by exists x.
  - intros bb b i r k Hbb Hb Hi Ho Hv; destruct (renameable_insns bb b Hbb Hb) as ((_ & _ & Hr) & _).
    apply IsVReg_index in Hv as [v Hv]; exists v; split; [done |]; apply (Hr i r Hi); [| done]; unfold operands in Ho; by apply elem_of_zip_l in Ho.
Qed.

Lemma renameable_positive : (0 < nb)%nat.
Proof.
  pose proof (rb_graph _ Hrb) as Hwf; destruct (bb_list ir) as [| bb l] eqn:El; [by destruct (rb_blocks _ Hrb) |].
  destruct (wg_block _ Hwf bb) as (b & Hb & _); [rewrite El; apply elem_of_cons; by left |].
  unfold nb; specialize (wg_id _ Hwf bb (mk_is_Some _ _ Hb)); lia.
Qed.

(** The graph after [AssignNewVRegs]. *)
Lemma assigned_graph : exists vm1 ir1, AssignNewVRegs (new_VRegMap ir, ir) = Some (vm1, ir1) /\ map_ok n nb vm1 ir1 /\ same_graph_parts ir ir1 /\
  named (bb_list ir) ir vm1 ir1 /\ (forall bb, bb ∉ bb_list ir -> blocks ir1 !! bb = blocks ir !! bb).
Proof.
  pose proof (rb_graph _ Hrb) as Hwf; destruct (AssignNewVRegs_loop n nb (rb_room _ Hrb) ir (bb_list ir) [] (new_VRegMap ir) ir) as (vm1 & ir1 & E & H1 & _ & H2 & H3 & H4).
  - apply (wg_nodup _ Hwf).
  - by apply map_ok_new.
  - done.
  - intros bb Hbb; by apply not_elem_of_nil in Hbb.
  - done.
  - intros bb Hbb; destruct (rb_insns _ Hrb bb Hbb) as (b & Hb & (_ & Hw & Hr) & _); split; [apply (wg_id _ Hwf); by exists b |]; exists b; done.
  - exists vm1, ir1; done.
Qed.

Section Assigned.
Context (vm1 : VRegMap) (ir1 : MachineIR).
Context (Hg : same_graph_parts ir ir1) (Hnm : named (bb_list ir) ir vm1 ir1) (Ho : forall bb, bb ∉ bb_list ir -> blocks ir1 !! bb = blocks ir !! bb).

(** The edges and the sizes of the lists stay. *)
Lemma assigned_block bb : match blocks ir !! bb, blocks ir1 !! bb with
  | Some b, Some b1 => in_edges b1 = in_edges b /\ out_edges b1 = out_edges b /\ live_out b1 = live_out b /\ length (insn_list b1) = length (insn_list b)
  | None, None => True
  | _, _ => False
  end.
Proof.
  destruct (decide (bb ∈ bb_list ir)) as [Hbb | Hbb]; [| rewrite (Ho bb Hbb); by destruct (blocks ir !! bb)].
  destruct (Hnm bb Hbb) as (b & -> & _ & ->); cbn; by rewrite length_map.
Qed.

Lemma assigned_single bb : single ir1 bb = single ir bb.
Proof. unfold single; pose proof (assigned_block bb) as H; destruct (blocks ir !! bb), (blocks ir1 !! bb); try done; by destruct H as [-> _]. Qed.

Lemma assigned_edge p s : edge_to ir1 p s <-> edge_to ir p s.
Proof.
  destruct Hg as (_ & _ & He & _); pose proof (assigned_block p) as H; split; intros (b & e & x & Hb & Hin & Hx & Hd).
  - rewrite Hb in H; destruct (blocks ir !! p) as [b0 |] eqn:E; [| done]; destruct H as (_ & H & _); exists b0, e, x; rewrite <- He, <- H; done.
  - rewrite Hb in H; destruct (blocks ir1 !! p) as [b1 |] eqn:E; [| done]; destruct H as (_ & H & _); exists b1, e, x; rewrite He, H; done.
Qed.

Lemma assigned_movable p b e :
  p ∈ bb_list ir1 -> blocks ir1 !! p = Some b -> e ∈ out_edges b -> exists x, edges ir1 !! e = Some x /\ connectable nb ir1 p (edge_dst x).
Proof.
  pose proof (rb_graph _ Hrb) as Hwf; destruct Hg as (Hl & _ & He & _); rewrite Hl, He; intros Hp Hb Hin.
  pose proof (assigned_block p) as Hpb; rewrite Hb in Hpb; destruct (blocks ir !! p) as [b0 |] eqn:Hb0; [| done]; destruct Hpb as (_ & Hout & _ & Hlen); rewrite Hout in Hin.
  destruct (bo_out _ _ _ (wg_ok _ _ _ Hwf Hp Hb0) e Hin) as (x & d & Hx & Hs & Hd & Hbd & _); exists x; split; [done |].
  assert (Hedge : edge_to ir p (edge_dst x)) by (by exists b0, e, x); split.
  - exists b; conjs; [done | |].
    + destruct (bo_last _ _ _ (wg_ok _ _ _ Hwf Hp Hb0)) as (l & j & Hlj & _); intros Hnil; rewrite Hnil, Hlj, length_app in Hlen; cbn in Hlen; lia.
    + rewrite assigned_single, Hout; intros Hsg; exact (shared_succ ir Hwf (rb_critical _ Hrb) p _ b0 Hp Hedge Hsg Hb0).
  - pose proof (assigned_block (edge_dst x)) as Hdb; rewrite Hbd in Hdb; destruct (blocks ir1 !! edge_dst x); [by eexists | done].
  - split; apply (wg_id _ Hwf); [by exists b0 | by exists d].
Qed.

(** The blocks after the copies, in the parts of the old ones. *)
Lemma joined_parts sizes mv vm bb b l j :
  extends vm1 vm -> bb ∈ bb_list ir -> blocks ir !! bb = Some b -> insn_list b = l ++ [j] ->
  exists b1, blocks ir1 !! bb = Some b1 /\ Forall (covers_insn vm bb) l /\ covers_insn vm bb j /\
    insn_list (joined ir1 sizes mv vm bb b1) = map (copy_of sizes vm) (reverse (entering ir1 bb mv)) ++ map (rename_with vm bb) l ++
      map (copy_of sizes vm) (leaving ir1 bb mv) ++ [rename_with vm bb j] /\
    live_out (joined ir1 sizes mv vm bb b1) = live_out b ++ map (crossing ir1 vm) (from bb mv) /\
    in_edges (joined ir1 sizes mv vm bb b1) = in_edges b /\ out_edges (joined ir1 sizes mv vm bb b1) = out_edges b.
Proof.
  intros He Hbb Hb Hl; destruct (Hnm bb Hbb) as (b0 & Hb0 & Hc & Hb1); assert (b0 = b) as -> by congruence; eexists; split; [exact Hb1 |].
  destruct (map_rename_extends vm1 vm bb (insn_list b) He Hc) as [Hc' Hm]; rewrite Hl in Hc'; apply Forall_app in Hc' as [Hcl [Hcj _]%Forall_cons].
  conjs; [done | done | | done | done | done]; cbn [insn_list joined set_insn_list]; rewrite <- Hm, length_map, Hl, length_app, map_app; cbn [length map].
  rewrite Nat.add_sub, <- (length_map (rename_with vm bb) l), take_app_length, drop_app_length; done.
Qed.

End Assigned.

Lemma RenameVRegs_renames fuel : (run_bound ir <= fuel)%nat ->
  exists ir1 sizes mv vm ir', RenameVRegs fuel ir = Some (true, ir') /\ renames ir ir1 sizes mv vm ir'.
Proof.
  intros Hf; pose proof (rb_graph _ Hrb) as Hwf; destruct (Run_lives ir fuel renameable_cfg renameable_positive Hf) as (live & Erun & [Hll Hlb] & Hlive).
  destruct assigned_graph as (vm1 & ir1 & Eas & Hok1 & Hg & Hnm & Ho); pose proof Hg as (Hl1 & _).
  assert (Hc0 : connected n nb ir1 (max_size vm1) [] vm1 ir1).
  { split; [done | done | done | done |]; intros bb; destruct (blocks ir1 !! bb); [| done]; cbn; by rewrite joined_nil. }
  destruct (connect_all n nb (rb_room _ Hrb) ir1 (max_size vm1) live Hll Hlb) with (st := (vm1, ir1)) as ([vm ir'] & Econ & He & Hc); cbn [fst snd] in *.
  { exact (assigned_movable vm1 ir1 Hg Hnm Ho). }
  { rewrite Hl1; intros p Hp; destruct (Hnm p Hp) as (b & _ & _ & ->); by eexists. }
  { done. }
  exists ir1, (max_size vm1), (all_moves n ir1 live), vm, ir'; split.
  { unfold RenameVRegs; rewrite Erun; cbn [mbind option_bind]; rewrite Eas; cbn [mbind option_bind snd]; by rewrite Econ. }
  destruct (cn_graph _ _ _ _ _ _ _ Hc) as (Hl' & Hn' & He' & Hne'); split.
  - congruence.
  - destruct Hg as (? & ? & ? & ?); unfold same_graph_parts; conjs; congruence.
  - intros bb [b' Hb']; rewrite (cn_blocks _ _ _ _ _ _ _ Hc) in Hb'; pose proof (assigned_block vm1 ir1 Hnm Ho bb) as Hb.
    destruct (blocks ir !! bb); [by eexists |]; by destruct (blocks ir1 !! bb).
  - apply (cn_ok _ _ _ _ _ _ _ Hc).
  - exact (assigned_single vm1 ir1 Hnm Ho).
  - apply (cn_moves _ _ _ _ _ _ _ Hc).
  - intros m; rewrite (elem_of_all_moves n ir1 live Hlb m), Hl1, (assigned_edge vm1 ir1 Hg Hnm Ho); split; intros (Hp & Hpe & Hv); conjs; try done;
      (apply Hlive; [by apply (edge_in ir Hwf (mv_pred m)) | done]).
  - intros bb b l j Hbb Hb Hl; destruct (joined_parts vm1 ir1 Hnm (max_size vm1) (all_moves n ir1 live) vm bb b l j He Hbb Hb Hl) as (b1 & Hb1 & H1 & H2 & H3 & H4 & H5 & H6).
    rewrite (cn_blocks _ _ _ _ _ _ _ Hc), Hb1; eexists; split; [done |]; done.
Qed.

End Pass.

(** ** What follows *)

Section Runs.
Context {V W : Type} `{!MachineSem V W}.

Lemma same_runs_equal (ir ir1 ir2 : MachineIR) bb (ρ ρ' : MachineReg -> V) (w : W) :
  same_runs ir ir1 bb bb ρ ρ' w -> equal_runs (V := V) (W := W) bb ir1 ir2 -> same_runs ir ir2 bb bb ρ ρ' w.
Proof.
  intros [H1 H2] He; split.
  - intros e ρ1 w1 Hr; destruct (H1 e ρ1 w1 Hr) as (ρ2 & Hr2 & ?); exists ρ2; split; [by apply He | done].
  - intros e ρ2 w1 Hr; apply H2; by apply He.
Qed.

Lemma same_runs_trans (ir ir1 ir2 : MachineIR) bb (ρ : MachineReg -> V) (w : W) :
  same_runs ir ir1 bb bb ρ ρ w -> same_runs ir1 ir2 bb bb ρ ρ w -> same_runs ir ir2 bb bb ρ ρ w.
Proof.
  intros [H1 H2] [H3 H4]; split.
  - intros e ρ1 w1 Hr; destruct (H1 e ρ1 w1 Hr) as (ρ2 & Hr2 & Ha); destruct (H3 e ρ2 w1 Hr2) as (ρ3 & ? & ?); exists ρ3; split; [done | by eapply agree_trans].
  - intros e ρ3 w1 Hr; destruct (H4 e ρ3 w1 Hr) as (ρ2 & Hr2 & Ha); destruct (H2 e ρ2 w1 Hr2) as (ρ1 & ? & ?); exists ρ1; split; [done | by eapply agree_trans].
Qed.

End Runs.

Section Correct.
Context {V W : Type} `{!MachineSem V W} `{!MachineSemOk V W}.

(** What the passes after it rely on, and what it keeps. *)
Record renamed_graph (ir ir' : MachineIR) : Prop := {
  rg_list : bb_list ir' = bb_list ir;
  rg_graph : wf_graph ir';
  rg_checked : CheckMachineIR ir' = Some kMachineIRCheckSuccess;
  rg_live_out : live_out_ok ir';
  rg_regs : regs_in_range ir';
  rg_insns : forall bb, bb ∈ bb_list ir' -> exists b, blocks ir' !! bb = Some b /\ insns_ok (num_vreg ir') (insn_list b);
  rg_runs : forall bb (ρ : MachineReg -> V) (w : W), bb ∈ bb_list ir -> (forall v, ~ lives ir v bb) -> same_runs ir ir' bb bb ρ ρ w
}.

Lemma renamed_graph_intro ir fuel : renameable ir -> (run_bound ir <= fuel)%nat ->
  exists ir', RenameVRegs fuel ir = Some (true, ir') /\ renamed_graph ir ir'.
Proof.
  intros Hrb Hf; destruct (RenameVRegs_renames ir Hrb fuel Hf) as (ir1 & sizes & mv & vm & ir' & E & Hren); exists ir'; split; [done |].
  pose proof (rb_graph _ Hrb) as Hwf; pose proof (rb_critical _ Hrb) as Hcrit; pose proof (rb_clean _ Hrb) as Hclean.
  assert (Htr : forall bb b i, bb ∈ bb_list ir -> blocks ir !! bb = Some b -> i ∈ insn_list b -> transfer_ok i).
  { intros bb b i Hbb Hb Hi; destruct (renameable_insns ir Hrb bb b Hbb Hb) as (_ & Ht & _); rewrite Forall_forall in Ht; by apply Ht. }
  assert (Hem : forall bb b, bb ∈ bb_list ir -> blocks ir !! bb = Some b -> live_out b = []) by (intros bb b Hbb Hb; by apply (renameable_insns ir Hrb bb b Hbb Hb)).
  assert (Hfit : forall bb, bb ∈ bb_list ir -> exists b, blocks ir !! bb = Some b /\ insns_ok (num_vreg ir) (insn_list b)).
  { intros bb Hbb; destruct (rb_insns _ Hrb bb Hbb) as (b & ? & ? & _); by exists b. }
  assert (Hwf' : wf_graph ir') by (by eapply (renames_wf_graph ir ir1 sizes mv vm ir')); split.
  - apply (rn_list _ _ _ _ _ _ Hren).
  - done.
  - by apply wf_graph_checked.
  - by eapply (renames_live_out_ok ir ir1 sizes mv vm ir').
  - by eapply (renames_regs_in_range ir ir1 sizes mv vm ir').
  - intros bb Hbb; rewrite (rn_list _ _ _ _ _ _ Hren) in Hbb; destruct (renames_insns_ok ir ir1 sizes mv vm ir' Hwf Hren Htr Hem Hfit bb Hbb) as (b' & ? & ? & _); by exists b'.
  - intros bb ρ w; by eapply (renames_same_runs ir ir1 sizes mv vm ir').
Qed.

End Correct.

(** C13: renaming the virtual registers is correct on every graph that is
    [renameable]: well formed, with blocks, without critical edges, with numbers
    left for a register per block and register, with proper copies and registers
    in range, control transfers that write no register, empty live-out sets, and
    whose recoveries are clean: a register that lives into the recovery block of
    an instruction is written neither by the instruction nor after it in its
    block.  The pass does not check the last one and changes what a graph
    without it computes; the recovery blocks of the frontends
    ([GenRecoveryBlockForLastInsn]) read no register.  On such a graph the pass
    ends within the bound of the liveness analysis and without a failed check,
    gives a graph that the checker accepts, whose registers are in range and
    whose live-out sets solve the equations of liveness, and from every block
    that no virtual register lives into the executions before and after it leave
    the graph in the same way, with the same world and the same values of all
    registers that are not virtual. *)
Theorem RenameVRegs_correct {V W : Type} `{!MachineSem V W} `{!MachineSemOk V W} (ir : MachineIR) (fuel : nat) :
  renameable ir -> (run_bound ir <= fuel)%nat ->
  exists ir', RenameVRegs fuel ir = Some (true, ir') /\ bb_list ir' = bb_list ir /\ wf_graph ir' /\
    CheckMachineIR ir' = Some kMachineIRCheckSuccess /\ live_out_ok ir' /\ regs_in_range ir' /\
    forall bb (ρ : MachineReg -> V) (w : W), bb ∈ bb_list ir -> (forall v, ~ lives ir v bb) -> same_runs ir ir' bb bb ρ ρ w.
Proof.
  intros Hrb Hf; destruct (renamed_graph_intro (V := V) (W := W) ir fuel Hrb Hf) as (ir' & E & [H1 H2 H3 H4 H5 _ H7]); exists ir'; done.
Qed.
