(* ===== verification/OptimizerPipeline.v ===== *)
(** * The passes one after the other

    [RemoveCriticalEdges], [RenameVRegs], [RenameCopyUses] and [RemoveDeadCode] in
    the order of [GenCode] ([src/backend/x86_64/code_gen.cc]): each pass leaves the
    graph as the next one needs it. *)
From stdpp Require Import gmap list.
From S2P Require Import Prelude MachineIR Lifetime LifetimeAnalysis Liveness MachineIRCheck MachineSem DeadCode BlockOrder ControlFlow RenameCopyUses RenameVRegs RenameVRegsProps RenameVRegsConnect RenameVRegsSim RenameVRegsLive RenameVRegsCorrect.
#[local] Open Scope Z_scope.

(** What the frontend hands to [GenCode]: there is room for one register per
    block and register, also when a block is put on every edge. *)
Record prepared (ir : MachineIR) : Prop := {
  pp_graph : wf_graph ir;
  pp_blocks : bb_list ir <> [];
  pp_room : room (num_vreg ir) (num_bb ir + sum_list_with (in_count ir) (bb_list ir));
  pp_insns : forall bb, bb ∈ bb_list ir -> exists b, blocks ir !! bb = Some b /\ insns_ok (num_vreg ir) (insn_list b) /\
    Forall transfer_ok (insn_list b) /\ live_out b = [];
  pp_clean : recovery_clean ir
}.

Lemma room_mono n m m' : (m' <= m)%nat -> room n m -> room n m'.
Proof. unfold room; intros Hm H; assert (m' * n <= m * n)%nat by (by apply Nat.mul_le_mono_r); lia. Qed.

(** *** Branches with other targets *)

Lemma transfer_ok_retarget d i : IsControlTransfer i = true -> transfer_ok i -> transfer_ok (set_data d i).
Proof. intros Hc Ht _; destruct (Ht Hc) as [H1 H2]; split; [exact H1 | exact H2]. Qed.

Lemma proper_copy_retarget d i : IsControlTransfer i = true -> IsControlTransfer (set_data d i) = true -> proper_copy i -> proper_copy (set_data d i).
Proof.
  intros Hc Hd [H1 H2]; split.
  - intros Hp; cbn in Hp; subst; done.
  - intros Hk; specialize (H2 Hk); unfold IsControlTransfer in Hc; by rewrite H2 in Hc.
Qed.

Lemma insns_ok_retarget n l j d :
  IsControlTransfer j = true -> IsControlTransfer (set_data d j) = true -> insns_ok n (l ++ [j]) -> insns_ok n (l ++ [set_data d j]).
Proof.
  intros Hj Hd (H1 & H2 & H3); apply Forall_app in H1 as [H1 [H1j _]%Forall_cons]; apply Forall_app in H2 as [H2 [H2j _]%Forall_cons].
  split; [| split].
  - apply Forall_app; split; [done |]; constructor; [by apply proper_copy_retarget | done].
  - apply Forall_app; split; [done |]; by constructor.
  - intros i r [Hi | ->%list_elem_of_singleton]%elem_of_app Hr; [apply (H3 i) | apply (H3 j)]; try done; apply elem_of_app; [by left | right; by apply list_elem_of_singleton].
Qed.

Section Split.
Context (ir ir' : MachineIR) (Hpp : prepared ir) (Hrt : retargets ir ir') (Hwf' : wf_graph ir') (Hsub : forall y, y ∈ bb_list ir -> y ∈ bb_list ir').

Lemma retargets_insns bb : bb ∈ bb_list ir' -> exists b, blocks ir' !! bb = Some b /\ insns_ok (num_vreg ir') (insn_list b) /\
  Forall transfer_ok (insn_list b) /\ live_out b = [].
Proof.
  intros Hbb; rewrite (rt_vregs _ _ Hrt); destruct (decide (bb ∈ bb_list ir)) as [Hin | Hnin].
  - destruct (pp_insns _ Hpp bb Hin) as (b & Hb & Hok & Ht & Hlo); destruct (rt_old _ _ Hrt bb b Hin Hb) as (b' & l & j & d & Hb' & Hlo' & Hl & Hl' & Hd).
    destruct (bo_last _ _ _ (wg_ok _ _ _ (pp_graph _ Hpp) Hin Hb)) as (l0 & j0 & Hl0 & Hj & _); rewrite Hl in Hl0; apply app_inj_tail in Hl0 as [<- <-].
    exists b'; rewrite Hlo', Hl'; rewrite Hl in Hok, Ht; conjs; [done | by apply insns_ok_retarget | | done].
    apply Forall_app in Ht as [Ht [Htj _]%Forall_cons]; apply Forall_app; split; [done |]; constructor; [by apply transfer_ok_retarget | done].
  - destruct (wg_block _ Hwf' bb Hbb) as (b' & Hb' & _); destruct (rt_new _ _ Hrt bb b' Hbb Hnin Hb') as (Hlo & d & Hl & Hd); exists b'; rewrite Hl.
    assert (Hno : forall r : MachineReg, r ∉ []) by (intros r; apply not_elem_of_nil).
    conjs; [done | split; [| split] | | done].
    + constructor; [split; [| done] | constructor]; intros Hp; cbn in Hp; by subst.
    + by constructor.
    + intros i r ->%list_elem_of_singleton Hr; by apply Hno in Hr.
    + constructor; [| constructor]; intros _; split; [done |]; intros r (k & Ho & _); by apply not_elem_of_nil in Ho.
Qed.

Lemma retargets_clean : recovery_clean ir'.
Proof.
  intros bb b' pre i post t v Hbb Hb' Hl' Ht Hv; destruct (decide (bb ∈ bb_list ir)) as [Hin | Hnin].
  - destruct (wg_block _ (pp_graph _ Hpp) bb Hin) as (b & Hb & Hok); destruct (rt_old _ _ Hrt bb b Hin Hb) as (b1 & l & j & d & Hb1 & _ & Hl & Hl1 & _).
    assert (b1 = b') as -> by congruence; rewrite Hl1 in Hl'; symmetry in Hl'.
    destruct (bo_last _ _ _ Hok) as (l0 & j0 & Hl0 & _ & _ & Hrb & _); rewrite Hl in Hl0; apply app_inj_tail in Hl0 as [<- <-].
    destruct (split_app _ _ _ _ _ Hl') as [(l3 & -> & ->) | (l2 & E)].
    + apply (never_written_retarget (i :: l3)); assert (Hlb : insn_list b = pre ++ i :: l3 ++ [j]) by (by rewrite Hl, <- app_assoc).
      eapply (pp_clean _ Hpp bb b pre i _ t); [done | done | exact Hlb | done |]; apply (rt_lives _ _ Hrt); [| done].
      eapply bo_dst; [exact Hok |]; eapply bo_successors; [exact Hok | rewrite Hlb; apply elem_of_app; right; apply elem_of_cons; by left |].
      unfold successors; rewrite Ht; apply elem_of_app; right; by apply list_elem_of_singleton.
    + exfalso; destruct l2 as [| ? [| ? ?]]; cbn in E; [| done | done]; injection E as <- <-; cbn in Ht; congruence.
  - destruct (rt_new _ _ Hrt bb b' Hbb Hnin Hb') as (_ & d & Hl & _); rewrite Hl in Hl'.
    destruct pre as [| ? [| ? ?]]; cbn in Hl'; [| done | done]; injection Hl' as <- <-; done.
Qed.

Lemma prepared_renameable : critical_free ir' -> (length (bb_list ir') <= critical_fuel ir)%nat -> renameable ir'.
Proof.
  intros Hcf Hlen; split; [done | done | | | apply retargets_insns | apply retargets_clean].
  - destruct (bb_list ir) as [| bb l] eqn:E; [by destruct (pp_blocks _ Hpp) |]; intros Hn; assert (Hin : bb ∈ bb_list ir') by (apply Hsub, elem_of_cons; by left).
    rewrite Hn in Hin; by apply not_elem_of_nil in Hin.
  - rewrite (rt_vregs _ _ Hrt); eapply room_mono; [| apply Hpp]; pose proof (rt_size _ _ Hrt); unfold critical_fuel in Hlen; lia.
Qed.

End Split.

Lemma equal_runs_same {V W : Type} `{!MachineSem V W} (ir ir1 ir2 : MachineIR) bb (ρ ρ' : MachineReg -> V) (w : W) :
  equal_runs (V := V) (W := W) bb ir ir1 -> same_runs ir1 ir2 bb bb ρ ρ' w -> same_runs ir ir2 bb bb ρ ρ' w.
Proof.
  intros He [H1 H2]; split.
  - intros e ρ1 w1 Hr; apply H1; by apply He.
  - intros e ρ2 w1 Hr; destruct (H2 e ρ2 w1 Hr) as (ρ1 & ? & ?); exists ρ1; split; [by apply He | done].
Qed.

