(* ===== verification/OptimizerExamples.v ===== *)
(** * Programs for the optimizer

    A machine whose values and worlds are numbers, checkers for the conditions
    of the passes, and small graphs on which their theorems are applied. *)
From stdpp Require Import gmap list.
From S2P Require Import Prelude MachineIR Lifetime LifetimeAnalysis Liveness MachineIRCheck MachineSem DeadCode BlockOrder ControlFlow Forwarders RenameCopyUses RenameVRegs RenameVRegsProps RenameVRegsConnect RenameVRegsSim RenameVRegsLive RenameVRegsCorrect OptimizerPipeline.
#[local] Open Scope Z_scope.

(** ** A machine *)

(** Copies copy, other instructions write the sum of what they read; an
    instruction without operands counts in the world; the instructions with the
    opcode 1 fault when what they read is zero. *)
Definition sum (vals : list Z) : Z := foldr Z.add 0 vals.

#[export] Instance number_sem : MachineSem Z Z := {|
  exec_insn := fun d ks vals w => (fun n => sum vals + Z.of_nat n, match d, ks with X86Insn _ _ _ _ _ _ _, [] => w + 1 | _, _ => w end);
  insn_faults := fun d ks vals w => match d with X86Insn (GeneratedOpcode 1) _ _ _ _ _ _ => sum vals =? 0 | _ => false end;
  cond_holds := fun c v => v =? 0;
  default_value := 0
|}.

#[export] Instance number_sem_ok : MachineSemOk Z Z.
Proof.
  split.
  - intros i vals w; unfold has_side_effects, NumRegOperands; cbn; destruct (data i); try done; destruct (reg_kinds i); [| done].
    by rewrite Nat.eqb_refl, orb_true_r.
  - intros ks v w; split; [cbn; lia | done].
Qed.

(** ** Checkers *)

Definition recoveries_alone (ir : MachineIR) (l : list MachineInsn) : bool :=
  forallb (fun t => match blocks ir !! t with Some d => (length (in_edges d) <? 2)%nat | None => true end) (recoveries l).

Definition check_last (ir : MachineIR) (b : MachineBasicBlock) : bool :=
  match last (insn_list b) with
  | Some i => bool_decide (recovery_bb i = None) && (recovery_pc i =? kNullGuestAddr) &&
      bool_decide (dsts ir (out_edges b) ≡ₚ targets i ++ recoveries (insn_list b))
  | None => false
  end.

Definition check_graph_block (ir : MachineIR) (bb : BlockPtr) : bool :=
  match blocks ir !! bb with
  | Some b => bool_decide (NoDup (in_edges b)) && bool_decide (NoDup (out_edges b)) && check_last ir b && recoveries_alone ir (insn_list b)
  | None => false
  end.

Definition check_graph (ir : MachineIR) : bool :=
  bool_decide (CheckMachineIR ir = Some kMachineIRCheckSuccess) && bool_decide (NoDup (bb_list ir)) &&
  forallb (check_graph_block ir) (bb_list ir) &&
  forallb (fun x => (x.1 <? num_bb ir)%nat) (map_to_list (blocks ir)) &&
  forallb (fun x => (x.1 <? next_edge ir)%nat) (map_to_list (edges ir)).

Lemma map_keys_below {A} (m : gmap nat A) n k :
  forallb (fun x => (x.1 <? n)%nat) (map_to_list m) = true -> is_Some (m !! k) -> (k < n)%nat.
Proof.
  intros Hf [x Hx]; apply (forallb_elem_of _ _ (k, x)) in Hf; [by apply Nat.ltb_lt in Hf |]; by apply elem_of_map_to_list.
Qed.

Lemma check_graph_sound ir : check_graph ir = true -> wf_graph ir.
Proof.
  unfold check_graph; rewrite !andb_true_iff; intros ((((Hc & Hnd) & Hb) & Hbl) & Hed).
  apply bool_decide_eq_true in Hc, Hnd; unfold CheckMachineIR, CheckCFG in Hc; rewrite check_blocks_spec in Hc; split; [done | | | |].
  - intros bb Hbb; destruct (Hc bb Hbb) as (b & Hbb' & Hck); exists b; split; [done |].
    apply (forallb_elem_of _ _ bb) in Hb; [| done]; unfold check_graph_block in Hb; rewrite Hbb', !andb_true_iff in Hb.
    destruct Hb as (((Hi & Ho) & Hl) & Hr); apply bool_decide_eq_true in Hi, Ho; split; [apply Hck | apply Hck | done | done | |].
    + destruct (bc_transfer _ _ _ Hck) as (l & i & Hli & Hct & Hf & _); exists l, i; unfold check_last in Hl; rewrite Hli, last_snoc, !andb_true_iff in Hl.
      destruct Hl as ((H1 & H2) & H3); apply bool_decide_eq_true in H1, H3; apply Z.eqb_eq in H2; conjs; try done.
      rewrite H3, recoveries_app; unfold recoveries at 2; cbn; by rewrite H1, app_nil_r.
    + intros t d Ht Hd; apply (forallb_elem_of _ _ t) in Hr; [| done]; cbn in Hr; rewrite Hd in Hr; by apply Nat.ltb_lt.
  - intros bb; by apply map_keys_below.
  - intros e; by apply map_keys_below.
  - intros bb b Hbb Hbb' Ho Hi; destruct (Hc bb Hbb) as (b' & Hb' & Hck); assert (b' = b) as -> by congruence; by apply (bc_alone _ _ _ Hck).
Qed.

(** No instruction has a recovery block. *)
Definition no_recoveries (ir : MachineIR) : bool :=
  forallb (fun bb => match blocks ir !! bb with Some b => (length (recoveries (insn_list b)) =? 0)%nat | None => true end) (bb_list ir).

Lemma no_recoveries_exits ir : no_recoveries ir = true -> recovery_exits ir.
Proof.
  intros Hn y b t d u Hy Hb Ht; apply (forallb_elem_of _ _ y) in Hn; [| done]; cbn in Hn; rewrite Hb in Hn.
  apply Nat.eqb_eq, length_zero_iff_nil in Hn; rewrite Hn in Ht; by apply not_elem_of_nil in Ht.
Qed.

(** ** Critical edges and forwarders *)

Example loop_graph : check_graph loop_ir = true.
Proof. vm_compute; reflexivity. Qed.

(** The loop of [loop_ir] is a critical edge; block 3 is put on it. *)
Definition loop_split : MachineIR :=
  match RemoveCriticalEdges 8 loop_ir with Some (true, ir) => ir | _ => loop_ir end.

Example loop_split_blocks : bb_list loop_split = [0; 1; 2; 3]%nat /\ IsForwarderBlock loop_split 3 = Some true.
Proof. vm_compute; done. Qed.

Lemma RemoveCriticalEdges_correct_witness :
  wf_graph loop_ir /\ (critical_fuel loop_ir <= 8)%nat /\
  exists ir', RemoveCriticalEdges 8 loop_ir = Some (true, ir') /\ wf_graph ir' /\ critical_free ir' /\
    CheckMachineIR ir' = Some kMachineIRCheckSuccess /\ (exists N, bb_list ir' = bb_list loop_ir ++ N) /\
    forall bb, bb ∈ bb_list loop_ir -> equal_runs (V := Z) (W := Z) bb loop_ir ir'.
Proof.
  assert (wf_graph loop_ir) as Hwf by (apply check_graph_sound; vm_compute; reflexivity).
  assert (critical_fuel loop_ir <= 8)%nat as Hf by (vm_compute; lia).
  split; [exact Hwf | split; [exact Hf |]]; exact (RemoveCriticalEdges_correct (V := Z) (W := Z) loop_ir 8 Hwf Hf).
Defined.

Lemma RemoveForwarderBlocks_correct_witness :
  wf_graph loop_split /\ recovery_exits loop_split /\
  exists ir', RemoveForwarderBlocks loop_split = Some ir' /\ wf_graph ir' /\ CheckMachineIR ir' = Some kMachineIRCheckSuccess /\
    sublist (bb_list ir') (bb_list loop_split) /\
    (forall bb, bb ∈ bb_list loop_split -> IsForwarderBlock loop_split bb = Some false -> bb ∈ bb_list ir') /\
    (forall bb, bb ∈ bb_list ir' -> IsForwarderBlock ir' bb = Some false) /\
    forall bb, bb ∈ bb_list ir' -> equal_runs (V := Z) (W := Z) bb loop_split ir'.
Proof.
  assert (wf_graph loop_split) as Hwf by (apply check_graph_sound; vm_compute; reflexivity).
  assert (recovery_exits loop_split) as Hre by (apply no_recoveries_exits; vm_compute; reflexivity).
  split; [exact Hwf | split; [exact Hre |]]; exact (RemoveForwarderBlocks_correct (V := Z) (W := Z) loop_split Hwf Hre).
Defined.

(** ** The live-out sets *)

Definition readsb (i : MachineInsn) (v : nat) : bool :=
  existsb (fun o => IsInput o.2 && bool_decide (GetVRegIndex o.1 = Some v)) (operands i).
Definition writesb (i : MachineInsn) (v : nat) : bool :=
  existsb (fun o => IsDef o.2 && bool_decide (GetVRegIndex o.1 = Some v)) (operands i).

Lemma operandsb_spec (p : MachineRegKind -> bool) i v :
  existsb (fun o => p o.2 && bool_decide (GetVRegIndex o.1 = Some v)) (operands i) = true <->
  exists r k, (r, k) ∈ operands i /\ p k = true /\ GetVRegIndex r = Some v.
Proof.
  rewrite existsb_exists; split.
  - intros ([r k] & Hin & [Hp Hv%bool_decide_eq_true]%andb_true_iff); exists r, k; conjs; try done; by apply list_elem_of_In.
  - intros (r & k & Hin & Hp & Hv); exists (r, k); split; [by apply list_elem_of_In |]; cbn; rewrite Hp; by apply bool_decide_eq_true.
Qed.

Lemma readsb_spec i v : readsb i v = true <-> reads i v.
Proof. apply operandsb_spec. Qed.
Lemma writesb_spec i v : writesb i v = true <-> writes i v.
Proof. apply operandsb_spec. Qed.

Fixpoint read_firstb (l : list MachineInsn) (v : nat) : bool :=
  match l with [] => false | i :: l => readsb i v || negb (writesb i v) && read_firstb l v end.
Fixpoint never_writtenb (l : list MachineInsn) (v : nat) : bool :=
  match l with [] => true | i :: l => negb (writesb i v) && never_writtenb l v end.

Lemma not_writesb_spec i v : negb (writesb i v) = true <-> ~ writes i v.
Proof. rewrite negb_true_iff, <- writesb_spec; destruct (writesb i v); split; congruence || (intros H; by destruct H). Qed.
Lemma read_firstb_spec l v : read_firstb l v = true <-> read_first l v.
Proof. induction l as [| i l IH]; [done |]; cbn [read_firstb read_first]; by rewrite orb_true_iff, andb_true_iff, readsb_spec, not_writesb_spec, IH. Qed.
Lemma never_writtenb_spec l v : never_writtenb l v = true <-> never_written l v.
Proof. induction l as [| i l IH]; [done |]; cbn [never_writtenb never_written]; by rewrite andb_true_iff, not_writesb_spec, IH. Qed.

Definition lives_outb (b : MachineBasicBlock) (v : nat) : bool := existsb (fun r => bool_decide (GetVRegIndex r = Some v)) (live_out b).
Definition lives_inb (b : MachineBasicBlock) (v : nat) : bool :=
  read_firstb (insn_list b) v || never_writtenb (insn_list b) v && lives_outb b v.

Lemma lives_outb_spec b v : lives_outb b v = true <-> lives_out b v.
Proof.
  unfold lives_outb, lives_out; rewrite existsb_exists; split.
  - intros (r & Hin & Hv%bool_decide_eq_true); exists r; split; [by apply list_elem_of_In | done].
  - intros (r & Hin & Hv); exists r; split; [by apply list_elem_of_In | by apply bool_decide_eq_true].
Qed.
Lemma lives_inb_spec b v : lives_inb b v = true <-> lives_in b v.
Proof. unfold lives_inb, lives_in; by rewrite orb_true_iff, andb_true_iff, read_firstb_spec, never_writtenb_spec, lives_outb_spec. Qed.

(** The registers of the blocks are in range. *)
Definition reg_inb (n : nat) (r : MachineReg) : bool := match GetVRegIndex r with Some v => (v <? n)%nat | None => true end.

Lemma reg_inb_spec n r : reg_inb n r = true -> reg_in n r.
Proof. unfold reg_inb; intros H v Hv; rewrite Hv in H; by apply Nat.ltb_lt. Qed.

Definition check_regs (ir : MachineIR) : bool :=
  forallb (fun bb => match blocks ir !! bb with
    | Some b => forallb (fun i => forallb (reg_inb (num_vreg ir)) (regs i)) (insn_list b) && forallb (reg_inb (num_vreg ir)) (live_out b)
    | None => false
    end) (bb_list ir).

Lemma check_regs_sound ir : check_regs ir = true -> regs_in_range ir.
Proof.
  intros Hc; assert (Hb : forall bb, bb ∈ bb_list ir -> exists b, blocks ir !! bb = Some b /\
    (forall i r, i ∈ insn_list b -> r ∈ regs i -> reg_in (num_vreg ir) r) /\ (forall r, r ∈ live_out b -> reg_in (num_vreg ir) r)).
  { intros bb Hbb; apply (forallb_elem_of _ _ bb) in Hc; [| done]; cbn in Hc; destruct (blocks ir !! bb) as [b |]; [| done]; exists b.
    apply andb_true_iff in Hc as [Hi Hl]; conjs; [done | |].
    - intros i r Hin Hr; apply (forallb_elem_of _ _ i) in Hi; [| done]; apply (forallb_elem_of _ _ r) in Hi; [by apply reg_inb_spec | done].
    - intros r Hr; apply (forallb_elem_of _ _ r) in Hl; [by apply reg_inb_spec | done]. }
  split.
  - intros bb b i [r k] Hbb Hbl Hi Ho; destruct (Hb bb Hbb) as (b' & Hb' & Hr & _); assert (b' = b) as -> by congruence.
    cbn; eapply Hr; [exact Hi |]; unfold operands in Ho; by apply elem_of_zip_l in Ho.
  - intros bb b r Hbb Hbl Hr; destruct (Hb bb Hbb) as (b' & Hb' & _ & Hl); assert (b' = b) as -> by congruence; by apply Hl.
  - intros bb Hbb; destruct (Hb bb Hbb) as (b & ? & _); by exists b.
Qed.

(** The equations of liveness at the instruction [i] followed by [post]. *)
Definition check_live_at (ir : MachineIR) (b : MachineBasicBlock) (i : MachineInsn) (post : list MachineInsn) : bool :=
  (negb (IsControlTransfer i) || has_side_effects i && forallb (fun o => negb (IsDef o.2)) (operands i)) &&
  forallb (fun t => bool_decide (t ∈ bb_list ir) &&
    match blocks ir !! t with
    | Some d => forallb (fun v => negb (lives_inb d v) || lives_outb b v && never_writtenb (i :: post) v) (seq 0 (num_vreg ir))
    | None => true
    end) (successors i).

Fixpoint check_live_insns (ir : MachineIR) (b : MachineBasicBlock) (l : list MachineInsn) : bool :=
  match l with [] => true | i :: l => check_live_at ir b i l && check_live_insns ir b l end.

Definition check_live (ir : MachineIR) : bool :=
  forallb (fun bb => match blocks ir !! bb with Some b => check_live_insns ir b (insn_list b) | None => true end) (bb_list ir).

Lemma lives_in_range ir t d v : regs_in_range ir -> t ∈ bb_list ir -> blocks ir !! t = Some d -> lives_in d v -> (v < num_vreg ir)%nat.
Proof.
  intros Hr Ht Hd [Hf | [_ (r & Hin & Hv)]]; [| by eapply (rr_live_out _ Hr)].
  assert (exists i, i ∈ insn_list d /\ reads i v) as (i & Hi & r & k & Hin & _ & Hv).
  { revert Hf; generalize (insn_list d) as l; induction l as [| i l IH]; [done |]; cbn [read_first]; intros [? | [_ Hf]].
    - exists i; split; [apply elem_of_cons; by left | done].
    - destruct (IH Hf) as (j & ? & ?); exists j; split; [apply elem_of_cons; by right | done]. }
  by eapply (rr_insns _ Hr t d i (r, k)).
Qed.

Lemma check_live_sound ir : regs_in_range ir -> check_live ir = true -> live_out_ok ir.
Proof.
  intros Hr Hc; assert (Hat : forall bb b pre i post, bb ∈ bb_list ir -> blocks ir !! bb = Some b -> insn_list b = pre ++ i :: post ->
    check_live_at ir b i post = true).
  { intros bb b pre i post Hbb Hb Hl; apply (forallb_elem_of _ _ bb) in Hc; [| done]; cbn in Hc; rewrite Hb, Hl in Hc; clear Hl.
    induction pre as [| j pre IH]; cbn [app check_live_insns] in Hc; apply andb_true_iff in Hc as [? ?]; auto. }
  assert (Hsucc : forall bb b pre i post t, bb ∈ bb_list ir -> blocks ir !! bb = Some b -> insn_list b = pre ++ i :: post -> t ∈ successors i ->
    t ∈ bb_list ir /\ forall d v, blocks ir !! t = Some d -> lives_in d v -> lives_out b v /\ never_written (i :: post) v).
  { intros bb b pre i post t Hbb Hb Hl Ht; pose proof (Hat bb b pre i post Hbb Hb Hl) as H; apply andb_true_iff in H as [_ H].
    apply (forallb_elem_of _ _ t) in H; [| done]; apply andb_true_iff in H as [Hin%bool_decide_eq_true H]; split; [done |]; intros d v Hd Hv.
    rewrite Hd in H; apply (forallb_elem_of _ _ v) in H; [| apply elem_of_seq; pose proof (lives_in_range ir t d v Hr Hin Hd Hv); lia].
    cbv beta in H; rewrite (proj2 (lives_inb_spec d v) Hv) in H; cbn [negb orb] in H; apply andb_true_iff in H as [H1 H2].
    split; [by apply lives_outb_spec | by apply never_writtenb_spec]. }
  split.
  - intros; by eapply Hsucc.
  - intros bb b pre i post t d v Hbb Hb Hl Ht Hd Hv; by eapply (proj2 (Hsucc bb b pre i post t Hbb Hb Hl Ht)).
  - intros bb b i Hbb Hb Hi Hct; apply list_elem_of_split in Hi as (pre & post & Hl); pose proof (Hat bb b pre i post Hbb Hb Hl) as H.
    apply andb_true_iff in H as [H _]; rewrite Hct in H; cbn [negb orb] in H; apply andb_true_iff in H as [? H]; split; [done |].
    intros r (k & Hin & Hd); apply (forallb_elem_of _ _ (r, k)) in H; [| done]; cbn in H; by rewrite Hd in H.
Qed.

(** ** Copies and dead code *)

(** Copies with the operands of their constructor, and operands with kinds. *)
Definition check_insn (n : nat) (i : MachineInsn) : bool :=
  bool_decide (wf_insn i) && forallb (reg_inb n) (regs i) &&
  match data i with
  | PseudoCopy => bool_decide (recovery_bb i = None) && (recovery_pc i =? kNullGuestAddr) &&
      match regs i, reg_kinds i with [_; _], [d; u] => bool_decide (d = def_of (RegClass d)) && bool_decide (u = use_of (RegClass d)) | _, _ => false end
  | _ => negb (is_copy i)
  end.

Lemma check_insn_sound n i : check_insn n i = true -> proper_copy i /\ wf_insn i /\ forall r, r ∈ regs i -> reg_in n r.
Proof.
  unfold check_insn; rewrite !andb_true_iff; intros ((Hw%bool_decide_eq_true & Hr) & Hd); conjs; [split | done |].
  - intros Hc; rewrite Hc, !andb_true_iff in Hd; destruct Hd as ((H1%bool_decide_eq_true & H2%Z.eqb_eq) & H3); conjs; try done.
    destruct (regs i) as [| dst [| src [| ? ?]]], (reg_kinds i) as [| d [| u [| ? ?]]]; try done; apply andb_true_iff in H3 as [H4%bool_decide_eq_true H5%bool_decide_eq_true].
    exists dst, src, (RegClass d); split; [done |]; congruence.
  - intros Hc; destruct (data i); try done; by rewrite Hc in Hd.
  - intros r Hin; apply (forallb_elem_of _ _ r) in Hr; [by apply reg_inb_spec | done].
Qed.

Definition check_insns (ir : MachineIR) : bool :=
  forallb (fun bb => match blocks ir !! bb with Some b => forallb (check_insn (num_vreg ir)) (insn_list b) | None => false end) (bb_list ir).

Lemma check_insns_sound ir bb :
  check_insns ir = true -> bb ∈ bb_list ir -> exists b, blocks ir !! bb = Some b /\ insns_ok (num_vreg ir) (insn_list b).
Proof.
  intros Hc Hbb; apply (forallb_elem_of _ _ bb) in Hc; [| done]; cbn in Hc; destruct (blocks ir !! bb) as [b |]; [| done]; exists b; split; [done |].
  assert (Hi : forall i, i ∈ insn_list b -> proper_copy i /\ wf_insn i /\ forall r, r ∈ regs i -> reg_in (num_vreg ir) r).
  { intros i Hi; apply (forallb_elem_of _ _ i) in Hc; [by apply check_insn_sound | done]. }
  split; [| split]; [apply Forall_forall; intros i Hin; by apply Hi | apply Forall_forall; intros i Hin; by apply Hi |].
  intros i r Hin; by apply Hi.
Qed.

(** The loop with a name per block for its registers, and with the uses of its
    copies renamed. *)
Definition loop_renamed : MachineIR :=
  match RenameVRegs (run_bound loop_split) loop_split with Some (true, ir) => ir | _ => loop_split end.
Definition loop_copies : MachineIR := match RenameCopyUses loop_renamed with Some ir => ir | None => loop_renamed end.

Lemma RenameCopyUses_preserves_witness :
  NoDup (bb_list loop_renamed) /\ live_out_ok loop_renamed /\
  exists ir', RenameCopyUses loop_renamed = Some ir' /\ bb_list ir' = bb_list loop_renamed /\ (live_out_ok loop_renamed -> live_out_ok ir') /\
    (regs_in_range loop_renamed -> regs_in_range ir') /\ forall bb, equal_runs (V := Z) (W := Z) bb loop_renamed ir'.
Proof.
  assert (NoDup (bb_list loop_renamed)) as Hnd by (apply (bool_decide_eq_true _); vm_compute; reflexivity).
  assert (check_insns loop_renamed = true) as Hc by (vm_compute; reflexivity).
  split; [exact Hnd | split; [apply check_live_sound; [apply check_regs_sound |]; vm_compute; reflexivity |]].
  exact (RenameCopyUses_preserves (V := Z) (W := Z) loop_renamed Hnd (fun bb => check_insns_sound loop_renamed bb Hc)).
Defined.

(** [clear()] of a vector that does not check its indices: the bits stay. *)
#[local] Instance unchecked_clear : VectorClear := fun s => s.
Lemma unchecked_keeps : keeps_storage unchecked_clear.
Proof. intros s; reflexivity. Qed.

(** Block 2 copies its live-in register for nothing. *)
Example loop_dead_code :
  (length ∘ insn_list <$> blocks loop_copies !! 2%nat) = Some 2%nat /\
  (ir ← RemoveDeadCode loop_copies; length ∘ insn_list <$> blocks ir !! 2%nat) = Some 1%nat.
Proof. vm_compute; done. Qed.


(** ** The registers of each block *)

(** No critical edge; transfers that write nothing and empty live-out sets. *)
Definition check_critical (ir : MachineIR) : bool :=
  forallb (fun bb => match blocks ir !! bb with
    | Some b => (length (in_edges b) <? 2)%nat || forallb (fun e => match edges ir !! e with
        | Some x => match blocks ir !! edge_src x with Some p => (length (out_edges p) <? 2)%nat | None => true end
        | None => true
        end) (in_edges b)
    | None => true
    end) (bb_list ir).

Lemma check_critical_sound ir : check_critical ir = true -> critical_free ir.
Proof.
  intros Hc y b e x p Hy Hb He Hx Hp; apply (forallb_elem_of _ _ y) in Hc; [| done]; cbv beta in Hc; rewrite Hb in Hc.
  apply orb_true_iff in Hc as [Hc | Hc]; [left; by apply Nat.ltb_lt | right].
  apply (forallb_elem_of _ _ e) in Hc; [| done]; cbv beta in Hc; rewrite Hx, Hp in Hc; by apply Nat.ltb_lt.
Qed.

Definition check_transfer (i : MachineInsn) : bool :=
  negb (IsControlTransfer i) || has_side_effects i && forallb (fun o => negb (IsDef o.2)) (operands i).

Lemma check_transfer_sound i : check_transfer i = true -> transfer_ok i.
Proof.
  unfold check_transfer; intros H Hct; rewrite Hct in H; cbn [negb orb] in H; apply andb_true_iff in H as [? H]; split; [done |].
  intros r (k & Hin & Hd); apply (forallb_elem_of _ _ (r, k)) in H; [| done]; cbn in H; by rewrite Hd in H.
Qed.

Definition check_fresh (ir : MachineIR) : bool :=
  check_insns ir && forallb (fun bb => match blocks ir !! bb with
    | Some b => forallb check_transfer (insn_list b) && bool_decide (live_out b = []) | None => true end) (bb_list ir).

Lemma check_fresh_sound ir bb : check_fresh ir = true -> bb ∈ bb_list ir ->
  exists b, blocks ir !! bb = Some b /\ insns_ok (num_vreg ir) (insn_list b) /\ Forall transfer_ok (insn_list b) /\ live_out b = [].
Proof.
  intros [Hi Hf]%andb_true_iff Hbb; destruct (check_insns_sound ir bb Hi Hbb) as (b & Hb & Hok); exists b; conjs; [done | done | |];
    (apply (forallb_elem_of _ _ bb) in Hf; [| done]); cbv beta in Hf; rewrite Hb in Hf; apply andb_true_iff in Hf as [Ht Hl].
  - apply Forall_forall; intros i Hin; apply (forallb_elem_of _ _ i) in Ht; [by apply check_transfer_sound | done].
  - by apply bool_decide_eq_true in Hl.
Qed.

Lemma no_recoveries_clean ir : no_recoveries ir = true -> recovery_clean ir.
Proof.
  intros Hn bb b pre i post t v Hbb Hb Hl Ht; apply (forallb_elem_of _ _ bb) in Hn; [| done]; cbn in Hn; rewrite Hb in Hn.
  apply Nat.eqb_eq, length_zero_iff_nil in Hn; exfalso; apply (not_elem_of_nil t); rewrite <- Hn; apply elem_of_recoveries; exists i; split; [| done].
  rewrite Hl; apply elem_of_app; right; apply elem_of_cons; by left.
Qed.

Lemma loop_split_renameable : renameable loop_split.
Proof.
  split.
  - apply check_graph_sound; vm_compute; reflexivity.
  - apply check_critical_sound; vm_compute; reflexivity.
  - by vm_compute.
  - by vm_compute.
  - intros bb; apply check_fresh_sound; vm_compute; reflexivity.
  - apply no_recoveries_clean; vm_compute; reflexivity.
Qed.

Lemma RenameVRegs_correct_witness :
  renameable loop_split /\ exists ir', RenameVRegs (run_bound loop_split) loop_split = Some (true, ir') /\ bb_list ir' = bb_list loop_split /\ wf_graph ir' /\
    CheckMachineIR ir' = Some kMachineIRCheckSuccess /\ live_out_ok ir' /\ regs_in_range ir' /\
    forall bb (ρ : MachineReg -> Z) (w : Z), bb ∈ bb_list loop_split -> (forall v, ~ lives loop_split v bb) -> same_runs loop_split ir' bb bb ρ ρ w.
Proof.
  split; [exact loop_split_renameable |]; exact (RenameVRegs_correct (V := Z) (W := Z) loop_split (run_bound loop_split) loop_split_renameable (Nat.le_refl _)).
Defined.

Lemma loop_prepared : prepared loop_ir.
Proof.
  split.
  - apply check_graph_sound; vm_compute; reflexivity.
  - by vm_compute.
  - by vm_compute.
  - intros bb; apply check_fresh_sound; vm_compute; reflexivity.
  - apply no_recoveries_clean; vm_compute; reflexivity.
Qed.

(** No register lives into the first block. *)
Lemma loop_entry v : ~ lives loop_ir v 0.
Proof.
  assert (wf_cfg loop_ir) as Hwf by (apply wf_cfg_checked; vm_compute; reflexivity).
  destruct (Run_lives loop_ir (run_bound loop_ir) Hwf) as (live & E & _ & Hl); [vm_compute; lia | done |].
  rewrite loop_live in E; injection E as <-; rewrite <- (Hl 0%nat v) by (apply (bool_decide_eq_true _); vm_compute; reflexivity).
  intros (s & [= <-] & Hb); unfold bit in Hb; by destruct v as [| [| [| v]]].
Qed.


(** A block that copies a register to itself. *)
Definition nop_ir : MachineIR :=
  let '(bb, ir) := NewBasicBlock (new_MachineIR 2) in
  set_bb_list [bb] (update_block bb (set_insn_list [new_PseudoCopy 1024 1024 8; new_PseudoCopy 1025 1024 8; new_PseudoIndirectJump 1025]) ir).

Lemma closed_successors ir :
  forallb (fun bb => match blocks ir !! bb with
    | Some b => forallb (fun i => forallb (fun t => bool_decide (t ∈ bb_list ir)) (successors i)) (insn_list b) | None => true end) (bb_list ir) = true ->
  closed ir.
Proof.
  intros Hc bb b i t Hbb Hb Hi Ht; apply (forallb_elem_of _ _ bb) in Hc; [| done]; cbv beta in Hc; rewrite Hb in Hc.
  apply (forallb_elem_of _ _ i) in Hc; [| done]; apply (forallb_elem_of _ _ t) in Hc; [by apply bool_decide_eq_true in Hc | done].
Qed.

Lemma RemoveNopPseudoCopy_preserves_witness :
  NoDup (bb_list nop_ir) /\ closed nop_ir /\
  exists ir', RemoveNopPseudoCopy nop_ir = Some ir' /\
    (forall bb b i, bb ∈ bb_list nop_ir -> blocks ir' !! bb = Some b -> i ∈ insn_list b -> nop_copy i = Some false) /\
    forall bb (ρ : MachineReg -> Z) (w : Z), bb ∈ bb_list nop_ir -> same_runs nop_ir ir' bb bb ρ ρ w.
Proof.
  assert (NoDup (bb_list nop_ir)) as Hnd by (apply (bool_decide_eq_true _); vm_compute; reflexivity).
  assert (check_insns nop_ir = true) as Hc by (vm_compute; reflexivity).
  assert (closed nop_ir) as Hcl.
  { apply (closed_successors nop_ir); vm_compute; reflexivity. }
  split; [exact Hnd | split; [exact Hcl |]]; apply (RemoveNopPseudoCopy_preserves nop_ir Hnd Hcl).
  intros bb Hbb; destruct (check_insns_sound nop_ir bb Hc Hbb) as (b & Hb & Hp & _); exists b; split; [exact Hb |].
  eapply Forall_impl; [exact Hp |]; intros i [Hi _]; exact Hi.
Defined.
