(* ===== verification/GuestContext.v ===== *)
(** * Accesses to the guest context

    [IsCPUStateGet] and [IsCPUStatePut] of [x86_64/machine_ir.h],
    [ContextLivenessAnalyzer] ([x86_64/context_liveness_analyzer.h] and [.cc]), and
    [RemovePutIfDead] and [RemoveRedundantPut] of [x86_64/machine_ir_opt.cc]: the
    stores to guest registers that successors overwrite are removed.

    The layout of the guest's [CPUState] is not part of the repository and is a
    parameter.  A failed [CHECK], a [FATAL] and an offset out of range are
    [None]. *)
From stdpp Require Import gmap list.
From S2P Require Import Prelude MachineIR Lifetime LifetimeAnalysis Liveness MachineIRCheck MachineSem BlockOrder ControlFlow.
#[local] Open Scope Z_scope.

(** [sizeof(CPUState)], [offsetof(ThreadState, cpu.reservation_value)],
    [sizeof(Reservation)], [offsetof(ThreadState, cpu.v)] and
    [sizeof(ThreadState::cpu.v)]. *)
Class ContextLayout := {
  sizeof_CPUState : nat;
  reservation_value_offset : Z;
  sizeof_Reservation : Z;
  v_offset : nat;
  sizeof_v : nat
}.

Definition kCPUStatePointer : MachineReg := MachineRegs.kRBP.

Section Context.
Context `{!ContextLayout}.

(** The checks on [disp], a [uint32_t], that the two functions share. *)
Definition tracked_disp (disp : Z) : bool :=
  (disp <? Z.of_nat sizeof_CPUState) &&
  negb ((reservation_value_offset <=? disp) && (disp <? reservation_value_offset + sizeof_Reservation)).

Definition get_opcode (o : X86Opcode) : bool :=
  match o with MovqRegMemBaseDisp | MovdqaXRegMemBaseDisp | MovwRegMemBaseDisp | MovsdXRegMemBaseDisp => true | _ => false end.
Definition put_opcode (o : X86Opcode) : bool :=
  match o with
  | MovqMemBaseDispReg | MovdqaMemBaseDispXReg | MovwMemBaseDispReg | MovsdMemBaseDispXReg | MovqMemBaseDispImm => true
  | _ => false
  end.

Definition IsCPUStateGet (ir : MachineIR) (i : MachineInsn) : option bool :=
  if insn_folding_executed ir then None
  else
    match data i with
    | X86Insn o disp _ _ _ _ _ =>
        if negb (get_opcode o) then Some false
        else if negb (tracked_disp disp) then Some false
        else r ← RegAt i 1; Some (r =? kCPUStatePointer)
    | _ => Some false
    end.

Definition IsCPUStatePut (ir : MachineIR) (i : MachineInsn) : option bool :=
  if insn_folding_executed ir then None
  else
    match data i with
    | X86Insn o disp _ _ _ _ _ =>
        if negb (put_opcode o) then Some false
        else if negb (tracked_disp disp) then Some false
        else r ← RegAt i 0; Some (r =? kCPUStatePointer)
    | _ => Some false
    end.

(** [AsMachineInsnX86_64(insn)->disp()], as an index of a bit set. *)
Definition disp_of (i : MachineInsn) : option nat :=
  match data i with X86Insn _ disp _ _ _ _ _ => Some (Z.to_nat disp) | _ => None end.

(** [ContextAccess] and [GetContextAccess] of
    [x86_64/local_guest_context_optimizer.cc]. *)
Record ContextAccess := { access_size : nat; is_simd : bool }.

Definition GetContextAccess (i : MachineInsn) : ContextAccess :=
  match data i with
  | X86Insn o _ _ _ _ _ _ =>
      match o with
      | MovwRegMemBaseDisp | MovwMemBaseDispReg => {| access_size := 2; is_simd := false |}
      | MovqRegMemBaseDisp | MovqMemBaseDispReg | MovqMemBaseDispImm => {| access_size := 8; is_simd := false |}
      | MovsdXRegMemBaseDisp | MovsdMemBaseDispXReg => {| access_size := 8; is_simd := true |}
      | MovdqaXRegMemBaseDisp | MovdqaMemBaseDispXReg => {| access_size := 16; is_simd := true |}
      | GeneratedOpcode _ => {| access_size := 0; is_simd := false |}
      end
  | _ => {| access_size := 0; is_simd := false |}
  end.

(** ** The analysis *)

Definition context_bit (v : bool) (d : nat) (s : VRegBitSet) : option VRegBitSet :=
  if decide (d < length s)%nat then Some (<[d := v]> s) else None.

Definition visit_context_insn (ir : MachineIR) (i : MachineInsn) (s : VRegBitSet) : option VRegBitSet :=
  put ← IsCPUStatePut ir i;
  if (put : bool) then d ← disp_of i; context_bit false d s
  else
    get ← IsCPUStateGet ir i;
    if (get : bool) then d ← disp_of i; context_bit true d s else Some s.

(** The instructions from the last to the first. *)
Fixpoint visit_context_insns (ir : MachineIR) (l : list MachineInsn) (s : VRegBitSet) : option VRegBitSet :=
  match l with
  | [] => Some s
  | i :: l => s ← visit_context_insns ir l s; visit_context_insn ir i s
  end.

Definition VisitContext (ir : MachineIR) (bb : BlockPtr) (live : list VRegBitSet) : option (bool * list VRegBitSet) :=
  b ← blocks ir !! bb;
  s ← (if (length (out_edges b) =? 0)%nat then Some (replicate sizeof_CPUState true)
       else union_live_in ir live (out_edges b) (new_VRegBitSet sizeof_CPUState));
  s ← visit_context_insns ir (insn_list b) s;
  old ← live !! bb;
  Some (if decide (old = s) then (false, live) else (true, <[bb := s]> live)).

(** Whether the list became empty within [fuel] iterations. *)
Definition Init (fuel : nat) (ir : MachineIR) : option (bool * list VRegBitSet) :=
  work_list (VisitContext ir) fuel ir (bb_list ir) (no_bits ir sizeof_CPUState).

Definition context_IsLiveIn (live : list VRegBitSet) (bb : BlockPtr) (offset : nat) : option bool := s ← live !! bb; s !! offset.

(** ** Dead puts *)

(** The loop over the out edges: whether the context at [disp] lives into one of
    the destinations. *)
Fixpoint live_into_successor (ir : MachineIR) (live : list VRegBitSet) (es : list EdgePtr) (disp : nat) : option bool :=
  match es with
  | [] => Some false
  | e :: es =>
      x ← edges ir !! e;
      l ← context_IsLiveIn live (edge_dst x) disp;
      if (l : bool) then Some true else live_into_successor ir live es disp
  end.

(** Whether [RemovePutIfDead] keeps the instruction. *)
Definition RemovePutIfDead (ir : MachineIR) (live : list VRegBitSet) (b : MachineBasicBlock) (i : MachineInsn) (seen_get : VRegBitSet)
    : option bool :=
  if (length (out_edges b) =? 0)%nat then None
  else
    disp ← disp_of i;
    seen ← seen_get !! disp;
    if (seen : bool) then Some true else live_into_successor ir live (out_edges b) disp.

(** The instructions from the last to the first, with [seen_get]. *)
Fixpoint remove_puts (ir : MachineIR) (live : list VRegBitSet) (b : MachineBasicBlock) (l : list MachineInsn)
    : option (list MachineInsn * VRegBitSet) :=
  match l with
  | [] => Some ([], new_VRegBitSet sizeof_CPUState)
  | i :: l =>
      '(l, seen_get) ← remove_puts ir live b l;
      put ← IsCPUStatePut ir i;
      if (put : bool) then
        keep ← RemovePutIfDead ir live b i seen_get;
        Some (if (keep : bool) then i :: l else l, seen_get)
      else
        get ← IsCPUStateGet ir i;
        if (get : bool) then d ← disp_of i; seen_get ← context_bit true d seen_get; Some (i :: l, seen_get)
        else Some (i :: l, seen_get)
  end.

Definition remove_puts_block (live : list VRegBitSet) (bb : BlockPtr) (ir : MachineIR) : option MachineIR :=
  b ← blocks ir !! bb;
  if (length (out_edges b) =? 0)%nat then Some ir
  else '(l, _) ← remove_puts ir live b (insn_list b); Some (update_block bb (set_insn_list l) ir).

Definition RemoveRedundantPut (fuel : nat) (ir : MachineIR) : option (bool * MachineIR) :=
  '(finished, live) ← Init fuel ir;
  if (finished : bool) then ir ← for_each (remove_puts_block live) (bb_list ir) ir; Some (true, ir) else Some (false, ir).

(** ** What the analysis finds *)

Definition puts (ir : MachineIR) (i : MachineInsn) (d : nat) : Prop := IsCPUStatePut ir i = Some true /\ disp_of i = Some d.
Definition gets (ir : MachineIR) (i : MachineInsn) (d : nat) : Prop := IsCPUStateGet ir i = Some true /\ disp_of i = Some d.

(** The context at [d] is read from [l] on before it is written, when it is read
    after [l] if [Out d]. *)
Fixpoint context_lives (ir : MachineIR) (Out : nat -> Prop) (l : list MachineInsn) (d : nat) : Prop :=
  match l with
  | [] => Out d
  | i :: l => gets ir i d \/ ~ puts ir i d /\ context_lives ir Out l d
  end.

(** The two tests have an answer. *)
Definition access_ok (ir : MachineIR) (i : MachineInsn) : Prop := is_Some (IsCPUStatePut ir i) /\ is_Some (IsCPUStateGet ir i).

Context (Hsize : (0 < sizeof_CPUState)%nat).

Lemma tracked_bound disp : tracked_disp disp = true -> (Z.to_nat disp < sizeof_CPUState)%nat.
Proof. unfold tracked_disp; intros [Hlt _]%andb_true_iff; apply Z.ltb_lt in Hlt; lia. Qed.

Lemma put_disp ir i : IsCPUStatePut ir i = Some true -> exists d, disp_of i = Some d /\ (d < sizeof_CPUState)%nat /\ IsCPUStateGet ir i = Some false.
Proof.
  unfold IsCPUStatePut, IsCPUStateGet, disp_of; destruct (insn_folding_executed ir); [done |]; destruct (data i) as [| | | | | | | | | | | o disp ? ? ? ? ?]; try done.
  destruct (put_opcode o) eqn:Eo; cbn [negb]; [| done]; destruct (tracked_disp disp) eqn:Et; cbn [negb]; [| done]; intros _.
  exists (Z.to_nat disp); conjs; [done | by apply tracked_bound |]; by destruct o.
Qed.

Lemma get_disp ir i : IsCPUStateGet ir i = Some true -> exists d, disp_of i = Some d /\ (d < sizeof_CPUState)%nat.
Proof.
  unfold IsCPUStateGet, disp_of; destruct (insn_folding_executed ir); [done |]; destruct (data i) as [| | | | | | | | | | | o disp ? ? ? ? ?]; try done.
  destruct (get_opcode o) eqn:Eo; cbn [negb]; [| done]; destruct (tracked_disp disp) eqn:Et; cbn [negb]; [| done]; intros _.
  exists (Z.to_nat disp); split; [done | by apply tracked_bound].
Qed.

Lemma visit_context_insn_spec ir i s :
  access_ok ir i -> length s = sizeof_CPUState ->
  exists s', visit_context_insn ir i s = Some s' /\ length s' = sizeof_CPUState /\
    forall d, bit s' d <-> gets ir i d \/ ~ puts ir i d /\ bit s d.
Proof.
  intros [[p Hp] [g Hg]] Hl; unfold visit_context_insn, puts, gets, context_bit; rewrite Hp, Hg; cbn [mbind option_bind]; destruct p.
  - destruct (put_disp ir i Hp) as (d & Hd & Hlt & Hng); rewrite Hd; cbn [mbind option_bind]; rewrite decide_True by lia.
    eexists; split; [done |]; split; [by rewrite length_insert |]; intros d'; rewrite bit_insert by lia; assert (g = false) as -> by congruence; split.
    + intros [[_ ?] | [Hne Hb]]; [done |]; right; split; [| done]; intros [_ [= <-]]; done.
    + intros [[? _] | [Hn Hb]]; [done | right; split; [| done]]; intros ->; by apply Hn.
  - destruct g.
    + destruct (get_disp ir i Hg) as (d & Hd & Hlt); rewrite Hd; cbn [mbind option_bind]; rewrite decide_True by lia.
      eexists; split; [done |]; split; [by rewrite length_insert |]; intros d'; rewrite bit_insert by lia; split.
      * intros [[-> _] | [Hne Hb]]; [by left | right; split; [by intros [? _] | done]].
      * intros [[_ [= <-]] | [_ Hb]]; [by left |]; destruct (decide (d' = d)); [by left | by right].
    + exists s; split; [done |]; split; [done |]; intros d; split; [right; split; [by intros [? _] | done] | by intros [[? _] | [_ ?]]].
Qed.

Lemma visit_context_insns_spec ir l s :
  Forall (access_ok ir) l -> length s = sizeof_CPUState ->
  exists s', visit_context_insns ir l s = Some s' /\ length s' = sizeof_CPUState /\ forall d, bit s' d <-> context_lives ir (bit s) l d.
Proof.
  intros Hall Hl; induction Hall as [| i l Hi _ IH]; cbn [visit_context_insns context_lives]; [by exists s |].
  destruct IH as (s1 & -> & Hl1 & H1); cbn [mbind option_bind]; destruct (visit_context_insn_spec ir i s1 Hi Hl1) as (s2 & -> & Hl2 & H2).
  exists s2; conjs; [done | done |]; intros d; by rewrite H2, H1.
Qed.

(** What lives out of a block. *)
Definition context_out (ir : MachineIR) (live : list VRegBitSet) (b : MachineBasicBlock) (d : nat) : Prop :=
  if (length (out_edges b) =? 0)%nat then (d < sizeof_CPUState)%nat
  else exists e x, e ∈ out_edges b /\ edges ir !! e = Some x /\ live_at live (edge_dst x) d.

Definition context_transfer (ir : MachineIR) (live : list VRegBitSet) (bb : BlockPtr) (d : nat) : Prop :=
  exists b, blocks ir !! bb = Some b /\ context_lives ir (context_out ir live b) (insn_list b) d.

Lemma context_lives_mono ir (Out Out' : nat -> Prop) l d : (Out d -> Out' d) -> context_lives ir Out l d -> context_lives ir Out' l d.
Proof. intros Ho; induction l as [| i l IH]; cbn [context_lives]; [done |]; intros [? | [? ?]]; [by left | right; auto]. Qed.

Lemma context_out_mono ir live live' b d :
  (forall e x, e ∈ out_edges b -> edges ir !! e = Some x -> live_at live (edge_dst x) d -> live_at live' (edge_dst x) d) -> context_out ir live b d -> context_out ir live' b d.
Proof. intros Hm; unfold context_out; destruct (_ =? _)%nat; [done |]; intros (e & x & He & Hx & Hl); exists e, x; eauto. Qed.

Lemma VisitContext_spec ir live bb :
  wf_cfg ir -> (forall bb b, bb ∈ bb_list ir -> blocks ir !! bb = Some b -> Forall (access_ok ir) (insn_list b)) ->
  bits_ok ir sizeof_CPUState live -> bb ∈ bb_list ir ->
  exists old s, live !! bb = Some old /\ length s = sizeof_CPUState /\ (forall d, bit s d <-> context_transfer ir live bb d) /\
    VisitContext ir bb live = Some (if decide (old = s) then (false, live) else (true, <[bb := s]> live)).
Proof.
  intros Hwf Hacc [Hlen Hall] Hbb; destruct (wc_block _ Hwf bb Hbb) as (b & Hb & Hlt); unfold VisitContext; rewrite Hb; cbn [mbind option_bind].
  assert (exists s, (if (length (out_edges b) =? 0)%nat then Some (replicate sizeof_CPUState true)
    else union_live_in ir live (out_edges b) (new_VRegBitSet sizeof_CPUState)) = Some s /\ length s = sizeof_CPUState /\ forall d, bit s d <-> context_out ir live b d)
    as (s1 & -> & Hl1 & H1).
  { unfold context_out; destruct (length (out_edges b) =? 0)%nat.
    - eexists; split; [done |]; split; [apply length_replicate |]; intros d; unfold bit; rewrite lookup_replicate; tauto.
    - destruct (union_bits ir sizeof_CPUState live (out_edges b) (new_VRegBitSet sizeof_CPUState)) as (s & -> & Hs & Hb'); [done | apply length_replicate | |].
      { intros e He; destruct (wc_out _ Hwf bb b e Hbb Hb He) as (x & Hx & Hd & _); exists x; split; [done |]; by destruct (wc_block _ Hwf _ Hd) as (? & _ & ?). }
      exists s; conjs; [done | done |]; intros d; rewrite Hb'; split; [intros [Hn | ?]; [by apply bit_new in Hn | done] | by right]. }
  cbn [mbind option_bind]; destruct (visit_context_insns_spec ir (insn_list b) s1 (Hacc bb b Hbb Hb) Hl1) as (s2 & -> & Hl2 & H2); cbn [mbind option_bind].
  destruct (lookup_lt_is_Some_2 live bb) as [old Hold]; [lia |]; rewrite Hold; cbn [mbind option_bind]; exists old, s2; conjs; [done | done | | done].
  intros d; rewrite H2; unfold context_transfer; split.
  - intros Hl; exists b; split; [done |]; eapply context_lives_mono; [| exact Hl]; apply H1.
  - intros (b' & Hb' & Hl); assert (b' = b) as -> by congruence; eapply context_lives_mono; [| exact Hl]; apply H1.
Qed.

(** The analysis ends, and solves its equations. *)
Lemma Init_solves ir fuel :
  wf_cfg ir -> (forall bb b, bb ∈ bb_list ir -> blocks ir !! bb = Some b -> Forall (access_ok ir) (insn_list b)) ->
  (work_bound ir sizeof_CPUState <= fuel)%nat ->
  exists live, Init fuel ir = Some (true, live) /\ bits_ok ir sizeof_CPUState live /\
    forall bb d, bb ∈ bb_list ir -> live_at live bb d <-> context_transfer ir live bb d.
Proof.
  intros Hwf Hacc Hf; destruct (work_list_ends ir sizeof_CPUState (context_transfer ir) (fun _ _ => True) (VisitContext ir) Hwf) with (fuel := fuel)
    as (live & Hrun & Hw); try done.
  - intros live live' bb w Hm (b & Hb & Hl); exists b; split; [done |]; eapply context_lives_mono; [| exact Hl]; apply context_out_mono; auto.
  - intros live live' bb w Hbb Hm (b & Hb & Hl); exists b; split; [done |]; eapply context_lives_mono; [| exact Hl]; apply context_out_mono.
    intros e x He Hx; apply Hm; by exists b, e, x.
  - intros live bb; by apply VisitContext_spec.
  - exists live; conjs; [done | apply Hw |]; intros bb d Hbb; split; [apply (wo_pre _ _ _ _ _ _ Hw) |].
    intros Ht; apply (wo_fix _ _ _ _ _ _ Hw); [done | apply not_elem_of_nil | done].
Qed.

End Context.
