(* ===== verification/GuestContextProps.v ===== *)
(** * Dead puts are dead

    [RemoveRedundantPut] changes nothing that can be seen, when the accesses to a
    guest register all have one width, and loses bytes when they do not. *)
From stdpp Require Import gmap list.
From S2P Require Import Prelude MachineIR Lifetime LifetimeAnalysis Liveness MachineIRCheck MachineSem DeadCode BlockOrder ControlFlow GuestContext.
#[local] Open Scope Z_scope.

Lemma inserts_outside {B : Type} d bs (c : list B) o : ~ (d <= o < d + length bs)%nat -> list_inserts d bs c !! o = c !! o.
Proof. intros Ho; destruct (decide (o < d)%nat); [by apply list_lookup_inserts_lt | apply list_lookup_inserts_ge; lia]. Qed.

Lemma inserts_inside {B : Type} d bs (c c' : list B) o :
  (d <= o < d + length bs)%nat -> length c = length c' -> list_inserts d bs c !! o = list_inserts d bs c' !! o.
Proof.
  intros Ho Hl; destruct (decide (o < length c)%nat).
  - rewrite !list_lookup_inserts by lia; done.
  - rewrite !lookup_ge_None_2; [done | |]; rewrite length_inserts; lia.
Qed.

(** ** What the pass drops *)

Section Drop.
Context `{!ContextLayout} (Hsize : (0 < sizeof_CPUState)%nat).

Lemma put_no_transfer ir i d : puts ir i d -> IsControlTransfer i = false.
Proof. intros [Hp _]; unfold IsCPUStatePut in Hp; destruct (insn_folding_executed ir); [done |]; unfold IsControlTransfer; by destruct (data i). Qed.

(** [l'] is [l] without puts that nothing reads before the next put, where [Out]
    is read after [l]. *)
Inductive dropped (ir : MachineIR) (Out : nat -> Prop) : list MachineInsn -> list MachineInsn -> Prop :=
  | dropped_nil : dropped ir Out [] []
  | dropped_keep i l l' : dropped ir Out l l' -> dropped ir Out (i :: l) (i :: l')
  | dropped_put i d l l' : dropped ir Out l l' -> puts ir i d -> ~ context_lives ir Out l d -> dropped ir Out (i :: l) l'.

Lemma no_gets_dead ir (Out : nat -> Prop) l d : (forall j, j ∈ l -> ~ gets ir j d) -> ~ Out d -> ~ context_lives ir Out l d.
Proof.
  intros Hg Ho; induction l as [| i l IH]; cbn [context_lives]; [done |]; intros [Hgi | [_ Hl]].
  - apply (Hg i); [apply elem_of_cons; by left | done].
  - apply IH; [| done]; intros j Hj; apply Hg, elem_of_cons; by right.
Qed.

Lemma dropped_refl ir Out l : dropped ir Out l l.
Proof. induction l; by constructor. Qed.

Lemma live_into_successor_spec ir live es d :
  bits_ok ir sizeof_CPUState live -> (forall e, e ∈ es -> exists x, edges ir !! e = Some x /\ (edge_dst x < num_bb ir)%nat) -> (d < sizeof_CPUState)%nat ->
  exists r, live_into_successor ir live es d = Some r /\ (r = true <-> exists e x, e ∈ es /\ edges ir !! e = Some x /\ live_at live (edge_dst x) d).
Proof.
  intros [Hl Hall] Hes Hd; induction es as [| e es IH]; cbn [live_into_successor].
  { exists false; split; [done |]; split; [done |]; intros (e & x & He & _); by apply not_elem_of_nil in He. }
  destruct (Hes e ltac:(apply elem_of_cons; by left)) as (x & Hx & Hlt); rewrite Hx; cbn [mbind option_bind]; unfold context_IsLiveIn.
  destruct (lookup_lt_is_Some_2 live (edge_dst x)) as [s Hs]; [lia |]; rewrite Hs; cbn [mbind option_bind].
  assert (Hsl : length s = sizeof_CPUState) by (rewrite Forall_forall in Hall; apply Hall; by eapply list_elem_of_lookup_2).
  destruct (lookup_lt_is_Some_2 s d) as [r Hr]; [lia |]; rewrite Hr; cbn [mbind option_bind]; destruct r.
  - exists true; split; [done |]; split; [intros _ | done]; exists e, x; conjs; [apply elem_of_cons; by left | done | by exists s].
  - destruct IH as (r & -> & Hiff); [intros; apply Hes, elem_of_cons; by right |]; exists r; split; [done |]; rewrite Hiff; split.
    + intros (e' & x' & He' & ?); exists e', x'; split; [apply elem_of_cons; by right | done].
    + intros (e' & x' & [-> | He']%elem_of_cons & Hx' & Hlv); [| by exists e', x'].
      assert (x' = x) as -> by congruence; destruct Hlv as (s' & Hs' & Hb); assert (s' = s) as -> by congruence; unfold bit in Hb; congruence.
Qed.

Lemma remove_puts_spec ir live b l :
  out_edges b <> [] -> bits_ok ir sizeof_CPUState live -> (forall e, e ∈ out_edges b -> exists x, edges ir !! e = Some x /\ (edge_dst x < num_bb ir)%nat) ->
  Forall (access_ok ir) l ->
  exists l' seen, remove_puts ir live b l = Some (l', seen) /\ length seen = sizeof_CPUState /\
    (forall d, bit seen d <-> exists j, j ∈ l /\ gets ir j d) /\ dropped ir (context_out ir live b) l l'.
Proof.
  intros Hout Hbits Hes; induction 1 as [| i l [[p Hp] [g Hg]] _ IH]; cbn [remove_puts].
  { eexists _, _; split; [done |]; split; [apply length_replicate |]; split; [| constructor]; intros d; split; [by intros ?%bit_new |].
    intros (j & Hj & _); by apply not_elem_of_nil in Hj. }
  destruct IH as (l1 & seen & -> & Hsl & Hseen & Hdr); cbn [mbind option_bind]; rewrite Hp, Hg; cbn [mbind option_bind].
  assert (Hsame : g = false -> forall d, bit seen d <-> exists j, j ∈ i :: l /\ gets ir j d).
  { intros -> d; rewrite Hseen; split; [intros (j & ? & ?); exists j; split; [apply elem_of_cons; by right | done] |].
    intros (j & [-> | Hj]%elem_of_cons & Hgj); [destruct Hgj; congruence | by exists j]. }
  destruct p.
  - destruct (put_disp Hsize ir i Hp) as (d & Hd & Hlt & Hng); unfold RemovePutIfDead; rewrite (proj2 (Nat.eqb_neq _ _)) by (by destruct (out_edges b)).
    rewrite Hd; cbn [mbind option_bind]; destruct (lookup_lt_is_Some_2 seen d) as [sd Hsd]; [lia |]; rewrite Hsd; cbn [mbind option_bind].
    assert (g = false) by congruence; destruct sd; [exists (i :: l1), seen; conjs; [done | done | auto | by constructor] |].
    destruct (live_into_successor_spec ir live (out_edges b) d Hbits Hes Hlt) as (r & -> & Hr); cbn [mbind option_bind].
    destruct r; [exists (i :: l1), seen; conjs; [done | done | auto | by constructor] |].
    exists l1, seen; conjs; [done | done | auto |]; eapply (dropped_put ir _ i d); [done | done |]; apply no_gets_dead.
    + intros j Hj Hgj; assert (bit seen d) by (apply Hseen; by exists j); unfold bit in *; congruence.
    + unfold context_out; rewrite (proj2 (Nat.eqb_neq _ _)) by (by destruct (out_edges b)); intros Hex; by apply Hr in Hex.
  - destruct g; [| exists (i :: l1), seen; conjs; [done | done | auto | by constructor]].
    destruct (get_disp Hsize ir i Hg) as (d & Hd & Hlt); rewrite Hd; cbn [mbind option_bind]; unfold context_bit; rewrite decide_True by lia; cbn [mbind option_bind].
    exists (i :: l1), (<[d := true]> seen); conjs; [done | by rewrite length_insert | | by constructor].
    intros d'; rewrite bit_insert by lia; rewrite Hseen; split.
    + intros [[-> _] | [_ (j & ? & ?)]]; [exists i; split; [apply elem_of_cons; by left | done] | exists j; split; [apply elem_of_cons; by right | done]].
    + intros (j & [-> | Hj]%elem_of_cons & Hgj); [destruct Hgj as [_ ?]; left; split; [congruence | done] |].
      destruct (decide (d' = d)); [by left | right; split; [done |]; by exists j].
Qed.

End Drop.

(** ** The machine *)

(** The world is the bytes of the context and the rest.  [touches_context] tells
    whether an instruction accesses the context, from the values it reads, and
    [put_bytes] are the bytes that it stores there. *)
Class ContextSem (B M V : Type) `{!MachineSem V (list B * M)} := {
  touches_context : InsnData -> list V -> bool;
  put_bytes : InsnData -> list V -> list B
}.

(** Puts and gets that touch the context touch their bytes only, and what does
    not touch it neither changes it nor depends on it. *)
Class ContextSemOk (B M V : Type) `{!ContextLayout} `{!MachineSem V (list B * M)} `{!ContextSem B M V} := {
  put_length : forall ir i d vals, puts ir i d -> length (put_bytes (data i) vals) = access_size (GetContextAccess i);
  put_exec : forall ir i d vals c m, puts ir i d -> touches_context (data i) vals = true ->
    (exec_insn (data i) (reg_kinds i) vals (c, m)).2 = (list_inserts d (put_bytes (data i) vals) c, m);
  get_exec : forall ir i d vals c c' m n, gets ir i d -> touches_context (data i) vals = true ->
    (forall o, (d <= o < d + access_size (GetContextAccess i))%nat -> c !! o = c' !! o) ->
    (exec_insn (data i) (reg_kinds i) vals (c, m)).2 = (c, m) /\
    (exec_insn (data i) (reg_kinds i) vals (c, m)).1 n = (exec_insn (data i) (reg_kinds i) vals (c', m)).1 n;
  other_exec : forall i vals c c' m n, touches_context (data i) vals = false ->
    (exec_insn (data i) (reg_kinds i) vals (c, m)).2 = (c, (exec_insn (data i) (reg_kinds i) vals (c', m)).2.2) /\
    (exec_insn (data i) (reg_kinds i) vals (c, m)).1 n = (exec_insn (data i) (reg_kinds i) vals (c', m)).1 n;
  context_faults : forall i vals c c' m, insn_faults (data i) (reg_kinds i) vals (c, m) = insn_faults (data i) (reg_kinds i) vals (c', m)
}.

(** An instruction touches the context when it is a put or a get, and not
    otherwise: the base of the others is not the address of the context. *)
Definition respects `{!ContextLayout} {B M V : Type} `{!MachineSem V (list B * M)} `{!ContextSem B M V} (ir : MachineIR) (i : MachineInsn) (vals : list V) : Prop :=
  touches_context (data i) vals = true <-> IsCPUStatePut ir i = Some true \/ IsCPUStateGet ir i = Some true.

(** Puts do not fault and write no register. *)
Definition put_plain `{!ContextLayout} (ir : MachineIR) (i : MachineInsn) : Prop :=
  forall d, puts ir i d -> recovery_bb i = None /\ recovery_pc i = kNullGuestAddr /\ forall r, ~ written (operands i) r.

(** The offsets that instructions access, and the bytes there: those of
    different offsets are apart. *)
Record slots `{!ContextLayout} (ir : MachineIR) (slot : nat -> Prop) (width : nat -> nat) : Prop := {
  sl_width : forall bb b i d, bb ∈ bb_list ir -> blocks ir !! bb = Some b -> i ∈ insn_list b -> puts ir i d \/ gets ir i d ->
    slot d /\ access_size (GetContextAccess i) = width d;
  sl_apart : forall d d' o, slot d -> slot d' -> (d <= o < d + width d)%nat -> (d' <= o < d' + width d')%nat -> d = d';
  sl_bound : forall d, slot d -> (d < sizeof_CPUState)%nat
}.

Section States.
Context {V W : Type} `{!MachineSem V W}.

Definition regs_eq (ρ ρ' : MachineReg -> V) : Prop := forall r, ρ r = ρ' r.

Lemma inputs_eq ops (ρ ρ' : MachineReg -> V) : regs_eq ρ ρ' -> inputs_of ops ρ = inputs_of ops ρ'.
Proof. intros Hr; induction ops as [| [r k] ops IH]; cbn [inputs_of]; [done |]; rewrite IH; destruct (IsInput k); by rewrite ?Hr. Qed.

Lemma write_defs_eq ops : forall n out out' (ρ ρ' : MachineReg -> V), (forall n, out n = out' n) -> regs_eq ρ ρ' -> regs_eq (write_defs ops n out ρ) (write_defs ops n out' ρ').
Proof.
  induction ops as [| [r k] ops IH]; intros n out out' ρ ρ' Ho Hr; cbn [write_defs]; [done |]; destruct (IsDef k); apply IH; try done.
  intros x; unfold set_reg; case_decide; [apply Ho | apply Hr].
Qed.

(** Graphs in lockstep, with a relation on registers and worlds. *)
Definition outcome (R : BlockPtr -> (MachineReg -> V) -> W -> (MachineReg -> V) -> W -> Prop) (o1 o2 : Exit V * (MachineReg -> V) * W) : Prop :=
  o1.1.1 = o2.1.1 /\
  match o1.1.1 with GoTo bb => R bb o1.1.2 o1.2 o2.1.2 o2.2 | _ => o1.2 = o2.2 /\ agree no_vregs o1.1.2 o2.1.2 end.

Lemma lockstep_states_forward ir ir' R :
  (forall bb ρ1 w1 ρ2 w2, R bb ρ1 w1 ρ2 w2 -> exists b b', blocks ir !! bb = Some b /\ blocks ir' !! bb = Some b' /\
     outcome R (run_insns (insn_list b) ρ1 w1) (run_insns (insn_list b') ρ2 w2)) ->
  forall bb ρ1 w1 e ρ1' w', runs ir bb ρ1 w1 e ρ1' w' -> forall ρ2 w2, R bb ρ1 w1 ρ2 w2 ->
  exists ρ2', runs ir' bb ρ2 w2 e ρ2' w' /\ agree no_vregs ρ1' ρ2'.
Proof.
  intros HR bb ρ1 w1 e ρ1' w'; induction 1 as [bb b ρ w e ρ' w' Hb Hrun He | bb b ρ w bb' ρ' w' e ρ'' w'' Hb Hrun _ IH]; intros ρ2 w2 Hr;
    destruct (HR bb ρ w ρ2 w2 Hr) as (b1 & b2 & Hb1 & Hb2 & Hm); assert (b1 = b) as -> by congruence; rewrite Hrun in Hm;
    destruct (run_insns (insn_list b2) ρ2 w2) as [[e2 ρ2'] w2'] eqn:E2; destruct Hm as (He2 & Hr2); cbn in *; subst.
  - exists ρ2'; destruct e2; try done; destruct Hr2 as [-> ?]; (split; [by eapply runs_exit | done]).
  - destruct (IH ρ2' w2' Hr2) as (ρ3 & Hruns & Ha); exists ρ3; split; [by eapply runs_goto | done].
Qed.

Lemma lockstep_states ir ir' R :
  (forall bb ρ1 w1 ρ2 w2, R bb ρ1 w1 ρ2 w2 -> exists b b', blocks ir !! bb = Some b /\ blocks ir' !! bb = Some b' /\
     outcome R (run_insns (insn_list b) ρ1 w1) (run_insns (insn_list b') ρ2 w2)) ->
  forall bb ρ1 ρ2 w, R bb ρ1 w ρ2 w -> same_runs ir ir' bb bb ρ1 ρ2 w.
Proof.
  intros HR bb ρ1 ρ2 w Hr; split; intros e ρ w1 Hruns; [by eapply lockstep_states_forward |].
  destruct (lockstep_states_forward ir' ir (fun bb ρ1 w1 ρ2 w2 => R bb ρ2 w2 ρ1 w1)) with (bb := bb) (ρ1 := ρ2) (w1 := w) (e := e) (ρ1' := ρ) (w' := w1) (ρ2 := ρ1) (w2 := w)
    as (ρ' & ? & ?); try done; [| exists ρ'; split; [done | by apply agree_sym]].
  intros bb' ρa wa ρb wb Hab; destruct (HR bb' ρb wb ρa wa Hab) as (b & b' & ? & ? & Hm); exists b', b; conjs; try done.
  destruct Hm as (E1 & E2); split; [done |]; rewrite <- E1; destruct (run_insns (insn_list b) ρb wb) as [[[] ?] ?]; cbn in *; try done;
    destruct E2; (split; [done | by apply agree_sym]).
Qed.

(** [P] holds of every instruction that is executed, and of the values it reads. *)
Fixpoint executed (P : MachineInsn -> list V -> Prop) (l : list MachineInsn) (ρ : MachineReg -> V) (w : W) : Prop :=
  match l with
  | [] => True
  | i :: l =>
      match fault_of i ρ w, transfer_of i ρ with
      | None, None => P i (inputs_of (operands i) ρ) /\ let '(ρ', w') := exec_regs i ρ w in executed P l ρ' w'
      | _, _ => True
      end
  end.

Lemma executed_weaken (P Q : MachineInsn -> list V -> Prop) l ρ w : (forall i vals, P i vals -> Q i vals) -> executed P l ρ w -> executed Q l ρ w.
Proof.
  intros HPQ; revert ρ w; induction l as [| i l IH]; intros ρ w; cbn [executed]; [done |]; destruct (fault_of i ρ w); [done |]; destruct (transfer_of i ρ); [done |].
  intros [Hp Hl]; split; [auto |]; destruct (exec_regs i ρ w); auto.
Qed.

(** The blocks that an execution gets to. *)
Inductive reaches (ir : MachineIR) (bb : BlockPtr) (ρ : MachineReg -> V) (w : W) : BlockPtr -> (MachineReg -> V) -> W -> Prop :=
  | reaches_here : reaches ir bb ρ w bb ρ w
  | reaches_goto bb1 b ρ1 w1 bb2 ρ2 w2 : reaches ir bb ρ w bb1 ρ1 w1 -> blocks ir !! bb1 = Some b ->
      run_insns (insn_list b) ρ1 w1 = (GoTo bb2, ρ2, w2) -> reaches ir bb ρ w bb2 ρ2 w2.

(** [P] holds throughout the execution. *)
Definition throughout (P : MachineInsn -> list V -> Prop) (ir : MachineIR) (bb : BlockPtr) (ρ : MachineReg -> V) (w : W) : Prop :=
  forall bb1 b ρ1 w1, reaches ir bb ρ w bb1 ρ1 w1 -> blocks ir !! bb1 = Some b -> executed P (insn_list b) ρ1 w1.

Lemma throughout_here P ir bb b ρ w : throughout P ir bb ρ w -> blocks ir !! bb = Some b -> executed P (insn_list b) ρ w.
Proof. intros Hd Hb; by apply (Hd bb b ρ w); [apply reaches_here |]. Qed.

Lemma throughout_goto P ir bb b ρ w bb' ρ' w' :
  throughout P ir bb ρ w -> blocks ir !! bb = Some b -> run_insns (insn_list b) ρ w = (GoTo bb', ρ', w') -> throughout P ir bb' ρ' w'.
Proof.
  intros Hd Hb Hrun bb1 b1 ρ1 w1 Hr; apply Hd; induction Hr as [| bb1 b2 ρ1 w1 bb2 ρ2 w2 _ IH Hb1 Hrun1]; [| by eapply reaches_goto].
  by eapply reaches_goto; [apply reaches_here | |].
Qed.

End States.

(** ** The simulation *)

Section Sim.
Context `{!ContextLayout} (Hsize : (0 < sizeof_CPUState)%nat).
Context {B M V : Type} `{!MachineSem V (list B * M)} `{!ContextSem B M V} `{!ContextSemOk B M V}.
Context (ir : MachineIR) (slot : nat -> Prop) (width : nat -> nat).

(** Contexts that differ in dead slots only. *)
Definition context_agree (Dead : nat -> Prop) (c c' : list B) : Prop :=
  length c = length c' /\ forall o, (forall d, slot d -> Dead d -> ~ (d <= o < d + width d)%nat) -> c !! o = c' !! o.

Lemma context_agree_sub (Dead Dead' : nat -> Prop) c c' :
  (forall d, slot d -> Dead d -> Dead' d) -> context_agree Dead c c' -> context_agree Dead' c c'.
Proof. intros Hs [Hl Ha]; split; [done |]; intros o Ho; apply Ha; intros d Hd Hdead; apply Ho; auto. Qed.

Lemma context_agree_all (Dead : nat -> Prop) c c' : (forall d, slot d -> ~ Dead d) -> context_agree Dead c c' -> c = c'.
Proof. intros Hn [_ Ha]; apply list_eq; intros o; apply Ha; intros d Hd Hdead; by apply Hn in Hdead. Qed.

Definition insn_slots (i : MachineInsn) : Prop :=
  forall d, puts ir i d \/ gets ir i d -> slot d /\ access_size (GetContextAccess i) = width d.
Definition apart : Prop := forall d d' o, slot d -> slot d' -> (d <= o < d + width d)%nat -> (d' <= o < d' + width d')%nat -> d = d'.

Lemma puts_dec i d : Decision (puts ir i d).
Proof. unfold puts; solve_decision. Qed.

(** What is dead before an instruction, and not put by it, is dead after it. *)
Lemma dead_step Out i l d : ~ context_lives ir Out (i :: l) d -> puts ir i d \/ ~ context_lives ir Out l d.
Proof. intros Hn; destruct (puts_dec i d); [by left | right]; intros Hl; apply Hn; cbn; auto. Qed.

(** A put on both sides, and on one side only. *)
Lemma put_both Out i l d bs c c' :
  puts ir i d -> length bs = width d ->
  context_agree (fun d => ~ context_lives ir Out (i :: l) d) c c' ->
  context_agree (fun d => ~ context_lives ir Out l d) (list_inserts d bs c) (list_inserts d bs c').
Proof.
  intros Hp Hw [Hl Ha]; split; [by rewrite !length_inserts |]; intros o Ho; destruct (decide (d <= o < d + length bs)%nat) as [Hin | Hout]; [by apply inserts_inside |].
  rewrite !inserts_outside by done; apply Ha; intros d' Hd' [Hp' | Hdead]%dead_step; [| by apply Ho].
  assert (d' = d) as -> by (destruct Hp, Hp'; congruence); by rewrite <- Hw.
Qed.

Lemma put_dropped Out i l d bs c c' :
  puts ir i d -> slot d -> length bs = width d -> ~ context_lives ir Out l d ->
  context_agree (fun d => ~ context_lives ir Out (i :: l) d) c c' ->
  context_agree (fun d => ~ context_lives ir Out l d) (list_inserts d bs c) c'.
Proof.
  intros Hp Hs Hw Hdead [Hl Ha]; split; [by rewrite length_inserts |]; intros o Ho.
  rewrite inserts_outside by (rewrite Hw; by apply Ho); apply Ha; intros d' Hd' [Hp' | Hdead']%dead_step; [| by apply Ho].
  assert (d' = d) as -> by (destruct Hp, Hp'; congruence); by apply Ho.
Qed.

(** A put, run. *)
Lemma exec_put i d ρ c m :
  put_plain ir i -> puts ir i d -> respects ir i (inputs_of (operands i) ρ) ->
  (exec_regs i ρ (c, m)).2 = (list_inserts d (put_bytes (data i) (inputs_of (operands i) ρ)) c, m) /\ regs_eq (exec_regs i ρ (c, m)).1 ρ.
Proof.
  intros Hpl Hp Hre; unfold exec_regs; pose proof (put_exec ir i d (inputs_of (operands i) ρ) c m Hp (proj2 Hre (or_introl (proj1 Hp)))) as He.
  destruct (exec_insn _ _ _ _) as [out w]; cbn in *; split; [done |]; intros r; apply write_defs_unwritten, (Hpl d Hp).
Qed.

(** An instruction on both sides. *)
Lemma exec_context Out i l ρ ρ' c c' m :
  access_ok ir i -> put_plain ir i -> insn_slots i -> apart -> regs_eq ρ ρ' -> respects ir i (inputs_of (operands i) ρ) ->
  context_agree (fun d => ~ context_lives ir Out (i :: l) d) c c' ->
  exists c1 c1' m1, (exec_regs i ρ (c, m)).2 = (c1, m1) /\ (exec_regs i ρ' (c', m)).2 = (c1', m1) /\
    regs_eq (exec_regs i ρ (c, m)).1 (exec_regs i ρ' (c', m)).1 /\ context_agree (fun d => ~ context_lives ir Out l d) c1 c1'.
Proof.
  intros [[p Hp] [g Hg]] Hpl Hsl Hap Hr Hre Ha; pose proof Hre as Hre'; rewrite (inputs_eq (operands i) ρ ρ' Hr) in Hre'.
  assert (Hnext : p = false -> context_agree (fun d => ~ context_lives ir Out l d) c c').
  { intros ->; eapply context_agree_sub; [| exact Ha]; intros d _ [[Hp' _] | ?]%dead_step; [congruence | done]. }
  destruct p.
  - destruct (put_disp Hsize ir i Hp) as (d & Hd & _); assert (Hpd : puts ir i d) by done; destruct (Hsl d (or_introl Hpd)) as [Hs Hw].
    destruct (exec_put i d ρ c m Hpl Hpd Hre) as [E1 R1], (exec_put i d ρ' c' m Hpl Hpd Hre') as [E2 R2]; rewrite <- (inputs_eq (operands i) ρ ρ' Hr) in E2.
    eexists _, _, m; conjs; [exact E1 | exact E2 | intros r; by rewrite R1, R2 |]; apply (put_both Out i); [done | by rewrite (put_length ir i d) | done].
  - unfold exec_regs; rewrite <- (inputs_eq (operands i) ρ ρ' Hr); set (vals := inputs_of (operands i) ρ).
    assert (Hex : exists m1, (exec_insn (data i) (reg_kinds i) vals (c, m)).2 = (c, m1) /\ (exec_insn (data i) (reg_kinds i) vals (c', m)).2 = (c', m1) /\
      forall k, (exec_insn (data i) (reg_kinds i) vals (c, m)).1 k = (exec_insn (data i) (reg_kinds i) vals (c', m)).1 k).
    { destruct g.
      - destruct (get_disp Hsize ir i Hg) as (d & Hd & _); assert (Hgd : gets ir i d) by done; destruct (Hsl d (or_intror Hgd)) as [Hs Hw].
        assert (Hbytes : forall o, (d <= o < d + access_size (GetContextAccess i))%nat -> c !! o = c' !! o).
        { intros o Ho; apply Ha; intros d' Hs' Hdead Ho'; rewrite Hw in Ho; assert (d' = d) as -> by (by apply (Hap d' d o)); apply Hdead; by left. }
        assert (Ht : touches_context (data i) vals = true) by (apply Hre; by right).
        exists m; conjs; [by apply (get_exec ir i d vals c c' m 0%nat) | by apply (get_exec ir i d vals c' c' m 0%nat) |]; intros k; by apply (get_exec ir i d).
      - assert (Ht : touches_context (data i) vals = false) by (apply not_true_is_false; intros [? | ?]%Hre; congruence).
        exists (exec_insn (data i) (reg_kinds i) vals (c', m)).2.2.
        destruct (other_exec i vals c c' m 0%nat Ht) as [E1 _], (other_exec i vals c' c' m 0%nat Ht) as [E2 _].
        conjs; [exact E1 | exact E2 |]; intros k; by apply other_exec. }
    destruct Hex as (m1 & E1 & E2 & Hout); exists c, c', m1.
    destruct (exec_insn (data i) (reg_kinds i) vals (c, m)) as [out w], (exec_insn (data i) (reg_kinds i) vals (c', m)) as [out' w']; cbn in *.
    conjs; [done | done | | auto]; by apply write_defs_eq.
Qed.

Lemma fault_context i ρ ρ' c c' m : regs_eq ρ ρ' -> fault_of i ρ (c, m) = fault_of (V := V) i ρ' (c', m).
Proof. intros Hr; unfold fault_of; by rewrite (inputs_eq (operands i) ρ ρ' Hr), (context_faults i _ c c' m). Qed.
Lemma transfer_context i (ρ ρ' : MachineReg -> V) : regs_eq ρ ρ' -> transfer_of i ρ = transfer_of i ρ'.
Proof. intros Hr; unfold transfer_of, first_input; by rewrite (inputs_eq (operands i) ρ ρ' Hr). Qed.

(** Where a run stops: at the end, at a fault or at a control transfer. *)
Definition stops_at (post : list MachineInsn) (ρ : MachineReg -> V) (w : list B * M) (e : Exit V) : Prop :=
  match post with
  | [] => e = NoExit
  | i :: _ => fault_of i ρ w = Some e \/ transfer_of i ρ = Some e
  end.

Lemma dropped_sim Out l l' : dropped ir Out l l' -> Forall (access_ok ir) l -> Forall (put_plain ir) l -> Forall insn_slots l -> apart ->
  forall ρ ρ' c c' m, regs_eq ρ ρ' -> executed (respects ir) l ρ (c, m) -> context_agree (fun d => ~ context_lives ir Out l d) c c' ->
  exists e ρ1 ρ1' c1 c1' m1 pre post, run_insns l ρ (c, m) = (e, ρ1, (c1, m1)) /\ run_insns l' ρ' (c', m) = (e, ρ1', (c1', m1)) /\
    regs_eq ρ1 ρ1' /\ l = pre ++ post /\ context_agree (fun d => ~ context_lives ir Out post d) c1 c1' /\ stops_at post ρ1 (c1, m1) e /\
    executed (respects ir) l' ρ' (c', m).
Proof.
  induction 1 as [| i l l' _ IH | i d l l' _ IH Hp Hdead]; intros Hacc Hpl Hsl Hap ρ ρ' c c' m Hr Hre Ha.
  - exists NoExit, ρ, ρ', c, c', m, [], []; done.
  - apply Forall_cons in Hacc as [Hai Hal], Hpl as [Hpi Hpl], Hsl as [Hsi Hsl]; cbn [run_insns]; cbn [executed] in Hre |- *.
    rewrite <- (fault_context i ρ ρ' c c' m Hr), <- (transfer_context i ρ ρ' Hr).
    destruct (fault_of i ρ (c, m)) as [e |] eqn:Ef; [exists e, ρ, ρ', c, c', m, [], (i :: l); conjs; try done; by left |].
    destruct (transfer_of i ρ) as [e |] eqn:Et; [exists e, ρ, ρ', c, c', m, [], (i :: l); conjs; try done; by right |].
    destruct Hre as [Hre Hrl]; destruct (exec_context Out i l ρ ρ' c c' m Hai Hpi Hsi Hap Hr Hre Ha) as (c1 & c1' & m1 & E1 & E2 & Hr1 & Ha1).
    rewrite (inputs_eq _ ρ ρ' Hr) in Hre; destruct (exec_regs i ρ (c, m)) as [ρ1 w1], (exec_regs i ρ' (c', m)) as [ρ1' w1']; cbn in E1, E2, Hr1; subst.
    destruct (IH Hal Hpl Hsl Hap ρ1 ρ1' c1 c1' m1 Hr1 Hrl Ha1) as (e & ρ2 & ρ2' & c2 & c2' & m2 & pre & post & ? & ? & ? & -> & ? & ? & ?).
    exists e, ρ2, ρ2', c2, c2', m2, (i :: pre), post; done.
  - apply Forall_cons in Hacc as [Hai Hal], Hpl as [Hpi Hpl], Hsl as [Hsi Hsl]; cbn [run_insns]; cbn [executed] in Hre.
    destruct (Hpi d Hp) as (Hrb & Hpc & _); destruct (Hsi d (or_introl Hp)) as [Hs Hw].
    assert (fault_of i ρ (c, m) = None) as Ef by (unfold fault_of; rewrite Hrb, Hpc, Z.eqb_refl; by destruct (insn_faults _ _ _ _)).
    assert (transfer_of i ρ = None) as Et by (by eapply transfer_none, put_no_transfer).
    rewrite Ef, Et in Hre |- *; destruct Hre as [Hre Hrl]; destruct (exec_put i d ρ c m Hpi Hp Hre) as [E1 R1]; destruct (exec_regs i ρ (c, m)) as [ρ1 w1]; cbn in E1, R1; subst.
    destruct (IH Hal Hpl Hsl Hap ρ1 ρ' (list_inserts d (put_bytes (data i) (inputs_of (operands i) ρ)) c) c' m) as (e & ρ2 & ρ2' & c2 & c2' & m2 & pre & post & ? & ? & ? & -> & ? & ? & ?).
    + intros r; by rewrite R1.
    + done.
    + apply (put_dropped Out i); [done | done | by rewrite (put_length ir i d) | done | done].
    + exists e, ρ2, ρ2', c2, c2', m2, (i :: pre), post; done.
Qed.

(** An instruction that may leave the list is no put and has none after it. *)
Definition puts_before_exits (l : list MachineInsn) : Prop :=
  forall pre i post, l = pre ++ i :: post -> recovery_bb i <> None \/ recovery_pc i <> kNullGuestAddr \/ IsControlTransfer i = true ->
  forall j d, j ∈ i :: post -> ~ puts ir j d.

Lemma no_puts_lives (Out : nat -> Prop) l d : (forall j, j ∈ l -> ~ puts ir j d) -> Out d -> context_lives ir Out l d.
Proof.
  intros Hn Ho; induction l as [| i l IH]; cbn [context_lives]; [done |]; right; split; [apply Hn, elem_of_cons; by left |].
  apply IH; intros j Hj; apply Hn, elem_of_cons; by right.
Qed.

Lemma fault_recovers i (ρ : MachineReg -> V) (w : list B * M) e : fault_of i ρ w = Some e -> recovery_bb i <> None \/ recovery_pc i <> kNullGuestAddr.
Proof.
  unfold fault_of; destruct (insn_faults _ _ _ _); [| done]; destruct (recovery_bb i); [by left |]; intros Hf; right; intros E; by rewrite E, Z.eqb_refl in Hf.
Qed.

(** What lives out of the list lives where it is left. *)
Lemma left_lives l pre post (ρ : MachineReg -> V) w e (Out : nat -> Prop) d :
  puts_before_exits l -> l = pre ++ post -> stops_at post ρ w e -> Out d -> context_lives ir Out post d.
Proof.
  intros Hex Hl Hst Ho; apply no_puts_lives; [| done]; destruct post as [| i post]; [by intros j ?%not_elem_of_nil |]; intros j Hj; eapply Hex; [exact Hl | | done].
  destruct Hst as [[? | ?]%fault_recovers | Ht]; [by left | by right; left | right; right; apply (transfer_control i ρ); by exists e].
Qed.

End Sim.

(** ** The pass *)

Section Pass.
Context `{!ContextLayout} (Hsize : (0 < sizeof_CPUState)%nat).

Lemma wf_graph_cfg ir : wf_graph ir -> regs_in_range ir -> wf_cfg ir.
Proof.
  intros Hwf Hr; split.
  - intros bb Hbb; destruct (wg_block _ Hwf bb Hbb) as (b & Hb & _); exists b; split; [done |]; apply (wg_id _ Hwf); by exists b.
  - apply (wg_nodup _ Hwf).
  - intros bb b e Hbb Hb He; destruct (bo_out _ _ _ (wg_ok _ _ _ Hwf Hbb Hb) e He) as (x & d & Hx & Hs & Hd & Hbd & Hin); exists x; conjs; try done; by exists d.
  - intros bb b e Hbb Hb He; destruct (bo_in _ _ _ (wg_ok _ _ _ Hwf Hbb Hb) e He) as (x & d & Hx & Hs & Hd & _); by exists x.
  - intros bb b i r k Hbb Hb Hi Ho Hv; apply IsVReg_index in Hv as [v Hv]; exists v; split; [done |]; by apply (rr_insns _ Hr bb b i (r, k)).
Qed.

(** The blocks are all that changed. *)
Definition only_blocks (ir ir' : MachineIR) : Prop := ir' = set_blocks (blocks ir') ir.

Lemma for_each_only_blocks {A} (f : A -> MachineIR -> option MachineIR) l :
  (forall x ir ir', f x ir = Some ir' -> only_blocks ir ir') -> forall ir ir', for_each f l ir = Some ir' -> only_blocks ir ir'.
Proof.
  intros Hf; induction l as [| x l IH]; intros ir ir'; cbn [for_each]; [intros [= <-]; by destruct ir |].
  destruct (f x ir) as [ir1 |] eqn:E; cbn [mbind option_bind]; [| done]; intros E'%IH; apply Hf in E; unfold only_blocks in *; by rewrite E', E.
Qed.

(** What the pass does not look at. *)
Record same_context (ir ir1 : MachineIR) : Prop := {
  sc_folding : insn_folding_executed ir1 = insn_folding_executed ir;
  sc_edges : edges ir1 = edges ir
}.

Lemma same_put ir ir1 i : same_context ir ir1 -> IsCPUStatePut ir1 i = IsCPUStatePut ir i.
Proof. intros [Hf _]; unfold IsCPUStatePut; by rewrite Hf. Qed.
Lemma same_get ir ir1 i : same_context ir ir1 -> IsCPUStateGet ir1 i = IsCPUStateGet ir i.
Proof. intros [Hf _]; unfold IsCPUStateGet; by rewrite Hf. Qed.

Lemma remove_puts_same ir ir1 live b l : same_context ir ir1 -> remove_puts ir1 live b l = remove_puts ir live b l.
Proof.
  intros Hs; assert (Hsucc : forall es d, live_into_successor ir1 live es d = live_into_successor ir live es d).
  { intros es d; induction es as [| e es IH]; cbn [live_into_successor]; [done |]; rewrite (sc_edges _ _ Hs); destruct (edges ir !! e); cbn [mbind option_bind]; [| done].
    destruct (context_IsLiveIn live _ d) as [[] |]; cbn [mbind option_bind]; done. }
  induction l as [| i l IH]; cbn [remove_puts]; [done |]; rewrite IH; destruct (remove_puts ir live b l) as [[l1 seen] |]; cbn [mbind option_bind]; [| done].
  rewrite (same_put ir ir1 i Hs), (same_get ir ir1 i Hs); unfold RemovePutIfDead; destruct (disp_of i) as [d |]; cbn [mbind option_bind]; [| done].
  by rewrite (Hsucc (out_edges b) d).
Qed.

(** What the passes rely on and do not check: accesses at one offset have one
    width, and an instruction that may leave the block in the middle has no put
    after it.  The frontends emit such graphs: [GenRecoveryBlockForLastInsn] ends
    the block with a branch right after the instruction that gets a recovery
    block. *)
Record access_graph (ir : MachineIR) (slot : nat -> Prop) (width : nat -> nat) : Prop := {
  ag_graph : wf_graph ir;
  ag_slots : slots ir slot width;
  ag_insns : forall bb b i, bb ∈ bb_list ir -> blocks ir !! bb = Some b -> i ∈ insn_list b -> access_ok ir i /\ put_plain ir i;
  ag_leaves : forall bb b pre i post, bb ∈ bb_list ir -> blocks ir !! bb = Some b -> insn_list b = pre ++ i :: post ->
    recovery_bb i <> None \/ recovery_pc i <> kNullGuestAddr -> forall j d, j ∈ post -> ~ puts ir j d
}.

(** Moreover, a block with out edges leaves the graph along them only: none of
    its instructions recovers to a guest address (no frontend asks for that), and
    it ends in a branch. *)
Record putting (ir : MachineIR) (slot : nat -> Prop) (width : nat -> nat) : Prop := {
  pg_access : access_graph ir slot width;
  pg_regs : regs_in_range ir;
  pg_inside : forall bb b, bb ∈ bb_list ir -> blocks ir !! bb = Some b -> out_edges b <> [] ->
    (forall i, i ∈ insn_list b -> recovery_pc i = kNullGuestAddr) /\ exists i, last (insn_list b) = Some i /\ targets i <> []
}.

Section Access.
Context (ir : MachineIR) (slot : nat -> Prop) (width : nat -> nat) (Hag : access_graph ir slot width).

Lemma accesses_ok bb b : bb ∈ bb_list ir -> blocks ir !! bb = Some b -> Forall (access_ok ir) (insn_list b).
Proof. intros Hbb Hb; apply Forall_forall; intros i Hi; by apply (ag_insns _ _ _ Hag bb b). Qed.

Lemma transfer_last bb b pre i post :
  bb ∈ bb_list ir -> blocks ir !! bb = Some b -> insn_list b = pre ++ i :: post -> IsControlTransfer i = true -> post = [].
Proof.
  intros Hbb Hb Hl Ht; destruct (bo_last _ _ _ (wg_ok _ _ _ (ag_graph _ _ _ Hag) Hbb Hb)) as (l & j & Hlj & _ & Hall & _).
  destruct post as [| k post _] using rev_ind; [done |]; exfalso.
  assert (pre ++ i :: post = l) as <-.
  { rewrite Hl in Hlj; rewrite app_comm_cons, app_assoc in Hlj; by apply app_inj_tail in Hlj as [? _]. }
  apply Forall_app in Hall as [_ [Hi _]%Forall_cons]; congruence.
Qed.

Lemma access_exits bb b : bb ∈ bb_list ir -> blocks ir !! bb = Some b -> puts_before_exits ir (insn_list b).
Proof.
  intros Hbb Hb pre i post Hl Hex j d Hj Hp.
  assert (Hi : i ∈ insn_list b) by (rewrite Hl; apply elem_of_middle); destruct (ag_insns _ _ _ Hag bb b i Hbb Hb Hi) as [_ Hpl].
  apply elem_of_cons in Hj as [-> | Hj].
  - destruct (Hpl d Hp) as (? & ? & _); destruct Hex as [? | [? | Hc]]; [done | done |]; apply put_no_transfer in Hp; congruence.
  - assert (recovery_bb i <> None \/ recovery_pc i <> kNullGuestAddr \/ post = []) as Hex'.
    { destruct Hex as [? | [? | Hc]]; [by left | by right; left | right; right]; by eapply transfer_last. }
    destruct Hex' as [? | [? | ->]]; [| | by apply not_elem_of_nil in Hj]; apply (ag_leaves _ _ _ Hag bb b pre i post Hbb Hb Hl) with (j := j) (d := d); auto.
Qed.

Lemma block_insns bb b : bb ∈ bb_list ir -> blocks ir !! bb = Some b ->
  Forall (access_ok ir) (insn_list b) /\ Forall (put_plain ir) (insn_list b) /\ Forall (insn_slots ir slot width) (insn_list b).
Proof.
  intros Hbb Hb; rewrite !Forall_forall; conjs; intros i Hi; [by apply (ag_insns _ _ _ Hag bb b) | by apply (ag_insns _ _ _ Hag bb b) |].
  intros d; by apply (sl_width _ _ _ (ag_slots _ _ _ Hag) bb b).
Qed.

End Access.

Section Graph.
Context (ir : MachineIR) (slot : nat -> Prop) (width : nat -> nat) (Hpg : putting ir slot width).
#[local] Abbreviation Hag := (pg_access ir slot width Hpg) (only parsing).

Lemma putting_edges bb b e : bb ∈ bb_list ir -> blocks ir !! bb = Some b -> e ∈ out_edges b -> exists x, edges ir !! e = Some x /\ (edge_dst x < num_bb ir)%nat.
Proof.
  intros Hbb Hb He; destruct (bo_out _ _ _ (wg_ok _ _ _ (ag_graph _ _ _ Hag) Hbb Hb) e He) as (x & d & Hx & _ & _ & Hd & _); exists x; split; [done |].
  apply (wg_id _ (ag_graph _ _ _ Hag)); by exists d.
Qed.

Lemma set_insn_list_same b : set_insn_list (insn_list b) b = b.
Proof. by destruct b. Qed.

Lemma remove_puts_loop live l : bits_ok ir sizeof_CPUState live -> forall ir1,
  NoDup l -> same_context ir ir1 -> (forall bb, bb ∈ l -> bb ∈ bb_list ir /\ blocks ir1 !! bb = blocks ir !! bb) ->
  exists ir', for_each (remove_puts_block live) l ir1 = Some ir' /\ bb_list ir' = bb_list ir1 /\
    (forall bb, bb ∉ l -> blocks ir' !! bb = blocks ir1 !! bb) /\
    forall bb, bb ∈ l -> exists b l', blocks ir !! bb = Some b /\ blocks ir' !! bb = Some (set_insn_list l' b) /\
      dropped ir (context_out ir live b) (insn_list b) l'.
Proof.
  intros Hbits; induction l as [| bb l IH]; intros ir1 Hnd Hsc Hl; cbn [for_each].
  { exists ir1; conjs; try done; intros bb Hbb; by apply not_elem_of_nil in Hbb. }
  apply NoDup_cons in Hnd as [Hnb Hnd]; destruct (Hl bb ltac:(apply elem_of_cons; by left)) as [Hbb Heq].
  destruct (wg_block _ (ag_graph _ _ _ Hag) bb Hbb) as (b & Hb & _).
  assert (exists ir2 l', remove_puts_block live bb ir1 = Some ir2 /\ same_context ir ir2 /\ bb_list ir2 = bb_list ir1 /\
    (forall y, y <> bb -> blocks ir2 !! y = blocks ir1 !! y) /\ blocks ir2 !! bb = Some (set_insn_list l' b) /\ dropped ir (context_out ir live b) (insn_list b) l')
    as (ir2 & l' & -> & Hsc2 & Hl2 & Ho2 & Hb2 & Hd2).
  { unfold remove_puts_block; rewrite Heq, Hb; cbn [mbind option_bind]; destruct (out_edges b) as [| e es] eqn:Eo; cbn [length Nat.eqb].
    - exists ir1, (insn_list b); conjs; try done; [by rewrite set_insn_list_same, Heq | apply dropped_refl].
    - rewrite (remove_puts_same ir ir1 live b _ Hsc); destruct (remove_puts_spec Hsize ir live b (insn_list b)) as (l' & seen & -> & _ & _ & Hd); try done.
      + by rewrite Eo.
      + intros e' He'; by eapply putting_edges.
      + by eapply (accesses_ok _ _ _ Hag).
      + cbn [mbind option_bind]; eexists _, l'; split; [done |]; conjs; try done; [by destruct Hsc | |].
        * intros y Hy; cbn; by rewrite lookup_alter_ne.
        * cbn; by rewrite lookup_alter_eq, Heq, Hb. }
  cbn [mbind option_bind]; destruct (IH ir2 Hnd Hsc2) as (ir' & E & H1 & H2 & H3).
  { intros y Hy; destruct (Hl y ltac:(apply elem_of_cons; by right)) as [? Hy']; split; [done |]; rewrite Ho2; [done |]; intros ->; done. }
  exists ir'; conjs; [done | congruence | |].
  - intros y [Hne Hy]%not_elem_of_cons; by rewrite H2, Ho2.
  - intros y [-> | Hy]%elem_of_cons; [| by apply H3]; exists b, l'; by rewrite H2.
Qed.


(** What lives out of the graph is all of the context, and what lives into a
    successor lives out of the block. *)
Lemma goto_lives live bb b i t d :
  bb ∈ bb_list ir -> blocks ir !! bb = Some b -> i ∈ insn_list b -> t ∈ successors i -> live_at live t d -> context_out ir live b d.
Proof.
  intros Hbb Hb Hi Ht Hl; pose proof (wg_ok _ _ _ (ag_graph _ _ _ Hag) Hbb Hb) as Hok.
  apply (bo_successors _ _ _ _ _ Hok Hi), elem_of_dsts in Ht as (e & x & He & Hx & <-).
  unfold context_out; rewrite (proj2 (Nat.eqb_neq _ _)); [by exists e, x |]; destruct (out_edges b); [by apply not_elem_of_nil in He | done].
Qed.

Section Run.
Context {B M V : Type} `{!MachineSem V (list B * M)} `{!ContextSem B M V} `{!ContextSemOk B M V}.

(** A block with out edges is left along them. *)
Lemma final_exit bb b pre post (ρ : MachineReg -> V) w e :
  bb ∈ bb_list ir -> blocks ir !! bb = Some b -> insn_list b = pre ++ post -> stops_at post ρ w e -> is_final e -> post <> [] -> out_edges b = [].
Proof.
  intros Hbb Hb Hl Hst He Hne; destruct (out_edges b) eqn:Eo; [done |]; exfalso.
  destruct (pg_inside _ _ _ Hpg bb b Hbb Hb) as [Hpc (t & Hlast & Ht)]; [by rewrite Eo |].
  destruct post as [| i post]; [done |]; destruct Hst as [Hf | Htr].
  - unfold fault_of in Hf; rewrite (Hpc i) in Hf by (rewrite Hl; apply elem_of_middle); destruct (insn_faults _ _ _ _); [| done].
    destruct (recovery_bb i); [by injection Hf as <- | done].
  - assert (post = []) as -> by (eapply (transfer_last _ _ _ Hag); [exact Hbb | exact Hb | exact Hl |]; apply (transfer_control i ρ); by exists e); rewrite Hl, last_snoc in Hlast; injection Hlast as <-.
    unfold transfer_of in Htr; unfold targets in Ht; destruct (data i); try done; by injection Htr as <-.
Qed.

(** A block does not run off its end. *)
Lemma run_exits l i (ρ : MachineReg -> V) w ρ' w' : IsControlTransfer i = true -> run_insns (l ++ [i]) ρ w <> (NoExit, ρ', w').
Proof.
  intros Hc; revert ρ w; induction l as [| j l IH]; intros ρ w; cbn [app run_insns].
  - destruct (fault_of i ρ w) as [e |] eqn:Ef; [| destruct (proj2 (transfer_control i ρ) Hc) as [e Ht]; rewrite Ht].
    + unfold fault_of in Ef; destruct (insn_faults _ _ _ _); [| done]; destruct (recovery_bb i); [by intros [= ->] |].
      destruct (recovery_pc i =? kNullGuestAddr); [done | by intros [= ->]].
    + unfold transfer_of in Ht; destruct (data i); try done; injection Ht as <-; done.
  - destruct (fault_of j ρ w) as [e |] eqn:Ef.
    { unfold fault_of in Ef; destruct (insn_faults _ _ _ _); [| done]; destruct (recovery_bb j); [by intros [= ->] |].
      destruct (recovery_pc j =? kNullGuestAddr); [done | by intros [= ->]]. }
    destruct (transfer_of j ρ) as [e |] eqn:Et; [unfold transfer_of in Et; destruct (data j); try done; injection Et as <-; done |].
    destruct (exec_regs j ρ w); apply IH.
Qed.

(** The contexts of the two graphs at the beginning of a block. *)
Definition context_related (live : list VRegBitSet) (bb : BlockPtr) (ρ : MachineReg -> V) (w : list B * M) (ρ' : MachineReg -> V) (w' : list B * M) : Prop :=
  bb ∈ bb_list ir /\ throughout (respects ir) ir bb ρ w /\ regs_eq ρ ρ' /\ w.2 = w'.2 /\ context_agree slot width (fun d => ~ live_at live bb d) w.1 w'.1.

Lemma block_outcome live bb b l' ρ w ρ' w' :
  (forall bb d, bb ∈ bb_list ir -> live_at live bb d <-> context_transfer ir live bb d) ->
  blocks ir !! bb = Some b -> dropped ir (context_out ir live b) (insn_list b) l' -> context_related live bb ρ w ρ' w' ->
  outcome (context_related live) (run_insns (insn_list b) ρ w) (run_insns l' ρ' w').
Proof.
  intros Hfix Hb Hd (Hbb & Hdis & Hr & Hm & Ha); destruct w as [c m], w' as [c' m']; cbn in Hm, Ha; subst m'.
  destruct (block_insns _ _ _ Hag bb b Hbb Hb) as (Hacc & Hpl & Hsl).
  destruct (dropped_sim Hsize ir slot width _ _ _ Hd Hacc Hpl Hsl (sl_apart _ _ _ (ag_slots _ _ _ Hag)) ρ ρ' c c' m Hr)
    as (e & ρ1 & ρ1' & c1 & c1' & m1 & pre & post & E1 & E2 & Hr1 & Hl & Ha1 & Hst & _).
  { by eapply throughout_here. }
  { eapply context_agree_sub; [| exact Ha]; intros d _ Hn Hl; apply Hn, Hfix; [done |]; by exists b. }
  assert (Hne : e <> NoExit).
  { intros ->; destruct (bo_last _ _ _ (wg_ok _ _ _ (ag_graph _ _ _ Hag) Hbb Hb)) as (l & i & Hli & Hc & _).
    rewrite Hli in E1; by apply run_exits in E1. }
  assert (Hpost : post <> []) by (intros ->; by apply Hne).
  rewrite E1, E2; split; [done |]; cbn [fst snd].
  assert (Hfin : is_final e -> c1 = c1').
  { intros Hf; eapply context_agree_all; [| exact Ha1]; intros d Hs Hn; apply Hn; eapply left_lives; [by eapply (access_exits _ _ _ Hag) | exact Hl | exact Hst |].
    unfold context_out; rewrite (final_exit bb b pre post ρ1 (c1, m1) e Hbb Hb Hl Hst Hf Hpost); by apply (sl_bound _ _ _ (ag_slots _ _ _ Hag)). }
  destruct e as [t | | | |]; try (split; [by rewrite Hfin | intros r _; apply Hr1]).
  destruct (run_insns_goto _ _ _ _ _ _ E1) as (j & _ & _); destruct post as [| i post]; [done |].
  assert (Hi : i ∈ insn_list b) by (rewrite Hl; apply elem_of_middle).
  assert (Ht : t ∈ successors i) by (destruct Hst; [by eapply fault_goto | by eapply transfer_goto]).
  split; [| split; [| split; [done | split; [done |]]]].
  - eapply bo_dst; [apply (wg_ok _ _ _ (ag_graph _ _ _ Hag) Hbb Hb) |]; eapply bo_successors; [apply (wg_ok _ _ _ (ag_graph _ _ _ Hag) Hbb Hb) | done | done].
  - by eapply throughout_goto.
  - eapply context_agree_sub; [| exact Ha1]; intros d _ Hn Hlive; apply Hn; eapply left_lives; [by eapply (access_exits _ _ _ Hag) | exact Hl | exact Hst |]; by eapply goto_lives.
Qed.

(** The pass, block by block. *)
Lemma RemoveRedundantPut_blocks fuel :
  (work_bound ir sizeof_CPUState <= fuel)%nat ->
  exists ir', RemoveRedundantPut fuel ir = Some (true, ir') /\ only_blocks ir ir' /\
    (forall bb, bb ∉ bb_list ir -> blocks ir' !! bb = blocks ir !! bb) /\
    (forall bb, bb ∈ bb_list ir -> exists b l' Out, blocks ir !! bb = Some b /\ blocks ir' !! bb = Some (set_insn_list l' b) /\ dropped ir Out (insn_list b) l') /\
    forall bb (ρ : MachineReg -> V) c m, bb ∈ bb_list ir -> throughout (respects ir) ir bb ρ (c, m) -> same_runs ir ir' bb bb ρ ρ (c, m).
Proof.
  intros Hf; destruct (Init_solves Hsize ir fuel) as (live & Hinit & Hbits & Hfix); [apply wf_graph_cfg; [apply Hag | apply Hpg] | | done |].
  { intros bb b; apply (accesses_ok _ _ _ Hag). }
  destruct (remove_puts_loop live (bb_list ir) Hbits ir) as (ir' & Hloop & Hlist & Hout & Hblocks); [apply (wg_nodup _ (ag_graph _ _ _ Hag)) | done | done |].
  exists ir'; unfold RemoveRedundantPut; rewrite Hinit; cbn [mbind option_bind]; rewrite Hloop; conjs; [done | | done | |].
  - eapply for_each_only_blocks; [| exact Hloop]; intros bb ir1 ir2; unfold remove_puts_block; destruct (blocks ir1 !! bb) as [b |]; cbn [mbind option_bind]; [| done].
    destruct (_ =? _)%nat; [by intros [= <-]; destruct ir1 |]; destruct (remove_puts _ _ _ _) as [[l seen] |]; cbn [mbind option_bind]; [| done]; by intros [= <-].
  - intros bb Hbb; destruct (Hblocks bb Hbb) as (b & l' & ? & ? & ?); by exists b, l', (context_out ir live b).
  - intros bb ρ c m Hbb Hdis; apply (lockstep_states ir ir' (context_related live)); [| by split; [| split; [| split; [| split; [| split]]]]].
    intros y ρ1 w1 ρ2 w2 Hr; destruct (Hblocks y (proj1 Hr)) as (b & l' & Hb & Hb' & Hd); exists b, (set_insn_list l' b); conjs; [done | done |].
    by eapply block_outcome.
Qed.


End Run.
End Graph.
End Pass.
