(* ===== verification/LocalContext.v ===== *)
(** * Accesses to the guest context within a block

    [RemoveLocalGuestContextAccesses] of [x86_64/local_guest_context_optimizer.cc]:
    in every block, loads of a guest register whose value is in a host register
    become copies, and stores that the block overwrites are erased.

    [MovqRegImm] is a generated instruction and a parameter, and so is the order
    that [std::sort] gives to offsets with the same count.  [None] is a failed
    [CHECK], a [FATAL] or an index out of range. *)
From stdpp Require Import gmap list.
From S2P Require Import Prelude MachineIR Lifetime LifetimeAnalysis Liveness MachineIRCheck MachineSem BlockOrder ControlFlow GuestContext.
#[local] Open Scope Z_scope.

Abbreviation OffsetCounterMap := (list (nat * Z)) (only parsing).

(** [std::sort] by counts, the greatest first. *)
Class OffsetSort := {
  sort_counters : OffsetCounterMap -> OffsetCounterMap;
  sort_perm : forall l, sort_counters l ≡ₚ l;
  sort_sorted : forall l i j x y, sort_counters l !! i = Some x -> sort_counters l !! j = Some y -> (i < j)%nat -> y.2 <= x.2
}.

(** [MovqRegImm(dst, imm)]. *)
Class HostInsns := { MovqRegImm : MachineReg -> Z -> MachineInsn }.

(** [IsSimdOffset] of [guest_state/riscv64/guest_state_arch.cc]. *)
Definition IsSimdOffset `{!ContextLayout} (offset : nat) : bool := (v_offset <=? offset)%nat && (offset - v_offset <? sizeof_v)%nat.

Record OptimizeLocalParams := { general_reg_limit : nat; simd_reg_limit : nat }.
Definition default_params : OptimizeLocalParams := {| general_reg_limit := 12; simd_reg_limit := 12 |}.

Inductive MappedValue := MappedReg (r : MachineReg) | MappedImm (v : Z).

#[export] Instance mapped_value_eq_dec : EqDecision MappedValue.
Proof. solve_decision. Defined.

(** [last_store] is the position of the instruction in the block. *)
Record MappedRegUsage := { value : MappedValue; last_store : option nat; access_of : ContextAccess }.

Abbreviation mem_reg_map := (list (option MappedRegUsage)) (only parsing).

Section Local.
Context `{!ContextLayout} `{!OffsetSort} `{!HostInsns}.

(** ** Which offsets are optimized *)

Fixpoint count_accesses (ir : MachineIR) (l : list MachineInsn) (counts : list Z) : option (list Z) :=
  match l with
  | [] => Some counts
  | i :: l =>
      get ← IsCPUStateGet ir i; put ← IsCPUStatePut ir i;
      if (get || put)%bool then d ← disp_of i; n ← counts !! d; count_accesses ir l (<[d := n + 1]> counts)
      else count_accesses ir l counts
  end.

Definition CountGuestRegAccesses (ir : MachineIR) (l : list MachineInsn) : option (list Z) :=
  count_accesses ir l (replicate sizeof_CPUState 0).

Definition GetSortedOffsetCounters (ir : MachineIR) (l : list MachineInsn) : option OffsetCounterMap :=
  counts ← CountGuestRegAccesses ir l;
  Some (sort_counters (List.filter (fun x => 0 <? x.2) (imap (fun offset n => (offset, n)) counts))).

(** [optimized_offset_list], in order; [optimized_offsets] are its elements. *)
Fixpoint optimized_offset_list (params : OptimizeLocalParams) (sorted : OffsetCounterMap) (general_reg_count simd_reg_count : nat) : list nat :=
  match sorted with
  | [] => []
  | (offset, _) :: sorted =>
      if IsSimdOffset offset then
        let l := optimized_offset_list params sorted general_reg_count (S simd_reg_count) in
        if (simd_reg_count <? simd_reg_limit params)%nat then offset :: l else l
      else
        let l := optimized_offset_list params sorted (S general_reg_count) simd_reg_count in
        if (general_reg_count <? general_reg_limit params)%nat then offset :: l else l
  end.

(** ** The instructions *)

(** The entries that name the register are forgotten. *)
Definition forget_reg (offsets : list nat) (def_reg : MachineReg) (m : mem_reg_map) : mem_reg_map :=
  foldl (fun m off => match m !! off with
    | Some (Some u) => if decide (value u = MappedReg def_reg) then <[off := None]> m else m
    | _ => m
    end) m offsets.

Definition forget_defs (offsets : list nat) (ops : list (MachineReg * MachineRegKind)) (m : mem_reg_map) : mem_reg_map :=
  foldl (fun m o => if IsDef o.2 then forget_reg offsets o.1 m else m) m ops.

Definition opcode_of (i : MachineInsn) : option X86Opcode := match data i with X86Insn o _ _ _ _ _ _ => Some o | _ => None end.
Definition imm_of (i : MachineInsn) : option Z := match data i with X86Insn _ _ _ _ _ _ imm => Some imm | _ => None end.

(** The instruction that stands for [i], and the map. *)
Definition ReplaceGetAndUpdateMap (i : MachineInsn) (m : mem_reg_map) : option (MachineInsn * mem_reg_map) :=
  dst ← RegAt i 0; disp ← disp_of i; o ← opcode_of i; entry ← m !! disp;
  let access := GetContextAccess i in
  let load := Some (i, <[disp := Some {| value := MappedReg dst; last_store := None; access_of := access |}]> m) in
  match entry with
  | None => load
  | Some u =>
      if (access_size (access_of u) <? access_size access)%nat || negb (Bool.eqb (is_simd (access_of u)) (is_simd access)) then load
      else
        match value u with
        | MappedReg r => Some (new_PseudoCopy dst r (match o with MovdqaXRegMemBaseDisp => 16 | _ => 8 end), m)
        | MappedImm v => match o with MovdqaXRegMemBaseDisp | MovsdXRegMemBaseDisp => None | _ => Some (MovqRegImm dst v, m) end
        end
  end.

(** The store that is erased, if one is, and the map; [pos] is the position of
    the instruction. *)
Definition ReplacePutAndUpdateMap (pos : nat) (i : MachineInsn) (m : mem_reg_map) : option (option nat * mem_reg_map) :=
  disp ← disp_of i; o ← opcode_of i; entry ← m !! disp;
  let access := GetContextAccess i in
  let erased := u ← entry; s ← last_store u; if (access_size (access_of u) <=? access_size access)%nat then Some s else None in
  new_value ← (match o with MovqMemBaseDispImm => MappedImm <$> imm_of i | _ => MappedReg <$> RegAt i 1 end);
  Some (erased, <[disp := Some {| value := new_value; last_store := Some pos; access_of := access |}]> m).

Definition erase_at (erased : option nat) (l : list (option MachineInsn)) : list (option MachineInsn) :=
  match erased with Some p => <[p := None]> l | None => l end.

(** What becomes of the instruction at [pos]: what stands for it, the store that
    is erased, and the map. *)
Definition local_step (ir : MachineIR) (offsets : list nat) (pos : nat) (i : MachineInsn) (m : mem_reg_map)
    : option (MachineInsn * option nat * mem_reg_map) :=
  let m := forget_defs offsets (operands i) m in
  get ← IsCPUStateGet ir i; put ← IsCPUStatePut ir i;
  if (get || put)%bool then
    disp ← disp_of i;
    if negb (disp <? sizeof_CPUState)%nat then None
    else if negb (bool_decide (disp ∈ offsets)) then Some (i, None, m)
    else if (get : bool) then '(j, m) ← ReplaceGetAndUpdateMap i m; Some (j, None, m)
    else '(erased, m) ← ReplacePutAndUpdateMap pos i m; Some (i, erased, m)
  else Some (i, None, m).

(** [out] are the instructions before, [None] for those erased. *)
Fixpoint local_insns (ir : MachineIR) (offsets : list nat) (l : list MachineInsn) (m : mem_reg_map) (out : list (option MachineInsn))
    : option (list (option MachineInsn)) :=
  match l with
  | [] => Some out
  | i :: l => '(j, erased, m) ← local_step ir offsets (length out) i m; local_insns ir offsets l m (erase_at erased out ++ [Some j])
  end.

Definition local_block (params : OptimizeLocalParams) (bb : BlockPtr) (ir : MachineIR) : option MachineIR :=
  b ← blocks ir !! bb;
  sorted ← GetSortedOffsetCounters ir (insn_list b);
  out ← local_insns ir (optimized_offset_list params sorted 0 0) (insn_list b) (replicate sizeof_CPUState None) [];
  Some (update_block bb (set_insn_list (omap id out)) ir).

Definition RemoveLocalGuestContextAccesses (params : OptimizeLocalParams) (ir : MachineIR) : option MachineIR :=
  for_each (local_block params) (bb_list ir) ir.

End Local.
