(* ===== verification/LocalContextProps.v ===== *)
(** * Accesses to the guest context within a block: what the pass keeps

    [RemoveLocalGuestContextAccesses] fails no check, and where the accesses to a
    guest register have one width, that of the register, it changes nothing that
    can be seen. *)
From stdpp Require Import gmap list.
From S2P Require Import Prelude MachineIR Lifetime LifetimeAnalysis Liveness MachineIRCheck MachineSem DeadCode BlockOrder ControlFlow GuestContext GuestContextProps LocalContext.
#[local] Open Scope Z_scope.

(** What is known of the generated instruction: it defines its register. *)
Class HostInsnsOk `{!ContextLayout} `{!HostInsns} := {
  imm_operands : forall r v, exists k, operands (MovqRegImm r v) = [(r, k)] /\ IsDef k = true /\ IsInput k = false;
  imm_recovery : forall r v, recovery_bb (MovqRegImm r v) = None /\ recovery_pc (MovqRegImm r v) = kNullGuestAddr;
  imm_opcode : forall r v, exists n d d2 s s2 cond imm, data (MovqRegImm r v) = X86Insn (GeneratedOpcode n) d d2 s s2 cond imm
}.

(** The operands of gets and puts, as their constructors give them. *)
Definition get_shape (i : MachineInsn) (dst : MachineReg) : Prop :=
  exists kd kb, operands i = [(dst, kd); (kCPUStatePointer, kb)] /\ IsDef kd = true /\ IsInput kd = false /\ IsDef kb = false /\ IsInput kb = true.
Definition put_shape (i : MachineInsn) (v : MappedValue) : Prop :=
  match v with
  | MappedReg src => exists kb ks, operands i = [(kCPUStatePointer, kb); (src, ks)] /\ IsInput kb = true /\ IsInput ks = true /\ opcode_of i <> Some MovqMemBaseDispImm
  | MappedImm v => exists kb, operands i = [(kCPUStatePointer, kb)] /\ IsInput kb = true /\ opcode_of i = Some MovqMemBaseDispImm /\ imm_of i = Some v
  end.

(** ** The machine *)

(** [load_value] is what a get makes of the bytes it reads, [imm_value] the value
    of an immediate. *)
Class LocalSem (B V : Type) := { load_value : ContextAccess -> list B -> V; imm_value : Z -> V }.

Class LocalSemOk (B M V : Type) `{!ContextLayout} `{!HostInsns} `{!MachineSem V (list B * M)} `{!ContextSem B M V} `{!LocalSem B V} := {
  get_value : forall ir i d vals c m, gets ir i d -> touches_context (data i) vals = true ->
    (exec_insn (data i) (reg_kinds i) vals (c, m)).1 0%nat = load_value (GetContextAccess i) (take (access_size (GetContextAccess i)) (drop d c));
  imm_stored : forall i vals z, opcode_of i = Some MovqMemBaseDispImm -> imm_of i = Some z -> load_value (GetContextAccess i) (put_bytes (data i) vals) = imm_value z;
  imm_exec : forall r z vals w, (exec_insn (data (MovqRegImm r z)) (reg_kinds (MovqRegImm r z)) vals w).1 0%nat = imm_value z /\
    (exec_insn (data (MovqRegImm r z)) (reg_kinds (MovqRegImm r z)) vals w).2 = w;
  imm_apart : forall r z vals, touches_context (data (MovqRegImm r z)) vals = false;
  copy_exec : forall ks v w, (exec_insn PseudoCopy ks [v] w).1 0%nat = v /\ (exec_insn PseudoCopy ks [v] w).2 = w;
  copy_apart : forall vals, touches_context PseudoCopy vals = false
}.

(** A put stores the whole value of its register: it is read back as it was. *)
Definition stores_whole {B M V : Type} `{!ContextLayout} `{!MachineSem V (list B * M)} `{!ContextSem B M V} `{!LocalSem B V} (ir : MachineIR) (i : MachineInsn) (vals : list V) : Prop :=
  forall d base v, puts ir i d -> opcode_of i <> Some MovqMemBaseDispImm -> vals = [base; v] -> load_value (GetContextAccess i) (put_bytes (data i) vals) = v.

(** ** Steps *)

Section Local.
Context `{!ContextLayout} (Hsize : (0 < sizeof_CPUState)%nat) `{!OffsetSort} `{!HostInsns} `{!HostInsnsOk}.
Context (ir : MachineIR) (offsets : list nat).

Record access_shape (i : MachineInsn) : Prop := {
  as_ok : access_ok ir i;
  as_get : forall d, gets ir i d -> (exists dst, get_shape i dst) /\ recovery_bb i = None /\ recovery_pc i = kNullGuestAddr;
  as_put : forall d, puts ir i d -> exists v, put_shape i v
}.

(** ** Maps *)

Record map_wf (m : mem_reg_map) : Prop := {
  mw_length : length m = sizeof_CPUState;
  mw_offset : forall d u, m !! d = Some (Some u) -> d ∈ offsets;
  mw_imm : forall d u v, m !! d = Some (Some u) -> value u = MappedImm v -> is_simd (access_of u) = false
}.

(** Some entries are forgotten. *)
Definition fewer (m m' : mem_reg_map) : Prop := length m' = length m /\ forall d u, m' !! d = Some (Some u) -> m !! d = Some (Some u).

Lemma fewer_wf m m' : fewer m m' -> map_wf m -> map_wf m'.
Proof. intros [Hl Hs] Hw; split; [rewrite Hl; apply Hw | intros d u Hd; by eapply (mw_offset _ Hw), Hs | intros d u v Hd; by eapply (mw_imm _ Hw), Hs]. Qed.

Lemma fewer_refl m : fewer m m.
Proof. done. Qed.
Lemma fewer_trans m1 m2 m3 : fewer m1 m2 -> fewer m2 m3 -> fewer m1 m3.
Proof. intros [L1 S1] [L2 S2]; split; [congruence | auto]. Qed.

Lemma forget_reg_spec offs r m :
  fewer m (forget_reg offs r m) /\ forall d u, d ∈ offs -> forget_reg offs r m !! d = Some (Some u) -> value u <> MappedReg r.
Proof.
  unfold forget_reg; revert m; induction offs as [| o offs IH]; intros m; cbn [foldl]; [split; [done | by intros d u ?%not_elem_of_nil] |].
  set (m1 := match m !! o with Some (Some u) => _ | _ => _ end).
  assert (Hm1 : fewer m m1 /\ forall u, m1 !! o = Some (Some u) -> value u <> MappedReg r).
  { subst m1; destruct (m !! o) as [[u |] |] eqn:Eo; [| split; [done | intros u' Hu'; congruence] ..].
    case_decide as Hv; [| split; [done |]; intros u' Hu'; congruence]; split; [split; [apply length_insert |] |].
    - intros d u'; destruct (decide (d = o)) as [-> | Hne]; [rewrite list_lookup_insert_eq by (by eapply lookup_lt_Some) | rewrite list_lookup_insert_ne by done]; done.
    - intros u'; by rewrite list_lookup_insert_eq by (by eapply lookup_lt_Some). }
  destruct Hm1 as [Hf1 Ho1], (IH m1) as [Hf Hv]; split; [by eapply fewer_trans |].
  intros d u [-> | Hd]%elem_of_cons Hu; [apply Ho1; by apply Hf | by apply (Hv d u)].
Qed.

Lemma forget_defs_spec ops m :
  map_wf m -> fewer m (forget_defs offsets ops m) /\
  forall d u r, forget_defs offsets ops m !! d = Some (Some u) -> value u = MappedReg r -> ~ written ops r.
Proof.
  unfold forget_defs; revert m; induction ops as [| [r k] ops IH]; intros m Hw; cbn [foldl]; [split; [done |]; intros d u r _ _ (k & Hk & _); by apply not_elem_of_nil in Hk |].
  set (m1 := if IsDef (r, k).2 then _ else _).
  assert (Hm1 : fewer m m1 /\ forall d u, m1 !! d = Some (Some u) -> IsDef k = true -> value u <> MappedReg r).
  { subst m1; cbn [fst snd]; destruct (IsDef k); [| done]; destruct (forget_reg_spec offsets r m) as [Hf Hn]; split; [done |]; intros d u Hu _; apply (Hn d u); [| done].
    eapply (mw_offset _ Hw); by apply Hf. }
  destruct Hm1 as [Hf1 Hn1], (IH m1 (fewer_wf _ _ Hf1 Hw)) as [Hf Hn]; split; [by eapply fewer_trans |].
  intros d u r' Hu Hv (k' & [[= -> ->] | Hin]%elem_of_cons & Hk'); [by apply (Hn1 d u); [apply Hf | |] |]; eapply Hn; [exact Hu | exact Hv |]; by exists k'.
Qed.

(** ** One step *)

Definition stand_in (v : MappedValue) (dst : MachineReg) (j : MachineInsn) : Prop :=
  match v with MappedReg r => exists size, j = new_PseudoCopy dst r size | MappedImm v => j = MovqRegImm dst v end.

Definition covers (u : MappedRegUsage) (i : MachineInsn) : Prop :=
  (access_size (GetContextAccess i) <= access_size (access_of u))%nat /\ is_simd (access_of u) = is_simd (GetContextAccess i).

Definition entry_of (v : MappedValue) (s : option nat) (i : MachineInsn) : MappedRegUsage :=
  {| value := v; last_store := s; access_of := GetContextAccess i |}.

(** The cases, over the map [m] from which the registers that the instruction
    defines are gone. *)
Inductive stepped (pos : nat) (i : MachineInsn) (m : mem_reg_map) : MachineInsn -> option nat -> mem_reg_map -> Prop :=
  | stepped_other : (forall d, d ∈ offsets -> ~ gets ir i d /\ ~ puts ir i d) -> stepped pos i m i None m
  | stepped_copy d u dst j : gets ir i d -> m !! d = Some (Some u) -> covers u i -> get_shape i dst -> stand_in (value u) dst j -> stepped pos i m j None m
  | stepped_load d dst : gets ir i d -> d ∈ offsets -> get_shape i dst -> stepped pos i m i None (<[d := Some (entry_of (MappedReg dst) None i)]> m)
  | stepped_put d v erased : puts ir i d -> d ∈ offsets -> put_shape i v ->
      (forall s, erased = Some s -> exists u, m !! d = Some (Some u) /\ last_store u = Some s) ->
      stepped pos i m i erased (<[d := Some (entry_of v (Some pos) i)]> m).

Lemma operands_reg i n r k : operands i !! n = Some (r, k) -> RegAt i n = Some r.
Proof. unfold operands, RegAt; intros (r' & k' & [= -> ->] & ? & _)%lookup_zip_with_Some; done. Qed.

Lemma get_shape_reg i dst : get_shape i dst -> RegAt i 0 = Some dst.
Proof. intros (kd & kb & Ho & _); eapply operands_reg; by rewrite Ho. Qed.

Lemma access_x86 i d : gets ir i d \/ puts ir i d -> exists o disp d2 s s2 cond imm, data i = X86Insn o disp d2 s s2 cond imm /\
  (gets ir i d -> get_opcode o = true) /\ (puts ir i d -> put_opcode o = true).
Proof.
  unfold gets, puts, IsCPUStateGet, IsCPUStatePut; destruct (insn_folding_executed ir); [by intros [[? _] | [? _]] |].
  destruct (data i) as [| | | | | | | | | | | o disp d2 s s2 cond imm]; try (by intros [[? _] | [? _]]); intros _; exists o, disp, d2, s, s2, cond, imm; conjs; [done | |].
  - intros [Hg _]; by destruct (get_opcode o).
  - intros [Hp _]; by destruct (put_opcode o).
Qed.

Lemma local_step_spec pos i m :
  access_shape i -> map_wf m ->
  exists j erased m', local_step ir offsets pos i m = Some (j, erased, m') /\ stepped pos i (forget_defs offsets (operands i) m) j erased m'.
Proof.
  intros Hsh Hwf; destruct (forget_defs_spec (operands i) m Hwf) as [Hf _]; pose proof (fewer_wf _ _ Hf Hwf) as Hwf1; unfold local_step.
  set (m1 := forget_defs offsets (operands i) m) in *; clearbody m1; clear Hf Hwf m; destruct (as_ok _ Hsh) as [[p Hp] [g Hg]]; rewrite Hp, Hg; cbn [mbind option_bind].
  destruct (g || p) eqn:Egp.
  2: { apply orb_false_iff in Egp as [-> ->]; eexists _, _, _; split; [done |]; apply stepped_other; intros d _; split; intros [? _]; congruence. }
  assert (exists d, disp_of i = Some d /\ (d < sizeof_CPUState)%nat) as (d & Hd & Hlt).
  { destruct p; [destruct (put_disp Hsize ir i Hp) as (d & ? & ? & _); by exists d |]; destruct g; [by apply (get_disp Hsize ir) | done]. }
  rewrite Hd; cbn [mbind option_bind]; rewrite (proj2 (Nat.ltb_lt _ _) Hlt); cbn [negb].
  destruct (bool_decide (d ∈ offsets)) eqn:Eo; cbn [negb].
  2: { apply bool_decide_eq_false in Eo; eexists _, _, _; split; [done |]; apply stepped_other; intros d' Hd'; split; intros [_ ?]; congruence. }
  apply bool_decide_eq_true in Eo; destruct (lookup_lt_is_Some_2 m1 d) as [entry He]; [by rewrite (mw_length _ Hwf1) |]; destruct g.
  - assert (Hgd : gets ir i d) by done; destruct (as_get _ Hsh d Hgd) as [[dst Hds] _]; destruct (access_x86 i d (or_introl Hgd)) as (o & disp & ? & ? & ? & ? & ? & Edata & Hgo & _).
    specialize (Hgo Hgd); unfold ReplaceGetAndUpdateMap; rewrite (get_shape_reg i dst Hds), Hd; unfold opcode_of; rewrite Edata; cbn [mbind option_bind]; rewrite He; cbn [mbind option_bind].
    destruct entry as [u |]; [| eexists _, _, _; split; [done |]; by eapply stepped_load].
    clear Egp; destruct (_ || _) eqn:Ecov; [eexists _, _, _; split; [done |]; by eapply stepped_load |].
    apply orb_false_iff in Ecov as [Ec1%Nat.ltb_ge Ec2%negb_false_iff%eqb_prop].
    destruct (value u) as [r | v] eqn:Ev; [eexists _, _, _; split; [done |]; eapply stepped_copy; [done | exact He | done | done | rewrite Ev; by eexists] |].
    assert (Hns : is_simd (GetContextAccess i) = false) by (rewrite <- Ec2; by apply (mw_imm _ Hwf1 d u v)).
    unfold GetContextAccess in Hns; rewrite Edata in Hns; destruct o; try done; (eexists _, _, _; split; [done |]; eapply stepped_copy; [done | exact He | done | done | by rewrite Ev]).
  - cbn [orb] in Egp; subst p; assert (Hpd : puts ir i d) by done; destruct (as_put _ Hsh d Hpd) as [v Hv]; destruct (access_x86 i d (or_intror Hpd)) as (o & disp & ? & ? & ? & ? & imm & Edata & _ & Hpo).
    specialize (Hpo Hpd); unfold ReplacePutAndUpdateMap; rewrite Hd; unfold opcode_of, imm_of; rewrite Edata; cbn [mbind option_bind]; rewrite He; cbn [mbind option_bind].
    assert ((match o with MovqMemBaseDispImm => MappedImm <$> Some imm | _ => MappedReg <$> RegAt i 1 end) = Some v) as ->.
    { destruct v as [src | z].
      - destruct Hv as (kb & ks & Hops & _ & _ & Hne); unfold opcode_of in Hne; rewrite Edata in Hne.
        assert (RegAt i 1 = Some src) as -> by (eapply operands_reg; by rewrite Hops); destruct o; done.
      - destruct Hv as (kb & _ & _ & Ho & Hi); unfold opcode_of, imm_of in *; rewrite Edata in *; injection Ho as ->; injection Hi as ->; done. }
    cbn [mbind option_bind]; eexists _, _, _; split; [done |]; apply stepped_put; [done | done | done |].
    intros s Hs; destruct entry as [u |]; cbn [mbind option_bind] in Hs; [| done]; exists u; split; [done |]; destruct (last_store u); cbn [mbind option_bind] in Hs; [| done].
    destruct (_ <=? _)%nat; congruence.
Qed.

Lemma map_wf_insert m d v s i :
  map_wf m -> d ∈ offsets -> (forall z, v = MappedImm z -> is_simd (GetContextAccess i) = false) -> map_wf (<[d := Some (entry_of v s i)]> m).
Proof.
  intros Hw Hd Hi; assert (Hl : forall d' u, <[d := Some (entry_of v s i)]> m !! d' = Some (Some u) -> d' = d /\ u = entry_of v s i \/ m !! d' = Some (Some u)).
  { intros d' u; rewrite list_lookup_insert_Some; intros [(-> & [= ->] & _) | [_ ?]]; auto. }
  split; [rewrite length_insert; apply Hw | |].
  - intros d' u [[-> _] | Hu]%Hl; [done | by eapply (mw_offset _ Hw)].
  - intros d' u z [[-> ->] | Hu]%Hl Hv; [by apply (Hi z) | by eapply (mw_imm _ Hw)].
Qed.

Lemma stepped_wf pos i m j erased m' : map_wf m -> stepped pos i m j erased m' -> map_wf m'.
Proof.
  intros Hw; destruct 1 as [| | d dst Hg Hd Hsh | d v erased Hp Hd Hsh]; [done | done | by apply map_wf_insert |]; apply map_wf_insert; [done | done |].
  intros z ->; destruct Hsh as (kb & _ & _ & Ho & _); unfold opcode_of in Ho; unfold GetContextAccess; destruct (data i); try done; by injection Ho as ->.
Qed.

(** ** The list with every store kept *)

Inductive locals : nat -> mem_reg_map -> list MachineInsn -> list MachineInsn -> Prop :=
  | locals_nil pos m : locals pos m [] []
  | locals_cons pos i m j erased m' l g :
      stepped pos i (forget_defs offsets (operands i) m) j erased m' -> locals (S pos) m' l g -> locals pos m (i :: l) (j :: g).

(** The put at [p] is followed by another one of [d], with no get of [d] between. *)
Definition overwritten (g : list MachineInsn) (p d : nat) : Prop :=
  exists q k, (p < q)%nat /\ g !! q = Some k /\ puts ir k d /\ forall n j, (p < n < q)%nat -> g !! n = Some j -> ~ gets ir j d.

Record erased_ok (out : list (option MachineInsn)) (g : list MachineInsn) : Prop := {
  er_length : length out = length g;
  er_kept : forall p j, out !! p = Some (Some j) -> g !! p = Some j;
  er_gone : forall p, out !! p = Some None -> exists j d, g !! p = Some j /\ puts ir j d /\ overwritten g p d
}.

Definition stores_ok (m : mem_reg_map) (g : list MachineInsn) : Prop :=
  forall d u s, m !! d = Some (Some u) -> last_store u = Some s ->
  exists j, g !! s = Some j /\ puts ir j d /\ forall n k, (s < n)%nat -> g !! n = Some k -> ~ gets ir k d.

Lemma stand_in_no_access v dst j d : stand_in v dst j -> ~ gets ir j d /\ ~ puts ir j d.
Proof.
  assert (Hcopy : forall r r' z, data (new_PseudoCopy r r' z) = PseudoCopy) by done.
  unfold gets, puts, IsCPUStateGet, IsCPUStatePut; destruct (insn_folding_executed ir); [by split; intros [? _] |]; destruct v as [r | z]; [intros [size ->] | intros ->].
  - split; by intros [? _].
  - destruct (imm_opcode dst z) as (n & ? & ? & ? & ? & ? & ? & ->); split; by intros [? _].
Qed.

Lemma overwritten_app g g' p d : overwritten g p d -> overwritten (g ++ g') p d.
Proof.
  intros (q & k & Hlt & Hq & Hk & Hn); exists q, k; conjs; [done | by apply lookup_app_l_Some | done |]; intros n j Hnq Hj; apply (Hn n); [done |].
  rewrite lookup_app_l in Hj; [done |]; apply lookup_lt_Some in Hq; lia.
Qed.

Lemma stores_keep m m' g i :
  stores_ok m g -> (forall d u s, m' !! d = Some (Some u) -> last_store u = Some s -> m !! d = Some (Some u) /\ ~ gets ir i d) -> stores_ok m' (g ++ [i]).
Proof.
  intros Hs Hm d u s Hu Hl; destruct (Hm d u s Hu Hl) as [Hu' Hg]; destruct (Hs d u s Hu' Hl) as (j & Hj & Hp & Hn); exists j; conjs; [by apply lookup_app_l_Some | done |].
  intros n k Hlt [Hk | [_ ->]]%lookup_snoc_cases; [by apply (Hn n) | done].
Qed.

Lemma stepped_stores pos i m j erased m' g :
  map_wf m -> length g = pos -> stores_ok m g -> stepped pos i m j erased m' -> stores_ok m' (g ++ [j]).
Proof.
  intros Hw Hpos Hs; destruct 1 as [Hno | d u dst j Hg Hu Hc Hsh Hst | d dst Hg Hd Hsh | d v erased Hp Hd Hsh].
  - apply (stores_keep m); [done |]; intros d u s Hu Hl; split; [done |]; apply Hno; by eapply (mw_offset _ Hw).
  - apply (stores_keep m); [done |]; intros d' u' s Hu' _; split; [done |]; by apply (stand_in_no_access (value u) dst).
  - apply (stores_keep m); [done |]; intros d' u' s [(-> & [= <-] & _) | [Hne ?]]%list_lookup_insert_Some Hl; [done |]; split; [done |]; intros [_ ?]; destruct Hg; congruence.
  - intros d' u' s [(-> & [= <-] & _) | [Hne Hu']]%list_lookup_insert_Some Hl.
    + injection Hl as <-; exists i; conjs; [apply list_lookup_middle; lia | done |]; intros n k Hlt Hk; apply lookup_lt_Some in Hk; rewrite length_app in Hk; cbn in Hk; lia.
    + destruct (Hs d' u' s Hu' Hl) as (j & Hj & Hpj & Hn); exists j; conjs; [by apply lookup_app_l_Some | done |]; intros n k Hlt [Hk | [_ ->]]%lookup_snoc_cases; [by apply (Hn n) |].
      intros [_ ?]; destruct Hp; congruence.
Qed.

Lemma stepped_erased pos i m j erased m' out g :
  length out = pos -> stores_ok m g -> erased_ok out g -> stepped pos i m j erased m' -> erased_ok (erase_at erased out ++ [Some j]) (g ++ [j]).
Proof.
  intros Hpos Hs [Hl Hk Hg] Hst.
  assert (Hlen : length (erase_at erased out) = length out) by (unfold erase_at; destruct erased; [apply length_insert | done]).
  assert (Her : forall s, erased = Some s -> exists k d, g !! s = Some k /\ puts ir k d /\ overwritten (g ++ [j]) s d).
  { intros s Hs'; destruct Hst as [| | | d v erased Hp Hd Hsh He]; [done .. |]; destruct (He s Hs') as (u & Hu & Hls); destruct (Hs d u s Hu Hls) as (k & Hks & Hpk & Hn).
    exists k, d; conjs; [done | done |]; exists (length g), i; conjs; [by apply lookup_lt_Some in Hks | by apply list_lookup_middle | done |].
    intros n y Hny [Hy | [-> _]]%lookup_snoc_cases; [by apply (Hn n); [lia |] | lia]. }
  split.
  - by rewrite !length_app, Hlen, Hl.
  - intros p y [Hy | [-> [= ->]]]%lookup_snoc_cases; [| apply list_lookup_middle; lia]; apply lookup_app_l_Some, Hk; unfold erase_at in Hy; destruct erased as [s |]; [| done].
    by apply list_lookup_insert_Some in Hy as [(_ & ? & _) | [_ ?]].
  - intros p [Hy | [_ ?]]%lookup_snoc_cases; [| done].
    assert (erased = Some p \/ out !! p = Some None) as [-> | Hn].
    { unfold erase_at in Hy; destruct erased as [s |]; [| by right]; apply list_lookup_insert_Some in Hy as [(-> & _ & _) | [_ ?]]; [by left | by right]. }
    + destruct (Her p eq_refl) as (k & d & Hk' & ? & ?); exists k, d; conjs; [by apply lookup_app_l_Some | done | done].
    + destruct (Hg p Hn) as (y & d & Hy' & ? & ?); exists y, d; conjs; [by apply lookup_app_l_Some | done | by apply overwritten_app].
Qed.

Lemma local_insns_spec l : forall m out g,
  Forall access_shape l -> map_wf m -> stores_ok m g -> erased_ok out g ->
  exists out' g', local_insns ir offsets l m out = Some out' /\ locals (length out) m l g' /\ erased_ok out' (g ++ g').
Proof.
  induction l as [| i l IH]; intros m out g Hall Hw Hs He; cbn [local_insns]; [exists out, []; rewrite app_nil_r; conjs; [done | constructor | done] |].
  apply Forall_cons in Hall as [Hi Hall]; destruct (local_step_spec (length out) i m Hi Hw) as (j & erased & m' & -> & Hst); cbn [mbind option_bind].
  destruct (forget_defs_spec (operands i) m Hw) as [Hf _]; pose proof (fewer_wf _ _ Hf Hw) as Hw1.
  assert (Hs1 : stores_ok (forget_defs offsets (operands i) m) g) by (intros d u s Hu; apply Hs; by apply Hf).
  destruct (IH m' (erase_at erased out ++ [Some j]) (g ++ [j])) as (out' & g' & -> & Hloc & Hok); [done | by eapply stepped_wf | | by eapply stepped_erased |].
  { eapply stepped_stores; [exact Hw1 | | done | exact Hst]; by rewrite (er_length _ _ He). }
  exists out', (j :: g'); conjs; [done | | by rewrite <- app_assoc in Hok]; econstructor; [exact Hst |].
  replace (S (length out)) with (length (erase_at erased out ++ [Some j])); [done |].
  rewrite length_app; unfold erase_at; destruct erased; rewrite ?length_insert; cbn; lia.
Qed.

(** ** The stores that are erased are dead *)

Lemma puts_not_gets i d d' : puts ir i d -> ~ gets ir i d'.
Proof. intros [Hp _] [Hg _]; destruct (put_disp Hsize ir i Hp) as (? & _ & _ & ?); congruence. Qed.

Lemma put_kills (Out : nat -> Prop) d : forall g q k,
  g !! q = Some k -> puts ir k d -> (forall n j, (n < q)%nat -> g !! n = Some j -> ~ gets ir j d) -> ~ context_lives ir Out g d.
Proof.
  induction g as [| i g IH]; intros q k Hq Hk Hn; [done |]; cbn [context_lives]; destruct q as [| q]; cbn in Hq.
  - injection Hq as <-; intros [Hg | [Hp _]]; [by apply (puts_not_gets i d d) in Hg | done].
  - intros [Hg | [_ Hl]]; [by apply (Hn 0%nat i); [lia | |] |]; eapply (IH q k); [done | done | | done]; intros n j Hlt Hj; apply (Hn (S n)); [lia | done].
Qed.

Lemma erased_dropped (Out : nat -> Prop) g : forall out, erased_ok out g -> dropped ir Out g (omap id out).
Proof.
  induction g as [| i g IH]; intros out [Hl Hk Hg]; destruct out as [| o out]; try done; [constructor |].
  assert (erased_ok out g) as Hok.
  { split; [by injection Hl | intros p j Hp; by apply (Hk (S p)) |]; intros p Hp; destruct (Hg (S p) Hp) as (j & d & Hj & Hpj & q & k & Hlt & Hq & Hpk & Hn).
    exists j, d; conjs; [done | done |]; destruct q as [| q]; [lia |]; exists q, k; conjs; [lia | done | done |]; intros n y Hny; apply (Hn (S n)); lia. }
  destruct o as [j |]; cbn [omap list_omap id].
  - specialize (Hk 0%nat j eq_refl); injection Hk as ->; constructor; by apply IH.
  - destruct (Hg 0%nat eq_refl) as (j & d & [= <-] & Hp & q & k & Hlt & Hq & Hpk & Hn); eapply dropped_put; [by apply IH | exact Hp |].
    destruct q as [| q]; [lia |]; eapply (put_kills Out d g q k); [done | done |]; intros n y Hny; apply (Hn (S n)); lia.
Qed.

(** ** What stands for the instructions *)

Definition replaced (i j : MachineInsn) : Prop := j = i \/ exists d v dst, gets ir i d /\ get_shape i dst /\ stand_in v dst j.

Lemma locals_replaced pos m l g : locals pos m l g -> Forall2 replaced l g.
Proof.
  induction 1 as [| pos i m j erased m' l g Hst _ IH]; constructor; [| done]; destruct Hst as [| d u dst j Hg Hu Hc Hsh Hs | |]; [by left | right | by left | by left].
  by exists d, (value u), dst.
Qed.

Lemma stand_in_plain v dst j : stand_in v dst j -> recovery_bb j = None /\ recovery_pc j = kNullGuestAddr /\ IsControlTransfer j = false /\ (insn_folding_executed ir = false -> access_ok ir j).
Proof.
  unfold IsControlTransfer, access_ok, IsCPUStatePut, IsCPUStateGet; destruct v as [r | z]; [intros [size ->]; conjs; try done; intros ->; split; by eexists |].
  intros ->; destruct (imm_recovery dst z) as [? ?]; destruct (imm_opcode dst z) as (n & ? & ? & ? & ? & ? & ? & ->); conjs; try done; intros ->; split; by eexists.
Qed.

Lemma access_ok_folding i : access_ok ir i -> insn_folding_executed ir = false.
Proof. intros [[? Hp] _]; unfold IsCPUStatePut in Hp; by destruct (insn_folding_executed ir). Qed.

Lemma replaced_insn slot width i j :
  replaced i j -> access_ok ir i -> put_plain ir i -> insn_slots ir slot width i -> access_ok ir j /\ put_plain ir j /\ insn_slots ir slot width j.
Proof.
  intros [-> | (d & v & dst & _ & _ & Hs)] Ha Hp Hsl; [done |]; conjs.
  - eapply stand_in_plain; [exact Hs | by eapply access_ok_folding].
  - intros d' Hput; by apply (stand_in_no_access v dst j d') in Hput.
  - intros d' [Hput | Hget]; by apply (stand_in_no_access v dst j d') in Hs as [? ?].
Qed.

Lemma replaced_exits l g : Forall2 replaced l g -> puts_before_exits ir l -> puts_before_exits ir g.
Proof.
  intros Hf Hex pre j post -> Hj k d Hk Hp; apply Forall2_app_inv_r in Hf as (pre' & rest & _ & Hrest & ->); apply Forall2_cons_inv_r in Hrest as (i & post' & Hi & Hpost & ->).
  destruct Hi as [-> | (d' & v & dst & _ & _ & Hs)].
  2: { apply stand_in_plain in Hs as (? & ? & ? & _); destruct Hj as [? | [? | ?]]; congruence. }
  assert (Hin : forall k, k ∈ i :: post -> puts ir k d -> k ∈ i :: post').
  { intros y [-> | Hy]%elem_of_cons Hpy; [apply elem_of_cons; by left |]; apply elem_of_cons; right; apply list_elem_of_lookup in Hy as [n Hn].
    destruct (Forall2_lookup_r _ _ _ _ _ Hpost Hn) as (x & Hx & [-> | (? & v & dst & _ & _ & Hs)]); [by eapply list_elem_of_lookup_2 |]; by apply (stand_in_no_access v dst y d) in Hpy. }
  by apply (Hex pre' i post' eq_refl Hj k d); [apply Hin |].
Qed.

End Local.

(** ** The simulation *)

Lemma take_drop_eq {A : Type} (c c' : list A) d n : (forall o, (d <= o < d + n)%nat -> c !! o = c' !! o) -> take n (drop d c) = take n (drop d c').
Proof.
  intros Ho; apply list_eq; intros k; destruct (decide (k < n)%nat); [| by rewrite !lookup_take_ge by lia].
  rewrite !lookup_take_lt, !lookup_drop by lia; apply Ho; lia.
Qed.

Lemma take_drop_inserts {A : Type} (c bs : list A) d : (d + length bs <= length c)%nat -> take (length bs) (drop d (list_inserts d bs c)) = bs.
Proof.
  intros Hl; apply list_eq; intros k; destruct (decide (k < length bs)%nat).
  - rewrite lookup_take_lt, lookup_drop, list_lookup_inserts by lia; f_equal; lia.
  - rewrite lookup_take_ge, lookup_ge_None_2 by lia; done.
Qed.

Section Sim.
Context `{!ContextLayout} (Hsize : (0 < sizeof_CPUState)%nat) `{!OffsetSort} `{!HostInsns} `{!HostInsnsOk}.
Context {B M V : Type} `{!MachineSem V (list B * M)} `{!ContextSem B M V} `{!ContextSemOk B M V} `{!LocalSem B V} `{!LocalSemOk B M V}.
Context (ir : MachineIR) (offsets : list nat) (slot : nat -> Prop) (width : nat -> nat).
Context (Hap : apart slot width) (Hin : forall d, slot d -> (d + width d <= sizeof_CPUState)%nat).

Definition value_in (ρ : MachineReg -> V) (v : MappedValue) : V := match v with MappedReg r => ρ r | MappedImm z => imm_value z end.

(** The entries of the map are true. *)
Definition map_holds (m : mem_reg_map) (ρ : MachineReg -> V) (c : list B) : Prop :=
  forall d u, m !! d = Some (Some u) -> slot d /\ access_size (access_of u) = width d /\
    load_value (access_of u) (take (width d) (drop d c)) = value_in ρ (value u).

Definition local_ok (i : MachineInsn) : Prop := access_shape ir i /\ put_plain ir i /\ insn_slots ir slot width i.

Lemma exec_regs_eq i (ρ ρ' : MachineReg -> V) w : regs_eq ρ ρ' -> (exec_regs i ρ w).2 = (exec_regs i ρ' w).2 /\ regs_eq (exec_regs i ρ w).1 (exec_regs i ρ' w).1.
Proof.
  intros Hr; unfold exec_regs; rewrite (inputs_eq _ ρ ρ' Hr); destruct (exec_insn _ _ _ _) as [out w']; split; [done |]; by apply write_defs_eq.
Qed.

Lemma exec_unwritten i (ρ : MachineReg -> V) w r : ~ written (operands i) r -> (exec_regs i ρ w).1 r = ρ r.
Proof. intros Hn; unfold exec_regs; destruct (exec_insn _ _ _ _) as [out w']; by apply write_defs_unwritten. Qed.

(** What an instruction does to the context. *)
Lemma context_after i (ρ : MachineReg -> V) c k :
  access_ok ir i -> put_plain ir i -> respects ir i (inputs_of (operands i) ρ) ->
  exists c1 k1, (exec_regs i ρ (c, k)).2 = (c1, k1) /\ length c1 = length c /\
    (forall d, puts ir i d -> c1 = list_inserts d (put_bytes (data i) (inputs_of (operands i) ρ)) c) /\ ((forall d, ~ puts ir i d) -> c1 = c).
Proof.
  intros [[p Hp] [g Hg]] Hpl Hre; destruct p.
  - destruct (put_disp Hsize ir i Hp) as (d & Hd & _); assert (Hpd : puts ir i d) by done; destruct (exec_put ir i d ρ c k Hpl Hpd Hre) as [E _].
    eexists _, _; split; [exact E |]; conjs; [apply length_inserts | | intros Hn; by apply Hn in Hpd]; intros d' [_ Hd']; assert (d' = d) as -> by congruence; done.
  - assert (Hn : forall d, ~ puts ir i d) by (intros d [? _]; congruence).
    assert (exists k1, (exec_regs i ρ (c, k)).2 = (c, k1)) as [k1 E].
    { unfold exec_regs; destruct g.
      - destruct (get_disp Hsize ir i Hg) as (d & Hd & _); destruct (get_exec ir i d (inputs_of (operands i) ρ) c c k 0%nat) as [E _]; [done | apply Hre; by right | done |].
        exists k; by destruct (exec_insn _ _ _ _).
      - assert (Ht : touches_context (data i) (inputs_of (operands i) ρ) = false) by (apply not_true_is_false; intros [? | ?]%Hre; congruence).
        destruct (other_exec i (inputs_of (operands i) ρ) c c k 0%nat Ht) as [E _]; destruct (exec_insn _ _ _ _) as [out w']; by exists w'.2. }
    exists c, k1; conjs; [done | done | intros d Hpd; by apply Hn in Hpd | done].
Qed.

(** A slot that an instruction does not put keeps its bytes. *)
Lemma slot_after i (ρ : MachineReg -> V) c k c1 k1 d :
  local_ok i -> respects ir i (inputs_of (operands i) ρ) -> (exec_regs i ρ (c, k)).2 = (c1, k1) -> slot d -> ~ puts ir i d ->
  take (width d) (drop d c1) = take (width d) (drop d c).
Proof.
  intros (Hsh & Hpl & Hsl) Hre E Hs Hn; destruct (context_after i ρ c k (as_ok _ _ Hsh) Hpl Hre) as (c2 & k2 & E2 & _ & Hput & Hno).
  rewrite E in E2; injection E2 as -> ->; destruct (as_ok _ _ Hsh) as [[p Hp] _]; destruct p; [| rewrite Hno; [done | intros d' [? _]; congruence]].
  destruct (put_disp Hsize ir i Hp) as (d' & Hd' & _); assert (Hpd : puts ir i d') by done; rewrite (Hput d' Hpd); destruct (Hsl d' (or_introl Hpd)) as [Hs' Hw'].
  pose proof (put_length ir i d' (inputs_of (operands i) ρ) Hpd) as Hlen; apply take_drop_eq; intros o Ho; rewrite inserts_outside; [done |]; rewrite Hlen, Hw'; intros Ho'; apply Hn; by rewrite (Hap d d' o Hs Hs' Ho Ho').
Qed.

Lemma holds_after m i (ρ : MachineReg -> V) c k c1 k1 :
  local_ok i -> respects ir i (inputs_of (operands i) ρ) -> (exec_regs i ρ (c, k)).2 = (c1, k1) -> map_holds m ρ c ->
  (forall d u r, m !! d = Some (Some u) -> value u = MappedReg r -> ~ written (operands i) r) ->
  forall d u, m !! d = Some (Some u) -> ~ puts ir i d ->
  slot d /\ access_size (access_of u) = width d /\ load_value (access_of u) (take (width d) (drop d c1)) = value_in (exec_regs i ρ (c, k)).1 (value u).
Proof.
  intros Hok Hre E Hm Hw d u Hu Hn; destruct (Hm d u Hu) as (Hs & Hwd & Hl); conjs; [done | done |]; rewrite (slot_after i ρ c k c1 k1 d Hok Hre E Hs Hn), Hl.
  destruct (value u) as [r | z] eqn:Ev; [| done]; cbn [value_in]; symmetry; apply exec_unwritten; by eapply Hw.
Qed.

(** A get, and what stands for it. *)
Lemma exec_get i d dst (ρ : MachineReg -> V) c k :
  gets ir i d -> get_shape i dst -> respects ir i (inputs_of (operands i) ρ) ->
  (exec_regs i ρ (c, k)).2 = (c, k) /\
  regs_eq (exec_regs i ρ (c, k)).1 (set_reg dst (load_value (GetContextAccess i) (take (access_size (GetContextAccess i)) (drop d c))) ρ).
Proof.
  intros Hg (kd & kb & Hops & Hd & _ & Hb & _) Hre; assert (Ht : touches_context (data i) (inputs_of (operands i) ρ) = true) by (apply Hre; right; by destruct Hg).
  unfold exec_regs; pose proof (get_value ir i d _ c k Hg Ht) as Hv; destruct (get_exec ir i d (inputs_of (operands i) ρ) c c k 0%nat Hg Ht) as [E _]; [done |].
  destruct (exec_insn _ _ _ _) as [out w]; cbn [fst snd] in *; split; [done |]; rewrite Hops; cbn [write_defs]; rewrite Hd, Hb, Hv; done.
Qed.

Lemma exec_stand_in v dst j (ρ : MachineReg -> V) w :
  stand_in v dst j -> (exec_regs j ρ w).2 = w /\ regs_eq (exec_regs j ρ w).1 (set_reg dst (value_in ρ v) ρ).
Proof.
  destruct v as [r | z]; [intros [size ->] | intros ->]; unfold exec_regs.
  - destruct (copy_exec (reg_kinds (new_PseudoCopy dst r size)) (ρ r) w) as [E1 E2]; change (inputs_of (operands (new_PseudoCopy dst r size)) ρ) with [ρ r].
    change (data (new_PseudoCopy dst r size)) with PseudoCopy; destruct (exec_insn _ _ _ _) as [out w']; cbn [fst snd] in *; split; [done |]; intros x; cbn [value_in]; by rewrite <- E1.
  - destruct (imm_exec dst z (inputs_of (operands (MovqRegImm dst z)) ρ) w) as [E1 E2]; destruct (exec_insn _ _ _ _) as [out w']; cbn [fst snd] in *; split; [done |].
    destruct (imm_operands dst z) as (kd & -> & Hd & _); cbn [write_defs]; rewrite Hd, E1; done.
Qed.

Lemma stand_in_respects v dst j vals : stand_in v dst j -> respects (V := V) ir j vals.
Proof.
  intros Hs; unfold respects; split.
  - intros Ht; exfalso; destruct v as [r | z]; [destruct Hs as [size ->]; by rewrite (copy_apart (V := V)) in Ht | cbn [stand_in] in Hs; subst j; by rewrite imm_apart in Ht].
  - intros Hacc; exfalso; destruct Hacc as [Hp | Hg].
    + destruct (put_disp Hsize ir j Hp) as (d & Hd & _); apply (stand_in_no_access ir v dst j d) in Hs as [_ Hn]; by apply Hn.
    + destruct (get_disp Hsize ir j Hg) as (d & Hd & _); apply (stand_in_no_access ir v dst j d) in Hs as [Hn _]; by apply Hn.
Qed.

Lemma plain_fault i (ρ : MachineReg -> V) (w : list B * M) : recovery_bb i = None -> recovery_pc i = kNullGuestAddr -> fault_of i ρ w = None.
Proof. intros Hb Hp; unfold fault_of; rewrite Hb, Hp, Z.eqb_refl; by destruct (insn_faults _ _ _ _). Qed.

Lemma get_no_transfer i d (ρ : MachineReg -> V) : gets ir i d -> transfer_of i ρ = None.
Proof. intros Hg; apply transfer_none; unfold IsControlTransfer; destruct (access_x86 ir i d (or_introl Hg)) as (? & ? & ? & ? & ? & ? & ? & -> & _); done. Qed.

Definition whole_puts (i : MachineInsn) (vals : list V) : Prop := respects ir i vals /\ stores_whole ir i vals.

(** The entry for a put. *)
Lemma put_entry i d v (ρ : MachineReg -> V) c k c1 k1 :
  local_ok i -> puts ir i d -> put_shape i v -> whole_puts i (inputs_of (operands i) ρ) -> length c = sizeof_CPUState -> (exec_regs i ρ (c, k)).2 = (c1, k1) ->
  slot d /\ access_size (GetContextAccess i) = width d /\ load_value (GetContextAccess i) (take (width d) (drop d c1)) = value_in (exec_regs i ρ (c, k)).1 v.
Proof.
  intros (Hsh & Hpl & Hsl) Hp Hv [Hre Hwh] Hl E; destruct (Hsl d (or_introl Hp)) as [Hs Hw]; conjs; [done | done |].
  destruct (exec_put ir i d ρ c k Hpl Hp Hre) as [E1 R1]; rewrite E in E1; injection E1 as -> _.
  pose proof (put_length ir i d (inputs_of (operands i) ρ) Hp) as Hlen; rewrite <- Hw, <- Hlen, take_drop_inserts by (rewrite Hlen, Hw, Hl; by apply Hin).
  destruct v as [src | z]; cbn [put_shape value_in] in *.
  - destruct Hv as (kb & ks & Hops & Hb & Hks & Hne); rewrite R1; apply (Hwh d (ρ kCPUStatePointer) (ρ src) Hp Hne); rewrite Hops; cbn [inputs_of]; by rewrite Hb, Hks.
  - destruct Hv as (kb & Hops & _ & Ho & Hi); by apply imm_stored.
Qed.

Lemma stepped_holds pos i m j erased m' (ρ : MachineReg -> V) c k c1 k1 :
  local_ok i -> whole_puts i (inputs_of (operands i) ρ) -> length c = sizeof_CPUState -> (exec_regs i ρ (c, k)).2 = (c1, k1) ->
  map_wf offsets m -> map_holds m ρ c -> stepped ir offsets pos i (forget_defs offsets (operands i) m) j erased m' -> map_holds m' (exec_regs i ρ (c, k)).1 c1.
Proof.
  intros Hok Hwh Hl E Hwf Hm Hst; destruct (forget_defs_spec offsets (operands i) m Hwf) as [Hf Hw]; pose proof (fewer_wf offsets _ _ Hf Hwf) as Hwf1.
  set (m1 := forget_defs offsets (operands i) m) in *; assert (Hm1 : map_holds m1 ρ c) by (intros d u Hu; apply Hm; by apply Hf); clearbody m1.
  pose proof (holds_after m1 i ρ c k c1 k1 Hok (proj1 Hwh) E Hm1 Hw) as Hafter; destruct Hst as [Hno | d u dst j Hg | d dst Hg Hd Hsh | d v erased Hp Hd Hsh].
  - intros d u Hu; apply Hafter; [done |]; apply Hno; by eapply (mw_offset _ _ Hwf1).
  - intros d' u' Hu'; apply Hafter; [done |]; intros Hp; by apply (puts_not_gets Hsize ir i d' d) in Hp.
  - destruct (exec_get i d dst ρ c k Hg Hsh (proj1 Hwh)) as [E1 R1]; rewrite E in E1; injection E1 as -> ->; destruct Hok as (_ & _ & Hsl); destruct (Hsl d (or_intror Hg)) as [Hs Hwd].
    intros d' u [(-> & [= <-] & _) | [Hne Hu]]%list_lookup_insert_Some; cbn [entry_of access_of value value_in].
    + conjs; [done | done |]; rewrite R1; unfold set_reg; by rewrite decide_True, Hwd by done.
    + apply Hafter; [done |]; intros Hp; by apply (puts_not_gets Hsize ir i d' d) in Hp.
  - intros d' u [(-> & [= <-] & _) | [Hne Hu]]%list_lookup_insert_Some; [by eapply put_entry |].
    apply Hafter; [done |]; intros [_ ?]; destruct Hp; congruence.
Qed.

(** One step: the two sides go on in states that agree. *)
Lemma stepped_exec pos i m j erased m' (ρ ρ' : MachineReg -> V) c k c1 k1 :
  local_ok i -> respects ir i (inputs_of (operands i) ρ) -> (exec_regs i ρ (c, k)).2 = (c1, k1) -> regs_eq ρ ρ' ->
  map_holds m ρ c -> stepped ir offsets pos i m j erased m' ->
  (exec_regs j ρ' (c, k)).2 = (c1, k1) /\ regs_eq (exec_regs i ρ (c, k)).1 (exec_regs j ρ' (c, k)).1 /\ respects ir j (inputs_of (operands j) ρ').
Proof.
  intros Hok Hre E Hr Hm Hst; pose proof Hre as Hre'; rewrite (inputs_eq _ ρ ρ' Hr) in Hre'; destruct (exec_regs_eq i ρ ρ' (c, k) Hr) as [Ew Er]; rewrite Ew in E.
  destruct Hst as [| d u dst j Hg Hu [Hc1 Hc2] Hsh Hs | |]; [done | | done | done].
  destruct (exec_get i d dst ρ c k Hg Hsh Hre) as [E1 R1], (exec_stand_in (value u) dst j ρ' (c, k) Hs) as [E2 R2]; rewrite <- Ew in E; rewrite E1 in E; injection E as <- <-.
  conjs; [done | | by eapply stand_in_respects]; intros r; rewrite R1, R2; unfold set_reg; case_decide; [| apply Hr].
  destruct (Hm d u Hu) as (Hs' & Hw & Hl), Hok as (_ & _ & Hsl); destruct (Hsl d (or_intror Hg)) as [_ Hw'].
  assert (access_of u = GetContextAccess i) as Ha by (destruct (access_of u), (GetContextAccess i); cbn in *; congruence).
  rewrite <- Ha, Hw, Hl; destruct (value u); [apply Hr | done].
Qed.

Lemma stepped_leaves pos i m j erased m' (ρ ρ' : MachineReg -> V) (w : list B * M) :
  local_ok i -> regs_eq ρ ρ' -> stepped ir offsets pos i m j erased m' -> fault_of j ρ' w = fault_of i ρ w /\ transfer_of j ρ' = transfer_of i ρ.
Proof.
  intros (Hsh & _) Hr Hst.
  assert (Hsame : fault_of i ρ' w = fault_of i ρ w /\ transfer_of i ρ' = transfer_of i ρ).
  { unfold fault_of, transfer_of, first_input; by rewrite (inputs_eq _ ρ ρ' Hr). }
  destruct Hst as [| d u dst j Hg _ _ _ Hs | |]; [done | | done | done]; destruct (as_get _ _ Hsh d Hg) as (_ & Hb & Hp).
  destruct (stand_in_plain ir _ _ _ Hs) as (Hb' & Hp' & Hc & _); rewrite !plain_fault, (get_no_transfer i d) by done; split; [done | by apply transfer_none].
Qed.

Lemma locals_sim pos m l g : locals ir offsets pos m l g -> forall ρ ρ' c k,
  map_wf offsets m -> map_holds m ρ c -> length c = sizeof_CPUState -> regs_eq ρ ρ' -> Forall local_ok l -> executed whole_puts l ρ (c, k) ->
  exists e ρ1 ρ1' w1, run_insns l ρ (c, k) = (e, ρ1, w1) /\ run_insns g ρ' (c, k) = (e, ρ1', w1) /\ regs_eq ρ1 ρ1' /\ length w1.1 = sizeof_CPUState /\
    executed (respects ir) g ρ' (c, k).
Proof.
  induction 1 as [| pos i m j erased m' l g Hst _ IH]; intros ρ ρ' c k Hwf Hm Hl Hr Hall Hex.
  { exists NoExit, ρ, ρ', (c, k); done. }
  apply Forall_cons in Hall as [Hok Hall]; cbn [run_insns executed] in *; destruct (stepped_leaves _ _ _ _ _ _ ρ ρ' (c, k) Hok Hr Hst) as [-> ->].
  destruct (fault_of i ρ (c, k)) as [e |]; [by exists e, ρ, ρ', (c, k) |]; destruct (transfer_of i ρ) as [e |]; [by exists e, ρ, ρ', (c, k) |]; destruct Hex as [Hi Hex].
  destruct (context_after i ρ c k (as_ok _ _ (proj1 Hok)) (proj1 (proj2 Hok)) (proj1 Hi)) as (c1 & k1 & E & Hl1 & _).
  destruct (forget_defs_spec offsets (operands i) m Hwf) as [Hf _]; pose proof (fewer_wf offsets _ _ Hf Hwf) as Hwf1.
  pose proof (stepped_holds _ _ _ _ _ _ ρ c k c1 k1 Hok Hi Hl E Hwf Hm Hst) as Hm'.
  assert (Hmf : map_holds (forget_defs offsets (operands i) m) ρ c) by (intros d u Hu; apply Hm; by apply Hf).
  destruct (stepped_exec _ _ _ _ _ _ ρ ρ' c k c1 k1 Hok (proj1 Hi) E Hr Hmf Hst) as (E' & Hr' & Hre).
  destruct (exec_regs i ρ (c, k)) as [ρ1 w1], (exec_regs j ρ' (c, k)) as [ρ1' w1']; cbn [fst snd] in *; subst.
  destruct (IH ρ1 ρ1' c1 k1) as (e & ρ2 & ρ2' & w2 & ? & ? & ? & ? & ?); [by eapply stepped_wf | done | congruence | done | done | done |].
  by exists e, ρ2, ρ2', w2.
Qed.

End Sim.

(** ** The pass *)

Section Pass.
Context `{!ContextLayout} (Hsize : (0 < sizeof_CPUState)%nat) `{!OffsetSort} `{!HostInsns} `{!HostInsnsOk}.

Lemma count_accesses_total ir l : forall counts, Forall (access_ok ir) l -> length counts = sizeof_CPUState -> is_Some (count_accesses ir l counts).
Proof.
  induction l as [| i l IH]; intros counts Hall Hl; cbn [count_accesses]; [by eexists |]; apply Forall_cons in Hall as [[[p Hp] [g Hg]] Hall]; rewrite Hp, Hg; cbn [mbind option_bind].
  destruct (g || p) eqn:E; [| by apply IH].
  assert (exists d, disp_of i = Some d /\ (d < sizeof_CPUState)%nat) as (d & -> & Hlt).
  { destruct p; [destruct (put_disp Hsize ir i Hp) as (d & ? & ? & _); by exists d |]; destruct g; [by apply (get_disp Hsize ir) | done]. }
  cbn [mbind option_bind]; destruct (lookup_lt_is_Some_2 counts d) as [n ->]; [lia |]; cbn [mbind option_bind]; apply IH; [done | by rewrite length_insert].
Qed.

Lemma count_accesses_same ir ir1 l : same_context ir ir1 -> forall counts, count_accesses ir1 l counts = count_accesses ir l counts.
Proof.
  intros Hs; induction l as [| i l IH]; intros counts; cbn [count_accesses]; [done |]; rewrite (same_put ir ir1 i Hs), (same_get ir ir1 i Hs).
  destruct (IsCPUStateGet ir i) as [g |]; cbn [mbind option_bind]; [| done]; destruct (IsCPUStatePut ir i) as [p |]; cbn [mbind option_bind]; [| done]; destruct (g || p); [| done].
  destruct (disp_of i) as [d |]; cbn [mbind option_bind]; [| done]; destruct (counts !! d); cbn [mbind option_bind]; done.
Qed.

Lemma local_insns_same ir ir1 offsets l : same_context ir ir1 -> forall m out, local_insns ir1 offsets l m out = local_insns ir offsets l m out.
Proof.
  intros Hs; assert (Hstep : forall pos i m, local_step ir1 offsets pos i m = local_step ir offsets pos i m).
  { intros pos i m; unfold local_step; by rewrite (same_put ir ir1 i Hs), (same_get ir ir1 i Hs). }
  induction l as [| i l IH]; intros m out; cbn [local_insns]; [done |]; rewrite Hstep; destruct (local_step ir offsets (length out) i m) as [[[j e] m'] |]; cbn [mbind option_bind]; done.
Qed.

Section Graph.
Context (params : OptimizeLocalParams) (ir : MachineIR) (slot : nat -> Prop) (width : nat -> nat) (Hag : access_graph ir slot width).
Context (Hshape : forall bb b i, bb ∈ bb_list ir -> blocks ir !! bb = Some b -> i ∈ insn_list b -> access_shape ir i).

(** What the pass makes of the instructions of a block. *)
Definition localized (l l' : list MachineInsn) : Prop :=
  exists offsets out g, locals ir offsets 0 (replicate sizeof_CPUState None) l g /\ erased_ok ir out g /\ l' = omap id out.

Lemma local_insns_localized offsets l : Forall (access_shape ir) l ->
  exists out, local_insns ir offsets l (replicate sizeof_CPUState None) [] = Some out /\ localized l (omap id out).
Proof.
  intros Hall; assert (Hnone : forall d u, replicate sizeof_CPUState (A := option MappedRegUsage) None !! d <> Some (Some u)) by (intros d u [? _]%lookup_replicate; done).
  destruct (local_insns_spec Hsize ir offsets l (replicate sizeof_CPUState None) [] []) as (out & g & E & Hloc & Hok); [done | | | |].
  - split; [apply length_replicate | |]; intros d u; [intros Hu | intros v Hu]; by apply Hnone in Hu.
  - intros d u s Hu; by apply Hnone in Hu.
  - split; [done | |]; intros p; [intros j Hj | intros Hj]; by rewrite lookup_nil in Hj.
  - exists out; split; [done |]; by exists offsets, out, g.
Qed.

Lemma local_loop l : forall ir1,
  NoDup l -> same_context ir ir1 -> (forall bb, bb ∈ l -> bb ∈ bb_list ir /\ blocks ir1 !! bb = blocks ir !! bb) ->
  exists ir', for_each (local_block params) l ir1 = Some ir' /\ bb_list ir' = bb_list ir1 /\
    (forall bb, bb ∉ l -> blocks ir' !! bb = blocks ir1 !! bb) /\
    forall bb, bb ∈ l -> exists b l', blocks ir !! bb = Some b /\ blocks ir' !! bb = Some (set_insn_list l' b) /\ localized (insn_list b) l'.
Proof.
  induction l as [| bb l IH]; intros ir1 Hnd Hsc Hl; cbn [for_each].
  { exists ir1; conjs; try done; intros bb Hbb; by apply not_elem_of_nil in Hbb. }
  apply NoDup_cons in Hnd as [Hnb Hnd]; destruct (Hl bb ltac:(apply elem_of_cons; by left)) as [Hbb Heq].
  destruct (wg_block _ (ag_graph _ _ _ Hag) bb Hbb) as (b & Hb & _).
  assert (Hall : Forall (access_shape ir) (insn_list b)) by (apply Forall_forall; intros i; by eapply Hshape).
  unfold local_block, GetSortedOffsetCounters, CountGuestRegAccesses; rewrite Heq, Hb; cbn [mbind option_bind]; rewrite (count_accesses_same ir ir1) by done.
  destruct (count_accesses_total ir (insn_list b) (replicate sizeof_CPUState 0)) as [counts ->]; [by apply (accesses_ok _ _ _ Hag bb) | apply length_replicate |]; cbn [mbind option_bind].
  rewrite (local_insns_same ir ir1) by done; destruct (local_insns_localized (optimized_offset_list params (sort_counters (List.filter (fun x => 0 <? x.2) (imap (fun offset n => (offset, n)) counts))) 0 0) (insn_list b) Hall) as (out & -> & Hloc).
  cbn [mbind option_bind]; destruct (IH (update_block bb (set_insn_list (omap id out)) ir1) Hnd) as (ir' & E & L1 & L2 & L3); [by destruct Hsc | |].
  { intros y Hy; destruct (Hl y ltac:(apply elem_of_cons; by right)) as [? Hy']; split; [done |]; cbn; rewrite lookup_alter_ne; [done |]; intros ->; done. }
  exists ir'; conjs; [done | done | |].
  - intros y [Hne Hy]%not_elem_of_cons; rewrite L2 by done; cbn; by rewrite lookup_alter_ne.
  - intros y [-> | Hy]%elem_of_cons; [| by apply L3]; exists b, (omap id out); conjs; [done | | done]; rewrite L2 by done; cbn; by rewrite lookup_alter_eq, Heq, Hb.
Qed.

Section Run.
Context {B M V : Type} `{!MachineSem V (list B * M)} `{!ContextSem B M V} `{!ContextSemOk B M V} `{!LocalSem B V} `{!LocalSemOk B M V}.
Context (Hin : forall d, slot d -> (d + width d <= sizeof_CPUState)%nat).

Lemma localized_sim bb b l' (ρ ρ' : MachineReg -> V) c k :
  bb ∈ bb_list ir -> blocks ir !! bb = Some b -> localized (insn_list b) l' -> regs_eq ρ ρ' -> length c = sizeof_CPUState -> executed (whole_puts ir) (insn_list b) ρ (c, k) ->
  exists e ρ1 ρ1' w1, run_insns (insn_list b) ρ (c, k) = (e, ρ1, w1) /\ run_insns l' ρ' (c, k) = (e, ρ1', w1) /\ regs_eq ρ1 ρ1' /\ length w1.1 = sizeof_CPUState /\
    executed (respects ir) l' ρ' (c, k).
Proof.
  intros Hbb Hb (offsets & out & g & Hloc & Her & ->) Hr Hl Hex; destruct (block_insns _ _ _ Hag bb b Hbb Hb) as (Hacc & Hpl & Hsl).
  pose proof (sl_apart _ _ _ (ag_slots _ _ _ Hag)) as Hap.
  destruct (locals_sim Hsize ir offsets slot width Hap Hin 0 _ _ g Hloc ρ ρ' c k) as (e & ρ1 & ρ1' & w1 & E1 & E2 & Hr1 & Hl1 & Hex1); [| | done | done | | done |].
  { split; [apply length_replicate | |]; intros d u; [intros Hu | intros v Hu]; by apply lookup_replicate in Hu as [? _]. }
  { intros d u Hu; by apply lookup_replicate in Hu as [? _]. }
  { rewrite Forall_forall in *; intros i Hi; split; [by eapply Hshape | by split; [apply Hpl | apply Hsl]]. }
  pose proof (locals_replaced ir offsets _ _ _ _ Hloc) as Hrep; set (All := fun _ : nat => True).
  assert (Hg : Forall (access_ok ir) g /\ Forall (put_plain ir) g /\ Forall (insn_slots ir slot width) g).
  { rewrite !Forall_forall in *; assert (Hj : forall j, j ∈ g -> access_ok ir j /\ put_plain ir j /\ insn_slots ir slot width j).
    { intros j [n Hn]%list_elem_of_lookup; destruct (Forall2_lookup_r _ _ _ _ _ Hrep Hn) as (i & Hi%list_elem_of_lookup_2 & Hij); eapply replaced_insn; [exact Hij | auto ..]. }
    conjs; intros j Hjg; by apply Hj. }
  destruct Hg as (Hga & Hgp & Hgs).
  destruct (dropped_sim Hsize ir slot width All g (omap id out) (erased_dropped Hsize ir All g out Her) Hga Hgp Hgs Hap ρ' ρ' c c k) as
    (e2 & ρ2 & ρ2' & c2 & c2' & k2 & pre & post & F1 & F2 & Hr2 & Hpp & Ha2 & Hst & Hex2); [done | done | done |].
  rewrite E2 in F1; injection F1 as <- <- ->; exists e, ρ1, ρ2', (c2, k2); conjs; [done | | intros r; by rewrite Hr1 | done | done].
  rewrite F2; do 2 f_equal; symmetry; eapply context_agree_all; [| exact Ha2]; intros d _ Hn; apply Hn.
  eapply left_lives; [eapply replaced_exits; [exact Hrep | by eapply (access_exits _ _ _ Hag)] | exact Hpp | exact Hst | done].
Qed.

(** The pass, block by block. *)
Lemma local_pass_blocks :
  exists ir', RemoveLocalGuestContextAccesses params ir = Some ir' /\ only_blocks ir ir' /\
    (forall bb, bb ∉ bb_list ir -> blocks ir' !! bb = blocks ir !! bb) /\
    (forall bb, bb ∈ bb_list ir -> exists b l', blocks ir !! bb = Some b /\ blocks ir' !! bb = Some (set_insn_list l' b) /\ localized (insn_list b) l').
Proof.
  destruct (local_loop (bb_list ir) ir) as (ir' & Hloop & Hlist & Hout & Hblocks); [apply (wg_nodup _ (ag_graph _ _ _ Hag)) | done | done |].
  exists ir'; conjs; [done | | done | done]; eapply for_each_only_blocks; [| exact Hloop]; intros bb ir1 ir2; unfold local_block; destruct (blocks ir1 !! bb) as [b |]; cbn [mbind option_bind]; [| done].
  destruct (GetSortedOffsetCounters ir1 (insn_list b)) as [sorted |]; cbn [mbind option_bind]; [| done]; destruct (local_insns _ _ _ _ _) as [out |]; cbn [mbind option_bind]; [| done]; by intros [= <-].
Qed.

(** What the two graphs have in common at the beginning of a block. *)
Definition local_related (bb : BlockPtr) (ρ : MachineReg -> V) (w : list B * M) (ρ' : MachineReg -> V) (w' : list B * M) : Prop :=
  bb ∈ bb_list ir /\ throughout (whole_puts ir) ir bb ρ w /\ regs_eq ρ ρ' /\ w = w' /\ length w.1 = sizeof_CPUState.

Lemma local_outcome bb b l' ρ w ρ' w' :
  blocks ir !! bb = Some b -> localized (insn_list b) l' -> local_related bb ρ w ρ' w' ->
  outcome local_related (run_insns (insn_list b) ρ w) (run_insns l' ρ' w') /\ executed (respects ir) l' ρ' w'.
Proof.
  intros Hb Hloc (Hbb & Ht & Hr & <- & Hl); destruct w as [c k].
  destruct (localized_sim bb b l' ρ ρ' c k Hbb Hb Hloc Hr Hl) as (e & ρ3 & ρ3' & w3 & E1 & E2 & Hr3 & Hl3 & Hex); [by eapply throughout_here |]; split; [| done].
  rewrite E1, E2; split; [done |]; cbn [fst snd]; destruct e as [t | | | |]; try (split; [done | intros r _; apply Hr3]).
  unfold local_related; conjs; [| by eapply throughout_goto | done | done | done].
  destruct (run_insns_goto _ _ _ _ _ _ E1) as (i & Hi & Hti); pose proof (wg_ok _ _ _ (ag_graph _ _ _ Hag) Hbb Hb) as Hok; eapply bo_dst; [exact Hok |]; by eapply bo_successors.
Qed.

Section After.
Context (ir' : MachineIR).
Context (Hblocks : forall bb, bb ∈ bb_list ir -> exists b l', blocks ir !! bb = Some b /\ blocks ir' !! bb = Some (set_insn_list l' b) /\ localized (insn_list b) l').

Lemma local_same_runs bb (ρ : MachineReg -> V) c k :
  bb ∈ bb_list ir -> length c = sizeof_CPUState -> throughout (whole_puts ir) ir bb ρ (c, k) -> same_runs ir ir' bb bb ρ ρ (c, k).
Proof.
  intros Hbb Hl Hth; apply (lockstep_states ir ir' local_related); [| done]; intros y ρ1 w1 ρ2 w2 Hr; destruct (Hblocks y (proj1 Hr)) as (b & l' & Hb & Hb' & Hloc).
  exists b, (set_insn_list l' b); conjs; [done | done |]; by eapply local_outcome.
Qed.

(** After the pass, too, the context is accessed by puts and gets only. *)
Lemma local_throughout bb (ρ : MachineReg -> V) c k :
  bb ∈ bb_list ir -> length c = sizeof_CPUState -> throughout (whole_puts ir) ir bb ρ (c, k) -> throughout (respects ir) ir' bb ρ (c, k).
Proof.
  intros Hbb Hl Hth bb1 b' ρ1' w1 Hr Hb1.
  assert (exists ρ1, local_related bb1 ρ1 w1 ρ1' w1) as (ρ1 & Hrel).
  { clear Hb1 b'; induction Hr as [| bb1 b1' ρ1' w1 bb2 ρ2' w2 _ (ρ1 & IH) Hb1' Hrun]; [by exists ρ |].
    destruct (Hblocks bb1 (proj1 IH)) as (b & l' & Hb & Hb2 & Hloc); assert (b1' = set_insn_list l' b) as -> by congruence; cbn [set_insn_list insn_list] in Hrun.
    destruct (local_outcome bb1 b l' ρ1 w1 ρ1' w1 Hb Hloc IH) as [[E1 E2] _]; rewrite Hrun in E1, E2; destruct (run_insns (insn_list b) ρ1 w1) as [[e ρ2] w2'] eqn:E; cbn [fst snd] in *.
    subst e; destruct E2 as (? & ? & ? & -> & ?); by exists ρ2. }
  destruct (Hblocks bb1 (proj1 Hrel)) as (b & l' & Hb & Hb2 & Hloc); assert (b' = set_insn_list l' b) as -> by congruence.
  by eapply local_outcome.
Qed.

End After.

(** C16: the optimizer of accesses to the guest context within blocks fails no
    check, and it changes nothing that can be seen: from every block the
    executions of the graph before and after it leave it alike, with the same
    guest context, provided that the graph is well formed, that accesses at one
    offset have one width, that those at different offsets are apart and within
    the context, that nothing else accesses the context, that puts and gets have
    no recovery, that no put comes after an instruction with a recovery in its
    block ([ag_leaves]), and that puts store the whole value of their registers.
    The pass checks none of these; the frontends end the block right after an
    instruction with a recovery ([GenRecoveryBlockForLastInsn]). *)
Theorem RemoveLocalGuestContextAccesses_preserves :
  exists ir', RemoveLocalGuestContextAccesses params ir = Some ir' /\ bb_list ir' = bb_list ir /\
    forall bb (ρ : MachineReg -> V) c k, bb ∈ bb_list ir -> length c = sizeof_CPUState -> throughout (whole_puts ir) ir bb ρ (c, k) ->
    same_runs ir ir' bb bb ρ ρ (c, k).
Proof.
  destruct local_pass_blocks as (ir' & Hrun & Honly & _ & Hblocks); exists ir'; conjs; [done | by rewrite Honly |]; by apply local_same_runs.
Qed.

End Run.
End Graph.
End Pass.
