(* ===== verification/ContextPipeline.v ===== *)
(** * The optimizers of the guest context, one after the other

    [RemoveLocalGuestContextAccesses] and then [RemoveRedundantPut], as
    [x86_64/code_gen.cc] calls them: the first one leaves the graph as the second
    one needs it. *)
From stdpp Require Import gmap list.
From S2P Require Import Prelude MachineIR Lifetime LifetimeAnalysis Liveness MachineIRCheck MachineSem DeadCode BlockOrder ControlFlow RenameVRegsCorrect GuestContext GuestContextProps LocalContext LocalContextProps.
#[local] Open Scope Z_scope.

(** ** Graphs with other instructions and the same control flow *)

(** An instruction from which control goes to the next one. *)
Definition straight (i : MachineInsn) : Prop := recovery_bb i = None /\ recovery_pc i = kNullGuestAddr /\ IsControlTransfer i = false.

(** Straight instructions are dropped, or others stand for them. *)
Inductive tidied : list MachineInsn -> list MachineInsn -> Prop :=
  | tidied_nil : tidied [] []
  | tidied_keep i l l' : tidied l l' -> tidied (i :: l) (i :: l')
  | tidied_swap i j l l' : tidied l l' -> straight i -> straight j -> tidied (i :: l) (j :: l')
  | tidied_drop i l l' : tidied l l' -> straight i -> tidied (i :: l) l'.

Lemma tidied_trans l l1 l2 : tidied l l1 -> tidied l1 l2 -> tidied l l2.
Proof.
  intros H; revert l2; induction H as [| i l l1 _ IH | i j l l1 _ IH Hi Hj | i l l1 _ IH Hi]; intros l2 H2; [done | | | by apply tidied_drop; auto].
  - inversion H2; subst; [apply tidied_keep | apply tidied_swap | apply tidied_drop]; auto.
  - inversion H2; subst; [apply tidied_swap | apply tidied_swap | apply tidied_drop]; auto.
Qed.

Lemma tidied_last l l' i : tidied l l' -> IsControlTransfer i = true -> forall l0, l = l0 ++ [i] -> exists l0', l' = l0' ++ [i] /\ tidied l0 l0'.
Proof.
  intros H Hc; induction H as [| j l l' H IH | j k l l' H IH Hj Hk | j l l' H IH Hj]; intros l0 Hl; [by destruct l0 | | |]; destruct l0 as [| x l0]; injection Hl as -> Hl.
  - subst l; inversion H; subst; exists []; split; [done | constructor].
  - destruct (IH l0 Hl) as (l0' & -> & ?); exists (x :: l0'); split; [done | by constructor].
  - destruct Hj as (_ & _ & ?); congruence.
  - destruct (IH l0 Hl) as (l0' & -> & ?); exists (k :: l0'); split; [done | by constructor].
  - destruct Hj as (_ & _ & ?); congruence.
  - destruct (IH l0 Hl) as (l0' & -> & ?); exists l0'; split; [done | by constructor].
Qed.

Lemma tidied_recoveries l l' : tidied l l' -> recoveries l' = recoveries l.
Proof.
  unfold recoveries; induction 1 as [| i l l' _ IH | i j l l' _ IH (Hi & _) (Hj & _) | i l l' _ IH (Hi & _)]; cbn [omap list_omap]; [done | | |].
  - by rewrite IH.
  - by rewrite Hi, Hj, IH.
  - by rewrite Hi.
Qed.

Lemma tidied_elem l l' j : tidied l l' -> j ∈ l' -> j ∈ l \/ straight j.
Proof.
  induction 1 as [| i l l' _ IH | i k l l' _ IH Hi Hk | i l l' _ IH Hi]; [by intros ?%not_elem_of_nil | | |].
  - intros [-> | Hj]%elem_of_cons; [left; apply elem_of_cons; by left |]; destruct (IH Hj); [left; apply elem_of_cons; by right | by right].
  - intros [-> | Hj]%elem_of_cons; [by right |]; destruct (IH Hj); [left; apply elem_of_cons; by right | by right].
  - intros Hj; destruct (IH Hj); [left; apply elem_of_cons; by right | by right].
Qed.

Record tidy (ir ir' : MachineIR) : Prop := {
  td_only : only_blocks ir ir';
  td_out : forall bb, bb ∉ bb_list ir -> blocks ir' !! bb = blocks ir !! bb;
  td_in : forall bb, bb ∈ bb_list ir -> exists b l', blocks ir !! bb = Some b /\ blocks ir' !! bb = Some (set_insn_list l' b) /\ tidied (insn_list b) l'
}.

Section Tidy.
Context (ir ir' : MachineIR) (Htd : tidy ir ir').

Lemma tidy_list : bb_list ir' = bb_list ir.
Proof. by rewrite (td_only _ _ Htd). Qed.
Lemma tidy_edges : edges ir' = edges ir.
Proof. by rewrite (td_only _ _ Htd). Qed.

Lemma tidy_block bb b : blocks ir !! bb = Some b -> exists l', blocks ir' !! bb = Some (set_insn_list l' b) /\ (bb ∈ bb_list ir -> tidied (insn_list b) l').
Proof.
  intros Hb; destruct (decide (bb ∈ bb_list ir)) as [Hin | Hout].
  - destruct (td_in _ _ Htd bb Hin) as (b' & l' & Hb' & ? & ?); assert (b' = b) as -> by congruence; by exists l'.
  - exists (insn_list b); rewrite (td_out _ _ Htd bb Hout); by destruct b.
Qed.

Lemma tidy_block_inv bb b' : blocks ir' !! bb = Some b' -> exists b l', blocks ir !! bb = Some b /\ b' = set_insn_list l' b /\ (bb ∈ bb_list ir -> tidied (insn_list b) l').
Proof.
  intros Hb'; destruct (blocks ir !! bb) as [b |] eqn:Hb; [destruct (tidy_block bb b Hb) as (l' & ? & ?); exists b, l'; conjs; [done | congruence | done] |].
  destruct (decide (bb ∈ bb_list ir)) as [Hin | Hout]; [destruct (td_in _ _ Htd bb Hin) as (? & ? & ? & _); congruence | rewrite (td_out _ _ Htd bb Hout) in Hb'; congruence].
Qed.

Lemma tidy_linked bb e : (out_linked ir bb e -> out_linked ir' bb e) /\ (in_linked ir bb e -> in_linked ir' bb e).
Proof.
  split; intros (x & d & Hx & Hs & Hd & Hb & Hin); destruct (tidy_block _ _ Hb) as (l' & Hb' & _); exists x, (set_insn_list l' d); rewrite tidy_edges, tidy_list; by conjs.
Qed.

Lemma tidy_wf : wf_graph ir -> wf_graph ir'.
Proof.
  intros Hwf; split; rewrite ?tidy_list.
  - apply Hwf.
  - intros bb Hbb; destruct (wg_block _ Hwf bb Hbb) as (b & Hb & Hok); destruct (tidy_block bb b Hb) as (l' & Hb' & Ht); specialize (Ht Hbb); exists (set_insn_list l' b); split; [done |].
    split; [intros e He; apply tidy_linked; by apply Hok | intros e He; apply tidy_linked; by apply Hok | apply Hok | apply Hok | |].
    + destruct (bo_last _ _ _ Hok) as (l & i & Hl & Hc & Hall & ? & ? & Hp); destruct (tidied_last _ _ i Ht Hc l Hl) as (l0 & Hl0 & Ht0); exists l0, i; conjs; try done.
      * rewrite Forall_forall in *; intros j Hj; destruct (tidied_elem _ _ _ Ht0 Hj) as [? | (_ & _ & ?)]; auto.
      * unfold dsts; rewrite tidy_edges, (tidied_recoveries _ _ Ht0); exact Hp.
    + intros t d' Htr Hd'; destruct (tidy_block_inv t d' Hd') as (d & l2 & Hd & -> & _); change (t ∈ recoveries l') in Htr; rewrite (tidied_recoveries _ _ Ht) in Htr; by apply (bo_rec _ _ _ Hok t d).
  - intros bb [b' Hb']; destruct (tidy_block_inv bb b' Hb') as (b & ? & Hb & _); rewrite (td_only _ _ Htd); apply (wg_id _ Hwf bb); by exists b.
  - intros e; rewrite (td_only _ _ Htd); apply (wg_edge _ Hwf e).
  - intros bb b' Hbb Hb' Ho Hi; destruct (tidy_block_inv bb b' Hb') as (b & l' & Hb & -> & _); by apply (wg_alone _ Hwf bb b).
Qed.

End Tidy.

(** ** What the first pass leaves *)

Section Passes.
Context `{!ContextLayout} (Hsize : (0 < sizeof_CPUState)%nat) `{!OffsetSort} `{!HostInsns} `{!HostInsnsOk}.

Lemma dropped_tidied ir Out l l' : dropped ir Out l l' -> Forall (put_plain ir) l -> tidied l l'.
Proof.
  induction 1 as [| i l l' _ IH | i d l l' _ IH Hp _]; intros Hpl; [constructor | |]; apply Forall_cons in Hpl as [Hi Hpl]; [by constructor; auto |].
  apply tidied_drop; [auto |]; destruct (Hi d Hp) as (? & ? & _); split; [done |]; split; [done | by eapply put_no_transfer].
Qed.

Lemma dropped_elem ir Out l l' : dropped ir Out l l' -> forall j, j ∈ l' -> j ∈ l.
Proof.
  induction 1 as [| i l l' _ IH | i d l l' _ IH _ _]; intros j Hj; [done | |]; [apply elem_of_cons in Hj as [-> | Hj]; apply elem_of_cons; [by left | right; auto] | apply elem_of_cons; right; auto].
Qed.

Lemma dropped_exits ir Out l l' : dropped ir Out l l' -> puts_before_exits ir l -> puts_before_exits ir l'.
Proof.
  induction 1 as [| i l l' Hd IH | i d l l' Hd IH _ _]; intros Hex; [done | |].
  - intros pre j post Hl Hj k d Hk Hp; destruct pre as [| x pre]; injection Hl as -> Hl.
    + subst l'; apply (Hex [] j l eq_refl Hj k d); [| done]; apply elem_of_cons in Hk as [-> | Hk]; apply elem_of_cons; [by left | right; by eapply dropped_elem].
    + refine (IH _ pre j post Hl Hj k d Hk Hp); intros pre' j' post' -> ; by apply (Hex (x :: pre') j' post').
  - apply IH; intros pre' j' post' ->; by apply (Hex (i :: pre') j' post').
Qed.

Section Local.
Context (ir : MachineIR) (slot : nat -> Prop) (width : nat -> nat) (Hpg : putting ir slot width).
Context (Hshape : forall bb b i, bb ∈ bb_list ir -> blocks ir !! bb = Some b -> i ∈ insn_list b -> access_shape ir i).

Lemma replaced_tidied l g : Forall2 (replaced ir) l g -> Forall (access_shape ir) l -> tidied l g.
Proof.
  induction 1 as [| i j l g Hij _ IH]; intros Hall; [constructor |]; apply Forall_cons in Hall as [Hi Hall]; destruct Hij as [-> | (d & v & dst & Hg & _ & Hs)]; [by constructor; auto |].
  apply tidied_swap; [auto | |]; [destruct (as_get _ _ Hi d Hg) as (_ & ? & ?); split; [done |]; split; [done |] | by destruct (stand_in_plain ir v dst j Hs) as (? & ? & ? & _)].
  unfold IsControlTransfer; destruct (access_x86 ir i d (or_introl Hg)) as (? & ? & ? & ? & ? & ? & ? & -> & _); done.
Qed.

(** What a block is after the pass. *)
Record after_local (l l' : list MachineInsn) : Prop := {
  al_tidied : tidied l l';
  al_exits : puts_before_exits ir l';
  al_insns : forall j, j ∈ l' -> access_ok ir j /\ put_plain ir j /\ insn_slots ir slot width j;
  al_regs : forall n, (forall i o, i ∈ l -> o ∈ operands i -> reg_in n o.1) -> forall j o, j ∈ l' -> o ∈ operands j -> reg_in n o.1
}.

(** The registers of the copies are registers of the block. *)
Lemma locals_regs n offsets pos m l g :
  locals ir offsets pos m l g -> map_wf offsets m -> (forall i o, i ∈ l -> o ∈ operands i -> reg_in n o.1) ->
  (forall d u r, m !! d = Some (Some u) -> value u = MappedReg r -> reg_in n r) -> forall j o, j ∈ g -> o ∈ operands j -> reg_in n o.1.
Proof.
  induction 1 as [| pos i m j erased m' l g Hst _ IH]; intros Hw Hl Hm; [by intros j o ?%not_elem_of_nil |].
  destruct (forget_defs_spec offsets (operands i) m Hw) as [Hf _]; pose proof (fewer_wf offsets _ _ Hf Hw) as Hw1.
  assert (Hm1 : forall d u r, forget_defs offsets (operands i) m !! d = Some (Some u) -> value u = MappedReg r -> reg_in n r) by (intros d u r Hu; apply (Hm d); by apply Hf).
  assert (Hi : forall o, o ∈ operands i -> reg_in n o.1) by (intros o; apply Hl, elem_of_cons; by left).
  assert (Hm' : forall d u r, m' !! d = Some (Some u) -> value u = MappedReg r -> reg_in n r).
  { destruct Hst as [| | d dst Hg Hd (kd & kb & Hops & _) | d v erased Hp Hd Hv _]; [done | done | |]; intros d' u r [(-> & [= <-] & _) | [_ Hu]]%list_lookup_insert_Some; try (by eapply Hm1); cbn [entry_of value].
    - intros [= ->]; apply (Hi (r, kd)); rewrite Hops; apply elem_of_cons; by left.
    - intros ->; destruct Hv as (kb & ks & Hops & _); apply (Hi (r, ks)); rewrite Hops; apply elem_of_cons; right; by apply list_elem_of_singleton. }
  assert (Hj : forall o, o ∈ operands j -> reg_in n o.1).
  { destruct Hst as [| d u dst j Hg Hu _ (kd & kb & Hops & _) Hs | |]; [done | | done | done]; assert (Hdst : reg_in n dst) by (apply (Hi (dst, kd)); rewrite Hops; apply elem_of_cons; by left).
    destruct (value u) as [r | z] eqn:Ev; [destruct Hs as [size ->] | cbn [stand_in] in Hs; subst j; destruct (imm_operands dst z) as (k & -> & _)]; intros o [-> | Ho]%elem_of_cons; try done; try (by apply not_elem_of_nil in Ho).
    apply elem_of_cons in Ho as [-> | Ho]; [by eapply Hm1 | by apply not_elem_of_nil in Ho]. }
  intros k o [-> | Hk]%elem_of_cons; [apply Hj |]; eapply IH; [by eapply stepped_wf | | exact Hm' | done]; intros x y Hx; apply Hl, elem_of_cons; by right.
Qed.

Lemma localized_after bb b l' : bb ∈ bb_list ir -> blocks ir !! bb = Some b -> localized ir (insn_list b) l' -> after_local (insn_list b) l'.
Proof.
  intros Hbb Hb (offsets & out & g & Hloc & Her & ->); pose proof (locals_replaced ir offsets _ _ _ _ Hloc) as Hrep; pose proof (pg_access _ _ _ Hpg) as Hag.
  destruct (block_insns _ _ _ Hag bb b Hbb Hb) as (Hacc & Hpl & Hsl); pose proof (erased_dropped Hsize ir (fun _ => True) g out Her) as Hd.
  assert (Hj : forall j, j ∈ g -> access_ok ir j /\ put_plain ir j /\ insn_slots ir slot width j).
  { rewrite !Forall_forall in *; intros j [n Hn]%list_elem_of_lookup; destruct (Forall2_lookup_r _ _ _ _ _ Hrep Hn) as (i & Hi%list_elem_of_lookup_2 & Hij); eapply replaced_insn; [exact Hij | auto ..]. }
  split.
  - eapply tidied_trans; [apply replaced_tidied; [done |]; apply Forall_forall; intros i; by eapply Hshape |]; eapply dropped_tidied; [exact Hd |]; apply Forall_forall; intros j Hg; by apply Hj.
  - eapply dropped_exits; [exact Hd |]; eapply replaced_exits; [exact Hrep |]; by eapply (access_exits _ _ _ Hag).
  - intros j Hjl; apply Hj; by eapply dropped_elem.
  - intros n Hn j o Hjl; eapply (locals_regs n offsets); [exact Hloc | | done | | by eapply dropped_elem].
    + split; [apply length_replicate | |]; intros d u; [intros Hu | intros v Hu]; by apply lookup_replicate in Hu as [? _].
    + intros d u r Hu; by apply lookup_replicate in Hu as [? _].
Qed.

Section After.
Context (ir1 : MachineIR) (Honly : only_blocks ir ir1) (Hout : forall bb, bb ∉ bb_list ir -> blocks ir1 !! bb = blocks ir !! bb).
Context (Hblocks : forall bb, bb ∈ bb_list ir -> exists b l', blocks ir !! bb = Some b /\ blocks ir1 !! bb = Some (set_insn_list l' b) /\ localized ir (insn_list b) l').

Lemma after_block bb b1 : bb ∈ bb_list ir -> blocks ir1 !! bb = Some b1 -> exists b, blocks ir !! bb = Some b /\ b1 = set_insn_list (insn_list b1) b /\ after_local (insn_list b) (insn_list b1).
Proof.
  intros Hbb Hb1; destruct (Hblocks bb Hbb) as (b & l' & Hb & Hb' & Hloc); assert (b1 = set_insn_list l' b) as -> by congruence; exists b; conjs; [done | done |]; by eapply localized_after.
Qed.

Lemma local_tidy : tidy ir ir1.
Proof. split; [done | done |]; intros bb Hbb; destruct (Hblocks bb Hbb) as (b & l' & Hb & Hb' & Hloc); exists b, l'; conjs; [done | done |]; by eapply localized_after. Qed.

Lemma local_context : same_context ir ir1.
Proof. split; by rewrite Honly. Qed.

Lemma puts_same i d : puts ir1 i d <-> puts ir i d.
Proof. unfold puts; by rewrite (same_put _ _ _ local_context). Qed.
Lemma gets_same i d : gets ir1 i d <-> gets ir i d.
Proof. unfold gets; by rewrite (same_get _ _ _ local_context). Qed.

Lemma after_access : access_graph ir1 slot width.
Proof.
  assert (Hlist : bb_list ir1 = bb_list ir) by (by rewrite Honly); split; rewrite ?Hlist.
  - eapply tidy_wf; [apply local_tidy | apply (pg_access _ _ _ Hpg)].
  - split; [| apply (sl_apart _ _ _ (ag_slots _ _ _ (pg_access _ _ _ Hpg))) | apply (sl_bound _ _ _ (ag_slots _ _ _ (pg_access _ _ _ Hpg)))].
    rewrite Hlist; intros bb b i d Hbb Hb Hi Hac; destruct (after_block bb b Hbb Hb) as (b0 & _ & _ & Hal); destruct (al_insns _ _ Hal i Hi) as (_ & _ & Hs); apply Hs; by rewrite <- puts_same, <- gets_same.
  - intros bb b i Hbb Hb Hi; destruct (after_block bb b Hbb Hb) as (b0 & _ & _ & Hal); destruct (al_insns _ _ Hal i Hi) as (Ha & Hp & _); split.
    + unfold access_ok; by rewrite (same_put _ _ _ local_context), (same_get _ _ _ local_context).
    + intros d Hd; apply (Hp d); by apply puts_same.
  - intros bb b pre i post Hbb Hb Hl Hr j d Hj Hp; destruct (after_block bb b Hbb Hb) as (b0 & _ & _ & Hal).
    apply (al_exits _ _ Hal pre i post Hl) with (j := j) (d := d); [destruct Hr; auto | apply elem_of_cons; by right | by apply puts_same].
Qed.

Lemma after_putting : putting ir1 slot width.
Proof.
  assert (Hlist : bb_list ir1 = bb_list ir) by (by rewrite Honly); assert (Hnum : num_vreg ir1 = num_vreg ir) by (by rewrite Honly); split; [apply after_access | |].
  - pose proof (pg_regs _ _ _ Hpg) as Hr; split; rewrite Hlist, ?Hnum.
    + intros bb b i o Hbb Hb Hi Ho; destruct (after_block bb b Hbb Hb) as (b0 & Hb0 & _ & Hal); eapply (al_regs _ _ Hal); [| exact Hi | done]; intros x y Hx; by eapply (rr_insns _ Hr).
    + intros bb b r Hbb Hb Hlo; destruct (after_block bb b Hbb Hb) as (b0 & Hb0 & Heq & _); rewrite Heq in Hlo; by eapply (rr_live_out _ Hr bb b0).
    + intros bb Hbb; destruct (Hblocks bb Hbb) as (b & l' & _ & ? & _); by eexists.
  - rewrite Hlist; intros bb b Hbb Hb Ho; destruct (after_block bb b Hbb Hb) as (b0 & Hb0 & Heq & Hal); rewrite Heq in Ho; destruct (pg_inside _ _ _ Hpg bb b0 Hbb Hb0 Ho) as [Hpc (i & Hlast & Ht)]; split.
    + intros j Hj; destruct (tidied_elem _ _ _ (al_tidied _ _ Hal) Hj) as [? | (_ & ? & _)]; auto.
    + exists i; split; [| done]; apply last_Some in Hlast as [l0 Hl0]; destruct (tidied_last _ _ i (al_tidied _ _ Hal)) with (l0 := l0) as (l0' & -> & _); [| done | apply last_snoc].
      unfold targets in Ht; unfold IsControlTransfer; by destruct (data i).
Qed.

End After.
End Local.

(** ** The passes *)

Section Run.
Context {B M V : Type} `{!MachineSem V (list B * M)} `{!ContextSem B M V} `{!ContextSemOk B M V} `{!LocalSem B V} `{!LocalSemOk B M V}.

Lemma respects_same ir ir1 bb (ρ : MachineReg -> V) (w : list B * M) : same_context ir ir1 -> throughout (respects ir) ir1 bb ρ w -> throughout (respects ir1) ir1 bb ρ w.
Proof.
  intros Hsc Ht bb1 b ρ1 w1 Hr Hb; eapply executed_weaken; [| by eapply Ht]; intros i vals; unfold respects; by rewrite (same_put _ _ _ Hsc), (same_get _ _ _ Hsc).
Qed.

(** C15: the two optimizers of accesses to the guest context, one after the other as
    the code generator calls them.  Both end and fail no check, the result is a
    graph that the checker accepts, and from every block the executions of the
    graph before and after them leave it alike, with the same guest context.
    The conditions are on the graph before the first one: it is well formed with
    its registers in range; accesses at one offset have one width, those at
    different offsets are apart and within the context, and nothing else
    accesses the context; puts and gets have no recovery, and puts store the
    whole value of their registers; no put comes after an instruction with a
    recovery in its block ([ag_leaves]); a block with out edges has no
    instruction that recovers to a guest address and ends in a branch
    ([pg_inside]). *)
Theorem context_passes_compose params fuel ir slot width :
  putting ir slot width -> (forall d, slot d -> (d + width d <= sizeof_CPUState)%nat) ->
  (forall bb b i, bb ∈ bb_list ir -> blocks ir !! bb = Some b -> i ∈ insn_list b -> access_shape ir i) ->
  (work_bound ir sizeof_CPUState <= fuel)%nat ->
  exists ir1 ir2, RemoveLocalGuestContextAccesses params ir = Some ir1 /\ RemoveRedundantPut fuel ir1 = Some (true, ir2) /\
    bb_list ir2 = bb_list ir /\ CheckMachineIR ir2 = Some kMachineIRCheckSuccess /\
    forall bb (ρ : MachineReg -> V) c k, bb ∈ bb_list ir -> length c = sizeof_CPUState -> throughout (whole_puts ir) ir bb ρ (c, k) ->
    same_runs ir ir2 bb bb ρ ρ (c, k).
Proof.
  intros Hpg Hin Hshape Hf; pose proof (pg_access _ _ _ Hpg) as Hag; destruct (local_pass_blocks Hsize params ir slot width Hag Hshape) as (ir1 & Hrun1 & Honly & Hout & Hblocks).
  assert (Hlist : bb_list ir1 = bb_list ir) by (by rewrite Honly).
  pose proof (after_putting ir slot width Hpg Hshape ir1 Honly Hout Hblocks) as Hpg1.
  destruct (RemoveRedundantPut_blocks (V := V) (B := B) (M := M) Hsize ir1 slot width Hpg1 fuel) as (ir2 & Hrun2 & Honly2 & Hout2 & Hblocks2 & Hsame).
  { unfold work_bound in *; rewrite Hlist; by rewrite Honly. }
  exists ir1, ir2; conjs; [done | done | by rewrite Honly2 | |].
  - apply wf_graph_checked; eapply tidy_wf; [| apply (pg_access _ _ _ Hpg1)]; split; [done | done |]; intros bb Hbb; destruct (Hblocks2 bb Hbb) as (b & l' & Out & Hb & Hb' & Hd).
    exists b, l'; conjs; [done | done |]; eapply dropped_tidied; [exact Hd |]; by eapply (block_insns _ _ _ (pg_access _ _ _ Hpg1) bb).
  - intros bb ρ c k Hbb Hl Ht; eapply same_runs_trans; [by eapply (local_same_runs Hsize ir slot width Hag Hshape Hin) |]; apply Hsame; [by rewrite Hlist |].
    apply (respects_same ir); [by apply local_context |]; by eapply (local_throughout Hsize ir slot width Hag Hshape Hin).
Qed.

End Run.
End Passes.
