(* ===== verification/GuestContextExamples.v ===== *)
(** * Programs that access the guest context

    A machine with a context of bytes, a graph on which the theorem on dead puts
    is applied, and a graph with accesses of two widths, on which the pass loses
    bytes. *)
From stdpp Require Import gmap list sorting.
From S2P Require Import Prelude MachineIR Lifetime LifetimeAnalysis Liveness MachineIRCheck MachineSem DeadCode BlockOrder ControlFlow OptimizerExamples GuestContext GuestContextProps LocalContext LocalContextProps ContextPipeline.
#[local] Open Scope Z_scope.

(** ** The machine *)

(** Thirty-two bytes: vector registers from 8 on, the last eight a reservation. *)
#[export] Instance small_layout : ContextLayout := {| sizeof_CPUState := 32; reservation_value_offset := 24; sizeof_Reservation := 8; v_offset := 8; sizeof_v := 16 |}.

Definition context_address : Z := 4096.

Definition width_of (d : InsnData) : nat := access_size (GetContextAccess (new_insn d [] [] kMachineInsnDefault)).

Lemma width_of_access i : access_size (GetContextAccess i) = width_of (data i).
Proof. by unfold width_of, GetContextAccess. Qed.

(** Whether the base is the address of the context: the first value that a store
    reads, the last one that a load reads. *)
Definition small_touches (d : InsnData) (vals : list Z) : bool :=
  match d with
  | X86Insn o disp _ _ _ _ _ =>
      tracked_disp disp && (put_opcode o && bool_decide (head vals = Some context_address) || get_opcode o && bool_decide (last vals = Some context_address))
  | _ => false
  end.

Definition small_put_bytes (d : InsnData) (vals : list Z) : list Z :=
  match d with
  | X86Insn o _ _ _ _ _ imm => le_split (width_of d) (match o with MovqMemBaseDispImm => imm | _ => default 0 (vals !! 1%nat) end)
  | _ => []
  end.

(** The rest of the world is the list of the other stores; the opcode 2 is that of
    [MovqRegImm]. *)
Definition small_exec (d : InsnData) (vals : list Z) (w : list Z * list (list Z)) : (nat -> Z) * (list Z * list (list Z)) :=
  let other := (fun n => sum vals + Z.of_nat n, match d with X86Insn o _ _ _ _ _ _ => if put_opcode o then (w.1, small_put_bytes d vals :: w.2) else w | _ => w end) in
  match d with
  | X86Insn (GeneratedOpcode 2) _ _ _ _ _ imm => (fun _ => le_combine (le_split 8 imm), w)
  | X86Insn o disp _ _ _ _ _ =>
      if small_touches d vals then
        if put_opcode o then (fun n => Z.of_nat n, (list_inserts (Z.to_nat disp) (small_put_bytes d vals) w.1, w.2))
        else (fun n => le_combine (take (width_of d) (drop (Z.to_nat disp) w.1)), w)
      else other
  | _ => other
  end.

#[export] Instance small_sem : MachineSem Z (list Z * list (list Z)) := {|
  exec_insn := fun d ks vals w => small_exec d vals w;
  insn_faults := fun d ks vals w => match d with X86Insn (GeneratedOpcode 1) _ _ _ _ _ _ => sum vals =? 0 | _ => false end;
  cond_holds := fun c v => v =? 0;
  default_value := 0
|}.

#[export] Instance small_context : ContextSem Z (list (list Z)) Z := {| touches_context := small_touches; put_bytes := small_put_bytes |}.

Lemma put_data ir i d : puts ir i d -> exists o disp d2 s s2 cond imm, data i = X86Insn o disp d2 s s2 cond imm /\ put_opcode o = true /\ d = Z.to_nat disp.
Proof.
  intros [Hp Hd]; unfold IsCPUStatePut in Hp; unfold disp_of in Hd; destruct (insn_folding_executed ir); [done |].
  destruct (data i) as [| | | | | | | | | | | o disp d2 s s2 cond imm]; try done; injection Hd as <-; destruct (put_opcode o) eqn:Eo; [| done].
  by exists o, disp, d2, s, s2, cond, imm.
Qed.

Lemma get_data ir i d : gets ir i d -> exists o disp d2 s s2 cond imm, data i = X86Insn o disp d2 s s2 cond imm /\ put_opcode o = false /\ d = Z.to_nat disp.
Proof.
  intros [Hp Hd]; unfold IsCPUStateGet in Hp; unfold disp_of in Hd; destruct (insn_folding_executed ir); [done |].
  destruct (data i) as [| | | | | | | | | | | o disp d2 s s2 cond imm]; try done; injection Hd as <-; destruct (get_opcode o) eqn:Eo; [| done].
  exists o, disp, d2, s, s2, cond, imm; conjs; [done | by destruct o | done].
Qed.

#[export] Instance small_context_ok : ContextSemOk Z (list (list Z)) Z.
Proof.
  split.
  - intros ir i d vals Hp; rewrite width_of_access; destruct (put_data ir i d Hp) as (? & ? & ? & ? & ? & ? & ? & -> & _); apply length_le_split.
  - intros ir i d vals c m Hp Ht; destruct (put_data ir i d Hp) as (o & disp & ? & ? & ? & ? & ? & Ed & Eo & ->).
    cbn [exec_insn small_sem]; cbn [touches_context small_context] in Ht; unfold small_exec; rewrite Ht, Ed; by destruct o.
  - intros ir i d vals c c' m n Hg Ht Ho; rewrite width_of_access in Ho; destruct (get_data ir i d Hg) as (o & disp & ? & ? & ? & ? & ? & Ed & Eo & ->).
    cbn [exec_insn small_sem]; cbn [touches_context small_context] in Ht; unfold small_exec; rewrite Ht, Ed in *.
    destruct Hg as [Hg _]; unfold IsCPUStateGet in Hg; rewrite Ed in Hg; destruct (insn_folding_executed ir), o; try done; (split; [done |]; cbn [fst put_opcode]; by rewrite (take_drop_eq c c')).
  - intros i vals c c' m n Ht; cbn [exec_insn small_sem]; cbn [touches_context small_context] in Ht; unfold small_exec; rewrite Ht.
    destruct (data i) as [| | | | | | | | | | | o ? ? ? ? ? ?]; try done; destruct o as [| | | | | | | | | z]; try done; by destruct z as [| [| [] |] |].
  - done.
Qed.

(** ** A checker *)

Definition slot_of (ws : gmap nat nat) (d : nat) : Prop := is_Some (ws !! d).
Definition slot_width (ws : gmap nat nat) (d : nat) : nat := default 0%nat (ws !! d).

Definition plain_put (i : MachineInsn) : bool :=
  bool_decide (recovery_bb i = None) && (recovery_pc i =? kNullGuestAddr) && forallb (fun o => negb (IsDef o.2)) (operands i).

Definition check_access (ir : MachineIR) (ws : gmap nat nat) (i : MachineInsn) : bool :=
  match IsCPUStatePut ir i, IsCPUStateGet ir i with
  | Some p, Some g =>
      (negb p || plain_put i) &&
      (negb (p || g) || bool_decide (disp_of i ≫= (fun d => ws !! d) = Some (access_size (GetContextAccess i))))
  | _, _ => false
  end.

(** No put after an instruction with a recovery. *)
Fixpoint check_leaves (ir : MachineIR) (l : list MachineInsn) : bool :=
  match l with
  | [] => true
  | i :: l =>
      (bool_decide (recovery_bb i = None) && (recovery_pc i =? kNullGuestAddr) || forallb (fun j => bool_decide (IsCPUStatePut ir j <> Some true)) l) &&
      check_leaves ir l
  end.

Definition check_inside (b : MachineBasicBlock) : bool :=
  (length (out_edges b) =? 0)%nat ||
  forallb (fun i => recovery_pc i =? kNullGuestAddr) (insn_list b) &&
  match last (insn_list b) with Some i => negb (length (targets i) =? 0)%nat | None => false end.

Definition check_slots (ws : gmap nat nat) : bool :=
  forallb (fun x => (x.1 <? sizeof_CPUState)%nat &&
    forallb (fun y => (x.1 =? y.1)%nat || (x.1 + x.2 <=? y.1)%nat || (y.1 + y.2 <=? x.1)%nat) (map_to_list ws)) (map_to_list ws).

Lemma check_slots_apart ws d d' w w' :
  check_slots ws = true -> ws !! d = Some w -> ws !! d' = Some w' -> (d < sizeof_CPUState)%nat /\ (d = d' \/ d + w <= d' \/ d' + w' <= d)%nat.
Proof.
  intros Hc Hd%elem_of_map_to_list Hd'%elem_of_map_to_list; apply (forallb_elem_of _ _ (d, w)) in Hc; [| done].
  apply andb_true_iff in Hc as [Hlt%Nat.ltb_lt Hc]; split; [done |]; apply (forallb_elem_of _ _ (d', w')) in Hc; [| done].
  apply orb_true_iff in Hc as [[H%Nat.eqb_eq | H%Nat.leb_le]%orb_true_iff | H%Nat.leb_le]; cbn in H; auto.
Qed.

Lemma check_access_sound ir ws i :
  check_access ir ws i = true -> access_ok ir i /\ put_plain ir i /\ insn_slots ir (slot_of ws) (slot_width ws) i.
Proof.
  unfold check_access; destruct (IsCPUStatePut ir i) as [p |] eqn:Ep, (IsCPUStateGet ir i) as [g |] eqn:Eg; try done.
  intros [Hp Hs]%andb_true_iff; conjs.
  - split; eauto.
  - intros d [Hput _]; assert (p = true) as -> by congruence; cbn [negb orb] in Hp; unfold plain_put in Hp; rewrite !andb_true_iff in Hp.
    destruct Hp as ((H1%bool_decide_eq_true & H2%Z.eqb_eq) & H3); conjs; [done | done |].
    intros r (k & Hin & Hk); apply (forallb_elem_of _ _ (r, k)) in H3; [| done]; cbn in H3; by rewrite Hk in H3.
  - intros d Hacc; assert (p || g = true) as Hpg by (destruct Hacc as [[? _] | [? _]]; [assert (p = true) as -> by congruence | assert (g = true) as -> by congruence]; by rewrite ?orb_true_r).
    rewrite Hpg in Hs; cbn [negb orb] in Hs; apply bool_decide_eq_true in Hs; assert (disp_of i = Some d) as Hd by (by destruct Hacc as [[_ ?] | [_ ?]]).
    rewrite Hd in Hs; cbn [mbind option_bind] in Hs; unfold slot_of, slot_width; rewrite Hs; eauto.
Qed.

Lemma check_leaves_sound ir l : check_leaves ir l = true -> forall pre i post, l = pre ++ i :: post ->
  recovery_bb i <> None \/ recovery_pc i <> kNullGuestAddr -> forall j d, j ∈ post -> ~ puts ir j d.
Proof.
  induction l as [| k l IH]; cbn [check_leaves]; intros Hc pre i post Hl Hr j d Hj; [by destruct pre |].
  apply andb_true_iff in Hc as [Hk Hc]; destruct pre as [| k' pre]; injection Hl as -> ->; [| by eapply IH].
  apply orb_true_iff in Hk as [[H1%bool_decide_eq_true H2%Z.eqb_eq]%andb_true_iff | Hn]; [by destruct Hr |].
  apply (forallb_elem_of _ _ j) in Hn; [| done]; apply bool_decide_eq_true in Hn; by intros [? _].
Qed.

Definition check_accesses (ir : MachineIR) (ws : gmap nat nat) : bool :=
  check_graph ir && check_slots ws &&
  forallb (fun bb => match blocks ir !! bb with
    | Some b => forallb (check_access ir ws) (insn_list b) && check_leaves ir (insn_list b)
    | None => true
    end) (bb_list ir).

Definition check_putting (ir : MachineIR) (ws : gmap nat nat) : bool :=
  check_accesses ir ws && check_regs ir && forallb (fun bb => match blocks ir !! bb with Some b => check_inside b | None => true end) (bb_list ir).

Lemma check_accesses_sound ir ws : check_accesses ir ws = true -> access_graph ir (slot_of ws) (slot_width ws).
Proof.
  unfold check_accesses; rewrite !andb_true_iff; intros ((Hg & Hs) & Hb).
  assert (Hbl : forall bb b, bb ∈ bb_list ir -> blocks ir !! bb = Some b -> forallb (check_access ir ws) (insn_list b) = true /\ check_leaves ir (insn_list b) = true).
  { intros bb b Hbb Hbl; apply (forallb_elem_of _ _ bb) in Hb; [| done]; cbv beta in Hb; by rewrite Hbl, andb_true_iff in Hb. }
  assert (Hi : forall bb b i, bb ∈ bb_list ir -> blocks ir !! bb = Some b -> i ∈ insn_list b -> access_ok ir i /\ put_plain ir i /\ insn_slots ir (slot_of ws) (slot_width ws) i).
  { intros bb b i Hbb Hbb' Hin; apply check_access_sound; destruct (Hbl bb b Hbb Hbb') as (H & _); by apply (forallb_elem_of _ _ i) in H. }
  split.
  - by apply check_graph_sound.
  - split; [intros bb b i d Hbb Hb' Hin; by apply (Hi bb b i) | |].
    + intros d d' o [w Hw] [w' Hw']; unfold slot_width; rewrite Hw, Hw'; cbn [default]; destruct (check_slots_apart ws d d' w w' Hs Hw Hw') as [_ Ha]; unfold from_option, id; lia.
    + intros d [w Hw]; by destruct (check_slots_apart ws d d w w Hs Hw Hw).
  - intros bb b i Hbb Hb' Hin; split; by apply (Hi bb b i).
  - intros bb b pre i post Hbb Hb' Hl; eapply check_leaves_sound; [by apply (Hbl bb b) | done].
Qed.

Lemma check_putting_sound ir ws : check_putting ir ws = true -> putting ir (slot_of ws) (slot_width ws).
Proof.
  unfold check_putting; rewrite !andb_true_iff; intros ((Ha & Hr) & Hb); split; [by apply check_accesses_sound | by apply check_regs_sound |].
  intros bb b Hbb Hb' Ho; apply (forallb_elem_of _ _ bb) in Hb; [| done]; cbv beta in Hb; rewrite Hb' in Hb; apply orb_true_iff in Hb as [Hz%Nat.eqb_eq | Hin]; [by destruct (out_edges b) |].
  apply andb_true_iff in Hin as [Hpc Hl]; split; [intros i Hin; apply (forallb_elem_of _ _ i) in Hpc; [by apply Z.eqb_eq | done] |].
  destruct (last (insn_list b)) as [i |]; [| done]; exists i; split; [done |]; by destruct (targets i).
Qed.

(** ** Executions that access the context by puts and gets only *)

Definition input_regs (i : MachineInsn) : list MachineReg := map fst (List.filter (fun o => IsInput o.2) (operands i)).

Lemma inputs_of_regs i (ρ : MachineReg -> Z) : inputs_of (operands i) ρ = map ρ (input_regs i).
Proof. unfold input_regs; induction (operands i) as [| [r k] l IH]; cbn; [done |]; destruct (IsInput k); cbn; by rewrite IH. Qed.

(** The accesses within the context have the pointer to it as their base, which
    nothing writes. *)
Definition check_base (i : MachineInsn) : bool :=
  forallb (fun o => negb (IsDef o.2) || negb (o.1 =? kCPUStatePointer)) (operands i) &&
  match data i with
  | X86Insn o disp _ _ _ _ _ =>
      negb (tracked_disp disp) ||
      (negb (put_opcode o) || bool_decide (head (input_regs i) = Some kCPUStatePointer) && bool_decide (RegAt i 0 = Some kCPUStatePointer)) &&
      (negb (get_opcode o) || bool_decide (last (input_regs i) = Some kCPUStatePointer) && bool_decide (RegAt i 1 = Some kCPUStatePointer))
  | _ => true
  end.

Lemma check_base_respects ir i (ρ : MachineReg -> Z) :
  insn_folding_executed ir = false -> ρ kCPUStatePointer = context_address -> check_base i = true -> respects ir i (inputs_of (operands i) ρ).
Proof.
  intros Hf Hp [_ Hc]%andb_true_iff; unfold respects, IsCPUStatePut, IsCPUStateGet; rewrite Hf, inputs_of_regs; cbn [touches_context small_context]; unfold small_touches.
  destruct (data i) as [| | | | | | | | | | | o disp ? ? ? ? ?]; try (split; [done | by intros [|]]).
  destruct (tracked_disp disp); cbn [negb orb andb] in *; [| destruct (put_opcode o), (get_opcode o); split; try done; by intros [|]].
  apply andb_true_iff in Hc as [Hput Hget]; destruct (put_opcode o) eqn:Eo; cbn [negb orb andb] in *.
  - assert (get_opcode o = false) as -> by (by destruct o); apply andb_true_iff in Hput as [Hh%bool_decide_eq_true Hr%bool_decide_eq_true].
    rewrite Hr; cbn [mbind option_bind]; split; [by left | intros _]; rewrite bool_decide_true; [done |].
    destruct (input_regs i) as [| r l]; [done |]; injection Hh as ->; cbn; by rewrite Hp.
  - destruct (get_opcode o); cbn [negb orb andb] in *; [| split; [done | by intros [|]]].
    apply andb_true_iff in Hget as [Hh%bool_decide_eq_true Hr%bool_decide_eq_true]; rewrite Hr; cbn [mbind option_bind]; split; [by right | intros _].
    rewrite bool_decide_true; [done |]; change (map ρ (input_regs i)) with (ρ <$> input_regs i); rewrite fmap_last, Hh; cbn; by rewrite Hp.
Qed.

Lemma check_base_keeps i (ρ : MachineReg -> Z) w :
  check_base i = true -> (exec_regs i ρ w).1 kCPUStatePointer = ρ kCPUStatePointer.
Proof.
  intros [Hc _]%andb_true_iff; unfold exec_regs; destruct (exec_insn _ _ _ _) as [out w']; cbn [fst]; apply write_defs_unwritten.
  intros (k & Hin & Hk); apply (forallb_elem_of _ _ (kCPUStatePointer, k)) in Hc; [| done]; cbn [fst snd] in Hc; by rewrite Hk, Z.eqb_refl in Hc.
Qed.

Lemma check_base_run ir l (ρ : MachineReg -> Z) w :
  insn_folding_executed ir = false -> ρ kCPUStatePointer = context_address -> forallb check_base l = true ->
  executed (respects ir) l ρ w /\ (run_insns l ρ w).1.2 kCPUStatePointer = context_address.
Proof.
  intros Hf; revert ρ w; induction l as [| i l IH]; intros ρ w Hp; cbn [forallb executed run_insns]; [done |]; intros [Hi Hl]%andb_true_iff.
  destruct (fault_of i ρ w); [done |]; destruct (transfer_of i ρ); [done |].
  pose proof (check_base_respects ir i ρ Hf Hp Hi); pose proof (check_base_keeps i ρ w Hi); destruct (exec_regs i ρ w) as [ρ1 w1]; cbn in *.
  destruct (IH ρ1 w1) as [? ?]; [congruence | done |]; done.
Qed.

Definition check_bases (ir : MachineIR) : bool := negb (insn_folding_executed ir) && forallb (fun x => forallb check_base (insn_list x.2)) (map_to_list (blocks ir)).

Lemma check_bases_disciplined ir bb (ρ : MachineReg -> Z) w :
  check_bases ir = true -> ρ kCPUStatePointer = context_address -> throughout (respects ir) ir bb ρ w.
Proof.
  intros [Hf%negb_true_iff Hc]%andb_true_iff Hp bb1 b ρ1 w1 Hr Hb.
  assert (Hall : forall bb b, blocks ir !! bb = Some b -> forallb check_base (insn_list b) = true).
  { intros y c Hy%elem_of_map_to_list; by apply (forallb_elem_of _ _ (y, c)) in Hc. }
  assert (ρ1 kCPUStatePointer = context_address) as Hp1.
  { clear Hb; induction Hr as [| bb1 b1 ρ1 w1 bb2 ρ2 w2 _ IH Hb1 Hrun]; [done |].
    destruct (check_base_run ir (insn_list b1) ρ1 w1 Hf IH (Hall bb1 b1 Hb1)) as [_ H]; by rewrite Hrun in H. }
  by apply check_base_run, (Hall bb1 b).
Qed.

(** ** Puts that are dead *)

Definition put_insn (o : X86Opcode) (disp : Z) (src : MachineReg) : MachineInsn :=
  new_insn (X86Insn o disp 0 0 0 0 0) [use_of kGeneralReg64; use_of kReg64] [kCPUStatePointer; src] kMachineInsnSideEffects.
Definition get_insn (o : X86Opcode) (disp : Z) (dst : MachineReg) : MachineInsn :=
  new_insn (X86Insn o disp 0 0 0 0 0) [def_of kReg64; use_of kGeneralReg64] [dst; kCPUStatePointer] kMachineInsnDefault.

(** Block 0 runs [l0] and goes to block 1, which runs [l1] and leaves. *)
Definition two_blocks (l0 l1 : list MachineInsn) : MachineIR :=
  let ir := new_MachineIR 3 in
  let '(b0, ir) := NewBasicBlock ir in
  let '(b1, ir) := NewBasicBlock ir in
  let ir := set_bb_list [b0; b1] ir in
  let ir := AddEdge b0 b1 ir in
  let ir := append_insns b0 (l0 ++ [new_PseudoBranch b1]) ir in
  append_insns b1 (l1 ++ [new_PseudoJump 64 kJumpWithPendingSignalsCheck]) ir.

(** Registers at 0 and 8: block 0 puts both, block 1 reads the second and puts the
    first. *)
Definition puts_ir : MachineIR :=
  two_blocks [put_insn MovqMemBaseDispReg 0 1024; put_insn MovqMemBaseDispReg 8 1025]
    [get_insn MovqRegMemBaseDisp 8 1026; put_insn MovqMemBaseDispReg 0 1026].

Definition puts_slots : gmap nat nat := {[0%nat := 8%nat; 8%nat := 8%nat]}.

Example first_put_removed :
  ('(_, ir) ← RemoveRedundantPut (work_bound puts_ir sizeof_CPUState) puts_ir; insn_list <$> blocks ir !! 0%nat) =
  Some [put_insn MovqMemBaseDispReg 8 1025; new_PseudoBranch 1].
Proof. vm_compute; reflexivity. Qed.


(** Every state in which [kCPUStatePointer] has the address of the context will do. *)
Example puts_disciplined ρ w : ρ kCPUStatePointer = context_address -> throughout (respects puts_ir) puts_ir 0 ρ w.
Proof. apply check_bases_disciplined; vm_compute; reflexivity. Qed.

(** ** Puts of two widths *)

(** Block 0 puts sixteen bytes, block 1 puts eight bytes at the same offset. *)
Definition narrow_ir : MachineIR :=
  two_blocks [put_insn MovdqaMemBaseDispXReg 0 1024] [put_insn MovsdMemBaseDispXReg 0 1025].

Definition narrow_removed : MachineIR := match RemoveRedundantPut (work_bound narrow_ir sizeof_CPUState) narrow_ir with Some (true, ir) => ir | _ => narrow_ir end.

Definition narrow_regs (r : MachineReg) : Z := if r =? kCPUStatePointer then context_address else if r =? 1024 then 2 ^ 64 else 5.
Definition zero_context : list Z := replicate 32 0.

(** The bytes that the executions leave in the context. *)
Definition two_runs (ir : MachineIR) (ρ : MachineReg -> Z) (c : list Z) : option (list Z) :=
  b0 ← blocks ir !! 0%nat; b1 ← blocks ir !! 1%nat;
  match run_insns (insn_list b0) ρ (c, []) with
  | (GoTo 1%nat, ρ, w) => match run_insns (insn_list b1) ρ w with (JumpOut _ _, _, (c, _)) => Some c | _ => None end
  | _ => None
  end.

(** The upper eight bytes of the wide put are lost: the analysis takes every put
    for one of the whole slot. *)
Theorem narrow_put_loses_bytes :
  insn_list <$> blocks narrow_removed !! 0%nat = Some [new_PseudoBranch 1] /\
  throughout (respects narrow_ir) narrow_ir 0 narrow_regs (zero_context, []) /\
  (take 16 <$> two_runs narrow_ir narrow_regs zero_context) = Some [5; 0; 0; 0; 0; 0; 0; 0; 1; 0; 0; 0; 0; 0; 0; 0] /\
  (take 16 <$> two_runs narrow_removed narrow_regs zero_context) = Some [5; 0; 0; 0; 0; 0; 0; 0; 0; 0; 0; 0; 0; 0; 0; 0].
Proof.
  split; [vm_compute; reflexivity |]; split; [apply check_bases_disciplined; vm_compute; reflexivity |]; split; vm_compute; reflexivity.
Qed.

(** ** Accesses within a block *)

Definition more_accesses (x y : nat * Z) : Prop := y.2 <= x.2.
#[export] Instance more_accesses_dec : RelDecision more_accesses := fun x y => Z_le_dec y.2 x.2.
#[export] Instance more_accesses_total : Total more_accesses.
Proof. intros x y; unfold more_accesses; lia. Qed.
#[export] Instance more_accesses_trans : Transitive more_accesses.
Proof. intros x y z; unfold more_accesses; lia. Qed.

#[export] Instance merge_offsets : OffsetSort := {|
  sort_counters := merge_sort more_accesses;
  sort_perm := merge_sort_Permutation more_accesses;
  sort_sorted := merge_sort_lookup more_accesses
|}.

#[export] Instance small_insns : HostInsns :=
  {| MovqRegImm := fun dst imm => new_insn (X86Insn (GeneratedOpcode 2) 0 0 0 0 0 imm) [def_of kGeneralReg64] [dst] kMachineInsnDefault |}.

#[export] Instance small_insns_ok : HostInsnsOk.
Proof. split; [intros r v; by eexists | done | intros r v; by eexists _, _, _, _, _, _, _]. Qed.

#[export] Instance small_local : LocalSem Z Z := {| load_value := fun _ bs => le_combine bs; imm_value := fun v => le_combine (le_split 8 v) |}.

#[export] Instance small_local_ok : LocalSemOk Z (list (list Z)) Z.
Proof.
  split; try done.
  - intros ir i d vals c m Hg Ht; rewrite width_of_access; destruct (get_data ir i d Hg) as (o & disp & ? & ? & ? & ? & ? & Ed & Eo & ->).
    cbn [exec_insn small_sem touches_context small_context] in *; unfold small_exec; rewrite Ht, Ed in *.
    destruct Hg as [Hg _]; unfold IsCPUStateGet in Hg; rewrite Ed in Hg; by destruct (insn_folding_executed ir), o.
  - intros i vals z Ho Hi; unfold opcode_of, imm_of in *; cbn [put_bytes small_context load_value small_local imm_value]; destruct (data i); try done.
    injection Ho as ->; injection Hi as ->; done.
  - intros ks v w; split; [cbn; lia | done].
Qed.

(** Block 0 puts a register, gets it back and puts it again. *)
Definition local_ir : MachineIR :=
  let ir := new_MachineIR 2 in
  let '(b0, ir) := NewBasicBlock ir in
  append_insns b0 [put_insn MovqMemBaseDispReg 0 1024; get_insn MovqRegMemBaseDisp 0 1025; put_insn MovqMemBaseDispReg 0 1025;
    new_PseudoJump 64 kJumpWithPendingSignalsCheck] (set_bb_list [b0] ir).

Definition local_slots : gmap nat nat := {[0%nat := 8%nat]}.

(** The get is a copy, and the first put is gone. *)
Example local_accesses_removed :
  (ir ← RemoveLocalGuestContextAccesses default_params local_ir; insn_list <$> blocks ir !! 0%nat) =
  Some [new_PseudoCopy 1025 1024 8; put_insn MovqMemBaseDispReg 0 1025; new_PseudoJump 64 kJumpWithPendingSignalsCheck].
Proof. vm_compute; reflexivity. Qed.

(** The operands of gets and puts. *)
Definition check_get_shape (i : MachineInsn) : bool :=
  bool_decide (recovery_bb i = None) && (recovery_pc i =? kNullGuestAddr) &&
  match operands i with
  | [(_, kd); (base, kb)] => (base =? kCPUStatePointer) && IsDef kd && negb (IsInput kd) && negb (IsDef kb) && IsInput kb
  | _ => false
  end.

Definition check_put_shape (i : MachineInsn) : bool :=
  match operands i with
  | [(base, kb)] => (base =? kCPUStatePointer) && IsInput kb && match opcode_of i with Some MovqMemBaseDispImm => true | _ => false end
  | [(base, kb); (_, ks)] => (base =? kCPUStatePointer) && IsInput kb && IsInput ks && match opcode_of i with Some MovqMemBaseDispImm => false | _ => true end
  | _ => false
  end.

Definition check_shape (ir : MachineIR) (i : MachineInsn) : bool :=
  match IsCPUStatePut ir i, IsCPUStateGet ir i with
  | Some p, Some g => (negb g || check_get_shape i) && (negb p || check_put_shape i)
  | _, _ => false
  end.

Definition check_shapes (ir : MachineIR) : bool :=
  forallb (fun bb => match blocks ir !! bb with Some b => forallb (check_shape ir) (insn_list b) | None => true end) (bb_list ir).

Lemma check_shape_sound ir i : check_shape ir i = true -> access_shape ir i.
Proof.
  unfold check_shape; destruct (IsCPUStatePut ir i) as [p |] eqn:Ep, (IsCPUStateGet ir i) as [g |] eqn:Eg; try done; intros [Hg Hp]%andb_true_iff; split; [by split; eexists | |].
  - intros d [Hd _]; assert (g = true) as -> by congruence; cbn [negb orb] in Hg; unfold check_get_shape in Hg; rewrite !andb_true_iff in Hg; destruct Hg as ((H1%bool_decide_eq_true & H2%Z.eqb_eq) & Hg).
    split; [| done]; destruct (operands i) as [| [dst kd] [| [base kb] [| ? ?]]] eqn:Eo; try done; rewrite !andb_true_iff, !negb_true_iff in Hg; destruct Hg as ((((->%Z.eqb_eq & ?) & ?) & ?) & ?).
    by exists dst, kd, kb.
  - intros d [Hd _]; assert (p = true) as -> by congruence; cbn [negb orb] in Hp; unfold check_put_shape in Hp.
    destruct (operands i) as [| [base kb] [| [src ks] [| ? ?]]] eqn:Eo; try done; rewrite !andb_true_iff in Hp.
    + destruct Hp as ((->%Z.eqb_eq & Hk) & Ho); unfold opcode_of in Ho; destruct (data i) as [| | | | | | | | | | | o ? ? ? ? ? imm] eqn:Ed; try done; exists (MappedImm imm), kb.
      unfold opcode_of, imm_of; rewrite Ed; by destruct o.
    + destruct Hp as (((->%Z.eqb_eq & Hk) & Hs) & Ho); exists (MappedReg src), kb, ks; conjs; try done; intros E; by rewrite E in Ho.
Qed.

Lemma check_shapes_sound ir : check_shapes ir = true -> forall bb b i, bb ∈ bb_list ir -> blocks ir !! bb = Some b -> i ∈ insn_list b -> access_shape ir i.
Proof.
  intros Hc bb b i Hbb Hb Hi; apply (forallb_elem_of _ _ bb) in Hc; [| done]; cbv beta in Hc; rewrite Hb in Hc; apply (forallb_elem_of _ _ i) in Hc; [by apply check_shape_sound | done].
Qed.

Definition slots_inside (ws : gmap nat nat) : bool := forallb (fun x => (x.1 + x.2 <=? sizeof_CPUState)%nat) (map_to_list ws).

Lemma slots_inside_sound ws : slots_inside ws = true -> forall d, slot_of ws d -> (d + slot_width ws d <= sizeof_CPUState)%nat.
Proof.
  intros Hc d [w Hw]; unfold slot_width; rewrite Hw; apply elem_of_map_to_list in Hw; apply (forallb_elem_of _ _ (d, w)) in Hc; [by apply Nat.leb_le in Hc | done].
Qed.

Lemma RemoveLocalGuestContextAccesses_preserves_witness :
  (0 < sizeof_CPUState)%nat /\ access_graph local_ir (slot_of local_slots) (slot_width local_slots) /\
  exists ir', RemoveLocalGuestContextAccesses default_params local_ir = Some ir' /\ bb_list ir' = bb_list local_ir /\
    forall bb (ρ : MachineReg -> Z) c k, bb ∈ bb_list local_ir -> length c = sizeof_CPUState -> throughout (whole_puts local_ir) local_ir bb ρ (c, k) ->
    same_runs local_ir ir' bb bb ρ ρ (c, k).
Proof.
  assert (0 < sizeof_CPUState)%nat as Hs by (vm_compute; lia).
  assert (access_graph local_ir (slot_of local_slots) (slot_width local_slots)) as Hp by (apply check_accesses_sound; vm_compute; reflexivity).
  assert (check_shapes local_ir = true) as Hsh by (vm_compute; reflexivity).
  assert (slots_inside local_slots = true) as Hin by (vm_compute; reflexivity).
  split; [exact Hs | split; [exact Hp |]].
  exact (RemoveLocalGuestContextAccesses_preserves (B := Z) (M := list (list Z)) (V := Z) Hs default_params local_ir (slot_of local_slots) (slot_width local_slots) Hp
    (check_shapes_sound local_ir Hsh) (slots_inside_sound local_slots Hin)).
Defined.

Definition local_regs (r : MachineReg) : Z := if r =? kCPUStatePointer then context_address else 7.

(** An execution to which the theorem applies. *)
Example local_execution : throughout (whole_puts local_ir) local_ir 0 local_regs (zero_context, []).
Proof.
  intros bb1 b ρ1 w1 Hr; assert (bb1 = 0%nat /\ ρ1 = local_regs /\ w1 = (zero_context, [])) as (-> & -> & ->).
  { induction Hr as [| bb1 b1 ρ1 w1 bb2 ρ2 w2 _ (-> & -> & ->) Hb1 Hrun]; [done |]; injection Hb1 as <-; vm_compute in Hrun; congruence. }
  intros [= <-]; cbn [executed]; assert (Hre : forall i (ρ : MachineReg -> Z), ρ kCPUStatePointer = context_address -> check_base i = true -> respects local_ir i (inputs_of (operands i) ρ)).
  { intros i ρ; by apply check_base_respects. }
  repeat split; try (apply Hre; reflexivity); intros d base v Hp Ho Hv; try (injection Hv as <- <-; vm_compute; reflexivity); destruct Hp as [Hp _]; vm_compute in Hp; congruence.
Qed.

(** A wide put and a narrow one stay both. *)
Theorem two_puts_stay :
  RemoveLocalGuestContextAccesses default_params (two_blocks [put_insn MovdqaMemBaseDispXReg 0 1024; put_insn MovsdMemBaseDispXReg 0 1025] []) =
  Some (two_blocks [put_insn MovdqaMemBaseDispXReg 0 1024; put_insn MovsdMemBaseDispXReg 0 1025] []).
Proof. vm_compute; reflexivity. Qed.

(** ** Both passes *)

(** Block 0 puts a register, gets it back and puts it again; block 1 puts it, and
    another one. *)
Definition passes_ir : MachineIR :=
  two_blocks [put_insn MovqMemBaseDispReg 0 1024; get_insn MovqRegMemBaseDisp 0 1025; put_insn MovqMemBaseDispReg 0 1025]
    [put_insn MovqMemBaseDispReg 0 1024; put_insn MovqMemBaseDispReg 8 1025].

Example all_puts_removed :
  (ir ← RemoveLocalGuestContextAccesses default_params passes_ir; '(_, ir) ← RemoveRedundantPut (work_bound passes_ir sizeof_CPUState) ir; insn_list <$> blocks ir !! 0%nat) =
  Some [new_PseudoCopy 1025 1024 8; new_PseudoBranch 1].
Proof. vm_compute; reflexivity. Qed.

Lemma context_passes_compose_witness :
  (0 < sizeof_CPUState)%nat /\ putting passes_ir (slot_of puts_slots) (slot_width puts_slots) /\
  exists ir1 ir2, RemoveLocalGuestContextAccesses default_params passes_ir = Some ir1 /\
    RemoveRedundantPut (work_bound passes_ir sizeof_CPUState) ir1 = Some (true, ir2) /\
    bb_list ir2 = bb_list passes_ir /\ CheckMachineIR ir2 = Some kMachineIRCheckSuccess /\
    forall bb (ρ : MachineReg -> Z) c k, bb ∈ bb_list passes_ir -> length c = sizeof_CPUState -> throughout (whole_puts passes_ir) passes_ir bb ρ (c, k) ->
    same_runs passes_ir ir2 bb bb ρ ρ (c, k).
Proof.
  assert (0 < sizeof_CPUState)%nat as Hs by (vm_compute; lia).
  assert (putting passes_ir (slot_of puts_slots) (slot_width puts_slots)) as Hp by (apply check_putting_sound; vm_compute; reflexivity).
  assert (check_shapes passes_ir = true) as Hsh by (vm_compute; reflexivity).
  assert (slots_inside puts_slots = true) as Hin by (vm_compute; reflexivity).
  split; [exact Hs | split; [exact Hp |]].
  exact (context_passes_compose (B := Z) (M := list (list Z)) (V := Z) Hs default_params _ passes_ir (slot_of puts_slots) (slot_width puts_slots) Hp
    (slots_inside_sound puts_slots Hin) (check_shapes_sound passes_ir Hsh) (le_n _)).
Defined.
