(* ===== verification/LoopAnalysis.v ===== *)
(** * Orders of blocks, and loops

    [src/backend/x86_64/machine_ir_analysis.h] and [.cc]: the reverse post order
    of the blocks, the loops of the graph, and the tree of nested loops; and
    [ReorderBasicBlocksInReversePostOrder] of [x86_64/machine_ir_opt.cc].

    [None] is a failed [CHECK], an index out of range, or fuel that is used up.
    The orders that [std::sort] gives are parameters. *)
From stdpp Require Import gmap list.
From S2P Require Import Prelude MachineIR Lifetime LifetimeAnalysis Liveness MachineIRCheck MachineSem ControlFlow.
#[local] Open Scope Z_scope.

Abbreviation Loop := (list BlockPtr) (only parsing).

(** [std::sort] of back edges by the number of their destination, and of loops by
    their size, the longest first. *)
Class LoopSort := {
  sort_edges : list (EdgePtr * MachineEdge) -> list (EdgePtr * MachineEdge);
  sort_edges_perm : forall l, sort_edges l ≡ₚ l;
  sort_edges_sorted : forall l i j x y, sort_edges l !! i = Some x -> sort_edges l !! j = Some y -> (i < j)%nat -> (edge_dst x.2 <= edge_dst y.2)%nat;
  sort_loops : list Loop -> list Loop;
  sort_loops_perm : forall l, sort_loops l ≡ₚ l;
  sort_loops_sorted : forall l i j x y, sort_loops l !! i = Some x -> sort_loops l !! j = Some y -> (i < j)%nat -> (length y <= length x)%nat
}.

(** ** Reverse post order *)

(** [is_visited] and [result]. *)
Fixpoint PostOrderTraverseBBListRecursive (fuel : nat) (ir : MachineIR) (bb : BlockPtr) (st : list bool * list BlockPtr) : option (list bool * list BlockPtr) :=
  match fuel with
  | O => None
  | S fuel =>
      let '(is_visited, result) := st in
      _ ← is_visited !! bb;
      b ← blocks ir !! bb;
      '(is_visited, result) ← for_each (fun e st =>
          x ← edges ir !! e;
          visited ← st.1 !! edge_dst x;
          if (visited : bool) then Some st else PostOrderTraverseBBListRecursive fuel ir (edge_dst x) st)
        (out_edges b) (<[bb := true]> is_visited, result);
      Some (is_visited, bb :: result)
  end.

Definition GetReversePostOrderBBList (fuel : nat) (ir : MachineIR) : option (list BlockPtr) :=
  match bb_order ir with
  | kReversePostOrder => Some (bb_list ir)
  | kUnordered =>
      entry_bb ← head (bb_list ir);
      b ← blocks ir !! entry_bb;
      if negb (length (in_edges b) =? 0)%nat then None
      else snd <$> PostOrderTraverseBBListRecursive fuel ir entry_bb (replicate (num_bb ir) false, [])
  end.

Definition ReorderBasicBlocksInReversePostOrder (fuel : nat) (ir : MachineIR) : option MachineIR :=
  l ← GetReversePostOrderBBList fuel ir; Some (set_bb_order kReversePostOrder (set_bb_list l ir)).

(** ** Loops *)

(** [LoopBuilder]: the loop, and which blocks are in it. *)
Record LoopBuilder := { loop_ : Loop; is_bb_in_loop_ : list bool }.

Definition new_LoopBuilder (ir : MachineIR) (loop_head : BlockPtr) : option LoopBuilder :=
  if decide (loop_head < num_bb ir)%nat then Some {| loop_ := [loop_head]; is_bb_in_loop_ := <[loop_head := true]> (replicate (num_bb ir) false) |} else None.

Definition PushBackIfNotInLoop (bb : BlockPtr) (s : LoopBuilder) : option (bool * LoopBuilder) :=
  inside ← is_bb_in_loop_ s !! bb;
  Some (if (inside : bool) then (false, s) else (true, {| loop_ := loop_ s ++ [bb]; is_bb_in_loop_ := <[bb := true]> (is_bb_in_loop_ s) |})).

(** The sources of the in edges. *)
Definition push_sources (ir : MachineIR) (es : list EdgePtr) (s : LoopBuilder) : option LoopBuilder :=
  for_each (fun e s => x ← edges ir !! e; '(_, s) ← PushBackIfNotInLoop (edge_src x) s; Some s) es s.

(** The walk over the blocks of the loop from [bb_no] on, while it grows; the
    answer [None] is the [nullptr] for an irreducible loop. *)
Fixpoint walk_loop (fuel : nat) (ir : MachineIR) (bb_no : nat) (s : LoopBuilder) : option (option LoopBuilder) :=
  match fuel with
  | O => None
  | S fuel =>
      match loop_ s !! bb_no with
      | None => Some (Some s)
      | Some bb =>
          b ← blocks ir !! bb;
          if (length (in_edges b) =? 0)%nat then Some None
          else s ← push_sources ir (in_edges b) s; walk_loop fuel ir (S bb_no) s
      end
  end.

(** The back edges of one head. *)
Fixpoint walk_back (fuel : nat) (ir : MachineIR) (head_bb : BlockPtr) (back_edges : list (EdgePtr * MachineEdge)) (s : LoopBuilder) : option (option LoopBuilder) :=
  match back_edges with
  | [] => Some (Some s)
  | (_, x) :: back_edges =>
      if negb (edge_dst x =? head_bb)%nat then None
      else
        '(pushed, s) ← PushBackIfNotInLoop (edge_src x) s;
        if (pushed : bool) then
          r ← walk_loop fuel ir (length (loop_ s) - 1) s;
          match r with None => Some None | Some s => walk_back fuel ir head_bb back_edges s end
        else walk_back fuel ir head_bb back_edges s
  end.

Definition CollectLoop (fuel : nat) (ir : MachineIR) (back_edges : list (EdgePtr * MachineEdge)) (begin end_ : nat) : option (option Loop) :=
  '(_, first) ← back_edges !! begin;
  s ← new_LoopBuilder ir (edge_dst first);
  r ← walk_back fuel ir (edge_dst first) (take (end_ - begin) (drop begin back_edges)) s;
  Some (match r with Some s => Some (loop_ s) | None => None end).

(** The edges to blocks that were visited. *)
Definition push_back_edges (ir : MachineIR) (is_visited : list bool) (es : list EdgePtr) (back_edges : list (EdgePtr * MachineEdge)) : option (list (EdgePtr * MachineEdge)) :=
  for_each (fun e l => x ← edges ir !! e; visited ← is_visited !! edge_dst x; Some (if (visited : bool) then l ++ [(e, x)] else l)) es back_edges.

Definition visit_back_edges (ir : MachineIR) (bb : BlockPtr) (st : list bool * list (EdgePtr * MachineEdge)) : option (list bool * list (EdgePtr * MachineEdge)) :=
  _ ← st.1 !! bb;
  b ← blocks ir !! bb;
  let is_visited := <[bb := true]> st.1 in
  back_edges ← push_back_edges ir is_visited (out_edges b) st.2;
  Some (is_visited, back_edges).

Definition collect_back_edges (ir : MachineIR) (order : list BlockPtr) : option (list (EdgePtr * MachineEdge)) :=
  snd <$> for_each (visit_back_edges ir) order (replicate (num_bb ir) false, []).

Section Loops.
Context `{!LoopSort}.

(** The destination of an edge; the guard after the last one has none. *)
Definition back_dst (back_edges : list (EdgePtr * MachineEdge)) (n : nat) : option BlockPtr := (fun x => edge_dst x.2) <$> back_edges !! n.

(** One iteration: the first edge with the current head, and the loops. *)
Definition collect_group (fuel : nat) (ir : MachineIR) (back_edges : list (EdgePtr * MachineEdge)) (edge_no : nat) (st : nat * list Loop) : option (nat * list Loop) :=
  let '(begin_edge_no, loops) := st in
  if decide (back_dst back_edges begin_edge_no = back_dst back_edges edge_no) then Some st
  else r ← CollectLoop fuel ir back_edges begin_edge_no edge_no; Some (edge_no, match r with Some loop => loops ++ [loop] | None => loops end).

Definition FindLoops (fuel : nat) (ir : MachineIR) : option (list Loop) :=
  order ← GetReversePostOrderBBList fuel ir;
  back_edges ← collect_back_edges ir order;
  let back_edges := sort_edges back_edges in
  '(_, loops) ← for_each (collect_group fuel ir back_edges) (seq 1 (length back_edges)) (0%nat, []);
  Some loops.

(** ** The tree of loops *)

(** The root has no loop. *)
Inductive LoopTreeNode := Node (loop : option Loop) (innerloop_nodes : list LoopTreeNode).

Definition node_loop (n : LoopTreeNode) : option Loop := match n with Node loop _ => loop end.
Definition inner_nodes (n : LoopTreeNode) : list LoopTreeNode := match n with Node _ l => l end.

(** The first node into which [f] inserts the loop gets it; if there is none, a
    new node is added. *)
Section Inner.
Context (f : LoopTreeNode -> option LoopTreeNode) (loop : Loop).

Fixpoint insert_inner (nodes : list LoopTreeNode) : list LoopTreeNode :=
  match nodes with
  | [] => [Node (Some loop) []]
  | n :: nodes => match f n with Some n' => n' :: nodes | None => n :: insert_inner nodes end
  end.

End Inner.

(** The node with the loop inserted, or [None] for [false]; [head_bb] is
    [loop->at(0)]. *)
Fixpoint TryInsertLoopAtNode (head_bb : BlockPtr) (loop : Loop) (node : LoopTreeNode) : option LoopTreeNode :=
  match node with
  | Node l inner =>
      if match l with Some l => bool_decide (head_bb ∉ l) | None => false end then None
      else Some (Node l (insert_inner (TryInsertLoopAtNode head_bb loop) loop inner))
  end.

Definition InsertLoop (loop : Loop) (root : LoopTreeNode) : option LoopTreeNode := head_bb ← head loop; TryInsertLoopAtNode head_bb loop root.

Definition BuildLoopTree (fuel : nat) (ir : MachineIR) : option LoopTreeNode :=
  loops ← FindLoops fuel ir; for_each InsertLoop (sort_loops loops) (Node None []).

End Loops.
