(* ===== verification/LoopAnalysisProps.v ===== *)
(** * Orders of blocks, and loops: what is found

    The reverse post order lists the blocks that can be reached, each once, and an
    edge that goes backwards in it closes a cycle; the loops are those of the back
    edges whose head dominates them; the tree holds every loop once. *)
From stdpp Require Import gmap list relations.
From S2P Require Import Prelude MachineIR Lifetime LifetimeAnalysis Liveness MachineIRCheck MachineSem ControlFlow LoopAnalysis.
#[local] Open Scope Z_scope.

(** ** Paths *)

Definition flow (ir : MachineIR) (u v : BlockPtr) : Prop := u ∈ bb_list ir /\ exists b, blocks ir !! u = Some b /\ v ∈ dsts ir (out_edges b).

(** [y] is after [x] in the list. *)
Definition before {A} (l : list A) (x y : A) : Prop := exists l1 l2, l = l1 ++ x :: l2 /\ y ∈ l2.

Lemma before_app {A} (l l' : list A) x y : before l' x y -> before (l ++ l') x y.
Proof. intros (l1 & l2 & -> & Hy); exists (l ++ l1), l2; by rewrite <- app_assoc. Qed.

Lemma flow_edge ir u b e x : u ∈ bb_list ir -> blocks ir !! u = Some b -> e ∈ out_edges b -> edges ir !! e = Some x -> flow ir u (edge_dst x).
Proof. intros Hu Hb He Hx; split; [done |]; exists b; split; [done |]; apply elem_of_dsts; by exists e, x. Qed.

(** ** Reverse post order *)

Section Traverse.
Context (ir : MachineIR) (Hwf : wf_graph ir).

Abbreviation reach := (rtc (flow ir)).

(** The blocks [new] were visited from [bb], and are now before [res]. *)
Record traversed (vis : list bool) (res : list BlockPtr) (bb : BlockPtr) (vis' : list bool) (new : list BlockPtr) : Prop := {
  tr_length : length vis' = length vis;
  tr_visited : forall x, vis' !! x = Some true <-> vis !! x = Some true \/ x ∈ new;
  tr_fresh : forall x, x ∈ new -> x ∈ bb_list ir /\ vis !! x = Some false;
  tr_nodup : NoDup new;
  tr_reach : forall x, x ∈ new -> reach bb x;
  tr_closed : forall x y, x ∈ new -> flow ir x y -> vis' !! y = Some true;
  tr_order : forall x y, x ∈ new -> flow ir x y -> before (new ++ res) x y \/ reach y x
}.

Lemma traversed_nil vis res bb : traversed vis res bb vis [].
Proof. split; try (by intros x ?%not_elem_of_nil); try (by intros x y ?%not_elem_of_nil); [done | | constructor]; intros x; split; [by left | intros [? | ?%not_elem_of_nil]; done]. Qed.

Lemma traversed_app vis res bb bb1 vis1 new1 vis2 new2 :
  reach bb bb1 -> traversed vis res bb1 vis1 new1 -> traversed vis1 (new1 ++ res) bb vis2 new2 -> traversed vis res bb vis2 (new2 ++ new1).
Proof.
  intros Hr T1 T2; split.
  - rewrite (tr_length _ _ _ _ _ T2); apply T1.
  - intros x; rewrite (tr_visited _ _ _ _ _ T2), (tr_visited _ _ _ _ _ T1), elem_of_app; tauto.
  - intros x [Hx | Hx]%elem_of_app; [| by apply T1]; destruct (tr_fresh _ _ _ _ _ T2 x Hx) as [? Hf]; split; [done |].
    destruct (vis !! x) as [[] |] eqn:E; [| done |].
    + assert (vis1 !! x = Some true) by (apply T1; by left); congruence.
    + apply lookup_lt_Some in Hf; rewrite (tr_length _ _ _ _ _ T1) in Hf; apply lookup_ge_None in E; lia.
  - apply NoDup_app; split; [apply T2 |]; split; [| apply T1]; intros x Hx Hx1; destruct (tr_fresh _ _ _ _ _ T2 x Hx) as [_ Hf].
    assert (vis1 !! x = Some true) by (apply T1; by right); congruence.
  - intros x [Hx | Hx]%elem_of_app; [by apply T2 |]; etrans; [exact Hr | by apply T1].
  - intros x y [Hx | Hx]%elem_of_app Hf; [by apply (tr_closed _ _ _ _ _ T2 x) |]; apply (tr_visited _ _ _ _ _ T2); left; by apply (tr_closed _ _ _ _ _ T1 x).
  - intros x y [Hx | Hx]%elem_of_app Hf; rewrite <- app_assoc; [by apply (tr_order _ _ _ _ _ T2) |]; destruct (tr_order _ _ _ _ _ T1 x y Hx Hf); [left; by apply before_app | by right].
Qed.

Lemma mark_zeros (vis : list bool) bb : vis !! bb = Some false -> (zeros (<[bb := true]> vis) < zeros vis)%nat.
Proof.
  intros Hb; pose proof (lookup_lt_Some _ _ _ Hb) as Hlt; apply (zeros_le vis (<[bb := true]> vis)); [by rewrite length_insert | |].
  - intros x Hx; apply bit_insert; [done |]; destruct (decide (x = bb)) as [-> | Hne]; [by left | by right].
  - intros E; rewrite E, list_lookup_insert_eq in Hb by done; done.
Qed.

(** The loop over the out edges of [bb], for a traversal [f] from their ends. *)
Section Edges.
Context (f : BlockPtr -> list bool * list BlockPtr -> option (list bool * list BlockPtr)) (fuel : nat).
Context (Hf : forall y vis res, y ∈ bb_list ir -> vis !! y = Some false -> length vis = num_bb ir -> (zeros vis <= fuel)%nat ->
  (forall x, vis !! x = Some true -> x ∈ res \/ reach x y) ->
  exists vis' new, f y (vis, res) = Some (vis', new ++ res) /\ y ∈ new /\ traversed vis res y vis' new).

Lemma edges_traversed bb b es : bb ∈ bb_list ir -> blocks ir !! bb = Some b -> (forall e, e ∈ es -> e ∈ out_edges b) -> forall vis res,
  length vis = num_bb ir -> (zeros vis <= fuel)%nat -> (forall x, vis !! x = Some true -> x ∈ res \/ reach x bb) ->
  exists vis' new, for_each (fun e st => x ← edges ir !! e; visited ← st.1 !! edge_dst x; if (visited : bool) then Some st else f (edge_dst x) st) es (vis, res) = Some (vis', new ++ res) /\
    traversed vis res bb vis' new /\ forall e x, e ∈ es -> edges ir !! e = Some x -> vis' !! edge_dst x = Some true.
Proof.
  intros Hbb Hb; induction es as [| e es IH]; intros Hes vis res Hl Hz Hgray; cbn [for_each].
  { exists vis, []; conjs; [done | apply traversed_nil | by intros e x ?%not_elem_of_nil]. }
  assert (He : e ∈ out_edges b) by (apply Hes, elem_of_cons; by left); assert (Hes' : forall e, e ∈ es -> e ∈ out_edges b) by (intros; apply Hes, elem_of_cons; by right).
  destruct (bo_out _ _ _ (wg_ok _ _ _ Hwf Hbb Hb) e He) as (x & d & Hx & _ & Hd & Hdb & _); rewrite Hx; cbn [mbind option_bind fst].
  assert (Hlt : (edge_dst x < num_bb ir)%nat) by (apply (wg_id _ Hwf); by exists d).
  destruct (lookup_lt_is_Some_2 vis (edge_dst x)) as [v Hv]; [lia |]; rewrite Hv; cbn [mbind option_bind].
  assert (Hedge : flow ir bb (edge_dst x)) by (by eapply flow_edge); destruct v; cbn [mbind option_bind].
  - destruct (IH Hes' vis res Hl Hz Hgray) as (vis' & new & -> & T & Hdst); exists vis', new; conjs; [done | done |]; intros e' x' [-> | He']%elem_of_cons Hx'; [| by eapply Hdst].
    assert (x' = x) as -> by congruence; apply T; by left.
  - destruct (Hf (edge_dst x) vis res Hd Hv Hl Hz) as (vis1 & new1 & -> & Hin & T1).
    { intros y [? | Hy]%Hgray; [by left | right]; eapply rtc_r; [exact Hy | done]. }
    cbn [mbind option_bind]; destruct (IH Hes' vis1 (new1 ++ res)) as (vis2 & new2 & -> & T2 & Hdst).
    + by rewrite (tr_length _ _ _ _ _ T1).
    + etrans; [| exact Hz]; apply zeros_le; [by rewrite (tr_length _ _ _ _ _ T1) |]; intros y Hy; apply (tr_visited _ _ _ _ _ T1); by left.
    + intros y [Hy | Hy]%(tr_visited _ _ _ _ _ T1); [| left; apply elem_of_app; by left]; destruct (Hgray y Hy); [left; apply elem_of_app; by right | by right].
    + exists vis2, (new2 ++ new1); conjs; [by rewrite <- app_assoc | by eapply traversed_app; [apply rtc_once | |] |].
      intros e' x' [-> | He']%elem_of_cons Hx'; [| by eapply Hdst]; assert (x' = x) as -> by congruence; apply (tr_visited _ _ _ _ _ T2); left; apply (tr_visited _ _ _ _ _ T1); by right.
Qed.

End Edges.

Lemma traverse_spec fuel : forall bb vis res,
  bb ∈ bb_list ir -> vis !! bb = Some false -> length vis = num_bb ir -> (zeros vis <= fuel)%nat -> (forall x, vis !! x = Some true -> x ∈ res \/ reach x bb) ->
  exists vis' new, PostOrderTraverseBBListRecursive fuel ir bb (vis, res) = Some (vis', bb :: new ++ res) /\ traversed vis res bb vis' (bb :: new).
Proof.
  induction fuel as [| fuel IH]; intros bb vis res Hbb Hv Hl Hz Hgray; [pose proof (mark_zeros vis bb Hv); lia |]; cbn [PostOrderTraverseBBListRecursive].
  rewrite Hv; cbn [mbind option_bind]; destruct (wg_block _ Hwf bb Hbb) as (b & Hb & Hok); rewrite Hb; cbn [mbind option_bind]; pose proof (lookup_lt_Some _ _ _ Hv) as Hlt.
  assert (Hmark : forall x, <[bb := true]> vis !! x = Some true <-> x = bb \/ vis !! x = Some true).
  { intros x; rewrite list_lookup_insert_Some; split; [intros [(-> & _) | [_ ?]]; [by left | by right] |]; intros [-> | Hx]; [by left |]; destruct (decide (bb = x)) as [-> | ?]; [by left | by right]. }
  destruct (edges_traversed (PostOrderTraverseBBListRecursive fuel ir) fuel) with (bb := bb) (b := b) (es := out_edges b) (vis := <[bb := true]> vis) (res := res) as (vis' & new & -> & T & Hdst); try done.
  - intros y vis1 res1 Hy Hvy Hl1 Hz1 Hg1; destruct (IH y vis1 res1 Hy Hvy Hl1 Hz1 Hg1) as (vis' & new & E & T); exists vis', (y :: new); conjs; [done | apply elem_of_cons; by left | done].
  - by rewrite length_insert.
  - pose proof (mark_zeros vis bb Hv); lia.
  - intros x [-> | Hx]%Hmark; [right; apply rtc_refl | by apply Hgray].
  - cbn [mbind option_bind]; exists vis', new; split; [done |]; assert (Hnew : bb ∉ new) by (intros Hn; destruct (tr_fresh _ _ _ _ _ T bb Hn) as [_ Hf]; rewrite list_lookup_insert_eq in Hf by done; done).
    assert (Hflow : forall y, flow ir bb y -> vis' !! y = Some true) by (intros y (_ & b' & Hb' & (e & x & He & Hx & <-)%elem_of_dsts); assert (b' = b) as -> by congruence; by eapply Hdst).
    split.
    + rewrite (tr_length _ _ _ _ _ T); apply length_insert.
    + intros x; rewrite (tr_visited _ _ _ _ _ T), Hmark, elem_of_cons; tauto.
    + intros x [-> | Hx]%elem_of_cons; [done |]; destruct (tr_fresh _ _ _ _ _ T x Hx) as [? Hf]; split; [done |]; rewrite list_lookup_insert_ne in Hf; [done |]; intros ->; done.
    + apply NoDup_cons; split; [done | apply T].
    + intros x [-> | Hx]%elem_of_cons; [apply rtc_refl | by apply T].
    + intros x y [-> | Hx]%elem_of_cons Hf; [by apply Hflow | by apply (tr_closed _ _ _ _ _ T x)].
    + intros x y [-> | Hx]%elem_of_cons Hf.
      * apply Hflow, (tr_visited _ _ _ _ _ T) in Hf as [[-> | Hy]%Hmark | Hy]; [right; apply rtc_refl | |].
        { destruct (Hgray y Hy); [left; exists [], (new ++ res); split; [done | apply elem_of_app; by right] | by right]. }
        left; exists [], (new ++ res); split; [done | apply elem_of_app; by left].
      * destruct (tr_order _ _ _ _ _ T x y Hx Hf) as [Hbf | ?]; [left; by apply (before_app [bb]) | by right].
Qed.

Record reverse_post_order (entry : BlockPtr) (l : list BlockPtr) : Prop := {
  rp_head : head l = Some entry;
  rp_nodup : NoDup l;
  rp_reach : forall x, x ∈ l <-> reach entry x;
  rp_enrolled : forall x, x ∈ l -> x ∈ bb_list ir;
  rp_order : forall x y, x ∈ l -> flow ir x y -> before l x y \/ reach y x
}.

Lemma reverse_post_order_found fuel entry b :
  bb_order ir = kUnordered -> head (bb_list ir) = Some entry -> blocks ir !! entry = Some b -> in_edges b = [] -> (num_bb ir <= fuel)%nat ->
  exists l, GetReversePostOrderBBList fuel ir = Some l /\ reverse_post_order entry l.
Proof.
  intros Ho Hh Hb Hi Hf; unfold GetReversePostOrderBBList; rewrite Ho, Hh; cbn [mbind option_bind]; rewrite Hb; cbn [mbind option_bind]; rewrite Hi; cbn [length Nat.eqb negb].
  assert (Hentry : entry ∈ bb_list ir) by (destruct (bb_list ir); [done |]; injection Hh as ->; apply elem_of_cons; by left).
  assert (Hnone : forall x, replicate (num_bb ir) false !! x <> Some true) by (intros x [? _]%lookup_replicate; done).
  destruct (traverse_spec fuel entry (replicate (num_bb ir) false) []) as (vis & new & E & T); [done | | apply length_replicate | | |].
  - apply lookup_replicate; split; [done |]; apply (wg_id _ Hwf); by exists b.
  - etrans; [apply length_filter | by rewrite length_replicate].
  - intros x Hx; by apply Hnone in Hx.
  - rewrite app_nil_r in E; exists (entry :: new); split; [by rewrite E |]; split; [done | apply T | | by apply T |].
    + intros x; split; [by apply T |]; refine (rtc_ind_r (fun x => x ∈ entry :: new) entry _ _ x); [apply elem_of_cons; by left |]; clear x; intros x y _ Hxy IH.
      destruct (proj1 (tr_visited _ _ _ _ _ T y)) as [Hy | ?]; [by apply (tr_closed _ _ _ _ _ T x) | by apply Hnone in Hy | done].
    + intros x y Hx Hxy; destruct (tr_order _ _ _ _ _ T x y Hx Hxy) as [? | ?]; [left | by right]; by rewrite app_nil_r in *.
Qed.

(** C21: the reverse post order.  With fuel for every block the traversal ends; it
    lists the entry first and exactly the blocks that can be reached from it, each
    once; and where an edge does not go forwards in the list, it closes a cycle. *)
Theorem GetReversePostOrderBBList_spec fuel entry b :
  bb_order ir = kUnordered -> head (bb_list ir) = Some entry -> blocks ir !! entry = Some b -> in_edges b = [] -> (num_bb ir <= fuel)%nat ->
  exists l, GetReversePostOrderBBList fuel ir = Some l /\ head l = Some entry /\ NoDup l /\ (forall x, x ∈ l <-> reach entry x) /\
    forall x y, x ∈ l -> flow ir x y -> before l x y \/ reach y x.
Proof.
  intros Ho Hh Hb Hi Hf; destruct (reverse_post_order_found fuel entry b Ho Hh Hb Hi Hf) as (l & ? & []); by exists l.
Qed.

(** *** Blocks in reverse post order *)

(** A block stays linked when the same blocks are enrolled in another order. *)
Lemma block_ok_reordered l o bb b : l ≡ₚ bb_list ir -> block_ok ir bb b -> block_ok (set_bb_order o (set_bb_list l ir)) bb b.
Proof.
  intros Hl Hok; split; try apply Hok.
  - intros e He; destruct (bo_out _ _ _ Hok e He) as (x & d & ? & ? & ? & ? & ?); exists x, d; conjs; try done; by cbn; rewrite Hl.
  - intros e He; destruct (bo_in _ _ _ Hok e He) as (x & d & ? & ? & ? & ? & ?); exists x, d; conjs; try done; by cbn; rewrite Hl.
Qed.

Lemma wf_graph_reordered l o : l ≡ₚ bb_list ir -> wf_graph (set_bb_order o (set_bb_list l ir)).
Proof.
  intros Hl; split; cbn; try apply Hwf.
  - rewrite Hl; apply Hwf.
  - intros bb; rewrite Hl; intros (b & Hb & Hok)%(wg_block _ Hwf); exists b; split; [done | by apply block_ok_reordered].
  - intros bb b; rewrite Hl; apply Hwf.
Qed.

(** Where every block can be reached, the reordering keeps all of them and the
    graph well formed, so that the checker accepts it; doing it again changes
    nothing. *)
Theorem ReorderBasicBlocksInReversePostOrder_spec fuel entry b :
  bb_order ir = kUnordered -> head (bb_list ir) = Some entry -> blocks ir !! entry = Some b -> in_edges b = [] -> (num_bb ir <= fuel)%nat -> (forall x, x ∈ bb_list ir -> reach entry x) ->
  exists ir', ReorderBasicBlocksInReversePostOrder fuel ir = Some ir' /\ bb_list ir' ≡ₚ bb_list ir /\ wf_graph ir' /\ CheckMachineIR ir' = Some kMachineIRCheckSuccess /\
    ReorderBasicBlocksInReversePostOrder fuel ir' = Some ir'.
Proof.
  intros Ho Hh Hb Hi Hf Hall; destruct (reverse_post_order_found fuel entry b Ho Hh Hb Hi Hf) as (l & Hl & Hrp).
  assert (Hp : l ≡ₚ bb_list ir).
  { apply NoDup_Permutation; [apply Hrp | apply Hwf |]; intros x; split; [apply Hrp |]; intros Hx; by apply (rp_reach _ _ Hrp), Hall. }
  pose proof (wf_graph_reordered l kReversePostOrder Hp) as Hwf'; unfold ReorderBasicBlocksInReversePostOrder; rewrite Hl.
  exists (set_bb_order kReversePostOrder (set_bb_list l ir)); conjs; [done | done | done | by apply wf_graph_checked | done].
Qed.

End Traverse.

(** ** Back edges *)

(** The edge from [u] to [v] does not go forwards in the list. *)
Definition retreating (l : list BlockPtr) (u v : BlockPtr) : Prop := exists l1 l2, l = l1 ++ u :: l2 /\ v ∈ l1 ++ [u].

Section Back.
Context (ir : MachineIR) (Hwf : wf_graph ir).

Abbreviation reach := (rtc (flow ir)).

Lemma out_edge bb b e : bb ∈ bb_list ir -> blocks ir !! bb = Some b -> e ∈ out_edges b ->
  exists x, edges ir !! e = Some x /\ edge_src x = bb /\ edge_dst x ∈ bb_list ir /\ (edge_dst x < num_bb ir)%nat /\ flow ir bb (edge_dst x).
Proof.
  intros Hbb Hb He; destruct (bo_out _ _ _ (wg_ok _ _ _ Hwf Hbb Hb) e He) as (x & d & Hx & Hs & Hd & Hdb & _); exists x; conjs; try done; [apply (wg_id _ Hwf); by exists d | by eapply flow_edge].
Qed.

Lemma push_back_edges_spec vis es : length vis = num_bb ir -> (forall e, e ∈ es -> exists x, edges ir !! e = Some x /\ (edge_dst x < num_bb ir)%nat) -> forall l,
  exists l', push_back_edges ir vis es l = Some l' /\ forall e x, (e, x) ∈ l' <-> (e, x) ∈ l \/ e ∈ es /\ edges ir !! e = Some x /\ vis !! edge_dst x = Some true.
Proof.
  intros Hl; induction es as [| e es IH]; intros Hes l; unfold push_back_edges in *; cbn [for_each].
  { exists l; split; [done |]; intros e x; split; [by left | intros [? | [?%not_elem_of_nil _]]; done]. }
  destruct (Hes e ltac:(apply elem_of_cons; by left)) as (x & Hx & Hlt); rewrite Hx; cbn [mbind option_bind]; destruct (lookup_lt_is_Some_2 vis (edge_dst x)) as [v Hv]; [lia |]; rewrite Hv; cbn [mbind option_bind].
  destruct (IH ltac:(intros; apply Hes, elem_of_cons; by right) (if v then l ++ [(e, x)] else l)) as (l' & -> & Hl'); exists l'; split; [done |].
  intros e' x'; rewrite Hl', elem_of_cons; destruct v.
  - rewrite elem_of_app, list_elem_of_singleton; split; [intros [[? | [= -> ->]] | ?]; [by left | right; by conjs; [left | |] | tauto] |].
    intros [? | ([-> | ?] & Hx' & ?)]; [tauto | left; right; congruence | tauto].
  - split; [tauto |]; intros [? | ([-> | ?] & Hx' & ?)]; [by left | congruence | tauto].
Qed.

Lemma collect_spec todo : forall pre vis B,
  length vis = num_bb ir -> (forall x, vis !! x = Some true <-> x ∈ pre) -> (forall x, x ∈ todo -> x ∈ bb_list ir) ->
  exists vis' B', for_each (visit_back_edges ir) todo (vis, B) = Some (vis', B') /\
    forall e x, (e, x) ∈ B' <-> (e, x) ∈ B \/ exists l1 u l2 b, todo = l1 ++ u :: l2 /\ blocks ir !! u = Some b /\ e ∈ out_edges b /\ edges ir !! e = Some x /\ edge_dst x ∈ pre ++ l1 ++ [u].
Proof.
  induction todo as [| u todo IH]; intros pre vis B Hl Hv Hen; cbn [for_each].
  { exists vis, B; split; [done |]; intros e x; split; [by left | intros [? | (l1 & u & l2 & b & Hn & _)]; [done |]; by destruct l1]. }
  assert (Hu : u ∈ bb_list ir) by (apply Hen, elem_of_cons; by left); destruct (wg_block _ Hwf u Hu) as (b & Hb & _).
  assert (Hlt : (u < num_bb ir)%nat) by (apply (wg_id _ Hwf); by exists b).
  destruct (lookup_lt_is_Some_2 vis u) as [v Hvu]; [lia |].
  destruct (push_back_edges_spec (<[u := true]> vis) (out_edges b)) with (l := B) as (B1 & EB1 & HB1); [by rewrite length_insert | |].
  { intros e He; destruct (out_edge u b e Hu Hb He) as (x & ? & _ & _ & ? & _); by exists x. }
  assert (visit_back_edges ir u (vis, B) = Some (<[u := true]> vis, B1)) as ->.
  { unfold visit_back_edges; cbn [fst snd]; rewrite Hvu; cbn [mbind option_bind]; rewrite Hb; cbn [mbind option_bind]; by rewrite EB1. }
  cbn [mbind option_bind]; assert (Hv1 : forall x, <[u := true]> vis !! x = Some true <-> x ∈ pre ++ [u]).
  { intros x; rewrite elem_of_app, list_elem_of_singleton, list_lookup_insert_Some, Hv; split; [intros [(-> & _) | [_ ?]]; auto |].
    intros [? | ->]; [destruct (decide (u = x)) as [-> | ?]; [left; conjs; [done | done | lia] | by right] | left; conjs; [done | done | lia]]. }
  destruct (IH (pre ++ [u]) (<[u := true]> vis) B1) as (vis' & B' & -> & HB'); [by rewrite length_insert | done | intros; apply Hen, elem_of_cons; by right |].
  exists vis', B'; split; [done |]; intros e x; rewrite HB', HB1; split.
  - intros [[? | (He & Hx & Hd)] | (l1 & w & l2 & c & -> & Hw & He & Hx & Hd)]; [by left | |]; right.
    + exists [], u, todo, b; conjs; try done; by apply Hv1 in Hd.
    + exists (u :: l1), w, l2, c; conjs; try done; by rewrite <- app_assoc in Hd.
  - intros [? | (l1 & w & l2 & c & Hl' & Hw & He & Hx & Hd)]; [tauto |]; destruct l1 as [| y l1]; injection Hl' as -> Hl'.
    + left; right; assert (c = b) as -> by congruence; conjs; try done; by apply Hv1.
    + right; exists l1, w, l2, c; conjs; try done; by rewrite <- app_assoc.
Qed.

(** Exactly the edges that do not go forwards. *)
Lemma collect_back_edges_spec order : (forall x, x ∈ order -> x ∈ bb_list ir) ->
  exists B, collect_back_edges ir order = Some B /\ forall e x, (e, x) ∈ B <->
    exists u b, blocks ir !! u = Some b /\ e ∈ out_edges b /\ edges ir !! e = Some x /\ retreating order u (edge_dst x).
Proof.
  intros Hen; unfold collect_back_edges; destruct (collect_spec order [] (replicate (num_bb ir) false) []) as (vis & B & -> & HB); [apply length_replicate | | done |].
  { intros x; split; [by intros [? _]%lookup_replicate | by intros ?%not_elem_of_nil]. }
  exists B; split; [done |]; intros e x; rewrite HB; split.
  - intros [?%not_elem_of_nil | (l1 & u & l2 & b & -> & ? & ? & ? & ?)]; [done |]; exists u, b; conjs; try done; by exists l1, l2.
  - intros (u & b & ? & ? & ? & l1 & l2 & -> & ?); right; by exists l1, u, l2, b.
Qed.

(** A back edge closes a cycle. *)
Lemma retreating_reach entry order u v : reverse_post_order ir entry order -> flow ir u v -> retreating order u v -> reach v u.
Proof.
  intros Hrp Hf (l1 & l2 & -> & Hv); destruct (rp_order _ _ _ Hrp u v) as [(k1 & k2 & Hk & Hv2) | ?]; [apply elem_of_app; right; apply elem_of_cons; by left | done | | done].
  exfalso; pose proof (rp_nodup _ _ _ Hrp) as Hnd.
  assert (l1 = k1 /\ l2 = k2) as [<- <-].
  { assert (length l1 = length k1) as Hlen.
    { apply (NoDup_lookup _ (length l1) (length k1) u Hnd); [by apply list_lookup_middle | rewrite Hk; by apply list_lookup_middle]. }
    apply app_inj_1 in Hk as [-> [= ->]]; done. }
  apply NoDup_app in Hnd as (_ & Hd & [Hu _]%NoDup_cons); apply elem_of_app in Hv as [Hv | ->%list_elem_of_singleton]; [| done].
  by apply (Hd v Hv), elem_of_cons; right.
Qed.

End Back.

(** ** One loop *)

(** Steps that do not touch [h]. *)
Definition avoiding (ir : MachineIR) (h u v : BlockPtr) : Prop := flow ir u v /\ u <> h /\ v <> h.

(** From [x] a block of [S] can be reached without passing [h]. *)
Definition in_body (ir : MachineIR) (h : BlockPtr) (S : BlockPtr -> Prop) (x : BlockPtr) : Prop := x <> h /\ exists s, S s /\ rtc (avoiding ir h) x s.

Section Collect.
Context (ir : MachineIR) (Hwf : wf_graph ir) (h : BlockPtr) (S : BlockPtr -> Prop).

Record builder_ok (s : LoopBuilder) : Prop := {
  bk_length : length (is_bb_in_loop_ s) = num_bb ir;
  bk_in : forall x, is_bb_in_loop_ s !! x = Some true <-> x ∈ loop_ s;
  bk_nodup : NoDup (loop_ s);
  bk_head : exists l, loop_ s = h :: l;
  bk_enrolled : forall x, x ∈ loop_ s -> x ∈ bb_list ir;
  bk_body : forall x, x ∈ loop_ s -> x = h \/ in_body ir h S x
}.

(** The predecessors of the blocks before [k], the head apart, are in the loop. *)
Definition walked (k : nat) (s : LoopBuilder) : Prop :=
  forall i x, (0 < i < k)%nat -> loop_ s !! i = Some x -> (exists b, blocks ir !! x = Some b /\ in_edges b <> []) /\ forall p, flow ir p x -> p ∈ loop_ s.

Definition grows (s s' : LoopBuilder) : Prop := exists l, loop_ s' = loop_ s ++ l.

Lemma grows_refl s : grows s s.
Proof. exists []; by rewrite app_nil_r. Qed.
Lemma grows_trans s1 s2 s3 : grows s1 s2 -> grows s2 s3 -> grows s1 s3.
Proof. intros [l1 E1] [l2 E2]; exists (l1 ++ l2); by rewrite E2, E1, app_assoc. Qed.
Lemma grows_elem s s' x : grows s s' -> x ∈ loop_ s -> x ∈ loop_ s'.
Proof. intros [l ->] Hx; apply elem_of_app; by left. Qed.

Lemma walked_grows k s s' : grows s s' -> (k <= length (loop_ s))%nat -> walked k s -> walked k s'.
Proof.
  intros Hg Hk Hw i x Hi Hx; destruct (Hw i x Hi) as [? Hp]; [| split; [done |]; intros p Hf; eapply grows_elem; [exact Hg | by apply Hp]].
  destruct Hg as [l Hl]; by rewrite Hl, lookup_app_l in Hx by lia.
Qed.

Lemma enrolled_lt bb : bb ∈ bb_list ir -> (bb < num_bb ir)%nat.
Proof. intros Hbb; destruct (wg_block _ Hwf bb Hbb) as (b & Hb & _); apply (wg_id _ Hwf); by exists b. Qed.

Lemma builder_bound s : builder_ok s -> (length (loop_ s) <= num_bb ir)%nat.
Proof.
  intros Hok; replace (num_bb ir) with (length (seq 0 (num_bb ir))) by apply length_seq; apply submseteq_length, NoDup_submseteq; [apply Hok |]; intros x Hx; apply elem_of_seq.
  pose proof (enrolled_lt x (bk_enrolled _ Hok x Hx)); lia.
Qed.

Lemma push_spec p s : builder_ok s -> p ∈ bb_list ir -> (p <> h -> in_body ir h S p) ->
  exists r s', PushBackIfNotInLoop p s = Some (r, s') /\ builder_ok s' /\ p ∈ loop_ s' /\ if (r : bool) then loop_ s' = loop_ s ++ [p] else s' = s.
Proof.
  intros Hok Hp Hb; pose proof (enrolled_lt p Hp) as Hlt; unfold PushBackIfNotInLoop; destruct (lookup_lt_is_Some_2 (is_bb_in_loop_ s) p) as [v Hv]; [by rewrite (bk_length _ Hok) |]; rewrite Hv; cbn [mbind option_bind].
  destruct v; eexists _, _; (split; [done |]); [conjs; [done | by apply (bk_in _ Hok) | done] |]; cbn [loop_].
  assert (Hn : p ∉ loop_ s) by (intros Hn%(bk_in _ Hok); congruence); split; [| split; [apply elem_of_app; right; by apply list_elem_of_singleton | done]]; split; cbn [loop_ is_bb_in_loop_].
  - by rewrite length_insert, (bk_length _ Hok).
  - intros x; rewrite elem_of_app, list_elem_of_singleton, <- (bk_in _ Hok), list_lookup_insert_Some; split; [intros [(-> & _) | [_ ?]]; auto |].
    intros [? | ->]; [right; split; [intros ->; congruence | done] | left; conjs; [done | done | by rewrite (bk_length _ Hok)]].
  - apply NoDup_app; conjs; [apply Hok | intros x Hx ->%list_elem_of_singleton; done | apply NoDup_singleton].
  - destruct (bk_head _ Hok) as [l ->]; by exists (l ++ [p]).
  - intros x [? | ->%list_elem_of_singleton]%elem_of_app; [by apply Hok | done].
  - intros x [? | ->%list_elem_of_singleton]%elem_of_app; [by apply Hok |]; destruct (decide (p = h)); [by left | right; auto].
Qed.

Lemma push_grows p s r s' : (if (r : bool) then loop_ s' = loop_ s ++ [p] else s' = s) -> grows s s'.
Proof. destruct r; [by exists [p] | intros ->; apply grows_refl]. Qed.

Lemma in_edge bb b e : bb ∈ bb_list ir -> blocks ir !! bb = Some b -> e ∈ in_edges b ->
  exists x, edges ir !! e = Some x /\ edge_src x ∈ bb_list ir /\ flow ir (edge_src x) bb.
Proof.
  intros Hbb Hb He; destruct (bo_in _ _ _ (wg_ok _ _ _ Hwf Hbb Hb) e He) as (x & d & Hx & <- & Hs & Hd & Hin); exists x; conjs; try done; by eapply flow_edge.
Qed.

Lemma flow_in_edge p bb b : blocks ir !! bb = Some b -> flow ir p bb -> exists e x, e ∈ in_edges b /\ edges ir !! e = Some x /\ edge_src x = p.
Proof.
  intros Hb (Hp & c & Hc & (e & x & He & Hx & Hd)%elem_of_dsts); destruct (bo_out _ _ _ (wg_ok _ _ _ Hwf Hp Hc) e He) as (x' & d & Hx' & Hs & _ & Hdb & Hin).
  assert (x' = x) as -> by congruence; rewrite Hd in Hdb; assert (d = b) as -> by congruence; by exists e, x.
Qed.

Lemma push_sources_spec bb b es : bb ∈ bb_list ir -> blocks ir !! bb = Some b -> in_body ir h S bb -> (forall e, e ∈ es -> e ∈ in_edges b) -> forall s, builder_ok s ->
  exists s', push_sources ir es s = Some s' /\ builder_ok s' /\ grows s s' /\ forall e x, e ∈ es -> edges ir !! e = Some x -> edge_src x ∈ loop_ s'.
Proof.
  intros Hbb Hb Hbody; induction es as [| e es IH]; intros Hes s Hok; unfold push_sources in *; cbn [for_each].
  { exists s; conjs; [done | done | apply grows_refl | by intros e x ?%not_elem_of_nil]. }
  destruct (in_edge bb b e Hbb Hb) as (x & Hx & Hs & Hf); [apply Hes, elem_of_cons; by left |]; rewrite Hx; cbn [mbind option_bind].
  destruct (push_spec (edge_src x) s Hok Hs) as (r & s1 & -> & Hok1 & Hin1 & Hr1).
  { intros Hne; destruct Hbody as (Hbh & t & Ht & Hpath); split; [done |]; exists t; split; [done |]; by eapply rtc_l; [split; [exact Hf | done] |]. }
  cbn [mbind option_bind]; destruct (IH ltac:(intros; apply Hes, elem_of_cons; by right) s1 Hok1) as (s2 & -> & Hok2 & Hg2 & Hin2).
  exists s2; conjs; [done | done | by eapply grows_trans; [eapply push_grows |] |]; intros e' x' [-> | He']%elem_of_cons Hx'; [| by eapply Hin2].
  assert (x' = x) as -> by congruence; by eapply grows_elem.
Qed.

(** A block of the body that has no predecessor. *)
Definition entered : Prop := exists x b, in_body ir h S x /\ x ∈ bb_list ir /\ blocks ir !! x = Some b /\ in_edges b = [].

Lemma walk_loop_spec fuel : forall k s,
  builder_ok s -> (1 <= k <= length (loop_ s))%nat -> walked k s -> (num_bb ir + 1 - k <= fuel)%nat ->
  walk_loop fuel ir k s = Some None /\ entered \/
  exists s', walk_loop fuel ir k s = Some (Some s') /\ builder_ok s' /\ grows s s' /\ walked (length (loop_ s')) s'.
Proof.
  induction fuel as [| fuel IH]; intros k s Hok Hk Hw Hf; pose proof (builder_bound s Hok) as Hbd; [lia |]; cbn [walk_loop]; destruct (loop_ s !! k) as [bb |] eqn:Ek.
  2: { right; exists s; conjs; [done | done | apply grows_refl |]; apply lookup_ge_None in Ek; intros i x Hi; apply Hw; lia. }
  assert (Hin : bb ∈ loop_ s) by (by eapply list_elem_of_lookup_2); pose proof (bk_enrolled _ Hok bb Hin) as Hbb; destruct (wg_block _ Hwf bb Hbb) as (b & Hb & _); rewrite Hb; cbn [mbind option_bind].
  assert (Hbody : in_body ir h S bb).
  { destruct (bk_body _ Hok bb Hin) as [-> | ?]; [| done]; exfalso; destruct (bk_head _ Hok) as [l Hl]; pose proof (bk_nodup _ Hok) as Hnd.
    assert (k = 0%nat); [| lia]; apply (NoDup_lookup _ k 0 h Hnd Ek); by rewrite Hl. }
  destruct (length (in_edges b) =? 0)%nat eqn:El.
  { left; split; [done |]; exists bb, b; conjs; try done; by apply length_zero_iff_nil, Nat.eqb_eq. }
  destruct (push_sources_spec bb b (in_edges b) Hbb Hb Hbody (fun _ H => H) s Hok) as (s1 & -> & Hok1 & Hg1 & Hsrc); cbn [mbind option_bind].
  assert (Hlen : (length (loop_ s) <= length (loop_ s1))%nat) by (destruct Hg1 as [l ->]; rewrite length_app; lia); pose proof (lookup_lt_Some _ _ _ Ek) as Hlt.
  destruct (IH (Datatypes.S k) s1 Hok1) as [? | (s' & E & ? & ? & ?)]; [lia | | lia | by left | right; exists s'; conjs; try done; by eapply grows_trans].
  intros i x Hi Hx; destruct (decide (i = k)) as [-> | Hne]; [| apply (walked_grows k s s1 Hg1 ltac:(lia) Hw i x); [lia | done]].
  assert (x = bb) as -> by (destruct Hg1 as [l Hl]; rewrite Hl, lookup_app_l in Hx by lia; congruence); split.
  - exists b; split; [done |]; intros Hn; by rewrite Hn in El.
  - intros p Hp; destruct (flow_in_edge p bb b Hb Hp) as (e & y & He & Hy & <-); by eapply Hsrc.
Qed.

Lemma walk_back_spec fuel G : (num_bb ir <= fuel)%nat ->
  (forall e y, (e, y) ∈ G -> edge_dst y = h /\ edge_src y ∈ bb_list ir /\ S (edge_src y)) -> forall s,
  builder_ok s -> walked (length (loop_ s)) s ->
  walk_back fuel ir h G s = Some None /\ entered \/
  exists s', walk_back fuel ir h G s = Some (Some s') /\ builder_ok s' /\ grows s s' /\ walked (length (loop_ s')) s' /\ forall e y, (e, y) ∈ G -> edge_src y ∈ loop_ s'.
Proof.
  intros Hf; induction G as [| [e y] G IH]; intros HG s Hok Hw; cbn [walk_back].
  { right; exists s; conjs; [done | done | apply grows_refl | done | by intros e y ?%not_elem_of_nil]. }
  destruct (HG e y) as (Hd & Hs & HS); [apply elem_of_cons; by left |]; rewrite Hd, Nat.eqb_refl; cbn [negb].
  assert (HG' : forall e y, (e, y) ∈ G -> edge_dst y = h /\ edge_src y ∈ bb_list ir /\ S (edge_src y)) by (intros; eapply HG, elem_of_cons; by right).
  destruct (push_spec (edge_src y) s Hok Hs) as (r & s1 & -> & Hok1 & Hin1 & Hr1); [intros Hne; split; [done |]; exists (edge_src y); split; [done | apply rtc_refl] |].
  cbn [mbind option_bind]; pose proof (push_grows _ _ _ _ Hr1) as Hg1.
  assert (Hend : forall s2, builder_ok s2 -> grows s1 s2 -> walked (length (loop_ s2)) s2 ->
    walk_back fuel ir h G s2 = Some None /\ entered \/
    exists s', walk_back fuel ir h G s2 = Some (Some s') /\ builder_ok s' /\ grows s s' /\ walked (length (loop_ s')) s' /\ forall e0 y0, (e0, y0) ∈ (e, y) :: G -> edge_src y0 ∈ loop_ s').
  { intros s2 Hok2 Hg2 Hw2; destruct (IH HG' s2 Hok2 Hw2) as [? | (s' & E & ? & Hg & ? & Hsrc)]; [by left | right]; exists s'; conjs; try done; [by eapply grows_trans; [| eapply grows_trans] |].
    intros e0 y0 [[= -> ->] | He0]%elem_of_cons; [| by eapply Hsrc]; eapply grows_elem; [exact Hg | by eapply grows_elem]. }
  destruct r; [| subst s1; by apply Hend; [| apply grows_refl |]].
  assert (Hlen : length (loop_ s1) = Datatypes.S (length (loop_ s))) by (rewrite Hr1, length_app; cbn; lia).
  assert (Hpos : (1 <= length (loop_ s))%nat) by (destruct (bk_head _ Hok) as [l ->]; cbn; lia).
  destruct (walk_loop_spec fuel (length (loop_ s1) - 1) s1 Hok1) as [[-> ?] | (s2 & -> & Hok2 & Hg2 & Hw2)]; [lia | | lia | by left |].
  - rewrite Hlen, Nat.sub_1_r; cbn [Nat.pred]; by eapply walked_grows.
  - cbn [mbind option_bind]; by apply Hend.
Qed.

End Collect.

(** ** Natural loops *)

(** The blocks from which the sources [S] of edges to [h] can be reached without
    passing [h], all of them with predecessors. *)
Record natural_loop (ir : MachineIR) (h : BlockPtr) (S : BlockPtr -> Prop) (L : list BlockPtr) : Prop := {
  nl_head : head L = Some h;
  nl_nodup : NoDup L;
  nl_body : forall x, x ∈ L <-> x = h \/ in_body ir h S x;
  nl_preds : forall x, x ∈ L -> x <> h -> exists b, blocks ir !! x = Some b /\ in_edges b <> []
}.

(** Every path from the entry to [x] passes [h]. *)
Definition dominates (ir : MachineIR) (entry h x : BlockPtr) : Prop := entry <> h -> x <> h -> ~ rtc (avoiding ir h) entry x.

(** A block without predecessors. *)
Definition root (ir : MachineIR) (r : BlockPtr) : Prop := r ∈ bb_list ir /\ exists c, blocks ir !! r = Some c /\ in_edges c = [].

Section Natural.
Context (ir : MachineIR) (Hwf : wf_graph ir).

Lemma CollectLoop_spec fuel B begin end_ e0 y0 (S : BlockPtr -> Prop) :
  (num_bb ir <= fuel)%nat -> B !! begin = Some (e0, y0) -> edge_dst y0 ∈ bb_list ir ->
  (forall e y, (e, y) ∈ take (end_ - begin) (drop begin B) -> edge_dst y = edge_dst y0 /\ edge_src y ∈ bb_list ir) ->
  (forall s, S s <-> exists e y, (e, y) ∈ take (end_ - begin) (drop begin B) /\ edge_src y = s) ->
  CollectLoop fuel ir B begin end_ = Some None /\ entered ir (edge_dst y0) S \/
  exists L, CollectLoop fuel ir B begin end_ = Some (Some L) /\ natural_loop ir (edge_dst y0) S L.
Proof.
  intros Hf H0 Hd HG HS; set (h := edge_dst y0) in *; pose proof (enrolled_lt ir Hwf h Hd) as Hlt.
  unfold CollectLoop; rewrite H0; cbn [mbind option_bind]; fold h; unfold new_LoopBuilder; rewrite decide_True by done; cbn [mbind option_bind].
  set (G := take (end_ - begin) (drop begin B)) in *; set (s0 := {| loop_ := [h]; is_bb_in_loop_ := _ |}).
  assert (Hok0 : builder_ok ir h S s0).
  { split; cbn [loop_ is_bb_in_loop_ s0]; [by rewrite length_insert, length_replicate | | apply NoDup_singleton | by exists [] | by intros x ->%list_elem_of_singleton | intros x ->%list_elem_of_singleton; by left].
    intros x; rewrite list_elem_of_singleton, list_lookup_insert_Some, length_replicate; split; [intros [(-> & _) | [_ [? _]%lookup_replicate]]; done | intros ->; by left]. }
  destruct (walk_back_spec ir Hwf h S fuel G Hf) with (s := s0) as [[-> ?] | (s & -> & Hok & _ & Hw & Hsrc)]; [| done | | by left |].
  { intros e y Hey; destruct (HG e y Hey); conjs; try done; apply HS; by exists e, y. }
  { intros i x Hi; cbn in Hi; lia. }
  right; exists (loop_ s); split; [done |]; destruct (bk_head _ _ _ _ Hok) as [l Hl].
  assert (Hinner : forall x, x ∈ loop_ s -> x <> h -> (exists b, blocks ir !! x = Some b /\ in_edges b <> []) /\ forall p, flow ir p x -> p ∈ loop_ s).
  { intros x [i Hi]%list_elem_of_lookup Hne; apply (Hw i); [| done]; pose proof (lookup_lt_Some _ _ _ Hi); split; [| done]; destruct i; [| lia]; rewrite Hl in Hi; cbn in Hi; congruence. }
  split; [by rewrite Hl | apply Hok | | intros x Hx Hne; by apply Hinner].
  intros x; split; [by apply Hok |]; intros [-> | (Hne & t & (e & y & Hey & <-)%HS & Hpath)]; [rewrite Hl; apply elem_of_cons; by left |].
  revert Hpath; refine (rtc_ind_l (fun x => x ∈ loop_ s) (edge_src y) _ _ x); [by eapply Hsrc |]; intros u v (Huv & _ & Hv) _ Hin; by apply (Hinner v Hin Hv).
Qed.

Lemma avoiding_end h u v : rtc (avoiding ir h) u v -> u <> h -> v <> h.
Proof. intros Hp; induction Hp as [| u w v (_ & _ & ?) _ IH]; auto. Qed.

Lemma natural_dominated h S L entry b x :
  natural_loop ir h S L -> blocks ir !! entry = Some b -> in_edges b = [] -> x ∈ L -> dominates ir entry h x.
Proof.
  intros Hnl Hb Hi Hx He Hxh Hpath; apply (nl_body _ _ _ _ Hnl) in Hx as [? | (_ & t & Ht & Hp)]; [done |].
  assert (Hin : entry ∈ L) by (apply (nl_body _ _ _ _ Hnl); right; split; [done |]; exists t; split; [done | by etrans]).
  destruct (nl_preds _ _ _ _ Hnl entry Hin He) as (b' & Hb' & Hn); congruence.
Qed.

End Natural.

(** ** All loops *)

Section Find.
Context `{!LoopSort} (ir : MachineIR) (Hwf : wf_graph ir) (fuel : nat) (Hfuel : (num_bb ir <= fuel)%nat).
Context (B : list (EdgePtr * MachineEdge)).
Context (Hsorted : forall i j x y, B !! i = Some x -> B !! j = Some y -> (i < j)%nat -> (edge_dst x.2 <= edge_dst y.2)%nat).
Context (Hends : forall e y, (e, y) ∈ B -> edge_dst y ∈ bb_list ir /\ edge_src y ∈ bb_list ir).

(** The sources of the edges to [h]. *)
Definition sources (h s : BlockPtr) : Prop := exists e y, (e, y) ∈ B /\ edge_dst y = h /\ edge_src y = s.

(** The edges before [k] are processed, those from [begin] on being of one head
    whose loop is still to be collected. *)
Record grouped (k begin : nat) (loops : list (list BlockPtr)) : Prop := {
  gr_begin : (begin < k)%nat;
  gr_same : forall i, (begin <= i < k)%nat -> (i < length B)%nat -> back_dst B i = back_dst B begin;
  gr_less : forall j x y, (j < begin)%nat -> B !! j = Some x -> B !! begin = Some y -> (edge_dst x.2 < edge_dst y.2)%nat;
  gr_sound : forall L, L ∈ loops -> exists i e y, (i < begin)%nat /\ B !! i = Some (e, y) /\ natural_loop ir (edge_dst y) (sources (edge_dst y)) L;
  gr_complete : forall i e y, (i < begin)%nat -> B !! i = Some (e, y) -> (exists L, L ∈ loops /\ head L = Some (edge_dst y)) \/ entered ir (edge_dst y) (sources (edge_dst y));
  gr_heads : NoDup (head <$> loops)
}.

Lemma group_elem begin k e y : (e, y) ∈ take (k - begin) (drop begin B) <-> exists i, (begin <= i < k)%nat /\ B !! i = Some (e, y).
Proof.
  rewrite list_elem_of_lookup; split.
  - intros [i Hi]; apply lookup_take_Some in Hi as [Hi Hlt]; rewrite lookup_drop in Hi; exists (begin + i)%nat; split; [lia | done].
  - intros (i & Hi & Hb); exists (i - begin)%nat; apply lookup_take_Some; rewrite lookup_drop; split; [| lia]; by replace (begin + (i - begin))%nat with i by lia.
Qed.

Lemma collect_group_spec k begin loops :
  (1 <= k <= length B)%nat -> grouped k begin loops -> exists begin' loops', collect_group fuel ir B k (begin, loops) = Some (begin', loops') /\ grouped (S k) begin' loops' /\ (k = length B -> begin' = k).
Proof.
  intros Hk Hg; unfold collect_group; destruct (decide (back_dst B begin = back_dst B k)) as [Heq | Hne].
  { exists begin, loops; split; [done |]; assert (Hkl : (k < length B)%nat).
    { destruct (decide (k < length B)%nat); [done |]; exfalso; unfold back_dst in Heq; rewrite (lookup_ge_None_2 B k) in Heq by lia.
      pose proof (gr_begin _ _ _ Hg); destruct (lookup_lt_is_Some_2 B begin) as [x Hx]; [lia |]; by rewrite Hx in Heq. }
    split; [| lia]; destruct Hg as [Hb Hs Hl H1 H2 H3]; split; try done; [lia |]; intros i Hi Hil; destruct (decide (i = k)) as [-> | ?]; [done | apply Hs; lia]. }
  pose proof (gr_begin _ _ _ Hg) as Hb; destruct (lookup_lt_is_Some_2 B begin) as [[e0 y0] H0]; [lia |].
  assert (Hbk : forall i, (begin <= i < k)%nat -> forall e y, B !! i = Some (e, y) -> edge_dst y = edge_dst y0).
  { intros i Hi e y Hy; pose proof (gr_same _ _ _ Hg i Hi (lookup_lt_Some _ _ _ Hy)) as Hsame; unfold back_dst in Hsame; rewrite Hy, H0 in Hsame; by injection Hsame. }
  assert (Hkgt : forall i x, (k <= i)%nat -> B !! i = Some x -> (edge_dst y0 < edge_dst x.2)%nat).
  { intros i x Hi Hx; pose proof (lookup_lt_Some _ _ _ Hx) as Hlt; destruct (lookup_lt_is_Some_2 B k) as [yk Hyk]; [lia |].
    assert (edge_dst yk.2 <> edge_dst y0) by (intros E; apply Hne; unfold back_dst; rewrite H0, Hyk; cbn; by rewrite E).
    pose proof (Hsorted begin k _ _ H0 Hyk Hb) as Hle; cbn in Hle.
    destruct (decide (i = k)) as [-> | ?]; [assert (x = yk) as -> by congruence; lia | pose proof (Hsorted k i _ _ Hyk Hx); lia]. }
  assert (Hsrc : forall s, sources (edge_dst y0) s <-> exists e y, (e, y) ∈ take (k - begin) (drop begin B) /\ edge_src y = s).
  { intros s; split.
    - intros (e & y & Hey & Hd & Hs); exists e, y; split; [| done]; apply group_elem; apply list_elem_of_lookup in Hey as [i Hi]; exists i; split; [| done].
      destruct (decide (i < begin)%nat); [pose proof (gr_less _ _ _ Hg i _ _ ltac:(done) Hi H0); cbn in *; lia |].
      destruct (decide (k <= i)%nat); [pose proof (Hkgt i _ ltac:(done) Hi); cbn in *; lia | lia].
    - intros (e & y & (i & Hi & Hy)%group_elem & Hs); exists e, y; conjs; [by eapply list_elem_of_lookup_2 | by eapply Hbk | done]. }
  assert (Hless : forall j x y, (j < k)%nat -> B !! j = Some x -> B !! k = Some y -> (edge_dst x.2 < edge_dst y.2)%nat).
  { intros j [e x] y Hj Hx Hy; pose proof (Hkgt k y ltac:(done) Hy); cbn; destruct (decide (j < begin)%nat).
    - pose proof (gr_less _ _ _ Hg j _ _ ltac:(done) Hx H0); cbn in *; lia.
    - rewrite (Hbk j ltac:(lia) e x Hx); lia. }
  assert (Hsame : forall i, (k <= i < S k)%nat -> (i < length B)%nat -> back_dst B i = back_dst B k) by (intros i Hi _; f_equal; lia).
  destruct (CollectLoop_spec ir Hwf fuel B begin k e0 y0 (sources (edge_dst y0))) as [[-> Hen] | (L & -> & Hnl)]; try done.
  { eapply Hends, list_elem_of_lookup_2, H0. }
  { intros e y (i & Hi & Hy)%group_elem; split; [by eapply Hbk | eapply Hends, list_elem_of_lookup_2, Hy]. }
  - cbn [mbind option_bind]; exists k, loops; split; [done |]; split; [| done]; destruct Hg as [_ _ _ Hso Hco Hhe]; split; try done; [lia | |].
    + intros L HL; destruct (Hso L HL) as (i & e & y & ? & ? & ?); exists i, e, y; conjs; [lia | done | done].
    + intros i e y Hi Hy; destruct (decide (i < begin)%nat); [by eapply Hco |]; right; by rewrite (Hbk i ltac:(lia) e y Hy).
  - cbn [mbind option_bind]; exists k, (loops ++ [L]); split; [done |]; split; [| done]; pose proof (gr_less _ _ _ Hg) as Hlt; destruct Hg as [_ _ _ Hso Hco Hhe]; split; try done; [lia | | |].
    + intros L' [HL | ->%list_elem_of_singleton]%elem_of_app; [destruct (Hso L' HL) as (i & e & y & ? & ? & ?); exists i, e, y; conjs; [lia | done | done] |].
      exists begin, e0, y0; conjs; [lia | done | done].
    + intros i e y Hi Hy; destruct (decide (i < begin)%nat).
      * destruct (Hco i e y) as [(L' & HL & ?) | ?]; [done | done | left | by right]; exists L'; split; [apply elem_of_app; by left | done].
      * left; exists L; split; [apply elem_of_app; right; by apply list_elem_of_singleton |]; rewrite (Hbk i ltac:(lia) e y Hy); apply Hnl.
    + rewrite fmap_app; apply NoDup_app; conjs; [done | | apply NoDup_singleton]; intros x (L' & -> & HL)%list_elem_of_fmap Hx%list_elem_of_singleton.
      destruct (Hso L' HL) as (i & e & y & Hi & Hy & Hnl'); rewrite (nl_head _ _ _ _ Hnl'), (nl_head _ _ _ _ Hnl) in Hx; injection Hx as Hx.
      pose proof (Hlt i _ _ Hi Hy H0); cbn in *; lia.
Qed.

Lemma collect_groups_spec n : forall k begin loops, (1 <= k)%nat -> (k + n = S (length B))%nat -> grouped k begin loops -> (n = 0%nat -> begin = length B) ->
  exists loops', for_each (collect_group fuel ir B) (seq k n) (begin, loops) = Some (length B, loops') /\ grouped (S (length B)) (length B) loops'.
Proof.
  induction n as [| n IH]; intros k begin loops Hk Hn Hg Hend; cbn [seq for_each].
  { rewrite (Hend eq_refl) in *; exists loops; split; [done |]; by replace (S (length B)) with k by lia. }
  destruct (collect_group_spec k begin loops) as (begin' & loops' & -> & Hg' & He); [lia | done |]; cbn [mbind option_bind].
  apply (IH (S k)); [lia | lia | done |]; intros ->; rewrite He by lia; lia.
Qed.

End Find.

(** The edges to [h] that do not go forwards. *)
Definition back_edge (ir : MachineIR) (order : list BlockPtr) (h u : BlockPtr) : Prop := flow ir u h /\ retreating order u h.

Lemma in_body_ext ir h (S S' : BlockPtr -> Prop) x : (forall s, S s <-> S' s) -> in_body ir h S x <-> in_body ir h S' x.
Proof. intros He; unfold in_body; by setoid_rewrite He. Qed.

Lemma natural_loop_ext ir h (S S' : BlockPtr -> Prop) L : (forall s, S s <-> S' s) -> natural_loop ir h S L -> natural_loop ir h S' L.
Proof. intros He [Hh Hn Hb Hp]; split; try done; intros x; rewrite Hb; by rewrite (in_body_ext ir h S S' x He). Qed.

Section FindLoops.
Context `{!LoopSort} (ir : MachineIR) (Hwf : wf_graph ir).

Lemma retreating_elem l u v : retreating l u v -> u ∈ l /\ v ∈ l.
Proof. intros (l1 & l2 & -> & Hv); rewrite !elem_of_app, !elem_of_cons; split; [by right; left |]; apply elem_of_app in Hv as [? | ->%list_elem_of_singleton]; [by left | by right; left]. Qed.

Lemma back_edges_found order : (forall x, x ∈ order -> x ∈ bb_list ir) ->
  exists B, collect_back_edges ir order = Some B /\ (forall h u, sources (sort_edges B) h u <-> back_edge ir order h u) /\
    forall e y, (e, y) ∈ sort_edges B -> edge_dst y ∈ bb_list ir /\ edge_src y ∈ bb_list ir.
Proof.
  intros Hen; destruct (collect_back_edges_spec ir Hwf order Hen) as (B & HB & Hspec); exists B; split; [done |].
  assert (Hel : forall e y, (e, y) ∈ sort_edges B -> edge_src y ∈ order /\ flow ir (edge_src y) (edge_dst y) /\ retreating order (edge_src y) (edge_dst y) /\ edge_dst y ∈ bb_list ir).
  { intros e y; rewrite (sort_edges_perm B); intros (u & b & Hb & He & Hy & Hr)%Hspec; destruct (retreating_elem _ _ _ Hr) as [Hu _].
    destruct (out_edge ir Hwf u b e (Hen u Hu) Hb He) as (y' & Hy' & Hs & Hd & _ & Hf); assert (y' = y) as -> by congruence; subst u; done. }
  split.
  - intros h u; split.
    + intros (e & y & Hey & <- & <-); destruct (Hel e y Hey) as (_ & ? & ? & _); done.
    + intros [(Hu & b & Hb & (e & y & He & Hy & <-)%elem_of_dsts) Hr]; destruct (out_edge ir Hwf u b e Hu Hb He) as (y' & Hy' & Hs & _); assert (y' = y) as -> by congruence.
      exists e, y; conjs; [rewrite (sort_edges_perm B); apply Hspec; by exists u, b | done | done].
  - intros e y Hey; destruct (Hel e y Hey) as (? & _ & _ & ?); split; [done | by apply Hen].
Qed.

(** The order that the search uses. *)
Lemma order_found fuel entry b :
  head (bb_list ir) = Some entry -> blocks ir !! entry = Some b -> in_edges b = [] -> (num_bb ir <= fuel)%nat ->
  exists order, GetReversePostOrderBBList fuel ir = Some order /\ forall x, x ∈ order -> x ∈ bb_list ir.
Proof.
  intros Hh Hb Hi Hf; destruct (bb_order ir) eqn:Ho.
  - destruct (reverse_post_order_found ir Hwf fuel entry b Ho Hh Hb Hi Hf) as (order & Horder & Hrp); exists order; split; [done | apply Hrp].
  - exists (bb_list ir); split; [| done]; unfold GetReversePostOrderBBList; by rewrite Ho.
Qed.

Lemma FindLoops_found fuel order :
  GetReversePostOrderBBList fuel ir = Some order -> (forall x, x ∈ order -> x ∈ bb_list ir) -> (num_bb ir <= fuel)%nat ->
  exists loops, FindLoops fuel ir = Some loops /\ NoDup (head <$> loops) /\
    (forall L, L ∈ loops -> exists h, (exists u, back_edge ir order h u) /\ natural_loop ir h (back_edge ir order h) L) /\
    forall h u, back_edge ir order h u -> (exists L, L ∈ loops /\ head L = Some h) \/ entered ir h (back_edge ir order h).
Proof.
  intros Ho Hen Hf; destruct (back_edges_found order Hen) as (B0 & HB & Hback & Hends); unfold FindLoops; rewrite Ho; cbn [mbind option_bind]; rewrite HB; cbn [mbind option_bind].
  set (B := sort_edges B0) in *; assert (Hsrc : forall h u, back_edge ir order h u -> exists i e y, B !! i = Some (e, y) /\ edge_dst y = h).
  { intros h u (e & y & [i Hi]%list_elem_of_lookup & <- & _)%Hback; by exists i, e, y. }
  destruct (collect_groups_spec ir Hwf fuel Hf B (sort_edges_sorted B0) Hends (length B) 1 0 []) as (loops & -> & Hg); [lia | done | | done |].
  { split; try lia; [intros i Hi _; f_equal; lia | by intros L ?%not_elem_of_nil | apply NoDup_nil_2]. }
  cbn [mbind option_bind]; exists loops; conjs; [done | apply Hg | |].
  - intros L HL; destruct (gr_sound _ _ _ _ _ Hg L HL) as (i & e & y & _ & Hy & Hnl); exists (edge_dst y); split.
    + exists (edge_src y); apply Hback; exists e, y; conjs; [by eapply list_elem_of_lookup_2 | done | done].
    + eapply natural_loop_ext; [| exact Hnl]; apply Hback.
  - intros h u Hu; destruct (Hsrc h u Hu) as (i & e & y & Hy & <-); destruct (gr_complete _ _ _ _ _ Hg i e y) as [? | (x & b & Hx & ?)]; [by eapply lookup_lt_Some | done | by left | right].
    exists x, b; split; [| done]; by rewrite <- (in_body_ext ir _ _ _ x (Hback (edge_dst y))).
Qed.

(** C20: the loops of the graph.  On a well-formed graph whose first block has no
    predecessors, which the traversal checks, with fuel for every block, the
    search ends and fails no check.  Its back edges are those that do not go
    forwards in the order it uses: the reverse post order, or the list of the
    graph where that is marked as being in this order.  Every loop it finds is the
    natural loop of a head: the head comes first, and the blocks are exactly
    those from which a back edge to the head can be taken without passing the
    head.  Each head has one loop at most.  The head of a back edge has one
    exactly when, from every block without predecessors, each of its back edges
    is reached through the head only; the head then so dominates every block of
    its loop.  For this the blocks without predecessors count as entries, also
    those that the first block does not reach. *)
Theorem FindLoops_exact fuel entry b :
  head (bb_list ir) = Some entry -> blocks ir !! entry = Some b -> in_edges b = [] -> (num_bb ir <= fuel)%nat ->
  exists order loops, GetReversePostOrderBBList fuel ir = Some order /\ FindLoops fuel ir = Some loops /\ NoDup (head <$> loops) /\
    (forall L, L ∈ loops -> exists h, (exists u, back_edge ir order h u) /\ natural_loop ir h (back_edge ir order h) L /\
      forall r x, root ir r -> x ∈ L -> dominates ir r h x) /\
    forall h u, back_edge ir order h u ->
      (exists L, L ∈ loops /\ head L = Some h) <-> forall r v, root ir r -> back_edge ir order h v -> dominates ir r h v.
Proof.
  intros Hh Hb Hi Hf; destruct (order_found fuel entry b Hh Hb Hi Hf) as (order & Horder & Hen); exists order.
  destruct (FindLoops_found fuel order Horder Hen Hf) as (loops & Hl & Hnd & Hsound & Hcomplete); exists loops; conjs; [done | done | done | |].
  - intros L HL; destruct (Hsound L HL) as (h & Hu & Hnl); exists h; conjs; [done | done |].
    intros r x (_ & c & Hc & Hr); by eapply natural_dominated.
  - intros h u Hu; split.
    + intros (L & HL & Hhd) r v (_ & c & Hc & Hr) Hv; destruct (Hsound L HL) as (h' & _ & Hnl); pose proof (nl_head _ _ _ _ Hnl) as Hh'.
      assert (h' = h) as -> by congruence; intros Hrh Hvh; eapply natural_dominated; try done.
      apply (nl_body _ _ _ _ Hnl); right; split; [done |]; exists v; split; [done | apply rtc_refl].
    + intros Hdom; destruct (Hcomplete h u Hu) as [? | (x & c & (Hx & t & Ht & Hp) & Hin & Hc & Hr)]; [done |].
      exfalso; apply (Hdom x t); [split; [done | by exists c] | done | done | by eapply avoiding_end | done].
Qed.

End FindLoops.

(** ** Loops that share a block *)

Section Nesting.
Context (ir : MachineIR) (entry : BlockPtr).

Abbreviation reach := (rtc (flow ir)).

(** On the way from the entry to one of two blocks, one of them comes first. *)
Lemma first_of_two h1 h2 x : reach entry x ->
  (entry <> h2 /\ h1 <> h2 /\ rtc (avoiding ir h2) entry h1) \/ (entry <> h1 /\ h2 <> h1 /\ rtc (avoiding ir h1) entry h2) \/
  x <> h1 /\ x <> h2 /\ entry <> h1 /\ entry <> h2 /\ rtc (avoiding ir h1) entry x /\ rtc (avoiding ir h2) entry x \/ h1 = h2.
Proof.
  destruct (decide (h1 = h2)) as [| Hne]; [by auto |].
  refine (rtc_ind_r (fun x => _) entry _ _ x).
  - destruct (decide (entry = h1)) as [-> | H1]; [left; conjs; [done | done | apply rtc_refl] |].
    destruct (decide (entry = h2)) as [-> | H2]; [right; left; conjs; [done | done | apply rtc_refl] |]; right; right; left; conjs; try done; apply rtc_refl.
  - intros u v _ Huv [? | [? | [(Hu1 & Hu2 & He1 & He2 & P1 & P2) | ?]]]; [by left | by right; left | | done].
    destruct (decide (v = h1)) as [-> | H1]; [left; conjs; [done | done |]; eapply rtc_r; [exact P2 | by split] |].
    destruct (decide (v = h2)) as [-> | H2]; [right; left; conjs; [done | done |]; eapply rtc_r; [exact P1 | by split] |].
    right; right; left; conjs; try done; (eapply rtc_r; [eassumption | by split]).
Qed.

Lemma dominates_antisym h1 h2 : reach entry h1 -> dominates ir entry h1 h2 -> dominates ir entry h2 h1 -> h1 = h2.
Proof.
  intros Hr D1 D2; destruct (first_of_two h1 h2 h1 Hr) as [(He & Hne & P) | [(He & Hne & P) | [(? & _) | ?]]]; [by destruct (D2 He Hne P) | by destruct (D1 He Hne P) | done | done].
Qed.

(** Where the head of a loop is in another loop, the whole loop is. *)
Lemma natural_nested h1 S1 L1 h2 S2 L2 :
  reach entry h1 -> natural_loop ir h1 S1 L1 -> natural_loop ir h2 S2 L2 -> (forall s, S2 s -> flow ir s h2) ->
  (forall x, x ∈ L1 -> dominates ir entry h1 x) -> (forall x, x ∈ L2 -> dominates ir entry h2 x) -> h1 <> h2 -> h2 ∈ L1 -> forall x, x ∈ L2 -> x ∈ L1.
Proof.
  intros Hr N1 N2 Hedge D1 D2 Hne H2 x Hx.
  assert (Hn1 : h1 ∉ L2) by (intros Hin; apply Hne, dominates_antisym; [done | by apply D1 | by apply D2]).
  destruct (proj1 (nl_body _ _ _ _ N1 h2) H2) as [? | (_ & t1 & Ht1 & P1)]; [congruence |].
  destruct (proj1 (nl_body _ _ _ _ N2 x) Hx) as [-> | (Hxh & t2 & Ht2 & P2)]; [done |]; apply (nl_body _ _ _ _ N1); right.
  assert (Hin : forall u, u <> h2 -> rtc (avoiding ir h2) u t2 -> u <> h1).
  { intros u Hu Hp ->; apply Hn1, (nl_body _ _ _ _ N2); right; split; [done |]; by exists t2. }
  assert (Hpath : rtc (avoiding ir h1) x t2).
  { clear Hx; revert Hxh; induction P2 as [| u v t2 (Huv & Hu & Hv) Hp IH]; intros _; [apply rtc_refl |]; eapply rtc_l; [| by apply IH]; split; [done |]; split; [| by apply Hin].
    apply Hin; [done |]; by eapply rtc_l; [split |]. }
  split; [by apply Hin |]; exists t1; split; [done |]; etrans; [exact Hpath |]; eapply rtc_l; [| exact P1]; split; [by apply Hedge |]; split; [| done].
  apply Hin; [by eapply avoiding_end | apply rtc_refl].
Qed.

End Nesting.

(** ** The tree *)

Lemma LoopTreeNode_nested_ind (P : LoopTreeNode -> Prop) : (forall l inner, Forall P inner -> P (Node l inner)) -> forall n, P n.
Proof. intros H; fix IH 1; intros [l inner]; apply H; induction inner; constructor; [apply IH | assumption]. Qed.

Fixpoint all_loops (n : LoopTreeNode) : list (list BlockPtr) :=
  match n with Node l inner => match l with Some l => [l] | None => [] end ++ concat (map all_loops inner) end.

Definition loops_of (nodes : list LoopTreeNode) : list (option (list BlockPtr)) := map node_loop nodes.

(** No loop has the head of another one. *)
Definition heads_apart (loops : list (option (list BlockPtr))) : Prop :=
  forall i j L M h, i <> j -> loops !! i = Some (Some L) -> loops !! j = Some (Some M) -> head M = Some h -> h ∉ L.

(** The loop of an inner node is within that of the node, and inner nodes are
    apart. *)
Inductive nested : LoopTreeNode -> Prop :=
  | nested_node l inner : Forall nested inner ->
      (forall n, n ∈ inner -> exists L', node_loop n = Some L' /\ forall L x, l = Some L -> x ∈ L' -> x ∈ L) ->
      heads_apart (loops_of inner) -> nested (Node l inner).

Lemma node_loop_in n L : node_loop n = Some L -> L ∈ all_loops n.
Proof. destruct n as [l inner]; cbn; intros ->; apply elem_of_app; left; by apply list_elem_of_singleton. Qed.

Lemma heads_apart_snoc loops N h : heads_apart loops -> head N = Some h ->
  (forall L, Some L ∈ loops -> (h ∉ L) /\ forall k, head L = Some k -> k ∉ N) -> heads_apart (loops ++ [Some N]).
Proof.
  intros Ha Hh Hn i j L M k Hij [Hi | [-> [= ->]]]%lookup_snoc_cases [Hj | [-> [= ->]]]%lookup_snoc_cases Hk; [by apply (Ha i j L M) | | | done].
  - assert (k = h) as -> by congruence; apply Hn; by eapply list_elem_of_lookup_2.
  - apply (Hn M); [by eapply list_elem_of_lookup_2 | done].
Qed.

Lemma insert_inner_loops f N nodes : (forall n n', f n = Some n' -> node_loop n' = node_loop n) ->
  loops_of (insert_inner f N nodes) = loops_of nodes \/ (forall n, n ∈ nodes -> f n = None) /\ loops_of (insert_inner f N nodes) = loops_of nodes ++ [Some N].
Proof.
  intros Hf; induction nodes as [| n nodes IH]; cbn [insert_inner]; [right; split; [by intros n ?%not_elem_of_nil | done] |].
  destruct (f n) as [n' |] eqn:E; [left; unfold loops_of; cbn; by rewrite (Hf n n' E) |]; unfold loops_of in *; cbn [map]; destruct IH as [-> | [Hn ->]]; [by left | right]; split; [| done].
  intros m [-> | Hm]%elem_of_cons; auto.
Qed.

Lemma insert_node_loop h N n n' : TryInsertLoopAtNode h N n = Some n' -> node_loop n' = node_loop n.
Proof. destruct n as [l inner]; cbn [TryInsertLoopAtNode]; destruct (match l with Some _ => _ | None => _ end); [done |]; by intros [= <-]. Qed.

Lemma insert_rejects h N n : TryInsertLoopAtNode h N n = None -> exists L, node_loop n = Some L /\ h ∉ L.
Proof. destruct n as [l inner]; cbn [TryInsertLoopAtNode]; destruct l as [l |]; [| done]; destruct (bool_decide (h ∉ l)) eqn:E; [| done]; intros _; exists l; split; [done |]; by apply bool_decide_eq_true in E. Qed.

(** What an inserted loop has to be to those of the tree. *)
Definition fits (h : BlockPtr) (N L : list BlockPtr) : Prop := (h ∈ L -> forall x, x ∈ N -> x ∈ L) /\ forall k, head L = Some k -> k ∈ N -> h ∈ L.

Lemma insert_inner_nested h N (l : option (list BlockPtr)) inner :
  head N = Some h -> Forall nested inner -> heads_apart (loops_of inner) -> (forall L, L ∈ concat (map all_loops inner) -> fits h N L) -> (forall L x, l = Some L -> x ∈ N -> x ∈ L) ->
  (forall n, n ∈ inner -> exists L', node_loop n = Some L' /\ forall L x, l = Some L -> x ∈ L' -> x ∈ L) ->
  Forall (fun n => nested n -> (forall L, L ∈ all_loops n -> fits h N L) -> forall n', TryInsertLoopAtNode h N n = Some n' -> nested n' /\ all_loops n' ≡ₚ N :: all_loops n) inner ->
  let inner' := insert_inner (TryInsertLoopAtNode h N) N inner in
  Forall nested inner' /\ (forall n, n ∈ inner' -> exists L', node_loop n = Some L' /\ forall L x, l = Some L -> x ∈ L' -> x ∈ L) /\
  heads_apart (loops_of inner') /\ concat (map all_loops inner') ≡ₚ N :: concat (map all_loops inner).
Proof.
  intros Hh Hall Hap Hfit HN Hin IH inner'.
  assert (Hmap : heads_apart (loops_of inner')).
  { destruct (insert_inner_loops (TryInsertLoopAtNode h N) N inner (insert_node_loop h N)) as [E | [Hrej E]]; subst inner'; rewrite E; [done |].
    apply heads_apart_snoc with h; [done | done |]; intros L (n & Hn & Hnin)%list_elem_of_In%in_map_iff; apply list_elem_of_In in Hnin.
    destruct (insert_rejects h N n (Hrej n Hnin)) as (L' & HL' & Hh'); assert (L' = L) as -> by congruence; split; [done |]; intros k Hk HkN; apply Hh', (Hfit L) with k; [| done | done].
    rewrite <- flat_map_concat_map; apply list_elem_of_In, in_flat_map; exists n; split; [by apply list_elem_of_In | by apply list_elem_of_In, node_loop_in]. }
  assert (Hrest : Forall nested inner' /\ (forall n, n ∈ inner' -> exists L', node_loop n = Some L' /\ forall L x, l = Some L -> x ∈ L' -> x ∈ L) /\
    concat (map all_loops inner') ≡ₚ N :: concat (map all_loops inner)); [| tauto].
  subst inner'; clear Hmap Hap; induction inner as [| n inner IHi]; cbn [insert_inner].
  - conjs; [constructor; [| constructor]; constructor; [constructor | by intros n ?%not_elem_of_nil | by intros i j L M k _ Hi] | intros n ->%list_elem_of_singleton; by exists N | done].
  - apply Forall_cons in IH as [IHn IH], Hall as [Hn Hall]; cbn [map concat] in *.
    specialize (IHn Hn ltac:(intros L HL; apply Hfit, elem_of_app; by left)); destruct (TryInsertLoopAtNode h N n) as [n' |] eqn:E.
    + destruct (IHn n' eq_refl) as (Hn' & Hp); cbn [map concat]; conjs; [by constructor | | by rewrite Hp].
      intros m [-> | Hm]%elem_of_cons; [rewrite (insert_node_loop h N n n' E); apply Hin, elem_of_cons; by left | apply Hin, elem_of_cons; by right].
    + destruct (IHi Hall) as (H1 & H2 & H3); [intros L HL; apply Hfit, elem_of_app; by right | intros m Hm; apply Hin, elem_of_cons; by right | done |]; cbn [map concat]; conjs; [by constructor | |].
      * intros m [-> | Hm]%elem_of_cons; [apply Hin, elem_of_cons; by left | by apply H2].
      * rewrite H3; by rewrite Permutation_middle.
Qed.

Lemma insert_spec h N n : head N = Some h -> nested n -> (forall L, L ∈ all_loops n -> fits h N L) ->
  forall n', TryInsertLoopAtNode h N n = Some n' -> nested n' /\ all_loops n' ≡ₚ N :: all_loops n.
Proof.
  intros Hh; induction n as [l inner IH] using LoopTreeNode_nested_ind; intros Hn Hfit n'; inversion Hn as [? ? Hall Hin Hap]; subst; cbn [TryInsertLoopAtNode].
  destruct (match l with Some l => bool_decide (h ∉ l) | None => false end) eqn:Eh; [done |]; intros [= <-].
  assert (HN : forall L x, l = Some L -> x ∈ N -> x ∈ L).
  { intros L x -> Hx; apply bool_decide_eq_false, dec_stable in Eh; apply (Hfit L); [apply elem_of_app; left; by apply list_elem_of_singleton | done | done]. }
  destruct (insert_inner_nested h N l inner Hh Hall Hap) as (H1 & H2 & H3 & H4); [intros L HL; apply Hfit, elem_of_app; by right | done | done | done |].
  split; [by constructor |]; cbn [all_loops]; rewrite H4; by rewrite Permutation_middle.
Qed.

Section Tree.
Context `{!LoopSort} (ir : MachineIR) (Hwf : wf_graph ir).

(** Loops in the order of their sizes are inserted one after the other. *)
Lemma insert_loops loops : (forall L, L ∈ loops -> exists h, head L = Some h) ->
  (forall i j L N h, (i < j)%nat -> loops !! i = Some L -> loops !! j = Some N -> head N = Some h -> fits h N L) -> forall t,
  node_loop t = None -> nested t -> (forall L N h, L ∈ all_loops t -> N ∈ loops -> head N = Some h -> fits h N L) ->
  exists t', for_each InsertLoop loops t = Some t' /\ node_loop t' = None /\ nested t' /\ all_loops t' ≡ₚ loops ++ all_loops t.
Proof.
  induction loops as [| N loops IH]; intros Hhead Hfit t Hroot Hn Hold; cbn [for_each]; [by exists t |].
  destruct (Hhead N) as [h Hh]; [apply elem_of_cons; by left |].
  destruct (TryInsertLoopAtNode h N t) as [t1 |] eqn:E; [| destruct (insert_rejects h N t E) as (? & ? & _); congruence].
  destruct (insert_spec h N t Hh Hn) with (n' := t1) as [Hn1 Hp1]; [intros L HL; apply (Hold L N h HL); [apply elem_of_cons; by left | done] | done |].
  assert (InsertLoop N t = Some t1) as -> by (unfold InsertLoop; by rewrite Hh).
  cbn [mbind option_bind]; destruct (IH) with (t := t1) as (t' & -> & Hr' & Hn' & Hp'); try done.
  - intros L HL; apply Hhead, elem_of_cons; by right.
  - intros i j L M k Hij Hi Hj; apply (Hfit (S i) (S j) L M k); [lia | done | done].
  - by rewrite (insert_node_loop h N t t1 E).
  - intros L M k; rewrite Hp1, elem_of_cons; intros [-> | HL] HM Hk; [| apply Hold; [done | apply elem_of_cons; by right | done]].
    apply list_elem_of_lookup in HM as [j Hj]; apply (Hfit 0%nat (S j) N M k); [lia | done | done | done].
  - exists t'; conjs; try done; rewrite Hp', Hp1; by rewrite <- Permutation_middle.
Qed.

(** C22: the tree of loops.  On a well-formed graph that is not marked as ordered
    and whose first block has no predecessors, with fuel for every block, it is
    built without failing a check and holds every loop that was found once; the
    loop of an inner node lies within that of its node, and of two inner nodes of
    a node neither has the head of the other. *)
Theorem BuildLoopTree_nested fuel entry b :
  bb_order ir = kUnordered -> head (bb_list ir) = Some entry -> blocks ir !! entry = Some b -> in_edges b = [] -> (num_bb ir <= fuel)%nat ->
  exists loops t, FindLoops fuel ir = Some loops /\ BuildLoopTree fuel ir = Some t /\ all_loops t ≡ₚ loops /\ nested t.
Proof.
  intros Ho Hh Hb Hi Hf; destruct (reverse_post_order_found ir Hwf fuel entry b Ho Hh Hb Hi Hf) as (order & Horder & Hrp).
  destruct (FindLoops_found ir Hwf fuel order Horder (rp_enrolled _ _ _ Hrp) Hf) as (loops & Hl & Hnd & Hsound & _); exists loops.
  unfold BuildLoopTree; rewrite Hl; cbn [mbind option_bind]; set (sorted := sort_loops loops); assert (Hperm : sorted ≡ₚ loops) by apply sort_loops_perm.
  assert (Hdom : forall L h S, natural_loop ir h S L -> forall x, x ∈ L -> dominates ir entry h x) by (intros L h S Hnl x; by eapply natural_dominated).
  assert (Hnest : forall i j L N h k, i <> j -> sorted !! i = Some L -> sorted !! j = Some N -> head N = Some h -> head L = Some k -> h ∈ L -> forall x, x ∈ N -> x ∈ L).
  { intros i j L N h k Hij HiL HjN HhN HkL Hin.
    destruct (Hsound L) as (k' & [u Hu] & NL); [rewrite <- Hperm; by eapply list_elem_of_lookup_2 |]; destruct (Hsound N) as (h' & _ & NN); [rewrite <- Hperm; by eapply list_elem_of_lookup_2 |].
    assert (k' = k) as -> by (pose proof (nl_head _ _ _ _ NL); congruence); assert (h' = h) as -> by (pose proof (nl_head _ _ _ _ NN); congruence).
    eapply (natural_nested ir entry k _ L h _ N); [| exact NL | exact NN | by intros s [? _] | by eapply Hdom | by eapply Hdom | | done].
    - apply (rp_reach _ _ _ Hrp); destruct Hu as [_ Hr]; by apply retreating_elem in Hr as [_ ?].
    - intros ->; apply Hij; assert (Hnd' : NoDup (head <$> sorted)) by (by rewrite Hperm); apply (NoDup_lookup _ i j (Some h) Hnd'); rewrite list_lookup_fmap; [by rewrite HiL, <- HkL | by rewrite HjN, <- HhN]. }
  assert (Hheads : forall L, L ∈ sorted -> exists h, head L = Some h) by (intros L HL; destruct (Hsound L) as (h & _ & Hnl); [by rewrite <- Hperm | exists h; apply Hnl]).
  destruct (insert_loops sorted Hheads) with (t := Node None []) as (t & -> & _ & Hn & Hp); try done.
  - intros i j L N h Hij HiL HjN HhN; destruct (Hheads L) as [k Hk]; [by eapply list_elem_of_lookup_2 |]; split; [by eapply (Hnest i j); [lia | ..] |].
    intros k' Hk' Hin; assert (Hsub : forall x, x ∈ L -> x ∈ N) by (by eapply (Hnest j i); [lia | ..]).
    destruct (Hsound L) as (? & _ & NL); [rewrite <- Hperm; by eapply list_elem_of_lookup_2 |]; destruct N as [| y N]; [done |]; injection HhN as ->.
    assert (L ≡ₚ h :: N) as ->; [| apply elem_of_cons; by left]; apply submseteq_length_Permutation; [apply NoDup_submseteq; [apply NL | done] |].
    by apply (sort_loops_sorted loops i j).
  - constructor; [constructor | by intros n ?%not_elem_of_nil | by intros i j L M k _ Hi'].
  - by intros L N h ?%not_elem_of_nil.
  - exists t; conjs; [done | done | | done]; rewrite Hp, app_nil_r; apply Hperm.
Qed.

End Tree.
