(* ===== verification/LoopExamples.v ===== *)
(** * A graph with nested loops

    The analysis of loops on a graph, with an order for the sorts. *)
From stdpp Require Import gmap list sorting.
From S2P Require Import Prelude MachineIR Lifetime LifetimeAnalysis Liveness MachineIRCheck MachineSem ControlFlow OptimizerExamples LoopAnalysis LoopAnalysisProps.
#[local] Open Scope Z_scope.

Definition dst_le (x y : EdgePtr * MachineEdge) : Prop := (edge_dst x.2 <= edge_dst y.2)%nat.
#[export] Instance dst_le_dec : RelDecision dst_le := fun x y => le_dec (edge_dst x.2) (edge_dst y.2).
#[export] Instance dst_le_total : Total dst_le.
Proof. intros x y; unfold dst_le; lia. Qed.
#[export] Instance dst_le_trans : Transitive dst_le.
Proof. intros x y z; unfold dst_le; lia. Qed.

Definition size_ge (x y : list BlockPtr) : Prop := (length y <= length x)%nat.
#[export] Instance size_ge_dec : RelDecision size_ge := fun x y => le_dec (length y) (length x).
#[export] Instance size_ge_total : Total size_ge.
Proof. intros x y; unfold size_ge; lia. Qed.
#[export] Instance size_ge_trans : Transitive size_ge.
Proof. intros x y z; unfold size_ge; lia. Qed.

#[export] Instance merge_loops : LoopSort := {|
  sort_edges := merge_sort dst_le;
  sort_edges_perm := merge_sort_Permutation dst_le;
  sort_edges_sorted := merge_sort_lookup dst_le;
  sort_loops := merge_sort size_ge;
  sort_loops_perm := merge_sort_Permutation size_ge;
  sort_loops_sorted := merge_sort_lookup size_ge
|}.

(** Block 2 loops, and blocks 1, 2 and 3 do. *)
Definition loops_ir : MachineIR :=
  let ir := new_MachineIR 1 in
  let '(b0, ir) := NewBasicBlock ir in
  let '(b1, ir) := NewBasicBlock ir in
  let '(b2, ir) := NewBasicBlock ir in
  let '(b3, ir) := NewBasicBlock ir in
  let '(b4, ir) := NewBasicBlock ir in
  let ir := set_bb_list [b0; b1; b2; b3; b4] ir in
  let ir := AddEdge b3 b4 (AddEdge b3 b1 (AddEdge b2 b3 (AddEdge b2 b2 (AddEdge b1 b2 (AddEdge b0 b1 ir))))) in
  let ir := append_insns b0 [new_PseudoBranch b1] ir in
  let ir := append_insns b1 [new_PseudoBranch b2] ir in
  let ir := append_insns b2 [new_PseudoCondBranch 0 b2 b3 1024] ir in
  let ir := append_insns b3 [new_PseudoCondBranch 0 b1 b4 1024] ir in
  append_insns b4 [new_PseudoJump 64 kJumpWithPendingSignalsCheck] ir.

Example loops_found :
  FindLoops 5 loops_ir = Some [[1; 3; 2]; [2]]%nat /\ BuildLoopTree 5 loops_ir = Some (Node None [Node (Some [1; 3; 2]%nat) [Node (Some [2]%nat) []]]).
Proof. vm_compute; done. Qed.

Lemma GetReversePostOrderBBList_spec_witness :
  wf_graph loops_ir /\ exists l, GetReversePostOrderBBList 5 loops_ir = Some l /\ head l = Some 0%nat /\ NoDup l /\
    (forall x, x ∈ l <-> rtc (flow loops_ir) 0%nat x) /\ forall x y, x ∈ l -> flow loops_ir x y -> before l x y \/ rtc (flow loops_ir) y x.
Proof.
  assert (wf_graph loops_ir) as Hwf by (apply check_graph_sound; vm_compute; reflexivity); split; [exact Hwf |].
  eapply (GetReversePostOrderBBList_spec loops_ir Hwf 5 0); vm_compute; [reflexivity .. | lia].
Defined.

Lemma FindLoops_exact_witness :
  wf_graph loops_ir /\ exists order loops, GetReversePostOrderBBList 5 loops_ir = Some order /\ FindLoops 5 loops_ir = Some loops /\ NoDup (head <$> loops) /\
    (forall L, L ∈ loops -> exists h, (exists u, back_edge loops_ir order h u) /\ natural_loop loops_ir h (back_edge loops_ir order h) L /\
      forall r x, root loops_ir r -> x ∈ L -> dominates loops_ir r h x) /\
    forall h u, back_edge loops_ir order h u ->
      (exists L, L ∈ loops /\ head L = Some h) <-> forall r v, root loops_ir r -> back_edge loops_ir order h v -> dominates loops_ir r h v.
Proof.
  assert (wf_graph loops_ir) as Hwf by (apply check_graph_sound; vm_compute; reflexivity).
  split; [exact Hwf |]; eapply (FindLoops_exact loops_ir Hwf 5 0); [vm_compute; reflexivity .. | vm_compute; lia].
Defined.

Lemma BuildLoopTree_nested_witness :
  wf_graph loops_ir /\ exists loops t, FindLoops 5 loops_ir = Some loops /\ BuildLoopTree 5 loops_ir = Some t /\ all_loops t ≡ₚ loops /\ nested t.
Proof.
  assert (wf_graph loops_ir) as Hwf by (apply check_graph_sound; vm_compute; reflexivity); split; [exact Hwf |].
  eapply (BuildLoopTree_nested loops_ir Hwf 5 0); vm_compute; [reflexivity .. | lia].
Defined.
